(* ===== verification/_CoqProject ===== *)
-Q . S2P
Prelude.v
Numerics.v
TimeBase.v
TaskQueues.v
MessageLoop.v
MessageLoopRun.v
MessageLoopProps.v
QtPump.v
BrowserThreads.v
Startup.v
Timer.v
Pickle.v
ClientApp.v
StringNumbers.v
Unicode.v
Rings.v
CondVar.v
CondVarProps.v
WorkerPool.v
WorkerPoolProps.v
WorkerPoolLiveness.v
ObserverList.v
Values.v
PrefStores.v
PrefService.v
JsonWriter.v
JsonParser.v
JsonSafety.v
JsonReader.v
JsonGrammar.v
JsonAccept.v
JsonRoundTrip.v
JsonPrefStore.v
PrefFile.v
StdString.v
StringUtil.v
FilePath.v
FilePathProps.v
CommandLine.v
CommandLineProps.v
Version.v
StringReplace.v
StringMatch.v
SafeSPrintf.v
SafeSPrintfProps.v
Hashing.v
Md5.v
Sha1.v
WeakPtr.v
