(* ===== verification/Prelude.v ===== *)
(** * p528: a verification library for the trading client's runtime

    The repository is a Windows trading client for the CTP futures service:
    [src/mdgate] (and its copy [src/policy]) is the client, [src/content] the
    browser-style process skeleton that starts it and its named threads, and
    [src/base] the runtime library below both. This development models that
    runtime, from machine integers up to the client's own components, and proves
    what the parts promise each other. Paths below are relative to the
    repository's source directory; the build is the Windows one.

    ** The parts and how they meet

    A client thread runs a [MessageLoop]: other threads post closures to its
    incoming queue, a message pump waits for work and calls the loop's delegate
    methods, and [RunLoop] objects nest runs. [BrowserThreadImpl] keeps the
    registry of named threads and posts to their loops; [BrowserMainLoop] starts
    and stops those threads around one run of the main loop; [Timer] is a client
    of the loop. The client replaces the UI pump by one driven by Qt's event
    loop. [Pickle], the value trees with their JSON reader and writer, the string
    conversions and the checked integers are the data layer these parts and their
    peers use. [PrefService] answers for the preferences of seven stores; the user's
    are a [JsonPrefStore], a tree that is read from a JSON file, changed, and
    written back by an [ImportantFileWriter] some time after observers were told
    through an [ObserverList]. File and other blocking work runs on a
    [SequencedWorkerPool], whose threads wait on a condition variable.

    - [Prelude]: machine integers ([Int]), the conversions of C++, the shared
      lemmas and tactics.
    - [Numerics] ([base/numerics/]): [CheckedNumeric], [saturated_cast] and their
      overflow tests, bit by bit as in [safe_math_impl.h].
    - [TimeBase] ([base/time/time.cc], [time.h]): [TimeDelta], [TimeTicks] and
      the integer conversions of [Time], over [Numerics].
    - [TaskQueues] ([base/pending_task.cc],
      [base/message_loop/incoming_task_queue.cc]): posted tasks, the queue
      between threads, and the class [MessagePump], the interface through which a
      loop sees its pump.
    - [MessageLoop] ([base/message_loop/message_loop.cc], [base/run_loop.cc]): one
      definition per method, for any instance of [MessagePump].
    - [MessageLoopRun] ([message_pump_default.cc], the timed wait of
      [base/synchronization/waitable_event_win.cc]): the default pump, an instance
      of [MessagePump], and the machine of its [Run] with nested runs, running
      tasks and other threads' posts; the invariant of its reachable states.
    - [MessageLoopProps]: what that machine guarantees.
    - [QtPump] ([mdgate/browser/ui/messageloop_qt.cc]): the second instance of
      [MessagePump], and its handlers under Qt's event loops.
    - [BrowserThreads] ([content/browser_thread_impl.cc],
      [base/threading/thread.cc]): the registry and [PostTaskHelper], one shared
      access at a time, against the main thread starting and stopping threads.
    - [Startup] ([content/browser_main_loop.cc], [browser_main_runner.cc],
      [browser_main.cc], [startup_task_runner.cc]): the stages of the process, the
      embedder's hooks being a parameter. The program of thread operations it
      performs is the one [BrowserThreads] assumes, by theorem.
    - [Timer] ([base/timer/timer.cc]): the timer over an abstract task runner.
    - [Pickle] ([base/pickle.cc], [pickle.h]): writer, reader and [FindNext] over
      a memory of cells, for 32-bit and 64-bit targets.
    - [ClientApp] ([mdgate/browser/browser_process_impl.cc], [ctp/mdapi.cc],
      [ui/trading_widget.cc]): module counting, the rundown counter, the market
      data connection.
    - [StringNumbers] ([base/strings/string_number_conversions.cc]).
    - [Unicode] ([base/third_party/icu/icu_utf.cc], [icu_utf.h],
      [base/strings/utf_string_conversion_utils.cc],
      [utf_string_conversions.cc]): the UTF-8 and UTF-16 decoders and encoders.
    - [Values] ([base/values.cc], [values.h]): the tree of values, its dictionary
      and list operations. A string is either owned or a piece of a text in a
      store of allocations, so that its lifetime can be spoken about.
    - [Rings]: doubly linked rings in a memory of nodes, with the lemmas that cut a
      node in and out. [CondVar] ([base/synchronization/condition_variable_win.cc]):
      the condition variable for systems without one, its event lists link by link,
      and the machine of its waiters and signallers; [CondVarProps]: its theorems.
    - [WorkerPool] ([base/threading/sequenced_worker_pool.cc]): the methods of the
      pool's [Inner] and the machine of its workers, posts, shutdown and clock;
      [WorkerPoolProps]: its invariants, order and shutdown; [WorkerPoolLiveness]:
      who acts next, and that the pool does not get stuck.
    - [ObserverList] ([base/observer_list.h]): the list of observers, its iterators
      and the notification macro, with nested notifications; and the specification
      it refines.
    - [PrefStores] ([base/prefs/pref_value_map.cc], [value_map_pref_store.cc],
      [default_pref_store.cc], [pref_registry.cc], [overlay_user_pref_store.cc]):
      the stores, the classes [PrefStore] and [WriteablePrefStore] of their
      operations, and the class [WriteableLaws] of what they promise, which the map
      store discharges and the overlay discharges over any store that does.
    - [PrefService] ([pref_value_store.cc], [pref_service.cc],
      [pref_notifier_impl.cc], [pref_change_registrar.cc]): the service over any
      lawful store.
    - [JsonPrefStore] ([json_pref_store.cc], [base/files/important_file_writer.cc],
      [base/json/json_file_value_serializer.cc]): a third lawful store, and the
      machine of the store with its disk, file tasks, timer and clients.
    - [PrefFile]: the invariants of that machine.
    - [JsonWriter] ([base/json/json_writer.cc], [string_escape.cc]): the tree to a
      text.
    - [JsonParser] ([base/json/json_parser.cc]): the parser as a state monad over
      its position, index, depth and error, one definition per method; a read
      outside its memory stops it.
    - [JsonSafety]: a weakest-precondition rule per method of the parser: it stays
      in its memory, ends, restores its depth, and returns well-formed values.
    - [JsonReader] ([json_reader.cc], the hidden roots and [Parse] of
      [json_parser.cc]): who owns the text the strings of a tree point into.
    - [JsonGrammar]: the JSON grammar as a relation between texts and values,
      independent of the parser.
    - [JsonAccept]: the parser reads what the grammar derives.
    - [JsonRoundTrip]: the writer derives in the grammar, hence the round trip.
    - [StdString]: the operations of [std::basic_string] on lists of characters, with
      their positions, [npos] and errors. [StringUtil]
      ([base/strings/string_util.cc], [string_util.h], [string_split.cc]): the string
      helpers on top of them, each with its specification.
    - [StringReplace], [StringMatch] (also [string_util.cc]): substrings replaced in
      place, and wildcard patterns on UTF-8 and UTF-16 texts.
    - [FilePath] ([base/files/file_path.cc], [file_path_constants.cc]): paths with
      drive letters and two separators; [FilePathProps]: its theorems.
    - [CommandLine] ([base/command_line.cc]): words, switches and their text;
      [CommandLineProps]: the documented rules of the system's [CommandLineToArgvW] as
      relations, and the round trip through them.
    - [Version] ([base/version.cc]): parsing, printing, comparing, wildcards.
    - [SafeSPrintf] ([base/strings/safe_sprintf.cc]): formatting into the caller's
      memory; [SafeSPrintfProps]: the text that is printed, and how much of it.
    - [Hashing]: words in little-endian memory and hashing by blocks; [Md5]
      ([base/md5.cc]), [Sha1] ([base/sha1_portable.cc]): the code, the standard's
      algorithm, and that they agree.
    - [WeakPtr] ([base/memory/weak_ptr.h], [weak_ptr.cc], [ref_counted.h],
      [ref_counted.cc]): weak pointers, the flags and the counts behind them.

    ** How code becomes definitions

    A struct or class is a record with the source's field names, a method a
    function from state to state. A failed [CHECK] or [DCHECK], undefined
    behaviour and bad memory accesses are an answer of their own ([None], [Crash],
    [CheckFailed], [NullDereference]), so that theorems have to exclude them.
    Where threads interleave, a part is a machine: its state, an [Event] type with
    one constructor per atomic action of the code or its environment, and a step
    function; [reachable] is the inductive closure. Each step holds at most the
    work one lock, one delegate call or one shared access makes atomic. Client
    code (closures, hooks, event handlers) is unconstrained: it appears as events
    that may happen whenever such code runs. Integers are [Z] with the wrap
    written out ([Int.static_cast]); where the C++ would be undefined the model
    either stops or says which value it takes.

    ** What the theorems show

    - Message loop: every accepted task is in exactly one place until it runs and
      none is lost; immediate tasks run in posting order; delayed tasks never
      early; a quit takes effect when the running task returns; the pump sleeps
      only when there is nothing to do, and a run whose tasks return comes to its end
      or to a wait with nothing to do after finitely many steps, though the wait itself
      may end early; no reachable state crashes, provided tasks do not start a run after
      they have quit theirs, nor run the outermost loop with tasks disallowed.
    - Qt pump: no work is forgotten, provided no modal loop runs inside a task
      of [timerEvent] and nested tasks are not allowed; and with such a modal loop the
      message loop can hang until someone allows them.
    - Threads: the registered threads are a prefix of the enumeration; a post of a
      browser thread to itself or a thread before it takes no lock, never waits and
      always succeeds, in every interleaving; the
      cases where the registry's lock does not protect a post are exhibited.
    - Worker pool: its books are exact in every reachable state; the tasks of a
      sequence run one at a time and in order; no wakeup is lost, so that until
      shutdown a due task waits only for busy threads; left to itself the pool comes to rest;
      shutdown waits for what it promises and, as long as only workers post after
      it was called, for nothing that never happens.
    - Condition variable: in every interleaving its two rings of events are the
      specification's list of waiters; no signal is lost; the destructor frees what
      was allocated. [WorkerPool] relies on what the specification says of any
      condition variable, and leaves open which waiter a signal takes.
    - Startup: the order of the stages and of the thread operations, equivalence
      of the asynchronous and the synchronous startup, at-most-once execution,
      and the uninitialised flag read after an early exit.
    - Timer: refinement of a timer that has nothing but a deadline, neither early nor
      later than the task runner.
    - Pickle: round trip of every field sequence through the bytes, memory safety
      of every read sequence on arbitrary bytes, framing by [FindNext], and two
      operations that break their documentation.
    - Numbers: checked arithmetic is exact or reports the right error, with the
      instances where it traps or wraps; time arithmetic saturates; integer
      parsing agrees with a parser over unbounded integers.
    - Unicode: the table-driven UTF-8 decoder is a textbook decoder on every byte
      string; conversion to UTF-16 and back repairs a string and no more.
    - Values: nested dictionaries are a map from paths, for setting and both ways of
      removing, and stay well formed; merging is characterised key by key.
    - JSON: safety of the reader on arbitrary bytes, lifetime of what a root hands
      out, acceptance of every text of the grammar, the round trip through the
      writer, the exact nesting limit; with the inputs on which reader and writer
      disagree with each other or with the grammar.
    - Observer lists: under any nesting of notifications the list tells exactly the
      observers that are registered when their turn comes, in order.
    - Preferences: a registered preference always reads as a value of its type;
      setting, clearing and reporting have the effect and the reports they should,
      for every lawful store. The file is never torn, and is lost only when the system's
      replacement fails half way; the strings of a loaded tree outlive every reload; a
      change is written, will be, or has no text; and contents that have a text are what
      the next start reads.
    - Strings: trimming, tokens, splitting, joining, replacing and collapsing do on
      every string what their list specifications say; replacing substrings in place is
      joining the pieces between the matches, except where its backward search goes
      wrong; wildcard matching is exact up to its limit on recursion.
    - Paths: taking a path apart ends and gives exactly its drive, root and names; a
      name appended is found again; the extension and what is left make up the path.
    - Command lines: what is printed is read back, by the documented rules, as the same
      words and the same command line; the words for which it is not are exhibited.
    - Versions: comparing is a total preorder, printing is undone by parsing, and a
      wildcard compares a prefix.
    - Safe formatting: whatever the format and the arguments, nothing is written outside of
      the buffer, which gets as much as fits of the text they stand for; the result is the
      length of the whole text, up to the greatest size.
    - Digests: for every division of a message into updates the digest is the one of the
      standard, of which the constants, too, are computed: from sines and square roots.
    - Weak pointers: no sequence of operations of a client uses a flag after its deletion,
      and the pointers are a table of the valid ones, without flags.
    - Client: the process quits exactly once, the rundown wait is exact, and no sequence
      of buttons follows a null connection or repeats a request's number.

    ** Bounds and fuel

    Most loops are structural on a queue, a string or a buffer position, and [Run]
    is a step relation whose termination is a theorem with an explicit measure
    ([MessageLoopProps.run_comes_to_rest], [WorkerPoolLiveness.pool_comes_to_rest]).
    The loops over event lists take the size of the memory, which no list exceeds.
    The loops of the JSON parser take as fuel the bytes that are left, which every turn
    consumes, and its recursion the levels left below [kStackMaxDepth]; out of fuel is
    a crash like any other, so that [JsonReader.json_reader_is_safe] proves both
    sufficient. The loops over the dots of a dictionary's path, over the separators and
    directories of a file path and over the characters of a string take its length; the
    equations of these functions show that it is enough. A number is formatted in at most
    64 digits, two characters of prefix and as many of padding as the buffer can hold, after
    which the padding is only counted. Theorems state the sizes they
    need: pickles of at most a gigabyte (so that doubling the capacity stays within 32
    bits), data shorter than [2^31] bytes (the type of [data_len]), clocks within
    [int64], and, for the default pump, posts delayed by less than the 49.7 days that its
    wait can time. The references to a flag of weak pointers are counted without a bound:
    2^31 of them do not fit into the memory of a 32-bit process. The clock does not move
    within a call of a timer.

    ** What is not modelled

    Floating point and its conversions: a double is its bits, the conversions
    [StringToDouble] and [DoubleToString] are parameters, as is the C library's
    white space test; logging, tracing, histograms and the
    crash reporter, which observe only; the operating system, Qt and the CTP
    library, which are the machines' environments or recorded calls; the layout
    of windows; observers of the message loop; the other platforms' pumps; the
    worker pool's cleanup for tests and its token for the current thread; placeholders
    of strings; pickling and re-encoding paths; weak pointers that other threads copy
    while they are looked at, and [SupportsWeakPtr]; the container
    templates; the typed and 16-bit
    variants of the value getters; the condition variable of newer systems, whose
    methods are calls of the system. *)

From stdpp Require Import base gmap sets list strings numbers.
From Stdlib Require Import ZArith Lia.

(** Case splits on the integer comparisons of the goal, closed by [lia]. *)
Ltac cmp_lia :=
  repeat match goal with
  | |- context [(?a <? ?b)%Z] => destruct (Z.ltb_spec a b); simpl
  | |- context [(?a <=? ?b)%Z] => destruct (Z.leb_spec a b); simpl
  | |- context [(?a =? ?b)%Z] => destruct (Z.eqb_spec a b); simpl
  end; try done; try (exfalso; lia); try lia.

(** ** Machine integers

    An integral C++ type is its size in bytes and its signedness, as
    [std::numeric_limits] describes it. Values are mathematical integers; every
    place where the code converts or wraps writes [static_cast]. *)
Module Int.
Local Open Scope Z_scope.

Record type := Type_ { size : Z; is_signed : bool }.

#[export] Instance type_eq_dec : EqDecision type.
Proof. solve_decision. Defined.

Definition int8 := Type_ 1 true.
Definition uint8 := Type_ 1 false.
Definition int16 := Type_ 2 true.
Definition uint16 := Type_ 2 false.
Definition int32 := Type_ 4 true.
Definition uint32 := Type_ 4 false.
Definition int64 := Type_ 8 true.
Definition uint64 := Type_ 8 false.

(** The eight types [IntegerForSizeAndSign] enumerates. *)
Definition is_integral (t : type) : bool :=
  bool_decide (size t = 1 \/ size t = 2 \/ size t = 4 \/ size t = 8).

Definition bits (t : type) : Z := 8 * size t.
Definition modulus (t : type) : Z := 2 ^ bits t.
Definition max (t : type) : Z :=
  if is_signed t then 2 ^ (bits t - 1) - 1 else 2 ^ bits t - 1.
Definition min (t : type) : Z :=
  if is_signed t then - 2 ^ (bits t - 1) else 0.

Definition in_range (t : type) (z : Z) : Prop := min t <= z <= max t.
#[export] Instance in_range_dec t z : Decision (in_range t z).
Proof. unfold in_range. apply _. Defined.

(** Conversion to an unsigned type is modular; to a signed type it is the
    two's complement reading of the low bits. *)
Definition static_cast (t : type) (z : Z) : Z :=
  let u := z mod modulus t in
  if is_signed t && (2 ^ (bits t - 1) <=? u) then u - modulus t else u.

(** *** Lemmas *)

#[local] Ltac Zify.zify_post_hook ::= Z.to_euclidean_division_equations.

Lemma integral_cases t :
  is_integral t = true ->
  t = int8 \/ t = uint8 \/ t = int16 \/ t = uint16 \/
  t = int32 \/ t = uint32 \/ t = int64 \/ t = uint64.
Proof.
  destruct t as [s []]; unfold is_integral; rewrite bool_decide_eq_true; simpl;
    intros [-> | [-> | [-> | ->]]]; auto 10.
Qed.

(** Splits on the eight integral types and evaluates their constants. *)
Ltac int_cases H :=
  apply integral_cases in H; destruct H as [-> | [-> | [-> | [-> | [-> | [-> | [-> | ->]]]]]]].

Ltac int_compute :=
  cbv [in_range min max static_cast modulus bits size is_signed int8 uint8 int16
       uint16 int32 uint32 int64 uint64 andb orb negb] in *;
  repeat match goal with
  | |- context [2 ^ ?e] => let v := eval vm_compute in (2 ^ e) in change (2 ^ e) with v
  | H : context [2 ^ ?e] |- _ => let v := eval vm_compute in (2 ^ e) in change (2 ^ e) with v in H
  end.

Lemma static_cast_in_range t z :
  is_integral t = true -> in_range t (static_cast t z).
Proof. intros H; int_cases H; int_compute; cmp_lia. Qed.

Lemma static_cast_id t z :
  is_integral t = true -> in_range t z -> static_cast t z = z.
Proof. intros H; int_cases H; int_compute; intros; cmp_lia. Qed.

Lemma static_cast_mod t z :
  is_integral t = true -> static_cast t (z mod modulus t) = static_cast t z.
Proof. intros H; int_cases H; int_compute; cmp_lia. Qed.
End Int.

(** ** Bits *)

(** An or of disjoint bits is a sum. *)
Lemma lor_disjoint n a b : (0 <= n -> 0 <= b < 2 ^ n -> Z.lor (a * 2 ^ n) b = a * 2 ^ n + b)%Z.
Proof.
  intros Hn Hb. symmetry. rewrite <- Z.add_lor_land.
  replace (Z.land (a * 2 ^ n)%Z b) with 0%Z; [lia|].
  symmetry. rewrite <- Z.shiftl_mul_pow2 by done.
  rewrite <- (Z.mod_small b (2 ^ n)%Z) by done. rewrite <- Z.land_ones by done.
  rewrite (Z.land_comm b), Z.land_assoc, <- (Z.land_0_l b). f_equal.
  rewrite Z.land_ones by done. rewrite Z.shiftl_mul_pow2 by done.
  apply Z.mod_mul. lia.
Qed.

(** ** C strings *)

(** The part of a buffer before its first NUL: what a C function sees of it. *)
Fixpoint c_string (s : list Z) : list Z :=
  match s with
  | [] => []
  | c :: s => if (c =? 0)%Z then [] else c :: c_string s
  end.

Lemma c_string_id s : Forall (fun c => c <> 0%Z) s -> c_string s = s.
Proof.
  induction 1 as [|c s Hc Hs IH]; simpl; [done|].
  by rewrite (proj2 (Z.eqb_neq _ _)), IH.
Qed.

(** ** Lists *)

(** A list with one element replaced, up to order. *)
Lemma list_split {A} (l : list A) i x :
  l !! i = Some x -> exists rest, l ≡ₚ x :: rest /\ forall y, <[i := y]> l ≡ₚ y :: rest.
Proof.
  intros Hi. exists (take i l ++ drop (S i) l).
  pose proof (lookup_lt_Some _ _ _ Hi) as Hlt.
  assert (forall y, <[i := y]> l = take i l ++ y :: drop (S i) l) as Hins
    by (intros y; by apply insert_take_drop).
  split.
  - rewrite <- (take_drop_middle l i x Hi) at 1. by rewrite Permutation_middle.
  - intros y. rewrite Hins. by rewrite Permutation_middle.
Qed.

Lemma elem_insert {A} (l : list A) n x y : x ∈ <[n := y]> l -> x = y \/ x ∈ l.
Proof.
  intros H. destruct (l !! n) as [z|] eqn:E.
  - destruct (list_split l n z E) as (rest & Hold & Hnew). rewrite (Hnew y) in H. rewrite Hold.
    apply elem_of_cons in H as [->|H]; [by left | right; by right].
  - right. by rewrite list_insert_ge in H by (by apply lookup_ge_None_1).
Qed.

Lemma filter_other `{EqDecision A} (l : list A) x : x ∉ l -> filter (fun y => y <> x) l = l.
Proof.
  induction l as [|y l IH]; intros Hx; [done|]. apply not_elem_of_cons in Hx as [Hne Hx].
  rewrite filter_cons_True by done. by rewrite IH.
Qed.

Lemma Forall2_in {A B} (P Q : A -> B -> Prop) l k :
  Forall2 P l k -> (forall x y, x ∈ l -> P x y -> Q x y) -> Forall2 Q l k.
Proof.
  induction 1 as [|x y l k Hp _ IH]; intros H; constructor.
  - apply H; [by left | done].
  - apply IH. intros u v Hu. apply H. by right.
Qed.
