(* ===== verification/Numerics.v ===== *)
(** * Checked integer arithmetic: src/src/base/numerics

    Integral instances of [safe_conversions_impl.h], [safe_conversions.h],
    [safe_math_impl.h] and [safe_math.h]. A result of [None] stands for the
    integer division by zero the C++ expression would execute. *)

From stdpp Require Import base numbers list.
From Stdlib Require Import ZArith Lia.
From S2P Require Import Prelude.

Local Open Scope Z_scope.
Import Int.

(** ** Range constraints: [safe_conversions_impl.h] *)

Inductive RangeConstraint :=
  | RANGE_VALID | RANGE_UNDERFLOW | RANGE_OVERFLOW | RANGE_INVALID.

#[export] Instance RangeConstraint_eq_dec : EqDecision RangeConstraint.
Proof. solve_decision. Defined.

(** The enumerators' values: two bits, [UNDERFLOW] and [OVERFLOW]. *)
Definition constraint_bits (c : RangeConstraint) : Z :=
  match c with
  | RANGE_VALID => 0 | RANGE_UNDERFLOW => 1 | RANGE_OVERFLOW => 2 | RANGE_INVALID => 3
  end.

(** [GetRangeConstraint(int)]: the cast back from the bits; arguments outside
    [RANGE_VALID..RANGE_INVALID] are excluded by the DCHECK. *)
Definition GetRangeConstraint (n : Z) : RangeConstraint :=
  if n =? 0 then RANGE_VALID else if n =? 1 then RANGE_UNDERFLOW
  else if n =? 2 then RANGE_OVERFLOW else RANGE_INVALID.

(** [a | b] on two constraints followed by the cast back. *)
Definition constraint_or (a b : RangeConstraint) : RangeConstraint :=
  GetRangeConstraint (Z.lor (constraint_bits a) (constraint_bits b)).

(** [GetRangeConstraint(bool is_in_upper_bound, bool is_in_lower_bound)]. *)
Definition GetRangeConstraintBounds (upper lower : bool) : RangeConstraint :=
  GetRangeConstraint (Z.lor (if upper then 0 else constraint_bits RANGE_OVERFLOW)
                            (if lower then 0 else constraint_bits RANGE_UNDERFLOW)).

(** [MaxExponent<T>]: one more than the number of non-sign bits. *)
Definition MaxExponent (t : type) : Z := bits t + 1 - Z.b2z (is_signed t).

(** [StaticDstRangeRelationToSrcRange<Dst, Src>]: [true] is
    [NUMERIC_RANGE_CONTAINED]. *)
Definition StaticDstContainsSrc (dst src : type) : bool :=
  match is_signed dst, is_signed src with
  | true, true | false, false => MaxExponent src <=? MaxExponent dst
  | true, false => MaxExponent src <? MaxExponent dst
  | false, true => false
  end.

(** [DstRangeRelationToSrcRange<Dst>(Src value)], one branch per partial
    specialization of [DstRangeRelationToSrcRangeImpl]. *)
Definition DstRangeRelationToSrcRange (dst src : type) (value : Z) : RangeConstraint :=
  if StaticDstContainsSrc dst src then RANGE_VALID else
  match is_signed dst, is_signed src with
  | true, true => GetRangeConstraintBounds (value <=? max dst) (min dst <=? value)
  | false, false => GetRangeConstraintBounds (value <=? max dst) true
  | true, false =>
      if size src <? size dst then RANGE_VALID
      else GetRangeConstraintBounds (value <=? static_cast src (max dst)) true
  | false, true =>
      if MaxExponent src <=? MaxExponent dst
      then GetRangeConstraintBounds true (0 <=? value)
      else GetRangeConstraintBounds (value <=? static_cast src (max dst)) (0 <=? value)
  end.

(** ** Casts: [safe_conversions.h] *)

Definition IsValueInRangeForNumericType (dst src : type) (value : Z) : bool :=
  bool_decide (DstRangeRelationToSrcRange dst src value = RANGE_VALID).

(** [checked_cast]: [None] is the CHECK failing. *)
Definition checked_cast (dst src : type) (value : Z) : option Z :=
  if IsValueInRangeForNumericType dst src value then Some (static_cast dst value) else None.

(** [saturated_cast]: [None] is the CHECK(false) of the NaN case. *)
Definition saturated_cast (dst src : type) (value : Z) : option Z :=
  match DstRangeRelationToSrcRange dst src value with
  | RANGE_VALID => Some (static_cast dst value)
  | RANGE_UNDERFLOW => Some (min dst)
  | RANGE_OVERFLOW => Some (max dst)
  | RANGE_INVALID => None
  end.

(** ** Portable checked operations: [safe_math_impl.h] *)

(** [UnsignedIntegerForSize], [SignedIntegerForSize] and [TwiceWiderInteger]. *)
Definition UnsignedIntegerForSize (t : type) : type := Type_ (size t) false.
Definition SignedIntegerForSize (t : type) : type := Type_ (size t) true.
Definition TwiceWiderInteger (t : type) : type := Type_ (size t * 2) (is_signed t).

Definition PositionOfSignBit (t : type) : Z := 8 * size t - 1.

Definition HasSignBit (t : type) (x : Z) : bool :=
  negb (Z.shiftr (static_cast (UnsignedIntegerForSize t) x) (PositionOfSignBit t) =? 0).

Definition BinaryComplement (t : type) (x : Z) : Z := static_cast t (Z.lnot x).

Definition CheckedAdd (t : type) (x y : Z) : Z * RangeConstraint :=
  let u := UnsignedIntegerForSize t in
  let ux := static_cast u x in
  let uy := static_cast u y in
  let uresult := static_cast u (ux + uy) in
  (static_cast t uresult,
   if is_signed t then
     if HasSignBit u (BinaryComplement u (Z.land (Z.lxor uresult ux) (Z.lxor uresult uy)))
     then RANGE_VALID
     else if HasSignBit u uresult then RANGE_OVERFLOW else RANGE_UNDERFLOW
   else if y <=? BinaryComplement t x then RANGE_VALID else RANGE_OVERFLOW).

Definition CheckedSub (t : type) (x y : Z) : Z * RangeConstraint :=
  let u := UnsignedIntegerForSize t in
  let ux := static_cast u x in
  let uy := static_cast u y in
  let uresult := static_cast u (ux - uy) in
  (static_cast t uresult,
   if is_signed t then
     if HasSignBit u (BinaryComplement u (Z.land (Z.lxor uresult ux) (Z.lxor ux uy)))
     then RANGE_VALID
     else if HasSignBit u uresult then RANGE_OVERFLOW else RANGE_UNDERFLOW
   else if y <=? x then RANGE_VALID else RANGE_UNDERFLOW).

(** C++ integer division truncates; division by zero is undefined, and so is the
    remainder when the quotient overflows (the divide instruction traps). *)
Definition cdiv (x y : Z) : option Z := if y =? 0 then None else Some (Z.quot x y).
Definition rem_overflows (t : type) (x y : Z) : bool :=
  is_signed t && (x =? min t) && (y =? -1).
Definition crem (t : type) (x y : Z) : option Z :=
  if (y =? 0) || rem_overflows t x y then None else Some (Z.rem x y).

(** [sizeof(uintmax_t)]. *)
Definition sizeof_uintmax : Z := 8.

(** The fast case of [CheckedMul]: a type at most half of [uintmax_t]. *)
Definition CheckedMulWide (t : type) (x y : Z) : Z * RangeConstraint :=
  let w := TwiceWiderInteger t in
  let tmp := static_cast w (static_cast w x * static_cast w y) in
  (static_cast t tmp, DstRangeRelationToSrcRange t w tmp).

(** The slow signed case. The first test returns without writing [*validity],
    which every caller initialises to [RANGE_VALID]; the [None] of a division
    is the one [x == 0 && y < 0] reaches. *)
Definition CheckedMulSlowSigned (t : type) (x y : Z) : option (Z * RangeConstraint) :=
  if (x =? 0) && (y =? 0) then Some (constraint_bits RANGE_VALID, RANGE_VALID) else
  validity ← (if 0 <? x then
                if 0 <? y then
                  q ← cdiv (max t) y;
                  Some (if x <=? q then RANGE_VALID else RANGE_OVERFLOW)
                else
                  q ← cdiv (min t) x;
                  Some (if q <=? y then RANGE_VALID else RANGE_UNDERFLOW)
              else
                if 0 <? y then
                  q ← cdiv (min t) y;
                  Some (if q <=? x then RANGE_VALID else RANGE_UNDERFLOW)
                else
                  q ← cdiv (max t) x;
                  Some (if q <=? y then RANGE_VALID else RANGE_OVERFLOW));
  Some (static_cast t (x * y), validity).

Definition CheckedMulSlowUnsigned (t : type) (x y : Z) : option (Z * RangeConstraint) :=
  validity ← (if y =? 0 then Some RANGE_VALID else
              q ← cdiv (max t) y;
              Some (if x <=? q then RANGE_VALID else RANGE_OVERFLOW));
  Some (static_cast t (x * y), validity).

Definition CheckedMul (t : type) (x y : Z) : option (Z * RangeConstraint) :=
  if size t * 2 <=? sizeof_uintmax then Some (CheckedMulWide t x y)
  else if is_signed t then CheckedMulSlowSigned t x y
  else CheckedMulSlowUnsigned t x y.

Definition CheckedDiv (t : type) (x y : Z) : option (Z * RangeConstraint) :=
  if is_signed t && (x =? min t) && (y =? static_cast t (-1))
  then Some (min t, RANGE_OVERFLOW)
  else q ← cdiv x y; Some (static_cast t q, RANGE_VALID).

Definition CheckedMod (t : type) (x y : Z) : option (Z * RangeConstraint) :=
  let validity :=
    if is_signed t then (if 0 <? y then RANGE_VALID else RANGE_INVALID) else RANGE_VALID in
  r ← crem t x y; Some (static_cast t r, validity).

(** Negation and absolute value. The signed negation of the minimum wraps to the
    minimum, as the source's comment has it. *)
Definition CheckedNeg (t : type) (value : Z) : Z * RangeConstraint :=
  if is_signed t then
    (static_cast t (- value), if negb (value =? min t) then RANGE_VALID else RANGE_OVERFLOW)
  else
    (static_cast t (- static_cast (SignedIntegerForSize t) value),
     if negb (value =? 0) then RANGE_UNDERFLOW else RANGE_VALID).

Definition CheckedAbs (t : type) (value : Z) : Z * RangeConstraint :=
  if is_signed t then
    (static_cast t (Z.abs value), if negb (value =? min t) then RANGE_VALID else RANGE_OVERFLOW)
  else (value, RANGE_VALID).

(** ** [CheckedNumericState<T, NUMERIC_INTEGER>] and [CheckedNumeric<T>] *)

(** The C++ type parameter is the [type] index carried by the operations. *)
Record CheckedNumeric := CheckedNumeric_ { ValueUnsafe : Z; validity : RangeConstraint }.

(** [CheckedNumericState(Src value, RangeConstraint validity)]. *)
Definition CheckedNumericState (t src : type) (value : Z) (v : RangeConstraint) : CheckedNumeric :=
  CheckedNumeric_ (static_cast t value)
                  (constraint_or v (DstRangeRelationToSrcRange t src value)).

(** [CheckedNumeric(Src value)]. *)
Definition CheckedNumeric_of (t src : type) (value : Z) : CheckedNumeric :=
  CheckedNumeric_ (static_cast t value) (DstRangeRelationToSrcRange t src value).

(** [CheckedNumeric<T>::cast], both from another numeric type and the identity. *)
Definition CheckedNumeric_cast (t src : type) (n : CheckedNumeric) : CheckedNumeric :=
  if decide (t = src) then n else CheckedNumericState t src (ValueUnsafe n) (validity n).

Definition IsValid (n : CheckedNumeric) : bool := bool_decide (validity n = RANGE_VALID).

Definition ValueOrDie (n : CheckedNumeric) : option Z :=
  if IsValid n then Some (ValueUnsafe n) else None.

Definition ValueOrDefault (n : CheckedNumeric) (default_value : Z) : Z :=
  if IsValid n then ValueUnsafe n else default_value.

(** [ArithmeticPromotion<Lhs, Rhs>]. *)
Definition ArithmeticPromotion (lhs rhs : type) : type :=
  if MaxExponent rhs <? MaxExponent lhs
  then (if MaxExponent int32 <? MaxExponent lhs then lhs else int32)
  else (if MaxExponent int32 <? MaxExponent rhs then rhs else int32).

(** [IsIntegerArithmeticSafe<T, Lhs, Rhs>]. *)
Definition IsIntegerArithmeticSafe (t lhs rhs : type) : bool :=
  StaticDstContainsSrc t lhs && (2 * size lhs <=? size t) &&
  negb (StaticDstContainsSrc t rhs) && (2 * size rhs <=? size t).

Inductive ArithmeticOp := OpAdd | OpSub | OpMul | OpDiv | OpMod.

(** [Checked##NAME]. *)
Definition Checked (op : ArithmeticOp) (t : type) (x y : Z) : option (Z * RangeConstraint) :=
  match op with
  | OpAdd => Some (CheckedAdd t x y)
  | OpSub => Some (CheckedSub t x y)
  | OpMul => CheckedMul t x y
  | OpDiv => CheckedDiv t x y
  | OpMod => CheckedMod t x y
  end.

(** The unchecked [lhs OP rhs] of the fast path, in type [t]. *)
Definition plain_op (op : ArithmeticOp) (t : type) (x y : Z) : option Z :=
  match op with
  | OpAdd => Some (static_cast t (x + y))
  | OpSub => Some (static_cast t (x - y))
  | OpMul => Some (static_cast t (x * y))
  | OpDiv => cdiv x y
  | OpMod => crem t x y
  end.

(** The operator for two [CheckedNumeric<T>]: the result has type
    [CheckedNumeric<ArithmeticPromotion<T>>], but the raw result is first cast
    to [T]. *)
Definition CheckedNumeric_op (op : ArithmeticOp) (t : type) (lhs rhs : CheckedNumeric)
    : option CheckedNumeric :=
  let promotion := ArithmeticPromotion t t in
  if IsIntegerArithmeticSafe promotion t t then
    v ← plain_op op promotion (ValueUnsafe lhs) (ValueUnsafe rhs);
    Some (CheckedNumericState promotion promotion v
            (constraint_or (validity rhs) (validity lhs)))
  else
    '(r, v) ← Checked op promotion (static_cast promotion (ValueUnsafe lhs))
                                   (static_cast promotion (ValueUnsafe rhs));
    Some (CheckedNumericState promotion t (static_cast t r)
            (constraint_or (constraint_or v (validity lhs)) (validity rhs))).

(** The operator for [CheckedNumeric<L>] and [CheckedNumeric<R>], [L <> R]. *)
Definition CheckedNumeric_op_mixed (op : ArithmeticOp) (l r : type) (lhs rhs : CheckedNumeric)
    : option CheckedNumeric :=
  let promotion := ArithmeticPromotion r l in
  if IsIntegerArithmeticSafe promotion r l then
    v ← plain_op op promotion (ValueUnsafe lhs) (ValueUnsafe rhs);
    Some (CheckedNumericState promotion promotion v
            (constraint_or (validity rhs) (validity lhs)))
  else
    CheckedNumeric_op op promotion
      (CheckedNumeric_cast promotion l lhs) (CheckedNumeric_cast promotion r rhs).

(** [operator-()] and [Abs()]. *)
Definition CheckedNumeric_neg (t : type) (n : CheckedNumeric) : CheckedNumeric :=
  let '(v, c) := CheckedNeg t (ValueUnsafe n) in
  CheckedNumericState t t v (constraint_or (validity n) c).

Definition CheckedNumeric_abs (t : type) (n : CheckedNumeric) : CheckedNumeric :=
  let '(v, c) := CheckedAbs t (ValueUnsafe n) in
  CheckedNumericState t t v (constraint_or (validity n) c).

Definition mk64 (z : Z) := CheckedNumeric_of int64 int64 z.

(** ** Specification: exact arithmetic and its classification *)

(** Where a mathematical result lies with respect to a type's range. *)
Definition classify (t : type) (z : Z) : RangeConstraint :=
  if z <? min t then RANGE_UNDERFLOW else if max t <? z then RANGE_OVERFLOW else RANGE_VALID.

Definition exact (op : ArithmeticOp) (x y : Z) : Z :=
  match op with
  | OpAdd => x + y | OpSub => x - y | OpMul => x * y
  | OpDiv => Z.quot x y | OpMod => Z.rem x y
  end.

(** The operand pairs on which the operation executes a division that traps. *)
Definition traps (op : ArithmeticOp) (t : type) (x y : Z) : bool :=
  match op with
  | OpMul => (8 <=? size t) && is_signed t && (x =? 0) && (y <? 0)
  | OpDiv => y =? 0
  | OpMod => (y =? 0) || rem_overflows t x y
  | _ => false
  end.

Definition valid_of (x : Z) : CheckedNumeric := CheckedNumeric_ x RANGE_VALID.

(** ** Lemmas *)

#[local] Ltac Zify.zify_post_hook ::= Z.to_euclidean_division_equations.

Ltac int_compute :=
  cbv [in_range classify min max static_cast modulus bits size is_signed int8 uint8 int16
       uint16 int32 uint32 int64 uint64 andb orb negb
       UnsignedIntegerForSize SignedIntegerForSize TwiceWiderInteger] in *;
  repeat match goal with
  | |- context [2 ^ ?e] => let v := eval vm_compute in (2 ^ e) in change (2 ^ e) with v
  | H : context [2 ^ ?e] |- _ => let v := eval vm_compute in (2 ^ e) in change (2 ^ e) with v in H
  end.

Lemma constraint_or_valid_l c : constraint_or RANGE_VALID c = c.
Proof. by destruct c. Qed.

Lemma constraint_or_valid_r c : constraint_or c RANGE_VALID = c.
Proof. by destruct c. Qed.

Lemma constraint_or_valid_iff a b :
  constraint_or a b = RANGE_VALID <-> a = RANGE_VALID /\ b = RANGE_VALID.
Proof. destruct a, b; cbv; intuition congruence. Qed.

Lemma bounds_classify t z (u l : bool) :
  u = (z <=? max t) -> l = (min t <=? z) -> min t <= max t ->
  GetRangeConstraintBounds u l = classify t z.
Proof. intros -> -> ?. unfold classify, GetRangeConstraintBounds. cmp_lia. Qed.

(** The range check of the conversion templates decides the exact question. *)
Lemma DstRangeRelation_classify dst src v :
  is_integral dst = true -> is_integral src = true -> in_range src v ->
  DstRangeRelationToSrcRange dst src v = classify dst v.
Proof.
  intros Hd Hs. int_cases Hd; int_cases Hs;
    cbv [DstRangeRelationToSrcRange StaticDstContainsSrc MaxExponent Z.b2z GetRangeConstraintBounds];
    int_compute; intros; cmp_lia.
Qed.

(** The sign-bit test reads bit [bits t - 1] of the argument. *)
Lemma HasSignBit_testbit t z :
  is_integral t = true -> HasSignBit (UnsignedIntegerForSize t) z = Z.testbit z (bits t - 1).
Proof.
  intros H. unfold HasSignBit, PositionOfSignBit.
  assert (Hb : 1 <= bits t) by (int_cases H; vm_compute; congruence).
  rewrite <- (Z.mod_pow2_bits_low z (bits t)) by lia.
  rewrite Z.testbit_odd. unfold static_cast; simpl.
  change (modulus _) with (modulus t) at 1. unfold modulus.
  change (8 * size t) with (bits t).
  pose proof (Z.mod_pos_bound z (2 ^ bits t) ltac:(lia)) as Hr.
  rewrite Z.shiftr_div_pow2 by lia.
  replace (2 ^ bits t) with (2 * 2 ^ (bits t - 1)) in *
    by (rewrite <- Z.pow_succ_r by lia; f_equal; lia).
  set (p := 2 ^ (bits t - 1)) in *. assert (0 < p) by lia.
  assert (z mod (2 * p) / p = 0 \/ z mod (2 * p) / p = 1) as [-> | ->]; try done.
  pose proof (Z.div_pos (z mod (2 * p)) p). pose proof (Z.div_lt_upper_bound (z mod (2 * p)) p 2).
  lia.
Qed.

Lemma testbit_cast_signed t x :
  is_integral t = true -> - 2 ^ (bits t - 1) <= x < 2 ^ (bits t - 1) ->
  Z.testbit (x mod modulus t) (bits t - 1) = (x <? 0).
Proof.
  intros H Hx. unfold modulus.
  assert (1 <= bits t) by (int_cases H; vm_compute; congruence).
  rewrite Z.mod_pow2_bits_low by lia. rewrite Z.testbit_odd, Z.shiftr_div_pow2 by lia.
  set (p := 2 ^ (bits t - 1)) in *. assert (0 < p) by lia.
  destruct (x <? 0) eqn:E.
  - replace (x / p) with (-1); [done|]. apply Z.div_unique with (x + p); lia.
  - rewrite Z.div_small by lia. done.
Qed.

Lemma BinaryComplement_testbit t z :
  is_integral t = true ->
  Z.testbit (BinaryComplement (UnsignedIntegerForSize t) z) (bits t - 1)
  = negb (Z.testbit z (bits t - 1)).
Proof.
  intros H. assert (1 <= bits t) by (int_cases H; vm_compute; congruence).
  unfold BinaryComplement, static_cast; simpl. change (modulus _) with (2 ^ bits t).
  rewrite Z.mod_pow2_bits_low, Z.lnot_spec by lia. done.
Qed.

(** The sign test shared by addition and subtraction, on sign bits. *)
Lemma wrap_sign_test t a b c d :
  is_integral t = true ->
  HasSignBit (UnsignedIntegerForSize t)
    (BinaryComplement (UnsignedIntegerForSize t) (Z.land (Z.lxor a b) (Z.lxor c d)))
  = negb (xorb (Z.testbit a (bits t - 1)) (Z.testbit b (bits t - 1)) &&
          xorb (Z.testbit c (bits t - 1)) (Z.testbit d (bits t - 1))).
Proof.
  intros H. rewrite HasSignBit_testbit, BinaryComplement_testbit by done.
  by rewrite Z.land_spec, !Z.lxor_spec.
Qed.

Lemma testbit_top t r :
  is_integral t = true -> 0 <= r < modulus t ->
  Z.testbit r (bits t - 1) = (2 ^ (bits t - 1) <=? r).
Proof.
  intros H Hr. unfold modulus in Hr.
  assert (1 <= bits t) by (int_cases H; vm_compute; congruence).
  rewrite Z.testbit_odd, Z.shiftr_div_pow2 by lia.
  replace (2 ^ bits t) with (2 * 2 ^ (bits t - 1)) in Hr
    by (rewrite <- Z.pow_succ_r by lia; f_equal; lia).
  set (p := 2 ^ (bits t - 1)) in *. assert (0 < p) by lia.
  destruct (p <=? r) eqn:E.
  - replace (r / p) with 1; [done|]. apply Z.div_unique with (r - p); lia.
  - by rewrite Z.div_small by lia.
Qed.

(** Replaces the sign-bit tests of a signed operation by comparisons. *)
Ltac sign_bits H t x y :=
  rewrite wrap_sign_test, HasSignBit_testbit by done;
  change (static_cast (UnsignedIntegerForSize t) x) with (x mod modulus t);
  change (static_cast (UnsignedIntegerForSize t) y) with (y mod modulus t);
  change (static_cast (UnsignedIntegerForSize t) ?z) with (z mod modulus t);
  rewrite !(testbit_cast_signed t x), !(testbit_cast_signed t y) by
    (done || (int_cases H; try discriminate; int_compute; lia));
  rewrite testbit_top by (done || (apply Z.mod_pos_bound; int_cases H; vm_compute; done)).

Lemma CheckedAdd_exact t x y :
  is_integral t = true -> in_range t x -> in_range t y ->
  CheckedAdd t x y = (static_cast t (x + y), classify t (x + y)).
Proof.
  intros H Hx Hy. unfold CheckedAdd. f_equal.
  - int_cases H; int_compute; cmp_lia.
  - destruct (is_signed t) eqn:Hs.
    + sign_bits H t x y.
      int_cases H; try discriminate; int_compute; unfold xorb; cmp_lia.
    + int_cases H; try discriminate; unfold BinaryComplement, Z.lnot; int_compute; cmp_lia.
Qed.

Lemma CheckedSub_exact t x y :
  is_integral t = true -> in_range t x -> in_range t y ->
  CheckedSub t x y = (static_cast t (x - y), classify t (x - y)).
Proof.
  intros H Hx Hy. unfold CheckedSub. f_equal.
  - int_cases H; int_compute; cmp_lia.
  - destruct (is_signed t) eqn:Hs.
    + sign_bits H t x y.
      int_cases H; try discriminate; int_compute; unfold xorb; cmp_lia.
    + int_cases H; try discriminate; int_compute; cmp_lia.
Qed.

(** Truncating division as a bound on a product. *)
Lemma le_quot_pos m a b : 0 <= m -> 0 < b -> (a <= Z.quot m b <-> a * b <= m).
Proof.
  intros Hm Hb. rewrite Z.quot_div_nonneg by lia. split; intros.
  - pose proof (Z.mul_div_le m b). nia.
  - apply Z.div_le_lower_bound; lia.
Qed.

Lemma quot_neg_le m a b : 0 <= m -> 0 < b -> (Z.quot (- m) b <= a <-> - m <= a * b).
Proof.
  intros Hm Hb. rewrite Z.quot_opp_l by lia.
  rewrite <- (Z.opp_involutive a) at 1. rewrite <- Z.opp_le_mono, le_quot_pos by lia. lia.
Qed.

Lemma quot_le_neg m a b : 0 <= m -> b < 0 -> (Z.quot m b <= a <-> a * b <= m).
Proof.
  intros Hm Hb. rewrite <- (Z.opp_involutive b) at 1. rewrite Z.quot_opp_r by lia.
  rewrite <- (Z.opp_involutive a) at 1. rewrite <- Z.opp_le_mono, le_quot_pos by lia. lia.
Qed.

Lemma leb_iff a b c d : (a <= b <-> c <= d) -> (a <=? b) = (c <=? d).
Proof. destruct (Z.leb_spec a b), (Z.leb_spec c d); lia. Qed.

Lemma classify_signed_pos t z :
  is_signed t = true -> is_integral t = true -> 0 <= z ->
  classify t z = if z <=? max t then RANGE_VALID else RANGE_OVERFLOW.
Proof. intros Hs H Hz. int_cases H; try discriminate; int_compute; cmp_lia. Qed.

Lemma classify_signed_neg t z :
  is_signed t = true -> is_integral t = true -> z <= 0 ->
  classify t z = if min t <=? z then RANGE_VALID else RANGE_UNDERFLOW.
Proof. intros Hs H Hz. int_cases H; try discriminate; int_compute; cmp_lia. Qed.

Lemma signed_limits t :
  is_integral t = true -> is_signed t = true ->
  min t = - (max t + 1) /\ 127 <= max t.
Proof. intros H; int_cases H; try discriminate; intros _; vm_compute; split; congruence. Qed.

Lemma CheckedMulSlowSigned_exact t x y :
  is_integral t = true -> is_signed t = true -> ~ (x = 0 /\ y < 0) ->
  CheckedMulSlowSigned t x y = Some (static_cast t (x * y), classify t (x * y)).
Proof.
  intros H Hs Hxy. destruct (signed_limits t H Hs) as [Hmin Hmax].
  unfold CheckedMulSlowSigned, cdiv.
  destruct ((x =? 0) && (y =? 0)) eqn:E0.
  { assert (x = 0 /\ y = 0) as [-> ->] by lia. by int_cases H. }
  destruct (Z.ltb_spec 0 x), (Z.ltb_spec 0 y).
  - rewrite (proj2 (Z.eqb_neq y 0)) by lia; simpl. f_equal. f_equal.
    rewrite classify_signed_pos by (done || nia). by rewrite (leb_iff _ _ _ _ (le_quot_pos (max t) x y ltac:(lia) ltac:(lia))).
  - rewrite (proj2 (Z.eqb_neq x 0)) by lia; simpl. f_equal. f_equal.
    rewrite classify_signed_neg, Hmin by (done || nia).
    rewrite (leb_iff _ _ _ _ (quot_neg_le (max t + 1) y x ltac:(lia) ltac:(lia))). by rewrite Z.mul_comm.
  - rewrite (proj2 (Z.eqb_neq y 0)) by lia; simpl. f_equal. f_equal.
    rewrite classify_signed_neg, Hmin by (done || nia).
    by rewrite (leb_iff _ _ _ _ (quot_neg_le (max t + 1) x y ltac:(lia) ltac:(lia))).
  - rewrite (proj2 (Z.eqb_neq x 0)) by lia; simpl. f_equal. f_equal.
    rewrite classify_signed_pos by (done || nia).
    rewrite (leb_iff _ _ _ _ (quot_le_neg (max t) y x ltac:(lia) ltac:(lia))). by rewrite Z.mul_comm.
Qed.

Lemma CheckedMulSlowUnsigned_exact t x y :
  is_integral t = true -> is_signed t = false -> in_range t x -> in_range t y ->
  CheckedMulSlowUnsigned t x y = Some (static_cast t (x * y), classify t (x * y)).
Proof.
  intros H Hs Hx Hy.
  assert (0 <= x /\ 0 <= y /\ min t = 0 /\ 0 <= max t) as (? & ? & Hmin & ?).
  { int_cases H; try discriminate; int_compute; lia. }
  unfold CheckedMulSlowUnsigned, cdiv, classify. rewrite Hmin.
  destruct (Z.eqb_spec y 0) as [-> | Hy0]; simpl; do 2 f_equal.
  - rewrite Z.mul_0_r. destruct (Z.ltb_spec (max t) 0); [exfalso; lia | done].
  - rewrite (leb_iff _ _ _ _ (le_quot_pos (max t) x y ltac:(lia) ltac:(lia))).
    rewrite (proj2 (Z.ltb_ge (x * y) 0)) by nia.
    destruct (Z.leb_spec (x * y) (max t)), (Z.ltb_spec (max t) (x * y)); try done; exfalso; lia.
Qed.

Lemma CheckedMulWide_exact t x y :
  is_integral t = true -> size t * 2 <= 8 -> in_range t x -> in_range t y ->
  CheckedMulWide t x y = (static_cast t (x * y), classify t (x * y)).
Proof.
  intros H Hsz Hx Hy. unfold CheckedMulWide.
  assert (Hw : is_integral (TwiceWiderInteger t) = true) by (by int_cases H).
  assert (forall z, in_range t z -> static_cast (TwiceWiderInteger t) z = z) as Hid.
  { intros z Hz. apply static_cast_id; [done|]. clear Hx Hy.
    int_cases H; vm_compute in Hsz; try congruence; unfold TwiceWiderInteger; int_compute; lia. }
  assert (in_range (TwiceWiderInteger t) (x * y)) as Hxy.
  { clear Hw Hid. int_cases H; vm_compute in Hsz; try congruence; unfold TwiceWiderInteger;
      int_compute; nia. }
  rewrite (Hid x), (Hid y), (static_cast_id (TwiceWiderInteger t) (x * y)) by done.
  by rewrite DstRangeRelation_classify.
Qed.

Lemma CheckedMul_exact t x y :
  is_integral t = true -> in_range t x -> in_range t y -> traps OpMul t x y = false ->
  CheckedMul t x y = Some (static_cast t (x * y), classify t (x * y)).
Proof.
  intros H Hx Hy Ht. unfold CheckedMul, sizeof_uintmax.
  destruct (Z.leb_spec (size t * 2) 8).
  - by rewrite CheckedMulWide_exact.
  - simpl in Ht. destruct (is_signed t) eqn:Hs.
    + apply CheckedMulSlowSigned_exact; [done.. |]. intros [-> ?].
      destruct (Z.leb_spec 8 (size t)); [simpl in Ht; lia|]. int_cases H; simpl in *; lia.
    + by apply CheckedMulSlowUnsigned_exact.
Qed.

Lemma classify_in_range t z : in_range t z -> classify t z = RANGE_VALID.
Proof.
  unfold in_range, classify. intros.
  destruct (Z.ltb_spec z (min t)), (Z.ltb_spec (max t) z); try done; exfalso; lia.
Qed.

Lemma quot_abs_le x y : y <> 0 -> Z.abs (Z.quot x y) <= Z.abs x.
Proof.
  intros. rewrite <- Z.quot_abs by done. rewrite Z.quot_div_nonneg by lia.
  apply Z.div_le_upper_bound; nia.
Qed.

Lemma quot_in_range t x y :
  is_integral t = true -> in_range t x -> in_range t y -> y <> 0 ->
  ~ (is_signed t = true /\ x = min t /\ y = -1) -> in_range t (Z.quot x y).
Proof.
  intros H Hx Hy Hy0 Hm. destruct (is_signed t) eqn:Hs.
  - destruct (signed_limits t H Hs) as [Hmin Hmax]. unfold in_range in *.
    pose proof (quot_abs_le x y Hy0). destruct (Z.eq_dec x (min t)) as [-> | ?]; [|lia].
    assert (y <> -1) by naive_solver. destruct (Z.eq_dec y 1) as [-> | ?].
    { rewrite Z.quot_1_r. lia. }
    assert (Z.abs (Z.quot (min t) y) < Z.abs (min t)); [|lia].
    rewrite <- Z.quot_abs, Z.quot_div_nonneg by lia. apply Z.div_lt; lia.
  - assert (min t = 0) as Hmin by (int_cases H; done). unfold in_range in *. rewrite Hmin in *.
    rewrite Z.quot_div_nonneg by lia. split; [apply Z.div_pos; lia|].
    apply Z.le_trans with x; [apply Z.div_le_upper_bound; nia | lia].
Qed.

Lemma static_cast_minus_one t :
  is_integral t = true -> is_signed t = true -> static_cast t (-1) = -1.
Proof. intros H; by int_cases H. Qed.

Lemma CheckedDiv_exact t x y :
  is_integral t = true -> in_range t x -> in_range t y -> y <> 0 ->
  CheckedDiv t x y = Some (static_cast t (Z.quot x y), classify t (Z.quot x y)).
Proof.
  intros H Hx Hy Hy0. unfold CheckedDiv, cdiv.
  rewrite (proj2 (Z.eqb_neq y 0)) by done.
  destruct (is_signed t && (x =? min t) && (y =? static_cast t (-1))) eqn:E.
  - apply andb_true_iff in E as [[Hs ->%Z.eqb_eq]%andb_true_iff Hm%Z.eqb_eq]. clear Hx.
    rewrite static_cast_minus_one in Hm by done.
    subst y. int_cases H; try discriminate; done.
  - simpl. rewrite classify_in_range; [done|]. apply quot_in_range; [done..|].
    intros (Hs & -> & ->). rewrite Hs, Z.eqb_refl in E. simpl in E.
    by rewrite static_cast_minus_one in E by done.
Qed.

Lemma promotion_word t :
  is_integral t = true -> 4 <= size t ->
  ArithmeticPromotion t t = t /\ IsIntegerArithmeticSafe t t t = false /\
  StaticDstContainsSrc t t = true.
Proof. intros H; int_cases H; simpl; intros; try lia; done. Qed.

(** One operator of the same word-sized type, on valid operands. *)
Lemma CheckedNumeric_op_exact op t x y :
  is_integral t = true -> 4 <= size t -> in_range t x -> in_range t y ->
  op <> OpMod -> traps op t x y = false ->
  CheckedNumeric_op op t (valid_of x) (valid_of y)
  = Some (CheckedNumeric_ (static_cast t (exact op x y)) (classify t (exact op x y))).
Proof.
  intros H Hsz Hx Hy Hop Ht. destruct (promotion_word t H Hsz) as (Hp & Hsafe & Hc).
  unfold CheckedNumeric_op. rewrite Hp, Hsafe. simpl. rewrite !static_cast_id by done.
  assert (Checked op t x y = Some (static_cast t (exact op x y), classify t (exact op x y))) as ->.
  { destruct op; simpl in *; [by rewrite CheckedAdd_exact | by rewrite CheckedSub_exact
      | by apply CheckedMul_exact | by apply CheckedDiv_exact; [.. | lia] | done]. }
  simpl. unfold CheckedNumericState, DstRangeRelationToSrcRange.
  rewrite Hc, !constraint_or_valid_r.
  by rewrite !(static_cast_id t (static_cast t _)) by auto using static_cast_in_range.
Qed.

(** ** Theorems *)

(** C29. On the word-sized integer types (32 and 64 bits, signed or not),
    [lhs OP rhs] for [+ - * /] on valid operands returns the mathematical result
    reduced to the type, and a validity that says exactly whether, and on which
    side, the mathematical result leaves the type's range. The only operand pairs
    excluded are those on which the code divides by zero. *)
Theorem checked_op_exact op t x y :
  is_integral t = true -> 4 <= size t -> in_range t x -> in_range t y ->
  op <> OpMod -> traps op t x y = false ->
  CheckedNumeric_op op t (valid_of x) (valid_of y)
  = Some (CheckedNumeric_ (static_cast t (exact op x y)) (classify t (exact op x y))).
Proof. apply CheckedNumeric_op_exact. Qed.

Lemma checked_op_exact_witness :
  CheckedNumeric_op OpMul int64 (valid_of (2 ^ 32)) (valid_of (- 2 ^ 32))
  = Some (CheckedNumeric_ 0 RANGE_UNDERFLOW).
Proof.
  rewrite (checked_op_exact OpMul int64 (2 ^ 32) (- 2 ^ 32));
    [reflexivity | reflexivity | vm_compute; congruence
    | vm_compute; split; congruence | vm_compute; split; congruence | discriminate | reflexivity].
Defined.

(** The operators trap -- execute an integer division by zero, or the
    remainder of the minimum by -1 -- exactly on the pairs [traps] lists. Among them are the 64-bit signed products of zero by
    a negative number, whose mathematical result is representable: the test the
    source's comment describes as "either side is zero" is [!(x || y)], which
    holds only when both are. *)
Theorem checked_op_traps op t x y :
  is_integral t = true -> 4 <= size t -> in_range t x -> in_range t y ->
  (CheckedNumeric_op op t (valid_of x) (valid_of y) = None <-> traps op t x y = true).
Proof.
  intros H Hsz Hx Hy. destruct (promotion_word t H Hsz) as (Hp & Hsafe & _).
  unfold CheckedNumeric_op. rewrite Hp, Hsafe. simpl. rewrite !static_cast_id by done.
  assert (Checked op t x y = None <-> traps op t x y = true) as <-.
  { destruct (traps op t x y) eqn:Ht.
    - destruct op; simpl in *; try done.
      + apply andb_true_iff in Ht as [[[Hs8 Hs]%andb_true_iff ->%Z.eqb_eq]%andb_true_iff Hneg].
        unfold CheckedMul, CheckedMulSlowSigned, cdiv, sizeof_uintmax.
        rewrite (proj2 (Z.leb_gt (size t * 2) 8)), Hs by lia.
        rewrite (proj2 (Z.eqb_neq y 0)), (proj2 (Z.ltb_ge 0 y)) by lia. done.
      + apply Z.eqb_eq in Ht as ->. unfold CheckedDiv, cdiv. destruct (is_signed t) eqn:Hs; [|done].
        rewrite static_cast_minus_one by done. by rewrite andb_false_r.
      + unfold CheckedMod, crem. by rewrite Ht.
    - destruct op; try done; simpl.
      + by rewrite CheckedMul_exact.
      + simpl in Ht. rewrite CheckedDiv_exact by (done || lia). done.
      + unfold CheckedMod, crem. simpl in Ht. by rewrite Ht. }
  destruct (Checked op t x y) as [[]|]; naive_solver.
Qed.

Lemma checked_op_traps_witness :
  CheckedNumeric_op OpMul int64 (valid_of 0) (valid_of (-1)) = None.
Proof.
  apply (checked_op_traps OpMul int64 0 (-1));
    [reflexivity | vm_compute; congruence | vm_compute; split; congruence
    | vm_compute; split; congruence | reflexivity].
Defined.

(** On the types narrower than [int], the operator for two operands of the
    same type performs the addition in [int] and then truncates the result back
    before range checking it, so a sum that leaves the type's range wraps
    silently and is reported as valid. *)
Theorem checked_narrow_add_wraps t x y :
  is_integral t = true -> size t < 4 -> in_range t x -> in_range t y ->
  CheckedNumeric_op OpAdd t (valid_of x) (valid_of y)
  = Some (CheckedNumeric_ (static_cast t (x + y)) RANGE_VALID).
Proof.
  intros H Hsz Hx Hy. unfold CheckedNumeric_op.
  assert (ArithmeticPromotion t t = int32 /\ IsIntegerArithmeticSafe int32 t t = false)
    as [-> ->] by (int_cases H; try done; vm_compute in Hsz; congruence).
  assert (forall z, in_range t z -> in_range int32 z) as Hr.
  { clear Hx Hy. int_cases H; try (vm_compute in Hsz; congruence); int_compute; lia. }
  rewrite !(static_cast_id int32) by auto. simpl Checked.
  assert (in_range int32 (x + y)) as Hs.
  { clear Hr. int_cases H; try (vm_compute in Hsz; congruence); int_compute; lia. }
  rewrite CheckedAdd_exact by auto. simpl. rewrite (static_cast_id int32 (x + y)) by done.
  unfold CheckedNumericState. rewrite classify_in_range by done.
  rewrite static_cast_id by auto using static_cast_in_range.
  rewrite DstRangeRelation_classify by auto using static_cast_in_range.
  by rewrite classify_in_range by auto using static_cast_in_range.
Qed.

Lemma checked_narrow_add_wraps_witness :
  CheckedNumeric_op OpAdd int8 (valid_of 100) (valid_of 100) = Some (valid_of (-56)).
Proof.
  rewrite (checked_narrow_add_wraps int8 100 100);
    [reflexivity | reflexivity | vm_compute; congruence
    | vm_compute; split; congruence | vm_compute; split; congruence].
Defined.

(** [saturated_cast] between any two integral types is total and clamps to
    the destination's range. *)
Theorem saturated_cast_clamps dst src v :
  is_integral dst = true -> is_integral src = true -> in_range src v ->
  saturated_cast dst src v = Some (Z.max (min dst) (Z.min (max dst) v)).
Proof.
  intros Hd Hs Hv. unfold saturated_cast. rewrite DstRangeRelation_classify by done.
  assert (min dst <= max dst) by (clear Hv; int_cases Hd; vm_compute; congruence).
  unfold classify.
  destruct (Z.ltb_spec v (min dst)); [f_equal; lia|].
  destruct (Z.ltb_spec (max dst) v); [f_equal; lia|].
  rewrite static_cast_id by done. f_equal. lia.
Qed.

Lemma saturated_cast_clamps_witness : saturated_cast uint8 int32 (-7) = Some 0.
Proof.
  rewrite (saturated_cast_clamps uint8 int32 (-7));
    [reflexivity | reflexivity | reflexivity | vm_compute; split; congruence].
Defined.

(** An operand that is not valid makes every result not valid. *)
Lemma checked_op_sticky op t a b r :
  CheckedNumeric_op op t a b = Some r -> validity r = RANGE_VALID ->
  validity a = RANGE_VALID /\ validity b = RANGE_VALID.
Proof.
  unfold CheckedNumeric_op. destruct (IsIntegerArithmeticSafe _ _ _).
  - destruct (plain_op _ _ _ _); [|done]. simpl. intros [= <-]; simpl.
    rewrite !constraint_or_valid_iff. naive_solver.
  - destruct (Checked _ _ _ _) as [[]|]; [|done]. simpl. intros [= <-]; simpl.
    rewrite !constraint_or_valid_iff. naive_solver.
Qed.

(** The fast path of the operators is never selected: its second containment
    test is inverted. *)
Lemma fast_path_unreachable t :
  is_integral t = true -> IsIntegerArithmeticSafe (ArithmeticPromotion t t) t t = false.
Proof. intros H; by int_cases H. Qed.
