(* ===== verification/TimeBase.v ===== *)
(** * Time points and intervals: src/src/base/time

    [TimeDelta], [TimeTicks] and the integer conversions of [Time]. All three
    hold one [int64] of microseconds, represented by its value. Arithmetic the
    source performs on bare [int64] wraps ([i64]); the operators built on
    [CheckedNumeric] saturate. *)

From stdpp Require Import base numbers list.
From Stdlib Require Import ZArith Lia.
From S2P Require Import Prelude Numerics.

Local Open Scope Z_scope.
Import Int.

#[local] Ltac Zify.zify_post_hook ::= Z.to_euclidean_division_equations.

(** Plain [int64] and [int] results of C++ arithmetic. *)
Definition i64 (z : Z) : Z := static_cast int64 z.
Definition i32 (z : Z) : Z := static_cast int32 z.

Definition int64_max : Z := max int64.
Definition int_max : Z := max int32.

Module Time.
Definition kHoursPerDay : Z := 24.
Definition kMillisecondsPerSecond : Z := 1000.
Definition kMicrosecondsPerMillisecond : Z := 1000.
Definition kMicrosecondsPerSecond : Z := kMicrosecondsPerMillisecond * kMillisecondsPerSecond.
Definition kMicrosecondsPerMinute : Z := kMicrosecondsPerSecond * 60.
Definition kMicrosecondsPerHour : Z := kMicrosecondsPerMinute * 60.
Definition kMicrosecondsPerDay : Z := kMicrosecondsPerHour * kHoursPerDay.
Definition kMinLowResolutionThresholdMs : Z := 16.
(** The Windows epoch, 1601-01-01, relative to the Unix one. *)
Definition kTimeTToMicrosecondsOffset : Z := 11644473600000000.

Definition is_null (us : Z) : bool := us =? 0.
Definition is_max (us : Z) : bool := us =? int64_max.
Definition Max : Z := int64_max.

(** [time_t] is a 64-bit integer on the target platform. *)
Definition FromTimeT (tt : Z) : Z :=
  if tt =? 0 then 0
  else if tt =? int64_max then Max
  else i64 (i64 (tt * kMicrosecondsPerSecond) + kTimeTToMicrosecondsOffset).

Definition ToTimeT (us : Z) : Z :=
  if is_null us then 0
  else if is_max us then int64_max
  else if int64_max - kTimeTToMicrosecondsOffset <=? us then int64_max
  else Z.quot (i64 (us - kTimeTToMicrosecondsOffset)) kMicrosecondsPerSecond.

Definition ToJavaTime (us : Z) : Z :=
  if is_null us then 0
  else if is_max us then int64_max
  else Z.quot (i64 (us - kTimeTToMicrosecondsOffset)) kMicrosecondsPerMillisecond.

Definition UnixEpoch : Z := kTimeTToMicrosecondsOffset.

(** [Time::Exploded] and its range check. *)
Record Exploded := Exploded_ {
  year : Z; month : Z; day_of_week : Z; day_of_month : Z;
  hour : Z; minute : Z; second : Z; millisecond : Z }.

Definition is_in_range (value lo hi : Z) : bool := (lo <=? value) && (value <=? hi).

Definition HasValidValues (e : Exploded) : bool :=
  is_in_range (month e) 1 12 && is_in_range (day_of_week e) 0 6 &&
  is_in_range (day_of_month e) 1 31 && is_in_range (hour e) 0 23 &&
  is_in_range (minute e) 0 59 && is_in_range (second e) 0 60 &&
  is_in_range (millisecond e) 0 999.
End Time.

Module TimeDelta.
Definition Max : Z := int64_max.
Definition is_max (delta : Z) : bool := delta =? int64_max.

(** The factory functions preserve the maximum of their argument type. *)
Definition FromDays (days : Z) : Z :=
  if days =? int_max then Max else i64 (days * Time.kMicrosecondsPerDay).
Definition FromHours (hours : Z) : Z :=
  if hours =? int_max then Max else i64 (hours * Time.kMicrosecondsPerHour).
Definition FromMinutes (minutes : Z) : Z :=
  if minutes =? int_max then Max else i64 (minutes * Time.kMicrosecondsPerMinute).
Definition FromSeconds (secs : Z) : Z :=
  if secs =? int64_max then Max else i64 (secs * Time.kMicrosecondsPerSecond).
Definition FromMilliseconds (ms : Z) : Z :=
  if ms =? int64_max then Max else i64 (ms * Time.kMicrosecondsPerMillisecond).
Definition FromMicroseconds (us : Z) : Z := if us =? int64_max then Max else us.

Definition InDays (delta : Z) : Z :=
  if is_max delta then int_max else i32 (Z.quot delta Time.kMicrosecondsPerDay).
Definition InHours (delta : Z) : Z :=
  if is_max delta then int_max else i32 (Z.quot delta Time.kMicrosecondsPerHour).
Definition InMinutes (delta : Z) : Z :=
  if is_max delta then int_max else i32 (Z.quot delta Time.kMicrosecondsPerMinute).
Definition InSeconds (delta : Z) : Z :=
  if is_max delta then int64_max else Z.quot delta Time.kMicrosecondsPerSecond.
Definition InMilliseconds (delta : Z) : Z :=
  if is_max delta then int64_max else Z.quot delta Time.kMicrosecondsPerMillisecond.
Definition InMillisecondsRoundedUp (delta : Z) : Z :=
  if is_max delta then int64_max
  else Z.quot (i64 (delta + Time.kMicrosecondsPerMillisecond - 1))
              Time.kMicrosecondsPerMillisecond.
Definition InMicroseconds (delta : Z) : Z := if is_max delta then int64_max else delta.

(** [magnitude()]: the branchless absolute value; the shift of a negative
    [int64] is arithmetic on the target compiler. *)
Definition magnitude (delta : Z) : Z :=
  let mask := Z.shiftr delta (8 * 8 - 1) in
  Z.lxor (i64 (delta + mask)) mask.

Definition FromCheckedNumeric (value : CheckedNumeric) : Z :=
  if IsValid value then ValueUnsafe value
  else
    let limit := int64_max in
    let limit := if decide (validity value = RANGE_UNDERFLOW) then - limit else limit in
    ValueOrDefault value limit.

(** [rv += value] and [rv -= value] never trap; the [None] case does not arise. *)
Definition SaturatedAdd (delta value : Z) : Z :=
  match CheckedNumeric_op OpAdd int64 (CheckedNumeric_of int64 int64 delta)
                          (CheckedNumeric_of int64 int64 value) with
  | Some rv => FromCheckedNumeric rv
  | None => 0
  end.

Definition SaturatedSub (delta value : Z) : Z :=
  match CheckedNumeric_op OpSub int64 (CheckedNumeric_of int64 int64 delta)
                          (CheckedNumeric_of int64 int64 value) with
  | Some rv => FromCheckedNumeric rv
  | None => 0
  end.

(** [operator*] and [operator/] by an [int64]; [None] when the checked operation
    divides by zero. *)
Definition mul (delta a : Z) : option Z :=
  rv ← CheckedNumeric_op OpMul int64 (CheckedNumeric_of int64 int64 delta)
                         (CheckedNumeric_of int64 int64 a);
  Some (FromCheckedNumeric rv).

Definition div (delta a : Z) : option Z :=
  rv ← CheckedNumeric_op OpDiv int64 (CheckedNumeric_of int64 int64 delta)
                         (CheckedNumeric_of int64 int64 a);
  Some (FromCheckedNumeric rv).

Definition add (delta other : Z) : Z := SaturatedAdd delta other.
Definition sub (delta other : Z) : Z := SaturatedSub delta other.
Definition neg (delta : Z) : Z := i64 (- delta).
End TimeDelta.

Module TimeTicks.
Definition is_null (ticks : Z) : bool := ticks =? 0.
(** [TimeTicks - TimeTicks] is a plain subtraction. *)
Definition diff (ticks other : Z) : Z := i64 (ticks - other).
Definition add (ticks delta : Z) : Z := TimeDelta.SaturatedAdd delta ticks.
Definition sub (ticks delta : Z) : Z := TimeDelta.neg (TimeDelta.SaturatedSub delta ticks).

(** [SnappedToNextTick]; the [None] is the [%] that traps. *)
Definition SnappedToNextTick (this tick_phase tick_interval : Z) : option Z :=
  interval_offset ← crem int64 (diff tick_phase this) tick_interval;
  let interval_offset :=
    if negb (interval_offset =? 0) && (tick_phase <? this)
    then TimeDelta.add interval_offset tick_interval else interval_offset in
  Some (add this interval_offset).
End TimeTicks.

(** ** Lemmas *)

Lemma i64_id z : in_range int64 z -> i64 z = z.
Proof. by apply static_cast_id. Qed.

Lemma i64_in_range z : in_range int64 (i64 z).
Proof. by apply static_cast_in_range. Qed.

Lemma CheckedNumeric_of_valid t x :
  is_integral t = true -> in_range t x -> CheckedNumeric_of t t x = valid_of x.
Proof.
  intros H Hx. unfold CheckedNumeric_of. rewrite DstRangeRelation_classify by done.
  by rewrite classify_in_range, static_cast_id by done.
Qed.

(** The value the delta operators give an out-of-range result: the maximum, or
    its opposite rather than the minimum. *)
Definition saturate (z : Z) : Z :=
  if z <? min int64 then - int64_max else if int64_max <? z then int64_max else z.

Lemma FromCheckedNumeric_classify z :
  TimeDelta.FromCheckedNumeric (CheckedNumeric_ (static_cast int64 z) (classify int64 z))
  = saturate z.
Proof.
  unfold TimeDelta.FromCheckedNumeric, saturate, ValueOrDefault, IsValid, classify, int64_max;
    simpl.
  destruct (Z.ltb_spec z (min int64)); [done|].
  destruct (Z.ltb_spec (max int64) z); [done|]. simpl. by apply i64_id.
Qed.

Lemma SaturatedAdd_saturate x y :
  in_range int64 x -> in_range int64 y -> TimeDelta.SaturatedAdd x y = saturate (x + y).
Proof.
  intros. unfold TimeDelta.SaturatedAdd. rewrite !CheckedNumeric_of_valid by done.
  rewrite CheckedNumeric_op_exact by (done || vm_compute; congruence).
  apply FromCheckedNumeric_classify.
Qed.

Lemma SaturatedSub_saturate x y :
  in_range int64 x -> in_range int64 y -> TimeDelta.SaturatedSub x y = saturate (x - y).
Proof.
  intros. unfold TimeDelta.SaturatedSub. rewrite !CheckedNumeric_of_valid by done.
  rewrite CheckedNumeric_op_exact by (done || vm_compute; congruence).
  apply FromCheckedNumeric_classify.
Qed.

Lemma int64_limits : min int64 = -9223372036854775808 /\ max int64 = 9223372036854775807.
Proof. done. Qed.

(** Exposes the bounds of [int64] as numerals. *)
Ltac int64_bounds :=
  unfold saturate, in_range, int64_max, Time.is_max, Time.Max, TimeDelta.Max, TimeDelta.is_max in *;
  rewrite ?(proj1 int64_limits), ?(proj2 int64_limits) in *.

Lemma saturate_in_range z : in_range int64 (saturate z).
Proof. intros. int64_bounds. cmp_lia. Qed.

Lemma saturate_id z : in_range int64 z -> saturate z = z.
Proof. intros. int64_bounds. cmp_lia. Qed.

Lemma saturate_mono x y : x <= y -> y <> min int64 -> saturate x <= saturate y.
Proof. intros. int64_bounds. cmp_lia. Qed.

(** ** Theorems *)

(** Adding an interval to a time point never wraps: the sum is exact when it
    is representable and is otherwise held at the end of the range it crossed, so
    the operation is monotone in both arguments. The one exception is a sum that is
    exactly the minimum, which is kept although smaller sums are raised to [-max]. *)
Theorem ticks_add_saturates t t' d d' :
  in_range int64 t -> in_range int64 t' -> in_range int64 d -> in_range int64 d' ->
  (in_range int64 (t + d) -> TimeTicks.add t d = t + d) /\
  (max int64 < t + d -> TimeTicks.add t d = max int64) /\
  (t + d < min int64 -> TimeTicks.add t d = - max int64) /\
  (t <= t' -> d <= d' -> t' + d' <> min int64 ->
     TimeTicks.add t d <= TimeTicks.add t' d').
Proof.
  intros. unfold TimeTicks.add. rewrite !SaturatedAdd_saturate by done.
  split_and!; intros.
  - rewrite saturate_id by (by rewrite Z.add_comm). lia.
  - int64_bounds. cmp_lia.
  - int64_bounds. cmp_lia.
  - apply saturate_mono; [lia | by rewrite Z.add_comm].
Qed.

Lemma ticks_add_saturates_witness :
  TimeTicks.add (2 ^ 62) (2 ^ 62) = max int64.
Proof.
  assert (forall z, (min int64 <=? z) = true -> (z <=? max int64) = true -> in_range int64 z)
    by (intros z Hl Hu; apply Z.leb_le in Hl, Hu; done).
  apply (ticks_add_saturates (2 ^ 62) (2 ^ 62) (2 ^ 62) (2 ^ 62)); auto; vm_compute; done.
Defined.

(** Whole seconds since the Unix epoch survive the conversion to [Time] and
    back, for every time whose microsecond count stays an epoch's width below the
    maximum (the guard of [ToTimeT]) -- except the
    one that lands on the representation's null value, 1601-01-01. *)
Theorem time_t_roundtrip tt :
  - 9223372036854 <= tt <= 9200083089653 -> tt <> -11644473600 ->
  Time.ToTimeT (Time.FromTimeT tt) = tt.
Proof.
  intros Hr Hn. unfold Time.FromTimeT.
  destruct (Z.eqb_spec tt 0) as [-> | H0]; [done|].
  rewrite (proj2 (Z.eqb_neq tt int64_max)) by (int64_bounds; lia).
  assert (Time.kMicrosecondsPerSecond = 1000000) as Hk by done.
  assert (Time.kTimeTToMicrosecondsOffset = 11644473600000000) as Ho by done.
  rewrite (i64_id (tt * _)) by (rewrite Hk; int64_bounds; lia).
  rewrite i64_id by (rewrite Hk, Ho; int64_bounds; lia).
  unfold Time.ToTimeT, Time.is_null. rewrite Hk, Ho.
  rewrite (proj2 (Z.eqb_neq _ 0)) by lia.
  unfold Time.is_max. rewrite (proj2 (Z.eqb_neq _ int64_max)) by (int64_bounds; lia).
  rewrite (proj2 (Z.leb_gt _ _)) by (int64_bounds; lia).
  replace (tt * 1000000 + 11644473600000000 - 11644473600000000) with (tt * 1000000) by lia.
  rewrite i64_id by (int64_bounds; lia). by rewrite Z.quot_mul.
Qed.

Lemma time_t_roundtrip_witness : Time.ToTimeT (Time.FromTimeT 1431000000) = 1431000000.
Proof. apply (time_t_roundtrip 1431000000); lia. Defined.

Lemma snap_offset d i :
  0 < i ->
  let o := Z.rem d i in
  let o' := if negb (o =? 0) && (d <? 0) then o + i else o in
  0 <= o' < i /\ (o' - d) mod i = 0.
Proof.
  intros Hi o o'.
  assert (Hrem : d = i * Z.quot d i + o) by (apply Z.quot_rem'; lia).
  assert (Hb : Z.abs o < i) by (pose proof (Z.rem_bound_abs d i); lia).
  assert (Hs : 0 <= o * d) by (apply Z.rem_sign_mul; lia).
  assert (0 <= o' < i) as Ho' by
    (subst o'; destruct (Z.eqb_spec o 0), (Z.ltb_spec d 0); simpl; nia).
  split; [done|].
  assert (exists k, o' - d = k * i) as [k ->].
  { subst o'. destruct (negb (o =? 0) && (d <? 0)).
    - exists (1 - Z.quot d i). lia.
    - exists (- Z.quot d i). lia. }
  apply Z_mod_mult.
Qed.

(** [SnappedToNextTick] with a positive interval returns the least point of
    the tick lattice at or after the time it is called on, whether the phase lies
    before or after it, when neither the difference to the phase nor the result
    overflows. *)
Theorem snapped_to_next_tick this phase interval :
  0 < interval -> in_range int64 interval -> in_range int64 this ->
  in_range int64 (phase - this) -> in_range int64 (this + interval) ->
  exists r, TimeTicks.SnappedToNextTick this phase interval = Some r /\
    this <= r < this + interval /\ (r - phase) mod interval = 0.
Proof.
  intros Hi Hir Ht Hd Hr. unfold TimeTicks.SnappedToNextTick, TimeTicks.diff, crem.
  rewrite i64_id by done. unfold rem_overflows.
  rewrite (proj2 (Z.eqb_neq interval 0)), (proj2 (Z.eqb_neq interval (-1))), andb_false_r by lia.
  simpl.
  destruct (snap_offset (phase - this) interval Hi) as [Ho Hm].
  set (o := Z.rem (phase - this) interval) in *.
  assert (Z.abs o < interval) by (pose proof (Z.rem_bound_abs (phase - this) interval); lia).
  assert (in_range int64 o) by (int64_bounds; lia).
  replace (phase <? this) with (phase - this <? 0)
    by (destruct (Z.ltb_spec phase this), (Z.ltb_spec (phase - this) 0); lia).
  eexists; split; [reflexivity|]. unfold TimeTicks.add, TimeDelta.add.
  destruct (negb (o =? 0) && (phase - this <? 0)).
  - rewrite (SaturatedAdd_saturate o interval) by done.
    rewrite (saturate_id (o + interval)) by (int64_bounds; lia).
    rewrite SaturatedAdd_saturate, saturate_id by (int64_bounds; lia).
    split; [lia|]. by replace (o + interval + this - phase) with (o + interval - (phase - this)) by lia.
  - rewrite SaturatedAdd_saturate, saturate_id by (int64_bounds; lia).
    split; [lia|]. by replace (o + this - phase) with (o - (phase - this)) by lia.
Qed.

Lemma snapped_to_next_tick_witness :
  exists r, TimeTicks.SnappedToNextTick 107 1000 10 = Some r /\
    107 <= r < 107 + 10 /\ (r - 1000) mod 10 = 0.
Proof. apply (snapped_to_next_tick 107 1000 10); int64_bounds; lia. Defined.
