(* ===== verification/TaskQueues.v ===== *)
(** * Pending tasks and the queue between threads

    [base/pending_task.cc], the pump interface of [base/message_loop/message_pump.h]
    and [base/message_loop/incoming_task_queue.cc]. Closures are client code:
    a [Closure] is an opaque identifier. *)

From stdpp Require Import base numbers list sorting.
From Stdlib Require Import ZArith Lia.
From S2P Require Import Prelude Numerics TimeBase.

Local Open Scope Z_scope.

(** ** [PendingTask] *)

Definition Closure : Type := nat.

Record PendingTask := PendingTask_ {
  task : Closure;
  delayed_run_time : Z;
  sequence_num : Z;
  nestable : bool;
  is_high_res : bool }.

#[export] Instance PendingTask_eq_dec : EqDecision PendingTask.
Proof. solve_decision. Defined.

(** The constructor used for posting: the sequence number is assigned later. *)
Definition PendingTask_new (task : Closure) (run_time : Z) (nestable : bool) : PendingTask :=
  PendingTask_ task run_time 0 nestable false.

(** [operator<]: inverted, so that the earliest task is the greatest; the
    difference of sequence numbers is an [int]. *)
Definition PendingTask_lt (a b : PendingTask) : bool :=
  if delayed_run_time a <? delayed_run_time b then false
  else if delayed_run_time b <? delayed_run_time a then true
  else 0 <? i32 (sequence_num a - sequence_num b).

(** [TaskQueue]: a [std::queue], front first. *)
Definition TaskQueue : Type := list PendingTask.

(** [DelayedTaskQueue]: a [std::priority_queue], as the list of its elements in
    the order in which they would be popped. [push] places an element after those
    that are not smaller. *)
Fixpoint DelayedTaskQueue_push (q : list PendingTask) (t : PendingTask) : list PendingTask :=
  match q with
  | [] => [t]
  | x :: q' => if PendingTask_lt x t then t :: q else x :: DelayedTaskQueue_push q' t
  end.

(** ** The pump, as the message loop sees it

    [MessagePump]: three notifications. The implementations' [Run] call back into
    the loop's delegate methods. *)
Class MessagePump (P : Type) := {
  pump_ScheduleWork : P -> P;
  pump_ScheduleDelayedWork : Z -> P -> P;
  pump_Quit : P -> P }.

(** ** [IncomingTaskQueue] *)

Inductive LoopType := TYPE_DEFAULT | TYPE_UI | TYPE_CUSTOM | TYPE_IO.

#[export] Instance LoopType_eq_dec : EqDecision LoopType.
Proof. solve_decision. Defined.

(** On every platform but Android. *)
Definition AlwaysNotifyPump (type : LoopType) : bool := false.

Record IncomingTaskQueue := IncomingTaskQueue_ {
  high_res_task_count : Z;
  incoming_queue : TaskQueue;
  attached : bool;                    (** [message_loop_ != NULL] *)
  next_sequence_num : Z;
  message_loop_scheduled : bool;
  always_schedule_work : bool }.

Definition IncomingTaskQueue_new (type : LoopType) : IncomingTaskQueue :=
  IncomingTaskQueue_ 0 [] true 0 false (AlwaysNotifyPump type).

Definition CalculateDelayedRuntime (now delay : Z) : Z :=
  if 0 <? delay then TimeTicks.add now delay else 0.

(** [PostPendingTask]: [None] for the task when the loop is gone. The result also
    says whether [ScheduleWork] was called on the pump. *)
Definition PostPendingTask (q : IncomingTaskQueue) (t : PendingTask)
    : IncomingTaskQueue * option PendingTask * bool :=
  if negb (attached q) then (q, None, false) else
  let t := PendingTask_ (task t) (delayed_run_time t) (next_sequence_num q)
                        (nestable t) (is_high_res t) in
  let was_empty := match incoming_queue q with [] => true | _ => false end in
  let wake := always_schedule_work q || (negb (message_loop_scheduled q) && was_empty) in
  (IncomingTaskQueue_ (high_res_task_count q) (incoming_queue q ++ [t]) (attached q)
     (i32 (next_sequence_num q + 1))
     (if wake then true else message_loop_scheduled q) (always_schedule_work q),
   Some t, wake).

(** Whether a delay asks for the high resolution timer (Windows). *)
Definition needs_high_res (delay : Z) : bool :=
  (0 <? delay) && (TimeDelta.InMilliseconds delay <? 2 * Time.kMinLowResolutionThresholdMs).

(** [AddToIncomingQueue], executed under the queue's lock at time [now]. *)
Definition AddToIncomingQueue (q : IncomingTaskQueue) (now : Z) (c : Closure) (delay : Z)
    (nest : bool) : IncomingTaskQueue * option PendingTask * bool :=
  let t := PendingTask_new c (CalculateDelayedRuntime now delay) nest in
  if needs_high_res delay then
    PostPendingTask
      (IncomingTaskQueue_ (high_res_task_count q + 1) (incoming_queue q) (attached q)
         (next_sequence_num q) (message_loop_scheduled q) (always_schedule_work q))
      (PendingTask_ (task t) (delayed_run_time t) (sequence_num t) (nestable t) true)
  else PostPendingTask q t.

Definition HasHighResolutionTasks (q : IncomingTaskQueue) : bool := 0 <? high_res_task_count q.

Definition IsIdleForTesting (q : IncomingTaskQueue) : bool :=
  match incoming_queue q with [] => true | _ => false end.

(** [ReloadWorkQueue(work_queue)], called with an empty [work_queue]: the new
    incoming queue, the new work queue and the count of high resolution tasks. *)
Definition Incoming_ReloadWorkQueue (q : IncomingTaskQueue) (work_queue : TaskQueue)
    : IncomingTaskQueue * TaskQueue * Z :=
  match incoming_queue q with
  | [] => (IncomingTaskQueue_ 0 [] (attached q) (next_sequence_num q) false
             (always_schedule_work q), work_queue, high_res_task_count q)
  | inc => (IncomingTaskQueue_ 0 work_queue (attached q) (next_sequence_num q)
              (message_loop_scheduled q) (always_schedule_work q), inc, high_res_task_count q)
  end.

Definition WillDestroyCurrentMessageLoop (q : IncomingTaskQueue) : IncomingTaskQueue :=
  IncomingTaskQueue_ (high_res_task_count q) (incoming_queue q) false
    (next_sequence_num q) (message_loop_scheduled q) (always_schedule_work q).

(** ** Lemmas *)

Lemma CalculateDelayedRuntime_range now delay :
  0 <= now <= int64_max -> Int.in_range Int.int64 delay ->
  0 <= CalculateDelayedRuntime now delay <= int64_max.
Proof.
  intros Hn Hd. unfold CalculateDelayedRuntime, TimeTicks.add.
  destruct (Z.ltb_spec 0 delay); [|int64_bounds; lia].
  rewrite SaturatedAdd_saturate by (done || (int64_bounds; lia)). int64_bounds. cmp_lia.
Qed.

(** A run time is no further from the present than the delay. *)
Lemma CalculateDelayedRuntime_bound now delay :
  0 <= now <= int64_max -> Int.in_range Int.int64 delay ->
  CalculateDelayedRuntime now delay <= Z.max 0 (now + delay).
Proof.
  intros Hn Hd. unfold CalculateDelayedRuntime, TimeTicks.add.
  destruct (Z.ltb_spec 0 delay); [|lia].
  rewrite SaturatedAdd_saturate by (done || (int64_bounds; lia)). int64_bounds. cmp_lia.
Qed.

Fixpoint count_high_res (q : list PendingTask) : Z :=
  match q with [] => 0 | t :: q' => Z.b2z (is_high_res t) + count_high_res q' end.

Lemma count_high_res_app q1 q2 :
  count_high_res (q1 ++ q2) = count_high_res q1 + count_high_res q2.
Proof. induction q1; simpl; lia. Qed.

Lemma count_high_res_nonneg q : 0 <= count_high_res q.
Proof. induction q as [|[? ? ? ? []]]; simpl; lia. Qed.

Lemma DelayedTaskQueue_push_perm q t : DelayedTaskQueue_push q t ≡ₚ t :: q.
Proof.
  induction q as [|x q IH]; simpl; [done|]. destruct (PendingTask_lt x t); [done|].
  rewrite IH. constructor.
Qed.

Lemma count_high_res_perm q1 q2 : q1 ≡ₚ q2 -> count_high_res q1 = count_high_res q2.
Proof. induction 1; simpl; lia. Qed.

(** Run times never decrease along the delayed queue. *)
Definition earlier (a b : PendingTask) : Prop := delayed_run_time a <= delayed_run_time b.

#[export] Instance earlier_trans : Transitive earlier.
Proof. intros a b c. unfold earlier. lia. Qed.

Lemma PendingTask_lt_earlier a b : PendingTask_lt a b = true -> earlier b a.
Proof.
  unfold PendingTask_lt, earlier.
  destruct (Z.ltb_spec (delayed_run_time a) (delayed_run_time b)); [done|]. lia.
Qed.

Lemma PendingTask_not_lt_earlier a b : PendingTask_lt a b = false -> earlier a b.
Proof.
  unfold PendingTask_lt, earlier.
  destruct (Z.ltb_spec (delayed_run_time a) (delayed_run_time b)); [lia|].
  destruct (Z.ltb_spec (delayed_run_time b) (delayed_run_time a)); [done|]. lia.
Qed.

Lemma DelayedTaskQueue_push_sorted q t :
  StronglySorted earlier q -> StronglySorted earlier (DelayedTaskQueue_push q t).
Proof.
  induction 1 as [|x q Hs IH Hx]; simpl; [repeat constructor|].
  destruct (PendingTask_lt x t) eqn:E.
  - apply PendingTask_lt_earlier in E. constructor; [by constructor|].
    constructor; [done|]. eapply Forall_impl; [exact Hx|]. intros; by etrans.
  - constructor; [done|]. rewrite DelayedTaskQueue_push_perm. constructor; [|done].
    by apply PendingTask_not_lt_earlier.
Qed.
