(* ===== verification/MessageLoop.v ===== *)
(** * The message loop's operations

    [base/message_loop/message_loop.cc] and [base/run_loop.cc] for the Windows
    build. A handler that runs a task stops at the call of the client's closure
    and reports the task ([RunTask_enter]); what the handler does after the
    closure returns is [RunTask_exit], after which every handler returns [true].
    [MessageLoopRun] composes them into runs. *)

From stdpp Require Import base numbers list.
From Stdlib Require Import ZArith Lia.
From S2P Require Import Prelude Numerics TimeBase TaskQueues.

Local Open Scope Z_scope.

(** ** [RunLoop] objects, once running: the fields read after [BeforeRun]. *)
Record RunLoop := RunLoop_ {
  run_depth : Z;
  quit_called : bool;
  quit_when_idle_received : bool }.

(** ** [MessageLoop] *)
Record MessageLoop (P : Type) := MessageLoop_ {
  type_ : LoopType;
  pending_high_res_tasks : Z;
  in_high_res_mode : bool;
  nestable_tasks_allowed : bool;
  work_queue : TaskQueue;
  delayed_work_queue : list PendingTask;
  deferred_non_nestable_work_queue : TaskQueue;
  recent_time : Z;
  incoming_task_queue : IncomingTaskQueue;
  run_loops : list RunLoop;     (** [run_loop_] and its [previous_run_loop_] chain *)
  pump : P }.

Arguments MessageLoop_ {P}.
Arguments type_ {P}.
Arguments pending_high_res_tasks {P}.
Arguments in_high_res_mode {P}.
Arguments nestable_tasks_allowed {P}.
Arguments work_queue {P}.
Arguments delayed_work_queue {P}.
Arguments deferred_non_nestable_work_queue {P}.
Arguments recent_time {P}.
Arguments incoming_task_queue {P}.
Arguments run_loops {P}.
Arguments pump {P}.

Section Operations.
Context {P : Type} `{!MessagePump P}.
Implicit Types l : MessageLoop P.

(** Field updates. *)
Definition set_high_res l n m : MessageLoop P :=
  MessageLoop_ (type_ l) n m (nestable_tasks_allowed l) (work_queue l) (delayed_work_queue l)
    (deferred_non_nestable_work_queue l) (recent_time l) (incoming_task_queue l)
    (run_loops l) (pump l).
Definition set_nestable l b : MessageLoop P :=
  MessageLoop_ (type_ l) (pending_high_res_tasks l) (in_high_res_mode l) b (work_queue l)
    (delayed_work_queue l) (deferred_non_nestable_work_queue l) (recent_time l)
    (incoming_task_queue l) (run_loops l) (pump l).
Definition set_work l q : MessageLoop P :=
  MessageLoop_ (type_ l) (pending_high_res_tasks l) (in_high_res_mode l)
    (nestable_tasks_allowed l) q (delayed_work_queue l) (deferred_non_nestable_work_queue l)
    (recent_time l) (incoming_task_queue l) (run_loops l) (pump l).
Definition set_delayed l q : MessageLoop P :=
  MessageLoop_ (type_ l) (pending_high_res_tasks l) (in_high_res_mode l)
    (nestable_tasks_allowed l) (work_queue l) q (deferred_non_nestable_work_queue l)
    (recent_time l) (incoming_task_queue l) (run_loops l) (pump l).
Definition set_deferred l q : MessageLoop P :=
  MessageLoop_ (type_ l) (pending_high_res_tasks l) (in_high_res_mode l)
    (nestable_tasks_allowed l) (work_queue l) (delayed_work_queue l) q
    (recent_time l) (incoming_task_queue l) (run_loops l) (pump l).
Definition set_recent l t : MessageLoop P :=
  MessageLoop_ (type_ l) (pending_high_res_tasks l) (in_high_res_mode l)
    (nestable_tasks_allowed l) (work_queue l) (delayed_work_queue l)
    (deferred_non_nestable_work_queue l) t (incoming_task_queue l) (run_loops l) (pump l).
Definition set_incoming l q : MessageLoop P :=
  MessageLoop_ (type_ l) (pending_high_res_tasks l) (in_high_res_mode l)
    (nestable_tasks_allowed l) (work_queue l) (delayed_work_queue l)
    (deferred_non_nestable_work_queue l) (recent_time l) q (run_loops l) (pump l).
Definition set_run_loops l rs : MessageLoop P :=
  MessageLoop_ (type_ l) (pending_high_res_tasks l) (in_high_res_mode l)
    (nestable_tasks_allowed l) (work_queue l) (delayed_work_queue l)
    (deferred_non_nestable_work_queue l) (recent_time l) (incoming_task_queue l) rs (pump l).
Definition set_pump l (p : P) : MessageLoop P :=
  MessageLoop_ (type_ l) (pending_high_res_tasks l) (in_high_res_mode l)
    (nestable_tasks_allowed l) (work_queue l) (delayed_work_queue l)
    (deferred_non_nestable_work_queue l) (recent_time l) (incoming_task_queue l)
    (run_loops l) p.

(** The constructor, with [Init]. *)
Definition MessageLoop_new (type : LoopType) (p : P) : MessageLoop P :=
  MessageLoop_ type 0 false true [] [] [] 0 (IncomingTaskQueue_new type) [] p.

(** [PostTask] and its variants all reach [AddToIncomingQueue] through the
    proxy; the pump is woken inside it. The second component is the posted task,
    [None] when the post is refused. *)
Definition Post l (now : Z) (c : Closure) (delay : Z) (nest : bool)
    : MessageLoop P * option PendingTask :=
  let '(q, posted, wake) := AddToIncomingQueue (incoming_task_queue l) now c delay nest in
  let l := set_incoming l q in
  (if wake then set_pump l (pump_ScheduleWork (pump l)) else l, posted).

Definition PostTask l (now : Z) (c : Closure) := Post l now c 0 true.
Definition PostDelayedTask l (now : Z) (c : Closure) (delay : Z) := Post l now c delay true.
Definition PostNonNestableTask l (now : Z) (c : Closure) := Post l now c 0 false.
Definition PostNonNestableDelayedTask l (now : Z) (c : Closure) (delay : Z) :=
  Post l now c delay false.

(** [QuitWhenIdle] and [QuitNow]: outside a run they only report NOTREACHED. *)
Definition QuitWhenIdle l : MessageLoop P :=
  match run_loops l with
  | r :: rs => set_run_loops l (RunLoop_ (run_depth r) (quit_called r) true :: rs)
  | [] => l
  end.

Definition QuitNow l : MessageLoop P :=
  match run_loops l with _ :: _ => set_pump l (pump_Quit (pump l)) | [] => l end.

Definition SetNestableTasksAllowed l (allowed : bool) : MessageLoop P :=
  let l := if allowed then set_pump l (pump_ScheduleWork (pump l)) else l in
  set_nestable l allowed.

(** [run_loop_->run_depth_]. *)
Definition current_depth l : Z :=
  match run_loops l with r :: _ => run_depth r | [] => 0 end.

Definition IsNested l : bool := 1 <? current_depth l.
Definition is_running l : bool := match run_loops l with _ :: _ => true | [] => false end.

(** [RunTask], up to the call of the closure; [None] is a failed [DCHECK] on
    [nestable_tasks_allowed_] or [CHECK] on the count of high resolution tasks. *)
Definition RunTask_enter l (t : PendingTask) : option (MessageLoop P) :=
  if negb (nestable_tasks_allowed l) then None
  else if is_high_res t then
    let n := pending_high_res_tasks l - 1 in
    if 0 <=? n then Some (set_nestable (set_high_res l n (in_high_res_mode l)) false) else None
  else Some (set_nestable l false).

(** [RunTask] after the closure returned. *)
Definition RunTask_exit l : MessageLoop P := set_nestable l true.

(** [DeferOrRunPendingTask]: [true] when the task is to be run. *)
Definition DeferOrRunPendingTask l (t : PendingTask) : MessageLoop P * bool :=
  if nestable t || (current_depth l =? 1) then (l, true)
  else (set_deferred l (deferred_non_nestable_work_queue l ++ [t]), false).

Definition AddToDelayedWorkQueue l (t : PendingTask) : MessageLoop P :=
  set_delayed l (DelayedTaskQueue_push (delayed_work_queue l) t).

Definition ReloadWorkQueue l : MessageLoop P :=
  match work_queue l with
  | [] =>
      let '(q, w, n) := Incoming_ReloadWorkQueue (incoming_task_queue l) (work_queue l) in
      set_incoming (set_work (set_high_res l (pending_high_res_tasks l + n)
                                (in_high_res_mode l)) w) q
  | _ => l
  end.

(** The inner [do ... while] of [DoWork]: pops the work queue until a task is to
    be run or the queue is empty. *)
Fixpoint DoWork_inner l (work : TaskQueue) : MessageLoop P * option PendingTask :=
  match work with
  | [] => (set_work l [], None)
  | t :: rest =>
      if negb (TimeTicks.is_null (delayed_run_time t)) then
        let l := AddToDelayedWorkQueue l t in
        let top_is_new :=
          match delayed_work_queue l with top :: _ => Nat.eqb (task top) (task t) | [] => false end in
        let l := if top_is_new
                 then set_pump l (pump_ScheduleDelayedWork (delayed_run_time t) (pump l)) else l in
        DoWork_inner l rest
      else
        let '(l', run) := DeferOrRunPendingTask l t in
        if run then (set_work l' rest, Some t) else DoWork_inner l' rest
  end.

(** One pass of the [for (;;)] of [DoWork]. Other threads can post between
    passes; within a pass only the loop's thread touches the state. *)
Inductive WorkResult := WorkAgain | WorkNothing | WorkRun (t : PendingTask).

Definition DoWork_pass l : MessageLoop P * WorkResult :=
  let l := ReloadWorkQueue l in
  match work_queue l with
  | [] => (l, WorkNothing)
  | w =>
      match DoWork_inner l w with
      | (l', Some t) => (l', WorkRun t)
      | (l', None) => (l', WorkAgain)
      end
  end.

(** [DoDelayedWork(&next_delayed_work_time)], at time [now]: the new value of
    the argument, and the task to run, if any. *)
Definition DoDelayedWork l (now : Z) (next_delayed_work_time : Z)
    : MessageLoop P * Z * option PendingTask :=
  match delayed_work_queue l with
  | [] => (set_recent l 0, 0, None)
  | top :: rest =>
      if negb (nestable_tasks_allowed l) then (set_recent l 0, 0, None) else
      let next_run_time := delayed_run_time top in
      let l := if recent_time l <? next_run_time then set_recent l now else l in
      if recent_time l <? next_run_time then (l, next_run_time, None) else
      let l := set_delayed l rest in
      let next := match rest with top' :: _ => delayed_run_time top'
                                | [] => next_delayed_work_time end in
      let '(l, run) := DeferOrRunPendingTask l top in
      (l, next, if run then Some top else None)
  end.

Definition ProcessNextDelayedNonNestableTask l : MessageLoop P * option PendingTask :=
  if negb (current_depth l =? 1) then (l, None) else
  match deferred_non_nestable_work_queue l with
  | [] => (l, None)
  | t :: rest => (set_deferred l rest, Some t)
  end.

(** [DoIdleWork]: either a deferred task to run, or quitting and the timer
    resolution. *)
Definition DoIdleWork l : MessageLoop P * option PendingTask :=
  match ProcessNextDelayedNonNestableTask l with
  | (l', Some t) => (l', Some t)
  | (_, None) =>
      let l := match run_loops l with
               | r :: _ => if quit_when_idle_received r
                           then set_pump l (pump_Quit (pump l)) else l
               | [] => l
               end in
      let high_res := 0 <? pending_high_res_tasks l in
      (if negb (Bool.eqb high_res (in_high_res_mode l))
       then set_high_res l (pending_high_res_tasks l) high_res else l, None)
  end.

(** [DeletePendingTasks], with destructors that post nothing. *)
Definition DeletePendingTasks l : MessageLoop P * bool :=
  let nonempty {A} (q : list A) := match q with [] => false | _ => true end in
  let did_work := nonempty (work_queue l) in
  let delayed :=
    foldl DelayedTaskQueue_push (delayed_work_queue l)
      (filter (fun t => negb (TimeTicks.is_null (delayed_run_time t)) = true) (work_queue l)) in
  let did_work := did_work || nonempty (deferred_non_nestable_work_queue l) || nonempty delayed in
  (set_delayed (set_deferred (set_work l []) []) [], did_work).

(** [RunLoop::BeforeRun]: [None] when [Quit] was called before [Run]. *)
Definition BeforeRun l (quit_called0 quit_when_idle0 : bool) : option (MessageLoop P) :=
  if quit_called0 then None else
  let depth := match run_loops l with r :: _ => run_depth r + 1 | [] => 1 end in
  Some (set_run_loops l (RunLoop_ depth quit_called0 quit_when_idle0 :: run_loops l)).

(** [RunLoop::AfterRun]: pops, and executes a deferred quit of the outer loop. *)
Definition AfterRun l : MessageLoop P :=
  let l := set_run_loops l (tail (run_loops l)) in
  match run_loops l with
  | r :: _ => if quit_called r then QuitNow l else l
  | [] => l
  end.

(** [RunLoop::Quit] on the [i]-th running loop, counted from the innermost. *)
Definition RunLoop_Quit l (i : nat) : MessageLoop P :=
  match run_loops l !! i with
  | Some r =>
      let l' := set_run_loops l
        (<[i := RunLoop_ (run_depth r) true (quit_when_idle_received r)]> (run_loops l)) in
      if Nat.eqb i 0 then QuitNow l' else l'
  | None => l
  end.
End Operations.

Arguments WorkResult : clear implicits.
