(* ===== verification/MessageLoopRun.v ===== *)
(** * Runs of a message loop on the default pump

    [base/message_loop/message_pump_default.cc], [RunLoop::Run] and the machine
    they form with the loop's handlers: a stack of nested runs and running tasks,
    driven by events. An event is either a step of the loop's own thread (the pump
    advancing, client code of a running task calling the loop, a task returning)
    or something that can happen at any moment (another thread posting, time
    passing). *)

From stdpp Require Import base numbers list sorting.
From Stdlib Require Import ZArith Lia.
From S2P Require Import Prelude Numerics TimeBase TaskQueues MessageLoop.

Local Open Scope Z_scope.

(** ** [MessagePumpDefault] *)
Record MessagePumpDefault := MessagePumpDefault_ {
  keep_running : bool;
  event_ : bool;               (** the auto-reset event is signalled *)
  delayed_work_time : Z }.

Definition MessagePumpDefault_new : MessagePumpDefault := MessagePumpDefault_ true false 0.

Definition set_keep_running (p : MessagePumpDefault) b :=
  MessagePumpDefault_ b (event_ p) (delayed_work_time p).
Definition set_event (p : MessagePumpDefault) b :=
  MessagePumpDefault_ (keep_running p) b (delayed_work_time p).
Definition set_delayed_work_time (p : MessagePumpDefault) t :=
  MessagePumpDefault_ (keep_running p) (event_ p) t.

#[export] Instance MessagePumpDefault_pump : MessagePump MessagePumpDefault := {
  pump_ScheduleWork p := set_event p true;
  pump_ScheduleDelayedWork t p := set_delayed_work_time p t;
  pump_Quit p := set_keep_running p false }.

Abbreviation Loop := (MessageLoop MessagePumpDefault).

(** ** The machine *)

(** [WaitableEvent::TimedWait] ([waitable_event_win.cc]): the wait begins at [now] and times
    out at this moment, up to a millisecond early, as the timeout is truncated to whole
    milliseconds; never, if it is [INFINITE]. It may also return before ([EvTimeOut] below). *)
Definition INFINITE : Z := 0xffffffff.

Definition timed_wait_end (now max_time : Z) : option Z :=
  let timeout := default 0 (saturated_cast Int.uint32 Int.int64 (TimeDelta.InMilliseconds max_time)) in
  if timeout =? INFINITE then None else Some (now + timeout * Time.kMicrosecondsPerMillisecond).

(** Delays that such a wait can time, 49.7 days. *)
Definition max_delay : Z := INFINITE * Time.kMicrosecondsPerMillisecond.

(** Where [MessagePumpDefault::Run] is in its [for (;;)]: about to call (or inside)
    [DoWork], [DoDelayedWork], [DoIdleWork], about to wait, or blocked on the
    event, until the wait times out if it does. *)
Inductive PumpPc :=
  | PcDoWork
  | PcDelayedWork (did_work : bool)
  | PcIdleWork
  | PcWait
  | PcBlocked (deadline : option Z).

Inductive Frame :=
  | PumpFrame (pc : PumpPc)
  | TaskFrame (t : PendingTask).

#[export] Instance PumpPc_eq_dec : EqDecision PumpPc.
Proof. solve_decision. Defined.

#[export] Instance Frame_eq_dec : EqDecision Frame.
Proof. solve_decision. Defined.

(** The number of runs in progress. *)
Fixpoint active_runs (fs : list Frame) : nat :=
  match fs with
  | [] => 0
  | PumpFrame _ :: fs' => S (active_runs fs')
  | TaskFrame _ :: fs' => active_runs fs'
  end.

(** A task start, as the history records it: the task, the time, and how many
    runs were in progress. *)
Record Start := Start_ { started_task : PendingTask; started_at : Z; started_depth : nat }.

#[export] Instance Start_eq_dec : EqDecision Start.
Proof. solve_decision. Defined.

Record Machine := Machine_ {
  loop : Loop;
  frames : list Frame;          (** innermost first *)
  clock : Z;                    (** [TimeTicks::Now()] *)
  posted : list PendingTask;    (** history: accepted posts *)
  started : list Start }.       (** history: tasks run *)

Definition Machine_new (type : LoopType) (now : Z) : Machine :=
  Machine_ (MessageLoop_new type MessagePumpDefault_new) [] now [] [].

Definition set_loop (m : Machine) (l : Loop) (fs : list Frame) : Machine :=
  Machine_ l fs (clock m) (posted m) (started m).

Inductive Outcome := Stuck | Crash | Next (m : Machine).

(** [RunTask] calls the closure: the task becomes the innermost frame, above the
    pump frame whose delegate call is in progress. *)
Definition start_task (m : Machine) (l : Loop) (fs : list Frame) (t : PendingTask) : Outcome :=
  match RunTask_enter l t with
  | None => Crash
  | Some l' => Next (Machine_ l' (TaskFrame t :: fs) (clock m) (posted m)
                       (started m ++ [Start_ t (clock m) (active_runs fs)]))
  end.

(** [break] out of the pump's loop, then [RunLoop::AfterRun]. *)
Definition leave_run (m : Machine) (l : Loop) (fs : list Frame) : Outcome :=
  Next (set_loop m (AfterRun (set_pump l (set_keep_running (pump l) true))) fs).

(** After each delegate call the pump tests [keep_running_]. *)
Definition continue_at (m : Machine) (l : Loop) (fs : list Frame) (pc : PumpPc) : Outcome :=
  if keep_running (pump l) then Next (set_loop m l (PumpFrame pc :: fs)) else leave_run m l fs.

Definition after_delayed (did_work : bool) : PumpPc := if did_work then PcDoWork else PcIdleWork.

(** One step of [MessagePumpDefault::Run]. *)
Definition pump_step (m : Machine) (pc : PumpPc) (fs : list Frame) : Outcome :=
  let l := loop m in
  match pc with
  | PcDoWork =>
      if negb (nestable_tasks_allowed l) then continue_at m l fs (PcDelayedWork false) else
      match DoWork_pass l with
      | (l', WorkAgain) => Next (set_loop m l' (PumpFrame PcDoWork :: fs))
      | (l', WorkNothing) => continue_at m l' fs (PcDelayedWork false)
      | (l', WorkRun t) => start_task m l' (PumpFrame PcDoWork :: fs) t
      end
  | PcDelayedWork did_work =>
      let '(l', next, run) := DoDelayedWork l (clock m) (delayed_work_time (pump l)) in
      let l' := set_pump l' (set_delayed_work_time (pump l') next) in
      match run with
      | Some t => start_task m l' (PumpFrame (PcDelayedWork did_work) :: fs) t
      | None => continue_at m l' fs (after_delayed did_work)
      end
  | PcIdleWork =>
      match DoIdleWork l with
      | (l', Some t) => start_task m l' (PumpFrame PcIdleWork :: fs) t
      | (l', None) => continue_at m l' fs PcWait
      end
  | PcWait =>
      let t := delayed_work_time (pump l) in
      if TimeTicks.is_null t then Next (set_loop m l (PumpFrame (PcBlocked None) :: fs)) else
      let delay := TimeTicks.diff t (clock m) in
      if 0 <? delay
      then Next (set_loop m l (PumpFrame (PcBlocked (timed_wait_end (clock m) delay)) :: fs))
      else Next (set_loop m (set_pump l (set_delayed_work_time (pump l) 0)) (PumpFrame PcDoWork :: fs))
  | PcBlocked deadline =>
      if event_ (pump l)
      then Next (set_loop m (set_pump l (set_event (pump l) false)) (PumpFrame PcDoWork :: fs))
      else match deadline with
           | Some d => if d <=? clock m then Next (set_loop m l (PumpFrame PcDoWork :: fs)) else Stuck
           | None => Stuck
           end
  end.

(** The delegate call in which a task ran returns [true]. *)
Definition task_done (m : Machine) (fs : list Frame) : Outcome :=
  let l := RunTask_exit (loop m) in
  match fs with
  | PumpFrame PcDoWork :: fs' => continue_at m l fs' (PcDelayedWork true)
  | PumpFrame (PcDelayedWork _) :: fs' => continue_at m l fs' (after_delayed true)
  | PumpFrame PcIdleWork :: fs' => continue_at m l fs' PcDoWork
  | _ => Stuck
  end.

Inductive Event :=
  | EvPost (c : Closure) (delay : Z) (nest : bool)
  | EvTick (d : Z)
  | EvPump
  | EvTaskDone
  | EvRun (quit_called0 quit_when_idle0 : bool)
  | EvQuit (i : nat)
  | EvQuitWhenIdle
  | EvQuitNow
  | EvSetNestable (allowed : bool)
  | EvTimeOut.                  (** a timed wait answers [false], early or not *)

(** Client code of the loop's thread runs outside of any run, or in a task. *)
Definition client_runs (m : Machine) : bool :=
  match frames m with PumpFrame _ :: _ => false | _ => true end.

(** [Crash] is a failed [CHECK] or [DCHECK]. A post whose delay is too long for the pump's
    wait is left out; the [DCHECK] of [EvRun] is that of [MessagePumpDefault::Run]. *)
Definition step (m : Machine) (e : Event) : Outcome :=
  let l := loop m in
  match e with
  | EvPost c delay nest =>
      if decide (Int.in_range Int.int64 delay /\ delay < max_delay) then
        let '(l', p) := Post l (clock m) c delay nest in
        Next (Machine_ l' (frames m) (clock m) (posted m ++ option_list p) (started m))
      else Stuck
  | EvTick d =>
      if (0 <=? d) && (clock m + d <=? int64_max)
      then Next (Machine_ l (frames m) (clock m + d) (posted m) (started m)) else Stuck
  | EvPump => match frames m with PumpFrame pc :: fs => pump_step m pc fs | _ => Stuck end
  | EvTaskDone => match frames m with TaskFrame _ :: fs => task_done m fs | _ => Stuck end
  | EvRun q i =>
      if client_runs m then
        match BeforeRun l q i with
        | Some l' =>
            if keep_running (pump l') then Next (set_loop m l' (PumpFrame PcDoWork :: frames m)) else Crash
        | None => Next m
        end
      else Stuck
  | EvQuit i => if client_runs m then Next (set_loop m (RunLoop_Quit l i) (frames m)) else Stuck
  | EvQuitWhenIdle =>
      if client_runs m then Next (set_loop m (QuitWhenIdle l) (frames m)) else Stuck
  | EvQuitNow => if client_runs m then Next (set_loop m (QuitNow l) (frames m)) else Stuck
  | EvSetNestable b =>
      if client_runs m then Next (set_loop m (SetNestableTasksAllowed l b) (frames m)) else Stuck
  | EvTimeOut =>
      match frames m with
      | PumpFrame (PcBlocked (Some _)) :: fs => Next (set_loop m l (PumpFrame PcDoWork :: fs))
      | _ => Stuck
      end
  end.

(** The states a run reaches, and the states a run can crash from. *)
Inductive reachable (type : LoopType) : Machine -> Prop :=
  | reachable_new now : 0 <= now <= int64_max -> reachable type (Machine_new type now)
  | reachable_step m e m' : reachable type m -> step m e = Next m' -> reachable type m'.

(** Executing a schedule, for examples; events that are not enabled are skipped. *)
Fixpoint execute (m : Machine) (es : list Event) : Machine :=
  match es with
  | [] => m
  | e :: es' => match step m e with Next m' => execute m' es' | _ => execute m es' end
  end.

(** ** Invariants of the queues

    Stated over the fields they depend on, with the history: [posted], the tasks
    already [ran], and [x], the task popped for running but not yet entered. *)

Definition immediate (t : PendingTask) : Prop := delayed_run_time t = 0 /\ nestable t = true.
#[export] Instance immediate_dec t : Decision (immediate t).
Proof. unfold immediate. apply _. Defined.

Definition ready (now : Z) (t : PendingTask) : Prop :=
  nestable t = false /\ delayed_run_time t <= now.

Record QueuesOk (now : Z) (posted ran x : list PendingTask) (pending recent : Z)
    (work delayed deferred : list PendingTask) (inc : IncomingTaskQueue) : Prop := {
  ok_now : 0 <= now <= int64_max;
  ok_recent : recent <= now;
  ok_attached : attached inc = true;
  ok_high_incoming : high_res_task_count inc = count_high_res (incoming_queue inc);
  ok_high_pending : pending = count_high_res (x ++ work ++ delayed ++ deferred);
  ok_perm : posted ≡ₚ ran ++ x ++ incoming_queue inc ++ work ++ delayed ++ deferred;
  ok_fifo : filter immediate posted
            = filter immediate (ran ++ x) ++ filter immediate work
              ++ filter immediate (incoming_queue inc);
  ok_delayed : Forall (fun t => delayed_run_time t <> 0) delayed;
  ok_sorted : StronglySorted earlier delayed;
  ok_deferred : Forall (ready now) deferred;
  ok_range : Forall (fun t => 0 <= delayed_run_time t <= int64_max /\ delayed_run_time t < now + max_delay) posted }.

Definition LoopOk (now : Z) (posted ran x : list PendingTask) (l : Loop) : Prop :=
  QueuesOk now posted ran x (pending_high_res_tasks l) (recent_time l) (work_queue l)
    (delayed_work_queue l) (deferred_non_nestable_work_queue l) (incoming_task_queue l).

Lemma LoopOk_now now posted ran x l : LoopOk now posted ran x l -> 0 <= now <= int64_max.
Proof. by intros []. Qed.

Lemma LoopOk_attached now posted ran x l :
  LoopOk now posted ran x l -> attached (incoming_task_queue l) = true.
Proof. by intros []. Qed.

Lemma filter_immediate_skip t q : ~ immediate t -> filter immediate (t :: q) = filter immediate q.
Proof. intros. by rewrite filter_cons_False. Qed.

(** Equates counts of concatenations. *)
Ltac count_solve := repeat (progress (rewrite ?count_high_res_app; simpl)); lia.

(** Closes permutations of concatenations that differ by moving elements. *)
Ltac perm_solve := solve_Permutation || (rewrite ?Permutation_app_comm; solve_Permutation).

Lemma QueuesOk_post now posted ran pending recent work delayed deferred inc inc' t :
  QueuesOk now posted ran [] pending recent work delayed deferred inc ->
  attached inc' = true -> incoming_queue inc' = incoming_queue inc ++ [t] ->
  high_res_task_count inc' = high_res_task_count inc + Z.b2z (is_high_res t) ->
  0 <= delayed_run_time t <= int64_max /\ delayed_run_time t < now + max_delay ->
  QueuesOk now (posted ++ [t]) ran [] pending recent work delayed deferred inc'.
Proof.
  intros [] Ha Hq Hc Ht. constructor; rewrite ?Hq; try done.
  - rewrite Hc, count_high_res_app. simpl. lia.
  - rewrite ok_perm0. solve_Permutation.
  - by rewrite !(filter_app _ _ [t]), ok_fifo0, <- !app_assoc.
  - apply Forall_app; split; [done|]. by apply Forall_singleton.
Qed.

(** Posting appends to the incoming queue and to the history, and wakes the pump
    unless the loop is known to be awake. *)
Lemma Post_ok now posted ran l c delay nest l' p :
  LoopOk now posted ran [] l -> Int.in_range Int.int64 delay -> delay < max_delay ->
  Post l now c delay nest = (l', p) ->
  exists t, p = Some t /\ task t = c /\ nestable t = nest /\
    delayed_run_time t = CalculateDelayedRuntime now delay /\
    LoopOk now (posted ++ [t]) ran [] l'.
Proof.
  intros H Hd Hm. pose proof (LoopOk_now _ _ _ _ _ H) as Hn.
  pose proof (CalculateDelayedRuntime_range now delay Hn Hd).
  pose proof (CalculateDelayedRuntime_bound now delay Hn Hd).
  assert (0 < max_delay) by done.
  unfold Post, AddToIncomingQueue, PostPendingTask.
  destruct (needs_high_res delay); simpl; rewrite (LoopOk_attached _ _ _ _ _ H); simpl;
    (case_match; intros [= <- <-]; eexists; do 4 (split; [reflexivity|]);
     (eapply QueuesOk_post; [exact H | done | done | simpl; lia | simpl; lia])).
Qed.

(** What a post leaves alone, and the wake-up it owes a sleeping pump. *)
Lemma Post_frame now l c delay nest l' p :
  Post l now c delay nest = (l', p) -> attached (incoming_task_queue l) = true ->
  work_queue l' = work_queue l /\ delayed_work_queue l' = delayed_work_queue l /\
  deferred_non_nestable_work_queue l' = deferred_non_nestable_work_queue l /\
  run_loops l' = run_loops l /\ nestable_tasks_allowed l' = nestable_tasks_allowed l /\
  delayed_work_time (pump l') = delayed_work_time (pump l) /\
  (event_ (pump l) = true \/
   (incoming_queue (incoming_task_queue l) = [] /\
    message_loop_scheduled (incoming_task_queue l) = false) -> event_ (pump l') = true).
Proof.
  unfold Post, AddToIncomingQueue, PostPendingTask. intros Hp Ha.
  destruct (needs_high_res delay); simpl in Hp; rewrite Ha in Hp; simpl in Hp;
    match type of Hp with context [always_schedule_work ?q || ?b] =>
      destruct (always_schedule_work q || b) eqn:Hw end;
    injection Hp as <- <-; split_and!; try done.
  all: intros [?|[Hi Hs]]; [done|]; rewrite Hs, Hi in Hw; by rewrite orb_true_r in Hw.
Qed.

Lemma ReloadWorkQueue_ok now posted ran l :
  LoopOk now posted ran [] l -> LoopOk now posted ran [] (ReloadWorkQueue l).
Proof.
  intros H. unfold ReloadWorkQueue, Incoming_ReloadWorkQueue.
  destruct (work_queue l) as [|? ?] eqn:Hw; [|done].
  destruct H; rewrite Hw in *. simpl in *.
  destruct (incoming_queue (incoming_task_queue l)) as [|t q] eqn:Hi; simpl in *.
  - constructor; simpl; rewrite ?Hw, ?Hi; try done; lia.
  - constructor; simpl; try done.
    + rewrite ok_high_pending0, ok_high_incoming0, !count_high_res_app. simpl. lia.
    + by rewrite ok_fifo0, (app_nil_r (filter immediate (t :: q))).
Qed.

(** What an empty reload tells: nothing is queued, and the next post will wake the
    pump. *)
Lemma ReloadWorkQueue_empty (l : Loop) :
  work_queue (ReloadWorkQueue l) = [] ->
  incoming_queue (incoming_task_queue (ReloadWorkQueue l)) = [] /\
  message_loop_scheduled (incoming_task_queue (ReloadWorkQueue l)) = false.
Proof.
  unfold ReloadWorkQueue, Incoming_ReloadWorkQueue.
  destruct (work_queue l) eqn:Hw; [|by rewrite Hw].
  by destruct (incoming_queue (incoming_task_queue l)).
Qed.

Lemma QueuesOk_delay now posted ran pending recent work delayed deferred inc t :
  QueuesOk now posted ran [] pending recent (t :: work) delayed deferred inc ->
  delayed_run_time t <> 0 ->
  QueuesOk now posted ran [] pending recent work (DelayedTaskQueue_push delayed t) deferred inc.
Proof.
  intros [] Ht. constructor; try done; simpl in *.
  - rewrite ok_high_pending0, !count_high_res_app,
      (count_high_res_perm _ _ (DelayedTaskQueue_push_perm delayed t)). simpl. lia.
  - rewrite ok_perm0, DelayedTaskQueue_push_perm. solve_Permutation.
  - rewrite ok_fifo0, filter_immediate_skip; [done|]. by intros [? ?].
  - rewrite DelayedTaskQueue_push_perm. by constructor.
  - by apply DelayedTaskQueue_push_sorted.
Qed.

Lemma QueuesOk_defer now posted ran pending recent work delayed deferred inc t :
  QueuesOk now posted ran [] pending recent (t :: work) delayed deferred inc ->
  ready now t ->
  QueuesOk now posted ran [] pending recent work delayed (deferred ++ [t]) inc.
Proof.
  intros [] [Hn Ht]. constructor; try done; simpl in *.
  - rewrite ok_high_pending0. count_solve.
  - rewrite ok_perm0. solve_Permutation.
  - rewrite ok_fifo0, filter_immediate_skip; [done|]. intros [_ ?]. congruence.
  - apply Forall_app; split; [done|]. by apply Forall_singleton.
Qed.

Lemma QueuesOk_run_work now posted ran pending recent work delayed deferred inc t :
  QueuesOk now posted ran [] pending recent (t :: work) delayed deferred inc ->
  QueuesOk now posted ran [t] pending recent work delayed deferred inc.
Proof.
  intros []. constructor; try done; simpl in *.
  - rewrite ok_perm0. solve_Permutation.
  - rewrite ok_fifo0, app_nil_r, (filter_app _ ran [t]), <- app_assoc. f_equal.
    by rewrite app_assoc, <- filter_app.
Qed.

(** [t] may be started: not before its time, and outside nested runs unless it is
    nestable. *)
Definition startable (now : Z) (l : Loop) (t : PendingTask) : Prop :=
  delayed_run_time t <= now /\ (nestable t = true \/ current_depth l = 1).

Lemma DoWork_inner_ok now posted ran l w :
  LoopOk now posted ran [] (set_work l w) ->
  match DoWork_inner l w with
  | (l', None) => LoopOk now posted ran [] l' /\ work_queue l' = []
  | (l', Some t) => LoopOk now posted ran [t] l' /\ startable now l' t
  end.
Proof.
  revert l. induction w as [|t w IH]; intros l H; simpl; [done|].
  unfold TimeTicks.is_null. destruct (Z.eqb_spec (delayed_run_time t) 0) as [Ht | Ht]; simpl.
  - unfold DeferOrRunPendingTask.
    destruct (nestable t || (current_depth l =? 1)) eqn:Hd; simpl.
    + split; [by eapply QueuesOk_run_work|]. split; [apply LoopOk_now in H; lia|].
      apply orb_true_iff in Hd as [? | ?%Z.eqb_eq]; auto.
    + apply IH. eapply QueuesOk_defer; [exact H|]. apply orb_false_iff in Hd as [? _].
      split; [done | apply LoopOk_now in H; lia].
  - match goal with |- context [if ?b then _ else _] => destruct b end;
      apply IH; by eapply QueuesOk_delay.
Qed.

Lemma DoWork_pass_ok now posted ran l :
  LoopOk now posted ran [] l ->
  match DoWork_pass l with
  | (l', WorkAgain) => LoopOk now posted ran [] l'
  | (l', WorkNothing) => LoopOk now posted ran [] l'
  | (l', WorkRun t) => LoopOk now posted ran [t] l' /\ startable now l' t
  end.
Proof.
  intros H. unfold DoWork_pass. apply ReloadWorkQueue_ok in H.
  destruct (work_queue (ReloadWorkQueue l)) as [|t w] eqn:Hw; [done|].
  pose proof (DoWork_inner_ok now posted ran (ReloadWorkQueue l) (t :: w)) as Hi.
  unfold LoopOk in H. rewrite Hw in H. specialize (Hi H).
  destruct (DoWork_inner _ _) as [l' [t'|]]; [done | by destruct Hi].
Qed.

Lemma QueuesOk_recent now posted ran x pending recent recent' work delayed deferred inc :
  QueuesOk now posted ran x pending recent work delayed deferred inc -> recent' <= now ->
  QueuesOk now posted ran x pending recent' work delayed deferred inc.
Proof. intros [] ?. by constructor. Qed.

Lemma QueuesOk_pop_delayed now posted ran pending recent work delayed deferred inc t :
  QueuesOk now posted ran [] pending recent work (t :: delayed) deferred inc ->
  QueuesOk now posted ran [t] pending recent work delayed deferred inc.
Proof.
  intros []. constructor; try done; simpl in *.
  - rewrite ok_high_pending0. count_solve.
  - rewrite ok_perm0. solve_Permutation.
  - rewrite ok_fifo0, app_nil_r, filter_app, filter_immediate_skip; [by rewrite app_nil_r|].
    inversion ok_delayed0; subst. by intros [? ?].
  - by inversion ok_delayed0.
  - by inversion ok_sorted0.
Qed.

Lemma QueuesOk_defer_run now posted ran pending recent work delayed deferred inc t :
  QueuesOk now posted ran [t] pending recent work delayed deferred inc -> ready now t ->
  QueuesOk now posted ran [] pending recent work delayed (deferred ++ [t]) inc.
Proof.
  intros [] [Hn Ht]. constructor; try done; simpl in *.
  - rewrite ok_high_pending0. count_solve.
  - rewrite ok_perm0. solve_Permutation.
  - rewrite ok_fifo0, filter_app, filter_immediate_skip, !app_nil_r; [done|].
    intros [_ ?]. congruence.
  - apply Forall_app; split; [done|]. by apply Forall_singleton.
Qed.

Lemma QueuesOk_pop_deferred now posted ran pending recent work delayed deferred inc t :
  QueuesOk now posted ran [] pending recent work delayed (t :: deferred) inc ->
  QueuesOk now posted ran [t] pending recent work delayed deferred inc /\ ready now t.
Proof.
  intros []. inversion ok_deferred0 as [|? ? [Hn Ht] Hf]; subst. split; [|done].
  constructor; try done; simpl in *.
  - count_solve.
  - rewrite ok_perm0. solve_Permutation.
  - rewrite ok_fifo0, app_nil_r, filter_app, filter_immediate_skip; [by rewrite app_nil_r|].
    intros [_ ?]. congruence.
Qed.

Lemma DoDelayedWork_ok now posted ran l next l' next' run :
  LoopOk now posted ran [] l -> DoDelayedWork l now next = (l', next', run) ->
  match run with
  | Some t => LoopOk now posted ran [t] l' /\ startable now l' t
  | None => LoopOk now posted ran [] l'
  end.
Proof.
  intros H. pose proof (LoopOk_now _ _ _ _ _ H) as Hnow. unfold DoDelayedWork.
  destruct (delayed_work_queue l) as [|top rest] eqn:Hd.
  { intros [= <- <- <-]. eapply QueuesOk_recent; [exact H | simpl; lia]. }
  destruct (nestable_tasks_allowed l); simpl; cycle 1.
  { intros [= <- <- <-]. eapply QueuesOk_recent; [exact H | simpl; lia]. }
  set (l1 := if recent_time l <? delayed_run_time top then set_recent l now else l).
  assert (H1 : LoopOk now posted ran [] l1).
  { subst l1. destruct (_ <? _); [|done]. eapply QueuesOk_recent; [exact H | simpl; lia]. }
  destruct (Z.ltb_spec (recent_time l1) (delayed_run_time top)); [by intros [= <- <- <-]|].
  assert (delayed_work_queue l1 = top :: rest) as Hd1 by (subst l1; by destruct (_ <? _)).
  assert (delayed_run_time top <= now) as Htop.
  { unfold LoopOk in H1. destruct H1; lia. }
  assert (H2 : LoopOk now posted ran [top] (set_delayed l1 rest)).
  { unfold LoopOk in H1. rewrite Hd1 in H1. by apply QueuesOk_pop_delayed. }
  unfold DeferOrRunPendingTask.
  destruct (nestable top || (current_depth (set_delayed l1 rest) =? 1)) eqn:Hr;
    intros [= <- <- <-].
  - split; [done|]. split; [done|]. apply orb_true_iff in Hr as [? | ?%Z.eqb_eq]; auto.
  - apply orb_false_iff in Hr as [? _]. by eapply QueuesOk_defer_run.
Qed.

Lemma DoIdleWork_ok now posted ran l l' run :
  LoopOk now posted ran [] l -> DoIdleWork l = (l', run) ->
  match run with
  | Some t => LoopOk now posted ran [t] l' /\ startable now l' t
  | None => LoopOk now posted ran [] l'
  end.
Proof.
  intros H. unfold DoIdleWork, ProcessNextDelayedNonNestableTask.
  destruct (Z.eqb_spec (current_depth l) 1) as [Hdep|]; simpl.
  - destruct (deferred_non_nestable_work_queue l) as [|t rest] eqn:Hd.
    + intros [= <- <-]. repeat case_match; exact H.
    + intros [= <- <-]. unfold LoopOk in H. rewrite Hd in H.
      apply QueuesOk_pop_deferred in H as [H [? ?]]. split; [exact H|]. by split; [|right].
  - intros [= <- <-]. repeat case_match; exact H.
Qed.

(** Entering a task that is startable cannot fail the checks, if tasks are allowed. *)
Lemma RunTask_enter_ok now posted ran l t :
  LoopOk now posted ran [t] l -> nestable_tasks_allowed l = true ->
  exists l', RunTask_enter l t = Some l' /\ LoopOk now posted (ran ++ [t]) [] l' /\
    run_loops l' = run_loops l.
Proof.
  intros H Hn. unfold LoopOk in H. unfold RunTask_enter. rewrite Hn. simpl.
  assert (pending_high_res_tasks l = Z.b2z (is_high_res t) + count_high_res
    (work_queue l ++ delayed_work_queue l ++ deferred_non_nestable_work_queue l)) as Hp
    by (by destruct H).
  pose proof (count_high_res_nonneg
    (work_queue l ++ delayed_work_queue l ++ deferred_non_nestable_work_queue l)).
  destruct (is_high_res t) eqn:Hh; simpl in Hp.
  - destruct (Z.leb_spec 0 (pending_high_res_tasks l - 1)); [|lia].
    eexists; split; [reflexivity|]. split; [|done].
    destruct H. constructor; try done; simpl in *; rewrite ?app_nil_r; try done; try lia.
    by rewrite <- app_assoc.
  - eexists; split; [reflexivity|]. split; [|done].
    destruct H. constructor; try done; simpl in *; rewrite ?app_nil_r; try done; try lia.
    by rewrite <- app_assoc.
Qed.

(** ** What the handlers leave alone *)

(** The part of the loop's state that only client calls and the pump change. *)
Definition same_control (l l' : Loop) : Prop :=
  run_loops l' = run_loops l /\ nestable_tasks_allowed l' = nestable_tasks_allowed l /\
  event_ (pump l') = event_ (pump l).

Lemma DoWork_inner_control l w : same_control l (fst (DoWork_inner l w)).
Proof.
  revert l. induction w as [|t w IH]; intros l; simpl; [done|].
  destruct (TimeTicks.is_null (delayed_run_time t)); simpl.
  - unfold DeferOrRunPendingTask.
    destruct (nestable t || (current_depth l =? 1)); simpl; [done|].
    match goal with |- context [DoWork_inner ?l' w] => specialize (IH l') end.
    unfold same_control. by destruct IH as (-> & -> & ->).
  - match goal with |- context [DoWork_inner ?l' w] => specialize (IH l') end.
    unfold same_control. destruct IH as (-> & -> & ->). by case_match.
Qed.

Lemma ReloadWorkQueue_control (l : Loop) : same_control l (ReloadWorkQueue l).
Proof.
  unfold ReloadWorkQueue. destruct (work_queue l); [|done].
  by destruct (Incoming_ReloadWorkQueue _ _) as [[]].
Qed.

Lemma DoWork_pass_control (l : Loop) : same_control l (fst (DoWork_pass l)).
Proof.
  unfold DoWork_pass. pose proof (ReloadWorkQueue_control l) as (H1 & H2 & H3).
  destruct (work_queue (ReloadWorkQueue l)) as [|t w] eqn:E; [done|].
  pose proof (DoWork_inner_control (ReloadWorkQueue l) (t :: w)) as (H4 & H5 & H6).
  unfold same_control. rewrite <- H1, <- H2, <- H3, <- H4, <- H5, <- H6.
  by destruct (DoWork_inner _ _) as [? []].
Qed.

Lemma DoDelayedWork_control (l : Loop) now next :
  let l' := fst (fst (DoDelayedWork l now next)) in
  same_control l l' /\ work_queue l' = work_queue l /\
  incoming_task_queue l' = incoming_task_queue l /\ keep_running (pump l') = keep_running (pump l).
Proof.
  unfold DoDelayedWork, DeferOrRunPendingTask. destruct (delayed_work_queue l); [done|].
  destruct (nestable_tasks_allowed l) eqn:E; simpl; [|done]. by repeat case_match; simplify_eq/=.
Qed.

Lemma DoIdleWork_control (l : Loop) :
  let l' := fst (DoIdleWork l) in
  same_control l l' /\ work_queue l' = work_queue l /\
  incoming_task_queue l' = incoming_task_queue l /\
  delayed_work_queue l' = delayed_work_queue l /\
  delayed_work_time (pump l') = delayed_work_time (pump l).
Proof.
  unfold DoIdleWork, ProcessNextDelayedNonNestableTask.
  destruct (current_depth l =? 1); simpl; [destruct (deferred_non_nestable_work_queue l)|];
    repeat case_match; done.
Qed.

(** An idle pass that runs nothing in the outermost run leaves nothing deferred. *)
Lemma DoIdleWork_none (l l' : Loop) :
  DoIdleWork l = (l', None) -> current_depth l = 1 -> deferred_non_nestable_work_queue l' = [].
Proof.
  unfold DoIdleWork, ProcessNextDelayedNonNestableTask. intros H Hd. rewrite Hd in H. simpl in H.
  destruct (deferred_non_nestable_work_queue l) eqn:E; [|done]. simplify_eq. by repeat case_match.
Qed.

(** When [DoDelayedWork] runs nothing although tasks are allowed, the pump's wake-up
    time is that of the earliest delayed task left. *)
Definition timer_set (l : Loop) (time : Z) : Prop :=
  match delayed_work_queue l with [] => True | top :: _ => time = delayed_run_time top end.

Lemma DoDelayedWork_timer (l l' : Loop) now next next' :
  nestable_tasks_allowed l = true -> DoDelayedWork l now next = (l', next', None) ->
  timer_set l' next'.
Proof.
  unfold DoDelayedWork, DeferOrRunPendingTask, timer_set. intros ->.
  destruct (delayed_work_queue l) as [|top rest] eqn:Hd; simpl.
  { intros [= <- <-]. simpl. by rewrite Hd. }
  assert (forall l1 : Loop, delayed_work_queue l1 = top :: rest ->
    (if recent_time l1 <? delayed_run_time top then (l1, delayed_run_time top, None)
     else let '(l, run) :=
            if nestable top || (current_depth (set_delayed l1 rest) =? 1)
            then (set_delayed l1 rest, true)
            else (set_deferred (set_delayed l1 rest)
              (deferred_non_nestable_work_queue (set_delayed l1 rest) ++ [top]), false) in
          (l, match rest with [] => next | top' :: _ => delayed_run_time top' end,
           if run then Some top else None)) = (l', next', None) ->
    match delayed_work_queue l' with [] => True | top :: _ => next' = delayed_run_time top end)
    as H.
  { intros l1 H1. destruct (_ <? _); [intros [= <- <-]; by rewrite H1|].
    destruct (nestable top || _); intros [= <- <-]; simpl; by destruct rest. }
  apply H. by destruct (recent_time l <? _).
Qed.

Lemma DoWork_pass_nothing (l l' : Loop) :
  DoWork_pass l = (l', WorkNothing) ->
  work_queue l' = [] /\ incoming_queue (incoming_task_queue l') = [] /\
  message_loop_scheduled (incoming_task_queue l') = false.
Proof.
  unfold DoWork_pass. destruct (work_queue (ReloadWorkQueue l)) eqn:E.
  - intros [= <-]. split; [done|]. by apply ReloadWorkQueue_empty.
  - by destruct (DoWork_inner _ _) as [? []].
Qed.

(** ** Invariant of the machine *)

(** The run loops' depths count them, from the outermost. *)
Fixpoint depths_ok (rs : list RunLoop) : Prop :=
  match rs with [] => True | r :: rs' => run_depth r = Z.of_nat (length rs) /\ depths_ok rs' end.

Definition timely (s : Start) : Prop :=
  delayed_run_time (started_task s) <= started_at s /\
  (nestable (started_task s) = true \/ started_depth s = 1%nat).

(** Nothing is queued without the pump being, or becoming, awake. *)
Definition quiet (l : Loop) : Prop :=
  work_queue l = [] /\
  (event_ (pump l) = true \/
   (incoming_queue (incoming_task_queue l) = [] /\
    message_loop_scheduled (incoming_task_queue l) = false)).

(** What is known at each point of the pump between [DoWork] and the wait. *)
Definition pump_ok (l : Loop) (fs : list Frame) : Prop :=
  nestable_tasks_allowed l = true ->
  match fs with
  | PumpFrame (PcDelayedWork false) :: _ => quiet l
  | PumpFrame PcIdleWork :: _ => quiet l /\ timer_set l (delayed_work_time (pump l))
  | PumpFrame PcWait :: _ =>
      quiet l /\ timer_set l (delayed_work_time (pump l)) /\
      (current_depth l = 1 -> deferred_non_nestable_work_queue l = [])
  | PumpFrame (PcBlocked d) :: _ =>
      quiet l /\ (d = None -> delayed_work_queue l = []) /\
      (forall e, d = Some e -> exists t, timer_set l t /\ e <= t) /\
      (current_depth l = 1 -> deferred_non_nestable_work_queue l = [])
  | _ => True
  end.

Record MachineOk (m : Machine) : Prop := {
  mo_loop : LoopOk (clock m) (posted m) (map started_task (started m)) [] (loop m);
  mo_started : Forall timely (started m);
  mo_depths : depths_ok (run_loops (loop m));
  mo_frames : active_runs (frames m) = length (run_loops (loop m));
  mo_pump : pump_ok (loop m) (frames m) }.

(** The invariant of everything but the pump's position. *)
Definition CoreOk (m : Machine) (l : Loop) (fs : list Frame) (x : list PendingTask) : Prop :=
  LoopOk (clock m) (posted m) (map started_task (started m)) x l /\
  Forall timely (started m) /\ depths_ok (run_loops l) /\ active_runs fs = length (run_loops l).

Lemma MachineOk_core m : MachineOk m -> CoreOk m (loop m) (frames m) [].
Proof. by intros []. Qed.

Lemma CoreOk_machine m l fs :
  CoreOk m l fs [] -> pump_ok l fs -> MachineOk (set_loop m l fs).
Proof. intros (? & ? & ? & ?) ?. by constructor. Qed.

Lemma current_depth_active (l : Loop) fs :
  depths_ok (run_loops l) -> active_runs fs = length (run_loops l) -> current_depth l = Z.of_nat (active_runs fs).
Proof. unfold current_depth. intros H ->. destruct (run_loops l); simpl in *; [done | by destruct H]. Qed.

Lemma start_task_ok m l pc fs t :
  CoreOk m l (PumpFrame pc :: fs) [t] -> startable (clock m) l t -> nestable_tasks_allowed l = true ->
  exists m', start_task m l (PumpFrame pc :: fs) t = Next m' /\ MachineOk m'.
Proof.
  intros (Hl & Hs & Hd & Hf) [Ht Hn] Hal. unfold start_task.
  destruct (RunTask_enter_ok _ _ _ _ _ Hl Hal) as (l' & -> & Hl' & Hr).
  eexists; split; [reflexivity|]. constructor; simpl; rewrite ?Hr; try done.
  - by rewrite map_app.
  - apply Forall_app; split; [done|]. apply Forall_singleton. split; [done|]. simpl.
    destruct Hn as [? | Hc]; [by left|]. right.
    rewrite (current_depth_active _ _ Hd Hf) in Hc. simpl in Hc. lia.
Qed.

Lemma AfterRun_core m (l : Loop) pc fs :
  CoreOk m l (PumpFrame pc :: fs) [] -> CoreOk m (AfterRun l) fs [].
Proof.
  intros (Hl & Hs & Hd & Hf). unfold AfterRun, QuitNow.
  destruct (run_loops l) as [|r rs] eqn:Hr; simpl in *; [done|].
  destruct Hd as [_ Hd]. injection Hf as Hf. destruct rs as [|r' rs]; simpl.
  - by split_and!.
  - destruct (quit_called r'); split_and!; try done; apply Hd.
Qed.

Lemma leave_run_ok m (l : Loop) pc fs :
  CoreOk m l (PumpFrame pc :: fs) [] -> client_runs (set_loop m l fs) = true ->
  exists m', leave_run m l fs = Next m' /\ MachineOk m'.
Proof.
  intros H Hc. eexists; split; [reflexivity|]. apply CoreOk_machine.
  - eapply (AfterRun_core m (set_pump l _) pc fs). exact H.
  - intros _. unfold client_runs in Hc; simpl in Hc. by destruct fs as [|[]].
Qed.

(** ** Every step preserves the invariant *)

(** An outcome that keeps the invariant, and is no crash under condition [P]. *)
Definition safe (P : Prop) (o : Outcome) : Prop :=
  match o with Stuck => True | Crash => ~ P | Next m => MachineOk m end.

Lemma safe_next P o : (exists m', o = Next m' /\ MachineOk m') -> safe P o.
Proof. by intros (m' & -> & ?). Qed.

(** What client code has to see to: the outermost run is not started while it does not
    allow tasks, and no run is started once the innermost one was told to quit. *)
Definition client_obeys (m : Machine) (e : Event) : Prop :=
  match e with
  | EvPump => nestable_tasks_allowed (loop m) = true \/ current_depth (loop m) <> 1
  | EvRun _ _ => keep_running (pump (loop m)) = true
  | _ => True
  end.

(** The condition of a step of the pump. *)
Abbreviation pump_obeys m := (nestable_tasks_allowed (loop m) = true \/ current_depth (loop m) <> 1).

(** The pump is inside a call of its delegate. *)
Definition in_delegate (pc : PumpPc) : Prop :=
  match pc with PcWait | PcBlocked _ => False | _ => True end.

(** Frames alternate: a pump is started by client code, a task by a pump's
    delegate call. *)
Fixpoint alternating (fs : list Frame) : Prop :=
  match fs with
  | [] => True
  | PumpFrame _ :: fs' => match fs' with PumpFrame _ :: _ => False | _ => alternating fs' end
  | TaskFrame _ :: fs' =>
      match fs' with PumpFrame pc :: _ => in_delegate pc /\ alternating fs' | _ => False end
  end.

Lemma CoreOk_change m (l l' : Loop) fs fs' x x' :
  CoreOk m l fs x -> run_loops l' = run_loops l -> active_runs fs' = active_runs fs ->
  LoopOk (clock m) (posted m) (map started_task (started m)) x' l' -> CoreOk m l' fs' x'.
Proof. intros (? & ? & ? & ?) Hr Hf ?. unfold CoreOk. rewrite Hr, Hf. by split_and!. Qed.

(** Changing the pump's state alone. *)
Lemma CoreOk_pump m (l : Loop) fs x p : CoreOk m l fs x -> CoreOk m (set_pump l p) fs x.
Proof. done. Qed.

Lemma continue_at_ok P m (l : Loop) pc fs pc' :
  CoreOk m l (PumpFrame pc :: fs) [] -> alternating (PumpFrame pc :: fs) ->
  pump_ok l (PumpFrame pc' :: fs) -> safe P (continue_at m l fs pc').
Proof.
  intros H Ha Hp. unfold continue_at. destruct (keep_running (pump l)).
  - simpl. by apply CoreOk_machine.
  - apply safe_next. eapply leave_run_ok; [exact H|].
    unfold client_runs. simpl in *. by destruct fs as [|[]].
Qed.

Lemma quiet_control (l l' : Loop) :
  quiet l -> same_control l l' -> work_queue l' = work_queue l ->
  incoming_task_queue l' = incoming_task_queue l -> quiet l'.
Proof. unfold quiet. by intros H (_ & _ & ->) -> ->. Qed.

Lemma DoDelayedWork_allowed (l l' : Loop) now next next' t :
  DoDelayedWork l now next = (l', next', Some t) -> nestable_tasks_allowed l = true.
Proof.
  unfold DoDelayedWork. destruct (delayed_work_queue l); [done|]. by destruct (nestable_tasks_allowed l).
Qed.

(** A deferred task is run in the outermost run only. *)
Lemma DoIdleWork_depth (l l' : Loop) t : DoIdleWork l = (l', Some t) -> current_depth l = 1.
Proof.
  unfold DoIdleWork, ProcessNextDelayedNonNestableTask.
  destruct (Z.eqb_spec (current_depth l) 1); [done|]. simpl. done.
Qed.

Lemma pump_DoWork_ok m fs :
  MachineOk m -> frames m = PumpFrame PcDoWork :: fs -> alternating (frames m) ->
  safe (pump_obeys m) (pump_step m PcDoWork fs).
Proof.
  intros H%MachineOk_core Hf Ha. rewrite Hf in *. unfold pump_step.
  destruct (nestable_tasks_allowed (loop m)) eqn:Hn; simpl.
  2: { eapply continue_at_ok; [exact H | done |]. intros ?. congruence. }
  pose proof (DoWork_pass_ok _ _ _ _ (proj1 H)) as Hw.
  pose proof (DoWork_pass_control (loop m)) as (Hr & _ & _).
  destruct (DoWork_pass (loop m)) as [l' [| |t]] eqn:E; simpl in *.
  - apply CoreOk_machine; [|done]. by eapply CoreOk_change.
  - eapply continue_at_ok with PcDoWork; [by eapply CoreOk_change | done|].
    intros _. apply DoWork_pass_nothing in E as (? & ? & ?). split; auto.
  - destruct Hw as [Hw ?]. apply safe_next. eapply start_task_ok; [|done|].
    + by eapply CoreOk_change.
    + destruct (DoWork_pass_control (loop m)) as (_ & Hn' & _). rewrite E in Hn'. simpl in Hn'. congruence.
Qed.

Lemma pump_DelayedWork_ok m did_work fs :
  MachineOk m -> frames m = PumpFrame (PcDelayedWork did_work) :: fs ->
  alternating (frames m) -> safe (pump_obeys m) (pump_step m (PcDelayedWork did_work) fs).
Proof.
  intros H Hf Ha. pose proof (mo_pump m H) as Hp. apply MachineOk_core in H.
  rewrite Hf in *. unfold pump_step.
  destruct (DoDelayedWork _ _ _) as [[l' next] run] eqn:E.
  pose proof (DoDelayedWork_ok _ _ _ _ _ _ _ _ (proj1 H) E) as Hw.
  pose proof (DoDelayedWork_control (loop m) (clock m) (delayed_work_time (pump (loop m))))
    as (Hc & Hwq & Hi & _). rewrite E in *; simpl in *. pose proof Hc as (Hr & Hn & _).
  destruct run as [t|].
  - destruct Hw as [Hw ?]. apply safe_next. eapply start_task_ok; [|done|].
    + by eapply CoreOk_change.
    + simpl. rewrite Hn. by eapply DoDelayedWork_allowed.
  - eapply continue_at_ok with (PcDelayedWork did_work); [by eapply CoreOk_change | done|].
    destruct did_work; simpl; [done|]. intros Hn'. simpl in Hn'. rewrite Hn in Hn'. split.
    + exact (quiet_control _ _ (Hp Hn') Hc Hwq Hi).
    + exact (DoDelayedWork_timer _ _ _ _ _ Hn' E).
Qed.

Lemma pump_IdleWork_ok m fs :
  MachineOk m -> frames m = PumpFrame PcIdleWork :: fs -> alternating (frames m) ->
  safe (pump_obeys m) (pump_step m PcIdleWork fs).
Proof.
  intros H Hf Ha. pose proof (mo_pump m H) as Hp. apply MachineOk_core in H.
  rewrite Hf in *. unfold pump_step.
  pose proof (DoIdleWork_control (loop m)) as (Hc & Hwq & Hi & Hd & Ht).
  destruct (DoIdleWork (loop m)) as [l' run] eqn:E; simpl in *. pose proof Hc as (Hr & Hn & _).
  pose proof (DoIdleWork_ok _ _ _ _ _ _ (proj1 H) E) as Hw. destruct run as [t|].
  - destruct Hw as [Hw ?]. destruct (nestable_tasks_allowed (loop m)) eqn:Hal.
    + apply safe_next. eapply start_task_ok; [by eapply CoreOk_change | done | congruence].
    + unfold start_task, RunTask_enter. rewrite Hn. simpl. intros [?|Hne]; [done|]. apply Hne.
      by eapply DoIdleWork_depth.
  - eapply continue_at_ok with PcIdleWork; [by eapply CoreOk_change | done|].
    intros Hn'. rewrite Hn in Hn'. destruct (Hp Hn') as [Hq Hs]. split_and!.
    + exact (quiet_control _ _ Hq Hc Hwq Hi).
    + unfold timer_set in *. by rewrite Hd, Ht.
    + unfold current_depth. rewrite Hr. by apply (DoIdleWork_none (loop m)).
Qed.

Lemma diff_exact a b :
  0 <= a <= int64_max -> 0 <= b <= int64_max -> TimeTicks.diff a b = a - b.
Proof.
  intros. unfold TimeTicks.diff.
  apply i64_id. int64_bounds. lia.
Qed.

(** Queued delayed tasks have run times on the clock's range. *)
Lemma delayed_top_range now posted ran x l top rest :
  LoopOk now posted ran x l -> delayed_work_queue l = top :: rest ->
  delayed_run_time top <> 0 /\ 0 <= delayed_run_time top <= int64_max /\ delayed_run_time top < now + max_delay.
Proof.
  intros H E. unfold LoopOk in H. rewrite E in H. destruct H. split.
  - by inversion ok_delayed0.
  - eapply Forall_forall in ok_range0; [exact ok_range0|]. rewrite ok_perm0, !elem_of_app, elem_of_cons. tauto.
Qed.

(** A wait that is not too long times out, less than a millisecond early. *)
Lemma timed_wait_end_early now delay : 0 < delay < max_delay ->
  exists e, timed_wait_end now delay = Some e /\ now <= e <= now + delay /\
    now + delay < e + Time.kMicrosecondsPerMillisecond.
Proof.
  intros Hd. unfold timed_wait_end, TimeDelta.InMilliseconds, TimeDelta.is_max.
  change TimeDelta.Max with int64_max. change Time.kMicrosecondsPerMillisecond with 1000.
  change max_delay with (4294967295 * 1000) in Hd.
  rewrite (proj2 (Z.eqb_neq delay int64_max)) by (int64_bounds; lia).
  rewrite Z.quot_div_nonneg by lia. pose proof (Z.div_mod delay 1000 ltac:(lia)).
  pose proof (Z.mod_pos_bound delay 1000 ltac:(lia)). set (q := delay / 1000) in *.
  rewrite saturated_cast_clamps; [|reflexivity|reflexivity|change (- 2 ^ 63 <= q <= 2 ^ 63 - 1); lia].
  cbn [default from_option id]. change (Int.max Int.uint32) with 4294967295. change (Int.min Int.uint32) with 0. unfold INFINITE.
  rewrite Z.max_r, Z.min_r by lia. destruct (Z.eqb_spec q 4294967295) as [Eq|]; [exfalso; lia|].
  eexists. split; [reflexivity|]. lia.
Qed.

Lemma pump_Wait_ok m fs :
  MachineOk m -> frames m = PumpFrame PcWait :: fs -> safe (pump_obeys m) (pump_step m PcWait fs).
Proof.
  intros H Hf. pose proof (mo_pump m H) as Hp. pose proof (mo_loop m H) as Hl.
  apply MachineOk_core in H. rewrite Hf in *. unfold pump_step, TimeTicks.is_null.
  set (t := delayed_work_time (pump (loop m))) in *.
  assert (Hd : nestable_tasks_allowed (loop m) = true -> delayed_work_queue (loop m) <> [] ->
    t <> 0 /\ 0 <= t <= int64_max /\ t < clock m + max_delay).
  { intros Hn Hne. destruct (Hp Hn) as (_ & Ht & _). unfold timer_set in Ht.
    destruct (delayed_work_queue (loop m)) eqn:E; [done|]. fold t in Ht. rewrite Ht.
    eapply delayed_top_range; [exact Hl | exact E]. }
  destruct (Z.eqb_spec t 0) as [Ht|Ht].
  - simpl. apply CoreOk_machine; [done|]. intros Hn. destruct (Hp Hn) as (Hq & _ & Hi).
    split_and!; try done. intros _.
    destruct (delayed_work_queue (loop m)) eqn:E; [done|]. by destruct Hd.
  - destruct (Z.ltb_spec 0 (TimeTicks.diff t (clock m))) as [Hpos|]; simpl; apply CoreOk_machine; try done.
    intros Hn. destruct (Hp Hn) as (Hq & Hs & Hi). fold t in Hs.
    destruct (delayed_work_queue (loop m)) as [|top rest] eqn:E.
    { split_and!; try done. intros e _. exists (Z.max t e). unfold timer_set. rewrite E. split; [done | lia]. }
    destruct Hd as (_ & Hr & Hm); [done | done |]. apply LoopOk_now in Hl.
    rewrite diff_exact in * by done.
    destruct (timed_wait_end_early (clock m) (t - clock m)) as (e & -> & He); [lia|].
    split_and!; try done. intros e' [= <-]. exists t. split; [done | lia].
Qed.

Lemma pump_Blocked_ok m d fs :
  MachineOk m -> frames m = PumpFrame (PcBlocked d) :: fs -> safe (pump_obeys m) (pump_step m (PcBlocked d) fs).
Proof.
  intros H%MachineOk_core Hf. rewrite Hf in *. unfold pump_step.
  destruct (event_ (pump (loop m))); [by apply CoreOk_machine|].
  destruct d as [d|]; [|done]. destruct (d <=? clock m); [by apply CoreOk_machine | done].
Qed.

Lemma pump_step_ok m pc fs :
  MachineOk m -> frames m = PumpFrame pc :: fs -> alternating (frames m) ->
  safe (pump_obeys m) (pump_step m pc fs).
Proof.
  destruct pc; intros.
  - by apply pump_DoWork_ok.
  - by apply pump_DelayedWork_ok.
  - by apply pump_IdleWork_ok.
  - by apply pump_Wait_ok.
  - by apply pump_Blocked_ok.
Qed.

Lemma task_done_ok m t fs :
  MachineOk m -> frames m = TaskFrame t :: fs -> alternating (frames m) -> safe True (task_done m fs).
Proof.
  intros H%MachineOk_core Hf Ha. rewrite Hf in *. unfold task_done.
  destruct fs as [|[pc|] fs]; [done | | done]. apply proj2 in Ha.
  assert (CoreOk m (RunTask_exit (loop m)) (PumpFrame pc :: fs) []) by done.
  destruct pc as [|d| | |]; simpl; try done; by eapply continue_at_ok.
Qed.

Lemma QueuesOk_tick now d posted ran x pending recent work delayed deferred inc :
  QueuesOk now posted ran x pending recent work delayed deferred inc ->
  0 <= d -> now + d <= int64_max ->
  QueuesOk (now + d) posted ran x pending recent work delayed deferred inc.
Proof.
  intros [] ? ?. constructor; try done; try lia.
  - eapply Forall_impl; [exact ok_deferred0|]. intros t [? ?]. split; [done | lia].
  - eapply Forall_impl; [exact ok_range0|]. intros t [? ?]. split; [done | lia].
Qed.

Lemma depths_ok_insert rs i r b q :
  depths_ok rs -> rs !! i = Some r -> depths_ok (<[i := RunLoop_ (run_depth r) b q]> rs).
Proof.
  revert i. induction rs as [|r' rs IH]; intros i; simpl; [done|].
  destruct i as [|i]; simpl; [by intros [? ?] [= ->]|].
  intros [? ?] ?. rewrite length_insert. split; [done | by apply IH].
Qed.

(** Client calls that only change the runs and the pump. *)
Lemma MachineOk_client m (l : Loop) :
  MachineOk m -> client_runs m = true ->
  LoopOk (clock m) (posted m) (map started_task (started m)) [] l ->
  depths_ok (run_loops l) -> length (run_loops l) = length (run_loops (loop m)) ->
  MachineOk (set_loop m l (frames m)).
Proof.
  intros [] Hc ? ? Hl. constructor; simpl; try done; [congruence|].
  unfold pump_ok, client_runs in *. destruct (frames m) as [|[]]; done.
Qed.

Lemma step_post_ok m c delay nest :
  MachineOk m -> safe True (step m (EvPost c delay nest)).
Proof.
  intros H. simpl. destruct (decide _) as [[Hd Hlong]|]; [|done].
  destruct (Post _ _ _ _ _) as [l' p] eqn:E. pose proof H as [Hl Hs Hds Hf Hp].
  destruct (Post_ok _ _ _ _ _ _ _ _ _ Hl Hd Hlong E) as (t & -> & _ & _ & _ & Hl').
  apply LoopOk_attached in Hl.
  destruct (Post_frame _ _ _ _ _ _ _ E Hl) as (Hw & Hdl & Hdf & Hr & Hn & Ht & Hev).
  constructor; simpl; try done; try congruence.
  unfold pump_ok, quiet, timer_set, current_depth in *. rewrite Hw, Hdl, Hdf, Hr, Hn, Ht.
  intros Hn'. specialize (Hp Hn').
  destruct (frames m) as [|[[| []| | |]|]]; naive_solver.
Qed.

Lemma step_run_ok m q i : MachineOk m -> safe (keep_running (pump (loop m)) = true) (step m (EvRun q i)).
Proof.
  intros H. simpl. destruct (client_runs m); [|done]. unfold BeforeRun.
  destruct q; simpl; [done|]. destruct (keep_running _); [|done]. destruct H. constructor; simpl; try done; [|congruence].
  split; [|done]. destruct (run_loops (loop m)); [done|]. destruct mo_depths0 as [-> _].
  simpl. lia.
Qed.

Lemma QuitNow_runs (l : Loop) :
  run_loops (QuitNow l) = run_loops l /\
  forall now po ra x, LoopOk now po ra x l -> LoopOk now po ra x (QuitNow l).
Proof. unfold QuitNow. destruct (run_loops l) eqn:E; simpl; by rewrite ?E. Qed.

Lemma RunLoop_Quit_runs (l : Loop) i :
  depths_ok (run_loops l) ->
  depths_ok (run_loops (RunLoop_Quit l i)) /\
  length (run_loops (RunLoop_Quit l i)) = length (run_loops l) /\
  forall now po ra x, LoopOk now po ra x l -> LoopOk now po ra x (RunLoop_Quit l i).
Proof.
  intros Hd. unfold RunLoop_Quit. destruct (run_loops l !! i) as [r|] eqn:Hi; [|done].
  pose proof (depths_ok_insert _ _ _ true (quit_when_idle_received r) Hd Hi).
  destruct (Nat.eqb i 0); simpl.
  - destruct (QuitNow_runs (set_run_loops l
      (<[i := RunLoop_ (run_depth r) true (quit_when_idle_received r)]> (run_loops l)))) as [-> Hq].
    simpl. rewrite length_insert. split_and!; [done | done |]. intros. by apply Hq.
  - by rewrite length_insert.
Qed.

Lemma step_ok m e : MachineOk m -> alternating (frames m) -> safe (client_obeys m e) (step m e).
Proof.
  intros H Ha. pose proof (mo_loop m H) as Hl. pose proof (mo_depths m H) as Hd.
  destruct e as [c d n|d| | |q i|i| | |b|].
  - by apply step_post_ok.
  - simpl. destruct (Z.leb_spec 0 d), (Z.leb_spec (clock m + d) int64_max); simpl; try done.
    destruct H. constructor; try done. by apply QueuesOk_tick.
  - simpl. destruct (frames m) as [|[pc|] fs] eqn:E; try done. rewrite <- E in Ha.
    by apply pump_step_ok.
  - simpl. destruct (frames m) as [|[|t] fs] eqn:E; try done. rewrite <- E in Ha.
    by eapply task_done_ok.
  - by apply step_run_ok.
  - simpl. destruct (client_runs m) eqn:Hc; [|done].
    destruct (RunLoop_Quit_runs (loop m) i Hd) as (? & ? & Hq).
    apply MachineOk_client; try done. by apply Hq.
  - simpl. destruct (client_runs m) eqn:Hc; [|done]. apply MachineOk_client; try done;
      unfold QuitWhenIdle; destruct (run_loops (loop m)) eqn:E; simpl; by rewrite ?E.
  - simpl. destruct (client_runs m) eqn:Hc; [|done]. apply MachineOk_client; try done;
      destruct (QuitNow_runs (loop m)) as [Hr Hq]; rewrite ?Hr; auto.
  - simpl. destruct (client_runs m) eqn:Hc; [|done]. apply MachineOk_client; by destruct b.
  - simpl. destruct (frames m) as [|[[| | | |[d|]]|] fs] eqn:E; try done.
    apply MachineOk_core in H. rewrite E in H. by apply CoreOk_machine.
Qed.

(** *** Frames alternate *)

Lemma continue_at_frames m (l : Loop) fs pc m' :
  continue_at m l fs pc = Next m' -> frames m' = PumpFrame pc :: fs \/ frames m' = fs.
Proof. unfold continue_at, leave_run. case_match; intros [= <-]; auto. Qed.

Lemma start_task_frames m (l : Loop) fs t m' :
  start_task m l fs t = Next m' -> frames m' = TaskFrame t :: fs.
Proof. unfold start_task. case_match; [|done]. by intros [= <-]. Qed.

Lemma alternating_pump pc pc' fs :
  alternating (PumpFrame pc :: fs) ->
  alternating (PumpFrame pc' :: fs) /\ alternating fs /\
  forall t, in_delegate pc' -> alternating (TaskFrame t :: PumpFrame pc' :: fs).
Proof. simpl. by destruct fs as [|[]]. Qed.

(** The frames a pump's step can leave. *)
Lemma pump_step_frames m pc fs m' :
  pump_step m pc fs = Next m' ->
  frames m' = fs \/ (exists pc', frames m' = PumpFrame pc' :: fs) \/
  exists pc' t, in_delegate pc' /\ frames m' = TaskFrame t :: PumpFrame pc' :: fs.
Proof.
  unfold pump_step. intros Hs.
  repeat (case_match; simplify_eq/=);
    first [ apply continue_at_frames in Hs as [-> | ->]; solve [eauto]
          | apply start_task_frames in Hs as ->; right; right; eexists _, _; (split; [|reflexivity]; done)
          | right; left; by eexists ].
Qed.

Lemma step_alternating m e m' :
  alternating (frames m) -> step m e = Next m' -> alternating (frames m').
Proof.
  intros Ha H.
  assert (client_runs m = true -> forall pc, alternating (PumpFrame pc :: frames m)) as Hcl.
  { unfold client_runs. destruct (frames m) as [|[]]; done. }
  destruct e as [c d n|d| | |q i|i| | |b|]; cbn [step] in H.
  - destruct (decide _); [|done]. destruct (Post _ _ _ _ _). by injection H as <-.
  - destruct (_ && _); [|done]. by injection H as <-.
  - destruct (frames m) as [|[pc|] fs] eqn:E; try done.
    apply (alternating_pump pc pc) in Ha as Ha'. destruct Ha' as (_ & Hfs & _).
    apply pump_step_frames in H as [-> | [(pc' & ->) | (pc' & t & Hpc & ->)]]; [done | |];
      destruct (alternating_pump pc pc' fs Ha) as (? & _ & Ht); [done | by apply Ht].
  - destruct (frames m) as [|[|t] fs] eqn:E; try done. unfold task_done in H.
    destruct fs as [|[pc|] fs]; try done. apply proj2 in Ha.
    change (alternating (PumpFrame pc :: fs)) in Ha.
    assert (forall l pc', continue_at m l fs pc' = Next m' -> alternating (frames m')) as Hc.
    { intros l pc' Hc. destruct (alternating_pump pc pc' fs Ha) as (? & ? & _).
      by apply continue_at_frames in Hc as [-> | ->]. }
    destruct pc; try done; by apply Hc in H.
  - destruct (client_runs m); [|done].
    destruct (BeforeRun _ _ _); [destruct (keep_running _); [|done]|]; injection H as <-; [by apply Hcl | done].
  - destruct (client_runs m); [|done]. by injection H as <-.
  - destruct (client_runs m); [|done]. by injection H as <-.
  - destruct (client_runs m); [|done]. by injection H as <-.
  - destruct (client_runs m); [|done]. by injection H as <-.
  - destruct (frames m) as [|[[| | | |[d|]]|] fs]; try done. injection H as <-. by destruct fs as [|[]].
Qed.

Lemma Machine_new_ok type now : 0 <= now <= int64_max -> MachineOk (Machine_new type now).
Proof. intros. constructor; try done. constructor; try done; simpl; try lia; constructor. Qed.

Lemma reachable_ok type m : reachable type m -> MachineOk m /\ alternating (frames m).
Proof.
  induction 1 as [now Hn | m e m' _ [Hm Ha] Hs]; [split; [by apply Machine_new_ok | done]|].
  split; [|by eapply step_alternating]. pose proof (step_ok m e Hm Ha) as H. by rewrite Hs in H.
Qed.
