(* ===== verification/MessageLoopProps.v ===== *)
(** * What every run of a message loop satisfies

    Theorems over the states [MessageLoopRun.reachable]: nothing crashes, no task
    is lost, immediate tasks start in order, no task starts too early or too
    deep, a sleeping pump has nothing to do, a quit takes effect, and a run
    without new posts comes to rest. *)

From stdpp Require Import base numbers list sorting.
From Stdlib Require Import ZArith Lia.
From S2P Require Import Prelude Numerics TimeBase TaskQueues MessageLoop MessageLoopRun.

Local Open Scope Z_scope.

(** ** Quitting *)

(** A run on which [Quit] was called has told the pump to stop. *)
Definition quit_ok (l : Loop) : Prop :=
  match run_loops l with
  | r :: _ => quit_called r = true -> keep_running (pump l) = false
  | [] => True
  end.

(** Handlers never undo a quit. *)
Definition keeps_quit (l l' : Loop) : Prop :=
  run_loops l' = run_loops l /\
  (keep_running (pump l) = false -> keep_running (pump l') = false).

#[export] Instance keeps_quit_trans : Transitive keeps_quit.
Proof. intros l1 l2 l3 [H1 ?] [H2 ?]. split; [congruence | auto]. Qed.

Lemma keeps_quit_ok l l' : keeps_quit l l' -> quit_ok l -> quit_ok l'.
Proof. unfold quit_ok. intros [-> ?]. destruct (run_loops l); auto. Qed.

Lemma DoWork_inner_keeps l w : keeps_quit l (fst (DoWork_inner l w)).
Proof.
  revert l. induction w as [|t w IH]; intros l; simpl; [done|].
  destruct (TimeTicks.is_null (delayed_run_time t)); simpl.
  - unfold DeferOrRunPendingTask.
    destruct (nestable t || (current_depth l =? 1)); simpl; [done|].
    etrans; [|apply IH]. done.
  - etrans; [|apply IH]. by case_match.
Qed.

Lemma DoWork_pass_keeps (l : Loop) : keeps_quit l (fst (DoWork_pass l)).
Proof.
  assert (keeps_quit l (ReloadWorkQueue l)) as H.
  { unfold ReloadWorkQueue. destruct (work_queue l); [|done].
    by destruct (Incoming_ReloadWorkQueue _ _) as [[]]. }
  unfold DoWork_pass. destruct (work_queue (ReloadWorkQueue l)) as [|t w]; [done|].
  etrans; [exact H|]. pose proof (DoWork_inner_keeps (ReloadWorkQueue l) (t :: w)) as Hi.
  by destruct (DoWork_inner _ _) as [? []].
Qed.

Lemma DoIdleWork_keeps (l : Loop) : keeps_quit l (fst (DoIdleWork l)).
Proof.
  split; [apply DoIdleWork_control|]. unfold DoIdleWork, ProcessNextDelayedNonNestableTask.
  destruct (current_depth l =? 1); simpl; [destruct (deferred_non_nestable_work_queue l)|];
    repeat case_match; done.
Qed.

Lemma DoDelayedWork_keeps (l : Loop) now next :
  keeps_quit l (fst (fst (DoDelayedWork l now next))).
Proof.
  destruct (DoDelayedWork_control l now next) as ((? & _ & _) & _ & _ & Hk).
  split; [done | congruence].
Qed.

Lemma start_task_quit m (l : Loop) fs t m' :
  quit_ok l -> start_task m l fs t = Next m' -> quit_ok (loop m').
Proof.
  unfold start_task, RunTask_enter. intros H. destruct (nestable_tasks_allowed l); [simpl|done].
  destruct (is_high_res t); [destruct (_ <=? _); [|done]|]; by intros [= <-].
Qed.

Lemma leave_run_quit m (l : Loop) fs m' : leave_run m l fs = Next m' -> quit_ok (loop m').
Proof.
  intros [= <-]. unfold quit_ok, AfterRun, QuitNow. simpl.
  destruct (run_loops l) as [|r0 [|r rs]]; simpl; try done.
  by destruct (quit_called r) eqn:Hq; simpl; rewrite ?Hq.
Qed.

Lemma continue_at_quit m (l : Loop) fs pc m' :
  quit_ok l -> continue_at m l fs pc = Next m' -> quit_ok (loop m').
Proof.
  unfold continue_at. intros H. destruct (keep_running (pump l)).
  - by intros [= <-].
  - apply leave_run_quit.
Qed.

Lemma pump_step_quit m pc fs m' :
  quit_ok (loop m) -> pump_step m pc fs = Next m' -> quit_ok (loop m').
Proof.
  intros H. unfold pump_step. destruct pc as [|d| | |d].
  - destruct (nestable_tasks_allowed _); simpl; [|by apply continue_at_quit].
    pose proof (keeps_quit_ok _ _ (DoWork_pass_keeps (loop m)) H) as Hk.
    destruct (DoWork_pass (loop m)) as [l' [| |t]]; simpl in *.
    + by intros [= <-].
    + by apply continue_at_quit.
    + by apply start_task_quit.
  - pose proof (keeps_quit_ok _ _
      (DoDelayedWork_keeps (loop m) (clock m) (delayed_work_time (pump (loop m)))) H) as Hk.
    destruct (DoDelayedWork _ _ _) as [[l' next] [t|]]; simpl in *.
    + by apply start_task_quit.
    + by apply continue_at_quit.
  - pose proof (keeps_quit_ok _ _ (DoIdleWork_keeps (loop m)) H) as Hk.
    destruct (DoIdleWork (loop m)) as [l' [t|]]; simpl in *.
    + by apply start_task_quit.
    + by apply continue_at_quit.
  - repeat case_match; by intros [= <-].
  - repeat case_match; by intros [= <-].
Qed.

Lemma step_quit m e m' : quit_ok (loop m) -> step m e = Next m' -> quit_ok (loop m').
Proof.
  intros H. destruct e as [c d n|d| | |q i|i| | |b|]; cbn [step].
  - destruct (decide _); [|done]. destruct (Post _ _ _ _ _) as [l' p] eqn:E. intros [= <-].
    simpl. eapply keeps_quit_ok; [|exact H]. unfold Post in E.
    destruct (AddToIncomingQueue _ _ _ _ _) as [[? ?] []]; by injection E as <- <-.
  - destruct (_ && _); [|done]. by intros [= <-].
  - destruct (frames m) as [|[pc|] fs]; try done. by apply pump_step_quit.
  - destruct (frames m) as [|[|t] fs]; try done. unfold task_done.
    assert (quit_ok (RunTask_exit (loop m))) by exact H.
    destruct fs as [|[[]|] fs]; try done; by apply continue_at_quit.
  - destruct (client_runs m); [|done]. unfold BeforeRun. destruct q; [by intros [= <-]|].
    destruct (keep_running _); [|done]. by intros [= <-].
  - destruct (client_runs m); [|done]. intros [= <-]. unfold quit_ok, RunLoop_Quit, QuitNow in *.
    simpl. destruct (run_loops (loop m)) as [|r rs] eqn:E; simpl; [by rewrite E|].
    destruct i as [|i]; simpl; [done|]. destruct (rs !! i); simpl; [done | by rewrite E].
  - destruct (client_runs m); [|done]. intros [= <-]. unfold quit_ok, QuitWhenIdle in *. simpl.
    destruct (run_loops (loop m)) as [|r rs] eqn:E; simpl; [by rewrite E | done].
  - destruct (client_runs m); [|done]. intros [= <-]. unfold quit_ok, QuitNow in *. simpl.
    destruct (run_loops (loop m)) as [|r rs] eqn:E; simpl; by rewrite E.
  - destruct (client_runs m); [|done]. intros [= <-]. by destruct b.
  - destruct (frames m) as [|[[| | | |[d|]]|] fs]; try done. by intros [= <-].
Qed.

Lemma reachable_quit type m : reachable type m -> quit_ok (loop m).
Proof. induction 1 as [|? ? ? _ IH Hs]; [done|]. by eapply step_quit. Qed.

(** ** Properties of every run *)

(** Every task a machine has queued, in the order incoming, work, delayed, deferred. *)
Definition queued (l : Loop) : list PendingTask :=
  incoming_queue (incoming_task_queue l) ++ work_queue l ++ delayed_work_queue l ++
  deferred_non_nestable_work_queue l.

Lemma sorted_after now q :
  StronglySorted earlier q ->
  match q with [] => True | top :: _ => now < delayed_run_time top end ->
  Forall (fun t => now < delayed_run_time t) q.
Proof.
  destruct 1 as [|top q _ Hq]; intros Hn; constructor; [done|].
  eapply Forall_impl; [exact Hq|]. unfold earlier. intros. lia.
Qed.

(** A delayed task is due. *)
Definition due (now : Z) (l : Loop) : bool :=
  match delayed_work_queue l with [] => false | top :: _ => delayed_run_time top <=? now end.

(** The pump waits on an event that is not signalled, and no delayed task is due. *)
Definition resting (m : Machine) (fs : list Frame) : Prop :=
  (exists d, frames m = PumpFrame (PcBlocked d) :: fs) /\ event_ (pump (loop m)) = false /\
  due (clock m) (loop m) = false.

Lemma resting_idle m fs t :
  MachineOk m -> resting m fs -> nestable_tasks_allowed (loop m) = true ->
  t ∈ queued (loop m) -> ~ startable (clock m) (loop m) t.
Proof.
  intros H ((d & Hf) & He & Hdue) Hn. pose proof (mo_pump m H Hn) as Hp. rewrite Hf in Hp.
  pose proof (mo_loop m H) as Hl.
  destruct Hp as ([Hw [|[Hi _]]] & _ & _ & Hdef); [congruence|].
  unfold queued. rewrite Hi, Hw, !app_nil_l, elem_of_app. intros [Hin|Hin] [Ht Hc].
  - unfold LoopOk in Hl. destruct Hl. eapply sorted_after with (now := clock m) in ok_sorted.
    + eapply Forall_forall in ok_sorted; [|exact Hin]. simpl in ok_sorted. lia.
    + unfold due in Hdue. destruct (delayed_work_queue (loop m)); [done|]. by apply Z.leb_gt.
  - destruct Hl as []. eapply Forall_forall in ok_deferred as [Hnn _]; [|exact Hin].
    destruct Hc as [|Hc]; [congruence|]. rewrite Hdef in Hin by done. by apply elem_of_nil in Hin.
Qed.

(** A pump that cannot advance rests. *)
Lemma stuck_rests m pc fs :
  MachineOk m -> frames m = PumpFrame pc :: fs -> nestable_tasks_allowed (loop m) = true ->
  step m EvPump = Stuck -> resting m fs.
Proof.
  intros H Hf Hn Hs. pose proof (mo_pump m H Hn) as Hp. simpl in Hs. rewrite Hf in Hs, Hp.
  destruct pc as [|d| | |d]; unfold pump_step in Hs;
    try (unfold continue_at, leave_run, start_task in Hs; repeat (case_match; try discriminate Hs); fail).
  destruct (event_ (pump (loop m))) eqn:He; [done|]. destruct Hp as (_ & Hd0 & Hd & _).
  split; [by exists d|]. split; [done|]. unfold due. destruct d as [e|]; [|by rewrite Hd0].
  destruct (Hd e eq_refl) as (t & Ht & Hle). unfold timer_set in Ht.
  destruct (delayed_work_queue (loop m)) as [|top rest]; [done|]. apply Z.leb_gt.
  destruct (Z.leb_spec e (clock m)); [done | lia].
Qed.

(** The state of a pump that cannot advance. *)
Lemma blocked_idle m pc fs t :
  MachineOk m -> frames m = PumpFrame pc :: fs ->
  nestable_tasks_allowed (loop m) = true -> step m EvPump = Stuck ->
  t ∈ queued (loop m) -> ~ startable (clock m) (loop m) t.
Proof. intros H Hf Hn Hs. eapply resting_idle; [done | by eapply stuck_rests | done]. Qed.

(** ** Draining

    With no new post and no time passing, the innermost run comes to rest: a measure
    decreases with every step of the pump and every return of a task until the pump
    waits and no delayed task is due. *)

(** The pump's test of its wake-up time fails: it would not sleep. *)
Definition expired (now time : Z) : bool :=
  negb (TimeTicks.is_null time) && negb (0 <? TimeTicks.diff time now).

(** Tasks can move from the incoming to the work queue, to the delayed queue and to
    the deferred one, each move costing at most a fresh wake-up time. *)
Definition load (l : Loop) : nat :=
  16 * (length (incoming_queue (incoming_task_queue l)) + length (work_queue l)) +
  10 * length (delayed_work_queue l) + 5 * length (deferred_non_nestable_work_queue l) +
  (if event_ (pump l) then 5 else 0).

Definition timer_load (now : Z) (l : Loop) : nat :=
  if expired now (delayed_work_time (pump l)) then 4 else 0.

Definition rank (now : Z) (l : Loop) (fs : list Frame) : nat :=
  match fs with
  | TaskFrame _ :: _ => 6
  | PumpFrame PcDoWork :: _ => 4
  | PumpFrame (PcDelayedWork d) :: _ => if d then 5 else 3
  | PumpFrame PcIdleWork :: _ => 2
  | PumpFrame PcWait :: _ => 1
  | PumpFrame (PcBlocked _) :: _ => if due now l then 5 else 0
  | [] => 0
  end.

Definition drain_measure (m : Machine) : nat :=
  load (loop m) + timer_load (clock m) (loop m) + rank (clock m) (loop m) (frames m).

Lemma timer_load_le now l : (timer_load now l <= 4)%nat.
Proof. unfold timer_load. destruct (expired _ _); lia. Qed.

Lemma DelayedTaskQueue_push_length q t :
  length (DelayedTaskQueue_push q t) = S (length q).
Proof. by rewrite DelayedTaskQueue_push_perm. Qed.

Lemma DoWork_inner_load l w :
  match DoWork_inner l w with
  | (l', Some _) => (load l' + 16 <= load (set_work l w))%nat
  | (l', None) => (load l' + 6 * length w <= load (set_work l w))%nat
  end.
Proof.
  revert l. induction w as [|t w IH]; intros l; simpl; [unfold load; simpl; lia|].
  assert (forall l1, (load (set_work l1 w) + 6 <= load (set_work l (t :: w)))%nat ->
    match DoWork_inner l1 w with
    | (l', Some _) => (load l' + 16 <= load (set_work l (t :: w)))%nat
    | (l', None) => (load l' + 6 * S (length w) <= load (set_work l (t :: w)))%nat
    end) as Hstep.
  { intros l1 H1. specialize (IH l1). destruct (DoWork_inner l1 w) as [l' []]; lia. }
  destruct (TimeTicks.is_null (delayed_run_time t)); simpl.
  - unfold DeferOrRunPendingTask. destruct (nestable t || (current_depth l =? 1)); simpl.
    + unfold load. simpl. lia.
    + apply Hstep. unfold load. simpl. rewrite length_app. simpl. lia.
  - apply Hstep. unfold load.
    destruct (match DelayedTaskQueue_push _ _ with [] => _ | _ => _ end); simpl;
      rewrite DelayedTaskQueue_push_length; lia.
Qed.

Lemma ReloadWorkQueue_load (l : Loop) : load (ReloadWorkQueue l) = load l.
Proof.
  unfold ReloadWorkQueue, Incoming_ReloadWorkQueue, load. destruct (work_queue l) eqn:Hw.
  - destruct (incoming_queue (incoming_task_queue l)) eqn:Hi; simpl; rewrite ?Hw, ?Hi; simpl; lia.
  - by rewrite Hw.
Qed.

Lemma DoWork_pass_load now (l : Loop) :
  match DoWork_pass l with
  | (l', WorkAgain) => (load l' + timer_load now l' < load l + timer_load now l)%nat
  | (l', WorkNothing) => load l' = load l /\ timer_load now l' = timer_load now l
  | (l', WorkRun _) => (load l' + timer_load now l' + 12 <= load l)%nat
  end.
Proof.
  pose proof (ReloadWorkQueue_load l) as Hl.
  assert (Hp : pump (ReloadWorkQueue l) = pump l).
  { unfold ReloadWorkQueue. destruct (work_queue l); [|done].
    by destruct (Incoming_ReloadWorkQueue _ _) as [[]]. }
  unfold DoWork_pass. destruct (work_queue (ReloadWorkQueue l)) as [|t w] eqn:Hw.
  { split; [done|]. unfold timer_load. by rewrite Hp. }
  pose proof (DoWork_inner_load (ReloadWorkQueue l) (t :: w)) as Hi.
  assert (load (set_work (ReloadWorkQueue l) (t :: w)) = load l) as Hs.
  { rewrite <- Hl. unfold load. simpl. by rewrite Hw. }
  rewrite Hs in Hi. destruct (DoWork_inner _ _) as [l' [t'|]];
    pose proof (timer_load_le now l'); simpl in Hi; lia.
Qed.

(** A wake-up time set without running or moving a task lies in the future. *)
Lemma DoDelayedWork_load now po ra x (l l' : Loop) next next' run :
  LoopOk now po ra x l -> DoDelayedWork l now next = (l', next', run) ->
  match run with
  | Some _ => (load l' + 10 <= load l)%nat
  | None => (load l' + 5 <= load l)%nat \/ (load l' = load l /\ expired now next' = false)
  end.
Proof.
  intros Hok. pose proof (LoopOk_now _ _ _ _ _ Hok) as Hnow.
  pose proof (delayed_top_range now po ra x l) as Hr. specialize Hr with (1 := Hok).
  assert (recent_time l <= now) as Hrec by (by destruct Hok).
  unfold DoDelayedWork. destruct (delayed_work_queue l) as [|top rest] eqn:Hd.
  { intros [= <- <- <-]. right. split; [|done]. unfold load; simpl. by rewrite Hd. }
  destruct (nestable_tasks_allowed l); simpl; cycle 1.
  { intros [= <- <- <-]. right. split; [|done]. unfold load; simpl. by rewrite Hd. }
  specialize (Hr _ _ eq_refl) as (_ & Hr & _).
  set (l1 := if recent_time l <? delayed_run_time top then set_recent l now else l).
  assert (load l1 = load l) as Hl1 by (subst l1; by destruct (_ <? _)).
  assert (load (set_delayed l1 rest) + 10 = load l)%nat as Hl2.
  { rewrite <- Hl1. subst l1. destruct (_ <? _); unfold load; simpl; rewrite Hd; simpl; lia. }
  destruct (Z.ltb_spec (recent_time l1) (delayed_run_time top)) as [Ht|Ht].
  - intros [= <- <- <-]. right. split; [done|]. unfold expired. rewrite diff_exact by done.
    assert (now < delayed_run_time top).
    { subst l1. destruct (Z.ltb_spec (recent_time l) (delayed_run_time top)); simpl in *; lia. }
    destruct (Z.ltb_spec 0 (delayed_run_time top - now)); [|lia]. by rewrite andb_false_r.
  - unfold DeferOrRunPendingTask. destruct (nestable top || _); intros [= <- <- <-]; [lia|].
    left. unfold load in *. simpl in *. rewrite length_app. simpl. lia.
Qed.

Lemma DoIdleWork_load now (l l' : Loop) run :
  DoIdleWork l = (l', run) ->
  match run with
  | Some _ => (load l' + timer_load now l' + 5 <= load l + timer_load now l)%nat
  | None => load l' = load l /\ timer_load now l' = timer_load now l
  end.
Proof.
  unfold DoIdleWork, ProcessNextDelayedNonNestableTask.
  assert (forall l0 b, load (if b : bool then set_high_res l0 (pending_high_res_tasks l0)
      (0 <? pending_high_res_tasks l0) else l0) = load l0 /\
    timer_load now (if b : bool then set_high_res l0 (pending_high_res_tasks l0)
      (0 <? pending_high_res_tasks l0) else l0) = timer_load now l0) as Hh by (by intros ? []).
  assert (forall rs, load (match rs with r :: _ => if quit_when_idle_received r
      then set_pump l (pump_Quit (pump l)) else l | [] => l end) = load l /\
    timer_load now (match rs with r :: _ => if quit_when_idle_received r
      then set_pump l (pump_Quit (pump l)) else l | [] => l end) = timer_load now l) as Hq
    by (intros [|r ?]; [done|]; by destruct (quit_when_idle_received r)).
  destruct (Hq (run_loops l)) as [Hq1 Hq2].
  destruct (current_depth l =? 1); simpl;
    [destruct (deferred_non_nestable_work_queue l) eqn:Hd|]; intros [= <- <-].
  2: { unfold load, timer_load. simpl. rewrite Hd. simpl. lia. }
  all: match goal with |- load (if ?b then set_high_res ?l0 _ _ else _) = _ /\ _ =>
         destruct (Hh l0 b) as [-> ->] end; done.
Qed.

(** The innermost run has ended, or is nearer to rest. *)
Definition nearer (n : nat) (fs : list Frame) (o : Outcome) : Prop :=
  match o with
  | Next m' => frames m' = fs \/
      ((drain_measure m' < n)%nat /\
       exists pc, frames m' = PumpFrame pc :: fs \/
                  exists t, frames m' = TaskFrame t :: PumpFrame pc :: fs)
  | _ => True
  end.

Lemma continue_at_nearer m (l : Loop) fs pc n :
  (load l + timer_load (clock m) l + rank (clock m) l (PumpFrame pc :: fs) < n)%nat ->
  nearer n fs (continue_at m l fs pc).
Proof.
  intros. unfold continue_at. destruct (keep_running (pump l)); [|by left].
  right. split; [done|]. eauto.
Qed.

Lemma start_task_nearer m (l : Loop) fs pc t n :
  (load l + timer_load (clock m) l + 6 < n)%nat ->
  nearer n fs (start_task m l (PumpFrame pc :: fs) t).
Proof.
  intros Hn. unfold start_task, RunTask_enter. destruct (nestable_tasks_allowed l); [simpl negb; cbv iota|done].
  assert (forall l' h, load (set_nestable (set_high_res l h (in_high_res_mode l)) l') = load l)
    by done.
  destruct (is_high_res t); [destruct (_ <=? _); [|done]|];
    (right; split; [|eauto]); exact Hn.
Qed.

Lemma pump_step_nearer m pc fs :
  MachineOk m -> frames m = PumpFrame pc :: fs -> nestable_tasks_allowed (loop m) = true -> ~ resting m fs ->
  nearer (drain_measure m) fs (pump_step m pc fs).
Proof.
  intros H Hf Hal Hrest. pose proof (mo_pump m H Hal) as Hp. rewrite Hf in Hp. pose proof (mo_loop m H) as Hl. unfold drain_measure. rewrite Hf.
  pose proof (timer_load_le (clock m) (loop m)).
  destruct pc as [|d| | |d]; unfold pump_step.
  - rewrite Hal. simpl.
    pose proof (DoWork_pass_load (clock m) (loop m)) as Hw.
    destruct (DoWork_pass (loop m)) as [l' [| |t]].
    + right. split; [|eauto]. unfold drain_measure. simpl. lia.
    + apply continue_at_nearer. simpl. lia.
    + apply start_task_nearer. simpl. lia.
  - destruct (DoDelayedWork _ _ _) as [[l' next] run] eqn:E.
    pose proof (DoDelayedWork_load _ _ _ _ _ _ _ _ _ Hl E) as Hw.
    set (l1 := set_pump l' _). assert (load l1 = load l') as Hll by done. rewrite <- Hll in Hw.
    pose proof (timer_load_le (clock m) l1). destruct run as [t|].
    + apply start_task_nearer. simpl. destruct d; lia.
    + apply continue_at_nearer. destruct Hw as [Hw | [Hw He]].
      * destruct d; simpl; lia.
      * assert (timer_load (clock m) l1 = 0%nat) as Ht.
        { unfold timer_load; subst l1; simpl. by rewrite He. }
        destruct d; simpl; lia.
  - destruct (DoIdleWork (loop m)) as [l' run] eqn:E.
    pose proof (DoIdleWork_load (clock m) _ _ _ E) as Hw. destruct run as [t|].
    + apply start_task_nearer. simpl. lia.
    + apply continue_at_nearer. simpl. lia.
  - destruct Hp as (_ & Ht & _). unfold timer_set in Ht.
    destruct (TimeTicks.is_null _) eqn:Hz.
    { right. split; [|eauto]. unfold drain_measure. simpl.
      assert (due (clock m) (loop m) = false) as ->; [|lia]. unfold due.
      destruct (delayed_work_queue (loop m)) eqn:E; [done|]. apply Z.eqb_eq in Hz.
      by destruct (delayed_top_range _ _ _ _ _ _ _ Hl E) as [? _]; congruence. }
    destruct (0 <? TimeTicks.diff _ _) eqn:Hd; (right; split; [|eauto]); unfold drain_measure, timer_load, expired; simpl.
    + assert (due (clock m) (loop m) = false) as ->; [|rewrite Hz, Hd; simpl; change (load (loop m) + 0 + 0 < load (loop m) + 0 + 1)%nat; lia].
      unfold due. destruct (delayed_work_queue (loop m)) as [|top rest] eqn:E; [done|].
      destruct (delayed_top_range _ _ _ _ _ _ _ Hl E) as (_ & Hr & _). apply Z.ltb_lt in Hd.
      rewrite diff_exact in Hd by (by rewrite ?Ht || apply (LoopOk_now _ _ _ _ _ Hl)). apply Z.leb_gt. lia.
    + rewrite Hz, Hd. simpl. change (load (loop m) + 0 + 4 < load (loop m) + 4 + 1)%nat. lia.
  - destruct (event_ (pump (loop m))) eqn:He.
    + right. split; [|eauto]. unfold drain_measure, load, timer_load. simpl. rewrite He. lia.
    + destruct (due (clock m) (loop m)) eqn:Hdue; [|by destruct Hrest; split_and!; eauto].
      destruct Hp as (_ & Hd0 & Hd & _). unfold due in Hdue.
      destruct d as [e|]; [|by rewrite Hd0 in Hdue]. destruct (Hd e eq_refl) as (t & Ht & Hle). unfold timer_set in Ht.
      destruct (delayed_work_queue (loop m)) as [|top rest] eqn:E; [done|]. apply Z.leb_le in Hdue.
      rewrite (proj2 (Z.leb_le _ _)) by lia. right. split; [|eauto]. unfold drain_measure. simpl.
      unfold due. rewrite E, (proj2 (Z.leb_le _ _)) by lia. lia.
Qed.

Lemma task_done_nearer m t pc fs :
  frames m = TaskFrame t :: PumpFrame pc :: fs ->
  nearer (drain_measure m) fs (task_done m (PumpFrame pc :: fs)).
Proof.
  intros Hf. unfold drain_measure. rewrite Hf. unfold task_done.
  assert (load (RunTask_exit (loop m)) = load (loop m)) as Hl by done.
  destruct pc; try done; apply continue_at_nearer; rewrite Hl; simpl;
    change (timer_load (clock m) (RunTask_exit (loop m))) with (timer_load (clock m) (loop m)); lia.
Qed.

(** The steps of the loop's thread when client code only returns. *)
Definition own (e : Event) : Prop := e = EvPump \/ e = EvTaskDone.

(** Own steps change neither the clock nor the history of posts. *)
Lemma own_history m e m' :
  own e -> step m e = Next m' -> clock m' = clock m /\ posted m' = posted m.
Proof.
  assert (forall (l : Loop) fs pc, continue_at m l fs pc = Next m' ->
    clock m' = clock m /\ posted m' = posted m) as Hc.
  { intros l fs pc. unfold continue_at, leave_run. case_match; by intros [= <-]. }
  assert (forall (l : Loop) fs t, start_task m l fs t = Next m' ->
    clock m' = clock m /\ posted m' = posted m) as Hs.
  { intros l fs t. unfold start_task. case_match; [|done]. by intros [= <-]. }
  intros [-> | ->]; simpl; destruct (frames m) as [|[pc|t] fs]; try done.
  - unfold pump_step. intros H. repeat (case_match; simplify_eq/=); eauto.
  - unfold task_done. intros H. repeat (case_match; simplify_eq/=); eauto.
Qed.

(** Tasks are allowed whenever the pump is on top. *)
Definition allowed_at_pump (m : Machine) : Prop :=
  match frames m with PumpFrame _ :: _ => nestable_tasks_allowed (loop m) = true | _ => True end.

Lemma continue_at_allowed m (l : Loop) fs pc m' :
  nestable_tasks_allowed l = true -> continue_at m l fs pc = Next m' ->
  allowed_at_pump m' \/ frames m' = fs.
Proof.
  unfold continue_at, leave_run, allowed_at_pump. intros Hn.
  destruct (keep_running (pump l)); intros [= <-]; simpl; auto.
Qed.

Lemma start_task_allowed m (l : Loop) fs t m' :
  start_task m l fs t = Next m' -> allowed_at_pump m'.
Proof. unfold start_task, allowed_at_pump. destruct (RunTask_enter l t); [|done]. by intros [= <-]. Qed.

Lemma pump_step_allowed m pc fs m' :
  nestable_tasks_allowed (loop m) = true -> pump_step m pc fs = Next m' ->
  allowed_at_pump m' \/ frames m' = fs.
Proof.
  intros Hn Hs. destruct pc as [|d| | |d]; unfold pump_step in Hs.
  - rewrite Hn in Hs. simpl in Hs.
    pose proof (DoWork_pass_control (loop m)) as (_ & Hc & _). rewrite Hn in Hc.
    destruct (DoWork_pass (loop m)) as [l' [| |t]]; simpl in Hc.
    + injection Hs as <-. by left.
    + by eapply continue_at_allowed.
    + left. by eapply start_task_allowed.
  - pose proof (DoDelayedWork_control (loop m) (clock m) (delayed_work_time (pump (loop m))))
      as ((_ & Hc & _) & _). rewrite Hn in Hc.
    destruct (DoDelayedWork _ _ _) as [[l' next] [t|]]; simpl in Hc.
    + left. by eapply start_task_allowed.
    + by eapply continue_at_allowed in Hs.
  - pose proof (DoIdleWork_control (loop m)) as ((_ & Hc & _) & _). rewrite Hn in Hc.
    destruct (DoIdleWork (loop m)) as [l' [t|]]; simpl in Hc.
    + left. by eapply start_task_allowed.
    + by eapply continue_at_allowed.
  - left. repeat (case_match; try discriminate Hs); injection Hs as <-; exact Hn.
  - left. repeat (case_match; try discriminate Hs); injection Hs as <-; exact Hn.
Qed.

(** The step the loop's own thread takes, when client code only returns. *)
Definition own_event (m : Machine) : Event :=
  match frames m with TaskFrame _ :: _ => EvTaskDone | _ => EvPump end.

Lemma own_event_own m : own (own_event m).
Proof. unfold own, own_event. destruct (frames m) as [|[]]; auto. Qed.

Definition in_run (fs : list Frame) (m : Machine) : Prop :=
  exists pc, frames m = PumpFrame pc :: fs \/ exists t, frames m = TaskFrame t :: PumpFrame pc :: fs.

Lemma pump_step_moves m pc fs :
  MachineOk m -> frames m = PumpFrame pc :: fs -> nestable_tasks_allowed (loop m) = true ->
  pump_step m pc fs = Stuck -> resting m fs.
Proof. intros H Hf Hn Hs. apply (stuck_rests m pc fs H Hf Hn). simpl. by rewrite Hf. Qed.

Lemma own_step_nearer m fs :
  MachineOk m -> alternating (frames m) -> in_run fs m -> allowed_at_pump m -> ~ resting m fs ->
  exists m', step m (own_event m) = Next m' /\
    (frames m' = fs \/ ((drain_measure m' < drain_measure m)%nat /\ in_run fs m' /\ allowed_at_pump m')).
Proof.
  intros H Ha (pc & Hf) Hal Hrest. pose proof (step_ok m (own_event m) H Ha) as Hsafe.
  unfold own_event, allowed_at_pump in *. destruct Hf as [Hf | [t Hf]]; rewrite Hf in *;
    cbn [step client_obeys] in *; rewrite Hf in *.
  - pose proof (pump_step_nearer m pc fs H Hf Hal Hrest) as Hn.
    pose proof (pump_step_allowed m pc fs) as Hpa.
    destruct (pump_step m pc fs) as [| |m'] eqn:E.
    + by apply (pump_step_moves m pc fs) in E.
    + destruct Hsafe. by left.
    + exists m'. split; [done|]. destruct Hn as [? | [? Hr]]; [by left|].
      destruct (Hpa m' Hal eq_refl) as [? | ?]; [right | by left]. by split_and!.
  - pose proof (task_done_nearer m t pc fs Hf) as Hn. destruct Ha as [Hpc Ha].
    destruct (task_done m (PumpFrame pc :: fs)) as [| |m'] eqn:E.
    + exfalso. unfold task_done, continue_at, leave_run in E. destruct pc; try done; by case_match.
    + by destruct Hsafe.
    + exists m'. split; [done|]. destruct Hn as [? | [? Hr]]; [by left|].
      assert (forall pc', continue_at m (RunTask_exit (loop m)) fs pc' = Next m' ->
        allowed_at_pump m' \/ frames m' = fs) as Hpa
        by (intros pc2; by apply continue_at_allowed).
      unfold task_done in E. destruct pc; try done; apply Hpa in E as [? | ?]; auto.
Qed.

Lemma resting_dec m fs : resting m fs \/ ~ resting m fs.
Proof.
  unfold resting. destruct (event_ (pump (loop m))); [right; by intros (_ & ? & _)|].
  destruct (due (clock m) (loop m)); [right; by intros (_ & _ & ?)|].
  destruct (frames m) as [|[[| | | |d]|] fs']; try (right; by intros ((? & ?) & _)).
  destruct (decide (fs' = fs)) as [->|Hne]; [left; eauto|right]. intros ((? & [= ?]) & _). congruence.
Qed.

Lemma drains n m fs :
  (drain_measure m <= n)%nat ->
  MachineOk m -> alternating (frames m) -> in_run fs m -> allowed_at_pump m ->
  exists es m', Forall own es /\ (length es <= n + 1)%nat /\ execute m es = m' /\
    clock m' = clock m /\ posted m' = posted m /\
    (frames m' = fs \/ (MachineOk m' /\ resting m' fs /\ nestable_tasks_allowed (loop m') = true)).
Proof.
  revert m. induction n as [n IH] using lt_wf_ind. intros m Hn H Ha Hr Hal.
  destruct (resting_dec m fs) as [Hrest|Hrest].
  { exists [], m. unfold allowed_at_pump in Hal. pose proof Hrest as ((d & Hf) & _). rewrite Hf in Hal.
    split_and!; [constructor | simpl; lia | done | done | done | right; eauto]. }
  destruct (own_step_nearer m fs H Ha Hr Hal Hrest) as (m' & E & Hs).
  destruct (own_history m _ m' (own_event_own m) E) as [Hc Hp].
  destruct Hs as [Hf | (Hlt & Hr' & Hal')].
  - exists [own_event m], m'. simpl. rewrite E.
    split_and!; [| lia | done | done | done | by left].
    constructor; [apply own_event_own | constructor].
  - pose proof (step_ok m (own_event m) H Ha) as H'. rewrite E in H'.
    destruct (IH (drain_measure m') ltac:(lia) m' ltac:(lia) H'
      (step_alternating _ _ _ Ha E) Hr' Hal') as (es & m'' & He & Hl & Hx & Hc' & Hp' & Hend).
    exists (own_event m :: es), m''. simpl. rewrite E.
    split_and!; [| lia | done | congruence | congruence | done].
    constructor; [apply own_event_own | done].
Qed.

(** ** The theorems *)

(** In every reachable state no step of the loop, of client code or of another thread
    fails a CHECK or DCHECK, if client code starts no run after a quit and does not forbid
    tasks for the outermost run. *)
Theorem reachable_never_crashes type m e : reachable type m -> client_obeys m e -> step m e <> Crash.
Proof.
  intros [H Ha]%reachable_ok Ho Hs. pose proof (step_ok m e H Ha) as Hok. by rewrite Hs in Hok.
Qed.

(** C1: no task is lost, duplicated or invented: at any moment the accepted
    posts are exactly the tasks already started and the tasks in the four queues. *)
Theorem no_task_lost type m :
  reachable type m -> posted m ≡ₚ map started_task (started m) ++ queued (loop m).
Proof. intros [[Hl _ _ _ _] _]%reachable_ok. by destruct Hl. Qed.

(** C4: immediate nestable tasks start in the order of their posts: the
    started ones, then those of the work queue, then those of the incoming
    queue are the posted ones in order. *)
Theorem immediate_tasks_fifo type m :
  reachable type m ->
  filter immediate (posted m)
  = filter immediate (map started_task (started m)) ++ filter immediate (work_queue (loop m)) ++
    filter immediate (incoming_queue (incoming_task_queue (loop m))).
Proof.
  intros [[Hl _ _ _ _] _]%reachable_ok. destruct Hl. by rewrite ok_fifo, app_nil_r.
Qed.

(** C5: no task starts before its run time, and a non-nestable task starts
    only when exactly one run is in progress. *)
Theorem starts_are_timely type m s :
  reachable type m -> s ∈ started m ->
  delayed_run_time (started_task s) <= started_at s /\
  (nestable (started_task s) = true \/ started_depth s = 1%nat).
Proof. intros [[] _]%reachable_ok Hs. by eapply Forall_forall in mo_started. Qed.

(** C2: no lost wake-up: when the pump of the innermost run cannot advance and
    tasks are allowed, it is because no queued task may start. *)
Theorem pump_sleeps_only_when_idle type m pc fs t :
  reachable type m -> frames m = PumpFrame pc :: fs ->
  nestable_tasks_allowed (loop m) = true -> step m EvPump = Stuck ->
  t ∈ queued (loop m) -> ~ startable (clock m) (loop m) t.
Proof. intros [H _]%reachable_ok. by apply blocked_idle. Qed.

(** After [RunLoop::Quit] on the innermost run, deferred quits of an outer
    run included, the run ends as soon as the current task returns. *)
Theorem quit_leaves_after_task type m t pc fs r rs :
  reachable type m -> frames m = TaskFrame t :: PumpFrame pc :: fs ->
  run_loops (loop m) = r :: rs -> quit_called r = true ->
  exists m', step m EvTaskDone = Next m' /\ frames m' = fs /\ run_loops (loop m') = rs.
Proof.
  intros Hm Hf Hr Hc. pose proof (reachable_ok _ _ Hm) as [_ Ha].
  rewrite Hf in Ha. apply reachable_quit in Hm as Hq. unfold quit_ok in Hq. rewrite Hr in Hq.
  specialize (Hq Hc). simpl. rewrite Hf. unfold task_done, continue_at. simpl. rewrite Hq.
  destruct pc; try (by destruct Ha); (eexists; split; [reflexivity|]; split; [done|]);
    unfold AfterRun, QuitNow; simpl; rewrite Hr; simpl;
    destruct rs as [|r' rs]; simpl; try done; by destruct (quit_called r').
Qed.

(** C3: a run comes to rest: from any reachable state in which the pump may run tasks, with
    no further post and at a fixed time, the loop's own steps (tasks returning at once)
    reach after boundedly many steps the end of the run, or the pump waiting for its event,
    not signalled, with no queued task that may start. (The wait itself may time out less
    than a millisecond early: [early_wait_spins].) *)
Theorem run_comes_to_rest type m pc fs :
  reachable type m -> frames m = PumpFrame pc :: fs ->
  nestable_tasks_allowed (loop m) = true ->
  exists es, Forall own es /\ (length es <= drain_measure m + 1)%nat /\
    let m' := execute m es in
    clock m' = clock m /\ posted m' = posted m /\
    (frames m' = fs \/
     ((exists d, frames m' = PumpFrame (PcBlocked d) :: fs) /\ event_ (pump (loop m')) = false /\
      forall t, t ∈ queued (loop m') -> ~ startable (clock m') (loop m') t)).
Proof.
  intros [H Ha]%reachable_ok Hf Hn.
  destruct (drains (drain_measure m) m fs) as (es & m' & Ho & Hl & <- & Hc & Hp & Hend);
    [lia | done | done | by (eexists; left) | by unfold allowed_at_pump; rewrite Hf |].
  exists es. cbv zeta. split_and!; try done. destruct Hend as [|(Hok & Hrest & Hal)]; [by left|].
  right. pose proof Hrest as (Hd & He & _). split_and!; [done | done |]. intros t. by eapply resting_idle.
Qed.

(** *** The properties at concrete schedules *)

Lemma execute_reachable type m es : reachable type m -> reachable type (execute m es).
Proof.
  revert m. induction es as [|e es IH]; intros m H; simpl; [done|].
  destruct (step m e) eqn:E; [by apply IH | by apply IH |].
  apply IH. by eapply reachable_step.
Qed.

(** Three posts (the second delayed, with high resolution, and non-nestable), a run,
    and six steps of the pump and tasks. *)
Definition sample_schedule : list Event :=
  [EvPost 1%nat 0 true; EvPost 2%nat 1000 false; EvPost 3%nat 0 true; EvRun false false;
   EvPump; EvTaskDone; EvPump; EvPump; EvPump; EvTaskDone].

Definition sample (es : list Event) : Machine := execute (Machine_new TYPE_DEFAULT 5) es.

Lemma sample_reachable es : reachable TYPE_DEFAULT (sample es).
Proof. apply execute_reachable, reachable_new. by vm_compute. Qed.

(** A nested run whose task quits the outer run. *)
Definition nested_quit_schedule : list Event :=
  [EvPost 1%nat 0 true; EvPost 2%nat 0 true; EvRun false false; EvPump; EvSetNestable true;
   EvRun false false; EvPump; EvQuit 1%nat; EvQuit 0%nat; EvTaskDone].

Lemma reachable_never_crashes_witness :
  pending_high_res_tasks (loop (sample sample_schedule)) = 1 /\
  step (sample sample_schedule) EvPump <> Crash.
Proof.
  split; [by vm_compute|].
  apply (reachable_never_crashes TYPE_DEFAULT (sample sample_schedule) EvPump
           (sample_reachable _)). left. by vm_compute.
Defined.

Lemma no_task_lost_witness :
  posted (sample sample_schedule) ≡ₚ
    map started_task (started (sample sample_schedule)) ++ queued (loop (sample sample_schedule)) /\
  length (posted (sample sample_schedule)) = 3%nat /\
  length (started (sample sample_schedule)) = 2%nat.
Proof.
  split; [exact (no_task_lost TYPE_DEFAULT _ (sample_reachable sample_schedule))|].
  by vm_compute.
Defined.

Lemma immediate_tasks_fifo_witness :
  map task (filter immediate (posted (sample sample_schedule))) = [1; 3]%nat /\
  filter immediate (posted (sample sample_schedule))
  = filter immediate (map started_task (started (sample sample_schedule))) ++
    filter immediate (work_queue (loop (sample sample_schedule))) ++
    filter immediate (incoming_queue (incoming_task_queue (loop (sample sample_schedule)))).
Proof.
  split; [by vm_compute|].
  exact (immediate_tasks_fifo TYPE_DEFAULT _ (sample_reachable sample_schedule)).
Defined.

Definition sample_delayed : Machine :=
  sample (sample_schedule ++ [EvPump; EvPump; EvTick 1000; EvPump; EvPump; EvPump]).

Lemma starts_are_timely_witness :
  exists s, s ∈ started sample_delayed /\ task (started_task s) = 2%nat /\
    delayed_run_time (started_task s) <= started_at s /\
    (nestable (started_task s) = true \/ started_depth s = 1%nat).
Proof.
  assert (Hs : Start_ (PendingTask_ 2%nat 1005 1 false true) 1005 1%nat ∈ started sample_delayed).
  { apply (bool_decide_unpack _). vm_compute. exact I. }
  eexists; split; [exact Hs|]. split; [reflexivity|].
  exact (starts_are_timely TYPE_DEFAULT sample_delayed _ (sample_reachable _) Hs).
Defined.

Definition sample_asleep : Machine := sample (sample_schedule ++ replicate 16%nat EvPump).

Lemma pump_sleeps_only_when_idle_witness :
  exists t, t ∈ queued (loop sample_asleep) /\
    ~ startable (clock sample_asleep) (loop sample_asleep) t.
Proof.
  exists (PendingTask_ 2%nat 1005 1 false true).
  assert (Hin : PendingTask_ 2%nat 1005 1 false true ∈ queued (loop sample_asleep)).
  { apply (bool_decide_unpack _). vm_compute. exact I. }
  split; [exact Hin|].
  apply (pump_sleeps_only_when_idle TYPE_DEFAULT sample_asleep (PcBlocked (Some 1005)) []);
    [apply sample_reachable | by vm_compute | by vm_compute | by vm_compute | exact Hin].
Defined.

Lemma quit_leaves_after_task_witness :
  exists m', step (sample nested_quit_schedule) EvTaskDone = Next m' /\ frames m' = [] /\
    run_loops (loop m') = [].
Proof.
  apply (quit_leaves_after_task TYPE_DEFAULT (sample nested_quit_schedule)
           (PendingTask_ 1%nat 0 0 true false) PcDoWork [] (RunLoop_ 1 true false));
    [apply sample_reachable | by vm_compute..].
Defined.

Lemma run_comes_to_rest_witness :
  exists es, Forall own es /\ (length es <= drain_measure (sample (take 4%nat sample_schedule)) + 1)%nat /\
    let m' := execute (sample (take 4%nat sample_schedule)) es in
    clock m' = clock (sample (take 4%nat sample_schedule)) /\
    posted m' = posted (sample (take 4%nat sample_schedule)) /\
    (frames m' = [] \/
     ((exists d, frames m' = PumpFrame (PcBlocked d) :: []) /\ event_ (pump (loop m')) = false /\
      forall t, t ∈ queued (loop m') -> ~ startable (clock m') (loop m') t)).
Proof.
  apply (run_comes_to_rest TYPE_DEFAULT (sample (take 4%nat sample_schedule)) PcDoWork []);
    [apply sample_reachable | by vm_compute..].
Defined.

(** A task due in half a millisecond: the wait for it times out at once, and the pump goes
    round its loop until the clock moves. *)
Definition spinning : Machine :=
  execute (Machine_new TYPE_DEFAULT 5) ([EvPost 1%nat 500 true; EvRun false false] ++ replicate 10%nat EvPump).

Example early_wait_spins :
  frames spinning = [PumpFrame (PcBlocked (Some 5))] /\
  execute spinning (replicate 5%nat EvPump) = spinning /\ step spinning EvPump <> Stuck.
Proof. split_and!; [by vm_compute | by vm_compute | by vm_compute]. Qed.

(** A wait of 49.7 days or more is one without end. *)
Example long_wait_is_infinite : timed_wait_end 5 max_delay = None.
Proof. reflexivity. Qed.
