(* ===== verification/QtPump.v ===== *)
(** * The Qt message pump of the client ([mdgate/browser/ui/messageloop_qt.cc])

    The client's UI thread runs a [MessageLoop] whose pump is driven by Qt's
    event loop: [ScheduleWork] posts a user event to the pump object, delayed
    work is a Qt timer, and the pump's event handlers call the loop's delegate
    methods. The machine below has the handlers of the pump, one delegate call at
    a time, and Qt's event loop as its environment: posted events and timers are
    dispatched by the innermost event loop, application handlers and tasks can
    open a nested event loop (a modal dialog), and a nested [RunLoop::Run] returns
    at once, since [QApplication::exec] does when it is already executing. *)

From S2P Require Import Prelude Numerics TimeBase TaskQueues MessageLoop.
From stdpp Require Import base numbers option list.
From Stdlib Require Import ZArith Lia.

Local Open Scope Z_scope.

(** ** The pump's state

    [user_events] counts the posted user events not yet dispatched; a timer is
    running when [m_timerId] is not zero. [qt_now] is the clock the pump reads. *)
Record MessagePumpForUIQt := {
  user_events : nat;
  m_timerId : Z;
  m_timerScheduledTime : Z;
  timer_interval : Z;
  next_timer_id : Z;
  qt_quit : bool;
  qt_now : Z
}.

Definition MessagePumpForUIQt_new (now : Z) : MessagePumpForUIQt :=
  {| user_events := 0; m_timerId := 0; m_timerScheduledTime := 0; timer_interval := 0;
     next_timer_id := 1; qt_quit := false; qt_now := now |}.

(** [ceil((from - Now()).InMillisecondsF())]; the division of doubles is exact
    enough for every delay an [int] of milliseconds can hold. The cast of a larger one,
    which C++ leaves undefined, gives the least [int], as the x86 instruction does; no
    theorem depends on it. *)
Definition GetTimeIntervalMilliseconds (now from : Z) : Z :=
  if TimeTicks.is_null from then -1
  else
    let milliseconds := - ((- TimeTicks.diff from now) / 1000) in
    let delay := if decide (Int.in_range Int.int32 milliseconds) then milliseconds else Int.min Int.int32 in
    if delay <? 0 then 0 else delay.

Definition with_events (p : MessagePumpForUIQt) (n : nat) : MessagePumpForUIQt :=
  {| user_events := n; m_timerId := m_timerId p;
     m_timerScheduledTime := m_timerScheduledTime p; timer_interval := timer_interval p;
     next_timer_id := next_timer_id p; qt_quit := qt_quit p; qt_now := qt_now p |}.

Definition with_timer (p : MessagePumpForUIQt) (id time interval next : Z) : MessagePumpForUIQt :=
  {| user_events := user_events p; m_timerId := id; m_timerScheduledTime := time;
     timer_interval := interval; next_timer_id := next; qt_quit := qt_quit p;
     qt_now := qt_now p |}.

(** [postEvent(this, new QEvent(QEvent::User))]. *)
Definition Qt_ScheduleWork (p : MessagePumpForUIQt) : MessagePumpForUIQt :=
  with_events p (S (user_events p)).

Definition Qt_killTimer (p : MessagePumpForUIQt) : MessagePumpForUIQt :=
  with_timer p 0 0 0 (next_timer_id p).

Definition Qt_ScheduleDelayedWork (delayed_work_time : Z) (p : MessagePumpForUIQt)
  : MessagePumpForUIQt :=
  if TimeTicks.is_null delayed_work_time then Qt_killTimer p
  else if (m_timerId p =? 0) || (delayed_work_time <? m_timerScheduledTime p)
  then with_timer p (next_timer_id p) delayed_work_time
         (GetTimeIntervalMilliseconds (qt_now p) delayed_work_time) (next_timer_id p + 1)
  else p.

Definition Qt_Quit (p : MessagePumpForUIQt) : MessagePumpForUIQt :=
  {| user_events := user_events p; m_timerId := m_timerId p;
     m_timerScheduledTime := m_timerScheduledTime p; timer_interval := timer_interval p;
     next_timer_id := next_timer_id p; qt_quit := true; qt_now := qt_now p |}.

Definition Qt_tick (d : Z) (p : MessagePumpForUIQt) : MessagePumpForUIQt :=
  {| user_events := user_events p; m_timerId := m_timerId p;
     m_timerScheduledTime := m_timerScheduledTime p; timer_interval := timer_interval p;
     next_timer_id := next_timer_id p; qt_quit := qt_quit p; qt_now := qt_now p + d |}.

#[export] Instance MessagePumpForUIQt_pump : MessagePump MessagePumpForUIQt := {
  pump_ScheduleWork := Qt_ScheduleWork;
  pump_ScheduleDelayedWork := Qt_ScheduleDelayedWork;
  pump_Quit := Qt_Quit }.

Abbreviation QtLoop := (MessageLoop MessagePumpForUIQt).

(** ** The machine *)

(** Where a handler of the pump is. [InWork], [InDelayed] and [InIdle] are the
    three delegate calls of [handleScheduledWork], with its locals; [InTimer] is
    [timerEvent], with the answer of [DoDelayedWork] once it is known;
    [InOnIdle] is [OnIdle]. *)
Inductive HandlerPc :=
  | InWork
  | InDelayed (more_work_is_plausible : bool)
  | InIdle (delayed_work_time : Z)
  | InTimer (next_delayed_work_time : option Z)
  | InOnIdle.

Inductive QtFrame :=
  | EventLoop                     (** [exec()] of an event loop, dispatching *)
  | Handler (pc : HandlerPc)      (** a handler of the pump *)
  | Native                        (** any other event handler *)
  | QtTask (t : PendingTask).     (** a task, called by the handler below it *)

Record QtMachine := {
  qt_loop : QtLoop;
  qt_frames : list QtFrame;          (** innermost first *)
  qt_posted : list PendingTask;      (** history: accepted posts *)
  qt_started : list PendingTask      (** history: tasks run *)
}.

(** [RunLoop::Run] up to [qt_app_->exec()]. *)
Definition QtMachine_new (now : Z) : QtMachine :=
  let l := MessageLoop_new TYPE_UI (MessagePumpForUIQt_new now) in
  {| qt_loop := default l (BeforeRun l false false); qt_frames := [EventLoop];
     qt_posted := []; qt_started := [] |}.

Definition qt_goto (m : QtMachine) (l : QtLoop) (fs : list QtFrame) : QtMachine :=
  {| qt_loop := l; qt_frames := fs; qt_posted := qt_posted m; qt_started := qt_started m |}.

(** [RunTask] calls the closure, from the delegate call of handler [pc];
    [None] is a failed [CHECK] or [DCHECK]. *)
Definition qt_start (m : QtMachine) (l : QtLoop) (pc : HandlerPc) (fs : list QtFrame)
    (t : PendingTask) : option QtMachine :=
  l' ← RunTask_enter l t;
  Some {| qt_loop := l'; qt_frames := QtTask t :: Handler pc :: fs;
          qt_posted := qt_posted m; qt_started := qt_started m ++ [t] |}.

(** [customEvent] after [handleScheduledWork] returned. *)
Definition customEvent_return (m : QtMachine) (l : QtLoop) (fs : list QtFrame)
    (more_work : bool) : QtMachine :=
  qt_goto m (if more_work then set_pump l (pump_ScheduleWork (pump l)) else l) fs.

(** One delegate call of a handler. *)
Definition handler_step (m : QtMachine) (pc : HandlerPc) (fs : list QtFrame)
  : option QtMachine :=
  let l := qt_loop m in
  match pc with
  | InWork =>
      if negb (nestable_tasks_allowed l) then Some (qt_goto m l (Handler (InDelayed false) :: fs))
      else
        match DoWork_pass l with
        | (l', WorkAgain) => Some (qt_goto m l' (Handler InWork :: fs))
        | (l', WorkNothing) => Some (qt_goto m l' (Handler (InDelayed false) :: fs))
        | (l', WorkRun t) => qt_start m l' InWork fs t
        end
  | InDelayed more_work =>
      let '(l', next, run) := DoDelayedWork l (qt_now (pump l)) 0 in
      match run with
      | Some t => qt_start m l' (InDelayed more_work) fs t
      | None => if more_work then Some (customEvent_return m l' fs true)
                else Some (qt_goto m l' (Handler (InIdle next) :: fs))
      end
  | InIdle delayed_work_time =>
      match DoIdleWork l with
      | (l', Some t) => qt_start m l' (InIdle delayed_work_time) fs t
      | (l', None) =>
          Some (customEvent_return m
                  (set_pump l' (pump_ScheduleDelayedWork delayed_work_time (pump l'))) fs false)
      end
  | InTimer None =>
      let '(l', next, run) := DoDelayedWork l (qt_now (pump l)) 0 in
      match run with
      | Some t => qt_start m l' (InTimer (Some next)) fs t
      | None => Some (qt_goto m (set_pump l' (pump_ScheduleDelayedWork next (pump l'))) fs)
      end
  | InTimer (Some next) =>
      Some (qt_goto m (set_pump l (pump_ScheduleDelayedWork next (pump l))) fs)
  | InOnIdle =>
      match DoIdleWork l with
      | (l', Some t) => qt_start m l' InOnIdle fs t
      | (l', None) => Some (qt_goto m l' fs)
      end
  end.

(** The delegate call in which a task ran returns [true]. *)
Definition task_return (m : QtMachine) (pc : HandlerPc) (fs : list QtFrame) : QtMachine :=
  let l := RunTask_exit (qt_loop m) in
  match pc with
  | InWork => qt_goto m l (Handler (InDelayed true) :: fs)
  | InDelayed _ | InIdle _ => customEvent_return m l fs true
  | InTimer _ => qt_goto m l (Handler pc :: fs)
  | InOnIdle => qt_goto m l fs
  end.

Inductive QtEvent :=
  | QePost (c : Closure) (delay : Z) (nest : bool)   (** from any thread *)
  | QeTick (d : Z)
  | QeUserEvent | QeTimer | QeAboutToBlock           (** dispatched by Qt *)
  | QeNative
  | QeStep                                           (** a handler goes on *)
  | QeModal                                          (** client code calls [exec()] *)
  | QeLoopExit
  | QeReturn                                         (** client code returns *)
  | QeRun (quit_when_idle : bool)
  | QeQuit | QeQuitWhenIdle | QeQuitNow
  | QeSetNestable (allowed : bool).

Definition qt_client (m : QtMachine) : bool :=
  match qt_frames m with Native :: _ | QtTask _ :: _ => true | _ => false end.

(** [None] where the event is not possible, or the process crashes. *)
Definition qt_step (m : QtMachine) (e : QtEvent) : option QtMachine :=
  let l := qt_loop m in
  let client f := if qt_client m then Some (qt_goto m (f l) (qt_frames m)) else None in
  match e with
  | QePost c delay nest =>
      if decide (Int.in_range Int.int64 delay) then
        let '(l', p) := Post l (qt_now (pump l)) c delay nest in
        Some {| qt_loop := l'; qt_frames := qt_frames m;
                qt_posted := qt_posted m ++ option_list p; qt_started := qt_started m |}
      else None
  | QeTick d =>
      if (0 <=? d) && (qt_now (pump l) + d <=? int64_max)
      then Some (qt_goto m (set_pump l (Qt_tick d (pump l))) (qt_frames m)) else None
  | QeUserEvent =>
      match qt_frames m, user_events (pump l) with
      | EventLoop :: _, S n =>
          Some (qt_goto m (set_pump l (with_events (pump l) n)) (Handler InWork :: qt_frames m))
      | _, _ => None
      end
  | QeTimer =>
      match qt_frames m with
      | EventLoop :: _ =>
          if m_timerId (pump l) =? 0 then None
          else Some (qt_goto m (set_pump l (Qt_killTimer (pump l)))
                       (Handler (InTimer None) :: qt_frames m))
      | _ => None
      end
  | QeAboutToBlock =>
      match qt_frames m with
      | EventLoop :: _ => Some (qt_goto m l (Handler InOnIdle :: qt_frames m))
      | _ => None
      end
  | QeNative =>
      match qt_frames m with
      | EventLoop :: _ => Some (qt_goto m l (Native :: qt_frames m))
      | _ => None
      end
  | QeStep =>
      match qt_frames m with Handler pc :: fs => handler_step m pc fs | _ => None end
  | QeModal =>
      if qt_client m then Some (qt_goto m l (EventLoop :: qt_frames m)) else None
  | QeLoopExit =>
      match qt_frames m with
      | [EventLoop] => if qt_quit (pump l) then Some (qt_goto m (AfterRun l) []) else None
      | EventLoop :: fs => Some (qt_goto m l fs)
      | _ => None
      end
  | QeReturn =>
      match qt_frames m with
      | Native :: fs => Some (qt_goto m l fs)
      | QtTask _ :: Handler pc :: fs => Some (task_return m pc fs)
      | _ => None
      end
  | QeRun idle => client (fun l => match BeforeRun l false idle with
                                   | Some l' => AfterRun l' | None => l end)
  | QeQuit => client (fun l => RunLoop_Quit l 0)
  | QeQuitWhenIdle => client QuitWhenIdle
  | QeQuitNow => client QuitNow
  | QeSetNestable b => client (fun l => SetNestableTasksAllowed l b)
  end.

(** A schedule; events that are not possible are skipped. *)
Fixpoint qt_run (m : QtMachine) (es : list QtEvent) : QtMachine :=
  match es with
  | [] => m
  | e :: es' => qt_run (default m (qt_step m e)) es'
  end.

(** ** What keeps the loop awake *)

(** The loop's own consistency under this pump: nothing is ever deferred, since
    the run depth stays one. *)
Record QtLoopOk (l : QtLoop) : Prop := {
  qt_deferred : deferred_non_nestable_work_queue l = [];
  qt_attached : attached (incoming_task_queue l) = true;
  qt_depth : exists r, run_loops l = [r] /\ run_depth r = 1;
  qt_delayed : Forall (fun t => delayed_run_time t <> 0) (delayed_work_queue l);
  qt_timer_ids : 1 <= next_timer_id (pump l)
}.

(** Queued immediate work, or a queue that believes it has woken the pump, comes
    with an undispatched event. *)
Definition work_woken (l : QtLoop) : Prop :=
  work_queue l <> [] \/ incoming_queue (incoming_task_queue l) <> [] \/
  message_loop_scheduled (incoming_task_queue l) = true ->
  (0 < user_events (pump l))%nat.

(** The time of the next delayed task, as [DoDelayedWork] reports it. *)
Definition next_delayed (l : QtLoop) : Z :=
  match delayed_work_queue l with [] => 0 | t :: _ => delayed_run_time t end.

(** Delayed work comes with an event or with a timer that is not late. *)
Definition delay_timed (l : QtLoop) : Prop :=
  delayed_work_queue l <> [] ->
  (0 < user_events (pump l))%nat \/
  (m_timerId (pump l) <> 0 /\ m_timerScheduledTime (pump l) <= next_delayed l).

(** Nothing the two conditions depend on has changed. *)
Record calm (l l' : QtLoop) : Prop := {
  calm_deferred : deferred_non_nestable_work_queue l' = deferred_non_nestable_work_queue l;
  calm_delayed : delayed_work_queue l' = delayed_work_queue l;
  calm_incoming : incoming_task_queue l' = incoming_task_queue l;
  calm_work : work_queue l' = work_queue l;
  calm_runs : run_depth <$> run_loops l' = run_depth <$> run_loops l;
  calm_events : user_events (pump l') = user_events (pump l);
  calm_timer : m_timerId (pump l') = m_timerId (pump l);
  calm_time : m_timerScheduledTime (pump l') = m_timerScheduledTime (pump l);
  calm_ids : next_timer_id (pump l') = next_timer_id (pump l)
}.

Lemma calm_ok l l' : calm l l' -> QtLoopOk l -> QtLoopOk l'.
Proof.
  intros [] [? ? (r & Er & Hr) ? ?]. split; try congruence.
  rewrite Er in calm_runs0. destruct (run_loops l') as [|r' [|]]; try discriminate.
  exists r'. injection calm_runs0. intros. split; congruence.
Qed.

Lemma calm_woken l l' : calm l l' -> work_woken l -> work_woken l'.
Proof.
  intros [] Hw. unfold work_woken. rewrite calm_work0, calm_incoming0. intros H.
  specialize (Hw H). lia.
Qed.

Lemma calm_timed l l' : calm l l' -> delay_timed l -> delay_timed l'.
Proof.
  intros [] Ht. unfold delay_timed, next_delayed. rewrite calm_delayed0, calm_timer0, calm_time0.
  intros H. destruct (Ht H); [left; lia|right; assumption].
Qed.

Lemma calm_next l l' : calm l l' -> next_delayed l' = next_delayed l.
Proof. intros []. unfold next_delayed. rewrite calm_delayed0. reflexivity. Qed.

(** The same, with the permission to nest. *)
Definition quiet (l l' : QtLoop) : Prop :=
  calm l l' /\ nestable_tasks_allowed l' = nestable_tasks_allowed l.

Lemma calm_refl l : calm l l.
Proof. split; reflexivity || lia. Qed.

Lemma quiet_refl l : quiet l l.
Proof. split; [apply calm_refl|reflexivity]. Qed.

Ltac by_calm := (split; [split|]; reflexivity || (cbn; lia)).

Lemma quiet_tick l d : quiet l (set_pump l (Qt_tick d (pump l))).
Proof. by_calm. Qed.

Lemma quiet_quit l : quiet l (set_pump l (Qt_Quit (pump l))).
Proof. by_calm. Qed.

Lemma quiet_QuitNow l : quiet l (QuitNow l).
Proof. unfold QuitNow. destruct (run_loops l); [apply quiet_refl|by_calm]. Qed.

Lemma quiet_trans l1 l2 l3 : quiet l1 l2 -> quiet l2 l3 -> quiet l1 l3.
Proof. intros [[] ?] [[] ?]. split; [split|]; congruence || lia. Qed.

Lemma quiet_QuitWhenIdle l : quiet l (QuitWhenIdle l).
Proof.
  unfold QuitWhenIdle. destruct (run_loops l) eqn:E; [apply quiet_refl|].
  split; [split|]; cbn; rewrite ?E; reflexivity || lia.
Qed.

Lemma quiet_Quit l : quiet l (RunLoop_Quit l 0).
Proof.
  unfold RunLoop_Quit. destruct (run_loops l) as [|r rs] eqn:E; [apply quiet_refl|].
  cbn [lookup list_lookup]. eapply quiet_trans; [|apply quiet_QuitNow].
  split; [split|]; cbn; rewrite ?E; reflexivity || lia.
Qed.

(** A nested run that returns at once. *)
Lemma quiet_run l idle :
  quiet l (match BeforeRun l false idle with Some l' => AfterRun l' | None => l end).
Proof.
  unfold BeforeRun, AfterRun. cbn [run_loops set_run_loops tail].
  assert (Hq : quiet l (set_run_loops (set_run_loops l
    (RunLoop_ (match run_loops l with r :: _ => run_depth r + 1 | [] => 1 end) false idle
       :: run_loops l)) (run_loops l))) by by_calm.
  destruct (run_loops l) as [|r rs] eqn:E; [exact Hq|].
  destruct (quit_called r); [|exact Hq]. eapply quiet_trans; [exact Hq|apply quiet_QuitNow].
Qed.

Lemma calm_exit l : calm l (RunTask_exit l).
Proof. split; reflexivity || (cbn; lia). Qed.

Lemma calm_enter l t l' :
  RunTask_enter l t = Some l' -> calm l l' /\ nestable_tasks_allowed l' = false.
Proof.
  unfold RunTask_enter. destruct (nestable_tasks_allowed l); [|discriminate]. cbn [negb].
  destruct (is_high_res t).
  - destruct (0 <=? _); [|discriminate]. intros [= <-]. by_calm.
  - intros [= <-]. by_calm.
Qed.

(** With nothing deferred, [DoIdleWork] never runs a task. *)
Lemma DoIdleWork_quiet l :
  deferred_non_nestable_work_queue l = [] ->
  exists l', DoIdleWork l = (l', None) /\ quiet l l'.
Proof.
  intros Hd. unfold DoIdleWork, ProcessNextDelayedNonNestableTask. rewrite Hd.
  set (l1 := match run_loops l with
             | r :: _ => if quit_when_idle_received r then set_pump l (pump_Quit (pump l)) else l
             | [] => l end).
  assert (H1 : quiet l l1).
  { unfold l1. destruct (run_loops l) as [|r rs]; [apply quiet_refl|].
    destruct (quit_when_idle_received r); [apply quiet_quit|apply quiet_refl]. }
  exists (if negb (Bool.eqb (0 <? pending_high_res_tasks l1) (in_high_res_mode l1))
     then set_high_res l1 (pending_high_res_tasks l1) (0 <? pending_high_res_tasks l1) else l1).
  split; [destruct (negb _); reflexivity|]. eapply quiet_trans; [exact H1|].
  destruct (negb _); [by_calm|apply quiet_refl].
Qed.

Lemma depth_one l : QtLoopOk l -> current_depth l = 1.
Proof. intros [_ _ (r & Er & Hr) _ _]. unfold current_depth. rewrite Er. exact Hr. Qed.

Lemma push_nonempty q t : DelayedTaskQueue_push q t <> [].
Proof. destruct q; cbn; [discriminate|]. destruct (PendingTask_lt _ _); discriminate. Qed.

Lemma push_Forall (Pt : PendingTask -> Prop) q t :
  Forall Pt q -> Pt t -> Forall Pt (DelayedTaskQueue_push q t).
Proof.
  induction 1; cbn; intros Ht; [repeat constructor; assumption|].
  destruct (PendingTask_lt _ _); repeat constructor; auto.
Qed.

Lemma ScheduleDelayed_ids t p : 1 <= next_timer_id p -> 1 <= next_timer_id (Qt_ScheduleDelayedWork t p).
Proof. intros. unfold Qt_ScheduleDelayedWork. repeat case_match; cbn; lia. Qed.

(** [DoWork], on the loop's queues. *)
Lemma DoWork_inner_qt w l l' r :
  QtLoopOk l -> DoWork_inner l w = (l', r) ->
  QtLoopOk l' /\ nestable_tasks_allowed l' = nestable_tasks_allowed l /\
  incoming_task_queue l' = incoming_task_queue l.
Proof.
  revert l. induction w as [|t w IH]; intros l Hok.
  { cbn. intros [= <- <-]. split; [destruct Hok; split; assumption|split; reflexivity]. }
  cbn [DoWork_inner]. destruct (TimeTicks.is_null (delayed_run_time t)) eqn:Et; cbn [negb].
  - unfold DeferOrRunPendingTask. rewrite (depth_one l Hok), orb_true_r.
    intros [= <- <-]. split; [destruct Hok; split; assumption|split; reflexivity].
  - intros E.
    set (l1 := AddToDelayedWorkQueue l t) in *.
    assert (Hok1 : QtLoopOk l1).
    { destruct Hok. split; try assumption. apply push_Forall; [assumption|].
      intros Hz. rewrite Hz in Et. discriminate. }
    destruct (match delayed_work_queue l1 with top :: _ => _ | [] => _ end).
    + apply IH in E as (? & ? & ?); [split; [assumption|split; assumption]|].
      destruct Hok1. split; try assumption. apply ScheduleDelayed_ids. assumption.
    + apply IH in E as (? & ? & ?); [split; [assumption|split; assumption]|assumption].
Qed.

Lemma ReloadWorkQueue_qt l :
  QtLoopOk l -> QtLoopOk (ReloadWorkQueue l) /\
    nestable_tasks_allowed (ReloadWorkQueue l) = nestable_tasks_allowed l /\
    (work_queue (ReloadWorkQueue l) = [] -> work_woken (ReloadWorkQueue l)).
Proof.
  intros Hok. unfold ReloadWorkQueue, Incoming_ReloadWorkQueue.
  destruct (work_queue l) eqn:Ew.
  - destruct (incoming_queue (incoming_task_queue l)) eqn:Ei.
    + split; [destruct Hok; split; assumption|]. split; [reflexivity|].
      intros _ [H|[H|H]]; cbn in H; congruence.
    + split; [destruct Hok; split; assumption|]. split; [reflexivity|]. discriminate.
  - split; [assumption|]. split; [reflexivity|]. congruence.
Qed.

Lemma DoWork_pass_qt l l' r :
  QtLoopOk l -> DoWork_pass l = (l', r) ->
  QtLoopOk l' /\ nestable_tasks_allowed l' = nestable_tasks_allowed l /\
  (r = WorkNothing -> work_woken l').
Proof.
  intros Hok. destruct (ReloadWorkQueue_qt l Hok) as (Hok1 & Hn & Hw). unfold DoWork_pass.
  destruct (work_queue (ReloadWorkQueue l)) as [|t w] eqn:Ew.
  - intros [= <- <-]. auto.
  - destruct (DoWork_inner _ _) as [l2 [u|]] eqn:E; intros [= <- <-];
      destruct (DoWork_inner_qt _ _ _ _ Hok1 E) as (? & Hn2 & _);
      (split; [assumption|]); (split; [congruence|discriminate]).
Qed.

(** [DoDelayedWork] reports the next delayed task left. *)
Lemma DoDelayedWork_qt l now l' next run :
  QtLoopOk l -> DoDelayedWork l now 0 = (l', next, run) ->
  QtLoopOk l' /\ nestable_tasks_allowed l' = nestable_tasks_allowed l /\
  (work_woken l -> work_woken l') /\
  (if nestable_tasks_allowed l then next = next_delayed l' else run = None).
Proof.
  intros Hok. unfold DoDelayedWork.
  destruct (delayed_work_queue l) as [|t rest] eqn:Ed.
  { intros [= <- <- <-]. split; [destruct Hok; split; assumption|]. split; [reflexivity|].
    split; [auto|]. unfold next_delayed. cbn. rewrite Ed. destruct (nestable_tasks_allowed l); reflexivity. }
  destruct (nestable_tasks_allowed l) eqn:En; cbn [negb].
  2: { intros [= <- <- <-]. split; [destruct Hok; split; assumption|]. split; [exact En|].
    split; [auto|reflexivity]. }
  set (l1 := if recent_time l <? delayed_run_time t then set_recent l now else l).
  assert (Hl1 : quiet l l1) by (unfold l1; destruct (_ <? _); [by_calm|apply quiet_refl]).
  destruct (recent_time l1 <? delayed_run_time t).
  - intros [= <- <- <-]. destruct Hl1 as [Hc Hn]. split; [eapply calm_ok; eassumption|].
    split; [congruence|]. split; [eapply calm_woken; eassumption|].
    rewrite (calm_next _ _ Hc). unfold next_delayed. rewrite Ed. reflexivity.
  - unfold DeferOrRunPendingTask.
    change (current_depth (set_delayed l1 rest)) with (current_depth l1).
    rewrite (depth_one l1) by (destruct Hl1; eapply calm_ok; eassumption). rewrite orb_true_r.
    intros [= <- <- <-]. destruct Hl1 as [Hc Hn].
    pose proof (calm_ok _ _ Hc Hok) as [H1 H2 H3 H4 H5].
    split; [split; try assumption|].
    { cbn. rewrite (calm_delayed _ _ Hc), Ed in H4. inversion H4. assumption. }
    split; [cbn; congruence|]. split; [apply (calm_woken _ _ Hc)|].
    unfold next_delayed. cbn. destruct rest; reflexivity.
Qed.

(** Scheduling the reported time leaves the delayed work timed. *)
Lemma Schedule_timed l next :
  QtLoopOk l -> next = next_delayed l ->
  let l' := set_pump l (pump_ScheduleDelayedWork next (pump l)) in
  QtLoopOk l' /\ delay_timed l' /\ (work_woken l -> work_woken l').
Proof.
  intros Hok -> l'.
  assert (He : user_events (pump l') = user_events (pump l))
    by (cbn; unfold Qt_ScheduleDelayedWork; repeat case_match; reflexivity).
  split; [|split].
  - destruct Hok. split; try assumption. apply ScheduleDelayed_ids. assumption.
  - intros Hne. change (delayed_work_queue l') with (delayed_work_queue l) in Hne.
    change (next_delayed l') with (next_delayed l). right.
    destruct Hok as [_ _ _ Hd Hid]. cbn. unfold next_delayed.
    destruct (delayed_work_queue l) as [|t rest]; [congruence|]. inversion_clear Hd.
    unfold Qt_ScheduleDelayedWork, TimeTicks.is_null.
    rewrite (proj2 (Z.eqb_neq _ _)) by assumption.
    destruct (Z.eqb_spec (m_timerId (pump l)) 0); cbn [orb]; [cbn; lia|].
    destruct (Z.ltb_spec (delayed_run_time t) (m_timerScheduledTime (pump l))); cbn; lia.
  - unfold work_woken. rewrite He. exact (fun H => H).
Qed.

(** A post wakes the pump unless it is awake. *)
Lemma Post_qt l now c delay nest l' p :
  QtLoopOk l -> Post l now c delay nest = (l', p) ->
  QtLoopOk l' /\ nestable_tasks_allowed l' = nestable_tasks_allowed l /\
  (work_woken l -> work_woken l') /\ (delay_timed l -> delay_timed l') /\
  next_delayed l' = next_delayed l.
Proof.
  intros [Hd Ha Hr Hdl Hid]. unfold Post, AddToIncomingQueue, PostPendingTask.
  assert (Hawake : forall q,
    always_schedule_work q || (negb (message_loop_scheduled q)
       && match incoming_queue q with [] => true | _ => false end) = false ->
    incoming_queue q <> [] \/ message_loop_scheduled q = true).
  { intros q. destruct (message_loop_scheduled q); [auto|].
    destruct (incoming_queue q); [|left; discriminate].
    rewrite orb_true_r. discriminate. }
  destruct (needs_high_res delay); cbn; rewrite Ha; cbn;
    match goal with |- context [always_schedule_work ?q || ?b] =>
      destruct (always_schedule_work q || b) eqn:Ew end; intros [= <- <-];
    (split; [split; first [assumption|reflexivity]|]); (split; [reflexivity|]);
    first [ split; [intros _ _; cbn; lia|]; split; [intros _ _; left; cbn; lia|reflexivity]
          | split; [|split; [exact (fun H => H)|reflexivity]];
            intros Hw _; apply Hw; right; apply Hawake; exact Ew ].
Qed.

(** *** The invariant *)

Definition plain (f : QtFrame) : Prop := f = EventLoop \/ f = Native.
Definition taskless (f : QtFrame) : Prop := match f with QtTask _ => False | _ => True end.

(** What a handler owes at each of its points. A handler that will post another
    event owes nothing. *)
Definition handler_owes (pc : HandlerPc) (l : QtLoop) : Prop :=
  match pc with
  | InWork | InDelayed true => True
  | InDelayed false | InTimer None => work_woken l
  | InIdle next | InTimer (Some next) => work_woken l /\ next = next_delayed l
  | InOnIdle => work_woken l /\ delay_timed l
  end.

(** The same while a task it started runs, below the frames [ext]. *)
Definition task_owes (ext : list QtFrame) (pc : HandlerPc) (l : QtLoop) : Prop :=
  match pc with
  | InWork | InDelayed _ | InIdle _ => True
  | InTimer (Some next) => ext = [] /\ work_woken l /\ next = next_delayed l
  | InTimer None | InOnIdle => False
  end.

Inductive stack_ok (l : QtLoop) : list QtFrame -> Prop :=
  | stack_idle fs :
      Forall plain fs -> nestable_tasks_allowed l = true -> work_woken l -> delay_timed l ->
      stack_ok l fs
  | stack_handler pc fs :
      Forall plain fs -> nestable_tasks_allowed l = true -> handler_owes pc l ->
      stack_ok l (Handler pc :: fs)
  | stack_task ext t pc fs :
      Forall taskless ext -> Forall plain fs -> nestable_tasks_allowed l = false ->
      task_owes ext pc l -> stack_ok l (ext ++ QtTask t :: Handler pc :: fs).

Definition QtOk (m : QtMachine) : Prop :=
  qt_frames m = [] \/ (QtLoopOk (qt_loop m) /\ stack_ok (qt_loop m) (qt_frames m)).

Lemma owes_mono pc l l' :
  (work_woken l -> work_woken l') -> (delay_timed l -> delay_timed l') ->
  next_delayed l' = next_delayed l -> handler_owes pc l -> handler_owes pc l'.
Proof. intros Hw Ht Hn. destruct pc as [|[]| |[]|]; cbn; rewrite ?Hn; tauto. Qed.

Lemma task_owes_mono ext pc l l' :
  (work_woken l -> work_woken l') -> next_delayed l' = next_delayed l ->
  task_owes ext pc l -> task_owes ext pc l'.
Proof. intros Hw Hn. destruct pc as [| | |[]|]; cbn; rewrite ?Hn; tauto. Qed.

Lemma stack_mono l l' fs :
  nestable_tasks_allowed l' = nestable_tasks_allowed l ->
  (work_woken l -> work_woken l') -> (delay_timed l -> delay_timed l') ->
  next_delayed l' = next_delayed l -> stack_ok l fs -> stack_ok l' fs.
Proof.
  intros Hn Hw Ht Hd [].
  - apply stack_idle; auto. congruence.
  - apply stack_handler; [auto|congruence|]. eapply owes_mono; eauto.
  - apply stack_task; [auto|auto|congruence|]. eapply task_owes_mono; eauto.
Qed.

Lemma quiet_stack l l' fs : quiet l l' -> stack_ok l fs -> stack_ok l' fs.
Proof.
  intros [Hc Hn]. apply stack_mono; [exact Hn|apply calm_woken|apply calm_timed|apply calm_next];
    exact Hc.
Qed.

Lemma quiet_QtOk m l' :
  quiet (qt_loop m) l' -> QtOk m -> QtOk (qt_goto m l' (qt_frames m)).
Proof.
  intros Hq [H|[Hok Hs]]; [left; exact H|right]. split.
  - destruct Hq. eapply calm_ok; eassumption.
  - eapply quiet_stack; eassumption.
Qed.

(** [postEvent] meets every debt. *)
Lemma posted_idle l fs :
  Forall plain fs -> nestable_tasks_allowed l = true ->
  stack_ok (set_pump l (pump_ScheduleWork (pump l))) fs.
Proof.
  intros. apply stack_idle; try assumption; [intros _|intros _; left]; cbn; lia.
Qed.

Lemma QtLoopOk_post_event l : QtLoopOk l -> QtLoopOk (set_pump l (pump_ScheduleWork (pump l))).
Proof. intros []. split; assumption. Qed.

(** The stack when the top frame is known. *)
Lemma stack_top_plain l f fs :
  plain f -> stack_ok l (f :: fs) ->
  (Forall plain (f :: fs) /\ nestable_tasks_allowed l = true /\ work_woken l /\ delay_timed l) \/
  (exists ext t pc fs', f :: fs = (f :: ext) ++ QtTask t :: Handler pc :: fs' /\
     Forall taskless ext /\ Forall plain fs' /\ nestable_tasks_allowed l = false /\
     task_owes (f :: ext) pc l).
Proof.
  intros Hf Hs. inversion Hs as [? H1 H2 H3 H4|pc fs1 H1 H2 H3|ext t pc fs1 H1 H2 H3 H4 H5].
  - left. auto.
  - destruct Hf; congruence.
  - right. destruct ext as [|g ext]; [destruct Hf; subst; discriminate|].
    injection H5 as -> <-. inversion_clear H1. exists ext, t, pc, fs1. auto.
Qed.

Lemma stack_top_handler l pc fs :
  stack_ok l (Handler pc :: fs) ->
  (Forall plain fs /\ nestable_tasks_allowed l = true /\ handler_owes pc l) \/
  (exists ext t pc' fs', fs = ext ++ QtTask t :: Handler pc' :: fs' /\
     Forall taskless ext /\ Forall plain fs' /\ nestable_tasks_allowed l = false /\
     task_owes (Handler pc :: ext) pc' l).
Proof.
  intros Hs. inversion Hs as [? H1 H2 H3 H4|pc1 fs1 H1 H2 H3|ext t pc1 fs1 H1 H2 H3 H4 H5].
  - inversion_clear H1 as [|? ? [Hp|Hp] _]; discriminate.
  - left. auto.
  - right. destruct ext as [|g ext]; [discriminate|]. injection H5 as -> <-.
    inversion_clear H1. exists ext, t, pc1, fs1. auto.
Qed.

Lemma stack_top_task l t fs :
  stack_ok l (QtTask t :: fs) ->
  exists pc fs', fs = Handler pc :: fs' /\ Forall plain fs' /\
    nestable_tasks_allowed l = false /\ task_owes [] pc l.
Proof.
  intros Hs. inversion Hs as [? H1 H2 H3 H4|pc1 fs1 H1 H2 H3|ext u pc1 fs1 H1 H2 H3 H4 H5].
  - inversion_clear H1 as [|? ? [Hp|Hp] _]; discriminate.
  - destruct ext as [|g ext].
    + injection H5 as -> <-. eauto 6.
    + injection H5 as -> <-. inversion_clear H1 as [|? ? Hg]. destruct Hg.
Qed.

(** Under a task of the first three kinds of delegate call, frames come and go
    freely. *)
Lemma task_owes_ext ext ext' pc l l' :
  ext <> [] -> task_owes ext pc l -> task_owes ext' pc l'.
Proof. destruct pc as [| | |[]|]; cbn; tauto. Qed.

Definition qt_disciplined (m : QtMachine) (e : QtEvent) : Prop :=
  match e with
  | QeModal => match qt_frames m with QtTask _ :: Handler (InTimer _) :: _ => False | _ => True end
  | QeSetNestable _ => False
  | _ => True
  end.

Lemma qt_start_ok m l pc fs t m' :
  QtLoopOk l -> Forall plain fs ->
  (forall l', calm l l' -> task_owes [] pc l') ->
  qt_start m l pc fs t = Some m' -> QtOk m'.
Proof.
  intros Hok Hfs Hpc. unfold qt_start.
  destruct (RunTask_enter l t) as [l'|] eqn:E; [|discriminate]. intros [= <-].
  apply calm_enter in E as [Hc Hn]. right. split; [eapply calm_ok; eassumption|].
  apply (stack_task _ [] t pc fs); auto.
Qed.

(** A handler goes on, at the bottom of which no task runs. *)
Lemma handler_step_ok m pc fs m' :
  QtLoopOk (qt_loop m) -> Forall plain fs -> nestable_tasks_allowed (qt_loop m) = true ->
  handler_owes pc (qt_loop m) -> handler_step m pc fs = Some m' -> QtOk m'.
Proof.
  intros Hok Hfs Hn Hpc. unfold handler_step.
  assert (Hdone : forall l, QtLoopOk l -> nestable_tasks_allowed l = true -> work_woken l ->
    delay_timed l -> QtOk (qt_goto m l fs)).
  { intros. right. split; [assumption|]. apply stack_idle; assumption. }
  assert (Hgoto : forall l pc, QtLoopOk l -> nestable_tasks_allowed l = true ->
    handler_owes pc l -> QtOk (qt_goto m l (Handler pc :: fs))).
  { intros. right. split; [assumption|]. apply stack_handler; assumption. }
  destruct pc as [|more|next|[next|]|].
  - rewrite Hn. cbn [negb]. destruct (DoWork_pass (qt_loop m)) as [l' r] eqn:E.
    destruct (DoWork_pass_qt _ _ _ Hok E) as (Hok' & Hn' & Hw). rewrite Hn in Hn'.
    destruct r; try (intros [= <-]; apply Hgoto; cbn; auto).
    apply qt_start_ok; cbn; auto.
  - destruct (DoDelayedWork _ _ _) as [[l' next] run] eqn:E.
    destruct (DoDelayedWork_qt _ _ _ _ _ Hok E) as (Hok' & Hn' & Hw & Hnext).
    rewrite Hn in *. destruct run as [t|]; [apply qt_start_ok; cbn; auto|].
    destruct more; intros [= <-].
    + right. split; [apply QtLoopOk_post_event; assumption|apply posted_idle; assumption].
    + apply Hgoto; cbn; auto.
  - destruct (DoIdleWork_quiet _ (qt_deferred _ Hok)) as (l' & -> & Hq). intros [= <-].
    destruct Hpc as [Hw ->]. destruct Hq as [Hc Hn'].
    destruct (Schedule_timed l' (next_delayed (qt_loop m))) as (H1 & H2 & H3);
      [eapply calm_ok; eassumption|symmetry; apply calm_next; assumption|].
    apply Hdone; auto; [rewrite <- Hn; exact Hn'|]. apply H3. eapply calm_woken; eassumption.
  - intros [= <-]. destruct Hpc as [Hw Hnext].
    destruct (Schedule_timed _ _ Hok Hnext) as (H1 & H2 & H3). apply Hdone; auto.
  - destruct (DoDelayedWork _ _ _) as [[l' next] run] eqn:E.
    destruct (DoDelayedWork_qt _ _ _ _ _ Hok E) as (Hok' & Hn' & Hw & Hnext).
    rewrite Hn in *. cbn in Hpc. destruct run as [t|].
    + apply qt_start_ok; auto. intros l2 Hc. split; [reflexivity|].
      split; [eapply calm_woken; eauto|]. rewrite (calm_next _ _ Hc). exact Hnext.
    + intros [= <-]. destruct (Schedule_timed _ _ Hok' Hnext) as (H1 & H2 & H3).
      apply Hdone; auto.
  - destruct (DoIdleWork_quiet _ (qt_deferred _ Hok)) as (l' & -> & [Hc Hn']). intros [= <-].
    destruct Hpc as [Hw Ht]. apply Hdone; [eapply calm_ok; eassumption|congruence| |];
      [eapply calm_woken|eapply calm_timed]; eassumption.
Qed.

(** A handler of a nested event loop, above a running task: no task can start. *)
Lemma nested_handler_ok m pc fs m' :
  QtLoopOk (qt_loop m) -> nestable_tasks_allowed (qt_loop m) = false ->
  handler_step m pc fs = Some m' ->
  QtLoopOk (qt_loop m') /\ nestable_tasks_allowed (qt_loop m') = false /\
  (qt_frames m' = fs \/ exists pc', qt_frames m' = Handler pc' :: fs).
Proof.
  intros Hok Hn. unfold handler_step.
  assert (Hs : forall l t, QtLoopOk l -> QtLoopOk (set_pump l (pump_ScheduleDelayedWork t (pump l)))).
  { intros l t []. split; try assumption. apply ScheduleDelayed_ids. assumption. }
  destruct pc as [|more|next|[next|]|].
  - rewrite Hn. cbn [negb]. intros [= <-]. cbn. eauto.
  - destruct (DoDelayedWork _ _ _) as [[l' next] run] eqn:E.
    destruct (DoDelayedWork_qt _ _ _ _ _ Hok E) as (Hok' & Hn' & _ & Hnext).
    rewrite Hn in *. subst run. destruct more; intros [= <-]; cbn; [|eauto].
    split; [apply QtLoopOk_post_event; assumption|auto].
  - destruct (DoIdleWork_quiet _ (qt_deferred _ Hok)) as (l' & -> & [Hc Hn']). intros [= <-]. cbn.
    split; [apply Hs; eapply calm_ok; eassumption|]. split; [congruence|auto].
  - intros [= <-]. cbn. auto.
  - destruct (DoDelayedWork _ _ _) as [[l' next] run] eqn:E.
    destruct (DoDelayedWork_qt _ _ _ _ _ Hok E) as (Hok' & Hn' & _ & Hnext).
    rewrite Hn in *. subst run. intros [= <-]. cbn. auto.
  - destruct (DoIdleWork_quiet _ (qt_deferred _ Hok)) as (l' & -> & [Hc Hn']). intros [= <-]. cbn.
    split; [eapply calm_ok; eassumption|]. split; [congruence|auto].
Qed.

Lemma stack_pop l f fs : plain f -> stack_ok l (f :: fs) -> stack_ok l fs.
Proof.
  intros Hf Hs. destruct (stack_top_plain _ _ _ Hf Hs)
    as [(H1 & H2 & H3 & H4)|(ext & t & pc & fs' & E & H1 & H2 & H3 & H4)].
  - inversion_clear H1. apply stack_idle; assumption.
  - injection E as ->. apply stack_task; try assumption.
    eapply task_owes_ext; [|exact H4]. discriminate.
Qed.

(** Entering a frame [g] from a plain frame [f]. *)
Lemma stack_push l l' f fs g :
  plain f -> taskless g -> stack_ok l (f :: fs) ->
  nestable_tasks_allowed l' = nestable_tasks_allowed l ->
  (Forall plain (f :: fs) -> nestable_tasks_allowed l' = true -> work_woken l ->
   delay_timed l -> stack_ok l' (g :: f :: fs)) ->
  stack_ok l' (g :: f :: fs).
Proof.
  intros Hf Hg Hs Hn Hidle. destruct (stack_top_plain _ _ _ Hf Hs)
    as [(H1 & H2 & H3 & H4)|(ext & t & pc & fs' & E & H1 & H2 & H3 & H4)].
  - apply Hidle; auto. congruence.
  - rewrite E. apply (stack_task l' (g :: f :: ext) t pc fs'); [|assumption|congruence|].
    + constructor; [exact Hg|]. constructor; [destruct Hf; subst f; exact I|assumption].
    + eapply task_owes_ext; [|exact H4]. discriminate.
Qed.

Lemma task_return_ok m pc fs :
  QtLoopOk (qt_loop m) -> Forall plain fs -> task_owes [] pc (qt_loop m) ->
  QtOk (task_return m pc fs).
Proof.
  intros Hok Hfs Hpc. pose proof (calm_exit (qt_loop m)) as Hc.
  pose proof (calm_ok _ _ Hc Hok) as Hok'.
  unfold task_return. right. destruct pc as [|more|next|[next|]|]; try destruct Hpc.
  - split; [exact Hok'|]. apply stack_handler; [assumption|reflexivity|exact I].
  - split; [apply QtLoopOk_post_event; exact Hok'|apply posted_idle; [assumption|reflexivity]].
  - split; [apply QtLoopOk_post_event; exact Hok'|apply posted_idle; [assumption|reflexivity]].
  - split; [exact Hok'|]. apply stack_handler; [assumption|reflexivity|]. cbn.
    rewrite (calm_next _ _ Hc). split; [eapply calm_woken; [exact Hc|]|]; tauto.
Qed.

(** Qt's event loop hands control to a handler. *)
Lemma qt_dispatch_ok m e m' :
  QtLoopOk (qt_loop m) -> stack_ok (qt_loop m) (qt_frames m) ->
  match e with QeUserEvent | QeTimer | QeAboutToBlock | QeNative => True | _ => False end ->
  qt_step m e = Some m' -> QtOk m'.
Proof.
  intros Hok Hs He. assert (Hp : plain EventLoop) by (left; reflexivity).
  destruct e; try destruct He; unfold qt_step;
    destruct (qt_frames m) as [|[] fs] eqn:Ef; try discriminate.
  - destruct (user_events _) as [|n]; [discriminate|]. intros [= <-].
    right. split; [destruct Hok; split; assumption|].
    eapply stack_push; [exact Hp|exact I|exact Hs|reflexivity|].
    intros. apply stack_handler; [assumption..|exact I].
  - destruct (_ =? 0); [discriminate|]. intros [= <-].
    right. split; [destruct Hok; split; assumption|].
    eapply stack_push; [exact Hp|exact I|exact Hs|reflexivity|].
    intros. apply stack_handler; assumption.
  - intros [= <-]. right. split; [exact Hok|].
    eapply stack_push; [exact Hp|exact I|exact Hs|reflexivity|].
    intros. apply stack_handler; [assumption..|split; assumption].
  - intros [= <-]. right. split; [exact Hok|].
    eapply stack_push; [exact Hp|exact I|exact Hs|reflexivity|].
    intros. apply stack_idle; try assumption. constructor; [right; reflexivity|assumption].
Qed.

(** The innermost frame goes on, nests an event loop, or ends. *)
Lemma qt_frame_ok m e m' :
  QtLoopOk (qt_loop m) -> stack_ok (qt_loop m) (qt_frames m) -> qt_disciplined m e ->
  match e with QeStep | QeModal | QeLoopExit | QeReturn => True | _ => False end ->
  qt_step m e = Some m' -> QtOk m'.
Proof.
  intros Hok Hs Hd He. destruct e; try destruct He; cbn [qt_disciplined] in Hd; unfold qt_step.
  - destruct (qt_frames m) as [|[|pc| |] fs] eqn:Ef; try discriminate. intros E.
    destruct (stack_top_handler _ _ _ Hs)
      as [(H1 & H2 & H3)|(ext & t & pc' & fs' & -> & H1 & H2 & H3 & H4)];
      [eapply handler_step_ok; eassumption|].
    destruct (nested_handler_ok _ _ _ _ Hok H3 E) as (H5 & H6 & [H7|[pc2 H7]]); right;
      (split; [assumption|]); rewrite H7.
    + apply stack_task; try assumption. eapply task_owes_ext; [|exact H4]. discriminate.
    + apply (stack_task _ (Handler pc2 :: ext)); try assumption; [constructor; [exact I|assumption]|].
      eapply task_owes_ext; [|exact H4]. discriminate.
  - unfold qt_client. destruct (qt_frames m) as [|[|pc| |t] fs] eqn:Ef; try discriminate;
      intros [= <-]; right; (split; [exact Hok|]).
    + eapply stack_push; [right; reflexivity|exact I|exact Hs|reflexivity|].
      intros. apply stack_idle; try assumption. constructor; [left; reflexivity|assumption].
    + destruct (stack_top_task _ _ _ Hs) as (pc & fs' & -> & H1 & H2 & H3).
      apply (stack_task _ [EventLoop]); try assumption; [repeat constructor|].
      destruct pc as [| | |[]|]; cbn in H3 |- *; tauto.
  - destruct (qt_frames m) as [|[|pc| |t] [|f fs]] eqn:Ef; try discriminate.
    + destruct (qt_quit _); [|discriminate]. intros [= <-]. left. reflexivity.
    + intros [= <-]. right. split; [exact Hok|].
      apply (stack_pop _ EventLoop); [left; reflexivity|assumption].
  - destruct (qt_frames m) as [|[|pc| |t] fs] eqn:Ef; try discriminate.
    + intros [= <-]. right. split; [exact Hok|].
      apply (stack_pop _ Native); [right; reflexivity|assumption].
    + destruct (stack_top_task _ _ _ Hs) as (pc & fs' & -> & H1 & H2 & H3).
      intros [= <-]. apply task_return_ok; assumption.
Qed.

Lemma qt_step_ok m e m' :
  QtOk m -> qt_disciplined m e -> qt_step m e = Some m' -> QtOk m'.
Proof.
  intros Hm Hd E. pose proof Hm as [Hnil|[Hok Hs]].
  { (* the outermost loop has returned *)
    revert E. destruct e; unfold qt_step, qt_client; rewrite ?Hnil; try discriminate.
    - destruct (decide _); [|discriminate]. destruct (Post _ _ _ _ _). intros [= <-]. left. reflexivity.
    - destruct (_ && _); [|discriminate]. intros [= <-]. left. reflexivity. }
  assert (Hclient : forall f, (forall l, quiet l (f l)) ->
    (if qt_client m then Some (qt_goto m (f (qt_loop m)) (qt_frames m)) else None) = Some m' ->
    QtOk m').
  { intros f Hf. destruct (qt_client m); [|discriminate]. intros [= <-].
    apply quiet_QtOk; [apply Hf|exact Hm]. }
  destruct e;
    try (apply (fun H => qt_dispatch_ok m _ m' Hok Hs H E); exact I);
    try (apply (fun H => qt_frame_ok m _ m' Hok Hs Hd H E); exact I);
    cbn [qt_step] in E.
  - destruct (decide _); [|discriminate]. destruct (Post _ _ _ _ _) as [l' p] eqn:Ep.
    destruct (Post_qt _ _ _ _ _ _ _ Hok Ep) as (Hok' & Hn & Hw & Ht & Hx). injection E as <-.
    right. split; [exact Hok'|]. eapply stack_mono; eassumption.
  - destruct (_ && _); [|discriminate]. injection E as <-. apply quiet_QtOk; [apply quiet_tick|exact Hm].
  - apply (Hclient (fun l => match BeforeRun l false quit_when_idle with
                             | Some l' => AfterRun l' | None => l end)); [|exact E].
    intros l. apply quiet_run.
  - apply (Hclient (fun l => RunLoop_Quit l 0)); [apply quiet_Quit|exact E].
  - apply (Hclient QuitWhenIdle); [apply quiet_QuitWhenIdle|exact E].
  - apply (Hclient QuitNow); [apply quiet_QuitNow|exact E].
  - destruct Hd.
Qed.

(** Schedules that never nest an event loop in a task of [timerEvent], nor allow
    nested tasks. *)
Inductive qt_reachable : QtMachine -> Prop :=
  | qt_reachable_new now : 0 <= now <= int64_max -> qt_reachable (QtMachine_new now)
  | qt_reachable_step m e m' :
      qt_reachable m -> qt_disciplined m e -> qt_step m e = Some m' -> qt_reachable m'.

Lemma QtMachine_new_ok now : QtOk (QtMachine_new now).
Proof.
  right. split.
  - split; try reflexivity; [eexists; split; reflexivity|apply Forall_nil_2].
  - apply stack_idle; [repeat constructor; left; reflexivity|reflexivity| |].
    + intros [H|[H|H]]; cbn in H; congruence.
    + intros H. cbn in H. congruence.
Qed.

Lemma qt_reachable_ok m : qt_reachable m -> QtOk m.
Proof. induction 1; [apply QtMachine_new_ok|eapply qt_step_ok; eassumption]. Qed.

(** C23: when the outermost event loop is about to dispatch, no work is
    forgotten: queued immediate work comes with an undispatched user event, and
    delayed work with a user event or a running timer that is due no later than
    the first delayed task. This holds on every schedule of posts, dispatches,
    native handlers, nested event loops and quits, provided no nested event loop
    runs inside a task that [timerEvent] started. *)
Theorem qt_pump_forgets_no_work m (Hm : qt_reachable m) (Hidle : qt_frames m = [EventLoop]) :
  let l := qt_loop m in
  (work_queue l <> [] \/ incoming_queue (incoming_task_queue l) <> [] ->
   (0 < user_events (pump l))%nat) /\
  deferred_non_nestable_work_queue l = [] /\
  forall t rest, delayed_work_queue l = t :: rest ->
    (0 < user_events (pump l))%nat \/
    (m_timerId (pump l) <> 0 /\ m_timerScheduledTime (pump l) <= delayed_run_time t).
Proof.
  destruct (qt_reachable_ok m Hm) as [H|[Hok Hs]]; [congruence|]. rewrite Hidle in Hs.
  destruct (stack_top_plain _ _ _ (or_introl eq_refl) Hs)
    as [(_ & _ & Hw & Ht)|(ext & t & pc & fs' & E & _)].
  - cbn zeta. split; [intros [H|H]; apply Hw; auto|]. split; [apply Hok|].
    intros t rest E. unfold delay_timed, next_delayed in Ht. rewrite E in Ht. apply Ht. discriminate.
  - destruct ext as [|? []]; discriminate.
Qed.

(** A delayed and an immediate task are posted, the event is dispatched up to
    the first task, which opens a modal dialog and closes it. *)
Definition qt_sample : list QtEvent :=
  [QePost 1%nat 5000 true; QePost 2%nat 0 true; QePost 3%nat 0 true; QeUserEvent; QeStep; QeModal;
   QeAboutToBlock; QeStep; QeLoopExit; QeReturn; QeStep].

Lemma qt_run_reachable es m :
  qt_reachable m ->
  (forall es1 e es2, es = es1 ++ e :: es2 -> qt_disciplined (qt_run m es1) e) ->
  qt_reachable (qt_run m es).
Proof.
  revert m. induction es as [|e es IH]; intros m Hm Hd; [exact Hm|]. cbn [qt_run]. apply IH.
  - destruct (qt_step m e) as [m'|] eqn:E; [|exact Hm].
    eapply qt_reachable_step; [exact Hm|exact (Hd [] e es eq_refl)|exact E].
  - intros es1 e' es2 ->. exact (Hd (e :: es1) e' es2 eq_refl).
Qed.

Lemma qt_pump_forgets_no_work_witness :
  let l := qt_loop (qt_run (QtMachine_new 1000) qt_sample) in
  (work_queue l <> [] \/ incoming_queue (incoming_task_queue l) <> [] ->
   (0 < user_events (pump l))%nat) /\
  deferred_non_nestable_work_queue l = [] /\
  forall t rest, delayed_work_queue l = t :: rest ->
    (0 < user_events (pump l))%nat \/
    (m_timerId (pump l) <> 0 /\ m_timerScheduledTime (pump l) <= delayed_run_time t).
Proof.
  apply qt_pump_forgets_no_work.
  - apply qt_run_reachable; [apply qt_reachable_new; vm_compute; split; congruence|].
    intros es1 e es2 E. unfold qt_sample in E.
    repeat (destruct es1 as [|? es1]; cbn [app] in E;
            [injection E as <- <-; vm_compute; exact I | injection E as <- E]).
    destruct es1; discriminate.
  - vm_compute. reflexivity.
Defined.

(** ** The wakeup a modal loop in a delayed task loses *)

(** Work is queued, the queue believes the pump is awake, and nothing is left to
    wake it: no event, no timer, no handler that calls [DoWork]. *)
Record stranded (m : QtMachine) : Prop := {
  stranded_events : user_events (pump (qt_loop m)) = 0%nat;
  stranded_timer : m_timerId (pump (qt_loop m)) = 0;
  stranded_work : work_queue (qt_loop m) = [];
  stranded_delayed : delayed_work_queue (qt_loop m) = [];
  stranded_deferred : deferred_non_nestable_work_queue (qt_loop m) = [];
  stranded_scheduled : message_loop_scheduled (incoming_task_queue (qt_loop m)) = true;
  stranded_notify : always_schedule_work (incoming_task_queue (qt_loop m)) = false;
  stranded_attached : attached (incoming_task_queue (qt_loop m)) = true;
  stranded_frames : Forall (fun f => plain f \/ f = Handler InOnIdle) (qt_frames m)
}.

Lemma stranded_quiet m l' fs :
  stranded m -> calm (qt_loop m) l' ->
  Forall (fun f => plain f \/ f = Handler InOnIdle) fs -> stranded (qt_goto m l' fs).
Proof. intros [] [] ?. split; cbn; congruence. Qed.

Lemma stranded_step m e m' :
  stranded m -> (forall b, e <> QeSetNestable b) -> qt_step m e = Some m' ->
  stranded m' /\ qt_started m' = qt_started m.
Proof.
  intros Hs He. pose proof Hs as [H1 H2 H3 H4 H5 H6 H7 H8 H9]. unfold qt_step.
  assert (Hq : forall l' fs, calm (qt_loop m) l' ->
    Forall (fun f => plain f \/ f = Handler InOnIdle) fs ->
    stranded (qt_goto m l' fs) /\ qt_started (qt_goto m l' fs) = qt_started m).
  { intros. split; [apply stranded_quiet; assumption|reflexivity]. }
  assert (Hclient : forall f, (forall l, quiet l (f l)) ->
    (if qt_client m then Some (qt_goto m (f (qt_loop m)) (qt_frames m)) else None) = Some m' ->
    stranded m' /\ qt_started m' = qt_started m).
  { intros f Hf. destruct (qt_client m); [|discriminate]. intros [= <-].
    apply Hq; [apply Hf|assumption]. }
  assert (Hcons : forall f fs, plain f \/ f = Handler InOnIdle ->
    Forall (fun f => plain f \/ f = Handler InOnIdle) fs ->
    Forall (fun f => plain f \/ f = Handler InOnIdle) (f :: fs)) by (intros; constructor; assumption).
  destruct e.
  - destruct (decide _); [|discriminate].
    unfold Post, AddToIncomingQueue, PostPendingTask.
    destruct (needs_high_res delay); cbn; rewrite H8; cbn; rewrite H7, H6; cbn; intros [= <-];
      (split; [split; cbn; assumption || congruence|reflexivity]).
  - destruct (_ && _); [|discriminate]. intros [= <-]. apply Hq; [apply quiet_tick|assumption].
  - destruct (qt_frames m) as [|[] ?]; try discriminate. rewrite H1. discriminate.
  - destruct (qt_frames m) as [|[] ?]; try discriminate. rewrite H2. discriminate.
  - destruct (qt_frames m) as [|[] ?] eqn:Ef; try discriminate. intros [= <-].
    apply Hq; [apply calm_refl|]. apply Hcons; auto.
  - destruct (qt_frames m) as [|[] ?] eqn:Ef; try discriminate. intros [= <-].
    apply Hq; [apply calm_refl|]. apply Hcons; [left; right; reflexivity|assumption].
  - destruct (qt_frames m) as [|[|pc| |] fs] eqn:Ef; try discriminate.
    inversion_clear H9 as [|? ? Hpc Hfs].
    assert (pc = InOnIdle) as -> by (destruct Hpc as [[?|?]|?]; congruence).
    cbn [handler_step]. destruct (DoIdleWork_quiet _ H5) as (l' & -> & [Hc _]). intros [= <-].
    apply Hq; assumption.
  - unfold qt_client. destruct (qt_frames m) as [|[] ?] eqn:Ef; try discriminate; intros [= <-];
      (apply Hq; [apply calm_refl|]); (apply Hcons; [left; left; reflexivity|assumption]).
  - destruct (qt_frames m) as [|[] [|]] eqn:Ef; try discriminate; inversion_clear H9.
    + destruct (qt_quit _); [|discriminate]. intros [= <-].
      assert (Ha : exists rs, AfterRun (qt_loop m) = set_run_loops (qt_loop m) rs \/
        AfterRun (qt_loop m) = QuitNow (set_run_loops (qt_loop m) rs)).
      { exists (tail (run_loops (qt_loop m))). unfold AfterRun.
        destruct (run_loops _) as [|r rs]; [auto|]. destruct (quit_called r); auto. }
      destruct Ha as (rs & [E|E]); rewrite E; (split; [|reflexivity]);
        [|unfold QuitNow; cbn [run_loops set_run_loops]; destruct rs];
        split; cbn; try assumption; constructor.
    + intros [= <-]. apply Hq; [apply calm_refl|assumption].
  - destruct (qt_frames m) as [|[|pc| |t] fs] eqn:Ef; try discriminate; inversion_clear H9 as [|? ? Hf Hfs].
    + intros [= <-]. apply Hq; [apply calm_refl|assumption].
    + destruct Hf as [[?|?]|?]; discriminate.
  - apply (Hclient (fun l => match BeforeRun l false quit_when_idle with
                             | Some l' => AfterRun l' | None => l end)).
    intros l. apply quiet_run.
  - apply (Hclient (fun l => RunLoop_Quit l 0)), quiet_Quit.
  - apply (Hclient QuitWhenIdle), quiet_QuitWhenIdle.
  - apply (Hclient QuitNow), quiet_QuitNow.
  - destruct (He allowed eq_refl).
Qed.

Lemma stranded_run es m :
  stranded m -> Forall (fun e => forall b, e <> QeSetNestable b) es ->
  qt_started (qt_run m es) = qt_started m.
Proof.
  intros Hs Hes. revert m Hs. induction Hes as [|e es He _ IH]; intros m Hs; [reflexivity|].
  cbn [qt_run]. destruct (qt_step m e) as [m'|] eqn:E; [|apply IH; exact Hs].
  destruct (stranded_step _ _ _ Hs He E) as [Hs' Est]. cbn [default from_option id].
  rewrite <- Est. apply IH. exact Hs'.
Qed.

(** A delayed task is posted and becomes due; the task opens a modal dialog;
    while it is open another thread posts task 2, whose event the dialog's loop
    dispatches; the dialog is closed and the delayed task returns. *)
Definition modal_in_delayed_task : list QtEvent :=
  [QePost 1%nat 5000 true; QeUserEvent; QeStep; QeStep; QeStep; QeStep;
   QeTick 5000; QeTimer; QeStep; QeModal; QePost 2%nat 0 true; QeUserEvent; QeStep; QeStep; QeStep;
   QeLoopExit; QeReturn; QeStep].

(** C24: a modal event loop inside a delayed task hangs the message loop. After
    the schedule above the outermost loop dispatches again and task 2 is queued,
    but nothing wakes the pump any more: whatever is posted, dispatched, opened,
    closed or quit from then on, no task ever starts, unless client code calls
    [SetNestableTasksAllowed]. The handler [timerEvent] only calls
    [DoDelayedWork], so the user event its nested loop consumed is not made up
    for, and the incoming queue goes on believing that the pump is scheduled. *)
Theorem modal_loop_in_a_delayed_task_hangs_the_loop :
  let m := qt_run (QtMachine_new 1000) modal_in_delayed_task in
  qt_frames m = [EventLoop] /\
  task <$> incoming_queue (incoming_task_queue (qt_loop m)) = [2%nat] /\
  task <$> qt_started m = [1%nat] /\
  forall es, Forall (fun e => forall b, e <> QeSetNestable b) es ->
    qt_started (qt_run m es) = qt_started m.
Proof.
  cbn zeta. split; [vm_compute; reflexivity|]. split; [vm_compute; reflexivity|].
  split; [vm_compute; reflexivity|]. intros es. apply stranded_run.
  split; try (vm_compute; reflexivity).
  set (m := qt_run _ _). assert (qt_frames m = [EventLoop]) as -> by (vm_compute; reflexivity).
  repeat constructor.
Qed.
