(* ===== verification/BrowserThreads.v ===== *)
(** * The browser's well-known threads

    [content/browser_thread_impl.cc] over [base/threading/thread.cc], with the
    part of [content/browser_main_loop.cc] that creates and destroys the threads.
    A machine interleaves the main thread's script (register, start, stop, join,
    unregister each thread), the threads' own exits and posts by any thread, one
    access to the shared globals at a time. A message loop is identified with the
    browser thread that owns it; [MessageLoop::current()] of a caller is the
    [option] of that. *)

From stdpp Require Import base numbers list strings functions option.
From Stdlib Require Import Lia.
From S2P Require Import Prelude.

Local Open Scope nat_scope.

(** ** [BrowserThread::ID] *)
Inductive ID := UI | DB | FILE | FILE_USER_BLOCKING | PROCESS_LAUNCHER | CACHE | IO.

#[export] Instance ID_eq_dec : EqDecision ID.
Proof. solve_decision. Defined.

Definition all_ids : list ID := [UI; DB; FILE; FILE_USER_BLOCKING; PROCESS_LAUNCHER; CACHE; IO].
Definition ID_COUNT : nat := length all_ids.

(** The enumerator's value. *)
Definition index (id : ID) : nat :=
  match id with
  | UI => 0 | DB => 1 | FILE => 2 | FILE_USER_BLOCKING => 3 | PROCESS_LAUNCHER => 4
  | CACHE => 5 | IO => 6
  end.

Definition g_browser_thread_names (id : ID) : string :=
  match id with
  | UI => ""
  | DB => "Chrome_DBThread"
  | FILE => "Chrome_FileThread"
  | FILE_USER_BLOCKING => "Chrome_FileUserBlockingThread"
  | PROCESS_LAUNCHER => "Chrome_ProcessLauncherThread"
  | CACHE => "Chrome_CacheThread"
  | IO => "Chrome_IOThread"
  end.

(** [GetThreadName]; the argument may be [ID_COUNT], here [None]. *)
Definition GetThreadName (thread : option ID) : string :=
  match thread with
  | Some UI => "Chrome_UIThread"
  | Some id => g_browser_thread_names id
  | None => "Unknown Thread"
  end.

(** ** [base::Thread] *)

Record Thread := Thread_ {
  started : bool;
  stopping : bool;
  running : bool;
  message_loop : option ID }.

Definition Thread_new (loop : option ID) : Thread := Thread_ false false false loop.

(** [StartWithOptions], with the part of [ThreadMain] before it signals. *)
Definition Thread_StartWithOptions (t : Thread) (loop : ID) : Thread :=
  Thread_ true (stopping t) true (Some loop).

(** [StopSoon]: the thread, and whether the quit task is posted to its loop. *)
Definition Thread_StopSoon (t : Thread) : Thread * bool :=
  if stopping t || bool_decide (message_loop t = None) then (t, false)
  else (Thread_ (started t) true (running t) (message_loop t), true).

(** The end of [ThreadMain], in two parts: [Run] returned, and the loop cleared. *)
Definition Thread_RunReturned (t : Thread) : Thread :=
  Thread_ (started t) (stopping t) false (message_loop t).
Definition Thread_ClearLoop (t : Thread) : Thread :=
  Thread_ (started t) (stopping t) (running t) None.

(** The end of [Stop], after the join. *)
Definition Thread_Joined (t : Thread) : Thread :=
  Thread_ false false (running t) (message_loop t).

(** ** [BrowserThreadGlobals] *)

Inductive Task := Client (c : nat) | ThreadQuitHelper | InitAsync (delegate : nat).

(** Who executes code: a browser thread, or a thread without message loop. *)
Inductive Actor := Browser (id : ID) | Worker (n : nat).

#[export] Instance Actor_eq_dec : EqDecision Actor.
Proof. solve_decision. Defined.

(** A call of [PostTaskHelper] in progress: it needs the lock, has the right to
    read the array, or has read the target's loop pointer. *)
Inductive PostPc := Locking | Reading | Posting (loop : option ID).

Record PostCall := PostCall_ {
  poster : Actor;
  target : ID;
  closure : nat;
  locked : bool;              (** takes the lock: not known to outlive *)
  post_pc : PostPc }.

(** The main thread's remaining program. *)
Inductive MainOp :=
  | OpRegisterMain
  | OpRegister (id : ID) | OpStart (id : ID)
  | OpStopSoon (id : ID) | OpJoin (id : ID) | OpUnregister (id : ID)
  | OpUnregisterMain.

Record World := World_ {
  threads : ID -> option Thread;       (** [globals.threads] *)
  delegates : ID -> option nat;        (** [globals.thread_delegates] *)
  live : ID -> bool;                   (** message loops that exist *)
  queue : ID -> list Task;             (** tasks posted to each loop *)
  lock : option Actor;                 (** holder of [globals.lock] *)
  posts : list PostCall;               (** at most one per actor *)
  script : list MainOp;
  results : list (PostCall * bool) }.  (** completed posts *)

(** *** The main thread's program *)

(** [MainMessageLoopStart] and [CreateThreads]. *)
Definition sub_threads : list ID := tail all_ids.
Definition startup_script : list MainOp :=
  OpRegisterMain :: flat_map (fun id => [OpRegister id; OpStart id]) sub_threads.

(** [ShutdownThreadsAndCleanUp] and the destruction of the main loop object. *)
Definition shutdown_script : list MainOp :=
  flat_map (fun id => [OpStopSoon id; OpJoin id; OpUnregister id]) (rev sub_threads)
    ++ [OpUnregisterMain].

Definition full_script : list MainOp := startup_script ++ shutdown_script.

Definition World_new : World :=
  World_ (fun _ => None) (fun _ => None) (fun id => bool_decide (id = UI)) (fun _ => []) None []
    full_script [].

(** Field updates. *)
Definition set_threads (w : World) th : World :=
  World_ th (delegates w) (live w) (queue w) (lock w) (posts w) (script w) (results w).
Definition set_delegates (w : World) d : World :=
  World_ (threads w) d (live w) (queue w) (lock w) (posts w) (script w) (results w).
Definition set_live (w : World) lv : World :=
  World_ (threads w) (delegates w) lv (queue w) (lock w) (posts w) (script w) (results w).
Definition set_queue (w : World) q : World :=
  World_ (threads w) (delegates w) (live w) q (lock w) (posts w) (script w) (results w).
Definition set_lock (w : World) k : World :=
  World_ (threads w) (delegates w) (live w) (queue w) k (posts w) (script w) (results w).
Definition set_posts (w : World) ps : World :=
  World_ (threads w) (delegates w) (live w) (queue w) (lock w) ps (script w) (results w).
Definition set_script (w : World) s : World :=
  World_ (threads w) (delegates w) (live w) (queue w) (lock w) (posts w) s (results w).
Definition set_results (w : World) r : World :=
  World_ (threads w) (delegates w) (live w) (queue w) (lock w) (posts w) (script w) r.

Definition enqueue (w : World) (loop : ID) (t : Task) : World :=
  set_queue w (<[loop := queue w loop ++ [t]]> (queue w)).

(** ** Queries of [BrowserThread] *)

(** [MessageLoop::current()] for an actor. *)
Definition current_loop (w : World) (a : Actor) : option ID :=
  match a with
  | Browser id => if live w id then Some id else None
  | Worker _ => None
  end.

(** [GetCurrentThreadIdentifier]: scans the array without the lock. *)
Fixpoint scan_threads (w : World) (cur_message_loop : option ID) (ids : list ID) : option ID :=
  match ids with
  | [] => None
  | i :: ids' =>
      match threads w i with
      | Some t => if decide (message_loop t = cur_message_loop) then Some i
                  else scan_threads w cur_message_loop ids'
      | None => scan_threads w cur_message_loop ids'
      end
  end.

Definition GetCurrentThreadIdentifier (w : World) (a : Actor) : option ID :=
  scan_threads w (current_loop w a) all_ids.

Definition IsThreadInitialized (w : World) (id : ID) : bool :=
  match threads w id with Some _ => true | None => false end.

Definition CurrentlyOn (w : World) (a : Actor) (id : ID) : bool :=
  match threads w id with
  | Some t => bool_decide (message_loop t = current_loop w a)
  | None => false
  end.

Definition IsMessageLoopValid (w : World) (id : ID) : bool :=
  match threads w id with
  | Some t => match message_loop t with Some _ => true | None => false end
  | None => false
  end.

(** [GetDCheckCurrentlyOnErrorMessage]; [loop_name] is the name of the caller's
    loop, when it has one. *)
Definition GetDCheckCurrentlyOnErrorMessage (w : World) (a : Actor) (expected : ID)
    (loop_name : option string) : string :=
  let actual :=
    match loop_name with
    | Some (String _ _ as n) => n
    | _ => match GetCurrentThreadIdentifier w a with
           | Some id => GetThreadName (Some id)
           | None => "Unknown Thread"
           end
    end in
  ("Must be called on " +:+ GetThreadName (Some expected) +:+ "; actually called on "
     +:+ actual +:+ ".")%string.

(** [SetDelegate]: the exchange; the DCHECK refuses a second registration. *)
Definition SetDelegate (w : World) (id : ID) (d : option nat) : option World :=
  match d, delegates w id with
  | Some _, Some _ => None
  | _, _ => Some (set_delegates w (<[id := d]> (delegates w)))
  end.

(** ** [PostTaskHelper], one access to the globals at a time *)

Definition target_thread_outlives_current (w : World) (a : Actor) (target : ID) : bool :=
  match GetCurrentThreadIdentifier w a with
  | Some current_thread => index target <=? index current_thread
  | None => false
  end.

Definition in_call (w : World) (a : Actor) : bool :=
  bool_decide (a ∈ map poster (posts w)).

(** Code of a browser thread runs from its start until it clears its loop. *)
Definition can_run (w : World) (a : Actor) : bool :=
  match a with
  | Worker _ => true
  | Browser id => match threads w id with
                  | Some t => bool_decide (message_loop t = Some id) | None => false end
  end.

Definition post_begin (w : World) (a : Actor) (tgt : ID) (c : nat) : option World :=
  if can_run w a && negb (in_call w a) then
    let outlives := target_thread_outlives_current w a tgt in
    Some (set_posts w (PostCall_ a tgt c (negb outlives)
                         (if outlives then Reading else Locking) :: posts w))
  else None.

Definition set_pc (p : PostCall) (pc : PostPc) : PostCall :=
  PostCall_ (poster p) (target p) (closure p) (locked p) pc.

Inductive Outcome := Stuck | UseAfterFree | Next (w : World).

(** One step of the [i]-th call in progress. *)
Definition post_step (w : World) (i : nat) : Outcome :=
  match posts w !! i with
  | None => Stuck
  | Some p =>
      match post_pc p with
      | Locking =>
          match lock w with
          | None => Next (set_lock (set_posts w (<[i := set_pc p Reading]> (posts w)))
                            (Some (poster p)))
          | Some _ => Stuck
          end
      | Reading =>
          let loop := threads w (target p) ≫= message_loop in
          Next (set_posts w (<[i := set_pc p (Posting loop)]> (posts w)))
      | Posting loop =>
          let finish (w : World) (ok : bool) :=
            let w := set_posts w (delete i (posts w)) in
            let w := if locked p then set_lock w None else w in
            Next (set_results w (results w ++ [(p, ok)])) in
          match loop with
          | None => finish w false
          | Some l => if live w l then finish (enqueue w l (Client (closure p))) true
                      else UseAfterFree
          end
      end
  end.

(** ** The threads' life *)

(** [BrowserThreadImpl::Init]: the delegate, if any, gets [InitAsync] posted. *)
Definition BrowserThreadImpl_Init (w : World) (id : ID) : World :=
  match delegates w id with Some d => enqueue w id (InitAsync d) | None => w end.

Definition unlocked (w : World) : bool := bool_decide (lock w = None).

(** One operation of the main thread; [Stuck] when it has to wait. *)
Definition main_step (w : World) : Outcome :=
  match script w with
  | [] => Stuck
  | op :: rest =>
      let w' := set_script w rest in
      match op with
      | OpRegisterMain =>
          if negb (unlocked w) then Stuck
          else Next (set_threads w' (<[UI := Some (Thread_new (Some UI))]> (threads w)))
      | OpRegister id =>
          if negb (unlocked w) then Stuck
          else Next (set_threads w' (<[id := Some (Thread_new None)]> (threads w)))
      | OpStart id =>
          match threads w id with
          | Some t =>
              let w' := set_live w' (<[id := true]> (live w)) in
              let w' := set_threads w' (<[id := Some (Thread_StartWithOptions t id)]> (threads w)) in
              Next (BrowserThreadImpl_Init w' id)
          | None => Stuck
          end
      | OpStopSoon id =>
          match threads w id with
          | Some t =>
              let '(t', quit) := if started t then Thread_StopSoon t else (t, false) in
              let w' := set_threads w' (<[id := Some t']> (threads w)) in
              Next (if quit then enqueue w' id ThreadQuitHelper else w')
          | None => Stuck
          end
      | OpJoin id =>
          match threads w id with
          | Some t => if live w id then Stuck
                      else Next (set_threads w' (<[id := Some (Thread_Joined t)]> (threads w)))
          | None => Stuck
          end
      | OpUnregister id =>
          if negb (unlocked w) then Stuck else Next (set_threads w' (<[id := None]> (threads w)))
      | OpUnregisterMain =>
          if negb (unlocked w) then Stuck else Next (set_threads w' (<[UI := None]> (threads w)))
      end
  end.

Inductive Event :=
  | EvMain
  | EvPostBegin (a : Actor) (tgt : ID) (c : nat)
  | EvPostStep (i : nat)
  | EvRunReturned (id : ID)     (** the thread processed the quit task *)
  | EvClearLoop (id : ID)       (** [message_loop_ = NULL] *)
  | EvDestroyLoop (id : ID)     (** the [MessageLoop] object goes away *)
  | EvSetDelegate (id : ID) (d : option nat).

Definition on_thread (w : World) (id : ID) (enabled : Thread -> bool) (f : Thread -> Thread)
    : Outcome :=
  match threads w id with
  | Some t => if enabled t then Next (set_threads w (<[id := Some (f t)]> (threads w))) else Stuck
  | None => Stuck
  end.

Definition step (w : World) (e : Event) : Outcome :=
  match e with
  | EvMain => if in_call w (Browser UI) then Stuck else main_step w
  | EvPostBegin a tgt c => match post_begin w a tgt c with Some w' => Next w' | None => Stuck end
  | EvPostStep i => post_step w i
  | EvRunReturned id =>
      on_thread w id (fun t => started t && stopping t && running t) Thread_RunReturned
  | EvClearLoop id =>
      if in_call w (Browser id) then Stuck else
      on_thread w id (fun t => started t && stopping t && negb (running t)) Thread_ClearLoop
  | EvDestroyLoop id =>
      match threads w id with
      | Some t => if started t && bool_decide (message_loop t = None)
                  then Next (set_live w (<[id := false]> (live w))) else Stuck
      | None => Stuck
      end
  | EvSetDelegate id d => match SetDelegate w id d with Some w' => Next w' | None => Stuck end
  end.

Inductive reachable : World -> Prop :=
  | reachable_new : reachable World_new
  | reachable_step w e w' : reachable w -> step w e = Next w' -> reachable w'.

(** Executing a schedule, for examples; events that are not enabled are skipped. *)
Fixpoint execute (w : World) (es : list Event) : World :=
  match es with
  | [] => w
  | e :: es' => match step w e with Next w' => execute w' es' | _ => execute w es' end
  end.

(** ** Invariant

    How far the main thread's program has run determines what each slot of the
    array holds. *)

Inductive Status := Absent | Registered | Started | StopRequested | Joined.

#[export] Instance Status_eq_dec : EqDecision Status.
Proof. solve_decision. Defined.

Definition op_status (op : MainOp) (id : ID) (s : Status) : Status :=
  match op with
  | OpRegisterMain => if decide (id = UI) then Started else s
  | OpRegister i => if decide (id = i) then Registered else s
  | OpStart i => if decide (id = i) then Started else s
  | OpStopSoon i => if decide (id = i) then StopRequested else s
  | OpJoin i => if decide (id = i) then Joined else s
  | OpUnregister i => if decide (id = i) then Absent else s
  | OpUnregisterMain => if decide (id = UI) then Absent else s
  end.

Definition status (n : nat) (id : ID) : Status :=
  foldl (fun s op => op_status op id s) Absent (take n full_script).

Lemma status_S n op id :
  full_script !! n = Some op -> status (S n) id = op_status op id (status n id).
Proof. intros H. unfold status. by rewrite (take_S_r _ _ _ H), foldl_app. Qed.

(** What the program guarantees about its own order, checked at each point. *)
Definition runs (s : Status) : bool := bool_decide (s = Started \/ s = StopRequested).

Definition order_ok (n : nat) (i j : ID) : bool :=
  implb (index i <? index j)
    (implb (runs (status n j)) (bool_decide (status n i = Started)) &&
     implb (bool_decide (status n j <> Absent)) (bool_decide (status n i <> Absent))).

Definition op_ok (n : nat) : bool :=
  match full_script !! n with
  | Some OpRegisterMain => bool_decide (status n UI = Absent)
  | Some (OpRegister i) => bool_decide (status n i = Absent) && bool_decide (i <> UI)
  | Some (OpStart i) => bool_decide (status n i = Registered) && bool_decide (i <> UI)
  | Some (OpStopSoon i) => bool_decide (status n i = Started) && bool_decide (i <> UI)
  | Some (OpJoin i) => bool_decide (status n i = StopRequested) && bool_decide (i <> UI)
  | Some (OpUnregister i) => bool_decide (status n i = Joined) && bool_decide (i <> UI)
  | Some OpUnregisterMain =>
      forallb (fun i => bool_decide (status n i = if decide (i = UI) then Started else Absent))
        all_ids
  | None => true
  end.

Definition ui_ok (n : nat) : bool :=
  bool_decide (status n UI = Absent) || bool_decide (status n UI = Started).

Lemma full_script_ok :
  forallb (fun n => op_ok n && ui_ok n &&
                    forallb (fun i => forallb (order_ok n i) all_ids) all_ids)
    (seq 0 (S (length full_script))) = true.
Proof. vm_compute. reflexivity. Qed.

Lemma In_all_ids id : In id all_ids.
Proof. destruct id; simpl; tauto. Qed.

Lemma full_script_at n :
  n <= length full_script ->
  op_ok n = true /\ ui_ok n = true /\ forall i j, order_ok n i j = true.
Proof.
  intros Hn. pose proof full_script_ok as H. rewrite forallb_forall in H.
  specialize (H n). rewrite in_seq in H. specialize (H ltac:(lia)).
  apply andb_true_iff in H as [[Ho Hu]%andb_true_iff H]. split; [done|]. split; [done|].
  intros i j. rewrite forallb_forall in H. specialize (H i (In_all_ids i)).
  rewrite forallb_forall in H. apply H, In_all_ids.
Qed.

Lemma runs_before n i j :
  n <= length full_script -> index i < index j -> runs (status n j) = true ->
  status n i = Started.
Proof.
  intros Hn Hij Hr. destruct (full_script_at n Hn) as (_ & _ & H). specialize (H i j).
  unfold order_ok in H. rewrite (proj2 (Nat.ltb_lt _ _) Hij), Hr in H. simpl in H.
  apply andb_true_iff in H as [H%bool_decide_eq_true _]. done.
Qed.

Lemma present_before n i j :
  n <= length full_script -> index i < index j -> status n j <> Absent -> status n i <> Absent.
Proof.
  intros Hn Hij Hr. destruct (full_script_at n Hn) as (_ & _ & H). specialize (H i j).
  unfold order_ok in H. rewrite (proj2 (Nat.ltb_lt _ _) Hij) in H. simpl in H.
  apply andb_true_iff in H as [_ H]. rewrite (bool_decide_true _ Hr) in H.
  by apply bool_decide_eq_true in H.
Qed.

(** What a slot and its loop are, by status. *)
Definition slot_ok (id : ID) (s : Status) (th : option Thread) (lv : bool) : Prop :=
  match s with
  | Absent => th = None /\ (id <> UI -> lv = false)
  | Registered => th = Some (Thread_new None) /\ lv = false
  | Started =>
      th = Some (if decide (id = UI) then Thread_new (Some UI) else Thread_ true false true (Some id))
      /\ lv = true
  | StopRequested =>
      exists r ml, th = Some (Thread_ true true r ml) /\
        (ml = Some id /\ lv = true \/ ml = None /\ r = false)
  | Joined => th = Some (Thread_ false false false None) /\ lv = false
  end.

(** What is known of a call in progress by a browser thread. *)
Definition call_ok (w : World) (p : PostCall) : Prop :=
  match poster p with
  | Browser c =>
      threads w c ≫= message_loop = Some c /\
      (index (target p) <= index c -> locked p = false) /\
      (locked p = false ->
         index (target p) <= index c /\ post_pc p <> Locking /\
         forall l, post_pc p = Posting l -> l = Some (target p))
  | Worker _ => True
  end.

Record WorldOk (w : World) : Prop := {
  wo_script : exists n, n <= length full_script /\ script w = drop n full_script /\
    forall id, slot_ok id (status n id) (threads w id) (live w id);
  wo_ui : live w UI = true;
  wo_calls : Forall (call_ok w) (posts w) }.

(** The slots hold loops of their own identifier only. *)
Lemma slot_loop id s th lv l :
  slot_ok id s th lv -> th ≫= message_loop = Some l -> l = id /\ lv = true /\ runs s = true.
Proof.
  destruct s; simpl.
  - intros [-> _]. done.
  - intros [-> _]. done.
  - intros [-> ->]. destruct (decide (id = UI)) as [->|]; simpl; by intros [= <-].
  - intros (r & ml & -> & [[-> ->]|[-> ->]]); simpl; by intros [= <-].
  - intros [-> _]. done.
Qed.

Lemma slot_runs id s th lv :
  slot_ok id s th lv -> s = Started -> th ≫= message_loop = Some id /\ lv = true.
Proof.
  intros H ->. destruct H as [-> ->]. by destruct (decide (id = UI)) as [->|].
Qed.

(** The target of a call by a thread that is known not to outlive it. *)
Lemma outlived_target w c t :
  WorldOk w -> threads w c ≫= message_loop = Some c -> index t <= index c ->
  threads w t ≫= message_loop = Some t /\ live w t = true.
Proof.
  intros [(n & Hn & _ & Hs) _ _] Hc Ht.
  destruct (slot_loop _ _ _ _ _ (Hs c) Hc) as (_ & Hl & Hr).
  destruct (decide (t = c)) as [->|Htc]; [done|].
  apply (slot_runs t (status n t)); [apply Hs|]. apply (runs_before n t c); [done| |done].
  assert (index t <> index c) by (intros ?; apply Htc; by destruct t, c). lia.
Qed.

Lemma scan_threads_own w c ids :
  WorldOk w -> threads w c ≫= message_loop = Some c -> c ∈ ids ->
  scan_threads w (Some c) ids = Some c.
Proof.
  intros [(n & _ & _ & Hs) _ _] Hc. induction ids as [|i ids IH]; [by intros ?%elem_of_nil|].
  intros Hin. simpl. specialize (Hs i) as Hi.
  destruct (decide (i = c)) as [->|Hne].
  - destruct (threads w c) as [t|]; [|done]. simpl in Hc. by rewrite decide_True.
  - apply elem_of_cons in Hin as [?|Hin]; [done|]. specialize (IH Hin).
    destruct (threads w i) as [t|] eqn:Ht; [|done].
    destruct (decide (message_loop t = Some c)) as [Hm|]; [|done].
    destruct (slot_loop i (status n i) (Some t) (live w i) c) as [-> _]; done.
Qed.

Lemma GetCurrentThreadIdentifier_own w c :
  WorldOk w -> threads w c ≫= message_loop = Some c ->
  GetCurrentThreadIdentifier w (Browser c) = Some c.
Proof.
  intros H Hc. unfold GetCurrentThreadIdentifier, current_loop.
  destruct (outlived_target w c c H Hc) as [_ ->]; [done|].
  apply scan_threads_own; [done | done |]. apply list_elem_of_In, In_all_ids.
Qed.

(** ** Every step preserves the invariant *)

(** Changes that leave the array and the calls' callers alone. *)
Lemma call_ok_threads w w' p :
  (forall c, poster p = Browser c -> threads w c ≫= message_loop = Some c ->
     threads w' c ≫= message_loop = Some c) ->
  call_ok w p -> call_ok w' p.
Proof. unfold call_ok. intros H. destruct (poster p) as [c|]; [|done]. naive_solver. Qed.

Lemma WorldOk_update w w' n :
  WorldOk w -> n <= length full_script -> script w' = drop n full_script ->
  (forall id, slot_ok id (status n id) (threads w' id) (live w' id)) ->
  live w' UI = true -> posts w' = posts w ->
  (forall c, in_call w (Browser c) = true -> threads w c ≫= message_loop = Some c ->
     threads w' c ≫= message_loop = Some c) ->
  WorldOk w'.
Proof.
  intros [_ _ Hc] Hn Hs Hsl Hu Hp Hk. constructor; [by exists n | done |].
  rewrite Hp. apply Forall_forall. intros p Hin. eapply Forall_forall in Hc as Hcp; [|exact Hin].
  eapply call_ok_threads; [|exact Hcp]. intros c Hpc. apply Hk.
  apply bool_decide_eq_true. rewrite <- Hpc. by apply list_elem_of_In, in_map.
Qed.

(** The op about to run, and the statuses after it. *)
Lemma next_op n op rest :
  n <= length full_script -> drop n full_script = op :: rest ->
  full_script !! n = Some op /\ S n <= length full_script /\ drop (S n) full_script = rest.
Proof.
  intros Hn Hd. assert (full_script !! n = Some op) as Hop.
  { rewrite <- (Nat.add_0_r n), <- lookup_drop, Hd. done. }
  split; [done|]. split; [by apply lookup_lt_Some in Hop|].
  change (S n) with (1 + n)%nat. rewrite (Nat.add_comm 1 n), <- drop_drop, Hd. done.
Qed.

(** Running an operation on one slot. *)
Lemma slots_after n op i w th lv :
  full_script !! n = Some op ->
  (forall id s, id <> i -> op_status op id s = s) ->
  (forall id, slot_ok id (status n id) (threads w id) (live w id)) ->
  slot_ok i (op_status op i (status n i)) th lv ->
  forall id, slot_ok id (status (S n) id) (<[i := th]> (threads w) id) (<[i := lv]> (live w) id).
Proof.
  intros Hop Hne Hs Hi id. rewrite (status_S _ _ _ Hop). destruct (decide (id = i)) as [->|Hid].
  - by rewrite !fn_lookup_insert.
  - rewrite !fn_lookup_insert_ne by congruence. by rewrite Hne.
Qed.

Lemma insert_live_same (lv : ID -> bool) i id : <[i := lv i]> lv id = lv id.
Proof.
  destruct (decide (id = i)) as [->|]; [by rewrite fn_lookup_insert|].
  by rewrite fn_lookup_insert_ne.
Qed.

Lemma slots_after_same_live n op i w th :
  full_script !! n = Some op ->
  (forall id s, id <> i -> op_status op id s = s) ->
  (forall id, slot_ok id (status n id) (threads w id) (live w id)) ->
  slot_ok i (op_status op i (status n i)) th (live w i) ->
  forall id, slot_ok id (status (S n) id) (<[i := th]> (threads w) id) (live w id).
Proof.
  intros Hop Hne Hs Hi id. rewrite <- (insert_live_same (live w) i id). by eapply slots_after.
Qed.

(** A slot's loop after an update. *)
Lemma loop_after (f : ID -> option Thread) i th c :
  (c = i -> th ≫= message_loop = Some c) -> f c ≫= message_loop = Some c ->
  <[i := th]> f c ≫= message_loop = Some c.
Proof.
  intros Hi Hc. destruct (decide (c = i)) as [->|]; [rewrite fn_lookup_insert; auto|].
  by rewrite fn_lookup_insert_ne.
Qed.

Ltac slot_status H :=
  let K := fresh in pose proof H as K;
  repeat match type of K with
  | (_ && _) = true => apply andb_true_iff in K as [K ?]
  end;
  repeat match goal with
  | E : bool_decide _ = true |- _ => apply bool_decide_eq_true in E
  end.

Lemma main_step_ok w w' :
  WorldOk w -> in_call w (Browser UI) = false -> main_step w = Next w' -> WorldOk w'.
Proof.
  intros H Hui. pose proof H as [(n & Hn & Hsc & Hs) Hu _]. unfold main_step.
  destruct (script w) as [|op rest] eqn:Hscr; [done|].
  destruct (next_op n op rest Hn (eq_sym Hsc)) as (Hop & Hn' & Hrest).
  destruct (full_script_at n Hn) as (Ho & _ & _). unfold op_ok in Ho. rewrite Hop in Ho.
  destruct op as [|i|i|i|i|i|]; slot_status Ho.
  - destruct (unlocked w); [|done]. intros [= <-].
    eapply (WorldOk_update w _ (S n)); try done; simpl.
    + eapply slots_after_same_live; [exact Hop | | exact Hs |]; simpl.
      * intros id s ?. by rewrite decide_False.
      * by rewrite Hu.
    + intros c _. apply loop_after. by intros ->.
  - destruct (unlocked w); [|done]. intros [= <-]. specialize (Hs i) as Hi.
    match goal with E : status n i = _ |- _ => rewrite E in Hi end. destruct Hi as [Ht Hl].
    eapply (WorldOk_update w _ (S n)); try done; simpl.
    + eapply slots_after_same_live; [exact Hop | | exact Hs |]; simpl.
      * intros id s ?. by rewrite decide_False.
      * rewrite decide_True by done. split; [done | auto].
    + intros c _ Hc. apply loop_after; [|done]. intros ->. rewrite Ht in Hc. done.
  - specialize (Hs i) as Hi.
    match goal with E : status n i = _ |- _ => rewrite E in Hi end. destruct Hi as [Ht Hl].
    rewrite Ht. intros [= <-].
    assert (forall w0, threads (BrowserThreadImpl_Init w0 i) = threads w0 /\
      live (BrowserThreadImpl_Init w0 i) = live w0 /\ posts (BrowserThreadImpl_Init w0 i) = posts w0 /\
      script (BrowserThreadImpl_Init w0 i) = script w0) as Hinit.
    { intros w0. unfold BrowserThreadImpl_Init. by destruct (delegates w0 i). }
    match goal with |- WorldOk (BrowserThreadImpl_Init ?w0 i) =>
      destruct (Hinit w0) as (Et & El & Ep & Es) end.
    eapply (WorldOk_update w _ (S n)); rewrite ?Et, ?El, ?Ep, ?Es; try done; simpl.
    + eapply slots_after; [exact Hop | | exact Hs |]; simpl.
      * intros id s ?. by rewrite decide_False.
      * rewrite decide_True by done. split; [|done]. by rewrite decide_False.
    + by rewrite fn_lookup_insert_ne.
    + intros c _. apply loop_after. by intros ->.
  - specialize (Hs i) as Hi.
    match goal with E : status n i = _ |- _ => rewrite E in Hi end. destruct Hi as [Ht Hl].
    rewrite decide_False in Ht by done. rewrite Ht. simpl. intros [= <-].
    eapply (WorldOk_update w _ (S n)); try done; simpl.
    + eapply slots_after_same_live; [exact Hop | | exact Hs |]; simpl.
      * intros id s ?. by rewrite decide_False.
      * rewrite decide_True by done. eexists _, _. split; [done|]. by left.
    + intros c _. apply loop_after. by intros ->.
  - specialize (Hs i) as Hi.
    match goal with E : status n i = _ |- _ => rewrite E in Hi end.
    destruct Hi as (r & ml & Ht & Hml). rewrite Ht.
    destruct (live w i) eqn:Hl; [done|]. intros [= <-].
    destruct Hml as [[_ ?]|[-> ->]]; [done|].
    eapply (WorldOk_update w _ (S n)); try done; simpl.
    + eapply slots_after_same_live; [exact Hop | | exact Hs |]; simpl.
      * intros id s ?. by rewrite decide_False.
      * by rewrite decide_True.
    + intros c _ Hc. apply loop_after; [|done]. intros ->. rewrite Ht in Hc. done.
  - destruct (unlocked w); [|done]. intros [= <-]. specialize (Hs i) as Hi.
    match goal with E : status n i = _ |- _ => rewrite E in Hi end. destruct Hi as [Ht Hl].
    eapply (WorldOk_update w _ (S n)); try done; simpl.
    + eapply slots_after_same_live; [exact Hop | | exact Hs |]; simpl.
      * intros id s ?. by rewrite decide_False.
      * by rewrite decide_True.
    + intros c _ Hc. apply loop_after; [|done]. intros ->. rewrite Ht in Hc. done.
  - destruct (unlocked w); [|done]. intros [= <-].
    eapply (WorldOk_update w _ (S n)); try done; simpl.
    + eapply slots_after_same_live; [exact Hop | | exact Hs |]; simpl.
      * intros id s ?. by rewrite decide_False.
      * done.
    + intros c Hin Hc. apply loop_after; [|done]. intros ->. congruence.
Qed.

Lemma WorldOk_calls w w' :
  WorldOk w -> script w' = script w -> threads w' = threads w -> live w' = live w ->
  Forall (call_ok w') (posts w') -> WorldOk w'.
Proof.
  intros [(n & Hn & Hs & Hsl) Hu _] Es Et El Hc. constructor; [|by rewrite El|done].
  exists n. rewrite Es, Et, El. by split_and!.
Qed.

Lemma call_ok_same w w' p : threads w' = threads w -> call_ok w p -> call_ok w' p.
Proof. intros E. unfold call_ok. by rewrite E. Qed.

Lemma calls_same w w' ps :
  threads w' = threads w -> Forall (call_ok w) ps -> Forall (call_ok w') ps.
Proof. intros E. apply Forall_impl. intros p. by apply call_ok_same. Qed.

Lemma post_begin_ok w a tgt c w' :
  WorldOk w -> post_begin w a tgt c = Some w' -> WorldOk w'.
Proof.
  intros H. unfold post_begin. destruct (can_run w a) eqn:Hr; [|done].
  destruct (in_call w a); [done|]. intros [= <-].
  eapply WorldOk_calls; try done. simpl. constructor; [|eapply calls_same; [|apply H]; done].
  unfold call_ok. simpl. destruct a as [i|]; [|done]. simpl in Hr.
  destruct (threads w i) as [t|] eqn:Ht; [|done]. apply bool_decide_eq_true in Hr. split; [done|].
  unfold target_thread_outlives_current.
  rewrite (GetCurrentThreadIdentifier_own w i H) by by rewrite Ht.
  destruct (Nat.leb_spec (index tgt) (index i)); simpl; (split; [lia|]); [|done]. intros _. by split_and!.
Qed.

Lemma post_step_ok w i w' : WorldOk w -> post_step w i = Next w' -> WorldOk w'.
Proof.
  intros H. unfold post_step. destruct (posts w !! i) as [p|] eqn:Hp; [|done].
  pose proof (wo_calls w H) as Hc.
  assert (call_ok w p) as Hcp by (eapply Forall_lookup_1; [exact Hc | exact Hp]).
  assert (forall q, call_ok w q -> Forall (call_ok w) (<[i:=q]> (posts w))) as Hins.
  { intros. by apply Forall_insert. }
  destruct (post_pc p) as [| |loop] eqn:Hpc.
  - destruct (lock w); [done|]. intros [= <-]. eapply WorldOk_calls; try done; simpl.
    eapply calls_same; [done|]. apply Hins. unfold call_ok in *; simpl.
    destruct (poster p); [|done]. destruct Hcp as (? & Hle & Hl). split; [done|]. split; [done|]. intros Hlk.
    by destruct (Hl Hlk) as (? & ? & _).
  - intros [= <-]. eapply WorldOk_calls; try done; simpl.
    eapply calls_same; [done|]. apply Hins. unfold call_ok in *; simpl.
    destruct (poster p) as [c|]; [|done]. destruct Hcp as (Hcc & Hle & Hl). split; [done|]. split; [done|].
    intros Hlk. destruct (Hl Hlk) as [Hi _]. split; [done|]. split; [done|]. intros l [= <-].
    by destruct (outlived_target w c (target p) H Hcc Hi).
  - assert (Forall (call_ok w) (delete i (posts w))) as Hdel by by apply Forall_delete.
    destruct loop as [l|]; [destruct (live w l); [|done]|]; intros [= <-];
      destruct (locked p); eapply WorldOk_calls; try done; simpl; by eapply calls_same.
Qed.

Lemma on_thread_ok w id en f w' n :
  WorldOk w -> n <= length full_script -> script w = drop n full_script ->
  (forall id, slot_ok id (status n id) (threads w id) (live w id)) ->
  on_thread w id en f = Next w' ->
  (forall t, threads w id = Some t -> en t = true ->
     slot_ok id (status n id) (Some (f t)) (live w id) /\
     (in_call w (Browser id) = true -> message_loop (f t) = message_loop t)) ->
  WorldOk w'.
Proof.
  intros H Hn Hs Hsl Hon Hf. unfold on_thread in Hon.
  destruct (threads w id) as [t|] eqn:Ht; [|done]. destruct (en t) eqn:He; [|done].
  injection Hon as <-. destruct (Hf t eq_refl He) as [Hslot Hml].
  eapply (WorldOk_update w _ n); try done; simpl.
  - intros j. destruct (decide (j = id)) as [->|]; [by rewrite fn_lookup_insert|].
    by rewrite fn_lookup_insert_ne.
  - apply H.
  - intros c Hin Hc. apply loop_after; [|done]. intros ->. rewrite Ht in Hc. simpl in *.
    by rewrite Hml.
Qed.

(** Only a thread asked to stop is started and stopping. *)
Lemma stopping_slot id s t lv :
  slot_ok id s (Some t) lv -> started t = true -> stopping t = true ->
  exists r ml, s = StopRequested /\ t = Thread_ true true r ml /\
    (ml = Some id /\ lv = true \/ ml = None /\ r = false).
Proof.
  destruct s; simpl.
  - by intros [? _].
  - by intros [[= ->] _].
  - destruct (decide (id = UI)); by intros [[= ->] _].
  - intros (r & ml & [= ->] & Hm) _ _. by exists r, ml.
  - by intros [[= ->] _].
Qed.

Lemma world_step_ok w e w' : WorldOk w -> step w e = Next w' -> WorldOk w'.
Proof.
  intros H. pose proof H as [(n & Hn & Hs & Hsl) Hu Hc].
  destruct e as [|a tgt c|i|id|id|id|id d]; cbn [step].
  - destruct (in_call w (Browser UI)) eqn:E; [done|]. by apply main_step_ok.
  - destruct (post_begin w a tgt c) eqn:E; [|done]. intros [= <-]. by eapply post_begin_ok.
  - by apply post_step_ok.
  - intros Ho. eapply (on_thread_ok w id _ _ w' n); try done. intros t Ht He.
    apply andb_true_iff in He as [[Hst Hsp]%andb_true_iff Hr].
    specialize (Hsl id) as Hi. rewrite Ht in Hi.
    destruct (stopping_slot _ _ _ _ Hi Hst Hsp) as (r & ml & -> & -> & Hm). split; [|done].
    exists false, ml. split; [done|]. naive_solver.
  - destruct (in_call w (Browser id)) eqn:E; [done|].
    intros Ho. eapply (on_thread_ok w id _ _ w' n); try done. intros t Ht He.
    apply andb_true_iff in He as [[Hst Hsp]%andb_true_iff Hr].
    specialize (Hsl id) as Hi. rewrite Ht in Hi.
    destruct (stopping_slot _ _ _ _ Hi Hst Hsp) as (r & ml & -> & -> & Hm). split; [|congruence].
    simpl in *. exists false, None. destruct r; [done|]. split; [done|]. by right.
  - destruct (threads w id) as [t|] eqn:Ht; [|done].
    destruct (started t) eqn:Hst; [|done]. simpl.
    destruct (bool_decide (message_loop t = None)) eqn:Hml; [|done]. intros [= <-].
    apply bool_decide_eq_true in Hml. specialize (Hsl id) as Hi. rewrite Ht in Hi.
    destruct (full_script_at n Hn) as (_ & Hui & _). unfold ui_ok in Hui.
    assert (exists r, t = Thread_ true true r None /\ status n id = StopRequested /\ r = false)
      as (r & -> & Hsr & ->).
    { destruct (status n id) eqn:E; simpl in Hi.
      - by destruct Hi.
      - by destruct Hi as [[= ->] _].
      - destruct Hi as [[= ->] _]. by destruct (decide (id = UI)).
      - destruct Hi as (r & ml & [= ->] & [[-> _]|[-> ->]]); [done|]. by exists false.
      - by destruct Hi as [[= ->] _]. }
    assert (id <> UI) as Hid.
    { intros ->. rewrite Hsr in Hui. done. }
    eapply (WorldOk_update w _ n); try done; simpl.
    + intros j. destruct (decide (j = id)) as [->|].
      * rewrite fn_lookup_insert, Hsr, Ht. exists false, None. split; [done|]. by right.
      * rewrite fn_lookup_insert_ne by congruence. apply Hsl.
    + by rewrite fn_lookup_insert_ne.
  - unfold SetDelegate. destruct d, (delegates w id); intros [= <-];
      (eapply WorldOk_calls; try done; simpl; by eapply calls_same).
Qed.

Lemma World_new_ok : WorldOk World_new.
Proof.
  constructor; [|done|constructor]. exists 0. split; [lia|]. split; [done|].
  intros id. change (status 0 id) with Absent. split; [done|]. intros. by apply bool_decide_eq_false.
Qed.

Lemma world_reachable_ok w : reachable w -> WorldOk w.
Proof. induction 1 as [|? ? ? _ IH Hs]; [apply World_new_ok|]. by eapply world_step_ok. Qed.

Lemma world_execute_reachable w es : reachable w -> reachable (execute w es).
Proof.
  revert w. induction es as [|e es IH]; intros w H; simpl; [done|].
  destruct (step w e) eqn:E; [by apply IH | by apply IH |].
  apply IH. by eapply reachable_step.
Qed.

(** A step changes the array or the calls, not both. *)
Lemma main_step_posts w w' : main_step w = Next w' -> posts w' = posts w.
Proof.
  unfold main_step. destruct (script w) as [|[|i|i|i|i|i|] rest]; [done|..].
  all: try (destruct (unlocked w); [|done]; by intros [= <-]).
  - destruct (threads w i); [|done]. intros [= <-]. unfold BrowserThreadImpl_Init. by case_match.
  - destruct (threads w i) as [t|]; [|done].
    destruct (started t); [destruct (Thread_StopSoon t) as [? []]|]; by intros [= <-].
  - destruct (threads w i); [|done]. destruct (live w i); [done|]. by intros [= <-].
Qed.

Lemma post_step_threads w i w' :
  post_step w i = Next w' -> threads w' = threads w /\ live w' = live w.
Proof.
  unfold post_step. destruct (posts w !! i) as [p|]; [|done].
  destruct (post_pc p) as [| |[l|]]; [destruct (lock w); [done|]| |destruct (live w l); [|done]|];
    try (by intros [= <-]); destruct (locked p); by intros [= <-].
Qed.

Lemma step_frame w e w' :
  step w e = Next w' -> threads w' = threads w \/ posts w' = posts w.
Proof.
  destruct e as [|a tgt c|i|id|id|id|id d]; cbn [step].
  - destruct (in_call w (Browser UI)); [done|]. intros. right. by apply main_step_posts.
  - unfold post_begin. destruct (_ && _); [|done]. intros [= <-]. by left.
  - intros. left. by eapply post_step_threads.
  - unfold on_thread. destruct (threads w id) as [t|]; [|done].
    destruct (started t && stopping t && running t); [|done]. intros [= <-]. by right.
  - destruct (in_call w (Browser id)); [done|]. unfold on_thread.
    destruct (threads w id) as [t|]; [|done].
    destruct (started t && stopping t && negb (running t)); [|done]. intros [= <-]. by right.
  - destruct (threads w id) as [t|]; [|done].
    destruct (started t && bool_decide (message_loop t = None)); [|done]. intros [= <-]. by right.
  - unfold SetDelegate. destruct d, (delegates w id); intros [= <-]; by left.
Qed.

(** A thread in the middle of a post keeps its loop. *)
Lemma caller_stays w p c e w' :
  WorldOk w -> WorldOk w' -> p ∈ posts w -> poster p = Browser c -> step w e = Next w' ->
  threads w' c ≫= message_loop = Some c.
Proof.
  intros H H' Hin Hp Hs. apply list_elem_of_In in Hin.
  assert (forall w0, WorldOk w0 -> In p (posts w0) -> threads w0 c ≫= message_loop = Some c) as Hc.
  { intros w0 [_ _ Hc] Hin0. rewrite List.Forall_forall in Hc. specialize (Hc p Hin0).
    unfold call_ok in Hc. rewrite Hp in Hc. by destruct Hc. }
  destruct (step_frame _ _ _ Hs) as [E|E].
  - rewrite E. by apply Hc.
  - apply Hc; [done|]. by rewrite E.
Qed.

(** ** The theorems *)

(** The registered threads are always a prefix of the enumeration: a thread
    is in the array only if every thread listed before it is. *)
Theorem threads_registered_in_order w i j :
  reachable w -> index i < index j -> IsThreadInitialized w j = true ->
  IsThreadInitialized w i = true.
Proof.
  intros [(n & Hn & _ & Hs) _ _]%world_reachable_ok Hij Hj. unfold IsThreadInitialized in *.
  assert (status n j <> Absent) as Hjs.
  { intros E. specialize (Hs j). rewrite E in Hs. destruct Hs as [Hs _]. by rewrite Hs in Hj. }
  pose proof (present_before n i j Hn Hij Hjs) as His. specialize (Hs i).
  destruct (status n i); simpl in Hs; [done|..]; by destruct Hs as [-> _] || destruct Hs as (? & ? & -> & _).
Qed.

(** C27: a browser thread that posts to itself or to a thread listed before it does
    not take the lock, never waits, and always succeeds, however the steps of the
    other threads come between its own and whoever holds the lock. It may begin the
    call whenever it is not in another one; in every reachable state in which the
    call is in progress its next step is possible and leaves the lock as it is: it
    reads the loop of the target, which is there, or it appends the task to the
    target's loop, last, and answers true. *)
Theorem outliving_post_reaches_target w c tgt :
  reachable w -> index tgt <= index c ->
  (forall n, can_run w (Browser c) = true -> in_call w (Browser c) = false ->
    exists w', step w (EvPostBegin (Browser c) tgt n) = Next w' /\ lock w' = lock w /\
      posts w' = PostCall_ (Browser c) tgt n false Reading :: posts w) /\
  forall i p, posts w !! i = Some p -> poster p = Browser c -> target p = tgt ->
    locked p = false /\
    exists w', step w (EvPostStep i) = Next w' /\ lock w' = lock w /\
      match post_pc p with
      | Locking => False
      | Reading => posts w' = <[i := set_pc p (Posting (Some tgt))]> (posts w) /\ queue w' = queue w
      | Posting _ => posts w' = delete i (posts w) /\ results w' = results w ++ [(p, true)] /\
          queue w' tgt = queue w tgt ++ [Client (closure p)]
      end.
Proof.
  intros H%world_reachable_ok Hi. split.
  - intros n Hr Hin. cbn [step]. unfold post_begin, target_thread_outlives_current. rewrite Hr, Hin.
    simpl in Hr. destruct (threads w c) as [t|] eqn:Ht; [|done]. apply bool_decide_eq_true in Hr.
    rewrite (GetCurrentThreadIdentifier_own w c H) by by rewrite Ht.
    rewrite (proj2 (Nat.leb_le _ _) Hi). eexists; split; [reflexivity|]. done.
  - intros i p Hp Hc <-. pose proof (wo_calls w H) as Hcs.
    eapply Forall_lookup_1 in Hcs as Hcp; [|exact Hp]. unfold call_ok in Hcp. rewrite Hc in Hcp.
    destruct Hcp as (Hcc & Hlk & Hx). pose proof (Hlk Hi) as Hl. destruct (Hx Hl) as (_ & Hnl & Hpc).
    split; [exact Hl|]. cbn [step]. unfold post_step. rewrite Hp.
    destruct (outlived_target w c (target p) H Hcc Hi) as [Hloop Hlive].
    destruct (post_pc p) as [| |l] eqn:E; [done | |].
    + rewrite Hloop. eexists; split; [reflexivity|]. done.
    + rewrite (Hpc l eq_refl), Hl, Hlive. eexists; split; [reflexivity|]. split; [done|].
      split; [done|]. split; [done|]. simpl. by rewrite fn_lookup_insert.
Qed.

(** While such a call is in progress, no step of any thread changes the
    pointer it reads without the lock, or ends the life of the loop behind it. *)
Theorem lock_free_read_is_stable w p c e w' :
  reachable w -> p ∈ posts w -> poster p = Browser c -> locked p = false ->
  step w e = Next w' ->
  threads w' (target p) ≫= message_loop = Some (target p) /\ live w' (target p) = true.
Proof.
  intros H%world_reachable_ok Hin Hp Hl Hs. pose proof (world_step_ok _ _ _ H Hs) as H'.
  pose proof (caller_stays w p c e w' H H' Hin Hp Hs) as Hc.
  pose proof (wo_calls w H) as Hcs. rewrite List.Forall_forall in Hcs.
  specialize (Hcs p (proj1 (list_elem_of_In _ _) Hin)). unfold call_ok in Hcs. rewrite Hp in Hcs.
  destruct Hcs as (_ & _ & Hx). destruct (Hx Hl) as [Hi _]. by eapply outlived_target.
Qed.

(** The calls of a browser thread are lock-free exactly towards the threads that
    are not listed after it. *)
Lemma browser_thread_lock_decision w c tgt :
  reachable w -> can_run w (Browser c) = true ->
  target_thread_outlives_current w (Browser c) tgt = (index tgt <=? index c).
Proof.
  intros H%world_reachable_ok Hr. unfold target_thread_outlives_current. simpl in Hr.
  destruct (threads w c) as [t|] eqn:Ht; [|done]. apply bool_decide_eq_true in Hr.
  rewrite (GetCurrentThreadIdentifier_own w c H); [done|]. by rewrite Ht.
Qed.

(** *** The properties at concrete schedules *)

Definition start_all : list Event := replicate (length startup_script) EvMain.

Lemma execute_new_reachable es : reachable (execute World_new es).
Proof. apply world_execute_reachable, reachable_new. Qed.

Lemma threads_registered_in_order_witness :
  IsThreadInitialized (execute World_new start_all) DB = true.
Proof.
  apply (threads_registered_in_order (execute World_new start_all) DB IO);
    [apply execute_new_reachable | vm_compute; lia | vm_compute; reflexivity].
Defined.

(** The cache thread posts to the file thread. *)
Definition cache_posts : list Event :=
  start_all ++ [EvPostBegin (Browser CACHE) FILE 7; EvPostStep 0].

(** While another thread holds the lock, the file thread has begun a post to itself. *)
Definition file_posts_to_itself : World :=
  execute World_new (start_all ++ [EvPostBegin (Worker 1) IO 5; EvPostStep 0; EvPostBegin (Browser FILE) FILE 7;
                                   EvPostStep 0]).

Lemma outliving_post_reaches_target_witness :
  lock file_posts_to_itself = Some (Worker 1) /\
  (forall n, can_run file_posts_to_itself (Browser FILE) = true ->
    in_call file_posts_to_itself (Browser FILE) = false ->
    exists w', step file_posts_to_itself (EvPostBegin (Browser FILE) FILE n) = Next w' /\
      lock w' = lock file_posts_to_itself /\
      posts w' = PostCall_ (Browser FILE) FILE n false Reading :: posts file_posts_to_itself) /\
  exists p, posts file_posts_to_itself !! 0 = Some p /\ post_pc p = Posting (Some FILE) /\
    locked p = false /\
    exists w', step file_posts_to_itself (EvPostStep 0) = Next w' /\ lock w' = lock file_posts_to_itself /\
      match post_pc p with
      | Locking => False
      | Reading => posts w' = <[0 := set_pc p (Posting (Some FILE))]> (posts file_posts_to_itself) /\
                   queue w' = queue file_posts_to_itself
      | Posting _ => posts w' = delete 0 (posts file_posts_to_itself) /\
          results w' = results file_posts_to_itself ++ [(p, true)] /\
          queue w' FILE = queue file_posts_to_itself FILE ++ [Client (closure p)]
      end.
Proof.
  destruct (outliving_post_reaches_target file_posts_to_itself FILE FILE) as [Hbegin Hstep];
    [apply execute_new_reachable | vm_compute; lia |].
  split; [vm_compute; reflexivity|]. split; [exact Hbegin|].
  exists (PostCall_ (Browser FILE) FILE 7 false (Posting (Some FILE))).
  split; [vm_compute; reflexivity|]. split; [reflexivity|].
  apply Hstep; [vm_compute; reflexivity | reflexivity | reflexivity].
Defined.

Lemma lock_free_read_is_stable_witness :
  exists w', step (execute World_new cache_posts) EvMain = Next w' /\
    threads w' FILE ≫= message_loop = Some FILE /\ live w' FILE = true.
Proof.
  eexists. split; [vm_compute; reflexivity|].
  apply (lock_free_read_is_stable (execute World_new cache_posts)
           (PostCall_ (Browser CACHE) FILE 7 false (Posting (Some FILE))) CACHE EvMain);
    [apply execute_new_reachable | | reflexivity | reflexivity | vm_compute; reflexivity].
  vm_compute. left.
Defined.

(** The lock does not protect the other calls from the end of a thread: the
    database thread posts to the IO thread, has read its loop under the lock, the
    IO thread is stopped and destroys the loop, and the call uses it. *)
Theorem locked_post_can_use_a_destroyed_loop :
  exists w i p, reachable w /\ posts w !! i = Some p /\ poster p = Browser DB /\
    locked p = true /\ lock w = Some (Browser DB) /\ step w (EvPostStep i) = UseAfterFree.
Proof.
  exists (execute World_new (start_all ++
    [EvPostBegin (Browser DB) IO 7; EvPostStep 0; EvPostStep 0; EvMain; EvRunReturned IO;
     EvClearLoop IO; EvDestroyLoop IO])), 0,
    (PostCall_ (Browser DB) IO 7 true (Posting (Some IO))).
  split; [apply execute_new_reachable|]. vm_compute. by split_and!.
Qed.

(** A thread without a message loop is taken for a browser thread that is
    registered but has not started: the absent loop pointers compare equal, and
    its calls to the threads listed before that one skip the lock. *)
Theorem loopless_thread_is_misidentified n :
  exists w, reachable w /\ threads w DB = Some (Thread_new None) /\
    GetCurrentThreadIdentifier w (Worker n) = Some DB /\
    CurrentlyOn w (Worker n) DB = true /\
    target_thread_outlives_current w (Worker n) UI = true.
Proof.
  exists (execute World_new [EvMain; EvMain]).
  split; [apply execute_new_reachable|]. vm_compute. by split_and!.
Qed.
