(* ===== verification/Startup.v ===== *)
(** * Startup and shutdown of the browser process

    [content/startup_task_runner.cc], [content/browser_main_loop.cc],
    [content/browser_main_runner.cc] and [content/browser_main.cc]. The embedder's
    [BrowserMainParts] is a parameter: whether there is one, and what its hooks
    return. What happens is recorded in a log. *)

From stdpp Require Import base numbers list.
From Stdlib Require Import ZArith Lia.
From S2P Require Import Prelude BrowserThreads.

Local Open Scope Z_scope.

(** ** [StartupTaskRunner] *)
Section StartupTaskRunner.
Context {St : Type}.

(** A startup task acts on the program's state and returns a status; the
    completion callback receives the last one. *)
Definition StartupTask : Type := St -> St * Z.

Record StartupTaskRunner := StartupTaskRunner_ {
  task_list : list StartupTask;
  startup_complete_callback : option (Z -> St -> St);
  wrapped_posted : nat }.     (** [WrappedTask]s pending on the proxy *)

Definition StartupTaskRunner_new (callback : option (Z -> St -> St)) : StartupTaskRunner :=
  StartupTaskRunner_ [] callback 0.

Definition AddTask (r : StartupTaskRunner) (t : StartupTask) : StartupTaskRunner :=
  StartupTaskRunner_ (task_list r ++ [t]) (startup_complete_callback r) (wrapped_posted r).

(** Runs the callback, if there still is one, and clears it. *)
Definition complete (r : StartupTaskRunner) (s : St) (result : Z) : StartupTaskRunner * St :=
  (StartupTaskRunner_ (task_list r) None (wrapped_posted r),
   match startup_complete_callback r with Some cb => cb result s | None => s end).

Definition PostNonNestableWrapped (r : StartupTaskRunner) : StartupTaskRunner :=
  StartupTaskRunner_ (task_list r) (startup_complete_callback r) (S (wrapped_posted r)).

Definition StartRunningTasksAsync (r : StartupTaskRunner) (s : St) : StartupTaskRunner * St :=
  match task_list r with
  | [] => complete r s 0
  | _ => (PostNonNestableWrapped r, s)
  end.

(** The [for] loop of [RunAllTasksNow]; [result] is the last status. *)
Fixpoint run_tasks (ts : list StartupTask) (s : St) (result : Z) : St * Z :=
  match ts with
  | [] => (s, result)
  | t :: ts' => let '(s', result') := t s in
                if 0 <? result' then (s', result') else run_tasks ts' s' result'
  end.

Definition RunAllTasksNow (r : StartupTaskRunner) (s : St) : StartupTaskRunner * St :=
  let '(s', result) := run_tasks (task_list r) s 0 in
  complete (StartupTaskRunner_ [] (startup_complete_callback r) (wrapped_posted r)) s' result.

(** The body of [WrappedTask]. *)
Definition WrappedTask (r : StartupTaskRunner) (s : St) : StartupTaskRunner * St :=
  match task_list r with
  | [] => (r, s)
  | t :: ts =>
      let '(s', result) := t s in
      let ts' := if 0 <? result then [] else ts in
      let r' := StartupTaskRunner_ ts' (startup_complete_callback r) (wrapped_posted r) in
      match ts' with
      | [] => complete r' s' result
      | _ => (PostNonNestableWrapped r', s')
      end
  end.

(** The proxy's loop runs one pending [WrappedTask]. *)
Definition run_posted (r : StartupTaskRunner) (s : St) : option (StartupTaskRunner * St) :=
  match wrapped_posted r with
  | O => None
  | S n => Some (WrappedTask (StartupTaskRunner_ (task_list r) (startup_complete_callback r) n) s)
  end.

(** The proxy's loop runs what is pending, [fuel] times at most. *)
Fixpoint drain (fuel : nat) (r : StartupTaskRunner) (s : St) : StartupTaskRunner * St :=
  match fuel with
  | O => (r, s)
  | S fuel' => match run_posted r s with Some (r', s') => drain fuel' r' s' | None => (r, s) end
  end.
End StartupTaskRunner.

Arguments StartupTask : clear implicits.
Arguments StartupTaskRunner : clear implicits.

(** ** [BrowserMainLoop] *)

Definition RESULT_CODE_NORMAL_EXIT : Z := 0.

(** What can be observed of startup and shutdown. *)
Inductive LogEntry :=
  | PreEarlyInitialization | PostEarlyInitialization | ToolkitInitialized
  | PreMainMessageLoopStart | PostMainMessageLoopStart | PreCreateThreadsHook
  | PreMainMessageLoopRunHook | MainMessageLoopRunHook | PostMainMessageLoopRunHook
  | PostDestroyThreadsHook
  | ThreadOp (op : MainOp)
  | RunLoopRun | SetIOAllowed (allowed : bool) | DisallowWaiting
  | PostIOAllowedToIO | ShutdownThreadPool | WaitForDebugger.

(** The embedder's hooks, as far as their results matter. *)
Record Parts := Parts_ {
  PreCreateThreads_result : Z;
  (** [MainMessageLoopRun(&result_code)]: the result code, and whether it ran a loop *)
  MainMessageLoopRun_result : Z;
  MainMessageLoopRun_ran : bool }.

Record MainState := MainState_ {
  parts_ : option Parts;
  result_code_ : Z;
  created_threads_ : option bool;   (** [None]: not initialised *)
  log : list LogEntry }.

Record BrowserMainLoop := BrowserMainLoop_ {
  main_state : MainState;
  startup_task_runner_ : option (StartupTaskRunner MainState) }.

Definition say (s : MainState) (es : list LogEntry) : MainState :=
  MainState_ (parts_ s) (result_code_ s) (created_threads_ s) (log s ++ es).
Definition set_result (s : MainState) (r : Z) : MainState :=
  MainState_ (parts_ s) r (created_threads_ s) (log s).
Definition set_created (s : MainState) : MainState :=
  MainState_ (parts_ s) (result_code_ s) (Some true) (log s).

(** [if (parts_) parts_->hook()]. *)
Definition hook (s : MainState) (e : LogEntry) : MainState :=
  match parts_ s with Some _ => say s [e] | None => s end.

(** Constructor and [Init]; the constructor does not initialise
    [created_threads_]. *)
Definition BrowserMainLoop_new (parts : option Parts) : BrowserMainLoop :=
  BrowserMainLoop_ (MainState_ parts RESULT_CODE_NORMAL_EXIT None []) None.

Definition EarlyInitialization (s : MainState) : MainState :=
  hook (hook s PreEarlyInitialization) PostEarlyInitialization.

(** [InitializeToolkit]: the Windows call succeeds or the process ends. *)
Definition InitializeToolkit (s : MainState) : MainState * bool :=
  (hook s ToolkitInitialized, true).

Definition MainMessageLoopStart (s : MainState) : MainState :=
  hook (say (hook s PreMainMessageLoopStart) [ThreadOp OpRegisterMain]) PostMainMessageLoopStart.

Definition PreCreateThreads : StartupTask MainState := fun s =>
  let s := match parts_ s with
           | Some p => set_result (say s [PreCreateThreadsHook]) (PreCreateThreads_result p)
           | None => s
           end in
  (s, result_code_ s).

(** [CreateThreads]: the switch covers every identifier but [UI]; a thread that
    does not start ends the process ([LOG(FATAL)]). *)
Definition CreateThreads : StartupTask MainState := fun s =>
  let s := foldl (fun s id => say s [ThreadOp (OpRegister id); ThreadOp (OpStart id)])
             s sub_threads in
  let s := set_created s in
  (s, result_code_ s).

Definition BrowserThreadsStarted : StartupTask MainState := fun s => (s, result_code_ s).

Definition PreMainMessageLoopRun : StartupTask MainState := fun s =>
  let s := say (hook s PreMainMessageLoopRunHook) [SetIOAllowed false; DisallowWaiting] in
  (s, result_code_ s).

Definition CreateStartupTasks (m : BrowserMainLoop) : BrowserMainLoop :=
  let r := match startup_task_runner_ m with
           | Some r => r
           | None => AddTask (AddTask (AddTask (AddTask (StartupTaskRunner_new None)
                       PreCreateThreads) CreateThreads) BrowserThreadsStarted)
                       PreMainMessageLoopRun
           end in
  let '(r, s) := RunAllTasksNow r (main_state m) in
  BrowserMainLoop_ s (Some r).

Definition RunMainMessageLoopParts (s : MainState) : MainState :=
  let '(s, ran_main_loop) :=
    match parts_ s with
    | Some p => (set_result (say s [MainMessageLoopRunHook]) (MainMessageLoopRun_result p),
                 MainMessageLoopRun_ran p)
    | None => (s, false)
    end in
  if ran_main_loop then s else say s [RunLoopRun].

(** [ShutdownThreadsAndCleanUp]; [None]: the test reads a member that was never
    initialised. Each thread's reset runs its destructor: stop, join, unregister. *)
Definition ShutdownThreadsAndCleanUp (s : MainState) : option MainState :=
  match created_threads_ s with
  | None => None
  | Some false => Some s
  | Some true =>
      let s := say s [SetIOAllowed true; PostIOAllowedToIO] in
      let s := hook s PostMainMessageLoopRunHook in
      let s := foldl (fun s id => say s [ThreadOp (OpStopSoon id); ThreadOp (OpJoin id);
                                         ThreadOp (OpUnregister id)]) s (rev sub_threads) in
      let s := say s [ShutdownThreadPool] in
      Some (hook s PostDestroyThreadsHook)
  end.

(** ** [BrowserMainRunnerImpl] *)

Record BrowserMainRunner := BrowserMainRunner_ {
  initialization_started_ : bool;
  is_shutdown_ : bool;
  main_loop_ : option BrowserMainLoop }.

Definition BrowserMainRunner_new : BrowserMainRunner := BrowserMainRunner_ false false None.

Definition with_state (m : BrowserMainLoop) (f : MainState -> MainState) : BrowserMainLoop :=
  BrowserMainLoop_ (f (main_state m)) (startup_task_runner_ m).

(** [Initialize]; [None] is the use of an absent main loop. *)
Definition Initialize (b : BrowserMainRunner) (parts : option Parts) (wait_for_debugger : bool)
    : option (BrowserMainRunner * Z) :=
  let start :=
    if initialization_started_ b then (main_loop_ b, true) else
    let m := BrowserMainLoop_new parts in
    let m := if wait_for_debugger then with_state m (fun s => say s [WaitForDebugger]) else m in
    let m := with_state m EarlyInitialization in
    let '(s, ok) := InitializeToolkit (main_state m) in
    let m := BrowserMainLoop_ s (startup_task_runner_ m) in
    if ok then (Some (with_state m MainMessageLoopStart), true) else (Some m, false) in
  let '(m, toolkit_ok) := start in
  if negb toolkit_ok then Some (BrowserMainRunner_ true (is_shutdown_ b) m, 1) else
  m ← m;
  let m := CreateStartupTasks m in
  let result_code := result_code_ (main_state m) in
  Some (BrowserMainRunner_ true (is_shutdown_ b) (Some m), if 0 <? result_code then result_code else -1).

Definition Run (b : BrowserMainRunner) : option (BrowserMainRunner * Z) :=
  m ← main_loop_ b;
  let m := with_state m RunMainMessageLoopParts in
  Some (BrowserMainRunner_ (initialization_started_ b) (is_shutdown_ b) (Some m),
        result_code_ (main_state m)).

(** [Shutdown]: the log of the destroyed main loop is returned; its destructor
    unregisters the main thread. *)
Definition Shutdown (b : BrowserMainRunner) : option (BrowserMainRunner * list LogEntry) :=
  m ← main_loop_ b;
  s ← ShutdownThreadsAndCleanUp (main_state m);
  Some (BrowserMainRunner_ (initialization_started_ b) true None,
        log s ++ [ThreadOp OpUnregisterMain]).

(** [~BrowserMainRunnerImpl]. *)
Definition BrowserMainRunner_destroy (b : BrowserMainRunner) : option (list LogEntry) :=
  if initialization_started_ b && negb (is_shutdown_ b)
  then '(_, l) ← Shutdown b; Some l else Some [].

(** [BrowserMain]: the exit code and the log; [None] is undefined behaviour. *)
Definition BrowserMain (parts : option Parts) (wait_for_debugger : bool)
    : option (Z * list LogEntry) :=
  '(b, exit_code) ← Initialize BrowserMainRunner_new parts wait_for_debugger;
  if 0 <=? exit_code then
    l ← BrowserMainRunner_destroy b; Some (exit_code, l)
  else
    '(b, exit_code) ← Run b;
    '(b, l) ← Shutdown b;
    l' ← BrowserMainRunner_destroy b;
    Some (exit_code, l ++ l').

(** ** Startup tasks *)

Lemma drain_wrapped {St} (cb : option (Z -> St -> St)) t ts s result :
  drain (S (length ts)) (StartupTaskRunner_ (t :: ts) cb 1) s
  = let '(s', result') := run_tasks (t :: ts) s result in
    complete (StartupTaskRunner_ [] cb 0) s' result'.
Proof.
  revert t s result. induction ts as [|t' ts IH]; intros t s result; simpl.
  - unfold WrappedTask. simpl. destruct (t s) as [s' r']. by destruct (0 <? r').
  - unfold run_posted, WrappedTask. simpl. destruct (t s) as [s' r']. destruct (0 <? r'); [done|].
    exact (IH t' s' r').
Qed.

(** Starting the tasks asynchronously and letting the loop run what is posted
    ends in the same state, with the same callback run on the same status, as
    running them synchronously; one posted task per startup task is enough. *)
Theorem async_equals_sync {St} (r : StartupTaskRunner St) s :
  wrapped_posted r = 0%nat ->
  (let '(r1, s1) := StartRunningTasksAsync r s in drain (length (task_list r)) r1 s1)
  = RunAllTasksNow r s.
Proof.
  destruct r as [ts cb n]. simpl. intros ->. unfold StartRunningTasksAsync, RunAllTasksNow. simpl.
  destruct ts as [|t ts]; [done|]. unfold PostNonNestableWrapped. simpl wrapped_posted.
  simpl task_list. simpl startup_complete_callback. apply (drain_wrapped cb t ts s 0).
Qed.

(** *** Any interleaving

    Tasks that record their identity and return a given status, and a callback
    that counts. *)
Definition logging_task (k : nat) (status : Z) : StartupTask (list nat * nat) :=
  fun s => ((s.1 ++ [k], s.2), status).

Definition counting_callback : Z -> list nat * nat -> list nat * nat := fun _ s => (s.1, S s.2).

Inductive RunnerOp := RAdd (k : nat) (status : Z) | RStartAsync | RRunAll | RPosted.

Definition runner_step (x : StartupTaskRunner (list nat * nat) * (list nat * nat)) (op : RunnerOp) :=
  match op with
  | RAdd k status => (AddTask x.1 (logging_task k status), x.2)
  | RStartAsync => StartRunningTasksAsync x.1 x.2
  | RRunAll => RunAllTasksNow x.1 x.2
  | RPosted => match run_posted x.1 x.2 with Some y => y | None => x end
  end.

Definition added (ops : list RunnerOp) : list nat :=
  omap (fun op => match op with RAdd k _ => Some k | _ => None end) ops.

(** The runner holds logging tasks; those run and those held are a sublist of
    those added, in order; a used callback is gone. *)
Definition runner_ok (ks : list nat) (x : StartupTaskRunner (list nat * nat) * (list nat * nat)) :=
  exists held, task_list x.1 = map (fun p => logging_task p.1 p.2) held /\
    sublist (x.2.1 ++ map fst held) ks /\
    match startup_complete_callback x.1 with
    | Some cb => cb = counting_callback /\ x.2.2 = 0%nat
    | None => (x.2.2 <= 1)%nat
    end.

Lemma run_tasks_log held s result :
  exists k n, run_tasks (map (fun p => logging_task p.1 p.2) held) s result
    = ((s.1 ++ map fst (take k held), s.2), n).
Proof.
  revert s result. induction held as [|[k st] held IH]; intros [l n] result; simpl.
  - exists 0%nat, result. by rewrite app_nil_r.
  - destruct (0 <? st).
    + by exists 1%nat, st.
    + destruct (IH (l ++ [k], n) st) as (j & n' & ->). exists (S j), n'. simpl.
      by rewrite <- app_assoc.
Qed.

Lemma complete_ok ks held (r : StartupTaskRunner (list nat * nat)) s result :
  task_list r = map (fun p => logging_task p.1 p.2) held ->
  sublist (s.1 ++ map fst held) ks ->
  match startup_complete_callback r with
  | Some cb => cb = counting_callback /\ s.2 = 0%nat | None => (s.2 <= 1)%nat end ->
  runner_ok ks (complete r s result).
Proof.
  intros Ht Hs Hc. exists held. unfold complete. simpl. split; [done|].
  destruct (startup_complete_callback r) as [cb|]; simpl.
  - destruct Hc as [-> Hc]. simpl. rewrite Hc. by split; [|lia].
  - by split.
Qed.

Lemma runner_step_ok ks x op :
  runner_ok ks x -> runner_ok (ks ++ added [op]) (runner_step x op).
Proof.
  destruct x as [r s]. intros (held & Ht & Hs & Hc). simpl in *. destruct op as [k st| | |]; simpl.
  - exists (held ++ [(k, st)]). simpl. rewrite Ht, !map_app. split; [done|]. split; [|done].
    rewrite app_assoc. by apply sublist_app.
  - rewrite app_nil_r. unfold StartRunningTasksAsync. destruct (task_list r) eqn:E.
    + eapply complete_ok; [by rewrite E | done | done].
    + exists held. simpl. by rewrite E.
  - rewrite app_nil_r. unfold RunAllTasksNow. rewrite Ht.
    destruct (run_tasks_log held s 0) as (j & n & ->).
    apply (complete_ok ks []); simpl; [done| |done]. rewrite app_nil_r.
    etrans; [|exact Hs]. apply sublist_app; [done|].
    rewrite <- (take_drop j held) at 2. rewrite map_app. by apply sublist_inserts_r.
  - rewrite app_nil_r. unfold run_posted. destruct (wrapped_posted r) as [|n]; [by exists held|].
    unfold WrappedTask. simpl. rewrite Ht. destruct held as [|[k st] held]; simpl.
    + by exists [].
    + assert (sublist ((s.1 ++ [k]) ++ map fst held) ks) as Hs' by by rewrite <- app_assoc.
      destruct (0 <? st).
      * apply (complete_ok ks []); simpl; [done| |done]. rewrite app_nil_r.
        etrans; [|exact Hs']. by apply sublist_inserts_r.
      * destruct held as [|p held].
        -- apply (complete_ok ks []); done.
        -- exists (p :: held). done.
Qed.

Lemma runner_ops_ok ks x ops : runner_ok ks x -> runner_ok (ks ++ added ops) (foldl runner_step x ops).
Proof.
  revert ks x. induction ops as [|op ops IH]; intros ks x H; simpl.
  - by rewrite app_nil_r.
  - apply (runner_step_ok ks x op) in H. apply IH in H.
    rewrite <- app_assoc in H. by destruct op.
Qed.

(** However additions, asynchronous starts, synchronous runs and posted
    tasks interleave, the startup tasks run are a sublist of those added (each at
    most once, in order) and the completion callback runs at most once. *)
Theorem startup_tasks_run_at_most_once ops :
  let '(_, (run, completions)) :=
    foldl runner_step (StartupTaskRunner_new (Some counting_callback), ([], 0%nat)) ops in
  sublist run (added ops) /\ (completions <= 1)%nat.
Proof.
  assert (runner_ok (added ops)
    (foldl runner_step (StartupTaskRunner_new (Some counting_callback), ([], 0%nat)) ops)) as H.
  { apply (runner_ops_ok []). by exists []. }
  destruct (foldl _ _ _) as [r [run n]]. destruct H as (held & _ & Hs & Hc). simpl in *. split.
  - etrans; [|exact Hs]. by apply sublist_inserts_r.
  - destruct (startup_complete_callback r); lia.
Qed.

Lemma async_equals_sync_witness :
  (let r := AddTask (AddTask (StartupTaskRunner_new (Some counting_callback)) (logging_task 1 0))
              (logging_task 2 5) in
   let '(r1, s1) := StartRunningTasksAsync r ([], 0%nat) in drain 2 r1 s1)
  = RunAllTasksNow (AddTask (AddTask (StartupTaskRunner_new (Some counting_callback))
      (logging_task 1 0)) (logging_task 2 5)) ([], 0%nat).
Proof.
  exact (async_equals_sync (AddTask (AddTask (StartupTaskRunner_new (Some counting_callback))
    (logging_task 1 0)) (logging_task 2 5)) ([], 0%nat) eq_refl).
Defined.

(** ** The process *)

(** The operations on the threads, and the hooks, of a log. *)
Definition thread_ops (l : list LogEntry) : list MainOp :=
  omap (fun e => match e with ThreadOp op => Some op | _ => None end) l.

Definition is_hook (e : LogEntry) : bool :=
  match e with
  | PreEarlyInitialization | PostEarlyInitialization | ToolkitInitialized
  | PreMainMessageLoopStart | PostMainMessageLoopStart | PreCreateThreadsHook
  | PreMainMessageLoopRunHook | MainMessageLoopRunHook | PostMainMessageLoopRunHook
  | PostDestroyThreadsHook => true
  | _ => false
  end.

(** When the embedder's [PreCreateThreads] succeeds, [BrowserMain] performs
    on the browser threads exactly the program the thread machine assumes, calls
    each hook once in the documented order, runs the main message loop itself
    exactly when the embedder did not, and returns the embedder's result code. *)
Theorem browser_main_lifecycle p wait :
  PreCreateThreads_result p <= 0 ->
  exists l, BrowserMain (Some p) wait = Some (MainMessageLoopRun_result p, l) /\
    thread_ops l = full_script /\
    List.filter is_hook l =
      [PreEarlyInitialization; PostEarlyInitialization; ToolkitInitialized;
       PreMainMessageLoopStart; PostMainMessageLoopStart; PreCreateThreadsHook;
       PreMainMessageLoopRunHook; MainMessageLoopRunHook; PostMainMessageLoopRunHook;
       PostDestroyThreadsHook] /\
    (In RunLoopRun l <-> MainMessageLoopRun_ran p = false).
Proof.
  destruct p as [[|q|q] code ran]; simpl; intros Hpre; [|lia|];
    destruct wait, ran; (eexists; split; [vm_compute; reflexivity|]);
    (split; [vm_compute; reflexivity|]); (split; [vm_compute; reflexivity|]);
    vm_compute; intuition congruence.
Qed.

(** When it fails, no thread is created, and the destructor of the runner
    tests [created_threads_], which nothing has initialised. *)
Theorem early_exit_reads_uninitialised p wait :
  0 < PreCreateThreads_result p ->
  exists b, Initialize BrowserMainRunner_new (Some p) wait = Some (b, PreCreateThreads_result p) /\
    BrowserMainRunner_destroy b = None /\ BrowserMain (Some p) wait = None.
Proof.
  destruct p as [[|q|q] code ran]; simpl; intros Hpre; [lia| |lia];
    destruct wait; (eexists; split; [vm_compute; reflexivity|]);
    split; vm_compute; reflexivity.
Qed.

(** Initialising a second time runs nothing again. *)
Theorem initialize_idempotent parts parts' wait wait' b code :
  Initialize BrowserMainRunner_new parts wait = Some (b, code) ->
  Initialize b parts' wait' = Some (b, code).
Proof.
  intros H. destruct parts as [[[|q|q] c ran]|]; destruct wait; vm_compute in H;
    injection H as <- <-; vm_compute; reflexivity.
Qed.

Definition sample_parts (pre : Z) : option Parts := Some (Parts_ pre 3 false).

Lemma browser_main_lifecycle_witness :
  exists l, BrowserMain (sample_parts 0) true = Some (3, l) /\
    thread_ops l = full_script /\
    List.filter is_hook l =
      [PreEarlyInitialization; PostEarlyInitialization; ToolkitInitialized;
       PreMainMessageLoopStart; PostMainMessageLoopStart; PreCreateThreadsHook;
       PreMainMessageLoopRunHook; MainMessageLoopRunHook; PostMainMessageLoopRunHook;
       PostDestroyThreadsHook] /\
    (In RunLoopRun l <-> MainMessageLoopRun_ran (Parts_ 0 3 false) = false).
Proof. apply (browser_main_lifecycle (Parts_ 0 3 false) true). simpl. lia. Defined.

Lemma early_exit_reads_uninitialised_witness :
  exists b, Initialize BrowserMainRunner_new (sample_parts 2) false = Some (b, 2) /\
    BrowserMainRunner_destroy b = None /\ BrowserMain (sample_parts 2) false = None.
Proof. apply (early_exit_reads_uninitialised (Parts_ 2 3 false) false). simpl. lia. Defined.

Lemma initialize_idempotent_witness :
  exists b, Initialize b None true = Some (b, -1).
Proof.
  eexists. apply (initialize_idempotent (sample_parts 0) None false true). vm_compute. reflexivity.
Defined.
