(* ===== verification/Timer.v ===== *)
(** * Timers

    [base/timer/timer.cc] on a task runner that runs a posted task at or after
    its run time, with the abstract timer it implements: a deadline that starting
    sets, stopping clears and firing consumes. *)

From stdpp Require Import base numbers option list.
From Stdlib Require Import ZArith Lia.
From S2P Require Import Prelude Numerics TimeBase TaskQueues.

Local Open Scope Z_scope.

(** ** [Timer] and the tasks it has posted *)

(** A posted [BaseTimerTaskInternal]: [tt_live] is [timer_ != NULL]. *)
Record TimerTask := TimerTask_ { tt_id : nat; tt_live : bool; tt_run_time : Z }.

Record Timer := Timer_ {
  scheduled_task : option nat;
  delay : Z;
  user_task : option Closure;
  scheduled_run_time : Z;
  desired_run_time : Z;
  is_repeating : bool;
  retain_user_task : bool;
  is_running : bool }.

(** The timer, the task runner's queue of its tasks, and the time. *)
Record World := World_ {
  timer : Timer;
  pending : list TimerTask;
  next_id : nat;
  now : Z }.

Definition Timer_new (retain_user_task is_repeating : bool) : Timer :=
  Timer_ None 0 None 0 0 is_repeating retain_user_task false.

(** The constructor with retained task info. *)
Definition Timer_new_retained (delay : Z) (user_task : Closure) (is_repeating : bool) : Timer :=
  Timer_ None delay (Some user_task) 0 0 is_repeating true false.

Definition set_timer (w : World) (t : Timer) : World :=
  World_ t (pending w) (next_id w) (now w).

Definition IsRunning (w : World) : bool := is_running (timer w).
Definition GetCurrentDelay (w : World) : Z := delay (timer w).

(** [TimeTicks::Now() + delay], or the null time for no delay. *)
Definition run_time_after (now delay : Z) : Z :=
  if 0 <? delay then TimeTicks.add now delay else 0.

(** The task runner reads the clock for the task's run time, then the timer reads it
    for [scheduled_run_time_]; both see [now], as time passes only between the calls
    of the machine below. *)
Definition PostNewScheduledTask (w : World) (delay0 : Z) : World :=
  let t := timer w in
  let at_ := run_time_after (now w) delay0 in
  World_ (Timer_ (Some (next_id w)) (delay t) (user_task t) at_ at_
            (is_repeating t) (retain_user_task t) true)
    (pending w ++ [TimerTask_ (next_id w) true (CalculateDelayedRuntime (now w) delay0)])
    (S (next_id w)) (now w).

Definition Stop (w : World) : World :=
  let t := timer w in
  set_timer w (Timer_ (scheduled_task t) (delay t)
                 (if retain_user_task t then user_task t else None)
                 (scheduled_run_time t) (desired_run_time t)
                 (is_repeating t) (retain_user_task t) false).

Definition AbandonScheduledTask (w : World) : World :=
  let t := timer w in
  match scheduled_task t with
  | Some id =>
      World_ (Timer_ None (delay t) (user_task t) (scheduled_run_time t) (desired_run_time t)
                (is_repeating t) (retain_user_task t) (is_running t))
        (map (fun p => if Nat.eqb (tt_id p) id then TimerTask_ id false (tt_run_time p) else p)
           (pending w))
        (next_id w) (now w)
  | None => w
  end.

Definition StopAndAbandon (w : World) : World := AbandonScheduledTask (Stop w).

(** [Reset]; a null task is refused by the DCHECK. *)
Definition Reset (w : World) : option World :=
  let t := timer w in
  match user_task t with
  | None => None
  | Some _ =>
      match scheduled_task t with
      | None => Some (PostNewScheduledTask w (delay t))
      | Some _ =>
          let desired := run_time_after (now w) (delay t) in
          if scheduled_run_time t <=? desired
          then Some (set_timer w (Timer_ (scheduled_task t) (delay t) (user_task t)
                                    (scheduled_run_time t) desired
                                    (is_repeating t) (retain_user_task t) true))
          else Some (PostNewScheduledTask (AbandonScheduledTask w) (delay t))
      end
  end.

Definition SetTaskInfo (w : World) (delay0 : Z) (task : Closure) : World :=
  let t := timer w in
  set_timer w (Timer_ (scheduled_task t) delay0 (Some task) (scheduled_run_time t)
                 (desired_run_time t) (is_repeating t) (retain_user_task t) (is_running t)).

Definition Start (w : World) (delay0 : Z) (task : Closure) : option World :=
  Reset (SetTaskInfo w delay0 task).

(** [RunScheduledTask]: the closure run, if any, after every other effect. *)
Definition RunScheduledTask (w : World) : World * option Closure :=
  let t := timer w in
  if negb (is_running t) then (w, None) else
  if (scheduled_run_time t <? desired_run_time t) && (now w <? desired_run_time t)
  then (PostNewScheduledTask w (TimeTicks.diff (desired_run_time t) (now w)), None)
  else (if is_repeating t then PostNewScheduledTask w (delay t) else Stop w, user_task t).

(** [BaseTimerTaskInternal::Run]; the task is deleted after it ran. *)
Definition BaseTimerTaskInternal_Run (w : World) (p : TimerTask) : World * option Closure :=
  if tt_live p then
    let t := timer w in
    RunScheduledTask (set_timer w (Timer_ None (delay t) (user_task t) (scheduled_run_time t)
                                     (desired_run_time t) (is_repeating t) (retain_user_task t)
                                     (is_running t)))
  else (w, None).

(** The destructor of a task that did not run. *)
Definition BaseTimerTaskInternal_destroy (w : World) (p : TimerTask) : World :=
  if tt_live p then StopAndAbandon w else w.

(** ** Steps *)

Inductive Event :=
  | TStart (delay : Z) (task : Closure)
  | TReset
  | TStop
  | TStopAndAbandon
  | TTick (d : Z)
  | TRun (i : nat)       (** the task runner runs its [i]-th task *)
  | TDrop (i : nat).     (** the task runner deletes it unrun *)

Definition remove_pending (w : World) (i : nat) : World :=
  World_ (timer w) (delete i (pending w)) (next_id w) (now w).

Definition step (w : World) (e : Event) : option (World * option Closure) :=
  match e with
  | TStart d c => if decide (Int.in_range Int.int64 d)
                  then w' ← Start w d c; Some (w', None) else None
  | TReset => w' ← Reset w; Some (w', None)
  | TStop => Some (Stop w, None)
  | TStopAndAbandon => Some (StopAndAbandon w, None)
  | TTick d => if (0 <=? d) && (now w + d <=? int64_max)
               then Some (World_ (timer w) (pending w) (next_id w) (now w + d), None) else None
  | TRun i => p ← pending w !! i;
              if tt_run_time p <=? now w
              then Some (BaseTimerTaskInternal_Run (remove_pending w i) p) else None
  | TDrop i => p ← pending w !! i;
               Some (BaseTimerTaskInternal_destroy (remove_pending w i) p, None)
  end.

(** Running a sequence of events, with what fired at each. *)
Fixpoint run (w : World) (es : list Event) : option (World * list (option Closure)) :=
  match es with
  | [] => Some (w, [])
  | e :: es' => '(w1, out) ← step w e; '(w2, outs) ← run w1 es'; Some (w2, out :: outs)
  end.

(** ** The abstract timer *)
Record Abs := Abs_ {
  a_due : option Z;
  a_task : option Closure;
  a_delay : Z;
  a_now : Z }.

Definition deadline (now delay : Z) : Z := if 0 <? delay then TimeTicks.add now delay else now.

Definition a_stop (retain : bool) (a : Abs) : Abs :=
  Abs_ None (if retain then a_task a else None) (a_delay a) (a_now a).

(** What firing does: only when due. *)
Definition a_fire (repeating retain : bool) (a : Abs) : option (Abs * option Closure) :=
  match a_due a with
  | Some d => if d <=? a_now a
              then Some (if repeating
                         then Abs_ (Some (deadline (a_now a) (a_delay a))) (a_task a) (a_delay a) (a_now a)
                         else a_stop retain a, a_task a)
              else None
  | None => None
  end.

(** The abstract steps a concrete event may be: a run of a posted task is either
    nothing or a firing; the loss of one is nothing or a stop. *)
Definition a_step (repeating retain : bool) (a : Abs) (e : Event) (out : option Closure)
    (stopped : bool) : option Abs :=
  match e with
  | TStart d c => Some (Abs_ (Some (deadline (a_now a) d)) (Some c) d (a_now a))
  | TReset => Some (Abs_ (Some (deadline (a_now a) (a_delay a))) (a_task a) (a_delay a) (a_now a))
  | TStop | TStopAndAbandon => Some (a_stop retain a)
  | TTick d => Some (Abs_ (a_due a) (a_task a) (a_delay a) (a_now a + d))
  | TRun _ => match out with
              | None => Some a
              | Some c => '(a', c') ← a_fire repeating retain a;
                          if decide (c' = Some c) then Some a' else None
              end
  | TDrop _ => Some (if stopped then a_stop retain a else a)
  end.

(** ** Simulation *)

(** The task runner holds at most one live task, the one the timer knows. *)
Definition live_tasks (w : World) : list TimerTask := filter (fun p => tt_live p = true) (pending w).

Definition QueueOk (w : World) : Prop :=
  live_tasks w = match scheduled_task (timer w) with
                 | Some id => [TimerTask_ id true (scheduled_run_time (timer w))] | None => [] end.

Definition time_ok (z : Z) : Prop := 0 <= z <= int64_max.

Record Sim (w : World) (a : Abs) : Prop := {
  sim_now : time_ok (now w);
  sim_anow : a_now a = now w;
  sim_task : a_task a = user_task (timer w);
  sim_delay : a_delay a = delay (timer w);
  sim_range : Int.in_range Int.int64 (delay (timer w));
  sim_sched : time_ok (scheduled_run_time (timer w));
  sim_desired : time_ok (desired_run_time (timer w));
  sim_queue : QueueOk w;
  sim_due : match a_due a with
            | None => is_running (timer w) = false
            | Some d =>
                is_running (timer w) = true /\ user_task (timer w) <> None /\
                scheduled_task (timer w) <> None /\
                scheduled_run_time (timer w) <= desired_run_time (timer w) /\
                (desired_run_time (timer w) = d \/ (desired_run_time (timer w) = 0 /\ d <= now w))
            end }.

Lemma run_time_after_ok n d :
  time_ok n -> Int.in_range Int.int64 d ->
  time_ok (run_time_after n d) /\
  (run_time_after n d = deadline n d \/ (run_time_after n d = 0 /\ deadline n d <= n)).
Proof.
  intros Hn Hd. split; [by apply CalculateDelayedRuntime_range|].
  unfold run_time_after, deadline. destruct (0 <? d); [by left | right; lia].
Qed.

Lemma filter_delete i (l : list TimerTask) p :
  l !! i = Some p ->
  exists f1 f2, filter (fun p => tt_live p = true) (delete i l) = f1 ++ f2 /\
    filter (fun p => tt_live p = true) l = if tt_live p then f1 ++ p :: f2 else f1 ++ f2.
Proof.
  intros H. exists (filter (fun p => tt_live p = true) (take i l)),
    (filter (fun p => tt_live p = true) (drop (S i) l)).
  rewrite delete_take_drop, filter_app. split; [done|].
  rewrite <- (take_drop_middle l i p H) at 1. rewrite filter_app, filter_cons.
  destruct (tt_live p) eqn:E; by rewrite ?decide_True, ?decide_False by congruence.
Qed.

(** Removing a posted task: a dead one changes nothing, a live one is the
    scheduled one. *)
Lemma QueueOk_remove_dead w i p :
  QueueOk w -> pending w !! i = Some p -> tt_live p = false -> QueueOk (remove_pending w i).
Proof.
  unfold QueueOk, live_tasks. intros H Hp Hl. destruct (filter_delete _ _ _ Hp) as (f1 & f2 & E1 & E2).
  rewrite Hl in E2. simpl. by rewrite E1, <- E2.
Qed.

Lemma QueueOk_remove_live w i p :
  QueueOk w -> pending w !! i = Some p -> tt_live p = true ->
  scheduled_task (timer w) = Some (tt_id p) /\ tt_run_time p = scheduled_run_time (timer w) /\
  live_tasks (remove_pending w i) = [].
Proof.
  unfold QueueOk, live_tasks. intros H Hp Hl. destruct (filter_delete _ _ _ Hp) as (f1 & f2 & E1 & E2).
  rewrite Hl in E2. rewrite E2 in H. simpl. rewrite E1.
  destruct (scheduled_task (timer w)) as [id|]; [|by destruct f1].
  destruct f1 as [|? f1]; [|by destruct f1]. simpl in H. injection H as -> ->. done.
Qed.

Lemma QueueOk_post w d :
  live_tasks w = [] -> QueueOk (PostNewScheduledTask w d).
Proof.
  unfold QueueOk, live_tasks. simpl. intros H. rewrite filter_app, H. simpl.
  by rewrite filter_cons_True.
Qed.

Lemma QueueOk_abandon w :
  QueueOk w -> live_tasks (AbandonScheduledTask w) = [] /\
  scheduled_task (timer (AbandonScheduledTask w)) = None.
Proof.
  unfold QueueOk, AbandonScheduledTask. destruct (scheduled_task (timer w)) as [id|] eqn:E.
  - intros H. split; [|done]. unfold live_tasks in *. simpl.
    set (r := scheduled_run_time (timer w)) in H. clearbody r. clear E.
    assert (Forall (fun p => tt_live p = true -> tt_id p = id) (pending w)) as Hid.
    { apply Forall_forall. intros p Hp Hl.
      assert (p ∈ filter (fun p => tt_live p = true) (pending w)) as Hf
        by (by apply list_elem_of_filter).
      rewrite H in Hf. by apply list_elem_of_singleton in Hf as ->. }
    clear H. induction Hid as [|p l Hp _ IH]; [done|]. simpl.
    destruct (Nat.eqb_spec (tt_id p) id); rewrite filter_cons_False; auto.
  - intros H. by rewrite E.
Qed.

Lemma abandon_fields w :
  let t := timer (AbandonScheduledTask w) in
  delay t = delay (timer w) /\ user_task t = user_task (timer w) /\
  scheduled_run_time t = scheduled_run_time (timer w) /\
  desired_run_time t = desired_run_time (timer w) /\ is_running t = is_running (timer w) /\
  is_repeating t = is_repeating (timer w) /\ retain_user_task t = retain_user_task (timer w) /\
  now (AbandonScheduledTask w) = now w.
Proof. unfold AbandonScheduledTask. by destruct (scheduled_task (timer w)). Qed.

(** Posting, from a state without a scheduled task, arms the timer. *)
Lemma Sim_post w task d d0 :
  time_ok (now w) -> live_tasks w = [] -> user_task (timer w) = Some task ->
  Int.in_range Int.int64 d -> Int.in_range Int.int64 (delay (timer w)) ->
  d0 = deadline (now w) d ->
  Sim (PostNewScheduledTask w d)
    (Abs_ (Some d0) (Some task) (delay (timer w)) (now w)).
Proof.
  intros Hn Hl Ht Hd Hr ->. destruct (run_time_after_ok (now w) d Hn Hd) as [Hok Hdl].
  pose proof (QueueOk_post w d Hl). constructor; simpl; try done.
  split_and!; try done; try congruence; lia.
Qed.

Lemma Sim_stop w a retain :
  Sim w a -> retain = retain_user_task (timer w) -> Sim (Stop w) (a_stop retain a).
Proof.
  intros [] ->. constructor; simpl; try done. by rewrite sim_task0.
Qed.

Lemma Sim_abandon w a :
  Sim w a -> a_due a = None -> Sim (AbandonScheduledTask w) a.
Proof.
  intros [] Hd. destruct (abandon_fields w) as (E1 & E2 & E3 & E4 & E5 & _ & _ & E8).
  destruct (QueueOk_abandon w) as [Hl Hs]; [done|].
  constructor; rewrite ?E1, ?E2, ?E3, ?E4, ?E5, ?E8; try done.
  - unfold QueueOk. by rewrite Hl, Hs.
  - by rewrite Hd in *.
Qed.

Lemma Reset_sim w a w' :
  Sim w a -> Reset w = Some w' ->
  Sim w' (Abs_ (Some (deadline (a_now a) (a_delay a))) (a_task a) (a_delay a) (a_now a)).
Proof.
  intros H. pose proof H as []. rewrite sim_anow0, sim_task0, sim_delay0. unfold Reset.
  destruct (user_task (timer w)) as [c|] eqn:Ht; [|done].
  destruct (scheduled_task (timer w)) as [id|] eqn:Hs.
  - destruct (run_time_after_ok (now w) (delay (timer w))) as [Hok Hd]; [done | done |].
    destruct (Z.leb_spec (scheduled_run_time (timer w)) (run_time_after (now w) (delay (timer w))));
      intros [= <-].
    + constructor; simpl; try done; try congruence.
      unfold QueueOk in *. simpl. by rewrite Hs in *.
    + destruct (QueueOk_abandon w) as [Hl _]; [done|].
      destruct (abandon_fields w) as (E1 & E2 & _ & _ & _ & _ & _ & E8).
      rewrite <- E1, <- E8. apply Sim_post; rewrite ?E1, ?E2, ?E8; done.
  - intros [= <-]. apply Sim_post; try done. unfold QueueOk in *. by rewrite Hs in *.
Qed.

Lemma SetTaskInfo_sim w a d c w' :
  Sim w a -> Int.in_range Int.int64 d -> Reset (SetTaskInfo w d c) = Some w' ->
  Sim w' (Abs_ (Some (deadline (a_now a) d)) (Some c) d (a_now a)).
Proof.
  intros H Hd Hr.
  assert (Sim (SetTaskInfo w d c) (Abs_ (a_due a) (Some c) d (a_now a))) as Hs.
  { destruct H. constructor; simpl; try done. destruct (a_due a); [|done]. naive_solver. }
  exact (Reset_sim _ _ _ Hs Hr).
Qed.

Definition run_once (w : World) : World :=
  let t := timer w in
  set_timer w (Timer_ None (delay t) (user_task t) (scheduled_run_time t) (desired_run_time t)
                 (is_repeating t) (retain_user_task t) (is_running t)).

(** Running the scheduled task: a continuation, nothing, or the firing of a due
    timer. *)
Lemma RunScheduledTask_sim w a i p w' out :
  Sim w a -> pending w !! i = Some p -> tt_live p = true -> tt_run_time p <= now w ->
  RunScheduledTask (run_once (remove_pending w i)) = (w', out) ->
  match out with
  | None => Sim w' a
  | Some c => exists a', a_fire (is_repeating (timer w)) (retain_user_task (timer w)) a
                         = Some (a', Some c) /\ Sim w' a'
  end.
Proof.
  intros H Hp Hl Ht Hr. pose proof H as [].
  destruct (QueueOk_remove_live w i p) as (Hid & Hrt & Hempty); [done..|].
  unfold RunScheduledTask in Hr. simpl in Hr.
  destruct (is_running (timer w)) eqn:Hrun; simpl in Hr.
  2: { injection Hr as <- <-. constructor; simpl; try done. destruct (a_due a); [|done].
       by destruct sim_due0. }
  destruct (a_due a) as [d|] eqn:Hdue; [|congruence].
  destruct sim_due0 as (_ & Htask & _ & Hsd & Hd).
  destruct (user_task (timer w)) as [c|] eqn:Hut; [|done].
  destruct (Z.ltb_spec (scheduled_run_time (timer w)) (desired_run_time (timer w))),
    (Z.ltb_spec (now w) (desired_run_time (timer w))); simpl in Hr.
  1: { injection Hr as <- <-. unfold time_ok in *.
    assert (TimeTicks.diff (desired_run_time (timer w)) (now w)
            = desired_run_time (timer w) - now w) as ->.
    { unfold TimeTicks.diff. apply i64_id. int64_bounds. lia. }
    destruct a as [due ta de an]; simpl in *; subst.
    destruct Hd as [<-|[? ?]]; [|lia].
    apply (Sim_post (run_once (remove_pending w i)) c
      (desired_run_time (timer w) - now w)); simpl; try done.
    - int64_bounds. lia.
    - unfold deadline. destruct (Z.ltb_spec 0 (desired_run_time (timer w) - now w)); [|lia].
      unfold TimeTicks.add. rewrite SaturatedAdd_saturate by (int64_bounds; lia).
      int64_bounds. cmp_lia. }
  all: assert (d <= now w) as Hdn by lia; injection Hr as <- <-;
    unfold a_fire; rewrite Hdue, sim_anow0, (proj2 (Z.leb_le _ _) Hdn), sim_task0;
    (eexists; split; [reflexivity|]); destruct (is_repeating (timer w)).
  1, 3, 5: rewrite sim_delay0;
    apply (Sim_post (run_once (remove_pending w i)) c (delay (timer w))); simpl; done.
  all: unfold a_stop; constructor; simpl; try done; by rewrite sim_task0, Hut.
Qed.

Lemma step_sim w a e w' out :
  Sim w a -> step w e = Some (w', out) ->
  exists stopped a', a_step (is_repeating (timer w)) (retain_user_task (timer w)) a e out stopped
                     = Some a' /\ Sim w' a' /\
    is_repeating (timer w') = is_repeating (timer w) /\
    retain_user_task (timer w') = retain_user_task (timer w).
Proof.
  intros H Hs. pose proof (sim_now _ _ H) as Hnow.
  assert (forall w w', Reset w = Some w' -> is_repeating (timer w') = is_repeating (timer w) /\
    retain_user_task (timer w') = retain_user_task (timer w)) as Hfix.
  { intros w0 w1. unfold Reset. destruct (user_task (timer w0)); [|done].
    destruct (scheduled_task (timer w0)); [case_match|]; intros [= <-]; try done.
    destruct (abandon_fields w0) as (_ & _ & _ & _ & _ & E6 & E7 & _). simpl. by rewrite E6, E7. }
  destruct e as [d c| | | |d|i|i]; cbn [step] in Hs. 1-6: exists false.
  - destruct (decide _) as [Hd|]; [|done]. unfold Start in Hs.
    destruct (Reset (SetTaskInfo w d c)) as [w1|] eqn:Hr; [|done]. injection Hs as <- <-.
    eexists; split; [reflexivity|]. split; [by eapply SetTaskInfo_sim|]. by apply Hfix in Hr.
  - destruct (Reset w) as [w1|] eqn:Hr; [|done]. injection Hs as <- <-.
    eexists; split; [reflexivity|]. split; [by eapply Reset_sim|]. by apply Hfix in Hr.
  - injection Hs as <- <-. eexists; split; [reflexivity|]. split; [by apply Sim_stop|done].
  - injection Hs as <- <-. eexists; split; [reflexivity|].
    destruct (abandon_fields (Stop w)) as (_ & _ & _ & _ & _ & E6 & E7 & _).
    unfold StopAndAbandon. split; [|by rewrite E6, E7].
    apply Sim_abandon; [by apply Sim_stop|done].
  - destruct (Z.leb_spec 0 d), (Z.leb_spec (now w + d) int64_max); try done.
    injection Hs as <- <-. eexists; split; [reflexivity|]. split; [|done].
    destruct H. unfold time_ok in *. constructor; simpl; try done; unfold time_ok; [lia|lia|].
    destruct (a_due a); [|done]. split_and!; try tauto. lia.
  - destruct (pending w !! i) as [p|] eqn:Hp; [|done]. simpl in Hs.
    destruct (Z.leb_spec (tt_run_time p) (now w)); [|done]. injection Hs as Hs.
    unfold BaseTimerTaskInternal_Run in Hs. destruct (tt_live p) eqn:Hl.
    + pose proof (RunScheduledTask_sim w a i p w' out H Hp Hl ltac:(lia) Hs) as Hsim.
      assert (is_repeating (timer w') = is_repeating (timer w) /\
              retain_user_task (timer w') = retain_user_task (timer w)).
      { unfold RunScheduledTask in Hs. simpl in Hs. repeat case_match; by simplify_eq/=. }
      destruct out as [c|]; simpl.
      * destruct Hsim as (a' & -> & Hsim). exists a'. simpl. by rewrite decide_True.
      * by exists a.
    + injection Hs as <- <-. exists a. split; [done|]. split; [|done].
      destruct H. constructor; simpl; try done. by eapply QueueOk_remove_dead.
  - destruct (pending w !! i) as [p|] eqn:Hp; [|done]. simpl in Hs. injection Hs as <- <-.
    unfold BaseTimerTaskInternal_destroy. destruct (tt_live p) eqn:Hl.
    + exists true. eexists; split; [reflexivity|]. unfold StopAndAbandon.
      destruct (abandon_fields (Stop (remove_pending w i))) as (E1 & E2 & E3 & E4 & E5 & E6 & E7 & E8).
      split; [|by rewrite E6, E7]. destruct H.
      destruct (QueueOk_remove_live w i p) as (Hid & Hrt & Hempty); [done..|].
      assert (live_tasks (AbandonScheduledTask (Stop (remove_pending w i))) = []) as Hq.
      { unfold AbandonScheduledTask. simpl. rewrite Hid. unfold live_tasks in *. simpl in *.
        clear -Hempty. induction (delete i (pending w)) as [|q l IH]; [done|].
        simpl. rewrite filter_cons in Hempty. destruct (decide (tt_live q = true)); [done|].
        destruct (Nat.eqb (tt_id q) (tt_id p)); rewrite filter_cons_False; auto; done. }
      unfold a_stop. constructor; simpl; rewrite ?E1, ?E2, ?E3, ?E4, ?E5, ?E8; try done.
      * simpl. by rewrite sim_task0.
      * unfold QueueOk. rewrite Hq. unfold AbandonScheduledTask. simpl. by rewrite Hid.
    + exists false, a. split; [done|]. split; [|done].
      destruct H. constructor; simpl; try done. by eapply QueueOk_remove_dead.
Qed.

(** ** The theorems *)

(** Sequences of steps of the abstract timer with the firings observed. *)
Inductive a_accepts (repeating retain : bool)
    : Abs -> list Event -> list (option Closure) -> Abs -> Prop :=
  | a_accepts_nil a : a_accepts repeating retain a [] [] a
  | a_accepts_cons a e out stopped a1 es outs a2 :
      a_step repeating retain a e out stopped = Some a1 ->
      a_accepts repeating retain a1 es outs a2 ->
      a_accepts repeating retain a (e :: es) (out :: outs) a2.

Definition World_new (t : Timer) (n : Z) : World := World_ t [] 0 n.
Definition Abs_new (n : Z) : Abs := Abs_ None None 0 n.

Lemma Sim_new retain repeating n :
  time_ok n -> Sim (World_new (Timer_new retain repeating) n) (Abs_new n).
Proof. intros. constructor; done. Qed.

Lemma run_sim w a es w' outs :
  Sim w a -> run w es = Some (w', outs) ->
  exists a', a_accepts (is_repeating (timer w)) (retain_user_task (timer w)) a es outs a' /\
    Sim w' a'.
Proof.
  revert w a outs. induction es as [|e es IH]; intros w a outs H Hr; simpl in Hr.
  - injection Hr as <- <-. exists a. split; [constructor | done].
  - destruct (step w e) as [[w1 out]|] eqn:Hs; [|done]. simpl in Hr.
    destruct (run w1 es) as [[w2 outs1]|] eqn:Hr1; [|done]. injection Hr as <- <-.
    destruct (step_sim _ _ _ _ _ H Hs) as (st & a1 & Ha & H1 & E1 & E2).
    destruct (IH _ _ _ H1 Hr1) as (a2 & Hacc & H2). exists a2. split; [|done].
    rewrite E1, E2 in Hacc. by econstructor.
Qed.

(** A timer with a deadline has a posted task whose run time is not after it (or is
    the null time), and if the time has come, running that task fires the timer. *)
Lemma Sim_armed w a d :
  Sim w a -> a_due a = Some d ->
  exists i p, pending w !! i = Some p /\ tt_live p = true /\ (tt_run_time p <= d \/ tt_run_time p = 0) /\
    (d <= now w -> exists w', step w (TRun i) = Some (w', a_task a) /\ a_task a <> None).
Proof.
  intros [] Hd. rewrite Hd in sim_due0. destruct sim_due0 as (Hrun & Ht & Hs & Hsd & Hdue).
  unfold QueueOk in sim_queue0.
  destruct (scheduled_task (timer w)) as [id|] eqn:Hid; [|done].
  destruct (user_task (timer w)) as [c|] eqn:Hc; [|done].
  assert (TimerTask_ id true (scheduled_run_time (timer w)) ∈ live_tasks w) as Hin
    by (rewrite sim_queue0; by apply list_elem_of_singleton).
  apply list_elem_of_filter in Hin as [_ [i Hi]%list_elem_of_lookup].
  exists i, (TimerTask_ id true (scheduled_run_time (timer w))).
  unfold time_ok in *. split; [exact Hi|]. split; [done|]. simpl. split; [lia|]. intros Hn.
  rewrite Hi. simpl. rewrite (proj2 (Z.leb_le _ _)) by lia.
  unfold BaseTimerTaskInternal_Run, RunScheduledTask. simpl.
  rewrite Hrun, (proj2 (Z.ltb_ge (now w) _)), andb_false_r by lia. simpl.
  rewrite Hc, sim_task0. by eexists.
Qed.

(** C28: whatever the sequence of starts, resets, stops, abandonments, deletions
    and runs of posted tasks, the timer behaves as the abstract timer with one
    deadline: what it fires, and when, is what the abstract timer allows -- only a
    started timer, not before its deadline, once per start unless repeating, the
    closure last given -- and it reports itself running exactly when it has a
    deadline. It is never late, either, for a task runner that is not: while it has a
    deadline, the task runner holds a task of it that may run at the deadline at the
    latest, and once the deadline has come running that task fires the timer, with
    the closure last given. *)
Theorem timer_refines_deadline retain repeating n es w outs :
  time_ok n -> run (World_new (Timer_new retain repeating) n) es = Some (w, outs) ->
  exists a, a_accepts repeating retain (Abs_new n) es outs a /\
    (IsRunning w = true <-> a_due a <> None) /\
    forall d, a_due a = Some d ->
      exists i p, pending w !! i = Some p /\ tt_live p = true /\
        (tt_run_time p <= d \/ tt_run_time p = 0) /\
        (d <= now w -> exists w', step w (TRun i) = Some (w', a_task a) /\ a_task a <> None).
Proof.
  intros Hn Hr. destruct (run_sim _ _ _ _ _ (Sim_new retain repeating n Hn) Hr) as (a & Ha & Hs).
  exists a. split; [exact Ha|]. split; [|intros d; by apply Sim_armed].
  destruct Hs. unfold IsRunning.
  destruct (a_due a); [naive_solver|]. rewrite sim_due0. split; congruence.
Qed.

(** *** At concrete schedules: a restart to a later time while the first task is
    pending, so that the task is reused and continued; and one to an earlier time, for
    which a new task is posted. *)
Definition restarted : list Event :=
  [TStart 100 1%nat; TTick 50; TStart 100 2%nat; TTick 50; TRun 0; TTick 50].

Example restarted_fires :
  run (World_new (Timer_new false false) 10) (restarted ++ [TRun 0]) =
  Some (World_ (Timer_ None 100 None 160 160 false false false) [] 2 160,
        [None; None; None; None; None; None; Some 2%nat]).
Proof. vm_compute. reflexivity. Qed.

Definition brought_forward : list Event := [TStart 100 1%nat; TTick 10; TStart 20 2%nat; TTick 20].

Lemma timer_refines_deadline_witness :
  exists w a, run (World_new (Timer_new false false) 10) brought_forward
              = Some (w, [None; None; None; None]) /\
    a_accepts false false (Abs_new 10) brought_forward [None; None; None; None] a /\
    (IsRunning w = true <-> a_due a <> None) /\ now w = 40 /\
    forall d, a_due a = Some d ->
      exists i p, pending w !! i = Some p /\ tt_live p = true /\
        (tt_run_time p <= d \/ tt_run_time p = 0) /\
        (d <= now w -> exists w', step w (TRun i) = Some (w', a_task a) /\ a_task a <> None).
Proof.
  eexists. assert (Hr : run (World_new (Timer_new false false) 10) brought_forward =
    Some (World_ (Timer_ (Some 1%nat) 20 (Some 2%nat) 40 40 false false true)
            [TimerTask_ 0 false 110; TimerTask_ 1 true 40] 2 40,
          [None; None; None; None])) by (vm_compute; reflexivity).
  destruct (timer_refines_deadline false false 10 brought_forward _ _
              ltac:(split; vm_compute; congruence) Hr) as (a & Ha & Hd & Harmed).
  exists a. split; [exact Hr|]. split; [exact Ha|]. split; [exact Hd|]. split; [reflexivity|]. exact Harmed.
Defined.
