(* ===== verification/Pickle.v ===== *)
(** * Pickles: binary serialisation ([base/pickle.h], [base/pickle.cc])

    A pickle is one heap block: a header whose first word is the payload size,
    then the payload, to which values are appended at 32-bit alignment. The
    block is a list of memory cells; a cell that was never written is [None],
    and reading one, reading outside the block, a null dereference or a failed
    [CHECK] ends the model's run ([None] of the outer [option]).

    [Pickle] holds the writer, [PickleIterator] the reader. The main results
    are the round trip of any sequence of fields through the serialised bytes
    and the memory safety of every sequence of reads on arbitrary bytes. *)

From S2P Require Import Prelude.
From stdpp Require Import base numbers option list.
From Stdlib Require Import ZArith Lia.

Local Open Scope Z_scope.

#[local] Existing Instance Int.type_eq_dec.

#[local] Ltac Zify.zify_post_hook ::= Z.to_euclidean_division_equations.

(** What the compiler and the C library fix: the types behind [size_t] and
    [long], whether [DCHECK] is compiled in, and which allocation sizes
    [realloc] can serve. *)
Record Target := {
  size_t : Int.type;
  long_t : Int.type;
  dcheck_is_on : bool;
  realloc_ok : Z -> bool
}.

Class TargetOk (T : Target) : Prop := {
  size_t_ok : size_t T = Int.uint32 \/ size_t T = Int.uint64;
  long_t_ok : long_t T = Int.int32 \/ long_t T = Int.int64
}.

(** ** Little-endian memory *)

#[local] Abbreviation cell := (option Z).
#[local] Abbreviation block := (list cell).

(** The object representation of an [n]-byte integer. *)
Fixpoint le_bytes (n : nat) (z : Z) : list Z :=
  match n with
  | O => []
  | S n' => z mod 256 :: le_bytes n' (z / 256)
  end.

Fixpoint le_value (l : list Z) : Z :=
  match l with
  | [] => 0
  | b :: l' => b mod 256 + 256 * le_value l'
  end.

Fixpoint all_some (l : block) : option (list Z) :=
  match l with
  | [] => Some []
  | c :: l' => v ← c; r ← all_some l'; Some (v :: r)
  end.

(** [n] cells from offset [off], when they lie in the block. *)
Definition cells (b : block) (off n : Z) : option block :=
  if bool_decide (0 <= off /\ 0 <= n /\ off + n <= Z.of_nat (length b))
  then Some (take (Z.to_nat n) (drop (Z.to_nat off) b)) else None.

Definition load (b : block) (off n : Z) : option (list Z) := cells b off n ≫= all_some.

(** [memcpy]/[memset] into the block at [off]. *)
Definition store (b : block) (off : Z) (src : block) : option block :=
  if bool_decide (0 <= off /\ off + Z.of_nat (length src) <= Z.of_nat (length b))
  then Some (take (Z.to_nat off) b ++ src ++ drop (Z.to_nat off + length src) b)
  else None.

Definition realloc (old : block) (n : Z) : block :=
  take (Z.to_nat n) old ++ replicate (Z.to_nat n - length old) None.

(** ** Helpers both classes declare *)

Definition size_wrap (T : Target) (z : Z) : Z := Int.static_cast (size_t T) z.

Definition AlignInt (T : Target) (i alignment : Z) : Z :=
  size_wrap T (i + (alignment - i mod alignment) mod alignment).

Definition DCHECK (T : Target) (c : bool) : option unit :=
  if dcheck_is_on T && negb c then None else Some tt.

Definition CHECK (c : bool) : option unit := if c then Some tt else None.

Definition uint32_sz := 4.
Definition kuint32max := 2 ^ 32 - 1.
Definition kPayloadUnit := 64.
Definition sizeof_Header := 4.
Definition sizeof_char16 := 2.

(** ** The writer *)

Record Pickle := {
  header_ : option block;
  header_size_ : Z;
  capacity_after_header_ : Z;
  write_offset_ : Z
}.

Definition kCapacityReadOnly (T : Target) : Z := size_wrap T (-1).

(** [header_->payload_size]. *)
Definition Header_payload_size (h : option block) : option Z :=
  b ← h; bs ← load b 0 4; Some (le_value bs).

Definition set_payload_size (p : Pickle) (v : Z) : option Pickle :=
  b ← header_ p;
  b' ← store b 0 (Some <$> le_bytes 4 v);
  Some {| header_ := Some b'; header_size_ := header_size_ p;
          capacity_after_header_ := capacity_after_header_ p;
          write_offset_ := write_offset_ p |}.

Definition payload_size (p : Pickle) : option Z :=
  match header_ p with
  | None => Some 0
  | Some _ => Header_payload_size (header_ p)
  end.

Definition size (T : Target) (p : Pickle) : option Z :=
  n ← Header_payload_size (header_ p); Some (size_wrap T (header_size_ p + n)).

Definition data (p : Pickle) : option block := header_ p.

Definition Resize (T : Target) (p : Pickle) (new_capacity : Z) : option Pickle :=
  let new_capacity := AlignInt T new_capacity kPayloadUnit in
  _ ← CHECK (bool_decide (capacity_after_header_ p <> kCapacityReadOnly T));
  let n := size_wrap T (header_size_ p + new_capacity) in
  _ ← CHECK (realloc_ok T n);
  Some {| header_ := Some (realloc (default [] (header_ p)) n);
          header_size_ := header_size_ p;
          capacity_after_header_ := new_capacity;
          write_offset_ := write_offset_ p |}.

(** [Pickle()]. *)
Definition Pickle_new (T : Target) : option Pickle :=
  p ← Resize T {| header_ := None; header_size_ := sizeof_Header;
                  capacity_after_header_ := 0; write_offset_ := 0 |} kPayloadUnit;
  set_payload_size p 0.

(** [Pickle(int header_size)]. *)
Definition Pickle_with_header (T : Target) (header_size : Z) : option Pickle :=
  _ ← DCHECK T (bool_decide (sizeof_Header <= size_wrap T header_size));
  _ ← DCHECK T (bool_decide (header_size <= kPayloadUnit));
  p ← Resize T {| header_ := None;
                  header_size_ := AlignInt T (size_wrap T header_size) uint32_sz;
                  capacity_after_header_ := 0; write_offset_ := 0 |} kPayloadUnit;
  set_payload_size p 0.

(** [Pickle(const char* data, int data_len)]: the block is the caller's, and
    is only referenced. [data_len - header_->payload_size] is a [uint32]. *)
Definition Pickle_from_data (T : Target) (data : block) (data_len : Z) : option Pickle :=
  h0 ← (if bool_decide (sizeof_Header <= data_len) then
          n ← Header_payload_size (Some data);
          Some (Int.static_cast Int.uint32 (data_len - n))
        else Some 0);
  let h1 := if bool_decide (Int.static_cast Int.uint32 data_len < h0) then 0 else h0 in
  let h2 := if bool_decide (h1 <> AlignInt T h1 uint32_sz) then 0 else h1 in
  Some {| header_ := if bool_decide (h2 = 0) then None else Some data;
          header_size_ := h2;
          capacity_after_header_ := kCapacityReadOnly T;
          write_offset_ := 0 |}.

(** [memcpy(header_, other.header_, n)]. *)
Definition memcpy_header (p : Pickle) (other : Pickle) (n : Z) : option Pickle :=
  src ← header_ other;
  cs ← cells src 0 n;
  b ← header_ p;
  b' ← store b 0 cs;
  Some {| header_ := Some b'; header_size_ := header_size_ p;
          capacity_after_header_ := capacity_after_header_ p;
          write_offset_ := write_offset_ p |}.

(** [Pickle(const Pickle& other)]. *)
Definition Pickle_copy (T : Target) (other : Pickle) : option Pickle :=
  n ← Header_payload_size (header_ other);
  let payload_size := size_wrap T (header_size_ other + n) in
  p ← Resize T {| header_ := None; header_size_ := header_size_ other;
                  capacity_after_header_ := 0;
                  write_offset_ := write_offset_ other |} payload_size;
  memcpy_header p other payload_size.

(** [operator=]; [same] is [this == &other], and [NOTREACHED()] a failed
    [DCHECK]. *)
Definition Pickle_assign (T : Target) (same : bool) (p other : Pickle) : option Pickle :=
  if same then _ ← DCHECK T false; Some p
  else
    let p1 :=
      if bool_decide (capacity_after_header_ p = kCapacityReadOnly T)
      then {| header_ := None; header_size_ := header_size_ p;
              capacity_after_header_ := 0; write_offset_ := write_offset_ p |}
      else p in
    let p2 :=
      if bool_decide (header_size_ p1 <> header_size_ other)
      then {| header_ := None; header_size_ := header_size_ other;
              capacity_after_header_ := capacity_after_header_ p1;
              write_offset_ := write_offset_ p1 |}
      else p1 in
    n ← Header_payload_size (header_ other);
    p3 ← Resize T p2 n;
    p4 ← memcpy_header p3 other (size_wrap T (header_size_ other + n));
    Some {| header_ := header_ p4; header_size_ := header_size_ p4;
            capacity_after_header_ := capacity_after_header_ p4;
            write_offset_ := write_offset_ other |}.

(** The checks [Reserve] and [WriteBytesCommon] share. *)
Definition check_room (T : Target) (p : Pickle) (length : Z) : option Z :=
  let data_len := AlignInt T length uint32_sz in
  _ ← DCHECK T (bool_decide (length <= data_len));
  _ ← DCHECK T (bool_decide (size_t T <> Int.uint64) || bool_decide (data_len <= kuint32max));
  _ ← DCHECK T (bool_decide (write_offset_ p <= size_wrap T (kuint32max - data_len)));
  Some data_len.

Definition Reserve (T : Target) (p : Pickle) (length : Z) : option Pickle :=
  data_len ← check_room T p length;
  let new_size := size_wrap T (write_offset_ p + data_len) in
  if bool_decide (capacity_after_header_ p < new_size)
  then Resize T p (size_wrap T (size_wrap T (capacity_after_header_ p * 2) + new_size))
  else Some p.

(** [data] is the memory the caller's pointer addresses; [memcpy] of more bytes
    than it has is a bad read. *)
Definition WriteBytesCommon (T : Target) (p : Pickle) (data : list Z) (length : Z)
  : option Pickle :=
  _ ← DCHECK T (bool_decide (kCapacityReadOnly T <> capacity_after_header_ p));
  data_len ← check_room T p length;
  let new_size := size_wrap T (write_offset_ p + data_len) in
  p ← (if bool_decide (capacity_after_header_ p < new_size)
       then Resize T p (Z.max (size_wrap T (capacity_after_header_ p * 2)) new_size)
       else Some p);
  b ← header_ p;
  src ← cells (Some <$> data) 0 length;
  let write := header_size_ p + write_offset_ p in
  b1 ← store b write src;
  b2 ← store b1 (write + length)
         (replicate (Z.to_nat (size_wrap T (data_len - length))) (Some 0));
  p' ← set_payload_size
         {| header_ := Some b2; header_size_ := header_size_ p;
            capacity_after_header_ := capacity_after_header_ p;
            write_offset_ := write_offset_ p |} (Int.static_cast Int.uint32 new_size);
  Some {| header_ := header_ p'; header_size_ := header_size_ p';
          capacity_after_header_ := capacity_after_header_ p';
          write_offset_ := new_size |}.

(** [WritePOD]: the bytes of a value of type [t]. *)
Definition WritePOD (T : Target) (t : Int.type) (p : Pickle) (v : Z) : option (Pickle * bool) :=
  p' ← WriteBytesCommon T p (le_bytes (Z.to_nat (Int.size t)) v) (Int.size t);
  Some (p', true).

Definition WriteInt (T : Target) := WritePOD T Int.int32.
Definition WriteBool (T : Target) (p : Pickle) (value : bool) :=
  WriteInt T p (if value then 1 else 0).
Definition WriteLong (T : Target) := WritePOD T (long_t T).
Definition WriteUInt16 (T : Target) := WritePOD T Int.uint16.
Definition WriteUInt32 (T : Target) := WritePOD T Int.uint32.
Definition WriteInt64 (T : Target) := WritePOD T Int.int64.
Definition WriteUInt64 (T : Target) := WritePOD T Int.uint64.
Definition WriteSizeT (T : Target) (p : Pickle) (value : Z) :=
  WritePOD T Int.uint64 p (Int.static_cast Int.uint64 value).

(** An [int] argument reaches [WriteBytesCommon] as a [size_t]. *)
Definition WriteBytes (T : Target) (p : Pickle) (data : list Z) (length : Z)
  : option (Pickle * bool) :=
  p' ← WriteBytesCommon T p data (size_wrap T length); Some (p', true).

Definition WriteString (T : Target) (p : Pickle) (value : list Z) : option (Pickle * bool) :=
  let n := Int.static_cast Int.int32 (Z.of_nat (length value)) in
  '(p1, ok) ← WriteInt T p n;
  if negb ok then Some (p1, false) else WriteBytes T p1 value n.

(** The characters of a UTF-16 string, two bytes each. *)
Definition char16_bytes (value : list Z) : list Z := value ≫= le_bytes 2.

Definition WriteString16 (T : Target) (p : Pickle) (value : list Z) : option (Pickle * bool) :=
  let n := Int.static_cast Int.int32 (Z.of_nat (length value)) in
  '(p1, ok) ← WriteInt T p n;
  if negb ok then Some (p1, false)
  else WriteBytes T p1 (char16_bytes value)
         (Int.static_cast Int.int32 (size_wrap T (size_wrap T n * sizeof_char16))).

Definition WriteData (T : Target) (p : Pickle) (data : list Z) (length : Z)
  : option (Pickle * bool) :=
  if bool_decide (length < 0) then Some (p, false)
  else
    '(p1, ok) ← WriteInt T p length;
    if negb ok then Some (p1, false) else WriteBytes T p1 data length.

(** [FindNext(header_size, start, end)] with [mem] the bytes of [[start, end)];
    the answer is an offset from [start], or null. *)
Definition FindNext (T : Target) (header_size : Z) (mem : block) : option (option Z) :=
  _ ← DCHECK T (bool_decide (header_size = AlignInt T header_size uint32_sz));
  _ ← DCHECK T (bool_decide (header_size <= kPayloadUnit));
  let len := Z.of_nat (length mem) in
  if bool_decide (len < sizeof_Header) then Some None
  else
    n ← Header_payload_size (Some mem);
    if bool_decide (len < header_size) || bool_decide (size_wrap T (len - header_size) < n)
    then Some None
    else Some (Some (header_size + n)).

(** ** The reader *)

(** [payload_] is the memory from the payload's first byte on, [None] the null
    pointer. *)
Record PickleIterator := {
  payload_ : option block;
  read_index_ : Z;
  end_index_ : Z
}.

Definition PickleIterator_empty : PickleIterator :=
  {| payload_ := None; read_index_ := 0; end_index_ := 0 |}.

Definition PickleIterator_new (p : Pickle) : option PickleIterator :=
  n ← payload_size p;
  Some {| payload_ := drop (Z.to_nat (header_size_ p)) <$> header_ p;
          read_index_ := 0; end_index_ := n |}.

Definition set_read_index (it : PickleIterator) (i : Z) : PickleIterator :=
  {| payload_ := payload_ it; read_index_ := i; end_index_ := end_index_ it |}.

Definition remaining (T : Target) (it : PickleIterator) : Z :=
  size_wrap T (end_index_ it - read_index_ it).

Definition Advance (T : Target) (it : PickleIterator) (size : Z) : PickleIterator :=
  let aligned_size := AlignInt T size uint32_sz in
  if bool_decide (remaining T it < aligned_size)
  then set_read_index it (end_index_ it)
  else set_read_index it (size_wrap T (read_index_ it + aligned_size)).

(** [payload_ + read_index_], as an offset from [payload_]. *)
Definition current_read_ptr (it : PickleIterator) : option Z :=
  match payload_ it with
  | None => None
  | Some _ => Some (read_index_ it)
  end.

(** [GetReadPointerAndAdvance<Type>()]. *)
Definition GetReadPointerAndAdvance_type (T : Target) (sizeof_Type : Z) (it : PickleIterator)
  : PickleIterator * option Z :=
  if bool_decide (remaining T it < sizeof_Type)
  then (set_read_index it (end_index_ it), None)
  else (Advance T it sizeof_Type, current_read_ptr it).

(** [GetReadPointerAndAdvance(int num_bytes)]. *)
Definition GetReadPointerAndAdvance (T : Target) (num_bytes : Z) (it : PickleIterator)
  : PickleIterator * option Z :=
  if bool_decide (num_bytes < 0) || bool_decide (remaining T it < size_wrap T num_bytes)
  then (set_read_index it (end_index_ it), None)
  else (Advance T it (size_wrap T num_bytes), current_read_ptr it).

(** [GetReadPointerAndAdvance(int num_elements, size_t size_element)]. The
    product is an [int64] when [size_t] has 32 bits and a [uint64] converted to
    [int64] when it has 64. *)
Definition GetReadPointerAndAdvance_array (T : Target) (num_elements size_element : Z)
    (it : PickleIterator) : PickleIterator * option Z :=
  let num_bytes := Int.static_cast Int.int64 (num_elements * size_element) in
  let num_bytes32 := Int.static_cast Int.int32 num_bytes in
  if bool_decide (num_bytes <> num_bytes32) then (it, None)
  else GetReadPointerAndAdvance T num_bytes32 it.

(** A read leaves the iterator moved and yields [None] where the function
    returns false. *)
#[local] Abbreviation Read A := (PickleIterator -> option (PickleIterator * option A)).

(** Dereferencing the pointer a successful step returned. *)
Definition deref (it : PickleIterator) (ptr : Z) (n : Z) : option (list Z) :=
  b ← payload_ it; load b ptr n.

Definition ReadBuiltinType (T : Target) (t : Int.type) : Read Z := fun it =>
  let '(it', read_from) := GetReadPointerAndAdvance_type T (Int.size t) it in
  match read_from with
  | None => Some (it', None)
  | Some q => bs ← deref it q (Int.size t);
              Some (it', Some (Int.static_cast t (le_value bs)))
  end.

(** [sizeof(bool)] is one: a [bool] is read from the first of the four bytes
    [WriteBool] wrote. *)
Definition ReadBool (T : Target) : Read bool := fun it =>
  '(it', r) ← ReadBuiltinType T Int.uint8 it;
  Some (it', option_map (fun z => bool_decide (z <> 0)) r).
Definition ReadInt (T : Target) : Read Z := ReadBuiltinType T Int.int32.
Definition ReadLong (T : Target) : Read Z := ReadBuiltinType T (long_t T).
Definition ReadUInt16 (T : Target) : Read Z := ReadBuiltinType T Int.uint16.
Definition ReadUInt32 (T : Target) : Read Z := ReadBuiltinType T Int.uint32.
Definition ReadInt64 (T : Target) : Read Z := ReadBuiltinType T Int.int64.
Definition ReadUInt64 (T : Target) : Read Z := ReadBuiltinType T Int.uint64.

Definition ReadSizeT (T : Target) : Read Z := fun it =>
  '(it', r) ← ReadBuiltinType T Int.uint64 it;
  match r with
  | None => Some (it', None)
  | Some result_uint64 =>
      let result := size_wrap T result_uint64 in
      Some (it', if bool_decide (result = result_uint64) then Some result else None)
  end.

Definition ReadLength (T : Target) : Read Z := fun it =>
  '(it', r) ← ReadInt T it;
  match r with
  | None => Some (it', None)
  | Some result => Some (it', if bool_decide (0 <= result) then Some result else None)
  end.

Definition SkipBytes (T : Target) (num_bytes : Z) : Read unit := fun it =>
  let '(it', q) := GetReadPointerAndAdvance T num_bytes it in
  Some (it', option_map (fun _ => tt) q).

(** The bytes behind the pointer [ReadBytes] hands out. *)
Definition ReadBytes (T : Target) (length : Z) : Read (list Z) := fun it =>
  let '(it', read_from) := GetReadPointerAndAdvance T length it in
  match read_from with
  | None => Some (it', None)
  | Some q => bs ← deref it q length; Some (it', Some bs)
  end.

Definition ReadData (T : Target) : Read (list Z) := fun it =>
  '(it1, r) ← ReadInt T it;
  match r with
  | None => Some (it1, None)
  | Some length => ReadBytes T length it1
  end.

(** [ReadString] and [ReadStringPiece] differ in who owns the characters. *)
Definition ReadString (T : Target) : Read (list Z) := fun it =>
  '(it1, r) ← ReadInt T it;
  match r with
  | None => Some (it1, None)
  | Some len =>
      let '(it2, read_from) := GetReadPointerAndAdvance T len it1 in
      match read_from with
      | None => Some (it2, None)
      | Some q => bs ← deref it1 q len; Some (it2, Some bs)
      end
  end.

Fixpoint char16s (l : list Z) : list Z :=
  match l with
  | a :: b :: l' => le_value [a; b] :: char16s l'
  | _ => []
  end.

Definition ReadString16 (T : Target) : Read (list Z) := fun it =>
  '(it1, r) ← ReadInt T it;
  match r with
  | None => Some (it1, None)
  | Some len =>
      let '(it2, read_from) := GetReadPointerAndAdvance_array T len sizeof_char16 it1 in
      match read_from with
      | None => Some (it2, None)
      | Some q => bs ← deref it1 q (len * sizeof_char16); Some (it2, Some (char16s bs))
      end
  end.

(** ** Sequences of fields *)

Inductive Field :=
| FBool (b : bool)
| FInt (z : Z)
| FLong (z : Z)
| FUInt16 (z : Z)
| FUInt32 (z : Z)
| FInt64 (z : Z)
| FUInt64 (z : Z)
| FSizeT (z : Z)
| FString (s : list Z)
| FString16 (s : list Z)
| FData (s : list Z)
| FBytes (s : list Z).

Definition write_field (T : Target) (p : Pickle) (f : Field) : option (Pickle * bool) :=
  match f with
  | FBool b => WriteBool T p b
  | FInt z => WriteInt T p z
  | FLong z => WriteLong T p z
  | FUInt16 z => WriteUInt16 T p z
  | FUInt32 z => WriteUInt32 T p z
  | FInt64 z => WriteInt64 T p z
  | FUInt64 z => WriteUInt64 T p z
  | FSizeT z => WriteSizeT T p z
  | FString s => WriteString T p s
  | FString16 s => WriteString16 T p s
  | FData s => WriteData T p s (Z.of_nat (length s))
  | FBytes s => WriteBytes T p s (Z.of_nat (length s))
  end.

Fixpoint write_fields (T : Target) (p : Pickle) (fs : list Field) : option (Pickle * bool) :=
  match fs with
  | [] => Some (p, true)
  | f :: fs' =>
      '(p', ok) ← write_field T p f;
      if negb ok then Some (p', false) else write_fields T p' fs'
  end.

(** What a reader asks for next; [RBytes] and [RSkip] carry the caller's
    length. *)
Inductive ReadOp :=
| RBool | RInt | RLong | RUInt16 | RUInt32 | RInt64 | RUInt64 | RSizeT
| RString | RString16 | RData | RBytes (n : Z) | RLength | RSkip (n : Z).

Definition fmap_read {A B} (f : A -> B) (r : Read A) : Read B := fun it =>
  '(it', x) ← r it; Some (it', option_map f x).

Definition read_op (T : Target) (op : ReadOp) : Read Field :=
  match op with
  | RBool => fmap_read FBool (ReadBool T)
  | RInt => fmap_read FInt (ReadInt T)
  | RLong => fmap_read FLong (ReadLong T)
  | RUInt16 => fmap_read FUInt16 (ReadUInt16 T)
  | RUInt32 => fmap_read FUInt32 (ReadUInt32 T)
  | RInt64 => fmap_read FInt64 (ReadInt64 T)
  | RUInt64 => fmap_read FUInt64 (ReadUInt64 T)
  | RSizeT => fmap_read FSizeT (ReadSizeT T)
  | RString => fmap_read FString (ReadString T)
  | RString16 => fmap_read FString16 (ReadString16 T)
  | RData => fmap_read FData (ReadData T)
  | RBytes n => fmap_read FBytes (ReadBytes T n)
  | RLength => fmap_read FInt (ReadLength T)
  | RSkip n => fmap_read (fun _ => FBytes []) (SkipBytes T n)
  end.

Definition op_of (f : Field) : ReadOp :=
  match f with
  | FBool _ => RBool | FInt _ => RInt | FLong _ => RLong | FUInt16 _ => RUInt16
  | FUInt32 _ => RUInt32 | FInt64 _ => RInt64 | FUInt64 _ => RUInt64
  | FSizeT _ => RSizeT | FString _ => RString | FString16 _ => RString16
  | FData _ => RData | FBytes s => RBytes (Z.of_nat (length s))
  end.

(** All the reads of a list, whatever each returns. *)
Fixpoint read_ops (T : Target) (ops : list ReadOp) (it : PickleIterator)
  : option (PickleIterator * list (option Field)) :=
  match ops with
  | [] => Some (it, [])
  | op :: ops' =>
      '(it1, r) ← read_op T op it;
      '(it2, rs) ← read_ops T ops' it1;
      Some (it2, r :: rs)
  end.

(** What the C++ types of the arguments guarantee. *)
Definition field_ok (T : Target) (f : Field) : Prop :=
  match f with
  | FBool _ => True
  | FInt z => Int.in_range Int.int32 z
  | FLong z => Int.in_range (long_t T) z
  | FUInt16 z => Int.in_range Int.uint16 z
  | FUInt32 z => Int.in_range Int.uint32 z
  | FInt64 z => Int.in_range Int.int64 z
  | FUInt64 z => Int.in_range Int.uint64 z
  | FSizeT z => Int.in_range (size_t T) z
  | FString16 s => Forall (Int.in_range Int.uint16) s
  | FString _ | FData _ | FBytes _ => True
  end.

(** ** The encoding, abstractly *)

Definition pad (l : list Z) : list Z :=
  l ++ replicate ((4 - length l mod 4) mod 4) 0.

Definition encode (T : Target) (f : Field) : list Z :=
  match f with
  | FBool b => le_bytes 4 (if b then 1 else 0)
  | FInt z => le_bytes 4 z
  | FLong z => pad (le_bytes (Z.to_nat (Int.size (long_t T))) z)
  | FUInt16 z => pad (le_bytes 2 z)
  | FUInt32 z => le_bytes 4 z
  | FInt64 z => le_bytes 8 z
  | FUInt64 z => le_bytes 8 z
  | FSizeT z => le_bytes 8 z
  | FString s => le_bytes 4 (Z.of_nat (length s)) ++ pad s
  | FString16 s => le_bytes 4 (Z.of_nat (length s)) ++ pad (char16_bytes s)
  | FData s => le_bytes 4 (Z.of_nat (length s)) ++ pad s
  | FBytes s => pad s
  end.

Definition encode_all (T : Target) (fs : list Field) : list Z := fs ≫= encode T.

(** ** Memory lemmas *)

Lemma cells_app (a b c : block) off n :
  off = Z.of_nat (length a) -> n = Z.of_nat (length b) -> cells (a ++ b ++ c) off n = Some b.
Proof.
  intros -> ->. unfold cells. rewrite bool_decide_true by (rewrite !length_app; lia).
  rewrite !Nat2Z.id, drop_app_length, take_app_length. reflexivity.
Qed.

Lemma store_app (a b c src : block) off :
  off = Z.of_nat (length a) -> length src = length b ->
  store (a ++ b ++ c) off src = Some (a ++ src ++ c).
Proof.
  intros -> Hl. unfold store. rewrite bool_decide_true by (rewrite !length_app; lia).
  rewrite !Nat2Z.id, take_app_length, Hl, drop_app_add', drop_app_length by reflexivity. reflexivity.
Qed.

Lemma all_some_fmap (l : list Z) : all_some (Some <$> l) = Some l.
Proof. induction l as [|x l IH]; [reflexivity|]. cbn. rewrite IH. reflexivity. Qed.

Lemma load_payload (P : list Z) (junk : block) off n :
  0 <= off -> 0 <= n -> off + n <= Z.of_nat (length P) ->
  load ((Some <$> P) ++ junk) off n = Some (take (Z.to_nat n) (drop (Z.to_nat off) P)).
Proof.
  intros H1 H2 H3. unfold load, cells.
  rewrite bool_decide_true by (rewrite length_app, length_fmap; lia). cbn [mbind option_bind].
  rewrite drop_app_le, take_app_le by (rewrite ?length_drop, length_fmap; lia).
  rewrite <- fmap_drop, <- fmap_take. apply all_some_fmap.
Qed.

Lemma realloc_grow (b : block) n :
  Z.of_nat (length b) <= n ->
  realloc b n = b ++ replicate (Z.to_nat (n - Z.of_nat (length b))) None.
Proof.
  intros H. unfold realloc. rewrite take_ge by lia. do 2 f_equal. lia.
Qed.

Lemma length_le_bytes n z : length (le_bytes n z) = n.
Proof. revert z. induction n; intros z; cbn; [|rewrite IHn]; reflexivity. Qed.

Lemma le_value_bytes n z : le_value (le_bytes n z) = z mod 256 ^ Z.of_nat n.
Proof.
  revert z. induction n as [|n IH]; intros z; [cbn; rewrite Z.mod_1_r; reflexivity|].
  cbn [le_bytes le_value]. rewrite IH, Nat2Z.inj_succ, Z.pow_succ_r by lia.
  rewrite Z.mod_mod by lia. rewrite Z.rem_mul_r; [reflexivity|lia|].
  apply Z.pow_pos_nonneg; lia.
Qed.

(** ** Sizes *)

Definition align4 (n : Z) : Z := n + (4 - n mod 4) mod 4.
Definition align64 (n : Z) : Z := n + (64 - n mod 64) mod 64.

Lemma align4_spec n : n <= align4 n < n + 4 /\ align4 n mod 4 = 0.
Proof. unfold align4. lia. Qed.

Lemma align4_id n : n mod 4 = 0 -> align4 n = n.
Proof. unfold align4. lia. Qed.

Lemma align64_spec n : n <= align64 n < n + 64 /\ align64 n mod 64 = 0.
Proof. unfold align64. lia. Qed.

Lemma length_pad l : Z.of_nat (length (pad l)) = align4 (Z.of_nat (length l)).
Proof.
  unfold pad, align4. rewrite length_app, length_replicate.
  pose proof (Nat.mod_upper_bound (length l) 4).
  rewrite Nat2Z.inj_add, Nat2Z.inj_mod, Nat2Z.inj_sub, Nat2Z.inj_mod by lia. reflexivity.
Qed.

Lemma pad_id l : (length l mod 4 = 0)%nat -> pad l = l.
Proof. intros H. unfold pad. rewrite H. apply app_nil_r. Qed.

Section Target.
Context (T : Target) `{HT : !TargetOk T}.

Lemma size_wrap_id z : 0 <= z < 2 ^ 32 -> size_wrap T z = z.
Proof.
  intros H. unfold size_wrap, Int.static_cast, Int.modulus, Int.bits.
  destruct size_t_ok as [-> | ->]; cbn [Int.size Int.is_signed Int.uint32 Int.uint64 andb];
    apply Z.mod_small; lia.
Qed.

Lemma readonly_big : 2 ^ 32 - 1 <= kCapacityReadOnly T.
Proof.
  unfold kCapacityReadOnly, size_wrap. destruct size_t_ok as [-> | ->]; vm_compute; congruence.
Qed.

Lemma AlignInt_4 n : 0 <= n <= 2 ^ 32 - 4 -> AlignInt T n uint32_sz = align4 n.
Proof. intros H. unfold AlignInt, uint32_sz, align4. apply size_wrap_id. lia. Qed.

Lemma AlignInt_64 n : 0 <= n <= 2 ^ 32 - 64 -> AlignInt T n kPayloadUnit = align64 n.
Proof. intros H. unfold AlignInt, kPayloadUnit, align64. apply size_wrap_id. lia. Qed.

Lemma DCHECK_true c : c = true -> DCHECK T c = Some tt.
Proof. intros ->. unfold DCHECK. rewrite andb_false_r. reflexivity. Qed.

(** ** Writing *)

(** [p] owns a block of capacity [c] whose payload is [P]. *)
Record owns (p : Pickle) (hs : Z) (P : list Z) (c : Z) : Prop := {
  owns_block : exists hdr junk,
    header_ p = Some ((Some <$> le_bytes 4 (Z.of_nat (length P))) ++ hdr
                        ++ (Some <$> P) ++ junk) /\
    hs = 4 + Z.of_nat (length hdr) /\
    c = Z.of_nat (length P) + Z.of_nat (length junk);
  owns_header_size : header_size_ p = hs;
  owns_capacity : capacity_after_header_ p = c;
  owns_offset : write_offset_ p = Z.of_nat (length P);
  owns_hs : hs mod 4 = 0 /\ hs <= 64;
  owns_payload : Z.of_nat (length P) mod 4 = 0;
  owns_unit : c mod 64 = 0
}.

(** Every allocation a pickle of at most a gigabyte asks for. *)
Definition heap_ok : Prop := forall n, 0 <= n <= 2 ^ 31 + 192 -> realloc_ok T n = true.

Lemma Resize_owns p hs P c n :
  heap_ok -> owns p hs P c -> c <= n <= 2 ^ 31 + 64 ->
  exists p', Resize T p n = Some p' /\ owns p' hs P (align64 n).
Proof.
  intros Hh [(hdr & junk & Hb & Hhs & Hc) H1 H2 H3 H4 H5 H6] Hn.
  pose proof (align64_spec n). pose proof readonly_big.
  unfold Resize. rewrite AlignInt_64 by lia.
  rewrite bool_decide_true by lia. cbn [CHECK mbind option_bind].
  rewrite size_wrap_id by lia. rewrite Hh by lia. cbn [CHECK mbind option_bind].
  eexists; split; [reflexivity|].
  assert (Hlen : forall b, header_ p = Some b -> Z.of_nat (length b) = hs + c).
  { intros b Eb. rewrite Hb in Eb. apply (inj Some) in Eb as <-.
    rewrite !length_app, !length_fmap, length_le_bytes. lia. }
  split; cbn [header_ header_size_ capacity_after_header_ write_offset_]; try assumption; try lia.
  exists hdr, (junk ++ replicate (Z.to_nat (align64 n - c)) None).
  destruct (header_ p) as [b|]; [|discriminate]. specialize (Hlen b eq_refl). cbn [default from_option id].
  rewrite realloc_grow by lia. rewrite Hlen. apply (inj Some) in Hb as ->.
  rewrite <- !app_assoc. split; [|split; [lia|]].
  - replace (header_size_ p + align64 n - (hs + c)) with (align64 n - c) by lia. reflexivity.
  - rewrite length_app, length_replicate. lia.
Qed.

Lemma check_room_ok p hs P c n :
  owns p hs P c -> 0 <= n -> Z.of_nat (length P) + align4 n <= 2 ^ 30 ->
  check_room T p n = Some (align4 n).
Proof.
  intros [_ _ _ Ho _ _ _] Hn Hle. pose proof (align4_spec n).
  unfold check_room. rewrite AlignInt_4 by lia. unfold kuint32max.
  assert (E1 : bool_decide (n <= align4 n) = true) by (apply bool_decide_true; lia).
  assert (E2 : (bool_decide (size_t T ≠ Int.uint64)
                || bool_decide (align4 n <= 2 ^ 32 - 1)) = true)
    by (apply orb_true_iff; right; apply bool_decide_true; lia).
  assert (E3 : bool_decide (write_offset_ p <= size_wrap T (2 ^ 32 - 1 - align4 n)) = true)
    by (apply bool_decide_true; rewrite size_wrap_id; lia).
  rewrite (DCHECK_true _ E1), (DCHECK_true _ E2), (DCHECK_true _ E3). reflexivity.
Qed.

Lemma cells_all (l : list Z) : cells (Some <$> l) 0 (Z.of_nat (length l)) = Some (Some <$> l).
Proof.
  pose proof (cells_app [] (Some <$> l) [] 0 (Z.of_nat (length l)) eq_refl) as H.
  rewrite length_fmap, app_nil_r in H. apply H. reflexivity.
Qed.

(** The second half of [WriteBytesCommon], once there is room. *)
Lemma write_in_place p hs P c (bs : list Z) n dl :
  owns p hs P c -> n = Z.of_nat (length bs) -> dl = align4 n ->
  Z.of_nat (length P) + dl <= c -> Z.of_nat (length P) + dl < 2 ^ 32 ->
  exists p',
    (b ← header_ p;
     src ← cells (Some <$> bs) 0 n;
     b1 ← store b (header_size_ p + write_offset_ p) src;
     b2 ← store b1 (header_size_ p + write_offset_ p + n)
            (replicate (Z.to_nat (size_wrap T (dl - n))) (Some 0));
     p' ← set_payload_size
            {| header_ := Some b2; header_size_ := header_size_ p;
               capacity_after_header_ := capacity_after_header_ p;
               write_offset_ := write_offset_ p |}
            (Int.static_cast Int.uint32 (Z.of_nat (length P) + dl));
     Some {| header_ := header_ p'; header_size_ := header_size_ p';
             capacity_after_header_ := capacity_after_header_ p';
             write_offset_ := Z.of_nat (length P) + dl |}) = Some p' /\
    owns p' hs (P ++ pad bs) c.
Proof.
  intros [(hdr & junk & Hb & Hhs & Hc) H1 H2 H3 H4 H5 H6] Hn Hdl Hroom Hsmall.
  pose proof (align4_spec n) as Ha. rewrite H1, H2, H3, Hb. cbn [mbind option_bind].
  rewrite Hn, cells_all, <- Hn. cbn [mbind option_bind].
  rewrite size_wrap_id by lia.
  assert (Hj : exists j1 j2 j3, junk = j1 ++ j2 ++ j3 /\ length j1 = length bs /\
                 length j2 = Z.to_nat (dl - n)).
  { exists (take (length bs) junk), (take (Z.to_nat (dl - n)) (drop (length bs) junk)),
      (drop (Z.to_nat (dl - n)) (drop (length bs) junk)).
    rewrite !take_drop. split; [reflexivity|].
    rewrite !length_take, length_drop. lia. }
  destruct Hj as (j1 & j2 & j3 & -> & Hj1 & Hj2).
  set (h4 := Some <$> le_bytes 4 (Z.of_nat (length P))).
  assert (Hh4 : length h4 = 4%nat) by (unfold h4; rewrite length_fmap; apply length_le_bytes).
  pose proof (store_app (h4 ++ hdr ++ (Some <$> P)) j1 (j2 ++ j3) (Some <$> bs)
                (hs + Z.of_nat (length P))) as E1.
  rewrite <- !app_assoc in E1.
  rewrite E1; [|rewrite !length_app, Hh4, length_fmap; lia|rewrite length_fmap; lia].
  cbn [mbind option_bind].
  pose proof (store_app (h4 ++ hdr ++ (Some <$> P) ++ (Some <$> bs)) j2 j3
                (replicate (Z.to_nat (dl - n)) (Some 0)) (hs + Z.of_nat (length P) + n)) as E2.
  rewrite <- !app_assoc in E2.
  rewrite E2; [|rewrite !length_app, Hh4, !length_fmap; lia|rewrite length_replicate; lia].
  cbn [mbind option_bind]. unfold set_payload_size. cbn [mbind option_bind header_].
  set (v := Int.static_cast Int.uint32 (Z.of_nat (length P) + dl)).
  assert (Hv : v = Z.of_nat (length (P ++ pad bs))).
  { rewrite length_app, Nat2Z.inj_add, length_pad, <- Hn, <- Hdl. unfold v.
    unfold Int.static_cast, Int.modulus, Int.bits. cbn [Int.size Int.is_signed Int.uint32 andb].
    apply Z.mod_small. lia. }
  pose proof (store_app [] h4 (hdr ++ (Some <$> P) ++ (Some <$> bs)
                ++ replicate (Z.to_nat (dl - n)) (Some 0) ++ j3)
                (Some <$> le_bytes 4 v) 0 eq_refl) as E3.
  cbn [app] in E3.
  rewrite E3 by (rewrite length_fmap, length_le_bytes; lia).
  cbn [mbind option_bind]. eexists; split; [reflexivity|].
  split; cbn [header_ header_size_ capacity_after_header_ write_offset_];
    try assumption; try reflexivity.
  - exists hdr, j3. rewrite Hv. split; [|split; [assumption|]].
    + do 3 f_equal. unfold pad. rewrite !fmap_app, fmap_replicate, <- !app_assoc.
      pose proof (length_pad bs) as Hp. unfold pad in Hp.
      rewrite length_app, length_replicate, Nat2Z.inj_add, <- Hn, <- Hdl in Hp.
      revert Hp. generalize ((4 - length bs mod 4) mod 4)%nat as k. intros k Hp.
      replace k with (Z.to_nat (dl - n)) by lia. reflexivity.
    + rewrite !length_app in Hc. rewrite length_app.
      pose proof (length_pad bs) as Hp. rewrite <- Hn, <- Hdl in Hp. lia.
  - rewrite length_app, Nat2Z.inj_add, length_pad, <- Hn, <- Hdl. lia.
  - rewrite length_app, Nat2Z.inj_add, length_pad, <- Hn. lia.
Qed.

(** A pickle under construction: the capacity stays within twice the payload,
    so doubling it never wraps for payloads up to a gigabyte. *)
Definition writing (p : Pickle) (hs : Z) (P : list Z) : Prop :=
  exists c, owns p hs P c /\ c <= 2 * Z.of_nat (length P) + 64.

Lemma WriteBytesCommon_writing p hs P bs n :
  heap_ok -> writing p hs P -> n = Z.of_nat (length bs) ->
  Z.of_nat (length P) + align4 n <= 2 ^ 30 ->
  exists p', WriteBytesCommon T p bs n = Some p' /\ writing p' hs (P ++ pad bs).
Proof.
  intros Hh (c & Hown & Hc) Hn Hle. pose proof (align4_spec n). pose proof readonly_big.
  pose proof (owns_capacity _ _ _ _ Hown) as Hcap. pose proof (owns_offset _ _ _ _ Hown) as Hoff.
  pose proof (owns_unit _ _ _ _ Hown).
  unfold WriteBytesCommon.
  rewrite DCHECK_true by (apply bool_decide_true; lia). cbn [mbind option_bind].
  rewrite (check_room_ok _ _ _ _ _ Hown) by lia. cbn [mbind option_bind].
  rewrite Hoff, Hcap, size_wrap_id by lia.
  assert (exists q c', (if bool_decide (c < Z.of_nat (length P) + align4 n)
       then Resize T p (Z.max (size_wrap T (c * 2)) (Z.of_nat (length P) + align4 n))
       else Some p) = Some q /\ owns q hs P c' /\
       Z.of_nat (length P) + align4 n <= c' <= 2 * (Z.of_nat (length P) + align4 n) + 64)
    as (q & c' & -> & Hq & Hc').
  { case_bool_decide.
    - destruct (owns_block _ _ _ _ Hown) as (? & ? & _ & _ & ?).
      rewrite size_wrap_id by lia.
      edestruct (Resize_owns p hs P c) as (q & -> & Hq); [eassumption..|lia|].
      eexists _, _. split; [reflexivity|]. split; [exact Hq|].
      pose proof (align64_spec (Z.max (c * 2) (Z.of_nat (length P) + align4 n))).
      destruct (Z.max_spec (c * 2) (Z.of_nat (length P) + align4 n)) as [[? E]|[? E]];
        rewrite E in *; [lia|]. unfold align64. lia.
    - eexists _, _. split; [reflexivity|]. split; [exact Hown|]. lia. }
  cbn [mbind option_bind].
  edestruct (write_in_place q hs P c' bs n) as (p' & E & Hp'); [eassumption..|reflexivity|lia|lia|].
  exists p'. split.
  - rewrite <- E. reflexivity.
  - exists c'. split; [assumption|].
    rewrite length_app, Nat2Z.inj_add, length_pad, <- Hn. lia.
Qed.

Lemma WritePOD_writing p hs P t v :
  heap_ok -> writing p hs P -> 0 <= Int.size t ->
  Z.of_nat (length P) + align4 (Int.size t) <= 2 ^ 30 ->
  exists p', WritePOD T t p v = Some (p', true) /\
    writing p' hs (P ++ pad (le_bytes (Z.to_nat (Int.size t)) v)).
Proof.
  intros Hh Hw Ht Hle. unfold WritePOD.
  edestruct (WriteBytesCommon_writing p hs P) as (p' & -> & Hp'); [eassumption..| |eassumption|].
  { rewrite length_le_bytes. lia. }
  exists p'. split; [reflexivity|assumption].
Qed.

Lemma WriteBytes_writing p hs P bs n :
  heap_ok -> writing p hs P -> n = Z.of_nat (length bs) ->
  Z.of_nat (length P) + align4 n <= 2 ^ 30 ->
  exists p', WriteBytes T p bs n = Some (p', true) /\ writing p' hs (P ++ pad bs).
Proof.
  intros Hh Hw Hn Hle. unfold WriteBytes. pose proof (align4_spec n).
  rewrite size_wrap_id by lia.
  edestruct (WriteBytesCommon_writing p hs P) as (p' & -> & Hp'); [eassumption..|].
  exists p'. split; [reflexivity|assumption].
Qed.

Lemma le_bytes_mod n z : le_bytes n (z mod 256 ^ Z.of_nat n) = le_bytes n z.
Proof.
  revert z. induction n as [|n IH]; intros z; [reflexivity|].
  assert (Hp : 0 < 256 ^ Z.of_nat n) by (apply Z.pow_pos_nonneg; lia).
  cbn [le_bytes]. rewrite Nat2Z.inj_succ, Z.pow_succ_r by lia.
  rewrite Z.rem_mul_r by lia.
  set (m := (z / 256) mod 256 ^ Z.of_nat n).
  replace ((z mod 256 + 256 * m) mod 256) with (z mod 256) by lia.
  replace ((z mod 256 + 256 * m) / 256) with m by lia. f_equal. apply IH.
Qed.

Lemma int32_id z : 0 <= z < 2 ^ 31 -> Int.static_cast Int.int32 z = z.
Proof.
  intros H. unfold Int.static_cast, Int.modulus, Int.bits.
  cbn [Int.size Int.is_signed Int.int32 andb]. rewrite Z.mod_small by lia.
  destruct (2 ^ (8 * 4 - 1) <=? z) eqn:E; [|reflexivity]. apply Z.leb_le in E. lia.
Qed.

Lemma length_char16_bytes s : length (char16_bytes s) = (2 * length s)%nat.
Proof. induction s as [|c s IH]; [reflexivity|]. unfold char16_bytes in *. cbn in *. lia. Qed.

(** A length-prefixed string, whatever its characters. *)
Lemma WriteLengthBytes_writing p hs P len bs n :
  heap_ok -> writing p hs P -> n = Z.of_nat (length bs) ->
  Z.of_nat (length P) + 4 + align4 n <= 2 ^ 30 ->
  exists p1 p2, WriteInt T p len = Some (p1, true) /\ WriteBytes T p1 bs n = Some (p2, true) /\
    writing p2 hs (P ++ le_bytes 4 len ++ pad bs).
Proof.
  intros Hh Hw Hn Hle. pose proof (align4_spec n).
  destruct (WritePOD_writing p hs P Int.int32 len Hh Hw) as (p1 & E1 & Hp1); [done| |].
  { change (align4 (Int.size Int.int32)) with 4. lia. }
  rewrite pad_id in Hp1 by reflexivity.
  destruct (WriteBytes_writing p1 hs _ bs n Hh Hp1 Hn) as (p2 & E2 & Hp2).
  { rewrite length_app, Nat2Z.inj_add, length_le_bytes. cbn. lia. }
  exists p1, p2. split; [exact E1|]. split; [exact E2|]. rewrite <- app_assoc in Hp2. exact Hp2.
Qed.

Lemma write_field_writing p hs P f :
  heap_ok -> writing p hs P -> Z.of_nat (length P) + Z.of_nat (length (encode T f)) <= 2 ^ 30 ->
  exists p', write_field T p f = Some (p', true) /\ writing p' hs (P ++ encode T f).
Proof.
  intros Hh Hw Hle.
  assert (Hpod : forall t v, 0 <= Int.size t ->
    encode T f = pad (le_bytes (Z.to_nat (Int.size t)) v) ->
    exists p', WritePOD T t p v = Some (p', true) /\ writing p' hs (P ++ encode T f)).
  { intros t v Ht E. rewrite E in Hle |- *. apply WritePOD_writing; [assumption..|].
    rewrite length_pad, length_le_bytes, Z2Nat.id in Hle by lia. exact Hle. }
  assert (Hstr : forall len bs n, n = Z.of_nat (length bs) ->
    encode T f = le_bytes 4 len ++ pad bs ->
    exists p1 p2, WriteInt T p len = Some (p1, true) /\ WriteBytes T p1 bs n = Some (p2, true) /\
      writing p2 hs (P ++ encode T f)).
  { intros len bs n -> E. rewrite E in Hle |- *.
    apply WriteLengthBytes_writing; [assumption..|reflexivity|].
    rewrite length_app, Nat2Z.inj_add, length_pad, length_le_bytes in Hle. lia. }
  assert (Hsmall : forall s : list Z, Z.of_nat (length (pad s)) <= 2 ^ 30 ->
    0 <= Z.of_nat (length s) < 2 ^ 31).
  { intros s. rewrite length_pad. pose proof (align4_spec (Z.of_nat (length s))). lia. }
  destruct f as [b|z|z|z|z|z|z|z|s|s|s|s]; cbn [write_field].
  1-2, 4-7: apply Hpod; [done|reflexivity].
  - apply (Hpod (long_t T)); [|reflexivity]. destruct long_t_ok as [-> | ->]; done.
  - apply Hpod; [done|]. cbn [encode].
    change (le_bytes (Z.to_nat (Int.size Int.uint64)) (Int.static_cast Int.uint64 z))
      with (le_bytes 8 (z mod 256 ^ Z.of_nat 8)).
    rewrite le_bytes_mod, pad_id by reflexivity. reflexivity.
  - unfold WriteString. cbn [encode] in Hle.
    rewrite length_app in Hle. rewrite int32_id by (apply Hsmall; lia).
    destruct (Hstr (Z.of_nat (length s)) s _ eq_refl eq_refl) as (p1 & p2 & -> & E2 & Hp2).
    exists p2. split; [exact E2|exact Hp2].
  - unfold WriteString16. cbn [encode] in Hle. rewrite length_app in Hle.
    assert (0 <= Z.of_nat (length (char16_bytes s)) < 2 ^ 31) by (apply Hsmall; lia).
    rewrite length_char16_bytes in H. unfold sizeof_char16.
    rewrite (int32_id (Z.of_nat (length s))), !size_wrap_id, int32_id by (rewrite ?size_wrap_id; lia).
    destruct (Hstr (Z.of_nat (length s)) (char16_bytes s) (Z.of_nat (length s) * 2))
      as (p1 & p2 & -> & E2 & Hp2); [rewrite length_char16_bytes; lia|reflexivity|].
    exists p2. split; [exact E2|exact Hp2].
  - unfold WriteData. rewrite bool_decide_false by lia.
    destruct (Hstr (Z.of_nat (length s)) s _ eq_refl eq_refl) as (p1 & p2 & -> & E2 & Hp2).
    exists p2. split; [exact E2|exact Hp2].
  - cbn [encode] in *. rewrite length_pad in Hle.
    apply WriteBytes_writing; [assumption..|reflexivity|exact Hle].
Qed.

Lemma write_fields_writing fs p hs P :
  heap_ok -> writing p hs P ->
  Z.of_nat (length P) + Z.of_nat (length (encode_all T fs)) <= 2 ^ 30 ->
  exists p', write_fields T p fs = Some (p', true) /\ writing p' hs (P ++ encode_all T fs).
Proof.
  intros Hh. revert p P. induction fs as [|f fs IH]; intros p P Hw Hle.
  - exists p. split; [reflexivity|]. cbn. rewrite app_nil_r. exact Hw.
  - cbn [encode_all mbind list_bind] in Hle. fold (encode_all T fs) in Hle.
    change (encode_all T (f :: fs)) with (encode T f ++ encode_all T fs) in *.
    rewrite length_app in Hle.
    destruct (write_field_writing p hs P f Hh Hw) as (p1 & E1 & Hp1); [lia|].
    destruct (IH p1 _ Hp1) as (p2 & E2 & Hp2); [rewrite length_app; lia|].
    exists p2. cbn [write_fields]. rewrite E1. cbn [mbind option_bind negb].
    split; [exact E2|]. rewrite <- app_assoc in Hp2. exact Hp2.
Qed.

(** A constructor's first [Resize]. *)
Lemma Pickle_init hs :
  heap_ok -> 4 <= hs <= 64 -> hs mod 4 = 0 ->
  exists q p, Resize T {| header_ := None; header_size_ := hs; capacity_after_header_ := 0;
                          write_offset_ := 0 |} kPayloadUnit = Some q /\
    set_payload_size q 0 = Some p /\ writing p hs [].
Proof.
  intros Hh Hhs H4. pose proof readonly_big. unfold Resize.
  cbn [header_ header_size_ capacity_after_header_ write_offset_].
  rewrite AlignInt_64 by (unfold kPayloadUnit; lia).
  change (align64 kPayloadUnit) with 64.
  rewrite bool_decide_true by lia. cbn [CHECK mbind option_bind].
  rewrite size_wrap_id by lia. rewrite Hh by lia. cbn [CHECK mbind option_bind default].
  eexists _, _. split; [reflexivity|].
  unfold set_payload_size. cbn [header_ mbind option_bind].
  change (default [] None) with (@nil cell).
  assert (E : realloc [] (hs + 64)
    = replicate 4 None ++ replicate (Z.to_nat (hs - 4)) None ++ replicate 64 None).
  { unfold realloc. rewrite take_nil, app_nil_l, <- !replicate_add.
    f_equal. cbn [length]. lia. }
  rewrite E. pose proof (store_app (@nil cell) (replicate 4 None)
     (replicate (Z.to_nat (hs - 4)) None ++ replicate 64 None) (fmap (M:=list) Some (le_bytes 4 0)) 0
     eq_refl) as Es. rewrite !app_nil_l in Es. rewrite Es by reflexivity.
  cbn [mbind option_bind header_ header_size_ capacity_after_header_ write_offset_].
  split; [reflexivity|]. exists 64. split; [|cbn; lia].
  split; cbn [header_ header_size_ capacity_after_header_ write_offset_]; try reflexivity; [|lia].
  exists (replicate (Z.to_nat (hs - 4)) None), (replicate 64 None).
  split; [reflexivity|]. rewrite !length_replicate. cbn [length]. lia.
Qed.

Lemma Pickle_with_header_writing header_size :
  heap_ok -> 4 <= header_size <= 64 ->
  exists p, Pickle_with_header T header_size = Some p /\ writing p (align4 header_size) [].
Proof.
  intros Hh Hs. pose proof (align4_spec header_size).
  destruct (Pickle_init (align4 header_size) Hh) as (q & p & Eq & Ep & Hp);
    [unfold align4; lia|lia|].
  exists p. split; [|exact Hp]. unfold Pickle_with_header, sizeof_Header, kPayloadUnit.
  assert (E1 : bool_decide (4 <= size_wrap T header_size) = true)
    by (apply bool_decide_true; rewrite size_wrap_id; lia).
  assert (E2 : bool_decide (header_size <= 64) = true) by (apply bool_decide_true; lia).
  rewrite (DCHECK_true _ E1), (DCHECK_true _ E2). cbn [mbind option_bind].
  rewrite size_wrap_id, AlignInt_4 by lia.
  unfold kPayloadUnit in Eq. rewrite Eq. exact Ep.
Qed.

Lemma Pickle_new_with_header : Pickle_new T = Pickle_with_header T sizeof_Header.
Proof.
  unfold Pickle_new, Pickle_with_header.
  assert (E1 : bool_decide (sizeof_Header <= size_wrap T sizeof_Header) = true)
    by (apply bool_decide_true; rewrite size_wrap_id by (unfold sizeof_Header; lia); lia).
  assert (E2 : bool_decide (sizeof_Header <= kPayloadUnit) = true)
    by (apply bool_decide_true; unfold sizeof_Header, kPayloadUnit; lia).
  rewrite (DCHECK_true _ E1), (DCHECK_true _ E2).
  cbn [mbind option_bind].
  rewrite size_wrap_id, AlignInt_4 by (unfold sizeof_Header; lia). reflexivity.
Qed.

(** ** Reading *)

(** An iterator over the payload [P] at index [i]. *)
Record reading (it : PickleIterator) (P : list Z) (i : Z) : Prop := {
  reading_payload : exists junk, payload_ it = Some ((Some <$> P) ++ junk);
  reading_end : end_index_ it = Z.of_nat (length P);
  reading_index : read_index_ it = i;
  reading_bounds : 0 <= i <= Z.of_nat (length P);
  reading_small : Z.of_nat (length P) < 2 ^ 31
}.

(** The index after taking [n] bytes at [i]. *)
Definition next_index (P : list Z) (i n : Z) : Z :=
  if bool_decide (Z.of_nat (length P) - i < n) then Z.of_nat (length P)
  else Z.min (i + align4 n) (Z.of_nat (length P)).

Lemma set_read_index_twice it i j : set_read_index (set_read_index it i) j = set_read_index it j.
Proof. reflexivity. Qed.

Lemma reading_move it P i j :
  reading it P i -> 0 <= j <= Z.of_nat (length P) -> reading (set_read_index it j) P j.
Proof. intros [] ?. split; cbn; auto. Qed.

Lemma next_index_bounds P i n :
  0 <= i <= Z.of_nat (length P) -> 0 <= n -> i <= next_index P i n <= Z.of_nat (length P).
Proof.
  intros ? ?. unfold next_index. pose proof (align4_spec n). case_bool_decide; lia.
Qed.

Lemma get_type_is_get n it :
  0 <= n < 2 ^ 31 -> GetReadPointerAndAdvance_type T n it = GetReadPointerAndAdvance T n it.
Proof.
  intros H. unfold GetReadPointerAndAdvance, GetReadPointerAndAdvance_type.
  rewrite (bool_decide_false (n < 0)), size_wrap_id by lia. reflexivity.
Qed.

Lemma get_reading n it P i :
  reading it P i -> 0 <= n < 2 ^ 31 ->
  GetReadPointerAndAdvance T n it
  = (set_read_index it (next_index P i n),
     if bool_decide (Z.of_nat (length P) - i < n) then None else Some i).
Proof.
  intros [(junk & Hp) He Hi Hb Hs] Hn. pose proof (align4_spec n).
  unfold GetReadPointerAndAdvance, next_index, Advance, remaining, current_read_ptr.
  rewrite (bool_decide_false (n < 0)), He, Hi, Hp by lia.
  rewrite (size_wrap_id (Z.of_nat (length P) - i)), (size_wrap_id n) by lia.
  cbn [orb]. case_bool_decide; [reflexivity|].
  rewrite AlignInt_4 by lia. case_bool_decide.
  - rewrite Z.min_r by lia. reflexivity.
  - rewrite Z.min_l, size_wrap_id by lia. reflexivity.
Qed.

Lemma deref_reading it P i q n :
  reading it P i -> 0 <= q -> 0 <= n -> q + n <= Z.of_nat (length P) ->
  deref it q n = Some (take (Z.to_nat n) (drop (Z.to_nat q) P)).
Proof.
  intros [(junk & Hp) _ _ _ _] ? ? ?. unfold deref. rewrite Hp. cbn [mbind option_bind].
  apply load_payload; lia.
Qed.

Lemma ReadBuiltinType_reading t it P i :
  reading it P i -> 0 <= Int.size t < 2 ^ 31 ->
  ReadBuiltinType T t it
  = Some (set_read_index it (next_index P i (Int.size t)),
          if bool_decide (Z.of_nat (length P) - i < Int.size t) then None
          else Some (Int.static_cast t
                 (le_value (take (Z.to_nat (Int.size t)) (drop (Z.to_nat i) P))))).
Proof.
  intros Hr Hn. unfold ReadBuiltinType. rewrite get_type_is_get by lia.
  rewrite (get_reading _ _ P i Hr Hn). pose proof (reading_bounds _ _ _ Hr).
  case_bool_decide; [reflexivity|].
  rewrite (deref_reading it P i) by (assumption || lia). reflexivity.
Qed.

(** *** Reading back what was written *)

Lemma next_index_pad pre l post :
  next_index (pre ++ pad l ++ post) (Z.of_nat (length pre)) (Z.of_nat (length l))
  = Z.of_nat (length (pre ++ pad l)).
Proof.
  unfold next_index. pose proof (length_pad l). pose proof (align4_spec (Z.of_nat (length l))).
  rewrite bool_decide_false by (rewrite !length_app; lia). rewrite !length_app. lia.
Qed.

Lemma no_underrun pre l post :
  bool_decide (Z.of_nat (length (pre ++ pad l ++ post)) - Z.of_nat (length pre)
               < Z.of_nat (length l)) = false.
Proof.
  pose proof (length_pad l). pose proof (align4_spec (Z.of_nat (length l))).
  apply bool_decide_false. rewrite !length_app. lia.
Qed.

Lemma take_drop_pad (pre l post : list Z) :
  take (length l) (drop (length pre) (pre ++ pad l ++ post)) = l.
Proof. unfold pad. rewrite drop_app_length, <- app_assoc, take_app_length. reflexivity. Qed.

Lemma ReadBytes_back it pre bs post n :
  n = Z.of_nat (length bs) ->
  reading it (pre ++ pad bs ++ post) (Z.of_nat (length pre)) ->
  GetReadPointerAndAdvance T n it
  = (set_read_index it (Z.of_nat (length (pre ++ pad bs))), Some (Z.of_nat (length pre))) /\
  deref it (Z.of_nat (length pre)) n = Some bs.
Proof.
  intros -> Hr. pose proof (reading_small _ _ _ Hr) as Hs. pose proof (length_pad bs).
  pose proof (align4_spec (Z.of_nat (length bs))). rewrite !length_app in Hs. split.
  - rewrite (get_reading _ _ _ _ Hr) by lia. rewrite next_index_pad, no_underrun. reflexivity.
  - rewrite (deref_reading _ _ _ _ _ Hr) by (rewrite ?length_app; lia).
    rewrite !Nat2Z.id, take_drop_pad. reflexivity.
Qed.

Lemma ReadBuiltinType_back t it pre bs post :
  Int.size t = Z.of_nat (length bs) ->
  reading it (pre ++ pad bs ++ post) (Z.of_nat (length pre)) ->
  ReadBuiltinType T t it
  = Some (set_read_index it (Z.of_nat (length (pre ++ pad bs))),
          Some (Int.static_cast t (le_value bs))).
Proof.
  intros Ht Hr. destruct (ReadBytes_back it pre bs post _ Ht Hr) as [E1 E2].
  pose proof (reading_small _ _ _ Hr) as Hs. pose proof (length_pad bs).
  pose proof (align4_spec (Z.of_nat (length bs))). rewrite !length_app in Hs.
  unfold ReadBuiltinType. rewrite get_type_is_get, E1, E2 by lia. reflexivity.
Qed.

Ltac int_size H := Int.int_cases H; cbn; lia.

Lemma cast_le_bytes t z :
  Int.is_integral t = true -> Int.in_range t z ->
  Int.static_cast t (le_value (le_bytes (Z.to_nat (Int.size t)) z)) = z.
Proof.
  intros Ht Hz. rewrite le_value_bytes, Z2Nat.id by (int_size Ht).
  replace (256 ^ Int.size t) with (Int.modulus t).
  - rewrite Int.static_cast_mod by assumption. apply Int.static_cast_id; assumption.
  - unfold Int.modulus, Int.bits. change 256 with (2 ^ 8). apply Z.pow_mul_r; int_size Ht.
Qed.

(** A POD read right after it was written. *)
Lemma ReadPOD_back t it pre z post :
  Int.is_integral t = true -> Int.in_range t z ->
  let e := pad (le_bytes (Z.to_nat (Int.size t)) z) in
  reading it (pre ++ e ++ post) (Z.of_nat (length pre)) ->
  ReadBuiltinType T t it = Some (set_read_index it (Z.of_nat (length (pre ++ e))), Some z).
Proof.
  intros Ht Hz e Hr.
  rewrite (ReadBuiltinType_back t _ _ _ _) with (2 := Hr).
  - rewrite cast_le_bytes by assumption. reflexivity.
  - rewrite length_le_bytes. int_size Ht.
Qed.

(** The length prefix, then as many padded bytes. *)
Lemma ReadLengthBytes_back it pre len bs post n :
  0 <= len < 2 ^ 31 -> n = Z.of_nat (length bs) ->
  let e := le_bytes 4 len ++ pad bs in
  reading it (pre ++ e ++ post) (Z.of_nat (length pre)) ->
  exists it1, ReadInt T it = Some (it1, Some len) /\
    GetReadPointerAndAdvance T n it1
    = (set_read_index it (Z.of_nat (length (pre ++ e))), Some (Z.of_nat (length pre) + 4)) /\
    deref it1(Z.of_nat (length pre) + 4) n = Some bs.
Proof.
  intros Hlen Hn e Hr. unfold e in *. rewrite <- app_assoc in Hr.
  change (le_bytes 4 len) with (pad (le_bytes (Z.to_nat (Int.size Int.int32)) len)) in *.
  set (w := pad (le_bytes (Z.to_nat (Int.size Int.int32)) len)) in *.
  pose proof (ReadPOD_back Int.int32 it pre len (pad bs ++ post) eq_refl) as E1.
  exists (set_read_index it (Z.of_nat (length (pre ++ w)))).
  assert (Hr1 : reading (set_read_index it (Z.of_nat (length (pre ++ w))))
                  ((pre ++ w) ++ pad bs ++ post) (Z.of_nat (length (pre ++ w)))).
  { rewrite <- app_assoc. apply (reading_move it _ _ _ Hr). rewrite !length_app. lia. }
  destruct (ReadBytes_back _ _ _ _ n Hn Hr1) as [E2 E3].
  assert (Hw : Z.of_nat (length (pre ++ w)) = Z.of_nat (length pre) + 4)
    by (rewrite length_app, Nat2Z.inj_add; reflexivity).
  split; [apply E1; [|exact Hr]|].
  { Int.int_compute. lia. }
  rewrite <- app_assoc in E2. rewrite E2. rewrite Hw in E3 |- *. split; [reflexivity|].
  exact E3.
Qed.

Lemma char16s_bytes s : Forall (Int.in_range Int.uint16) s -> char16s (char16_bytes s) = s.
Proof.
  induction 1 as [|c s Hc _ IH]; [reflexivity|].
  change (char16_bytes (c :: s)) with (c mod 256 :: (c / 256) mod 256 :: char16_bytes s).
  cbn [char16s]. rewrite IH. f_equal. Int.int_compute. unfold le_value. lia.
Qed.

(** A field is read back, and the reader stands after it. *)
Lemma read_op_back it pre f post :
  field_ok T f -> reading it (pre ++ encode T f ++ post) (Z.of_nat (length pre)) ->
  read_op T (op_of f) it
  = Some (set_read_index it (Z.of_nat (length (pre ++ encode T f))), Some f).
Proof.
  intros Hf Hr.
  assert (Hpod : forall t z, Int.is_integral t = true -> Int.in_range t z ->
    encode T f = pad (le_bytes (Z.to_nat (Int.size t)) z) ->
    ReadBuiltinType T t it
    = Some (set_read_index it (Z.of_nat (length (pre ++ encode T f))), Some z)).
  { intros t z Ht Hz E. rewrite E in *. apply (ReadPOD_back t it pre z post Ht Hz Hr). }
  assert (Hsmall : Z.of_nat (length (encode T f)) < 2 ^ 31).
  { pose proof (reading_small _ _ _ Hr) as Hs. rewrite !length_app in Hs. lia. }
  assert (Hstr : forall s, Z.of_nat (length (pad s)) < 2 ^ 31 -> 0 <= Z.of_nat (length s) < 2 ^ 31).
  { intros s Hs. rewrite length_pad in Hs. pose proof (align4_spec (Z.of_nat (length s))). lia. }
  destruct f as [b|z|z|z|z|z|z|z|s|s|s|s]; cbn [op_of read_op]; unfold fmap_read.
  - unfold ReadBool. cbn [encode] in *.
    pose proof (reading_small _ _ _ Hr) as Hs. pose proof (reading_bounds _ _ _ Hr).
    rewrite (ReadBuiltinType_reading Int.uint8 it _ _ Hr) by done.
    change (Int.size Int.uint8) with 1. unfold next_index.
    assert (E : bool_decide (Z.of_nat (length (pre ++ le_bytes 4 (if b then 1 else 0) ++ post))
                             - Z.of_nat (length pre) < 1) = false)
      by (apply bool_decide_false; rewrite !length_app, length_le_bytes; lia).
    rewrite E. cbn [mbind option_bind option_map]. rewrite Nat2Z.id, drop_app_length.
    change (align4 1) with 4. rewrite Z.min_l by (rewrite !length_app, length_le_bytes; lia).
    rewrite length_app, length_le_bytes, Nat2Z.inj_add. destruct b; reflexivity.
  - unfold ReadInt. rewrite (Hpod Int.int32 z) by done. reflexivity.
  - unfold ReadLong. rewrite (Hpod (long_t T) z); [reflexivity|destruct long_t_ok as [-> | ->]; done|done|].
    reflexivity.
  - unfold ReadUInt16. rewrite (Hpod Int.uint16 z) by done. reflexivity.
  - unfold ReadUInt32. rewrite (Hpod Int.uint32 z) by done. reflexivity.
  - unfold ReadInt64. rewrite (Hpod Int.int64 z) by done. reflexivity.
  - unfold ReadUInt64. rewrite (Hpod Int.uint64 z) by done. reflexivity.
  - unfold ReadSizeT. cbn [field_ok] in Hf.
    assert (Hz : Int.is_integral (size_t T) = true /\ Int.in_range Int.uint64 z).
    { destruct size_t_ok as [E | E]; rewrite E in *; (split; [reflexivity|]);
        Int.int_compute; lia. }
    destruct Hz. rewrite (Hpod Int.uint64 z) by done. cbn [mbind option_bind].
    unfold size_wrap. rewrite Int.static_cast_id, bool_decide_true by done. reflexivity.
  - cbn [encode] in *. rewrite length_app in Hsmall. destruct (ReadLengthBytes_back it pre (Z.of_nat (length s)) s post (Z.of_nat (length s)))
      as (it1 & E1 & E2 & E3); [apply Hstr; lia|reflexivity|exact Hr|].
    unfold ReadString. rewrite E1. cbn [mbind option_bind]. rewrite E2, E3. reflexivity.
  - cbn [encode] in *. rewrite length_app in Hsmall. 
    assert (Hs : 0 <= Z.of_nat (length (char16_bytes s)) < 2 ^ 31) by (apply Hstr; lia).
    rewrite length_char16_bytes in Hs.
    destruct (ReadLengthBytes_back it pre (Z.of_nat (length s)) (char16_bytes s) post
                (Z.of_nat (length s) * 2))
      as (it1 & E1 & E2 & E3); [lia|rewrite length_char16_bytes; lia|exact Hr|].
    unfold ReadString16. rewrite E1. cbn [mbind option_bind].
    unfold GetReadPointerAndAdvance_array, sizeof_char16.
    rewrite (Int.static_cast_id Int.int64) by (done || (Int.int_compute; lia)).
    rewrite int32_id, bool_decide_false by lia. rewrite E2, E3. cbn [mbind option_bind].
    rewrite char16s_bytes by exact Hf. reflexivity.
  - cbn [encode] in *. rewrite length_app in Hsmall.
    destruct (ReadLengthBytes_back it pre (Z.of_nat (length s)) s post (Z.of_nat (length s)))
      as (it1 & E1 & E2 & E3); [apply Hstr; lia|reflexivity|exact Hr|].
    unfold ReadData, ReadBytes. rewrite E1. cbn [mbind option_bind]. rewrite E2, E3. reflexivity.
  - cbn [encode] in *. destruct (ReadBytes_back it pre s post _ eq_refl Hr) as [E1 E2].
    unfold ReadBytes. rewrite E1. 
    change (deref _ ?q ?n) with (deref it q n). rewrite E2. reflexivity.
Qed.

Lemma read_ops_back fs it pre post :
  Forall (field_ok T) fs ->
  reading it (pre ++ encode_all T fs ++ post) (Z.of_nat (length pre)) ->
  read_ops T (op_of <$> fs) it
  = Some (set_read_index it (Z.of_nat (length (pre ++ encode_all T fs))), Some <$> fs).
Proof.
  intros Hf. revert it pre. induction Hf as [|f fs Hf _ IH]; intros it pre Hr.
  - cbn. rewrite app_nil_r, <- (reading_index _ _ _ Hr). destruct it; reflexivity.
  - change (encode_all T (f :: fs)) with (encode T f ++ encode_all T fs) in *.
    rewrite <- app_assoc in Hr. cbn [fmap list_fmap read_ops].
    rewrite (read_op_back it pre f _ Hf Hr). cbn [mbind option_bind].
    rewrite (IH _ (pre ++ encode T f)).
    + rewrite <- app_assoc. reflexivity.
    + rewrite <- app_assoc. apply (reading_move _ _ _ _ Hr). rewrite !length_app. lia.
Qed.


(** *** Reads on arbitrary bytes *)

(** Either the null iterator of rejected data, or one over initialised
    memory. *)
Definition readable (it : PickleIterator) : Prop :=
  it = PickleIterator_empty \/ exists P i, reading it P i.

Definition op_ok (op : ReadOp) : Prop :=
  match op with
  | RBytes n | RSkip n => Int.in_range Int.int32 n
  | _ => True
  end.

Lemma readable_indexes it : readable it -> 0 <= read_index_ it <= end_index_ it.
Proof. intros [-> | (P & i & [_ -> -> ? _])]; [cbn; lia|assumption]. Qed.

Lemma int32_range n : Int.in_range Int.int32 n <-> - 2 ^ 31 <= n < 2 ^ 31.
Proof. Int.int_compute. lia. Qed.

(** The single step all the reads make. *)
Lemma get_readable n it :
  readable it -> Int.in_range Int.int32 n ->
  exists it' r, GetReadPointerAndAdvance T n it = (it', r) /\ readable it' /\
    end_index_ it' = end_index_ it /\
    forall q, r = Some q -> 0 <= n /\ exists bs, deref it q n = Some bs /\
      deref it' q n = Some bs /\ Z.of_nat (length bs) = n.
Proof.
  intros Hs Hn. apply int32_range in Hn.
  destruct (decide (n < 0)) as [Hneg|Hpos].
  { unfold GetReadPointerAndAdvance. rewrite bool_decide_true by assumption. cbn [orb].
    eexists _, None. split; [reflexivity|]. split; [|split; [reflexivity|discriminate]].
    destruct Hs as [-> | (P & i & Hr)]; [left; reflexivity|]. right.
    exists P, (Z.of_nat (length P)). pose proof Hr as [_ -> _ _ _].
    apply (reading_move _ _ _ _ Hr). lia. }
  destruct Hs as [-> | (P & i & Hr)].
  - unfold GetReadPointerAndAdvance, remaining. cbn [read_index_ end_index_ PickleIterator_empty].
    rewrite bool_decide_false, !size_wrap_id by lia. cbn [orb].
    assert (He : readable PickleIterator_empty) by (left; reflexivity).
    case_bool_decide.
    + eexists _, None. split; [reflexivity|]. split; [exact He|]. split; [reflexivity|discriminate].
    + assert (n = 0) as -> by lia. unfold Advance, remaining. cbn [read_index_ end_index_ PickleIterator_empty].
      rewrite AlignInt_4, size_wrap_id by lia. change (align4 0) with 0.
      rewrite bool_decide_false, size_wrap_id by lia. eexists _, None.
      split; [reflexivity|]. split; [exact He|]. split; [reflexivity|discriminate].
  - rewrite (get_reading _ _ _ _ Hr) by lia. eexists _, _. split; [reflexivity|].
    pose proof (reading_bounds _ _ _ Hr). pose proof (next_index_bounds P i n ltac:(lia) ltac:(lia)).
    split; [right; eexists _, _; apply (reading_move _ _ _ _ Hr); lia|].
    split; [reflexivity|]. intros q. case_bool_decide; [discriminate|]. intros [= <-].
    split; [lia|]. exists (take (Z.to_nat n) (drop (Z.to_nat i) P)).
    change (deref (set_read_index it (next_index P i n)) i n) with (deref it i n).
    rewrite (deref_reading _ _ _ _ _ Hr) by lia.
    split; [reflexivity|]. split; [reflexivity|]. rewrite length_take, length_drop. lia.
Qed.

(** What every read guarantees. *)
Definition safe_read {A} (r : Read A) : Prop :=
  forall it, readable it -> exists it' x, r it = Some (it', x) /\ readable it' /\
    end_index_ it' = end_index_ it.

Lemma ReadBuiltinType_safe t : Int.is_integral t = true -> safe_read (ReadBuiltinType T t).
Proof.
  intros Ht it Hs. assert (Hn : 0 <= Int.size t < 2 ^ 31) by int_size Ht.
  destruct (get_readable (Int.size t) it Hs) as (it' & r & E & Hs' & He & Hq).
  { apply int32_range. lia. }
  unfold ReadBuiltinType. rewrite get_type_is_get, E by lia.
  destruct r as [q|]; [|eauto]. destruct (Hq q eq_refl) as (_ & bs & -> & _ & _).
  cbn [mbind option_bind]. eauto.
Qed.

Lemma fmap_read_safe {A B} (f : A -> B) r : safe_read r -> safe_read (fmap_read f r).
Proof.
  intros Hr it Hs. destruct (Hr it Hs) as (it' & x & E & Hs' & He). unfold fmap_read.
  rewrite E. cbn [mbind option_bind]. eauto.
Qed.

(** A read that goes on from a length it has just read. *)
Lemma read_then_safe {A} (k : Z -> Read A) :
  (forall n, Int.in_range Int.int32 n -> safe_read (k n)) ->
  safe_read (fun it => '(it1, r) ← ReadInt T it;
                       match r with None => Some (it1, None) | Some n => k n it1 end).
Proof.
  intros Hk it Hs. unfold ReadInt, ReadBuiltinType.
  destruct (get_readable 4 it Hs ltac:(apply int32_range; lia)) as (it1 & r & E & Hs1 & He & Hq).
  rewrite get_type_is_get by (cbn; lia). change (Int.size Int.int32) with 4. rewrite E.
  destruct r as [q|]; cbn [mbind option_bind]; [|eauto].
  destruct (Hq q eq_refl) as (_ & bs & -> & _ & _). cbn [mbind option_bind].
  edestruct (Hk (Int.static_cast Int.int32 (le_value bs))) as (it2 & x & E2 & Hs2 & He2);
    [apply Int.static_cast_in_range; reflexivity|exact Hs1|].
  rewrite E2. rewrite He in He2. eauto.
Qed.

Lemma ReadBytes_safe n : Int.in_range Int.int32 n -> safe_read (ReadBytes T n).
Proof.
  intros Hn it Hs. destruct (get_readable n it Hs Hn) as (it' & r & E & Hs' & He & Hq).
  unfold ReadBytes. rewrite E. destruct r as [q|]; [|eauto].
  destruct (Hq q eq_refl) as (_ & bs & -> & _). cbn [mbind option_bind]. eauto.
Qed.

Lemma ReadString_safe : safe_read (ReadString T).
Proof.
  unfold ReadString. apply read_then_safe. intros n Hn it Hs.
  destruct (get_readable n it Hs Hn) as (it' & r & E & Hs' & He & Hq). rewrite E.
  destruct r as [q|]; [|eauto]. destruct (Hq q eq_refl) as (_ & bs & -> & _ & _).
  cbn [mbind option_bind]. eauto.
Qed.

Lemma ReadString16_safe : safe_read (ReadString16 T).
Proof.
  unfold ReadString16. apply read_then_safe. intros n Hn it Hs.
  unfold GetReadPointerAndAdvance_array, sizeof_char16.
  pose proof (proj1 (int32_range n) Hn).
  rewrite (Int.static_cast_id Int.int64) by (done || (Int.int_compute; lia)).
  case_bool_decide as Hw; [eauto|].
  destruct (decide (n * 2 = Int.static_cast Int.int32 (n * 2))) as [E2|]; [|tauto].
  assert (Hn2 : Int.in_range Int.int32 (n * 2)).
  { rewrite E2. apply Int.static_cast_in_range. reflexivity. }
  rewrite <- E2. destruct (get_readable _ it Hs Hn2) as (it' & r & E & Hs' & He & Hq).
  rewrite E. destruct r as [q|]; [|eauto]. destruct (Hq q eq_refl) as (_ & bs & -> & _ & _).
  cbn [mbind option_bind]. eauto.
Qed.

Lemma SkipBytes_safe n : Int.in_range Int.int32 n -> safe_read (SkipBytes T n).
Proof.
  intros Hn it Hs. destruct (get_readable n it Hs Hn) as (it' & r & E & Hs' & He & _).
  unfold SkipBytes. rewrite E. eauto.
Qed.

(** A read followed by a check of the value. *)
Lemma check_safe {A B} (r : Read A) (g : A -> option B) :
  safe_read r ->
  safe_read (fun it => '(it', x) ← r it;
                       match x with None => Some (it', None) | Some v => Some (it', g v) end).
Proof.
  intros Hr it Hs. destruct (Hr it Hs) as (it' & x & E & Hs' & He). rewrite E.
  cbn [mbind option_bind]. destruct x; eauto.
Qed.

Lemma read_op_safe op : op_ok op -> safe_read (read_op T op).
Proof.
  intros Hop. assert (Hl : Int.is_integral (long_t T) = true)
    by (destruct long_t_ok as [-> | ->]; reflexivity).
  destruct op; cbn [read_op]; apply fmap_read_safe;
    try (apply ReadBuiltinType_safe; first [reflexivity|exact Hl]).
  - apply fmap_read_safe, ReadBuiltinType_safe. reflexivity.
  - apply (check_safe (ReadBuiltinType T Int.uint64)), ReadBuiltinType_safe. reflexivity.
  - apply ReadString_safe.
  - apply ReadString16_safe.
  - apply (read_then_safe (ReadBytes T)), ReadBytes_safe.
  - apply ReadBytes_safe, Hop.
  - apply (check_safe (ReadInt T)), ReadBuiltinType_safe. reflexivity.
  - apply SkipBytes_safe, Hop.
Qed.

Lemma read_ops_safe ops it :
  Forall op_ok ops -> readable it ->
  exists it' rs, read_ops T ops it = Some (it', rs) /\ readable it' /\
    end_index_ it' = end_index_ it.
Proof.
  intros Hops. revert it. induction Hops as [|op ops Hop _ IH]; intros it Hs; [cbn; eauto|].
  destruct (read_op_safe op Hop it Hs) as (it1 & r & E & Hs1 & He1).
  destruct (IH it1 Hs1) as (it2 & rs & E2 & Hs2 & He2).
  cbn [read_ops]. rewrite E. cbn [mbind option_bind]. rewrite E2. cbn [mbind option_bind].
  rewrite He1 in He2. eauto.
Qed.

(** ** From bytes *)

Lemma Header_le v rest :
  0 <= v < 2 ^ 32 -> Header_payload_size (Some ((Some <$> le_bytes 4 v) ++ rest)) = Some v.
Proof.
  intros Hv. unfold Header_payload_size. cbn [mbind option_bind].
  rewrite load_payload by (rewrite ?length_le_bytes; lia).
  change (take _ _) with (le_bytes 4 v). cbn [mbind option_bind].
  rewrite le_value_bytes, Z.mod_small by (cbn; lia). reflexivity.
Qed.

(** When the bytes are accepted: the header they imply is at least a word and
    word-aligned. *)
Definition accepted (n v : Z) : bool :=
  bool_decide (4 <= n /\ 4 <= n - v /\ (n - v) mod 4 = 0).

Lemma Pickle_from_data_shape mem n v :
  n = Z.of_nat (length mem) -> n < 2 ^ 31 -> 0 <= v < 2 ^ 32 ->
  (4 <= n -> Header_payload_size (Some mem) = Some v) ->
  Pickle_from_data T mem n
  = Some {| header_ := if accepted n v then Some mem else None;
            header_size_ := if accepted n v then n - v else 0;
            capacity_after_header_ := kCapacityReadOnly T; write_offset_ := 0 |}.
Proof.
  intros Hn Hlt Hv Hh. unfold Pickle_from_data, sizeof_Header, accepted.
  assert (Hu : forall z, Int.static_cast Int.uint32 z = z mod 2 ^ 32) by reflexivity.
  destruct (decide (4 <= n)) as [H4|H4].
  2: { rewrite (bool_decide_false (4 <= n)) by assumption. cbn [mbind option_bind].
    rewrite Hu, (bool_decide_false (_ < 0)) by lia. rewrite AlignInt_4 by lia.
    change (align4 0) with 0. rewrite (bool_decide_false (0 <> 0)) by lia.
    rewrite (bool_decide_false (4 <= n /\ _)) by lia. reflexivity. }
  rewrite (bool_decide_true (4 <= n)), Hh by assumption. cbn [mbind option_bind].
  rewrite !Hu, (Z.mod_small n) by lia.
  destruct (decide (v <= n)) as [Hvn|Hvn].
  - rewrite (Z.mod_small (n - v)), (bool_decide_false (n < n - v)), AlignInt_4 by lia.
    pose proof (align4_spec (n - v)) as Ha.
    destruct (decide ((n - v) mod 4 = 0)) as [Hm|Hm].
    + rewrite (align4_id _ Hm), (bool_decide_false (n - v <> n - v)) by lia.
      destruct (decide (4 <= n - v)) as [H|H].
      * rewrite (bool_decide_false (n - v = 0)), bool_decide_true by lia. reflexivity.
      * assert (n - v = 0) as -> by lia. rewrite bool_decide_true, bool_decide_false by lia.
        reflexivity.
    + rewrite (bool_decide_true (n - v <> _)), bool_decide_true, bool_decide_false by lia.
      reflexivity.
  - replace ((n - v) mod 2 ^ 32) with (n - v + 2 ^ 32) by lia.
    rewrite (bool_decide_true (n < _)), AlignInt_4 by lia. change (align4 0) with 0.
    rewrite (bool_decide_false (0 <> 0)), bool_decide_true, bool_decide_false by lia. reflexivity.
Qed.

(** [data()] and [size()], as a caller that sends the pickle away uses them. *)
Definition serialize (p : Pickle) : option block :=
  n ← size T p; b ← data p; cells b 0 n.

Lemma serialize_writing p hs P :
  writing p hs P -> Z.of_nat (length P) <= 2 ^ 30 ->
  exists hdr, serialize p = Some ((Some <$> le_bytes 4 (Z.of_nat (length P))) ++ hdr
                                    ++ (Some <$> P)) /\
    hs = 4 + Z.of_nat (length hdr) /\ hs mod 4 = 0 /\ hs <= 64.
Proof.
  intros (c & [(hdr & junk & Hb & Hhs & Hc) H1 _ _ [] _ _] & _) HP.
  exists hdr. split; [|auto]. unfold serialize, size, data. rewrite Hb, Header_le by lia.
  cbn [mbind option_bind]. rewrite H1, size_wrap_id by lia.
  pose proof (cells_app [] ((Some <$> le_bytes 4 (Z.of_nat (length P))) ++ hdr ++ (Some <$> P))
                junk 0 (hs + Z.of_nat (length P)) eq_refl) as E.
  rewrite app_nil_l, <- !app_assoc in E. apply E.
  rewrite !length_app, !length_fmap, length_le_bytes. lia.
Qed.

(** The reader of a serialised pickle sees its payload. *)
Lemma reader_of_bytes hdr P hs n :
  hs = 4 + Z.of_nat (length hdr) -> hs mod 4 = 0 -> n = hs + Z.of_nat (length P) -> n < 2 ^ 31 ->
  exists r it, Pickle_from_data T ((Some <$> le_bytes 4 (Z.of_nat (length P))) ++ hdr
                                     ++ (Some <$> P)) n = Some r /\
    PickleIterator_new r = Some it /\ reading it P 0.
Proof.
  intros Hhs Hm Hn Hlt. set (h4 := Some <$> le_bytes 4 (Z.of_nat (length P))).
  assert (H4 : length h4 = 4%nat) by (unfold h4; rewrite length_fmap; apply length_le_bytes).
  rewrite (Pickle_from_data_shape _ n (Z.of_nat (length P))).
  2: { rewrite !length_app, H4, length_fmap. lia. }
  2-3: lia.
  2: { intros _. apply Header_le. lia. }
  unfold accepted. rewrite bool_decide_true by (rewrite Hn; lia).
  eexists _, _. split; [reflexivity|].
  unfold PickleIterator_new, payload_size. cbn [header_ header_size_].
  unfold h4. rewrite Header_le by lia. cbn [mbind option_bind]. split; [reflexivity|].
  split; cbn [payload_ end_index_ read_index_]; try reflexivity; try lia.
  exists []. rewrite app_nil_r. cbn [fmap option_fmap option_map].
  f_equal. rewrite app_assoc. apply drop_app_length'. rewrite length_app.
  fold h4. rewrite H4. lia.
Qed.

(** The size word of arbitrary bytes. *)
Lemma any_header (D : list Z) :
  exists v, 0 <= v < 2 ^ 32 /\
    (4 <= Z.of_nat (length D) -> Header_payload_size (Some (Some <$> D)) = Some v).
Proof.
  exists (le_value (take 4 D)).
  assert (Hle : forall l, 0 <= le_value l < 256 ^ Z.of_nat (length l)).
  { induction l as [|b l IH]; [cbn; lia|]. cbn [le_value length].
    rewrite Nat2Z.inj_succ, Z.pow_succ_r by lia. lia. }
  split.
  - pose proof (Hle (take 4 D)). change (2 ^ 32) with (256 ^ 4).
    pose proof (Z.pow_le_mono_r 256 (Z.of_nat (length (take 4 D))) 4 ltac:(lia)).
    rewrite length_take in *. lia.
  - intros H4. unfold Header_payload_size. cbn [mbind option_bind].
    rewrite <- (app_nil_r (Some <$> D)), load_payload by lia. reflexivity.
Qed.

Lemma reader_of_any_bytes (D : list Z) :
  Z.of_nat (length D) < 2 ^ 31 ->
  exists r it, Pickle_from_data T (Some <$> D) (Z.of_nat (length D)) = Some r /\
    PickleIterator_new r = Some it /\ readable it /\
    (header_ r = None \/ header_size_ r + end_index_ it = Z.of_nat (length D)).
Proof.
  intros Hlt. destruct (any_header D) as (v & Hv & Hh).
  rewrite (Pickle_from_data_shape _ _ v); [|rewrite length_fmap; reflexivity|assumption..].
  unfold accepted. case_bool_decide as Ha; (eexists _, _; split; [reflexivity|]);
    unfold PickleIterator_new, payload_size; cbn [header_ header_size_].
  - rewrite Hh by tauto. cbn [mbind option_bind fmap option_fmap option_map].
    split; [reflexivity|]. split; [right|right; cbn; lia].
    exists (drop (Z.to_nat (Z.of_nat (length D) - v)) D), 0.
    split; cbn [payload_ end_index_ read_index_]; rewrite ?length_drop; try reflexivity; try lia.
    exists []. rewrite app_nil_r, fmap_drop. reflexivity.
  - split; [reflexivity|]. split; left; reflexivity.
Qed.
End Target.

(** ** Properties *)

(** C25: any sequence of fields written to a fresh pickle of any legal header
    size serialises, and a pickle built from the bytes reads the same fields
    back in order, ending exactly at the end of the payload. The bound on the
    encoded size keeps the capacity doubling within 32 bits. *)
Theorem pickle_round_trip T (HT : TargetOk T) (Hheap : heap_ok T) header_size fs
    (Hhs : 4 <= header_size <= 64) (Hfs : Forall (field_ok T) fs)
    (Hlen : Z.of_nat (length (encode_all T fs)) <= 2 ^ 30) :
  exists p p' mem r it it',
    Pickle_with_header T header_size = Some p /\
    write_fields T p fs = Some (p', true) /\
    serialize T p' = Some mem /\
    Pickle_from_data T mem (Z.of_nat (length mem)) = Some r /\
    PickleIterator_new r = Some it /\
    read_ops T (op_of <$> fs) it = Some (it', Some <$> fs) /\
    read_index_ it' = end_index_ it'.
Proof.
  destruct (Pickle_with_header_writing T header_size Hheap Hhs) as (p & E1 & Hp).
  destruct (write_fields_writing T fs p _ [] Hheap Hp Hlen) as (p' & E2 & Hp').
  cbn [app] in Hp'. destruct (serialize_writing T _ _ _ Hp' Hlen) as (hdr & E3 & Hhdr & Hm & H64).
  destruct (reader_of_bytes T hdr (encode_all T fs) _ _ Hhdr Hm eq_refl) as (r & it & E4 & E5 & Hit);
    [lia|].
  pose proof (read_ops_back T fs it [] [] Hfs) as E6. cbn [app] in E6. rewrite app_nil_r in E6.
  eexists p, p', _, r, it, _. split; [exact E1|]. split; [exact E2|]. split; [exact E3|].
  split; [|split; [exact E5|]; split; [apply E6; exact Hit|]].
  - rewrite <- E4. f_equal. rewrite !length_app, !length_fmap, length_le_bytes. lia.
  - cbn. rewrite (reading_end _ _ _ Hit). reflexivity.
Qed.

(** A 32-bit Windows build, with an unbounded heap. *)
Definition win32 : Target :=
  {| size_t := Int.uint32; long_t := Int.int32; dcheck_is_on := true;
     realloc_ok := fun _ => true |}.

#[export] Instance win32_ok : TargetOk win32.
Proof. split; left; reflexivity. Qed.

Definition sample_fields : list Field :=
  [FBool true; FInt (-7); FUInt16 65535; FString [104; 101; 121]; FInt64 (- 2 ^ 63);
   FString16 [20320; 22909]; FSizeT 12; FData []; FBytes [1; 2; 3; 4; 5]; FLong (-1)].

Lemma pickle_round_trip_witness :
  exists p p' mem r it it',
    Pickle_with_header win32 6 = Some p /\
    write_fields win32 p sample_fields = Some (p', true) /\
    serialize win32 p' = Some mem /\
    Pickle_from_data win32 mem (Z.of_nat (length mem)) = Some r /\
    PickleIterator_new r = Some it /\
    read_ops win32 (op_of <$> sample_fields) it = Some (it', Some <$> sample_fields) /\
    read_index_ it' = end_index_ it'.
Proof.
  apply (pickle_round_trip win32 win32_ok).
  - intros n _. reflexivity.
  - lia.
  - unfold sample_fields. repeat constructor; vm_compute; congruence.
  - vm_compute. congruence.
Defined.

(** C26: whatever bytes a pickle is built from and whatever is then read from
    it, no read leaves the block, reads an uninitialised cell or dereferences
    null; the index never passes the end of the payload, and the payload ends
    where the data ends. *)
Theorem pickle_reads_stay_in_bounds T (HT : TargetOk T) (D : list Z) ops
    (Hlen : Z.of_nat (length D) < 2 ^ 31) (Hops : Forall op_ok ops) :
  exists r it it' rs,
    Pickle_from_data T (Some <$> D) (Z.of_nat (length D)) = Some r /\
    PickleIterator_new r = Some it /\
    read_ops T ops it = Some (it', rs) /\
    0 <= read_index_ it' <= end_index_ it' /\
    (header_ r = None \/ header_size_ r + end_index_ it' = Z.of_nat (length D)).
Proof.
  destruct (reader_of_any_bytes T D Hlen) as (r & it & E1 & E2 & Hs & Hr).
  destruct (read_ops_safe T ops it Hops Hs) as (it' & rs & E3 & Hs' & He).
  exists r, it, it', rs. rewrite He. rewrite <- He at 1. pose proof (readable_indexes _ Hs').
  rewrite He in *. auto.
Qed.

Lemma pickle_reads_stay_in_bounds_witness :
  exists r it it' rs,
    Pickle_from_data win32 (Some <$> [8; 0; 0; 0; 255; 255; 255; 127; 1; 2; 3; 4]) 12 = Some r /\
    PickleIterator_new r = Some it /\
    read_ops win32 [RString; RInt; RSkip (-1); RBytes 2000000000] it = Some (it', rs) /\
    0 <= read_index_ it' <= end_index_ it' /\
    (header_ r = None \/ header_size_ r + end_index_ it' = 12).
Proof.
  apply (pickle_reads_stay_in_bounds win32 win32_ok
           [8; 0; 0; 0; 255; 255; 255; 127; 1; 2; 3; 4]).
  - vm_compute. reflexivity.
  - repeat constructor; vm_compute; congruence.
Defined.

Lemma FindNext_prefix T (HT : TargetOk T) hs v rest :
  hs mod 4 = 0 -> 4 <= hs <= 64 -> 0 <= v < 2 ^ 31 ->
  4 + Z.of_nat (length rest) < 2 ^ 32 ->
  FindNext T hs ((Some <$> le_bytes 4 v) ++ rest)
  = Some (if bool_decide (hs + v <= 4 + Z.of_nat (length rest)) then Some (hs + v) else None).
Proof.
  intros Hm Hhs Hv Hlen. unfold FindNext.
  assert (E1 : bool_decide (hs = AlignInt T hs uint32_sz) = true).
  { apply bool_decide_true. rewrite (AlignInt_4 T), align4_id by (assumption || lia). reflexivity. }
  assert (E2 : bool_decide (hs <= kPayloadUnit) = true)
    by (apply bool_decide_true; unfold kPayloadUnit; lia).
  rewrite (DCHECK_true T _ E1), (DCHECK_true T _ E2). cbn [mbind option_bind].
  rewrite length_app, length_fmap, length_le_bytes, Nat2Z.inj_add.
  change (Z.of_nat 4) with 4. unfold sizeof_Header.
  rewrite (bool_decide_false (_ < 4)), Header_le by lia. cbn [mbind option_bind].
  destruct (decide (4 + Z.of_nat (length rest) < hs)).
  - rewrite (bool_decide_true (_ < hs)), (bool_decide_false (_ <= _)) by lia. reflexivity.
  - rewrite (bool_decide_false (_ < hs)), (size_wrap_id T) by lia. cbn [orb].
    clear E1 E2. case_bool_decide; case_bool_decide; reflexivity || lia.
Qed.

(** On a stream that starts with a serialised pickle, [FindNext] answers
    exactly where it ends, whatever follows; on every proper prefix of it, the
    answer is null. So a receiver that appends bytes as they come and asks
    after each cuts the stream where the sender did. *)
Theorem find_next_frames_the_stream T (HT : TargetOk T) (Hheap : heap_ok T) header_size fs
    (Hhs : 4 <= header_size <= 64)
    (Hlen : Z.of_nat (length (encode_all T fs)) <= 2 ^ 30) :
  exists p p' mem,
    Pickle_with_header T header_size = Some p /\
    write_fields T p fs = Some (p', true) /\
    serialize T p' = Some mem /\
    (forall rest, Z.of_nat (length (mem ++ rest)) < 2 ^ 32 ->
       FindNext T (header_size_ p') (mem ++ rest) = Some (Some (Z.of_nat (length mem)))) /\
    (forall k, (k < length mem)%nat -> FindNext T (header_size_ p') (take k mem) = Some None).
Proof.
  destruct (Pickle_with_header_writing T header_size Hheap Hhs) as (p & E1 & Hp).
  destruct (write_fields_writing T fs p _ [] Hheap Hp Hlen) as (p' & E2 & Hp').
  cbn [app] in Hp'. destruct (serialize_writing T _ _ _ Hp' Hlen) as (hdr & E3 & Hhdr & Hm & H64).
  assert (Hh : header_size_ p' = align4 header_size) by (destruct Hp' as (? & [] & _); assumption).
  set (P := encode_all T fs) in *.
  assert (Hl : forall (l : block), Z.of_nat (length ((Some <$> le_bytes 4 (Z.of_nat (length P))) ++ l))
                = 4 + Z.of_nat (length l)).
  { intros l. rewrite length_app, length_fmap, length_le_bytes. lia. }
  exists p, p', ((Some <$> le_bytes 4 (Z.of_nat (length P))) ++ hdr ++ (Some <$> P)).
  split; [exact E1|]. split; [exact E2|]. split; [exact E3|]. rewrite Hh. split.
  - intros rest. rewrite <- !app_assoc, !Hl. intros Hr.
    rewrite !length_app in *. rewrite length_fmap in *.
    rewrite FindNext_prefix by (rewrite ?length_app, ?length_fmap; lia || assumption).
    rewrite !length_app, length_fmap. rewrite bool_decide_true by lia. do 2 f_equal. lia.
  - intros k Hk. apply Nat2Z.inj_lt in Hk. rewrite Hl, length_app, length_fmap in Hk.
    destruct (decide (k < 4)%nat) as [H4|H4].
    + unfold FindNext.
      assert (E4 : bool_decide (align4 header_size = AlignInt T (align4 header_size) uint32_sz) = true).
      { apply bool_decide_true. rewrite (AlignInt_4 T), (align4_id (align4 _)) by (assumption || lia).
        reflexivity. }
      assert (E5 : bool_decide (align4 header_size <= kPayloadUnit) = true)
        by (apply bool_decide_true; unfold kPayloadUnit; lia).
      rewrite (DCHECK_true T _ E4), (DCHECK_true T _ E5). cbn [mbind option_bind].
      rewrite bool_decide_true by (rewrite length_take; unfold sizeof_Header; lia). reflexivity.
    + rewrite take_app_ge by (rewrite length_fmap, length_le_bytes; lia).
      rewrite length_fmap, length_le_bytes.
      rewrite FindNext_prefix by (rewrite ?length_take, ?length_app, ?length_fmap; lia || assumption).
      rewrite bool_decide_false; [reflexivity|].
      rewrite length_take, length_app, length_fmap. lia.
Qed.

Lemma find_next_frames_the_stream_witness :
  exists p p' mem,
    Pickle_with_header win32 8 = Some p /\
    write_fields win32 p sample_fields = Some (p', true) /\
    serialize win32 p' = Some mem /\
    (forall rest, Z.of_nat (length (mem ++ rest)) < 2 ^ 32 ->
       FindNext win32 (header_size_ p') (mem ++ rest) = Some (Some (Z.of_nat (length mem)))) /\
    (forall k, (k < length mem)%nat -> FindNext win32 (header_size_ p') (take k mem) = Some None).
Proof.
  apply (find_next_frames_the_stream win32 win32_ok).
  - intros n _. reflexivity.
  - lia.
  - vm_compute. congruence.
Defined.

(** After a failed [ReadString16] the iterator can still be read from,
    although the header says it cannot: when the length word is at least
    [2 ^ 30], the byte count overflows [int], and that exit leaves the index
    just after the length word instead of at the end. *)
Theorem overlong_string16_leaves_the_iterator_live T (HT : TargetOk T) it P i len
    (Hit : reading it P i) (Hi : i + 4 <= Z.of_nat (length P)) (Hal : i mod 4 = 0)
    (Hlen : 2 ^ 30 <= len < 2 ^ 31)
    (Hword : take 4 (drop (Z.to_nat i) P) = le_bytes 4 len) :
  ReadString16 T it = Some (set_read_index it (i + 4), None) /\
  forall z, take 4 (drop (Z.to_nat (i + 4)) P) = le_bytes 4 z -> Int.in_range Int.int32 z ->
    exists it', ReadInt T (set_read_index it (i + 4)) = Some (it', Some z).
Proof.
  pose proof (reading_bounds _ _ _ Hit). pose proof (reading_small _ _ _ Hit).
  assert (Hnext : next_index P i 4 = i + 4).
  { unfold next_index. rewrite bool_decide_false by lia. change (align4 4) with 4. lia. }
  split.
  - unfold ReadString16, ReadInt. rewrite (ReadBuiltinType_reading T _ _ _ _ Hit) by done.
    change (Int.size Int.int32) with 4. rewrite bool_decide_false, Hnext by lia.
    change (Z.to_nat 4) with 4%nat. rewrite Hword.
    pose proof (cast_le_bytes Int.int32 len eq_refl) as E.
    change (Z.to_nat (Int.size Int.int32)) with 4%nat in E.
    rewrite E by (apply int32_range; lia). cbn [mbind option_bind].
    unfold GetReadPointerAndAdvance_array, sizeof_char16.
    rewrite (Int.static_cast_id Int.int64) by (done || (Int.int_compute; lia)).
    rewrite bool_decide_true; [reflexivity|].
    pose proof (Int.static_cast_in_range Int.int32 (len * 2) eq_refl) as Hr.
    apply int32_range in Hr. lia.
  - intros z Hz Hrange.
    assert (Hlong : i + 8 <= Z.of_nat (length P)).
    { apply (f_equal length) in Hz. rewrite length_take, length_drop, length_le_bytes in Hz. lia. }
    pose proof (reading_move _ _ _ (i + 4) Hit ltac:(lia)) as Hit'.
    unfold ReadInt. rewrite (ReadBuiltinType_reading T _ _ _ _ Hit') by done.
    change (Int.size Int.int32) with 4. rewrite bool_decide_false by lia.
    change (Z.to_nat 4) with 4%nat. rewrite Hz.
    pose proof (cast_le_bytes Int.int32 z eq_refl Hrange) as E.
    change (Z.to_nat (Int.size Int.int32)) with 4%nat in E. rewrite E. eauto.
Qed.

Lemma overlong_string16_leaves_the_iterator_live_witness :
  let P := [0; 0; 0; 64; 9; 0; 0; 0] in
  let it := {| payload_ := Some (Some <$> P); read_index_ := 0; end_index_ := 8 |} in
  ReadString16 win32 it = Some (set_read_index it (0 + 4), None) /\
  forall z, take 4 (drop (Z.to_nat (0 + 4)) P) = le_bytes 4 z -> Int.in_range Int.int32 z ->
    exists it', ReadInt win32 (set_read_index it (0 + 4)) = Some (it', Some z).
Proof.
  intros P it.
  apply (overlong_string16_leaves_the_iterator_live win32 win32_ok it P 0 (2 ^ 30)).
  - split; try reflexivity; [exists []; reflexivity|vm_compute; split; congruence].
  - vm_compute. congruence.
  - reflexivity.
  - lia.
  - reflexivity.
Defined.

(** *** Copies *)

Lemma store_length b off src b' : store b off src = Some b' -> length b' = length b.
Proof.
  unfold store. case_bool_decide as H; [|discriminate]. intros [= <-].
  rewrite !length_app, length_take, length_drop. lia.
Qed.

Lemma store_some b off src :
  0 <= off -> off + Z.of_nat (length src) <= Z.of_nat (length b) ->
  exists b', store b off src = Some b' /\ length b' = length b.
Proof.
  intros. destruct (store b off src) eqn:E.
  - eexists; split; [reflexivity|]. eapply store_length; eassumption.
  - revert E. unfold store. rewrite bool_decide_true by lia. discriminate.
Qed.

(** Storing the size word, then reading it. *)
Lemma set_payload_size_some p b v :
  header_ p = Some b -> (4 <= length b)%nat -> 0 <= v < 2 ^ 32 ->
  exists b', set_payload_size p v
    = Some {| header_ := Some b'; header_size_ := header_size_ p;
              capacity_after_header_ := capacity_after_header_ p;
              write_offset_ := write_offset_ p |} /\
    Header_payload_size (Some b') = Some v.
Proof.
  intros Hb H4 Hv. unfold set_payload_size. rewrite Hb. cbn [mbind option_bind].
  rewrite <- (take_drop 4 b).
  pose proof (store_app [] (take 4 b) (drop 4 b) (Some <$> le_bytes 4 v) 0 eq_refl) as E.
  rewrite !app_nil_l in E. rewrite E by (rewrite length_take, length_fmap, length_le_bytes; lia).
  cbn [mbind option_bind]. eexists. split; [reflexivity|]. apply Header_le. exact Hv.
Qed.

Lemma accepted_reader T (HT : TargetOk T) (D : list Z) r n :
  Z.of_nat (length D) < 2 ^ 31 ->
  Pickle_from_data T (Some <$> D) (Z.of_nat (length D)) = Some r ->
  header_ r <> None -> payload_size r = Some n ->
  r = {| header_ := Some (Some <$> D); header_size_ := Z.of_nat (length D) - n;
         capacity_after_header_ := kCapacityReadOnly T; write_offset_ := 0 |} /\
  Header_payload_size (Some (Some <$> D)) = Some n /\
  0 <= n /\ 4 <= Z.of_nat (length D) - n /\ (Z.of_nat (length D) - n) mod 4 = 0.
Proof.
  intros Hlt. destruct (any_header D) as (v & Hv & Hh).
  rewrite (Pickle_from_data_shape T _ _ v); [|rewrite length_fmap; reflexivity|assumption..].
  unfold accepted. case_bool_decide as Ha; intros [= <-]; cbn [header_]; [intros _|congruence].
  unfold payload_size. cbn [header_]. rewrite Hh by tauto. intros [= <-].
  split; [reflexivity|]. split; [reflexivity|]. split; [lia|tauto].
Qed.

(** [WriteInt] at write offset zero, whatever the payload was. *)
Lemma WriteInt_over T (HT : TargetOk T) v p b :
  header_ p = Some b -> write_offset_ p = 0 ->
  4 <= header_size_ p -> 64 <= capacity_after_header_ p < 2 ^ 31 ->
  Z.of_nat (length b) = header_size_ p + capacity_after_header_ p ->
  exists p', WriteInt T p v = Some (p', true) /\ payload_size p' = Some 4.
Proof.
  intros Hb Ho Hhs Hc Hl. pose proof (readonly_big T).
  unfold WriteInt, WritePOD, WriteBytesCommon.
  rewrite DCHECK_true by (apply bool_decide_true; lia). cbn [mbind option_bind].
  assert (Er : check_room T p 4 = Some 4).
  { unfold check_room. rewrite (AlignInt_4 T) by lia. change (align4 4) with 4. rewrite Ho.
    destruct (size_t_ok (T := T)) as [E | E]; unfold size_wrap, DCHECK; rewrite E;
      destruct (dcheck_is_on T); reflexivity. }
  change (Int.size Int.int32) with 4. rewrite Er. cbn [mbind option_bind].
  rewrite Ho, Z.add_0_l, (size_wrap_id T), bool_decide_false by lia. cbn [mbind option_bind].
  rewrite Hb, Ho. cbn [mbind option_bind].
  pose proof (cells_all (le_bytes (Z.to_nat 4) v)) as Ec. rewrite length_le_bytes in Ec.
  change (Z.of_nat (Z.to_nat 4)) with 4 in Ec. rewrite Ec. cbn [mbind option_bind].
  destruct (store_some b (header_size_ p + 0) (Some <$> le_bytes (Z.to_nat 4) v)) as (b1 & E1 & L1);
    [lia|rewrite length_fmap, length_le_bytes; lia|].
  rewrite E1. cbn [mbind option_bind].
  change (4 - 4) with 0. rewrite (size_wrap_id T 0) by lia.
  destruct (store_some b1 (header_size_ p + 0 + 4) (replicate (Z.to_nat 0) (Some 0)))
    as (b2 & E2 & L2); [lia|rewrite length_replicate; lia|].
  rewrite E2. cbn [mbind option_bind].
  destruct (set_payload_size_some {| header_ := Some b2; header_size_ := header_size_ p;
      capacity_after_header_ := capacity_after_header_ p; write_offset_ := 0 |} b2 4)
    as (b3 & E3 & H3); [reflexivity|lia|lia|].
  change (Int.static_cast Int.uint32 4) with 4. rewrite E3. cbn [mbind option_bind].
  eexists. split; [reflexivity|]. exact H3.
Qed.

(** A copy of a pickle that was built from received bytes loses its
    payload at the first write: the copy has the whole payload, but inherits
    the write offset zero of the read-only original, so [WriteInt] writes over
    the first word and declares a payload of four bytes. *)
Theorem copied_reader_forgets_its_payload T (HT : TargetOk T) (Hheap : heap_ok T)
    (D : list Z) r n v
    (Hlen : Z.of_nat (length D) <= 2 ^ 30)
    (Hr : Pickle_from_data T (Some <$> D) (Z.of_nat (length D)) = Some r)
    (Hok : header_ r <> None) (Hn : payload_size r = Some n) :
  exists q q',
    Pickle_copy T r = Some q /\ payload_size q = Some n /\
    WriteInt T q v = Some (q', true) /\ payload_size q' = Some 4.
Proof.
  pose proof (readonly_big T). pose proof (align64_spec (Z.of_nat (length D))) as H64.
  destruct (accepted_reader T HT D r n) as (-> & Hh & Hn0 & H4 & Hm); [lia|assumption..|].
  unfold Pickle_copy. cbn [header_ header_size_ write_offset_]. rewrite Hh.
  cbn [mbind option_bind]. rewrite Z.sub_add, (size_wrap_id T) by lia.
  unfold Resize. cbn [header_ header_size_ capacity_after_header_ write_offset_].
  rewrite (AlignInt_64 T), bool_decide_true by lia. cbn [CHECK mbind option_bind].
  rewrite (size_wrap_id T), Hheap by lia. cbn [CHECK mbind option_bind default from_option].
  set (cap := align64 (Z.of_nat (length D))) in *.
  unfold memcpy_header. cbn [header_ header_size_ capacity_after_header_ write_offset_].
  pose proof (cells_all D) as Ec. cbn [mbind option_bind]. rewrite Ec. cbn [mbind option_bind].
  set (blk := realloc [] (Z.of_nat (length D) - n + cap)).
  assert (Hblk : Z.of_nat (length blk) = Z.of_nat (length D) - n + cap).
  { unfold blk, realloc. rewrite take_nil, length_app, length_replicate. cbn [length]. lia. }
  assert (Es : store blk 0 (Some <$> D)
               = Some ((Some <$> D) ++ drop (length D) blk)).
  { unfold store. rewrite length_fmap, bool_decide_true by lia. reflexivity. }
  rewrite Es. cbn [mbind option_bind].
  set (blk2 := (Some <$> D) ++ drop (length D) blk).
  assert (Hlen2 : Z.of_nat (length blk2) = Z.of_nat (length D) - n + cap)
    by (rewrite <- Hblk; f_equal; eapply store_length; exact Es).
  destruct (WriteInt_over T HT v {| header_ := Some blk2; header_size_ := Z.of_nat (length D) - n;
      capacity_after_header_ := cap; write_offset_ := 0 |} blk2) as (q' & Eq & Hq');
    cbn [header_ header_size_ capacity_after_header_ write_offset_]; try reflexivity; try lia.
  eexists _, q'. split; [reflexivity|]. split; [|split; [exact Eq|exact Hq']].
  unfold payload_size, blk2. cbn [header_]. unfold Header_payload_size in Hh |- *.
  cbn [mbind option_bind] in Hh |- *.
  rewrite <- (app_nil_r (Some <$> D)), load_payload in Hh by lia.
  rewrite load_payload by lia. exact Hh.
Qed.

Lemma copied_reader_forgets_its_payload_witness :
  let D := [8; 0; 0; 0; 1; 0; 0; 0; 2; 0; 0; 0] in
  let r := {| header_ := Some (Some <$> D); header_size_ := 4;
              capacity_after_header_ := kCapacityReadOnly win32; write_offset_ := 0 |} in
  exists q q',
    Pickle_copy win32 r = Some q /\ payload_size q = Some 8 /\
    WriteInt win32 q 3 = Some (q', true) /\ payload_size q' = Some 4.
Proof.
  intros D r. apply (copied_reader_forgets_its_payload win32 win32_ok) with (D := D).
  - intros n _. reflexivity.
  - vm_compute. congruence.
  - vm_compute. reflexivity.
  - discriminate.
  - vm_compute. reflexivity.
Defined.
