(* ===== verification/ClientApp.v ===== *)
(** * The client's own components

    [mdgate/browser/browser_process_impl.cc]: the count of modules that keep the
    browser process alive, and the counter that waits for rundown tasks.
    [mdgate/browser/ctp/mdapi.cc] and [mdgate/browser/ui/trading_widget.cc]: the
    life of the connection to the market data service. The service's library is
    not part of the repository; the model records the calls made to it. *)

From S2P Require Import Prelude.
From stdpp Require Import base numbers option list.
From Stdlib Require Import ZArith Lia.

Local Open Scope Z_scope.

(** ** [BrowserProcessImpl] *)
Module BrowserProcess.

Record BrowserProcessImpl := {
  module_ref_count_ : Z;      (** an [unsigned int] *)
  did_start_ : bool
}.

Definition BrowserProcessImpl_new : BrowserProcessImpl :=
  {| module_ref_count_ := 0; did_start_ := false |}.

Definition IsShuttingDown (s : BrowserProcessImpl) : bool :=
  did_start_ s && (0 =? module_ref_count_ s).

(** [None] is a failed [CHECK] or [DCHECK]; all calls are on the UI thread. *)
Definition AddRefModule (s : BrowserProcessImpl) : option (BrowserProcessImpl * Z) :=
  if IsShuttingDown s then None
  else
    let n := Int.static_cast Int.uint32 (module_ref_count_ s + 1) in
    Some ({| module_ref_count_ := n; did_start_ := true |}, n).

(** The last component tells whether [MessageLoop::Quit] was called. *)
Definition ReleaseModule (dcheck_is_on loop_running : bool) (s : BrowserProcessImpl)
  : option (BrowserProcessImpl * Z * bool) :=
  if dcheck_is_on && (module_ref_count_ s =? 0) then None
  else
    let n := Int.static_cast Int.uint32 (module_ref_count_ s - 1) in
    let s' := {| module_ref_count_ := n; did_start_ := did_start_ s |} in
    if 0 =? n then if loop_running then Some (s', n, true) else None
    else Some (s', n, false).

Inductive ModuleOp := OpAddRef | OpRelease (loop_running : bool).

(** A history of calls: the final state and how often the loop was told to
    quit. *)
Fixpoint run_modules (dcheck_is_on : bool) (s : BrowserProcessImpl) (quits : nat)
    (ops : list ModuleOp) : option (BrowserProcessImpl * nat) :=
  match ops with
  | [] => Some (s, quits)
  | OpAddRef :: ops' =>
      '(s', _) ← AddRefModule s; run_modules dcheck_is_on s' quits ops'
  | OpRelease running :: ops' =>
      '(s', _, quit) ← ReleaseModule dcheck_is_on running s;
      run_modules dcheck_is_on s' (if quit : bool then S quits else quits) ops'
  end.

Definition is_add (op : ModuleOp) : bool := match op with OpAddRef => true | _ => false end.

Definition balance (ops : list ModuleOp) : Z :=
  foldr (fun op z => if is_add op then z + 1 else z - 1) 0 ops.

Lemma uint32_id z : 0 <= z < 2 ^ 32 -> Int.static_cast Int.uint32 z = z.
Proof. intros H. apply Int.static_cast_id; [reflexivity|]. Int.int_compute. lia. Qed.

Lemma balance_app a b : balance (a ++ b) = balance a + balance b.
Proof.
  induction a as [|op a IH]; [reflexivity|]. cbn. fold (balance (a ++ b)). fold (balance a).
  destruct (is_add op); lia.
Qed.

(** What any history leaves. *)
Record modules_ok (s : BrowserProcessImpl) (quits : nat) (n : Z) : Prop := {
  modules_count : module_ref_count_ s = n;
  modules_range : 0 <= n;
  modules_quits : quits = if IsShuttingDown s then 1%nat else 0%nat;
  modules_start : did_start_ s = false -> n = 0
}.

Lemma run_modules_ok ops s quits n s' quits' :
  modules_ok s quits n -> n + Z.of_nat (length ops) < 2 ^ 32 ->
  run_modules true s quits ops = Some (s', quits') ->
  modules_ok s' quits' (n + balance ops) /\
  (did_start_ s' = false <-> did_start_ s = false /\ ops = []).
Proof.
  revert s quits n. induction ops as [|op ops IH]; intros s quits n Hok Hn.
  { cbn. intros [= <- <-]. rewrite Z.add_0_r. tauto. }
  destruct Hok as [Hc Hr Hq Hst]. cbn [length] in Hn.
  assert (Hstep : forall s1 q1 n1, modules_ok s1 q1 n1 -> n1 + Z.of_nat (length ops) < 2 ^ 32 ->
    n1 + balance ops = n + balance (op :: ops) -> did_start_ s1 = true ->
    run_modules true s1 q1 ops = Some (s', quits') ->
    modules_ok s' quits' (n + balance (op :: ops)) /\
    (did_start_ s' = false <-> did_start_ s = false /\ op :: ops = [])).
  { intros s1 q1 n1 H1 H2 H3 H4 H5. destruct (IH s1 q1 n1 H1 H2 H5) as [H6 H7].
    rewrite H3 in H6. split; [exact H6|]. rewrite H7, H4. split; intros [? ?]; discriminate. }
  destruct op; cbn [run_modules].
  - unfold AddRefModule. destruct (IsShuttingDown s) eqn:Es; [discriminate|].
    cbn [mbind option_bind]. rewrite Hc, uint32_id by lia. subst quits.
    apply (Hstep _ _ (n + 1)); [|lia|cbn; fold (balance ops); lia|reflexivity].
    split; cbn [module_ref_count_ did_start_]; try lia; try discriminate.
    unfold IsShuttingDown. cbn [module_ref_count_ did_start_ andb]. rewrite (proj2 (Z.eqb_neq 0 (n + 1))) by lia. reflexivity.
  - unfold ReleaseModule. rewrite Hc. cbn [andb].
    destruct (Z.eqb_spec n 0) as [|Hn0]; [discriminate|].
    assert (Hd : did_start_ s = true).
    { destruct (did_start_ s); [reflexivity|]. specialize (Hst eq_refl). lia. }
    assert (Hq0 : quits = 0%nat).
    { rewrite Hq. unfold IsShuttingDown. rewrite Hc, (proj2 (Z.eqb_neq 0 n)) by lia.
      rewrite andb_false_r. reflexivity. }
    rewrite uint32_id by lia.
    destruct (Z.eqb_spec 0 (n - 1)) as [E|E].
    + destruct loop_running; [|discriminate]. cbn [mbind option_bind].
      apply (Hstep _ _ (n - 1)); [|lia|cbn; fold (balance ops); lia|exact Hd].
      split; cbn [module_ref_count_ did_start_]; try lia; try (intros; congruence).
      unfold IsShuttingDown. cbn [module_ref_count_ did_start_ andb]. rewrite Hd, <- E. rewrite Hq0. reflexivity.
    + cbn [mbind option_bind].
      apply (Hstep _ _ (n - 1)); [|lia|cbn; fold (balance ops); lia|exact Hd].
      split; cbn [module_ref_count_ did_start_]; try lia; try (intros; congruence).
      unfold IsShuttingDown. cbn [module_ref_count_ did_start_ andb]. rewrite (proj2 (Z.eqb_neq 0 (n - 1))) by lia.
      rewrite andb_false_r. exact Hq0.
Qed.

(** Whatever modules come and go, the main loop is told to quit exactly
    once, when the last one is released, and nothing can happen after that: a
    further [AddRefModule] and a further [ReleaseModule] both stop the process. *)
Theorem modules_quit_once ops s quits
    (Hlen : Z.of_nat (length ops) < 2 ^ 32)
    (Hrun : run_modules true BrowserProcessImpl_new 0 ops = Some (s, quits)) :
  module_ref_count_ s = balance ops /\ 0 <= balance ops /\
  quits = (if IsShuttingDown s then 1%nat else 0%nat) /\
  (IsShuttingDown s = true <-> ops <> [] /\ balance ops = 0) /\
  (IsShuttingDown s = true ->
     AddRefModule s = None /\ forall running, ReleaseModule true running s = None).
Proof.
  destruct (run_modules_ok ops BrowserProcessImpl_new 0 0 s quits) as [[Hc Hr Hq Hst] Hd];
    [split; reflexivity || lia|lia|exact Hrun|].
  rewrite Z.add_0_l in *. split; [exact Hc|]. split; [exact Hr|]. split; [exact Hq|]. split.
  - unfold IsShuttingDown. rewrite Hc, andb_true_iff, Z.eqb_eq. split.
    + intros [H1 H2]. split; [|lia]. intros ->. rewrite (proj2 Hd) in H1; [discriminate|auto].
    + intros [H1 H2]. split; [|lia]. destruct (did_start_ s); [reflexivity|].
      destruct (proj1 Hd eq_refl). tauto.
  - intros Hs. unfold AddRefModule, ReleaseModule. rewrite Hs. split; [reflexivity|].
    intros running. unfold IsShuttingDown in Hs. apply andb_true_iff in Hs as [_ Hs].
    apply Z.eqb_eq in Hs. rewrite <- Hs. reflexivity.
Qed.

Lemma modules_quit_once_witness :
  let s := {| module_ref_count_ := 0; did_start_ := true |} in
  let ops := [OpAddRef; OpAddRef; OpRelease true; OpAddRef; OpRelease true; OpRelease true] in
  module_ref_count_ s = balance ops /\ 0 <= balance ops /\
  1%nat = (if IsShuttingDown s then 1%nat else 0%nat) /\
  (IsShuttingDown s = true <-> ops <> [] /\ balance ops = 0) /\
  (IsShuttingDown s = true ->
     AddRefModule s = None /\ forall running, ReleaseModule true running s = None).
Proof. intros s ops. apply (modules_quit_once ops s 1); vm_compute; reflexivity. Defined.
End BrowserProcess.

(** ** [RundownTaskCounter]

    One thread posts rundown tasks and then waits; each task decrements the
    counter on the thread it was posted to. The counter's decrement and the
    signal that may follow are separate steps, and [Signalling n] counts the
    threads between them. *)
Module Rundown.

(** Where the thread that called [EndSession] is. *)
Inductive Waiter :=
  | Posting                     (** before [TimedWait] *)
  | AboutToSignal               (** its own decrement reached zero *)
  | Waiting
  | Done (result : bool).

Record RundownTaskCounter := {
  count_ : Z;                   (** an [AtomicRefCount] *)
  signaled : bool;              (** [waitable_event_]: manual reset *)
  waiter : Waiter;
  pending : nat;                (** posted tasks that have not decremented *)
  refused : nat;                (** posts the task runner dropped *)
  signalling : nat              (** tasks between the decrement and [Signal] *)
}.

Definition RundownTaskCounter_new : RundownTaskCounter :=
  {| count_ := 1; signaled := false; waiter := Posting; pending := 0; refused := 0;
     signalling := 0 |}.

Inductive RundownEvent :=
  | RdPost (accepted : bool)
  | RdTimedWait
  | RdDecrement                   (** a rundown task runs *)
  | RdSignal                      (** a rundown task signals *)
  | RdWaiterSignal
  | RdWake
  | RdTimeOut.

(** [AtomicRefCountDec]: the new count and whether it is still not zero. *)
Definition AtomicRefCountDec (n : Z) : Z * bool := (n - 1, negb (n - 1 =? 0)).

Definition rundown_step (c : RundownTaskCounter) (e : RundownEvent) : option RundownTaskCounter :=
  match e, waiter c with
  | RdPost accepted, Posting =>
      if count_ c =? 0 then None     (* DCHECK *)
      else Some {| count_ := count_ c + 1; signaled := signaled c; waiter := Posting;
                   pending := if accepted then S (pending c) else pending c;
                   refused := if accepted then refused c else S (refused c);
                   signalling := signalling c |}
  | RdTimedWait, Posting =>
      let '(n, nonzero) := AtomicRefCountDec (count_ c) in
      Some {| count_ := n; signaled := signaled c;
              waiter := if nonzero then Waiting else AboutToSignal;
              pending := pending c; refused := refused c; signalling := signalling c |}
  | RdWaiterSignal, AboutToSignal =>
      Some {| count_ := count_ c; signaled := true; waiter := Waiting;
              pending := pending c; refused := refused c; signalling := signalling c |}
  | RdWake, Waiting =>
      if signaled c
      then Some {| count_ := count_ c; signaled := true; waiter := Done true;
                   pending := pending c; refused := refused c; signalling := signalling c |}
      else None
  | RdTimeOut, Waiting =>
      Some {| count_ := count_ c; signaled := signaled c; waiter := Done (signaled c);
              pending := pending c; refused := refused c; signalling := signalling c |}
  | RdDecrement, _ =>
      match pending c with
      | O => None
      | S n =>
          let '(k, nonzero) := AtomicRefCountDec (count_ c) in
          Some {| count_ := k; signaled := signaled c; waiter := waiter c; pending := n;
                  refused := refused c;
                  signalling := if nonzero then signalling c else S (signalling c) |}
      end
  | RdSignal, _ =>
      match signalling c with
      | O => None
      | S n => Some {| count_ := count_ c; signaled := true; waiter := waiter c;
                       pending := pending c; refused := refused c; signalling := n |}
      end
  | _, _ => None
  end.

Inductive rundown_reachable : RundownTaskCounter -> Prop :=
  | rundown_new : rundown_reachable RundownTaskCounter_new
  | rundown_next c e c' :
      rundown_reachable c -> rundown_step c e = Some c' -> rundown_reachable c'.

Definition posting (c : RundownTaskCounter) : bool :=
  match waiter c with Posting => true | _ => false end.

Definition waiter_signals (c : RundownTaskCounter) : nat :=
  match waiter c with AboutToSignal => 1 | _ => 0 end.

(** The counter counts; exactly one thread signals, once the count is zero. *)
Record rundown_ok (c : RundownTaskCounter) : Prop := {
  rundown_count : count_ c = Z.of_nat (pending c) + Z.of_nat (refused c)
                             + (if posting c then 1 else 0);
  rundown_signals : (Nat.b2n (signaled c) + signalling c + waiter_signals c
                     = if (count_ c =? 0)%Z then 1 else 0)%nat;
  rundown_result : waiter c = Done true -> signaled c = true
}.

Lemma rundown_step_ok c e c' : rundown_ok c -> rundown_step c e = Some c' -> rundown_ok c'.
Proof.
  intros [Hc Hs Hr]. unfold rundown_step, AtomicRefCountDec.
  unfold posting, waiter_signals in *.
  destruct e, (waiter c) eqn:Ew; try discriminate; intros E; repeat case_match; simplify_eq;
    (split; cbn in *; unfold posting, waiter_signals in *; cbn in *; rewrite ?Ew in *;
     try discriminate; try lia; auto).
  all: repeat match goal with
       | |- context [?a =? ?b] => destruct (Z.eqb_spec a b)
       | H : (_ =? _) = true |- _ => apply Z.eqb_eq in H
       | H : (_ =? _) = false |- _ => apply Z.eqb_neq in H
       | H : negb _ = true |- _ => apply negb_true_iff in H
       | H : negb _ = false |- _ => apply negb_false_iff in H
       | |- Done _ = Done _ -> _ => intros [= ?]
       end; try assumption; try discriminate; try lia.
Qed.

Lemma rundown_reachable_ok c : rundown_reachable c -> rundown_ok c.
Proof.
  induction 1 as [|c e c' _ IH E]; [split; reflexivity || discriminate|].
  eapply rundown_step_ok; eassumption.
Qed.

(** [TimedWait] answers true only when every rundown task has run and none
    was refused; and once that is so, the event is signalled or a thread is about
    to signal it, so the wait does not depend on its timeout. While a task is
    missing the event stays down: the excess count taken in the constructor keeps
    the count from reaching zero before the wait. *)
Theorem rundown_wait_is_exact c (Hc : rundown_reachable c) :
  (waiter c = Done true -> pending c = 0%nat /\ refused c = 0%nat) /\
  (signaled c = true -> pending c = 0%nat /\ refused c = 0%nat /\ posting c = false) /\
  (posting c = false -> pending c = 0%nat -> refused c = 0%nat ->
   signaled c = true \/ signalling c = 1%nat \/ waiter c = AboutToSignal).
Proof.
  destruct (rundown_reachable_ok c Hc) as [H1 H2 H3].
  assert (Hsig : signaled c = true ->
    pending c = 0%nat /\ refused c = 0%nat /\ posting c = false).
  { intros Hs. rewrite Hs in H2. cbn in H2.
    destruct (Z.eqb_spec (count_ c) 0) as [E|E]; [|lia].
    destruct (posting c); [lia|]. split; [lia|]. split; [lia|reflexivity]. }
  split; [|split; [exact Hsig|]].
  - intros Hd. destruct (Hsig (H3 Hd)) as (? & ? & _). auto.
  - intros Hp Hz Hr. rewrite Hp, Hz, Hr in H1. rewrite H1 in H2.
    change (Z.of_nat 0 + Z.of_nat 0 + 0 =? 0) with true in H2.
    unfold waiter_signals in H2. destruct (signaled c); [auto|].
    destruct (waiter c); cbn in H2; auto; right; left; lia.
Qed.

Lemma rundown_wait_is_exact_witness :
  let c := {| count_ := 0; signaled := true; waiter := Done true; pending := 0; refused := 0;
              signalling := 0 |} in
  (waiter c = Done true -> pending c = 0%nat /\ refused c = 0%nat) /\
  (signaled c = true -> pending c = 0%nat /\ refused c = 0%nat /\ posting c = false) /\
  (posting c = false -> pending c = 0%nat -> refused c = 0%nat ->
   signaled c = true \/ signalling c = 1%nat \/ waiter c = AboutToSignal).
Proof.
  apply rundown_wait_is_exact.
  apply (rundown_next {| count_ := 0; signaled := true; waiter := Waiting; pending := 0;
                         refused := 0; signalling := 0 |} RdWake); [|reflexivity].
  apply (rundown_next {| count_ := 0; signaled := false; waiter := Waiting; pending := 0;
                         refused := 0; signalling := 1 |} RdSignal); [|reflexivity].
  apply (rundown_next {| count_ := 1; signaled := false; waiter := Waiting; pending := 1;
                         refused := 0; signalling := 0 |} RdDecrement); [|reflexivity].
  apply (rundown_next {| count_ := 2; signaled := false; waiter := Posting; pending := 1;
                         refused := 0; signalling := 0 |} RdTimedWait); [|reflexivity].
  apply (rundown_next RundownTaskCounter_new (RdPost true)); [constructor|reflexivity].
Defined.
End Rundown.

(** ** The market data connection *)
Module MarketData.

(** The calls made to the service's library, in order. *)
Inductive ApiCall :=
  | CallCreate | CallInit | CallRegisterSpi (spi : bool) | CallRelease | CallRegisterFront
  | CallReqUserLogin (request_id : Z) | CallReqUserLogout (request_id : Z).

(** [MdApi::mdapi_]: whether the pointer is set. *)
Record MdApi := { mdapi_ : bool }.

(** The widget's [mdapi_], the global request number, and the calls made. *)
Record Client := {
  widget_mdapi : option MdApi;
  g_reqid : Z;
  api_calls : list ApiCall
}.

Definition Client_new : Client := {| widget_mdapi := None; g_reqid := 1; api_calls := [] |}.

(** How an operation ends. *)
Inductive Result := Ok (c : Client) | CheckFailed | NullDereference.

Definition calls (c : Client) (l : list ApiCall) : Client :=
  {| widget_mdapi := widget_mdapi c; g_reqid := g_reqid c; api_calls := api_calls c ++ l |}.

Definition set_mdapi (c : Client) (a : option MdApi) : Client :=
  {| widget_mdapi := a; g_reqid := g_reqid c; api_calls := api_calls c |}.

(** [MdApi]'s methods on object [a]; [ui] is [BrowserThread::CurrentlyOn(UI)].
    Each answers the object's new state. *)
Definition MdApi_Setup (ui created : bool) (a : MdApi) (c : Client) : Result * MdApi :=
  if negb ui then (CheckFailed, a)
  else if mdapi_ a then (CheckFailed, a)
  else if negb created then (CheckFailed, a)
  else (Ok (calls c [CallCreate; CallInit; CallRegisterSpi true]), {| mdapi_ := true |}).

Definition MdApi_Reset (ui : bool) (a : MdApi) (c : Client) : Result * MdApi :=
  if negb ui then (CheckFailed, a)
  else if negb (mdapi_ a) then (NullDereference, a)
  else (Ok (calls c [CallRegisterSpi false; CallRelease]), {| mdapi_ := false |}).

Definition MdApi_Connect (ui : bool) (a : MdApi) (c : Client) : Result :=
  if negb ui then CheckFailed
  else if negb (mdapi_ a) then NullDereference
  else Ok (calls c [CallRegisterFront]).

(** [g_reqid++]. *)
Definition next_reqid (c : Client) : Client :=
  {| widget_mdapi := widget_mdapi c;
     g_reqid := Int.static_cast Int.int32 (g_reqid c + 1); api_calls := api_calls c |}.

Definition MdApi_Login (ui : bool) (a : MdApi) (c : Client) : Result :=
  if negb ui then CheckFailed
  else if negb (mdapi_ a) then NullDereference
  else Ok (calls (next_reqid c) [CallReqUserLogin (g_reqid c)]).

Definition MdApi_Logout (ui : bool) (a : MdApi) (c : Client) : Result :=
  if negb ui then CheckFailed
  else if negb (mdapi_ a) then NullDereference
  else Ok (calls (next_reqid c) [CallReqUserLogout (g_reqid c)]).

(** [TradingWidget]'s slots. The constructor and the destructor of [MdApi] check
    the thread too. *)
Definition Setup (ui created : bool) (c : Client) : Result :=
  match widget_mdapi c with
  | Some _ => CheckFailed
  | None =>
      if negb ui then CheckFailed
      else
        let '(r, a) := MdApi_Setup ui created {| mdapi_ := false |} c in
        match r with Ok c' => Ok (set_mdapi c' (Some a)) | e => e end
  end.

Definition with_mdapi (f : MdApi -> Client -> Result) (c : Client) : Result :=
  match widget_mdapi c with None => CheckFailed | Some a => f a c end.

Definition Connect (ui : bool) : Client -> Result := with_mdapi (MdApi_Connect ui).
Definition Login (ui : bool) : Client -> Result := with_mdapi (MdApi_Login ui).
Definition Logout (ui : bool) : Client -> Result := with_mdapi (MdApi_Logout ui).

Definition Reset (ui : bool) (c : Client) : Result :=
  match widget_mdapi c with
  | None => CheckFailed
  | Some a =>
      match fst (MdApi_Reset ui a c) with
      | Ok c' => if negb ui then CheckFailed else Ok (set_mdapi c' None)
      | e => e
      end
  end.

(** The buttons; [created] is whether the library can make an API object. *)
Inductive Button := BSetup (created : bool) | BConnect | BLogin | BLogout | BReset.

Definition press (ui : bool) (b : Button) : Client -> Result :=
  match b with
  | BSetup created => Setup ui created
  | BConnect => Connect ui
  | BLogin => Login ui
  | BLogout => Logout ui
  | BReset => Reset ui
  end.

Fixpoint press_all (ui : bool) (bs : list Button) (c : Client) : Result :=
  match bs with
  | [] => Ok c
  | b :: bs' => match press ui b c with Ok c' => press_all ui bs' c' | e => e end
  end.

Definition request_ids (l : list ApiCall) : list Z :=
  omap (fun k => match k with
                 | CallReqUserLogin i | CallReqUserLogout i => Some i | _ => None end) l.

Record client_ok (c : Client) : Prop := {
  client_object : forall a, widget_mdapi c = Some a -> mdapi_ a = true;
  client_ids : request_ids (api_calls c)
               = (fun n => Z.of_nat n) <$> seq 1 (length (request_ids (api_calls c)));
  client_next : g_reqid c = Z.of_nat (length (request_ids (api_calls c))) + 1
}.

Lemma request_ids_app l1 l2 : request_ids (l1 ++ l2) = request_ids l1 ++ request_ids l2.
Proof. apply omap_app. Qed.

Lemma set_mdapi_same c : set_mdapi c (widget_mdapi c) = c.
Proof. destruct c; reflexivity. Qed.

(** Calls that carry no request. *)
Lemma calls_ok c l a :
  client_ok c -> request_ids l = [] -> (forall a', a = Some a' -> mdapi_ a' = true) ->
  client_ok (set_mdapi (calls c l) a).
Proof.
  intros [Ho Hi Hn] Hl Ha. split; cbn [widget_mdapi set_mdapi calls api_calls g_reqid];
    rewrite ?request_ids_app, ?Hl, ?app_nil_r; assumption.
Qed.

(** A request takes the next number. *)
Lemma request_ok c k :
  client_ok c -> g_reqid c < 2 ^ 31 - 1 -> request_ids [k] = [g_reqid c] ->
  client_ok (calls (next_reqid c) [k]) /\ g_reqid (next_reqid c) = g_reqid c + 1.
Proof.
  intros [Ho Hi Hn] Hlt Hk.
  assert (Hid : Int.static_cast Int.int32 (g_reqid c + 1) = g_reqid c + 1).
  { apply Int.static_cast_id; [reflexivity|]. Int.int_compute. lia. }
  split; [|exact Hid].
  split; cbn [widget_mdapi calls next_reqid api_calls g_reqid]; rewrite ?request_ids_app, ?Hk.
  - exact Ho.
  - rewrite length_app, seq_app, fmap_app, <- Hi. cbn. rewrite Hn. do 2 f_equal. lia.
  - rewrite Hid, length_app. cbn. lia.
Qed.

Lemma press_ok ui b c :
  client_ok c -> g_reqid c < 2 ^ 31 - 1 ->
  match press ui b c with
  | Ok c' => client_ok c' /\ g_reqid c' <= g_reqid c + 1
  | CheckFailed => True
  | NullDereference => False
  end.
Proof.
  intros Hok Hlt. pose proof Hok as [Ho Hi Hn].
  destruct b; cbn [press]; unfold Setup, Connect, Login, Logout, Reset, with_mdapi, MdApi_Setup,
    MdApi_Connect, MdApi_Login, MdApi_Logout, MdApi_Reset;
    destruct (widget_mdapi c) as [a|] eqn:Ew; try exact I;
    try rewrite (Ho a eq_refl); destruct ui; cbn; try exact I.
  - destruct created; cbn; [|exact I]. split; [|lia].
    apply calls_ok; [assumption|reflexivity|intros ? [= <-]; reflexivity].
  - split; [|lia]. rewrite <- (set_mdapi_same (calls c _)).
    apply calls_ok; [assumption|reflexivity|cbn; rewrite Ew; exact Ho].
  - destruct (request_ok c (CallReqUserLogin (g_reqid c))) as [H1 H2]; auto. split; [exact H1|].
    cbn in H2. lia.
  - destruct (request_ok c (CallReqUserLogout (g_reqid c))) as [H1 H2]; auto. split; [exact H1|].
    cbn in H2. lia.
  - split; [|lia]. apply calls_ok; [assumption|reflexivity|discriminate].
Qed.

(** Whatever buttons the user presses in whatever order, the client never follows a
    null service object: a button that does not fit the state fails a [CHECK]. While
    it runs, the requests are numbered 1, 2, 3 and so on. *)
Theorem trading_widget_never_follows_null ui bs (Hlen : Z.of_nat (length bs) < 2 ^ 31 - 2) :
  match press_all ui bs Client_new with
  | Ok c =>
      request_ids (api_calls c)
      = (fun n => Z.of_nat n) <$> seq 1 (length (request_ids (api_calls c)))
  | CheckFailed => True
  | NullDereference => False
  end.
Proof.
  assert (H : forall c, client_ok c -> g_reqid c + Z.of_nat (length bs) < 2 ^ 31 ->
    match press_all ui bs c with
    | Ok c' => client_ok c' | CheckFailed => True | NullDereference => False end).
  { clear Hlen. induction bs as [|b bs IH]; intros c Hc Hn; [exact Hc|].
    cbn [press_all length] in *. pose proof (press_ok ui b c Hc) as Hp.
    destruct (press ui b c) as [c'| |]; [|exact I|apply Hp; lia].
    destruct Hp as [Hc' Hle]; [lia|]. apply IH; [exact Hc'|lia]. }
  specialize (H Client_new). destruct (press_all ui bs Client_new) as [c| |]; [|exact I|].
  - destruct H as [_ Hi _]; [split; reflexivity || discriminate|cbn; lia|]. exact Hi.
  - apply H; [split; reflexivity || discriminate|cbn; lia].
Qed.
End MarketData.
