(* ===== verification/StringNumbers.v ===== *)
(** * Numbers and strings ([base/strings/string_number_conversions.cc])

    Printing integers, parsing them in base 10 or 16 with overflow detection, and
    hexadecimal byte strings, for the four integer types the library instantiates.
    Characters are their codes; the [char] and [char16] instances differ only in
    the test for white space, which is the C library's and depends on the locale,
    so it is a parameter. Conversions of [double] are left to a third-party
    library. *)

From S2P Require Import Prelude.
From stdpp Require Import base numbers option list.
From Stdlib Require Import ZArith Lia.

Local Open Scope Z_scope.

#[local] Ltac Zify.zify_post_hook ::= Z.to_euclidean_division_equations.

#[local] Existing Instance Int.type_eq_dec.

Definition chr_0 := 48.
Definition chr_9 := 57.
Definition chr_A := 65.
Definition chr_a := 97.
Definition chr_X := 88.
Definition chr_x := 120.
Definition chr_minus := 45.
Definition chr_plus := 43.

(** ** Printing *)

Definition unsigned_of (t : Int.type) : Int.type := Int.Type_ (Int.size t) false.

(** [ToUnsignedT::ToUnsigned]. *)
Definition ToUnsigned (t : Int.type) (value : Z) : Z :=
  Int.static_cast (unsigned_of t)
    (if Int.is_signed t then if value <? 0 then Int.static_cast t (- value) else value
     else value).

Definition TestNeg (t : Int.type) (value : Z) : bool :=
  if Int.is_signed t then value <? 0 else false.

Definition kOutputBufSize (t : Int.type) : nat := Z.to_nat (3 * Int.size t + 1).

(** The [do ... while] that writes digits backwards from position [pos] of the
    buffer; [None] when the iterator reaches the buffer's beginning. *)
Fixpoint write_digits (pos : nat) (res : Z) (out : list Z) : option (nat * list Z) :=
  match pos with
  | O => None
  | S pos' =>
      if Nat.eqb pos' 0 then None
      else
        let out' := (res mod 10 + chr_0) :: out in
        if res / 10 =? 0 then Some (pos', out') else write_digits pos' (res / 10) out'
  end.

Definition IntToString (t : Int.type) (value : Z) : option (list Z) :=
  '(pos, out) ← write_digits (kOutputBufSize t) (ToUnsigned t value) [];
  if TestNeg t value then
    match pos with
    | S (S _) => Some (chr_minus :: out)
    | _ => None
    end
  else Some out.

(** ** Parsing *)

(** [CharToDigit<BASE>]. *)
Definition CharToDigit (base c : Z) : option Z :=
  if base <=? 10 then
    if (chr_0 <=? c) && (c <? chr_0 + base) then Some (c - chr_0) else None
  else if (chr_0 <=? c) && (c <=? chr_9) then Some (c - chr_0)
  else if (chr_a <=? c) && (c <? chr_a + base - 10) then Some (c - chr_a + 10)
  else if (chr_A <=? c) && (c <? chr_A + base - 10) then Some (c - chr_A + 10)
  else None.

Inductive Sign := Positive | Negative.

(** [Sign::CheckBounds]: [None] where it answers true, else the new [*output]. *)
Definition CheckBounds (t : Int.type) (base : Z) (sgn : Sign) (output new_digit : Z) : option Z :=
  match sgn with
  | Positive =>
      let q := Int.static_cast t (Z.quot (Int.max t) base) in
      if (q <? output) || ((output =? q) && (Z.rem (Int.max t) base <? new_digit))
      then Some (Int.max t) else None
  | Negative =>
      let q := Z.quot (Int.min t) base in
      if (output <? q) || ((output =? q) && (0 - Z.rem (Int.min t) base <? new_digit))
      then Some (Int.min t) else None
  end.

Definition Increment (t : Int.type) (sgn : Sign) (increment output : Z) : Z :=
  match sgn with
  | Positive => Int.static_cast t (output + increment)
  | Negative => Int.static_cast t (output - increment)
  end.

(** The loop of [Base<Sign>::Invoke]; [first] is [current == begin]. *)
Fixpoint scan (t : Int.type) (base : Z) (sgn : Sign) (first : bool) (output : Z) (s : list Z)
  : bool * Z :=
  match s with
  | [] => (true, output)
  | c :: s' =>
      match CharToDigit base c with
      | None => (false, output)
      | Some d =>
          match (if first then None else CheckBounds t base sgn output d) with
          | Some limit => (false, limit)
          | None =>
              let output := if first then output else Int.static_cast t (output * base) in
              scan t base sgn false (Increment t sgn d output) s'
          end
      end
  end.

Definition skip_0x (base : Z) (s : list Z) : list Z :=
  match s with
  | a :: b :: s' =>
      if (base =? 16) && (2 <? Z.of_nat (length s)) && (a =? chr_0)
         && ((b =? chr_x) || (b =? chr_X))
      then s' else s
  | _ => s
  end.

(** [Base<Sign>::Invoke]. *)
Definition Invoke_sign (t : Int.type) (base : Z) (sgn : Sign) (s : list Z) : bool * Z :=
  match s with
  | [] => (false, 0)
  | _ => scan t base sgn true 0 (skip_0x base s)
  end.

Section Parsing.
(** [isspace] or [iswspace]. *)
Context (LocalIsWhitespace : Z -> bool).

Fixpoint skip_whitespace (s : list Z) : bool * list Z :=
  match s with
  | c :: s' => if LocalIsWhitespace c then (false, snd (skip_whitespace s')) else (true, s)
  | [] => (true, [])
  end.

(** [IteratorRangeToNumber::Invoke]; [output] is what the caller's variable
    held. *)
Definition IteratorRangeToNumber (t : Int.type) (base : Z) (s : list Z) (output : Z)
  : bool * Z :=
  let '(valid, s) := skip_whitespace s in
  match s with
  | c :: s' =>
      if c =? chr_minus then
        if negb (Int.is_signed t) then (false, output)
        else let '(ok, v) := Invoke_sign t base Negative s' in (valid && ok, v)
      else
        let '(ok, v) := Invoke_sign t base Positive (if c =? chr_plus then s' else s) in
        (valid && ok, v)
  | [] => let '(ok, v) := Invoke_sign t base Positive [] in (valid && ok, v)
  end.

Definition StringToInt := IteratorRangeToNumber Int.int32 10.
Definition StringToUint := IteratorRangeToNumber Int.uint32 10.
Definition StringToInt64 := IteratorRangeToNumber Int.int64 10.
Definition StringToUint64 := IteratorRangeToNumber Int.uint64 10.
Definition HexStringToInt := IteratorRangeToNumber Int.int32 16.
Definition HexStringToUInt := IteratorRangeToNumber Int.uint32 16.
Definition HexStringToInt64 := IteratorRangeToNumber Int.int64 16.
Definition HexStringToUInt64 := IteratorRangeToNumber Int.uint64 16.
End Parsing.

(** ** Hexadecimal bytes *)

Definition kHexChars : list Z := [48; 49; 50; 51; 52; 53; 54; 55; 56; 57; 65; 66; 67; 68; 69; 70].

(** A [char] is signed: its right shift is arithmetic. *)
Definition HexEncode (bytes : list Z) : list Z :=
  bytes ≫= fun x =>
    let b := Int.static_cast Int.int8 x in
    [nth (Z.to_nat (Z.land (Z.shiftr b 4) 15)) kHexChars 0; nth (Z.to_nat (Z.land b 15)) kHexChars 0].

(** [HexStringToBytesT]: the bytes pushed, with the answer. *)
Fixpoint hex_bytes (s : list Z) : bool * list Z :=
  match s with
  | a :: b :: s' =>
      match CharToDigit 16 a, CharToDigit 16 b with
      | Some msb, Some lsb =>
          let '(ok, out) := hex_bytes s' in
          (ok, Int.static_cast Int.uint8 (Z.lor (Z.shiftl msb 4) lsb) :: out)
      | _, _ => (false, [])
      end
  | _ => (true, [])
  end.

Definition HexStringToBytes (s : list Z) : bool * list Z :=
  let count := Z.of_nat (length s) in
  if (count =? 0) || negb (count mod 2 =? 0) then (false, []) else hex_bytes s.

(** ** Reference parser

    The same grammar with unbounded arithmetic: a digit is accepted exactly when
    the number so far is in the type's range. *)

Definition limit (t : Int.type) (sgn : Sign) : Z :=
  match sgn with Positive => Int.max t | Negative => Int.min t end.

Definition append (base : Z) (sgn : Sign) (v d : Z) : Z :=
  match sgn with Positive => v * base + d | Negative => v * base - d end.

Fixpoint ref_scan (t : Int.type) (base : Z) (sgn : Sign) (v : Z) (s : list Z) : bool * Z :=
  match s with
  | [] => (true, v)
  | c :: s' =>
      match CharToDigit base c with
      | None => (false, v)
      | Some d =>
          let v' := append base sgn v d in
          if bool_decide (Int.in_range t v') then ref_scan t base sgn v' s'
          else (false, limit t sgn)
      end
  end.

Definition ref_number (t : Int.type) (base : Z) (sgn : Sign) (s : list Z) : bool * Z :=
  if bool_decide (s = []) then (false, 0) else ref_scan t base sgn 0 (skip_0x base s).

(** Only the sign of the number decides between the two readings. *)
Definition ref_parse (ws : Z -> bool) (t : Int.type) (base : Z) (s : list Z) (output : Z)
  : bool * Z :=
  let '(valid, s) := skip_whitespace ws s in
  match s with
  | c :: s' =>
      if c =? chr_minus then
        if Int.is_signed t
        then let '(ok, v) := ref_number t base Negative s' in (valid && ok, v)
        else (false, output)
      else
        let '(ok, v) := ref_number t base Positive (if c =? chr_plus then s' else s) in
        (valid && ok, v)
  | [] => (false, 0)
  end.

(** The types the library instantiates. *)
Definition number_type (t : Int.type) : Prop :=
  t = Int.int32 \/ t = Int.uint32 \/ t = Int.int64 \/ t = Int.uint64.

Definition number_base (base : Z) : Prop := base = 10 \/ base = 16.

Ltac number_cases Ht Hb := destruct Ht as [-> | [-> | [-> | ->]]], Hb as [-> | ->].

(** ** Lemmas *)

Lemma CharToDigit_range base c d : number_base base -> CharToDigit base c = Some d -> 0 <= d < base.
Proof.
  intros [-> | ->]; unfold CharToDigit, chr_0, chr_9, chr_a, chr_A; cbn [Z.leb Z.compare Pos.compare Pos.compare_cont];
    repeat case_match; intros; simplify_eq; lia.
Qed.

Lemma max_split t base :
  number_type t -> number_base base ->
  let q := Z.quot (Int.max t) base in let r := Z.rem (Int.max t) base in
  Int.static_cast t q = q /\ Int.max t = base * q + r /\ 0 <= r < base /\ Int.min t <= 0 <= Int.max t.
Proof. intros Ht Hb. number_cases Ht Hb; vm_compute; repeat split; congruence. Qed.

Lemma min_split t base :
  number_type t -> number_base base -> Int.is_signed t = true ->
  let q := Z.quot (Int.min t) base in let r := Z.rem (Int.min t) base in
  Int.min t = base * q + r /\ - base < r <= 0.
Proof. intros Ht Hb. number_cases Ht Hb; vm_compute; intros; repeat split; congruence. Qed.

(** The test by division is the test of the exact number. *)
Lemma CheckBounds_exact t base sgn v d :
  number_type t -> number_base base -> 0 <= d < base ->
  (sgn = Negative -> Int.is_signed t = true /\ v <= 0) -> (sgn = Positive -> 0 <= v) ->
  CheckBounds t base sgn v d
  = if bool_decide (Int.in_range t (append base sgn v d)) then None else Some (limit t sgn).
Proof.
  intros Ht Hb Hd Hneg Hpos. unfold CheckBounds, append, limit, Int.in_range.
  destruct (max_split t base Ht Hb) as (Hq & Hm & Hr & Hz).
  assert (Hbase : 0 < base) by (destruct Hb; lia).
  destruct sgn; [specialize (Hpos eq_refl); rewrite Hq|destruct (Hneg eq_refl) as [Hs Hle]].
  - set (q := Z.quot _ _) in *. set (r := Z.rem _ _) in *. clearbody q r.
    destruct Hb as [-> | ->];
      (destruct (Z.ltb_spec q v), (Z.eqb_spec v q), (Z.ltb_spec r d); cbn [orb andb];
       case_bool_decide; reflexivity || lia).
  - destruct (min_split t base Ht Hb Hs) as [Hn Hr'].
    set (q := Z.quot (Int.min t) _) in *. set (r := Z.rem (Int.min t) _) in *. clearbody q r.
    destruct Hb as [-> | ->];
      (destruct (Z.ltb_spec v q), (Z.eqb_spec v q), (Z.ltb_spec (0 - r) d); cbn [orb andb];
       case_bool_decide; reflexivity || lia).
Qed.

Lemma number_integral t : number_type t -> Int.is_integral t = true.
Proof. intros [-> | [-> | [-> | ->]]]; reflexivity. Qed.

Definition sign_side (t : Int.type) (sgn : Sign) (v : Z) : Prop :=
  match sgn with Positive => 0 <= v | Negative => Int.is_signed t = true /\ v <= 0 end.

Lemma append_side t base sgn v d :
  number_base base -> 0 <= d -> sign_side t sgn v -> sign_side t sgn (append base sgn v d).
Proof. intros [-> | ->] ?; destruct sgn; cbn; intuition lia. Qed.

(** In range, no step of the machine's loop wraps. *)
Lemma scan_exact t base sgn s v :
  number_type t -> number_base base -> Int.in_range t v -> sign_side t sgn v ->
  scan t base sgn false v s = ref_scan t base sgn v s.
Proof.
  intros Ht Hb. pose proof (number_integral t Ht) as Hi. revert v.
  induction s as [|c s IH]; intros v Hv Hside; [reflexivity|]. cbn [scan ref_scan].
  destruct (CharToDigit base c) as [d|] eqn:Ed; [|reflexivity].
  apply CharToDigit_range in Ed; [|exact Hb].
  rewrite CheckBounds_exact; try assumption;
    [|intros ->; exact Hside|intros ->; exact Hside].
  case_bool_decide as Hr; [|reflexivity].
  destruct (max_split t base Ht Hb) as (_ & _ & _ & Hz).
  assert (Hvb : Int.static_cast t (v * base) = v * base).
  { apply Int.static_cast_id; [exact Hi|]. unfold Int.in_range, append in *.
    destruct sgn; cbn in Hside; destruct Hb as [-> | ->]; lia. }
  rewrite Hvb. replace (Increment t sgn d (v * base)) with (append base sgn v d).
  - apply IH; [exact Hr|]. apply append_side; [exact Hb|lia|exact Hside].
  - unfold Increment, append in *. destruct sgn; symmetry; apply Int.static_cast_id; assumption.
Qed.

Lemma scan_first_exact t base sgn s :
  number_type t -> number_base base -> (sgn = Negative -> Int.is_signed t = true) ->
  scan t base sgn true 0 s = ref_scan t base sgn 0 s.
Proof.
  intros Ht Hb Hs. destruct s as [|c s]; [reflexivity|]. cbn [scan ref_scan].
  destruct (CharToDigit base c) as [d|] eqn:Ed; [|reflexivity].
  apply CharToDigit_range in Ed; [|exact Hb].
  assert (Hside : sign_side t sgn 0) by (destruct sgn; cbn; auto with lia).
  assert (Hr : Int.in_range t (append base sgn 0 d)).
  { unfold append. destruct sgn; [clear Hs|specialize (Hs eq_refl)];
      number_cases Ht Hb; try discriminate Hs; Int.int_compute; lia. }
  rewrite bool_decide_true by exact Hr.
  replace (Increment t sgn d 0) with (append base sgn 0 d).
  - apply scan_exact; try assumption. apply append_side; [exact Hb|lia|exact Hside].
  - unfold Increment, append in *. pose proof (number_integral t Ht).
    destruct sgn; symmetry; apply Int.static_cast_id; assumption.
Qed.

Lemma Invoke_sign_exact t base sgn s :
  number_type t -> number_base base -> (sgn = Negative -> Int.is_signed t = true) ->
  Invoke_sign t base sgn s = ref_number t base sgn s.
Proof.
  intros Ht Hb Hs. unfold Invoke_sign, ref_number. destruct s as [|c s].
  - reflexivity.
  - rewrite bool_decide_false by discriminate. apply scan_first_exact; assumption.
Qed.

(** C30: the parser, whose arithmetic is that of the machine type and whose
    overflow tests divide, computes on every string the same answer and the same
    output as the reference parser, which uses unbounded integers and tests the
    range of the number itself: no step of it ever wraps. *)
Theorem number_parser_matches_reference ws t base s output
    (Ht : number_type t) (Hb : number_base base) :
  IteratorRangeToNumber ws t base s output = ref_parse ws t base s output.
Proof.
  unfold IteratorRangeToNumber, ref_parse.
  destruct (skip_whitespace ws s) as [valid [|c s']].
  - cbn. rewrite andb_false_r. reflexivity.
  - destruct (c =? chr_minus).
    + destruct (Int.is_signed t) eqn:Es; [|reflexivity]. cbn [negb].
      rewrite Invoke_sign_exact by auto. reflexivity.
    + rewrite Invoke_sign_exact by (assumption || discriminate). reflexivity.
Qed.

Lemma number_parser_matches_reference_witness :
  IteratorRangeToNumber (fun c => c =? 32) Int.int32 10 [45; 50; 49; 52; 55; 52; 56; 51; 54; 52; 57] 7
  = ref_parse (fun c => c =? 32) Int.int32 10 [45; 50; 49; 52; 55; 52; 56; 51; 54; 52; 57] 7.
Proof. apply number_parser_matches_reference; [left; reflexivity|left; reflexivity]. Defined.

Lemma ref_scan_range t base sgn v s w :
  number_type t -> Int.in_range t v -> ref_scan t base sgn v s = (true, w) -> Int.in_range t w.
Proof.
  intros Ht. revert v. induction s as [|c s IH]; intros v Hv; cbn [ref_scan]; [by intros [= <-]|].
  destruct (CharToDigit base c) as [d|]; [|discriminate].
  case_bool_decide as Hr; [|discriminate]. by apply IH.
Qed.

Lemma Invoke_sign_range t base sgn s v :
  number_type t -> number_base base -> (sgn = Negative -> Int.is_signed t = true) ->
  Invoke_sign t base sgn s = (true, v) -> Int.in_range t v.
Proof.
  intros Ht Hb Hs. rewrite Invoke_sign_exact by assumption. unfold ref_number.
  case_bool_decide; [discriminate|]. apply ref_scan_range; [assumption|].
  destruct Ht as [-> | [-> | [-> | ->]]]; Int.int_compute; lia.
Qed.

(** A number that is accepted is in the range of its type. *)
Lemma IteratorRangeToNumber_range ws t base s output v :
  number_type t -> number_base base ->
  IteratorRangeToNumber ws t base s output = (true, v) -> Int.in_range t v.
Proof.
  intros Ht Hb. unfold IteratorRangeToNumber. destruct (skip_whitespace ws s) as [valid r].
  assert (forall sgn u, (sgn = Negative -> Int.is_signed t = true) ->
    (let '(ok, w) := Invoke_sign t base sgn u in (valid && ok, w)) = (true, v) ->
    Int.in_range t v) as H.
  { intros sgn u Hs. destruct (Invoke_sign t base sgn u) as [ok w] eqn:E. intros [= Hok ->].
    apply andb_true_iff in Hok as [_ ->]. by apply Invoke_sign_range in E. }
  destruct r as [|c r]; [by apply H|]. destruct (c =? chr_minus); [|by apply H].
  destruct (Int.is_signed t) eqn:Es; cbn [negb]; [by apply H | discriminate].
Qed.

(** ** Round trips *)

Definition digit_value (base : Z) (c : Z) : Z := default 0 (CharToDigit base c).

Definition digits_value (base : Z) (v : Z) (s : list Z) : Z :=
  foldl (fun a c => a * base + digit_value base c) v s.

Definition decimal (s : list Z) : Prop := Forall (fun c => chr_0 <= c <= chr_9) s.

Lemma decimal_digit c : chr_0 <= c <= chr_9 -> CharToDigit 10 c = Some (c - chr_0).
Proof.
  unfold CharToDigit, chr_0, chr_9. intros H. cbn [Z.leb Z.compare Pos.compare Pos.compare_cont].
  destruct (Z.leb_spec 48 c), (Z.ltb_spec c (48 + 10)); cbn [andb]; reflexivity || lia.
Qed.

Lemma digits_value_ge s v : decimal s -> 0 <= v -> v <= digits_value 10 v s.
Proof.
  intros Hs. revert v. induction Hs as [|c s Hc _ IH]; intros v Hv; [cbn; lia|].
  cbn [digits_value foldl]. unfold digit_value at 2. rewrite decimal_digit by exact Hc.
  cbn [default from_option id]. fold (digits_value 10 (v * 10 + (c - chr_0)) s).
  specialize (IH (v * 10 + (c - chr_0))). unfold chr_0 in *. lia.
Qed.

Definition signed_value (sgn : Sign) (v : Z) : Z :=
  match sgn with Positive => v | Negative => - v end.

(** A run of digits whose number is in range is read as that number. *)
Lemma ref_scan_decimal t sgn s v :
  number_type t -> decimal s -> 0 <= v ->
  Int.in_range t (signed_value sgn (digits_value 10 v s)) ->
  ref_scan t 10 sgn (signed_value sgn v) s = (true, signed_value sgn (digits_value 10 v s)).
Proof.
  intros Ht Hs. revert v. induction Hs as [|c s Hc Hs IH]; intros v Hv Hr; [reflexivity|].
  cbn [ref_scan]. rewrite decimal_digit by exact Hc.
  assert (Ed : digits_value 10 v (c :: s) = digits_value 10 (v * 10 + (c - chr_0)) s).
  { cbn [digits_value foldl]. unfold digit_value at 2. rewrite decimal_digit by exact Hc. reflexivity. }
  rewrite Ed in *.
  assert (Hd : 0 <= c - chr_0) by (unfold chr_0 in *; lia).
  pose proof (digits_value_ge s (v * 10 + (c - chr_0)) Hs ltac:(lia)) as Hge.
  assert (Ea : append 10 sgn (signed_value sgn v) (c - chr_0)
               = signed_value sgn (v * 10 + (c - chr_0))) by (destruct sgn; cbn; lia).
  rewrite Ea, bool_decide_true.
  - apply IH; [lia|exact Hr].
  - destruct (max_split t 10 Ht (or_introl eq_refl)) as (_ & _ & _ & Hz).
    unfold Int.in_range in *. destruct sgn; cbn [signed_value] in *; lia.
Qed.

Lemma digits_value_app v s1 s2 :
  digits_value 10 v (s1 ++ s2) = digits_value 10 (digits_value 10 v s1) s2.
Proof. unfold digits_value. apply foldl_app. Qed.

(** The digits the loop writes, and the room they take. *)
Lemma write_digits_ok pos res out :
  0 <= res -> res < 10 ^ (Z.of_nat pos - 1) ->
  (2 <= pos)%nat ->
  exists pos' ds, write_digits pos res out = Some (pos', ds ++ out) /\
    decimal ds /\ ds <> [] /\ digits_value 10 0 ds = res /\
    (pos' + length ds = pos)%nat /\ (1 <= pos')%nat /\
    (forall k, res < 10 ^ Z.of_nat k -> (1 <= k)%nat -> (length ds <= k)%nat).
Proof.
  revert res out. induction pos as [|pos IH]; intros res out H0 Hlt Hpos; [lia|].
  cbn [write_digits]. destruct (Nat.eqb_spec pos 0) as [|Hp]; [lia|].
  assert (Hdig : chr_0 <= res mod 10 + chr_0 <= chr_9) by (unfold chr_0, chr_9; lia).
  assert (Hone : digits_value 10 0 [res mod 10 + chr_0] = res mod 10).
  { unfold digits_value, digit_value. cbn [foldl]. rewrite decimal_digit by exact Hdig.
    cbn [default from_option id]. lia. }
  destruct (Z.eqb_spec (res / 10) 0) as [E|E].
  - exists pos, [res mod 10 + chr_0]. split; [reflexivity|]. split; [apply Forall_singleton; exact Hdig|].
    split; [discriminate|]. split; [rewrite Hone; lia|]. cbn. split; [lia|]. split; [lia|]. lia.
  - assert (Hpos2 : (2 <= pos)%nat).
    { destruct pos as [|[|]]; [lia| |lia]. change (Z.of_nat 2 - 1) with 1 in Hlt. lia. }
    assert (Hlt' : res / 10 < 10 ^ (Z.of_nat pos - 1)).
    { replace (Z.of_nat (S pos) - 1) with (Z.succ (Z.of_nat pos - 1)) in Hlt by lia.
      rewrite Z.pow_succ_r in Hlt by lia. lia. }
    destruct (IH (res / 10) ((res mod 10 + chr_0) :: out)) as
      (pos' & ds & Ew & Hd & Hne & Hv & Hlen & Hp' & Hk); [lia|exact Hlt'|exact Hpos2|].
    exists pos', (ds ++ [res mod 10 + chr_0]). rewrite Ew, <- app_assoc. split; [reflexivity|].
    split; [apply Forall_app; split; [exact Hd|apply Forall_singleton; exact Hdig]|].
    split; [destruct ds; discriminate|].
    split.
    { rewrite digits_value_app, Hv. unfold digits_value, digit_value. cbn [foldl].
      rewrite decimal_digit by exact Hdig. cbn [default from_option id]. unfold chr_0. lia. }
    rewrite length_app. cbn [length]. split; [lia|]. split; [lia|].
    intros [|k] Hr Hk1; [lia|]. rewrite Nat2Z.inj_succ, Z.pow_succ_r in Hr by lia.
    destruct k; [cbn in Hr; lia|]. specialize (Hk (S k)). lia.
Qed.

Lemma ToUnsigned_abs t v :
  number_type t -> Int.in_range t v -> ToUnsigned t v = Z.abs v.
Proof.
  intros Ht Hv. unfold ToUnsigned. destruct Ht as [-> | [-> | [-> | ->]]]; unfold unsigned_of;
    Int.int_compute; cmp_lia.
Qed.

Lemma TestNeg_spec t v : number_type t -> Int.in_range t v -> TestNeg t v = (v <? 0).
Proof.
  intros Ht Hv. unfold TestNeg. destruct Ht as [-> | [-> | [-> | ->]]];
    cbn [Int.is_signed Int.int32 Int.uint32 Int.int64 Int.uint64]; try reflexivity;
    symmetry; apply Z.ltb_ge; Int.int_compute; lia.
Qed.

(** The buffer holds the digits, a sign and the position never written. *)
Lemma buffer_room t v :
  number_type t -> Int.in_range t v ->
  Z.abs v < 10 ^ Z.of_nat (kOutputBufSize t - 2) /\ (12 <= kOutputBufSize t)%nat.
Proof.
  intros Ht Hv. destruct Ht as [-> | [-> | [-> | ->]]];
    match goal with |- context [kOutputBufSize ?u] =>
      let n := eval vm_compute in (kOutputBufSize u) in
      change (kOutputBufSize u) with n; split; [|lia];
      let p := eval vm_compute in (10 ^ Z.of_nat (n - 2)) in
      change (10 ^ Z.of_nat (n - 2)) with p
    end; Int.int_compute; lia.
Qed.

(** The text of a number, under the sign that fits it. *)
Lemma ref_number_decimal t sgn ds v :
  number_type t -> decimal ds -> ds <> [] -> Int.in_range t v ->
  signed_value sgn (digits_value 10 0 ds) = v -> ref_number t 10 sgn ds = (true, v).
Proof.
  intros Ht Hd Hne Hv Hval. unfold ref_number. rewrite bool_decide_false by exact Hne.
  replace (skip_0x 10 ds) with ds by (destruct ds as [|? []]; reflexivity).
  pose proof (ref_scan_decimal t sgn ds 0 Ht Hd ltac:(lia)) as Hr. rewrite Hval in Hr.
  specialize (Hr Hv). destruct sgn; exact Hr.
Qed.

Lemma digits_value_lt s : decimal s -> digits_value 10 0 s < 10 ^ Z.of_nat (length s).
Proof.
  unfold decimal. intros Hs. induction s as [|c s IH] using rev_ind; [by cbn|].
  apply Forall_app in Hs as [Hs Hc]. apply Forall_inv in Hc. rewrite digits_value_app, length_app.
  cbn [length]. rewrite Nat2Z.inj_add, Z.pow_add_r by lia. specialize (IH Hs).
  unfold digits_value at 1, digit_value. cbn [foldl]. rewrite decimal_digit by exact Hc.
  cbn [default from_option id]. unfold chr_0, chr_9 in *.
  change (10 ^ Z.of_nat 1) with 10. lia.
Qed.

(** The text of an integer: its sign and its digits, without leading zeros. *)
Definition decimal_text (v : Z) (ds : list Z) : list Z := if v <? 0 then chr_minus :: ds else ds.

Lemma IntToString_text t v :
  number_type t -> Int.in_range t v ->
  exists ds, IntToString t v = Some (decimal_text v ds) /\ decimal ds /\ ds <> [] /\
    digits_value 10 0 ds = Z.abs v /\ (forall r, ds = chr_0 :: r -> r = []).
Proof.
  intros Ht Hv. destruct (buffer_room t v Ht Hv) as [Ha Hbuf]. unfold IntToString.
  rewrite ToUnsigned_abs, TestNeg_spec by assumption. set (n := kOutputBufSize t) in *.
  destruct (write_digits_ok n (Z.abs v) []) as (pos & ds & -> & Hd & Hne & Hval & Hlen & Hp & Hk);
    [lia| |lia|].
  { eapply Z.lt_le_trans; [exact Ha|]. apply Z.pow_le_mono_r; lia. }
  pose proof (Hk _ Ha ltac:(lia)) as Hroom. rewrite app_nil_r. cbn [mbind option_bind].
  exists ds. unfold decimal_text. split_and!; try assumption.
  - destruct (v <? 0); [|reflexivity]. destruct pos as [|[|pos]]; [lia|lia|reflexivity].
  - intros r ->. destruct r as [|c r]; [reflexivity|]. exfalso.
    apply Forall_cons in Hd as [_ Hd]. pose proof (digits_value_lt _ Hd) as Hlt.
    change (digits_value 10 0 (chr_0 :: c :: r)) with (digits_value 10 0 (c :: r)) in Hval.
    rewrite Hval in Hlt. specialize (Hk _ Hlt). cbn [length] in Hk. lia.
Qed.

(** Such a text is parsed as the integer. *)
Lemma decimal_text_parsed ws t v ds output :
  (forall c, chr_0 <= c <= chr_9 \/ c = chr_minus -> ws c = false) ->
  number_type t -> Int.in_range t v -> decimal ds -> ds <> [] ->
  digits_value 10 0 ds = Z.abs v ->
  IteratorRangeToNumber ws t 10 (decimal_text v ds) output = (true, v).
Proof.
  intros Hws Ht Hv Hd Hne Hval. unfold decimal_text. destruct (Z.ltb_spec v 0) as [Hneg|Hpos].
  - assert (Hs : Int.is_signed t = true).
    { destruct Ht as [-> | [-> | [-> | ->]]]; try reflexivity; exfalso; Int.int_compute; lia. }
    unfold IteratorRangeToNumber. cbn [skip_whitespace]. rewrite Hws by auto.
    change (chr_minus =? chr_minus) with true. rewrite Hs. cbn [negb].
    rewrite Invoke_sign_exact by (assumption || (left; reflexivity) || auto).
    rewrite (ref_number_decimal t Negative ds v) by (assumption || (cbn; lia)). reflexivity.
  - destruct ds as [|c ds]; [congruence|].
    pose proof (Forall_inv Hd) as Hc. cbn beta in Hc.
    unfold IteratorRangeToNumber. cbn [skip_whitespace]. rewrite Hws by auto.
    rewrite (proj2 (Z.eqb_neq c chr_minus)), (proj2 (Z.eqb_neq c chr_plus))
      by (unfold chr_0, chr_minus, chr_plus in *; lia).
    rewrite Invoke_sign_exact by (assumption || (left; reflexivity) || discriminate).
    rewrite (ref_number_decimal t Positive (c :: ds) v)
      by (assumption || (cbn [signed_value]; lia)). reflexivity.
Qed.

(** Printing an integer never runs out of its buffer, and parsing the text
    gives the integer back, for the four types and their whole ranges. *)
Theorem int_to_string_round_trip ws t v output
    (Hws : forall c, chr_0 <= c <= chr_9 \/ c = chr_minus -> ws c = false)
    (Ht : number_type t) (Hv : Int.in_range t v) :
  exists s, IntToString t v = Some s /\ IteratorRangeToNumber ws t 10 s output = (true, v).
Proof.
  destruct (IntToString_text t v Ht Hv) as (ds & Hs & Hd & Hne & Hval & _).
  eexists. split; [exact Hs|]. by apply decimal_text_parsed.
Qed.

(** White space of the C locale. *)
Definition isspace (c : Z) : bool := (c =? 32) || ((9 <=? c) && (c <=? 13)).

Lemma int_to_string_round_trip_witness :
  exists s, IntToString Int.int32 (- 2 ^ 31) = Some s /\
    IteratorRangeToNumber isspace Int.int32 10 s 0 = (true, - 2 ^ 31).
Proof.
  apply int_to_string_round_trip.
  - intros c H. unfold isspace, chr_0, chr_9, chr_minus in *.
    destruct (Z.eqb_spec c 32), (Z.leb_spec 9 c), (Z.leb_spec c 13); cbn; lia.
  - left. reflexivity.
  - vm_compute. split; congruence.
Defined.

(** *** Hexadecimal bytes: every byte is checked. *)
Definition hex_byte_ok (x : Z) : bool :=
  match HexEncode [x] with
  | [a; b] =>
      match CharToDigit 16 a, CharToDigit 16 b with
      | Some msb, Some lsb => Int.static_cast Int.uint8 (Z.lor (Z.shiftl msb 4) lsb) =? x
      | _, _ => false
      end
  | _ => false
  end.

Lemma all_bytes_ok : forallb (fun n => hex_byte_ok (Z.of_nat n)) (seq 0 256) = true.
Proof. vm_compute. reflexivity. Qed.

Lemma byte_ok x : Int.in_range Int.uint8 x -> hex_byte_ok x = true.
Proof.
  intros Hx. assert (H : 0 <= x < 256) by (Int.int_compute; lia).
  pose proof (proj1 (forallb_forall _ _) all_bytes_ok (Z.to_nat x)) as E. cbn beta in E.
  rewrite Z2Nat.id in E by lia. apply E, in_seq. lia.
Qed.

Lemma hex_round_trip bytes :
  bytes <> [] -> Forall (Int.in_range Int.uint8) bytes ->
  HexStringToBytes (HexEncode bytes) = (true, bytes).
Proof.
  intros Hne Hb.
  assert (Hlen : length (HexEncode bytes) = (2 * length bytes)%nat).
  { clear. induction bytes as [|x l IH]; [reflexivity|]. unfold HexEncode in *. cbn. cbn in IH. lia. }
  unfold HexStringToBytes. rewrite Hlen.
  destruct (Z.eqb_spec (Z.of_nat (2 * length bytes)) 0); [destruct bytes; [congruence|cbn in *; lia]|].
  rewrite (proj2 (Z.eqb_eq _ 0)) by lia. cbn [orb negb]. clear Hlen Hne n.
  induction Hb as [|x l Hx _ IH]; [reflexivity|].
  pose proof (byte_ok x Hx) as E. unfold hex_byte_ok in E.
  change (HexEncode (x :: l)) with (HexEncode [x] ++ HexEncode l).
  destruct (HexEncode [x]) as [|a [|b [|]]]; try discriminate. cbn [app hex_bytes].
  destruct (CharToDigit 16 a) as [msb|]; [|discriminate].
  destruct (CharToDigit 16 b) as [lsb|]; [|discriminate].
  apply Z.eqb_eq in E. rewrite IH, E. reflexivity.
Qed.
