(* ===== verification/Unicode.v ===== *)
(** * Unicode: UTF-8 and UTF-16

    The macros of [base/third_party/icu/icu_utf.h] and the decoder of
    [icu_utf.cc], the single character reader and writer of
    [base/strings/utf_string_conversion_utils.cc], the string conversions of
    [base/strings/utf_string_conversions.cc] for a platform whose [wchar_t] is
    UTF-16, and [IsStringASCII] and [IsStringUTF8] of [string_util.cc].

    A [char] is kept as its byte, 0 to 255, and converted to the signed type
    where the code converts it. Every access to a buffer is checked: [None] is
    an access outside of it. *)
From Stdlib Require Import ZArith Lia.
From stdpp Require Import base numbers option list.
From S2P Require Import Prelude.
Local Open Scope Z_scope.

#[local] Ltac Zify.zify_post_hook ::= Z.to_euclidean_division_equations.

(** ** Buffers *)

Definition char_at (s : list Z) (i : Z) : option Z :=
  if 0 <=? i then s !! Z.to_nat i else None.

(** ** Code points *)

Definition CBU_SENTINEL : Z := -1.

Definition CBU_IS_UNICODE_NONCHAR (c : Z) : bool :=
  (0xfdd0 <=? c) &&
  ((Int.static_cast Int.uint32 c <=? 0xfdef) || (Z.land c 0xfffe =? 0xfffe)) &&
  (Int.static_cast Int.uint32 c <=? 0x10ffff).

Definition CBU_IS_SURROGATE (c : Z) : bool := Z.land c 0xfffff800 =? 0xd800.

Definition CBU_IS_SURROGATE_LEAD (c : Z) : bool := Z.land c 0x400 =? 0.

Definition IsValidCodepoint (code_point : Z) : bool :=
  let c := Int.static_cast Int.uint32 code_point in
  (c <? 0xD800) || ((0xE000 <=? c) && (c <=? 0x10FFFF)).

Definition IsValidCharacter (code_point : Z) : bool :=
  let c := Int.static_cast Int.uint32 code_point in
  (c <? 0xD800) || ((0xE000 <=? c) && (c <? 0xFDD0)) ||
  ((0xFDEF <? c) && (c <=? 0x10FFFF) && negb (Z.land c 0xFFFE =? 0xFFFE)).

(** ** UTF-8 *)

(** The table [utf8_countTrailBytes], run by run. *)
Definition utf8_countTrailBytes : list Z :=
  replicate 192 0 ++ replicate 32 1 ++ replicate 16 2 ++ replicate 8 3 ++
  replicate 4 4 ++ replicate 2 5 ++ replicate 2 0.

Definition CBU8_COUNT_TRAIL_BYTES (leadByte : Z) : Z :=
  default 0 (utf8_countTrailBytes !! Z.to_nat (Int.static_cast Int.uint8 leadByte)).

Definition CBU8_MASK_LEAD_BYTE (leadByte countTrailBytes : Z) : Z :=
  Z.land leadByte (Z.shiftl 1 (6 - countTrailBytes) - 1).

Definition CBU8_IS_LEAD (c : Z) : bool := Int.static_cast Int.uint8 (c - 0xc0) <? 0x3e.

Definition CBU8_IS_TRAIL (c : Z) : bool := Z.land c 0xc0 =? 0x80.

Definition utf8_minLegal (count : Z) : Z :=
  default 0 ([0; 0x80; 0x800; 0x10000] !! Z.to_nat count).

Definition utf8_errorValue (n : Z) : Z :=
  default 0 ([0x15; 0x9f; 0xffff; 0x10ffff; 0x3ffffff; 0x7fffffff] !! Z.to_nat n).

(** One [case] of the switch of the decoder that falls through to the next:
    it takes a trail byte into [c] and records whether it was one. *)
Definition take_trail (s : list Z) (st : Z * Z * Z) : option (Z * Z * Z) :=
  let '(i, c, illegal) := st in
  trail ← char_at s i;
  Some (i + 1, Z.lor (Z.shiftl c 6) (Z.land trail 0x3f),
        Z.lor illegal (Z.lxor (Z.land trail 0xc0) 0x80)).

(** The switch: the new position, code point and [illegal]. *)
Definition take_trails (s : list Z) (i c count : Z) : option (Z * Z * Z) :=
  match count with
  | 3 => '(i, c, illegal) ← take_trail s (i, c, 0);
         if c <? 0x110
         then st ← take_trail s (i, c, illegal); take_trail s st
         else Some (i, c, 1)
  | 2 => st ← take_trail s (i, c, 0); take_trail s st
  | 1 => take_trail s (i, c, 0)
  | _ => Some (i, c, 1)
  end.

(** [while(count>0 && CBU8_IS_TRAIL(s[i])) { ++i; --count; }] *)
Fixpoint skip_trails (s : list Z) (i : Z) (count : nat) : option (Z * nat) :=
  match count with
  | O => Some (i, O)
  | S n => trail ← char_at s i;
           if CBU8_IS_TRAIL trail then skip_trails s (i + 1) n else Some (i, count)
  end.

(** [while(i<length && CBU8_IS_TRAIL(s[i])) ++i;], which makes at most
    [length - i] turns. *)
Fixpoint skip_to_length (fuel : nat) (s : list Z) (i length : Z) : option Z :=
  match fuel with
  | O => Some i
  | S fuel =>
      if i <? length
      then trail ← char_at s i;
           if CBU8_IS_TRAIL trail then skip_to_length fuel s (i + 1) length else Some i
      else Some i
  end.

Definition utf8_nextCharSafeBody (s : list Z) (pi length c strict : Z) : option (Z * Z) :=
  let count := CBU8_COUNT_TRAIL_BYTES c in
  if pi + count <=? length then
    let c := CBU8_MASK_LEAD_BYTE c count in
    if count =? 0 then Some (pi, if 0 <=? strict then 0x15 else CBU_SENTINEL) else
    '(i, c, illegal) ← take_trails s pi c count;
    if negb (illegal =? 0) || (c <? utf8_minLegal count) ||
       (CBU_IS_SURROGATE c && negb (strict =? -2)) then
      '(i, rest) ← skip_trails s pi (Z.to_nat count);
      Some (i, if 0 <=? strict then utf8_errorValue (count - Z.of_nat rest) else CBU_SENTINEL)
    else if (0 <? strict) && CBU_IS_UNICODE_NONCHAR c then Some (i, utf8_errorValue count)
    else Some (i, c)
  else
    i ← skip_to_length (Z.to_nat (length - pi)) s pi length;
    Some (i, if 0 <=? strict then utf8_errorValue (i - pi) else CBU_SENTINEL).

(** The new position and the code point, negative on an error. *)
Definition CBU8_NEXT (s : list Z) (i length : Z) : option (Z * Z) :=
  byte ← char_at s i;
  let c := Int.static_cast Int.int8 byte in
  let i := i + 1 in
  if 0x80 <=? Int.static_cast Int.uint8 c
  then if CBU8_IS_LEAD c then utf8_nextCharSafeBody s i length c (-1)
       else Some (i, CBU_SENTINEL)
  else Some (i, c).

(** The bytes that [CBU8_APPEND_UNSAFE] writes. *)
Definition CBU8_APPEND_UNSAFE (c : Z) : list Z :=
  let u := Int.static_cast Int.uint32 c in
  let byte x := Int.static_cast Int.uint8 x in
  let middle x := byte (Z.lor (Z.land x 0x3f) 0x80) in
  if u <=? 0x7f then [byte c]
  else
    (if u <=? 0x7ff then [byte (Z.lor (Z.shiftr c 6) 0xc0)]
     else (if u <=? 0xffff then [byte (Z.lor (Z.shiftr c 12) 0xe0)]
           else [byte (Z.lor (Z.shiftr c 18) 0xf0); middle (Z.shiftr c 12)]) ++
          [middle (Z.shiftr c 6)]) ++
    [middle c].

(** ** UTF-16 *)

Definition CBU16_IS_TRAIL (c : Z) : bool := Z.land c 0xfffffc00 =? 0xdc00.

Definition CBU16_SURROGATE_OFFSET : Z := Z.shiftl 0xd800 10 + 0xdc00 - 0x10000.

Definition CBU16_GET_SUPPLEMENTARY (lead trail : Z) : Z :=
  Z.shiftl lead 10 + trail - CBU16_SURROGATE_OFFSET.

Definition CBU16_LENGTH (c : Z) : Z :=
  if Int.static_cast Int.uint32 c <=? 0xffff then 1 else 2.

(** The code units that [CBU16_APPEND_UNSAFE] writes. *)
Definition CBU16_APPEND_UNSAFE (c : Z) : list Z :=
  let unit x := Int.static_cast Int.uint16 x in
  if Int.static_cast Int.uint32 c <=? 0xffff then [unit c]
  else [unit (Z.shiftr c 10 + 0xd7c0); unit (Z.lor (Z.land c 0x3ff) 0xdc00)].

(** ** One character

    The reader leaves the index on the last unit it took, so that the [++i] of
    a loop goes to the next character. The code point is [Some] when the
    function returns true. *)

Definition ReadUnicodeCharacter (src : list Z) (src_len char_index : Z) : option (Z * option Z) :=
  '(i, code_point) ← CBU8_NEXT src char_index src_len;
  Some (i - 1, if IsValidCodepoint code_point
               then Some (Int.static_cast Int.uint32 code_point) else None).

Definition ReadUnicodeCharacter16 (src : list Z) (src_len char_index : Z)
    : option (Z * option Z) :=
  lead ← char_at src char_index;
  let checked i c := Some (i, if IsValidCodepoint c then Some c else None) in
  if CBU_IS_SURROGATE lead then
    if negb (CBU_IS_SURROGATE_LEAD lead) || (src_len <=? char_index + 1)
    then Some (char_index, None)
    else
      trail ← char_at src (char_index + 1);
      if CBU16_IS_TRAIL trail
      then checked (char_index + 1) (CBU16_GET_SUPPLEMENTARY lead trail)
      else Some (char_index, None)
  else checked char_index lead.

Definition WriteUnicodeCharacter (code_point : Z) (output : list Z) : Z * list Z :=
  if code_point <=? 0x7f
  then (1, output ++ [Int.static_cast Int.uint8 code_point])
  else
    let output' := output ++ CBU8_APPEND_UNSAFE code_point in
    (Z.of_nat (length output') - Z.of_nat (length output), output').

Definition WriteUnicodeCharacter16 (code_point : Z) (output : list Z) : Z * list Z :=
  if CBU16_LENGTH code_point =? 1
  then (1, output ++ [Int.static_cast Int.uint16 code_point])
  else (2, output ++ CBU16_APPEND_UNSAFE code_point).

(** ** Strings *)

Section ConvertUnicode.
Context (Read : list Z -> Z -> Z -> option (Z * option Z)).
Context (Write : Z -> list Z -> Z * list Z).

(** The loop over [i], which makes at most [src_len32 - i] turns. *)
Fixpoint ConvertUnicode_loop (fuel : nat) (src : list Z) (src_len32 i : Z) (success : bool)
    (output : list Z) : option (bool * list Z) :=
  match fuel with
  | O => Some (success, output)
  | S fuel =>
      if i <? src_len32 then
        '(i, code_point) ← Read src src_len32 i;
        match code_point with
        | Some c => ConvertUnicode_loop fuel src src_len32 (i + 1) success (Write c output).2
        | None => ConvertUnicode_loop fuel src src_len32 (i + 1) false (Write 0xFFFD output).2
        end
      else Some (success, output)
  end.

Definition ConvertUnicode (src : list Z) (output : list Z) : option (bool * list Z) :=
  let src_len32 := Int.static_cast Int.int32 (Z.of_nat (length src)) in
  ConvertUnicode_loop (Z.to_nat src_len32) src src_len32 0 true output.
End ConvertUnicode.

(** [DoIsStringASCII] on machine words of [W] bytes, for a string of characters
    of type [Char] at address [addr]. *)
Section IsStringASCII.
Context (W : Z) (Char : Int.type).

Definition NonASCIIMask : Z :=
  match W, Int.size Char with
  | 4, 2 => 0xFF80FF80
  | 4, 1 => 0x80808080
  | 8, 2 => 0xFF80FF80FF80FF80
  | 8, 1 => 0x8080808080808080
  | _, _ => 0
  end.

Definition IsAlignedToMachineWord (pointer : Z) : bool := Z.land pointer (W - 1) =? 0.

Definition AlignToMachineWord (pointer : Z) : Z := Z.land pointer (Z.lnot (W - 1)).

(** [all_char_bits |= *characters] *)
Definition or_char (all_char_bits c : Z) : Z :=
  Z.lor all_char_bits (Int.static_cast (Int.Type_ W false) (Int.static_cast Char c)).

Fixpoint ascii_prologue (addr : Z) (s : list Z) (bits : Z) : Z * list Z * Z :=
  match s with
  | c :: s' => if IsAlignedToMachineWord addr then (addr, s, bits)
               else ascii_prologue (addr + Int.size Char) s' (or_char bits c)
  | [] => (addr, s, bits)
  end.

(** The little-endian word made of the characters [s]. *)
Fixpoint load_word (s : list Z) : Z :=
  match s with
  | [] => 0
  | c :: s => Z.lor c (Z.shiftl (load_word s) (Int.bits Char))
  end.

Definition loop_increment : nat := Z.to_nat (W / Int.size Char).

(** The loop over words: [fuel] bounds its turns, each of which takes a
    character at least. *)
Fixpoint ascii_words (fuel : nat) (addr word_end : Z) (s : list Z) (bits : Z)
    : option (list Z * Z) :=
  match fuel with
  | O => Some (s, bits)
  | S fuel =>
      if addr <? word_end then
        guard (loop_increment <= length s)%nat;;
        ascii_words fuel (addr + W) word_end (drop loop_increment s)
          (Z.lor bits (load_word (take loop_increment s)))
      else Some (s, bits)
  end.

Definition DoIsStringASCII (addr : Z) (s : list Z) : option bool :=
  let word_end := AlignToMachineWord (addr + Z.of_nat (length s) * Int.size Char) in
  let '(addr, s, bits) := ascii_prologue addr s 0 in
  '(s, bits) ← ascii_words (length s) addr word_end s bits;
  Some (Z.land (foldl or_char bits s) NonASCIIMask =? 0).
End IsStringASCII.

(** [IsStringUTF8] makes at most one turn per byte. *)
Fixpoint IsStringUTF8_loop (fuel : nat) (src : list Z) (src_len char_index : Z) : option bool :=
  match fuel with
  | O => Some true
  | S fuel =>
      if char_index <? src_len then
        '(char_index, code_point) ← CBU8_NEXT src char_index src_len;
        if IsValidCharacter code_point then IsStringUTF8_loop fuel src src_len char_index
        else Some false
      else Some true
  end.

Definition IsStringUTF8 (str : list Z) : option bool :=
  let src_len := Int.static_cast Int.int32 (Z.of_nat (length str)) in
  IsStringUTF8_loop (Z.to_nat src_len) str src_len 0.

(** The conversions on strings at address [addr] of a machine with words of [W]
    bytes; on Windows [wchar_t] is a UTF-16 unit. *)
Section Conversions.
Context (W addr : Z).

Definition UTF8ToUTF16 (utf8 : list Z) : option (list Z) :=
  match DoIsStringASCII W Int.int8 addr utf8 with
  | None => None
  | Some true => Some utf8
  | Some false => option_map snd (ConvertUnicode ReadUnicodeCharacter WriteUnicodeCharacter16 utf8 [])
  end.

Definition UTF16ToUTF8 (utf16 : list Z) : option (list Z) :=
  match DoIsStringASCII W Int.uint16 addr utf16 with
  | None => None
  | Some true => Some (map (Int.static_cast Int.uint8) utf16)
  | Some false => option_map snd (ConvertUnicode ReadUnicodeCharacter16 WriteUnicodeCharacter utf16 [])
  end.
End Conversions.

(** * Lemmas *)

(** ** Bytes *)

Definition is_byte (b : Z) : Prop := 0 <= b <= 255.

(** A decidable fact about all bytes is checked by enumeration. *)
Lemma byte_forall (P : Z -> bool) b :
  forallb (fun n => P (Z.of_nat n)) (seq 0 256) = true -> is_byte b -> P b = true.
Proof.
  rewrite forallb_forall. intros H Hb.
  specialize (H (Z.to_nat b)). rewrite Z2Nat.id in H by (destruct Hb; lia).
  apply H, in_seq. destruct Hb. lia.
Qed.

Lemma char_at_Some s i b : char_at s i = Some b -> 0 <= i < Z.of_nat (length s).
Proof.
  unfold char_at. destruct (Z.leb_spec 0 i); [|done].
  intros Hi%lookup_lt_Some. lia.
Qed.

Lemma char_at_is_Some s i : 0 <= i < Z.of_nat (length s) -> is_Some (char_at s i).
Proof.
  unfold char_at. intros [H H']. rewrite (proj2 (Z.leb_le 0 i) H).
  apply lookup_lt_is_Some. lia.
Qed.

Lemma char_at_byte s i b : Forall is_byte s -> char_at s i = Some b -> is_byte b.
Proof.
  unfold char_at. intros Hs. destruct (0 <=? i); [|done].
  by apply Forall_lookup_1.
Qed.

(** ** The decoder in arithmetic *)

Definition scalar (c : Z) : Prop := 0 <= c < 0xD800 \/ 0xE000 <= c <= 0x10FFFF.
#[export] Instance scalar_dec c : Decision (scalar c).
Proof. unfold scalar. apply _. Defined.

Definition trail_byte (b : Z) : bool := (128 <=? b) && (b <? 192).

Definition trail_count (b : Z) : Z :=
  if b <? 192 then 0 else if b <? 224 then 1 else if b <? 240 then 2 else
  if b <? 248 then 3 else if b <? 252 then 4 else if b <? 254 then 5 else 0.

Ltac by_bytes :=
  intros; apply Z.eqb_eq;
  match goal with
  | H : is_byte ?b |- ?P = true =>
      let P' := eval pattern b in P in
      match P' with ?F _ => exact (byte_forall F b eq_refl H) end
  end.

Lemma uint8_of_char b : is_byte b -> Int.static_cast Int.uint8 (Int.static_cast Int.int8 b) = b.
Proof. by_bytes. Qed.

Lemma count_of_char b :
  is_byte b -> CBU8_COUNT_TRAIL_BYTES (Int.static_cast Int.int8 b) = trail_count b.
Proof. by_bytes. Qed.

Lemma lead_of_char b :
  is_byte b -> CBU8_IS_LEAD (Int.static_cast Int.int8 b) = (192 <=? b) && (b <? 254).
Proof.
  intros H. apply eqb_prop.
  exact (byte_forall (fun b => eqb (CBU8_IS_LEAD (Int.static_cast Int.int8 b))
    ((192 <=? b) && (b <? 254))) b eq_refl H).
Qed.

Lemma trail_of_byte b : is_byte b -> CBU8_IS_TRAIL b = trail_byte b.
Proof.
  intros H. apply eqb_prop.
  exact (byte_forall (fun b => eqb (CBU8_IS_TRAIL b) (trail_byte b)) b eq_refl H).
Qed.

Lemma illegal_of_byte b :
  is_byte b -> (Z.lxor (Z.land b 0xc0) 0x80 =? 0) = trail_byte b.
Proof.
  intros H. apply eqb_prop.
  exact (byte_forall (fun b => eqb (Z.lxor (Z.land b 0xc0) 0x80 =? 0) (trail_byte b)) b eq_refl H).
Qed.

Definition lead_bits (b : Z) : Z := b mod 2 ^ (6 - trail_count b).

Lemma mask_of_char b : is_byte b ->
  CBU8_MASK_LEAD_BYTE (Int.static_cast Int.int8 b) (trail_count b) = lead_bits b.
Proof. by_bytes. Qed.

Lemma land_ones_6 x : Z.land x 0x3f = x mod 64.
Proof. exact (Z.land_ones x 6 ltac:(lia)). Qed.

Lemma shift_in c t : Z.lor (Z.shiftl c 6) (Z.land t 0x3f) = c * 64 + t mod 64.
Proof.
  rewrite land_ones_6, Z.shiftl_mul_pow2 by lia. apply (lor_disjoint 6); lia.
Qed.

(** Masks that keep the high bits of a number of [w] bits. *)
Lemma high_bit w c n : 0 <= w <= n -> 0 <= c < 2 ^ w -> Z.testbit c n = false.
Proof.
  intros Hn Hc. rewrite <- (Z.mod_small c (2 ^ w)) by done. apply Z.mod_pow2_bits_high. lia.
Qed.

Lemma land_high w k c :
  0 <= k <= w -> 0 <= c < 2 ^ w -> Z.land c (Z.shiftl (Z.ones (w - k)) k) = c / 2 ^ k * 2 ^ k.
Proof.
  intros Hk Hc. rewrite <- Z.shiftr_div_pow2, <- Z.shiftl_mul_pow2 by lia.
  apply Z.bits_inj'. intros n Hn. rewrite Z.land_spec, !Z.shiftl_spec by done.
  destruct (Z.ltb_spec n k) as [Hlt | Hge].
  { rewrite !(Z.testbit_neg_r _ (n - k)) by lia. apply andb_false_r. }
  rewrite Z.shiftr_spec by lia. replace (n - k + k) with n by lia.
  destruct (Z.ltb_spec n w).
  - rewrite Z.ones_spec_low by lia. apply andb_true_r.
  - rewrite Z.ones_spec_high, andb_false_r by lia. symmetry. apply (high_bit w); lia.
Qed.

Lemma surrogate_exact c : 0 <= c < 2 ^ 32 -> CBU_IS_SURROGATE c = (0xD800 <=? c) && (c <=? 0xDFFF).
Proof.
  intros Hc. unfold CBU_IS_SURROGATE. change 0xfffff800 with (Z.shiftl (Z.ones (32 - 11)) 11).
  rewrite (land_high 32) by lia. change (2 ^ 11) with 2048. cmp_lia.
Qed.

(** ** A reference decoder on lists *)

(** The code point made of the bits [lead] and of the trail bytes [ts], if it is
    a scalar value that needs as many bytes. *)
Definition assemble (least lead : Z) (ts : list Z) : option (Z * Z) :=
  let c := foldl (fun c t => c * 64 + t mod 64) lead ts in
  if forallb trail_byte ts && (least <=? c) && bool_decide (scalar c)
  then Some (c, 1 + Z.of_nat (length ts)) else None.

Definition ref_next (u : list Z) : option (Z * Z) :=
  match u with
  | [] => None
  | b :: u =>
      if b <? 128 then Some (b, 1)
      else match trail_count b, u with
           | 1, t1 :: _ => assemble 0x80 (lead_bits b) [t1]
           | 2, t1 :: t2 :: _ => assemble 0x800 (lead_bits b) [t1; t2]
           | 3, t1 :: t2 :: t3 :: _ => assemble 0x10000 (lead_bits b) [t1; t2; t3]
           | _, _ => None
           end
  end.

Lemma skip_trails_ok s pi count :
  0 <= pi -> pi + Z.of_nat count <= Z.of_nat (length s) ->
  exists i r, skip_trails s pi count = Some (i, r) /\ pi <= i <= pi + Z.of_nat count.
Proof.
  revert pi. induction count as [|n IH]; intros pi H0 H; simpl; [exists pi, O; split; [done|lia]|].
  destruct (char_at_is_Some s pi) as [t ->]; [lia|]. simpl.
  destruct (CBU8_IS_TRAIL t); [|exists pi, (S n); split; [done|lia]].
  destruct (IH (pi + 1)) as (i & r & -> & Hi); [lia..|]. exists i, r. split; [done|lia].
Qed.

Lemma skip_to_length_ok fuel s i length :
  0 <= i -> i <= length <= Z.of_nat (List.length s) ->
  exists i', skip_to_length fuel s i length = Some i' /\ i <= i' <= length.
Proof.
  revert i. induction fuel as [|n IH]; intros i H0 H; simpl; [eauto with lia|].
  destruct (Z.ltb_spec i length); [|eauto with lia].
  destruct (char_at_is_Some s i) as [t ->]; [lia|]. simpl.
  destruct (CBU8_IS_TRAIL t); [|eauto with lia].
  destruct (IH (i + 1)) as (i' & -> & Hi); [lia..|]. eauto with lia.
Qed.

Lemma take_trail_byte s i c illegal t :
  char_at s i = Some t ->
  take_trail s (i, c, illegal) =
    Some (i + 1, c * 64 + t mod 64, Z.lor illegal (Z.lxor (Z.land t 0xc0) 0x80)).
Proof. intros H. unfold take_trail. rewrite H. simpl. by rewrite shift_in. Qed.

(** The decoder after its switch, once the trail bytes are known. *)
Definition finish (s : list Z) (pi count i c : Z) (legal : bool) : option (Z * Z) :=
  if legal && (utf8_minLegal count <=? c) && negb (CBU_IS_SURROGATE c) then Some (i, c)
  else '(i, _) ← skip_trails s pi (Z.to_nat count); Some (i, CBU_SENTINEL).

Lemma finish_ok s pi count i c legal :
  0 <= pi -> 0 <= count -> pi + count <= Z.of_nat (length s) ->
  if legal && (utf8_minLegal count <=? c) && negb (CBU_IS_SURROGATE c)
  then finish s pi count i c legal = Some (i, c)
  else exists i', finish s pi count i c legal = Some (i', -1) /\ pi <= i' <= pi + count.
Proof.
  intros H0 H1 H2. unfold finish. destruct (_ && _ && _); [done|].
  destruct (skip_trails_ok s pi (Z.to_nat count)) as (i' & r & -> & Hi); [lia..|].
  exists i'. split; [done|lia].
Qed.

Lemma lor_zero_iff a b : (Z.lor a b =? 0) = (a =? 0) && (b =? 0).
Proof.
  apply eq_iff_eq_true. rewrite andb_true_iff, !Z.eqb_eq. apply Z.lor_eq_0_iff.
Qed.

Lemma body_finish s pi length b :
  is_byte b -> 192 <= b < 254 ->
  utf8_nextCharSafeBody s pi length (Int.static_cast Int.int8 b) (-1) =
  (let n := trail_count b in
   if pi + n <=? length then
     '(i, c, illegal) ← take_trails s pi (lead_bits b) n;
     finish s pi n i c (illegal =? 0)
   else i ← skip_to_length (Z.to_nat (length - pi)) s pi length; Some (i, -1)).
Proof.
  intros Hb Hr. unfold utf8_nextCharSafeBody. rewrite count_of_char, mask_of_char by done.
  destruct (Z.leb_spec (pi + trail_count b) length); [|done].
  destruct (Z.eqb_spec (trail_count b) 0) as [E|_].
  { exfalso. unfold trail_count in E. revert E. cmp_lia. }
  destruct (take_trails _ _ _ _) as [[[i c] illegal]|]; [|done]. simpl.
  unfold finish. rewrite andb_true_r.
  replace (utf8_minLegal (trail_count b) <=? c)
    with (negb (c <? utf8_minLegal (trail_count b))) by (rewrite Z.ltb_antisym; apply negb_involutive).
  destruct (illegal =? 0), (c <? _), (CBU_IS_SURROGATE c); reflexivity.
Qed.

Definition window (s : list Z) (i length : Z) : list Z :=
  take (Z.to_nat (length - i)) (drop (Z.to_nat i) s).

Lemma window_length s i length :
  0 <= i <= length -> length <= Z.of_nat (List.length s) ->
  Z.of_nat (List.length (window s i length)) = length - i.
Proof. intros. unfold window. rewrite length_take, length_drop. lia. Qed.

Lemma window_char s i length (k : nat) t :
  0 <= i -> window s i length !! k = Some t -> char_at s (i + Z.of_nat k) = Some t.
Proof.
  intros Hi H. unfold window, char_at in *. rewrite (proj2 (Z.leb_le _ _)) by lia.
  apply lookup_take_Some in H as [H _]. rewrite lookup_drop in H. rewrite <- H. f_equal. lia.
Qed.

Lemma window_byte s i length k t :
  Forall is_byte s -> window s i length !! k = Some t -> is_byte t.
Proof.
  intros Hs H. apply lookup_take_Some in H as [H _]. rewrite lookup_drop in H.
  by apply (Forall_lookup_1 _ _ _ _ Hs H).
Qed.

Definition decodes (r : option (Z * Z)) (i length : Z) (e : option (Z * Z)) : Prop :=
  match e with
  | Some (c, n) => r = Some (i + n, c)
  | None => exists i', r = Some (i', -1) /\ i < i' <= length
  end.

(** What the switch makes of a sequence whose bytes are all there. *)
Lemma sequence_exact s i length least lead ts :
  let n := Z.of_nat (List.length ts) in
  let c := foldl (fun c t => c * 64 + t mod 64) lead ts in
  0 <= i -> i + 1 + n <= length <= Z.of_nat (List.length s) ->
  utf8_minLegal n = least ->
  (forallb trail_byte ts = true -> 0 <= c <= 0x10FFFF) ->
  decodes (finish s (i + 1) n (i + 1 + n) c (forallb trail_byte ts)) i length
    (assemble least lead ts).
Proof.
  intros n c Hi Hl Hmin Hc. unfold assemble, decodes. fold c. fold n.
  pose proof (finish_ok s (i + 1) n (i + (1 + n)) c (forallb trail_byte ts)) as Hok.
  rewrite Hmin in Hok.
  assert (forallb trail_byte ts && (least <=? c) && bool_decide (scalar c) =
          forallb trail_byte ts && (least <=? c) && negb (CBU_IS_SURROGATE c)) as E.
  { destruct (forallb trail_byte ts); [|done]. simpl. f_equal. specialize (Hc eq_refl).
    rewrite surrogate_exact by lia. apply eq_iff_eq_true.
    rewrite bool_decide_eq_true, negb_true_iff, andb_false_iff, !Z.leb_gt.
    unfold scalar. lia. }
  rewrite E. destruct (_ && _ && _).
  - rewrite <- Z.add_assoc. apply Hok; lia.
  - destruct Hok as (i' & He & Hi'); [lia..|]. exists i'.
    replace (i + 1 + n) with (i + (1 + n)) by lia. split; [done|lia].
Qed.

Definition trail_at (s : list Z) (i : Z) (u : list Z) : Prop :=
  forall k t, u !! k = Some t -> char_at s (i + 1 + Z.of_nat k) = Some t /\ is_byte t.

Lemma trail_at_cons s i t u :
  trail_at s i (t :: u) ->
  (forall c illegal, take_trail s (i + 1, c, illegal) =
     Some (i + 1 + 1, c * 64 + t mod 64, Z.lor illegal (Z.lxor (Z.land t 0xc0) 0x80))) /\
  is_byte t /\ trail_at s (i + 1) u.
Proof.
  intros H. destruct (H O t eq_refl) as [Ht Hb]. rewrite Z.add_0_r in Ht.
  split_and!; [intros; by apply take_trail_byte | done |].
  intros k t' Hk. destruct (H (S k) t' Hk) as [E Hb']. split; [|done].
  rewrite <- E. f_equal. lia.
Qed.

(** The switch and what follows it, for a sequence that fits. *)
Definition run_switch (s : list Z) (pi b : Z) : option (Z * Z) :=
  '(i, c, illegal) ← take_trails s pi (lead_bits b) (trail_count b);
  finish s pi (trail_count b) i c (illegal =? 0).

Lemma lead_bits_range b n :
  trail_count b = n -> 0 <= n <= 5 -> 0 <= lead_bits b < 2 ^ (6 - n).
Proof. intros <- H. unfold lead_bits. apply Z.mod_pos_bound. lia. Qed.

Lemma switch_one s i length b t u :
  trail_at s i (t :: u) -> trail_count b = 1 -> 0 <= i -> i + 2 <= length ->
  length <= Z.of_nat (List.length s) ->
  decodes (run_switch s (i + 1) b) i length (assemble 0x80 (lead_bits b) [t]).
Proof.
  intros Hu Hn Hi Hl Hs. apply trail_at_cons in Hu as (Ht & Hb & _).
  unfold run_switch. rewrite Hn.
  change (take_trails s (i + 1) (lead_bits b) 1) with (take_trail s (i + 1, lead_bits b, 0)).
  rewrite Ht. cbn [mbind option_bind]. rewrite Z.lor_0_l.
  rewrite illegal_of_byte by done. pose proof (lead_bits_range b 1 Hn ltac:(lia)) as Hr.
  pose proof (sequence_exact s i length 0x80 (lead_bits b) [t]) as H.
  cbv zeta in H. simpl in H. rewrite andb_true_r in H.
  rewrite <- !Z.add_assoc in *. apply H; [done|lia|done|].
  simpl in Hr. lia.
Qed.

Lemma switch_two s i length b t1 t2 u :
  trail_at s i (t1 :: t2 :: u) -> trail_count b = 2 -> 0 <= i -> i + 3 <= length ->
  length <= Z.of_nat (List.length s) ->
  decodes (run_switch s (i + 1) b) i length (assemble 0x800 (lead_bits b) [t1; t2]).
Proof.
  intros Hu Hn Hi Hl Hs. apply trail_at_cons in Hu as (Ht & Hb & Hu).
  apply trail_at_cons in Hu as (Ht2 & Hb2 & _).
  unfold run_switch. rewrite Hn.
  change (take_trails s (i + 1) (lead_bits b) 2)
    with (st ← take_trail s (i + 1, lead_bits b, 0); take_trail s st).
  rewrite Ht. cbn [mbind option_bind]. rewrite Ht2. cbn [mbind option_bind]. rewrite Z.lor_0_l.
  rewrite lor_zero_iff, !illegal_of_byte by done.
  pose proof (lead_bits_range b 2 Hn ltac:(lia)) as Hr.
  pose proof (sequence_exact s i length 0x800 (lead_bits b) [t1; t2]) as H.
  cbv zeta in H. simpl in H. rewrite andb_true_r in H.
  rewrite <- !Z.add_assoc in *. apply H; [done|lia|done|].
  simpl in Hr. lia.
Qed.

Lemma switch_three s i length b t1 t2 t3 u :
  trail_at s i (t1 :: t2 :: t3 :: u) -> trail_count b = 3 -> 0 <= i -> i + 4 <= length ->
  length <= Z.of_nat (List.length s) ->
  decodes (run_switch s (i + 1) b) i length (assemble 0x10000 (lead_bits b) [t1; t2; t3]).
Proof.
  intros Hu Hn Hi Hl Hs. apply trail_at_cons in Hu as (Ht & Hb & Hu).
  apply trail_at_cons in Hu as (Ht2 & Hb2 & Hu). apply trail_at_cons in Hu as (Ht3 & Hb3 & _).
  unfold run_switch. rewrite Hn.
  change (take_trails s (i + 1) (lead_bits b) 3) with
    ('(i, c, illegal) ← take_trail s (i + 1, lead_bits b, 0);
     if c <? 0x110 then st ← take_trail s (i, c, illegal); take_trail s st
     else Some (i, c, 1)).
  rewrite Ht. cbn [mbind option_bind]. rewrite Z.lor_0_l.
  pose proof (lead_bits_range b 3 Hn ltac:(lia)) as Hr. simpl in Hr.
  destruct (Z.ltb_spec (lead_bits b * 64 + t1 mod 64) 0x110).
  - rewrite Ht2. cbn [mbind option_bind]. rewrite Ht3. cbn [mbind option_bind].
    rewrite !lor_zero_iff, !illegal_of_byte, <- andb_assoc by done.
    pose proof (sequence_exact s i length 0x10000 (lead_bits b) [t1; t2; t3]) as H'.
    cbv zeta in H'. simpl in H'. rewrite andb_true_r in H'.
    rewrite <- !Z.add_assoc in *. apply H'; [done|lia|done|lia].
  - simpl. unfold assemble, decodes. simpl foldl.
    rewrite (bool_decide_false (scalar _)) by (unfold scalar; lia). rewrite andb_false_r.
    destruct (finish_ok s (i + 1) 3 (i + 1 + 1) (lead_bits b * 64 + t1 mod 64) false)
      as (i' & E & Hi'); [lia..|]. exists i'. split; [exact E | lia].
Qed.

Lemma switch_long s i length b :
  3 < trail_count b -> 0 <= i -> i + 1 + trail_count b <= length ->
  length <= Z.of_nat (List.length s) ->
  decodes (run_switch s (i + 1) b) i length None.
Proof.
  intros Hn Hi Hl Hs. unfold run_switch.
  assert (take_trails s (i + 1) (lead_bits b) (trail_count b) =
          Some (i + 1, lead_bits b, 1)) as ->.
  { unfold take_trails. destruct (trail_count b) as [|[[]|[]|]|]; done || lia. }
  simpl. destruct (finish_ok s (i + 1) (trail_count b) (i + 1) (lead_bits b) false)
    as (i' & E & Hi'); [lia..|]. exists i'. split; [exact E | lia].
Qed.

(** The decoder agrees with the reference on every window of every string: it
    takes as many bytes, or reports an error further on in the window. *)
Lemma CBU8_NEXT_ref s i length :
  Forall is_byte s -> 0 <= i < length -> length <= Z.of_nat (List.length s) ->
  decodes (CBU8_NEXT s i length) i length (ref_next (window s i length)).
Proof.
  intros Hs Hi Hl.
  pose proof (window_length s i length ltac:(lia) ltac:(lia)) as Hlen.
  assert (forall k t, window s i length !! k = Some t ->
            char_at s (i + Z.of_nat k) = Some t /\ is_byte t) as Hw
    by (intros k t E; split; [eapply window_char | eapply window_byte]; eauto; lia).
  destruct (window s i length) as [|b u]; simpl List.length in Hlen; [lia|].
  destruct (Hw O b eq_refl) as [Hb Hbb]. rewrite Z.add_0_r in Hb.
  assert (trail_at s i u) as Hu.
  { intros k t E. destruct (Hw (S k) t E) as [E' ?]. split; [rewrite <- E'; f_equal; lia|done]. }
  unfold CBU8_NEXT. rewrite Hb. simpl mbind. rewrite uint8_of_char, lead_of_char by done.
  clear Hw Hb. unfold is_byte in Hbb. simpl ref_next. destruct (Z.ltb_spec b 128).
  { rewrite (proj2 (Z.leb_gt _ _)) by lia. simpl.
    rewrite Int.static_cast_id; [done..|]. Int.int_compute. lia. }
  rewrite (proj2 (Z.leb_le 0x80 b)) by lia.
  assert (192 <= b < 254 \/ b < 192 \/ 254 <= b) as [Hr | Hr] by lia; cycle 1.
  { rewrite (proj2 (andb_false_iff _ _)) by (rewrite Z.leb_gt, Z.ltb_ge; lia).
    unfold trail_count. cmp_lia; eexists; (split; [done|lia]). }
  rewrite (proj2 (andb_true_iff _ _)) by (rewrite Z.leb_le, Z.ltb_lt; lia).
  rewrite body_finish by (unfold is_byte; lia). cbv zeta. fold (run_switch s (i + 1) b).
  assert (1 <= trail_count b <= 5) as Hn by (unfold trail_count; cmp_lia).
  destruct (Z.leb_spec (i + 1 + trail_count b) length) as [Hfit | Hfit].
  - destruct (Z.ltb_spec 3 (trail_count b)) as [H3 | H3].
    { replace (match trail_count b with 1 => _ | _ => _ end) with (None : option (Z * Z))
        by (destruct (trail_count b) as [|[[]|[]|]|]; done || lia).
      apply switch_long; lia. }
    assert (trail_count b = 1 \/ trail_count b = 2 \/ trail_count b = 3) as Hc by lia.
    destruct Hc as [E | [E | E]], u as [|t1 [|t2 [|t3 u]]];
      simpl List.length in Hlen; rewrite E in *; try lia.
    1-3: by eapply switch_one; eauto with lia.
    1-2: by eapply switch_two; eauto with lia.
    by eapply switch_three; eauto with lia.
  - replace (match trail_count b with 1 => _ | _ => _ end) with (None : option (Z * Z)).
    2: { destruct (trail_count b) as [|[[]|[]|]|], u as [|? [|? [|]]]; try done; simpl in *; lia. }
    destruct (skip_to_length_ok (Z.to_nat (length - (i + 1))) s (i + 1) length)
      as (i' & -> & Hi'); [lia..|]. exists i'. split; [done|lia].
Qed.

(** ** The encoder in arithmetic *)

Definition encode (c : Z) : list Z := CBU8_APPEND_UNSAFE c.

Lemma uint8_small x : 0 <= x <= 255 -> Int.static_cast Int.uint8 x = x.
Proof. intros. apply Int.static_cast_id; [done|]. Int.int_compute. lia. Qed.

Lemma middle_byte x : Int.static_cast Int.uint8 (Z.lor (Z.land x 0x3f) 0x80) = 128 + x mod 64.
Proof.
  rewrite land_ones_6, Z.lor_comm. change 0x80 with (2 * 2 ^ 6).
  rewrite (lor_disjoint 6) by lia. apply uint8_small. lia.
Qed.

Lemma lead_byte x n k :
  0 <= n -> k * 2 ^ n <= 255 - 2 ^ n + 1 -> 0 <= k -> 0 <= x < 2 ^ n ->
  Int.static_cast Int.uint8 (Z.lor x (k * 2 ^ n)) = k * 2 ^ n + x.
Proof.
  intros. rewrite Z.lor_comm, lor_disjoint by lia. apply uint8_small. nia.
Qed.

Lemma encode_exact c :
  scalar c ->
  encode c =
    if c <=? 0x7f then [c] else
    if c <=? 0x7ff then [192 + c / 64; 128 + c mod 64] else
    if c <=? 0xffff then [224 + c / 4096; 128 + c / 64 mod 64; 128 + c mod 64] else
    [240 + c / 262144; 128 + c / 4096 mod 64; 128 + c / 64 mod 64; 128 + c mod 64].
Proof.
  intros Hc. unfold scalar in Hc. unfold encode, CBU8_APPEND_UNSAFE.
  rewrite (Int.static_cast_id Int.uint32) by (done || (Int.int_compute; lia)).
  rewrite !middle_byte, !Z.shiftr_div_pow2 by lia.
  destruct (Z.leb_spec c 0x7f); [by rewrite uint8_small by lia|].
  destruct (Z.leb_spec c 0x7ff); simpl app.
  { f_equal. apply (lead_byte (c / 64) 6 3); lia. }
  destruct (Z.leb_spec c 0xffff); simpl app; f_equal.
  - apply (lead_byte (c / 4096) 5 7); lia.
  - apply (lead_byte (c / 262144) 4 15); lia.
Qed.

Lemma encode_bytes c : scalar c -> Forall is_byte (encode c).
Proof.
  intros Hc. rewrite encode_exact by done. unfold scalar in Hc.
  cmp_lia; repeat constructor; lia.
Qed.

Lemma encode_length c : scalar c -> 1 <= Z.of_nat (length (encode c)) <= 4.
Proof. intros Hc. rewrite encode_exact by done. cmp_lia. Qed.

Lemma lead_bits_exact b :
  lead_bits b = if b <? 192 then b mod 64 else if b <? 224 then b mod 32 else
                if b <? 240 then b mod 16 else if b <? 248 then b mod 8 else
                if b <? 252 then b mod 4 else if b <? 254 then b mod 2 else b mod 64.
Proof. unfold lead_bits, trail_count. cmp_lia. Qed.

Lemma assemble_Some least lead ts c n :
  assemble least lead ts = Some (c, n) <->
  forallb trail_byte ts = true /\ c = foldl (fun c t => c * 64 + t mod 64) lead ts /\
  least <= c /\ scalar c /\ n = 1 + Z.of_nat (length ts).
Proof.
  unfold assemble. destruct (forallb trail_byte ts); [|naive_solver]. simpl.
  destruct (Z.leb_spec least (foldl (fun c t => c * 64 + t mod 64) lead ts)); simpl;
    [|split; [done | intros (_ & -> & ? & _); lia]].
  case_bool_decide; naive_solver.
Qed.

Lemma trail_bytes ts : forallb trail_byte ts = true <-> Forall (fun t => 128 <= t < 192) ts.
Proof.
  rewrite <- Is_true_true, forallb_True. apply Forall_iff. intros t.
  unfold trail_byte. rewrite Is_true_true, andb_true_iff, Z.leb_le, Z.ltb_lt. lia.
Qed.

Lemma ref_next_encode c rest :
  scalar c -> ref_next (encode c ++ rest) = Some (c, Z.of_nat (length (encode c))).
Proof.
  intros Hc. rewrite encode_exact by done. unfold scalar in Hc.
  destruct (Z.leb_spec c 0x7f); [|destruct (Z.leb_spec c 0x7ff); [|destruct (Z.leb_spec c 0xffff)]];
    simpl; [by rewrite (proj2 (Z.ltb_lt _ _)) by lia|..];
    rewrite (proj2 (Z.ltb_ge _ 128)) by lia;
    unfold trail_count; repeat (rewrite (proj2 (Z.ltb_ge _ _)) by lia);
    rewrite (proj2 (Z.ltb_lt _ _)) by lia; apply assemble_Some; rewrite trail_bytes;
    rewrite lead_bits_exact; repeat (rewrite (proj2 (Z.ltb_ge _ _)) by lia);
    rewrite (proj2 (Z.ltb_lt _ _)) by lia; simpl; unfold scalar;
    split_and!; try lia; repeat constructor; lia.
Qed.

Lemma sound_prefix c n l u :
  scalar c -> n = Z.of_nat (length l) -> encode c = l ->
  scalar c /\ n = Z.of_nat (length (encode c)) /\ encode c `prefix_of` l ++ u.
Proof. intros Hc -> ->. split_and!; [done..|]. by apply prefix_app_r. Qed.

Lemma ref_next_sound u c n :
  Forall is_byte u -> ref_next u = Some (c, n) ->
  scalar c /\ n = Z.of_nat (length (encode c)) /\ encode c `prefix_of` u.
Proof.
  destruct u as [|b u]; [done|]. intros [Hb Hu]%Forall_cons. unfold is_byte in Hb. simpl.
  destruct (Z.ltb_spec b 128).
  { intros [= <- <-]. assert (scalar b) by (unfold scalar; lia). split; [done|].
    rewrite encode_exact, (proj2 (Z.leb_le _ _)) by (done || lia).
    split; [done | by exists u]. }
  pose proof (lead_bits_exact b) as Hl. unfold trail_count.
  destruct (Z.ltb_spec b 192); [done|].
  destruct (Z.ltb_spec b 224); [|destruct (Z.ltb_spec b 240); [|destruct (Z.ltb_spec b 248)]].
  - destruct u as [|t1 u]; [done|]. rewrite assemble_Some, trail_bytes.
    intros (Ht & Hc & Hm & Hs & ->). simpl in Hc. repeat apply Forall_cons in Ht as [? Ht].
    apply (sound_prefix c _ [b; t1] u); [done..|].
    rewrite encode_exact by done. cmp_lia; repeat f_equal; lia.
  - destruct u as [|t1 [|t2 u]]; [done..|]. rewrite assemble_Some, trail_bytes.
    intros (Ht & Hc & Hm & Hs & ->). simpl in Hc. repeat apply Forall_cons in Ht as [? Ht].
    apply (sound_prefix c _ [b; t1; t2] u); [done..|].
    rewrite encode_exact by done. cmp_lia; repeat f_equal; lia.
  - destruct u as [|t1 [|t2 [|t3 u]]]; [done..|]. rewrite assemble_Some, trail_bytes.
    intros (Ht & Hc & Hm & Hs & ->). simpl in Hc. repeat apply Forall_cons in Ht as [? Ht].
    apply (sound_prefix c _ [b; t1; t2; t3] u); [done..|].
    rewrite encode_exact by done. unfold scalar in Hs. cmp_lia; repeat f_equal; lia.
  - destruct (Z.ltb_spec b 252), (Z.ltb_spec b 254); intros; done.
Qed.

Lemma CBU8_NEXT_encode s i length c rest :
  Forall is_byte s -> 0 <= i -> length <= Z.of_nat (List.length s) -> scalar c ->
  window s i length = encode c ++ rest ->
  CBU8_NEXT s i length = Some (i + Z.of_nat (List.length (encode c)), c).
Proof.
  intros Hs Hi Hl Hc Hw. assert (i < length) as Hlt.
  { destruct (Z.ltb_spec i length); [done|]. pose proof (encode_length c Hc) as He.
    apply (f_equal List.length) in Hw. unfold window in Hw.
    rewrite length_take, length_app in Hw. lia. }
  pose proof (CBU8_NEXT_ref s i length Hs ltac:(lia) Hl) as H.
  by rewrite Hw, ref_next_encode in H.
Qed.

Lemma window_bytes s i length : Forall is_byte s -> Forall is_byte (window s i length).
Proof. intros. by apply Forall_take, Forall_drop. Qed.

(** The decoder takes a byte at least and stays in the window. *)
Lemma CBU8_NEXT_total s i length :
  Forall is_byte s -> 0 <= i < length -> length <= Z.of_nat (List.length s) ->
  exists i' c, CBU8_NEXT s i length = Some (i', c) /\ i < i' <= length /\
    (c = -1 \/ scalar c /\ encode c `prefix_of` window s i length /\
               i' = i + Z.of_nat (List.length (encode c))).
Proof.
  intros Hs Hi Hl. pose proof (CBU8_NEXT_ref s i length Hs Hi Hl) as H.
  destruct (ref_next (window s i length)) as [[c n]|] eqn:E; simpl in H.
  - apply ref_next_sound in E as (Hc & -> & Hp); [|by apply window_bytes].
    exists (i + Z.of_nat (List.length (encode c))), c. split; [done|].
    pose proof (encode_length c Hc). apply prefix_length in Hp as Hpl.
    pose proof (window_length s i length). split; [lia|]. auto.
  - destruct H as (i' & -> & ?). eauto 10.
Qed.

(** ** UTF-16 in arithmetic *)

Definition encode16 (c : Z) : list Z := CBU16_APPEND_UNSAFE c.
Definition is_unit (u : Z) : Prop := 0 <= u <= 0xffff.

Lemma land_pow2 u n : 0 <= n -> Z.land u (2 ^ n) = if Z.testbit u n then 2 ^ n else 0.
Proof.
  intros Hn. apply Z.bits_inj'. intros k Hk. rewrite Z.land_spec, Z.pow2_bits_eqb by done.
  destruct (Z.eqb_spec n k) as [<- | Hne].
  - rewrite andb_true_r. destruct (Z.testbit u n); [by rewrite Z.pow2_bits_true | by rewrite Z.bits_0].
  - rewrite andb_false_r. destruct (Z.testbit u n); [|by rewrite Z.bits_0].
    by rewrite Z.pow2_bits_eqb, (proj2 (Z.eqb_neq _ _)).
Qed.

Lemma trail_unit u : is_unit u -> CBU16_IS_TRAIL u = (0xdc00 <=? u) && (u <=? 0xdfff).
Proof.
  unfold is_unit. intros Hu. unfold CBU16_IS_TRAIL.
  change 0xfffffc00 with (Z.shiftl (Z.ones (32 - 10)) 10).
  rewrite (land_high 32) by lia. change (2 ^ 10) with 1024. cmp_lia.
Qed.

Lemma lead_unit u : 0xd800 <= u <= 0xdfff -> CBU_IS_SURROGATE_LEAD u = (u <=? 0xdbff).
Proof.
  intros Hu. unfold CBU_IS_SURROGATE_LEAD. change 0x400 with (2 ^ 10).
  rewrite land_pow2. 2: lia.
  destruct (Z.testbit u 10) eqn:E; [apply Z.testbit_true in E | apply Z.testbit_false in E];
    try lia; change (2 ^ 10) with 1024 in *; cmp_lia.
Qed.

Lemma encode16_exact c :
  scalar c -> encode16 c = if c <=? 0xffff then [c] else [c / 1024 + 0xd7c0; 0xdc00 + c mod 1024].
Proof.
  intros Hc. unfold scalar in Hc. unfold encode16, CBU16_APPEND_UNSAFE.
  rewrite (Int.static_cast_id Int.uint32) by (done || (Int.int_compute; lia)).
  rewrite Z.shiftr_div_pow2 by lia. change (2 ^ 10) with 1024.
  change 0x3ff with (Z.ones 10). rewrite Z.land_ones by lia.
  rewrite Z.lor_comm. change 0xdc00 with (55 * 2 ^ 10) at 1. rewrite lor_disjoint by lia.
  destruct (Z.leb_spec c 0xffff); simpl;
    rewrite !(Int.static_cast_id Int.uint16); try done; Int.int_compute; lia.
Qed.

Lemma valid_codepoint c : 0 <= c <= Int.max Int.uint32 -> IsValidCodepoint c = bool_decide (scalar c).
Proof.
  intros Hc. unfold IsValidCodepoint. rewrite (Int.static_cast_id Int.uint32) by done.
  unfold scalar. apply eq_iff_eq_true. rewrite bool_decide_eq_true, orb_true_iff, andb_true_iff,
    Z.ltb_lt, !Z.leb_le. lia.
Qed.

Lemma supplementary_exact a b : CBU16_GET_SUPPLEMENTARY a b = a * 1024 + b - 0x35fdc00.
Proof.
  unfold CBU16_GET_SUPPLEMENTARY, CBU16_SURROGATE_OFFSET.
  rewrite !Z.shiftl_mul_pow2 by lia. lia.
Qed.

(** ** Encodings

    What the string conversions ask of an encoding: a reader and a writer of
    one character that agree on the units of every scalar value. *)

Class Encoding := {
  enc_read : list Z -> Z -> Z -> option (Z * option Z);
  enc_write : Z -> list Z -> Z * list Z;
  enc_unit : Z -> Prop;
  enc_units : Z -> list Z;
  enc_units_ok c : scalar c -> Forall enc_unit (enc_units c) /\ enc_units c <> [];
  enc_write_units c output : scalar c -> (enc_write c output).2 = output ++ enc_units c;
  enc_read_units s i length c rest :
    Forall enc_unit s -> 0 <= i -> length <= Z.of_nat (List.length s) -> scalar c ->
    window s i length = enc_units c ++ rest ->
    enc_read s length i = Some (i + Z.of_nat (List.length (enc_units c)) - 1, Some c);
  enc_read_total s i length :
    Forall enc_unit s -> 0 <= i < length -> length <= Z.of_nat (List.length s) ->
    exists i' r, enc_read s length i = Some (i', r) /\ i <= i' < length /\
                 (forall c, r = Some c -> scalar c)
}.

Definition text (E : Encoding) (cs : list Z) : list Z := concat (enc_units <$> cs).

Lemma scalar_valid c : scalar c -> IsValidCodepoint c = true /\ Int.static_cast Int.uint32 c = c.
Proof.
  intros Hc. unfold scalar in Hc. split.
  - rewrite valid_codepoint by (Int.int_compute; lia). by apply bool_decide_eq_true.
  - apply Int.static_cast_id; [done|]. Int.int_compute. lia.
Qed.

#[export, program] Instance UTF8 : Encoding := {
  enc_read := ReadUnicodeCharacter; enc_write := WriteUnicodeCharacter;
  enc_unit := is_byte; enc_units := encode }.
Next Obligation.
  intros c Hc. split; [by apply encode_bytes|]. pose proof (encode_length c Hc) as H.
  intros E. rewrite E in H. simpl in H. lia.
Qed.
Next Obligation.
  intros c output Hc. simpl. unfold WriteUnicodeCharacter.
  destruct (Z.leb_spec c 0x7f) as [H|H]; simpl; [|done].
  rewrite encode_exact, (proj2 (Z.leb_le _ _)) by done. unfold scalar in Hc.
  by rewrite uint8_small by lia.
Qed.
Next Obligation.
  intros s i length c rest Hs Hi Hl Hc Hw. unfold ReadUnicodeCharacter.
  rewrite (CBU8_NEXT_encode s i length c rest) by done. simpl.
  by destruct (scalar_valid c Hc) as [-> ->].
Qed.
Next Obligation.
  intros s i length Hs Hi Hl. unfold ReadUnicodeCharacter.
  destruct (CBU8_NEXT_total s i length Hs Hi Hl) as (i' & c & -> & Hi' & Hc). simpl.
  eexists _, _. split; [done|]. split; [lia|]. destruct Hc as [-> | [Hc _]].
  - done.
  - destruct (scalar_valid c Hc) as [-> ->]. by intros ? [= <-].
Qed.

Lemma encode16_units c : scalar c -> Forall is_unit (encode16 c).
Proof.
  intros Hc. rewrite encode16_exact by done. unfold scalar in Hc.
  cmp_lia; repeat constructor; lia.
Qed.

#[export, program] Instance UTF16 : Encoding := {
  enc_read := ReadUnicodeCharacter16; enc_write := WriteUnicodeCharacter16;
  enc_unit := is_unit; enc_units := encode16 }.
Next Obligation.
  intros c Hc. split; [by apply encode16_units|]. rewrite encode16_exact by done. by case_match.
Qed.
Next Obligation.
  intros c output Hc. simpl. unfold WriteUnicodeCharacter16, CBU16_LENGTH.
  destruct (scalar_valid c Hc) as [_ ->].
  destruct (Z.leb_spec c 0xffff) as [H|H]; simpl; [|done].
  rewrite encode16_exact, (proj2 (Z.leb_le _ _)) by done. unfold scalar in Hc.
  by rewrite Int.static_cast_id by (done || (Int.int_compute; lia)).
Qed.
Next Obligation.
  intros s i length c rest Hs Hi Hl Hc Hw. unfold ReadUnicodeCharacter16.
  pose proof (encode16_units c Hc) as Hu. pose proof (f_equal List.length Hw) as Hlen.
  rewrite length_app in Hlen. pose proof (fun k t => window_char s i length k t Hi) as Hat.
  rewrite Hw in Hat. rewrite encode16_exact in * by done. unfold scalar in Hc.
  assert (Z.of_nat (List.length (window s i length)) <= Z.max 0 (length - i)) as Hwl
    by (unfold window; rewrite length_take; lia).
  destruct (Z.leb_spec c 0xffff); simpl in *; pose proof (Hat O _ eq_refl) as H0;
    change (Z.of_nat 0) with 0 in H0; rewrite Z.add_0_r in H0; rewrite H0; simpl.
  - rewrite surrogate_exact by lia. rewrite (proj2 (andb_false_iff _ _)) by (rewrite !Z.leb_gt; lia).
    rewrite valid_codepoint, bool_decide_true by (unfold scalar; Int.int_compute; lia).
    repeat f_equal; lia.
  - rewrite surrogate_exact, lead_unit by lia.
    repeat rewrite (proj2 (Z.leb_le _ _)) by lia. simpl.
    rewrite (proj2 (Z.leb_gt _ _)) by lia. 
    change 1 with (Z.of_nat 1) at 2. rewrite (Hat 1%nat _ eq_refl). simpl.
    rewrite trail_unit by (unfold is_unit; lia).
    repeat rewrite (proj2 (Z.leb_le _ _)) by lia. simpl. rewrite supplementary_exact.
    rewrite valid_codepoint, bool_decide_true by (unfold scalar; Int.int_compute; lia).
    repeat f_equal; lia.
Qed.
Next Obligation.
  intros s i length Hs Hi Hl. unfold ReadUnicodeCharacter16.
  destruct (char_at_is_Some s i) as [u Hu]; [lia|]. rewrite Hu. simpl.
  assert (forall j t, char_at s j = Some t -> is_unit t) as Hunit.
  { unfold char_at. intros j t. destruct (0 <=? j); [|done]. by apply Forall_lookup_1. }
  pose proof (Hunit _ _ Hu) as Hr. unfold is_unit in Hr.
  assert (forall c j, 0 <= c <= 0x10ffff -> i <= j < length -> exists i' r,
    Some (j, if IsValidCodepoint c then Some c else None) = Some (i', r) /\
    i <= i' < length /\ (forall c, r = Some c -> scalar c)) as Hok.
  { intros c j Hc Hj. eexists _, _. split; [done|]. split; [done|].
    rewrite valid_codepoint by (Int.int_compute; lia). case_bool_decide; naive_solver. }
  destruct (CBU_IS_SURROGATE u) eqn:Hs'; [|apply Hok; lia].
  rewrite surrogate_exact, andb_true_iff, !Z.leb_le in Hs' by lia.
  rewrite lead_unit by lia. destruct (Z.leb_spec u 0xdbff); simpl;
    [|eexists _, None; split_and!; done || lia].
  destruct (Z.leb_spec length (i + 1)); [eexists _, None; split_and!; done || lia|].
  destruct (char_at_is_Some s (i + 1)) as [t Ht]; [lia|]. rewrite Ht. simpl.
  pose proof (Hunit _ _ Ht) as Htr. rewrite trail_unit by done. unfold is_unit in Htr.
  destruct (_ && _) eqn:E; [|eexists _, None; split_and!; done || lia].
  rewrite andb_true_iff, !Z.leb_le in E. apply Hok; [|lia]. rewrite supplementary_exact. lia.
Qed.

(** The code points that a loop over a string reads from index [i] on, with the
    replacement character for every error. *)
Fixpoint points (E : Encoding) (fuel : nat) (s : list Z) (length i : Z) : option (list Z) :=
  match fuel with
  | O => Some []
  | S fuel =>
      if i <? length then
        '(i, r) ← enc_read s length i;
        rest ← points E fuel s length (i + 1);
        Some (default 0xFFFD r :: rest)
      else Some []
  end.

Section Encoding.
Context (E : Encoding).

Lemma points_total fuel s length i :
  Forall enc_unit s -> 0 <= i -> length <= Z.of_nat (List.length s) ->
  exists cs, points E fuel s length i = Some cs /\ Forall scalar cs.
Proof.
  intros Hs. revert i. induction fuel as [|fuel IH]; intros i Hi Hl; simpl; [eauto|].
  destruct (Z.ltb_spec i length); [|eauto].
  destruct (enc_read_total s i length) as (i' & r & -> & Hi' & Hr); [done|lia|done|]. simpl.
  destruct (IH (i' + 1)) as (cs & -> & Hcs); [lia..|]. simpl. eexists. split; [done|].
  constructor; [|done]. destruct r as [c|]; simpl; [by apply Hr|]. unfold scalar. lia.
Qed.

Lemma text_cons c cs : text E (c :: cs) = enc_units c ++ text E cs.
Proof. done. Qed.

Lemma text_unit cs : Forall scalar cs -> Forall enc_unit (text E cs).
Proof.
  induction 1 as [|c cs Hc _ IH]; [constructor|]. apply Forall_app. split; [|done].
  by apply enc_units_ok.
Qed.

Lemma window_shift s i length n l rest :
  0 <= i -> window s i length = l ++ rest -> n = Z.of_nat (List.length l) ->
  window s (i + n) length = rest.
Proof.
  intros Hi Hw ->. unfold window in *.
  replace (Z.to_nat (i + Z.of_nat (List.length l))) with (Z.to_nat i + List.length l)%nat by lia.
  rewrite <- drop_drop.
  replace (Z.to_nat (length - (i + Z.of_nat (List.length l))))
    with (Z.to_nat (length - i) - List.length l)%nat by lia.
  by rewrite <- skipn_firstn_comm, Hw, drop_app_length.
Qed.

(** On a well-formed text the loop reads its code points. *)
Lemma points_text fuel s length i cs :
  Forall enc_unit s -> 0 <= i -> length <= Z.of_nat (List.length s) -> Forall scalar cs ->
  window s i length = text E cs -> (List.length (text E cs) <= fuel)%nat ->
  points E fuel s length i = Some cs.
Proof.
  intros Hs Hi Hl Hcs. revert fuel i Hi. induction Hcs as [|c cs Hc Hcs IH]; intros fuel i Hi Hw Hf.
  { destruct fuel; simpl; [done|]. destruct (Z.ltb_spec i length); [|done].
    pose proof (window_length s i length ltac:(lia) Hl). rewrite Hw in *. simpl in *. lia. }
  rewrite text_cons in Hw, Hf. rewrite length_app in Hf.
  destruct (enc_units_ok c Hc) as [_ Hne].
  assert (0 < List.length (enc_units c))%nat by (destruct (enc_units c); simpl; [done|lia]).
  destruct fuel as [|fuel]; [lia|]. simpl.
  assert (i < length) as Hlt.
  { destruct (Z.ltb_spec i length); [done|]. apply (f_equal List.length) in Hw.
    unfold window in Hw. rewrite length_take, length_app in Hw. lia. }
  rewrite (proj2 (Z.ltb_lt _ _)) by done.
  rewrite (enc_read_units s i length c _ Hs Hi Hl Hc Hw). simpl.
  rewrite Z.sub_add, IH; [done | lia | | lia].
  by eapply window_shift.
Qed.
End Encoding.

Section Convert.
Context (Src Dst : Encoding).

Lemma convert_points fuel s length i success output cs :
  points Src fuel s length i = Some cs -> Forall scalar cs ->
  exists success', ConvertUnicode_loop (@enc_read Src) (@enc_write Dst) fuel s length i success output
                     = Some (success', output ++ text Dst cs).
Proof.
  revert i success output cs. induction fuel as [|fuel IH]; intros i success output cs; simpl.
  { intros [= <-] _. rewrite app_nil_r. eauto. }
  destruct (i <? length); [|intros [= <-] _; rewrite app_nil_r; eauto].
  destruct (enc_read s length i) as [[i' r]|]; [|done]. simpl.
  destruct (points Src fuel s length (i' + 1)) as [cs'|] eqn:Hp; [|done]. simpl.
  intros [= <-] [Hc Hcs]%Forall_cons.
  destruct r as [c|]; simpl in Hc; rewrite (enc_write_units _ _ Hc);
    edestruct IH as [? ->]; [exact Hp | done | | exact Hp | done |];
    rewrite <- app_assoc; unfold text; simpl; eauto.
Qed.
End Convert.

Definition small (s : list Z) : Prop := Z.of_nat (length s) <= Int.max Int.int32.

Definition code_points (E : Encoding) (s : list Z) : list Z :=
  default [] (points E (length s) s (Z.of_nat (length s)) 0).

Lemma window_all s : window s 0 (Z.of_nat (length s)) = s.
Proof. unfold window. simpl. rewrite drop_0. apply take_ge. lia. Qed.

Lemma small_length s : small s -> Int.static_cast Int.int32 (Z.of_nat (length s)) = Z.of_nat (length s).
Proof.
  unfold small. intros H. apply Int.static_cast_id; [done|]. split; [|done].
  Int.int_compute. lia.
Qed.

Lemma code_points_ok E s :
  Forall enc_unit s ->
  points E (length s) s (Z.of_nat (length s)) 0 = Some (code_points E s) /\
  Forall scalar (code_points E s).
Proof.
  intros Hs. unfold code_points.
  destruct (points_total E (length s) s (Z.of_nat (length s)) 0 Hs) as (cs & -> & ?); [lia..|done].
Qed.

Lemma code_points_text E cs : Forall scalar cs -> code_points E (text E cs) = cs.
Proof.
  intros Hcs. unfold code_points. erewrite (points_text E _ _ _ _ cs); try done.
  - by apply text_unit.
  - by rewrite window_all.
Qed.

Lemma convert_exact Src Dst s :
  Forall (@enc_unit Src) s -> small s ->
  exists success, ConvertUnicode (@enc_read Src) (@enc_write Dst) s [] =
                  Some (success, text Dst (code_points Src s)).
Proof.
  intros Hs Hsm. unfold ConvertUnicode. rewrite small_length, Nat2Z.id by done.
  destruct (code_points_ok Src s Hs) as [Hp Hc].
  destruct (convert_points Src Dst _ _ _ _ true [] _ Hp Hc) as [b ->]. eauto.
Qed.

(** ** [IsStringASCII] *)

Definition char_ok (Char : Int.type) (c : Z) : Prop := 0 <= c < 2 ^ Int.bits Char.

(** The mask, character by character. *)
Definition char_mask (Char : Int.type) : Z := 2 ^ Int.bits Char - 128.

Fixpoint mask_of (Char : Int.type) (n : nat) : Z :=
  match n with
  | O => 0
  | S n => Z.lor (char_mask Char) (Z.shiftl (mask_of Char n) (Int.bits Char))
  end.

Definition clean (W : Z) (Char : Int.type) (bits : Z) : Prop :=
  Z.land bits (NonASCIIMask W Char) = 0.

Section IsStringASCII_exact.
Context (W : Z) (Char : Int.type).
Context (HW : W = 4 \/ W = 8) (HChar : Char = Int.int8 \/ Char = Int.uint16).


Lemma mask_of_word : NonASCIIMask W Char = mask_of Char (loop_increment W Char).
Proof using HW HChar. by destruct HW as [-> | ->], HChar as [-> | ->]. Qed.

Lemma bits_cases : Int.bits Char = 8 \/ Int.bits Char = 16.
Proof using HChar. destruct HChar as [-> | ->]; auto. Qed.

Lemma char_mask_exact c : char_ok Char c -> Z.land c (char_mask Char) = 0 <-> c < 128.
Proof using HChar.
  unfold char_ok, char_mask. intros Hc.
  assert (2 ^ Int.bits Char - 128 = Z.shiftl (Z.ones (Int.bits Char - 7)) 7) as ->
    by (destruct bits_cases as [-> | ->]; reflexivity).
  rewrite land_high by (destruct bits_cases; lia). change (2 ^ 7) with 128. lia.
Qed.

Lemma land_blocks b c r m M :
  0 <= b -> 0 <= c < 2 ^ b -> 0 <= m < 2 ^ b ->
  Z.land (Z.lor c (Z.shiftl r b)) (Z.lor m (Z.shiftl M b)) =
  Z.lor (Z.land c m) (Z.shiftl (Z.land r M) b).
Proof.
  intros Hb Hc Hm. apply Z.bits_inj'. intros n Hn.
  repeat (rewrite Z.land_spec || rewrite Z.lor_spec || rewrite Z.shiftl_spec by done).
  destruct (Z.ltb_spec n b).
  - rewrite !(Z.testbit_neg_r _ (n - b)) by lia. by rewrite !orb_false_r.
  - by rewrite (high_bit b c), (high_bit b m) by lia.
Qed.

Lemma load_word_mask n s :
  (length s <= n)%nat -> Forall (char_ok Char) s ->
  Z.land (load_word Char s) (mask_of Char n) = 0 <-> Forall (fun c => c < 128) s.
Proof using HChar.
  intros Hn Hs. revert n Hn. induction Hs as [|c s Hc Hs IH]; intros n Hn; simpl in *.
  { rewrite Z.land_0_l. by split. }
  destruct n as [|n]; [lia|]. simpl mask_of.
  rewrite land_blocks; [| destruct bits_cases; lia | exact Hc |
    unfold char_mask; destruct bits_cases as [-> | ->]; lia].
  rewrite Z.lor_eq_0_iff, char_mask_exact by done. rewrite Forall_cons, <- (IH n) by lia.
  rewrite Z.shiftl_eq_0_iff by (destruct bits_cases; lia). done.
Qed.

Lemma char_word_mask c : char_ok Char c ->
  Z.land (Int.static_cast (Int.Type_ W false) (Int.static_cast Char c)) (NonASCIIMask W Char) = 0
  <-> c < 128.
Proof using HW HChar.
  intros Hc. destruct HChar as [HC | HC].
  - assert (is_byte c) as Hb by (unfold is_byte, char_ok in *; rewrite HC in Hc;
      change (2 ^ Int.bits Int.int8) with 256 in Hc; lia).
    rewrite <- Z.eqb_eq, <- Z.ltb_lt. apply eq_iff_eq_true, eqb_prop. rewrite HC.
    destruct HW as [-> | ->].
    + exact (byte_forall (fun c => eqb (Z.land (Int.static_cast (Int.Type_ 4 false)
        (Int.static_cast Int.int8 c)) (NonASCIIMask 4 Int.int8) =? 0) (c <? 128)) c eq_refl Hb).
    + exact (byte_forall (fun c => eqb (Z.land (Int.static_cast (Int.Type_ 8 false)
        (Int.static_cast Int.int8 c)) (NonASCIIMask 8 Int.int8) =? 0) (c <? 128)) c eq_refl Hb).
  - assert (0 <= c < 65536) as Hb by (unfold char_ok in Hc; rewrite HC in Hc; exact Hc).
    rewrite (Int.static_cast_id Char), Int.static_cast_id.
    2, 4: by destruct HW as [-> | ->]; rewrite ?HC.
    2: destruct HW as [-> | ->]; Int.int_compute; lia.
    2: rewrite HC; Int.int_compute; lia.
    rewrite mask_of_word. pose proof (load_word_mask (loop_increment W Char) [c]) as H.
    simpl in H. rewrite Z.shiftl_0_l, Z.lor_0_r, !Forall_singleton in H. apply H.
    + destruct HW as [-> | ->]; rewrite HC; unfold loop_increment; vm_compute; lia.
    + done.
Qed.

Lemma word_pow : exists k, 0 <= k /\ W = 2 ^ k.
Proof using HW. destruct HW as [-> | ->]; [by exists 2 | by exists 3]. Qed.

Lemma aligned_exact p : IsAlignedToMachineWord W p = (p mod W =? 0).
Proof using HW.
  unfold IsAlignedToMachineWord. destruct word_pow as (k & Hk & ->).
  by rewrite Z.sub_1_r, <- Z.ones_equiv, Z.land_ones.
Qed.

Lemma align_exact p : AlignToMachineWord W p = p / W * W.
Proof using HW.
  unfold AlignToMachineWord. destruct word_pow as (k & Hk & ->).
  rewrite Z.sub_1_r, <- Z.ones_equiv, <- Z.ldiff_land, Z.ldiff_ones_r by done.
  by rewrite Z.shiftl_mul_pow2, Z.shiftr_div_pow2.
Qed.

Lemma clean_lor a b : clean W Char (Z.lor a b) <-> clean W Char a /\ clean W Char b.
Proof. unfold clean. by rewrite Z.land_lor_distr_l, Z.lor_eq_0_iff. Qed.

Lemma clean_char bits c : char_ok Char c -> clean W Char (or_char W Char bits c) <-> clean W Char bits /\ c < 128.
Proof using HW HChar.
  intros Hc. unfold or_char. rewrite clean_lor. unfold clean. by rewrite char_word_mask.
Qed.

Lemma clean_chars bits s :
  Forall (char_ok Char) s ->
  clean W Char (foldl (or_char W Char) bits s) <-> clean W Char bits /\ Forall (fun c => c < 128) s.
Proof using HW HChar.
  intros Hs. revert bits. induction Hs as [|c s Hc Hs IH]; intros bits; simpl; [naive_solver|].
  rewrite IH, clean_char, Forall_cons by done. naive_solver.
Qed.

Lemma clean_word bits s :
  Forall (char_ok Char) s -> (length s <= loop_increment W Char)%nat ->
  clean W Char (Z.lor bits (load_word Char s)) <-> clean W Char bits /\ Forall (fun c => c < 128) s.
Proof using HW HChar.
  intros Hs Hl. rewrite clean_lor. unfold clean at 2. by rewrite mask_of_word, load_word_mask.
Qed.

Lemma prologue_ok addr s bits addr' s' bits' :
  Forall (char_ok Char) s -> ascii_prologue W Char addr s bits = (addr', s', bits') ->
  addr' + Z.of_nat (length s') * Int.size Char = addr + Z.of_nat (length s) * Int.size Char /\
  (s' = [] \/ addr' mod W = 0) /\ Forall (char_ok Char) s' /\
  (clean W Char bits' /\ Forall (fun c => c < 128) s' <-> clean W Char bits /\ Forall (fun c => c < 128) s).
Proof using HW HChar.
  intros Hs. revert addr bits. induction Hs as [|c s Hc Hs IH]; intros addr bits; simpl.
  { intros [= <- <- <-]. auto. }
  rewrite aligned_exact. destruct (Z.eqb_spec (addr mod W) 0) as [Ha | Ha].
  { intros [= <- <- <-]. simpl. auto. }
  intros (He & Hal & Hs' & Hcl)%IH. split_and!; [lia | done.. |].
  rewrite Hcl, clean_char, Forall_cons by done. naive_solver.
Qed.

Lemma size_divides : Z.of_nat (loop_increment W Char) * Int.size Char = W.
Proof using HW HChar. by destruct HW as [-> | ->], HChar as [-> | ->]. Qed.

Lemma words_ok fuel addr word_end s bits :
  Forall (char_ok Char) s -> (length s <= fuel)%nat -> addr mod W = 0 -> word_end mod W = 0 ->
  word_end <= addr + Z.of_nat (length s) * Int.size Char ->
  exists s' bits', ascii_words W Char fuel addr word_end s bits = Some (s', bits') /\
    Forall (char_ok Char) s' /\
    (clean W Char bits' /\ Forall (fun c => c < 128) s' <-> clean W Char bits /\ Forall (fun c => c < 128) s).
Proof using HW HChar.
  revert addr s bits. induction fuel as [|fuel IH]; intros addr s bits Hs Hf Ha He Hle; simpl; [eauto|].
  destruct (Z.ltb_spec addr word_end) as [Hlt|]; [|eauto].
  pose proof size_divides as Hd.
  assert (0 < Int.size Char) by (destruct HChar as [-> | ->]; done).
  assert (W <= word_end - addr) by (destruct HW; subst W; lia).
  assert (loop_increment W Char <= length s)%nat by nia.
  assert (0 < loop_increment W Char)%nat by (destruct HW; subst W; nia).
  rewrite option_guard_True by done. simpl.
  destruct (IH (addr + W) (drop (loop_increment W Char) s)
              (Z.lor bits (load_word Char (take (loop_increment W Char) s))))
    as (s' & bits' & -> & Hs' & Hcl).
  - by apply Forall_drop.
  - rewrite length_drop. lia.
  - destruct HW; subst W; lia.
  - done.
  - rewrite length_drop. nia.
  - exists s', bits'. split_and!; [done..|]. rewrite Hcl, clean_word.
    + rewrite <- (take_drop (loop_increment W Char) s) at 3. rewrite Forall_app. naive_solver.
    + by apply Forall_take.
    + rewrite length_take. lia.
Qed.

(** The word-parallel test is the test character by character, whatever the
    alignment of the string, and reads no word that is not in the string. *)
Lemma IsStringASCII_exact addr s :
  Forall (char_ok Char) s -> addr mod Int.size Char = 0 ->
  DoIsStringASCII W Char addr s = Some (bool_decide (Forall (fun c => c < 128) s)).
Proof using HW HChar.
  intros Hs Ha. unfold DoIsStringASCII. rewrite align_exact.
  destruct (ascii_prologue W Char addr s 0) as [[addr' s'] bits'] eqn:Hp.
  apply prologue_ok in Hp as (He & Hal & Hs' & Hcl); [|done].
  assert (exists t b, ascii_words W Char (length s') addr'
      ((addr + Z.of_nat (length s) * Int.size Char) / W * W) s' bits' = Some (t, b) /\
      Forall (char_ok Char) t /\
      (clean W Char b /\ Forall (fun c => c < 128) t <-> clean W Char bits' /\ Forall (fun c => c < 128) s'))
    as (t & b & -> & Ht & Hcl').
  { destruct Hal as [-> | Hal]; [by exists [], bits'|].
    apply words_ok; [done | done | done | |]; destruct HW; subst W; lia. }
  simpl. f_equal. apply eq_iff_eq_true. rewrite Z.eqb_eq, bool_decide_eq_true.
  fold (clean W Char (foldl (or_char W Char) b t)). rewrite clean_chars, Hcl', Hcl by done.
  unfold clean. rewrite Z.land_0_l. naive_solver.
Qed.
End IsStringASCII_exact.

(** ** Well-formed strings *)

Definition repair (s : list Z) : list Z := text UTF8 (code_points UTF8 s).

Definition well_formed (s : list Z) : Prop := exists cs, Forall scalar cs /\ s = text UTF8 cs.

Lemma repair_well_formed s : well_formed s -> repair s = s.
Proof. intros (cs & Hcs & ->). unfold repair. by rewrite code_points_text. Qed.

Lemma repair_ok s : Forall is_byte s -> well_formed (repair s).
Proof.
  intros Hs. exists (code_points UTF8 s). split; [|done].
  by apply (code_points_ok UTF8 s Hs).
Qed.

Lemma ascii_text E s :
  (forall c, 0 <= c < 128 -> @enc_units E c = [c]) ->
  Forall (fun c => 0 <= c < 128) s -> text E s = s.
Proof.
  intros HE. induction 1 as [|c s Hc Hs IH]; [done|]. rewrite text_cons, HE, IH; done.
Qed.

Lemma ascii_encode c : 0 <= c < 128 -> encode c = [c].
Proof.
  intros Hc. rewrite encode_exact by (unfold scalar; lia).
  by rewrite (proj2 (Z.leb_le _ _)) by lia.
Qed.

Lemma ascii_encode16 c : 0 <= c < 128 -> encode16 c = [c].
Proof.
  intros Hc. rewrite encode16_exact by (unfold scalar; lia).
  by rewrite (proj2 (Z.leb_le _ _)) by lia.
Qed.

Lemma ascii_scalar s : Forall (fun c => 0 <= c < 128) s -> Forall scalar s.
Proof. intros Hs. eapply Forall_impl; [exact Hs|]. unfold scalar. simpl. lia. Qed.

Lemma ascii_valid c : 0 <= c < 128 -> IsValidCharacter c = true.
Proof.
  intros Hc. unfold IsValidCharacter. destruct (scalar_valid c) as [_ ->]; [unfold scalar; lia|].
  by rewrite (proj2 (Z.ltb_lt c 0xD800)) by lia.
Qed.

Lemma ascii_points s : Forall (fun c => 0 <= c < 128) s -> code_points UTF8 s = s.
Proof.
  intros Hs. rewrite <- (ascii_text UTF8 s ascii_encode Hs) at 1.
  by apply code_points_text, ascii_scalar.
Qed.

Lemma points_length E fuel s length i cs :
  points E fuel s length i = Some cs -> (List.length cs <= fuel)%nat.
Proof.
  revert i cs. induction fuel as [|fuel IH]; intros i cs; simpl; [intros [= <-]; done|].
  destruct (i <? length); [|intros [= <-]; simpl; lia].
  destruct (enc_read s length i) as [[i' r]|]; [|done]. simpl.
  destruct (points E fuel s length (i' + 1)) eqn:Hp; [|done]. simpl. intros [= <-].
  simpl. specialize (IH _ _ Hp). lia.
Qed.

Lemma text16_length cs : Forall scalar cs -> (length (text UTF16 cs) <= 2 * length cs)%nat.
Proof.
  induction 1 as [|c cs Hc Hcs IH]; [done|]. rewrite text_cons, length_app.
  change (@enc_units UTF16 c) with (encode16 c). rewrite encode16_exact by done.
  simpl length. destruct (c <=? 0xffff); simpl; lia.
Qed.

Lemma convert_to_16 W addr s :
  W = 4 \/ W = 8 -> Forall is_byte s -> small s ->
  UTF8ToUTF16 W addr s = Some (text UTF16 (code_points UTF8 s)).
Proof.
  intros HW Hs Hsm. unfold UTF8ToUTF16.
  rewrite (IsStringASCII_exact W Int.int8 HW (or_introl eq_refl)).
  2: { eapply Forall_impl; [exact Hs|]. unfold is_byte, char_ok. simpl. intros c Hc.
       change (2 ^ Int.bits Int.int8) with 256. lia. }
  2: apply Z.mod_1_r.
  case_bool_decide as Ha.
  - assert (Forall (fun c => 0 <= c < 128) s) as Ha'
      by (eapply Forall_impl; [exact (proj2 (Forall_and _ _) (conj Hs Ha)) | unfold is_byte; simpl; lia]).
    by rewrite ascii_points, (ascii_text UTF16 s ascii_encode16 Ha').
  - destruct (convert_exact UTF8 UTF16 s Hs Hsm) as [b Hb]. simpl in Hb. by rewrite Hb.
Qed.

Lemma convert_to_8 W addr cs :
  W = 4 \/ W = 8 -> addr mod 2 = 0 -> Forall scalar cs -> small (text UTF16 cs) ->
  UTF16ToUTF8 W addr (text UTF16 cs) = Some (text UTF8 cs).
Proof.
  intros HW Haddr Hcs Hsm. pose proof (text_unit UTF16 cs Hcs) as Hu.
  unfold UTF16ToUTF8. rewrite (IsStringASCII_exact W Int.uint16 HW (or_intror eq_refl)); [|..|done].
  2: { eapply Forall_impl; [exact Hu|]. intros c Hc. unfold char_ok.
       change (2 ^ Int.bits Int.uint16) with 65536. unfold enc_unit in Hc. simpl in Hc.
       unfold is_unit in Hc. lia. }
  case_bool_decide as Ha.
  - assert (Forall (fun c => 0 <= c < 128) (text UTF16 cs)) as Ha'
      by (eapply Forall_impl; [exact (proj2 (Forall_and _ _) (conj Hu Ha)) |
          simpl; unfold is_unit; intros; lia]).
    assert (text UTF16 cs = cs) as E.
    { pose proof (code_points_text UTF16 cs Hcs) as E1.
      pose proof (code_points_text UTF16 _ (ascii_scalar _ Ha')) as E2.
      rewrite (ascii_text UTF16 _ ascii_encode16 Ha') in E2. congruence. }
    rewrite E in *. rewrite (ascii_text UTF8 cs ascii_encode Ha'). f_equal.
    rewrite <- (map_id cs) at 2. apply map_ext_in. intros c Hc%list_elem_of_In.
    rewrite Forall_forall in Ha'. specialize (Ha' c Hc). apply uint8_small. lia.
  - destruct (convert_exact UTF16 UTF8 (text UTF16 cs) Hu Hsm) as [b Hb]. simpl in Hb.
    rewrite Hb. simpl. by rewrite code_points_text.
Qed.

Lemma IsStringUTF8_loop_ok fuel s i length :
  Forall is_byte s -> 0 <= i <= length -> length <= Z.of_nat (List.length s) ->
  length - i <= Z.of_nat fuel ->
  exists b, IsStringUTF8_loop fuel s length i = Some b /\
    (b = true <-> exists cs, Forall (fun c => scalar c /\ IsValidCharacter c = true) cs /\
                             window s i length = text UTF8 cs).
Proof.
  intros Hs. revert i. induction fuel as [|fuel IH]; intros i Hi Hl Hf; simpl.
  { exists true. split; [done|]. split; [|done]. intros _. exists []. split; [constructor|].
    apply nil_length_inv. pose proof (window_length s i length Hi Hl). lia. }
  destruct (Z.ltb_spec i length).
  2: { exists true. split; [done|]. split; [|done]. intros _. exists []. split; [constructor|].
       apply nil_length_inv. pose proof (window_length s i length Hi Hl). lia. }
  pose proof (CBU8_NEXT_ref s i length Hs ltac:(lia) Hl) as Href.
  destruct (CBU8_NEXT_total s i length Hs) as (i' & c & HN & Hi' & Hc); [lia..|].
  rewrite HN. simpl. destruct (IsValidCharacter c) eqn:Hv.
  - destruct Hc as [-> | (Hc & [rest Hw] & ->)]; [done|].
    destruct (IH (i + Z.of_nat (List.length (encode c)))) as (b & Hb & Hiff); [lia..|].
    exists b. split; [done|]. rewrite Hiff.
    rewrite (window_shift s i length _ (encode c) rest ltac:(lia) Hw eq_refl), Hw.
    split; intros (cs & Hcs & E).
    + exists (c :: cs). split; [by constructor|]. by rewrite text_cons, E.
    + destruct cs as [|c' cs].
      { apply (f_equal List.length) in E. rewrite length_app in E. simpl in E.
        pose proof (encode_length c Hc). lia. }
      apply Forall_cons in Hcs as [[Hc' _] Hcs].
      rewrite text_cons in E. change (@enc_units UTF8 c') with (encode c') in E.
      pose proof (ref_next_encode c rest Hc) as E1. rewrite E, ref_next_encode in E1 by done.
      injection E1 as -> _. apply app_inv_head in E. by exists cs.
  - exists false. split; [done|]. split; [done|]. intros ([|c' cs] & Hcs & E); exfalso.
    { pose proof (window_length s i length Hi Hl). rewrite E in *. simpl in *. lia. }
    apply Forall_cons in Hcs as [[Hc' Hv'] Hcs].
    rewrite text_cons in E. rewrite (CBU8_NEXT_encode s i length c' _ Hs) in HN by done || lia.
    injection HN as _ ->. congruence.
Qed.

(** [IsStringUTF8] accepts exactly the encodings of strings of characters,
    surrogates and non-characters excluded. *)
Lemma IsStringUTF8_exact s :
  Forall is_byte s -> small s ->
  exists b, IsStringUTF8 s = Some b /\
    (b = true <-> exists cs, Forall (fun c => scalar c /\ IsValidCharacter c = true) cs /\
                             s = text UTF8 cs).
Proof.
  intros Hs Hsm. unfold IsStringUTF8. rewrite small_length, Nat2Z.id by done.
  destruct (IsStringUTF8_loop_ok (length s) s 0 (Z.of_nat (length s)) Hs) as (b & Hb & Hiff);
    [lia..|]. rewrite window_all in Hiff. eauto.
Qed.

(** * Theorems *)

(** C31: The safe UTF-8 decoder is exact. On every byte string and at every index
    of it, it reads inside the string only, advances by at least one byte, and
    either returns a code point outside the surrogates, whose shortest encoding
    is what it advanced over, or returns the error value, and then no code
    point is encoded at that index: overlong forms, surrogates, values above
    U+10FFFF and truncated sequences are all rejected, and nothing else is. *)
Theorem utf8_decoder_exact s i length :
  Forall is_byte s -> 0 <= i < length -> length <= Z.of_nat (List.length s) ->
  exists i' c, CBU8_NEXT s i length = Some (i', c) /\ i < i' <= length /\
    ((scalar c /\ i' = i + Z.of_nat (List.length (CBU8_APPEND_UNSAFE c)) /\
      CBU8_APPEND_UNSAFE c `prefix_of` window s i length) \/
     (c = CBU_SENTINEL /\
      forall c', scalar c' -> ~ CBU8_APPEND_UNSAFE c' `prefix_of` window s i length)).
Proof.
  intros Hs Hi Hl. pose proof (CBU8_NEXT_ref s i length Hs Hi Hl) as Href.
  destruct (CBU8_NEXT_total s i length Hs Hi Hl) as (i' & c & HN & Hi' & Hc).
  exists i', c. split; [done|]. split; [done|]. destruct Hc as [-> | (Hc & Hp & ->)]; [right|auto].
  split; [done|]. intros c' Hc' [rest Hw].
  rewrite (CBU8_NEXT_encode s i length c' rest Hs) in HN; [|lia|done..].
  injection HN as _ ->. unfold scalar in Hc'. lia.
Qed.

Lemma utf8_decoder_exact_witness :
  exists i' c, CBU8_NEXT [0x41; 0xe2; 0x82; 0xac; 0xff] 1 5 = Some (i', c) /\ 1 < i' <= 5 /\
    ((scalar c /\ i' = 1 + Z.of_nat (List.length (CBU8_APPEND_UNSAFE c)) /\
      CBU8_APPEND_UNSAFE c `prefix_of` window [0x41; 0xe2; 0x82; 0xac; 0xff] 1 5) \/
     (c = CBU_SENTINEL /\
      forall c', scalar c' ->
        ~ CBU8_APPEND_UNSAFE c' `prefix_of` window [0x41; 0xe2; 0x82; 0xac; 0xff] 1 5)).
Proof.
  apply (utf8_decoder_exact [0x41; 0xe2; 0x82; 0xac; 0xff] 1 5).
  - repeat constructor; vm_compute; intros [=].
  - lia.
  - vm_compute. intros [=].
Defined.

(** UTF-8 converted to UTF-16 and back. Whatever the bytes, the machine word
    and the alignment of the strings, both conversions stay inside their
    strings and the result is the well-formed repair of the input, each
    malformed piece having become U+FFFD; a well-formed string comes back
    unchanged. *)
Theorem utf16_round_trip W addr addr' s :
  W = 4 \/ W = 8 -> addr' mod 2 = 0 -> Forall is_byte s -> Z.of_nat (length s) < 2 ^ 30 ->
  exists utf16, UTF8ToUTF16 W addr s = Some utf16 /\
    UTF16ToUTF8 W addr' utf16 = Some (repair s) /\ well_formed (repair s) /\
    (well_formed s -> repair s = s).
Proof.
  intros HW Ha Hs Hl. assert (small s) as Hsm by (unfold small; Int.int_compute; lia).
  destruct (code_points_ok UTF8 s Hs) as [Hp Hc].
  exists (text UTF16 (code_points UTF8 s)). split_and!.
  - by apply convert_to_16.
  - apply convert_to_8; [done..|]. unfold small. Int.int_compute.
    pose proof (text16_length _ Hc). apply points_length in Hp. lia.
  - by apply repair_ok.
  - apply repair_well_formed.
Qed.

Lemma utf16_round_trip_witness :
  exists utf16, UTF8ToUTF16 8 3 [0xf0; 0x9f; 0x98; 0x80; 0xff] = Some utf16 /\
    UTF16ToUTF8 8 2 utf16 = Some (repair [0xf0; 0x9f; 0x98; 0x80; 0xff]) /\
    well_formed (repair [0xf0; 0x9f; 0x98; 0x80; 0xff]) /\
    (well_formed [0xf0; 0x9f; 0x98; 0x80; 0xff] ->
     repair [0xf0; 0x9f; 0x98; 0x80; 0xff] = [0xf0; 0x9f; 0x98; 0x80; 0xff]).
Proof.
  apply (utf16_round_trip 8 3 2).
  - by right.
  - reflexivity.
  - repeat constructor; vm_compute; intros [=].
  - vm_compute. reflexivity.
Defined.
