(* ===== verification/Rings.v ===== *)
(** * Circular doubly linked lists

    The representation that [base/containers/linked_list.h] and the events of
    [base/synchronization/condition_variable_win.cc] share: nodes at addresses, whose
    links form a ring through a root. [ring h r l] says that from the root [r] the
    links of the memory [h] go through [l] and back. The two lemmas about cutting a
    node in and out carry the operations of both clients. *)
From Stdlib Require Import ZArith Lia.
From stdpp Require Import base gmap sets list.
From S2P Require Import Prelude.

Section Rings.
Context {A : Type}.

(** A node with what its class keeps beside the links; address 0 is [NULL]. *)
Record Node := Node_ { data : A; next_ : nat; prev_ : nat }.

Definition next_of (h : gmap nat Node) (x : nat) : option nat := next_ <$> h !! x.
Definition prev_of (h : gmap nat Node) (x : nat) : option nat := prev_ <$> h !! x.
Definition data_of (h : gmap nat Node) (x : nat) : option A := data <$> h !! x.

(** Writes through a pointer; [None] is a bad access. *)
Definition set_next (h : gmap nat Node) (x y : nat) : option (gmap nat Node) :=
  n ← h !! x; Some (<[x := Node_ (data n) y (prev_ n)]> h).
Definition set_prev (h : gmap nat Node) (x y : nat) : option (gmap nat Node) :=
  n ← h !! x; Some (<[x := Node_ (data n) (next_ n) y]> h).

Lemma set_next_spec h x y :
  is_Some (h !! x) -> exists h', set_next h x y = Some h' /\
    (forall z, next_of h' z = if decide (z = x) then Some y else next_of h z) /\
    (forall z, prev_of h' z = prev_of h z) /\ (forall z, data_of h' z = data_of h z) /\
    forall z, z <> x -> h' !! z = h !! z.
Proof.
  intros [n Hn]. unfold set_next, next_of, prev_of, data_of. rewrite Hn. simpl. eexists. split; [done|].
  split; [|split; [|split]]; intros z; try intros Hz;
    (destruct (decide (z = x)) as [->|Hne];
     [try done; by rewrite lookup_insert_eq, ?Hn | by rewrite lookup_insert_ne]).
Qed.

Lemma set_prev_spec h x y :
  is_Some (h !! x) -> exists h', set_prev h x y = Some h' /\
    (forall z, prev_of h' z = if decide (z = x) then Some y else prev_of h z) /\
    (forall z, next_of h' z = next_of h z) /\ (forall z, data_of h' z = data_of h z) /\
    forall z, z <> x -> h' !! z = h !! z.
Proof.
  intros [n Hn]. unfold set_prev, next_of, prev_of, data_of. rewrite Hn. simpl. eexists. split; [done|].
  split; [|split; [|split]]; intros z; try intros Hz;
    (destruct (decide (z = x)) as [->|Hne];
     [try done; by rewrite lookup_insert_eq, ?Hn | by rewrite lookup_insert_ne]).
Qed.

Definition linked (h : gmap nat Node) (a b : nat) : Prop := next_of h a = Some b /\ prev_of h b = Some a.

(** From [a] the links go through [l] to [b]. *)
Fixpoint chain (h : gmap nat Node) (a : nat) (l : list nat) (b : nat) : Prop :=
  match l with [] => linked h a b | x :: l => linked h a x /\ chain h x l b end.

Definition ring (h : gmap nat Node) (r : nat) (l : list nat) : Prop := NoDup (r :: l) /\ chain h r l r.

Lemma chain_app h a l1 x l2 b :
  chain h a (l1 ++ x :: l2) b <-> chain h a l1 x /\ chain h x l2 b.
Proof. revert a. induction l1 as [|y l1 IH]; intros a; simpl; [done|]. rewrite IH. tauto. Qed.

Lemma chain_frame h h' a l b :
  (forall y, y ∈ a :: l -> next_of h' y = next_of h y) ->
  (forall y, y ∈ l ++ [b] -> prev_of h' y = prev_of h y) -> chain h a l b -> chain h' a l b.
Proof.
  revert a. induction l as [|x l IH]; intros a Hn Hp; unfold linked; simpl.
  - intros [H1 H2]. split; [rewrite Hn; [done | by left] | rewrite Hp; [done | by left]].
  - intros [[H1 H2] H3]. split; [split; [rewrite Hn; [done | by left] | rewrite Hp; [done | by left]]|].
    apply IH; [| |done]; intros y Hy; [apply Hn | apply Hp]; by right.
Qed.

Lemma chain_nodes h a l b : chain h a l b -> forall x, x ∈ a :: b :: l -> is_Some (h !! x).
Proof.
  assert (forall a b, linked h a b -> is_Some (h !! a) /\ is_Some (h !! b)) as Hl.
  { intros u v [H1 H2]. unfold next_of, prev_of in *.
    apply fmap_Some in H1 as (n & H1 & _). apply fmap_Some in H2 as (m & H2 & _). by split; eexists. }
  revert a. induction l as [|y l IH]; intros a; simpl.
  - intros H x Hx. rewrite !elem_of_cons in Hx. destruct (Hl _ _ H).
    destruct Hx as [->|[->|Hx]]; [done..|by apply elem_of_nil in Hx].
  - intros [H1 H2] x Hx. rewrite !elem_of_cons in Hx. destruct (Hl _ _ H1).
    destruct Hx as [->|[->|[->|Hx]]]; try done; apply (IH _ H2); rewrite !elem_of_cons; auto.
Qed.

Lemma ring_nodes h r l x : ring h r l -> x ∈ r :: l -> is_Some (h !! x).
Proof.
  intros [_ Hc] Hx. apply (chain_nodes _ _ _ _ Hc). apply elem_of_cons in Hx as [->|Hx]; [by left|].
  by right; right.
Qed.

(** The node before the end of a chain, and the node after its beginning. *)
Fixpoint back (a : nat) (l : list nat) : nat := match l with [] => a | x :: l => back x l end.
Definition front (l : list nat) (b : nat) : nat := match l with [] => b | x :: _ => x end.

Lemma back_in a l : back a l ∈ a :: l.
Proof. revert a. induction l as [|x l IH]; intros a; simpl; [by left | right; apply IH]. Qed.

Lemma back_app a l x : back a (l ++ [x]) = x.
Proof. revert a. induction l as [|y l IH]; intros a; simpl; [done | apply IH]. Qed.

Lemma front_in l b : front l b ∈ b :: l.
Proof. destruct l; [by left | right; by left]. Qed.

Lemma chain_ends h a l b : chain h a l b -> next_of h a = Some (front l b) /\ prev_of h b = Some (back a l).
Proof.
  revert a. induction l as [|x l IH]; intros a; simpl; [done|]. intros [[H1 _] [_ H2]%IH]. done.
Qed.

Lemma ring_links h r l1 x l2 :
  ring h r (l1 ++ x :: l2) ->
  next_of h x = Some (front l2 r) /\ prev_of h x = Some (back r l1).
Proof.
  intros [_ [H1 H2]%chain_app]. by destruct (chain_ends _ _ _ _ H1), (chain_ends _ _ _ _ H2).
Qed.

Lemma ring_root h r l : ring h r l -> next_of h r = Some (front l r) /\ prev_of h r = Some (back r l).
Proof. intros [_ H]. by apply chain_ends. Qed.

(** The end of a chain can be redirected. *)
Lemma chain_redirect h h' a l b b' :
  (forall y, y ∈ a :: l -> y <> back a l -> next_of h' y = next_of h y) ->
  (forall y, y ∈ l -> prev_of h' y = prev_of h y) -> NoDup (a :: l) ->
  linked h' (back a l) b' -> chain h a l b -> chain h' a l b'.
Proof.
  revert a. induction l as [|x l IH]; intros a Hn Hp Hd Hl; simpl in *; [done|].
  intros [[H1 H2] H3]. apply NoDup_cons in Hd as [Ha Hd].
  assert (a <> back x l) as Hne by (intros ->; apply Ha; apply back_in).
  split; [split|].
  - rewrite Hn; [done | by left | done].
  - rewrite Hp; [done | by left].
  - apply IH; [| |done|done|done]; intros y Hy; [intros Hb; apply Hn; [by right | done] | apply Hp; by right].
Qed.

(** The parts of a ring around a position. *)
Lemma ring_parts r l1 l2 :
  NoDup (r :: l1 ++ l2) ->
  NoDup (r :: l1) /\ (forall y, y ∈ l2 -> y ∉ r :: l1) /\
  (l2 <> [] -> forall y, y ∈ l2 -> y <> back r l1).
Proof.
  intros Hd. assert (forall y, y ∈ l2 -> y ∉ r :: l1) as Hdis.
  { intros y Hy Hin. change (r :: l1 ++ l2) with ((r :: l1) ++ l2) in Hd.
    apply NoDup_app in Hd as (_ & Hd & _). by apply (Hd y). }
  split; [|split; [done|]].
  - change (r :: l1 ++ l2) with ((r :: l1) ++ l2) in Hd. by apply NoDup_app in Hd as (? & _).
  - intros _ y Hy ->. apply (Hdis _ Hy). apply back_in.
Qed.

(** A memory in which [x] has been cut in between [l1] and [l2]. *)
Lemma ring_inserted h h' r l1 l2 x :
  ring h r (l1 ++ l2) -> x ∉ r :: l1 ++ l2 ->
  (forall z, next_of h' z = if decide (z = back r l1) then Some x
                            else if decide (z = x) then Some (front l2 r) else next_of h z) ->
  (forall z, prev_of h' z = if decide (z = front l2 r) then Some x
                            else if decide (z = x) then Some (back r l1) else prev_of h z) ->
  ring h' r (l1 ++ x :: l2).
Proof.
  intros [Hd Hc] Hx Hn Hp. rewrite elem_of_cons, elem_of_app in Hx.
  assert (x <> back r l1) as Hxp.
  { intros ->. apply Hx. pose proof (back_in r l1) as Hb. rewrite elem_of_cons in Hb. tauto. }
  assert (x <> front l2 r) as Hxs.
  { intros ->. apply Hx. pose proof (front_in l2 r) as Hb. rewrite elem_of_cons in Hb. tauto. }
  destruct (ring_parts r l1 l2 Hd) as (Hd1 & Hdis & Hback).
  split.
  { rewrite <- Permutation_middle. change (r :: x :: l1 ++ l2) with ([r] ++ [x] ++ (l1 ++ l2)).
    rewrite (Permutation_app_comm [r]), <- (assoc_L (++)). simpl. rewrite (Permutation_app_comm _ [r]). simpl.
    apply NoDup_cons. split; [|done]. rewrite elem_of_cons, elem_of_app. tauto. }
  assert (linked h' (back r l1) x) as Hlink.
  { split; [rewrite Hn; by rewrite decide_True | rewrite Hp, decide_False, decide_True by done; done]. }
  assert (linked h' x (front l2 r)) as Hlink2.
  { split; [rewrite Hn, decide_False, decide_True by done; done | rewrite Hp; by rewrite decide_True]. }
  apply chain_app. destruct l2 as [|s l2]; simpl in *.
  - split; [|done]. rewrite app_nil_r in *. refine (chain_redirect h h' r l1 r x _ _ Hd1 Hlink Hc).
    + intros y Hy Hb. rewrite Hn, decide_False, decide_False; [done | | done].
      intros ->. apply Hx. rewrite elem_of_cons in Hy. tauto.
    + intros y Hy. rewrite Hp, decide_False, decide_False; [done | |].
      * intros ->. tauto.
      * intros ->. by apply NoDup_cons in Hd1 as [? _].
  - apply chain_app in Hc as [Hc1 Hc2]. split; [|split; [done|]].
    + refine (chain_redirect h h' r l1 s x _ _ Hd1 Hlink Hc1).
      * intros y Hy Hb. rewrite Hn, decide_False, decide_False; [done | | done].
        intros ->. apply Hx. rewrite elem_of_cons in Hy. tauto.
      * intros y Hy. rewrite Hp, decide_False, decide_False; [done | |].
        -- intros ->. tauto.
        -- intros ->. apply (Hdis s); [by left | by right].
    + apply (chain_frame h); [| |done].
      * intros y Hy. rewrite Hn, decide_False, decide_False; [done | |].
        -- intros ->. apply Hx. by right; right.
        -- by apply Hback.
      * intros y Hy. rewrite Hp, decide_False, decide_False; [done | |].
        -- intros ->. apply Hx. apply elem_of_app in Hy as [Hy|Hy%list_elem_of_singleton]; [|by left].
           right. right. by right.
        -- intros ->. apply elem_of_app in Hy as [Hy|Hy%list_elem_of_singleton].
           ++ apply NoDup_cons in Hd as [_ Hd]. apply NoDup_app in Hd as (_ & _ & Hd).
              by apply NoDup_cons in Hd as [? _].
           ++ subst s. apply (Hdis r); by left.
Qed.

(** A memory in which [x] has been cut out; its own links may be anything. *)
Lemma ring_removed h h' r l1 l2 x :
  ring h r (l1 ++ x :: l2) ->
  (forall z, z <> x -> next_of h' z = if decide (z = back r l1) then Some (front l2 r) else next_of h z) ->
  (forall z, z <> x -> prev_of h' z = if decide (z = front l2 r) then Some (back r l1) else prev_of h z) ->
  ring h' r (l1 ++ l2).
Proof.
  intros [Hd Hc] Hn Hp. assert (Hdx := Hd). rewrite <- Permutation_middle in Hdx.
  rewrite (Permutation_swap x r) in Hdx. apply NoDup_cons in Hdx as [Hx Hd2].
  rewrite elem_of_cons, elem_of_app in Hx.
  destruct (ring_parts r l1 l2 Hd2) as (Hd1 & Hdis & Hback).
  assert (x <> back r l1) as Hxp.
  { intros ->. apply Hx. pose proof (back_in r l1) as Hb. rewrite elem_of_cons in Hb. tauto. }
  assert (x <> front l2 r) as Hxs.
  { intros ->. apply Hx. pose proof (front_in l2 r) as Hb. rewrite elem_of_cons in Hb. tauto. }
  assert (linked h' (back r l1) (front l2 r)) as Hlink.
  { split; [rewrite Hn by done; by rewrite decide_True | rewrite Hp by done; by rewrite decide_True]. }
  apply chain_app in Hc as [Hc1 Hc2]. split; [done|]. destruct l2 as [|s l2]; simpl in *.
  - rewrite app_nil_r. refine (chain_redirect h h' r l1 x r _ _ Hd1 Hlink Hc1).
    + intros y Hy Hb. rewrite Hn, decide_False; [done | done |].
      intros ->. apply Hx. rewrite elem_of_cons in Hy. tauto.
    + intros y Hy. rewrite Hp, decide_False; [done | | intros ->; tauto].
      intros ->. by apply NoDup_cons in Hd1 as [? _].
  - destruct Hc2 as [_ Hc2]. apply chain_app. split.
    + refine (chain_redirect h h' r l1 x s _ _ Hd1 Hlink Hc1).
      * intros y Hy Hb. rewrite Hn, decide_False; [done | done |].
        intros ->. apply Hx. rewrite elem_of_cons in Hy. tauto.
      * intros y Hy. rewrite Hp, decide_False; [done | | intros ->; tauto].
        intros ->. apply (Hdis s); [by left | by right].
    + apply (chain_frame h); [| |done].
      * intros y Hy. rewrite Hn, decide_False; [done | by apply Hback |]. intros ->. apply Hx. by right; right.
      * intros y Hy. apply elem_of_app in Hy as [Hy|Hy%list_elem_of_singleton].
        -- rewrite Hp, decide_False; [done | |].
           ++ intros ->. apply NoDup_cons in Hd2 as [_ Hd2]. apply NoDup_app in Hd2 as (_ & _ & Hd2).
              by apply NoDup_cons in Hd2 as [? _].
           ++ intros ->. apply Hx. right. right. by right.
        -- subst y. rewrite Hp, decide_False; [done | |].
           ++ intros ->. apply (Hdis s); by left.
           ++ intros ->. apply Hx. by left.
Qed.

(** Nodes outside of a ring may change. *)
Lemma ring_frame h h' r l :
  (forall y, y ∈ r :: l -> next_of h' y = next_of h y /\ prev_of h' y = prev_of h y) ->
  ring h r l -> ring h' r l.
Proof.
  intros Hy [Hd Hc]. split; [done|]. apply (chain_frame h); [| |done].
  - intros y Hin. by apply Hy.
  - intros y Hin. apply Hy. rewrite elem_of_app, list_elem_of_singleton in Hin. rewrite elem_of_cons. tauto.
Qed.

(** A node that points at itself is an empty ring. *)
Lemma ring_single h x : next_of h x = Some x -> prev_of h x = Some x -> ring h x [].
Proof. intros H1 H2. split; [by repeat constructor; intros ?%elem_of_nil | done]. Qed.

(** Every node of a ring is linked on both sides. *)
Lemma chain_next h a l b x : chain h a l b -> x ∈ a :: l -> exists y, linked h x y.
Proof.
  revert a. induction l as [|y l IH]; intros a; simpl.
  - intros H Hx%list_elem_of_singleton. subst x. by exists b.
  - intros [H1 H2] [->|Hx]%elem_of_cons; [by exists y | by apply (IH y)].
Qed.

Lemma chain_prev h a l b x : chain h a l b -> x ∈ l ++ [b] -> exists y, linked h y x.
Proof.
  revert a. induction l as [|y l IH]; intros a; simpl.
  - intros H Hx%list_elem_of_singleton. subst x. by exists a.
  - intros [H1 H2] [->|Hx]%elem_of_cons; [by exists a | by apply (IH y)].
Qed.

Lemma ring_neighbours h r l x :
  ring h r l -> x ∈ r :: l -> exists y z, linked h x y /\ linked h z x.
Proof.
  intros [_ Hc] Hx. destruct (chain_next _ _ _ _ _ Hc Hx) as (y & Hy).
  destruct (chain_prev _ _ _ _ x Hc) as (z & Hz).
  - rewrite elem_of_app, list_elem_of_singleton. rewrite elem_of_cons in Hx. tauto.
  - by exists y, z.
Qed.

(** A node is alone when it points at itself. *)
Lemma ring_alone h r l x :
  ring h r l -> x ∈ r :: l -> next_of h x = Some x <-> l = [] /\ x = r.
Proof.
  intros Hr Hx. split; [|by intros [-> ->]; destruct (ring_root _ _ _ Hr)].
  intros Hn. apply elem_of_cons in Hx as [->|Hx].
  - destruct (ring_root _ _ _ Hr) as [Hf _]. rewrite Hf in Hn. destruct l as [|y l]; [done|].
    injection Hn as ->. destruct Hr as [Hd _]. apply NoDup_cons in Hd as [Hd _]. by destruct Hd; left.
  - exfalso. apply list_elem_of_split in Hx as (l1 & l2 & ->).
    destruct (ring_links _ _ _ _ _ Hr) as [Hf _]. rewrite Hf in Hn. injection Hn as Hn.
    destruct Hr as [Hd _]. apply NoDup_cons in Hd as [Hr Hd]. apply NoDup_app in Hd as (_ & _ & Hd).
    destruct l2 as [|y l2]; simpl in Hn; subst.
    + apply Hr, elem_of_app. right. by left.
    + apply NoDup_cons in Hd as [Hd _]. by destruct Hd; left.
Qed.
End Rings.
Arguments Node : clear implicits.
