(* ===== verification/CondVar.v ===== *)
(** * Condition variables without help from the system

    [base/synchronization/condition_variable_win.cc], the implementation for Windows
    versions that have none. A waiter takes an event from a free list, puts it on the
    list of waiters and sleeps on it; a signal takes an event from that list, drops
    its lock and sets it. [EventList] has the methods of the intrusive list, on the
    links themselves; [WinXPCondVar] those of the class; the machine interleaves
    waiters, signallers and the lock of the callers. Kernel events are flags that
    [SetEvent] sets and the wait that returns resets ([auto-reset]).

    [Spec] is what the class promises: a list of waiting threads. *)
From Stdlib Require Import ZArith Lia.
From stdpp Require Import base gmap sets option list.
From S2P Require Import Prelude Rings.
Local Open Scope Z_scope.

(** ** The list of events *)

Module EventList.

(** An event keeps its [handle_]; the container of a list has none. *)
Abbreviation Heap := (gmap nat (Node Z)).

(** A [DCHECK] of an expression. *)
Definition dcheck (b : option bool) : option unit := v ← b; guard (v = true);; Some ().

Definition new_Event (h : Heap) (this : nat) : Heap := <[this := Node_ 0 this this]> h.

(** [handle] is the answer of [CreateEvent]. *)
Definition InitListElement (h : Heap) (this : nat) (handle : Z) : option Heap :=
  n ← h !! this;
  guard (data n = 0);;
  guard (handle <> 0);;
  Some (<[this := Node_ handle (next_ n) (prev_ n)]> h).

Definition ValidateLinks (h : Heap) (this : nat) : option bool :=
  n ← h !! this;
  next ← h !! next_ n;
  if (prev_ next =? this)%nat then prev ← h !! prev_ n; Some (next_ prev =? this)%nat
  else Some false.

Definition ValidateAsItem (h : Heap) (this : nat) : option bool :=
  n ← h !! this; if data n =? 0 then Some false else ValidateLinks h this.

Definition ValidateAsList (h : Heap) (this : nat) : option bool :=
  n ← h !! this; if data n =? 0 then ValidateLinks h this else Some false.

Definition ValidateAsDistinct (h : Heap) (this other : nat) : option bool :=
  a ← ValidateLinks h this;
  if a : bool then
    b ← ValidateLinks h other; Some (b && negb (this =? other)%nat)
  else Some false.

Definition IsSingleton (h : Heap) (this : nat) : option bool :=
  _ ← dcheck (ValidateLinks h this);
  n ← h !! this; Some (next_ n =? this)%nat.

Definition IsEmpty (h : Heap) (this : nat) : option bool :=
  _ ← dcheck (ValidateAsList h this); IsSingleton h this.

Definition handle (h : Heap) (this : nat) : option Z :=
  _ ← dcheck (ValidateAsItem h this); data_of h this.

Definition PushBack (h : Heap) (this other : nat) : option Heap :=
  _ ← dcheck (ValidateAsList h this);
  _ ← dcheck (ValidateAsItem h other);
  _ ← dcheck (IsSingleton h other);
  prev ← prev_of h this;
  h ← set_prev h other prev;
  h ← set_next h other this;
  prev ← prev_of h this;
  h ← set_next h prev other;
  h ← set_prev h this other;
  _ ← dcheck (ValidateAsDistinct h this other);
  Some h.

Definition Extract (h : Heap) (this : nat) : option Heap :=
  _ ← dcheck (ValidateAsItem h this);
  single ← IsSingleton h this;
  h ← (if single : bool then Some h
       else
         next ← next_of h this;
         prev ← prev_of h this;
         h ← set_prev h next prev;
         next ← next_of h this;
         prev ← prev_of h this;
         h ← set_next h prev next;
         h ← set_next h this this;
         set_prev h this this);
  _ ← dcheck (IsSingleton h this);
  Some h.

Definition PopFront (h : Heap) (this : nat) : option (Heap * nat) :=
  _ ← dcheck (ValidateAsList h this);
  _ ← dcheck (negb <$> IsSingleton h this);
  x ← next_of h this;
  h ← Extract h x; Some (h, x).

Definition PopBack (h : Heap) (this : nat) : option (Heap * nat) :=
  _ ← dcheck (ValidateAsList h this);
  _ ← dcheck (negb <$> IsSingleton h this);
  x ← prev_of h this;
  h ← Extract h x; Some (h, x).

(** The destructor of an element; the handle is closed. *)
Definition delete_element (h : Heap) (this : nat) : option (Heap * Z) :=
  n ← h !! this;
  guard (data n <> 0);;
  _ ← dcheck (IsSingleton h this);
  Some (delete this h, data n).

(** The destructor of a container deletes what the list holds. *)
Fixpoint delete_list (fuel : nat) (h : Heap) (this : nat) : option (Heap * list Z) :=
  match fuel with
  | O => None
  | S fuel =>
      empty ← IsEmpty h this;
      if empty : bool then _ ← dcheck (IsSingleton h this); Some (delete this h, [])
      else
        '(h, cv_event) ← PopFront h this;
        _ ← dcheck (ValidateAsItem h cv_event);
        '(h, closed) ← delete_element h cv_event;
        '(h, rest) ← delete_list fuel h this; Some (h, closed :: rest)
  end.
End EventList.

(** ** [WinXPCondVar] *)

Import EventList.

Inductive RunState := SHUTDOWN | RUNNING.

#[export] Instance RunState_eq_dec : EqDecision RunState.
Proof. solve_decision. Defined.

Record WinXPCondVar := WinXPCondVar_ {
  run_state_ : RunState;
  events : Heap;
  recycling_list_size_ : Z;
  allocation_counter_ : Z;
}.

(** The containers are members. *)
Definition waiting_list_ : nat := 1.
Definition recycling_list_ : nat := 2.

Definition new_WinXPCondVar : WinXPCondVar :=
  WinXPCondVar_ RUNNING (new_Event (new_Event ∅ waiting_list_) recycling_list_) 0 0.

(** What the system gives for a new event: its address and its handle. *)
Definition GetEventForWaiting (cv : WinXPCondVar) (address : nat) (new_handle : Z)
    : option (WinXPCondVar * nat) :=
  '(cv, cv_event) ←
    (if recycling_list_size_ cv =? 0 then
       _ ← dcheck (IsEmpty (events cv) recycling_list_);
       h ← InitListElement (new_Event (events cv) address) address new_handle;
       handle ← handle h address;
       guard (handle <> 0);;
       Some (WinXPCondVar_ (run_state_ cv) h (recycling_list_size_ cv) (allocation_counter_ cv + 1), address)
     else
       '(h, cv_event) ← PopFront (events cv) recycling_list_;
       Some (WinXPCondVar_ (run_state_ cv) h (recycling_list_size_ cv - 1) (allocation_counter_ cv), cv_event));
  h ← PushBack (events cv) waiting_list_ cv_event;
  Some (WinXPCondVar_ (run_state_ cv) h (recycling_list_size_ cv) (allocation_counter_ cv), cv_event).

Definition RecycleEvent (cv : WinXPCondVar) (used_event : nat) : option WinXPCondVar :=
  h ← Extract (events cv) used_event;
  h ← PushBack h recycling_list_ used_event;
  Some (WinXPCondVar_ (run_state_ cv) h (recycling_list_size_ cv + 1) (allocation_counter_ cv)).

(** The locked part of [Signal]: the handle to be set, if any. *)
Definition Signal (cv : WinXPCondVar) : option (WinXPCondVar * option Z) :=
  empty ← IsEmpty (events cv) waiting_list_;
  if empty : bool then Some (cv, None)
  else
    '(h, cv_event) ← PopBack (events cv) waiting_list_;
    handle ← handle h cv_event;
    Some (WinXPCondVar_ (run_state_ cv) h (recycling_list_size_ cv) (allocation_counter_ cv), Some handle).

(** The loop of [Broadcast]: the stack of handles, its top first. *)
Fixpoint pop_all (fuel : nat) (h : Heap) (handles : list Z) : option (Heap * list Z) :=
  match fuel with
  | O => None
  | S fuel =>
      empty ← IsEmpty h waiting_list_;
      if empty : bool then Some (h, handles)
      else
        '(h, cv_event) ← PopBack h waiting_list_;
        handle ← handle h cv_event;
        pop_all fuel h (handle :: handles)
  end.

Definition Broadcast (cv : WinXPCondVar) : option (WinXPCondVar * list Z) :=
  '(h, handles) ← pop_all (S (size (events cv))) (events cv) [];
  Some (WinXPCondVar_ (run_state_ cv) h (recycling_list_size_ cv) (allocation_counter_ cv), handles).

(** The destructor with its [DCHECK]; the handles it closes. *)
Definition delete_WinXPCondVar (cv : WinXPCondVar) : option (list Z) :=
  guard (recycling_list_size_ cv = allocation_counter_ cv);;
  '(h, closed) ← delete_list (S (size (events cv))) (events cv) recycling_list_;
  '(h, closed') ← delete_list (S (size h)) h waiting_list_;
  Some (closed ++ closed').

(** ** Waiters and signallers *)

(** Where a thread is: outside, with an event but still with the callers' lock, in
    [WaitForSingleObject], back from it, or about to take the callers' lock. *)
Inductive Place :=
| Outside
| Committed (waiting_event : nat) (handle : Z) (timed : bool)
| Blocked (waiting_event : nat) (handle : Z) (timed : bool)
| Awake (waiting_event : nat)
| Relocking.

#[export] Instance Place_eq_dec : EqDecision Place.
Proof. solve_decision. Defined.

(** [signaled] has the events that are set, [setting] what each signaller that has
    dropped the internal lock still has to set. *)
Record World := World_ {
  cv : WinXPCondVar;
  threads : list Place;
  user_lock_ : option nat;
  signaled : gset Z;
  setting : list (list Z);
}.

Definition new_World (n : nat) : World :=
  World_ new_WinXPCondVar (replicate n Outside) None ∅ [].

Inductive Event :=
| Acquires (t : nat)
| Releases (t : nat)
| Waits (t : nat) (timed : bool) (address : nat) (new_handle : Z)
| Unlocks (t : nat)
| Wakes (t : nat) (timed_out : bool)
| Recycles (t : nat)
| Relocks (t : nat)
| Signals
| Broadcasts
| Sets (n : nat).

(** The address and the handle that the system offers are new. *)
Definition offered (h : Heap) (address : nat) (new_handle : Z) : Prop :=
  address <> O /\ h !! address = None /\ new_handle <> 0 /\
  map_Forall (fun _ n => data n <> new_handle) h.

#[export] Instance offered_dec h address new_handle : Decision (offered h address new_handle).
Proof. unfold offered. apply _. Defined.

(** [TimedWait] up to where it has an event; [None] when it returns at once. *)
Definition TimedWait (c : WinXPCondVar) (address : nat) (new_handle : Z)
    : option (WinXPCondVar * option (nat * Z)) :=
  if bool_decide (run_state_ c <> RUNNING) then Some (c, None)
  else
    '(c, waiting_event) ← GetEventForWaiting c address new_handle;
    handle ← handle (events c) waiting_event;
    guard (handle <> 0);;
    Some (c, Some (waiting_event, handle)).

Definition move (w : World) (t : nat) (p : Place) : World :=
  World_ (cv w) (<[t := p]> (threads w)) (user_lock_ w) (signaled w) (setting w).

Definition step (w : World) (e : Event) : option World :=
  match e with
  | Acquires t =>
      guard (threads w !! t = Some Outside);;
      guard (user_lock_ w = None);;
      Some (World_ (cv w) (threads w) (Some t) (signaled w) (setting w))
  | Releases t =>
      guard (threads w !! t = Some Outside);;
      guard (user_lock_ w = Some t);;
      Some (World_ (cv w) (threads w) None (signaled w) (setting w))
  | Waits t timed address new_handle =>
      guard (threads w !! t = Some Outside);;
      guard (user_lock_ w = Some t);;
      guard (offered (events (cv w)) address new_handle);;
      '(c, r) ← TimedWait (cv w) address new_handle;
      Some (match r with
            | None => w
            | Some (waiting_event, handle) =>
                World_ c (<[t := Committed waiting_event handle timed]> (threads w)) (user_lock_ w)
                  (if handle =? new_handle then signaled w ∖ {[handle]} else signaled w) (setting w)
            end)
  | Unlocks t =>
      match threads w !! t with
      | Some (Committed e h timed) =>
          guard (user_lock_ w = Some t);;
          Some (World_ (cv w) (<[t := Blocked e h timed]> (threads w)) None (signaled w) (setting w))
      | _ => None
      end
  | Wakes t timed_out =>
      match threads w !! t with
      | Some (Blocked e h timed) =>
          if timed_out : bool then guard (timed = true);; Some (move w t (Awake e))
          else
            guard (h ∈ signaled w);;
            Some (World_ (cv w) (<[t := Awake e]> (threads w)) (user_lock_ w) (signaled w ∖ {[h]}) (setting w))
      | _ => None
      end
  | Recycles t =>
      match threads w !! t with
      | Some (Awake e) =>
          c ← RecycleEvent (cv w) e;
          Some (World_ c (<[t := Relocking]> (threads w)) (user_lock_ w) (signaled w) (setting w))
      | _ => None
      end
  | Relocks t =>
      guard (threads w !! t = Some Relocking);;
      guard (user_lock_ w = None);;
      Some (World_ (cv w) (<[t := Outside]> (threads w)) (Some t) (signaled w) (setting w))
  | Signals =>
      '(c, handle) ← Signal (cv w);
      Some (World_ c (threads w) (user_lock_ w) (signaled w)
              (setting w ++ [option_list handle]))
  | Broadcasts =>
      '(c, handles) ← Broadcast (cv w);
      Some (World_ c (threads w) (user_lock_ w) (signaled w) (setting w ++ [handles]))
  | Sets n =>
      match setting w !! n with
      | Some (h :: handles) =>
          Some (World_ (cv w) (threads w) (user_lock_ w) ({[h]} ∪ signaled w) (<[n := handles]> (setting w)))
      | _ => None
      end
  end.

Fixpoint run (w : World) (es : list Event) : option World :=
  match es with
  | [] => Some w
  | e :: es => w ← step w e; run w es
  end.

(** ** What it stands for *)

(** The threads that wait, the last to come at the end, and those that are on their
    way back to their caller. *)
Record Spec := Spec_ { waiters : list nat; ready : list nat }.

Definition new_Spec : Spec := Spec_ [] [].

Definition without (t : nat) (l : list nat) : list nat := filter (fun u => u <> t) l.

Definition spec_step (s : Spec) (e : Event) : Spec :=
  match e with
  | Waits t _ _ _ => Spec_ (waiters s ++ [t]) (ready s)
  | Signals =>
      match last (waiters s) with
      | Some t => Spec_ (removelast (waiters s)) (t :: ready s)
      | None => s
      end
  | Broadcasts => Spec_ [] (waiters s ++ ready s)
  | Recycles t =>
      if decide (t ∈ waiters s) then Spec_ (without t (waiters s)) (t :: ready s) else s
  | Relocks t => Spec_ (waiters s) (without t (ready s))
  | Acquires _ | Releases _ | Unlocks _ | Wakes _ _ | Sets _ => s
  end.

Definition spec_run (es : list Event) : Spec := fold_left spec_step es new_Spec.
