(* ===== verification/CondVarProps.v ===== *)
(** * The condition variable keeps its promises

    The operations of the event lists on rings of memory, the invariant of the machine
    of [CondVar.v], and its theorems: it refines the list of its waiters, a thread that
    was signalled can always go on, and the destructor frees every event. *)
From Stdlib Require Import ZArith Lia.
From stdpp Require Import base gmap sets option list.
From S2P Require Import Prelude Rings CondVar.
Import CondVar.EventList.
Local Open Scope Z_scope.

(** ** The list operations on rings *)

Section EventLists.
Implicit Types (h : Heap) (l : list nat) (r x : nat).

Lemma of_next h x y : next_of h x = Some y -> exists n, h !! x = Some n /\ next_ n = y.
Proof. intros (n & Hn & ->)%fmap_Some. by exists n. Qed.

Lemma of_prev h x y : prev_of h x = Some y -> exists n, h !! x = Some n /\ prev_ n = y.
Proof. intros (n & Hn & ->)%fmap_Some. by exists n. Qed.

Lemma of_data h x d : data_of h x = Some d -> exists n, h !! x = Some n /\ data n = d.
Proof. intros (n & Hn & ->)%fmap_Some. by exists n. Qed.

Lemma links_valid h x y z : linked h x y -> linked h z x -> ValidateLinks h x = Some true.
Proof.
  intros [(n & Hn & Hny)%of_next (m & Hm & Hmx)%of_prev] [(k & Hk & Hkx)%of_next Hp].
  unfold prev_of in Hp. rewrite Hn in Hp. injection Hp as Hnz. unfold ValidateLinks. rewrite Hn. simpl.
  subst y z. rewrite Hm. simpl. rewrite Hmx, Nat.eqb_refl, Hk. simpl. by rewrite Hkx, Nat.eqb_refl.
Qed.

Lemma ring_valid h r l x : ring h r l -> x ∈ r :: l -> ValidateLinks h x = Some true.
Proof. intros Hr Hx. destruct (ring_neighbours _ _ _ _ Hr Hx) as (y & z & Hy & Hz). by eapply links_valid. Qed.

Lemma valid_item h r l x d :
  ring h r l -> x ∈ r :: l -> data_of h x = Some d -> d <> 0 -> ValidateAsItem h x = Some true.
Proof.
  intros Hr Hx (n & Hn & Hd)%of_data Hz. unfold ValidateAsItem. rewrite Hn. simpl.
  rewrite Hd, (proj2 (Z.eqb_neq _ _) Hz). by eapply ring_valid.
Qed.

Lemma valid_list h r l : ring h r l -> data_of h r = Some 0 -> ValidateAsList h r = Some true.
Proof.
  intros Hr (n & Hn & Hd)%of_data. unfold ValidateAsList. rewrite Hn. simpl. rewrite Hd. simpl.
  eapply ring_valid; [done | by left].
Qed.

Lemma singleton_spec h r l x :
  ring h r l -> x ∈ r :: l -> IsSingleton h x = Some (bool_decide (l = [] /\ x = r)).
Proof.
  intros Hr Hx. unfold IsSingleton, dcheck. rewrite (ring_valid _ _ _ _ Hr Hx). simpl.
  destruct (ring_neighbours _ _ _ _ Hr Hx) as (y & _ & [Hy _] & _). pose proof (ring_alone _ _ _ _ Hr Hx) as Ha.
  apply of_next in Hy as (n & Hn & Hny). unfold next_of in Ha. rewrite Hn in Ha |- *. simpl in *.
  rewrite Hny in *. f_equal. destruct (Nat.eqb_spec y x) as [->|Hne].
  - symmetry. apply bool_decide_eq_true. by apply Ha.
  - symmetry. apply bool_decide_eq_false. intros H. apply Ha in H. congruence.
Qed.

Lemma empty_spec h r l :
  ring h r l -> data_of h r = Some 0 -> IsEmpty h r = Some (bool_decide (l = [])).
Proof.
  intros Hr Hd. unfold IsEmpty, dcheck. rewrite (valid_list _ _ _ Hr Hd). simpl.
  rewrite (singleton_spec _ _ _ _ Hr) by (by left). f_equal. apply bool_decide_ext. tauto.
Qed.

Lemma handle_spec h r l x d :
  ring h r l -> x ∈ r :: l -> data_of h x = Some d -> d <> 0 -> handle h x = Some d.
Proof.
  intros Hr Hx Hd Hz. unfold handle, dcheck. by rewrite (valid_item _ _ _ _ _ Hr Hx Hd Hz).
Qed.

(** What an operation on some nodes leaves alone. *)
Definition changes_only (xs : list nat) h h' : Prop :=
  (forall y, y ∉ xs -> h' !! y = h !! y) /\ (forall y, data_of h' y = data_of h y) /\
  (forall y, is_Some (h' !! y) <-> is_Some (h !! y)).

Lemma some_next h x y : next_of h x = Some y -> is_Some (h !! x).
Proof. intros (n & Hn & _)%of_next. by exists n. Qed.

Lemma some_data h x d : data_of h x = Some d -> is_Some (h !! x).
Proof. intros (n & Hn & _)%of_data. by exists n. Qed.

Lemma same_some h h' : (forall y, data_of h' y = data_of h y) -> forall y, is_Some (h' !! y) <-> is_Some (h !! y).
Proof.
  intros H y. specialize (H y). unfold data_of in H.
  destruct (h' !! y), (h !! y); try done; split; by eexists.
Qed.

(** The writes of [PushBack]. *)
Lemma push_links h r l x :
  ring h r l -> is_Some (h !! x) -> x ∉ r :: l ->
  exists h1 h2 h3 h4, set_prev h x (back r l) = Some h1 /\ set_next h1 x r = Some h2 /\
    prev_of h2 r = Some (back r l) /\ set_next h2 (back r l) x = Some h3 /\ set_prev h3 r x = Some h4 /\
    ring h4 r (l ++ [x]) /\ changes_only (x :: r :: l) h h4.
Proof.
  intros Hr Hx Hni. destruct (ring_root _ _ _ Hr) as [_ Hp].
  assert (x <> r) as Hxr by (intros ->; apply Hni; by left).
  pose proof (ring_nodes _ _ _ r Hr ltac:(by left)) as Hsr.
  pose proof (ring_nodes _ _ _ _ Hr (back_in r l)) as Hsp.
  assert (forall h', (forall y, data_of h' y = data_of h y) -> forall y, is_Some (h !! y) -> is_Some (h' !! y))
    as Hsome by (intros h' Hd y; apply (same_some h h' Hd)).
  destruct (set_prev_spec h x (back r l) Hx) as (h1 & E1 & P1 & N1 & D1 & F1).
  destruct (set_next_spec h1 x r (Hsome h1 D1 x Hx)) as (h2 & E2 & N2 & P2 & D2 & F2).
  assert (forall y, data_of h2 y = data_of h y) as D2' by (intros y; by rewrite D2, D1).
  destruct (set_next_spec h2 (back r l) x (Hsome h2 D2' _ Hsp)) as (h3 & E3 & N3 & P3 & D3 & F3).
  assert (forall y, data_of h3 y = data_of h y) as D3' by (intros y; by rewrite D3, D2').
  destruct (set_prev_spec h3 r x (Hsome h3 D3' r Hsr)) as (h4 & E4 & P4 & N4 & D4 & F4).
  exists h1, h2, h3, h4. do 2 (split; [done|]).
  split; [rewrite P2, P1, decide_False by done; done|]. do 2 (split; [done|]). split.
  - apply (ring_inserted h h4 r l [] x); rewrite ?app_nil_r; [done | done | |]; intros z.
    + rewrite N4, N3, N2, N1. by repeat case_decide.
    + rewrite P4, P3, P2, P1. by repeat case_decide.
  - split; [|split; [|apply same_some]; intros y; by rewrite D4, D3'].
    intros y Hy. rewrite !not_elem_of_cons in Hy. destruct Hy as (Y1 & Y2 & Y3).
    assert (y <> back r l) as Y4 by (intros ->; pose proof (back_in r l) as Hb; rewrite elem_of_cons in Hb; tauto).
    by rewrite F4, F3, F2, F1.
Qed.

Lemma PushBack_spec h r l x d :
  ring h r l -> data_of h r = Some 0 -> ring h x [] -> data_of h x = Some d -> d <> 0 -> x ∉ r :: l ->
  exists h', PushBack h r x = Some h' /\ ring h' r (l ++ [x]) /\ changes_only (x :: r :: l) h h'.
Proof.
  intros Hr Hd0 Hx Hd Hz Hni. destruct (ring_root _ _ _ Hr) as [_ Hp].
  destruct (push_links _ _ _ _ Hr (some_data _ _ _ Hd) Hni)
    as (h1 & h2 & h3 & h4 & E1 & E2 & E3 & E4 & E5 & Hr' & Hc).
  exists h4. split; [|done]. unfold PushBack, dcheck.
  rewrite (valid_list _ _ _ Hr Hd0), (valid_item _ _ _ _ _ Hx ltac:(by left) Hd Hz).
  rewrite (singleton_spec _ _ _ _ Hx) by (by left). simpl.
  rewrite bool_decide_eq_true_2 by done. simpl. rewrite Hp. simpl. rewrite E1. simpl. rewrite E2. simpl.
  rewrite E3. simpl. rewrite E4. simpl. rewrite E5. simpl. unfold ValidateAsDistinct.
  rewrite (ring_valid _ _ _ r Hr') by (by left). simpl. rewrite (ring_valid _ _ _ x Hr').
  - rewrite (proj2 (Nat.eqb_neq r x)); [done|]. intros ->. apply Hni. by left.
  - right. apply elem_of_app. right. by left.
Qed.

(** The writes of [Extract]. *)
Lemma extract_links h r l1 x l2 :
  ring h r (l1 ++ x :: l2) ->
  exists h1 h2 h3 h4, set_prev h (front l2 r) (back r l1) = Some h1 /\
    next_of h1 x = Some (front l2 r) /\ prev_of h1 x = Some (back r l1) /\
    set_next h1 (back r l1) (front l2 r) = Some h2 /\ set_next h2 x x = Some h3 /\ set_prev h3 x x = Some h4 /\
    ring h4 r (l1 ++ l2) /\ ring h4 x [] /\ changes_only (r :: l1 ++ x :: l2) h h4.
Proof.
  intros Hr. destruct (ring_links _ _ _ _ _ Hr) as [Hn Hp].
  assert (x ∈ r :: l1 ++ x :: l2) as Hin by (right; apply elem_of_app; right; by left).
  assert (back r l1 ∈ r :: l1 ++ x :: l2) as Hbin.
  { pose proof (back_in r l1) as Hb. rewrite elem_of_cons in Hb. rewrite elem_of_cons, elem_of_app. tauto. }
  assert (front l2 r ∈ r :: l1 ++ x :: l2) as Hfin.
  { pose proof (front_in l2 r) as Hb. rewrite elem_of_cons in Hb.
    rewrite elem_of_cons, elem_of_app, elem_of_cons. tauto. }
  assert (x <> front l2 r) as Hxf.
  { intros Hx. assert (next_of h x = Some x) as Hxx by congruence.
    apply (ring_alone _ _ _ _ Hr Hin) in Hxx as [Hl _]. by destruct l1. }
  assert (forall h', (forall y, data_of h' y = data_of h y) -> forall y, y ∈ r :: l1 ++ x :: l2 -> is_Some (h' !! y))
    as Hsome by (intros h' Hd y Hy; apply (same_some h h' Hd); by eapply ring_nodes).
  destruct (set_prev_spec h (front l2 r) (back r l1) (Hsome h ltac:(done) _ Hfin)) as (h1 & E1 & P1 & N1 & D1 & F1).
  destruct (set_next_spec h1 (back r l1) (front l2 r) (Hsome h1 D1 _ Hbin)) as (h2 & E2 & N2 & P2 & D2 & F2).
  assert (forall y, data_of h2 y = data_of h y) as D2' by (intros y; by rewrite D2, D1).
  destruct (set_next_spec h2 x x (Hsome h2 D2' x Hin)) as (h3 & E3 & N3 & P3 & D3 & F3).
  assert (forall y, data_of h3 y = data_of h y) as D3' by (intros y; by rewrite D3, D2').
  destruct (set_prev_spec h3 x x (Hsome h3 D3' x Hin)) as (h4 & E4 & P4 & N4 & D4 & F4).
  exists h1, h2, h3, h4. split; [done|]. split; [by rewrite N1|].
  split; [by rewrite P1, decide_False|]. do 3 (split; [done|]). split; [|split].
  - apply (ring_removed h h4 r l1 l2 x Hr); intros z Hz.
    + rewrite N4, N3, decide_False by done. rewrite N2. by rewrite N1.
    + rewrite P4, decide_False by done. by rewrite P3, P2, P1.
  - apply ring_single; [rewrite N4, N3; by rewrite decide_True | rewrite P4; by rewrite decide_True].
  - split; [|split; [|apply same_some]; intros y; by rewrite D4, D3'].
    intros y Hy. rewrite F4, F3, F2, F1; [done | ..]; by intros ->.
Qed.

Lemma Extract_spec h r l1 x l2 d :
  ring h r (l1 ++ x :: l2) -> data_of h x = Some d -> d <> 0 ->
  exists h', Extract h x = Some h' /\ ring h' r (l1 ++ l2) /\ ring h' x [] /\
    changes_only (r :: l1 ++ x :: l2) h h'.
Proof.
  intros Hr Hd Hz. destruct (ring_links _ _ _ _ _ Hr) as [Hn Hp].
  assert (x ∈ r :: l1 ++ x :: l2) as Hin by (right; apply elem_of_app; right; by left).
  destruct (extract_links _ _ _ _ _ Hr) as (h1 & h2 & h3 & h4 & E1 & Nx & Px & E2 & E3 & E4 & Hr' & Hx & Hc).
  exists h4. split; [|done]. unfold Extract, dcheck.
  rewrite (valid_item _ _ _ _ _ Hr Hin Hd Hz), (singleton_spec _ _ _ _ Hr Hin). simpl.
  rewrite bool_decide_eq_false_2 by (intros [? _]; by destruct l1).
  rewrite Hn. simpl. rewrite Hp. simpl. rewrite E1. simpl. rewrite Nx. simpl. rewrite Px. simpl.
  rewrite E2. simpl. rewrite E3. simpl. rewrite E4. simpl.
  rewrite (singleton_spec _ _ _ _ Hx) by (by left). by rewrite bool_decide_eq_true_2.
Qed.

(** An element that is in no list stays as it is. *)
Lemma Extract_single h x d : ring h x [] -> data_of h x = Some d -> d <> 0 -> Extract h x = Some h.
Proof.
  intros Hx Hd Hz. unfold Extract, dcheck.
  rewrite (valid_item _ _ _ _ _ Hx ltac:(by left) Hd Hz), (singleton_spec _ _ _ _ Hx) by (by left). simpl.
  rewrite bool_decide_eq_true_2 by done. simpl.
  rewrite (singleton_spec _ _ _ _ Hx) by (by left). by rewrite bool_decide_eq_true_2.
Qed.

Lemma PopBack_spec h r l x d :
  ring h r (l ++ [x]) -> data_of h r = Some 0 -> data_of h x = Some d -> d <> 0 ->
  exists h', PopBack h r = Some (h', x) /\ ring h' r l /\ ring h' x [] /\
    changes_only (r :: l ++ [x]) h h'.
Proof.
  intros Hr H0 Hd Hz. destruct (Extract_spec _ _ _ _ _ _ Hr Hd Hz) as (h' & E & Hr' & Hx & Hc).
  rewrite app_nil_r in Hr'. exists h'. split; [|done]. unfold PopBack, dcheck.
  rewrite (valid_list _ _ _ Hr H0), (singleton_spec _ _ _ _ Hr) by (by left). simpl.
  rewrite bool_decide_eq_false_2 by (intros [? _]; by destruct l). simpl.
  destruct (ring_root _ _ _ Hr) as [_ ->]. simpl. by rewrite back_app, E.
Qed.

Lemma PopFront_spec h r l x d :
  ring h r (x :: l) -> data_of h r = Some 0 -> data_of h x = Some d -> d <> 0 ->
  exists h', PopFront h r = Some (h', x) /\ ring h' r l /\ ring h' x [] /\
    changes_only (r :: x :: l) h h'.
Proof.
  intros Hr H0 Hd Hz. destruct (Extract_spec h r [] x l d Hr Hd Hz) as (h' & E & Hr' & Hx & Hc).
  exists h'. split; [|done]. unfold PopFront, dcheck.
  rewrite (valid_list _ _ _ Hr H0), (singleton_spec _ _ _ _ Hr) by (by left). simpl.
  destruct (ring_root _ _ _ Hr) as [-> _]. simpl. by rewrite E.
Qed.
End EventLists.

(** ** The lists of a condition variable *)

(** [ws] wait, [rs] are free, and [ps] are out: with threads that were signalled. *)
Record Lists (h : Heap) (ws rs ps : list nat) : Prop := {
  ls_wait : ring h waiting_list_ ws;
  ls_free : ring h recycling_list_ rs;
  ls_out : forall x, x ∈ ps -> ring h x [];
  ls_distinct : NoDup (waiting_list_ :: recycling_list_ :: ws ++ rs ++ ps);
  ls_roots : data_of h waiting_list_ = Some 0 /\ data_of h recycling_list_ = Some 0;
  ls_data : forall x, x ∈ ws ++ rs ++ ps -> exists d, data_of h x = Some d /\ d <> 0;
  ls_inj : forall x y d, x ∈ ws ++ rs ++ ps -> y ∈ ws ++ rs ++ ps ->
    data_of h x = Some d -> data_of h y = Some d -> x = y;
}.

Lemma Lists_disjoint h ws rs ps :
  Lists h ws rs ps ->
  (forall y, y ∈ waiting_list_ :: ws -> (y ∉ recycling_list_ :: rs) /\ (y ∉ ps)) /\
  (forall y, y ∈ recycling_list_ :: rs -> y ∉ ps) /\ NoDup (ws ++ rs ++ ps).
Proof.
  intros [_ _ _ Hd _ _ _]. apply NoDup_cons in Hd as [H1 Hd]. apply NoDup_cons in Hd as [H2 Hd].
  rewrite elem_of_cons, !elem_of_app in H1. rewrite !elem_of_app in H2.
  assert (Hall := Hd). apply NoDup_app in Hd as (_ & Hw & Hd). apply NoDup_app in Hd as (_ & Hf & _).
  split; [|split; [|done]]; intros y [->|Hy]%elem_of_cons; rewrite ?elem_of_cons; try tauto.
  - specialize (Hw y Hy). rewrite elem_of_app in Hw. split; [|tauto]. intros [->|?]; tauto.
  - by apply Hf.
Qed.

(** The rings after elements have moved from one part to another. *)
Lemma Lists_moved h h' ws rs ps ws' rs' ps' :
  Lists h ws rs ps -> (forall y, data_of h' y = data_of h y) -> ws' ++ rs' ++ ps' ≡ₚ ws ++ rs ++ ps ->
  ring h' waiting_list_ ws' -> ring h' recycling_list_ rs' -> (forall x, x ∈ ps' -> ring h' x []) ->
  Lists h' ws' rs' ps'.
Proof.
  intros [H1 H2 H3 H4 H5 H6 H7] Hd Hp Hw Hf Ho. split; try done; rewrite ?Hd, ?Hp; try done.
  - intros x Hx. rewrite Hd. apply H6. by rewrite <- Hp.
  - intros x y d. rewrite !Hd, Hp. apply H7.
Qed.

Lemma changes_ring xs h h' r l :
  changes_only xs h h' -> (forall y, y ∈ r :: l -> y ∉ xs) -> ring h r l -> ring h' r l.
Proof.
  intros (Hc & _) Hd. apply ring_frame. intros y Hy. unfold next_of, prev_of.
  by rewrite (Hc y (Hd y Hy)).
Qed.

Lemma pop_waiting h ws x rs ps :
  Lists h (ws ++ [x]) rs ps ->
  exists h', PopBack h waiting_list_ = Some (h', x) /\ Lists h' ws rs (x :: ps) /\
    forall y, data_of h' y = data_of h y.
Proof.
  intros Hl. destruct (Lists_disjoint _ _ _ _ Hl) as (Dw & Df & Dn).
  destruct (ls_data _ _ _ _ Hl x) as (d & Hd & Hz); [rewrite !elem_of_app; left; right; by left|].
  destruct (PopBack_spec _ _ _ _ _ (ls_wait _ _ _ _ Hl) (proj1 (ls_roots _ _ _ _ Hl)) Hd Hz)
    as (h' & E & Hr & Hx & Hc). exists h'. split; [done|]. destruct (Hc) as (_ & Hdata & _). split; [|done].
  apply (Lists_moved h h' (ws ++ [x]) rs ps); try done.
  - rewrite <- (assoc_L (++)). simpl. by rewrite <- !Permutation_middle.
  - apply (changes_ring _ _ _ _ _ Hc); [|apply Hl]. intros y Hy Hin. by apply (proj1 (Dw y Hin)).
  - intros y [->|Hy]%elem_of_cons; [done|]. apply (changes_ring _ _ _ _ _ Hc); [|by apply Hl].
    intros z Hz'%list_elem_of_singleton Hin. subst z. by apply (proj2 (Dw y Hin)).
Qed.

Lemma pop_free h ws x rs ps :
  Lists h ws (x :: rs) ps ->
  exists h', PopFront h recycling_list_ = Some (h', x) /\ Lists h' ws rs (x :: ps) /\
    forall y, data_of h' y = data_of h y.
Proof.
  intros Hl. destruct (Lists_disjoint _ _ _ _ Hl) as (Dw & Df & Dn).
  destruct (ls_data _ _ _ _ Hl x) as (d & Hd & Hz); [rewrite !elem_of_app; right; left; by left|].
  destruct (PopFront_spec _ _ _ _ _ (ls_free _ _ _ _ Hl) (proj2 (ls_roots _ _ _ _ Hl)) Hd Hz)
    as (h' & E & Hr & Hx & Hc). exists h'. split; [done|]. destruct (Hc) as (_ & Hdata & _). split; [|done].
  apply (Lists_moved h h' ws (x :: rs) ps); try done.
  - simpl. by rewrite <- Permutation_middle.
  - apply (changes_ring _ _ _ _ _ Hc); [|apply Hl]. intros y Hy. by apply Dw.
  - intros y [->|Hy]%elem_of_cons; [done|]. apply (changes_ring _ _ _ _ _ Hc); [|by apply Hl].
    intros z Hz'%list_elem_of_singleton Hin. subst z. by apply (Df y Hin).
Qed.

Lemma push_waiting h ws x rs ps :
  Lists h ws rs (x :: ps) ->
  exists h', PushBack h waiting_list_ x = Some h' /\ Lists h' (ws ++ [x]) rs ps /\
    forall y, data_of h' y = data_of h y.
Proof.
  intros Hl. destruct (Lists_disjoint _ _ _ _ Hl) as (Dw & Df & Dn).
  destruct (ls_data _ _ _ _ Hl x) as (d & Hd & Hz); [rewrite !elem_of_app; right; right; by left|].
  assert (x ∉ waiting_list_ :: ws) as Hni by (intros Hin; apply (proj2 (Dw x Hin)); by left).
  destruct (PushBack_spec _ _ _ _ _ (ls_wait _ _ _ _ Hl) (proj1 (ls_roots _ _ _ _ Hl))
    (ls_out _ _ _ _ Hl x ltac:(by left)) Hd Hz Hni) as (h' & E & Hr & Hc).
  exists h'. split; [done|]. destruct (Hc) as (_ & Hdata & _). split; [|done].
  apply (Lists_moved h h' ws rs (x :: ps)); try done.
  - rewrite <- (assoc_L (++)). simpl. by rewrite <- !Permutation_middle.
  - apply (changes_ring _ _ _ _ _ Hc); [|apply Hl]. intros y Hy [->|Hin]%elem_of_cons.
    + apply (Df x Hy). by left.
    + by apply (proj1 (Dw y Hin)).
  - intros y Hy. apply (changes_ring _ _ _ _ _ Hc); [|apply Hl; by right].
    intros z Hz'%list_elem_of_singleton [->|Hin]%elem_of_cons; subst.
    + apply NoDup_app in Dn as (_ & _ & Dn). apply NoDup_app in Dn as (_ & _ & Dn).
      by apply NoDup_cons in Dn as [? _].
    + apply (proj2 (Dw y Hin)). by right.
Qed.

Lemma push_free h ws x rs ps :
  Lists h ws rs (x :: ps) ->
  exists h', PushBack h recycling_list_ x = Some h' /\ Lists h' ws (rs ++ [x]) ps /\
    forall y, data_of h' y = data_of h y.
Proof.
  intros Hl. destruct (Lists_disjoint _ _ _ _ Hl) as (Dw & Df & Dn).
  destruct (ls_data _ _ _ _ Hl x) as (d & Hd & Hz); [rewrite !elem_of_app; right; right; by left|].
  assert (x ∉ recycling_list_ :: rs) as Hni by (intros Hin; apply (Df x Hin); by left).
  destruct (PushBack_spec _ _ _ _ _ (ls_free _ _ _ _ Hl) (proj2 (ls_roots _ _ _ _ Hl))
    (ls_out _ _ _ _ Hl x ltac:(by left)) Hd Hz Hni) as (h' & E & Hr & Hc).
  exists h'. split; [done|]. destruct (Hc) as (_ & Hdata & _). split; [|done].
  apply (Lists_moved h h' ws rs (x :: ps)); try done.
  - f_equiv. rewrite <- (assoc_L (++)). simpl. by rewrite <- !Permutation_middle.
  - apply (changes_ring _ _ _ _ _ Hc); [|apply Hl]. intros y Hy [->|Hin]%elem_of_cons.
    + apply (proj2 (Dw x Hy)). by left.
    + by apply (proj1 (Dw y Hy)).
  - intros y Hy. apply (changes_ring _ _ _ _ _ Hc); [|apply Hl; by right].
    intros z Hz'%list_elem_of_singleton [->|Hin]%elem_of_cons; subst.
    + apply NoDup_app in Dn as (_ & _ & Dn). apply NoDup_app in Dn as (_ & _ & Dn).
      by apply NoDup_cons in Dn as [? _].
    + apply (Df y Hin). by right.
Qed.

Lemma extract_waiting h w1 x w2 rs ps :
  Lists h (w1 ++ x :: w2) rs ps ->
  exists h', Extract h x = Some h' /\ Lists h' (w1 ++ w2) rs (x :: ps) /\
    forall y, data_of h' y = data_of h y.
Proof.
  intros Hl. destruct (Lists_disjoint _ _ _ _ Hl) as (Dw & Df & Dn).
  destruct (ls_data _ _ _ _ Hl x) as (d & Hd & Hz);
    [rewrite !elem_of_app; left; right; by left|].
  destruct (Extract_spec _ _ _ _ _ _ (ls_wait _ _ _ _ Hl) Hd Hz) as (h' & E & Hr & Hx & Hc).
  exists h'. split; [done|]. destruct (Hc) as (_ & Hdata & _). split; [|done].
  apply (Lists_moved h h' (w1 ++ x :: w2) rs ps); try done.
  - rewrite <- !(assoc_L (++)). simpl. by rewrite <- !Permutation_middle.
  - apply (changes_ring _ _ _ _ _ Hc); [|apply Hl]. intros y Hy Hin. by apply (proj1 (Dw y Hin)).
  - intros y [->|Hy]%elem_of_cons; [done|]. apply (changes_ring _ _ _ _ _ Hc); [|by apply Hl].
    intros z Hz'%list_elem_of_singleton Hin. subst z. by apply (proj2 (Dw y Hin)).
Qed.

Lemma new_element h ws rs ps address new_handle :
  Lists h ws rs ps -> offered h address new_handle ->
  exists h', InitListElement (new_Event h address) address new_handle = Some h' /\
    Lists h' ws rs (address :: ps) /\ data_of h' address = Some new_handle /\
    (forall y, y <> address -> data_of h' y = data_of h y) /\
    (address ∉ waiting_list_ :: recycling_list_ :: ws ++ rs ++ ps).
Proof.
  intros Hl (Ha & Hnone & Hz & Hnew). unfold InitListElement, new_Event.
  rewrite lookup_insert_eq. simpl.
  repeat (case_guard; simpl; try done). rewrite insert_insert_eq. eexists. split; [done|].
  set (h' := <[address := _]> h).
  assert (forall y, y <> address -> h' !! y = h !! y) as Hold by (intros y Hy; by apply lookup_insert_ne).
  assert (h' !! address = Some (Node_ new_handle address address)) as Hadr by apply lookup_insert_eq.
  assert (address ∉ waiting_list_ :: recycling_list_ :: ws ++ rs ++ ps) as Hni.
  { intros Hin. assert (is_Some (h !! address)) as [n Hn]; [|congruence].
    rewrite !elem_of_cons, !elem_of_app in Hin. destruct Hl as [H1 H2 H3 _ _ _ _].
    destruct Hin as [->|[->|[Hin|[Hin|Hin]]]].
    - apply (ring_nodes _ _ _ _ H1). by left.
    - apply (ring_nodes _ _ _ _ H2). by left.
    - apply (ring_nodes _ _ _ _ H1). by right.
    - apply (ring_nodes _ _ _ _ H2). by right.
    - apply (ring_nodes _ _ _ _ (H3 _ Hin)). by left. }
  assert (forall r l, ring h r l -> address ∉ r :: l -> ring h' r l) as Hring.
  { intros r l Hr Hn. apply (ring_frame h); [|done]. intros y Hy. unfold next_of, prev_of.
    rewrite Hold; [done|]. by intros ->. }
  assert (forall y, y <> address -> data_of h' y = data_of h y) as Hdata
    by (intros y Hy; unfold data_of; by rewrite Hold).
  assert (data_of h' address = Some new_handle) as Hd by (unfold data_of; by rewrite Hadr).
  split; [|done]. rewrite !elem_of_cons, !elem_of_app in Hni.
  assert (forall x d, data_of h x = Some d -> d <> new_handle) as Hfresh.
  { intros x d (n & Hn & <-)%of_data. by apply (Hnew x). }
  destruct Hl as [H1 H2 H3 H4 [H5 H5'] H6 H7]. split.
  - apply Hring; [done|]. rewrite elem_of_cons. tauto.
  - apply Hring; [done|]. rewrite elem_of_cons. tauto.
  - intros x [->|Hx]%elem_of_cons.
    + apply ring_single; unfold next_of, prev_of; by rewrite Hadr.
    + apply Hring; [by apply H3|]. intros Hin%list_elem_of_singleton. subst x. tauto.
  - rewrite !(assoc_L (++)), <- Permutation_middle, <- (assoc_L (++)).
    change (waiting_list_ :: recycling_list_ :: address :: ws ++ rs ++ ps) with
      ([waiting_list_; recycling_list_] ++ [address] ++ (ws ++ rs ++ ps)).
    rewrite (assoc_L (++)), (Permutation_app_comm [_; _]), <- (assoc_L (++)). simpl.
    apply NoDup_cons. split; [|done]. rewrite !elem_of_cons, !elem_of_app. tauto.
  - split; (rewrite Hdata; [done | intros E; apply Hni; rewrite <- E; tauto]).
  - intros x Hx. destruct (decide (x = address)) as [->|Hne]; [by exists new_handle|].
    rewrite Hdata by done. apply H6. rewrite !elem_of_app, elem_of_cons in Hx. rewrite !elem_of_app. tauto.
  - intros x y d Hx Hy. rewrite !elem_of_app, elem_of_cons in Hx, Hy.
    destruct (decide (x = address)) as [->|Hnx], (decide (y = address)) as [->|Hny]; [done| | |].
    + rewrite Hd, Hdata by done. intros [= <-] Hyd. by apply Hfresh in Hyd.
    + rewrite Hd, Hdata by done. intros Hxd [= <-]. by apply Hfresh in Hxd.
    + rewrite !Hdata by done. apply H7; rewrite !elem_of_app; tauto.
Qed.

(** The class with its counters. *)
Record Counted (c : WinXPCondVar) (ws rs ps : list nat) : Prop := {
  counted_lists : Lists (events c) ws rs ps;
  counted_running : run_state_ c = RUNNING;
  counted_free : recycling_list_size_ c = Z.of_nat (length rs);
  counted_all : allocation_counter_ c = Z.of_nat (length (ws ++ rs ++ ps));
}.

Lemma Counted_start : Counted new_WinXPCondVar [] [] [].
Proof.
  split; [|done..]. split; try done.
  - by apply ring_single.
  - by apply ring_single.
  - by intros x ?%elem_of_nil.
  - repeat constructor; rewrite ?list_elem_of_singleton; [done | apply not_elem_of_nil].
  - by intros x ?%elem_of_nil.
  - by intros x y d ?%elem_of_nil.
Qed.

Lemma element_handle h ws rs ps x :
  Lists h ws rs ps -> x ∈ ws ++ rs ++ ps ->
  exists d, handle h x = Some d /\ d <> 0 /\ data_of h x = Some d.
Proof.
  intros Hl Hx. destruct (ls_data _ _ _ _ Hl x Hx) as (d & Hd & Hz). exists d. split; [|done].
  rewrite !elem_of_app in Hx. destruct Hl as [H1 H2 H3 _ _ _ _]. destruct Hx as [Hx|[Hx|Hx]].
  - by apply (handle_spec _ _ _ _ _ H1); [right|..].
  - by apply (handle_spec _ _ _ _ _ H2); [right|..].
  - by apply (handle_spec _ _ _ _ _ (H3 x Hx)); [left|..].
Qed.

(** A new waiter: its event is at the end of the list, and is new or was free. *)
Lemma GetEventForWaiting_spec c ws rs ps address new_handle :
  Counted c ws rs ps -> offered (events c) address new_handle ->
  exists c' e rs', GetEventForWaiting c address new_handle = Some (c', e) /\
    Counted c' (ws ++ [e]) rs' ps /\
    ((rs = [] /\ rs' = [] /\ e = address /\ data_of (events c') e = Some new_handle /\
      (e ∉ ws ++ rs ++ ps) /\
      forall y, y ∈ ws ++ rs ++ ps -> data_of (events c') y = data_of (events c) y) \/
     (rs = e :: rs' /\ forall y, data_of (events c') y = data_of (events c) y)).
Proof.
  intros [Hl Hrun Hf Hall] Ho. unfold GetEventForWaiting. rewrite Hf. destruct rs as [|e rs].
  - simpl. rewrite (empty_spec _ _ _ (ls_free _ _ _ _ Hl) (proj2 (ls_roots _ _ _ _ Hl))).
    rewrite bool_decide_eq_true_2 by done. simpl.
    destruct (new_element _ _ _ _ _ _ Hl Ho) as (h' & -> & Hl' & Hd & Hold & Hni). simpl.
    destruct (element_handle _ _ _ _ address Hl') as (d & -> & Hz & Hd');
      [rewrite !elem_of_app; right; right; by left|]. simpl. case_guard; [simpl | done].
    destruct (push_waiting _ _ _ _ _ Hl') as (h2 & -> & Hl2 & Hdata). simpl.
    eexists _, address, []. split; [done|]. rewrite !elem_of_cons in Hni. split.
    + split; simpl; try done. rewrite Hall. rewrite !length_app. simpl. lia.
    + left. simpl. rewrite Hdata. split_and!; try done; [tauto|].
      intros y Hy. rewrite Hdata. apply Hold. intros ->. tauto.
  - rewrite (proj2 (Z.eqb_neq _ _)) by (simpl; lia).
    destruct (pop_free _ _ _ _ _ Hl) as (h1 & -> & Hl1 & Hd1). simpl.
    destruct (push_waiting _ _ _ _ _ Hl1) as (h2 & -> & Hl2 & Hd2). simpl.
    eexists _, e, rs. split; [done|]. split.
    + split; simpl; try done; [lia|]. rewrite Hall, !length_app. simpl. lia.
    + right. simpl. split; [done|]. intros y. by rewrite Hd2, Hd1.
Qed.

Lemma RecycleEvent_spec c ws rs ps x :
  Counted c ws rs ps -> x ∈ ws \/ x ∈ ps ->
  exists c' ws' ps', RecycleEvent c x = Some c' /\ Counted c' ws' (rs ++ [x]) ps' /\
    (forall y, data_of (events c') y = data_of (events c) y) /\
    ((exists w1 w2, ws = w1 ++ x :: w2 /\ ws' = w1 ++ w2 /\ ps' = ps) \/ (ws' = ws /\ ps ≡ₚ x :: ps')).
Proof.
  intros [Hl Hrun Hf Hall] Hx. unfold RecycleEvent. destruct Hx as [Hx|Hx].
  - apply list_elem_of_split in Hx as (w1 & w2 & ->).
    destruct (extract_waiting _ _ _ _ _ _ Hl) as (h1 & -> & Hl1 & Hd1). simpl.
    destruct (push_free _ _ _ _ _ Hl1) as (h2 & -> & Hl2 & Hd2). simpl.
    eexists _, (w1 ++ w2), ps. split; [done|]. split; [|split].
    + split; simpl; try done; rewrite ?length_app; simpl; [lia|]. rewrite Hall, !length_app. simpl. lia.
    + intros y. simpl. by rewrite Hd2, Hd1.
    + left. by exists w1, w2.
  - destruct (ls_data _ _ _ _ Hl x) as (d & Hd & Hz); [rewrite !elem_of_app; tauto|].
    rewrite (Extract_single _ _ _ (ls_out _ _ _ _ Hl x Hx) Hd Hz). simpl.
    destruct (elem_of_Permutation ps x) as [[ps' Hp] _]; [done|].
    assert (Lists (events c) ws rs (x :: ps')) as Hl'.
    { apply (Lists_moved _ _ _ _ _ _ _ _ Hl); try done; [by rewrite Hp | apply Hl | apply Hl|].
      intros y. rewrite <- Hp. apply Hl. }
    destruct (push_free _ _ _ _ _ Hl') as (h2 & -> & Hl2 & Hd2). simpl.
    eexists _, ws, ps'. split; [done|]. split; [|split].
    + split; simpl; try done; rewrite ?length_app; simpl; [lia|]. rewrite Hall.
      rewrite Hp. rewrite !length_app. simpl. lia.
    + intros y. simpl. by rewrite Hd2.
    + by right.
Qed.

Lemma Signal_none c rs ps : Counted c [] rs ps -> Signal c = Some (c, None).
Proof.
  intros [Hl _ _ _]. unfold Signal.
  by rewrite (empty_spec _ _ _ (ls_wait _ _ _ _ Hl) (proj1 (ls_roots _ _ _ _ Hl))).
Qed.

Lemma Signal_last c ws x rs ps :
  Counted c (ws ++ [x]) rs ps ->
  exists c' d, Signal c = Some (c', Some d) /\ Counted c' ws rs (x :: ps) /\
    data_of (events c) x = Some d /\ forall y, data_of (events c') y = data_of (events c) y.
Proof.
  intros [Hl Hrun Hf Hall]. unfold Signal.
  rewrite (empty_spec _ _ _ (ls_wait _ _ _ _ Hl) (proj1 (ls_roots _ _ _ _ Hl))).
  rewrite bool_decide_eq_false_2 by (by destruct ws). simpl.
  destruct (pop_waiting _ _ _ _ _ Hl) as (h' & -> & Hl' & Hd). simpl.
  destruct (element_handle _ _ _ _ x Hl') as (d & -> & Hz & Hxd);
    [rewrite !elem_of_app; right; right; by left|]. simpl. rewrite Hd in Hxd.
  eexists _, d. split; [done|]. split; [|done]. split; simpl; try done.
  rewrite Hall, !length_app. simpl. lia.
Qed.

Lemma size_bound {A} (h : gmap nat A) (l : list nat) :
  NoDup l -> (forall x, x ∈ l -> is_Some (h !! x)) -> (length l <= size h)%nat.
Proof.
  intros Hd Hl. rewrite <- (size_list_to_set (C := gset nat) l Hd), <- size_dom.
  apply subseteq_size. intros x Hx%elem_of_list_to_set. by apply elem_of_dom, Hl.
Qed.

Lemma pop_all_spec fuel h ws rs ps acc :
  Lists h ws rs ps -> (length ws < fuel)%nat ->
  exists h' hs, pop_all fuel h acc = Some (h', hs ++ acc) /\ Lists h' [] rs (ws ++ ps) /\
    Forall2 (fun x d => data_of h x = Some d) ws hs /\ forall y, data_of h' y = data_of h y.
Proof.
  revert fuel h ps acc. induction ws as [|x ws IH] using rev_ind; intros fuel h ps acc Hl Hfuel;
    (destruct fuel as [|fuel]; [lia|]); simpl;
    rewrite (empty_spec _ _ _ (ls_wait _ _ _ _ Hl) (proj1 (ls_roots _ _ _ _ Hl))).
  - rewrite bool_decide_eq_true_2 by done. simpl. by exists h, [].
  - rewrite bool_decide_eq_false_2 by (by destruct ws). simpl.
    destruct (pop_waiting _ _ _ _ _ Hl) as (h1 & -> & Hl1 & Hd1). simpl.
    destruct (element_handle _ _ _ _ x Hl1) as (d & -> & Hz & Hxd);
      [rewrite !elem_of_app; right; right; by left|]. simpl.
    rewrite length_app in Hfuel. simpl in Hfuel.
    destruct (IH fuel h1 (x :: ps) (d :: acc) Hl1 ltac:(lia)) as (h' & hs & -> & Hl' & Hf & Hd').
    exists h', (hs ++ [d]). rewrite <- !(assoc_L (++)). simpl. split; [done|]. split; [done|]. split.
    + apply Forall2_app; [|repeat constructor; by rewrite <- Hd1].
      eapply Forall2_impl; [exact Hf|]. intros y e Hy. simpl in Hy. by rewrite <- Hd1.
    + intros y. by rewrite Hd', Hd1.
Qed.

Lemma Broadcast_spec c ws rs ps :
  Counted c ws rs ps ->
  exists c' hs, Broadcast c = Some (c', hs) /\ Counted c' [] rs (ws ++ ps) /\
    Forall2 (fun x d => data_of (events c) x = Some d) ws hs /\
    forall y, data_of (events c') y = data_of (events c) y.
Proof.
  intros [Hl Hrun Hf Hall]. unfold Broadcast.
  destruct (pop_all_spec (S (size (events c))) (events c) ws rs ps [] Hl) as (h' & hs & -> & Hl' & Hfa & Hd).
  - destruct (ls_wait _ _ _ _ Hl) as [Hnd _]. apply NoDup_cons in Hnd as [_ Hnd].
    pose proof (size_bound (events c) ws Hnd) as Hb. apply Nat.lt_succ_r, Hb.
    intros x Hx. apply (ring_nodes _ _ _ _ (ls_wait _ _ _ _ Hl)). by right.
  - simpl. rewrite app_nil_r. eexists _, hs. split; [done|]. split; [|done]. split; simpl; try done.
    rewrite Hall, !length_app. lia.
Qed.

(** ** The machine refines the list of waiters *)

Definition event_of (p : Place) : option nat :=
  match p with Committed e _ _ | Blocked e _ _ | Awake e => Some e | _ => None end.

Definition uses (w : World) (t e : nat) : Prop := threads w !! t ≫= event_of = Some e.

(** A thread that has not been woken, its event and the handle. *)
Definition sleeps (w : World) (t e : nat) (h : Z) : Prop :=
  exists timed, threads w !! t = Some (Committed e h timed) \/ threads w !! t = Some (Blocked e h timed).

Record Parts (w : World) (s : Spec) (ws rs ps : list nat) : Prop := {
  parts_counted : Counted (cv w) ws rs ps;
  parts_uses : omap event_of (threads w) ≡ₚ ws ++ ps;
  parts_handles : forall t e h, sleeps w t e h -> data_of (events (cv w)) e = Some h;
  parts_order : Forall2 (fun e t => uses w t e) ws (waiters s);
  parts_ready : forall t, t ∈ ready s <->
    threads w !! t = Some Relocking \/ exists e, e ∈ ps /\ uses w t e;
  parts_sets : forall t e h, e ∈ ps -> sleeps w t e h ->
    h ∈ signaled w \/ exists hs, hs ∈ setting w /\ h ∈ hs;
  parts_lock : forall t e h timed, threads w !! t = Some (Committed e h timed) -> user_lock_ w = Some t;
  parts_bound : (length (ws ++ rs ++ ps) <= length (threads w))%nat;
}.

Lemma sleeps_uses w t e h : sleeps w t e h -> uses w t e.
Proof. intros (timed & [H|H]); unfold uses; by rewrite H. Qed.

Lemma uses_in w s ws rs ps t e : Parts w s ws rs ps -> uses w t e -> e ∈ ws \/ e ∈ ps.
Proof.
  intros Hp Hu. rewrite <- elem_of_app, <- (parts_uses _ _ _ _ _ Hp).
  unfold uses in Hu. apply bind_Some in Hu as (p & Ht & He). apply list_elem_of_omap.
  exists p. split; [by eapply list_elem_of_lookup_2 | done].
Qed.

Lemma parts_nodup w s ws rs ps : Parts w s ws rs ps -> NoDup (ws ++ ps).
Proof.
  intros Hp. destruct (Lists_disjoint _ _ _ _ (counted_lists _ _ _ _ (parts_counted _ _ _ _ _ Hp))) as (_ & _ & Hd).
  apply NoDup_app in Hd as (H1 & H2 & Hd). apply NoDup_app in Hd as (_ & _ & H3).
  apply NoDup_app. split; [done|]. split; [|done]. intros x Hx Hin. apply (H2 x Hx).
  apply elem_of_app. by right.
Qed.

(** No two threads use one event. *)
Lemma uses_unique w s ws rs ps t u e : Parts w s ws rs ps -> uses w t e -> uses w u e -> t = u.
Proof.
  intros Hp Ht Hu. destruct (decide (t = u)) as [|Hne]; [done | exfalso].
  unfold uses in *. apply bind_Some in Ht as (p & Ht & Hpe). apply bind_Some in Hu as (q & Hu & Hqe).
  destruct (list_split _ _ _ Ht) as (rest & Hold & Hnew).
  pose proof (parts_nodup _ _ _ _ _ Hp) as Hd. rewrite <- (parts_uses _ _ _ _ _ Hp), Hold in Hd.
  simpl in Hd. rewrite Hpe in Hd. apply NoDup_cons in Hd as [Hd _]. apply Hd.
  apply list_elem_of_omap. exists q. split; [|done].
  assert (q ∈ Outside :: rest) as Hin.
  { rewrite <- (Hnew Outside). apply (list_elem_of_lookup_2 _ u). by rewrite list_lookup_insert_ne. }
  apply elem_of_cons in Hin as [->|Hin]; [done | done].
Qed.

Lemma waiter_uses w s ws rs ps t : Parts w s ws rs ps -> t ∈ waiters s <-> exists e, e ∈ ws /\ uses w t e.
Proof.
  intros Hp. pose proof (parts_order _ _ _ _ _ Hp) as Ho. split.
  - intros Ht. apply list_elem_of_lookup_1 in Ht as (i & Hi).
    destruct (Forall2_lookup_r _ _ _ _ _ Ho Hi) as (e & He & Hu). exists e. split; [|done].
    by eapply list_elem_of_lookup_2.
  - intros (e & He & Hu). apply list_elem_of_lookup_1 in He as (i & Hi).
    destruct (Forall2_lookup_l _ _ _ _ _ Ho Hi) as (u & Hi' & Hu').
    rewrite (uses_unique _ _ _ _ _ _ _ _ Hp Hu Hu'). by eapply list_elem_of_lookup_2.
Qed.

Lemma omap_shorter {A B} (f : A -> option B) (l : list A) : (length (omap f l) <= length l)%nat.
Proof. induction l as [|x l IH]; csimpl; [done|]. destruct (f x); csimpl; lia. Qed.

Lemma moved_lookup {A} (l : list A) t old p u :
  l !! t = Some old -> <[t := p]> l !! u = if decide (u = t) then Some p else l !! u.
Proof.
  intros Ht. case_decide as E; [subst|by apply list_lookup_insert_ne].
  apply list_lookup_insert_eq. by eapply lookup_lt_Some.
Qed.

Lemma moved_uses l t old p :
  l !! t = Some old -> exists rest, omap event_of l ≡ₚ option_list (event_of old) ++ rest /\
    omap event_of (<[t := p]> l) ≡ₚ option_list (event_of p) ++ rest /\ (length rest < length l)%nat.
Proof.
  intros Ht. destruct (list_split _ _ _ Ht) as (rest & Hold & Hnew). exists (omap event_of rest).
  split; [|split].
  - rewrite Hold. simpl. by destruct (event_of old).
  - rewrite (Hnew p). simpl. by destruct (event_of p).
  - rewrite Hold. simpl. pose proof (omap_shorter event_of rest). lia.
Qed.

(** A thread that keeps its event while it moves on. *)
Lemma Parts_moved w s ws rs ps t old new lock sig :
  Parts w s ws rs ps -> threads w !! t = Some old -> event_of old = event_of new ->
  old <> Relocking -> new <> Relocking ->
  (forall e h timed, new <> Committed e h timed) ->
  (forall e h timed, new = Blocked e h timed -> sleeps w t e h) ->
  (forall u e h timed, u <> t -> threads w !! u = Some (Committed e h timed) -> lock = Some u) ->
  (forall u e h, u <> t \/ new <> Awake e -> e ∈ ps -> sleeps w u e h -> h ∈ signaled w -> h ∈ sig) ->
  Parts (World_ (cv w) (<[t := new]> (threads w)) lock sig (setting w)) s ws rs ps.
Proof.
  intros Hp Ht He Hr1 Hr2 Hnc Hb Hlock Hsig.
  assert (forall u e, uses (World_ (cv w) (<[t := new]> (threads w)) lock sig (setting w)) u e <-> uses w u e)
    as Huses.
  { intros u e. unfold uses. simpl. rewrite (moved_lookup _ _ _ _ u Ht).
    case_decide; [subst; rewrite Ht; simpl; by rewrite He | done]. }
  assert (forall u e h, sleeps (World_ (cv w) (<[t := new]> (threads w)) lock sig (setting w)) u e h ->
            sleeps w u e h) as Hsl.
  { intros u e h (timed & Hu). simpl in Hu. rewrite (moved_lookup _ _ _ _ u Ht) in Hu.
    case_decide as E; [|by exists timed]. subst u. destruct Hu as [[= Hu]|[= Hu]]; [by apply Hnc in Hu|].
    by apply (Hb e h timed). }
  destruct (moved_uses _ _ _ new Ht) as (rest & H1 & H2 & _). rewrite <- He in H2.
  destruct Hp as [P1 P2 P3 P4 P5 P6 P7 P8]. split; simpl; try done.
  - by rewrite H2, <- H1.
  - intros u e h Hu. by apply (P3 u), Hsl.
  - eapply Forall2_impl; [exact P4|]. intros e u Hu. by apply Huses.
  - intros u. rewrite P5, (moved_lookup _ _ _ _ u Ht). setoid_rewrite Huses.
    case_decide as E; [|done]. subst u. rewrite Ht. split; (intros [[=]|?]; [done | by right]).
  - intros u e h Hin Hu. destruct (P6 u e h Hin (Hsl _ _ _ Hu)) as [Hs|]; [left | by right].
    apply (Hsig u e); try done; [|by apply Hsl]. destruct (decide (u = t)) as [->|]; [right | by left].
    destruct Hu as (timed & Hu). simpl in Hu. rewrite (moved_lookup _ _ _ _ t Ht) in Hu.
    rewrite decide_True in Hu by done. intros ->. by destruct Hu.
  - intros u e h timed. rewrite (moved_lookup _ _ _ _ u Ht). case_decide as E.
    + intros [= Hc]. by apply Hnc in Hc.
    + by apply Hlock.
  - by rewrite length_insert.
Qed.

Lemma offered_fresh w s ws rs ps address new_handle t e h :
  Parts w s ws rs ps -> offered (events (cv w)) address new_handle -> sleeps w t e h -> h <> new_handle.
Proof.
  intros Hp (_ & _ & _ & Hnew) Hs. apply (parts_handles _ _ _ _ _ Hp) in Hs as (n & Hn & <-)%of_data.
  by apply (Hnew e).
Qed.

Lemma Parts_waits w s ws rs ps t timed address new_handle :
  Parts w s ws rs ps -> threads w !! t = Some Outside -> user_lock_ w = Some t ->
  offered (events (cv w)) address new_handle ->
  exists c e h rs', TimedWait (cv w) address new_handle = Some (c, Some (e, h)) /\
    Parts (World_ c (<[t := Committed e h timed]> (threads w)) (user_lock_ w)
             (if h =? new_handle then signaled w ∖ {[h]} else signaled w) (setting w))
      (spec_step s (Waits t timed address new_handle)) (ws ++ [e]) rs' ps.
Proof.
  intros Hp Ht Hlk Ho. pose proof (parts_counted _ _ _ _ _ Hp) as Hc.
  destruct (GetEventForWaiting_spec _ _ _ _ _ _ Hc Ho) as (c & e & rs' & Eg & Hc' & Hcase).
  destruct (element_handle _ _ _ _ e (counted_lists _ _ _ _ Hc')) as (h & Eh & Hz & Hd);
    [rewrite !elem_of_app; left; right; by left|].
  exists c, e, h, rs'. unfold TimedWait. rewrite bool_decide_eq_false_2 by (rewrite (counted_running _ _ _ _ Hc); tauto).
  rewrite Eg. simpl. rewrite Eh. simpl. case_guard; [split; [done|] | done].
  assert (forall y, y ∈ ws ++ ps -> data_of (events c) y = data_of (events (cv w)) y) as Hold.
  { intros y Hy. destruct Hcase as [(_ & _ & _ & _ & _ & Hsame)|(_ & Hsame)]; apply Hsame.
    rewrite elem_of_app in Hy. rewrite !elem_of_app. tauto. }
  set (w' := World_ c _ _ _ _).
  assert (forall u, threads w' !! u = if decide (u = t) then Some (Committed e h timed) else threads w !! u)
    as Hlook by (intros u; apply (moved_lookup _ _ _ _ u Ht)).
  assert (e ∉ ws ++ ps) as Hni.
  { destruct (Lists_disjoint _ _ _ _ (counted_lists _ _ _ _ Hc')) as (_ & _ & Hnd).
    rewrite <- (assoc_L (++)) in Hnd. simpl in Hnd. rewrite <- Permutation_middle in Hnd.
    apply NoDup_cons in Hnd as [Hnd _]. rewrite !elem_of_app in Hnd. rewrite elem_of_app. tauto. }
  destruct (moved_uses _ _ _ (Committed e h timed) Ht) as (rest & U1 & U2 & U3). simpl in U1, U2.
  pose proof (parts_bound _ _ _ _ _ Hp) as Hbound.
  destruct Hp as [P1 P2 P3 P4 P5 P6 P7 P8]. split; simpl; try done.
  - rewrite U2, <- U1, P2, <- (assoc_L (++)). simpl. by rewrite Permutation_middle.
  - intros u x d (tm & Hu). rewrite !Hlook in Hu. case_decide as E.
    + destruct Hu as [[= <- <- <-]|[=]]. done.
    + assert (sleeps w u x d) as Hs by (by exists tm). rewrite Hold; [by apply (P3 u)|].
      rewrite <- P2. apply sleeps_uses in Hs. unfold uses in Hs. apply bind_Some in Hs as (p & Hup & Hpe).
      apply list_elem_of_omap. exists p. split; [by eapply list_elem_of_lookup_2 | done].
  - apply Forall2_app.
    + eapply Forall2_impl; [exact P4|]. intros x u Hu. unfold uses in *. rewrite Hlook. case_decide; [|done].
      subst u. rewrite Ht in Hu. done.
    + repeat constructor. unfold uses. rewrite Hlook. by rewrite decide_True.
  - intros u. rewrite P5, Hlook. case_decide as E.
    + subst u. rewrite Ht. split; [intros [[=]|(x & _ & Hu)] | intros [[=]|(x & Hx & Hu)]];
        unfold uses in Hu; rewrite ?Hlook, ?Ht in Hu; [done|]. rewrite decide_True in Hu by done.
      injection Hu as <-. rewrite elem_of_app in Hni. tauto.
    + assert (forall x, uses w' u x <-> uses w u x) as Hu
        by (intros x; unfold uses; rewrite Hlook; by rewrite decide_False).
      split; (intros [?|(x & Hx & Hux)]; [by left | right; exists x; split; [done | by apply Hu]]).
  - intros u x d Hx (tm & Hu). rewrite !Hlook in Hu. case_decide as E.
    + destruct Hu as [[= <- <- <-]|[=]]. rewrite elem_of_app in Hni. tauto.
    + assert (sleeps w u x d) as Hs by (by exists tm). destruct (P6 u x d Hx Hs) as [Hsig|]; [left | by right].
      case_match eqn:E2; [|done]. apply Z.eqb_eq in E2. subst new_handle. apply elem_of_difference. split; [done|].
      rewrite elem_of_singleton. intros ->.
      destruct Ho as (_ & _ & _ & Hnew). pose proof (P3 u x h Hs) as Hdx. apply of_data in Hdx as (n & Hn & Hdn).
      by apply (Hnew x n Hn).
  - intros u x d tm. rewrite Hlook. case_decide; [by subst | by apply P7].
  - rewrite length_insert. destruct Hcase as [(-> & -> & _)|(-> & _)].
    + apply Permutation_length in P2. rewrite U1 in P2. simpl in P2. rewrite !length_app in *. simpl in *. lia.
    + rewrite !length_app in *. simpl in *. lia.
Qed.

(** The list operations of a step that moves no thread. *)
Lemma Parts_same_threads w s ws rs ps w' s' ws' ps' :
  Parts w s ws rs ps -> Counted (cv w') ws' rs ps' ->
  (forall y, data_of (events (cv w')) y = data_of (events (cv w)) y) ->
  threads w' = threads w -> user_lock_ w' = user_lock_ w -> ws' ++ ps' ≡ₚ ws ++ ps ->
  Forall2 (fun e t => uses w t e) ws' (waiters s') ->
  (forall t, t ∈ ready s' <-> threads w !! t = Some Relocking \/ exists e, e ∈ ps' /\ uses w t e) ->
  (forall t e h, e ∈ ps' -> sleeps w t e h -> h ∈ signaled w' \/ exists hs, hs ∈ setting w' /\ h ∈ hs) ->
  Parts w' s' ws' rs ps'.
Proof.
  intros [P1 P2 P3 P4 P5 P6 P7 P8] Hc Hd Ht Hl Hp Ho Hr Hs.
  split; unfold uses, sleeps in *; rewrite ?Ht, ?Hl; try done.
  - by rewrite P2.
  - intros t e h. rewrite Hd. apply P3.
  - apply Permutation_length in Hp. rewrite !length_app in *. lia.
Qed.

Lemma Parts_signals w s ws rs ps :
  Parts w s ws rs ps ->
  exists w' ws' ps', step w Signals = Some w' /\ Parts w' (spec_step s Signals) ws' rs ps'.
Proof.
  intros Hp. pose proof (parts_counted _ _ _ _ _ Hp) as Hc. pose proof (parts_order _ _ _ _ _ Hp) as Ho.
  unfold step. destruct ws as [|x ws _] using rev_ind.
  - rewrite (Signal_none _ _ _ Hc). simpl. eexists _, [], ps. split; [done|].
    apply Forall2_nil_inv_l in Ho. unfold spec_step. rewrite Ho. simpl.
    apply (Parts_same_threads _ _ _ _ _ _ _ _ _ Hp); try done; simpl; [by rewrite Ho | apply Hp|].
    intros t e h He Hs. destruct (parts_sets _ _ _ _ _ Hp t e h He Hs) as [|(hs & Hhs & Hin)]; [by left|].
    right. exists hs. split; [by apply elem_of_app; left | done].
  - destruct (Signal_last _ _ _ _ _ Hc) as (c & d & -> & Hc' & Hd & Hsame). simpl.
    eexists _, ws, (x :: ps). split; [done|].
    apply Forall2_app_inv_l in Ho as (v1 & v2 & Ho1 & Ho2 & Ev).
    apply Forall2_cons_inv_l in Ho2 as (t & v3 & Ht & Ho3 & ->). apply Forall2_nil_inv_l in Ho3 as ->.
    unfold spec_step. rewrite Ev, last_snoc. rewrite removelast_last.
    apply (Parts_same_threads _ _ _ _ _ _ _ _ _ Hp); try done; simpl.
    + rewrite <- (assoc_L (++)). done.
    + intros u. rewrite elem_of_cons, (parts_ready _ _ _ _ _ Hp). split.
      * intros [->|[?|(e & He & Hu)]]; [right; exists x; split; [by left | done] | by left|].
        right. exists e. split; [by right | done].
      * intros [?|(e & He & Hu)]; [by right; left|]. apply elem_of_cons in He as [->|He].
        -- left. by apply (uses_unique _ _ _ _ _ _ _ _ Hp Hu Ht).
        -- right. right. by exists e.
    + intros u e h He Hs. apply elem_of_cons in He as [->|He].
      * right. exists [d]. split; [apply elem_of_app; right; by left|].
        apply (parts_handles _ _ _ _ _ Hp) in Hs. rewrite Hd in Hs. injection Hs as ->. by left.
      * destruct (parts_sets _ _ _ _ _ Hp u e h He Hs) as [|(hs & Hhs & Hin)]; [by left|].
        right. exists hs. split; [by apply elem_of_app; left | done].
Qed.

Lemma Parts_broadcasts w s ws rs ps :
  Parts w s ws rs ps ->
  exists w', step w Broadcasts = Some w' /\ Parts w' (spec_step s Broadcasts) [] rs (ws ++ ps).
Proof.
  intros Hp. pose proof (parts_counted _ _ _ _ _ Hp) as Hc. unfold step.
  destruct (Broadcast_spec _ _ _ _ Hc) as (c & hs & -> & Hc' & Hf & Hsame). simpl.
  eexists. split; [done|].
  apply (Parts_same_threads _ _ _ _ _ _ _ _ _ Hp); try done; simpl.
  - intros u. rewrite elem_of_app, (parts_ready _ _ _ _ _ Hp), (waiter_uses _ _ _ _ _ _ Hp).
    setoid_rewrite elem_of_app. naive_solver.
  - intros u e h He Hs. apply elem_of_app in He as [He|He].
    + right. exists hs. split; [apply elem_of_app; right; by left|].
      apply list_elem_of_lookup_1 in He as (i & Hi).
      destruct (Forall2_lookup_l _ _ _ _ _ Hf Hi) as (d & Hi' & Hd).
      apply (parts_handles _ _ _ _ _ Hp) in Hs. rewrite Hd in Hs. injection Hs as ->.
      by eapply list_elem_of_lookup_2.
    + destruct (parts_sets _ _ _ _ _ Hp u e h He Hs) as [|(ks & Hks & Hin)]; [by left|].
      right. exists ks. split; [by apply elem_of_app; left | done].
Qed.

Lemma Parts_sets w s ws rs ps n h hs :
  Parts w s ws rs ps -> setting w !! n = Some (h :: hs) ->
  Parts (World_ (cv w) (threads w) (user_lock_ w) ({[h]} ∪ signaled w) (<[n := hs]> (setting w))) s ws rs ps.
Proof.
  intros Hp Hn. apply (Parts_same_threads _ _ _ _ _ _ _ _ _ Hp); try done; try apply Hp. simpl.
  intros t e d He Hs. destruct (parts_sets _ _ _ _ _ Hp t e d He Hs) as [Hd|(ks & Hks & Hin)].
  - left. set_solver.
  - destruct (list_split _ _ _ Hn) as (rest & Hold & Hnew). rewrite Hold in Hks.
    apply elem_of_cons in Hks as [->|Hks].
    + apply elem_of_cons in Hin as [->|Hin]; [left; set_solver|]. right. exists hs.
      split; [rewrite (Hnew hs); by left | done].
    + right. exists ks. split; [rewrite (Hnew hs); by right | done].
Qed.

Lemma Parts_lock w s ws rs ps lock :
  Parts w s ws rs ps ->
  (forall u e h timed, threads w !! u = Some (Committed e h timed) -> lock = Some u) ->
  Parts (World_ (cv w) (threads w) lock (signaled w) (setting w)) s ws rs ps.
Proof. by intros [P1 P2 P3 P4 P5 P6 P7 P8] Hl; split. Qed.

Lemma Parts_relocks w s ws rs ps t :
  Parts w s ws rs ps -> threads w !! t = Some Relocking -> user_lock_ w = None ->
  Parts (World_ (cv w) (<[t := Outside]> (threads w)) (Some t) (signaled w) (setting w))
    (spec_step s (Relocks t)) ws rs ps.
Proof.
  intros Hp Ht Hl. set (w' := World_ _ _ _ _ _).
  assert (forall u, threads w' !! u = if decide (u = t) then Some Outside else threads w !! u)
    as Hlook by (intros u; apply (moved_lookup _ _ _ _ u Ht)).
  assert (forall u e, uses w' u e <-> uses w u e) as Huses.
  { intros u e. unfold uses. rewrite Hlook. case_decide; [subst; by rewrite Ht | done]. }
  assert (forall u e h, sleeps w' u e h -> sleeps w u e h) as Hsl.
  { intros u e h (timed & Hu). rewrite !Hlook in Hu. case_decide; [by destruct Hu | by exists timed]. }
  destruct (moved_uses _ _ _ Outside Ht) as (rest & U1 & U2 & _). simpl in U1, U2.
  destruct Hp as [P1 P2 P3 P4 P5 P6 P7 P8]. split; simpl; try done.
  - by rewrite U2, <- U1.
  - intros u e h Hu. by apply (P3 u), Hsl.
  - eapply Forall2_impl; [exact P4|]. intros e u Hu. by apply Huses.
  - intros u. rewrite Hlook. unfold without. rewrite list_elem_of_filter, P5. setoid_rewrite Huses.
    case_decide as E; [subst u|tauto]. split; [tauto|]. intros [[=]|(e & He & Hu)].
    unfold uses in Hu. by rewrite Ht in Hu.
  - intros u e h He Hu. by apply (P6 u e), Hsl.
  - intros u e h timed. rewrite Hlook. case_decide; [done|]. intros Hu%P7. congruence.
  - by rewrite length_insert.
Qed.

(** The order of the waiters when one of them, or a thread that was signalled, ends its wait. *)
Lemma order_recycled w w' s ws rs ps ws' ps' t e :
  Parts w s ws rs ps -> uses w t e ->
  (forall u x, x ∈ ws' ++ ps' -> uses w u x -> u <> t /\ uses w' u x) ->
  (exists w1 w2, ws = w1 ++ e :: w2 /\ ws' = w1 ++ w2 /\ ps' = ps) \/ (ws' = ws /\ ps ≡ₚ e :: ps') ->
  Forall2 (fun x u => uses w' u x) ws' (waiters (spec_step s (Recycles t))).
Proof.
  intros Hp Hu Hkeep Hcase. destruct (waiter_uses _ _ _ _ _ t Hp) as [W1 W2].
  pose proof (parts_order _ _ _ _ _ Hp) as Ho. destruct Hcase as [(w1 & w2 & -> & -> & ->)|(-> & Hps)].
  - assert (t ∈ waiters s) as Hw by (apply W2; exists e; split; [apply elem_of_app; right; by left | done]).
    simpl. rewrite decide_True by done. simpl.
    apply Forall2_app_inv_l in Ho as (v1 & v2 & Ho1 & Ho2 & Ev).
    apply Forall2_cons_inv_l in Ho2 as (t' & v3 & Ht' & Ho3 & ->).
    assert (t' = t) as -> by apply (uses_unique _ _ _ _ _ _ _ _ Hp Ht' Hu).
    assert (forall l v, (forall x, x ∈ l -> x ∈ w1 ++ w2) -> Forall2 (fun x u => uses w u x) l v ->
              (t ∉ v) /\ Forall2 (fun x u => uses w' u x) l v) as Hpart.
    { intros l v Hl Hf. split.
      - intros Hin. apply list_elem_of_lookup_1 in Hin as (i & Hi).
        destruct (Forall2_lookup_r _ _ _ _ _ Hf Hi) as (x & Hx & Hux).
        apply (Hkeep t x) in Hux as [? _]; [done|]. apply elem_of_app. left. apply Hl.
        by eapply list_elem_of_lookup_2.
      - apply (Forall2_in _ _ _ _ Hf). intros x u Hx Hux. apply Hkeep; [|done].
        apply elem_of_app. left. by apply Hl. }
    destruct (Hpart w1 v1) as [N1 F1]; [intros x Hx; apply elem_of_app; by left | done|].
    destruct (Hpart w2 v3) as [N3 F3]; [intros x Hx; apply elem_of_app; by right | done|].
    rewrite Ev. unfold without. rewrite filter_app, filter_cons_False by tauto.
    rewrite !filter_other by done. by apply Forall2_app.
  - assert (t ∉ waiters s) as Hnw.
    { intros Hin%W1. destruct Hin as (x & Hx & Hux). apply (Hkeep t x) in Hux as [? _]; [done|].
      apply elem_of_app. by left. }
    simpl. rewrite decide_False by done. apply (Forall2_in _ _ _ _ Ho). intros x u Hx Hux.
    apply Hkeep; [apply elem_of_app; by left | done].
Qed.

Lemma Parts_recycles w s ws rs ps t e :
  Parts w s ws rs ps -> threads w !! t = Some (Awake e) ->
  exists c ws' ps', RecycleEvent (cv w) e = Some c /\
    Parts (World_ c (<[t := Relocking]> (threads w)) (user_lock_ w) (signaled w) (setting w))
      (spec_step s (Recycles t)) ws' (rs ++ [e]) ps'.
Proof.
  intros Hp Ht. assert (uses w t e) as Hu by (unfold uses; by rewrite Ht).
  pose proof (uses_in _ _ _ _ _ _ _ Hp Hu) as Hin.
  destruct (RecycleEvent_spec _ _ _ _ _ (parts_counted _ _ _ _ _ Hp) Hin) as (c & ws' & ps' & Er & Hc & Hd & Hcase).
  exists c, ws', ps'. split; [done|]. set (w' := World_ _ _ _ _ _).
  assert (forall u, threads w' !! u = if decide (u = t) then Some Relocking else threads w !! u)
    as Hlook by (intros u; apply (moved_lookup _ _ _ _ u Ht)).
  assert (forall u x, u <> t -> uses w' u x <-> uses w u x) as Huses
    by (intros u x Hne; unfold uses; rewrite Hlook; by rewrite decide_False).
  assert (forall u x h, sleeps w' u x h -> u <> t /\ sleeps w u x h) as Hsl.
  { intros u x h (timed & Hs). rewrite !Hlook in Hs. case_decide; [by destruct Hs | split; [done | by exists timed]]. }
  destruct (moved_uses _ _ _ Relocking Ht) as (rest & U1 & U2 & _). simpl in U1, U2.
  pose proof (parts_nodup _ _ _ _ _ Hp) as Hnd.
  assert (forall u x, x <> e -> uses w u x -> u <> t) as Hother
    by (intros u x Hne Hux ->; unfold uses in Hu, Hux; congruence).
  assert (e :: ws' ++ ps' ≡ₚ ws ++ ps) as Hperm.
  { destruct Hcase as [(w1 & w2 & -> & -> & ->)|(-> & ->)].
    - rewrite <- !(assoc_L (++)). simpl. by rewrite Permutation_middle.
    - by rewrite Permutation_middle. }
  assert (forall x, x ∈ ws' ++ ps' -> x <> e) as Hne.
  { intros x Hx ->. rewrite <- Hperm in Hnd. by apply NoDup_cons in Hnd as [? _]. }
  assert (forall u x, x ∈ ws' ++ ps' -> uses w u x -> u <> t /\ uses w' u x) as Hkeep.
  { intros u x Hx Hux. assert (u <> t) by (eapply Hother; [by apply Hne | done]).
    split; [done | by apply Huses]. }
  destruct (waiter_uses _ _ _ _ _ t Hp) as [_ W2].
  assert (forall u, u ∈ ready (spec_step s (Recycles t)) <-> u = t \/ u ∈ ready s) as Hready.
  { intros u. simpl. case_decide as Hw; simpl; [by rewrite elem_of_cons|]. split; [by right|].
    intros [->|]; [|done]. apply (parts_ready _ _ _ _ _ Hp). right. exists e. split; [|done].
    destruct Hin as [Hin|]; [|done]. destruct Hw. apply W2. by exists e. }
  assert (forall x, x ∈ ps <-> x ∈ ps' \/ (x ∈ ps /\ x = e)) as Hps.
  { intros x. destruct Hcase as [(w1 & w2 & -> & -> & ->)|(-> & ->)]; [tauto|].
    rewrite elem_of_cons. naive_solver. }
  assert (Forall2 (fun x u => uses w' u x) ws' (waiters (spec_step s (Recycles t)))) as Horder
    by (by apply (order_recycled w w' s ws rs ps ws' ps' t e)).
  destruct Hp as [P1 P2 P3 P4 P5 P6 P7 P8]. split; simpl; try done.
  - rewrite U2. rewrite P2, <- Hperm in U1. by apply Permutation_cons_inv in U1.
  - intros u x h (Hne' & Hs)%Hsl. rewrite Hd. by apply (P3 u).
  - intros u. rewrite Hready, P5, Hlook. case_decide as E; [subst u; naive_solver|].
    split; [intros [?|[?|(x & Hx & Hux)]]|intros [?|(x & Hx & Hux)]]; try tauto.
    + right. apply Hps in Hx as [Hx|[_ ->]]; [exists x; split; [done | by apply Huses]|].
      destruct E. by apply (uses_unique w s ws rs ps u t e).
    + right. right. exists x. split; [apply Hps; by left | by apply Huses].
  - intros u x h Hx (Hne' & Hs)%Hsl. apply (P6 u x h); [apply Hps; by left | done].
  - intros u x h timed. rewrite Hlook. case_decide; [done | apply P7].
  - rewrite length_insert. apply Permutation_length in Hperm. simpl in Hperm.
    rewrite !length_app in *. simpl. lia.
Qed.

(** ** The theorems *)

Lemma Parts_start n : Parts (new_World n) new_Spec [] [] [].
Proof.
  assert (forall t p, replicate n Outside !! t = Some p -> p = Outside) as Hout
    by (intros t p Hp; by apply lookup_replicate in Hp as [-> _]).
  split; simpl; try done.
  - apply Counted_start.
  - clear Hout. induction n as [|n IH]; [done | exact IH].
  - intros t e h (timed & [H|H]); by apply Hout in H.
  - intros t. split; [by intros ?%elem_of_nil|]. intros [H|(e & ?%elem_of_nil & _)]; [|done].
    by apply Hout in H.
  - intros t e h ?%elem_of_nil; done.
  - intros t e h timed H. by apply Hout in H.
  - lia.
Qed.

(** Different events have different handles. *)
Lemma same_handle w s ws rs ps t u e e' h :
  Parts w s ws rs ps -> sleeps w t e h -> sleeps w u e' h -> e = e'.
Proof.
  intros Hp Ht Hu.
  apply (ls_inj _ _ _ _ (counted_lists _ _ _ _ (parts_counted _ _ _ _ _ Hp)) _ _ h);
    [| |by apply (parts_handles _ _ _ _ _ Hp t) | by apply (parts_handles _ _ _ _ _ Hp u)];
    rewrite !elem_of_app.
  - pose proof (uses_in _ _ _ _ _ _ _ Hp (sleeps_uses _ _ _ _ Ht)). tauto.
  - pose proof (uses_in _ _ _ _ _ _ _ Hp (sleeps_uses _ _ _ _ Hu)). tauto.
Qed.

Lemma Parts_step w s ws rs ps e w' :
  Parts w s ws rs ps -> step w e = Some w' ->
  exists ws' rs' ps', Parts w' (spec_step s e) ws' rs' ps'.
Proof.
  intros Hp. destruct e as [t|t|t timed address new_handle|t|t timed_out|t|t| | |n].
  - unfold step. intros H. repeat (case_guard; simpl in H; try done). injection H as <-.
    exists ws, rs, ps. apply (Parts_lock _ _ _ _ _ _ Hp). intros u e h timed Hu.
    apply (parts_lock _ _ _ _ _ Hp) in Hu. congruence.
  - unfold step. intros H. repeat (case_guard; simpl in H; try done). injection H as <-.
    exists ws, rs, ps. apply (Parts_lock _ _ _ _ _ _ Hp). intros u e h timed Hu.
    pose proof (parts_lock _ _ _ _ _ Hp _ _ _ _ Hu). congruence.
  - intros H. assert (threads w !! t = Some Outside /\ user_lock_ w = Some t /\
      offered (events (cv w)) address new_handle) as (Ht & Hl & Ho).
    { unfold step in H. by repeat (case_guard; simpl in H; try done). }
    destruct (Parts_waits _ _ _ _ _ _ timed _ _ Hp Ht Hl Ho) as (c & e & h & rs' & Et & Hp').
    exists (ws ++ [e]), rs', ps. unfold step in H. rewrite Et in H.
    repeat (case_guard; simpl in H; try done). injection H as <-. exact Hp'.
  - unfold step. destruct (threads w !! t) as [[|e h timed| | |]|] eqn:Ht; try done.
    case_guard as Hl; simpl; [|done]. intros [= <-]. exists ws, rs, ps.
    apply (Parts_moved _ _ _ _ _ _ _ _ _ _ Hp Ht); try done.
    + intros e' h' timed' [= <- <- <-]. exists timed. by left.
    + intros u e' h' timed' Hne Hu. apply (parts_lock _ _ _ _ _ Hp) in Hu. congruence.
  - unfold step. destruct (threads w !! t) as [[| |e h timed| |]|] eqn:Ht; try done.
    destruct timed_out; (case_guard as Hg; simpl; [|done]); intros [= <-]; exists ws, rs, ps;
      apply (Parts_moved _ _ _ _ _ _ _ _ _ _ Hp Ht); try done; try (intros; by eapply parts_lock).
    intros u e' h' Hne He' Hs Hin. apply elem_of_difference. split; [done|].
    intros ->%elem_of_singleton. assert (sleeps w t e h) as Hs2 by (exists timed; by right).
    assert (e' = e) as -> by by apply (same_handle _ _ _ _ _ _ _ _ _ _ Hp Hs Hs2).
    destruct Hne as [Hne|[]]; [|done]. apply Hne.
    by apply (uses_unique _ _ _ _ _ _ _ e Hp); eapply sleeps_uses.
  - unfold step. destruct (threads w !! t) as [[| | |e|]|] eqn:Ht; try done.
    destruct (Parts_recycles _ _ _ _ _ _ _ Hp Ht) as (c & ws' & ps' & -> & Hp'). simpl. intros [= <-].
    by exists ws', (rs ++ [e]), ps'.
  - unfold step. intros H. repeat (case_guard; simpl in H; try done). injection H as <-.
    exists ws, rs, ps. by apply Parts_relocks.
  - destruct (Parts_signals _ _ _ _ _ Hp) as (w1 & ws' & ps' & -> & Hp'). intros [= <-]. by exists ws', rs, ps'.
  - destruct (Parts_broadcasts _ _ _ _ _ Hp) as (w1 & -> & Hp'). intros [= <-]. by exists [], rs, (ws ++ ps).
  - unfold step. destruct (setting w !! n) as [[|h hs]|] eqn:Hn; try done. intros [= <-].
    exists ws, rs, ps. by apply Parts_sets.
Qed.

Lemma step_threads w e w' : step w e = Some w' -> length (threads w') = length (threads w).
Proof.
  intros E. unfold step, move in E.
  destruct e; repeat (case_guard; simpl in E; try done); repeat (case_match; simpl in *; try done);
    simplify_option_eq; repeat (case_match; simplify_option_eq; try done);
    simpl; by rewrite ?length_insert.
Qed.

Lemma run_parts n es w :
  run (new_World n) es = Some w ->
  (exists ws rs ps, Parts w (spec_run es) ws rs ps) /\ length (threads w) = n.
Proof.
  unfold spec_run. assert (forall w0 s0, (exists ws rs ps, Parts w0 s0 ws rs ps) -> run w0 es = Some w ->
    (exists ws rs ps, Parts w (fold_left spec_step es s0) ws rs ps) /\ length (threads w) = length (threads w0))
    as H.
  { induction es as [|e es IH]; intros w0 s0 H0; simpl; [by intros [= <-]|].
    destruct (step w0 e) as [w1|] eqn:E; simpl; [|done]. intros Hr.
    destruct H0 as (ws & rs & ps & Hp).
    destruct (IH w1 _ (Parts_step _ _ _ _ _ _ _ Hp E) Hr) as [H1 H2]. split; [done|].
    by rewrite H2, (step_threads _ _ _ E). }
  intros Hr. destruct (H (new_World n) new_Spec) as [H1 H2]; [|done|].
  - exists [], [], []. apply Parts_start.
  - split; [done|]. rewrite H2. simpl. apply length_replicate.
Qed.

(** C12: the condition variable is the list of its waiters. Whatever its threads do, the
    events on [waiting_list_] are, in order, those of the threads that wait according
    to the specification, in which [Wait] appends the thread before it lets go of the
    caller's lock, [Signal] takes the last one and [Broadcast] all of them; the other
    threads with an event, or about to take their caller's lock, are those that are
    ready. No check of the lists fails, whoever calls next, and there are never more
    events than threads. *)
Theorem condition_variable_refines_waiters n es w :
  run (new_World n) es = Some w ->
  let s := spec_run es in
  (exists ws rs, ring (events (cv w)) waiting_list_ ws /\ ring (events (cv w)) recycling_list_ rs /\
     Forall2 (fun e t => uses w t e) ws (waiters s) /\ recycling_list_size_ (cv w) = Z.of_nat (length rs)) /\
  (forall t, t ∈ waiters s \/ t ∈ ready s <->
     exists p, threads w !! t = Some p /\ p <> Outside) /\
  (forall t, t ∈ waiters s -> t ∈ ready s -> False) /\
  is_Some (Signal (cv w)) /\ is_Some (Broadcast (cv w)) /\
  (forall t e, threads w !! t = Some (Awake e) -> is_Some (RecycleEvent (cv w) e)) /\
  (forall a h, offered (events (cv w)) a h -> is_Some (GetEventForWaiting (cv w) a h)) /\
  allocation_counter_ (cv w) <= Z.of_nat n.
Proof.
  intros Hr s. destruct (run_parts _ _ _ Hr) as [(ws & rs & ps & Hp) Hn]. fold s in Hp.
  pose proof (parts_counted _ _ _ _ _ Hp) as Hc. split; [|split; [|split]].
  - exists ws, rs. split; [apply Hc|]. split; [apply Hc|]. split; [by apply (parts_order _ _ _ _ _ Hp) | apply Hc].
  - intros t. rewrite (waiter_uses _ _ _ _ _ _ Hp), (parts_ready _ _ _ _ _ Hp). split.
    + assert (forall e, uses w t e -> exists p, threads w !! t = Some p /\ p <> Outside) as Hu.
      { intros e (p & Ht & He)%bind_Some. exists p. split; [done|]. by intros ->. }
      intros [(e & _ & He)|[Ht|(e & _ & He)]]; [by eapply Hu | by exists Relocking | by eapply Hu].
    + intros (p & Ht & Hne). destruct (event_of p) as [e|] eqn:He; [|right; left; by destruct p].
      assert (uses w t e) as Hu by (unfold uses; by rewrite Ht).
      destruct (uses_in _ _ _ _ _ _ _ Hp Hu); [left; by exists e | right; right; by exists e].
  - intros t Hw Hrd. apply (waiter_uses _ _ _ _ _ _ Hp) in Hw as (e & He & Hu).
    apply (parts_ready _ _ _ _ _ Hp) in Hrd as [Ht|(x & Hx & Hux)]; unfold uses in *; [by rewrite Ht in Hu|].
    assert (x = e) as -> by congruence. pose proof (parts_nodup _ _ _ _ _ Hp) as Hnd.
    apply NoDup_app in Hnd as (_ & Hnd & _). by apply (Hnd e).
  - split; [|split; [|split; [|split]]].
    + destruct (Parts_signals _ _ _ _ _ Hp) as (w1 & _ & _ & E & _). unfold step in E.
      destruct (Signal (cv w)) as [[]|]; [by eexists | done].
    + destruct (Broadcast_spec _ _ _ _ Hc) as (c & hs & -> & _). by eexists.
    + intros t e Ht. destruct (Parts_recycles _ _ _ _ _ _ _ Hp Ht) as (c & _ & _ & -> & _). by eexists.
    + intros a h Ho. destruct (GetEventForWaiting_spec _ _ _ _ _ _ Hc Ho) as (c & e & _ & -> & _). by eexists.
    + rewrite (counted_all _ _ _ _ Hc), <- Hn. pose proof (parts_bound _ _ _ _ _ Hp). lia.
Qed.

(** C13: no signal is lost. A thread that was signalled, even before it sleeps, can go on
    by itself as soon as the signaller has set its event, and only needs its caller's
    lock in the end: it still has the lock and will let go of it, or its event is set,
    or a signaller is about to set it, or it is awake, or it asks for the lock. *)
Theorem no_signal_is_lost n es w t :
  run (new_World n) es = Some w -> t ∈ ready (spec_run es) ->
  is_Some (step w (Unlocks t)) \/ is_Some (step w (Wakes t false)) \/ is_Some (step w (Recycles t)) \/
  threads w !! t = Some Relocking \/
  exists e h timed i hs, threads w !! t = Some (Blocked e h timed) /\ setting w !! i = Some hs /\ h ∈ hs.
Proof.
  intros Hr Ht. destruct (run_parts _ _ _ Hr) as [(ws & rs & ps & Hp) _].
  apply (parts_ready _ _ _ _ _ Hp) in Ht as [Ht|(e & He & Hu)]; [by do 3 right; left|].
  unfold uses in Hu. apply bind_Some in Hu as (p & Ht & Hpe).
  destruct p as [|e' h timed|e' h timed|e'|]; try done; injection Hpe as ->.
  - left. unfold step. rewrite Ht. case_guard as Hl; [by eexists|]. exfalso. apply Hl.
    by apply (parts_lock _ _ _ _ _ Hp t e h timed).
  - assert (sleeps w t e h) as Hs by (exists timed; by right).
    destruct (parts_sets _ _ _ _ _ Hp t e h He Hs) as [Hsig|(hs & Hhs & Hin)].
    + right. left. unfold step. rewrite Ht. case_guard; [by eexists | done].
    + do 4 right. apply list_elem_of_lookup_1 in Hhs as (i & Hi). by exists e, h, timed, i, hs.
  - do 2 right. left. destruct (Parts_recycles _ _ _ _ _ _ _ Hp Ht) as (c & _ & _ & E & _).
    unfold step. rewrite Ht, E. by eexists.
Qed.

(** Two threads wait; a third broadcasts while the second has not yet let go of the
    lock, and thread 0's wait runs into its limit at the same time. *)
Definition two_waiters : list Event :=
  [Acquires 0; Waits 0 true 10 100; Unlocks 0; Acquires 1; Waits 1 false 11 101; Broadcasts;
   Wakes 0 true; Sets 0; Recycles 0; Unlocks 1; Sets 0].

Lemma condition_variable_refines_waiters_witness :
  exists w, run (new_World 3) two_waiters = Some w /\ ready (spec_run two_waiters) = [0%nat; 1%nat] /\
    (0%nat ∈ ready (spec_run two_waiters) -> exists p, threads w !! 0%nat = Some p /\ p <> Outside) /\
    allocation_counter_ (cv w) <= 3.
Proof.
  assert (exists w, run (new_World 3) two_waiters = Some w) as (w & Hw) by (eexists; vm_compute; reflexivity).
  exists w. split; [done|]. split; [reflexivity|].
  destruct (condition_variable_refines_waiters 3 two_waiters w Hw) as (_ & Hi & _ & _ & _ & _ & _ & Hb).
  split; [|exact Hb]. intros H. apply Hi. by right.
Defined.

Lemma no_signal_is_lost_witness :
  exists w, run (new_World 3) two_waiters = Some w /\ 1%nat ∈ ready (spec_run two_waiters) /\
    (is_Some (step w (Unlocks 1)) \/ is_Some (step w (Wakes 1 false)) \/ is_Some (step w (Recycles 1)) \/
     threads w !! 1%nat = Some Relocking \/
     exists e h timed i hs, threads w !! 1%nat = Some (Blocked e h timed) /\ setting w !! i = Some hs /\ h ∈ hs).
Proof.
  assert (exists w, run (new_World 3) two_waiters = Some w) as (w & Hw) by (eexists; vm_compute; reflexivity).
  assert (1%nat ∈ ready (spec_run two_waiters)) as Hr by (vm_compute; right; by left).
  exists w. split; [done|]. split; [done|]. exact (no_signal_is_lost 3 two_waiters w 1 Hw Hr).
Defined.

(** ** Destruction *)

Lemma ring_deleted (h : Heap) r l x : ring h r l -> x ∉ r :: l -> ring (delete x h) r l.
Proof.
  intros Hr Hx. apply (ring_frame h); [|done]. intros y Hy. unfold next_of, prev_of.
  rewrite lookup_delete_ne; [done|]. by intros ->.
Qed.

Lemma delete_list_spec fuel (h : Heap) r l ds :
  ring h r l -> data_of h r = Some 0 -> Forall2 (fun x d => data_of h x = Some d /\ d <> 0) l ds ->
  (length l < fuel)%nat ->
  exists h', delete_list fuel h r = Some (h', ds) /\ forall y, y ∉ r :: l -> h' !! y = h !! y.
Proof.
  revert h l ds. induction fuel as [|fuel IH]; intros h l ds Hr H0 Hds Hfuel; [lia|].
  simpl. rewrite (empty_spec _ _ _ Hr H0). destruct Hds as [|x d l ds [Hd Hz] Hds].
  - rewrite bool_decide_eq_true_2 by done. simpl. unfold dcheck.
    rewrite (singleton_spec _ _ _ _ Hr) by (by left). rewrite bool_decide_eq_true_2 by done. simpl.
    eexists. split; [done|]. intros y Hy. apply lookup_delete_ne. intros ->. apply Hy. by left.
  - rewrite bool_decide_eq_false_2 by done. simpl.
    destruct (PopFront_spec _ _ _ _ _ Hr H0 Hd Hz) as (h1 & -> & Hr1 & Hx1 & Hf & Hd1 & _). simpl.
    unfold dcheck. rewrite (valid_item _ _ _ _ d Hx1 ltac:(by left)); [|by rewrite Hd1 | done]. simpl.
    destruct (of_data h1 x d) as (n & Hn & En); [by rewrite Hd1|].
    unfold delete_element, dcheck. rewrite Hn. simpl. case_guard as Hg; [|congruence]. simpl.
    rewrite (singleton_spec _ _ _ _ Hx1) by (by left). rewrite bool_decide_eq_true_2 by done. simpl.
    assert (x ∉ r :: l) as Hni.
    { destruct Hr as [Hnd _]. rewrite (Permutation_swap x r) in Hnd. by apply NoDup_cons in Hnd as [? _]. }
    assert (forall y, y <> x -> data_of (delete x h1) y = data_of h y) as Hdata.
    { intros y Hy. unfold data_of in *. rewrite lookup_delete_ne by done. apply Hd1. }
    destruct (IH (delete x h1) l ds) as (h' & -> & Hf').
    + by apply ring_deleted.
    + rewrite Hdata; [done|]. intros ->. apply Hni. by left.
    + apply (Forall2_in _ _ _ _ Hds). intros y e Hy [Hye Hze]. rewrite Hdata; [done|].
      intros ->. apply Hni. by right.
    + simpl in Hfuel. lia.
    + simpl. rewrite En. eexists. split; [done|]. intros y Hy.
      assert (y <> x /\ y ∉ r :: l) as [Hyx Hyl].
      { rewrite !elem_of_cons in Hy. rewrite elem_of_cons. tauto. }
      rewrite (Hf' y Hyl), lookup_delete_ne by done. by apply Hf.
Qed.

(** The handles of different elements are different. *)
Lemma element_handles h l :
  NoDup l -> (forall x, x ∈ l -> exists d, data_of h x = Some d /\ d <> 0) ->
  (forall x y d, x ∈ l -> y ∈ l -> data_of h x = Some d -> data_of h y = Some d -> x = y) ->
  exists ds, Forall2 (fun x d => data_of h x = Some d /\ d <> 0) l ds /\ NoDup ds.
Proof.
  induction l as [|x l IH]; intros Hd Hdata Hinj; [exists []; by repeat constructor|].
  apply NoDup_cons in Hd as [Hx Hd]. destruct (Hdata x) as (d & Hxd & Hz); [by left|].
  destruct IH as (ds & Hf & Hnd); [done | intros y Hy; apply Hdata; by right
    | intros y z e Hy Hz'; apply Hinj; by right|].
  exists (d :: ds). split; [by constructor|]. constructor; [|done]. intros Hin.
  apply list_elem_of_lookup_1 in Hin as (i & Hi). destruct (Forall2_lookup_r _ _ _ _ _ Hf Hi) as (y & Hy & Hyd & _).
  apply list_elem_of_lookup_2 in Hy. apply Hx.
  by rewrite (Hinj x y d ltac:(by left) ltac:(by right) Hxd Hyd).
Qed.

#[local] Arguments delete_list : simpl never.

(** The destructor is safe exactly when it may be called. If no thread has an event,
    it deletes the events that were ever allocated and closes each handle once; if one
    has, its [DCHECK] fails. *)
Theorem destructor_frees_every_event n es w :
  run (new_World n) es = Some w ->
  ((forall t e, ~ uses w t e) ->
   exists closed, delete_WinXPCondVar (cv w) = Some closed /\ NoDup closed /\
     Z.of_nat (length closed) = allocation_counter_ (cv w)) /\
  ((exists t e, uses w t e) -> delete_WinXPCondVar (cv w) = None).
Proof.
  intros Hr. destruct (run_parts _ _ _ Hr) as [(ws & rs & ps & Hp) _].
  destruct (parts_counted _ _ _ _ _ Hp) as [Hl _ Hfree Hall].
  unfold delete_WinXPCondVar. rewrite Hfree, Hall. split.
  - intros Hnone. assert (ws ++ ps = []) as [-> ->]%app_eq_nil.
    { apply elem_of_nil_inv. intros x. rewrite <- (parts_uses _ _ _ _ _ Hp).
      intros (p & Hin & Hx)%list_elem_of_omap. apply list_elem_of_lookup_1 in Hin as (t & Ht).
      apply (Hnone t x). unfold uses. by rewrite Ht. }
    destruct (Lists_disjoint _ _ _ _ Hl) as (Dw & _ & Hnd). simpl in Hnd |- *. rewrite app_nil_r in Hnd |- *.
    destruct (element_handles (events (cv w)) rs) as (ds & Hds & Hdd); [done | | |].
    { intros x Hx. apply Hl. rewrite app_nil_r. done. }
    { intros x y d Hx Hy. apply Hl; by rewrite app_nil_r. }
    case_guard as Hg; [|done]. simpl.
    assert (length rs <= size (events (cv w)))%nat as Hsize.
    { apply size_bound; [done|]. intros x Hx. apply (ring_nodes _ _ _ _ (ls_free _ _ _ _ Hl)). by right. }
    destruct (delete_list_spec (S (size (events (cv w)))) _ _ _ _ (ls_free _ _ _ _ Hl)
      (proj2 (ls_roots _ _ _ _ Hl)) Hds ltac:(lia)) as (h' & -> & Hf). simpl.
    assert (waiting_list_ ∉ recycling_list_ :: rs) as Hw1 by (apply Dw; by left).
    destruct (delete_list_spec (S (size h')) h' waiting_list_ [] []) as (h2 & -> & _); [| | constructor | simpl; lia|].
    + apply (ring_frame (events (cv w))); [|apply Hl]. intros y Hy%list_elem_of_singleton. subst y.
      unfold next_of, prev_of. by rewrite Hf.
    + unfold data_of. rewrite Hf by done. apply Hl.
    + simpl. rewrite app_nil_r. exists ds. split; [done|]. split; [done|].
      by rewrite (Forall2_length _ _ _ Hds).
  - intros (t & e & Hu). case_guard as Hg; [exfalso | done].
    pose proof (uses_in _ _ _ _ _ _ _ Hp Hu) as Hin. rewrite !length_app in Hg.
    destruct Hin as [Hin|Hin]; apply list_elem_of_split in Hin as (l1 & l2 & ->); rewrite length_app in Hg;
      simpl in Hg; lia.
Qed.

(** Three waits need two events; once their threads have left, both are closed. *)
Definition waits_over : list Event :=
  two_waiters ++ [Wakes 1 false; Recycles 1; Relocks 0; Waits 0 true 12 102; Unlocks 0; Wakes 0 true;
                  Recycles 0].

Lemma destructor_frees_every_event_witness :
  exists w closed, run (new_World 3) waits_over = Some w /\ delete_WinXPCondVar (cv w) = Some closed /\
    NoDup closed /\ allocation_counter_ (cv w) = 2.
Proof.
  assert (exists w, run (new_World 3) waits_over = Some w) as (w & Hw) by (eexists; vm_compute; reflexivity).
  destruct (destructor_frees_every_event 3 waits_over w Hw) as [H _].
  destruct H as (closed & Hc & Hd & _).
  - intros t e. unfold uses. vm_compute in Hw. injection Hw as <-.
    by destruct t as [|[|[|t]]].
  - exists w, closed. do 3 (split; [done|]). vm_compute in Hw. by injection Hw as <-.
Defined.
