(* ===== verification/WorkerPool.v ===== *)
(** * The sequenced worker pool

    [base/threading/sequenced_worker_pool.cc]: threads that take tasks from one
    pending set, tasks of one sequence one after the other, and a shutdown that
    waits for the tasks that must not be dropped.

    [Inner] is the object behind the pool, its methods functions on it. The machine
    at the end interleaves the workers, any number of posts in progress, the thread
    that shuts the pool down and the clock. One step is what a thread does while it
    holds the lock, or one signal outside of it; where the code goes on holding the
    lock the machine lets others in, too. A condition variable wakes one of its
    waiters per signal, which the event chooses, or a waiter whose time has come, or
    spuriously. A post from the destructor of a task that is dropped counts as one from
    outside: its worker runs no task. The cleanup for tests and the tracing are left out. [None] is a
    failed [DCHECK] or an event that cannot happen. *)
From Stdlib Require Import ZArith Lia.
From stdpp Require Import base numbers option list.
From S2P Require Import Prelude.
Local Open Scope Z_scope.

(** ** Tasks *)

Inductive WorkerShutdown := CONTINUE_ON_SHUTDOWN | SKIP_ON_SHUTDOWN | BLOCK_SHUTDOWN.

#[export] Instance WorkerShutdown_eq_dec : EqDecision WorkerShutdown.
Proof. solve_decision. Defined.

(** [task] stands for the closure. *)
Record SequencedTask := SequencedTask_ {
  sequence_token_id : Z;
  sequence_task_number : Z;
  shutdown_behavior : WorkerShutdown;
  time_to_run : Z;
  task : nat;
}.

#[export] Instance SequencedTask_eq_dec : EqDecision SequencedTask.
Proof. solve_decision. Defined.

Definition SequencedTaskLessThan (lhs rhs : SequencedTask) : bool :=
  if time_to_run lhs <? time_to_run rhs then true
  else if time_to_run rhs <? time_to_run lhs then false
  else sequence_task_number lhs <? sequence_task_number rhs.

(** [std::set::insert]; an equivalent element stays. *)
Fixpoint insert_task (t : SequencedTask) (pending : list SequencedTask) : list SequencedTask :=
  match pending with
  | [] => [t]
  | u :: us =>
      if SequencedTaskLessThan t u then t :: u :: us
      else if SequencedTaskLessThan u t then u :: insert_task t us
      else u :: us
  end.

(** ** What the public methods post *)

(** A name or a token, the shutdown behavior and the delay. *)
Record Request := Request_ {
  optional_token_name : option (list Z);
  sequence_token : Z;
  behavior : WorkerShutdown;
  delay : Z;
}.

Definition delayed_behavior (delay : Z) : WorkerShutdown :=
  if delay =? 0 then BLOCK_SHUTDOWN else SKIP_ON_SHUTDOWN.

Definition PostWorkerTask : Request := Request_ None 0 BLOCK_SHUTDOWN 0.
Definition PostDelayedWorkerTask (delay : Z) : Request :=
  Request_ None 0 (delayed_behavior delay) delay.
Definition PostWorkerTaskWithShutdownBehavior (b : WorkerShutdown) : Request := Request_ None 0 b 0.
Definition PostSequencedWorkerTask (token : Z) : Request := Request_ None token BLOCK_SHUTDOWN 0.
Definition PostDelayedSequencedWorkerTask (token delay : Z) : Request :=
  Request_ None token (delayed_behavior delay) delay.
Definition PostNamedSequencedWorkerTask (token_name : list Z) : option Request :=
  if bool_decide (token_name = []) then None
  else Some (Request_ (Some token_name) 0 BLOCK_SHUTDOWN 0).
Definition PostSequencedWorkerTaskWithShutdownBehavior (token : Z) (b : WorkerShutdown) : Request :=
  Request_ None token b 0.

(** [PostDelayedTask] of the two task runners. *)
Definition TaskRunner_PostDelayedTask (shutdown_behavior_ : WorkerShutdown) (delay : Z) : Request :=
  if delay =? 0 then PostWorkerTaskWithShutdownBehavior shutdown_behavior_
  else PostDelayedWorkerTask delay.
Definition SequencedTaskRunner_PostDelayedTask (token_ : Z) (shutdown_behavior_ : WorkerShutdown)
    (delay : Z) : Request :=
  if delay =? 0 then PostSequencedWorkerTaskWithShutdownBehavior token_ shutdown_behavior_
  else PostDelayedSequencedWorkerTask token_ delay.

(** ** Workers *)

(** Where a worker is: at the top of its loop, about to run a task (and to create
    a thread), running it, waiting for work with or without a limit, woken but
    without the lock, or leaving. *)
Inductive Worker :=
| Looping
| Starting (t : SequencedTask) (new_thread_id : Z)
| Running (t : SequencedTask)
| Waiting (until : option Z)
| Woken
| Leaving
| Signalling
| Exited.

#[export] Instance Worker_eq_dec : EqDecision Worker.
Proof. solve_decision. Defined.

Definition is_processing_task (w : Worker) : bool :=
  match w with Running _ => true | _ => false end.

Definition task_sequence_token (w : Worker) : option Z :=
  match w with Running t => Some (sequence_token_id t) | _ => None end.

Definition task_shutdown_behavior (w : Worker) : option WorkerShutdown :=
  match w with Running t => Some (shutdown_behavior t) | _ => None end.

(** ** [Inner] *)

Record Inner := Inner_ {
  max_threads_ : nat;
  g_last_sequence_number_ : Z;
  named_sequence_tokens_ : list (list Z * Z);
  threads_ : list Worker;
  thread_being_created_ : bool;
  waiting_thread_count_ : Z;
  blocking_shutdown_thread_count_ : Z;
  pending_tasks_ : list SequencedTask;
  next_sequence_task_number_ : Z;
  blocking_shutdown_pending_task_count_ : Z;
  current_sequences_ : list Z;
  shutdown_called_ : bool;
  max_blocking_tasks_after_shutdown_ : Z;
}.

Definition new_Inner (max_threads : nat) (last_number : Z) : Inner :=
  Inner_ max_threads last_number [] [] false 0 0 [] 0 0 [] false 0.

(** Updates of one or two fields. *)
Definition set_threads (p : Inner) (ws : list Worker) : Inner :=
  Inner_ (max_threads_ p) (g_last_sequence_number_ p) (named_sequence_tokens_ p) ws
    (thread_being_created_ p) (waiting_thread_count_ p) (blocking_shutdown_thread_count_ p)
    (pending_tasks_ p) (next_sequence_task_number_ p) (blocking_shutdown_pending_task_count_ p)
    (current_sequences_ p) (shutdown_called_ p) (max_blocking_tasks_after_shutdown_ p).

Definition set_being_created (p : Inner) (b : bool) : Inner :=
  Inner_ (max_threads_ p) (g_last_sequence_number_ p) (named_sequence_tokens_ p) (threads_ p)
    b (waiting_thread_count_ p) (blocking_shutdown_thread_count_ p)
    (pending_tasks_ p) (next_sequence_task_number_ p) (blocking_shutdown_pending_task_count_ p)
    (current_sequences_ p) (shutdown_called_ p) (max_blocking_tasks_after_shutdown_ p).

Definition set_waiting (p : Inner) (n : Z) : Inner :=
  Inner_ (max_threads_ p) (g_last_sequence_number_ p) (named_sequence_tokens_ p) (threads_ p)
    (thread_being_created_ p) n (blocking_shutdown_thread_count_ p)
    (pending_tasks_ p) (next_sequence_task_number_ p) (blocking_shutdown_pending_task_count_ p)
    (current_sequences_ p) (shutdown_called_ p) (max_blocking_tasks_after_shutdown_ p).

Definition set_pending (p : Inner) (ts : list SequencedTask) (blocking : Z) : Inner :=
  Inner_ (max_threads_ p) (g_last_sequence_number_ p) (named_sequence_tokens_ p) (threads_ p)
    (thread_being_created_ p) (waiting_thread_count_ p) (blocking_shutdown_thread_count_ p)
    ts (next_sequence_task_number_ p) blocking
    (current_sequences_ p) (shutdown_called_ p) (max_blocking_tasks_after_shutdown_ p).

Definition set_running (p : Inner) (count : Z) (sequences : list Z) : Inner :=
  Inner_ (max_threads_ p) (g_last_sequence_number_ p) (named_sequence_tokens_ p) (threads_ p)
    (thread_being_created_ p) (waiting_thread_count_ p) count
    (pending_tasks_ p) (next_sequence_task_number_ p) (blocking_shutdown_pending_task_count_ p)
    sequences (shutdown_called_ p) (max_blocking_tasks_after_shutdown_ p).

Definition set_shutdown (p : Inner) (called : bool) (max : Z) : Inner :=
  Inner_ (max_threads_ p) (g_last_sequence_number_ p) (named_sequence_tokens_ p) (threads_ p)
    (thread_being_created_ p) (waiting_thread_count_ p) (blocking_shutdown_thread_count_ p)
    (pending_tasks_ p) (next_sequence_task_number_ p) (blocking_shutdown_pending_task_count_ p)
    (current_sequences_ p) called max.

Definition set_tokens (p : Inner) (last : Z) (names : list (list Z * Z)) : Inner :=
  Inner_ (max_threads_ p) last names (threads_ p)
    (thread_being_created_ p) (waiting_thread_count_ p) (blocking_shutdown_thread_count_ p)
    (pending_tasks_ p) (next_sequence_task_number_ p) (blocking_shutdown_pending_task_count_ p)
    (current_sequences_ p) (shutdown_called_ p) (max_blocking_tasks_after_shutdown_ p).

(** *** Sequence tokens *)

(** [g_last_sequence_number_] starts at 0 and [GetNext] returns the old value. *)
Definition GetSequenceToken (p : Inner) : Z * Inner :=
  (g_last_sequence_number_ p + 1,
   set_tokens p (g_last_sequence_number_ p + 1) (named_sequence_tokens_ p)).

Fixpoint find_name (names : list (list Z * Z)) (name : list Z) : option Z :=
  match names with
  | [] => None
  | (n, id) :: names => if bool_decide (n = name) then Some id else find_name names name
  end.

Definition LockedGetNamedTokenID (p : Inner) (name : list Z) : Z * Inner :=
  match find_name (named_sequence_tokens_ p) name with
  | Some id => (id, p)
  | None =>
      let '(result, p) := GetSequenceToken p in
      (result, set_tokens p (g_last_sequence_number_ p) ((name, result) :: named_sequence_tokens_ p))
  end.

Definition LockedGetNextSequenceTaskNumber (p : Inner) : Z * Inner :=
  (next_sequence_task_number_ p,
   Inner_ (max_threads_ p) (g_last_sequence_number_ p) (named_sequence_tokens_ p) (threads_ p)
     (thread_being_created_ p) (waiting_thread_count_ p) (blocking_shutdown_thread_count_ p)
     (pending_tasks_ p) (next_sequence_task_number_ p + 1) (blocking_shutdown_pending_task_count_ p)
     (current_sequences_ p) (shutdown_called_ p) (max_blocking_tasks_after_shutdown_ p)).

(** *** Threads *)

Definition IsSequenceTokenRunnable (p : Inner) (sequence_token_id : Z) : bool :=
  (sequence_token_id =? 0) || negb (bool_decide (sequence_token_id ∈ current_sequences_ p)).

(** Whether a thread is to be created: its number, or 0. *)
Definition PrepareToStartAdditionalThreadIfHelpful (p : Inner) : Z * Inner :=
  if negb (shutdown_called_ p) && negb (thread_being_created_ p) &&
     (length (threads_ p) <? max_threads_ p)%nat && (waiting_thread_count_ p =? 0) &&
     existsb (fun t => IsSequenceTokenRunnable p (sequence_token_id t)) (pending_tasks_ p)
  then (Z.of_nat (length (threads_ p)) + 1, set_being_created p true)
  else (0, p).

Definition CanShutdown (p : Inner) : bool :=
  negb (thread_being_created_ p) && (blocking_shutdown_thread_count_ p =? 0) &&
  (blocking_shutdown_pending_task_count_ p =? 0).

(** *** Questions of a thread; [current] is its worker, if it has one *)

Definition RunsTasksOnCurrentThread (p : Inner) (current : option nat) : bool :=
  match current ≫= fun w => threads_ p !! w with Some _ => true | None => false end.

Definition IsRunningSequenceOnCurrentThread (p : Inner) (current : option nat) (token : Z) : bool :=
  match current ≫= fun w => threads_ p !! w with
  | Some w => is_processing_task w && bool_decide (task_sequence_token w = Some token)
  | None => false
  end.

Definition IsShutdownInProgress (p : Inner) : bool := shutdown_called_ p.

(** *** Posting *)

(** The part of [PostTask] under the lock; [poster] is the worker that posts, if it
    is one. [None] is a refusal; otherwise the task and the thread to be created. *)
Definition PostTask (p : Inner) (poster : option nat) (r : Request) (time_to_run : Z) (closure : nat)
    : option (SequencedTask * Z) * Inner :=
  let refused :=
    shutdown_called_ p &&
    (negb (bool_decide (behavior r = BLOCK_SHUTDOWN)) ||
     match poster ≫= fun w => threads_ p !! w with
     | Some w => is_processing_task w &&
                 negb (bool_decide (task_shutdown_behavior w = Some BLOCK_SHUTDOWN))
     | None => false
     end ||
     (max_blocking_tasks_after_shutdown_ p <=? 0)) in
  if refused then (None, p)
  else
    let p := if shutdown_called_ p
             then set_shutdown p true (max_blocking_tasks_after_shutdown_ p - 1) else p in
    let '(number, p) := LockedGetNextSequenceTaskNumber p in
    let '(token, p) := match optional_token_name r with
                       | Some name => LockedGetNamedTokenID p name
                       | None => (sequence_token r, p)
                       end in
    let sequenced := SequencedTask_ token number (behavior r) time_to_run closure in
    let p := set_pending p (insert_task sequenced (pending_tasks_ p))
               (if bool_decide (behavior r = BLOCK_SHUTDOWN)
                then blocking_shutdown_pending_task_count_ p + 1
                else blocking_shutdown_pending_task_count_ p) in
    let '(create_thread_id, p) := PrepareToStartAdditionalThreadIfHelpful p in
    (Some (sequenced, create_thread_id), p).

(** *** Taking a task *)

Inductive GetWorkStatus :=
| GET_WORK_FOUND (t : SequencedTask)
| GET_WORK_NOT_FOUND
| GET_WORK_WAIT (until : Z).

(** The walk over the pending set: the status, what is left of the set, and the
    tasks that are to be deleted outside of the lock. *)
Fixpoint work_loop (p : Inner) (current_time : Z) (i : list SequencedTask)
    : GetWorkStatus * list SequencedTask * list SequencedTask :=
  match i with
  | [] => (GET_WORK_NOT_FOUND, [], [])
  | t :: rest =>
      if negb (IsSequenceTokenRunnable p (sequence_token_id t)) then
        let '(status, kept, deleted) := work_loop p current_time rest in (status, t :: kept, deleted)
      else if shutdown_called_ p && negb (bool_decide (shutdown_behavior t = BLOCK_SHUTDOWN)) then
        let '(status, kept, deleted) := work_loop p current_time rest in (status, kept, t :: deleted)
      else if current_time <? time_to_run t then (GET_WORK_WAIT (time_to_run t), i, [])
      else (GET_WORK_FOUND t, rest, [])
  end.

Definition GetWork (p : Inner) (current_time : Z) : GetWorkStatus * Inner * list SequencedTask :=
  let '(status, kept, deleted) := work_loop p current_time (pending_tasks_ p) in
  let count :=
    match status with
    | GET_WORK_FOUND t =>
        if bool_decide (shutdown_behavior t = BLOCK_SHUTDOWN)
        then blocking_shutdown_pending_task_count_ p - 1 else blocking_shutdown_pending_task_count_ p
    | _ => blocking_shutdown_pending_task_count_ p
    end in
  (status, set_pending p kept count, deleted).

Definition WillRunWorkerTask (p : Inner) (t : SequencedTask) : Z * Inner :=
  PrepareToStartAdditionalThreadIfHelpful
    (set_running p
       (if bool_decide (shutdown_behavior t = CONTINUE_ON_SHUTDOWN)
        then blocking_shutdown_thread_count_ p else blocking_shutdown_thread_count_ p + 1)
       (if sequence_token_id t =? 0 then current_sequences_ p
        else sequence_token_id t :: current_sequences_ p)).

(** [None] is the [DCHECK_GT]. *)
Definition DidRunWorkerTask (p : Inner) (t : SequencedTask) : option Inner :=
  let blocks := negb (bool_decide (shutdown_behavior t = CONTINUE_ON_SHUTDOWN)) in
  guard (blocks = true -> 0 < blocking_shutdown_thread_count_ p);;
  Some (set_running p
          (if blocks then blocking_shutdown_thread_count_ p - 1 else blocking_shutdown_thread_count_ p)
          (if sequence_token_id t =? 0 then current_sequences_ p
           else filter (fun id => id <> sequence_token_id t) (current_sequences_ p))).

(** *** The loop of a worker *)

Definition set_worker (p : Inner) (w : nat) (place : Worker) : Inner :=
  set_threads p (<[w := place]> (threads_ p)).

(** The beginning of [ThreadLoop]. *)
Definition ThreadLoop_enter (p : Inner) : option Inner :=
  guard (thread_being_created_ p = true);;
  let p := set_being_created p false in
  Some (set_threads p (threads_ p ++ [Looping])).

(** One turn of the loop up to where the lock is released: the task that is taken
    and those that are deleted. *)
Definition ThreadLoop_turn (p : Inner) (w : nat) (now : Z)
    : Inner * option SequencedTask * list SequencedTask :=
  let '(status, p, delete_these_outside_lock) := GetWork p now in
  match status with
  | GET_WORK_FOUND t =>
      let '(new_thread_id, p) := WillRunWorkerTask p t in
      (set_worker p w (Starting t new_thread_id), Some t, delete_these_outside_lock)
  | _ =>
      if shutdown_called_ p && (blocking_shutdown_pending_task_count_ p =? 0)
      then (set_worker p w Leaving, None, delete_these_outside_lock)
      else if negb (bool_decide (delete_these_outside_lock = []))
      then (set_worker p w Looping, None, delete_these_outside_lock)
      else
        let until := match status with GET_WORK_WAIT time => Some time | _ => None end in
        (set_worker (set_waiting p (waiting_thread_count_ p + 1)) w (Waiting until), None, [])
  end.

Definition is_waiting (w : Worker) : bool := match w with Waiting _ => true | _ => false end.

(** [SignalHasWork]: the waiter [pick] wakes up, if anybody waits. *)
Definition SignalHasWork (p : Inner) (pick : nat) : option Inner :=
  if existsb is_waiting (threads_ p) then
    guard (is_waiting <$> threads_ p !! pick = Some true);;
    Some (set_worker p pick Woken)
  else Some p.

(** ** The pool and its surroundings *)

(** A post in progress: before it has the lock, or about to create a thread or to
    signal. [number] tells posts apart. *)
Inductive PostStage :=
| BeforeLock (r : Request) (time_to_run : Z) (closure : nat)
| AfterLock (create_thread_id : Z).

Record Post := Post_ { number : nat; poster : option nat; stage : PostStage }.

Inductive Shutdown_ := NotCalled | Checking | WaitingForWorkers | Returned.

#[export] Instance Shutdown_eq_dec : EqDecision Shutdown_.
Proof. solve_decision. Defined.

(** What has happened; newest first. *)
Inductive Note :=
| Begun (number : nat) (delay : Z)
| Accepted (number : nat) (t : SequencedTask)
| Refused (number : nat)
| Taken (t : SequencedTask)
| Finished (t : SequencedTask)
| Deleted (t : SequencedTask)
| ShutdownReturned.

(** [created] counts the threads that are about to enter [ThreadLoop]. *)
Record World := World_ {
  inner : Inner;
  posts : list Post;
  posts_begun : nat;
  created : nat;
  shutdown : Shutdown_;
  now : Z;
  log : list Note;
}.

Definition new_World (max_threads : nat) (last_number time : Z) : World :=
  World_ (new_Inner max_threads last_number) [] 0 0 NotCalled time [].

Inductive Event :=
| ClockTicks (time : Z)
| E_GetSequenceToken
| E_GetNamedSequenceToken (name : list Z)
| PostBegins (poster : option nat) (r : Request) (closure : nat)
| PostLocks (n : nat)
| PostEnds (n pick : nat)
| ThreadEnters
| WorkerTurns (w : nat)
| TaskStarts (w pick : nat)
| TaskFinishes (w : nat)
| WaitEnds (w : nat)
| WorkerRelocks (w : nat)
| WorkerSignals (w pick : nat)
| WorkerUnblocksShutdown (w : nat)
| ShutdownCalled (max_new_blocking_tasks_after_shutdown : Z) (pick : nat)
| ShutdownChecks
| ShutdownWakes.

Definition remove_at {A} (l : list A) (n : nat) : list A := take n l ++ drop (S n) l.

Definition set_inner (w : World) (p : Inner) : World :=
  World_ p (posts w) (posts_begun w) (created w) (shutdown w) (now w) (log w).

(** What follows the lock in [PostTask] and at the start of a task. *)
Definition create_or_signal (w : World) (create_thread_id : Z) (pick : nat) : option World :=
  if create_thread_id =? 0 then set_inner w <$> SignalHasWork (inner w) pick
  else Some (World_ (inner w) (posts w) (posts_begun w) (S (created w)) (shutdown w) (now w) (log w)).

(** A worker posts from within its task. *)
Definition may_post (p : Inner) (poster : option nat) : bool :=
  match poster with
  | Some i => default false (is_processing_task <$> threads_ p !! i)
  | None => true
  end.

Definition shutdown_checks (w : World) : World :=
  let returns := CanShutdown (inner w) in
  World_ (inner w) (posts w) (posts_begun w) (created w)
    (if returns then Returned else WaitingForWorkers) (now w)
    (if returns then ShutdownReturned :: log w else log w).

(** [Shutdown] up to its first wait; a second call returns at once. *)
Definition Shutdown (w : World) (max_new_blocking_tasks_after_shutdown : Z) (pick : nat) : option World :=
  guard (0 <= max_new_blocking_tasks_after_shutdown);;
  if shutdown_called_ (inner w) then Some w
  else
    p ← SignalHasWork (set_shutdown (inner w) true max_new_blocking_tasks_after_shutdown) pick;
    Some (if CanShutdown p
          then World_ p (posts w) (posts_begun w) (created w) Returned (now w)
                 (ShutdownReturned :: log w)
          else World_ p (posts w) (posts_begun w) (created w) Checking (now w) (log w)).

Definition step (w : World) (e : Event) : option World :=
  let p := inner w in
  match e with
  | ClockTicks time =>
      guard (now w <= time);;
      Some (World_ p (posts w) (posts_begun w) (created w) (shutdown w) time (log w))
  | E_GetSequenceToken => Some (set_inner w (snd (GetSequenceToken p)))
  | E_GetNamedSequenceToken name =>
      guard (name <> []);; Some (set_inner w (snd (LockedGetNamedTokenID p name)))
  | PostBegins poster r closure =>
      guard (may_post p poster = true);;
      guard (delay r = 0 \/ behavior r = SKIP_ON_SHUTDOWN);;
      Some (World_ p (posts w ++ [Post_ (posts_begun w) poster (BeforeLock r (now w + delay r) closure)])
              (S (posts_begun w)) (created w) (shutdown w) (now w)
              (Begun (posts_begun w) (delay r) :: log w))
  | PostLocks n =>
      post ← posts w !! n;
      match stage post with
      | AfterLock _ => None
      | BeforeLock r time_to_run closure =>
          let '(result, p) := PostTask p (poster post) r time_to_run closure in
          Some (match result with
                | None =>
                    World_ p (remove_at (posts w) n) (posts_begun w) (created w) (shutdown w) (now w)
                      (Refused (number post) :: log w)
                | Some (sequenced, create_thread_id) =>
                    World_ p (<[n := Post_ (number post) (poster post) (AfterLock create_thread_id)]> (posts w))
                      (posts_begun w) (created w) (shutdown w) (now w)
                      (Accepted (number post) sequenced :: log w)
                end)
      end
  | PostEnds n pick =>
      post ← posts w !! n;
      match stage post with
      | BeforeLock _ _ _ => None
      | AfterLock create_thread_id =>
          create_or_signal
            (World_ p (remove_at (posts w) n) (posts_begun w) (created w) (shutdown w) (now w) (log w))
            create_thread_id pick
      end
  | ThreadEnters =>
      match created w with
      | O => None
      | S k =>
          p ← ThreadLoop_enter p;
          Some (World_ p (posts w) (posts_begun w) k (shutdown w) (now w) (log w))
      end
  | WorkerTurns i =>
      guard (threads_ p !! i = Some Looping);;
      let '(p, taken, deleted) := ThreadLoop_turn p i (now w) in
      Some (World_ p (posts w) (posts_begun w) (created w) (shutdown w) (now w)
              ((Deleted <$> deleted) ++ match taken with Some t => [Taken t] | None => [] end ++ log w))
  | TaskStarts i pick =>
      match threads_ p !! i with
      | Some (Starting t new_thread_id) =>
          (* the worker signals, creates the thread and runs the task *)
          w ← set_inner w <$> SignalHasWork (set_worker p i (Running t)) pick;
          Some (if new_thread_id =? 0 then w
                else World_ (inner w) (posts w) (posts_begun w) (S (created w)) (shutdown w) (now w) (log w))
      | _ => None
      end
  | TaskFinishes i =>
      match threads_ p !! i with
      | Some (Running t) =>
          (* the task has no post in progress *)
          guard (Forall (fun post => poster post <> Some i) (posts w));;
          p ← DidRunWorkerTask p t;
          Some (World_ (set_worker p i Looping) (posts w) (posts_begun w) (created w) (shutdown w) (now w)
                  (Finished t :: log w))
      | _ => None
      end
  | WaitEnds i =>
      guard (is_waiting <$> threads_ p !! i = Some true);; Some (set_inner w (set_worker p i Woken))
  | WorkerRelocks i =>
      guard (threads_ p !! i = Some Woken);;
      Some (set_inner w (set_worker (set_waiting p (waiting_thread_count_ p - 1)) i Looping))
  | WorkerSignals i pick =>
      guard (threads_ p !! i = Some Leaving);;
      set_inner w <$> SignalHasWork (set_worker p i Signalling) pick
  | WorkerUnblocksShutdown i =>
      guard (threads_ p !! i = Some Signalling);;
      Some (World_ (set_worker p i Exited) (posts w) (posts_begun w) (created w)
              (if bool_decide (shutdown w = WaitingForWorkers) then Checking else shutdown w) (now w) (log w))
  | ShutdownCalled max_new pick => Shutdown w max_new pick
  | ShutdownChecks => guard (shutdown w = Checking);; Some (shutdown_checks w)
  | ShutdownWakes =>
      (* a spurious wakeup *)
      guard (shutdown w = WaitingForWorkers);;
      Some (World_ p (posts w) (posts_begun w) (created w) Checking (now w) (log w))
  end.

Fixpoint run (w : World) (es : list Event) : option World :=
  match es with
  | [] => Some w
  | e :: es => w ← step w e; run w es
  end.

Inductive reachable (w0 : World) : World -> Prop :=
| reachable_start : reachable w0 w0
| reachable_step w e w' : reachable w0 w -> step w e = Some w' -> reachable w0 w'.
