(* ===== verification/WorkerPoolProps.v ===== *)
(** * What the sequenced worker pool guarantees

    Invariants of the reachable states of the machine of [WorkerPool.v]: its counters
    and sets say what its workers do, every accepted task is in one place, tasks of
    a sequence run one after the other in their order, shutdown waits for what it
    should, and no task waits for threads that all sleep. *)
From Stdlib Require Import ZArith Lia Sorted.
From stdpp Require Import base numbers option sets list.
From S2P Require Import Prelude WorkerPool.
Local Open Scope Z_scope.

(** ** Counting *)

Fixpoint count {A} (f : A -> bool) (l : list A) : Z :=
  match l with [] => 0 | x :: l => (if f x then 1 else 0) + count f l end.

Section Count.
Context {A : Type} (f : A -> bool).

Lemma count_nonneg l : 0 <= count f l.
Proof. induction l as [|x l IH]; simpl; [done|]. destruct (f x); lia. Qed.

Lemma count_app l k : count f (l ++ k) = count f l + count f k.
Proof. induction l as [|x l IH]; simpl; lia. Qed.

#[export] Instance count_proper : Proper ((≡ₚ) ==> (=)) (count f).
Proof. induction 1; simpl; lia. Qed.

Lemma count_pos l x : x ∈ l -> f x = true -> 0 < count f l.
Proof.
  intros Hx Hf. induction Hx as [x l|x y l Hx IH]; simpl.
  - rewrite Hf. pose proof (count_nonneg l). lia.
  - specialize (IH Hf). destruct (f y); lia.
Qed.

Lemma count_zero l x : count f l = 0 -> x ∈ l -> f x = false.
Proof. intros Hc Hx. destruct (f x) eqn:E; [|done]. pose proof (count_pos l x Hx E). lia. Qed.

Lemma count_exists l : 0 < count f l -> exists x, x ∈ l /\ f x = true.
Proof.
  induction l as [|x l IH]; simpl; [lia|]. intros Hc. destruct (f x) eqn:E.
  - exists x. split; [by left | done].
  - destruct IH as (y & Hy & Hf); [lia|]. exists y. split; [by right | done].
Qed.
End Count.

Lemma remove_at_split {A} (l : list A) i x : l !! i = Some x -> l ≡ₚ x :: remove_at l i.
Proof.
  intros Hi. unfold remove_at. rewrite <- (take_drop_middle l i x Hi) at 1.
  by rewrite Permutation_middle.
Qed.

(** ** The order of the pending set *)

Definition before (a b : SequencedTask) : Prop := SequencedTaskLessThan a b = true.

Lemma before_spec a b :
  before a b <-> time_to_run a < time_to_run b \/
    (time_to_run a = time_to_run b /\ sequence_task_number a < sequence_task_number b).
Proof. unfold before, SequencedTaskLessThan. repeat case_match; lia. Qed.

Lemma before_trans a b c : before a b -> before b c -> before a c.
Proof. rewrite !before_spec. lia. Qed.

Lemma before_irrefl a : ~ before a a.
Proof. rewrite before_spec. lia. Qed.

Lemma before_total a b : sequence_task_number a <> sequence_task_number b -> before a b \/ before b a.
Proof. rewrite !before_spec. lia. Qed.

Lemma insert_task_perm t l :
  (forall u, u ∈ l -> sequence_task_number u <> sequence_task_number t) ->
  insert_task t l ≡ₚ t :: l.
Proof.
  induction l as [|u l IH]; intros Hl; simpl; [done|].
  destruct (SequencedTaskLessThan t u) eqn:E1; [done|].
  destruct (SequencedTaskLessThan u t) eqn:E2.
  - rewrite IH by (intros v Hv; apply Hl; by right). apply Permutation_swap.
  - exfalso. specialize (Hl u ltac:(by left)). unfold before in *.
    destruct (before_total u t Hl) as [H|H]; unfold before in H; congruence.
Qed.

Lemma insert_task_sorted t l :
  (forall u, u ∈ l -> sequence_task_number u <> sequence_task_number t) ->
  StronglySorted before l -> StronglySorted before (insert_task t l).
Proof.
  induction l as [|u l IH]; intros Hl Hs; simpl; [by repeat constructor|].
  apply StronglySorted_inv in Hs as [Hs Hu].
  assert (forall v, v ∈ l -> sequence_task_number v <> sequence_task_number t) as Hl'
    by (intros v Hv; apply Hl; by right).
  destruct (SequencedTaskLessThan t u) eqn:E1.
  - constructor; [by constructor|]. constructor; [done|].
    eapply Forall_impl; [exact Hu|]. intros v. by apply before_trans.
  - destruct (SequencedTaskLessThan u t) eqn:E2; [|by constructor].
    constructor; [by apply IH|].
    assert (Forall (before u) (t :: l)) as Hall by by constructor.
    by rewrite insert_task_perm.
Qed.

Lemma before_in_sorted l a b :
  StronglySorted before l -> a ∈ l -> before a b -> forall l', l = b :: l' -> False.
Proof.
  intros Hs Ha Hab l' ->. apply StronglySorted_inv in Hs as [_ Hb].
  apply elem_of_cons in Ha as [->|Ha]; [by apply (before_irrefl b)|].
  rewrite Forall_forall in Hb. apply (before_irrefl a). eapply before_trans; [exact Hab | by apply Hb].
Qed.

(** ** What the log says *)

Definition accepted (l : list Note) : list SequencedTask :=
  omap (fun x => match x with Accepted _ t => Some t | _ => None end) l.
Definition finished (l : list Note) : list SequencedTask :=
  omap (fun x => match x with Finished t => Some t | _ => None end) l.
Definition deleted (l : list Note) : list SequencedTask :=
  omap (fun x => match x with Deleted t => Some t | _ => None end) l.
Definition taken (l : list Note) : list SequencedTask :=
  omap (fun x => match x with Taken t => Some t | _ => None end) l.

(** ** What the workers hold *)

Definition held_task (w : Worker) : option SequencedTask :=
  match w with Starting t _ | Running t => Some t | _ => None end.

Definition held (ws : list Worker) : list SequencedTask := omap held_task ws.

#[export] Instance held_proper : Proper ((≡ₚ) ==> (≡ₚ)) held.
Proof. intros ws ws' H. unfold held. by rewrite H. Qed.

Definition tokens (ts : list SequencedTask) : list Z :=
  filter (fun id => id <> 0) (sequence_token_id <$> ts).

#[export] Instance tokens_proper : Proper ((≡ₚ) ==> (≡ₚ)) tokens.
Proof. intros ts ts' H. unfold tokens. by rewrite H. Qed.

Definition waits (w : Worker) : bool := match w with Waiting _ | Woken => true | _ => false end.
Definition creates (w : Worker) : bool :=
  match w with Starting _ id => negb (id =? 0) | _ => false end.
Definition post_creates (p : Post) : bool :=
  match stage p with AfterLock id => negb (id =? 0) | _ => false end.
Definition blocks (t : SequencedTask) : bool := bool_decide (shutdown_behavior t = BLOCK_SHUTDOWN).
Definition delays (t : SequencedTask) : bool :=
  negb (bool_decide (shutdown_behavior t = CONTINUE_ON_SHUTDOWN)).

Definition b2z (b : bool) : Z := if b then 1 else 0.

(** ** The books are exact *)

Record Accounts (w : World) : Prop := {
  acc_sorted : StronglySorted before (pending_tasks_ (inner w));
  acc_numbers : Forall (fun t => sequence_task_number t < next_sequence_task_number_ (inner w))
                  (accepted (log w));
  acc_distinct : NoDup (sequence_task_number <$> accepted (log w));
  acc_places : accepted (log w) ≡ₚ
    pending_tasks_ (inner w) ++ held (threads_ (inner w)) ++ finished (log w) ++ deleted (log w);
  acc_tokens : current_sequences_ (inner w) ≡ₚ tokens (held (threads_ (inner w)));
  acc_exclusive : NoDup (current_sequences_ (inner w));
  acc_waiting : waiting_thread_count_ (inner w) = count waits (threads_ (inner w));
  acc_blocking : blocking_shutdown_thread_count_ (inner w) = count delays (held (threads_ (inner w)));
  acc_pending : blocking_shutdown_pending_task_count_ (inner w) = count blocks (pending_tasks_ (inner w));
  acc_created : Z.of_nat (created w) + count post_creates (posts w) + count creates (threads_ (inner w))
                = b2z (thread_being_created_ (inner w));
  acc_room : Z.of_nat (length (threads_ (inner w))) + b2z (thread_being_created_ (inner w))
             <= Z.of_nat (max_threads_ (inner w));
  acc_deleted : Forall (fun t => shutdown_behavior t <> BLOCK_SHUTDOWN) (deleted (log w));
}.

(** A step that leaves the tasks where they are. *)
Lemma Accounts_same w w' :
  Accounts w ->
  pending_tasks_ (inner w') = pending_tasks_ (inner w) ->
  next_sequence_task_number_ (inner w') = next_sequence_task_number_ (inner w) ->
  accepted (log w') = accepted (log w) -> finished (log w') = finished (log w) ->
  deleted (log w') = deleted (log w) ->
  held (threads_ (inner w')) ≡ₚ held (threads_ (inner w)) ->
  current_sequences_ (inner w') = current_sequences_ (inner w) ->
  waiting_thread_count_ (inner w') - count waits (threads_ (inner w'))
    = waiting_thread_count_ (inner w) - count waits (threads_ (inner w)) ->
  blocking_shutdown_thread_count_ (inner w') = blocking_shutdown_thread_count_ (inner w) ->
  blocking_shutdown_pending_task_count_ (inner w') = blocking_shutdown_pending_task_count_ (inner w) ->
  Z.of_nat (created w') + count post_creates (posts w') + count creates (threads_ (inner w'))
    - b2z (thread_being_created_ (inner w'))
  = Z.of_nat (created w) + count post_creates (posts w) + count creates (threads_ (inner w))
    - b2z (thread_being_created_ (inner w)) ->
  Z.of_nat (length (threads_ (inner w'))) + b2z (thread_being_created_ (inner w'))
    <= Z.of_nat (max_threads_ (inner w')) ->
  Accounts w'.
Proof.
  intros [H1 H2 H3 H4 H5 H6 H7 H8 H9 H10 H11 H12] E1 E2 E3 E4 E5 Eh E6 E7 E8 E9 E10 E11.
  split; rewrite ?E1, ?E2, ?E3, ?E4, ?E5, ?E6, ?E8, ?E9, ?Eh; try done; lia.
Qed.

(** A worker moves from one place to another. *)
Lemma moved_worker p i old new :
  threads_ p !! i = Some old -> held_task old = held_task new -> waits old = waits new ->
  creates old = creates new ->
  held (threads_ (set_worker p i new)) ≡ₚ held (threads_ p) /\
  count waits (threads_ (set_worker p i new)) = count waits (threads_ p) /\
  count creates (threads_ (set_worker p i new)) = count creates (threads_ p) /\
  length (threads_ (set_worker p i new)) = length (threads_ p).
Proof.
  intros Hi Hh Hw Hc. destruct (list_split _ _ _ Hi) as (rest & Hold & Hnew). simpl.
  rewrite length_insert. specialize (Hnew new). rewrite Hnew, Hold. simpl. rewrite Hw, Hc.
  split; [|done]. unfold held. simpl. by rewrite Hh.
Qed.

Lemma SignalHasWork_cases p pick p' :
  SignalHasWork p pick = Some p' ->
  (p' = p /\ forall v, v ∈ threads_ p -> is_waiting v = false) \/
  exists until, threads_ p !! pick = Some (Waiting until) /\ p' = set_worker p pick Woken.
Proof.
  unfold SignalHasWork. destruct (existsb is_waiting (threads_ p)) eqn:E.
  - case_guard as Hp; simpl; [|done]. intros [= <-]. right.
    destruct (threads_ p !! pick) as [[| | |until| | | |]|]; simpl in Hp; try done. by exists until.
  - intros [= <-]. left. split; [done|]. intros v Hv. destruct (is_waiting v) eqn:Ev; [|done].
    assert (existsb is_waiting (threads_ p) = true); [|congruence].
    apply existsb_exists. exists v. split; [by apply list_elem_of_In | done].
Qed.

(** Waking a worker. *)
Lemma woken_same p pick p' :
  SignalHasWork p pick = Some p' ->
  held (threads_ p') ≡ₚ held (threads_ p) /\ count waits (threads_ p') = count waits (threads_ p) /\
  count creates (threads_ p') = count creates (threads_ p) /\
  length (threads_ p') = length (threads_ p) /\ set_threads p' [] = set_threads p [].
Proof.
  intros [[-> _]|(until & Hi & ->)]%SignalHasWork_cases; [done|].
  by destruct (moved_worker p pick (Waiting until) Woken Hi) as (? & ? & ? & ?).
Qed.

(** What [set_threads p [] = set_threads q []] says of the other fields. *)
Ltac same_fields H :=
  let f := type of H in
  match f with
  | set_threads ?p [] = set_threads ?q [] =>
      assert (pending_tasks_ p = pending_tasks_ q) by exact (f_equal pending_tasks_ H);
      assert (next_sequence_task_number_ p = next_sequence_task_number_ q)
        by exact (f_equal next_sequence_task_number_ H);
      assert (current_sequences_ p = current_sequences_ q) by exact (f_equal current_sequences_ H);
      assert (waiting_thread_count_ p = waiting_thread_count_ q) by exact (f_equal waiting_thread_count_ H);
      assert (blocking_shutdown_thread_count_ p = blocking_shutdown_thread_count_ q)
        by exact (f_equal blocking_shutdown_thread_count_ H);
      assert (blocking_shutdown_pending_task_count_ p = blocking_shutdown_pending_task_count_ q)
        by exact (f_equal blocking_shutdown_pending_task_count_ H);
      assert (thread_being_created_ p = thread_being_created_ q) by exact (f_equal thread_being_created_ H);
      assert (max_threads_ p = max_threads_ q) by exact (f_equal max_threads_ H);
      assert (shutdown_called_ p = shutdown_called_ q) by exact (f_equal shutdown_called_ H)
  end.

(** A signal, in whatever world. *)
Lemma Accounts_signal w pick p' :
  Accounts w -> SignalHasWork (inner w) pick = Some p' -> Accounts (set_inner w p').
Proof.
  intros Ha (Hh & Hw & Hc & Hl & Hf)%woken_same. same_fields Hf.
  pose proof (acc_room _ Ha).
  apply (Accounts_same w); simpl; try done; congruence || lia.
Qed.

Lemma Prepare_cases p :
  PrepareToStartAdditionalThreadIfHelpful p = (0, p) \/
  (PrepareToStartAdditionalThreadIfHelpful p = (Z.of_nat (length (threads_ p)) + 1, set_being_created p true) /\
   thread_being_created_ p = false /\ (length (threads_ p) < max_threads_ p)%nat).
Proof.
  unfold PrepareToStartAdditionalThreadIfHelpful.
  destruct (_ && existsb _ _) eqn:E; [|by left]. right. split; [done|].
  repeat (apply andb_true_iff in E as [E ?]). split; [by destruct (thread_being_created_ p)|].
  by apply Nat.ltb_lt.
Qed.

(** A flag that is raised for a creation that starts with the step. *)
Lemma Accounts_prepare w w' id p' :
  PrepareToStartAdditionalThreadIfHelpful (inner w) = (id, p') ->
  Accounts w ->
  inner w' = p' -> accepted (log w') = accepted (log w) -> finished (log w') = finished (log w) ->
  deleted (log w') = deleted (log w) ->
  Z.of_nat (created w') + count post_creates (posts w') =
    Z.of_nat (created w) + count post_creates (posts w) + (if id =? 0 then 0 else 1) ->
  Accounts w'.
Proof.
  intros Hp Ha Ep E1 E2 E3 Hc. pose proof (acc_room _ Ha).
  destruct (Prepare_cases (inner w)) as [E|(E & Hb & Hlt)]; rewrite E in Hp; injection Hp as <- <-.
  - apply (Accounts_same w); rewrite ?Ep; try done; simpl in Hc; lia.
  - apply (Accounts_same w); rewrite ?Ep; simpl; try done; rewrite ?Hb in *; simpl in *.
    + rewrite (proj2 (Z.eqb_neq _ _)) in Hc by lia. lia.
    + lia.
Qed.

(** ** Taking a task *)

Definition runnable (p : Inner) (t : SequencedTask) : Prop :=
  IsSequenceTokenRunnable p (sequence_token_id t) = true.

Definition found (s : GetWorkStatus) : list SequencedTask :=
  match s with GET_WORK_FOUND t => [t] | _ => [] end.

(** What the walk over the pending set finds, keeps and deletes. *)
Record walked (p : Inner) (now : Z) (i : list SequencedTask) (s : GetWorkStatus)
    (kept dead : list SequencedTask) : Prop := {
  walk_perm : i ≡ₚ found s ++ kept ++ dead;
  walk_sub : kept `sublist_of` i;
  walk_dead : Forall (fun t => shutdown_called_ p = true /\ shutdown_behavior t <> BLOCK_SHUTDOWN) dead;
  walk_found : forall t, s = GET_WORK_FOUND t ->
    runnable p t /\ time_to_run t <= now /\ (shutdown_called_ p = true -> blocks t = true) /\
    forall u, u ∈ i -> before u t -> u ∈ dead \/ ~ runnable p u;
  walk_none : s = GET_WORK_NOT_FOUND -> forall u, u ∈ kept -> ~ runnable p u;
  walk_wait : forall until, s = GET_WORK_WAIT until ->
    now < until /\ (exists u, u ∈ kept /\ time_to_run u = until /\ runnable p u /\
                     (shutdown_called_ p = true -> blocks u = true)) /\
    forall u, u ∈ kept -> runnable p u -> until <= time_to_run u;
}.

(** A task that may not run is kept, one that shutdown drops is deleted. *)
Lemma walk_kept p now t i s kept dead :
  ~ runnable p t -> walked p now i s kept dead -> walked p now (t :: i) s (t :: kept) dead.
Proof.
  intros Hnr [H1 H2 H3 H4 H5 H6]. split; try done.
  - rewrite H1. by rewrite Permutation_middle.
  - by apply sublist_skip.
  - intros v Hv. destruct (H4 v Hv) as (A & B & C & D). repeat split; try done.
    intros u [-> | Hu]%elem_of_cons Hb; [by right | by apply D].
  - intros Hn u [-> | Hu]%elem_of_cons; [done | by apply H5].
  - intros d Hd. destruct (H6 d Hd) as (A & (u & ? & ?) & C).
    split; [done|]. split; [exists u; split; [by right | done]|].
    intros v [-> | Hv]%elem_of_cons Hrun; [done | by apply C].
Qed.

Lemma walk_deleted p now t i s kept dead :
  shutdown_called_ p = true -> shutdown_behavior t <> BLOCK_SHUTDOWN ->
  walked p now i s kept dead -> walked p now (t :: i) s kept (t :: dead).
Proof.
  intros Hsd Hb [H1 H2 H3 H4 H5 H6]. split; try done.
  - rewrite H1. by rewrite !(assoc_L (++)), Permutation_middle.
  - by apply sublist_cons.
  - by constructor.
  - intros v Hv. destruct (H4 v Hv) as (A & B & C & D). repeat split; try done.
    intros u [-> | Hu]%elem_of_cons Hub; [left; by left|].
    destruct (D u Hu Hub); [left; by right | by right].
Qed.

Lemma work_loop_walked p now i s kept dead :
  StronglySorted before i -> work_loop p now i = (s, kept, dead) -> walked p now i s kept dead.
Proof.
  revert s kept dead. induction i as [|t i IH]; intros s kept dead Hs; simpl.
  { intros [= <- <- <-]. split; try done; set_solver. }
  apply StronglySorted_inv in Hs as [Hs Ht]. rewrite Forall_forall in Ht.
  destruct (negb (IsSequenceTokenRunnable p (sequence_token_id t))) eqn:Er.
  { assert (~ runnable p t) as Hnr by (unfold runnable; apply negb_true_iff in Er; congruence).
    destruct (work_loop p now i) as [[s' kept'] dead']. intros [= <- <- <-].
    apply walk_kept; [done | by apply IH]. }
  assert (runnable p t) as Hrun by (apply negb_false_iff in Er; done).
  destruct (shutdown_called_ p && negb (bool_decide (shutdown_behavior t = BLOCK_SHUTDOWN))) eqn:Ed.
  { apply andb_true_iff in Ed as [Hsd Hb%negb_true_iff]. apply bool_decide_eq_false in Hb.
    destruct (work_loop p now i) as [[s' kept'] dead']. intros [= <- <- <-].
    apply walk_deleted; [done | done | by apply IH]. }
  assert (shutdown_called_ p = true -> blocks t = true) as Hb.
  { intros Hsd. rewrite Hsd in Ed. simpl in Ed. by apply negb_false_iff in Ed. }
  destruct (now <? time_to_run t) eqn:Etime; intros [= <- <- <-].
  - apply Z.ltb_lt in Etime. split; try done; [by rewrite app_nil_r|].
    intros d [= <-]. split; [done|]. split; [exists t; split; [by left | done]|].
    intros u [-> | Hu]%elem_of_cons _; [lia|]. specialize (Ht u Hu). apply before_spec in Ht. lia.
  - apply Z.ltb_ge in Etime. split; try done; [by rewrite app_nil_r | by apply sublist_cons|].
    intros v [= <-]. repeat split; try done.
    intros u [-> | Hu]%elem_of_cons Hub; [by apply before_irrefl in Hub|].
    exfalso. apply (before_irrefl t). eapply before_trans; [by apply Ht | done].
Qed.

Lemma sublist_sorted {A} (R : A -> A -> Prop) l k :
  k `sublist_of` l -> StronglySorted R l -> StronglySorted R k.
Proof.
  induction 1 as [|x l k Hs IH|x l k Hs IH]; intros Hl; [constructor| |];
    apply StronglySorted_inv in Hl as [Hl Hx]; [|by apply IH].
  constructor; [by apply IH|]. rewrite Forall_forall in *. intros y Hy. apply Hx.
  by eapply elem_of_sublist.
Qed.

(** ** Posting *)

(** What the locked part of [PostTask] does before it looks for a thread to create. *)
Record posted (p : Inner) (r : Request) (time : Z) (closure : nat) (t : SequencedTask) (p1 : Inner)
    : Prop := {
  post_number : sequence_task_number t = next_sequence_task_number_ p;
  post_behavior : shutdown_behavior t = behavior r;
  post_time : time_to_run t = time;
  post_closure : task t = closure;
  post_next : next_sequence_task_number_ p1 = next_sequence_task_number_ p + 1;
  post_pending : pending_tasks_ p1 = insert_task t (pending_tasks_ p);
  post_blocking : blocking_shutdown_pending_task_count_ p1
                  = blocking_shutdown_pending_task_count_ p + (if blocks t then 1 else 0);
  post_threads : threads_ p1 = threads_ p;
  post_max : max_threads_ p1 = max_threads_ p;
  post_created : thread_being_created_ p1 = thread_being_created_ p;
  post_waiting : waiting_thread_count_ p1 = waiting_thread_count_ p;
  post_running : blocking_shutdown_thread_count_ p1 = blocking_shutdown_thread_count_ p;
  post_sequences : current_sequences_ p1 = current_sequences_ p;
  post_shutdown : shutdown_called_ p1 = shutdown_called_ p;
  post_after : shutdown_called_ p = true -> behavior r = BLOCK_SHUTDOWN;
}.

Lemma PostTask_accepted p poster r time closure t id p' :
  PostTask p poster r time closure = (Some (t, id), p') ->
  exists p1, posted p r time closure t p1 /\ PrepareToStartAdditionalThreadIfHelpful p1 = (id, p').
Proof.
  unfold PostTask. destruct (shutdown_called_ p && _) eqn:Er; [done|].
  assert (shutdown_called_ p = true -> behavior r = BLOCK_SHUTDOWN) as Hb.
  { intros Hs. rewrite Hs in Er. simpl in Er. destruct (bool_decide_reflect (behavior r = BLOCK_SHUTDOWN));
      [done | done]. }
  set (p0 := if shutdown_called_ p then _ else p).
  assert (set_shutdown p0 false 0 = set_shutdown p false 0 /\
          shutdown_called_ p0 = shutdown_called_ p) as [H0 H0s].
  { unfold p0. by destruct (shutdown_called_ p) eqn:E. }
  clearbody p0. clear Er.
  assert (forall A (f : Inner -> A), f (set_shutdown p0 false 0) = f (set_shutdown p false 0)) as Hf
    by (intros; by rewrite H0). clear H0.
  pose proof (Hf _ next_sequence_task_number_). pose proof (Hf _ pending_tasks_).
  pose proof (Hf _ blocking_shutdown_pending_task_count_). pose proof (Hf _ threads_).
  pose proof (Hf _ max_threads_). pose proof (Hf _ thread_being_created_).
  pose proof (Hf _ waiting_thread_count_). pose proof (Hf _ blocking_shutdown_thread_count_).
  pose proof (Hf _ current_sequences_). clear Hf. simpl in *.
  unfold LockedGetNextSequenceTaskNumber.
  set (q := Inner_ _ _ _ _ _ _ _ _ _ _ _ _ _).
  destruct (match optional_token_name r with Some name => _ | None => _ end) as [token p2] eqn:Et.
  assert (set_tokens p2 0 [] = set_tokens q 0 []) as Hq.
  { destruct (optional_token_name r) as [name|]; [|by injection Et as <- <-].
    unfold LockedGetNamedTokenID in Et. destruct (find_name _ name); injection Et as <- <-; done. }
  clear Et. unfold q in Hq. clear q. injection Hq as ? ? ? ? ? ? ? ? ? ?.
  set (t' := SequencedTask_ _ _ _ _ _). set (p3 := set_pending _ _ _).
  destruct (PrepareToStartAdditionalThreadIfHelpful p3) as [id' p4] eqn:Ep. intros [= <- <- <-].
  exists p3. split; [|done].
  split; simpl; rewrite ?bool_decide_spec; try congruence; try done.
  - unfold blocks. simpl. case_bool_decide; lia.
Qed.

(** ** Every step keeps the books *)

Lemma elem_accepted w t : Accounts w -> t ∈ pending_tasks_ (inner w) -> t ∈ accepted (log w).
Proof. intros Ha Ht. rewrite (acc_places _ Ha). apply elem_of_app. by left. Qed.

Lemma Accounts_start max_threads last time : Accounts (new_World max_threads last time).
Proof. split; simpl; try constructor; lia. Qed.

Lemma Accounts_accepted w n post r time closure t id p' :
  Accounts w -> posts w !! n = Some post -> stage post = BeforeLock r time closure ->
  PostTask (inner w) (poster post) r time closure = (Some (t, id), p') ->
  Accounts (World_ p' (<[n := Post_ (number post) (poster post) (AfterLock id)]> (posts w))
              (posts_begun w) (created w) (shutdown w) (now w) (Accepted (number post) t :: log w)).
Proof.
  intros Ha Hn Hs (p1 & Hp & Hprep)%PostTask_accepted.
  assert (forall u, u ∈ accepted (log w) -> sequence_task_number u < sequence_task_number t) as Hfresh.
  { intros u Hu. rewrite (post_number _ _ _ _ _ _ Hp). pose proof (acc_numbers _ Ha) as H.
    rewrite Forall_forall in H. by apply H. }
  assert (forall u, u ∈ pending_tasks_ (inner w) -> sequence_task_number u <> sequence_task_number t) as Hne.
  { intros u Hu. specialize (Hfresh u (elem_accepted _ _ Ha Hu)). lia. }
  assert (Accounts (World_ p1 (posts w) (posts_begun w) (created w) (shutdown w) (now w)
                      (Accepted (number post) t :: log w))) as H1.
  { destruct Ha as [A1 A2 A3 A4 A5 A6 A7 A8 A9 A10 A11 A12], Hp.
    split; simpl; rewrite ?post_threads0, ?post_max0, ?post_created0, ?post_waiting0, ?post_running0,
      ?post_sequences0, ?post_pending0, ?post_next0, ?post_blocking0; try done.
    - by apply insert_task_sorted.
    - constructor; [lia|]. eapply Forall_impl; [exact A2|]. simpl. lia.
    - constructor; [|done]. intros (u & Hu & Hin)%list_elem_of_fmap. specialize (Hfresh u Hin). lia.
    - rewrite insert_task_perm by done. simpl. by f_equiv.
    - rewrite insert_task_perm by done. simpl. lia. }
  eapply (Accounts_prepare _ _ id p'); [| exact H1 |..]; [exact Hprep | done..|]. simpl.
  destruct (list_split _ _ _ Hn) as (rest & Hold & Hnew).
  rewrite (Hnew (Post_ _ _ _)), Hold. simpl. unfold post_creates at 1 3. rewrite Hs. simpl.
  destruct (id =? 0); simpl; lia.
Qed.

(** Creating the thread or signalling. *)
Lemma Accounts_ended w n post id pick w' :
  Accounts w -> posts w !! n = Some post -> stage post = AfterLock id ->
  create_or_signal
    (World_ (inner w) (remove_at (posts w) n) (posts_begun w) (created w) (shutdown w) (now w) (log w))
    id pick = Some w' -> Accounts w'.
Proof.
  intros Ha Hn Hs. unfold create_or_signal. pose proof (remove_at_split _ _ _ Hn) as Hr.
  assert (count post_creates (posts w) = (if id =? 0 then 0 else 1) + count post_creates (remove_at (posts w) n))
    as Hc.
  { rewrite Hr at 1. simpl. unfold post_creates at 1. rewrite Hs. by destruct (id =? 0). }
  pose proof (acc_room _ Ha). destruct (id =? 0) eqn:E.
  - intros (p' & Hp & ->)%fmap_Some. apply (Accounts_signal _ pick); [|done].
    apply (Accounts_same w); simpl; try done. lia.
  - intros [= <-]. apply (Accounts_same w); simpl; try done. lia.
Qed.

Lemma Accounts_enters w k p' :
  Accounts w -> created w = S k -> ThreadLoop_enter (inner w) = Some p' ->
  Accounts (World_ p' (posts w) (posts_begun w) k (shutdown w) (now w) (log w)).
Proof.
  intros Ha Hk. unfold ThreadLoop_enter. case_guard as Hc; simpl; [|done]. intros [= <-].
  pose proof (acc_room _ Ha) as Hr. pose proof (acc_created _ Ha) as Hcr. rewrite Hc in *. simpl in Hr.
  apply (Accounts_same w); simpl; try done.
  - unfold held. by rewrite omap_app, app_nil_r.
  - rewrite count_app. simpl. lia.
  - rewrite count_app, Hc. simpl. lia.
  - rewrite length_app. simpl. lia.
Qed.

(** What one turn of the loop of a worker comes to. *)
Inductive turned (p : Inner) (i : nat) (now : Z)
    : Inner -> option SequencedTask -> list SequencedTask -> Prop :=
| turn_takes t kept dead id q :
    walked p now (pending_tasks_ p) (GET_WORK_FOUND t) kept dead ->
    WillRunWorkerTask
      (set_pending p kept (blocking_shutdown_pending_task_count_ p - (if blocks t then 1 else 0))) t
      = (id, q) ->
    turned p i now (set_worker q i (Starting t id)) (Some t) dead
| turn_leaves s kept dead :
    walked p now (pending_tasks_ p) s kept dead -> found s = [] ->
    shutdown_called_ p = true -> blocking_shutdown_pending_task_count_ p = 0 ->
    turned p i now (set_worker (set_pending p kept (blocking_shutdown_pending_task_count_ p)) i Leaving)
      None dead
| turn_again s kept dead :
    walked p now (pending_tasks_ p) s kept dead -> found s = [] -> dead <> [] ->
    turned p i now (set_worker (set_pending p kept (blocking_shutdown_pending_task_count_ p)) i Looping)
      None dead
| turn_waits s kept d :
    walked p now (pending_tasks_ p) s kept [] -> found s = [] ->
    (shutdown_called_ p = true -> blocking_shutdown_pending_task_count_ p <> 0) ->
    d = match s with GET_WORK_WAIT time => Some time | _ => None end ->
    turned p i now
      (set_worker (set_waiting (set_pending p kept (blocking_shutdown_pending_task_count_ p))
                     (waiting_thread_count_ p + 1)) i (Waiting d)) None [].

Lemma ThreadLoop_turn_turned p i now p' taken dead :
  StronglySorted before (pending_tasks_ p) ->
  ThreadLoop_turn p i now = (p', taken, dead) -> turned p i now p' taken dead.
Proof.
  intros Hs. unfold ThreadLoop_turn, GetWork.
  destruct (work_loop p now (pending_tasks_ p)) as [[s kept] dead'] eqn:E.
  apply work_loop_walked in E; [|done].
  assert (found s = [] ->
    (let count := blocking_shutdown_pending_task_count_ p in
     let p := set_pending p kept count in
     if shutdown_called_ p && (blocking_shutdown_pending_task_count_ p =? 0)
      then (set_worker p i Leaving, None, dead')
      else if negb (bool_decide (dead' = []))
      then (set_worker p i Looping, None, dead')
      else
        let d := match s with GET_WORK_WAIT time => Some time | _ => None end in
        (set_worker (set_waiting p (waiting_thread_count_ p + 1)) i (Waiting d), None, []))
     = (p', taken, dead) -> turned p i now p' taken dead) as Hnone.
  { intros Hf. simpl. destruct (shutdown_called_ p && _) eqn:El.
    { apply andb_true_iff in El as [El Hz%Z.eqb_eq]. intros [= <- <- <-]. by eapply turn_leaves. }
    case_bool_decide as Hd; simpl; intros [= <- <- <-]; [|by eapply turn_again].
    subst dead'. eapply turn_waits; [done | done | | done]. intros Hsd Hz. rewrite Hsd, Hz in El. done. }
  destruct s as [t| |time]; [|by apply Hnone..]. clear Hnone.
  assert (forall b : bool, (if b then blocking_shutdown_pending_task_count_ p - 1
            else blocking_shutdown_pending_task_count_ p)
          = blocking_shutdown_pending_task_count_ p - (if b then 1 else 0)) as -> by (intros []; lia).
  destruct (WillRunWorkerTask _ t) as [id q] eqn:Ew. intros [= <- <- <-]. by eapply turn_takes.
Qed.

Lemma log_deleted dead (l : list Note) :
  accepted ((Deleted <$> dead) ++ l) = accepted l /\ finished ((Deleted <$> dead) ++ l) = finished l /\
  deleted ((Deleted <$> dead) ++ l) = dead ++ deleted l /\ taken ((Deleted <$> dead) ++ l) = taken l.
Proof.
  induction dead as [|t dead (IH1 & IH2 & IH3 & IH4)]; [done|].
  repeat split; [exact IH1 | exact IH2 | exact (f_equal (cons t) IH3) | exact IH4].
Qed.

Lemma count_none {A} (f : A -> bool) l : Forall (fun x => f x = false) l -> count f l = 0.
Proof. induction 1 as [|x l Hx _ IH]; simpl; [done | rewrite Hx; lia]. Qed.

Lemma walked_blocks p now i s kept dead :
  walked p now i s kept dead -> count blocks i = count blocks (found s) + count blocks kept.
Proof.
  intros Hw. rewrite (walk_perm _ _ _ _ _ _ Hw), !count_app, (count_none _ dead); [lia|].
  eapply Forall_impl; [exact (walk_dead _ _ _ _ _ _ Hw)|]. intros t [_ Hb]. unfold blocks.
  by apply bool_decide_eq_false.
Qed.

(** A turn that takes nothing: the set loses what is deleted. *)
Lemma Accounts_deleted w s kept dead :
  Accounts w -> walked (inner w) (now w) (pending_tasks_ (inner w)) s kept dead -> found s = [] ->
  Accounts (World_ (set_pending (inner w) kept (blocking_shutdown_pending_task_count_ (inner w)))
              (posts w) (posts_begun w) (created w) (shutdown w) (now w) ((Deleted <$> dead) ++ log w)).
Proof.
  intros [A1 A2 A3 A4 A5 A6 A7 A8 A9 A10 A11 A12] Hw Hf.
  destruct (log_deleted dead (log w)) as (E1 & E2 & E3 & _).
  pose proof (walked_blocks _ _ _ _ _ _ Hw) as Hb. pose proof (walk_perm _ _ _ _ _ _ Hw) as Hperm.
  rewrite Hf in *. split; simpl; rewrite ?E1, ?E2, ?E3; try done.
  - eapply sublist_sorted; [exact (walk_sub _ _ _ _ _ _ Hw) | done].
  - rewrite A4, Hperm. simpl. solve_Permutation.
  - simpl in Hb. lia.
  - apply Forall_app. split; [|done].
    eapply Forall_impl; [exact (walk_dead _ _ _ _ _ _ Hw)|]. by intros t [_ ?].
Qed.

(** [WillRunWorkerTask] keeps what it does not mention. *)
Lemma WillRun_fields p t id q :
  WillRunWorkerTask p t = (id, q) ->
  pending_tasks_ q = pending_tasks_ p /\ threads_ q = threads_ p /\
  next_sequence_task_number_ q = next_sequence_task_number_ p /\
  waiting_thread_count_ q = waiting_thread_count_ p /\ max_threads_ q = max_threads_ p /\
  shutdown_called_ q = shutdown_called_ p /\
  blocking_shutdown_pending_task_count_ q = blocking_shutdown_pending_task_count_ p /\
  current_sequences_ q = (if sequence_token_id t =? 0 then current_sequences_ p
                          else sequence_token_id t :: current_sequences_ p) /\
  blocking_shutdown_thread_count_ q = blocking_shutdown_thread_count_ p + (if delays t then 1 else 0) /\
  b2z (thread_being_created_ q) = b2z (thread_being_created_ p) + (if id =? 0 then 0 else 1) /\
  (Z.of_nat (length (threads_ p)) + b2z (thread_being_created_ p) <= Z.of_nat (max_threads_ p) ->
   Z.of_nat (length (threads_ q)) + b2z (thread_being_created_ q) <= Z.of_nat (max_threads_ q)).
Proof.
  unfold WillRunWorkerTask, delays.
  set (r := set_running p _ _). intros E. destruct (Prepare_cases r) as [E'|(E' & Hb & Hlt)];
    rewrite E' in E; injection E as <- <-; unfold r; simpl; (repeat split); try done;
    try (case_bool_decide; simpl; lia); try lia.
  - simpl in Hb. rewrite Hb. simpl. rewrite (proj2 (Z.eqb_neq _ _)); [done | lia].
  - simpl in Hlt. intros. lia.
Qed.

Lemma tokens_cons t ts :
  tokens (t :: ts) = if sequence_token_id t =? 0 then tokens ts else sequence_token_id t :: tokens ts.
Proof.
  unfold tokens. rewrite fmap_cons. destruct (sequence_token_id t =? 0) eqn:E.
  - apply Z.eqb_eq in E. by rewrite filter_cons_False by (rewrite E; by intros []).
  - apply Z.eqb_neq in E. by rewrite filter_cons_True.
Qed.

Lemma runnable_spec p t :
  runnable p t <-> sequence_token_id t = 0 \/ sequence_token_id t ∉ current_sequences_ p.
Proof.
  unfold runnable, IsSequenceTokenRunnable. rewrite orb_true_iff, Z.eqb_eq, negb_true_iff.
  by rewrite bool_decide_eq_false.
Qed.

Lemma Accounts_taken w i t kept dead id q :
  Accounts w -> threads_ (inner w) !! i = Some Looping ->
  walked (inner w) (now w) (pending_tasks_ (inner w)) (GET_WORK_FOUND t) kept dead ->
  WillRunWorkerTask
    (set_pending (inner w) kept
       (blocking_shutdown_pending_task_count_ (inner w) - (if blocks t then 1 else 0))) t = (id, q) ->
  Accounts (World_ (set_worker q i (Starting t id)) (posts w) (posts_begun w) (created w) (shutdown w)
              (now w) ((Deleted <$> dead) ++ [Taken t] ++ log w)).
Proof.
  intros [A1 A2 A3 A4 A5 A6 A7 A8 A9 A10 A11 A12] Hi Hw Hrun.
  destruct (log_deleted dead (Taken t :: log w)) as (E1 & E2 & E3 & _).
  change (accepted (Taken t :: log w)) with (accepted (log w)) in E1.
  change (finished (Taken t :: log w)) with (finished (log w)) in E2.
  change (deleted (Taken t :: log w)) with (deleted (log w)) in E3.
  destruct (walk_found _ _ _ _ _ _ Hw t eq_refl) as (Hr & _ & _ & _). apply runnable_spec in Hr.
  pose proof (walked_blocks _ _ _ _ _ _ Hw) as Hb. pose proof (walk_perm _ _ _ _ _ _ Hw) as Hperm.
  destruct (WillRun_fields _ _ _ _ Hrun) as (F1 & F2 & F3 & F4 & F5 & F6 & F7 & F8 & F9 & F10 & F11).
  simpl in F1, F2, F3, F4, F5, F6, F7, F8, F9, F10, F11, Hb.
  destruct (list_split _ _ _ Hi) as (rest & Hold & Hnew). specialize (Hnew (Starting t id)).
  assert (held (threads_ (inner w)) ≡ₚ held rest) as Hh by (by rewrite Hold).
  split; simpl; rewrite ?E1, ?E2, ?E3, ?length_insert, ?F1, ?F2, ?F3, ?F4, ?F5, ?F7, ?F8, ?F9; simpl;
    rewrite ?Hnew; try done.
  - eapply sublist_sorted; [exact (walk_sub _ _ _ _ _ _ Hw) | done].
  - rewrite A4, Hperm, Hh. simpl. solve_Permutation.
  - simpl. rewrite tokens_cons. destruct (sequence_token_id t =? 0); by rewrite A5, Hh.
  - destruct (sequence_token_id t =? 0) eqn:Ez; [done|]. apply Z.eqb_neq in Ez.
    constructor; [|done]. by destruct Hr.
  - rewrite A7, Hold. done.
  - simpl. rewrite A8, Hh. lia.
  - lia.
  - simpl. rewrite Hold in A10. simpl in A10. rewrite F10, <- A10. destruct (id =? 0); simpl; lia.
  - rewrite F2, F5 in F11. by apply F11.
  - apply Forall_app. split; [|done].
    eapply Forall_impl; [exact (walk_dead _ _ _ _ _ _ Hw)|]. by intros u [_ ?].
Qed.

Lemma Accounts_moved w i old new :
  Accounts w -> threads_ (inner w) !! i = Some old -> held_task old = held_task new ->
  waits old = waits new -> creates old = creates new ->
  Accounts (set_inner w (set_worker (inner w) i new)).
Proof.
  intros Ha Hi Hh Hw Hc. destruct (moved_worker _ _ _ _ Hi Hh Hw Hc) as (M1 & M2 & M3 & M4).
  pose proof (acc_room _ Ha). simpl in M1, M2, M3, M4.
  apply (Accounts_same w); simpl; try done; rewrite ?M2, ?M3, ?M4; done.
Qed.

Lemma Accounts_relocks w i :
  Accounts w -> threads_ (inner w) !! i = Some Woken ->
  Accounts (set_inner w (set_worker (set_waiting (inner w) (waiting_thread_count_ (inner w) - 1)) i Looping)).
Proof.
  intros Ha Hi. destruct (list_split _ _ _ Hi) as (rest & Hold & Hnew). specialize (Hnew Looping).
  pose proof (acc_room _ Ha).
  apply (Accounts_same w); simpl; rewrite ?length_insert; try done; rewrite ?Hnew, ?Hold; simpl; lia || done.
Qed.

Lemma Accounts_starts w i t id pick p' :
  Accounts w -> threads_ (inner w) !! i = Some (Starting t id) ->
  SignalHasWork (set_worker (inner w) i (Running t)) pick = Some p' ->
  Accounts (World_ p' (posts w) (posts_begun w) (if id =? 0 then created w else S (created w))
              (shutdown w) (now w) (log w)).
Proof.
  intros Ha Hi Hp. pose proof (acc_room _ Ha).
  set (w1 := World_ (set_worker (inner w) i (Running t)) (posts w) (posts_begun w)
               (if id =? 0 then created w else S (created w)) (shutdown w) (now w) (log w)).
  assert (Accounts w1) as H1; [|by apply (Accounts_signal w1 pick)].
  destruct (list_split _ _ _ Hi) as (rest & Hold & Hnew). specialize (Hnew (Running t)).
  apply (Accounts_same w); simpl; rewrite ?length_insert; try done; rewrite ?Hnew, ?Hold; try done.
  simpl. destruct (id =? 0); simpl; lia.
Qed.

Lemma DidRun_fields p t q :
  DidRunWorkerTask p t = Some q ->
  q = set_running p (blocking_shutdown_thread_count_ p - (if delays t then 1 else 0))
        (if sequence_token_id t =? 0 then current_sequences_ p
         else filter (fun id => id <> sequence_token_id t) (current_sequences_ p)).
Proof.
  unfold DidRunWorkerTask, delays. case_guard; simpl; [|done]. intros [= <-]. f_equal.
  case_bool_decide; simpl; lia.
Qed.

Lemma Accounts_finishes w i t q :
  Accounts w -> threads_ (inner w) !! i = Some (Running t) -> DidRunWorkerTask (inner w) t = Some q ->
  Accounts (World_ (set_worker q i Looping) (posts w) (posts_begun w) (created w) (shutdown w) (now w)
              (Finished t :: log w)).
Proof.
  intros [A1 A2 A3 A4 A5 A6 A7 A8 A9 A10 A11 A12] Hi ->%DidRun_fields.
  destruct (list_split _ _ _ Hi) as (rest & Hold & Hnew). specialize (Hnew Looping).
  assert (held (threads_ (inner w)) ≡ₚ t :: held rest) as Hh by (by rewrite Hold).
  assert (current_sequences_ (inner w) ≡ₚ tokens (t :: held rest)) as A5' by (by rewrite A5, Hh).
  split; simpl; rewrite ?length_insert, ?Hnew; try done.
  - rewrite A4, Hh. simpl. solve_Permutation.
  - rewrite tokens_cons in A5'. destruct (sequence_token_id t =? 0) eqn:E; [done|].
    rewrite A5' in A6. apply NoDup_cons in A6 as [Hni _]. rewrite A5'.
    rewrite filter_cons_False by (by intros []). by rewrite filter_other.
  - destruct (sequence_token_id t =? 0); [done|]. by apply NoDup_filter.
  - rewrite A7, Hold. done.
  - rewrite A8, Hh. simpl. destruct (delays t); lia.
  - rewrite Hold in A10. exact A10.
Qed.

Lemma PostTask_refused p poster r time closure p' :
  PostTask p poster r time closure = (None, p') -> p' = p.
Proof.
  unfold PostTask. destruct (shutdown_called_ p && _); [by intros [= <-]|].
  destruct (LockedGetNextSequenceTaskNumber _) as [number p1].
  destruct (match optional_token_name r with Some _ => _ | None => _ end) as [token p2].
  by destruct (PrepareToStartAdditionalThreadIfHelpful _).
Qed.

(** ** The steps, one by one *)

Definition signalled (w : World) (p : Inner) (pick : nat) (w' : World) : Prop :=
  exists p', SignalHasWork p pick = Some p' /\ w' = set_inner w p'.

Definition asks_token (e : Event) : bool :=
  match e with E_GetSequenceToken | E_GetNamedSequenceToken _ => true | _ => false end.

Inductive stepped (w : World) : Event -> World -> Prop :=
| st_clock time : now w <= time ->
    stepped w (ClockTicks time)
      (World_ (inner w) (posts w) (posts_begun w) (created w) (shutdown w) time (log w))
| st_token e q : asks_token e = true ->
    set_tokens q 0 [] = set_tokens (inner w) 0 [] -> stepped w e (set_inner w q)
| st_begins poster r closure :
    may_post (inner w) poster = true -> delay r = 0 \/ behavior r = SKIP_ON_SHUTDOWN ->
    stepped w (PostBegins poster r closure)
      (World_ (inner w)
         (posts w ++ [Post_ (posts_begun w) poster (BeforeLock r (now w + delay r) closure)])
         (S (posts_begun w)) (created w) (shutdown w) (now w) (Begun (posts_begun w) (delay r) :: log w))
| st_refused n post r time closure :
    posts w !! n = Some post -> stage post = BeforeLock r time closure ->
    stepped w (PostLocks n)
      (World_ (inner w) (remove_at (posts w) n) (posts_begun w) (created w) (shutdown w) (now w)
         (Refused (number post) :: log w))
| st_accepted n post r time closure t id p' :
    posts w !! n = Some post -> stage post = BeforeLock r time closure ->
    PostTask (inner w) (poster post) r time closure = (Some (t, id), p') ->
    stepped w (PostLocks n)
      (World_ p' (<[n := Post_ (number post) (poster post) (AfterLock id)]> (posts w))
         (posts_begun w) (created w) (shutdown w) (now w) (Accepted (number post) t :: log w))
| st_ends n pick post id w' :
    posts w !! n = Some post -> stage post = AfterLock id ->
    create_or_signal
      (World_ (inner w) (remove_at (posts w) n) (posts_begun w) (created w) (shutdown w) (now w) (log w))
      id pick = Some w' ->
    stepped w (PostEnds n pick) w'
| st_enters k p' :
    created w = S k -> ThreadLoop_enter (inner w) = Some p' ->
    stepped w ThreadEnters (World_ p' (posts w) (posts_begun w) k (shutdown w) (now w) (log w))
| st_turns i p' taken dead :
    threads_ (inner w) !! i = Some Looping ->
    ThreadLoop_turn (inner w) i (now w) = (p', taken, dead) ->
    stepped w (WorkerTurns i)
      (World_ p' (posts w) (posts_begun w) (created w) (shutdown w) (now w)
         ((Deleted <$> dead) ++ match taken with Some t => [Taken t] | None => [] end ++ log w))
| st_starts i pick t id p' :
    threads_ (inner w) !! i = Some (Starting t id) ->
    SignalHasWork (set_worker (inner w) i (Running t)) pick = Some p' ->
    stepped w (TaskStarts i pick)
      (World_ p' (posts w) (posts_begun w) (if id =? 0 then created w else S (created w))
         (shutdown w) (now w) (log w))
| st_finishes i t q :
    threads_ (inner w) !! i = Some (Running t) -> Forall (fun post => poster post <> Some i) (posts w) ->
    DidRunWorkerTask (inner w) t = Some q ->
    stepped w (TaskFinishes i)
      (World_ (set_worker q i Looping) (posts w) (posts_begun w) (created w) (shutdown w) (now w)
         (Finished t :: log w))
| st_wakes i d : threads_ (inner w) !! i = Some (Waiting d) ->
    stepped w (WaitEnds i) (set_inner w (set_worker (inner w) i Woken))
| st_relocks i : threads_ (inner w) !! i = Some Woken ->
    stepped w (WorkerRelocks i)
      (set_inner w (set_worker (set_waiting (inner w) (waiting_thread_count_ (inner w) - 1)) i Looping))
| st_signals i pick p' : threads_ (inner w) !! i = Some Leaving ->
    SignalHasWork (set_worker (inner w) i Signalling) pick = Some p' ->
    stepped w (WorkerSignals i pick) (set_inner w p')
| st_exits i : threads_ (inner w) !! i = Some Signalling ->
    stepped w (WorkerUnblocksShutdown i)
      (World_ (set_worker (inner w) i Exited) (posts w) (posts_begun w) (created w)
         (if bool_decide (shutdown w = WaitingForWorkers) then Checking else shutdown w) (now w) (log w))
| st_called_again max pick : shutdown_called_ (inner w) = true -> stepped w (ShutdownCalled max pick) w
| st_called max pick p' :
    shutdown_called_ (inner w) = false ->
    SignalHasWork (set_shutdown (inner w) true max) pick = Some p' ->
    stepped w (ShutdownCalled max pick)
      (World_ p' (posts w) (posts_begun w) (created w) (if CanShutdown p' then Returned else Checking)
         (now w) (if CanShutdown p' then ShutdownReturned :: log w else log w))
| st_checks : shutdown w = Checking -> stepped w ShutdownChecks (shutdown_checks w)
| st_shutdown_wakes : shutdown w = WaitingForWorkers ->
    stepped w ShutdownWakes
      (World_ (inner w) (posts w) (posts_begun w) (created w) Checking (now w) (log w)).

Lemma named_token_fields p name :
  set_tokens (snd (LockedGetNamedTokenID p name)) 0 [] = set_tokens p 0 [].
Proof. unfold LockedGetNamedTokenID. by destruct (find_name _ name). Qed.

Lemma post_stepped w n w' : step w (PostLocks n) = Some w' -> stepped w (PostLocks n) w'.
Proof.
  unfold step. destruct (posts w !! n) as [post|] eqn:Hn; simpl; [|done].
  destruct (stage post) as [r time closure|] eqn:Hs; [|done].
  destruct (PostTask (inner w) (poster post) r time closure) as [[[t id]|] p'] eqn:E; intros [= <-].
  - by eapply st_accepted.
  - apply PostTask_refused in E as ->. by eapply st_refused.
Qed.

Lemma step_stepped w e w' : step w e = Some w' -> stepped w e w'.
Proof.
  destruct e as [time| |name|poster r closure|n|n pick| |i|i pick|i|i|i|i pick|i|max pick| |].
  5: by apply post_stepped.
  all: unfold step.
  - case_guard; simpl; [|done]. intros [= <-]. by apply st_clock.
  - intros [= <-]. by apply st_token.
  - case_guard; simpl; [|done]. intros [= <-]. apply st_token; [done | apply named_token_fields].
  - intros H. repeat (case_guard; simpl in H; try done). injection H as <-. by apply st_begins.
  - destruct (posts w !! n) as [post|] eqn:Hn; simpl; [|done].
    destruct (stage post) as [|id] eqn:Hs; [done|]. by eapply st_ends.
  - destruct (created w) as [|k] eqn:Hk; [done|].
    destruct (ThreadLoop_enter (inner w)) as [p'|] eqn:E; simpl; [|done]. intros [= <-].
    by apply st_enters.
  - case_guard as Hi; simpl; [|done].
    destruct (ThreadLoop_turn (inner w) i (now w)) as [[p' tk] dead] eqn:E. intros [= <-].
    by apply st_turns.
  - destruct (threads_ (inner w) !! i) as [[| t id | | | | | |]|] eqn:Hi; try done.
    destruct (SignalHasWork _ pick) as [p'|] eqn:E; simpl; [|done]. intros [= <-].
    pose proof (st_starts w i pick t id p' Hi E) as H. by destruct (id =? 0).
  - destruct (threads_ (inner w) !! i) as [[| | t | | | | |]|] eqn:Hi; try done.
    case_guard; simpl; [|done].
    destruct (DidRunWorkerTask (inner w) t) as [q|] eqn:E; simpl; [|done]. intros [= <-].
    by eapply st_finishes.
  - case_guard as Hi; simpl; [|done]. intros [= <-].
    destruct (threads_ (inner w) !! i) as [[| | | d | | | |]|] eqn:E; try done. by eapply st_wakes.
  - case_guard as Hi; simpl; [|done]. intros [= <-]. by apply st_relocks.
  - case_guard as Hi; simpl; [|done]. intros (p' & Hp & ->)%fmap_Some. by eapply st_signals.
  - case_guard as Hi; simpl; [|done]. intros [= <-]. by apply st_exits.
  - unfold Shutdown. case_guard; simpl; [|done]. destruct (shutdown_called_ (inner w)) eqn:Hc.
    { intros [= <-]. by apply st_called_again. }
    destruct (SignalHasWork _ pick) as [p'|] eqn:E; simpl; [|done].
    pose proof (st_called w max pick p' Hc E). destruct (CanShutdown p'); by intros [= <-].
  - case_guard; simpl; [|done]. intros [= <-]. by apply st_checks.
  - case_guard; simpl; [|done]. intros [= <-]. by apply st_shutdown_wakes.
Qed.

Lemma Accounts_turn w i p' taken dead :
  Accounts w -> threads_ (inner w) !! i = Some Looping ->
  ThreadLoop_turn (inner w) i (now w) = (p', taken, dead) ->
  Accounts (World_ p' (posts w) (posts_begun w) (created w) (shutdown w) (now w)
    ((Deleted <$> dead) ++ match taken with Some t => [Taken t] | None => [] end ++ log w)).
Proof.
  intros Ha Hi Ht. apply ThreadLoop_turn_turned in Ht; [|by apply acc_sorted].
  destruct Ht as [t kept dead id q Hw Hr | s kept dead Hw Hf _ _ | s kept dead Hw Hf _ | s kept d Hw Hf _ _].
  - by eapply Accounts_taken.
  - exact (Accounts_moved _ i _ Leaving (Accounts_deleted w _ _ _ Ha Hw Hf) Hi eq_refl eq_refl eq_refl).
  - exact (Accounts_moved _ i _ Looping (Accounts_deleted w _ _ _ Ha Hw Hf) Hi eq_refl eq_refl eq_refl).
  - pose proof (Accounts_deleted w _ _ _ Ha Hw Hf) as H1. pose proof (acc_room _ Ha).
    destruct (list_split _ _ _ Hi) as (rest & Hold & Hnew). specialize (Hnew (Waiting d)).
    apply (Accounts_same _ _ H1); simpl; rewrite ?length_insert; try done;
      rewrite ?Hnew, ?Hold; simpl; lia || done.
Qed.

(** What does not touch the pool, its posts that create and the tasks of the log. *)
Lemma Accounts_outside w w' :
  Accounts w -> set_shutdown (set_tokens (inner w') 0 []) false 0
                = set_shutdown (set_tokens (inner w) 0 []) false 0 ->
  created w' = created w -> count post_creates (posts w') = count post_creates (posts w) ->
  accepted (log w') = accepted (log w) -> finished (log w') = finished (log w) ->
  deleted (log w') = deleted (log w) -> Accounts w'.
Proof.
  intros Ha Hi E1 E2 E3 E4 E5. pose proof (acc_room _ Ha). injection Hi as I1 I2 I3 I4 I5 I6 I7 I8 I9.
  apply (Accounts_same w);
    rewrite ?I1, ?I2, ?I3, ?I4, ?I5, ?I6, ?I7, ?I8, ?I9, ?E1, ?E2, ?E3, ?E4, ?E5; done.
Qed.

Lemma Accounts_stepped w e w' : Accounts w -> stepped w e w' -> Accounts w'.
Proof.
  intros Ha Hst. destruct Hst.
  - by apply (Accounts_outside w).
  - apply (Accounts_outside w); try done. simpl. by f_equal.
  - apply (Accounts_outside w); try done. simpl. rewrite count_app. simpl. lia.
  - apply (Accounts_outside w); try done. simpl.
    rewrite (remove_at_split (posts w) _ _ ltac:(done)) at 2. simpl. unfold post_creates at 2.
    rewrite H0. lia.
  - by eapply Accounts_accepted.
  - by eapply Accounts_ended.
  - by eapply Accounts_enters.
  - by eapply Accounts_turn.
  - by eapply Accounts_starts.
  - by eapply Accounts_finishes.
  - by eapply Accounts_moved.
  - by apply Accounts_relocks.
  - apply (Accounts_signal (set_inner w (set_worker (inner w) i Signalling)) pick); [|done].
    by eapply Accounts_moved.
  - pose proof (Accounts_moved _ i _ Exited Ha H eq_refl eq_refl eq_refl) as H1.
    by apply (Accounts_outside _ _ H1).
  - done.
  - assert (Accounts (set_inner w p')) as H1.
    { apply (Accounts_signal (set_inner w (set_shutdown (inner w) true max)) pick); [|done].
      by apply (Accounts_outside w). }
    apply (Accounts_outside _ _ H1); try done; simpl; by destruct (CanShutdown p').
  - apply (Accounts_outside w); try done; unfold shutdown_checks; simpl; by destruct (CanShutdown _).
  - by apply (Accounts_outside w).
Qed.

Lemma reachable_accounts max_threads last time w :
  reachable (new_World max_threads last time) w -> Accounts w.
Proof.
  induction 1 as [|w e w' _ IH Hst]; [apply Accounts_start|].
  by eapply Accounts_stepped, step_stepped.
Qed.

(** C6: the books of the pool are exact in every reachable state: each task it accepted
    has a number of its own and is in exactly one place, pending, with a worker,
    finished or deleted; no task that blocks shutdown is ever deleted; no two workers
    hold tasks of one sequence, and [current_sequences_] is what they hold; the three
    counters are the numbers they stand for; there are at most [max_threads_] threads;
    and the [DCHECK]s of a thread that enters and of a task that finishes hold. *)
Theorem pool_books_are_exact max_threads last time w :
  reachable (new_World max_threads last time) w ->
  let p := inner w in
  accepted (log w) ≡ₚ pending_tasks_ p ++ held (threads_ p) ++ finished (log w) ++ deleted (log w) /\
  NoDup (sequence_task_number <$> accepted (log w)) /\
  Forall (fun t => shutdown_behavior t <> BLOCK_SHUTDOWN) (deleted (log w)) /\
  NoDup (tokens (held (threads_ p))) /\ current_sequences_ p ≡ₚ tokens (held (threads_ p)) /\
  waiting_thread_count_ p = count waits (threads_ p) /\
  blocking_shutdown_thread_count_ p = count delays (held (threads_ p)) /\
  blocking_shutdown_pending_task_count_ p = count blocks (pending_tasks_ p) /\
  (length (threads_ p) <= max_threads_ p)%nat /\
  (created w <> O -> is_Some (ThreadLoop_enter p)) /\
  (forall i t, threads_ p !! i = Some (Running t) -> is_Some (DidRunWorkerTask p t)).
Proof.
  intros Hr p. subst p. pose proof (reachable_accounts _ _ _ _ Hr) as [A1 A2 A3 A4 A5 A6 A7 A8 A9 A10 A11 A12].
  repeat split; try done.
  - by rewrite <- A5.
  - destruct (thread_being_created_ (inner w)); simpl in A11; lia.
  - intros Hc. unfold ThreadLoop_enter. case_guard as H; simpl; [by eexists|]. exfalso. apply H.
    pose proof (count_nonneg post_creates (posts w)). pose proof (count_nonneg creates (threads_ (inner w))).
    destruct (thread_being_created_ (inner w)); [done|]. simpl in A10. lia.
  - intros i t Hi. unfold DidRunWorkerTask. case_guard as H; simpl; [by eexists|]. exfalso. apply H.
    intros Hb. rewrite A8. apply (count_pos _ _ t); [|done].
    apply list_elem_of_omap. exists (Running t). split; [|done]. by eapply list_elem_of_lookup_2.
Qed.

(** A task of sequence 7, posted, and run by a thread that is created for it. *)
Definition one_task : list Event :=
  [PostBegins None (PostSequencedWorkerTask 7) 1; PostLocks 0; PostEnds 0 0; ThreadEnters;
   WorkerTurns 0; TaskStarts 0 0].

Lemma run_reachable w0 w es w' : reachable w0 w -> run w es = Some w' -> reachable w0 w'.
Proof.
  revert w. induction es as [|e es IH]; intros w Hr; simpl; [by intros [= <-]|].
  destruct (step w e) as [w1|] eqn:E; simpl; [|done]. apply IH. by eapply reachable_step.
Qed.

Lemma pool_books_are_exact_witness :
  exists w t, run (new_World 2 0 100) one_task = Some w /\ threads_ (inner w) !! 0%nat = Some (Running t) /\
    accepted (log w) = [t] /\ is_Some (DidRunWorkerTask (inner w) t).
Proof.
  assert (exists w, run (new_World 2 0 100) one_task = Some w) as (w & Hw)
    by (eexists; vm_compute; reflexivity).
  exists w, (SequencedTask_ 7 0 BLOCK_SHUTDOWN 100 1). split; [done|].
  pose proof (run_reachable _ _ _ _ (reachable_start _) Hw) as Hr.
  vm_compute in Hw. injection Hw as <-. do 2 (split; [reflexivity|]).
  destruct (pool_books_are_exact 2 0 100 _ Hr) as (_ & _ & _ & _ & _ & _ & _ & _ & _ & _ & H).
  by apply (H 0%nat).
Defined.

(** ** The order of a sequence *)

Lemma elem_accepted_log t l : t ∈ accepted l <-> exists n, Accepted n t ∈ l.
Proof.
  unfold accepted. rewrite list_elem_of_omap. split.
  - intros (x & Hx & Ht). destruct x; try done. injection Ht as ->. by eexists.
  - intros (n & Hn). by exists (Accepted n t).
Qed.

Lemma elem_taken t l : t ∈ taken l <-> Taken t ∈ l.
Proof.
  unfold taken. rewrite list_elem_of_omap. split; [|by exists (Taken t)].
  intros (x & Hx & Ht). destruct x; try done. by injection Ht as ->.
Qed.

Lemma elem_finished t l : t ∈ finished l <-> Finished t ∈ l.
Proof.
  unfold finished. rewrite list_elem_of_omap. split; [|by exists (Finished t)].
  intros (x & Hx & Ht). destruct x; try done. by injection Ht as ->.
Qed.

Lemma elem_deleted t l : t ∈ deleted l <-> Deleted t ∈ l.
Proof.
  unfold deleted. rewrite list_elem_of_omap. split; [|by exists (Deleted t)].
  intros (x & Hx & Ht). destruct x; try done. by injection Ht as ->.
Qed.

Lemma Prepare_same p id p' :
  PrepareToStartAdditionalThreadIfHelpful p = (id, p') ->
  set_being_created p' false = set_being_created p false.
Proof. destruct (Prepare_cases p) as [E|(E & _ & _)]; rewrite E; by intros [= <- <-]. Qed.

Lemma PostTask_threads p poster r time closure t id p' :
  PostTask p poster r time closure = (Some (t, id), p') -> threads_ p' = threads_ p.
Proof.
  intros (p1 & Hp & Hprep)%PostTask_accepted. apply Prepare_same in Hprep.
  rewrite <- (post_threads _ _ _ _ _ _ Hp). exact (f_equal threads_ Hprep).
Qed.

Lemma create_or_signal_cases w id pick w' :
  create_or_signal w id pick = Some w' ->
  (id = 0 /\ signalled w (inner w) pick w') \/
  (id <> 0 /\ w' = World_ (inner w) (posts w) (posts_begun w) (S (created w)) (shutdown w) (now w) (log w)).
Proof.
  unfold create_or_signal. destruct (id =? 0) eqn:E.
  - apply Z.eqb_eq in E. intros (p' & Hp & ->)%fmap_Some. left. split; [done | by exists p'].
  - apply Z.eqb_neq in E. intros [= <-]. by right.
Qed.

(** A worker that changes its place, up to the order of the held tasks. *)
Lemma held_insert ws i old new :
  ws !! i = Some old ->
  exists rest, held ws ≡ₚ option_list (held_task old) ++ rest /\
    held (<[i := new]> ws) ≡ₚ option_list (held_task new) ++ rest.
Proof.
  intros Hi. destruct (list_split _ _ _ Hi) as (rest & Hold & Hnew). exists (held rest).
  split; [rewrite Hold | rewrite (Hnew new)]; unfold held; simpl;
    [by destruct (held_task old) | by destruct (held_task new)].
Qed.

Lemma held_same ws i old new :
  ws !! i = Some old -> held_task old = held_task new -> held (<[i := new]> ws) ≡ₚ held ws.
Proof.
  intros Hi Hh. destruct (held_insert ws i old new Hi) as (rest & H1 & H2). by rewrite H1, H2, Hh.
Qed.

Definition Holds (w : World) : Prop :=
  taken (log w) ≡ₚ held (threads_ (inner w)) ++ finished (log w).

Lemma Holds_turn w i p' tk dead :
  Accounts w -> Holds w -> threads_ (inner w) !! i = Some Looping ->
  ThreadLoop_turn (inner w) i (now w) = (p', tk, dead) ->
  taken ((Deleted <$> dead) ++ match tk with Some t => [Taken t] | None => [] end ++ log w) ≡ₚ
  held (threads_ p') ++
  finished ((Deleted <$> dead) ++ match tk with Some t => [Taken t] | None => [] end ++ log w).
Proof.
  intros Ha Hh Hi Ht. apply ThreadLoop_turn_turned in Ht; [|by apply acc_sorted].
  destruct (log_deleted dead (match tk with Some t => [Taken t] | None => [] end ++ log w))
    as (_ & -> & _ & ->). unfold Holds in Hh.
  destruct Ht as [t kept dead id q Hw Hr | | | ]; simpl.
  2-4: by rewrite (held_same _ _ _ _ Hi).
  destruct (WillRun_fields _ _ _ _ Hr) as (_ & -> & _). simpl.
  destruct (held_insert _ _ _ (Starting t id) Hi) as (rest & H1 & H2).
  rewrite H2. simpl. rewrite H1 in Hh. simpl in Hh. by rewrite <- Hh.
Qed.

Lemma Holds_stepped w e w' : Accounts w -> Holds w -> stepped w e w' -> Holds w'.
Proof.
  intros Ha Hh Hst. unfold Holds in *.
  destruct Hst as [|e q Hask Hq| |n post r time closure Hn Hs|n post r time closure t id p' Hn Hs E
    |n pick post id w' Hn Hs E|k p' Hk E|i p' tk dead Hi E|i pick t id p' Hi E|i t q Hi Hf E|i d Hi|i Hi
    |i pick p' Hi E|i Hi|max pick Hc|max pick p' Hc E| |]; simpl; try done.
  - by rewrite (f_equal threads_ Hq : threads_ q = threads_ (inner w)).
  - by rewrite (PostTask_threads _ _ _ _ _ _ _ _ E).
  - apply create_or_signal_cases in E as [(_ & p' & (E & _)%woken_same & ->)|[_ ->]]; simpl; [|done].
    by rewrite E.
  - unfold ThreadLoop_enter in E. case_guard; simpl in E; [|done]. injection E as <-. simpl.
    unfold held. by rewrite omap_app, app_nil_r.
  - by eapply Holds_turn.
  - apply woken_same in E as (E & _). simpl in E. by rewrite E, (held_same _ _ _ _ Hi).
  - apply DidRun_fields in E as ->. simpl.
    destruct (held_insert _ _ _ Looping Hi) as (rest & H1 & H2). rewrite H2, Hh, H1. simpl.
    solve_Permutation.
  - by rewrite (held_same _ _ _ _ Hi).
  - by rewrite (held_same _ _ _ _ Hi).
  - apply woken_same in E as (E & _). simpl in E. by rewrite E, (held_same _ _ _ _ Hi).
  - by rewrite (held_same _ _ _ _ Hi).
  - apply woken_same in E as (E & _). rewrite E. by destruct (CanShutdown p').
  - unfold shutdown_checks. simpl. by destruct (CanShutdown (inner w)).
Qed.

Definition is_Taken (x : Note) : bool := match x with Taken _ => true | _ => false end.

(** Where a note of a longer log is, when the new part has none like it. *)
Lemma split_after {A} (f : A -> bool) extra l l2 x l1 :
  Forall (fun y => f y = false) extra -> f x = true -> extra ++ l = l2 ++ x :: l1 ->
  exists k2, l2 = extra ++ k2 /\ l = k2 ++ x :: l1.
Proof.
  intros He Hx. revert l2. induction He as [|y extra Hy _ IH]; intros l2; simpl; [by exists l2|].
  destruct l2 as [|z l2]; simpl; intros [= <- E]; [congruence|].
  destruct (IH l2 E) as (k2 & -> & ->). by exists k2.
Qed.

(** When a task is taken, the others of its sequence that were taken have finished,
    and those before it have finished or are dropped. *)
Definition Ordered (l : list Note) : Prop :=
  forall l2 b l1, l = l2 ++ Taken b :: l1 -> sequence_token_id b <> 0 ->
  forall a, a ∈ accepted l1 -> a <> b -> sequence_token_id a = sequence_token_id b ->
    (a ∈ taken l1 -> a ∈ finished l1) /\ (before a b -> a ∈ finished l1 \/ a ∈ deleted l).

Lemma deleted_app k l : deleted (k ++ l) = deleted k ++ deleted l.
Proof. apply omap_app. Qed.

Lemma Ordered_extend extra l : Forall (fun y => is_Taken y = false) extra -> Ordered l -> Ordered (extra ++ l).
Proof.
  intros He Ho l2 b l1 E Hz a Ha Hne Ht.
  destruct (split_after is_Taken extra l l2 (Taken b) l1 He eq_refl E) as (k2 & _ & El).
  destruct (Ho k2 b l1 El Hz a Ha Hne Ht) as [H1 H2]. split; [done|]. intros Hb.
  rewrite deleted_app, elem_of_app. destruct (H2 Hb); [by left | by right; right].
Qed.

Lemma not_taken_deleted dead : Forall (fun y => is_Taken y = false) (Deleted <$> dead).
Proof. apply Forall_forall. by intros x (t & -> & _)%list_elem_of_fmap. Qed.

Lemma Ordered_taken w t kept dead :
  Accounts w -> Holds w -> Ordered (log w) ->
  walked (inner w) (now w) (pending_tasks_ (inner w)) (GET_WORK_FOUND t) kept dead ->
  Ordered ((Deleted <$> dead) ++ Taken t :: log w).
Proof.
  intros Ha Hh Ho Hw. destruct (walk_found _ _ _ _ _ _ Hw t eq_refl) as (Hr & _ & _ & Hbef).
  assert (sequence_token_id t <> 0 -> forall a, sequence_token_id a = sequence_token_id t ->
            (a ∉ held (threads_ (inner w))) /\ runnable (inner w) a) as Hfree.
  { intros Hz a E. rewrite runnable_spec in Hr. destruct Hr as [|Hr]; [done|]. split.
    - intros Hin. apply Hr. rewrite (acc_tokens _ Ha). unfold tokens.
      apply list_elem_of_filter. split; [done|]. rewrite <- E. by apply list_elem_of_fmap_2.
    - apply runnable_spec. right. by rewrite E. }
  intros l2 b l1 E Hz a Hacc Hne Htok.
  destruct (split_after is_Taken _ _ _ (Taken b) l1 (not_taken_deleted dead) eq_refl E) as (k2 & _ & El).
  destruct (log_deleted dead (Taken t :: log w)) as (_ & _ & -> & _). rewrite elem_of_app.
  destruct k2 as [|x k2]; injection El; [|intros El' _].
  - intros <- <-. destruct (Hfree Hz a Htok) as [Hnh Hra]. split.
    + unfold Holds in Hh. rewrite Hh, elem_of_app. by intros [?|?].
    + intros Hb. rewrite (acc_places _ Ha), !elem_of_app in Hacc.
      destruct Hacc as [Hp|[?|[?|?]]]; [|done|by left|by right; right].
      destruct (Hbef a Hp Hb); [right; by left | done].
  - destruct (Ho k2 b l1 El' Hz a Hacc Hne Htok) as [H1 H2]. split; [done|]. intros Hb.
    destruct (H2 Hb); [by left | right; by right].
Qed.

(** What a step writes to the log: no [Taken], or the turn of a worker that takes a task. *)
Lemma stepped_log w e w' :
  stepped w e w' ->
  (exists extra, log w' = extra ++ log w /\ Forall (fun y => is_Taken y = false) extra) \/
  exists i t p' dead, ThreadLoop_turn (inner w) i (now w) = (p', Some t, dead) /\
    log w' = (Deleted <$> dead) ++ Taken t :: log w.
Proof.
  assert (forall x l, l = x :: log w -> is_Taken x = false ->
            exists extra, l = extra ++ log w /\ Forall (fun y => is_Taken y = false) extra) as Hone.
  { intros x l -> Hx. exists [x]. split; [done | by repeat constructor]. }
  assert (forall l, l = log w ->
            exists extra, l = extra ++ log w /\ Forall (fun y => is_Taken y = false) extra) as Hnil.
  { intros l ->. exists []. split; [done | constructor]. }
  intros Hst. destruct Hst as [| | | | |n pick post id w' Hn Hs E| |i p' tk dead Hi E| | | | | | | |max pick p' Hc E| |];
    try (left; by apply Hnil); try (left; by eapply Hone).
  - apply create_or_signal_cases in E as [(_ & p' & _ & ->)|[_ ->]]; left; by apply Hnil.
  - destruct tk as [t|]; [right; by exists i, t, p', dead|].
    left. exists (Deleted <$> dead). split; [done | apply not_taken_deleted].
  - left. simpl. destruct (CanShutdown p'); [by eapply Hone | by apply Hnil].
  - left. unfold shutdown_checks. simpl. destruct (CanShutdown (inner w)); [by eapply Hone | by apply Hnil].
Qed.

Lemma Ordered_stepped w e w' :
  Accounts w -> Holds w -> Ordered (log w) -> stepped w e w' -> Ordered (log w').
Proof.
  intros Ha Hh Ho [(extra & -> & He)|(i & t & p' & dead & Ht & ->)]%stepped_log.
  - by apply Ordered_extend.
  - apply ThreadLoop_turn_turned in Ht; [|by apply acc_sorted]. inversion Ht; subst.
    by eapply Ordered_taken.
Qed.

(** ** Times *)

(** The times of the posts: what was posted without delay is due no later than now,
    and no later than what was posted after it was accepted. *)
Record Timely (w : World) : Prop := {
  time_begun : forall n d, Begun n d ∈ log w -> (n < posts_begun w)%nat;
  time_accepted : forall n t, Accepted n t ∈ log w -> (n < posts_begun w)%nat;
  time_due : forall n d t, Accepted n t ∈ log w -> Begun n d ∈ log w -> time_to_run t <= now w + d;
  time_flight : forall post r time c, post ∈ posts w -> stage post = BeforeLock r time c ->
    (number post < posts_begun w)%nat /\
    (forall d, Begun (number post) d ∈ log w -> time <= now w + d) /\
    (forall l2 l1 d, log w = l2 ++ Begun (number post) d :: l1 -> 0 <= d ->
       forall n t, Accepted n t ∈ l1 -> Begun n 0 ∈ log w -> time_to_run t <= time);
  time_order : forall l2 l1 m d, log w = l2 ++ Begun m d :: l1 -> 0 <= d ->
    forall n a b, Accepted n a ∈ l1 -> Begun n 0 ∈ log w -> Accepted m b ∈ log w -> before a b;
}.

Definition is_post_note (x : Note) : bool :=
  match x with Begun _ _ | Accepted _ _ => true | _ => false end.

(** A step that begins and accepts nothing. *)
Lemma Timely_extend w w' extra :
  Timely w -> log w' = extra ++ log w -> Forall (fun x => is_post_note x = false) extra ->
  posts_begun w' = posts_begun w -> now w <= now w' ->
  (forall post r time c, post ∈ posts w' -> stage post = BeforeLock r time c -> post ∈ posts w) ->
  Timely w'.
Proof.
  intros [T1 T2 T3 T4 T5] El He Eb Hn Hp.
  assert (forall x, is_post_note x = true -> x ∈ log w' -> x ∈ log w) as Hold.
  { intros x Hx. rewrite El, elem_of_app. intros [Hin|?]; [|done]. rewrite Forall_forall in He.
    specialize (He x Hin). congruence. }
  split; rewrite ?Eb.
  - intros n d Hin. by eapply T1, Hold.
  - intros n t Hin. by eapply T2, Hold.
  - intros n d t H1%Hold H2%Hold; try done. specialize (T3 n d t H1 H2). lia.
  - intros post r time c Hin Hs. destruct (T4 post r time c (Hp _ _ _ _ Hin Hs) Hs) as (A & B & C).
    split; [done|]. split.
    + intros d Hd%Hold; [|done]. specialize (B d Hd). lia.
    + intros l2 l1 d E Hd n t Ha H0%Hold; [|done]. rewrite El in E.
      destruct (split_after is_post_note _ _ _ (Begun _ _) _ He eq_refl E) as (k2 & _ & E').
      by apply (C k2 l1 d E' Hd n t).
  - intros l2 l1 m d E Hd n a b Ha H0%Hold Hb%Hold; [|done..]. rewrite El in E.
    destruct (split_after is_post_note _ _ _ (Begun _ _) _ He eq_refl E) as (k2 & _ & E').
    by apply (T5 k2 l1 m d E' Hd n).
Qed.

Lemma Timely_begins w poster r c :
  Timely w ->
  Timely (World_ (inner w)
            (posts w ++ [Post_ (posts_begun w) poster (BeforeLock r (now w + delay r) c)])
            (S (posts_begun w)) (created w) (shutdown w) (now w)
            (Begun (posts_begun w) (delay r) :: log w)).
Proof.
  intros [T1 T2 T3 T4 T5]. split; simpl.
  - intros n d [[= -> ->]|Hin%T1]%elem_of_cons; lia.
  - intros n t [|Hin%T2]%elem_of_cons; [done | lia].
  - intros n d t [|Ha]%elem_of_cons [[= -> ->]|Hb]%elem_of_cons; try done; [|by eapply T3].
    apply T2 in Ha. lia.
  - intros post r' time c' [Hin|Hin%list_elem_of_singleton]%elem_of_app Hs.
    + destruct (T4 post r' time c' Hin Hs) as (A & B & C). split; [lia|]. split.
      * intros d [[= E ->]|Hd]%elem_of_cons; [lia | by apply B].
      * intros [|x l2] l1 d [= E1 E2] Hd n t Ha; [lia|].
        intros [[= -> E3]|H0]%elem_of_cons; [|by apply (C l2 l1 d E2 Hd n t)].
        exfalso. assert (Accepted (posts_begun w) t ∈ log w) as Hin2%T2
          by (rewrite E2; apply elem_of_app; right; by right). lia.
    + subst post. simpl in Hs. injection Hs as <- <- <-. simpl. split; [lia|]. split.
      * intros d [[= ->]|Hd%T1]%elem_of_cons; lia.
      * intros [|x l2] l1 d [= E1 E2] Hd n t Ha.
        { subst. intros [[= E3]|H0]%elem_of_cons; [apply T2 in Ha; lia|].
          specialize (T3 n 0 t Ha H0). lia. }
        exfalso. assert (Begun (posts_begun w) d ∈ log w) as Hin%T1
          by (rewrite E2; apply elem_of_app; right; by left). lia.
  - intros l2 l1 m d E Hd n a b Ha H0 [|Hb]%elem_of_cons; [done|].
    destruct l2 as [|x l2]; injection E; [intros <- <- <-; apply T2 in Hb; lia | intros E2 _].
    apply elem_of_cons in H0 as [[= -> E3]|H0]; [|by apply (T5 l2 l1 m d E2 Hd n)].
    exfalso. assert (Accepted (posts_begun w) a ∈ log w) as Hin%T2
      by (rewrite E2; apply elem_of_app; right; by right). lia.
Qed.

Lemma elem_remove_at {A} (l : list A) n x : x ∈ remove_at l n -> x ∈ l.
Proof.
  intros H. destruct (l !! n) as [y|] eqn:E.
  - rewrite (remove_at_split l n y E). by right.
  - unfold remove_at in H. apply lookup_ge_None_1 in E.
    by rewrite take_ge, drop_ge, app_nil_r in H by lia.
Qed.

(** A task that is accepted is due when its post says, and has a new number. *)
Lemma accepted_task w n post r time closure t id p' :
  Accounts w -> posts w !! n = Some post -> stage post = BeforeLock r time closure ->
  PostTask (inner w) (poster post) r time closure = (Some (t, id), p') ->
  time_to_run t = time /\
  forall m u, Accepted m u ∈ log w -> sequence_task_number u < sequence_task_number t.
Proof.
  intros Ha Hn Hs (p1 & Hp & _)%PostTask_accepted. split; [by apply (post_time _ _ _ _ _ _ Hp)|].
  intros m u Hu. rewrite (post_number _ _ _ _ _ _ Hp). pose proof (acc_numbers _ Ha) as H.
  rewrite Forall_forall in H. apply H, elem_accepted_log. by exists m.
Qed.

Lemma Timely_accepted w n post r time closure t id p' :
  Accounts w -> Timely w -> posts w !! n = Some post -> stage post = BeforeLock r time closure ->
  PostTask (inner w) (poster post) r time closure = (Some (t, id), p') ->
  Timely (World_ p' (<[n := Post_ (number post) (poster post) (AfterLock id)]> (posts w))
            (posts_begun w) (created w) (shutdown w) (now w) (Accepted (number post) t :: log w)).
Proof.
  intros Ha [T1 T2 T3 T4 T5] Hn Hs E. destruct (accepted_task _ _ _ _ _ _ _ _ _ Ha Hn Hs E) as [Et Hnew].
  destruct (T4 post r time closure ltac:(by eapply list_elem_of_lookup_2) Hs) as (A & B & C).
  split; simpl.
  - intros m d [|Hin]%elem_of_cons; [done | by eapply T1].
  - intros m u [[= -> ->]|Hin]%elem_of_cons; [done | by eapply T2].
  - intros m d u [[= -> ->]|Hu]%elem_of_cons [|Hd]%elem_of_cons; try done.
    + rewrite Et. by apply B.
    + by eapply T3.
  - intros post' r' time' c' Hin Hs'. apply elem_insert in Hin as [->|Hin]; [done|].
    destruct (T4 post' r' time' c' Hin Hs') as (A' & B' & C'). split; [done|]. split.
    + intros d [|Hd]%elem_of_cons; [done | by apply B'].
    + intros [|x l2] l1 d [= E1 E2] Hd m u Hu [|H0]%elem_of_cons; [done..|].
      by apply (C' l2 l1 d E2 Hd m u).
  - intros [|x l2] l1 m d [= E1 E2] Hd k a b Hk [|H0]%elem_of_cons Hb; [done..|].
    apply elem_of_cons in Hb as [[= -> ->]|Hb]; [|by apply (T5 l2 l1 m d E2 Hd k)].
    apply before_spec. specialize (C l2 l1 d E2 Hd k a Hk H0).
    assert (Accepted k a ∈ log w) as Hin%Hnew by (rewrite E2; apply elem_of_app; right; by right).
    rewrite Et. lia.
Qed.

Lemma Timely_stepped w e w' : Accounts w -> Timely w -> stepped w e w' -> Timely w'.
Proof.
  intros Ha Ht Hst.
  destruct Hst as [|e q Hask Hq| |n post r time closure Hn Hs|n post r time closure t id p' Hn Hs E
    |n pick post id w' Hn Hs E|k p' Hk E|i p' tk dead Hi E| |i t q Hi Hf E| | | | | |max pick p' Hc E| |];
    try (by apply (Timely_extend w _ [])).
  - by apply Timely_begins.
  - apply (Timely_extend w _ [Refused (number post)]); try done; [by repeat constructor|]. simpl.
    intros post' r' time' c' Hin%elem_remove_at _. done.
  - by eapply Timely_accepted.
  - apply create_or_signal_cases in E as [(_ & p' & _ & ->)|[_ ->]]; apply (Timely_extend w _ []); try done;
      simpl; intros post' r' time' c' Hin%elem_remove_at _; done.
  - apply (Timely_extend w _ ((Deleted <$> dead) ++ match tk with Some t => [Taken t] | None => [] end));
      try done; simpl; [by rewrite (assoc_L (++))|].
    apply Forall_app. split; [|destruct tk; by repeat constructor].
    apply Forall_forall. by intros x (t & -> & _)%list_elem_of_fmap.
  - apply (Timely_extend w _ [Finished t]); try done. by repeat constructor.
  - simpl. destruct (CanShutdown p');
      [apply (Timely_extend w _ [ShutdownReturned]) | apply (Timely_extend w _ [])]; try done. by repeat constructor.
  - unfold shutdown_checks. destruct (CanShutdown (inner w));
      [apply (Timely_extend w _ [ShutdownReturned]) | apply (Timely_extend w _ [])]; try done. by repeat constructor.
Qed.

Record Orderly (w : World) : Prop := {
  ord_accounts : Accounts w;
  ord_holds : Holds w;
  ord_ordered : Ordered (log w);
  ord_timely : Timely w;
}.

Lemma reachable_orderly max_threads last time w :
  reachable (new_World max_threads last time) w -> Orderly w.
Proof.
  induction 1 as [|w e w' _ [A H O T] Hst%step_stepped].
  - split; [apply Accounts_start | apply Permutation_refl | intros [] b l1 E; discriminate E | split; simpl].
    1-4: set_solver.
    by intros [|x l2] l1 m d E.
  - split; [by eapply Accounts_stepped | by eapply Holds_stepped | by eapply Ordered_stepped
           | by eapply Timely_stepped].
Qed.

(** C7: tasks of one sequence never overlap and run in order. When a worker takes a
    task [b] of a sequence and [a] is a task of it that was accepted before: if [a] was
    taken it has finished; if [a] comes before [b], by its time and then its number, it
    has finished or is dropped by shutdown; and [a] does come before [b] when it was
    posted without delay and accepted before the post of [b] began, however the posts
    of other threads interleave. *)
Theorem sequences_run_in_order max_threads last time w l2 b l1 n a :
  reachable (new_World max_threads last time) w ->
  log w = l2 ++ Taken b :: l1 -> sequence_token_id b <> 0 ->
  Accepted n a ∈ l1 -> a <> b -> sequence_token_id a = sequence_token_id b ->
  (Taken a ∈ l1 -> Finished a ∈ l1) /\
  (before a b -> Finished a ∈ l1 \/ Deleted a ∈ log w) /\
  (forall k2 k1 m d, log w = k2 ++ Begun m d :: k1 -> 0 <= d -> Accepted m b ∈ log w ->
     Begun n 0 ∈ log w -> Accepted n a ∈ k1 -> Finished a ∈ l1 \/ Deleted a ∈ log w).
Proof.
  intros Hr E Hz Ha Hne Ht. destruct (reachable_orderly _ _ _ _ Hr) as [_ _ O T].
  assert (a ∈ accepted l1) as Hacc by (apply elem_accepted_log; by exists n).
  destruct (O l2 b l1 E Hz a Hacc Hne Ht) as [H1 H2].
  rewrite elem_taken, elem_finished in H1. rewrite elem_finished, elem_deleted in H2. split; [done|]. split; [done|].
  intros k2 k1 m d Em Hd Hb H0 Hk. apply H2. by apply (time_order _ T k2 k1 m d Em Hd n).
Qed.

(** Two tasks of sequence 7; the second is accepted while the first waits for its thread. *)
Definition two_tasks : list Event :=
  [PostBegins None (PostSequencedWorkerTask 7) 1; PostLocks 0; PostEnds 0 0; ThreadEnters;
   PostBegins None (PostSequencedWorkerTask 7) 2; PostLocks 0; PostEnds 0 0;
   WorkerTurns 0; TaskStarts 0 0; TaskFinishes 0; WorkerTurns 0].

Lemma sequences_run_in_order_witness :
  let a := SequencedTask_ 7 0 BLOCK_SHUTDOWN 100 1 in
  let b := SequencedTask_ 7 1 BLOCK_SHUTDOWN 100 2 in
  exists w l1, run (new_World 1 0 100) two_tasks = Some w /\ log w = Taken b :: l1 /\
    before a b /\ (Finished a ∈ l1 \/ Deleted a ∈ log w).
Proof.
  intros a b.
  assert (exists w, run (new_World 1 0 100) two_tasks = Some w) as (w & Hw)
    by (eexists; vm_compute; reflexivity).
  pose proof (run_reachable _ _ _ _ (reachable_start _) Hw) as Hr.
  exists w. vm_compute in Hw. injection Hw as <-. eexists. split; [reflexivity|].
  split; [reflexivity|]. split; [reflexivity|].
  edestruct (sequences_run_in_order 1 0 100 _ [] b _ 0 a Hr eq_refl) as (_ & H & _); [done | | done | done |].
  - apply list_elem_of_In. simpl. tauto.
  - by apply H.
Defined.

(** ** Shutdown *)

Lemma PostTask_shutdown p poster r time closure t id p' :
  PostTask p poster r time closure = (Some (t, id), p') -> shutdown_called_ p' = shutdown_called_ p.
Proof.
  intros (p1 & Hp & Hprep)%PostTask_accepted. apply Prepare_same in Hprep.
  rewrite <- (post_shutdown _ _ _ _ _ _ Hp). exact (f_equal shutdown_called_ Hprep).
Qed.

Lemma woken_fields p pick p' {A} (f : Inner -> A) :
  SignalHasWork p pick = Some p' -> (forall q ws, f (set_threads q ws) = f q) -> f p' = f p.
Proof.
  intros (_ & _ & _ & _ & Hf)%woken_same Hset. rewrite <- (Hset p' []), <- (Hset p []). by rewrite Hf.
Qed.

Lemma turned_shutdown p i now p' tk dead :
  turned p i now p' tk dead -> shutdown_called_ p' = shutdown_called_ p.
Proof.
  intros [t kept dead' id q Hw Hr| | |]; try done.
  by destruct (WillRun_fields _ _ _ _ Hr) as (_ & _ & _ & _ & _ & E & _).
Qed.

(** Shutdown stays called, and a thread that shuts down has called it. *)
Lemma stepped_called w e w' :
  Accounts w -> stepped w e w' ->
  (shutdown_called_ (inner w) = true -> shutdown_called_ (inner w') = true) /\
  ((shutdown w <> NotCalled -> shutdown_called_ (inner w) = true) ->
   shutdown w' <> NotCalled -> shutdown_called_ (inner w') = true).
Proof.
  intros Ha Hst.
  destruct Hst as [|e q Hask Hq| |n post r time closure Hn Hs|n post r time closure t id p' Hn Hs E
    |n pick post id w' Hn Hs E|k p' Hk E|i p' tk dead Hi E|i pick t id p' Hi E|i t q Hi Hf E| |
    |i pick p' Hi E|i Hi| |max pick p' Hc E|Hch|Hw]; simpl; try done.
  - rewrite (f_equal shutdown_called_ Hq : shutdown_called_ q = shutdown_called_ (inner w)). done.
  - by rewrite (PostTask_shutdown _ _ _ _ _ _ _ _ E).
  - apply create_or_signal_cases in E as [(_ & p' & E & ->)|[_ ->]]; [|done]. simpl.
    by rewrite (woken_fields _ _ _ shutdown_called_ E).
  - unfold ThreadLoop_enter in E. case_guard; simpl in E; [|done]. by injection E as <-.
  - apply ThreadLoop_turn_turned, turned_shutdown in E as ->; [done | by apply acc_sorted].
  - by rewrite (woken_fields _ _ _ shutdown_called_ E).
  - by apply DidRun_fields in E as ->.
  - by rewrite (woken_fields _ _ _ shutdown_called_ E).
  - split; [done|]. intros H Hne. apply H. by case_bool_decide; congruence.
  - rewrite (woken_fields _ _ _ shutdown_called_ E) by done. done.
  - unfold shutdown_checks. simpl. split; [done|]. intros H _. apply H. congruence.
  - split; [done|]. intros H _. apply H. congruence.
Qed.

Definition is_return (x : Note) : bool := match x with ShutdownReturned => true | _ => false end.

(** What a step writes about shutdown and about the tasks that it drops. *)
Lemma stepped_return w e w' :
  Accounts w -> stepped w e w' ->
  (exists extra, log w' = extra ++ log w /\ Forall (fun x => is_return x = false) extra /\
     forall t, Taken t ∈ extra -> shutdown_called_ (inner w) = true -> blocks t = true) \/
  (log w' = ShutdownReturned :: log w /\ CanShutdown (inner w') = true /\ shutdown w' <> NotCalled).
Proof.
  intros Ha. assert (forall x l, l = x :: log w -> is_return x = false -> is_Taken x = false ->
    exists extra, l = extra ++ log w /\ Forall (fun x => is_return x = false) extra /\
      forall t, Taken t ∈ extra -> shutdown_called_ (inner w) = true -> blocks t = true) as Hone.
  { intros x l -> Hx Ht. exists [x]. split; [done|]. split; [by repeat constructor|].
    intros t Hin%list_elem_of_singleton. by subst x. }
  assert (forall l, l = log w ->
    exists extra, l = extra ++ log w /\ Forall (fun x => is_return x = false) extra /\
      forall t, Taken t ∈ extra -> shutdown_called_ (inner w) = true -> blocks t = true) as Hnil.
  { intros l ->. exists []. split; [done|]. split; [constructor | by intros t ?%elem_of_nil]. }
  intros Hst. destruct Hst as [| | | | |n pick post id w' Hn Hs E| |i p' tk dead Hi E| | | | | | | |max pick p' Hc E| |];
    try (left; by apply Hnil); try (left; by eapply Hone).
  - apply create_or_signal_cases in E as [(_ & p' & _ & ->)|[_ ->]]; left; by apply Hnil.
  - left. exists ((Deleted <$> dead) ++ match tk with Some t => [Taken t] | None => [] end). simpl.
    split; [by rewrite (assoc_L (++))|]. apply ThreadLoop_turn_turned in E; [|by apply acc_sorted]. split.
    + apply Forall_app. split; [|destruct tk; by repeat constructor].
      apply Forall_forall. by intros x (t & -> & _)%list_elem_of_fmap.
    + intros t [(u & [=] & _)%list_elem_of_fmap|Hin]%elem_of_app Hsd.
      destruct E as [t' kept dead id q Hw Hr| | |]; [|by apply elem_of_nil in Hin..].
      apply list_elem_of_singleton in Hin as [= ->].
      by destruct (walk_found _ _ _ _ _ _ Hw _ eq_refl) as (_ & _ & Hb & _); apply Hb.
  - simpl. destruct (CanShutdown p') eqn:Ec; [by right | left; by apply Hnil].
  - unfold shutdown_checks. simpl. destruct (CanShutdown (inner w)) eqn:Ec; [by right | left; by apply Hnil].
Qed.

(** What holds when [Shutdown] returns, and of what happens afterwards. *)
Definition Kept_promises (l2 l1 : list Note) : Prop :=
  (forall t, t ∈ accepted l1 -> blocks t = true -> t ∈ finished l1) /\
  (forall t, t ∈ taken l1 -> delays t = true -> t ∈ finished l1) /\
  (forall t, Taken t ∈ l2 -> blocks t = true).

Record Shut (w : World) : Prop := {
  shut_called : shutdown w <> NotCalled -> shutdown_called_ (inner w) = true;
  shut_returned : forall l2 l1, log w = l2 ++ ShutdownReturned :: l1 ->
    shutdown_called_ (inner w) = true /\ Kept_promises l2 l1;
}.

Lemma can_shutdown_kept w :
  Accounts w -> Holds w -> CanShutdown (inner w) = true ->
  (forall t, t ∈ accepted (log w) -> blocks t = true -> t ∈ finished (log w)) /\
  (forall t, t ∈ taken (log w) -> delays t = true -> t ∈ finished (log w)).
Proof.
  intros Ha Hh Hc. unfold CanShutdown in Hc. rewrite !andb_true_iff, !Z.eqb_eq in Hc.
  destruct Hc as [[_ Hd] Hp]. rewrite (acc_blocking _ Ha) in Hd. rewrite (acc_pending _ Ha) in Hp.
  assert (forall t, t ∈ held (threads_ (inner w)) -> delays t = false) as Hheld
    by (intros t Ht; by apply (count_zero _ _ _ Hd)).
  split; intros t Ht Hb.
  - rewrite (acc_places _ Ha), !elem_of_app in Ht. destruct Ht as [Ht|[Ht|[Ht|Ht]]]; [| |done|].
    + pose proof (count_zero _ _ _ Hp Ht). congruence.
    + specialize (Hheld t Ht). unfold delays, blocks in *. apply bool_decide_eq_true in Hb.
      by rewrite Hb in Hheld.
    + pose proof (acc_deleted _ Ha) as Hdel. rewrite Forall_forall in Hdel. specialize (Hdel t Ht).
      unfold blocks in Hb. by apply bool_decide_eq_true in Hb.
  - unfold Holds in Hh. rewrite Hh, elem_of_app in Ht. destruct Ht as [Ht|]; [|done].
    specialize (Hheld t Ht). congruence.
Qed.

Lemma Shut_stepped w e w' : Accounts w -> Holds w -> Shut w -> stepped w e w' -> Shut w'.
Proof.
  intros Ha Hh [S1 S2] Hst. destruct (stepped_called _ _ _ Ha Hst) as [Hcalled Hnot].
  pose proof (Accounts_stepped _ _ _ Ha Hst) as Ha'. pose proof (Holds_stepped _ _ _ Ha Hh Hst) as Hh'.
  split; [by apply Hnot|]. intros l2 l1 El.
  destruct (stepped_return _ _ _ Ha Hst) as [(extra & E & He & Ht)|(E & Hc & Hs)]; rewrite E in El.
  - destruct (split_after is_return _ _ _ ShutdownReturned _ He eq_refl El) as (k2 & -> & El').
    destruct (S2 k2 l1 El') as (Hsd & K1 & K2 & K3). split; [by apply Hcalled|].
    split; [done|]. split; [done|]. intros t [Hin|Hin]%elem_of_app; [by apply Ht | by apply K3].
  - split; [by apply Hnot|]. destruct (can_shutdown_kept _ Ha' Hh' Hc) as [C1 C2]. rewrite E in C1, C2.
    destruct l2 as [|x l2]; injection El; [intros <- | intros El' <-].
    + split; [exact C1|]. split; [exact C2|]. by intros t ?%elem_of_nil.
    + destruct (S2 l2 l1 El') as (_ & K1 & K2 & K3). split; [done|]. split; [done|].
      intros t [|Hin]%elem_of_cons; [done | by apply K3].
Qed.

Lemma reachable_shut max_threads last time w :
  reachable (new_World max_threads last time) w -> Shut w.
Proof.
  induction 1 as [|w e w' Hr IH Hst%step_stepped]; [by split; [|intros []]|].
  destruct (reachable_orderly _ _ _ _ Hr) as [A H _ _]. by eapply Shut_stepped.
Qed.

(** C8: when [Shutdown] has returned, every task that blocks shutdown and was accepted
    before had run to its end, and so had every task that was taken before and may
    not go on after shutdown; and from then on no task is taken but those that block
    shutdown. The refusals of [PostTask] and the deletions of [GetWork] serve no one
    else: only [CONTINUE_ON_SHUTDOWN] tasks may still run. *)
Theorem shutdown_keeps_its_promises max_threads last time w l2 l1 :
  reachable (new_World max_threads last time) w ->
  log w = l2 ++ ShutdownReturned :: l1 ->
  (forall n t, Accepted n t ∈ l1 -> shutdown_behavior t = BLOCK_SHUTDOWN -> Finished t ∈ l1) /\
  (forall t, Taken t ∈ l1 -> shutdown_behavior t <> CONTINUE_ON_SHUTDOWN -> Finished t ∈ l1) /\
  (forall t, Taken t ∈ l2 -> shutdown_behavior t = BLOCK_SHUTDOWN).
Proof.
  intros Hr E. destruct (shut_returned _ (reachable_shut _ _ _ _ Hr) _ _ E) as (_ & K1 & K2 & K3).
  split; [|split].
  - intros n t Ha Hb. apply elem_finished, K1; [apply elem_accepted_log; by exists n|].
    by apply bool_decide_eq_true.
  - intros t Ht Hb. apply elem_finished, K2; [by apply elem_taken|]. unfold delays.
    by rewrite bool_decide_eq_false_2.
  - intros t Ht. apply K3 in Ht. by apply bool_decide_eq_true in Ht.
Qed.

(** A task that blocks shutdown waits behind one that runs when shutdown is called. *)
Definition shutdown_with_work : list Event :=
  [PostBegins None (PostSequencedWorkerTask 7) 1; PostLocks 0; PostEnds 0 0; ThreadEnters;
   PostBegins None (PostSequencedWorkerTask 7) 2; PostLocks 0; PostEnds 0 0;
   WorkerTurns 0; TaskStarts 0 0; ShutdownCalled 0 0; ShutdownChecks; TaskFinishes 0;
   WorkerTurns 0; TaskStarts 0 0; TaskFinishes 0; WorkerTurns 0; WorkerSignals 0 0;
   WorkerUnblocksShutdown 0; ShutdownChecks].

Lemma shutdown_keeps_its_promises_witness :
  let b := SequencedTask_ 7 1 BLOCK_SHUTDOWN 100 2 in
  exists w l1, run (new_World 1 0 100) shutdown_with_work = Some w /\
    log w = ShutdownReturned :: l1 /\ Finished b ∈ l1.
Proof.
  intros b.
  assert (exists w, run (new_World 1 0 100) shutdown_with_work = Some w) as (w & Hw)
    by (eexists; vm_compute; reflexivity).
  pose proof (run_reachable _ _ _ _ (reachable_start _) Hw) as Hr.
  exists w. vm_compute in Hw. injection Hw as <-. eexists. do 2 (split; [reflexivity|]).
  apply (proj1 (shutdown_keeps_its_promises 1 0 100 _ [] _ Hr eq_refl) 1%nat); [|done].
  apply list_elem_of_In. simpl. tauto.
Defined.

(** *** What threads are told *)

Lemma held_unique ws i j a b ta tb :
  NoDup (tokens (held ws)) -> ws !! i = Some a -> ws !! j = Some b ->
  held_task a = Some ta -> held_task b = Some tb ->
  sequence_token_id ta = sequence_token_id tb -> sequence_token_id ta <> 0 -> i = j.
Proof.
  intros Hd Hi Hj Ha Hb E Hz. destruct (decide (i = j)) as [|Hij]; [done | exfalso].
  destruct (held_insert ws i a Exited Hi) as (rest & H1 & H2). rewrite Ha in H1. simpl in H1, H2.
  rewrite H1, tokens_cons in Hd. rewrite (proj2 (Z.eqb_neq _ _) Hz) in Hd.
  apply NoDup_cons in Hd as [Hni _]. apply Hni. unfold tokens.
  apply list_elem_of_filter. split; [done|]. rewrite E. apply list_elem_of_fmap_2.
  rewrite <- H2. apply list_elem_of_omap. exists b. split; [|done].
  apply (list_elem_of_lookup_2 _ j). by rewrite list_lookup_insert_ne.
Qed.

(** At most one thread is told that it runs a sequence, and it is a thread of the pool. *)
Lemma one_thread_runs_a_sequence max_threads last time w c1 c2 token :
  reachable (new_World max_threads last time) w -> token <> 0 ->
  IsRunningSequenceOnCurrentThread (inner w) c1 token = true ->
  IsRunningSequenceOnCurrentThread (inner w) c2 token = true ->
  c1 = c2 /\ RunsTasksOnCurrentThread (inner w) c1 = true.
Proof.
  intros Hr Hz. pose proof (reachable_accounts _ _ _ _ Hr) as A.
  assert (forall c, IsRunningSequenceOnCurrentThread (inner w) c token = true ->
            exists i t, c = Some i /\ threads_ (inner w) !! i = Some (Running t) /\
                        sequence_token_id t = token) as Hrun.
  { intros [i|] H; [|done]. unfold IsRunningSequenceOnCurrentThread in H. simpl in H.
    destruct (threads_ (inner w) !! i) as [[| | t | | | | |]|] eqn:Hi; try done. exists i, t.
    split; [done|]. split; [done|]. simpl in H. apply bool_decide_eq_true in H. by injection H. }
  intros (i & t & -> & Hi & Et)%Hrun (j & u & -> & Hj & Eu)%Hrun.
  assert (NoDup (tokens (held (threads_ (inner w))))) as Hd
    by (rewrite <- (acc_tokens _ A); apply (acc_exclusive _ A)).
  split; [f_equal; eapply (held_unique _ i j _ _ t u Hd Hi Hj); try done; congruence|].
  unfold RunsTasksOnCurrentThread. simpl. by rewrite Hi.
Qed.

(** Names and tokens: a name keeps its token, and every other token differs from it. *)
Definition Named (p : Inner) : Prop :=
  Forall (fun x => 0 < snd x <= g_last_sequence_number_ p) (named_sequence_tokens_ p) /\
  NoDup (snd <$> named_sequence_tokens_ p).

Lemma find_name_in names name id : find_name names name = Some id -> (name, id) ∈ names.
Proof.
  induction names as [|[n i] names IH]; simpl; [done|]. case_bool_decide as E.
  - intros [= ->]. subst n. by left.
  - intros H. right. by apply IH.
Qed.

Lemma named_tokens_are_kept p name id p' :
  Named p -> 0 <= g_last_sequence_number_ p -> LockedGetNamedTokenID p name = (id, p') ->
  Named p' /\ 0 < id <= g_last_sequence_number_ p' /\ LockedGetNamedTokenID p' name = (id, p') /\
  (forall other i, find_name (named_sequence_tokens_ p) other = Some i -> i = id -> other = name) /\
  fst (GetSequenceToken p') <> id.
Proof.
  intros [Hn Hd] H0. rewrite Forall_forall in Hn. unfold LockedGetNamedTokenID.
  destruct (find_name (named_sequence_tokens_ p) name) as [i|] eqn:E.
  - intros [= <- <-]. rewrite E. pose proof (find_name_in _ _ _ E) as Hin.
    specialize (Hn _ Hin) as Hi. simpl in Hi.
    split; [split; [by apply Forall_forall | done]|]. split; [done|]. split; [done|].
    split; [|simpl; lia]. intros other j Hj%find_name_in ->.
    apply list_elem_of_lookup_1 in Hin as (a & Ha). apply list_elem_of_lookup_1 in Hj as (b & Hb).
    assert (a = b) as ->.
    { apply (NoDup_lookup _ a b i Hd); rewrite list_lookup_fmap; [by rewrite Ha | by rewrite Hb]. }
    congruence.
  - simpl. intros [= <- <-].
    assert (forall x, x ∈ named_sequence_tokens_ p -> snd x <= g_last_sequence_number_ p) as Hle
      by (intros x Hx; specialize (Hn x Hx); simpl in Hn; lia).
    split; [split; simpl|].
    + constructor; [simpl; lia|]. apply Forall_forall. intros x Hx. specialize (Hn x Hx). simpl in Hn. lia.
    + constructor; [|done]. intros (x & Ex & Hx)%list_elem_of_fmap. specialize (Hle x Hx). lia.
    + split; [simpl; lia|]. simpl. rewrite bool_decide_eq_true_2 by done. split; [done|].
      split; [|lia]. intros other j Hj%find_name_in ->. specialize (Hle _ Hj). simpl in Hle. lia.
Qed.
