(* ===== verification/WorkerPoolLiveness.v ===== *)
(** * The sequenced worker pool does not get stuck

    Invariants of the machine of [WorkerPool.v] that say who acts next: a pending task
    that may run has a worker, a post or a new thread that will look at it, or every
    worker has something else to do; a pool that has to shut down has a worker that
    will say so. From them, with a bound on the steps the pool takes by itself: due
    tasks wait only for busy threads, and shutdown only for tasks that run. *)
From Stdlib Require Import ZArith Lia Sorted.
From stdpp Require Import base numbers option sets list.
From S2P Require Import Prelude WorkerPool WorkerPoolProps.
Local Open Scope Z_scope.

(** ** Kinds of workers *)

(** A worker that is going to look for work or to signal. *)
Definition acts (v : Worker) : bool :=
  match v with Looping | Starting _ _ | Woken | Leaving => true | _ => false end.
(** A worker that is still to unblock shutdown. *)
Definition unblocks (v : Worker) : bool :=
  match v with Looping | Woken | Leaving | Signalling => true | _ => false end.
Definition left_loop (v : Worker) : bool :=
  match v with Leaving | Signalling | Exited => true | _ => false end.

Definition Some_worker (f : Worker -> bool) (p : Inner) : Prop := exists v, v ∈ threads_ p /\ f v = true.

Lemma set_worker_some f p i old new :
  threads_ p !! i = Some old -> f new = true -> Some_worker f (set_worker p i new).
Proof.
  intros Hi Hf. exists new. split; [|done]. simpl.
  apply list_elem_of_insert. by eapply lookup_lt_Some.
Qed.

Lemma set_worker_keeps f p i old new :
  threads_ p !! i = Some old -> (f old = true -> f new = true) ->
  Some_worker f p -> Some_worker f (set_worker p i new).
Proof.
  intros Hi Hf (v & Hv & Hfv). destruct (list_split _ _ _ Hi) as (rest & Hold & Hnew).
  unfold Some_worker. simpl. rewrite Hold in Hv. apply elem_of_cons in Hv as [->|Hv].
  - exists new. split; [|by apply Hf]. rewrite (Hnew new). by left.
  - exists v. split; [|done]. rewrite (Hnew new). by right.
Qed.

Lemma signal_keeps f p pick p' :
  SignalHasWork p pick = Some p' -> (forall d, f (Waiting d) = true -> f Woken = true) ->
  Some_worker f p -> Some_worker f p'.
Proof.
  intros [[-> _]|(d & Hi & ->)]%SignalHasWork_cases Hf; [done|].
  eapply set_worker_keeps; [exact Hi | apply Hf].
Qed.

Lemma all_workers p i new (P : Worker -> Prop) :
  (forall v, v ∈ threads_ p -> P v) -> P new -> forall v, v ∈ threads_ (set_worker p i new) -> P v.
Proof. intros Hp Hn v Hv. simpl in Hv. apply elem_insert in Hv as [->|Hv]; [done | by apply Hp]. Qed.

Lemma signal_all p pick p' (P : Worker -> Prop) :
  SignalHasWork p pick = Some p' -> P Woken -> (forall v, v ∈ threads_ p -> P v) ->
  forall v, v ∈ threads_ p' -> P v.
Proof.
  intros [[-> _]|(d & Hi & ->)]%SignalHasWork_cases Hw Hp; [done|]. by apply all_workers.
Qed.

(** After a signal a worker is awake, or none sleeps. *)
Lemma signal_wakes p pick p' :
  SignalHasWork p pick = Some p' ->
  Some_worker acts p' \/ forall v, v ∈ threads_ p' -> is_waiting v = false.
Proof.
  intros [[-> Hn]|(d & Hi & ->)]%SignalHasWork_cases; [by right|]. left.
  by eapply set_worker_some.
Qed.

Lemma lookup_some_worker f p i v : threads_ p !! i = Some v -> f v = true -> Some_worker f p.
Proof. intros Hi Hf. exists v. split; [by eapply list_elem_of_lookup_2 | done]. Qed.

(** ** Where workers and posts are *)

Record Placed (max : nat) (w : World) : Prop := {
  placed_max : max_threads_ (inner w) = max;
  placed_left : forall v, v ∈ threads_ (inner w) -> left_loop v = true -> shutdown_called_ (inner w) = true;
  placed_posters : forall post i, post ∈ posts w -> poster post = Some i ->
    exists t, threads_ (inner w) !! i = Some (Running t);
}.

Lemma turned_max p i now p' tk dead : turned p i now p' tk dead -> max_threads_ p' = max_threads_ p.
Proof.
  intros [t kept dead' id q Hw Hr| | |]; try done.
  by destruct (WillRun_fields _ _ _ _ Hr) as (_ & _ & _ & _ & E & _).
Qed.

Lemma turned_threads p i now p' tk dead :
  turned p i now p' tk dead ->
  exists v, threads_ p' = <[i := v]> (threads_ p) /\ (left_loop v = true -> shutdown_called_ p = true).
Proof.
  intros [t kept dead' id q Hw Hr|s kept dead' Hw Hf Hsd Hz| |]; [| |by eexists..].
  - destruct (WillRun_fields _ _ _ _ Hr) as (_ & E & _). exists (Starting t id). simpl. by rewrite E.
  - by eexists.
Qed.

(** A running task stays where it is while others move. *)
Lemma running_kept (ws : list Worker) (i j : nat) old new t :
  ws !! i = Some old -> (forall u, old <> Running u) -> ws !! j = Some (Running t) ->
  <[i := new]> ws !! j = Some (Running t).
Proof.
  intros Hi Hold Hj. rewrite list_lookup_insert_ne; [done|]. intros ->.
  rewrite Hi in Hj. injection Hj as ->. by apply (Hold t).
Qed.

Lemma running_signalled p pick p' i t :
  SignalHasWork p pick = Some p' -> threads_ p !! i = Some (Running t) ->
  threads_ p' !! i = Some (Running t).
Proof. intros [[-> _]|(d & Hi & ->)]%SignalHasWork_cases Ht; [done|]. by eapply running_kept. Qed.

Lemma max_stepped w e w' :
  Accounts w -> stepped w e w' -> max_threads_ (inner w') = max_threads_ (inner w).
Proof.
  intros Ha Hst.
  destruct Hst as [|e q Hask Hq| |n post r time closure Hn Hs|n post r time closure t id p' Hn Hs E
    |n pick post id w' Hn Hs E|k p' Hk E|i p' tk dead Hi E|i pick t id p' Hi E|i t q Hi Hf E| |
    |i pick p' Hi E|i Hi| |max pick p' Hc E|Hch|Hw]; simpl; try done.
  - exact (f_equal max_threads_ Hq).
  - apply PostTask_accepted in E as (p1 & Hp & Hprep). apply Prepare_same in Hprep.
    rewrite <- (post_max _ _ _ _ _ _ Hp). exact (f_equal max_threads_ Hprep).
  - apply create_or_signal_cases in E as [(_ & p' & E & ->)|[_ ->]]; [|done]. simpl.
    by rewrite (woken_fields _ _ _ max_threads_ E).
  - unfold ThreadLoop_enter in E. case_guard; simpl in E; [|done]. by injection E as <-.
  - apply ThreadLoop_turn_turned, turned_max in E; [done | by apply acc_sorted].
  - by rewrite (woken_fields _ _ _ max_threads_ E).
  - by apply DidRun_fields in E as ->.
  - by rewrite (woken_fields _ _ _ max_threads_ E).
  - by rewrite (woken_fields _ _ _ max_threads_ E).
Qed.

Lemma left_stepped w e w' :
  Accounts w -> stepped w e w' ->
  (forall v, v ∈ threads_ (inner w) -> left_loop v = true -> shutdown_called_ (inner w) = true) ->
  forall v, v ∈ threads_ (inner w') -> left_loop v = true -> shutdown_called_ (inner w) = true \/
    shutdown_called_ (inner w') = true.
Proof.
  intros Ha Hst. set (P v := left_loop v = true -> shutdown_called_ (inner w) = true).
  assert (forall p', (forall v, v ∈ threads_ p' -> P v) -> forall v, v ∈ threads_ p' -> left_loop v = true ->
            shutdown_called_ (inner w) = true \/ shutdown_called_ p' = true) as Hw
    by (intros p' Hp v Hv Hl; left; exact (Hp v Hv Hl)).
  destruct Hst as [|e q Hask Hq| |n post r time closure Hn Hs|n post r time closure t id p' Hn Hs E
    |n pick post id w' Hn Hs E|k p' Hk E|i p' tk dead Hi E|i pick t id p' Hi E|i t q Hi Hf E| |
    |i pick p' Hi E|i Hi| |max pick p' Hc E|Hch|Hwt]; cbn [inner set_inner shutdown_checks]; intros HP; try (by apply Hw).
  - apply Hw. by rewrite (f_equal threads_ Hq : threads_ q = threads_ (inner w)).
  - apply Hw. by rewrite (PostTask_threads _ _ _ _ _ _ _ _ E).
  - apply create_or_signal_cases in E as [(_ & p' & E & ->)|[_ ->]]; apply Hw; [|done].
    by apply (signal_all _ _ _ P E).
  - unfold ThreadLoop_enter in E. case_guard; simpl in E; [|done]. injection E as <-. apply Hw. simpl.
    intros v [Hv|Hv%list_elem_of_singleton]%elem_of_app; [exact (HP v Hv) | by subst v].
  - apply ThreadLoop_turn_turned, turned_threads in E as (v & E & Hv); [|by apply acc_sorted].
    apply Hw. rewrite E. by apply (all_workers (inner w) i v P).
  - apply Hw, (signal_all _ _ _ P E); [done|]. by apply all_workers.
  - apply DidRun_fields in E as ->. apply Hw. by apply (all_workers (inner w) i Looping P).
  - apply Hw. by apply all_workers.
  - apply Hw. by apply (all_workers (inner w) i Looping P).
  - intros. left. by eapply HP; [by eapply list_elem_of_lookup_2|].
  - intros. left. by eapply HP; [by eapply list_elem_of_lookup_2|].
  - intros. right. by rewrite (woken_fields _ _ _ shutdown_called_ E).
Qed.

Definition posters_run (w : World) : Prop :=
  forall post i, post ∈ posts w -> poster post = Some i ->
  exists t, threads_ (inner w) !! i = Some (Running t).

Lemma posters_same w w' :
  posters_run w ->
  (forall post, post ∈ posts w' -> exists post', post' ∈ posts w /\ poster post' = poster post) ->
  (forall i t, threads_ (inner w) !! i = Some (Running t) -> threads_ (inner w') !! i = Some (Running t)) ->
  posters_run w'.
Proof.
  intros H Hp Ht post i Hin Hi. destruct (Hp post Hin) as (post' & Hin' & E).
  destruct (H post' i Hin' ltac:(congruence)) as (t & Hr). exists t. by apply Ht.
Qed.

Lemma posters_stepped w e w' : Accounts w -> stepped w e w' -> posters_run w -> posters_run w'.
Proof.
  intros Ha Hst HP.
  assert (forall p', (forall i t, threads_ (inner w) !! i = Some (Running t) ->
                        threads_ p' !! i = Some (Running t)) ->
            forall ps b c s n l, (forall post, post ∈ ps -> post ∈ posts w) ->
            posters_run (World_ p' ps b c s n l)) as Hk.
  { intros p' Ht ps b c s n l Hps. apply (posters_same w); [done| |done].
    intros post Hin. exists post. split; [by apply Hps | done]. }
  destruct Hst as [|e q Hask Hq|poster r closure Hm Hd|n post r time closure Hn Hs
    |n post r time closure t id p' Hn Hs E
    |n pick post id w' Hn Hs E|k p' Hk' E|i p' tk dead Hi E|i pick t id p' Hi E|i t q Hi Hf E|i d Hi|i Hi
    |i pick p' Hi E|i Hi| |max pick p' Hc E|Hch|Hwt]; try (by apply Hk); try done.
  - apply Hk; [|done]. by rewrite (f_equal threads_ Hq : threads_ q = threads_ (inner w)).
  - intros post i [Hin|Hin%list_elem_of_singleton]%elem_of_app Hi; [by apply (HP post)|].
    subst post. simpl in Hi. subst poster. unfold may_post in Hm. simpl.
    destruct (threads_ (inner w) !! i) as [[]|]; try done. by eexists.
  - apply Hk; [done|]. intros post'. apply elem_remove_at.
  - apply (posters_same w); [done| |simpl; by rewrite (PostTask_threads _ _ _ _ _ _ _ _ E)].
    intros post' [->|Hin]%elem_insert; [exists post | by exists post'].
    split; [by eapply list_elem_of_lookup_2 | done].
  - apply create_or_signal_cases in E as [(_ & p' & E & ->)|[_ ->]]; apply Hk; try done;
      try (intros post'; apply elem_remove_at).
    intros i t. apply (running_signalled _ _ _ _ _ E).
  - unfold ThreadLoop_enter in E. case_guard; simpl in E; [|done]. injection E as <-.
    apply Hk; [|done]. intros i t Hi. simpl. by apply lookup_app_l_Some.
  - apply ThreadLoop_turn_turned, turned_threads in E as (v & E & _); [|by apply acc_sorted].
    apply Hk; [|done]. intros j t. rewrite E. by apply (running_kept _ _ _ _ _ _ Hi).
  - apply Hk; [|done]. intros j u Hj. apply (running_signalled _ _ _ _ _ E).
    by apply (running_kept _ _ _ _ _ _ Hi).
  - apply DidRun_fields in E as ->. intros post j Hin Hj. destruct (HP post j Hin Hj) as (u & Hu).
    exists u. simpl. rewrite list_lookup_insert_ne; [done|]. intros ->.
    rewrite Forall_forall in Hf. by apply (Hf post Hin).
  - apply Hk; [|done]. intros j u. by apply (running_kept _ _ _ _ _ _ Hi).
  - apply Hk; [|done]. intros j u. by apply (running_kept _ _ _ _ _ _ Hi).
  - apply Hk; [|done]. intros j u Hj. apply (running_signalled _ _ _ _ _ E).
    by apply (running_kept _ _ _ _ _ _ Hi).
  - apply Hk; [|done]. intros j u. by apply (running_kept _ _ _ _ _ _ Hi).
  - apply Hk; [|done]. intros j u. apply (running_signalled _ _ _ _ _ E).
Qed.

Lemma Placed_stepped max w e w' : Accounts w -> stepped w e w' -> Placed max w -> Placed max w'.
Proof.
  intros Ha Hst [P1 P2 P3]. split.
  - by rewrite (max_stepped _ _ _ Ha Hst).
  - intros v Hv Hl. destruct (left_stepped _ _ _ Ha Hst P2 v Hv Hl) as [Hsd|]; [|done].
    by apply (proj1 (stepped_called _ _ _ Ha Hst)).
  - intros post i. by apply (posters_stepped _ _ _ Ha Hst P3).
Qed.

(** ** Tasks that block shutdown are due *)

Record Due (w : World) : Prop := {
  due_pending : forall t, t ∈ pending_tasks_ (inner w) -> blocks t = true -> time_to_run t <= now w;
  due_posts : forall post r time c, post ∈ posts w -> stage post = BeforeLock r time c ->
    behavior r = BLOCK_SHUTDOWN -> time <= now w;
}.

Lemma Due_same w w' :
  Due w -> now w <= now w' ->
  (forall t, t ∈ pending_tasks_ (inner w') -> t ∈ pending_tasks_ (inner w)) ->
  (forall post r time c, post ∈ posts w' -> stage post = BeforeLock r time c -> post ∈ posts w) ->
  Due w'.
Proof.
  intros [D1 D2] Hn Ht Hp. split.
  - intros t Hin Hb. specialize (D1 t (Ht t Hin) Hb). lia.
  - intros post r time c Hin Hs Hb. specialize (D2 post r time c (Hp _ _ _ _ Hin Hs) Hs Hb). lia.
Qed.

Lemma Due_accepted w n post r time closure t id p' :
  Accounts w -> Due w -> posts w !! n = Some post -> stage post = BeforeLock r time closure ->
  PostTask (inner w) (poster post) r time closure = (Some (t, id), p') ->
  Due (World_ p' (<[n := Post_ (number post) (poster post) (AfterLock id)]> (posts w))
         (posts_begun w) (created w) (shutdown w) (now w) (Accepted (number post) t :: log w)).
Proof.
  intros Ha [D1 D2] Hn Hs E. destruct (accepted_task _ _ _ _ _ _ _ _ _ Ha Hn Hs E) as [Et Hnew].
  apply PostTask_accepted in E as (p1 & Hp & Hprep). apply Prepare_same in Hprep. split; simpl.
  - intros u Hu Hb. rewrite (f_equal pending_tasks_ Hprep : pending_tasks_ p' = pending_tasks_ p1) in Hu.
    rewrite (post_pending _ _ _ _ _ _ Hp), insert_task_perm in Hu.
    + apply elem_of_cons in Hu as [->|Hu]; [|by apply D1]. rewrite Et.
      apply (D2 post r time closure); [by eapply list_elem_of_lookup_2 | done|].
      rewrite <- (post_behavior _ _ _ _ _ _ Hp). by apply bool_decide_eq_true in Hb.
    + intros v Hv. apply (elem_accepted _ _ Ha), elem_accepted_log in Hv as (m & Hm).
      specialize (Hnew m v Hm). lia.
  - intros post' r' time' c' [->|Hin]%elem_insert Hs'; [done | by eapply D2].
Qed.

Lemma turned_pending p i now p' tk dead :
  turned p i now p' tk dead -> forall t, t ∈ pending_tasks_ p' -> t ∈ pending_tasks_ p.
Proof.
  intros [t kept dead' id q Hw Hr|s kept dead' Hw| s kept dead' Hw|s kept d Hw]; simpl;
    [destruct (WillRun_fields _ _ _ _ Hr) as (-> & _); simpl|..];
    intros u Hu; exact (elem_of_sublist _ _ _ Hu (walk_sub _ _ _ _ _ _ Hw)).
Qed.

Lemma Due_stepped w e w' : Accounts w -> stepped w e w' -> Due w -> Due w'.
Proof.
  intros Ha Hst Hd.
  destruct Hst as [|e q Hask Hq|poster r closure Hm Hdel|n post r time closure Hn Hs
    |n post r time closure t id p' Hn Hs E
    |n pick post id w' Hn Hs E|k p' Hk' E|i p' tk dead Hi E|i pick t id p' Hi E|i t q Hi Hf E|i d Hi|i Hi
    |i pick p' Hi E|i Hi| |max pick p' Hc E|Hch|Hwt]; try (by apply (Due_same w)).
  - apply (Due_same w); try done. simpl.
    by rewrite (f_equal pending_tasks_ Hq : pending_tasks_ q = pending_tasks_ (inner w)).
  - destruct Hd as [D1 D2]. split; [done|]. simpl.
    intros post r' time c [Hin|Hin%list_elem_of_singleton]%elem_of_app Hs Hb; [by eapply D2|].
    subst post. injection Hs as <- <- <-. destruct Hdel as [->|]; [lia | congruence].
  - apply (Due_same w); try done. intros post' r' time' c' Hin _. by eapply elem_remove_at.
  - by eapply Due_accepted.
  - apply create_or_signal_cases in E as [(_ & p' & E & ->)|[_ ->]]; apply (Due_same w); try done; simpl;
      try (intros post' r' time' c' Hin _; by eapply elem_remove_at).
    by rewrite (woken_fields _ _ _ pending_tasks_ E).
  - unfold ThreadLoop_enter in E. case_guard; simpl in E; [|done]. injection E as <-.
    by apply (Due_same w).
  - apply ThreadLoop_turn_turned in E; [|by apply acc_sorted].
    apply (Due_same w); try done. by apply (turned_pending _ _ _ _ _ _ E).
  - apply (Due_same w); try done. simpl. by rewrite (woken_fields _ _ _ pending_tasks_ E).
  - apply DidRun_fields in E as ->. by apply (Due_same w).
  - apply (Due_same w); try done. simpl. by rewrite (woken_fields _ _ _ pending_tasks_ E).
  - apply (Due_same w); try done. simpl. by rewrite (woken_fields _ _ _ pending_tasks_ E).
Qed.

(** ** A pool with room has a thread on its way *)

Definition some_runnable (p : Inner) : Prop := exists t, t ∈ pending_tasks_ p /\ runnable p t.

Definition Staffed (p : Inner) : Prop :=
  shutdown_called_ p = false -> waiting_thread_count_ p = 0 ->
  (length (threads_ p) < max_threads_ p)%nat -> some_runnable p ->
  thread_being_created_ p = true \/ Looping ∈ threads_ p.

Lemma Prepare_staffed p id p' :
  PrepareToStartAdditionalThreadIfHelpful p = (id, p') ->
  shutdown_called_ p' = false -> waiting_thread_count_ p' = 0 ->
  (length (threads_ p') < max_threads_ p')%nat -> some_runnable p' -> thread_being_created_ p' = true.
Proof.
  unfold PrepareToStartAdditionalThreadIfHelpful. destruct (_ && existsb _ _) eqn:E; intros [= <- <-]; [done|].
  intros Hs Hw Hl (t & Ht & Hr). apply not_false_iff_true. intros Hc.
  rewrite Hs, Hc, Hw in E. apply Nat.ltb_lt in Hl. rewrite Hl in E. simpl in E.
  assert (existsb (fun t => IsSequenceTokenRunnable p (sequence_token_id t)) (pending_tasks_ p) = true);
    [|congruence].
  apply existsb_exists. exists t. split; [by apply list_elem_of_In | done].
Qed.

(** The premises of [Staffed] depend on a few fields. *)
Lemma Staffed_same p p' :
  Staffed p -> shutdown_called_ p' = shutdown_called_ p ->
  waiting_thread_count_ p' = waiting_thread_count_ p -> length (threads_ p') = length (threads_ p) ->
  max_threads_ p' = max_threads_ p -> pending_tasks_ p' = pending_tasks_ p ->
  current_sequences_ p' = current_sequences_ p -> thread_being_created_ p' = thread_being_created_ p ->
  (Looping ∈ threads_ p -> Looping ∈ threads_ p') -> Staffed p'.
Proof.
  intros Hst E1 E2 E3 E4 E5 E6 E7 Hl. unfold Staffed, some_runnable, runnable, IsSequenceTokenRunnable.
  rewrite E1, E2, E3, E4, E5, E6, E7. intros A B C D. destruct (Hst A B C D); [by left | right; by apply Hl].
Qed.

Definition is_looping (v : Worker) : bool := match v with Looping => true | _ => false end.

Lemma looping_some p : Looping ∈ threads_ p <-> Some_worker is_looping p.
Proof.
  split; [intros H; by exists Looping|]. intros (v & Hv & Hf). by destruct v.
Qed.

Lemma Staffed_signalled p pick p' : SignalHasWork p pick = Some p' -> Staffed p -> Staffed p'.
Proof.
  intros Hs Hst. destruct (woken_same _ _ _ Hs) as (_ & _ & _ & Hl & Hf). same_fields Hf.
  apply (Staffed_same p); try done. rewrite !looping_some. by apply (signal_keeps _ _ _ _ Hs).
Qed.

Lemma Staffed_moved p i old new :
  threads_ p !! i = Some old -> is_looping old = false -> Staffed p -> Staffed (set_worker p i new).
Proof.
  intros Hi Ho Hst. apply (Staffed_same p); try done; [simpl; by rewrite length_insert|].
  rewrite !looping_some. apply (set_worker_keeps _ _ _ _ _ Hi). congruence.
Qed.

Lemma Staffed_looping p : Looping ∈ threads_ p -> Staffed p.
Proof. intros H _ _ _ _. by right. Qed.

Lemma inserted_in (ws : list Worker) i old new : ws !! i = Some old -> new ∈ <[i := new]> ws.
Proof. intros Hi. apply list_elem_of_insert. by eapply lookup_lt_Some. Qed.

Lemma Staffed_turned p i now p' tk dead :
  0 <= waiting_thread_count_ p -> threads_ p !! i = Some Looping -> turned p i now p' tk dead -> Staffed p'.
Proof.
  intros Hw Hi [t kept dead' id q Hwk Hr| s kept dead' _ _ Hsd | s kept dead' | s kept d].
  - unfold WillRunWorkerTask in Hr. intros A B C D. left.
    apply (Prepare_staffed _ _ _ Hr); try done. simpl in C. by rewrite length_insert in C.
  - intros A. simpl in A. congruence.
  - apply Staffed_looping. simpl. by eapply inserted_in.
  - intros _ B. simpl in B. lia.
Qed.

Lemma Staffed_stepped w e w' :
  Accounts w -> stepped w e w' -> Staffed (inner w) -> Staffed (inner w').
Proof.
  intros Ha Hst Hs.
  destruct Hst as [|e q Hask Hq|poster r closure Hm Hdel|n post r time closure Hn Hb
    |n post r time closure t id p' Hn Hb E
    |n pick post id w' Hn Hb E|k p' Hk' E|i p' tk dead Hi E|i pick t id p' Hi E|i t q Hi Hf E|i d Hi|i Hi
    |i pick p' Hi E|i Hi| |max pick p' Hc E|Hch|Hwt]; cbn [inner set_inner shutdown_checks]; try done.
  - apply (Staffed_same (inner w)); try done; injection Hq; intros; congruence.
  - apply PostTask_accepted in E as (p1 & _ & Hprep). intros A B C D. left.
    by apply (Prepare_staffed _ _ _ Hprep).
  - apply create_or_signal_cases in E as [(_ & p' & E & ->)|[_ ->]]; [|done].
    by apply (Staffed_signalled _ _ _ E).
  - unfold ThreadLoop_enter in E. case_guard; simpl in E; [|done]. injection E as <-.
    apply Staffed_looping. simpl. apply elem_of_app. right. by left.
  - apply ThreadLoop_turn_turned in E; [|by apply acc_sorted].
    eapply Staffed_turned; [|exact Hi | exact E]. rewrite (acc_waiting _ Ha). apply count_nonneg.
  - apply (Staffed_signalled _ _ _ E). by apply (Staffed_moved _ _ _ _ Hi).
  - apply Staffed_looping. simpl. apply DidRun_fields in E as ->. by eapply inserted_in.
  - by apply (Staffed_moved _ _ _ _ Hi).
  - apply Staffed_looping. simpl. by eapply inserted_in.
  - apply (Staffed_signalled _ _ _ E). by apply (Staffed_moved _ _ _ _ Hi).
  - by apply (Staffed_moved _ _ _ _ Hi).
  - intros A. rewrite (woken_fields _ _ _ shutdown_called_ E) in A by done. done.
Qed.

(** ** Whoever can take a task learns of it *)

Definition is_after (post : Post) : bool := match stage post with AfterLock _ => true | _ => false end.

(** Somebody looks for work, signals or brings a thread. *)
Definition Acting (w : World) : Prop :=
  Some_worker acts (inner w) \/ (exists post, post ∈ posts w /\ is_after post = true) \/
  thread_being_created_ (inner w) = true.

(** Some worker sleeps no longer than until [time]. *)
Definition Sleeps_until (p : Inner) (time : Z) : Prop :=
  exists d, Waiting (Some d) ∈ threads_ p /\ d <= time.

Definition Noticed (w : World) (t : SequencedTask) : Prop :=
  Acting w \/ (forall v, v ∈ threads_ (inner w) -> is_waiting v = false) \/
  Sleeps_until (inner w) (time_to_run t).

Definition Awake (w : World) : Prop :=
  forall t, t ∈ pending_tasks_ (inner w) -> runnable (inner w) t -> Noticed w t.

Lemma Awake_acting w : Acting w -> Awake w.
Proof. intros H t _ _. by left. Qed.

Lemma Awake_worker w : Some_worker acts (inner w) -> Awake w.
Proof. intros H. apply Awake_acting. by left. Qed.

Lemma Awake_signalled w p pick p' : SignalHasWork p pick = Some p' -> inner w = p' -> Awake w.
Proof.
  intros H <- t _ _. destruct (signal_wakes _ _ _ H) as [Hs|Hn]; [left; by left | right; by left].
Qed.

(** Nobody wakes up or falls asleep, and no task comes. *)
Lemma Awake_same w w' :
  Awake w -> pending_tasks_ (inner w') = pending_tasks_ (inner w) ->
  current_sequences_ (inner w') = current_sequences_ (inner w) ->
  (forall v, acts v = true \/ is_waiting v = true -> v ∈ threads_ (inner w) <-> v ∈ threads_ (inner w')) ->
  (forall post, is_after post = true -> post ∈ posts w -> post ∈ posts w') ->
  thread_being_created_ (inner w') = thread_being_created_ (inner w) -> Awake w'.
Proof.
  intros H E1 E2 Hv Hp Hc t. unfold runnable, IsSequenceTokenRunnable. rewrite E1, E2. intros Ht Hr.
  destruct (H t Ht Hr) as [[(v & Hin & Ha)|[(post & Hin & Ha)|Hb]]|[Hn|(d & Hin & Hd)]].
  - left. left. exists v. split; [|done]. apply Hv; [by left | done].
  - left. right. left. exists post. split; [by apply Hp | done].
  - left. right. right. congruence.
  - right. left. intros v Hin. apply not_true_iff_false. intros Hw.
    specialize (Hn v ltac:(apply Hv; [by right | done])). congruence.
  - right. right. exists d. split; [|done]. apply Hv; [by right | done].
Qed.

Lemma Awake_turned w i p' tk dead b c s n l :
  threads_ (inner w) !! i = Some Looping -> turned (inner w) i (now w) p' tk dead ->
  Awake (World_ p' b c s n (now w) l).
Proof.
  intros Hi [t kept dead' id q Hwk Hr| s' kept dead' _ _ Hsd | s' kept dead' | s' kept d Hwk Hf _ Hd];
    try (apply Awake_worker; eapply set_worker_some; [exact Hi | done]).
  - apply Awake_worker. destruct (WillRun_fields _ _ _ _ Hr) as (_ & E & _).
    eapply set_worker_some; [by rewrite E|done].
  - intros t Ht Hrun. simpl in Ht. destruct s' as [u| |time]; [done| |].
    + by destruct (walk_none _ _ _ _ _ _ Hwk eq_refl t Ht).
    + right. right. exists time. simpl. subst d. split; [by eapply inserted_in|].
      by apply (walk_wait _ _ _ _ _ _ Hwk time eq_refl).
Qed.

Lemma insert_dull (ws : list Worker) i old new v :
  ws !! i = Some old -> acts old = false -> is_waiting old = false -> acts new = false ->
  is_waiting new = false -> acts v = true \/ is_waiting v = true -> v ∈ ws <-> v ∈ <[i := new]> ws.
Proof.
  intros Hi A B C D Hv. destruct (list_split _ _ _ Hi) as (rest & Hold & Hnew).
  rewrite (Hnew new), Hold, !elem_of_cons.
  split; (intros [->|?]; [destruct Hv; congruence | by right]).
Qed.

Lemma Awake_stepped w e w' :
  Accounts w -> stepped w e w' -> Awake w -> Awake w'.
Proof.
  intros Ha Hst Hs. pose proof (Accounts_stepped _ _ _ Ha Hst) as Ha'.
  destruct Hst as [|e q Hask Hq|poster r closure Hm Hdel|n post r time closure Hn Hb
    |n post r time closure t id p' Hn Hb E
    |n pick post id w' Hn Hb E|k p' Hk' E|i p' tk dead Hi E|i pick t id p' Hi E|i t q Hi Hf E|i d Hi|i Hi
    |i pick p' Hi E|i Hi| |max pick p' Hc E|Hch|Hwt]; try done.
  - apply (Awake_same w); try done; simpl;
      [exact (f_equal pending_tasks_ Hq) | exact (f_equal current_sequences_ Hq)
      | by rewrite (f_equal threads_ Hq : threads_ q = threads_ (inner w))
      | exact (f_equal thread_being_created_ Hq)].
  - apply (Awake_same w); try done. intros post _ Hin. apply elem_of_app. by left.
  - apply (Awake_same w); try done. intros post' Hp' Hin. simpl.
    rewrite (remove_at_split _ _ _ Hn) in Hin. apply elem_of_cons in Hin as [->|Hin]; [|done].
    unfold is_after in Hp'. by rewrite Hb in Hp'.
  - apply Awake_acting. right. left.
    exists (Post_ (number post) (poster post) (AfterLock id)). split; [|done]. apply list_elem_of_insert.
    by eapply lookup_lt_Some.
  - apply create_or_signal_cases in E as [(_ & p' & E & ->)|[_ ->]]; [by eapply Awake_signalled|].
    apply Awake_acting. right. right. pose proof (acc_created _ Ha') as Hcr. simpl in *.
    pose proof (count_nonneg post_creates (remove_at (posts w) n)).
    pose proof (count_nonneg creates (threads_ (inner w))).
    destruct (thread_being_created_ (inner w)); [done | simpl in Hcr; lia].
  - unfold ThreadLoop_enter in E. case_guard; simpl in E; [|done]. injection E as <-.
    apply Awake_worker. exists Looping. split; [|done]. simpl. apply elem_of_app. right. by left.
  - apply ThreadLoop_turn_turned in E; [|by apply acc_sorted]. by eapply Awake_turned.
  - by eapply Awake_signalled.
  - apply Awake_worker. apply DidRun_fields in E as ->. by eapply set_worker_some.
  - apply Awake_worker. by eapply set_worker_some.
  - apply Awake_worker. by eapply set_worker_some.
  - by eapply Awake_signalled.
  - apply (Awake_same w); try done. intros v. by apply (insert_dull _ _ _ _ _ Hi).
  - by eapply Awake_signalled.
Qed.

(** ** Who unblocks shutdown *)

Definition stays (v : Worker) : bool := negb (left_loop v).

(** A task that blocks shutdown has a worker that has not left its loop. *)
Definition Alive (p : Inner) : Prop :=
  0 < blocking_shutdown_pending_task_count_ p -> thread_being_created_ p = true \/ Some_worker stays p.

Lemma Alive_worker p : Some_worker stays p -> Alive p.
Proof. intros H _. by right. Qed.

Lemma Alive_same p p' :
  Alive p -> blocking_shutdown_pending_task_count_ p' = blocking_shutdown_pending_task_count_ p ->
  thread_being_created_ p' = thread_being_created_ p -> (Some_worker stays p -> Some_worker stays p') ->
  Alive p'.
Proof. intros H E1 E2 Hs. unfold Alive. rewrite E1, E2. intros Hb. destruct (H Hb); auto. Qed.

Lemma Alive_signalled p pick p' : SignalHasWork p pick = Some p' -> Alive p -> Alive p'.
Proof.
  intros Hs Ha. destruct (woken_same _ _ _ Hs) as (_ & _ & _ & _ & Hf). same_fields Hf.
  apply (Alive_same _ _ Ha); try done. by apply (signal_keeps _ _ _ _ Hs).
Qed.

(** The posts that reach the pool once shutdown is called come from its workers, or
    find nothing left of [max_blocking_tasks_after_shutdown_]. *)
Definition worker_posts_only (w : World) (e : Event) : Prop :=
  forall n post, e = PostLocks n -> posts w !! n = Some post -> poster post = None ->
  shutdown_called_ (inner w) = true -> max_blocking_tasks_after_shutdown_ (inner w) <= 0.

Lemma PostTask_room p poster r time closure t id p' :
  PostTask p poster r time closure = (Some (t, id), p') -> shutdown_called_ p = true ->
  0 < max_blocking_tasks_after_shutdown_ p.
Proof.
  unfold PostTask. intros E Hs. rewrite Hs in E. destruct (true && _) eqn:Eb; [done|].
  simpl in Eb. rewrite !orb_false_iff, Z.leb_gt in Eb. by destruct Eb as [_ ?].
Qed.

Lemma PostTask_prepares p poster r time closure t id p' :
  PostTask p poster r time closure = (Some (t, id), p') ->
  shutdown_called_ p' = false -> waiting_thread_count_ p' = 0 ->
  (length (threads_ p') < max_threads_ p')%nat -> some_runnable p' -> thread_being_created_ p' = true.
Proof. intros (p1 & _ & Hprep)%PostTask_accepted. by apply (Prepare_staffed _ _ _ Hprep). Qed.

Lemma PostTask_fields p poster r time closure t id p' :
  PostTask p poster r time closure = (Some (t, id), p') ->
  pending_tasks_ p' = insert_task t (pending_tasks_ p) /\
  waiting_thread_count_ p' = waiting_thread_count_ p /\ max_threads_ p' = max_threads_ p /\
  current_sequences_ p' = current_sequences_ p.
Proof.
  intros (p1 & Hp & Hprep)%PostTask_accepted. apply Prepare_same in Hprep.
  rewrite <- (post_pending _ _ _ _ _ _ Hp), <- (post_waiting _ _ _ _ _ _ Hp).
  rewrite <- (post_max _ _ _ _ _ _ Hp), <- (post_sequences _ _ _ _ _ _ Hp).
  repeat split; [exact (f_equal pending_tasks_ Hprep) | exact (f_equal waiting_thread_count_ Hprep)
    | exact (f_equal max_threads_ Hprep) | exact (f_equal current_sequences_ Hprep)].
Qed.

Lemma insert_task_in t l : (forall u, u ∈ l -> sequence_task_number u <> sequence_task_number t) ->
  t ∈ insert_task t l.
Proof. intros H. rewrite insert_task_perm by done. by left. Qed.

(** A pool without threads creates one for the first task. *)
Lemma Alive_accepted max w n post r time closure t id p' :
  (0 < max)%nat -> Accounts w -> Placed max w -> worker_posts_only w (PostLocks n) ->
  posts w !! n = Some post -> stage post = BeforeLock r time closure ->
  PostTask (inner w) (poster post) r time closure = (Some (t, id), p') ->
  Alive p'.
Proof.
  intros Hmax Ha [P1 P2 P3] Hd Hn Hs E Hb. simpl in *.
  pose proof (PostTask_threads _ _ _ _ _ _ _ _ E) as Et.
  pose proof (PostTask_shutdown _ _ _ _ _ _ _ _ E) as Esd.
  destruct (PostTask_fields _ _ _ _ _ _ _ _ E) as (Ep & Ew & Em & Ec).
  destruct (shutdown_called_ (inner w)) eqn:Hsd.
  - destruct (poster post) as [i|] eqn:Hpost.
    + destruct (P3 post i ltac:(by eapply list_elem_of_lookup_2) Hpost) as (u & Hu). right.
      apply (lookup_some_worker _ _ i (Running u)); [by rewrite Et | done].
    + specialize (Hd n post eq_refl Hn Hpost Hsd). pose proof (PostTask_room _ _ _ _ _ _ _ _ E Hsd). lia.
  - destruct (threads_ (inner w)) as [|v ws] eqn:Hth.
    + left. apply (PostTask_prepares _ _ _ _ _ _ _ _ E); [done| | |].
      * rewrite Ew, (acc_waiting _ Ha), Hth. done.
      * rewrite Et, Em, P1. simpl. lia.
      * exists t. split.
        -- rewrite Ep. apply insert_task_in. intros u Hu.
           apply (elem_accepted _ _ Ha), elem_accepted_log in Hu as (m & Hm).
           destruct (accepted_task _ _ _ _ _ _ _ _ _ Ha Hn Hs E) as [_ Hnew]. specialize (Hnew m u Hm). lia.
        -- apply runnable_spec. right. rewrite Ec, (acc_tokens _ Ha), Hth. apply not_elem_of_nil.
    + right. exists v. split; [rewrite Et; by left|]. unfold stays.
      destruct (left_loop v) eqn:El; [|done]. specialize (P2 v ltac:(by left) El). congruence.
Qed.

Lemma Alive_turned w i p' tk dead :
  Accounts w -> threads_ (inner w) !! i = Some Looping -> turned (inner w) i (now w) p' tk dead ->
  Alive p'.
Proof.
  intros Ha Hi [t kept dead' id q Hwk Hr| s' kept dead' _ _ Hsd Hz | s' kept dead' | s' kept d Hwk Hf _ Hd];
    try (apply Alive_worker; eapply set_worker_some; [exact Hi | done]).
  - apply Alive_worker. destruct (WillRun_fields _ _ _ _ Hr) as (_ & E & _).
    eapply set_worker_some; [by rewrite E|done].
  - intros Hb. simpl in Hb. lia.
Qed.

Lemma Alive_stepped max w e w' :
  (0 < max)%nat -> Accounts w -> Placed max w -> worker_posts_only w e -> stepped w e w' ->
  Alive (inner w) -> Alive (inner w').
Proof.
  intros Hmax Ha Hp Hd Hst Hs.
  destruct Hst as [|e q Hask Hq|poster r closure Hm Hdel|n post r time closure Hn Hb
    |n post r time closure t id p' Hn Hb E
    |n pick post id w' Hn Hb E|k p' Hk' E|i p' tk dead Hi E|i pick t id p' Hi E|i t q Hi Hf E|i d Hi|i Hi
    |i pick p' Hi E|i Hi| |mx pick p' Hc E|Hch|Hwt]; cbn [inner set_inner shutdown_checks]; try done.
  - apply (Alive_same (inner w)); try done;
      [exact (f_equal blocking_shutdown_pending_task_count_ Hq) | exact (f_equal thread_being_created_ Hq)|].
    unfold Some_worker. simpl. by rewrite (f_equal threads_ Hq : threads_ q = threads_ (inner w)).
  - by eapply Alive_accepted.
  - apply create_or_signal_cases in E as [(_ & p' & E & ->)|[_ ->]]; [|done].
    by apply (Alive_signalled _ _ _ E).
  - unfold ThreadLoop_enter in E. case_guard; simpl in E; [|done]. injection E as <-.
    apply Alive_worker. exists Looping. split; [|done]. simpl. apply elem_of_app. right. by left.
  - apply ThreadLoop_turn_turned in E; [|by apply acc_sorted]. by eapply Alive_turned.
  - apply (Alive_signalled _ _ _ E). apply Alive_worker. by eapply set_worker_some.
  - apply Alive_worker. apply DidRun_fields in E as ->. by eapply set_worker_some.
  - apply Alive_worker. by eapply set_worker_some.
  - apply Alive_worker. by eapply set_worker_some.
  - apply (Alive_signalled _ _ _ E). apply (Alive_same (inner w)); try done.
    by apply (set_worker_keeps _ _ _ _ _ Hi).
  - apply (Alive_same (inner w)); try done. by apply (set_worker_keeps _ _ _ _ _ Hi).
  - apply (Alive_signalled _ _ _ E).
    by apply (Alive_same (inner w)).
Qed.

(** When shutdown sleeps although it could return, a worker is about to wake it. *)
Definition Unblocking (s : Shutdown_) (p : Inner) : Prop :=
  s = WaitingForWorkers -> CanShutdown p = true -> Some_worker unblocks p.

Lemma CanShutdown_spec p :
  CanShutdown p = true <->
  thread_being_created_ p = false /\ blocking_shutdown_thread_count_ p = 0 /\
  blocking_shutdown_pending_task_count_ p = 0.
Proof.
  unfold CanShutdown. rewrite !andb_true_iff, !Z.eqb_eq, negb_true_iff. tauto.
Qed.

Lemma Unblocking_worker s p : Some_worker unblocks p -> Unblocking s p.
Proof. by intros H _ _. Qed.

Lemma Unblocking_same s p p' :
  Unblocking s p -> blocking_shutdown_thread_count_ p' = blocking_shutdown_thread_count_ p ->
  blocking_shutdown_pending_task_count_ p' = blocking_shutdown_pending_task_count_ p ->
  thread_being_created_ p' = thread_being_created_ p ->
  (Some_worker unblocks p -> Some_worker unblocks p') -> Unblocking s p'.
Proof.
  intros H E1 E2 E3 Hs Hw. rewrite CanShutdown_spec, E1, E2, E3, <- CanShutdown_spec. auto.
Qed.

Lemma Unblocking_signalled s p pick p' :
  SignalHasWork p pick = Some p' -> Unblocking s p -> Unblocking s p'.
Proof.
  intros Hs Ha. destruct (woken_same _ _ _ Hs) as (_ & _ & _ & _ & Hf). same_fields Hf.
  apply (Unblocking_same _ _ _ Ha); try done. by apply (signal_keeps _ _ _ _ Hs).
Qed.

(** Once shutdown is called, only what delays it comes and is taken. *)
Lemma Unblocking_accepted w n post r time closure t id p' :
  Accounts w -> Shut w -> posts w !! n = Some post -> stage post = BeforeLock r time closure ->
  PostTask (inner w) (poster post) r time closure = (Some (t, id), p') ->
  Unblocking (shutdown w) p'.
Proof.
  intros Ha Hsh Hn Hs E Hw (_ & _ & Hz)%CanShutdown_spec. simpl in *. exfalso.
  assert (shutdown_called_ (inner w) = true) as Hsd by (apply (shut_called _ Hsh); congruence).
  apply PostTask_accepted in E as (p1 & Hp & Hprep). apply Prepare_same in Hprep.
  rewrite (f_equal blocking_shutdown_pending_task_count_ Hprep :
             blocking_shutdown_pending_task_count_ p' = blocking_shutdown_pending_task_count_ p1) in Hz.
  rewrite (post_blocking _ _ _ _ _ _ Hp), (acc_pending _ Ha) in Hz.
  pose proof (count_nonneg blocks (pending_tasks_ (inner w))).
  unfold blocks in Hz at 2. rewrite (post_behavior _ _ _ _ _ _ Hp) in Hz.
  rewrite (post_after _ _ _ _ _ _ Hp Hsd) in Hz. simpl in Hz. lia.
Qed.

Lemma Unblocking_turned w i p' tk dead :
  Accounts w -> Shut w -> threads_ (inner w) !! i = Some Looping ->
  turned (inner w) i (now w) p' tk dead ->
  Unblocking (shutdown w) p'.
Proof.
  intros Ha Hsh Hi Ht Hw Hc. simpl in *.
  assert (shutdown_called_ (inner w) = true) as Hsd by (apply (shut_called _ Hsh); congruence).
  destruct Ht as [t kept dead' id q Hwk Hr| s kept dead' | s kept dead' | s kept d Hwk Hf Hz Hd];
    try (by eapply set_worker_some); apply CanShutdown_spec in Hc as (_ & Hb & Hp); simpl in Hb, Hp.
  - exfalso. destruct (WillRun_fields _ _ _ _ Hr) as (_ & _ & _ & _ & _ & _ & _ & _ & E & _).
    rewrite E in Hb. simpl in Hb. rewrite (acc_blocking _ Ha) in Hb.
    pose proof (count_nonneg delays (held (threads_ (inner w)))).
    destruct (walk_found _ _ _ _ _ _ Hwk t eq_refl) as (_ & _ & Hblocks & _).
    specialize (Hblocks Hsd). unfold blocks in Hblocks. apply bool_decide_eq_true in Hblocks.
    unfold delays in Hb at 2. rewrite Hblocks in Hb. simpl in Hb. lia.
  - by destruct (Hz Hsd).
Qed.

Lemma Unblocking_stepped w e w' :
  Accounts w -> Shut w -> stepped w e w' ->
  Unblocking (shutdown w) (inner w) -> Unblocking (shutdown w') (inner w').
Proof.
  intros Ha Hsh Hst Hs.
  destruct Hst as [|e q Hask Hq|poster r closure Hm Hdel|n post r time closure Hn Hb
    |n post r time closure t id p' Hn Hb E
    |n pick post id w' Hn Hb E|k p' Hk' E|i p' tk dead Hi E|i pick t id p' Hi E|i t q Hi Hf E|i d Hi|i Hi
    |i pick p' Hi E|i Hi| |mx pick p' Hc E|Hch|Hwt];
    cbn [inner set_inner shutdown_checks shutdown]; try done.
  - apply (Unblocking_same _ (inner w)); try done;
      [exact (f_equal blocking_shutdown_thread_count_ Hq) | exact (f_equal blocking_shutdown_pending_task_count_ Hq)
      | exact (f_equal thread_being_created_ Hq)|].
    unfold Some_worker. simpl. by rewrite (f_equal threads_ Hq : threads_ q = threads_ (inner w)).
  - by eapply Unblocking_accepted.
  - apply create_or_signal_cases in E as [(_ & p' & E & ->)|[_ ->]]; [|done].
    by apply (Unblocking_signalled _ _ _ _ E).
  - unfold ThreadLoop_enter in E. case_guard; simpl in E; [|done]. injection E as <-.
    apply Unblocking_worker. exists Looping. split; [|done]. simpl. apply elem_of_app. right. by left.
  - apply ThreadLoop_turn_turned in E; [|by apply acc_sorted]. by eapply Unblocking_turned.
  - apply (Unblocking_signalled _ _ _ _ E). apply (Unblocking_same _ (inner w)); try done.
    by apply (set_worker_keeps _ _ _ _ _ Hi).
  - apply Unblocking_worker. apply DidRun_fields in E as ->. by eapply set_worker_some.
  - apply Unblocking_worker. by eapply set_worker_some.
  - apply Unblocking_worker. by eapply set_worker_some.
  - apply (Unblocking_signalled _ _ _ _ E). apply (Unblocking_same _ (inner w)); try done.
    by apply (set_worker_keeps _ _ _ _ _ Hi).
  - intros Hw. by case_bool_decide.
  - intros Hw. by destruct (CanShutdown p').
  - intros Hw Hcs. by rewrite Hcs in Hw.
Qed.

(** ** What the pool does by itself *)

(** Not the clock, the callers, the end of a task, or a spurious wakeup. *)
Definition internal (w : World) (e : Event) : bool :=
  match e with
  | PostLocks _ | PostEnds _ _ | ThreadEnters | WorkerTurns _ | TaskStarts _ _ | WorkerRelocks _
  | WorkerSignals _ _ | WorkerUnblocksShutdown _ | ShutdownChecks => true
  | WaitEnds i =>
      match threads_ (inner w) !! i with Some (Waiting (Some d)) => d <=? now w | _ => false end
  | ClockTicks _ | E_GetSequenceToken | E_GetNamedSequenceToken _ | PostBegins _ _ _ | TaskFinishes _
  | ShutdownCalled _ _ | ShutdownWakes => false
  end.

Definition Settled (w : World) : Prop := forall e, internal w e = true -> step w e = None.

Lemma signal_possible p : exists pick, is_Some (SignalHasWork p pick).
Proof.
  unfold SignalHasWork. destruct (existsb is_waiting (threads_ p)) eqn:E; [|exists O; by eexists].
  apply existsb_exists in E as (v & Hv & Hw). apply list_elem_of_In, list_elem_of_lookup_1 in Hv as (i & Hi).
  exists i. case_guard as H; simpl; [by eexists|]. exfalso. apply H. rewrite Hi. simpl. by rewrite Hw.
Qed.

(** The workers of a settled pool run a task, sleep on or have exited. *)
Definition idle_or_busy (w : World) (v : Worker) : Prop :=
  match v with
  | Running _ | Waiting None | Exited => True
  | Waiting (Some d) => now w < d
  | _ => False
  end.

Lemma settled_worker w v : Settled w -> v ∈ threads_ (inner w) -> idle_or_busy w v.
Proof.
  intros Hs (i & Hi)%list_elem_of_lookup_1. destruct v as [|t id|t|[d|]| | | |]; simpl; try done.
  - specialize (Hs (WorkerTurns i) eq_refl). unfold step in Hs. rewrite Hi in Hs.
    case_guard; [|done]. simpl in Hs. by destruct (ThreadLoop_turn _ _ _) as [[]].
  - destruct (signal_possible (set_worker (inner w) i (Running t))) as (pick & p' & Hp).
    specialize (Hs (TaskStarts i pick) eq_refl). unfold step in Hs. by rewrite Hi, Hp in Hs.
  - destruct (Z.le_gt_cases d (now w)) as [Hd|Hd]; [exfalso | done].
    assert (internal w (WaitEnds i) = true) as Hint by (simpl; rewrite Hi; by apply Z.leb_le).
    specialize (Hs _ Hint). unfold step in Hs. rewrite Hi in Hs. by case_guard.
  - specialize (Hs (WorkerRelocks i) eq_refl). unfold step in Hs. rewrite Hi in Hs. by case_guard.
  - destruct (signal_possible (set_worker (inner w) i Signalling)) as (pick & p' & Hp).
    specialize (Hs (WorkerSignals i pick) eq_refl). unfold step in Hs. rewrite Hi, Hp in Hs. by case_guard.
  - specialize (Hs (WorkerUnblocksShutdown i) eq_refl). unfold step in Hs. rewrite Hi in Hs. by case_guard.
Qed.

Lemma settled_posts w : Settled w -> posts w = [].
Proof.
  intros Hs. destruct (posts w) as [|post ps] eqn:E; [done | exfalso].
  destruct (stage post) as [r time c|id] eqn:Est.
  - specialize (Hs (PostLocks 0) eq_refl). unfold step in Hs. rewrite E in Hs. simpl in Hs.
    rewrite Est in Hs. by destruct (PostTask _ _ _ _ _) as [[[]|]].
  - destruct (signal_possible (inner w)) as (pick & p' & Hp).
    specialize (Hs (PostEnds 0 pick) eq_refl). unfold step in Hs. rewrite E in Hs. simpl in Hs.
    rewrite Est in Hs. unfold create_or_signal in Hs. simpl in Hs. rewrite Hp in Hs. by destruct (id =? 0).
Qed.

Lemma settled_created w : Accounts w -> Settled w -> thread_being_created_ (inner w) = false.
Proof.
  intros Ha Hs. pose proof (acc_created _ Ha) as Hc. rewrite (settled_posts _ Hs) in Hc. simpl in Hc.
  rewrite (count_none creates) in Hc.
  - apply not_true_iff_false. intros Hb. rewrite Hb in Hc. simpl in Hc.
    specialize (Hs ThreadEnters eq_refl). unfold step in Hs. destruct (created w); [lia|].
    unfold ThreadLoop_enter in Hs. by case_guard.
  - apply Forall_forall. intros v Hv. pose proof (settled_worker _ _ Hs Hv) as Hb. by destruct v.
Qed.

Lemma settled_quiet w : Accounts w -> Settled w -> ~ Acting w.
Proof.
  intros Ha Hs [(v & Hv & Hact)|[(post & Hp & _)|Hc]].
  - pose proof (settled_worker _ _ Hs Hv) as Hb. by destruct v.
  - rewrite (settled_posts _ Hs) in Hp. by apply elem_of_nil in Hp.
  - by rewrite (settled_created _ Ha Hs) in Hc.
Qed.

(** In a settled pool a due task that may run finds no worker asleep. *)
Lemma settled_awake w t :
  Accounts w -> Settled w -> Awake w -> t ∈ pending_tasks_ (inner w) -> runnable (inner w) t ->
  time_to_run t <= now w -> forall v, v ∈ threads_ (inner w) -> is_waiting v = false.
Proof.
  intros Ha Hs Hw Ht Hr Hd. destruct (Hw t Ht Hr) as [Hact|[Hn|(d & Hin & Hle)]]; [|done|].
  - by destruct (settled_quiet _ Ha Hs).
  - pose proof (settled_worker _ _ Hs Hin) as Hb. simpl in Hb. lia.
Qed.

(** ** The theorems *)

Record Lively (max : nat) (w : World) : Prop := {
  lively_accounts : Accounts w;
  lively_holds : Holds w;
  lively_shut : Shut w;
  lively_placed : Placed max w;
  lively_due : Due w;
  lively_staffed : Staffed (inner w);
  lively_awake : Awake w;
}.

Lemma reachable_lively max last time w : reachable (new_World max last time) w -> Lively max w.
Proof.
  intros Hr. induction Hr as [|w e w' Hr [A H S P D F K] Hst%step_stepped].
  - split; [apply Accounts_start | apply Permutation_refl | by split; [|intros []] | | | |].
    + split; simpl; [done | by intros v ?%elem_of_nil | by intros post i ?%elem_of_nil].
    + split; simpl; [by intros t ?%elem_of_nil | by intros post r tm c ?%elem_of_nil].
    + intros _ _ _ (t & Ht & _). by apply elem_of_nil in Ht.
    + by intros t ?%elem_of_nil.
  - split; [by eapply Accounts_stepped | by eapply Holds_stepped | by eapply Shut_stepped
      | by eapply Placed_stepped | by eapply Due_stepped | by eapply Staffed_stepped
      | by eapply Awake_stepped].
Qed.

(** C9: no wakeup is lost. As long as [Shutdown] has not been called, when the pool has
    nothing left to do by itself, a task that is due waits only for threads that are
    busy: a worker runs a task of its sequence, or all of the [max_threads_] threads
    there may be run tasks. After [Shutdown] it is not so: see
    [outside_post_hangs_shutdown]. *)
Theorem due_tasks_wait_for_busy_threads max last time w t :
  reachable (new_World max last time) w -> shutdown_called_ (inner w) = false -> Settled w ->
  t ∈ pending_tasks_ (inner w) -> time_to_run t <= now w ->
  (exists u, Running u ∈ threads_ (inner w) /\ sequence_token_id u = sequence_token_id t /\
             sequence_token_id t <> 0) \/
  (length (threads_ (inner w)) = max /\ forall v, v ∈ threads_ (inner w) -> exists u, v = Running u).
Proof.
  intros Hr Hsd Hset Ht Hd. destruct (reachable_lively _ _ _ _ Hr) as [A H S P D F K].
  destruct (IsSequenceTokenRunnable (inner w) (sequence_token_id t)) eqn:Hrun.
  - right. pose proof (settled_awake _ _ A Hset K Ht Hrun Hd) as Hnone.
    assert (forall v, v ∈ threads_ (inner w) -> exists u, v = Running u) as Hall.
    { intros v Hv. pose proof (settled_worker _ _ Hset Hv) as Hb. specialize (Hnone v Hv).
      pose proof (placed_left _ _ P v Hv) as Hl.
      destruct v; simpl in *; try done; [by eexists | specialize (Hl eq_refl); congruence]. }
    split; [|done]. pose proof (acc_room _ A) as Hroom. rewrite (placed_max _ _ P) in Hroom.
    destruct (decide (length (threads_ (inner w)) = max)) as [|Hne]; [done | exfalso].
    destruct F as [Hc|Hl]; [done| | | | |].
    + rewrite (acc_waiting _ A). apply count_none, Forall_forall. intros v Hv.
      by destruct (Hall v Hv) as (u & ->).
    + rewrite (placed_max _ _ P). destruct (thread_being_created_ (inner w)); simpl in Hroom; lia.
    + by exists t.
    + by rewrite (settled_created _ A Hset) in Hc.
    + by destruct (Hall _ Hl).
  - left. assert (~ runnable (inner w) t) as Hnr by (unfold runnable; congruence).
    rewrite runnable_spec in Hnr. destruct (decide (sequence_token_id t = 0)) as [|Hz]; [tauto|].
    destruct (decide (sequence_token_id t ∈ current_sequences_ (inner w))) as [Hin|]; [|tauto].
    rewrite (acc_tokens _ A) in Hin. unfold tokens in Hin.
    apply list_elem_of_filter in Hin as [_ Hin]. apply list_elem_of_fmap in Hin as (u & Eu & Hu).
    apply list_elem_of_omap in Hu as (v & Hv & Hheld). exists u.
    pose proof (settled_worker _ _ Hset Hv) as Hb. destruct v; simpl in *; try done.
    injection Hheld as ->. by split.
Qed.

(** The worlds that are reached when nobody but the workers posts once shutdown is called. *)
Inductive served (w0 : World) : World -> Prop :=
| served_start : served w0 w0
| served_step w e w' : served w0 w -> worker_posts_only w e -> step w e = Some w' -> served w0 w'.

Lemma served_reachable w0 w : served w0 w -> reachable w0 w.
Proof. induction 1; [constructor | by eapply reachable_step]. Qed.

Lemma served_unblocked max last time w :
  (0 < max)%nat -> served (new_World max last time) w ->
  Alive (inner w) /\ Unblocking (shutdown w) (inner w).
Proof.
  intros Hmax. induction 1 as [|w e w' Hr [IH1 IH2] Hp Hst%step_stepped]; [by split|].
  destruct (reachable_lively _ _ _ _ (served_reachable _ _ Hr)) as [A H S P D F K].
  split; [by eapply Alive_stepped | by eapply Unblocking_stepped].
Qed.

(** C11: Shutdown does not hang. If after the call of [Shutdown] only the workers post,
    or no budget for tasks that block shutdown is left, then as long as [Shutdown] has
    not returned the pool has something to do by itself or a worker runs a task: it
    never waits for a task that nobody takes, nor sleeps when it could return. *)
Theorem shutdown_waits_for_running_tasks max last time w :
  served (new_World max last time) w -> (0 < max)%nat ->
  shutdown w = Checking \/ shutdown w = WaitingForWorkers -> Settled w ->
  exists u, Running u ∈ threads_ (inner w).
Proof.
  intros Hr Hmax Hw Hset. destruct (served_unblocked _ _ _ _ Hmax Hr) as [Hal Hun].
  destruct (reachable_lively _ _ _ _ (served_reachable _ _ Hr)) as [A H S P D F K].
  destruct Hw as [Hw|Hw].
  { specialize (Hset ShutdownChecks eq_refl). unfold step in Hset. by case_guard. }
  destruct (held (threads_ (inner w))) as [|u us] eqn:Hheld.
  - exfalso. assert (forall t, runnable (inner w) t) as Hrun.
    { intros t. apply runnable_spec. right. rewrite (acc_tokens _ A), Hheld. apply not_elem_of_nil. }
    assert (Some_worker unblocks (inner w) -> False) as Hnobody.
    { intros (v & Hv & Hf). pose proof (settled_worker _ _ Hset Hv). by destruct v. }
    pose proof (acc_blocking _ A) as Hb. rewrite Hheld in Hb. simpl in Hb.
    destruct (Z.eq_dec (blocking_shutdown_pending_task_count_ (inner w)) 0) as [Hz|Hz].
    + by apply Hnobody, Hun; [|apply CanShutdown_spec; rewrite (settled_created _ A Hset)].
    + pose proof (acc_pending _ A) as Hp. pose proof (count_nonneg blocks (pending_tasks_ (inner w))).
      destruct (count_exists blocks (pending_tasks_ (inner w))) as (t & Ht & Hbt); [lia|].
      pose proof (settled_awake _ _ A Hset K Ht (Hrun t) (due_pending _ D t Ht Hbt)) as Hnone.
      destruct (Hal ltac:(lia)) as [Hc|(v & Hv & Hs)]; [by rewrite (settled_created _ A Hset) in Hc|].
      pose proof (settled_worker _ _ Hset Hv). specialize (Hnone v Hv).
      assert (held_task v = None) as Hnh.
      { destruct (held_task v) as [u|] eqn:E; [|done]. assert (u ∈ held (threads_ (inner w))) as Hu
          by (apply list_elem_of_omap; by exists v). rewrite Hheld in Hu. by apply elem_of_nil in Hu. }
      by destruct v.
  - assert (u ∈ held (threads_ (inner w))) as Hu by (rewrite Hheld; by left).
    apply list_elem_of_omap in Hu as (v & Hv & Hu). pose proof (settled_worker _ _ Hset Hv).
    destruct v; try done. by eexists.
Qed.

(** A pool whose workers are idle or busy, without posts and new threads, is settled. *)
Lemma settled_intro w :
  posts w = [] -> created w = O -> shutdown w <> Checking ->
  Forall (idle_or_busy w) (threads_ (inner w)) -> Settled w.
Proof.
  intros Hp Hc Hs Hv e He. rewrite Forall_lookup in Hv.
  destruct e as [time| |name|poster r closure|n|n pick| |i|i pick|i|i|i|i pick|i|max pick| |];
    try done; unfold step; rewrite ?Hp, ?Hc; try done.
  - case_guard as Hi; [|done]. by destruct (Hv _ _ Hi).
  - destruct (threads_ (inner w) !! i) as [[]|] eqn:Hi; try done. by destruct (Hv _ _ Hi).
  - simpl in He. destruct (threads_ (inner w) !! i) as [[| | |[d|]| | | |]|] eqn:Hi; try done.
    specialize (Hv _ _ Hi). simpl in Hv. apply Z.leb_le in He. lia.
  - case_guard as Hi; [|done]. by destruct (Hv _ _ Hi).
  - case_guard as Hi; [|done]. by destruct (Hv _ _ Hi).
  - case_guard as Hi; [|done]. by destruct (Hv _ _ Hi).
  - by case_guard.
Qed.

(** The second of two tasks waits while the only thread runs the first. *)
Definition busy_pool : list Event :=
  [PostBegins None PostWorkerTask 1; PostLocks 0; PostEnds 0 0; ThreadEnters;
   PostBegins None PostWorkerTask 2; PostLocks 0; PostEnds 0 0; WorkerTurns 0; TaskStarts 0 0].

Lemma due_tasks_wait_for_busy_threads_witness :
  let t := SequencedTask_ 0 1 BLOCK_SHUTDOWN 100 2 in
  exists w, run (new_World 1 0 100) busy_pool = Some w /\ pending_tasks_ (inner w) = [t] /\
    ((exists u, Running u ∈ threads_ (inner w) /\ sequence_token_id u = 0 /\ 0 <> 0) \/
     (length (threads_ (inner w)) = 1%nat /\ forall v, v ∈ threads_ (inner w) -> exists u, v = Running u)).
Proof.
  intros t.
  assert (exists w, run (new_World 1 0 100) busy_pool = Some w) as (w & Hw)
    by (eexists; vm_compute; reflexivity).
  pose proof (run_reachable _ _ _ _ (reachable_start _) Hw) as Hr.
  exists w. split; [done|]. vm_compute in Hw. injection Hw as <-. split; [reflexivity|].
  apply (due_tasks_wait_for_busy_threads 1 0 100 _ t Hr); [reflexivity | | by left | reflexivity].
  apply settled_intro; [done | done | done | by repeat constructor].
Defined.

(** Shutdown is called while the only worker runs a task. *)
Definition busy_shutdown : list Event := busy_pool ++ [ShutdownCalled 0 0; ShutdownChecks].

(** A check of [worker_posts_only] along a run. *)
Definition posts_from_worker (w : World) (e : Event) : bool :=
  match e with
  | PostLocks n =>
      match posts w !! n ≫= poster with
      | Some _ => true
      | None => negb (shutdown_called_ (inner w)) || (max_blocking_tasks_after_shutdown_ (inner w) <=? 0)
      end
  | _ => true
  end.

Fixpoint all_from_workers (w : World) (es : list Event) : bool :=
  match es with
  | [] => true
  | e :: es => posts_from_worker w e &&
               match step w e with Some w => all_from_workers w es | None => false end
  end.

Lemma served_run w0 w es w' :
  served w0 w -> all_from_workers w es = true -> run w es = Some w' -> served w0 w'.
Proof.
  revert w. induction es as [|e es IH]; intros w Hr He; simpl; [by intros [= <-]|].
  simpl in He. apply andb_true_iff in He as [Hp He].
  destruct (step w e) as [w1|] eqn:E; simpl; [|done]. apply IH; [|done].
  eapply served_step; [exact Hr | | exact E]. intros n post -> Hn Hpost Hsd.
  unfold posts_from_worker in Hp. rewrite Hn in Hp. simpl in Hp. rewrite Hpost, Hsd in Hp. simpl in Hp.
  by apply Z.leb_le.
Qed.

Lemma shutdown_waits_for_running_tasks_witness :
  exists w, run (new_World 1 0 100) busy_shutdown = Some w /\ shutdown w = WaitingForWorkers /\
    exists u, Running u ∈ threads_ (inner w).
Proof.
  assert (exists w, run (new_World 1 0 100) busy_shutdown = Some w) as (w & Hw)
    by (eexists; vm_compute; reflexivity).
  assert (served (new_World 1 0 100) w) as Hr.
  { apply (served_run _ (new_World 1 0 100) busy_shutdown); [constructor | vm_compute; reflexivity | done]. }
  exists w. split; [done|]. vm_compute in Hw. injection Hw as <-. split; [reflexivity|].
  apply (shutdown_waits_for_running_tasks 1 0 100 _ Hr); [lia | by right|].
  apply settled_intro; [done | done | done | by repeat constructor].
Defined.

(** Without that premise it does hang. A caller posts with budget left when the last
    worker has exited: [PostTask] asks whether the poster is a worker only to look at
    the behavior of its task, and accepts. No thread will run the task, and
    [Shutdown] sleeps for ever. *)
Definition late_post : list Event :=
  [PostBegins None PostWorkerTask 1; PostLocks 0; PostEnds 0 0; ThreadEnters; WorkerTurns 0;
   TaskStarts 0 0; ShutdownCalled 1 0; ShutdownChecks; TaskFinishes 0; WorkerTurns 0; WorkerSignals 0 0;
   WorkerUnblocksShutdown 0;
   PostBegins None PostWorkerTask 2; PostLocks 0; PostEnds 0 0; ShutdownChecks].

Lemma outside_post_hangs_shutdown :
  exists w, run (new_World 1 0 100) late_post = Some w /\ shutdown w = WaitingForWorkers /\ Settled w /\
    threads_ (inner w) = [Exited] /\
    pending_tasks_ (inner w) = [SequencedTask_ 0 1 BLOCK_SHUTDOWN 100 2].
Proof.
  assert (exists w, run (new_World 1 0 100) late_post = Some w) as (w & Hw)
    by (eexists; vm_compute; reflexivity).
  exists w. split; [done|]. vm_compute in Hw. injection Hw as <-.
  do 2 (split; [first [reflexivity | apply settled_intro; [done | done | done | by repeat constructor]]|]).
  by split.
Qed.

(** ** The steps of the pool come to an end *)

Definition worker_potential (time : Z) (v : Worker) : Z :=
  match v with
  | Looping => 11 | Starting _ _ => 25 | Running _ => 10 | Woken => 12
  | Waiting (Some d) => if d <=? time then 13 else 10
  | Waiting None => 10
  | Leaving => 5 | Signalling => 2 | Exited => 0
  end.

Definition post_potential (post : Post) : Z := if is_after post then 13 else 29.

Fixpoint total {A} (f : A -> Z) (l : list A) : Z :=
  match l with [] => 0 | x :: l => f x + total f l end.

#[export] Instance total_proper {A} (f : A -> Z) : Proper ((≡ₚ) ==> (=)) (total f).
Proof. induction 1; simpl; lia. Qed.

(** What the pool can still do by itself. *)
Definition potential (w : World) : Z :=
  15 * Z.of_nat (length (pending_tasks_ (inner w))) +
  total (worker_potential (now w)) (threads_ (inner w)) + 12 * Z.of_nat (created w) +
  total post_potential (posts w) + (if bool_decide (shutdown w = Checking) then 1 else 0).

Lemma total_nonneg {A} (f : A -> Z) l : (forall x, 0 <= f x) -> 0 <= total f l.
Proof. intros Hf. induction l as [|x l IH]; simpl; [done|]. specialize (Hf x). lia. Qed.

Lemma worker_potential_nonneg time v : 0 <= worker_potential time v.
Proof. destruct v as [| | |[d|]| | | |]; simpl; try lia. destruct (d <=? time); lia. Qed.

Lemma potential_nonneg w : 0 <= potential w.
Proof.
  unfold potential. pose proof (total_nonneg _ (threads_ (inner w)) (worker_potential_nonneg (now w))).
  pose proof (total_nonneg post_potential (posts w)
    ltac:(intros x; unfold post_potential; destruct (is_after x); lia)).
  case_bool_decide; lia.
Qed.

Lemma total_insert {A} (f : A -> Z) l i old new :
  l !! i = Some old -> total f (<[i := new]> l) = total f l - f old + f new.
Proof.
  intros Hi. destruct (list_split _ _ _ Hi) as (rest & Hold & Hnew). rewrite (Hnew new), Hold. simpl. lia.
Qed.

Lemma total_remove {A} (f : A -> Z) l i old :
  l !! i = Some old -> total f (remove_at l i) = total f l - f old.
Proof. intros Hi. rewrite (remove_at_split _ _ _ Hi) at 2. simpl. lia. Qed.

(** A signal costs at most 2. *)
Lemma signal_potential p pick p' time :
  SignalHasWork p pick = Some p' ->
  total (worker_potential time) (threads_ p') <= total (worker_potential time) (threads_ p) + 2.
Proof.
  intros [[-> _]|(d & Hi & ->)]%SignalHasWork_cases; [lia|]. simpl. rewrite (total_insert _ _ _ _ _ Hi).
  simpl. destruct d as [d|]; [destruct (d <=? time)|]; lia.
Qed.

Lemma turned_potential p i now p' tk dead :
  threads_ p !! i = Some Looping -> turned p i now p' tk dead ->
  15 * Z.of_nat (length (pending_tasks_ p')) + total (worker_potential now) (threads_ p') <
  15 * Z.of_nat (length (pending_tasks_ p)) + total (worker_potential now) (threads_ p).
Proof.
  intros Hi Ht.
  assert (forall s kept dead', walked p now (pending_tasks_ p) s kept dead' ->
            length (pending_tasks_ p) = (length (found s) + length kept + length dead')%nat) as Hlen.
  { intros s kept dead' Hw. rewrite (walk_perm _ _ _ _ _ _ Hw), !length_app. lia. }
  destruct Ht as [t kept dead' id q Hwk Hr| s kept dead' Hwk | s kept dead' Hwk _ Hne | s kept d Hwk Hf _ Hd];
    specialize (Hlen _ _ _ Hwk); simpl in Hlen |- *.
  - destruct (WillRun_fields _ _ _ _ Hr) as (E1 & E2 & _). rewrite E1, E2. simpl.
    rewrite (total_insert _ _ _ _ _ Hi). simpl. lia.
  - rewrite (total_insert _ _ _ _ _ Hi). simpl. lia.
  - rewrite (total_insert _ _ _ _ _ Hi). destruct dead'; [done|]. simpl in Hlen |- *. lia.
  - rewrite (total_insert _ _ _ _ _ Hi). destruct s as [u| |time]; subst d; simpl; [done|lia|].
    destruct (walk_wait _ _ _ _ _ _ Hwk time eq_refl) as (Hlt & _).
    rewrite (proj2 (Z.leb_gt time now) Hlt). lia.
Qed.

(** The whole potential, part by part. *)
Lemma potential_less w w' :
  now w' = now w ->
  15 * Z.of_nat (length (pending_tasks_ (inner w'))) + total (worker_potential (now w)) (threads_ (inner w'))
    + 12 * Z.of_nat (created w') + total post_potential (posts w')
    + (if bool_decide (shutdown w' = Checking) then 1 else 0) <
  15 * Z.of_nat (length (pending_tasks_ (inner w))) + total (worker_potential (now w)) (threads_ (inner w))
    + 12 * Z.of_nat (created w) + total post_potential (posts w)
    + (if bool_decide (shutdown w = Checking) then 1 else 0) ->
  potential w' < potential w.
Proof. unfold potential. by intros ->. Qed.

Lemma accepted_potential w n post r time closure t id p' :
  Accounts w -> posts w !! n = Some post -> stage post = BeforeLock r time closure ->
  PostTask (inner w) (poster post) r time closure = (Some (t, id), p') ->
  potential (World_ p' (<[n := Post_ (number post) (poster post) (AfterLock id)]> (posts w))
               (posts_begun w) (created w) (shutdown w) (now w) (Accepted (number post) t :: log w))
  < potential w.
Proof.
  intros Ha Hn Hs E. apply potential_less; [done|]. cbn [inner posts created shutdown now].
  rewrite (PostTask_threads _ _ _ _ _ _ _ _ E), (total_insert _ _ _ _ _ Hn).
  destruct (PostTask_fields _ _ _ _ _ _ _ _ E) as (-> & _).
  rewrite insert_task_perm.
  - unfold post_potential, is_after. rewrite Hs. simpl. lia.
  - intros v Hv. apply (elem_accepted _ _ Ha), elem_accepted_log in Hv as (m & Hm).
    destruct (accepted_task _ _ _ _ _ _ _ _ _ Ha Hn Hs E) as [_ Hnew]. specialize (Hnew m v Hm). lia.
Qed.

Lemma ended_potential w n post id pick w' :
  posts w !! n = Some post -> stage post = AfterLock id ->
  create_or_signal
    (World_ (inner w) (remove_at (posts w) n) (posts_begun w) (created w) (shutdown w) (now w) (log w))
    id pick = Some w' -> potential w' < potential w.
Proof.
  intros Hn Hs E. pose proof (total_remove post_potential _ _ _ Hn) as Hr.
  assert (post_potential post = 13) as Hp by (unfold post_potential, is_after; by rewrite Hs).
  apply create_or_signal_cases in E as [(_ & p' & E & ->)|[_ ->]];
    apply potential_less; try done; cbn [inner posts created shutdown now set_inner].
  - pose proof (signal_potential _ _ _ (now w) E) as Hsig. simpl in Hsig.
    rewrite (woken_fields _ _ _ pending_tasks_ E) by done. simpl. lia.
  - lia.
Qed.

(** Every step of its own uses the potential up. *)
Lemma internal_potential w e w' :
  Accounts w -> internal w e = true -> stepped w e w' -> potential w' < potential w.
Proof.
  intros Ha He Hst.
  destruct Hst as [|e q Hask Hq|poster r closure Hm Hdel|n post r time closure Hn Hb
    |n post r time closure t id p' Hn Hb E
    |n pick post id w' Hn Hb E|k p' Hk' E|i p' tk dead Hi E|i pick t id p' Hi E|i t q Hi Hf E|i d Hi|i Hi
    |i pick p' Hi E|i Hi| |mx pick p' Hc E|Hch|Hwt]; try done.
  - by destruct e.
  - apply potential_less; [done|]. simpl. rewrite (total_remove _ _ _ _ Hn).
    unfold post_potential at 2, is_after. rewrite Hb. lia.
  - by eapply accepted_potential.
  - by eapply ended_potential.
  - unfold ThreadLoop_enter in E. case_guard; simpl in E; [|done]. injection E as <-.
    apply potential_less; [done|]. simpl.
    assert (forall l : list Worker, total (worker_potential (now w)) (l ++ [Looping])
              = total (worker_potential (now w)) l + 11) as ->
      by (induction l as [|v l IH]; simpl; lia). lia.
  - apply ThreadLoop_turn_turned in E; [|by apply acc_sorted].
    apply potential_less; [done|]. simpl. pose proof (turned_potential _ _ _ _ _ _ Hi E). lia.
  - apply potential_less; [done|]. simpl. pose proof (signal_potential _ _ _ (now w) E) as Hsig.
    rewrite (woken_fields _ _ _ pending_tasks_ E) by done. simpl in Hsig |- *.
    rewrite (total_insert _ _ _ _ _ Hi) in Hsig. simpl in Hsig. destruct (id =? 0); lia.
  - simpl in He. rewrite Hi in He. destruct d as [d|]; [|done].
    apply potential_less; [done|]. simpl. rewrite (total_insert _ _ _ _ _ Hi). simpl. rewrite He. lia.
  - apply potential_less; [done|]. simpl. rewrite (total_insert _ _ _ _ _ Hi). simpl. lia.
  - apply potential_less; [done|]. simpl. pose proof (signal_potential _ _ _ (now w) E) as Hsig.
    rewrite (woken_fields _ _ _ pending_tasks_ E) by done. simpl in Hsig |- *.
    rewrite (total_insert _ _ _ _ _ Hi) in Hsig. simpl in Hsig. lia.
  - apply potential_less; [done|]. simpl. rewrite (total_insert _ _ _ _ _ Hi). simpl.
    repeat case_bool_decide; try congruence; lia.
  - apply potential_less; [done|]. unfold shutdown_checks. simpl.
    destruct (CanShutdown (inner w)); repeat case_bool_decide; try congruence; lia.
Qed.

(** Steps the pool takes by itself. *)
Inductive internal_steps : World -> nat -> World -> Prop :=
| internal_none w : internal_steps w 0 w
| internal_one w e w1 n w' :
    internal w e = true -> step w e = Some w1 -> internal_steps w1 n w' -> internal_steps w (S n) w'.

(** C10: left to itself the pool comes to rest. From any reachable state, and whatever
    order its threads run in, it takes no more steps of its own than the potential of
    the state, until a task ends, the clock moves, somebody posts or a wait ends
    spuriously: 15 for a pending task, at most 25 for a worker, 12 for a thread that
    is on its way, 29 for a post and 1 for the thread that shuts down. *)
Theorem pool_comes_to_rest max last time w n w' :
  reachable (new_World max last time) w -> internal_steps w n w' -> Z.of_nat n <= potential w.
Proof.
  intros Hr Hs. induction Hs as [w|w e w1 n w' He Hst Hs IH]; [apply potential_nonneg|].
  specialize (IH ltac:(by eapply reachable_step)).
  pose proof (internal_potential w e w1 (lively_accounts _ _ (reachable_lively _ _ _ _ Hr)) He
                (step_stepped _ _ _ Hst)). lia.
Qed.

Fixpoint all_internal (w : World) (es : list Event) : bool :=
  match es with
  | [] => true
  | e :: es => internal w e && match step w e with Some w => all_internal w es | None => false end
  end.

Lemma internal_run w es w' :
  all_internal w es = true -> run w es = Some w' -> internal_steps w (length es) w'.
Proof.
  revert w. induction es as [|e es IH]; intros w; simpl; [intros _ [= <-]; constructor|].
  intros [He Hes]%andb_true_iff. destruct (step w e) as [w1|] eqn:E; simpl; [|done].
  intros Hr. eapply internal_one; [exact He | exact E | by apply IH].
Qed.

(** From a post that has just begun to a task that runs: 5 steps of at most 29. *)
Lemma pool_comes_to_rest_witness :
  exists w w', run (new_World 1 0 100) [PostBegins None PostWorkerTask 1] = Some w /\
    run w [PostLocks 0; PostEnds 0 0; ThreadEnters; WorkerTurns 0; TaskStarts 0 0] = Some w' /\
    potential w = 29 /\ 5 <= potential w.
Proof.
  assert (exists w, run (new_World 1 0 100) [PostBegins None PostWorkerTask 1] = Some w) as (w & Hw)
    by (eexists; vm_compute; reflexivity).
  pose proof (run_reachable _ _ _ _ (reachable_start _) Hw) as Hr. exists w.
  vm_compute in Hw. injection Hw as <-.
  eexists. do 3 (split; [vm_compute; reflexivity|]).
  eapply (pool_comes_to_rest 1 0 100 _ 5 _ Hr).
  apply (internal_run _ [PostLocks 0; PostEnds 0 0; ThreadEnters; WorkerTurns 0; TaskStarts 0 0]);
    vm_compute; reflexivity.
Defined.

(** The entry points keep the precondition of [PostTask]: a delayed task does not block. *)
Lemma delayed_skips delay : delay = 0 \/ delayed_behavior delay = SKIP_ON_SHUTDOWN.
Proof. unfold delayed_behavior. destruct (delay =? 0) eqn:E; [left; by apply Z.eqb_eq | by right]. Qed.

Lemma entry_points_respect_PostTask r b d token :
  r ∈ [PostWorkerTask; PostDelayedWorkerTask d; PostWorkerTaskWithShutdownBehavior b;
       PostSequencedWorkerTask token; PostDelayedSequencedWorkerTask token d;
       PostSequencedWorkerTaskWithShutdownBehavior token b;
       TaskRunner_PostDelayedTask b d; SequencedTaskRunner_PostDelayedTask token b d] ->
  WorkerPool.delay r = 0 \/ behavior r = SKIP_ON_SHUTDOWN.
Proof.
  pose proof (delayed_skips d) as Hd. rewrite !elem_of_cons. unfold TaskRunner_PostDelayedTask,
    SequencedTaskRunner_PostDelayedTask. intros Hr.
  repeat destruct Hr as [->|Hr]; try (by left); try exact Hd.
  - destruct (d =? 0) eqn:E; [by left | exact Hd].
  - destruct (d =? 0) eqn:E; [by left | exact Hd].
  - by apply elem_of_nil in Hr.
Qed.
