(* ===== verification/ObserverList.v ===== *)
(** * Observer lists

    [base/observer_list.h]: [ObserverListBase], its [Iterator], and
    [FOR_EACH_OBSERVER] under observers that add, remove, clear, notify again and
    destroy the list while they are being called.

    The list keeps a null pointer in the place of an observer that is removed
    during a notification, so that the indices of the iterators stay good, and
    compacts itself when the last notification ends. The machine at the end of
    the definitions runs client code between the calls: [None] is a use of a
    destroyed list, or a return from a call that is not there. The specification
    is a list of registered observers without places, indices or depth. *)
From Stdlib Require Import ZArith Lia.
From stdpp Require Import base option sets list.
From S2P Require Import Prelude.

(** An observer is the address of an object. *)
Definition Observer : Type := positive.

Inductive NotificationType := NOTIFY_ALL | NOTIFY_EXISTING_ONLY.

#[export] Instance NotificationType_eq_dec : EqDecision NotificationType.
Proof. solve_decision. Defined.

(** [None] is a null pointer. *)
Record ObserverList := ObserverList_ {
  observers_ : list (option Observer);
  notify_depth_ : Z;
  type_ : NotificationType;
}.

(** [max_index_] is [None] for the largest [size_t], which no size exceeds. *)
Record Iterator := Iterator_ { index_ : nat; max_index_ : option nat }.

Definition new_ObserverList (type : NotificationType) : ObserverList := ObserverList_ [] 0 type.

(** [std::find] *)
Fixpoint find_observer (observers : list (option Observer)) (obs : Observer) : option nat :=
  match observers with
  | [] => None
  | o :: observers =>
      if bool_decide (o = Some obs) then Some O else S <$> find_observer observers obs
  end.

(** Whether the observer was added, and the list. *)
Definition AddObserver (l : ObserverList) (obs : Observer) : bool * ObserverList :=
  match find_observer (observers_ l) obs with
  | Some _ => (false, l)
  | None => (true, ObserverList_ (observers_ l ++ [Some obs]) (notify_depth_ l) (type_ l))
  end.

Definition erase {A} (l : list A) (i : nat) : list A := take i l ++ drop (S i) l.

Definition RemoveObserver (l : ObserverList) (obs : Observer) : ObserverList :=
  match find_observer (observers_ l) obs with
  | None => l
  | Some it =>
      ObserverList_ (if negb (notify_depth_ l =? 0)%Z then <[it := None]> (observers_ l)
                     else erase (observers_ l) it)
        (notify_depth_ l) (type_ l)
  end.

Definition HasObserver (l : ObserverList) (observer : Observer) : bool :=
  existsb (fun o => bool_decide (o = Some observer)) (observers_ l).

Definition Clear (l : ObserverList) : ObserverList :=
  ObserverList_ (if negb (notify_depth_ l =? 0)%Z then (fun _ => None) <$> observers_ l else [])
    (notify_depth_ l) (type_ l).

(** [std::remove] of the null pointers, and [erase] of what is behind. *)
Definition Compact (l : ObserverList) : ObserverList :=
  ObserverList_ (filter (fun o => is_Some o) (observers_ l)) (notify_depth_ l) (type_ l).

Definition might_have_observers (l : ObserverList) : bool :=
  negb (Nat.eqb (length (observers_ l)) 0).

(** The constructor of the iterator. *)
Definition new_Iterator (l : ObserverList) : Iterator * ObserverList :=
  (Iterator_ 0 (if bool_decide (type_ l = NOTIFY_ALL) then None else Some (length (observers_ l))),
   ObserverList_ (observers_ l) (notify_depth_ l + 1) (type_ l)).

(** Its destructor; the weak pointer [list_] is null when the list is gone. *)
Definition delete_Iterator (list_ : option ObserverList) : option ObserverList :=
  match list_ with
  | None => None
  | Some l =>
      let l := ObserverList_ (observers_ l) (notify_depth_ l - 1) (type_ l) in
      Some (if (notify_depth_ l =? 0)%Z then Compact l else l)
  end.

(** The loop over the null pointers: [n] places are left below [max_index]. *)
Fixpoint skip_null (observers : list (option Observer)) (n index : nat) : nat :=
  match n with
  | O => index
  | S n =>
      match observers !! index with
      | Some None => skip_null observers n (S index)
      | _ => index
      end
  end.

Definition GetNext (list_ : option ObserverList) (it : Iterator) : option Observer * Iterator :=
  match list_ with
  | None => (None, it)
  | Some l =>
      let observers := observers_ l in
      let max_index := match max_index_ it with
                       | None => length observers
                       | Some m => Nat.min m (length observers)
                       end in
      let index := skip_null observers (max_index - index_ it) (index_ it) in
      if index <? max_index
      then (mjoin (observers !! index), Iterator_ (S index) (max_index_ it))
      else (None, Iterator_ index (max_index_ it))
  end.

(** ** Notifications and client code

    Every iterator on the stack is one of a [FOR_EACH_OBSERVER] that is calling
    an observer; client code runs in the innermost call, or outside of all. *)

Inductive Event :=
| ForEach
| Return
| Add (obs : Observer)
| Remove (obs : Observer)
| Has (obs : Observer)
| ClearAll
| Destroy.

(** What the event lets its environment see: the observer that is called next,
    or the end of the notification; the result of a query. *)
Inductive Answer :=
| Calls (obs : Observer)
| Ends
| Says (b : bool)
| Silent.

Record State := State_ { list_ : option ObserverList; iterators : list Iterator }.

Definition new_State (type : NotificationType) : State := State_ (Some (new_ObserverList type)) [].

(** The turn of the loop of [FOR_EACH_OBSERVER] that calls [GetNext]. *)
Definition turn (list_ : option ObserverList) (it : Iterator) (iterators : list Iterator)
    : State * Answer :=
  match GetNext list_ it with
  | (Some obs, it) => (State_ list_ (it :: iterators), Calls obs)
  | (None, _) => (State_ (delete_Iterator list_) iterators, Ends)
  end.

Definition step (s : State) (e : Event) : option (State * Answer) :=
  match e, list_ s with
  | Return, l =>
      match iterators s with
      | [] => None
      | it :: its => Some (turn l it its)
      end
  | _, None => None
  | ForEach, Some l =>
      if might_have_observers l
      then let '(it, l) := new_Iterator l in Some (turn (Some l) it (iterators s))
      else Some (s, Ends)
  | Add obs, Some l =>
      let '(added, l) := AddObserver l obs in Some (State_ (Some l) (iterators s), Says added)
  | Remove obs, Some l => Some (State_ (Some (RemoveObserver l obs)) (iterators s), Silent)
  | Has obs, Some l => Some (s, Says (HasObserver l obs))
  | ClearAll, Some l => Some (State_ (Some (Clear l)) (iterators s), Silent)
  | Destroy, Some _ => Some (State_ None (iterators s), Silent)
  end.

(** What a run lets its environment see, up to the first impossible event. *)
Fixpoint answers (s : State) (es : list Event) : list (option Answer) :=
  match es with
  | [] => []
  | e :: es =>
      match step s e with
      | None => [None]
      | Some (s, a) => Some a :: answers s es
      end
  end.

(** ** The specification

    The registered observers in the order of their registration, and for every
    notification in progress the observers it has still to call. *)

Record Spec := Spec_ { registered : option (list Observer); pending : list (list Observer) }.

Definition new_Spec : Spec := Spec_ (Some []) [].

Definition without (obs : Observer) (l : list Observer) : list Observer :=
  filter (fun o => o <> obs) l.

Definition spec_turn (registered : option (list Observer)) (rest : list Observer)
    (pending : list (list Observer)) : Spec * Answer :=
  match rest with
  | obs :: rest => (Spec_ registered (rest :: pending), Calls obs)
  | [] => (Spec_ registered pending, Ends)
  end.

(** A new observer joins the notifications in progress only under [NOTIFY_ALL];
    one that is removed leaves them; none is left when the list is gone. *)
Definition spec_step (type : NotificationType) (s : Spec) (e : Event) : option (Spec * Answer) :=
  match e, registered s with
  | Return, r =>
      match pending s with
      | [] => None
      | rest :: p => Some (spec_turn r rest p)
      end
  | _, None => None
  | ForEach, Some r => Some (spec_turn (Some r) r (pending s))
  | Add obs, Some r =>
      if bool_decide (obs ∈ r) then Some (s, Says false)
      else Some (Spec_ (Some (r ++ [obs]))
                   (match type with
                    | NOTIFY_ALL => (fun rest => rest ++ [obs]) <$> pending s
                    | NOTIFY_EXISTING_ONLY => pending s
                    end), Says true)
  | Remove obs, Some r =>
      Some (Spec_ (Some (without obs r)) (without obs <$> pending s), Silent)
  | Has obs, Some r => Some (s, Says (bool_decide (obs ∈ r)))
  | ClearAll, Some _ => Some (Spec_ (Some []) ((fun _ => []) <$> pending s), Silent)
  | Destroy, Some _ => Some (Spec_ None ((fun _ => []) <$> pending s), Silent)
  end.

Fixpoint spec_answers (type : NotificationType) (s : Spec) (es : list Event)
    : list (option Answer) :=
  match es with
  | [] => []
  | e :: es =>
      match spec_step type s e with
      | None => [None]
      | Some (s, a) => Some a :: spec_answers type s es
      end
  end.

(** ** Lemmas *)

(** The observers of a list without its null pointers. *)
Definition live (os : list (option Observer)) : list Observer := omap id os.

(** What an iterator has still to visit, and the bound of its places. *)
Definition bound (os : list (option Observer)) (it : Iterator) : nat :=
  match max_index_ it with None => length os | Some m => Nat.min m (length os) end.

Definition rest (os : list (option Observer)) (it : Iterator) : list Observer :=
  live (take (bound os it - index_ it) (drop (index_ it) os)).

(** An observer's place taken by a null pointer. *)
Definition null (obs : Observer) (os : list (option Observer)) : list (option Observer) :=
  (fun o => if bool_decide (o = Some obs) then None else o) <$> os.

Lemma live_app os ps : live (os ++ ps) = live os ++ live ps.
Proof. apply omap_app. Qed.

Lemma elem_of_live o os : o ∈ live os <-> Some o ∈ os.
Proof.
  unfold live. rewrite list_elem_of_omap. split; [|by exists (Some o)]. intros (x & Hx & Ho). simpl in Ho.
  by subst.
Qed.

Lemma live_null obs os : live (null obs os) = without obs (live os).
Proof.
  induction os as [|[o|] os IH]; simpl; [done| |done]. unfold without in *. rewrite filter_cons.
  destruct (decide (o = obs)) as [->|Ho].
  - rewrite bool_decide_true by done. rewrite decide_False by naive_solver. done.
  - rewrite bool_decide_false by congruence. rewrite decide_True by done. simpl. by f_equal.
Qed.

Lemma null_app obs os ps : null obs (os ++ ps) = null obs os ++ null obs ps.
Proof. apply fmap_app. Qed.

Lemma null_same obs os : null obs (Some obs :: os) = None :: null obs os.
Proof. unfold null. by rewrite fmap_cons, bool_decide_true. Qed.

Lemma null_none obs os : obs ∉ live os -> null obs os = os.
Proof.
  intros Ho. unfold null. induction os as [|o os IH]; [done|]. rewrite fmap_cons, IH.
  - rewrite bool_decide_false; [done|]. intros ->. apply Ho. rewrite elem_of_live. constructor.
  - rewrite elem_of_live in *. intros Hin. apply Ho. by constructor.
Qed.

Lemma bound_null obs os it : bound (null obs os) it = bound os it.
Proof. unfold bound, null. by rewrite length_fmap. Qed.

Lemma rest_null obs os it : rest (null obs os) it = without obs (rest os it).
Proof.
  unfold rest. rewrite bound_null. unfold null at 1. rewrite <- fmap_drop, <- fmap_take.
  apply live_null.
Qed.

Lemma find_observer_some os obs i :
  find_observer os obs = Some i ->
  exists a b, os = a ++ Some obs :: b /\ length a = i /\ obs ∉ live a.
Proof.
  revert i. induction os as [|o os IH]; simpl; [done|]. intros i. case_bool_decide as Ho.
  - intros [= <-]. subst. exists [], os. repeat split. set_solver.
  - destruct (find_observer os obs) as [j|]; [|done]. intros [= <-].
    destruct (IH j eq_refl) as (a & b & -> & <- & Ha). exists (o :: a), b. repeat split.
    rewrite elem_of_live in *. intros Hin. inversion Hin; subst; [done|]. by apply Ha.
Qed.

Lemma find_observer_none os obs : find_observer os obs = None -> obs ∉ live os.
Proof.
  rewrite elem_of_live. induction os as [|o os IH]; simpl; [set_solver|].
  case_bool_decide as Ho; [done|]. destruct (find_observer os obs); [done|]. intros _.
  specialize (IH eq_refl). intros Hin. inversion Hin; subst; [done|]. by apply IH.
Qed.

Lemma NoDup_split a obs b :
  NoDup (live (a ++ Some obs :: b)) -> (obs ∉ live a) /\ (obs ∉ live b).
Proof.
  rewrite live_app. unfold live. simpl. rewrite NoDup_app, NoDup_cons.
  intros (_ & Hab & Hb & _). split; [|exact Hb]. intros Ha. apply (Hab obs Ha). constructor.
Qed.

(** The place of an observer is its only one. *)
Lemma insert_null os obs i :
  NoDup (live os) -> find_observer os obs = Some i -> <[i := None]> os = null obs os.
Proof.
  intros Hd (a & b & -> & <- & Ha)%find_observer_some.
  destruct (NoDup_split _ _ _ Hd) as [_ Hb]. rewrite insert_app_r_alt, Nat.sub_diag by lia.
  by rewrite null_app, null_same, (null_none _ a), (null_none _ b).
Qed.

Lemma erase_live os obs i :
  NoDup (live os) -> find_observer os obs = Some i -> live (erase os i) = without obs (live os).
Proof.
  intros Hd Hf. pose proof Hf as (a & b & -> & <- & Ha)%find_observer_some.
  destruct (NoDup_split _ _ _ Hd) as [_ Hb].
  rewrite <- live_null, null_app, null_same, (null_none _ a), (null_none _ b) by done.
  unfold erase. rewrite take_app_length.
  replace (S (length a)) with (length (a ++ [Some obs])) by (rewrite length_app; simpl; lia).
  replace (a ++ Some obs :: b) with ((a ++ [Some obs]) ++ b) by by rewrite <- app_assoc.
  by rewrite drop_app_length, !live_app.
Qed.

Lemma HasObserver_live l obs : HasObserver l obs = bool_decide (obs ∈ live (observers_ l)).
Proof.
  unfold HasObserver. apply eq_true_iff_eq. rewrite bool_decide_eq_true, elem_of_live, existsb_exists.
  setoid_rewrite bool_decide_eq_true. split.
  - intros (x & Hx & ->). by apply list_elem_of_In.
  - intros Ho. exists (Some obs). split; [by apply list_elem_of_In | done].
Qed.

Lemma Compact_live l : live (observers_ (Compact l)) = live (observers_ l).
Proof.
  simpl. induction (observers_ l) as [|[o|] os IH]; [done| |]; rewrite filter_cons.
  - rewrite decide_True by eauto. simpl. by f_equal.
  - rewrite decide_False; [done|]. by intros [? [=]].
Qed.

Lemma Compact_some l : Forall is_Some (observers_ (Compact l)).
Proof. apply Forall_forall. intros o. simpl. rewrite list_elem_of_filter. tauto. Qed.

(** The loop of [GetNext] stops at the next observer. *)
Lemma skip_null_rest os n i :
  i + n <= length os ->
  match live (take n (drop i os)) with
  | [] => skip_null os n i = i + n
  | o :: r =>
      let j := skip_null os n i in
      i <= j < i + n /\ os !! j = Some (Some o) /\ live (take (i + n - S j) (drop (S j) os)) = r
  end.
Proof.
  revert i. induction n as [|n IH]; intros i Hi; simpl; [lia|].
  destruct (lookup_lt_is_Some_2 os i) as [o Ho]; [lia|].
  rewrite (drop_S _ _ _ Ho). simpl. rewrite Ho. destruct o as [o|]; simpl.
  - split; [lia|]. split; [done|]. f_equal. f_equal. lia.
  - specialize (IH (S i) ltac:(lia)). unfold live in *.
    destruct (omap id (take n (drop (S i) os))) as [|o r] eqn:E; simpl in *; [lia|].
    destruct IH as (Hj & -> & Hr). split; [lia|]. split; [done|].
    rewrite <- Hr. do 2 f_equal. lia.
Qed.

(** ** The list and its iterators *)

(** The indices of an iterator are inside of the list. *)
Definition iterator_ok (type : NotificationType) (os : list (option Observer)) (it : Iterator)
    : Prop :=
  index_ it <= bound os it /\
  match max_index_ it with
  | None => type = NOTIFY_ALL
  | Some m => type = NOTIFY_EXISTING_ONLY /\ m <= length os
  end.

(** The state of the list between two steps, under [its]. *)
Record ListOk (type : NotificationType) (l : ObserverList) (its : list Iterator) : Prop := {
  ok_type : type_ l = type;
  ok_once : NoDup (live (observers_ l));
  ok_depth : notify_depth_ l = Z.of_nat (length its);
  ok_compact : its = [] -> Forall is_Some (observers_ l);
  ok_iterators : Forall (iterator_ok type (observers_ l)) its;
}.

(** The state and the specification. *)
Definition simulates (type : NotificationType) (s : State) (sp : Spec) : Prop :=
  match list_ s with
  | Some l =>
      ListOk type l (iterators s) /\ registered sp = Some (live (observers_ l)) /\
      pending sp = rest (observers_ l) <$> iterators s
  | None => registered sp = None /\ pending sp = (fun _ => []) <$> iterators s
  end.

Lemma bound_length os it : bound os it <= length os.
Proof. unfold bound. destruct (max_index_ it); lia. Qed.

(** One [GetNext] takes the first of the rest. *)
Lemma GetNext_rest type l it :
  iterator_ok type (observers_ l) it ->
  match GetNext (Some l) it, rest (observers_ l) it with
  | (Some obs, it'), o :: r =>
      obs = o /\ iterator_ok type (observers_ l) it' /\ rest (observers_ l) it' = r
  | (None, _), [] => True
  | _, _ => False
  end.
Proof.
  intros [Hi Hm]. pose proof (bound_length (observers_ l) it) as Hb.
  pose proof (skip_null_rest (observers_ l) (bound (observers_ l) it - index_ it) (index_ it)) as Hs.
  specialize (Hs ltac:(lia)). 
  change (rest (observers_ l) it)
    with (live (take (bound (observers_ l) it - index_ it) (drop (index_ it) (observers_ l)))).
  replace (index_ it + (bound (observers_ l) it - index_ it)) with (bound (observers_ l) it) in Hs by lia.
  unfold GetNext. fold (bound (observers_ l) it).
  destruct (live (take _ (drop (index_ it) (observers_ l)))) as [|o r].
  - rewrite Hs. by rewrite Nat.ltb_irrefl.
  - destruct Hs as (Hj & Ho & Hr). set (j := skip_null _ _ _) in *.
    rewrite (proj2 (Nat.ltb_lt _ _)) by lia. rewrite Ho. simpl. split; [done|].
    unfold iterator_ok, rest, bound in *. simpl in *. split; [|done]. split; [lia | done].
Qed.

Lemma delete_Iterator_ok type l it its :
  ListOk type l (it :: its) ->
  exists l', delete_Iterator (Some l) = Some l' /\ ListOk type l' its /\
    live (observers_ l') = live (observers_ l) /\
    (its <> [] -> observers_ l' = observers_ l).
Proof.
  intros [Ht Hd Hn Hc Hi]. rewrite Forall_cons in Hi. destruct Hi as [_ Hi].
  unfold delete_Iterator. simpl. rewrite Hn.
  replace (Z.of_nat (length (it :: its)) - 1)%Z with (Z.of_nat (length its)) by (simpl; lia).
  destruct its as [|it2 its].
  - change (Z.of_nat (length (@nil Iterator))) with 0%Z. rewrite Z.eqb_refl.
    eexists. split; [done|]. split; [|split; [by rewrite Compact_live|done]].
    split; [done | by rewrite Compact_live | done | intros _; apply Compact_some | constructor].
  - rewrite (proj2 (Z.eqb_neq _ _)) by (simpl; lia). eexists. split; [done|]. split; [|done].
    split; simpl; [done | done | done | done | done].
Qed.

(** A turn of [FOR_EACH_OBSERVER] is a turn of the specification. *)
Lemma turn_ok type l it its :
  ListOk type l (it :: its) ->
  exists s a sp, turn (Some l) it its = (s, a) /\
    spec_turn (Some (live (observers_ l))) (rest (observers_ l) it) (rest (observers_ l) <$> its)
      = (sp, a) /\
    simulates type s sp.
Proof.
  intros Hok. pose proof (ok_iterators _ _ _ Hok) as Hi. rewrite Forall_cons in Hi.
  destruct Hi as [Hit Hits]. pose proof (GetNext_rest type l it Hit) as Hn. unfold turn.
  destruct (GetNext (Some l) it) as [[obs|] it'], (rest (observers_ l) it) as [|o r]; try done.
  - destruct Hn as (-> & Hit' & <-). eexists _, _, _. split; [done|]. split; [done|].
    split; [|done]. destruct Hok as [Ht Hd Hdep Hc _]. split; simpl; try done. by constructor.
  - destruct (delete_Iterator_ok _ _ _ _ Hok) as (l' & Hl' & Hok' & Hlive & Hsame).
    eexists _, _, _. split; [by rewrite Hl'|]. split; [done|]. split; [done|]. simpl.
    rewrite Hlive. split; [done|]. destruct its as [|it2 its]; [done|]. by rewrite Hsame.
Qed.

(** Changes of the list that keep its places. *)
Lemma ListOk_null type l its obs :
  ListOk type l its -> its <> [] ->
  ListOk type (ObserverList_ (null obs (observers_ l)) (notify_depth_ l) (type_ l)) its.
Proof.
  intros [Ht Hd Hn Hc Hi] Hne. split; simpl; [done | | done | done |].
  - rewrite live_null. by apply NoDup_filter.
  - eapply Forall_impl; [exact Hi|]. intros it. unfold iterator_ok. rewrite bound_null.
    unfold null. by rewrite length_fmap.
Qed.

Lemma without_none obs l : obs ∉ l -> without obs l = l.
Proof.
  intros Ho. unfold without. induction l as [|o l IH]; [done|]. rewrite filter_cons.
  rewrite decide_True by set_solver. f_equal. apply IH. set_solver.
Qed.

Lemma RemoveObserver_ok type l its obs :
  ListOk type l its ->
  simulates type (State_ (Some (RemoveObserver l obs)) its)
    (Spec_ (Some (without obs (live (observers_ l)))) (without obs <$> (rest (observers_ l) <$> its))).
Proof.
  intros Hok. pose proof (ok_once _ _ _ Hok) as Hd. unfold RemoveObserver, simulates. simpl.
  assert (without obs <$> (rest (observers_ l) <$> its) = rest (null obs (observers_ l)) <$> its) as ->.
  { rewrite <- list_fmap_compose. apply list_fmap_ext. intros i it _. simpl. by rewrite rest_null. }
  destruct (find_observer (observers_ l) obs) as [i|] eqn:Hf.
  - pose proof (ok_depth _ _ _ Hok) as Hn. destruct its as [|it its].
    + rewrite Hn. simpl. rewrite (erase_live _ _ _ Hd Hf). split; [|done].
      destruct Hok as [Ht _ Hn' Hc _]. split; simpl; [done | | done | | done].
      * rewrite (erase_live _ _ _ Hd Hf). by apply NoDup_filter.
      * intros _. apply Forall_app_2; [by apply Forall_take, Hc | by apply Forall_drop, Hc].
    + rewrite (proj2 (Z.eqb_neq _ _)) by (rewrite Hn; simpl; lia). simpl.
      rewrite (insert_null _ _ _ Hd Hf), live_null. split; [|done]. by apply ListOk_null.
  - apply find_observer_none in Hf. rewrite null_none, without_none; done.
Qed.

(** A place at the end is in the reach of the iterators that go to the end. *)
Lemma rest_add type os it obs :
  iterator_ok type os it ->
  iterator_ok type (os ++ [Some obs]) it /\
  rest (os ++ [Some obs]) it =
    match type with NOTIFY_ALL => rest os it ++ [obs] | NOTIFY_EXISTING_ONLY => rest os it end.
Proof.
  unfold iterator_ok, rest, bound. destruct (max_index_ it) as [m|].
  - intros [Hi [-> Hm]]. rewrite length_app. simpl. rewrite !Nat.min_l in * by lia.
    split; [split; [done | split; [done | lia]]|]. f_equal. rewrite drop_app_le by lia.
    rewrite take_app_le; [done|]. rewrite length_drop. lia.
  - intros [Hi ->]. rewrite length_app. simpl. split; [split; [lia|done]|].
    rewrite drop_app_le by lia. rewrite !take_ge by (rewrite ?length_app, ?length_drop; simpl; lia).
    by rewrite live_app.
Qed.

Lemma AddObserver_ok type l its obs :
  ListOk type l its -> obs ∉ live (observers_ l) ->
  AddObserver l obs
    = (true, ObserverList_ (observers_ l ++ [Some obs]) (notify_depth_ l) (type_ l)) /\
  simulates type
    (State_ (Some (ObserverList_ (observers_ l ++ [Some obs]) (notify_depth_ l) (type_ l))) its)
    (Spec_ (Some (live (observers_ l) ++ [obs]))
       (match type with
        | NOTIFY_ALL => (fun r => r ++ [obs]) <$> (rest (observers_ l) <$> its)
        | NOTIFY_EXISTING_ONLY => rest (observers_ l) <$> its
        end)).
Proof.
  intros [Ht Hd Hn Hc Hi] Ho. unfold AddObserver.
  destruct (find_observer (observers_ l) obs) as [i|] eqn:Hf.
  { apply find_observer_some in Hf as (a & b & E & _). exfalso. apply Ho.
    rewrite E, live_app, elem_of_app. right. simpl. constructor. }
  split; [done|]. unfold simulates. simpl. rewrite live_app. simpl. split; [|split; [done|]].
  - split; simpl; [done | | done | |].
    + rewrite live_app. apply NoDup_app. split; [done|]. simpl.
      split; [set_solver|]. constructor; [set_solver | constructor].
    + intros E. apply Forall_app_2; [by apply Hc|]. repeat constructor. eauto.
    + eapply Forall_impl; [exact Hi|]. intros it Hit. by apply rest_add.
  - rewrite <- list_fmap_compose.
    assert (forall it, it ∈ its -> rest (observers_ l ++ [Some obs]) it =
      match type with
      | NOTIFY_ALL => rest (observers_ l) it ++ [obs]
      | NOTIFY_EXISTING_ONLY => rest (observers_ l) it
      end) as Hr.
    { intros it Hit. rewrite Forall_forall in Hi. by apply rest_add, Hi. }
    destruct type; apply list_fmap_ext; intros i it Hit; simpl;
      rewrite Hr; eauto using list_elem_of_lookup_2.
Qed.

Lemma live_nulls {A} (l : list A) : live ((fun _ => None) <$> l) = [].
Proof. by induction l. Qed.

Lemma Clear_ok type l its :
  ListOk type l its ->
  simulates type (State_ (Some (Clear l)) its) (Spec_ (Some []) ((fun _ => []) <$> its)).
Proof.
  intros [Ht Hd Hn Hc Hi]. unfold simulates, Clear. simpl. rewrite Hn. destruct its as [|it its].
  - simpl. split; [|done]. split; simpl; [done | constructor | done | constructor | constructor].
  - rewrite (proj2 (Z.eqb_neq _ _)) by (simpl; lia).
    change (negb false) with true. cbv iota. rewrite live_nulls.
    split; [|split; [done|]].
    + split; [done | simpl; rewrite live_nulls; constructor | done | done |].
      eapply Forall_impl; [exact Hi|]. intros x. unfold iterator_ok, bound. simpl.
      by rewrite length_fmap.
    + apply list_fmap_ext. intros i x _. unfold rest. by rewrite <- fmap_drop, <- fmap_take, live_nulls.
Qed.

Lemma new_Iterator_ok type l its :
  ListOk type l its ->
  exists it l', new_Iterator l = (it, l') /\ ListOk type l' (it :: its) /\
    observers_ l' = observers_ l /\ rest (observers_ l) it = live (observers_ l).
Proof.
  intros [Ht Hd Hn Hc Hi]. unfold new_Iterator. rewrite Ht. eexists _, _. split; [done|].
  split; [|split; [done|]].
  - split; simpl; [done | done | lia | done |]. constructor; [|done].
    unfold iterator_ok, bound. simpl. split; [lia|]. destruct type; simpl; [done|].
    split; [done | lia].
  - unfold rest, bound. simpl. rewrite drop_0.
    destruct type; simpl; rewrite take_ge; (done || lia).
Qed.

(** One event: both sides allow it and answer the same. *)
Lemma step_simulated type s sp e :
  simulates type s sp ->
  match step s e, spec_step type sp e with
  | Some (s', a), Some (sp', b) => a = b /\ simulates type s' sp'
  | None, None => True
  | _, _ => False
  end.
Proof.
  destruct s as [[l|] its], sp as [reg pend]; unfold simulates; simpl.
  2: { unfold turn. intros [-> ->]. destruct e; try done. by destruct its as [|it its]. }
  intros (Hok & [= ->] & [= ->]). destruct e;
    cbn -[turn new_Iterator spec_turn live might_have_observers].
  - destruct (might_have_observers l) eqn:Hm; unfold might_have_observers in Hm.
    2: { destruct (observers_ l) eqn:E; [|done]. split; [done|]. simpl. by rewrite E. }
    { destruct (new_Iterator_ok _ _ _ Hok) as (it & l' & Hit & Hok' & Hobs & Hrest). rewrite Hit.
      destruct (turn_ok _ _ _ _ Hok') as (s' & a & sp' & -> & Hsp & Hs').
      rewrite Hobs, Hrest in Hsp. by rewrite Hsp. }
  - destruct its as [|it its]; [done|]. rewrite fmap_cons.
    by destruct (turn_ok _ _ _ _ Hok) as (s' & a & sp' & -> & -> & Hs').
  - case_bool_decide as Ho.
    + unfold AddObserver. destruct (find_observer (observers_ l) obs) eqn:Hf; [done|].
      by apply find_observer_none in Hf.
    + by destruct (AddObserver_ok _ _ _ _ Hok Ho) as [-> Hs].
  - split; [done|]. by apply RemoveObserver_ok.
  - split; [|done]. by rewrite HasObserver_live.
  - split; [done|]. rewrite <- list_fmap_compose. by apply Clear_ok.
  - split; [done|]. split; [done|]. by rewrite <- list_fmap_compose.
Qed.

Lemma answers_simulated type es s sp :
  simulates type s sp -> answers s es = spec_answers type sp es.
Proof.
  revert s sp. induction es as [|e es IH]; intros s sp Hs; simpl; [done|].
  pose proof (step_simulated type s sp e Hs) as Hstep.
  destruct (step s e) as [[s' a]|], (spec_step type sp e) as [[sp' b]|]; try done.
  destruct Hstep as [-> Hs']. f_equal. by apply IH.
Qed.

(** C21: Observer lists do what their comments promise, however observers add,
    remove, clear, notify and destroy the list while they are called, at any
    depth of notifications. Every call that is made and every query is the one
    the specification gives, which knows neither places nor indices: observers
    are called in the order of their registration; one that is removed is not
    called any more, in any notification in progress, and is called again only
    when it registers again; one that registers during a notification is called
    by it exactly under [NOTIFY_ALL]; no observer is in the list twice; and a
    notification whose list is gone ends without touching it. *)
Theorem observer_list_refines_registrations type es :
  answers (new_State type) es = spec_answers type new_Spec es.
Proof.
  apply answers_simulated. unfold simulates. simpl. split; [|done].
  split; simpl; [done | constructor | done | constructor | constructor].
Qed.
