(* ===== verification/Values.v ===== *)
(** * The value tree

    [base/values.h] and [base/values.cc]: the tree of null, boolean, integer,
    double, string, binary, list and dictionary values that the JSON reader
    produces and the JSON writer prints, and the [JSONStringValue] of
    [base/json/json_parser.cc], a string that is a piece of the text it was
    parsed from.

    A tree owns its children, so an operation on a node is a function of the
    node. The text a string piece points into is owned by somebody else: a
    [Store] holds the texts that are still alive, and an operation that reads a
    piece of a text that is gone has the result [None]. A dictionary is a
    [std::map], kept as the list of its entries in key order. *)
From Stdlib Require Import ZArith Lia SpecFloat Sorted.
From stdpp Require Import base numbers option gmap sorting list.
From S2P Require Import Prelude Unicode.
Local Open Scope Z_scope.

(** ** Data *)

(** A [double] is an IEEE 754 binary64 datum. *)
Definition double : Type := spec_float.

Definition IsFinite (d : double) : bool :=
  match d with S754_zero _ | S754_finite _ _ _ => true | _ => false end.

Definition double_of_int (z : Z) : double := binary_normalize 53 1024 z 0 false.

(** A [StringPiece]: [length_] bytes of the text [buffer], from [ptr_] on. *)
Record StringPiece := StringPiece_ { buffer : N; ptr_ : Z; length_ : Z }.

#[export] Instance StringPiece_eq_dec : EqDecision StringPiece.
Proof. solve_decision. Defined.

#[local] Unset Elimination Schemes.
Inductive Value :=
| NullValue
| BooleanValue (boolean_value_ : bool)
| IntegerValue (integer_value_ : Z)
| DoubleValue (double_value_ : double)
| StringValue (value_ : list Z)
| JSONStringValue (string_piece_ : StringPiece)
| BinaryValue (buffer_ : list Z)
| DictionaryValue (dictionary_ : list (list Z * Value))
| ListValue (list_ : list Value).
#[local] Set Elimination Schemes.

Definition ValueMap : Type := list (list Z * Value).

Inductive Type_ :=
| TYPE_NULL | TYPE_BOOLEAN | TYPE_INTEGER | TYPE_DOUBLE | TYPE_STRING | TYPE_BINARY
| TYPE_DICTIONARY | TYPE_LIST.

#[export] Instance Type_eq_dec : EqDecision Type_.
Proof. solve_decision. Defined.

Definition GetType (v : Value) : Type_ :=
  match v with
  | NullValue => TYPE_NULL
  | BooleanValue _ => TYPE_BOOLEAN
  | IntegerValue _ => TYPE_INTEGER
  | DoubleValue _ => TYPE_DOUBLE
  | StringValue _ | JSONStringValue _ => TYPE_STRING
  | BinaryValue _ => TYPE_BINARY
  | DictionaryValue _ => TYPE_DICTIONARY
  | ListValue _ => TYPE_LIST
  end.

Definition IsType (t : Type_) (v : Value) : bool := bool_decide (t = GetType v).

(** The constructor of a double value replaces what is not finite. *)
Definition FundamentalValue_double (in_value : double) : Value :=
  DoubleValue (if IsFinite in_value then in_value else S754_zero false).

(** ** Texts that are alive *)

Definition Store : Type := gmap N (list Z).

(** The bytes of a piece. *)
Definition piece_bytes (st : Store) (p : StringPiece) : option (list Z) :=
  text ← st !! buffer p;
  guard (0 <= ptr_ p /\ 0 <= length_ p /\ ptr_ p + length_ p <= Z.of_nat (length text));;
  Some (take (Z.to_nat (length_ p)) (drop (Z.to_nat (ptr_ p)) text)).

(** ** Reading a value *)

Definition GetAsBoolean (v : Value) : option bool :=
  match v with BooleanValue b => Some b | _ => None end.

Definition GetAsInteger (v : Value) : option Z :=
  match v with IntegerValue z => Some z | _ => None end.

Definition GetAsDouble (v : Value) : option double :=
  match v with
  | DoubleValue d => Some d
  | IntegerValue z => Some (double_of_int z)
  | _ => None
  end.

Definition GetAsString (st : Store) (v : Value) : option (option (list Z)) :=
  match v with
  | StringValue s => Some (Some s)
  | JSONStringValue p => Some <$> piece_bytes st p
  | _ => Some None
  end.

Definition GetAsBinary (v : Value) : option (list Z) :=
  match v with BinaryValue b => Some b | _ => None end.

Definition GetAsDictionary (v : Value) : option ValueMap :=
  match v with DictionaryValue d => Some d | _ => None end.

Definition GetAsList (v : Value) : option (list Value) :=
  match v with ListValue l => Some l | _ => None end.

(** ** [std::map<std::string, Value*>] *)

(** Strings are ordered byte by byte, as unsigned characters. *)
Fixpoint key_lt (a b : list Z) : bool :=
  match a, b with
  | _, [] => false
  | [], _ :: _ => true
  | x :: a, y :: b => (x <? y) || ((x =? y) && key_lt a b)
  end.

Fixpoint map_find (d : ValueMap) (key : list Z) : option Value :=
  match d with
  | [] => None
  | (k, v) :: d => if bool_decide (k = key) then Some v else map_find d key
  end.

(** The entry that [insert] adds, or whose value the caller replaces. *)
Fixpoint map_set (d : ValueMap) (key : list Z) (v : Value) : ValueMap :=
  match d with
  | [] => [(key, v)]
  | (k, w) :: d' =>
      if bool_decide (k = key) then (key, v) :: d'
      else if key_lt key k then (key, v) :: d
      else (k, w) :: map_set d' key v
  end.

Fixpoint map_erase (d : ValueMap) (key : list Z) : ValueMap :=
  match d with
  | [] => []
  | (k, w) :: d' => if bool_decide (k = key) then d' else (k, w) :: map_erase d' key
  end.

(** ** Dictionaries, by key *)

Definition HasKey (d : ValueMap) (key : list Z) : bool :=
  match map_find d key with Some _ => true | None => false end.

Definition SetWithoutPathExpansion (d : ValueMap) (key : list Z) (in_value : Value) : ValueMap :=
  map_set d key in_value.

Definition GetWithoutPathExpansion (d : ValueMap) (key : list Z) : option Value := map_find d key.

Definition GetDictionaryWithoutPathExpansion (d : ValueMap) (key : list Z) : option ValueMap :=
  match GetWithoutPathExpansion d key with
  | Some (DictionaryValue child) => Some child
  | _ => None
  end.

Definition GetListWithoutPathExpansion (d : ValueMap) (key : list Z) : option (list Value) :=
  match GetWithoutPathExpansion d key with
  | Some (ListValue child) => Some child
  | _ => None
  end.

(** The removed value and what is left of the dictionary. *)
Definition RemoveWithoutPathExpansion (d : ValueMap) (key : list Z) : option (Value * ValueMap) :=
  match map_find d key with
  | Some entry => Some (entry, map_erase d key)
  | None => None
  end.

(** ** Dictionaries, by path *)

Definition chr_dot : Z := 46.

(** [find('.')] and [rfind('.')] *)
Fixpoint find_dot (path : list Z) : option nat :=
  match path with
  | [] => None
  | c :: path => if c =? chr_dot then Some O else S <$> find_dot path
  end.

Fixpoint rfind_dot (path : list Z) : option nat :=
  match path with
  | [] => None
  | c :: path => match rfind_dot path with
                 | Some n => Some (S n)
                 | None => if c =? chr_dot then Some O else None
                 end
  end.

(** The loop of [Get]: every turn takes a delimiter away, so that the length of
    the path bounds their number. *)
Fixpoint Get_loop (fuel : nat) (current_dictionary : ValueMap) (current_path : list Z)
    : option Value :=
  match fuel with
  | O => None
  | S fuel =>
      match find_dot current_path with
      | None => GetWithoutPathExpansion current_dictionary current_path
      | Some delimiter_position =>
          child_dictionary ←
            match Get_loop fuel current_dictionary (take delimiter_position current_path) with
            | Some (DictionaryValue child) => Some child
            | _ => None
            end;
          Get_loop fuel child_dictionary (drop (S delimiter_position) current_path)
      end
  end.

Definition Get (d : ValueMap) (path : list Z) : option Value :=
  Get_loop (S (length path)) d path.

Definition GetDictionary (d : ValueMap) (path : list Z) : option ValueMap :=
  match Get d path with Some (DictionaryValue child) => Some child | _ => None end.

Definition GetList (d : ValueMap) (path : list Z) : option (list Value) :=
  match Get d path with Some (ListValue child) => Some child | _ => None end.

Definition GetBinary (d : ValueMap) (path : list Z) : option (list Z) :=
  match Get d path with Some (BinaryValue b) => Some b | _ => None end.

Definition GetBoolean (d : ValueMap) (path : list Z) : option bool := Get d path ≫= GetAsBoolean.
Definition GetInteger (d : ValueMap) (path : list Z) : option Z := Get d path ≫= GetAsInteger.
Definition GetDouble (d : ValueMap) (path : list Z) : option double := Get d path ≫= GetAsDouble.

Definition GetString (st : Store) (d : ValueMap) (path : list Z) : option (option (list Z)) :=
  match Get d path with Some v => GetAsString st v | None => Some None end.

(** [Set] goes down the dictionaries of the path, making those that are missing
    and replacing what is not a dictionary; the changed child takes its place
    in its parent. *)
Fixpoint Set_loop (fuel : nat) (current_dictionary : ValueMap) (current_path : list Z)
    (in_value : Value) : ValueMap :=
  match fuel with
  | O => current_dictionary
  | S fuel =>
      match find_dot current_path with
      | None => SetWithoutPathExpansion current_dictionary current_path in_value
      | Some delimiter_position =>
          let key := take delimiter_position current_path in
          let child_dictionary := default [] (GetDictionary current_dictionary key) in
          SetWithoutPathExpansion current_dictionary key
            (DictionaryValue
               (Set_loop fuel child_dictionary (drop (S delimiter_position) current_path) in_value))
      end
  end.

Definition Set_ (d : ValueMap) (path : list Z) (in_value : Value) : ValueMap :=
  Set_loop (S (length path)) d path in_value.

Definition SetBoolean (d : ValueMap) (path : list Z) (in_value : bool) : ValueMap :=
  Set_ d path (BooleanValue in_value).
Definition SetInteger (d : ValueMap) (path : list Z) (in_value : Z) : ValueMap :=
  Set_ d path (IntegerValue in_value).
Definition SetDouble (d : ValueMap) (path : list Z) (in_value : double) : ValueMap :=
  Set_ d path (FundamentalValue_double in_value).
Definition SetString (d : ValueMap) (path : list Z) (in_value : list Z) : ValueMap :=
  Set_ d path (StringValue in_value).

(** An operation on the dictionary that [GetDictionary(path, &dict)] points to:
    the dictionary is changed where it is. *)
Fixpoint at_path {A} (fuel : nat) (d : ValueMap) (path : list Z) (f : ValueMap -> A * ValueMap)
    : option (A * ValueMap) :=
  match fuel with
  | O => None
  | S fuel =>
      let at_key d key f :=
        child ← GetDictionaryWithoutPathExpansion d key;
        let '(a, child') := f child in
        Some (a, SetWithoutPathExpansion d key (DictionaryValue child')) in
      match find_dot path with
      | None => at_key d path f
      | Some n =>
          child ← GetDictionaryWithoutPathExpansion d (take n path);
          '(a, child') ← at_path fuel child (drop (S n) path) f;
          Some (a, SetWithoutPathExpansion d (take n path) (DictionaryValue child'))
      end
  end.

Definition Remove (d : ValueMap) (path : list Z) : option (Value * ValueMap) :=
  let here d key :=
    match RemoveWithoutPathExpansion d key with
    | Some (out_value, d) => (Some out_value, d)
    | None => (None, d)
    end in
  match
    match rfind_dot path with
    | Some delimiter_position =>
        at_path (S (length path)) d (take delimiter_position path)
          (fun current_dictionary => here current_dictionary (drop (S delimiter_position) path))
    | None => Some (here d path)
    end
  with
  | Some (Some out_value, d) => Some (out_value, d)
  | _ => None
  end.

(** [RemovePath] also removes the dictionaries of the path it leaves empty. *)
Fixpoint RemovePath_ (fuel : nat) (d : ValueMap) (path : list Z) : option (Value * ValueMap) :=
  match fuel with
  | O => None
  | S fuel =>
      match find_dot path with
      | None => RemoveWithoutPathExpansion d path
      | Some delimiter_position =>
          let subdict_path := take delimiter_position path in
          subdict ← GetDictionary d subdict_path;
          '(out_value, subdict) ← RemovePath_ fuel subdict (drop (S delimiter_position) path);
          let d := SetWithoutPathExpansion d subdict_path (DictionaryValue subdict) in
          match subdict with
          | [] => match RemoveWithoutPathExpansion d subdict_path with
                  | Some (_, d) => Some (out_value, d)
                  | None => Some (out_value, d)
                  end
          | _ => Some (out_value, d)
          end
      end
  end.

Definition RemovePath (d : ValueMap) (path : list Z) : option (Value * ValueMap) :=
  RemovePath_ (S (length path)) d path.

(** ** Whole trees *)

(** [DeepCopy] turns the pieces into strings of their own. *)
Fixpoint DeepCopy (st : Store) (v : Value) : option Value :=
  match v with
  | JSONStringValue p => StringValue <$> piece_bytes st p
  | DictionaryValue d =>
      (fix copy_entries (d result : ValueMap) : option Value :=
         match d with
         | [] => Some (DictionaryValue result)
         | (key, entry) :: d =>
             copy ← DeepCopy st entry;
             copy_entries d (SetWithoutPathExpansion result key copy)
         end) d []
  | ListValue l => ListValue <$> mapM (DeepCopy st) l
  | _ => Some v
  end.

(** Two strings, booleans, integers, doubles or buffers of the same type;
    containers are compared by [Equals]. *)
Definition leaf_equals (st : Store) (v w : Value) : option bool :=
  match v, w with
  | BooleanValue a, BooleanValue b => Some (eqb a b)
  | IntegerValue a, IntegerValue b => Some (a =? b)
  | DoubleValue a, DoubleValue b => Some (SFeqb a b)
  | BinaryValue a, BinaryValue b => Some (bool_decide (a = b))
  | NullValue, NullValue => Some true
  | _, _ =>
      lhs ← GetAsString st v;
      rhs ← GetAsString st w;
      match lhs, rhs with
      | Some lhs, Some rhs => Some (bool_decide (lhs = rhs))
      | _, _ => Some false
      end
  end.

Fixpoint Equals (st : Store) (v w : Value) : option bool :=
  if negb (IsType (GetType v) w) then Some false
  else match v, w with
       | DictionaryValue d, DictionaryValue e =>
           (fix entries (d e : ValueMap) : option bool :=
              match d, e with
              | [], [] => Some true
              | (k, v) :: d, (l, w) :: e =>
                  if negb (bool_decide (k = l)) then Some false
                  else same ← Equals st v w;
                       match same : bool with true => entries d e | false => Some false end
              | _, _ => Some false
              end) d e
       | ListValue l, ListValue m =>
           (fix items (l m : list Value) : option bool :=
              match l, m with
              | [], [] => Some true
              | v :: l, w :: m =>
                  same ← Equals st v w;
                  match same : bool with true => items l m | false => Some false end
              | _, _ => Some false
              end) l m
       | _, _ => leaf_equals st v w
       end.

(** [None] is a null pointer: a container without content is not copied. *)
Fixpoint CopyWithoutEmptyChildren (st : Store) (node : Value) : option (option Value) :=
  match node with
  | ListValue l =>
      (fix items (l copy : list Value) : option (option Value) :=
         match l with
         | [] => Some (match copy with [] => None | _ => Some (ListValue copy) end)
         | v :: l =>
             child_copy ← CopyWithoutEmptyChildren st v;
             items l (match child_copy with Some c => copy ++ [c] | None => copy end)
         end) l []
  | DictionaryValue d =>
      (fix entries (d copy : ValueMap) : option (option Value) :=
         match d with
         | [] => Some (match copy with [] => None | _ => Some (DictionaryValue copy) end)
         | (key, v) :: d =>
             child_copy ← CopyWithoutEmptyChildren st v;
             entries d (match child_copy with
                        | Some c => SetWithoutPathExpansion copy key c
                        | None => copy
                        end)
         end) d []
  | _ => Some <$> DeepCopy st node
  end.

Definition DeepCopyWithoutEmptyChildren (st : Store) (d : ValueMap) : option ValueMap :=
  copy ← CopyWithoutEmptyChildren st (DictionaryValue d);
  Some (match copy with Some (DictionaryValue c) => c | _ => [] end).

(** [MergeDictionary] goes through the entries of its argument, here the value
    [source], and updates the dictionary [d]. *)
Fixpoint merge_from (st : Store) (source : Value) (d : ValueMap) : option ValueMap :=
  match source with
  | DictionaryValue dictionary =>
      (fix entries (dictionary d : ValueMap) : option ValueMap :=
         match dictionary with
         | [] => Some d
         | (key, merge_value) :: dictionary =>
             d ← match (if IsType TYPE_DICTIONARY merge_value
                        then GetDictionaryWithoutPathExpansion d key else None) with
                 | Some sub_dict =>
                     sub_dict ← merge_from st merge_value sub_dict;
                     Some (SetWithoutPathExpansion d key (DictionaryValue sub_dict))
                 | None =>
                     copy ← DeepCopy st merge_value;
                     Some (SetWithoutPathExpansion d key copy)
                 end;
             entries dictionary d
         end) dictionary d
  | _ => Some d
  end.

Definition MergeDictionary (st : Store) (d dictionary : ValueMap) : option ValueMap :=
  merge_from st (DictionaryValue dictionary) d.

(** ** Lists *)

Definition Append (l : list Value) (in_value : Value) : list Value := l ++ [in_value].

(** [Set] pads with nulls; [in_value] is [None] for a null pointer. *)
Definition List_Set (l : list Value) (index : nat) (in_value : option Value) : bool * list Value :=
  match in_value with
  | None => (false, l)
  | Some v =>
      (true,
       if (length l <=? index)%nat
       then Append (l ++ replicate (index - length l) NullValue) v
       else <[index := v]> l)
  end.

Definition List_Get (l : list Value) (index : nat) : option Value :=
  if (length l <=? index)%nat then None else l !! index.

Definition erase_at (l : list Value) (index : nat) : list Value :=
  take index l ++ drop (S index) l.

Definition List_Remove (l : list Value) (index : nat) : option (Value * list Value) :=
  v ← List_Get l index; Some (v, erase_at l index).

(** The index of the first value equal to [value]: the value of the list is the
    one asked, which matters for the pieces only. *)
Fixpoint find_equal (equals : Value -> option bool) (l : list Value) : option (option nat) :=
  match l with
  | [] => Some None
  | v :: l =>
      same ← equals v;
      match same : bool with
      | true => Some (Some O)
      | false => option_map (option_map S) (find_equal equals l)
      end
  end.

Definition List_RemoveValue (st : Store) (l : list Value) (value : Value)
    : option (option (nat * list Value)) :=
  found ← find_equal (fun v => Equals st v value) l;
  Some (match found with Some i => Some (i, erase_at l i) | None => None end).

Definition AppendIfNotPresent (st : Store) (l : list Value) (in_value : Value)
    : option (bool * list Value) :=
  found ← find_equal (fun v => Equals st v in_value) l;
  Some (match found with Some _ => (false, l) | None => (true, Append l in_value) end).

Definition List_Insert (l : list Value) (index : nat) (in_value : Value) : bool * list Value :=
  if (length l <? index)%nat then (false, l)
  else (true, take index l ++ in_value :: drop index l).

Definition List_Find (st : Store) (l : list Value) (value : Value) : option (option nat) :=
  find_equal (fun v => Equals st value v) l.

(** * Lemmas *)

(** The induction principle that goes into the containers. *)
Lemma Value_ind (P : Value -> Prop) :
  P NullValue -> (forall b, P (BooleanValue b)) -> (forall z, P (IntegerValue z)) ->
  (forall d, P (DoubleValue d)) -> (forall s, P (StringValue s)) ->
  (forall p, P (JSONStringValue p)) -> (forall b, P (BinaryValue b)) ->
  (forall d, Forall (fun e => P e.2) d -> P (DictionaryValue d)) ->
  (forall l, Forall P l -> P (ListValue l)) -> forall v, P v.
Proof.
  intros Hn Hb Hz Hd Hs Hp Hbin Hdict Hlist.
  refine (fix IH v := match v return P v with
    | NullValue => Hn | BooleanValue b => Hb b | IntegerValue z => Hz z
    | DoubleValue d => Hd d | StringValue s => Hs s | JSONStringValue p => Hp p
    | BinaryValue b => Hbin b
    | DictionaryValue d => Hdict d _
    | ListValue l => Hlist l _
    end).
  - induction d as [|[k w] d IHd]; constructor; [exact (IH w) | exact IHd].
  - induction l as [|w l IHl]; constructor; [exact (IH w) | exact IHl].
Qed.

(** ** The order of keys *)

Lemma key_lt_irrefl a : key_lt a a = false.
Proof. induction a as [|x a IH]; simpl; [done|]. by rewrite Z.ltb_irrefl, Z.eqb_refl, IH. Qed.

Lemma key_lt_trans a b c : key_lt a b = true -> key_lt b c = true -> key_lt a c = true.
Proof.
  revert b c. induction a as [|x a IH]; intros [|y b] [|z c]; simpl; try done.
  rewrite !orb_true_iff, !andb_true_iff, !Z.ltb_lt, !Z.eqb_eq.
  intros [H|[-> H]] [H'|[-> H']]; [left; lia | left; lia | left; lia |].
  right. split; [done|]. by apply (IH b).
Qed.

Lemma key_lt_total a b : key_lt a b = false -> a <> b -> key_lt b a = true.
Proof.
  revert b. induction a as [|x a IH]; intros [|y b]; simpl; try done.
  rewrite orb_false_iff, andb_false_iff, orb_true_iff, andb_true_iff, Z.ltb_ge, Z.ltb_lt,
    Z.eqb_eq, Z.eqb_neq.
  intros [H1 H2] Hne. destruct (Z.eq_dec x y) as [-> | Hxy]; [|left; lia].
  right. split; [done|]. apply IH; [by destruct H2|]. by intros ->.
Qed.

(** The number of containers around the deepest value. *)
Fixpoint nesting (v : Value) : nat :=
  match v with
  | DictionaryValue d => S (foldr (fun e n => Nat.max (nesting e.2) n) O d)
  | ListValue l => S (foldr (fun w n => Nat.max (nesting w) n) O l)
  | _ => O
  end.

(** ** Maps *)

Definition sorted (d : ValueMap) : Prop :=
  StronglySorted (fun a b => key_lt a b = true) (map fst d).

Lemma find_set_eq d k v : map_find (map_set d k v) k = Some v.
Proof.
  induction d as [|[l w] d IH]; simpl; [by rewrite bool_decide_true|].
  case_bool_decide; simpl; [by rewrite bool_decide_true|].
  destruct (key_lt k l); simpl; [by rewrite bool_decide_true|].
  by rewrite bool_decide_false.
Qed.

Lemma find_set_ne d k v l : k <> l -> map_find (map_set d k v) l = map_find d l.
Proof.
  intros Hne. induction d as [|[m w] d IH]; simpl; [by rewrite bool_decide_false|].
  case_bool_decide as E; simpl.
  { subst. by rewrite !bool_decide_false by done. }
  destruct (key_lt k m); simpl; [by rewrite bool_decide_false by done|].
  by rewrite IH.
Qed.

Lemma set_keys_elem d k v l : In l (map fst (map_set d k v)) -> l = k \/ In l (map fst d).
Proof.
  induction d as [|[m w] d IH]; simpl; [naive_solver|].
  case_bool_decide; simpl; [naive_solver|]. destruct (key_lt k m); simpl; naive_solver.
Qed.

Lemma sorted_cons k v d :
  sorted ((k, v) :: d) <-> sorted d /\ (forall l, In l (map fst d) -> key_lt k l = true).
Proof.
  unfold sorted. simpl. split.
  - intros [Hs Hf]%StronglySorted_inv. split; [done|]. by apply List.Forall_forall.
  - intros [Hs Hf]. constructor; [done|]. by apply List.Forall_forall.
Qed.

Lemma sorted_set d k v : sorted d -> sorted (map_set d k v).
Proof.
  induction d as [|[m w] d IH]; simpl; [intros _; repeat constructor|].
  intros Hs. pose proof Hs as [Hd Hm]%sorted_cons. case_bool_decide as E; [by subst; apply sorted_cons|].
  destruct (key_lt k m) eqn:Hk; apply sorted_cons.
  - split; [done|]. simpl. intros l [<- | Hl]; [done|]. eapply key_lt_trans; [done|]. by apply Hm.
  - split; [by apply IH|]. intros l [-> | Hl]%set_keys_elem; [|by apply Hm].
    by apply key_lt_total; [|congruence].
Qed.

Lemma find_None d k : map_find d k = None <-> ~ In k (map fst d).
Proof.
  induction d as [|[m w] d IH]; simpl; [naive_solver|]. case_bool_decide; naive_solver.
Qed.

Lemma find_Some_elem d k v : map_find d k = Some v -> In (k, v) d.
Proof.
  induction d as [|[m w] d IH]; simpl; [done|]. case_bool_decide; [|auto].
  intros [= ->]. left. by subst.
Qed.

Lemma find_below d k : sorted d -> (forall l, In l (map fst d) -> key_lt k l = true) -> map_find d k = None.
Proof. intros _ H. apply find_None. intros Hin%H. by rewrite key_lt_irrefl in Hin. Qed.

Lemma erase_keys_elem d k l : In l (map fst (map_erase d k)) -> In l (map fst d).
Proof.
  induction d as [|[m w] d IH]; simpl; [done|]. case_bool_decide; simpl; naive_solver.
Qed.

Lemma sorted_erase d k : sorted d -> sorted (map_erase d k).
Proof.
  induction d as [|[m w] d IH]; simpl; [done|]. intros [Hd Hm]%sorted_cons.
  case_bool_decide; [done|]. apply sorted_cons. split; [by apply IH|].
  intros l Hl%erase_keys_elem. by apply Hm.
Qed.

Lemma find_erase_eq d k : sorted d -> map_find (map_erase d k) k = None.
Proof.
  induction d as [|[m w] d IH]; simpl; [done|]. intros [Hd Hm]%sorted_cons.
  case_bool_decide as E; simpl; [subst; by apply find_below|].
  rewrite bool_decide_false by done. by apply IH.
Qed.

Lemma find_erase_ne d k l : k <> l -> map_find (map_erase d k) l = map_find d l.
Proof.
  intros Hne. induction d as [|[m w] d IH]; simpl; [done|].
  case_bool_decide as E; simpl; [subst; by rewrite bool_decide_false|]. by rewrite IH.
Qed.

(** A sorted map is its lookups. *)
Lemma map_ext d e : sorted d -> sorted e -> (forall k, map_find d k = map_find e k) -> d = e.
Proof.
  revert e. induction d as [|[k v] d IH]; intros [|[l w] e] Hd He H.
  - done.
  - specialize (H l). simpl in H. by rewrite bool_decide_true in H.
  - specialize (H k). simpl in H. by rewrite bool_decide_true in H.
  - apply sorted_cons in Hd as [Hd Hk], He as [He Hl].
    assert (k = l) as <-.
    { destruct (decide (k = l)) as [|Hne]; [done|]. exfalso.
      pose proof (H k) as H1. pose proof (H l) as H2. simpl in H1, H2.
      rewrite bool_decide_true, bool_decide_false in H1 by done.
      rewrite bool_decide_false, bool_decide_true in H2 by done.
      symmetry in H1. apply find_Some_elem in H1, H2.
      apply (in_map fst), Hl in H1. apply (in_map fst), Hk in H2.
      pose proof (key_lt_trans _ _ _ H1 H2) as Hlt. simpl in Hlt.
      by rewrite key_lt_irrefl in Hlt. }
    pose proof (H k) as Hv. simpl in Hv. rewrite !bool_decide_true in Hv by done.
    injection Hv as ->. f_equal. apply IH; [done..|]. intros m.
    destruct (decide (k = m)) as [<- | Hne].
    + by rewrite !find_below.
    + specialize (H m). simpl in H. by rewrite !bool_decide_false in H by done.
Qed.

(** Removing what was just added. *)
Lemma erase_set d k v : sorted d -> map_find d k = None -> map_erase (map_set d k v) k = d.
Proof.
  intros Hd Hk. apply map_ext; [by apply sorted_erase, sorted_set | done |].
  intros l. destruct (decide (k = l)) as [<- | Hne].
  - by rewrite find_erase_eq, Hk by (by apply sorted_set).
  - by rewrite find_erase_ne, find_set_ne.
Qed.

(** ** Paths as sequences of keys *)

Fixpoint components (path : list Z) : list (list Z) :=
  match path with
  | [] => [[]]
  | c :: path =>
      if c =? chr_dot then [] :: components path
      else match components path with
           | k :: ks => (c :: k) :: ks
           | [] => [[c]]
           end
  end.

(** The specification of a nested dictionary: what it holds under a sequence of
    keys, and its update there. *)
Fixpoint lookup_keys (d : ValueMap) (ks : list (list Z)) : option Value :=
  match ks with
  | [] => Some (DictionaryValue d)
  | k :: ks =>
      v ← map_find d k;
      match ks with
      | [] => Some v
      | _ => match v with DictionaryValue child => lookup_keys child ks | _ => None end
      end
  end.

Definition child_of (d : ValueMap) (k : list Z) : ValueMap :=
  match map_find d k with Some (DictionaryValue child) => child | _ => [] end.

Fixpoint set_keys (d : ValueMap) (ks : list (list Z)) (v : Value) : ValueMap :=
  match ks with
  | [] => d
  | [k] => map_set d k v
  | k :: ks => map_set d k (DictionaryValue (set_keys (child_of d k) ks v))
  end.

Fixpoint remove_keys (d : ValueMap) (ks : list (list Z)) : option (Value * ValueMap) :=
  match ks with
  | [] => None
  | [k] => v ← map_find d k; Some (v, map_erase d k)
  | k :: ks =>
      match map_find d k with
      | Some (DictionaryValue child) =>
          '(v, child) ← remove_keys child ks;
          let d := map_set d k (DictionaryValue child) in
          Some (v, match child with [] => map_erase d k | _ => d end)
      | _ => None
      end
  end.

(** [Remove] leaves the dictionaries of the path where they are. *)
Fixpoint delete_keys (d : ValueMap) (ks : list (list Z)) : option (Value * ValueMap) :=
  match ks with
  | [] => None
  | [k] => v ← map_find d k; Some (v, map_erase d k)
  | k :: ks =>
      match map_find d k with
      | Some (DictionaryValue child) =>
          '(v, child) ← delete_keys child ks;
          Some (v, map_set d k (DictionaryValue child))
      | _ => None
      end
  end.

Lemma delete_keys_cons d k l ks :
  delete_keys d (k :: l :: ks) =
    match map_find d k with
    | Some (DictionaryValue child) =>
        '(v, child) ← delete_keys child (l :: ks);
        Some (v, map_set d k (DictionaryValue child))
    | _ => None
    end.
Proof. done. Qed.

Lemma set_keys_cons d k l ks v :
  set_keys d (k :: l :: ks) v = map_set d k (DictionaryValue (set_keys (child_of d k) (l :: ks) v)).
Proof. done. Qed.

Lemma remove_keys_cons d k l ks :
  remove_keys d (k :: l :: ks) =
    match map_find d k with
    | Some (DictionaryValue child) =>
        '(v, child) ← remove_keys child (l :: ks);
        let d := map_set d k (DictionaryValue child) in
        Some (v, match child with [] => map_erase d k | _ => d end)
    | _ => None
    end.
Proof. done. Qed.

Lemma components_cons path : exists k ks, components path = k :: ks.
Proof.
  induction path as [|c path (k & ks & IH)]; simpl; [eauto|]. rewrite IH.
  destruct (c =? chr_dot); eauto.
Qed.

Lemma components_find path :
  components path =
    match find_dot path with
    | None => [path]
    | Some n => take n path :: components (drop (S n) path)
    end.
Proof.
  induction path as [|c path IH]; simpl; [done|]. destruct (c =? chr_dot); [done|].
  rewrite IH. by destruct (find_dot path).
Qed.

Lemma find_dot_lt path n : find_dot path = Some n -> (n < length path)%nat.
Proof.
  revert n. induction path as [|c path IH]; intros n; simpl; [done|].
  destruct (c =? chr_dot); [intros [= <-]; lia|].
  destruct (find_dot path); simpl; [|done]. intros [= <-]. specialize (IH _ eq_refl). lia.
Qed.

Lemma find_dot_take path n : find_dot path = Some n -> find_dot (take n path) = None.
Proof.
  revert n. induction path as [|c path IH]; intros n; simpl; [done|].
  destruct (c =? chr_dot) eqn:E; [intros [= <-]; done|].
  destruct (find_dot path); simpl; [|done]. intros [= <-]. simpl. rewrite E.
  by rewrite IH.
Qed.

Lemma Get_loop_S fuel d path :
  Get_loop (S fuel) d path =
    match find_dot path with
    | None => map_find d path
    | Some n =>
        child ← match Get_loop fuel d (take n path) with
                | Some (DictionaryValue child) => Some child
                | _ => None
                end;
        Get_loop fuel child (drop (S n) path)
    end.
Proof. done. Qed.

#[local] Arguments Get_loop : simpl never.

Lemma Get_loop_key fuel d key : find_dot key = None -> Get_loop (S fuel) d key = map_find d key.
Proof. intros H. by rewrite Get_loop_S, H. Qed.

Lemma Get_loop_keys fuel d path :
  (length path < fuel)%nat -> Get_loop fuel d path = lookup_keys d (components path).
Proof.
  revert d path. induction fuel as [|fuel IH]; intros d path Hf; [lia|].
  rewrite components_find, Get_loop_S. destruct (find_dot path) as [n|] eqn:E.
  2: { simpl. by destruct (map_find d path). }
  pose proof (find_dot_lt _ _ E).
  destruct fuel as [|fuel]; [lia|]. rewrite (Get_loop_key fuel d (take n path)) by (by apply find_dot_take).
  simpl. destruct (map_find d (take n path)) as [v|]; [|done]. simpl.
  destruct (components_cons (drop (S n) path)) as (k & ks & Hk). rewrite Hk.
  destruct v; try done. simpl. rewrite IH by (rewrite length_drop; lia). by rewrite Hk.
Qed.

Lemma Get_keys d path : Get d path = lookup_keys d (components path).
Proof. apply Get_loop_keys. lia. Qed.

Lemma GetDictionary_key d key :
  find_dot key = None -> GetDictionary d key = GetDictionaryWithoutPathExpansion d key.
Proof. intros H. unfold GetDictionary, Get. by rewrite Get_loop_key. Qed.

Lemma Set_loop_keys fuel d path v :
  (length path < fuel)%nat -> Set_loop fuel d path v = set_keys d (components path) v.
Proof.
  revert d path. induction fuel as [|fuel IH]; intros d path Hf; [lia|].
  rewrite components_find. simpl. destruct (find_dot path) as [n|] eqn:E; [|done].
  pose proof (find_dot_lt _ _ E).
  rewrite GetDictionary_key by (by apply find_dot_take).
  rewrite IH by (rewrite length_drop; lia).
  destruct (components_cons (drop (S n) path)) as (k & ks & Hk). rewrite Hk, set_keys_cons.
  unfold SetWithoutPathExpansion, child_of, GetDictionaryWithoutPathExpansion,
    GetWithoutPathExpansion.
  by destruct (map_find d (take n path)) as [[]|].
Qed.

Lemma Set_keys d path v : Set_ d path v = set_keys d (components path) v.
Proof. apply Set_loop_keys. lia. Qed.

Lemma RemovePath_loop_keys fuel d path :
  (length path < fuel)%nat -> RemovePath_ fuel d path = remove_keys d (components path).
Proof.
  revert d path. induction fuel as [|fuel IH]; intros d path Hf; [lia|].
  rewrite components_find. simpl. destruct (find_dot path) as [n|] eqn:E.
  2: { simpl. unfold RemoveWithoutPathExpansion. by destruct (map_find d path). }
  pose proof (find_dot_lt _ _ E).
  rewrite GetDictionary_key by (by apply find_dot_take).
  unfold GetDictionaryWithoutPathExpansion, GetWithoutPathExpansion.
  destruct (components_cons (drop (S n) path)) as (k & ks & Hk). rewrite Hk, remove_keys_cons.
  destruct (map_find d (take n path)) as [[]|]; try done. cbn [mbind option_bind].
  rewrite IH by (rewrite length_drop; lia). rewrite Hk.
  destruct (remove_keys _ (k :: ks)) as [[v child]|]; [|done]. cbn [mbind option_bind].
  destruct child; [|done]. unfold RemoveWithoutPathExpansion, SetWithoutPathExpansion.
  by rewrite find_set_eq.
Qed.

Lemma RemovePath_keys d path : RemovePath d path = remove_keys d (components path).
Proof. apply RemovePath_loop_keys. lia. Qed.

Lemma lookup_keys_cons d k l ks :
  lookup_keys d (k :: l :: ks) =
    match map_find d k with
    | Some (DictionaryValue child) => lookup_keys child (l :: ks)
    | _ => None
    end.
Proof. simpl. by destruct (map_find d k) as [[]|]. Qed.

Lemma lookup_keys_one d k : lookup_keys d [k] = map_find d k.
Proof. simpl. by destruct (map_find d k). Qed.

Lemma lookup_set_same d ks v : ks <> [] -> lookup_keys (set_keys d ks v) ks = Some v.
Proof.
  revert d. induction ks as [|k [|l ks] IH]; intros d Hne; [done | |].
  - by rewrite lookup_keys_one, <- (find_set_eq d k v).
  - rewrite set_keys_cons, lookup_keys_cons, find_set_eq. by apply IH.
Qed.

Definition incomparable (ks js : list (list Z)) : Prop :=
  ~ ks `prefix_of` js /\ ~ js `prefix_of` ks.

Lemma incomparable_cons k ks js : incomparable (k :: ks) (k :: js) -> incomparable ks js.
Proof. intros [H1 H2]. split; intros H; [apply H1 | apply H2]; by apply prefix_cons. Qed.

Lemma lookup_keys_nil ks : ks <> [] -> lookup_keys [] ks = None.
Proof. by destruct ks as [|k [|]]. Qed.

Lemma lookup_child d k ks : ks <> [] -> lookup_keys (child_of d k) ks = lookup_keys d (k :: ks).
Proof.
  intros Hne. destruct ks as [|l ks]; [done|]. rewrite lookup_keys_cons. unfold child_of.
  destruct (map_find d k) as [[]|]; done || by apply lookup_keys_nil.
Qed.

Lemma lookup_set_other d ks js v :
  incomparable ks js -> lookup_keys (set_keys d ks v) js = lookup_keys d js.
Proof.
  revert d js. induction ks as [|k ks IH]; intros d js Hi.
  { destruct Hi as [H _]. destruct H. apply prefix_nil. }
  destruct js as [|j js]; [destruct Hi as [_ H]; destruct H; apply prefix_nil|].
  destruct (decide (k = j)) as [<- | Hne].
  - apply incomparable_cons in Hi as Hi'.
    destruct ks as [|l ks]; [destruct Hi' as [H _]; destruct H; apply prefix_nil|].
    destruct js as [|m js]; [destruct Hi' as [_ H]; destruct H; apply prefix_nil|].
    rewrite set_keys_cons, lookup_keys_cons, find_set_eq, IH by done. by apply lookup_child.
  - assert (map_find (set_keys d (k :: ks) v) j = map_find d j) as E
      by (destruct ks; [|rewrite set_keys_cons]; by apply find_set_ne).
    destruct js as [|m js]; [by rewrite !lookup_keys_one|]. by rewrite !lookup_keys_cons, E.
Qed.

Lemma components_nonempty p : components p <> [].
Proof. destruct (components_cons p) as (k & ks & ->). done. Qed.

(** Paths none of which begins another. *)
Definition apart_paths (p q : list Z) : Prop := incomparable (components p) (components q).

Lemma apart_paths_sym p q : apart_paths p q -> apart_paths q p.
Proof. intros [H1 H2]. by split. Qed.

Lemma apart_paths_ne p q : apart_paths p q -> p <> q.
Proof. intros [H1 _] ->. by apply H1. Qed.

Lemma Get_Set_apart d p q v : apart_paths p q -> Get (Set_ d p v) q = Get d q.
Proof. intros Hpq. rewrite !Get_keys, Set_keys. by apply lookup_set_other. Qed.

Lemma Get_Set_same d p v : Get (Set_ d p v) p = Some v.
Proof. rewrite Get_keys, Set_keys. apply lookup_set_same, components_nonempty. Qed.

Lemma lookup_set_above d ks rest v :
  ks <> [] -> rest <> [] ->
  exists child, lookup_keys (set_keys d (ks ++ rest) v) ks = Some (DictionaryValue child).
Proof.
  revert d. induction ks as [|k ks IH]; intros d Hk Hr; [done|].
  destruct rest as [|r rest]; [done|]. destruct ks as [|l ks].
  - simpl app. rewrite set_keys_cons, lookup_keys_one, find_set_eq. eauto.
  - simpl app. rewrite set_keys_cons, lookup_keys_cons, find_set_eq. by apply (IH (child_of d k)).
Qed.

Lemma lookup_set_below d ks rest v :
  ks <> [] -> rest <> [] ->
  lookup_keys (set_keys d ks v) (ks ++ rest) =
    match v with DictionaryValue child => lookup_keys child rest | _ => None end.
Proof.
  revert d. induction ks as [|k ks IH]; intros d Hk Hr; [done|].
  destruct rest as [|r rest]; [done|]. destruct ks as [|l ks].
  - simpl app. rewrite lookup_keys_cons. simpl set_keys. by rewrite find_set_eq.
  - simpl app. rewrite set_keys_cons, lookup_keys_cons, find_set_eq. by apply IH.
Qed.

Lemma remove_keys_lookup d ks : ks <> [] -> fst <$> remove_keys d ks = lookup_keys d ks.
Proof.
  revert d. induction ks as [|k [|l ks] IH]; intros d Hne; [done | |].
  - simpl. by destruct (map_find d k).
  - rewrite remove_keys_cons, lookup_keys_cons. destruct (map_find d k) as [[]|]; try done.
    rewrite <- IH by done. destruct (remove_keys _ _) as [[v c]|]; [|done]. by destruct c.
Qed.

Lemma set_keys_new ks v : forall k, exists child, set_keys [] (k :: ks) v = [(k, child)].
Proof. intros k. destruct ks; [|rewrite set_keys_cons]; simpl; eauto. Qed.

Lemma set_set d k v w : sorted d -> map_set (map_set d k v) k w = map_set d k w.
Proof.
  intros Hd. apply map_ext; [by repeat apply sorted_set..|].
  intros l. destruct (decide (k = l)) as [<- | Hne]; by rewrite ?find_set_eq, ?find_set_ne.
Qed.

Lemma remove_set_fresh d k ks v :
  sorted d -> map_find d k = None -> remove_keys (set_keys d (k :: ks) v) (k :: ks) = Some (v, d).
Proof.
  revert d k. induction ks as [|l ks IH]; intros d k Hd Hk.
  - simpl. by rewrite find_set_eq, erase_set.
  - rewrite remove_keys_cons, set_keys_cons, find_set_eq.
    assert (child_of d k = []) as -> by (unfold child_of; by rewrite Hk).
    rewrite IH by (done || by constructor). cbn [mbind option_bind].
    by rewrite set_set, erase_set.
Qed.

(** ** Well-formed values *)

#[local] Unset Elimination Schemes.
Inductive wf : Value -> Prop :=
| wf_null : wf NullValue
| wf_boolean b : wf (BooleanValue b)
| wf_integer z : Int.in_range Int.int32 z -> wf (IntegerValue z)
| wf_double d : IsFinite d = true -> wf (DoubleValue d)
| wf_string s : Forall is_byte s -> wf (StringValue s)
| wf_piece p : wf (JSONStringValue p)
| wf_binary b : Forall is_byte b -> wf (BinaryValue b)
| wf_dictionary d :
    sorted d -> Forall (fun e => Forall is_byte e.1) d -> Forall (fun e => wf e.2) d ->
    wf (DictionaryValue d)
| wf_list l : Forall wf l -> wf (ListValue l).

#[local] Set Elimination Schemes.

Definition wf_map (d : ValueMap) : Prop := wf (DictionaryValue d).

Lemma wf_map_alt d :
  wf_map d <-> sorted d /\ Forall (fun e => Forall is_byte e.1 /\ wf e.2) d.
Proof.
  unfold wf_map. rewrite Forall_and. split; [|intros (? & ? & ?); by constructor].
  intros H. by inversion H.
Qed.

Lemma wf_list_alt l : wf (ListValue l) <-> Forall wf l.
Proof. split; [intros H; by inversion H | by constructor]. Qed.

Lemma wf_map_nil : wf_map [].
Proof. constructor; constructor. Qed.

Lemma wf_find d k v : wf_map d -> map_find d k = Some v -> wf v.
Proof.
  intros [_ H]%wf_map_alt Hk%find_Some_elem. rewrite List.Forall_forall in H. by apply (H _ Hk).
Qed.

Lemma Forall_map_set P d k v : P (k, v) -> Forall P d -> Forall P (map_set d k v).
Proof.
  intros Hv. induction 1 as [|[m w] d Hm Hd IH]; simpl; [by constructor|].
  case_bool_decide; [by constructor|]. destruct (key_lt k m); by repeat constructor.
Qed.

Lemma Forall_map_erase P d k : Forall P d -> Forall P (map_erase d k).
Proof.
  induction 1 as [|[m w] d Hm Hd IH]; simpl; [constructor|]. case_bool_decide; by repeat constructor.
Qed.

Lemma wf_set d k v : wf_map d -> Forall is_byte k -> wf v -> wf_map (map_set d k v).
Proof.
  rewrite !wf_map_alt. intros [Hs Hd] Hk Hv. split; [by apply sorted_set | by apply Forall_map_set].
Qed.

Lemma wf_erase d k : wf_map d -> wf_map (map_erase d k).
Proof.
  rewrite !wf_map_alt. intros [Hs Hd]. split; [by apply sorted_erase | by apply Forall_map_erase].
Qed.

Create HintDb values.
#[local] Hint Resolve wf_map_nil wf_set wf_erase wf_find : values.

Lemma components_bytes path : Forall is_byte path -> Forall (Forall is_byte) (components path).
Proof.
  induction 1 as [|c path Hc Hp IH]; simpl; [by repeat constructor|].
  destruct (c =? chr_dot); [by constructor|].
  destruct (components path) as [|k ks]; [by rewrite !Forall_singleton|].
  apply Forall_cons in IH as [Hk Hks]. rewrite !Forall_cons. done.
Qed.

Lemma wf_child d k : wf_map d -> wf_map (child_of d k).
Proof.
  intros Hd. unfold child_of. destruct (map_find d k) as [[]|] eqn:E; try apply wf_map_nil.
  by apply (wf_find d k).
Qed.

Lemma wf_set_keys d ks v :
  wf_map d -> Forall (Forall is_byte) ks -> wf v -> wf_map (set_keys d ks v).
Proof.
  intros Hd Hks Hv. revert d Hd. induction Hks as [|k ks Hk Hks IH]; intros d Hd; [done|].
  destruct ks as [|l ks]; [by apply wf_set|]. rewrite set_keys_cons.
  apply wf_set; [done..|]. by apply IH, wf_child.
Qed.

Lemma wf_lookup_keys d ks v : wf_map d -> lookup_keys d ks = Some v -> wf v.
Proof.
  revert d. induction ks as [|k ks IH]; intros d Hd; [intros [= <-]; exact Hd|].
  destruct ks as [|l ks]; [rewrite lookup_keys_one; by apply wf_find|].
  rewrite lookup_keys_cons. destruct (map_find d k) as [[]|] eqn:E; try done.
  apply IH. by apply (wf_find d k).
Qed.

Lemma wf_remove_keys d ks v d' :
  wf_map d -> Forall (Forall is_byte) ks -> remove_keys d ks = Some (v, d') -> wf v /\ wf_map d'.
Proof.
  intros Hd Hks. revert d v d' Hd. induction Hks as [|k ks Hk Hks IH]; intros d v d' Hd; [done|].
  destruct ks as [|l ks].
  { simpl. destruct (map_find d k) eqn:E; [|done]. intros [= <- <-]. eauto with values. }
  rewrite remove_keys_cons. destruct (map_find d k) as [[]|] eqn:E; try done.
  destruct (remove_keys _ _) as [[w child]|] eqn:Hr; [|done]. intros [= <- <-].
  apply IH in Hr as [Hw Hc]; [|by apply (wf_find d k)].
  split; [done|]. destruct child; eauto with values.
Qed.

(** ** Copies *)

Definition copy_entries (st : Store) : ValueMap -> ValueMap -> option Value :=
  fix copy_entries (d result : ValueMap) : option Value :=
    match d with
    | [] => Some (DictionaryValue result)
    | (key, entry) :: d =>
        copy ← DeepCopy st entry;
        copy_entries d (SetWithoutPathExpansion result key copy)
    end.

#[local] Unset Elimination Schemes.
(** A value without pieces, which reads the same whatever texts are alive. *)
Inductive detached : Value -> Prop :=
| detached_leaf v : (match v with JSONStringValue _ | DictionaryValue _ | ListValue _ => False
                     | _ => True end) -> detached v
| detached_dictionary d : Forall (fun e => detached e.2) d -> detached (DictionaryValue d)
| detached_list l : Forall detached l -> detached (ListValue l).

(** Two values that differ in the owner of their strings only. *)
Inductive copy_of (st : Store) : Value -> Value -> Prop :=
| copy_piece p s : piece_bytes st p = Some s -> copy_of st (JSONStringValue p) (StringValue s)
| copy_leaf v : (match v with JSONStringValue _ | DictionaryValue _ | ListValue _ => False
                 | _ => True end) -> copy_of st v v
| copy_dictionary d e :
    Forall2 (fun a b => a.1 = b.1 /\ copy_of st a.2 b.2) d e ->
    copy_of st (DictionaryValue d) (DictionaryValue e)
| copy_list l m : Forall2 (copy_of st) l m -> copy_of st (ListValue l) (ListValue m).

#[local] Set Elimination Schemes.

Definition store_ok (st : Store) : Prop := map_Forall (fun _ text => Forall is_byte text) st.

Lemma piece_bytes_ok st p s : store_ok st -> piece_bytes st p = Some s -> Forall is_byte s.
Proof.
  unfold piece_bytes. intros Hst. destruct (st !! buffer p) as [text|] eqn:E; [|done]. simpl.
  case_guard; [|done]. simpl. intros [= <-]. apply Forall_take, Forall_drop. by apply (Hst _ _ E).
Qed.

(** Adding the largest key. *)
Lemma map_set_last d k v :
  (forall l, In l (map fst d) -> key_lt l k = true) -> map_set d k v = d ++ [(k, v)].
Proof.
  induction d as [|[m w] d IH]; intros H; simpl in *; [done|].
  pose proof (H m (or_introl eq_refl)) as Hm. rewrite bool_decide_false.
  2: { intros ->. by rewrite key_lt_irrefl in Hm. }
  destruct (key_lt k m) eqn:E.
  { pose proof (key_lt_trans _ _ _ Hm E) as Hc. by rewrite key_lt_irrefl in Hc. }
  rewrite IH; [done|]. auto.
Qed.

Lemma sorted_app_below d e k l v :
  sorted (d ++ (k, v) :: e) -> In l (map fst d) -> key_lt l k = true.
Proof.
  unfold sorted. rewrite map_app. intros Hs Hl.
  apply (StronglySorted_app_1_elem_of _ _ _ l k Hs).
  - by apply list_elem_of_In.
  - simpl. left.
Qed.

Lemma sorted_keys_eq d e : map fst d = map fst e -> sorted d -> sorted e.
Proof. unfold sorted. by intros ->. Qed.

(** Copying the entries of a sorted map after those copied already. *)
Lemma copy_entries_app st d result v :
  Forall (fun e => forall c, DeepCopy st e.2 = Some c -> wf e.2 -> copy_of st e.2 c) d ->
  Forall (fun e => wf e.2) d -> sorted (result ++ d) ->
  copy_entries st d result = Some v ->
  exists e, v = DictionaryValue (result ++ e) /\
            Forall2 (fun a b => a.1 = b.1 /\ copy_of st a.2 b.2) d e.
Proof.
  intros Hd. revert result. induction Hd as [|[k w] d Hw Hd IH]; intros result Hwf Hs; simpl.
  { intros [= <-]. exists []. by rewrite app_nil_r. }
  apply Forall_cons in Hwf as [Hwfw Hwf].
  destruct (DeepCopy st w) as [c|] eqn:Hc; [|done]. simpl. intros H.
  unfold SetWithoutPathExpansion in H.
  assert (map_set result k c = result ++ [(k, c)]) as E
    by (apply map_set_last; intros l; by apply (sorted_app_below result d k l w)).
  rewrite E in H. apply IH in H as (e & -> & He); [| done |].
  - exists ((k, c) :: e). split; [by rewrite <- app_assoc|]. constructor; [by split; [|apply Hw]|done].
  - eapply sorted_keys_eq; [|exact Hs]. by rewrite <- app_assoc, !map_app.
Qed.

Lemma DeepCopy_dictionary st d : DeepCopy st (DictionaryValue d) = copy_entries st d [].
Proof. done. Qed.

Lemma DeepCopy_copy st v c : wf v -> DeepCopy st v = Some c -> copy_of st v c.
Proof.
  revert c. induction v as [|b|z|x|s|p|b|d IH|l IH] using Value_ind; intros c Hwf Hc;
    try (injection Hc as <-; by constructor).
  - simpl in Hc. destruct (piece_bytes st p) eqn:E; [|done]. injection Hc as <-. by constructor.
  - rewrite DeepCopy_dictionary in Hc. pose proof Hwf as [Hs Hall]%wf_map_alt.
    apply Forall_and in Hall as [_ Hall].
    apply (copy_entries_app st d []) in Hc as (e & -> & He); [by apply copy_dictionary | | done..].
    eapply Forall_impl; [exact IH|]. naive_solver.
  - simpl in Hc. destruct (mapM _ l) as [m|] eqn:E; [|done]. injection Hc as <-.
    apply mapM_Some_1 in E. apply copy_list. apply wf_list_alt in Hwf.
    clear -IH Hwf E. induction E as [|v c l m Hc E IHE]; [constructor|].
    apply Forall_cons in IH as [IHv IH], Hwf as [Hv Hwf]. constructor; auto.
Qed.

Lemma DeepCopy_type st v c : DeepCopy st v = Some c -> GetType v = GetType c.
Proof.
  destruct v as [| | | | |p| |d|l]; simpl; try (by intros [= <-]).
  - destruct (piece_bytes st p); simpl; [|done]. by intros [= <-].
  - generalize (@nil (list Z * Value)). induction d as [|[k e] d IH]; intros r; [by intros [= <-]|].
    destruct (DeepCopy st e); simpl; [apply IH | done].
  - destruct (mapM _ l); simpl; [|done]. by intros [= <-].
Qed.

Lemma copy_wf st v c : store_ok st -> wf v -> copy_of st v c -> wf c.
Proof.
  intros Hst. revert c. induction v as [|b|z|x|s|p|b|d IH|l IH] using Value_ind;
    intros c Hwf Hc; inversion Hc; subst; try done.
  - constructor. by eapply piece_bytes_ok.
  - match goal with H : Forall2 _ d _ |- _ => rename H into He end.
    pose proof Hwf as [Hs Hall]%wf_map_alt. apply wf_map_alt. split.
    + eapply sorted_keys_eq; [|exact Hs]. clear -He. induction He as [|a b d e [Hk _]]; simpl; congruence.
    + clear -IH Hall He. induction He as [|a b d e [Hk Hab] He IHe]; [constructor|].
      apply Forall_cons in IH as [IHa IH], Hall as [[Hb Hw] Hall].
      constructor; [split; [by rewrite <- Hk | by apply IHa] | auto].
  - match goal with H : Forall2 _ l _ |- _ => rename H into He end.
    apply wf_list_alt in Hwf. constructor. clear -IH Hwf He.
    induction He as [|a b d e Hab He IHe]; [constructor|].
    apply Forall_cons in IH as [IHa IH], Hwf as [Ha Hwf]. constructor; auto.
Qed.

Lemma copy_detached st v c : copy_of st v c -> detached c.
Proof.
  revert c. induction v as [|b|z|x|s|p|b|d IH|l IH] using Value_ind;
    intros c Hc; inversion Hc; subst; try (by apply detached_leaf); try done.
  - match goal with H : Forall2 _ d _ |- _ => rename H into He end.
    apply detached_dictionary. clear -IH He. induction He as [|a b d e [_ Hab] He IHe]; [constructor|].
    apply Forall_cons in IH as [IHa IH]. constructor; auto.
  - match goal with H : Forall2 _ l _ |- _ => rename H into He end.
    apply detached_list. clear -IH He. induction He as [|a b d e Hab He IHe]; [constructor|].
    apply Forall_cons in IH as [IHa IH]. constructor; auto.
Qed.

(** The copy of a detached value. *)
Lemma copy_of_detached st v : detached v -> copy_of st v v.
Proof.
  induction v as [|b|z|x|s|p|b|d IH|l IH] using Value_ind; intros Hd;
    try (by apply copy_leaf); inversion Hd; subst; simpl in *; try done.
  - match goal with H : Forall _ d |- _ => rename H into He end. apply copy_dictionary.
    clear -IH He. induction He as [|a d Ha He IHe]; [constructor|].
    apply Forall_cons in IH as [IHa IH]. constructor; [split; auto|auto].
  - match goal with H : Forall detached l |- _ => rename H into He end. apply copy_list.
    clear -IH He. induction He as [|a d Ha He IHe]; [constructor|].
    apply Forall_cons in IH as [IHa IH]. constructor; auto.
Qed.

Lemma copy_entries_complete st d e result :
  Forall (fun a => forall c, wf a.2 -> copy_of st a.2 c -> DeepCopy st a.2 = Some c) d ->
  Forall (fun a => wf a.2) d -> sorted (result ++ d) ->
  Forall2 (fun a b => a.1 = b.1 /\ copy_of st a.2 b.2) d e ->
  copy_entries st d result = Some (DictionaryValue (result ++ e)).
Proof.
  intros IH Hwf Hs He. revert result Hs. induction He as [|[k v] [k' c] d e [Hk Hv] He IHe];
    intros result Hs; simpl in *; [by rewrite app_nil_r|]. subst k'.
  apply Forall_cons in IH as [IHv IH], Hwf as [Hw Hwf]. simpl in *. rewrite (IHv c) by done.
  simpl. unfold SetWithoutPathExpansion.
  rewrite map_set_last by (intros l; by apply (sorted_app_below result d k l v)).
  rewrite IHe; [by rewrite <- app_assoc | done | done |].
  eapply sorted_keys_eq; [|exact Hs]. by rewrite <- app_assoc, !map_app.
Qed.

(** [DeepCopy] computes the copy when there is one. *)
Lemma DeepCopy_complete st v c : wf v -> copy_of st v c -> DeepCopy st v = Some c.
Proof.
  revert c. induction v as [|b|z|x|s|p|b|d IH|l IH] using Value_ind;
    intros c Hwf Hc; inversion Hc; subst; try done.
  - simpl. match goal with H : piece_bytes _ _ = _ |- _ => rewrite H end. done.
  - pose proof Hwf as [Hs Hall]%wf_map_alt. apply Forall_and in Hall as [_ Hall].
    rewrite DeepCopy_dictionary. by rewrite (copy_entries_complete st d e []).
  - match goal with H : Forall2 _ l _ |- _ => rename H into He end.
    apply wf_list_alt in Hwf. simpl. replace (mapM (DeepCopy st) l) with (Some m); [done|].
    symmetry. apply mapM_Some_2. clear -IH Hwf He.
    induction He as [|a b d e Hab He IHe]; [constructor|].
    apply Forall_cons in IH as [IHa IH], Hwf as [Ha Hwf]. constructor; auto.
Qed.

Lemma SFeqb_refl d : IsFinite d = true -> SFeqb d d = true.
Proof.
  destruct d as [|[]| |[] m e]; try done; intros _; unfold SFeqb, SFcompare;
    by rewrite Z.compare_refl, Pos.compare_refl.
Qed.

Lemma IsType_refl v : IsType (GetType v) v = true.
Proof. by apply bool_decide_true. Qed.

(** A value and its copy are equal. *)
Lemma copy_Equals st v c : wf v -> copy_of st v c -> Equals st v c = Some true.
Proof.
  revert c. induction v as [|b|z|x|s|p|b|d IH|l IH] using Value_ind;
    intros c Hwf Hc; inversion Hc; subst; simpl; try done.
  - by rewrite eqb_reflx.
  - by rewrite Z.eqb_refl.
  - rewrite SFeqb_refl; [done|]. by inversion Hwf.
  - by rewrite bool_decide_true.
  - match goal with H : piece_bytes _ _ = _ |- _ => rewrite H end. simpl. by rewrite bool_decide_true.
  - by rewrite bool_decide_true.
  - match goal with H : Forall2 _ d _ |- _ => rename H into He end.
    pose proof Hwf as [_ Hall]%wf_map_alt. apply Forall_and in Hall as [_ Hall].
    clear -IH Hall He. induction He as [|[k a] [k' b] d e [Hk Hab] He IHe]; [done|].
    apply Forall_cons in IH as [IHa IH], Hall as [Ha Hall]. simpl in *. subst.
    rewrite bool_decide_true by done. simpl. rewrite (IHa b) by done. simpl. auto.
  - match goal with H : Forall2 _ l _ |- _ => rename H into He end. apply wf_list_alt in Hwf.
    clear -IH Hwf He. induction He as [|a b d e Hab He IHe]; [done|].
    apply Forall_cons in IH as [IHa IH], Hwf as [Ha Hwf]. rewrite (IHa b) by done. simpl. auto.
Qed.

(** ** Merging *)

Definition merge_entry (st : Store) (d : ValueMap) (key : list Z) (merge_value : Value)
    : option ValueMap :=
  match (if IsType TYPE_DICTIONARY merge_value
         then GetDictionaryWithoutPathExpansion d key else None) with
  | Some sub_dict =>
      sub_dict ← merge_from st merge_value sub_dict;
      Some (SetWithoutPathExpansion d key (DictionaryValue sub_dict))
  | None => copy ← DeepCopy st merge_value; Some (SetWithoutPathExpansion d key copy)
  end.

Fixpoint merge_entries (st : Store) (dictionary d : ValueMap) : option ValueMap :=
  match dictionary with
  | [] => Some d
  | (key, merge_value) :: dictionary =>
      d ← merge_entry st d key merge_value; merge_entries st dictionary d
  end.

Lemma MergeDictionary_entries st d dictionary :
  MergeDictionary st d dictionary = merge_entries st dictionary d.
Proof.
  unfold MergeDictionary. simpl. revert d. induction dictionary as [|[k v] dictionary IH]; intros d;
    simpl; [done|]. fold (merge_entry st d k v). destruct (merge_entry st d k v); [apply IH|done].
Qed.

Definition both_dictionaries (source : Value) (target : option Value)
    : option (ValueMap * ValueMap) :=
  match source, target with
  | DictionaryValue b, Some (DictionaryValue a) => Some (b, a)
  | _, _ => None
  end.

Lemma merge_entry_alt st d k v :
  merge_entry st d k v =
    match both_dictionaries v (map_find d k) with
    | Some (b, a) => m ← MergeDictionary st a b; Some (map_set d k (DictionaryValue m))
    | None => c ← DeepCopy st v; Some (map_set d k c)
    end.
Proof.
  unfold merge_entry, GetDictionaryWithoutPathExpansion, GetWithoutPathExpansion.
  destruct v; try done. simpl. by destruct (map_find d k) as [[]|].
Qed.

(** What a merge leaves under a key, from what both dictionaries had there. *)
Definition merged (st : Store) (source target result : option Value) : Prop :=
  match source with
  | None => result = target
  | Some v =>
      match both_dictionaries v target with
      | Some (b, a) =>
          exists m, MergeDictionary st a b = Some m /\ result = Some (DictionaryValue m)
      | None => exists c, DeepCopy st v = Some c /\ result = Some c
      end
  end.

Lemma merge_entry_spec st d k v c :
  merge_entry st d k v = Some c ->
  merged st (Some v) (map_find d k) (map_find c k) /\
  (forall l, k <> l -> map_find c l = map_find d l).
Proof.
  rewrite merge_entry_alt. unfold merged. destruct (both_dictionaries v (map_find d k)) as [[b a]|].
  - destruct (MergeDictionary st a b) as [m|]; [|done]. simpl. intros [= <-].
    rewrite find_set_eq. split; [eauto | intros; by apply find_set_ne].
  - destruct (DeepCopy st v) as [m|]; [|done]. simpl. intros [= <-].
    rewrite find_set_eq. split; [eauto | intros; by apply find_set_ne].
Qed.

Lemma merge_entries_spec st dictionary d c :
  sorted dictionary -> merge_entries st dictionary d = Some c ->
  forall k, merged st (map_find dictionary k) (map_find d k) (map_find c k).
Proof.
  revert d. induction dictionary as [|[k v] dictionary IH]; intros d Hs; simpl.
  { by intros [= <-]. }
  intros H l. apply sorted_cons in Hs as [Hs Hk].
  destruct (merge_entry st d k v) as [d'|] eqn:Hm; [|done]. simpl in H.
  apply merge_entry_spec in Hm as [Hv Hne]. specialize (IH d' Hs H l).
  case_bool_decide as E.
  - subst l. rewrite find_below in IH by done. simpl in IH. by rewrite IH.
  - by rewrite <- (Hne l E).
Qed.

(** A merge only fails by reading a text that is gone. *)
Lemma merge_total st v c d : wf v -> DeepCopy st v = Some c -> is_Some (merge_from st v d).
Proof.
  revert c d. induction v as [|y|z|x|s|p|u|b IH|l IH] using Value_ind; intros c d Hwf Hc; try (by eexists).
  apply DeepCopy_copy in Hc; [|done]. inversion Hc; subst; [done|].
  match goal with H : Forall2 _ b _ |- _ => rename H into He end.
  pose proof Hwf as [_ Hall]%wf_map_alt.
  change (merge_from st (DictionaryValue b) d) with (MergeDictionary st d b).
  rewrite MergeDictionary_entries. clear Hc Hwf. revert d.
  induction He as [|[k v] [k' c] b e [Hk Hv] He IHe]; intros d; simpl; [done|].
  apply Forall_cons in IH as [IHv IH], Hall as [[_ Hw] Hall]. simpl in *.
  assert (is_Some (merge_entry st d k v)) as [d' ->]; [|by apply IHe].
  rewrite merge_entry_alt. apply DeepCopy_complete in Hv; [|done].
  destruct (both_dictionaries v (map_find d k)) as [[b' a']|] eqn:E; [|rewrite Hv; by eexists].
  unfold both_dictionaries in E. destruct v; try done. destruct (map_find d k) as [[]|]; try done.
  injection E as -> ->. destruct (IHv _ a' Hw Hv) as [m Hm].
  unfold MergeDictionary. rewrite Hm. by eexists.
Qed.

Lemma wf_copy st v c : store_ok st -> wf v -> DeepCopy st v = Some c -> wf c.
Proof. intros Hst Hv Hc. eapply copy_wf; [done | exact Hv | by apply DeepCopy_copy]. Qed.

Lemma wf_merge st v d c :
  store_ok st -> wf v -> wf_map d -> merge_from st v d = Some c -> wf_map c.
Proof.
  intros Hst. revert d c. induction v as [|y|z|x|s|p|u|b IH|l IH] using Value_ind; intros d c Hwf Hd;
    try (by intros [= <-]).
  pose proof Hwf as [_ Hall]%wf_map_alt.
  change (merge_from st (DictionaryValue b) d) with (MergeDictionary st d b).
  rewrite MergeDictionary_entries. clear Hwf. revert d Hd.
  induction b as [|[k v] b IHb]; intros d Hd; simpl; [by intros [= <-]|].
  apply Forall_cons in IH as [IHv IH], Hall as [[Hk Hw] Hall]. simpl in *.
  destruct (merge_entry st d k v) as [d'|] eqn:Hm; [|done]. simpl. apply IHb; [done..|].
  rewrite merge_entry_alt in Hm.
  destruct (both_dictionaries v (map_find d k)) as [[b' a']|] eqn:E.
  - unfold both_dictionaries in E. destruct v; try done. destruct (map_find d k) as [[]|] eqn:Hf; try done.
    injection E as -> ->. destruct (MergeDictionary st a' b') as [m|] eqn:Hmm; [|done].
    injection Hm as <-. apply wf_set; [done..|]. eapply IHv; [done | by apply (wf_find d k) | exact Hmm].
  - destruct (DeepCopy st v) as [m|] eqn:Hc; [|done]. injection Hm as <-.
    apply wf_set; [done..|]. by apply (wf_copy st v).
Qed.

(** ** Copies without empty containers *)

#[local] Unset Elimination Schemes.
Inductive no_empty : Value -> Prop :=
| no_empty_leaf v : (match v with DictionaryValue _ | ListValue _ => False | _ => True end) -> no_empty v
| no_empty_dictionary d : d <> [] -> Forall (fun e => no_empty e.2) d -> no_empty (DictionaryValue d)
| no_empty_list l : l <> [] -> Forall no_empty l -> no_empty (ListValue l).
#[local] Set Elimination Schemes.

Definition trimmed (v : Value) : Prop := wf v /\ no_empty v.

Definition trim_items (st : Store) : list Value -> list Value -> option (option Value) :=
  fix items (l copy : list Value) : option (option Value) :=
    match l with
    | [] => Some (match copy with [] => None | _ => Some (ListValue copy) end)
    | v :: l =>
        child_copy ← CopyWithoutEmptyChildren st v;
        items l (match child_copy with Some c => copy ++ [c] | None => copy end)
    end.

Definition trim_entries (st : Store) : ValueMap -> ValueMap -> option (option Value) :=
  fix entries (d copy : ValueMap) : option (option Value) :=
    match d with
    | [] => Some (match copy with [] => None | _ => Some (DictionaryValue copy) end)
    | (key, v) :: d =>
        child_copy ← CopyWithoutEmptyChildren st v;
        entries d (match child_copy with
                   | Some c => SetWithoutPathExpansion copy key c
                   | None => copy
                   end)
    end.

Lemma trim_items_ok st l copy c :
  Forall (fun v => forall c, wf v -> CopyWithoutEmptyChildren st v = Some (Some c) -> trimmed c) l ->
  Forall wf l -> Forall trimmed copy -> trim_items st l copy = Some (Some c) -> trimmed c.
Proof.
  intros IH Hwf. revert copy. induction l as [|v l IHl]; intros copy Hc; simpl.
  - destruct copy as [|w copy'] eqn:E; [done|]. intros [= <-]. rewrite <- E in *.
    apply Forall_and in Hc as [Hc1 Hc2]. split; [by constructor | apply no_empty_list; [by subst | done]].
  - apply Forall_cons in IH as [IHv IH], Hwf as [Hv Hwf].
    destruct (CopyWithoutEmptyChildren st v) as [[w|]|] eqn:E; [| |done]; simpl; apply IHl; try done.
    apply Forall_app. split; [done|]. apply Forall_singleton. by apply IHv.
Qed.

Lemma trim_entries_ok st d copy c :
  Forall (fun e => forall c, wf e.2 -> CopyWithoutEmptyChildren st e.2 = Some (Some c) -> trimmed c) d ->
  Forall (fun e => Forall is_byte e.1 /\ wf e.2) d ->
  wf_map copy -> Forall (fun e => no_empty e.2) copy ->
  trim_entries st d copy = Some (Some c) -> trimmed c.
Proof.
  intros IH Hwf. revert copy. induction d as [|[k v] d IHd]; intros copy Hc Hn; simpl.
  - destruct copy as [|w copy'] eqn:E; [done|]. intros [= <-]. rewrite <- E in *.
    split; [done | apply no_empty_dictionary; [by subst | done]].
  - apply Forall_cons in IH as [IHv IH], Hwf as [[Hk Hv] Hwf]. simpl in *.
    destruct (CopyWithoutEmptyChildren st v) as [[w|]|] eqn:E; [| |done]; simpl; apply IHd; try done.
    + apply wf_set; [done..|]. by apply IHv.
    + apply Forall_map_set; [|done]. simpl. by apply IHv.
Qed.

Lemma trim_ok st v c :
  store_ok st -> wf v -> CopyWithoutEmptyChildren st v = Some (Some c) -> trimmed c.
Proof.
  intros Hst. revert c. induction v as [|y|z|x|s|p|u|d IH|l IH] using Value_ind; intros c Hwf Hc.
  8: { apply (trim_entries_ok st d [] c IH); [|apply wf_map_nil | constructor | exact Hc].
       by apply wf_map_alt. }
  8: { apply (trim_items_ok st l [] c IH); [|constructor | exact Hc]. by apply wf_list_alt. }
  all: simpl in Hc; try (injection Hc as <-; split; [done | by apply no_empty_leaf]).
  destruct (piece_bytes st p) as [s|] eqn:E; [|done]. injection Hc as <-.
  split; [constructor; by eapply piece_bytes_ok | by apply no_empty_leaf].
Qed.

(** ** Changing a dictionary in place *)

Lemma at_path_ok {A} (P : A -> Prop) fuel d path f a d' :
  wf_map d -> Forall is_byte path ->
  (forall c a c', wf_map c -> f c = (a, c') -> P a /\ wf_map c') ->
  at_path fuel d path f = Some (a, d') -> P a /\ wf_map d'.
Proof.
  intros Hd Hp Hf. revert d path a d' Hd Hp. induction fuel as [|fuel IH];
    intros d path a d' Hd Hp; simpl; [done|].
  unfold GetDictionaryWithoutPathExpansion, GetWithoutPathExpansion, SetWithoutPathExpansion.
  destruct (find_dot path) as [n|].
  - destruct (map_find d (take n path)) as [[]|] eqn:E; try done. simpl.
    destruct (at_path fuel _ _ f) as [[b c]|] eqn:Ha; [|done]. intros [= <- <-].
    apply IH in Ha as [HP Hc]; [|by apply (wf_find d (take n path)) | by apply Forall_drop].
    split; [done|]. apply wf_set; [done | by apply Forall_take | exact Hc].
  - destruct (map_find d path) as [[]|] eqn:E; try done. simpl.
    destruct (f _) as [b c] eqn:Ha. intros [= <- <-].
    apply Hf in Ha as [HP Hc]; [|by apply (wf_find d path)].
    split; [done|]. by apply wf_set.
Qed.

Lemma wf_remove_key d key v d' :
  wf_map d -> RemoveWithoutPathExpansion d key = Some (v, d') -> wf v /\ wf_map d'.
Proof.
  unfold RemoveWithoutPathExpansion. intros Hd. destruct (map_find d key) eqn:E; [|done].
  intros [= <- <-]. eauto with values.
Qed.

Lemma wf_remove d path v d' :
  wf_map d -> Forall is_byte path -> Remove d path = Some (v, d') -> wf v /\ wf_map d'.
Proof.
  intros Hd Hp. unfold Remove. cbv zeta.
  set (here := fun (d : ValueMap) (key : list Z) =>
    match RemoveWithoutPathExpansion d key with
    | Some (out_value, d) => (Some out_value, d) | None => (None, d) end).
  assert (forall key c a c', wf_map c -> here c key = (a, c') ->
            (forall v, a = Some v -> wf v) /\ wf_map c') as Hhere.
  { intros key c a c' Hc. unfold here.
    destruct (RemoveWithoutPathExpansion c key) as [[w e]|] eqn:E; intros [= <- <-]; [|done].
    apply wf_remove_key in E as [Hw He]; [|done]. split; [by intros ? [= <-] | done]. }
  destruct (rfind_dot path) as [n|].
  - destruct (at_path _ _ _ _) as [[[w|] e]|] eqn:E; try done. intros [= <- <-].
    apply (at_path_ok (fun a => forall v, a = Some v -> wf v)) in E as [Ha He];
      [by auto | done | by apply Forall_take | apply Hhere].
  - destruct (RemoveWithoutPathExpansion d path) as [[w e]|] eqn:E; [|done].
    intros [= <- <-]. by apply wf_remove_key in E.
Qed.

(** A deep copy equals its original and reads the same when every text is gone. *)
Lemma deep_copy_ok st v c :
  store_ok st -> wf v -> DeepCopy st v = Some c ->
  wf c /\ detached c /\ Equals st v c = Some true /\ (forall st', DeepCopy st' c = Some c).
Proof.
  intros Hst Hv Hc. pose proof (wf_copy st v c Hst Hv Hc) as Hwc.
  apply DeepCopy_copy in Hc; [|done]. pose proof (copy_detached st v c Hc) as Hd.
  split_and!; [done | done | by apply copy_Equals |].
  intros st'. by apply DeepCopy_complete, copy_of_detached.
Qed.

(** ** Values whose texts are alive *)

Definition alive (st : Store) (v : Value) : Prop := exists c, copy_of st v c.

Lemma alive_detached st v : detached v -> alive st v.
Proof. intros Hv. exists v. by apply copy_of_detached. Qed.

Lemma alive_DeepCopy st v : wf v -> alive st v -> exists c, DeepCopy st v = Some c.
Proof. intros Hv [c Hc]. exists c. by apply DeepCopy_complete. Qed.

Lemma alive_dictionary st d :
  alive st (DictionaryValue d) <-> Forall (fun e => alive st e.2) d.
Proof.
  split.
  - intros [c Hc]. inversion Hc as [|? Hleaf|? e He|]; subst; [done|]. clear Hc.
    induction He as [|a b d e [_ Hab] He IH]; [constructor|]. constructor; [by exists b.2 | done].
  - intros Hd. assert (exists e, Forall2 (fun a b => a.1 = b.1 /\ copy_of st a.2 b.2) d e) as [e He].
    { induction Hd as [|[k v] d [c Hc] Hd [e IH]]; [by exists []|].
      exists ((k, c) :: e). by constructor. }
    exists (DictionaryValue e). by constructor.
Qed.

Lemma alive_list st l : alive st (ListValue l) <-> Forall (alive st) l.
Proof.
  split.
  - intros [c Hc]. inversion Hc as [|? Hleaf| |? m Hm]; subst; [done|]. clear Hc.
    induction Hm as [|v c l m Hv Hm IH]; [constructor|]. constructor; [by exists c | done].
  - intros Hl. assert (exists m, Forall2 (copy_of st) l m) as [m Hm].
    { induction Hl as [|v l [c Hc] Hl [m IH]]; [by exists []|]. exists (c :: m). by constructor. }
    exists (ListValue m). by constructor.
Qed.

Lemma piece_bytes_mono st st' p s : st ⊆ st' -> piece_bytes st p = Some s -> piece_bytes st' p = Some s.
Proof.
  unfold piece_bytes. intros Hst. destruct (st !! buffer p) as [text|] eqn:E; [|done].
  assert (st' !! buffer p = Some text) as -> by (by eapply lookup_weaken). done.
Qed.

Lemma copy_of_mono st st' v c : st ⊆ st' -> copy_of st v c -> copy_of st' v c.
Proof.
  intros Hst. revert c. induction v as [|b|z|x|s|p|b|d IH|l IH] using Value_ind;
    intros c Hc; inversion Hc as [| |? e He|? m Hm]; subst; try (by apply copy_leaf).
  - apply copy_piece. by eapply piece_bytes_mono.
  - apply copy_dictionary. clear Hc. induction He as [|a b d e [Hk Hab] He IHe]; [constructor|].
    apply Forall_cons in IH as [IHa IH]. constructor; [by split; [|apply IHa] | by apply IHe].
  - apply copy_list. clear Hc. induction Hm as [|a b l m Hab Hm IHm]; [constructor|].
    apply Forall_cons in IH as [IHa IH]. constructor; [by apply IHa | by apply IHm].
Qed.

Lemma alive_mono st st' v : st ⊆ st' -> alive st v -> alive st' v.
Proof. intros Hst [c Hc]. exists c. by eapply copy_of_mono. Qed.

(** The copy is determined by the value and the store. *)
Lemma copy_of_eq st v c c' : wf v -> copy_of st v c -> copy_of st v c' -> c = c'.
Proof. intros Hv Hc%DeepCopy_complete Hc'%DeepCopy_complete; [congruence | done | done]. Qed.

Lemma copy_of_wf_detached st v c : wf v -> detached v -> copy_of st v c -> c = v.
Proof. intros Hv Hd Hc. eapply copy_of_eq; [done | done | by apply copy_of_detached]. Qed.

(** ** What is left after a removal *)

(** The value was under the keys [ks] of [d]; in [d'] nothing is there or below, and
    what is neither above nor below is the same. *)
Record removed (d : ValueMap) (ks : list (list Z)) (v : Value) (d' : ValueMap) : Prop := {
  removed_value : lookup_keys d ks = Some v;
  removed_below : forall js, ks `prefix_of` js -> lookup_keys d' js = None;
  removed_apart : forall js, incomparable ks js -> lookup_keys d' js = lookup_keys d js;
}.

Lemma prefix_nonempty (k : list Z) ks js :
  (k :: ks) `prefix_of` js -> exists js', js = k :: js' /\ ks `prefix_of` js'.
Proof. intros [rest ->]. exists (ks ++ rest). split; [done | by exists rest]. Qed.

Lemma lookup_first_same d d' k js :
  (forall j, j <> k -> map_find d' j = map_find d j) ->
  match js with j :: _ => j <> k | [] => False end -> lookup_keys d' js = lookup_keys d js.
Proof.
  destruct js as [|j js]; [done|]. intros E Hj. specialize (E j Hj).
  destruct js; [by rewrite !lookup_keys_one|]. by rewrite !lookup_keys_cons, E.
Qed.

Lemma removed_one d k v :
  sorted d -> map_find d k = Some v -> removed d [k] v (map_erase d k).
Proof.
  intros Hs Hk. split; [by rewrite lookup_keys_one| |].
  - intros js (js' & -> & _)%prefix_nonempty.
    destruct js'; rewrite ?lookup_keys_one, ?lookup_keys_cons; by rewrite find_erase_eq.
  - intros js Hi. apply (lookup_first_same _ _ k); [intros j Hj; by apply find_erase_ne|].
    destruct js as [|j js]; [destruct Hi as [_ H]; apply H, prefix_nil|].
    intros ->. destruct Hi as [H _]. apply H, prefix_cons, prefix_nil.
Qed.

Lemma removed_cons d k l ks v child child' d' :
  map_find d k = Some (DictionaryValue child) -> removed child (l :: ks) v child' ->
  map_find d' k = Some (DictionaryValue child') \/ map_find d' k = None /\ child' = [] ->
  (forall j, j <> k -> map_find d' j = map_find d j) ->
  removed d (k :: l :: ks) v d'.
Proof.
  intros Hk [Hv Hb Ha] Hk' Hj. split.
  - by rewrite lookup_keys_cons, Hk.
  - intros js (js' & -> & Hp)%prefix_nonempty. pose proof Hp as (js'' & -> & _)%prefix_nonempty.
    rewrite lookup_keys_cons. destruct Hk' as [-> | [-> _]]; [by apply Hb | done].
  - intros js Hi. destruct js as [|j js]; [destruct Hi as [_ H]; destruct H; apply prefix_nil|].
    destruct (decide (j = k)) as [-> | Hne]; [|by apply (lookup_first_same _ _ k)].
    apply incomparable_cons in Hi.
    destruct js as [|m js]; [destruct Hi as [_ H]; destruct H; apply prefix_nil|].
    rewrite !lookup_keys_cons, Hk, <- Ha by done.
    destruct Hk' as [-> | [-> ->]]; [done|]. by rewrite lookup_keys_nil.
Qed.

Lemma remove_keys_removed d ks v d' : wf_map d -> remove_keys d ks = Some (v, d') -> removed d ks v d'.
Proof.
  revert d d'. induction ks as [|k [|l ks] IH]; intros d d' Hw; [done| |].
  - simpl. destruct (map_find d k) eqn:E; [|done]. intros [= -> <-].
    apply removed_one; [|done]. by apply wf_map_alt in Hw as [? _].
  - rewrite remove_keys_cons. destruct (map_find d k) as [[]|] eqn:E; try done.
    destruct (remove_keys _ (l :: ks)) as [[w child']|] eqn:Er; [|done]. cbn [mbind option_bind].
    intros [= -> <-]. apply IH in Er; [|by apply (wf_find _ _ _ Hw E)].
    assert (sorted (map_set d k (DictionaryValue child'))) as Hs
      by (apply sorted_set; by apply wf_map_alt in Hw as [? _]).
    apply (removed_cons _ _ _ _ _ _ child' _ E Er).
    + destruct child'; [right; split; [by apply find_erase_eq | done] | left; apply find_set_eq].
    + intros j Hne. destruct child'; rewrite ?find_erase_ne, ?find_set_ne; done.
Qed.

Lemma delete_keys_removed d ks v d' : wf_map d -> delete_keys d ks = Some (v, d') -> removed d ks v d'.
Proof.
  revert d d'. induction ks as [|k [|l ks] IH]; intros d d' Hw; [done| |].
  - simpl. destruct (map_find d k) eqn:E; [|done]. intros [= -> <-].
    apply removed_one; [|done]. by apply wf_map_alt in Hw as [? _].
  - rewrite delete_keys_cons. destruct (map_find d k) as [[]|] eqn:E; try done.
    destruct (delete_keys _ (l :: ks)) as [[w child']|] eqn:Er; [|done]. cbn [mbind option_bind].
    intros [= -> <-]. apply IH in Er; [|by apply (wf_find _ _ _ Hw E)].
    apply (removed_cons _ _ _ _ _ _ child' _ E Er); [left; apply find_set_eq|].
    intros j Hne. by apply find_set_ne.
Qed.

(** Above the keys, one removal leaves no empty dictionary and the other leaves the
    dictionaries. *)
Lemma remove_keys_above d ks rest v d' :
  wf_map d -> ks <> [] -> rest <> [] -> remove_keys d (ks ++ rest) = Some (v, d') ->
  lookup_keys d' ks <> Some (DictionaryValue []).
Proof.
  intros Hw Hk Hr. revert d d' Hw. induction ks as [|k ks IH]; intros d d' Hw; [done|].
  assert (exists l js, ks ++ rest = l :: js) as (l & js & Ej)
    by (destruct (ks ++ rest) eqn:Ej; [by apply app_nil in Ej as [_ ->] | by eexists _, _]).
  rewrite <- app_comm_cons, Ej, remove_keys_cons. destruct (map_find d k) as [[]|] eqn:E; try done.
  destruct (remove_keys _ (l :: js)) as [[w child']|] eqn:Er; [|done]. cbn [mbind option_bind].
  intros [= -> <-]. pose proof (wf_find _ _ _ Hw E) as Hc.
  assert (sorted (map_set d k (DictionaryValue child'))) as Hs
    by (apply sorted_set; by apply wf_map_alt in Hw as [? _]).
  destruct ks as [|m ks].
  - rewrite lookup_keys_one. destruct child'; [by rewrite find_erase_eq | by rewrite find_set_eq].
  - rewrite lookup_keys_cons. rewrite <- Ej in Er. apply IH in Er; [|done|done].
    destruct child'; [by rewrite find_erase_eq | by rewrite find_set_eq].
Qed.

Lemma delete_keys_above d ks rest v d' :
  ks <> [] -> rest <> [] -> delete_keys d (ks ++ rest) = Some (v, d') ->
  exists child, lookup_keys d' ks = Some (DictionaryValue child).
Proof.
  intros Hk Hr. revert d d'. induction ks as [|k ks IH]; intros d d'; [done|].
  assert (exists l js, ks ++ rest = l :: js) as (l & js & Ej)
    by (destruct (ks ++ rest) eqn:Ej; [by apply app_nil in Ej as [_ ->] | by eexists _, _]).
  rewrite <- app_comm_cons, Ej, delete_keys_cons. destruct (map_find d k) as [[]|] eqn:E; try done.
  destruct (delete_keys _ (l :: js)) as [[w child']|] eqn:Er; [|done]. cbn [mbind option_bind].
  intros [= -> <-]. destruct ks as [|m ks].
  - rewrite lookup_keys_one, find_set_eq. by eexists.
  - rewrite lookup_keys_cons, find_set_eq. rewrite <- Ej in Er. by apply IH in Er.
Qed.

Lemma delete_keys_lookup d ks : ks <> [] -> fst <$> delete_keys d ks = lookup_keys d ks.
Proof.
  revert d. induction ks as [|k [|l ks] IH]; intros d Hne; [done | |].
  - simpl. by destruct (map_find d k).
  - rewrite delete_keys_cons, lookup_keys_cons. destruct (map_find d k) as [[]|]; try done.
    rewrite <- IH by done. by destruct (delete_keys _ _) as [[v c]|].
Qed.

(** [Remove] finds the last delimiter, and its dictionary from the path before. *)
Lemma components_snoc_key path key :
  find_dot key = None -> components (path ++ chr_dot :: key) = components path ++ [key].
Proof.
  intros Hk. induction path as [|c path IH]; simpl.
  - by rewrite components_find, Hk.
  - rewrite IH. destruct (components_cons path) as (k & ks & ->). by destruct (c =? chr_dot).
Qed.

Lemma rfind_dot_split path :
  match rfind_dot path with
  | None => find_dot path = None
  | Some n => path = take n path ++ chr_dot :: drop (S n) path /\ find_dot (drop (S n) path) = None
  end.
Proof.
  induction path as [|c path IH]; [done|]. cbn [rfind_dot]. destruct (rfind_dot path) as [n|].
  - destruct IH as [E IH]. cbn [take drop]. rewrite <- app_comm_cons, <- E. by split.
  - destruct (Z.eqb_spec c chr_dot) as [-> | Hne]; [by split|].
    cbn [find_dot]. by rewrite (proj2 (Z.eqb_neq _ _) Hne), IH.
Qed.

(** Some of the keys lead to a dictionary, in which the last one is removed. *)
Lemma at_path_delete fuel d path key :
  (length path < fuel)%nat ->
  match
    at_path fuel d path
      (fun c => match RemoveWithoutPathExpansion c key with
                | Some (out_value, d) => (Some out_value, d)
                | None => (None, c)
                end)
  with
  | Some (Some out_value, d) => Some (out_value, d)
  | _ => None
  end = delete_keys d (components path ++ [key]).
Proof.
  revert d path. induction fuel as [|fuel IH]; intros d path Hf; [lia|].
  rewrite components_find. simpl.
  unfold GetDictionaryWithoutPathExpansion, GetWithoutPathExpansion, SetWithoutPathExpansion.
  destruct (find_dot path) as [n|] eqn:E.
  - pose proof (find_dot_lt _ _ E).
    destruct (components_cons (drop (S n) path)) as (k & ks & Hk). rewrite Hk.
    change ((take n path :: k :: ks) ++ [key]) with (take n path :: k :: (ks ++ [key])).
    rewrite delete_keys_cons. destruct (map_find d (take n path)) as [[]|]; try done.
    cbn [mbind option_bind]. change (k :: (ks ++ [key])) with ((k :: ks) ++ [key]). rewrite <- Hk, <- IH
      by (rewrite length_drop; lia).
    by destruct (at_path fuel _ _ _) as [[[w|] e]|].
  - change ([path] ++ [key]) with (path :: [key]). rewrite delete_keys_cons.
    destruct (map_find d path) as [[]|]; try done. cbn [mbind option_bind].
    unfold RemoveWithoutPathExpansion. simpl. by destruct (map_find _ key).
Qed.

Lemma Remove_keys d path : Remove d path = delete_keys d (components path).
Proof.
  unfold Remove. cbv zeta. pose proof (rfind_dot_split path) as Hd. destruct (rfind_dot path) as [n|].
  - destruct Hd as [E Hk]. rewrite at_path_delete by (rewrite length_take; lia).
    by rewrite <- components_snoc_key, <- E.
  - rewrite components_find, Hd. simpl. unfold RemoveWithoutPathExpansion. by destruct (map_find d path).
Qed.

(** * Theorems *)

(** C32: A dictionary is a map from paths. [Set] stores the value at the path, keeps
    the dictionary well formed and leaves every path that neither extends nor begins
    this one as it was; above the path there are dictionaries, below it the inside of
    the value. [RemovePath] and [Remove] fail exactly when [Get] does. Otherwise they
    hand out the value that was there, and the dictionary, still well formed, has
    nothing at the path or below it any more and is the same at all paths that
    neither extend nor begin it; [RemovePath] leaves no empty dictionary above the
    path, [Remove] leaves all of the dictionaries there. When the first key of the
    path is free, [RemovePath] undoes [Set]. *)
Theorem dictionaries_are_maps_from_paths d path v :
  wf_map d -> Forall is_byte path -> wf v ->
  (let e := Set_ d path v in
   wf_map e /\ Get e path = Some v /\
   (forall q, apart_paths path q -> Get e q = Get d q) /\
   (forall q rest, components path = components q ++ rest -> rest <> [] ->
      exists child, GetDictionary e q = Some child) /\
   (forall q rest, components q = components path ++ rest -> rest <> [] ->
      Get e q = match v with DictionaryValue child => lookup_keys child rest | _ => None end) /\
   (HasKey d (default [] (head (components path))) = false -> RemovePath e path = Some (v, d))) /\
  match Get d path with
  | None => RemovePath d path = None /\ Remove d path = None
  | Some w =>
      exists pruned kept, RemovePath d path = Some (w, pruned) /\ Remove d path = Some (w, kept) /\
        wf w /\ wf_map pruned /\ wf_map kept /\
        (forall q, components path `prefix_of` components q -> Get pruned q = None /\ Get kept q = None) /\
        (forall q, apart_paths path q -> Get pruned q = Get d q /\ Get kept q = Get d q) /\
        (forall q rest, components path = components q ++ rest -> rest <> [] ->
           GetDictionary pruned q <> Some [] /\ exists child, GetDictionary kept q = Some child)
  end.
Proof.
  intros Hd Hp Hv. pose proof (components_bytes path Hp) as Hb.
  assert (forall q rest, components path = components q ++ rest -> rest <> [] -> components q <> [])
    as Hne by (intros q rest _ _; apply components_nonempty).
  split; [intros e; unfold e; split_and!|].
  - rewrite Set_keys. by apply wf_set_keys.
  - apply Get_Set_same.
  - intros q. apply Get_Set_apart.
  - intros q rest E Hr. unfold GetDictionary. rewrite Get_keys, Set_keys, E.
    destruct (lookup_set_above d (components q) rest v) as [child ->]; [by eapply Hne | done|]. by eexists.
  - intros q rest E Hr. rewrite Get_keys, Set_keys, E. apply lookup_set_below; [|done].
    apply components_nonempty.
  - destruct (components_cons path) as (k & ks & Hk).
    rewrite RemovePath_keys, Set_keys, Hk. unfold HasKey. simpl. intros Hf.
    apply remove_set_fresh; [by apply wf_map_alt in Hd as [? _]|]. by destruct (map_find d k).
  - rewrite Get_keys, RemovePath_keys, Remove_keys.
    pose proof (remove_keys_lookup d _ (components_nonempty path)) as Hr.
    pose proof (delete_keys_lookup d _ (components_nonempty path)) as Hk. rewrite <- Hr in Hk |- *.
    destruct (remove_keys d (components path)) as [[w pruned]|] eqn:Er;
      destruct (delete_keys d (components path)) as [[w' kept]|] eqn:Ek; try done. simpl in *.
    injection Hk as ->. exists pruned, kept.
    destruct (wf_remove_keys _ _ _ _ Hd Hb Er) as [Hw Hpr].
    assert (wf_map kept) as Hke by (by eapply wf_remove; [exact Hd | exact Hp | by rewrite Remove_keys]).
    pose proof (remove_keys_removed _ _ _ _ Hd Er) as [_ Hpb Hpa].
    pose proof (delete_keys_removed _ _ _ _ Hd Ek) as [_ Hkb Hka].
    split_and!; try done.
    + intros q Hq. rewrite !Get_keys. auto.
    + intros q Hq. rewrite !Get_keys. auto.
    + intros q rest E Hrest. unfold GetDictionary. rewrite !Get_keys. rewrite E in Er, Ek.
      pose proof (remove_keys_above _ _ _ _ _ Hd (components_nonempty q) Hrest Er) as Hab.
      destruct (delete_keys_above _ _ _ _ _ (components_nonempty q) Hrest Ek) as [child ->].
      split; [|by eexists]. destruct (lookup_keys pruned (components q)) as [[]|]; try done.
      intros [= ->]. by apply Hab.
Qed.

(** In [{a: {b: 1}, c: 2}], the path [a.b]: the value 7 is set; the value 1 is removed. *)
Lemma dictionaries_are_maps_from_paths_witness :
  let d := [([97], DictionaryValue [([98], IntegerValue 1)]); ([99], IntegerValue 2)] in
  let path := [97; 46; 98] in
  let v := IntegerValue 7 in
  Get d path = Some (IntegerValue 1) /\
  (let e := Set_ d path v in
   wf_map e /\ Get e path = Some v /\
   (forall q, apart_paths path q -> Get e q = Get d q) /\
   (forall q rest, components path = components q ++ rest -> rest <> [] ->
      exists child, GetDictionary e q = Some child) /\
   (forall q rest, components q = components path ++ rest -> rest <> [] ->
      Get e q = match v with DictionaryValue child => lookup_keys child rest | _ => None end) /\
   (HasKey d (default [] (head (components path))) = false -> RemovePath e path = Some (v, d))) /\
  exists pruned kept, RemovePath d path = Some (IntegerValue 1, pruned) /\
    Remove d path = Some (IntegerValue 1, kept) /\
    wf (IntegerValue 1) /\ wf_map pruned /\ wf_map kept /\
    (forall q, components path `prefix_of` components q -> Get pruned q = None /\ Get kept q = None) /\
    (forall q, apart_paths path q -> Get pruned q = Get d q /\ Get kept q = Get d q) /\
    (forall q rest, components path = components q ++ rest -> rest <> [] ->
       GetDictionary pruned q <> Some [] /\ exists child, GetDictionary kept q = Some child).
Proof.
  intros d path v. split; [reflexivity|]. apply (dictionaries_are_maps_from_paths d path v).
  - repeat constructor; try (vm_compute; congruence).
  - repeat constructor; vm_compute; congruence.
  - repeat constructor; vm_compute; congruence.
Defined.

(** What [MergeDictionary] computes. If the texts of the argument are alive,
    it succeeds, and under every key it leaves the merge of the two
    dictionaries where both had one, the copy of the argument's entry where the
    argument has one, and the old entry elsewhere. *)
Theorem merge_dictionary_functional st d dictionary :
  wf_map dictionary -> is_Some (DeepCopy st (DictionaryValue dictionary)) ->
  exists result, MergeDictionary st d dictionary = Some result /\
    forall key, merged st (map_find dictionary key) (map_find d key) (map_find result key).
Proof.
  intros Hwf [c Hc]. destruct (merge_total st _ c d Hwf Hc) as [m Hm].
  exists m. split; [done|]. change (MergeDictionary st d dictionary = Some m) in Hm.
  rewrite MergeDictionary_entries in Hm. apply merge_entries_spec; [|done].
  by apply wf_map_alt in Hwf as [Hs _].
Qed.

Lemma merge_dictionary_functional_witness :
  exists result,
    MergeDictionary ∅ [([97], DictionaryValue [([98], IntegerValue 1)])]
      [([97], DictionaryValue [([99], IntegerValue 2)])] = Some result /\
    forall key, merged ∅
      (map_find [([97], DictionaryValue [([99], IntegerValue 2)])] key)
      (map_find [([97], DictionaryValue [([98], IntegerValue 1)])] key) (map_find result key).
Proof.
  apply (merge_dictionary_functional ∅ [([97], DictionaryValue [([98], IntegerValue 1)])]
    [([97], DictionaryValue [([99], IntegerValue 2)])]).
  - repeat constructor; try (vm_compute; congruence).
  - vm_compute. eexists. reflexivity.
Defined.
