(* ===== verification/PrefStores.v ===== *)
(** * Preference stores

    [base/prefs/pref_value_map.cc], [value_map_pref_store.cc],
    [default_pref_store.cc], [pref_registry.cc] and [overlay_user_pref_store.cc].

    A store is what the classes below say. An operation that notifies returns the
    keys it reports, in order, after it has changed the store: the observers are
    lists of [ObserverList], whose notifications are machines of their own.
    [WriteableLaws] is what a store promises to the service above it; the map
    store keeps the promises for every key, the overlay for the keys that no
    other name of the overlay aliases, over any store that keeps them. *)
From Stdlib Require Import ZArith Lia Sorted.
From stdpp Require Import base numbers option sets gmap list.
From S2P Require Import Prelude Unicode Values.
Local Open Scope Z_scope.

(** ** [PrefValueMap] *)

Definition PrefValueMap : Type := ValueMap.

Definition PrefValueMap_GetValue (prefs_ : PrefValueMap) (key : list Z) : option Value :=
  map_find prefs_ key.

(** Whether the map changed, and the map; [None] is a string that is not alive. *)
Definition PrefValueMap_SetValue (st : Store) (prefs_ : PrefValueMap) (key : list Z)
    (value : Value) : option (bool * PrefValueMap) :=
  match map_find prefs_ key with
  | Some old =>
      same ← Equals st old value;
      if same : bool then Some (false, prefs_) else Some (true, map_set prefs_ key value)
  | None => Some (true, map_set prefs_ key value)
  end.

Definition PrefValueMap_RemoveValue (prefs_ : PrefValueMap) (key : list Z)
    : bool * PrefValueMap :=
  match map_find prefs_ key with
  | Some _ => (true, map_erase prefs_ key)
  | None => (false, prefs_)
  end.

Definition PrefValueMap_GetBoolean (prefs_ : PrefValueMap) (key : list Z) : option bool :=
  PrefValueMap_GetValue prefs_ key ≫= GetAsBoolean.

Definition PrefValueMap_GetInteger (prefs_ : PrefValueMap) (key : list Z) : option Z :=
  PrefValueMap_GetValue prefs_ key ≫= GetAsInteger.

Definition PrefValueMap_GetString (st : Store) (prefs_ : PrefValueMap) (key : list Z)
    : option (option (list Z)) :=
  match PrefValueMap_GetValue prefs_ key with
  | Some v => GetAsString st v
  | None => Some None
  end.

(** The walk over both maps in lockstep; what is left of one when the other is
    at its end is different. *)
Fixpoint GetDifferingKeys (st : Store) (this_pref : PrefValueMap)
    : PrefValueMap -> option (list (list Z)) :=
  fix walk (other_pref : PrefValueMap) : option (list (list Z)) :=
    match this_pref, other_pref with
    | [], _ => Some (fst <$> other_pref)
    | _, [] => Some (fst <$> this_pref)
    | (k, v) :: this, (l, w) :: other =>
        if bool_decide (k = l) then
          same ← Equals st v w;
          keys ← GetDifferingKeys st this other;
          Some (if same : bool then keys else k :: keys)
        else if key_lt k l then keys ← GetDifferingKeys st this other_pref; Some (k :: keys)
        else keys ← walk other; Some (l :: keys)
    end.

(** ** The interfaces *)

Class PrefStore (S : Type) := {
  store_GetValue : S -> list Z -> option Value;
  store_IsInitializationComplete : S -> bool;
  (** The texts that its values may point into. *)
  store_texts : S -> Store;
}.

Class WriteablePrefStore (S : Type) `{PrefStore S} := {
  store_SetValue : S -> list Z -> Value -> option (S * list (list Z));
  store_RemoveValue : S -> list Z -> S * list (list Z);
  store_GetMutableValue : S -> list Z -> option (option Value * S);
  store_SetValueSilently : S -> list Z -> Value -> option S;
  store_ReportValueChanged : S -> list Z -> S * list (list Z);
}.

(** ** [ValueMapPrefStore] and [DefaultPrefStore] *)

Record ValueMapPrefStore := ValueMapPrefStore_ { map_prefs_ : PrefValueMap }.

(** Its values own their strings. *)
#[export] Instance ValueMapPrefStore_store : PrefStore ValueMapPrefStore := {
  store_GetValue s key := PrefValueMap_GetValue (map_prefs_ s) key;
  store_IsInitializationComplete _ := true;
  store_texts _ := ∅;
}.

Definition ValueMapPrefStore_SetValue (s : ValueMapPrefStore) (key : list Z) (value : Value)
    : option (ValueMapPrefStore * list (list Z)) :=
  '(changed, prefs) ← PrefValueMap_SetValue ∅ (map_prefs_ s) key value;
  Some (ValueMapPrefStore_ prefs, if changed : bool then [key] else []).

Definition ValueMapPrefStore_RemoveValue (s : ValueMapPrefStore) (key : list Z)
    : ValueMapPrefStore * list (list Z) :=
  let '(removed, prefs) := PrefValueMap_RemoveValue (map_prefs_ s) key in
  (ValueMapPrefStore_ prefs, if removed then [key] else []).

Definition ValueMapPrefStore_SetValueSilently (s : ValueMapPrefStore) (key : list Z)
    (value : Value) : option ValueMapPrefStore :=
  '(_, prefs) ← PrefValueMap_SetValue ∅ (map_prefs_ s) key value; Some (ValueMapPrefStore_ prefs).

#[export] Instance ValueMapPrefStore_writeable : WriteablePrefStore ValueMapPrefStore := {
  store_SetValue := ValueMapPrefStore_SetValue;
  store_RemoveValue := ValueMapPrefStore_RemoveValue;
  store_GetMutableValue s key := Some (PrefValueMap_GetValue (map_prefs_ s) key, s);
  store_SetValueSilently := ValueMapPrefStore_SetValueSilently;
  store_ReportValueChanged s key := (s, [key]);
}.

Record DefaultPrefStore := DefaultPrefStore_ { default_prefs_ : PrefValueMap }.

#[export] Instance DefaultPrefStore_store : PrefStore DefaultPrefStore := {
  store_GetValue s key := PrefValueMap_GetValue (default_prefs_ s) key;
  store_IsInitializationComplete _ := true;
  store_texts _ := ∅;
}.

(** [None] is a failed [DCHECK] or a string that is not alive. *)
Definition SetDefaultValue (s : DefaultPrefStore) (key : list Z) (value : Value)
    : option DefaultPrefStore :=
  guard (store_GetValue s key = None);;
  '(_, prefs) ← PrefValueMap_SetValue ∅ (default_prefs_ s) key value;
  Some (DefaultPrefStore_ prefs).

(** The default that is replaced must be there. *)
Definition ReplaceDefaultValue (s : DefaultPrefStore) (key : list Z) (value : Value)
    : option (DefaultPrefStore * list (list Z)) :=
  old_value ← store_GetValue s key;
  same ← Equals ∅ old_value value;
  '(_, prefs) ← PrefValueMap_SetValue ∅ (default_prefs_ s) key value;
  Some (DefaultPrefStore_ prefs, if same : bool then [] else [key]).

(** ** [PrefRegistry] *)

Definition SetDefaultPrefValue (defaults_ : DefaultPrefStore) (pref_name : list Z) (value : Value)
    : option (DefaultPrefStore * list (list Z)) :=
  current_value ← store_GetValue defaults_ pref_name;
  guard (IsType (GetType current_value) value = true);;
  ReplaceDefaultValue defaults_ pref_name value.

Definition RegisterPreference (defaults_ : DefaultPrefStore) (path : list Z)
    (default_value : Value) : option DefaultPrefStore :=
  guard (GetType default_value <> TYPE_NULL /\ GetType default_value <> TYPE_BINARY);;
  guard (store_GetValue defaults_ path = None);;
  SetDefaultValue defaults_ path default_value.

(** ** [OverlayUserPrefStore] *)

(** [std::map<std::string, std::string>] *)
Fixpoint names_find (names : list (list Z * list Z)) (key : list Z) : option (list Z) :=
  match names with
  | [] => None
  | (k, n) :: names => if bool_decide (k = key) then Some n else names_find names key
  end.

Record OverlayUserPrefStore (U : Type) := OverlayUserPrefStore_ {
  overlay_ : PrefValueMap;
  underlay_ : U;
  overlay_to_underlay_names_map_ : list (list Z * list Z);
  underlay_to_overlay_names_map_ : list (list Z * list Z);
}.
Arguments OverlayUserPrefStore_ {U}.
Arguments overlay_ {U}.
Arguments underlay_ {U}.
Arguments overlay_to_underlay_names_map_ {U}.
Arguments underlay_to_overlay_names_map_ {U}.

Definition new_OverlayUserPrefStore {U} (underlay : U) : OverlayUserPrefStore U :=
  OverlayUserPrefStore_ [] underlay [] [].

Section Overlay.
Context {U : Type} `{WriteablePrefStore U}.
Implicit Types s : OverlayUserPrefStore U.

Definition GetOverlayKey s (underlay_key : list Z) : list Z :=
  default underlay_key (names_find (underlay_to_overlay_names_map_ s) underlay_key).

Definition GetUnderlayKey s (overlay_key : list Z) : list Z :=
  default overlay_key (names_find (overlay_to_underlay_names_map_ s) overlay_key).

Definition ShallBeStoredInOverlay s (key : list Z) : bool :=
  bool_decide (is_Some (names_find (overlay_to_underlay_names_map_ s) key)).

Definition IsSetInOverlay s (key : list Z) : bool :=
  bool_decide (is_Some (PrefValueMap_GetValue (overlay_ s) key)).

(** The four [DCHECK]s and the two entries. *)
Definition RegisterOverlayPref s (overlay_key underlay_key : list Z)
    : option (OverlayUserPrefStore U) :=
  guard (overlay_key <> [] /\ names_find (overlay_to_underlay_names_map_ s) overlay_key = None);;
  guard (underlay_key <> [] /\ names_find (underlay_to_overlay_names_map_ s) underlay_key = None);;
  Some (OverlayUserPrefStore_ (overlay_ s) (underlay_ s)
          ((overlay_key, underlay_key) :: overlay_to_underlay_names_map_ s)
          ((underlay_key, overlay_key) :: underlay_to_overlay_names_map_ s)).

Definition set_overlay s (overlay : PrefValueMap) : OverlayUserPrefStore U :=
  OverlayUserPrefStore_ overlay (underlay_ s) (overlay_to_underlay_names_map_ s)
    (underlay_to_overlay_names_map_ s).

Definition set_underlay s (underlay : U) : OverlayUserPrefStore U :=
  OverlayUserPrefStore_ (overlay_ s) underlay (overlay_to_underlay_names_map_ s)
    (underlay_to_overlay_names_map_ s).

(** [OnPrefValueChanged] of the underlay: what the overlay reports for it. *)
Definition OnPrefValueChanged s (key : list Z) : list (list Z) :=
  if IsSetInOverlay s (GetOverlayKey s key) then [] else [GetOverlayKey s key].

Definition Overlay_GetValue s (key : list Z) : option Value :=
  match PrefValueMap_GetValue (overlay_ s) key with
  | Some value => Some value
  | None => store_GetValue (underlay_ s) (GetUnderlayKey s key)
  end.

Definition Overlay_GetMutableValue s (key : list Z)
    : option (option Value * OverlayUserPrefStore U) :=
  if negb (ShallBeStoredInOverlay s key) then
    '(result, underlay) ← store_GetMutableValue (underlay_ s) (GetUnderlayKey s key);
    Some (result, set_underlay s underlay)
  else match PrefValueMap_GetValue (overlay_ s) key with
  | Some value => Some (Some value, s)
  | None =>
      '(underlay_value, underlay) ← store_GetMutableValue (underlay_ s) (GetUnderlayKey s key);
      let s := set_underlay s underlay in
      match underlay_value with
      | None => Some (None, s)
      | Some underlay_value =>
          result ← DeepCopy (store_texts underlay) underlay_value;
          '(_, overlay) ← PrefValueMap_SetValue (store_texts underlay) (overlay_ s) key result;
          Some (Some result, set_overlay s overlay)
      end
  end.

Definition Overlay_SetValue s (key : list Z) (value : Value)
    : option (OverlayUserPrefStore U * list (list Z)) :=
  if negb (ShallBeStoredInOverlay s key) then
    '(underlay, reports) ← store_SetValue (underlay_ s) (GetUnderlayKey s key) value;
    let s := set_underlay s underlay in
    Some (s, reports ≫= OnPrefValueChanged s)
  else
    '(changed, overlay) ← PrefValueMap_SetValue (store_texts (underlay_ s)) (overlay_ s) key value;
    Some (set_overlay s overlay, if changed : bool then [key] else []).

Definition Overlay_SetValueSilently s (key : list Z) (value : Value)
    : option (OverlayUserPrefStore U) :=
  if negb (ShallBeStoredInOverlay s key) then
    set_underlay s <$> store_SetValueSilently (underlay_ s) (GetUnderlayKey s key) value
  else
    '(_, overlay) ← PrefValueMap_SetValue (store_texts (underlay_ s)) (overlay_ s) key value;
    Some (set_overlay s overlay).

Definition Overlay_RemoveValue s (key : list Z) : OverlayUserPrefStore U * list (list Z) :=
  if negb (ShallBeStoredInOverlay s key) then
    let '(underlay, reports) := store_RemoveValue (underlay_ s) (GetUnderlayKey s key) in
    let s := set_underlay s underlay in
    (s, reports ≫= OnPrefValueChanged s)
  else
    let '(removed, overlay) := PrefValueMap_RemoveValue (overlay_ s) key in
    (set_overlay s overlay, if removed then [key] else []).

#[export] Instance Overlay_store : PrefStore (OverlayUserPrefStore U) := {
  store_GetValue := Overlay_GetValue;
  store_IsInitializationComplete s := store_IsInitializationComplete (underlay_ s);
  store_texts s := store_texts (underlay_ s);
}.

#[export] Instance Overlay_writeable : WriteablePrefStore (OverlayUserPrefStore U) := {
  store_SetValue := Overlay_SetValue;
  store_RemoveValue := Overlay_RemoveValue;
  store_GetMutableValue := Overlay_GetMutableValue;
  store_SetValueSilently := Overlay_SetValueSilently;
  store_ReportValueChanged s key := (s, [key]);
}.
End Overlay.

(** ** Comparing values *)

(** Values whose texts are alive can be compared. *)
Lemma Equals_total st v w : alive st v -> alive st w -> exists b, Equals st v w = Some b.
Proof.
  assert (forall v w, alive st v -> alive st w -> exists b, leaf_equals st v w = Some b) as Hleaf.
  { assert (forall v, alive st v -> exists s, GetAsString st v = Some s) as Hstr.
    { intros u [c Hc]. destruct u; simpl; eauto. inversion Hc as [p s Hp| | |]; subst; [|done].
      rewrite Hp. simpl. eauto. }
    intros u x Hu Hx. destruct (Hstr u Hu) as [s Hs], (Hstr x Hx) as [t Ht].
    unfold leaf_equals. rewrite Hs, Ht. simpl. destruct u, x, s, t; eauto. }
  revert w. induction v as [|b|z|x|s|p|b|d IH|l IH] using Value_ind; intros w Hv Hw;
    try (destruct w; simpl; try (by eexists);
         match goal with |- exists b, leaf_equals st ?a ?c = Some b => apply (Hleaf a c Hv Hw)
         | _ => idtac end); try (by apply (Hleaf _ _ Hv Hw)).
  - apply alive_dictionary in Hv, Hw. clear Hleaf. rename dictionary_ into e. revert e Hw.
    induction d as [|[k u] d IHd]; intros [|[l x] e] Hw; simpl; eauto.
    case_bool_decide; simpl; [|eauto].
    apply Forall_cons in IH as [IHu IH], Hv as [Hu Hv], Hw as [Hx Hw]. simpl in *.
    destruct (IHu x Hu Hx) as [[|] ->]; simpl; [|eauto]. by apply IHd.
  - apply alive_list in Hv, Hw. clear Hleaf. rename list_ into m. revert m Hw.
    induction l as [|u l IHl]; intros [|x m] Hw; simpl; eauto.
    apply Forall_cons in IH as [IHu IH], Hv as [Hu Hv], Hw as [Hx Hw].
    destruct (IHu x Hu Hx) as [[|] ->]; simpl; [|eauto]. by apply IHl.
Qed.

(** Two maps differ under a key. *)
Definition differ (st : Store) (v w : option Value) : Prop :=
  match v, w with
  | Some v, Some w => Equals st v w = Some false
  | None, None => False
  | _, _ => True
  end.

Lemma elem_of_keys (d : ValueMap) k : k ∈ fst <$> d <-> is_Some (map_find d k).
Proof.
  rewrite <- not_eq_None_Some, find_None, <- list_elem_of_In. change (map fst d) with (fst <$> d).
  split; [tauto | apply dec_stable].
Qed.

(** The keys of a list are ordered, each once. *)
Definition key_order (keys : list (list Z)) : Prop :=
  StronglySorted (fun a b => key_lt a b = true) keys.

Definition key_below (k : list Z) (keys : list (list Z)) : Prop :=
  forall l, l ∈ keys -> key_lt k l = true.

Lemma key_order_cons k keys : key_order (k :: keys) <-> key_order keys /\ key_below k keys.
Proof.
  unfold key_order, key_below. split.
  - intros [Hs Hf]%StronglySorted_inv. split; [done|]. by apply Forall_forall.
  - intros [Hs Hf]. constructor; [done|]. by apply Forall_forall.
Qed.

Lemma sorted_below k v (d : ValueMap) :
  sorted ((k, v) :: d) <-> sorted d /\ key_below k (fst <$> d).
Proof.
  rewrite sorted_cons. unfold key_below. setoid_rewrite <- list_elem_of_In. done.
Qed.

Lemma key_below_trans k l keys : key_lt k l = true -> key_below l keys -> key_below k keys.
Proof. intros Hkl Hl m Hm. eapply key_lt_trans; [exact Hkl | by apply Hl]. Qed.

Lemma find_key_below (d : ValueMap) k : key_below k (fst <$> d) -> map_find d k = None.
Proof.
  intros Hb. apply eq_None_not_Some. rewrite <- elem_of_keys. intros Hin%Hb.
  by rewrite key_lt_irrefl in Hin.
Qed.

(** What a walk over two maps returns. *)
Definition differing (st : Store) (a b : ValueMap) (keys : list (list Z)) : Prop :=
  key_order keys /\ forall k, k ∈ keys <-> differ st (map_find a k) (map_find b k).

Lemma differing_sides st a b keys k :
  differing st a b keys -> key_below k (fst <$> a) -> key_below k (fst <$> b) -> key_below k keys.
Proof.
  intros [_ Hd] Ha Hb l Hl. apply Hd in Hl.
  destruct (map_find a l) as [v|] eqn:Ea; [apply Ha, elem_of_keys; by rewrite Ea|].
  destruct (map_find b l) as [w|] eqn:Eb; [apply Hb, elem_of_keys; by rewrite Eb | done].
Qed.

(** The smaller of two heads is in one of the maps only. *)
Lemma differing_left st k v a b keys :
  sorted ((k, v) :: a) -> key_below k (fst <$> b) -> differing st a b keys ->
  differing st ((k, v) :: a) b (k :: keys).
Proof.
  intros [Ha Hk]%sorted_below Hb Hd. split.
  { apply key_order_cons. split; [apply Hd|]. by apply (differing_sides st a b). }
  intros l. rewrite elem_of_cons. simpl. case_bool_decide as E.
  - subst l. rewrite (find_key_below b k Hb). split; [done|]. by left.
  - destruct Hd as [_ Hd]. rewrite Hd. split; [by intros [->|]|]. by right.
Qed.

Lemma differing_right st k v a b keys :
  sorted ((k, v) :: b) -> key_below k (fst <$> a) -> differing st a b keys ->
  differing st a ((k, v) :: b) (k :: keys).
Proof.
  intros [Hb Hk]%sorted_below Ha Hd. split.
  { apply key_order_cons. split; [apply Hd|]. by apply (differing_sides st a b). }
  intros l. rewrite elem_of_cons. simpl. case_bool_decide as E.
  - subst l. rewrite (find_key_below a k Ha). split; [done|]. by left.
  - destruct Hd as [_ Hd]. rewrite Hd. split; [by intros [->|]|]. by right.
Qed.

Lemma differing_both st k v w (same : bool) a b keys :
  sorted ((k, v) :: a) -> sorted ((k, w) :: b) -> Equals st v w = Some same ->
  differing st a b keys ->
  differing st ((k, v) :: a) ((k, w) :: b) (if same then keys else k :: keys).
Proof.
  intros [Ha Hka]%sorted_below [Hb Hkb]%sorted_below Hs Hd.
  pose proof (differing_sides st a b keys k Hd Hka Hkb) as Hk. destruct Hd as [Ho Hd]. split.
  { destruct same; [done|]. by apply key_order_cons. }
  intros l. simpl. case_bool_decide as E.
  - subst l. simpl. rewrite Hs. destruct same.
    + split; [|done]. intros Hin%Hk. by rewrite key_lt_irrefl in Hin.
    + split; [done|]. by left.
  - rewrite <- Hd. destruct same; [done|]. rewrite elem_of_cons. naive_solver.
Qed.

Lemma differing_nil_l st b : sorted b -> differing st [] b (fst <$> b).
Proof.
  intros Hb. split; [exact Hb|]. intros k. rewrite elem_of_keys. simpl.
  destruct (map_find b k) as [v|]; simpl; [split; eauto|]. split; [by intros []|done].
Qed.

Lemma differing_nil_r st a : sorted a -> differing st a [] (fst <$> a).
Proof.
  intros Ha. split; [exact Ha|]. intros k. rewrite elem_of_keys. simpl.
  destruct (map_find a k) as [v|]; simpl; [split; eauto|]. split; [by intros []|done].
Qed.

(** The keys of a map are below the head that the other map stops at. *)
Lemma below_next k l w (e : ValueMap) :
  key_lt k l = true -> sorted ((l, w) :: e) -> key_below k (fst <$> ((l, w) :: e)).
Proof.
  intros Hkl [_ Hl]%sorted_below m. rewrite fmap_cons, elem_of_cons.
  intros [->|Hm]; [done | by apply (key_below_trans k l (fst <$> e))].
Qed.

Lemma GetDifferingKeys_differing st a b :
  sorted a -> sorted b -> Forall (fun e => alive st e.2) a -> Forall (fun e => alive st e.2) b ->
  exists keys, GetDifferingKeys st a b = Some keys /\ differing st a b keys.
Proof.
  intros Ha. revert b. induction a as [|[k v] a IH]; intros b Hb Hva Hvb.
  { exists (fst <$> b). split; [by destruct b | by apply differing_nil_l]. }
  pose proof Ha as [Ha' Hka]%sorted_below. apply Forall_cons in Hva as [Hv Hva].
  assert (forall b, sorted b -> Forall (fun e => alive st e.2) b ->
    exists keys, GetDifferingKeys st a b = Some keys /\ differing st a b keys) as IH' by auto.
  clear IH. induction b as [|[l w] b IHb].
  { eexists. split; [done|]. by apply differing_nil_r. }
  pose proof Hb as [Hb' Hlb]%sorted_below. pose proof Hvb as [Hw Hvb']%Forall_cons.
  simpl. case_bool_decide as E; [|destruct (key_lt k l) eqn:Hkl].
  - subst l. destruct (Equals_total st v w Hv Hw) as [same Hs]. rewrite Hs. simpl.
    destruct (IH' b Hb' Hvb') as (keys & -> & Hd). simpl. eexists. split; [done|].
    by apply differing_both.
  - destruct (IH' _ Hb Hvb) as (keys & -> & Hd). simpl. eexists. split; [done|].
    apply differing_left; [done | by apply below_next | done].
  - apply key_lt_total in Hkl; [|done]. destruct (IHb Hb' Hvb') as (keys & Hk & Hd).
    simpl in Hk. rewrite Hk. simpl. eexists. split; [done|].
    apply differing_right; [done | by apply below_next | done].
Qed.

(** The comparison of two preference maps, a walk over both in lockstep, is
    exact: on maps whose strings are alive it returns, in key order and each
    once, the keys under which only one map has a value or the two values are
    not equal. *)
Theorem differing_keys_exact st a b :
  sorted a -> sorted b -> Forall (fun e => alive st e.2) a -> Forall (fun e => alive st e.2) b ->
  exists keys, GetDifferingKeys st a b = Some keys /\
    StronglySorted (fun k l => key_lt k l = true) keys /\
    forall k, k ∈ keys <-> match PrefValueMap_GetValue a k, PrefValueMap_GetValue b k with
                           | Some v, Some w => Equals st v w = Some false
                           | None, None => False
                           | _, _ => True
                           end.
Proof.
  intros Ha Hb Hva Hvb. destruct (GetDifferingKeys_differing st a b Ha Hb Hva Hvb) as (keys & Hk & Hd).
  by exists keys.
Qed.

Lemma differing_keys_exact_witness :
  let a := [([97], IntegerValue 1); ([98], BooleanValue true)] in
  let b := [([97], IntegerValue 2); ([98], BooleanValue true); ([99], NullValue)] in
  exists keys, GetDifferingKeys ∅ a b = Some keys /\
    StronglySorted (fun k l => key_lt k l = true) keys /\
    forall k, k ∈ keys <-> match PrefValueMap_GetValue a k, PrefValueMap_GetValue b k with
                           | Some v, Some w => Equals ∅ v w = Some false
                           | None, None => False
                           | _, _ => True
                           end.
Proof.
  intros a b. apply (differing_keys_exact ∅ a b); repeat constructor;
    by apply alive_detached, detached_leaf.
Defined.

(** ** What a store promises *)

Section Laws.
Context (S : Type) `{WriteablePrefStore S}.

Class WriteableLaws := {
  (** The well-formedness of a store, the keys the promises are about, and the
      keys whose values are apart from that of another. *)
  store_inv : S -> Prop;
  store_admits : S -> list Z -> Prop;
  store_apart : S -> list Z -> list Z -> Prop;

  law_apart s k j : store_apart s k j -> k <> j;

  (** An operation keeps the store well-formed, and the keys as they are. *)
  after_change s s' :=
    store_inv s' /\ (forall k, store_admits s' k <-> store_admits s k) /\
    (forall k j, store_apart s' k j <-> store_apart s k j);

  (** Texts are bytes; values are well-formed and can be read. *)
  law_texts s : store_inv s -> store_ok (store_texts s);
  law_value s k v : store_inv s -> store_GetValue s k = Some v -> wf v /\ alive (store_texts s) v;

  (** [SetValue] puts the value under its key and reports the key, unless an equal
      value is there. *)
  law_set s k v : store_inv s -> store_admits s k -> wf v -> detached v ->
    exists s' reports, store_SetValue s k v = Some (s', reports) /\ after_change s s' /\
      ((store_GetValue s' k = Some v /\ reports = [k]) \/
       (s' = s /\ reports = [] /\
        exists old, store_GetValue s k = Some old /\ GetType old = GetType v /\
          (Equals (store_texts s) old v = Some true \/ Equals (store_texts s) v old = Some true))) /\
      forall j, store_apart s k j -> store_GetValue s' j = store_GetValue s j;

  (** [RemoveValue] reports the key, unless it changes nothing. *)
  law_remove s k : store_inv s -> store_admits s k ->
    exists s' reports, store_RemoveValue s k = (s', reports) /\ after_change s s' /\
      (reports = [k] \/ (s' = s /\ reports = [])) /\
      forall j, store_apart s k j -> store_GetValue s' j = store_GetValue s j;

  (** [SetValueSilently] does what [SetValue] does, and reports nothing. *)
  law_silent s k v : store_inv s -> store_admits s k -> wf v -> detached v ->
    exists s', store_SetValueSilently s k v = Some s' /\ after_change s s' /\
      (store_GetValue s' k = Some v \/
       (s' = s /\ exists old, store_GetValue s k = Some old /\ GetType old = GetType v)) /\
      forall j, store_apart s k j -> store_GetValue s' j = store_GetValue s j;

  (** [GetMutableValue] finds what [GetValue] finds, or a copy of it that is then
      the value of the store. *)
  law_mutable s k : store_inv s -> store_admits s k ->
    exists r s', store_GetMutableValue s k = Some (r, s') /\ after_change s s' /\
      store_GetValue s' k = r /\ GetType <$> r = GetType <$> store_GetValue s k /\
      forall j, store_apart s k j -> store_GetValue s' j = store_GetValue s j;

  (** [ReportValueChanged] reports, and changes no value. *)
  law_report s k : store_inv s -> store_admits s k ->
    exists s', store_ReportValueChanged s k = (s', [k]) /\ after_change s s' /\
      forall j, store_GetValue s' j = store_GetValue s j;
}.
End Laws.

Arguments after_change {S _ _ _}.

Lemma Equals_type st v w : Equals st v w = Some true -> GetType v = GetType w.
Proof.
  assert (negb (IsType (GetType v) w) = false -> GetType v = GetType w) as Hneg.
  { intros Hi%negb_false_iff. unfold IsType in Hi. by apply bool_decide_eq_true in Hi. }
  intros He. apply Hneg. destruct v; simpl in He; destruct (negb _); done.
Qed.

(** ** The map store keeps the promises *)

(** Its values are well-formed and own their strings. *)
Definition owned_map (m : PrefValueMap) : Prop := wf_map m /\ Forall (fun e => detached e.2) m.

Lemma owned_find m k v : owned_map m -> map_find m k = Some v -> wf v /\ detached v.
Proof.
  intros [Hw Hd] Hf. split; [by apply (wf_find m k)|]. apply find_Some_elem in Hf.
  rewrite List.Forall_forall in Hd. by apply (Hd _ Hf).
Qed.

Lemma owned_set m k v :
  owned_map m -> Forall is_byte k -> wf v -> detached v -> owned_map (map_set m k v).
Proof.
  intros [Hw Hd] Hk Hv Hdv. split; [by apply wf_set|].
  by apply (Forall_map_set (fun e => detached e.2)).
Qed.

Lemma owned_erase m k : owned_map m -> owned_map (map_erase m k).
Proof. intros [Hw Hd]. split; [by apply wf_erase | by apply Forall_map_erase]. Qed.

(** [SetValue] of a map, when it changes it and when it does not. *)
Lemma PrefValueMap_SetValue_ok st m k v :
  owned_map m -> Forall is_byte k -> wf v -> detached v ->
  PrefValueMap_SetValue st m k v = Some (true, map_set m k v) \/
  (PrefValueMap_SetValue st m k v = Some (false, m) /\
   exists old, map_find m k = Some old /\ GetType old = GetType v /\ Equals st old v = Some true).
Proof.
  intros Hm Hk Hv Hd. unfold PrefValueMap_SetValue.
  destruct (map_find m k) as [old|] eqn:Hf; [|by left].
  destruct (owned_find _ _ _ Hm Hf) as [_ Hold].
  destruct (Equals_total st old v) as [[|] He]; try (by apply alive_detached); rewrite He; simpl.
  - right. split; [done|]. exists old. split; [done|]. split; [by apply Equals_type in He | done].
  - by left.
Qed.

Lemma PrefValueMap_RemoveValue_ok m k :
  owned_map m ->
  PrefValueMap_RemoveValue m k = (true, map_erase m k) \/ PrefValueMap_RemoveValue m k = (false, m).
Proof. intros Hm. unfold PrefValueMap_RemoveValue. destruct (map_find m k); eauto. Qed.

Section MapStoreLaws.
Implicit Types s : ValueMapPrefStore.

#[export] Program Instance ValueMapPrefStore_laws : WriteableLaws ValueMapPrefStore := {
  store_inv s := owned_map (map_prefs_ s);
  store_admits _ k := Forall is_byte k;
  store_apart _ k j := k <> j;
}.
Next Obligation. done. Qed.
Next Obligation. intros s _. apply map_Forall_empty. Qed.
Next Obligation.
  intros s k v Hs Hv. destruct (owned_find _ _ _ Hs Hv) as [Hw Hd].
  split; [done | by apply alive_detached].
Qed.
Next Obligation.
  intros s k v Hs Hk Hv Hd. simpl. unfold ValueMapPrefStore_SetValue.
  destruct (PrefValueMap_SetValue_ok ∅ (map_prefs_ s) k v) as [->|[-> (old & Hf & Ht & He)]];
    try done; simpl; eexists _, _; split; try done.
  - split; [split; [by apply owned_set | done]|]. split; [|by intros j; apply find_set_ne].
    left. split; [apply find_set_eq | done].
  - split; [done|]. split; [|done]. right. destruct s. split; [done|]. split; [done|].
    exists old. eauto.
Qed.
Next Obligation.
  intros s k Hs Hk. simpl. unfold ValueMapPrefStore_RemoveValue.
  destruct (PrefValueMap_RemoveValue_ok (map_prefs_ s) k Hs) as [->| ->]; eexists _, _;
    (split; [done|]).
  - split; [split; [by apply owned_erase | done]|]. split; [by left|]. by intros j; apply find_erase_ne.
  - split; [done|]. split; [|done]. right. by destruct s.
Qed.
Next Obligation.
  intros s k v Hs Hk Hv Hd. simpl. unfold ValueMapPrefStore_SetValueSilently.
  destruct (PrefValueMap_SetValue_ok ∅ (map_prefs_ s) k v) as [->|[-> (old & Hf & Ht & He)]];
    try done; simpl; eexists; split; try done.
  - split; [split; [by apply owned_set | done]|]. split; [|by intros j; apply find_set_ne].
    left. apply find_set_eq.
  - split; [done|]. split; [|done]. right. destruct s. split; [done|]. by exists old.
Qed.
Next Obligation. intros s k Hs Hk. eexists _, _. split; [done|]. by split. Qed.
Next Obligation. intros s k Hs _. exists s. split; [done|]. by split. Qed.
End MapStoreLaws.

(** ** The overlay keeps the promises of its underlay *)

Section OverlayLaws.
Context {U : Type} `{WriteablePrefStore U} {laws : WriteableLaws U}.
Implicit Types s : OverlayUserPrefStore U.

(** Only registered keys are in the overlay: the [DCHECK] of [GetValue]. *)
Definition overlay_inv s : Prop :=
  store_inv U (underlay_ s) /\ owned_map (overlay_ s) /\
  forall k v, map_find (overlay_ s) k = Some v -> ShallBeStoredInOverlay s k = true.

(** A key is the name of one preference: it is registered for the overlay, or it
    is not the name under which the underlay keeps one that is. *)
Definition overlay_admits s (k : list Z) : Prop :=
  Forall is_byte k /\ store_admits U (underlay_ s) (GetUnderlayKey s k) /\
  (ShallBeStoredInOverlay s k = false -> GetOverlayKey s k = k).

Definition overlay_apart s (k j : list Z) : Prop :=
  k <> j /\ store_apart U (underlay_ s) (GetUnderlayKey s k) (GetUnderlayKey s j).

Lemma not_in_overlay s k :
  overlay_inv s -> ShallBeStoredInOverlay s k = false ->
  map_find (overlay_ s) k = None /\ GetUnderlayKey s k = k.
Proof.
  intros (_ & _ & Ho) Hk. split.
  - destruct (map_find (overlay_ s) k) as [v|] eqn:E; [|done]. apply Ho in E. congruence.
  - unfold ShallBeStoredInOverlay in Hk. apply bool_decide_eq_false in Hk.
    unfold GetUnderlayKey. by apply eq_None_not_Some in Hk as ->.
Qed.

(** What the overlay reports when the underlay reports a key that is not its own. *)
Lemma overlay_reports s k :
  overlay_inv s -> overlay_admits s k -> ShallBeStoredInOverlay s k = false ->
  [k] ≫= OnPrefValueChanged s = [k].
Proof.
  intros Hs (_ & _ & Hk) Hn. destruct (not_in_overlay s k Hs Hn) as [Hf _]. simpl.
  unfold OnPrefValueChanged, IsSetInOverlay, PrefValueMap_GetValue. rewrite (Hk Hn), Hf.
  by rewrite bool_decide_false by (by intros []).
Qed.

(** A change of either layer keeps the rest. *)
Lemma after_underlay s u :
  overlay_inv s -> after_change (underlay_ s) u ->
  overlay_inv (set_underlay s u) /\
  (forall k, overlay_admits (set_underlay s u) k <-> overlay_admits s k) /\
  (forall k j, overlay_apart (set_underlay s u) k j <-> overlay_apart s k j).
Proof.
  intros (Hu & Ho & Hk) (Hu' & Ha & Hp). split; [by split|]. unfold overlay_admits, overlay_apart.
  split; [intros k | intros k j]; unfold set_underlay; simpl; [rewrite Ha | rewrite Hp]; done.
Qed.

Lemma after_overlay s m :
  overlay_inv s -> owned_map m ->
  (forall k, is_Some (map_find m k) -> ShallBeStoredInOverlay s k = true) ->
  overlay_inv (set_overlay s m) /\
  (forall k, overlay_admits (set_overlay s m) k <-> overlay_admits s k) /\
  (forall k j, overlay_apart (set_overlay s m) k j <-> overlay_apart s k j).
Proof. intros (Hu & Ho & Hk) Hm Hin. split; [|done]. split; [done|]. split; [done|]. eauto. Qed.

Lemma overlay_set_registered s k v :
  overlay_inv s -> ShallBeStoredInOverlay s k = true ->
  forall j, is_Some (map_find (map_set (overlay_ s) k v) j) -> ShallBeStoredInOverlay s j = true.
Proof.
  intros (_ & _ & Ho) Hk j. destruct (decide (k = j)) as [<-|Hj]; [done|].
  rewrite find_set_ne by done. intros [w Hw]. by apply (Ho j w).
Qed.

(** A frame of the underlay is one of the overlay. *)
Lemma frame_underlay s u k :
  overlay_inv s -> ShallBeStoredInOverlay s k = false ->
  (forall j, store_apart U (underlay_ s) k j -> store_GetValue u j = store_GetValue (underlay_ s) j) ->
  forall j, overlay_apart s k j -> Overlay_GetValue (set_underlay s u) j = Overlay_GetValue s j.
Proof.
  intros Hs Hn Hf j [_ Hj]. destruct (not_in_overlay s k Hs Hn) as [_ Hk]. rewrite Hk in Hj.
  unfold Overlay_GetValue. simpl. destruct (PrefValueMap_GetValue _ _); [done|]. by apply Hf.
Qed.

Lemma frame_overlay s k v j :
  k <> j -> Overlay_GetValue (set_overlay s (map_set (overlay_ s) k v)) j = Overlay_GetValue s j.
Proof.
  intros Hj. unfold Overlay_GetValue, PrefValueMap_GetValue. simpl. by rewrite find_set_ne.
Qed.

Lemma get_underlay s u k :
  overlay_inv s -> ShallBeStoredInOverlay s k = false ->
  Overlay_GetValue (set_underlay s u) k = store_GetValue u k.
Proof.
  intros Hs Hn. destruct (not_in_overlay s k Hs Hn) as [Hf Hk].
  unfold Overlay_GetValue, PrefValueMap_GetValue. simpl. rewrite Hf.
  unfold GetUnderlayKey in *. simpl. by rewrite Hk.
Qed.

Lemma get_overlay s m k v :
  map_find m k = Some v -> Overlay_GetValue (set_overlay s m) k = Some v.
Proof. intros Hf. unfold Overlay_GetValue, PrefValueMap_GetValue. simpl. by rewrite Hf. Qed.

Lemma same_underlay s : set_underlay s (underlay_ s) = s.
Proof. by destruct s. Qed.

Lemma same_overlay s : set_overlay s (overlay_ s) = s.
Proof. by destruct s. Qed.

Lemma overlay_value s k v :
  overlay_inv s -> Overlay_GetValue s k = Some v -> wf v /\ alive (store_texts (underlay_ s)) v.
Proof.
  intros (Hu & Ho & _). unfold Overlay_GetValue, PrefValueMap_GetValue.
  destruct (map_find (overlay_ s) k) as [w|] eqn:Hf;
    [|by apply (law_value U (underlay_ s) (GetUnderlayKey s k))].
  intros [= <-]. destruct (owned_find _ _ _ Ho Hf) as [Hw Hd]. split; [done | by apply alive_detached].
Qed.

(** What [SetValue] does, on a key of either layer. *)
Lemma overlay_set s k v :
  overlay_inv s -> overlay_admits s k -> wf v -> detached v ->
  exists s' reports, Overlay_SetValue s k v = Some (s', reports) /\
    (overlay_inv s' /\ (forall l, overlay_admits s' l <-> overlay_admits s l) /\
     (forall l j, overlay_apart s' l j <-> overlay_apart s l j)) /\
    ((Overlay_GetValue s' k = Some v /\ reports = [k]) \/
     (s' = s /\ reports = [] /\
      exists old, Overlay_GetValue s k = Some old /\ GetType old = GetType v /\
        (Equals (store_texts (underlay_ s)) old v = Some true \/
         Equals (store_texts (underlay_ s)) v old = Some true))) /\
    forall j, overlay_apart s k j -> Overlay_GetValue s' j = Overlay_GetValue s j.
Proof.
  intros Hs Hk Hv Hd. pose proof Hs as (Hu & Ho & _). pose proof Hk as (Hb & Hadm & _).
  unfold Overlay_SetValue. destruct (ShallBeStoredInOverlay s k) eqn:Hn; simpl.
  - destruct (PrefValueMap_SetValue_ok (store_texts (underlay_ s)) (overlay_ s) k v)
      as [->|[-> (old & Hf & Ht & He)]]; try done; simpl; eexists _, _; (split; [done|]).
    + split; [apply after_overlay; [done | by apply owned_set | by apply overlay_set_registered]|].
      split; [left; split; [apply get_overlay, find_set_eq | done]|].
      intros j [Hj _]. by apply frame_overlay.
    + rewrite same_overlay. split; [done|]. split; [|done]. right. split; [done|]. split; [done|].
      exists old. split; [|by eauto]. unfold Overlay_GetValue, PrefValueMap_GetValue. by rewrite Hf.
  - destruct (not_in_overlay s k Hs Hn) as [Hf Hkey]. rewrite Hkey in *.
    destruct (law_set U (underlay_ s) k v Hu Hadm Hv Hd) as (u & r & -> & Ha & Hr & Hframe). simpl.
    pose proof (after_underlay s u Hs Ha) as Hafter. eexists _, _. split; [done|].
    split; [done|]. split; [|by apply frame_underlay]. rewrite (get_underlay s u k Hs Hn).
    destruct Hr as [[Hg ->]|(-> & -> & old & Hg & He)].
    + left. split; [done|]. by apply overlay_reports; [apply Hafter | apply Hafter | ].
    + right. rewrite same_underlay. split; [done|]. split; [done|]. exists old.
      rewrite <- (get_underlay s (underlay_ s) k Hs Hn), same_underlay in Hg. by rewrite Hg.
Qed.

Lemma overlay_remove s k :
  overlay_inv s -> overlay_admits s k ->
  exists s' reports, Overlay_RemoveValue s k = (s', reports) /\
    (overlay_inv s' /\ (forall l, overlay_admits s' l <-> overlay_admits s l) /\
     (forall l j, overlay_apart s' l j <-> overlay_apart s l j)) /\
    (reports = [k] \/ (s' = s /\ reports = [])) /\
    forall j, overlay_apart s k j -> Overlay_GetValue s' j = Overlay_GetValue s j.
Proof.
  intros Hs Hk. pose proof Hs as (Hu & Ho & Hin). pose proof Hk as (Hb & Hadm & _).
  unfold Overlay_RemoveValue. destruct (ShallBeStoredInOverlay s k) eqn:Hn; simpl.
  - destruct (PrefValueMap_RemoveValue_ok (overlay_ s) k Ho) as [->| ->]; eexists _, _;
      (split; [done|]).
    + split; [|split; [by left|]].
      * apply after_overlay; [done | by apply owned_erase|]. intros j [w Hw].
        destruct (decide (k = j)) as [<-|Hj]; [done|]. rewrite find_erase_ne in Hw by done.
        by apply (Hin j w).
      * intros j [Hj _]. unfold Overlay_GetValue, PrefValueMap_GetValue. simpl.
        by rewrite find_erase_ne.
    + rewrite same_overlay. split; [done|]. split; [by right | done].
  - destruct (not_in_overlay s k Hs Hn) as [Hf Hkey]. rewrite Hkey in *.
    destruct (law_remove U (underlay_ s) k Hu Hadm) as (u & r & -> & Ha & Hr & Hframe).
    pose proof (after_underlay s u Hs Ha) as Hafter. eexists _, _. split; [done|].
    split; [done|]. split; [|by apply frame_underlay]. destruct Hr as [-> |[-> ->]].
    + left. by apply overlay_reports; [apply Hafter | apply Hafter |].
    + right. by rewrite same_underlay.
Qed.

Lemma overlay_silent s k v :
  overlay_inv s -> overlay_admits s k -> wf v -> detached v ->
  exists s', Overlay_SetValueSilently s k v = Some s' /\
    (overlay_inv s' /\ (forall l, overlay_admits s' l <-> overlay_admits s l) /\
     (forall l j, overlay_apart s' l j <-> overlay_apart s l j)) /\
    (Overlay_GetValue s' k = Some v \/
     (s' = s /\ exists old, Overlay_GetValue s k = Some old /\ GetType old = GetType v)) /\
    forall j, overlay_apart s k j -> Overlay_GetValue s' j = Overlay_GetValue s j.
Proof.
  intros Hs Hk Hv Hd. pose proof Hs as (Hu & Ho & _). pose proof Hk as (Hb & Hadm & _).
  unfold Overlay_SetValueSilently. destruct (ShallBeStoredInOverlay s k) eqn:Hn; simpl.
  - destruct (PrefValueMap_SetValue_ok (store_texts (underlay_ s)) (overlay_ s) k v)
      as [->|[-> (old & Hf & Ht & He)]]; try done; simpl; eexists; (split; [done|]).
    + split; [apply after_overlay; [done | by apply owned_set | by apply overlay_set_registered]|].
      split; [left; apply get_overlay, find_set_eq|]. intros j [Hj _]. by apply frame_overlay.
    + rewrite same_overlay. split; [done|]. split; [|done]. right. split; [done|].
      exists old. split; [|done]. unfold Overlay_GetValue, PrefValueMap_GetValue. by rewrite Hf.
  - destruct (not_in_overlay s k Hs Hn) as [Hf Hkey]. rewrite Hkey in *.
    destruct (law_silent U (underlay_ s) k v Hu Hadm Hv Hd) as (u & -> & Ha & Hr & Hframe). simpl.
    eexists. split; [done|]. split; [by apply after_underlay|]. split; [|by apply frame_underlay].
    rewrite (get_underlay s u k Hs Hn). destruct Hr as [Hg|(-> & old & Hg & Ht)]; [by left|].
    right. rewrite same_underlay. split; [done|]. exists old.
    rewrite <- (get_underlay s (underlay_ s) k Hs Hn), same_underlay in Hg. by rewrite Hg.
Qed.

Lemma overlay_mutable s k :
  overlay_inv s -> overlay_admits s k ->
  exists r s', Overlay_GetMutableValue s k = Some (r, s') /\
    (overlay_inv s' /\ (forall l, overlay_admits s' l <-> overlay_admits s l) /\
     (forall l j, overlay_apart s' l j <-> overlay_apart s l j)) /\
    Overlay_GetValue s' k = r /\ GetType <$> r = GetType <$> Overlay_GetValue s k /\
    forall j, overlay_apart s k j -> Overlay_GetValue s' j = Overlay_GetValue s j.
Proof.
  intros Hs Hk. pose proof Hs as (Hu & Ho & Hin). pose proof Hk as (Hb & Hadm & _).
  destruct (law_mutable U (underlay_ s) (GetUnderlayKey s k) Hu Hadm)
    as (r & u & Hget & Ha & Hr & Ht & Hframe).
  pose proof (after_underlay s u Hs Ha) as Hafter. destruct Hafter as (Hs' & Hadm' & Hap').
  assert (forall j, overlay_apart s k j ->
            Overlay_GetValue (set_underlay s u) j = Overlay_GetValue s j) as Hjs.
  { intros j [_ Hj]. unfold Overlay_GetValue. simpl. destruct (PrefValueMap_GetValue _ _); [done|].
    by apply Hframe. }
  unfold Overlay_GetMutableValue. destruct (ShallBeStoredInOverlay s k) eqn:Hn; simpl.
  2: { rewrite Hget. simpl. eexists _, _. split; [done|]. split; [done|].
       destruct (not_in_overlay s k Hs Hn) as [Hf Hkey].
       unfold Overlay_GetValue, PrefValueMap_GetValue. simpl. rewrite Hf. by split. }
  destruct (PrefValueMap_GetValue (overlay_ s) k) as [v|] eqn:Hf.
  { eexists _, _. split; [done|]. split; [done|]. unfold Overlay_GetValue. by rewrite Hf. }
  rewrite Hget. simpl. destruct r as [w|].
  2: { eexists _, _. split; [done|]. split; [done|]. unfold Overlay_GetValue. simpl. by rewrite Hf. }
  destruct Ha as (Hu' & _). destruct (law_value U u _ w Hu' Hr) as [Hw Halive].
  destruct (alive_DeepCopy _ w Hw Halive) as [c Hc]. rewrite Hc. simpl.
  destruct (deep_copy_ok _ w c (law_texts U u Hu') Hw Hc) as (Hwc & Hdc & He & _).
  destruct (PrefValueMap_SetValue_ok (store_texts u) (overlay_ s) k c)
    as [->|[-> (old & Hfo & _)]]; try done; simpl.
  2: { unfold PrefValueMap_GetValue in Hf. by rewrite Hf in Hfo. }
  eexists _, _. split; [done|]. split.
  { destruct (after_overlay (set_underlay s u) (map_set (overlay_ s) k c)) as (Hi & Had & Hap);
      [done | by apply owned_set | by apply (overlay_set_registered (set_underlay s u)) |].
    split; [done|]. split; [intros l; by rewrite Had | intros l j; by rewrite Hap]. }
  split; [apply get_overlay, find_set_eq|]. split.
  { unfold Overlay_GetValue. rewrite Hf, <- Ht. simpl. f_equal. symmetry.
    by apply Equals_type in He. }
  intros j Hj. rewrite <- (Hjs j Hj). destruct Hj as [Hj _]. by apply (frame_overlay (set_underlay s u)).
Qed.

#[export] Program Instance Overlay_laws : WriteableLaws (OverlayUserPrefStore U) := {
  store_inv := overlay_inv;
  store_admits := overlay_admits;
  store_apart := overlay_apart;
}.
Next Obligation. by intros s k j [Hkj _]. Qed.
Next Obligation. intros s (Hu & _). exact (law_texts U (underlay_ s) Hu). Qed.
Next Obligation. apply overlay_value. Qed.
Next Obligation. apply overlay_set. Qed.
Next Obligation. apply overlay_remove. Qed.
Next Obligation. apply overlay_silent. Qed.
Next Obligation. apply overlay_mutable. Qed.
Next Obligation. intros s k Hs _. exists s. split; [done|]. by split. Qed.
End OverlayLaws.
