(* ===== verification/PrefService.v ===== *)
(** * The preference service

    [base/prefs/pref_value_store.cc], [pref_service.cc], [pref_notifier_impl.cc]
    and [pref_change_registrar.cc].

    The service is proved against the promises of [PrefStores.WriteableLaws], for
    any user store that keeps them. The stores of the other levels are any
    stores. As [PrefServiceFactory::Create] wires it, the user store of the
    service is the one the value store consults at its level, and the defaults of
    the registry are those it consults at the last. *)
From Stdlib Require Import ZArith Lia Sorted.
From stdpp Require Import base numbers option sets gmap list.
From S2P Require Import Prelude Unicode StringNumbers ObserverList Values PrefStores.
Local Open Scope Z_scope.

(** ** [PrefValueStore] *)

Inductive PrefStoreType :=
| MANAGED_STORE | SUPERVISED_USER_STORE | EXTENSION_STORE | COMMAND_LINE_STORE | USER_STORE
| RECOMMENDED_STORE | DEFAULT_STORE.

#[export] Instance PrefStoreType_eq_dec : EqDecision PrefStoreType.
Proof. solve_decision. Defined.

(** The loops from [0] to [PREF_STORE_TYPE_MAX]. *)
Definition store_types : list PrefStoreType :=
  [MANAGED_STORE; SUPERVISED_USER_STORE; EXTENSION_STORE; COMMAND_LINE_STORE; USER_STORE;
   RECOMMENDED_STORE; DEFAULT_STORE].

Definition store_index (t : PrefStoreType) : nat :=
  match t with
  | MANAGED_STORE => 0 | SUPERVISED_USER_STORE => 1 | EXTENSION_STORE => 2
  | COMMAND_LINE_STORE => 3 | USER_STORE => 4 | RECOMMENDED_STORE => 5 | DEFAULT_STORE => 6
  end.

(** A store of any class. *)
Record AnyPrefStore := Any { any_type : Type; any_class : PrefStore any_type; any_store : any_type }.
Arguments Any {any_type any_class}.

Definition any_GetValue (s : AnyPrefStore) : list Z -> option Value :=
  @store_GetValue _ (any_class s) (any_store s).

Definition any_IsInitializationComplete (s : AnyPrefStore) : bool :=
  @store_IsInitializationComplete _ (any_class s) (any_store s).

Section PrefValueStore.
(** The store of a keeper, or null. *)
Context (GetPrefStore : PrefStoreType -> option AnyPrefStore).

Definition GetValueFromStore (name : list Z) (store_type : PrefStoreType) : option Value :=
  store ← GetPrefStore store_type; any_GetValue store name.

(** A value of another type is ignored. *)
Definition GetValueFromStoreWithType (name : list Z) (type : Type_) (store : PrefStoreType)
    : option Value :=
  out_value ← GetValueFromStore name store;
  if IsType type out_value then Some out_value else None.

Fixpoint first_value (name : list Z) (type : Type_) (stores : list PrefStoreType) : option Value :=
  match stores with
  | [] => None
  | i :: stores =>
      match GetValueFromStoreWithType name type i with
      | Some v => Some v
      | None => first_value name type stores
      end
  end.

Definition PrefValueStore_GetValue (name : list Z) (type : Type_) : option Value :=
  first_value name type store_types.

Definition PrefValueStore_GetRecommendedValue (name : list Z) (type : Type_) : option Value :=
  GetValueFromStoreWithType name type RECOMMENDED_STORE.

Definition PrefValueInStore (name : list Z) (store : PrefStoreType) : bool :=
  bool_decide (is_Some (GetValueFromStore name store)).

(** [None] is [NOTREACHED]. *)
Definition PrefValueInStoreRange (name : list Z)
    (first_checked_store last_checked_store : PrefStoreType) : option bool :=
  if (store_index last_checked_store <? store_index first_checked_store)%nat then None
  else Some (existsb (PrefValueInStore name)
               (take (S (store_index last_checked_store - store_index first_checked_store))
                  (drop (store_index first_checked_store) store_types))).

(** [None] is [INVALID_STORE]. *)
Definition ControllingPrefStoreForPref (name : list Z) : option PrefStoreType :=
  head (filter (fun i => PrefValueInStore name i = true) store_types).

Definition PrefValueFromStore (name : list Z) (store : PrefStoreType) : bool :=
  bool_decide (ControllingPrefStoreForPref name = Some store).

Definition PrefValueUserModifiable (name : list Z) : bool :=
  match ControllingPrefStoreForPref name with
  | Some effective_store => (store_index USER_STORE <=? store_index effective_store)%nat
  | None => true
  end.

Definition PrefValueExtensionModifiable (name : list Z) : bool :=
  match ControllingPrefStoreForPref name with
  | Some effective_store => (store_index EXTENSION_STORE <=? store_index effective_store)%nat
  | None => true
  end.

(** What the notifier is told when every store that is there is initialized. *)
Definition CheckInitializationCompleted (initialization_failed_ : bool) : list bool :=
  if initialization_failed_ then []
  else if forallb (fun i => match GetPrefStore i with
                            | Some store => any_IsInitializationComplete store
                            | None => true
                            end) store_types
  then [true] else [].

Definition OnInitializationCompleted (initialization_failed_ succeeded : bool)
    : bool * list bool :=
  if initialization_failed_ then (true, [])
  else if negb succeeded then (true, [false])
  else (false, CheckInitializationCompleted false).
End PrefValueStore.

(** ** [PrefService] *)

(** [prefs_map_] holds the type a preference was found to have. *)
Record PrefService (U : Type) := PrefService_ {
  user_pref_store_ : U;
  defaults_ : DefaultPrefStore;
  other_stores : PrefStoreType -> option AnyPrefStore;
  prefs_map_ : list (list Z * Type_);
}.
Arguments PrefService_ {U}.
Arguments user_pref_store_ {U}.
Arguments defaults_ {U}.
Arguments other_stores {U}.
Arguments prefs_map_ {U}.

(** The outcome of a call: the keys whose observers are fired, or a
    [NOTREACHED] or [DCHECK] that it runs into. *)
Inductive Outcome (A : Type) :=
| Returns (a : A)
| NotReached.
Arguments Returns {A}.
Arguments NotReached {A}.

Section PrefService.
Context {U : Type} `{WriteablePrefStore U}.
Implicit Types s : PrefService U.

Definition GetPrefStore s (t : PrefStoreType) : option AnyPrefStore :=
  match t with
  | USER_STORE => Some (Any (user_pref_store_ s))
  | DEFAULT_STORE => Some (Any (defaults_ s))
  | _ => other_stores s t
  end.

Definition set_user s (u : U) : PrefService U :=
  PrefService_ u (defaults_ s) (other_stores s) (prefs_map_ s).

Definition set_defaults s (d : DefaultPrefStore) : PrefService U :=
  PrefService_ (user_pref_store_ s) d (other_stores s) (prefs_map_ s).

Fixpoint prefs_find (prefs : list (list Z * Type_)) (pref_name : list Z) : option Type_ :=
  match prefs with
  | [] => None
  | (k, t) :: prefs => if bool_decide (k = pref_name) then Some t else prefs_find prefs pref_name
  end.

(** The type of the preference, and the service, which remembers it. *)
Definition FindPreference s (pref_name : list Z) : option Type_ * PrefService U :=
  match prefs_find (prefs_map_ s) pref_name with
  | Some type => (Some type, s)
  | None =>
      match store_GetValue (defaults_ s) pref_name with
      | None => (None, s)
      | Some default_value =>
          (Some (GetType default_value),
           PrefService_ (user_pref_store_ s) (defaults_ s) (other_stores s)
             ((pref_name, GetType default_value) :: prefs_map_ s))
      end
  end.

(** A null pointer is [Returns None]. *)
Definition GetPreferenceValue s (path : list Z) : Outcome (option Value) :=
  match store_GetValue (defaults_ s) path with
  | None => Returns None
  | Some default_value =>
      match PrefValueStore_GetValue (GetPrefStore s) path (GetType default_value) with
      | Some found_value => Returns (Some found_value)
      | None => NotReached
      end
  end.

(** The typed getters. *)
Definition get_as {A} (as_ : Value -> option A) s (path : list Z) : Outcome A :=
  match GetPreferenceValue s path with
  | Returns (Some value) => match as_ value with Some a => Returns a | None => NotReached end
  | _ => NotReached
  end.

Definition PrefService_GetBoolean : PrefService U -> list Z -> Outcome bool := get_as GetAsBoolean.
Definition PrefService_GetInteger : PrefService U -> list Z -> Outcome Z := get_as GetAsInteger.
Definition PrefService_GetDouble : PrefService U -> list Z -> Outcome double := get_as GetAsDouble.
Definition PrefService_GetDictionary : PrefService U -> list Z -> Outcome ValueMap :=
  get_as GetAsDictionary.
Definition PrefService_GetList : PrefService U -> list Z -> Outcome (list Value) := get_as GetAsList.

Definition IsDefaultValue s (path : list Z) : bool :=
  PrefValueFromStore (GetPrefStore s) path DEFAULT_STORE.

Definition HasPrefPath s (path : list Z) : bool :=
  match fst (FindPreference s path) with Some _ => negb (IsDefaultValue s path) | None => false end.

Definition IsManagedPreference s (pref_name : list Z) : bool :=
  match fst (FindPreference s pref_name) with
  | Some _ => PrefValueInStore (GetPrefStore s) pref_name MANAGED_STORE
  | None => false
  end.

Definition IsUserModifiablePreference s (pref_name : list Z) : bool :=
  match fst (FindPreference s pref_name) with
  | Some _ => PrefValueUserModifiable (GetPrefStore s) pref_name
  | None => false
  end.

(** ** Changes *)

(** [RegisterPreference] of the registry. *)
Definition Register s (path : list Z) (default_value : Value) : Outcome (PrefService U) :=
  match RegisterPreference (defaults_ s) path default_value with
  | Some d => Returns (set_defaults s d)
  | None => NotReached
  end.

Definition PrefService_SetDefaultPrefValue s (path : list Z) (value : Value)
    : Outcome (PrefService U * list (list Z)) :=
  match SetDefaultPrefValue (defaults_ s) path value with
  | Some (d, reports) => Returns (set_defaults s d, reports)
  | None => NotReached
  end.

Definition SetUserPrefValue s (path : list Z) (new_value : Value)
    : Outcome (PrefService U * list (list Z)) :=
  let '(pref, s) := FindPreference s path in
  match pref with
  | None => NotReached
  | Some type =>
      if negb (bool_decide (type = GetType new_value)) then NotReached
      else match store_SetValue (user_pref_store_ s) path new_value with
           | Some (u, reports) => Returns (set_user s u, reports)
           | None => NotReached
           end
  end.

Definition ClearPref s (path : list Z) : Outcome (PrefService U * list (list Z)) :=
  let '(pref, s) := FindPreference s path in
  match pref with
  | None => NotReached
  | Some _ =>
      let '(u, reports) := store_RemoveValue (user_pref_store_ s) path in
      Returns (set_user s u, reports)
  end.

(** A value of the user store that the caller may change, and has to report. *)
Definition GetMutableUserPref s (path : list Z) (type : Type_) : Outcome (PrefService U * Value) :=
  if negb (bool_decide (type = TYPE_DICTIONARY) || bool_decide (type = TYPE_LIST)) then NotReached
  else
    let '(pref, s) := FindPreference s path in
    if negb (bool_decide (pref = Some type)) then NotReached
    else match store_GetMutableValue (user_pref_store_ s) path with
    | None => NotReached
    | Some (value, u) =>
        let s := set_user s u in
        match value with
        | Some value =>
            if IsType type value then Returns (s, value)
            else
              let value := if bool_decide (type = TYPE_DICTIONARY)
                           then DictionaryValue [] else ListValue [] in
              match store_SetValueSilently u path value with
              | Some u => Returns (set_user s u, value)
              | None => NotReached
              end
        | None =>
            let value := if bool_decide (type = TYPE_DICTIONARY)
                         then DictionaryValue [] else ListValue [] in
            match store_SetValueSilently u path value with
            | Some u => Returns (set_user s u, value)
            | None => NotReached
            end
        end
    end.

Definition ReportUserPrefChanged s (key : list Z) : PrefService U * list (list Z) :=
  let '(u, reports) := store_ReportValueChanged (user_pref_store_ s) key in (set_user s u, reports).

Definition UpdateCommandLinePrefStore s (command_line_prefs : option AnyPrefStore)
    : PrefService U :=
  PrefService_ (user_pref_store_ s) (defaults_ s)
    (fun t => if bool_decide (t = COMMAND_LINE_STORE) then command_line_prefs else other_stores s t)
    (prefs_map_ s).
End PrefService.

(** ** Strings and wide integers *)

Section Strings.
Context {U : Type} `{WriteablePrefStore U} (LocalIsWhitespace : Z -> bool).
Implicit Types s : PrefService U.

(** [None] is a string whose text is not alive. *)
Definition PrefService_GetString s (path : list Z) : option (Outcome (list Z)) :=
  match GetPreferenceValue s path with
  | Returns (Some value) =>
      r ← GetAsString (store_texts (user_pref_store_ s)) value;
      Some (match r with Some result => Returns result | None => NotReached end)
  | _ => Some NotReached
  end.

Definition SetInt s (t : Int.type) (path : list Z) (value : Z)
    : Outcome (PrefService U * list (list Z)) :=
  match IntToString t value with
  | Some text => SetUserPrefValue s path (StringValue text)
  | None => NotReached
  end.

Definition PrefService_SetInt64 s := SetInt s Int.int64.
Definition PrefService_SetUint64 s := SetInt s Int.uint64.

(** [StringTo...] leaves its result in [val], whether it succeeds or not. *)
Definition GetInt s (t : Int.type) (path : list Z) : option (Outcome Z) :=
  r ← PrefService_GetString s path;
  Some (match r with
        | Returns result => Returns (snd (IteratorRangeToNumber LocalIsWhitespace t 10 result 0))
        | NotReached => NotReached
        end).

Definition PrefService_GetInt64 s := GetInt s Int.int64.
Definition PrefService_GetUint64 s := GetInt s Int.uint64.

(** ** All preferences at once *)

(** The walk over the registry; [None] is a text that is not alive or a
    preference without a value. *)
Fixpoint collect (get : list Z -> option Value) (put : ValueMap -> list Z -> Value -> ValueMap)
    (st : Store) (registry : PrefValueMap) (out : ValueMap) : option ValueMap :=
  match registry with
  | [] => Some out
  | (path, _) :: registry =>
      value ← get path;
      copy ← DeepCopy st value;
      collect get put st registry (put out path copy)
  end.

Definition value_of s (path : list Z) : option Value :=
  match GetPreferenceValue s path with Returns v => v | NotReached => None end.

Definition GetPreferenceValues s : option ValueMap :=
  collect (value_of s) Set_ (store_texts (user_pref_store_ s)) (default_prefs_ (defaults_ s)) [].

Definition GetPreferenceValuesOmitDefaults s : option ValueMap :=
  collect (value_of s) Set_ (store_texts (user_pref_store_ s))
    (filter (fun e => IsDefaultValue s e.1 = false) (default_prefs_ (defaults_ s))) [].

Definition GetPreferenceValuesWithoutPathExpansion s : option ValueMap :=
  collect (value_of s) SetWithoutPathExpansion (store_texts (user_pref_store_ s))
    (default_prefs_ (defaults_ s)) [].
End Strings.

(** ** [PrefNotifierImpl] *)

(** [pref_observers_]: an observer list for every path that ever had one. *)
Definition Notifier : Type := list (list Z * ObserverList.State).

Fixpoint observers_of (pref_observers_ : Notifier) (path : list Z) : option ObserverList.State :=
  match pref_observers_ with
  | [] => None
  | (p, l) :: rest => if bool_decide (p = path) then Some l else observers_of rest path
  end.

Fixpoint set_observers (pref_observers_ : Notifier) (path : list Z) (l : ObserverList.State)
    : Notifier :=
  match pref_observers_ with
  | [] => [(path, l)]
  | (p, m) :: rest =>
      if bool_decide (p = path) then (p, l) :: rest else (p, m) :: set_observers rest path l
  end.

(** [None] is [NOTREACHED]. *)
Definition AddPrefObserver (n : Notifier) (path : list Z) (obs : Observer) : option Notifier :=
  let l := default (new_State NOTIFY_ALL) (observers_of n path) in
  match step l (ObserverList.Add obs) with
  | Some (l, Says true) => Some (set_observers n path l)
  | _ => None
  end.

Definition RemovePrefObserver (n : Notifier) (path : list Z) (obs : Observer) : Notifier :=
  match observers_of n path with
  | None => n
  | Some l => match step l (ObserverList.Remove obs) with Some (l, _) => set_observers n path l | None => n end
  end.

(** The beginning of a notification: the observer that is called first, if any.
    It goes on with [Return] on the observer list of the path. *)
Definition FireObservers {U} (s : PrefService U) (n : Notifier) (path : list Z)
    : Notifier * option Observer :=
  match fst (FindPreference s path), observers_of n path with
  | Some _, Some l =>
      match step l ForEach with
      | Some (l, Calls obs) => (set_observers n path l, Some obs)
      | Some (l, _) => (set_observers n path l, None)
      | None => (n, None)
      end
  | _, _ => (n, None)
  end.

(** The rest of a notification whose observers leave the list alone. *)
Fixpoint calls_from (fuel : nat) (l : ObserverList.State) : list Observer :=
  match fuel with
  | O => []
  | S fuel =>
      match step l Return with
      | Some (l, Calls obs) => obs :: calls_from fuel l
      | _ => []
      end
  end.

(** ** [PrefChangeRegistrar] *)

(** The paths it observes; [this] is its address, and the callbacks are run by
    [OnPreferenceChanged] for the paths that are there. *)
Definition Registrar : Type := list (list Z).

Definition IsObserved (r : Registrar) (pref : list Z) : bool := bool_decide (pref ∈ r).

(** [None] is a failed [DCHECK]. *)
Definition Registrar_Add (this : Observer) (r : Registrar) (n : Notifier) (path : list Z)
    : option (Registrar * Notifier) :=
  if IsObserved r path then None
  else n ← AddPrefObserver n path this; Some (path :: r, n).

Definition Registrar_Remove (this : Observer) (r : Registrar) (n : Notifier) (path : list Z)
    : option (Registrar * Notifier) :=
  if IsObserved r path then Some (filter (fun p => p <> path) r, RemovePrefObserver n path this)
  else None.

Definition RemoveAll (this : Observer) (r : Registrar) (n : Notifier) : Registrar * Notifier :=
  ([], fold_left (fun n path => RemovePrefObserver n path this) r n).

(** ** Lemmas *)

(** The loop over the stores finds the first that has a value of the type. *)
Lemma first_value_Some GetPrefStore name type stores v :
  first_value GetPrefStore name type stores = Some v ->
  exists above t below, stores = above ++ t :: below /\
    GetValueFromStoreWithType GetPrefStore name type t = Some v /\
    Forall (fun i => GetValueFromStoreWithType GetPrefStore name type i = None) above.
Proof.
  induction stores as [|i stores IH]; simpl; [done|].
  destruct (GetValueFromStoreWithType GetPrefStore name type i) as [w|] eqn:E.
  - intros [= <-]. exists [], i, stores. by repeat split.
  - intros Hv. destruct (IH Hv) as (above & t & below & -> & Ht & Ha).
    exists (i :: above), t, below. split; [done|]. split; [done|]. by constructor.
Qed.

Lemma first_value_exists GetPrefStore name type stores t v :
  In t stores -> GetValueFromStoreWithType GetPrefStore name type t = Some v ->
  exists w, first_value GetPrefStore name type stores = Some w.
Proof.
  intros Hin Hv. induction stores as [|i stores IH]; simpl; [done|].
  destruct (GetValueFromStoreWithType GetPrefStore name type i) eqn:E; [by eexists|].
  destruct Hin as [->|Hin]; [congruence | by apply IH].
Qed.

Lemma first_value_ext G G' name type stores :
  (forall t, GetValueFromStoreWithType G name type t = GetValueFromStoreWithType G' name type t) ->
  first_value G name type stores = first_value G' name type stores.
Proof. intros Hext. induction stores as [|i stores IH]; simpl; [done|]. by rewrite Hext, IH. Qed.

Lemma with_type_Some G name type t v :
  GetValueFromStoreWithType G name type t = Some v <->
  GetValueFromStore G name t = Some v /\ GetType v = type.
Proof.
  unfold GetValueFromStoreWithType. destruct (GetValueFromStore G name t) as [w|]; simpl; [|naive_solver].
  unfold IsType. case_bool_decide; naive_solver.
Qed.

Lemma with_type_None G name type t :
  GetValueFromStoreWithType G name type t = None <->
  forall w, GetValueFromStore G name t = Some w -> GetType w <> type.
Proof.
  unfold GetValueFromStoreWithType. destruct (GetValueFromStore G name t) as [w|]; simpl; [|done].
  unfold IsType. case_bool_decide as E; split; try done; try congruence.
  intros Hw. by destruct (Hw w eq_refl).
Qed.

Lemma store_types_index a t b : store_types = a ++ t :: b -> length a = store_index t.
Proof.
  unfold store_types. intros E.
  do 7 (destruct a as [|? a]; [by injection E as <- _|]; injection E as <- E).
  by destruct a.
Qed.

Lemma store_types_split t :
  exists a b, store_types = a ++ t :: b /\ (forall i, i ∈ a <-> (store_index i < store_index t)%nat).
Proof.
  exists (take (store_index t) store_types), (drop (S (store_index t)) store_types).
  split; [by destruct t|]. intros i. destruct t, i; simpl; rewrite ?elem_of_cons, ?elem_of_nil;
    (split; [intros Hin; repeat (destruct Hin as [Hin|Hin]; [done || lia|]); done || lia
            |intros Hlt; try lia; naive_solver]).
Qed.

Section ServiceLaws.
Context {U : Type} `{WriteablePrefStore U} {laws : WriteableLaws U}.
Implicit Types s : PrefService U.

(** A registered preference has a default of its type; what the service
    remembers is that type. *)
Record service_ok s : Prop := {
  ok_user : store_inv U (user_pref_store_ s);
  ok_defaults : owned_map (default_prefs_ (defaults_ s));
  ok_prefs : forall p T, prefs_find (prefs_map_ s) p = Some T ->
    exists d, store_GetValue (defaults_ s) p = Some d /\ GetType d = T;
}.

(** The type under which a preference is registered. *)
Definition registered_type s (p : list Z) : option Type_ :=
  GetType <$> store_GetValue (defaults_ s) p.

Lemma FindPreference_ok s p :
  service_ok s ->
  exists s', FindPreference s p = (registered_type s p, s') /\ service_ok s' /\
    user_pref_store_ s' = user_pref_store_ s /\ defaults_ s' = defaults_ s /\
    other_stores s' = other_stores s.
Proof.
  intros Hs. unfold FindPreference, registered_type.
  destruct (prefs_find (prefs_map_ s) p) as [T|] eqn:E.
  - destruct (ok_prefs s Hs p T E) as (d & -> & <-). by eexists.
  - destruct (store_GetValue (defaults_ s) p) as [d|] eqn:Ed; [|by eexists]. simpl.
    eexists. split; [done|]. split; [|done]. destruct Hs as [Hu Hd Hp]. split; [done|done|].
    intros q T. simpl. case_bool_decide as Eq; [|by apply Hp]. intros [= <-]. subst. by exists d.
Qed.

(** The value of a registered preference is the first of its type. *)
Definition effective s (p : list Z) (T : Type_) (v : Value) : Prop :=
  exists t, GetValueFromStore (GetPrefStore s) p t = Some v /\ GetType v = T /\
    forall i w, (store_index i < store_index t)%nat ->
      GetValueFromStore (GetPrefStore s) p i = Some w -> GetType w <> T.

Lemma GetPreferenceValue_ok s p :
  match registered_type s p with
  | None => GetPreferenceValue s p = Returns None
  | Some T => exists v, GetPreferenceValue s p = Returns (Some v) /\ effective s p T v
  end.
Proof.
  unfold registered_type, GetPreferenceValue.
  destruct (store_GetValue (defaults_ s) p) as [d|] eqn:Ed; [|done]. cbn [fmap option_fmap option_map].
  destruct (first_value_exists (GetPrefStore s) p (GetType d) store_types DEFAULT_STORE d) as [v Hv].
  - by do 6 right; left.
  - apply with_type_Some. split; [|done]. exact Ed.
  - unfold PrefValueStore_GetValue. rewrite Hv. exists v. split; [done|].
    apply first_value_Some in Hv as (above & t & below & Es & [Ht HT]%with_type_Some & Ha).
    exists t. split; [done|]. split; [done|]. intros i w Hi.
    destruct (store_types_split t) as (a & b & Es' & Hin).
    pose proof (store_types_index _ _ _ Es) as Hl1. pose proof (store_types_index _ _ _ Es') as Hl2.
    rewrite Es in Es'. apply app_inj_1 in Es' as [-> _]; [|congruence].
    apply Hin in Hi. rewrite Forall_forall in Ha. apply Ha in Hi. rewrite with_type_None in Hi. apply Hi.
Qed.

Lemma GetPreferenceValue_ext s s' p :
  registered_type s' p = registered_type s p ->
  (forall t, GetValueFromStore (GetPrefStore s') p t = GetValueFromStore (GetPrefStore s) p t) ->
  GetPreferenceValue s' p = GetPreferenceValue s p.
Proof.
  unfold registered_type, GetPreferenceValue. intros Ht Hv.
  destruct (store_GetValue (defaults_ s') p) as [d|], (store_GetValue (defaults_ s) p) as [e|]; try done.
  injection Ht as Ht. unfold PrefValueStore_GetValue. rewrite Ht.
  rewrite (first_value_ext _ (GetPrefStore s)); [done|]. intros t.
  unfold GetValueFromStoreWithType. by rewrite Hv.
Qed.

(** What a call leaves of the service: registrations and the other levels. *)
Definition keeps s s' : Prop :=
  (forall q, registered_type s' q = registered_type s q) /\
  (forall k, store_admits U (user_pref_store_ s') k <-> store_admits U (user_pref_store_ s) k) /\
  (forall k j, store_apart U (user_pref_store_ s') k j <-> store_apart U (user_pref_store_ s) k j).

Lemma keeps_refl s : keeps s s.
Proof. done. Qed.

Lemma keeps_trans s s' s'' : keeps s s' -> keeps s' s'' -> keeps s s''.
Proof.
  intros (Hr & Ha & Hp) (Hr' & Ha' & Hp'). split; [|split].
  - intros q. by rewrite Hr'.
  - intros k. by rewrite Ha'.
  - intros k j. by rewrite Hp'.
Qed.

(** A change of the user store under one key. *)
Lemma change_user s s1 u p :
  service_ok s -> service_ok s1 -> user_pref_store_ s1 = user_pref_store_ s ->
  defaults_ s1 = defaults_ s -> other_stores s1 = other_stores s ->
  after_change (user_pref_store_ s) u ->
  (forall j, store_apart U (user_pref_store_ s) p j ->
     store_GetValue u j = store_GetValue (user_pref_store_ s) j) ->
  service_ok (set_user s1 u) /\ keeps s (set_user s1 u) /\
  (forall q, store_apart U (user_pref_store_ s) p q ->
     GetPreferenceValue (set_user s1 u) q = GetPreferenceValue s q).
Proof.
  intros Hs Hs1 Eu Ed Eo (Hu & Ha & Hp) Hframe. split; [|split].
  - destruct Hs1 as [Hu1 Hd1 Hp1]. by split.
  - split; [|done]. intros q. unfold registered_type. simpl. by rewrite Ed.
  - intros q Hq. apply GetPreferenceValue_ext; [unfold registered_type; simpl; by rewrite Ed|].
    intros t. unfold GetValueFromStore, GetPrefStore. simpl. rewrite Ed, Eo.
    destruct t; try done. simpl. by apply Hframe.
Qed.

Lemma same_value s s1 p :
  user_pref_store_ s1 = user_pref_store_ s -> defaults_ s1 = defaults_ s ->
  other_stores s1 = other_stores s -> GetPreferenceValue s1 p = GetPreferenceValue s p.
Proof.
  intros Eu Ed Eo. apply GetPreferenceValue_ext; [unfold registered_type; by rewrite Ed|].
  intros t. unfold GetValueFromStore, GetPrefStore. by rewrite Eu, Ed, Eo.
Qed.

(** The reports of a call cover every preference it changes. *)
Definition reported s s' (p : list Z) (reports : list (list Z)) : Prop :=
  (forall r, r ∈ reports -> r = p) /\
  (GetPreferenceValue s' p <> GetPreferenceValue s p -> p ∈ reports) /\
  (forall q, store_apart U (user_pref_store_ s) p q -> GetPreferenceValue s' q = GetPreferenceValue s q).

(** [SetUserPrefValue] with a value of the registered type. *)
Lemma SetUserPrefValue_ok s p v :
  service_ok s -> store_admits U (user_pref_store_ s) p -> wf v -> detached v ->
  registered_type s p = Some (GetType v) ->
  exists s' reports, SetUserPrefValue s p v = Returns (s', reports) /\ service_ok s' /\ keeps s s' /\
    reported s s' p reports /\
    (forall t, t <> USER_STORE ->
       GetValueFromStore (GetPrefStore s') p t = GetValueFromStore (GetPrefStore s) p t) /\
    exists w, store_GetValue (user_pref_store_ s') p = Some w /\ GetType w = GetType v /\
      (w = v \/ (store_GetValue (user_pref_store_ s) p = Some w /\
        (Equals (store_texts (user_pref_store_ s)) w v = Some true \/
         Equals (store_texts (user_pref_store_ s)) v w = Some true))).
Proof.
  intros Hs Hp Hv Hd Hr.
  destruct (FindPreference_ok s p Hs) as (s1 & Hf & Hs1 & Eu & Ed & Eo). unfold SetUserPrefValue.
  rewrite Hf, Hr, bool_decide_true by done. simpl. rewrite Eu.
  destruct (law_set U (user_pref_store_ s) p v (ok_user s Hs) Hp Hv Hd)
    as (u & reports & -> & Ha & Hcase & Hframe).
  destruct (change_user s s1 u p Hs Hs1 Eu Ed Eo Ha Hframe) as (Hok & Hk & Hq).
  eexists _, _. split; [done|]. split; [done|]. split; [done|].
  assert (forall t, t <> USER_STORE -> GetValueFromStore (GetPrefStore (set_user s1 u)) p t
            = GetValueFromStore (GetPrefStore s) p t) as Hothers.
  { intros t Ht. unfold GetValueFromStore, GetPrefStore. simpl. rewrite Ed, Eo. by destruct t. }
  destruct Hcase as [[Hg ->]|(-> & -> & old & Hg & HT & He)].
  - split; [|split; [done|]].
    + split; [by intros r ->%list_elem_of_singleton|]. split; [|done]. intros _. by left.
    + exists v. split; [done|]. split; [done | by left].
  - split; [|split; [done|]].
    + split; [by intros r ?%elem_of_nil|]. split; [|done]. intros Hne. destruct Hne.
      apply same_value; [done | exact Ed | exact Eo].
    + exists old. split; [done|]. split; [done | by right].
Qed.

Lemma ClearPref_ok s p T :
  service_ok s -> store_admits U (user_pref_store_ s) p -> registered_type s p = Some T ->
  exists s' reports, ClearPref s p = Returns (s', reports) /\ service_ok s' /\ keeps s s' /\
    reported s s' p reports.
Proof.
  intros Hs Hp Hr. destruct (FindPreference_ok s p Hs) as (s1 & Hf & Hs1 & Eu & Ed & Eo).
  unfold ClearPref. rewrite Hf, Hr, Eu.
  destruct (law_remove U (user_pref_store_ s) p (ok_user s Hs) Hp)
    as (u & reports & -> & Ha & Hcase & Hframe).
  destruct (change_user s s1 u p Hs Hs1 Eu Ed Eo Ha Hframe) as (Hok & Hk & Hq).
  eexists _, _. split; [done|]. split; [done|]. split; [done|].
  destruct Hcase as [->|[-> ->]].
  - split; [by intros r ->%list_elem_of_singleton|]. split; [|done]. intros _. by left.
  - split; [by intros r ?%elem_of_nil|]. split; [|done]. intros Hne. destruct Hne.
    apply same_value; [done | exact Ed | exact Eo].
Qed.

(** Registration and the defaults. *)

Lemma get_default s p : store_GetValue (defaults_ s) p = map_find (default_prefs_ (defaults_ s)) p.
Proof. done. Qed.

Lemma Register_ok s p v :
  service_ok s -> Forall is_byte p -> wf v -> detached v ->
  match Register s p v with
  | Returns s' => service_ok s' /\ registered_type s p = None /\
      (forall q, registered_type s' q = if bool_decide (p = q) then Some (GetType v)
                                        else registered_type s q) /\
      user_pref_store_ s' = user_pref_store_ s
  | NotReached => registered_type s p <> None \/ GetType v = TYPE_NULL \/ GetType v = TYPE_BINARY
  end.
Proof.
  intros [Hu Hd Hp] Hb Hv Hdv. unfold Register, RegisterPreference, SetDefaultValue, registered_type.
  rewrite !get_default. destruct (map_find (default_prefs_ (defaults_ s)) p) as [d|] eqn:Ed.
  { repeat (case_guard; simpl; try done); by left. }
  repeat (case_guard; simpl; try done).
  2: { right. destruct (decide (GetType v = TYPE_NULL)); [by left|].
       destruct (decide (GetType v = TYPE_BINARY)); [by right | tauto]. }
  unfold PrefValueMap_SetValue. rewrite Ed. simpl.
  split; [|split; [done|split; [|done]]].
  - split; [done | by apply owned_set |]. intros q U0 Hq. simpl. unfold PrefValueMap_GetValue.
    destruct (Hp q U0 Hq) as (e & He & HTe). simpl in He. unfold PrefValueMap_GetValue in He. exists e. split; [|done].
    destruct (decide (p = q)) as [<-|Hne]; [congruence | by rewrite find_set_ne].
  - intros q. unfold PrefValueMap_GetValue. simpl.
    case_bool_decide as E; [subst; by rewrite find_set_eq | by rewrite find_set_ne].
Qed.

Lemma SetDefault_ok s p v :
  service_ok s -> Forall is_byte p -> wf v -> detached v -> registered_type s p = Some (GetType v) ->
  exists s' reports, PrefService_SetDefaultPrefValue s p v = Returns (s', reports) /\ service_ok s' /\
    keeps s s' /\ reported s s' p reports.
Proof.
  intros Hs Hb Hv Hdv Hr. pose proof Hs as [Hu Hd Hp].
  unfold PrefService_SetDefaultPrefValue, SetDefaultPrefValue, ReplaceDefaultValue.
  unfold registered_type in Hr. rewrite get_default in *.
  destruct (map_find (default_prefs_ (defaults_ s)) p) as [d|] eqn:Ed; [|done].
  injection Hr as HT. simpl. unfold IsType. rewrite bool_decide_true by done.
  destruct (owned_find _ _ _ Hd Ed) as [_ Hdd].
  destruct (PrefValueMap_SetValue_ok ∅ _ p v Hd Hb Hv Hdv) as [Hset|[Hset _]];
    unfold PrefValueMap_SetValue in *; rewrite Ed in *;
    destruct (Equals_total ∅ d v) as [[|] He]; try (by apply alive_detached); rewrite He in *;
    simpl in *; try done; rewrite ?Hset; clear Hset; eexists _, _; (split; [done|]).
  - assert (forall q, registered_type (set_defaults s (DefaultPrefStore_ (map_set (default_prefs_ (defaults_ s)) p v))) q
              = registered_type s q) as Hreg.
    { intros q. unfold registered_type. rewrite !get_default. simpl.
      destruct (decide (p = q)) as [<-|Hne]; [by rewrite find_set_eq, Ed; simpl; rewrite HT|].
      by rewrite find_set_ne. }
    split; [|split; [by split|]].
    + split; [done | by apply owned_set |]. intros q T Hq. destruct (Hp q T Hq) as (e & He' & HTe).
      simpl in *. unfold PrefValueMap_GetValue in *. destruct (decide (p = q)) as [<-|Hne].
      * exists v. rewrite find_set_eq. split; [done|]. rewrite Ed in He'. congruence.
      * exists e. by rewrite find_set_ne.
    + split; [by intros r ->%list_elem_of_singleton|]. split; [intros _; by left|].
      intros q Hq%law_apart. apply GetPreferenceValue_ext; [done|]. intros t.
      unfold GetValueFromStore, GetPrefStore. destruct t; try done. simpl.
      unfold any_GetValue, PrefValueMap_GetValue. simpl. by rewrite find_set_ne.
  - assert (set_defaults s (DefaultPrefStore_ (default_prefs_ (defaults_ s))) = s) as ->.
    { destruct s as [u [m] o pm]. done. }
    split; [done|]. split; [apply keeps_refl|].
    split; [by intros r ?%elem_of_nil | by split].
Qed.

(** The containers of the user store that a caller may change. *)
Lemma GetMutableUserPref_ok s p T :
  service_ok s -> store_admits U (user_pref_store_ s) p -> registered_type s p = Some T ->
  T = TYPE_DICTIONARY \/ T = TYPE_LIST ->
  exists s' v, GetMutableUserPref s p T = Returns (s', v) /\ service_ok s' /\ keeps s s' /\
    store_GetValue (user_pref_store_ s') p = Some v /\ GetType v = T /\
    (forall q, store_apart U (user_pref_store_ s) p q ->
       GetPreferenceValue s' q = GetPreferenceValue s q).
Proof.
  intros Hs Hp Hr HT. destruct (FindPreference_ok s p Hs) as (s1 & Hf & Hs1 & Eu & Ed & Eo).
  set (fresh := if bool_decide (T = TYPE_DICTIONARY) then DictionaryValue [] else ListValue []).
  assert (wf fresh /\ detached fresh /\ GetType fresh = T) as (Hwf & Hdf & Htf).
  { unfold fresh. destruct HT as [-> | ->].
    - rewrite bool_decide_true by done. split; [apply wf_map_nil|]. split; [by constructor | done].
    - rewrite bool_decide_false by done. split; [by constructor|]. split; [by constructor | done]. }
  unfold GetMutableUserPref. rewrite Hf, Hr.
  replace (negb (bool_decide (T = TYPE_DICTIONARY) || bool_decide (T = TYPE_LIST))) with false
    by (destruct HT as [-> | ->]; done).
  rewrite bool_decide_true by done. simpl. rewrite Eu.
  destruct (law_mutable U (user_pref_store_ s) p (ok_user s Hs) Hp)
    as (r & u & -> & Ha & Hget & Htype & Hframe).
  destruct (change_user s s1 u p Hs Hs1 Eu Ed Eo Ha Hframe) as (Hok & Hk & Hq).
  assert (forall w, r = Some w -> GetType w = T -> exists s' v, Returns (set_user s1 u, w) = Returns (s', v) /\
    service_ok s' /\ keeps s s' /\ store_GetValue (user_pref_store_ s') p = Some v /\ GetType v = T /\
    (forall q, store_apart U (user_pref_store_ s) p q ->
       GetPreferenceValue s' q = GetPreferenceValue s q)) as Hfound.
  { intros w -> Hw. eexists _, _. split; [done|]. by repeat split; try apply Hok; try apply Hk. }
  assert ((forall w, r = Some w -> GetType w <> T) -> exists s' v,
    match store_SetValueSilently u p fresh with
    | Some u => Returns (set_user (set_user s1 u) u, fresh) | None => NotReached end = Returns (s', v) /\
    service_ok s' /\ keeps s s' /\ store_GetValue (user_pref_store_ s') p = Some v /\ GetType v = T /\
    (forall q, store_apart U (user_pref_store_ s) p q ->
       GetPreferenceValue s' q = GetPreferenceValue s q)) as Hnew.
  { intros Hno. destruct Ha as (Hu & Had & Hap).
    destruct (law_silent U u p fresh Hu) as (u2 & -> & Ha2 & Hcase & Hframe2); [by apply Had | done..|].
    destruct (change_user (set_user s1 u) (set_user s1 u) u2 p Hok Hok eq_refl eq_refl eq_refl Ha2 Hframe2)
      as (Hok2 & Hk2 & Hq2).
    eexists _, _. split; [done|]. split; [exact Hok2|]. split; [by eapply keeps_trans|].
    split; [|split; [done|]].
    - destruct Hcase as [Hg|(_ & old & Hg & Hold)]; [exact Hg|]. exfalso. rewrite Hget in Hg.
      apply (Hno old Hg). congruence.
    - intros q Hqa. rewrite <- (Hq q Hqa). apply Hq2. simpl. by apply Hap. }
  destruct r as [w|]; [|by apply Hnew].
  unfold IsType. case_bool_decide as E; [by apply Hfound|]. apply Hnew. by intros ? [= <-].
Qed.
End ServiceLaws.

(** ** Sequences of calls *)

Inductive PrefOp :=
| Op_Register (path : list Z) (default_value : Value)
| Op_SetDefault (path : list Z) (value : Value)
| Op_SetUser (path : list Z) (new_value : Value)
| Op_Clear (path : list Z)
| Op_Mutable (path : list Z) (type : Type_)
| Op_Report (key : list Z)
| Op_Find (pref_name : list Z)
| Op_CommandLine (command_line_prefs : option AnyPrefStore).

Section Calls.
Context {U : Type} `{WriteablePrefStore U} {laws : WriteableLaws U}.
Implicit Types s : PrefService U.

Definition run_pref_op s (op : PrefOp) : Outcome (PrefService U * list (list Z)) :=
  match op with
  | Op_Register path v =>
      match Register s path v with Returns s => Returns (s, []) | NotReached => NotReached end
  | Op_SetDefault path v => PrefService_SetDefaultPrefValue s path v
  | Op_SetUser path v => SetUserPrefValue s path v
  | Op_Clear path => ClearPref s path
  | Op_Mutable path type =>
      match GetMutableUserPref s path type with
      | Returns (s, _) => Returns (s, [])
      | NotReached => NotReached
      end
  | Op_Report key => Returns (ReportUserPrefChanged s key)
  | Op_Find pref_name => Returns (snd (FindPreference s pref_name), [])
  | Op_CommandLine store => Returns (UpdateCommandLinePrefStore s store, [])
  end.

Fixpoint run_pref_ops s (ops : list PrefOp) : Outcome (PrefService U * list (list Z)) :=
  match ops with
  | [] => Returns (s, [])
  | op :: ops =>
      match run_pref_op s op with
      | NotReached => NotReached
      | Returns (s, reports) =>
          match run_pref_ops s ops with
          | Returns (s, more) => Returns (s, reports ++ more)
          | NotReached => NotReached
          end
      end
  end.

(** Callers hand over values they own, under keys the user store admits. *)
Definition pref_op_ok s (op : PrefOp) : Prop :=
  match op with
  | Op_Register p v | Op_SetDefault p v => Forall is_byte p /\ wf v /\ detached v
  | Op_SetUser p v => store_admits U (user_pref_store_ s) p /\ wf v /\ detached v
  | Op_Clear p | Op_Mutable p _ | Op_Report p => store_admits U (user_pref_store_ s) p
  | Op_Find _ | Op_CommandLine _ => True
  end.

(** A call keeps the service well-formed, and what is registered. *)
Definition extends s s' : Prop :=
  (forall q T, registered_type s q = Some T -> registered_type s' q = Some T) /\
  (forall k, store_admits U (user_pref_store_ s') k <-> store_admits U (user_pref_store_ s) k).

Lemma keeps_extends s s' : keeps s s' -> extends s s'.
Proof. intros (Hr & Ha & _). split; [intros q T HT; by rewrite Hr | done]. Qed.

(** A call that returns was made with a registered preference and its type. *)
Lemma SetDefault_registered s p v r :
  PrefService_SetDefaultPrefValue s p v = Returns r -> registered_type s p = Some (GetType v).
Proof.
  unfold PrefService_SetDefaultPrefValue, SetDefaultPrefValue, registered_type.
  destruct (store_GetValue (defaults_ s) p) as [d|]; simpl; [|done]. unfold IsType.
  case_bool_decide as E; simpl; [|done]. by rewrite E.
Qed.

Lemma SetUser_registered s p v r :
  service_ok s -> SetUserPrefValue s p v = Returns r -> registered_type s p = Some (GetType v).
Proof.
  intros Hs. unfold SetUserPrefValue. destruct (FindPreference_ok s p Hs) as (s1 & -> & _).
  destruct (registered_type s p) as [T|]; [|done]. case_bool_decide as E; simpl; [by rewrite E | done].
Qed.

Lemma Clear_registered s p r :
  service_ok s -> ClearPref s p = Returns r -> is_Some (registered_type s p).
Proof.
  intros Hs. unfold ClearPref. destruct (FindPreference_ok s p Hs) as (s1 & -> & _).
  destruct (registered_type s p); [by eexists | done].
Qed.

Lemma Mutable_registered s p T r :
  service_ok s -> GetMutableUserPref s p T = Returns r ->
  registered_type s p = Some T /\ (T = TYPE_DICTIONARY \/ T = TYPE_LIST).
Proof.
  intros Hs. unfold GetMutableUserPref. destruct (FindPreference_ok s p Hs) as (s1 & -> & _).
  destruct (bool_decide (T = TYPE_DICTIONARY) || bool_decide (T = TYPE_LIST)) eqn:HT; [simpl|done].
  destruct (bool_decide (registered_type s p = Some T)) eqn:E; simpl; [|done]. intros _.
  split; [by apply bool_decide_eq_true in E|].
  apply orb_true_iff in HT as [HT|HT]; apply bool_decide_eq_true in HT; auto.
Qed.

Lemma run_pref_op_ok s op s' reports :
  service_ok s -> pref_op_ok s op -> run_pref_op s op = Returns (s', reports) ->
  service_ok s' /\ extends s s'.
Proof.
  intros Hs Hop. destruct op as [p v|p v|p v|p|p T|p|p|st]; simpl in *.
  - destruct Hop as (Hb & Hv & Hd). pose proof (Register_ok s p v Hs Hb Hv Hd) as Hr.
    destruct (Register s p v) as [s1|]; [|done]. intros [= <- <-].
    destruct Hr as (Hok & Hn & Ht & Eu). split; [done|]. split; [|by rewrite Eu].
    intros q T Hq. rewrite Ht. case_bool_decide; [congruence | done].
  - destruct Hop as (Hb & Hv & Hd). intros Hrun.
    destruct (SetDefault_ok s p v Hs Hb Hv Hd (SetDefault_registered _ _ _ _ Hrun))
      as (s1 & r & Hr & Hok & Hk & _).
    rewrite Hrun in Hr. injection Hr as -> ->. split; [done | by apply keeps_extends].
  - destruct Hop as (Ha & Hv & Hd). intros Hrun.
    destruct (SetUserPrefValue_ok s p v Hs Ha Hv Hd (SetUser_registered _ _ _ _ Hs Hrun))
      as (s1 & r & Hr & Hok & Hk & _).
    rewrite Hrun in Hr. injection Hr as -> ->. split; [done | by apply keeps_extends].
  - intros Hrun. destruct (Clear_registered _ _ _ Hs Hrun) as [T HT].
    destruct (ClearPref_ok s p T Hs Hop HT) as (s1 & r & Hr & Hok & Hk & _).
    rewrite Hrun in Hr. injection Hr as -> ->. split; [done | by apply keeps_extends].
  - intros Hrun. destruct (GetMutableUserPref s p T) as [[s1 v]|] eqn:Hm; [|done].
    injection Hrun as <- <-. destruct (Mutable_registered _ _ _ _ Hs Hm) as [Hr HT].
    destruct (GetMutableUserPref_ok s p T Hs Hop Hr HT) as (s2 & w & Hm' & Hok & Hk & _).
    rewrite Hm in Hm'. injection Hm' as -> ->. split; [done | by apply keeps_extends].
  - unfold ReportUserPrefChanged. destruct Hs as [Hu Hd].
    destruct (law_report U _ p Hu Hop) as (u & -> & (Hu' & Ha & _) & _). intros [= <- <-].
    by split.
  - intros [= <- <-]. destruct (FindPreference_ok s p Hs) as (s1 & Hf & Hok & Eu & Ed & Eo).
    rewrite Hf. simpl. split; [done|]. split; [|by rewrite Eu]. intros q T. unfold registered_type.
    by rewrite Ed.
  - intros [= <- <-]. split; [|done]. by destruct Hs.
Qed.

(** C22: A registered preference always has a value of its type. Whatever is
    registered, set, cleared, replaced as default, handed out for changing or
    wired as command line store, in whatever order and with whatever types, as
    long as no call runs into a [NOTREACHED]: what was registered stays
    registered under its type, and reading a preference never runs into the
    [NOTREACHED] of [GetPreferenceValue]; it gives the value of the registered
    type that the store of the highest precedence holds, ignoring values of
    other types, and null exactly for what was never registered. *)
Theorem preferences_keep_type_and_value s ops s' reports :
  service_ok s -> Forall (pref_op_ok s) ops -> run_pref_ops s ops = Returns (s', reports) ->
  (forall p T, registered_type s p = Some T -> registered_type s' p = Some T) /\
  forall p, match registered_type s' p with
            | None => GetPreferenceValue s' p = Returns None
            | Some T => exists v, GetPreferenceValue s' p = Returns (Some v) /\ effective s' p T v
            end.
Proof.
  intros Hs Hops Hrun.
  assert (service_ok s' /\ extends s s') as [_ [He _]].
  2: { split; [exact He | intros p; apply GetPreferenceValue_ok]. }
  revert s s' reports Hs Hops Hrun. induction ops as [|op ops IH]; intros s s' reports Hs Hops; simpl.
  { intros [= <- <-]. by split. }
  destruct (run_pref_op s op) as [[s1 r]|] eqn:E; [|done].
  destruct (run_pref_ops s1 ops) as [[s2 more]|] eqn:E2; [|done]. intros [= <- <-].
  apply Forall_cons in Hops as [Hop Hops].
  destruct (run_pref_op_ok s op s1 r Hs Hop E) as [Hs1 [Hr1 Ha1]].
  destruct (IH s1 s2 more Hs1) as [Hs2 [Hr2 Ha2]]; [|done|].
  - eapply Forall_impl; [exact Hops|]. intros o Ho. destruct o; simpl in *; rewrite ?Ha1; done.
  - split; [done|]. split; [auto|]. intros k. by rewrite Ha2.
Qed.
End Calls.

(** A service over a map store, before anything is registered. *)
Definition new_map_service : PrefService ValueMapPrefStore :=
  PrefService_ (ValueMapPrefStore_ []) (DefaultPrefStore_ []) (fun _ => None) [].

Lemma owned_nil : owned_map [].
Proof. split; [apply wf_map_nil | constructor]. Qed.

Lemma new_map_service_ok : service_ok new_map_service.
Proof. split; [apply owned_nil | apply owned_nil | done]. Qed.

Definition sample_ops : list PrefOp :=
  [Op_Register [97] (IntegerValue 1); Op_SetUser [97] (IntegerValue 2); Op_Find [97];
   Op_SetDefault [97] (IntegerValue 3); Op_Clear [97]].

Lemma preferences_keep_type_and_value_witness :
  exists s' reports, run_pref_ops new_map_service sample_ops = Returns (s', reports) /\
  (forall p T, registered_type new_map_service p = Some T -> registered_type s' p = Some T) /\
  forall p, match registered_type s' p with
            | None => GetPreferenceValue s' p = Returns None
            | Some T => exists v, GetPreferenceValue s' p = Returns (Some v) /\ effective s' p T v
            end.
Proof.
  eexists _, _. split; [vm_compute; reflexivity|].
  apply (preferences_keep_type_and_value new_map_service sample_ops _ [[97]; [97]; [97]]).
  - apply new_map_service_ok.
  - assert (forall z, 0 <= z < 10 -> wf (IntegerValue z)) as Hz
      by (intros z Hz; constructor; Int.int_compute; lia).
    assert (Forall is_byte [97]) as Hb by (repeat constructor; vm_compute; congruence).
    assert (forall z, detached (IntegerValue z)) as Hd by (intros z; by apply detached_leaf).
    repeat constructor; try done; try (apply Hz; lia).
  - vm_compute. reflexivity.
Defined.

(** ** What a change does *)

Section Changes.
Context {U : Type} `{WriteablePrefStore U} {laws : WriteableLaws U}.
Implicit Types s : PrefService U.

Lemma effective_unique s p T v w : effective s p T v -> effective s p T w -> v = w.
Proof.
  intros (t & Ht & HT & Habove) (t' & Ht' & HT' & Habove').
  destruct (decide (t = t')) as [<-|Hne]; [congruence|]. exfalso.
  assert (store_index t <> store_index t') as Hi by (by destruct t, t').
  destruct (decide (store_index t < store_index t')%nat) as [Hlt|Hge].
  - by apply (Habove' t v Hlt Ht).
  - apply (Habove t' w); [lia | done | done].
Qed.

Lemma effective_value s p T v :
  registered_type s p = Some T -> effective s p T v -> GetPreferenceValue s p = Returns (Some v).
Proof.
  intros HT He. pose proof (GetPreferenceValue_ok s p) as Hg. rewrite HT in Hg.
  destruct Hg as (w & -> & Hw). by rewrite (effective_unique s p T v w He Hw).
Qed.

(** Setting a user preference does what it says. With a registered
    preference and a value of its type the call returns, and preferences apart
    from it keep their values; if a store of higher precedence has a value of
    the type, the preference keeps its value too; otherwise it has the value
    just set, or the equal one it had. With any other type, or a preference that
    is not registered, the call runs into its [NOTREACHED]. *)
Theorem set_user_pref_takes_effect s p v :
  service_ok s -> store_admits U (user_pref_store_ s) p -> wf v -> detached v ->
  if bool_decide (registered_type s p = Some (GetType v)) then
    exists s' reports, SetUserPrefValue s p v = Returns (s', reports) /\
      (forall q, store_apart U (user_pref_store_ s) p q ->
         GetPreferenceValue s' q = GetPreferenceValue s q) /\
      (forall i w, (store_index i < store_index USER_STORE)%nat ->
         GetValueFromStore (GetPrefStore s) p i = Some w -> GetType w = GetType v ->
         GetPreferenceValue s' p = GetPreferenceValue s p) /\
      ((forall i w, (store_index i < store_index USER_STORE)%nat ->
          GetValueFromStore (GetPrefStore s) p i = Some w -> GetType w <> GetType v) ->
       exists w, GetPreferenceValue s' p = Returns (Some w) /\
         (w = v \/ (store_GetValue (user_pref_store_ s) p = Some w /\
            (Equals (store_texts (user_pref_store_ s)) w v = Some true \/
             Equals (store_texts (user_pref_store_ s)) v w = Some true))))
  else SetUserPrefValue s p v = NotReached.
Proof.
  intros Hs Hp Hv Hd. case_bool_decide as Hr.
  2: { destruct (SetUserPrefValue s p v) eqn:E; [|done]. by apply SetUser_registered in E. }
  destruct (SetUserPrefValue_ok s p v Hs Hp Hv Hd Hr)
    as (s' & r & Hset & _ & (Hk & _) & (_ & _ & Hq) & Hothers & w & Hw & HT & Hcase).
  exists s', r. split; [done|]. split; [done|].
  assert (registered_type s' p = Some (GetType v)) as Hr' by by rewrite Hk. split.
  - intros i x Hi Hx HxT. pose proof (GetPreferenceValue_ok s p) as Hg. rewrite Hr in Hg.
    destruct Hg as (y & -> & t & Ht & HyT & Ha). apply (effective_value s' p (GetType v)); [done|].
    assert (store_index t < store_index USER_STORE)%nat as Htu.
    { destruct (decide (store_index i < store_index t)%nat) as [Hlt|]; [|lia].
      by destruct (Ha i x Hlt Hx). }
    exists t. rewrite Hothers by (intros ->; lia). split; [done|]. split; [done|].
    intros j z Hj. rewrite Hothers by (intros ->; simpl in *; lia). by apply Ha.
  - intros Hno. exists w. split; [|done]. apply (effective_value s' p (GetType v)); [done|].
    exists USER_STORE. split; [exact Hw|]. split; [done|]. intros j z Hj.
    rewrite Hothers by (intros ->; lia). by apply Hno.
Qed.
End Changes.

Lemma set_user_pref_takes_effect_witness :
  let s := match run_pref_ops new_map_service [Op_Register [97] (IntegerValue 1)] with
           | Returns (s, _) => s | NotReached => new_map_service end in
  exists s' reports, SetUserPrefValue s [97] (IntegerValue 2) = Returns (s', reports) /\
    GetPreferenceValue s' [97] = Returns (Some (IntegerValue 2)).
Proof.
  intros s. assert (service_ok s) as Hs.
  { split; [apply owned_nil | | done]. split; [|by repeat constructor; apply detached_leaf].
    apply (wf_set [] [97] (IntegerValue 1)); [apply wf_map_nil | | constructor; Int.int_compute; lia].
    repeat constructor; vm_compute; congruence. }
  assert (Forall is_byte [97]) as Hb by (repeat constructor; vm_compute; congruence).
  assert (wf (IntegerValue 2)) as Hv by (constructor; Int.int_compute; lia).
  pose proof (set_user_pref_takes_effect s [97] (IntegerValue 2) Hs Hb Hv) as Ht.
  rewrite bool_decide_true in Ht by (vm_compute; reflexivity).
  destruct Ht as (s' & r & Hset & _ & _ & Hnew); [by apply detached_leaf|].
  exists s', r. split; [exact Hset|]. destruct Hnew as (w & -> & [->|[Hold _]]); [| done | discriminate Hold].
  intros i w Hi. destruct i; simpl in Hi; try lia; discriminate.
Defined.

(** ** Notifications *)

Lemma calls_from_rest type fuel l r rest more :
  simulates type l (Spec_ r (rest :: more)) -> (length rest < fuel)%nat -> calls_from fuel l = rest.
Proof.
  revert l rest. induction fuel as [|fuel IH]; intros l rest Hs Hf; [lia|].
  pose proof (step_simulated type l _ Return Hs) as Hstep.
  cbn [spec_step pending registered] in Hstep. cbn [calls_from].
  destruct (step l Return) as [[l' a]|]; [|done].
  destruct rest as [|o rest]; cbn [spec_turn] in Hstep; destruct Hstep as [-> Hs']; [done|].
  f_equal. apply IH; [done | simpl in Hf; lia].
Qed.

(** The observers of a path, when no notification is in progress. *)
Definition observed_by (n : Notifier) (path : list Z) (obs : list Observer) : Prop :=
  match observers_of n path with
  | Some l => simulates NOTIFY_ALL l (Spec_ (Some obs) [])
  | None => obs = []
  end.

Lemma observers_of_set n path l q :
  observers_of (set_observers n path l) q
    = if bool_decide (path = q) then Some l else observers_of n q.
Proof.
  induction n as [|[p m] n IH]; simpl.
  - by case_bool_decide.
  - destruct (decide (p = path)) as [->|Hne].
    + rewrite bool_decide_true by done. simpl. by case_bool_decide.
    + rewrite (bool_decide_false (p = path)) by done. simpl. rewrite IH.
      repeat case_bool_decide; congruence.
Qed.

Lemma new_State_simulates type : simulates type (new_State type) (Spec_ (Some []) []).
Proof.
  split; [|done]. split; simpl; [done | constructor | done | constructor | constructor].
Qed.

Lemma AddPrefObserver_ok n path obs o :
  observed_by n path obs -> o ∉ obs ->
  exists n', AddPrefObserver n path o = Some n' /\ observed_by n' path (obs ++ [o]) /\
    forall q, q <> path -> observers_of n' q = observers_of n q.
Proof.
  unfold observed_by, AddPrefObserver. intros Hn Ho.
  assert (simulates NOTIFY_ALL (default (new_State NOTIFY_ALL) (observers_of n path))
            (Spec_ (Some obs) [])) as Hs.
  { destruct (observers_of n path); [done|]. subst obs. apply new_State_simulates. }
  pose proof (step_simulated NOTIFY_ALL _ _ (ObserverList.Add o) Hs) as Hstep.
  cbn [spec_step pending registered] in Hstep. rewrite bool_decide_false in Hstep by done.
  destruct (step _ (ObserverList.Add o)) as [[l a]|]; [|done]. destruct Hstep as [-> Hl].
  eexists. split; [done|]. split; [by rewrite observers_of_set, bool_decide_true|].
  intros q Hq. by rewrite observers_of_set, bool_decide_false.
Qed.

Lemma RemovePrefObserver_ok n path obs o :
  observed_by n path obs ->
  observed_by (RemovePrefObserver n path o) path (without o obs) /\
  forall q, q <> path -> observers_of (RemovePrefObserver n path o) q = observers_of n q.
Proof.
  unfold observed_by, RemovePrefObserver. intros Hn.
  destruct (observers_of n path) as [l|] eqn:E; [|rewrite E; by subst obs].
  pose proof (step_simulated NOTIFY_ALL _ _ (ObserverList.Remove o) Hn) as Hstep.
  cbn [spec_step pending registered] in Hstep.
  destruct (step l (ObserverList.Remove o)) as [[l' a]|]; [|done]. destruct Hstep as [_ Hl].
  split; [by rewrite observers_of_set, bool_decide_true|].
  intros q Hq. by rewrite observers_of_set, bool_decide_false.
Qed.

(** The observers of a path are called one after the other. *)
Lemma FireObservers_ok {U} (s : PrefService U) n path obs :
  observed_by n path obs -> is_Some (fst (FindPreference s path)) ->
  match FireObservers s n path with
  | (n', Some o) => exists l rest, obs = o :: rest /\ observers_of n' path = Some l /\
      forall fuel, (length rest < fuel)%nat -> calls_from fuel l = rest
  | (_, None) => obs = []
  end.
Proof.
  unfold observed_by, FireObservers. intros Hn [T ->].
  destruct (observers_of n path) as [l|] eqn:E; [|done].
  pose proof (step_simulated NOTIFY_ALL l _ ForEach Hn) as Hstep.
  cbn [spec_step pending registered] in Hstep.
  destruct (step l ForEach) as [[l' a]|]; [|done].
  destruct obs as [|o rest]; cbn [spec_turn] in Hstep; destruct Hstep as [-> Hl]; [done|].
  exists l', rest. split; [done|]. split; [by rewrite observers_of_set, bool_decide_true|].
  intros fuel Hf. by eapply calls_from_rest.
Qed.

Section Notifications.
Context {U : Type} `{WriteablePrefStore U} {laws : WriteableLaws U}.
Implicit Types s : PrefService U.

(** The calls that change what a preference is. *)
Definition changing (op : PrefOp) (p : list Z) : Prop :=
  match op with
  | Op_SetDefault q _ | Op_SetUser q _ | Op_Clear q => q = p
  | _ => False
  end.

Lemma changing_reported s op p s' reports :
  service_ok s -> pref_op_ok s op -> changing op p -> run_pref_op s op = Returns (s', reports) ->
  reported s s' p reports.
Proof.
  intros Hs Hop Hp Hrun. destruct op as [|q v|q v|q| | | |]; try done; simpl in *; subst q.
  - destruct Hop as (Hb & Hv & Hd).
    destruct (SetDefault_ok s p v Hs Hb Hv Hd (SetDefault_registered _ _ _ _ Hrun))
      as (s1 & r & Hr & _ & _ & Hrep). by rewrite Hrun in Hr; injection Hr as -> ->.
  - destruct Hop as (Ha & Hv & Hd).
    destruct (SetUserPrefValue_ok s p v Hs Ha Hv Hd (SetUser_registered _ _ _ _ Hs Hrun))
      as (s1 & r & Hr & _ & _ & Hrep & _). by rewrite Hrun in Hr; injection Hr as -> ->.
  - destruct (Clear_registered _ _ _ Hs Hrun) as [T HT].
    destruct (ClearPref_ok s p T Hs Hop HT) as (s1 & r & Hr & _ & _ & Hrep).
    by rewrite Hrun in Hr; injection Hr as -> ->.
Qed.

(** No change of a preference goes unnoticed. When a call sets or clears a
    user preference or replaces a default, and the value that readers get for
    any preference, the one of the call or one apart from it, is different
    afterwards, the store reports that preference and nothing else; and firing
    its observers calls exactly those registered for it, in the order of their
    registration and each once, if they do not change their registration while
    they are called. *)
Theorem changes_reach_their_observers s op p q s' reports n obs :
  service_ok s -> pref_op_ok s op -> changing op p -> run_pref_op s op = Returns (s', reports) ->
  q = p \/ store_apart U (user_pref_store_ s) p q ->
  GetPreferenceValue s' q <> GetPreferenceValue s q -> observed_by n q obs ->
  q ∈ reports /\ (forall r, r ∈ reports -> r = q) /\
  match FireObservers s' n q with
  | (n', Some o) => exists l rest, obs = o :: rest /\ observers_of n' q = Some l /\
      forall fuel, (length rest < fuel)%nat -> calls_from fuel l = rest
  | (_, None) => obs = []
  end.
Proof.
  intros Hs Hop Hc Hrun Hq Hne Hobs.
  destruct (changing_reported s op p s' reports Hs Hop Hc Hrun) as (Honly & Hin & Hapart).
  assert (q = p) as ->.
  { destruct Hq as [->|Hq]; [done|]. by destruct Hne; apply Hapart. }
  split; [by apply Hin|]. split; [done|]. apply FireObservers_ok; [done|].
  destruct (run_pref_op_ok s op s' reports Hs Hop Hrun) as [Hs' [Hext _]].
  destruct (FindPreference_ok s' p Hs') as (s1 & -> & _). simpl.
  assert (exists T, registered_type s p = Some T) as [T HT].
  { destruct op as [|k v|k v|k| | | |]; try done; simpl in *; subst k.
    - eexists. by apply SetDefault_registered in Hrun.
    - eexists. by apply SetUser_registered in Hrun.
    - by apply Clear_registered in Hrun. }
  exists T. by apply Hext.
Qed.
End Notifications.

(** A service with one preference and one of its user values. *)
Definition one_pref_service : PrefService ValueMapPrefStore :=
  PrefService_ (ValueMapPrefStore_ []) (DefaultPrefStore_ [([97], IntegerValue 1)])
    (fun _ => None) [].

Lemma one_pref_service_ok : service_ok one_pref_service.
Proof.
  split; [apply owned_nil | | done]. split; [|by repeat constructor; apply detached_leaf].
  apply (wf_set [] [97] (IntegerValue 1)); [apply wf_map_nil | | constructor; Int.int_compute; lia].
  repeat constructor; vm_compute; congruence.
Qed.

Lemma changes_reach_their_observers_witness :
  let n := default [] (AddPrefObserver [] [97] 5%positive) in
  match SetUserPrefValue one_pref_service [97] (IntegerValue 2) with
  | Returns (s', reports) =>
      [97] ∈ reports /\ snd (FireObservers s' n [97]) = Some 5%positive
  | NotReached => False
  end.
Proof.
  intros n.
  assert (observed_by n [97] [5%positive]) as Hn.
  { destruct (AddPrefObserver_ok [] [97] [] 5%positive) as (n' & Hn' & Hobs & _);
      [done | by intros ?%elem_of_nil |]. unfold n. rewrite Hn'. exact Hobs. }
  destruct (SetUserPrefValue one_pref_service [97] (IntegerValue 2)) as [[s' r]|] eqn:E;
    [|vm_compute in E; discriminate E].
  destruct (changes_reach_their_observers one_pref_service (Op_SetUser [97] (IntegerValue 2))
    [97] [97] s' r n [5%positive] one_pref_service_ok) as (Hin & _ & Hfire);
    [ | reflexivity | exact E | by left | | exact Hn |].
  - split; [repeat constructor; vm_compute; congruence|].
    split; [constructor; Int.int_compute; lia | by apply detached_leaf].
  - vm_compute in E. injection E as <- _. discriminate.
  - split; [exact Hin|]. destruct (FireObservers _ n [97]) as [n' [o|]]; [|discriminate Hfire].
    destruct Hfire as (l & rest & Eo & _). by injection Eo as -> _.
Defined.

(** ** Which store controls a preference *)

Lemma controlling_Some GetPrefStore p t :
  ControllingPrefStoreForPref GetPrefStore p = Some t ->
  is_Some (GetValueFromStore GetPrefStore p t) /\
  forall i, (store_index i < store_index t)%nat -> GetValueFromStore GetPrefStore p i = None.
Proof.
  unfold ControllingPrefStoreForPref, PrefValueInStore. intros Hh.
  assert (forall l, head (filter (fun i => bool_decide (is_Some (GetValueFromStore GetPrefStore p i)) = true) l)
            = Some t -> exists a b, l = a ++ t :: b /\ is_Some (GetValueFromStore GetPrefStore p t) /\
            Forall (fun i => GetValueFromStore GetPrefStore p i = None) a) as Hsplit.
  { clear Hh. induction l as [|i l IH]; [done|]. rewrite filter_cons. case_decide as E.
    - simpl. intros [= ->]. exists [], l. split; [done|]. split; [by apply bool_decide_eq_true in E | done].
    - intros Hl. destruct (IH Hl) as (a & b & -> & Ht & Ha). exists (i :: a), b. split; [done|].
      split; [done|]. constructor; [|done]. apply not_true_iff_false, bool_decide_eq_false in E.
      by apply eq_None_not_Some. }
  destruct (Hsplit _ Hh) as (a & b & Es & Ht & Ha). split; [done|]. intros i Hi.
  destruct (store_types_split t) as (a' & b' & Es' & Hin).
  pose proof (store_types_index _ _ _ Es) as Hl1. pose proof (store_types_index _ _ _ Es') as Hl2.
  rewrite Es in Es'. apply app_inj_1 in Es' as [-> _]; [|congruence].
  rewrite Forall_forall in Ha. by apply Ha, Hin.
Qed.

Lemma controlling_exists GetPrefStore p :
  is_Some (GetValueFromStore GetPrefStore p DEFAULT_STORE) ->
  is_Some (ControllingPrefStoreForPref GetPrefStore p).
Proof.
  intros Hd. unfold ControllingPrefStoreForPref.
  destruct (filter _ store_types) as [|t l] eqn:E; [|by eexists]. exfalso.
  assert (DEFAULT_STORE ∈ filter (fun i => PrefValueInStore GetPrefStore p i = true) store_types) as Hin.
  { apply list_elem_of_filter. split; [by apply bool_decide_eq_true|].
    apply list_elem_of_In. by do 6 right; left. }
  rewrite E in Hin. by apply elem_of_nil in Hin.
Qed.

(** The store that is said to control a preference is the one its value comes
    from, provided no store of higher precedence has a value of another type: the
    queries for managed, recommended, user controlled and default values agree
    with what readers get. *)
Theorem controlling_store_supplies_the_value {U} `{PrefStore U} (s : PrefService U) p T :
  registered_type s p = Some T ->
  (forall i w, GetValueFromStore (GetPrefStore s) p i = Some w -> GetType w = T) ->
  exists t v, ControllingPrefStoreForPref (GetPrefStore s) p = Some t /\
    GetValueFromStore (GetPrefStore s) p t = Some v /\
    GetPreferenceValue s p = Returns (Some v) /\
    forall i, PrefValueFromStore (GetPrefStore s) p i = bool_decide (i = t).
Proof.
  intros Hr Htyped.
  destruct (controlling_exists (GetPrefStore s) p) as [t Ht].
  { unfold registered_type in Hr. destruct (store_GetValue (defaults_ s) p) as [d|] eqn:Ed; [|done].
    exists d. exact Ed. }
  destruct (controlling_Some _ _ _ Ht) as [[v Hv] Habove]. exists t, v. split; [done|]. split; [done|].
  split.
  - pose proof (GetPreferenceValue_ok s p) as Hg. rewrite Hr in Hg. destruct Hg as (w & -> & He).
    do 2 f_equal. apply (effective_unique s p T); [done|]. exists t. split; [done|].
    split; [by apply (Htyped t)|]. intros i x Hi Hx. rewrite (Habove i Hi) in Hx. done.
  - intros i. unfold PrefValueFromStore. rewrite Ht. apply bool_decide_ext. split; congruence.
Qed.

Lemma controlling_store_supplies_the_value_witness :
  exists t v, ControllingPrefStoreForPref (GetPrefStore one_pref_service) [97] = Some t /\
    GetValueFromStore (GetPrefStore one_pref_service) [97] t = Some v /\
    GetPreferenceValue one_pref_service [97] = Returns (Some v) /\
    forall i, PrefValueFromStore (GetPrefStore one_pref_service) [97] i = bool_decide (i = t).
Proof.
  apply (controlling_store_supplies_the_value one_pref_service [97] TYPE_INTEGER).
  - reflexivity.
  - intros i w. destruct i; try discriminate. by intros [= <-].
Defined.

(** A value of another type in the managed store makes the preference managed,
    although its value is the default. *)
Definition mistyped_service : PrefService ValueMapPrefStore :=
  PrefService_ (ValueMapPrefStore_ []) (DefaultPrefStore_ [([97], IntegerValue 1)])
    (fun t => if bool_decide (t = MANAGED_STORE)
              then Some (Any (ValueMapPrefStore_ [([97], BooleanValue true)])) else None) [].

Lemma mistyped_value_controls_the_preference :
  IsManagedPreference mistyped_service [97] = true /\
  IsUserModifiablePreference mistyped_service [97] = false /\
  GetPreferenceValue mistyped_service [97] = Returns (Some (IntegerValue 1)).
Proof. by vm_compute. Qed.

(** ** Wide integers *)

(** A 64-bit integer is kept as its decimal text. *)
Lemma get_as_int {U} `{PrefStore U} (s : PrefService U) (LocalIsWhitespace : Z -> bool) t p z ds :
  (forall c, chr_0 <= c <= chr_9 \/ c = chr_minus -> LocalIsWhitespace c = false) ->
  number_type t -> Int.in_range t z -> decimal ds -> ds <> [] -> digits_value 10 0 ds = Z.abs z ->
  GetPreferenceValue s p = Returns (Some (StringValue (decimal_text z ds))) ->
  GetInt LocalIsWhitespace s t p = Some (Returns z).
Proof.
  intros Hws Ht Hz Hd Hne Hval Hg. unfold GetInt, PrefService_GetString. rewrite Hg. simpl.
  by rewrite decimal_text_parsed.
Qed.

(** ** The registrar *)

(** Removing all registrations leaves none of this registrar's observers. *)
Lemma RemoveAll_ok this r n :
  (forall p, p ∈ r -> exists obs, observed_by n p obs) ->
  forall p, p ∈ r -> exists obs, observed_by (snd (RemoveAll this r n)) p obs /\ this ∉ obs.
Proof.
  unfold RemoveAll. simpl. revert n. induction r as [|q r IH]; intros n Hn p Hp; [set_solver|]. simpl.
  destruct (Hn q) as [obs Hq]; [by left|].
  destruct (RemovePrefObserver_ok n q obs this Hq) as [Hrem Hother].
  assert (forall p, p ∈ r -> exists obs, observed_by (RemovePrefObserver n q this) p obs) as Hn'.
  { intros p' Hp'. destruct (decide (p' = q)) as [->|Hne]; [by eexists|].
    destruct (Hn p') as [obs' Hobs']; [by right|]. exists obs'. unfold observed_by in *.
    by rewrite Hother. }
  destruct (decide (p ∈ r)) as [Hr|Hr]; [by apply IH|].
  apply elem_of_cons in Hp as [->|]; [|done].
  assert (forall r n o, q ∉ r -> observed_by n q o ->
            observed_by (fold_left (fun n path => RemovePrefObserver n path this) r n) q o) as Hkeep.
  { clear. induction r as [|k r IH]; intros n o Hq Hobs; [done|]. simpl. apply IH; [set_solver|].
    assert (q <> k) as Hne by set_solver. unfold observed_by in *.
    assert (observers_of (RemovePrefObserver n k this) q = observers_of n q) as ->; [|done].
    unfold RemovePrefObserver. destruct (observers_of n k); [|done].
    destruct (step _ _) as [[l a]|]; [|done]. rewrite observers_of_set. by rewrite bool_decide_false. }
  exists (without this obs). split; [by apply Hkeep|]. unfold without. rewrite list_elem_of_filter. tauto.
Qed.

(** ** All preferences at once *)

(** The walk adds the copies, each under its path, and leaves other paths alone. *)
Lemma collect_ok get st registry out :
  ForallOrdPairs (fun e f => apart_paths e.1 f.1) registry ->
  Forall (fun e => exists v c, get e.1 = Some v /\ DeepCopy st v = Some c) registry ->
  exists d, collect get Set_ st registry out = Some d /\
    (forall p, p ∈ fst <$> registry -> Get d p = (v ← get p; DeepCopy st v)) /\
    (forall q, (forall p, p ∈ fst <$> registry -> apart_paths p q) -> Get d q = Get out q).
Proof.
  intros Hp. revert out. induction Hp as [|[p v0] registry Hfirst Hrest IH]; intros out Hget.
  { exists out. split; [done|]. split; [by intros p ?%elem_of_nil | done]. }
  apply Forall_cons in Hget as [(v & c & Hv & Hc) Hget]. simpl in Hv, Hfirst. simpl.
  rewrite Hv. simpl. rewrite Hc. simpl.
  destruct (IH (Set_ out p c) Hget) as (d & Hd & Hin & Hout). exists d. split; [done|].
  assert (forall q, q ∈ fst <$> registry -> apart_paths p q) as Hpq.
  { intros q Hq. apply list_elem_of_fmap in Hq as (e & -> & He). rewrite Forall_forall in Hfirst.
    by apply Hfirst. }
  split.
  - intros q [->|Hq]%elem_of_cons; [|by apply Hin]. rewrite Hv. simpl. rewrite Hc.
    rewrite Hout by (intros r Hr; by apply apart_paths_sym, Hpq). apply Get_Set_same.
  - intros q Hq. rewrite Hout by (intros r Hr; apply Hq; by right).
    apply Get_Set_apart, Hq. by left.
Qed.

(** The dictionary of all preferences is complete. If no registered name
    begins another at a dot, the dictionary that [GetPreferenceValues] builds
    holds at every registered name a copy of the value that readers get, and
    nothing at names apart from them; nothing is lost or overwritten. *)
Theorem all_preferences_are_collected {U} `{WriteablePrefStore U} (s : PrefService U) :
  ForallOrdPairs (fun e f => apart_paths e.1 f.1) (default_prefs_ (defaults_ s)) ->
  (forall p v, GetPreferenceValue s p = Returns (Some v) ->
     is_Some (DeepCopy (store_texts (user_pref_store_ s)) v)) ->
  exists d, GetPreferenceValues s = Some d /\
    (forall p T, registered_type s p = Some T ->
       exists v, GetPreferenceValue s p = Returns (Some v) /\ is_Some (Get d p) /\
         Get d p = DeepCopy (store_texts (user_pref_store_ s)) v) /\
    (forall q, (forall p T, registered_type s p = Some T -> apart_paths p q) -> Get d q = None).
Proof.
  intros Hapart Hcopy.
  assert (forall p, p ∈ fst <$> default_prefs_ (defaults_ s) <-> exists T, registered_type s p = Some T)
    as Hreg.
  { intros p. rewrite elem_of_keys. unfold registered_type. simpl. unfold PrefValueMap_GetValue.
    destruct (map_find (default_prefs_ (defaults_ s)) p); simpl; split; eauto; [by intros [] | by intros [? [=]]]. }
  assert (forall p T, registered_type s p = Some T -> exists v c, value_of s p = Some v /\
    GetPreferenceValue s p = Returns (Some v) /\ DeepCopy (store_texts (user_pref_store_ s)) v = Some c)
    as Hval.
  { intros p T HT. pose proof (GetPreferenceValue_ok s p) as Hg. rewrite HT in Hg.
    destruct Hg as (v & Hv & _). destruct (Hcopy p v Hv) as [c Hc]. exists v, c.
    unfold value_of. by rewrite Hv. }
  destruct (collect_ok (value_of s) (store_texts (user_pref_store_ s)) (default_prefs_ (defaults_ s)) [])
    as (d & Hd & Hin & Hout); [done| |].
  { apply Forall_forall. intros [p v0] He.
    destruct (proj1 (Hreg p)) as [T HT]; [apply list_elem_of_fmap; by exists (p, v0)|].
    destruct (Hval p T HT) as (v & c & Hv & _ & Hc). by exists v, c. }
  exists d. split; [exact Hd|]. split.
  - intros p T HT. destruct (Hval p T HT) as (v & c & Hv & Hg & Hc). exists v. split; [done|].
    rewrite Hin by (apply Hreg; by eexists). rewrite Hv. simpl. rewrite Hc. split; [by eexists | done].
  - intros q Hq. rewrite Hout; [|intros p [T HT]%Hreg; by eapply Hq].
    rewrite Get_keys. apply lookup_keys_nil, components_nonempty.
Qed.

Lemma all_preferences_are_collected_witness :
  exists d, GetPreferenceValues one_pref_service = Some d /\
    (forall p T, registered_type one_pref_service p = Some T ->
       exists v, GetPreferenceValue one_pref_service p = Returns (Some v) /\ is_Some (Get d p) /\
         Get d p = DeepCopy (store_texts (user_pref_store_ one_pref_service)) v) /\
    (forall q, (forall p T, registered_type one_pref_service p = Some T -> apart_paths p q) ->
       Get d q = None).
Proof.
  apply (all_preferences_are_collected one_pref_service).
  - repeat constructor.
  - intros p v. unfold GetPreferenceValue. simpl. unfold PrefValueMap_GetValue. simpl.
    case_bool_decide as E; [|discriminate]. subst p. vm_compute. intros [= <-]. by eexists.
Defined.

(** With one name that begins another, a value is lost. *)
Lemma nested_names_lose_a_value :
  let s := PrefService_ (ValueMapPrefStore_ [])
             (DefaultPrefStore_ [([97], IntegerValue 1); ([97; 46; 98], IntegerValue 2)])
             (fun _ => None) [] in
  exists d, GetPreferenceValues s = Some d /\
    GetPreferenceValue s [97] = Returns (Some (IntegerValue 1)) /\
    Get d [97] = Some (DictionaryValue [([98], IntegerValue 2)]).
Proof. by eexists. Qed.
