(* ===== verification/JsonWriter.v ===== *)
(** * Writing JSON

    [base/json/string_escape.cc] and [base/json/json_writer.cc]: string escaping
    and the recursive writer, with its three options. The conversion of a double
    to text is the third-party [dmg_fp], the parameter [DoubleToString].

    The writer appends to one string; a function here returns what it appends.
    [None] is a failing [CHECK], an access outside of a string, a read of a text
    that is gone, or a conversion that is undefined. *)
From Stdlib Require Import ZArith Lia SpecFloat.
From stdpp Require Import base numbers option gmap list.
From S2P Require Import Prelude StringNumbers Unicode Values.
Local Open Scope Z_scope.

#[local] Ltac Zify.zify_post_hook ::= Z.to_euclidean_division_equations.

(** ** Escaping *)

Definition chr_quote : Z := 34.
Definition chr_backslash : Z := 92.
Definition kReplacementCodePoint : Z := 0xFFFD.

Definition EscapeSpecialCodePoint (code_point : Z) : option (list Z) :=
  match code_point with
  | 8 => Some [92; 98]
  | 12 => Some [92; 102]
  | 10 => Some [92; 110]
  | 13 => Some [92; 114]
  | 9 => Some [92; 116]
  | 92 => Some [92; 92]
  | 34 => Some [92; 34]
  | 60 => Some [92; 117; 48; 48; 51; 67]
  | _ => None
  end.

(** [StringAppendF(dest, "\\u%04X", code_point)], for the code points it is
    called with, which four digits hold. *)
Definition hex_digit (d : Z) : Z := default 0 (kHexChars !! Z.to_nat d).

Definition U16Escape (code_point : Z) : list Z :=
  [92; 117; hex_digit (code_point / 4096 mod 16); hex_digit (code_point / 256 mod 16);
   hex_digit (code_point / 16 mod 16); hex_digit (code_point mod 16)].

(** What one code point becomes. *)
Definition escape_code_point (code_point : Z) : list Z :=
  match EscapeSpecialCodePoint code_point with
  | Some s => s
  | None => if code_point <? 32 then U16Escape code_point
            else (WriteUnicodeCharacter code_point []).2
  end.

(** [EscapeJSONStringImpl], for the reader of the string's encoding: whether no
    replacement was made, and the text. *)
Section EscapeJSONStringImpl.
Context (Read : list Z -> Z -> Z -> option (Z * option Z)).

Fixpoint escape_loop (fuel : nat) (str : list Z) (length i : Z) (did_replacement : bool)
    (dest : list Z) : option (bool * list Z) :=
  match fuel with
  | O => Some (did_replacement, dest)
  | S fuel =>
      if i <? length then
        '(i, r) ← Read str length i;
        let code_point := default kReplacementCodePoint r in
        let did_replacement := match r with Some _ => did_replacement | None => true end in
        escape_loop fuel str length (i + 1) did_replacement (dest ++ escape_code_point code_point)
      else Some (did_replacement, dest)
  end.

Definition EscapeJSONStringImpl (str : list Z) (put_in_quotes : bool) : option (bool * list Z) :=
  guard (Z.of_nat (length str) <= Int.max Int.int32);;
  let quote := if put_in_quotes then [chr_quote] else [] in
  '(did_replacement, dest) ← escape_loop (length str) str (Z.of_nat (length str)) 0 false quote;
  Some (negb did_replacement, dest ++ quote).
End EscapeJSONStringImpl.

Definition EscapeJSONString : list Z -> bool -> option (bool * list Z) :=
  EscapeJSONStringImpl ReadUnicodeCharacter.

Definition EscapeJSONString16 : list Z -> bool -> option (bool * list Z) :=
  EscapeJSONStringImpl ReadUnicodeCharacter16.

Definition GetQuotedJSONString (str : list Z) : option (list Z) :=
  snd <$> EscapeJSONString str true.

Definition EscapeBytesAsInvalidJSONString (str : list Z) (put_in_quotes : bool) : list Z :=
  let quote := if put_in_quotes then [chr_quote] else [] in
  quote ++
  concat ((fun c => match EscapeSpecialCodePoint c with
                    | Some s => s
                    | None => if (c <? 32) || (126 <? c) then U16Escape c else [c]
                    end) <$> str) ++ quote.

(** ** Doubles *)

(** Whether a finite double has no fractional part, and its value then. *)
Definition is_integer (d : double) : bool :=
  match d with
  | S754_zero _ => true
  | S754_finite _ m e => (0 <=? e) || (Zpos m mod 2 ^ (- e) =? 0)
  | _ => false
  end.

Definition integer_value (d : double) : Z :=
  match d with
  | S754_finite s m e =>
      let v := if 0 <=? e then Zpos m * 2 ^ e else Zpos m / 2 ^ (- e) in
      if s then - v else v
  | _ => 0
  end.

(** The comparisons with [kint64max] and [kint64min] are between doubles. *)
Definition in_int64_as_doubles (d : double) : bool :=
  SFleb d (double_of_int (Int.max Int.int64)) && SFleb (double_of_int (Int.min Int.int64)) d.

(** [static_cast<int64>], undefined when the value does not fit. *)
Definition cast_to_int64 (d : double) : option Z :=
  let v := integer_value d in
  guard (Int.in_range Int.int64 v);; Some v.

Definition chr_point : Z := 46.
Definition chr_e : Z := 101.
Definition chr_E : Z := 69.

Definition has_char (c : Z) (s : list Z) : bool := bool_decide (c ∈ s).

(** The text of a double made into a JSON number that reads as a double. *)
Definition fix_real (real : list Z) : list Z :=
  let real := if has_char chr_point real || has_char chr_e real || has_char chr_E real
              then real else real ++ [chr_point; chr_0] in
  match real with
  | a :: b :: rest =>
      if a =? chr_point then chr_0 :: real
      else if (a =? chr_minus) && (b =? chr_point) then a :: chr_0 :: b :: rest
      else real
  | [a] => if a =? chr_point then chr_0 :: real else real
  | [] => real
  end.

(** ** The writer *)

Record WriterOptions := WriterOptions_ {
  omit_binary_values_ : bool;
  omit_double_type_preservation_ : bool;
  pretty_print_ : bool;
}.

Definition text_null : list Z := [110; 117; 108; 108].
Definition text_true : list Z := [116; 114; 117; 101].
Definition text_false : list Z := [102; 97; 108; 115; 101].
Definition kPrettyPrintLineEnding : list Z := [13; 10].
Definition chr_space : Z := 32.
Definition chr_comma : Z := 44.
Definition chr_colon : Z := 58.
Definition chr_lbracket : Z := 91.
Definition chr_rbracket : Z := 93.
Definition chr_lbrace : Z := 123.
Definition chr_rbrace : Z := 125.

Definition IndentLine (depth : nat) : list Z := replicate (depth * 3) chr_space.

Section JSONWriter.
Context (DoubleToString : double -> list Z).
Context (st : Store) (options : WriterOptions).

Definition when_pretty (s : list Z) : list Z := if pretty_print_ options then s else [].

Definition write_double (value : double) : option (list Z) :=
  if omit_double_type_preservation_ options && in_int64_as_doubles value && is_integer value
  then v ← cast_to_int64 value; IntToString Int.int64 v
  else Some (fix_real (DoubleToString value)).

Definition omitted (v : Value) : bool := omit_binary_values_ options && IsType TYPE_BINARY v.

(** The result of [BuildJSONString] and the text it appends. *)
Fixpoint BuildJSONString (node : Value) (depth : nat) : option (bool * list Z) :=
  match node with
  | NullValue => Some (true, text_null)
  | BooleanValue value => Some (true, if value then text_true else text_false)
  | IntegerValue value => s ← IntToString Int.int32 value; Some (true, s)
  | DoubleValue value => s ← write_double value; Some (true, s)
  | StringValue value => '(_, s) ← EscapeJSONString value true; Some (true, s)
  | JSONStringValue p =>
      value ← piece_bytes st p;
      '(_, s) ← EscapeJSONString value true; Some (true, s)
  | ListValue l =>
      '(result, s) ←
        (fix items (l : list Value) (first_value_has_been_output result : bool)
             : option (bool * list Z) :=
           match l with
           | [] => Some (result, [])
           | value :: l =>
               if omitted value then items l first_value_has_been_output result
               else
                 '(ok, s) ← BuildJSONString value depth;
                 '(result, rest) ← items l true (if (ok : bool) then result else false);
                 Some (result,
                       (if first_value_has_been_output
                        then chr_comma :: when_pretty [chr_space] else []) ++ s ++ rest)
           end) l false true;
      Some (result, chr_lbracket :: when_pretty [chr_space] ++ s ++
                    when_pretty [chr_space] ++ [chr_rbracket])
  | DictionaryValue d =>
      '(result, s) ←
        (fix entries (d : ValueMap) (first_value_has_been_output result : bool)
             : option (bool * list Z) :=
           match d with
           | [] => Some (result, [])
           | (key, value) :: d =>
               if omitted value then entries d first_value_has_been_output result
               else
                 '(_, k) ← EscapeJSONString key true;
                 '(ok, s) ← BuildJSONString value (S depth);
                 '(result, rest) ← entries d true (if (ok : bool) then result else false);
                 Some (result,
                       (if first_value_has_been_output
                        then chr_comma :: when_pretty kPrettyPrintLineEnding else []) ++
                       when_pretty (IndentLine (S depth)) ++ k ++
                       chr_colon :: when_pretty [chr_space] ++ s ++ rest)
           end) d false true;
      Some (result, chr_lbrace :: when_pretty kPrettyPrintLineEnding ++ s ++
                    when_pretty (kPrettyPrintLineEnding ++ IndentLine depth) ++ [chr_rbrace])
  | BinaryValue _ => Some (omit_binary_values_ options, [])
  end.

(** The result and the final contents of [*json]. *)
Definition WriteWithOptions (node : Value) : option (bool * list Z) :=
  '(result, json) ← BuildJSONString node 0;
  Some (result, json ++ when_pretty kPrettyPrintLineEnding).
End JSONWriter.

Definition Write (DoubleToString : double -> list Z) (st : Store) (node : Value)
    : option (bool * list Z) :=
  WriteWithOptions DoubleToString st (WriterOptions_ false false false) node.
