(* ===== verification/JsonParser.v ===== *)
(** * Reading JSON

    [base/json/json_parser.cc] and [base/json/json_reader.cc]: the recursive
    descent parser, with its position, its index, its depth and its error, the
    string builder that copies only when it must, and the hidden roots that own
    the text which string values point into.

    The parser is a state monad over [Parser] whose results are [Done],
    [Undefined] and [OutOfFuel]. [Undefined] is a read outside of the memory
    that is there, or an [int] that overflows. The memory of a parse is the
    input followed by what follows it: the terminator of the copy the parser
    makes, or, when it parses in place, whatever the caller has there.

    Every [while] loop has a bound computed from the bytes that are left, and
    the recursion is bounded by the nesting limit; [OutOfFuel] is what happens
    when a bound is not enough, which the theorems exclude. *)
From Stdlib Require Import ZArith Lia SpecFloat.
From Stdlib Require Ascii String.
From stdpp Require Import base numbers option gmap list.
From S2P Require Import Prelude StringNumbers Unicode Values JsonWriter.
Local Open Scope Z_scope.

#[local] Ltac Zify.zify_post_hook ::= Z.to_euclidean_division_equations.

(** ** State *)

Inductive JsonParseError :=
| JSON_NO_ERROR | JSON_INVALID_ESCAPE | JSON_SYNTAX_ERROR | JSON_UNEXPECTED_TOKEN
| JSON_TRAILING_COMMA | JSON_TOO_MUCH_NESTING | JSON_UNEXPECTED_DATA_AFTER_ROOT
| JSON_UNSUPPORTED_ENCODING | JSON_UNQUOTED_DICTIONARY_KEY.

Inductive Token :=
| T_OBJECT_BEGIN | T_OBJECT_END | T_ARRAY_BEGIN | T_ARRAY_END | T_STRING | T_NUMBER
| T_BOOL_TRUE | T_BOOL_FALSE | T_NULL | T_LIST_SEPARATOR | T_OBJECT_PAIR_SEPARATOR
| T_END_OF_INPUT | T_INVALID_TOKEN.

#[export] Instance Token_eq_dec : EqDecision Token.
Proof. solve_decision. Defined.

(** Positions are offsets from [start_pos_]. *)
Record Parser := Parser_ {
  pos_ : Z;
  index_ : Z;
  stack_depth_ : Z;
  line_number_ : Z;
  index_last_line_ : Z;
  error_code_ : JsonParseError;
  error_line_ : Z;
  error_column_ : Z;
}.

Definition set_pos (x : Z) (p : Parser) : Parser :=
  Parser_ x (index_ p) (stack_depth_ p) (line_number_ p) (index_last_line_ p) (error_code_ p)
    (error_line_ p) (error_column_ p).
Definition set_index_field (x : Z) (p : Parser) : Parser :=
  Parser_ (pos_ p) x (stack_depth_ p) (line_number_ p) (index_last_line_ p) (error_code_ p)
    (error_line_ p) (error_column_ p).
Definition set_stack_depth (x : Z) (p : Parser) : Parser :=
  Parser_ (pos_ p) (index_ p) x (line_number_ p) (index_last_line_ p) (error_code_ p)
    (error_line_ p) (error_column_ p).
Definition set_line (line last : Z) (p : Parser) : Parser :=
  Parser_ (pos_ p) (index_ p) (stack_depth_ p) line last (error_code_ p)
    (error_line_ p) (error_column_ p).
Definition set_error (code : JsonParseError) (line column : Z) (p : Parser) : Parser :=
  Parser_ (pos_ p) (index_ p) (stack_depth_ p) (line_number_ p) (index_last_line_ p) code
    line column.

Inductive outcome (A : Type) : Type :=
| Done (a : A) (p : Parser)
| Undefined
| OutOfFuel.
Arguments Done {A} a p.
Arguments Undefined {A}.
Arguments OutOfFuel {A}.

Definition M (A : Type) : Type := Parser -> outcome A.

#[export] Instance M_ret : MRet M := fun A a p => Done a p.
#[export] Instance M_bind : MBind M := fun A B f m p =>
  match m p with
  | Done a p => f a p
  | Undefined => Undefined
  | OutOfFuel => OutOfFuel
  end.

Definition get {A} (f : Parser -> A) : M A := fun p => Done (f p) p.
Definition modify (f : Parser -> Parser) : M unit := fun p => Done tt (f p).
Definition undefined {A} : M A := fun _ => Undefined.
Definition out_of_fuel {A} : M A := fun _ => OutOfFuel.

(** The options of a parse. *)
Record ParserOptions := ParserOptions_ {
  JSON_ALLOW_TRAILING_COMMAS : bool;
  JSON_DETACHABLE_CHILDREN : bool;
}.

Definition kStackMaxDepth : Z := 100.
Definition kExtendedASCIIStart : Z := 0x80.

Definition IsAsciiDigit (c : Z) : bool := (chr_0 <=? c) && (c <=? chr_9).

Definition chr_newline : Z := 10.
Definition chr_return : Z := 13.
Definition chr_tab : Z := 9.
Definition chr_slash : Z := 47.
Definition chr_star : Z := 42.

(** The builder of a string: [length_] bytes of the text from [pos_] on, until
    it is converted to a string of its own. *)
Record StringBuilder := StringBuilder_ {
  sb_pos : Z;
  sb_length : Z;
  sb_string : option (list Z);
}.

Section JSONParser.
(** The memory that [start_pos_] points to, the length of the input, the options,
    the name of the text for the pieces of it, and the library conversions. *)
Context (mem : list Z) (end_pos_ : Z) (options : ParserOptions) (text_id : N).
Context (LocalIsWhitespace : Z -> bool) (StringToDouble : list Z -> option double).

(** ** Moving *)

Definition read (pos : Z) : M Z :=
  match char_at mem pos with Some c => mret c | None => undefined end.

Definition deref : M Z := pos ← get pos_; read pos.

(** [n] bytes from [pos] on. *)
Fixpoint read_range (pos : Z) (n : nat) : M (list Z) :=
  match n with
  | O => mret []
  | S n => c ← read pos; rest ← read_range (pos + 1) n; mret (c :: rest)
  end.

Definition set_index (x : Z) : M unit :=
  if bool_decide (Int.in_range Int.int32 x) then modify (set_index_field x) else undefined.

Definition CanConsume (length : Z) : M bool :=
  pos ← get pos_; mret (pos + length <=? end_pos_).

Definition NextNChars (n : Z) : M unit :=
  index ← get index_;
  _ ← set_index (index + n);
  pos ← get pos_;
  modify (set_pos (pos + n)).

(** The new position. *)
Definition NextChar : M Z := _ ← NextNChars 1; get pos_.

(** [*NextChar()] *)
Definition ReadNextChar : M Z := pos ← NextChar; read pos.

Definition ReportError (code : JsonParseError) (column_adjust : Z) : M unit :=
  line ← get line_number_;
  index ← get index_;
  last ← get index_last_line_;
  modify (set_error code line (index - last + column_adjust)).

(** Reports and returns null. *)
Definition fail_with {A} (code : JsonParseError) (column_adjust : Z) : M (option A) :=
  _ ← ReportError code column_adjust; mret None.

(** The number of bytes left, and one more: a bound for loops that advance. *)
Definition bytes_left : M nat := pos ← get pos_; mret (S (Z.to_nat (end_pos_ - pos))).

(** ** White space, comments and tokens *)

Fixpoint line_comment (fuel : nat) : M bool :=
  match fuel with
  | O => out_of_fuel
  | S fuel =>
      can ← CanConsume 1;
      if can : bool then
        next_char ← ReadNextChar;
        if (next_char =? chr_newline) || (next_char =? chr_return) then mret true
        else line_comment fuel
      else mret false
  end.

Fixpoint block_comment (fuel : nat) (previous_char : Z) : M bool :=
  match fuel with
  | O => out_of_fuel
  | S fuel =>
      can ← CanConsume 1;
      if can : bool then
        next_char ← ReadNextChar;
        if (previous_char =? chr_star) && (next_char =? chr_slash)
        then _ ← NextChar; mret true
        else block_comment fuel next_char
      else mret false
  end.

Definition EatComment : M bool :=
  c ← deref;
  can ← CanConsume 1;
  if negb (c =? chr_slash) || negb can then mret false
  else
    next_char ← ReadNextChar;
    fuel ← bytes_left;
    if next_char =? chr_slash then line_comment fuel
    else if next_char =? chr_star then block_comment fuel 0
    else mret false.

(** The line counters, at a line ending. *)
Definition count_line (c : Z) : M unit :=
  pos ← get pos_;
  index ← get index_;
  line ← get line_number_;
  second ← (if (c =? chr_newline) && (0 <? pos)
            then previous ← read (pos - 1); mret (previous =? chr_return)
            else mret false);
  modify (set_line (if second : bool then line else line + 1) index).

Fixpoint eat_loop (fuel : nat) : M unit :=
  match fuel with
  | O => out_of_fuel
  | S fuel =>
      pos ← get pos_;
      if pos <? end_pos_ then
        c ← deref;
        if (c =? chr_return) || (c =? chr_newline) then
          _ ← count_line c; _ ← NextChar; eat_loop fuel
        else if (c =? chr_space) || (c =? chr_tab) then
          _ ← NextChar; eat_loop fuel
        else if c =? chr_slash then
          eaten ← EatComment;
          if eaten : bool then eat_loop fuel else mret tt
        else mret tt
      else mret tt
  end.

Definition EatWhitespaceAndComments : M unit := fuel ← bytes_left; eat_loop fuel.

Definition token_of (c : Z) : Token :=
  if c =? chr_lbrace then T_OBJECT_BEGIN else
  if c =? chr_rbrace then T_OBJECT_END else
  if c =? chr_lbracket then T_ARRAY_BEGIN else
  if c =? chr_rbracket then T_ARRAY_END else
  if c =? chr_quote then T_STRING else
  if IsAsciiDigit c || (c =? chr_minus) then T_NUMBER else
  if c =? 116 then T_BOOL_TRUE else
  if c =? 102 then T_BOOL_FALSE else
  if c =? 110 then T_NULL else
  if c =? chr_comma then T_LIST_SEPARATOR else
  if c =? chr_colon then T_OBJECT_PAIR_SEPARATOR else T_INVALID_TOKEN.

Definition GetNextToken : M Token :=
  _ ← EatWhitespaceAndComments;
  can ← CanConsume 1;
  if can : bool then c ← deref; mret (token_of c) else mret T_END_OF_INPUT.

(** ** Strings *)

Definition Convert (b : StringBuilder) : M StringBuilder :=
  match sb_string b with
  | Some _ => mret b
  | None => s ← read_range (sb_pos b) (Z.to_nat (sb_length b));
            mret (StringBuilder_ (sb_pos b) (sb_length b) (Some s))
  end.

(** [Append] of a [char]. *)
Definition Append_char (b : StringBuilder) (c : Z) : StringBuilder :=
  match sb_string b with
  | Some s => StringBuilder_ (sb_pos b) (sb_length b) (Some (s ++ [Int.static_cast Int.uint8 c]))
  | None => StringBuilder_ (sb_pos b) (sb_length b + 1) None
  end.

Definition AppendString (b : StringBuilder) (str : list Z) : StringBuilder :=
  match sb_string b with
  | Some s => StringBuilder_ (sb_pos b) (sb_length b) (Some (s ++ str))
  | None => b
  end.

Definition CanBeStringPiece (b : StringBuilder) : bool :=
  match sb_string b with Some _ => false | None => true end.

Definition AsStringPiece (b : StringBuilder) : StringPiece :=
  StringPiece_ text_id (sb_pos b) (sb_length b).

Definition AsString (b : StringBuilder) : M (list Z) :=
  b ← Convert b; mret (default [] (sb_string b)).

Definition DecodeUTF8 (point : Z) (dest : StringBuilder) : M StringBuilder :=
  if point <? kExtendedASCIIStart then mret (Append_char dest point)
  else dest ← Convert dest; mret (AppendString dest (CBU8_APPEND_UNSAFE point)).

(** [HexStringToInt] on [n] bytes from [pos] on. *)
Definition read_hex (pos : Z) (n : nat) : M (option Z) :=
  s ← read_range pos n;
  let '(ok, v) := HexStringToInt LocalIsWhitespace s 0 in
  mret (if ok : bool then Some v else None).

(** The low surrogate that follows a high one. *)
Definition DecodeUTF16_low : M (option Z) :=
  can ← CanConsume 6;
  if negb can then mret None else
  c ← ReadNextChar;
  if negb (c =? chr_backslash) then mret None else
  c ← ReadNextChar;
  if negb (c =? 117) then mret None else
  pos ← NextChar;
  low ← read_hex pos 4;
  match low with
  | None => mret None
  | Some low =>
      _ ← NextNChars 3;
      if negb (CBU16_IS_TRAIL low) then mret None else mret (Some low)
  end.

(** The bytes that are appended to [dest_string], or a failure. *)
Definition DecodeUTF16 : M (option (list Z)) :=
  can ← CanConsume 4;
  if negb can then mret None else
  pos ← get pos_;
  high ← read_hex pos 4;
  match high with
  | None => mret None
  | Some high =>
      _ ← NextNChars 3;
      if CBU_IS_SURROGATE high then
        if negb (CBU_IS_SURROGATE_LEAD high) then mret None else
        low ← DecodeUTF16_low;
        match low with
        | None => mret None
        | Some low =>
            mret (Some (c_string (CBU8_APPEND_UNSAFE
              (Int.static_cast Int.uint32 (CBU16_GET_SUPPLEMENTARY high low)))))
        end
      else mret (Some (c_string (CBU8_APPEND_UNSAFE high)))
  end.

(** The character a one-letter escape stands for. *)
Definition simple_escape (c : Z) : option Z :=
  match c with
  | 34 => Some 34 | 92 => Some 92 | 47 => Some 47
  | 98 => Some 8 | 102 => Some 12 | 110 => Some 10
  | 114 => Some 13 | 116 => Some 9 | 118 => Some 11
  | _ => None
  end.

(** The escape sequence after a backslash, added to the builder. *)
Definition consume_escape (string : StringBuilder) : M (option StringBuilder) :=
  string ← Convert string;
  can ← CanConsume 1;
  if negb can then fail_with JSON_INVALID_ESCAPE 0 else
  c ← ReadNextChar;
  if c =? 120 then
    can ← CanConsume 2;
    if negb can then fail_with JSON_INVALID_ESCAPE 1 else
    pos ← NextChar;
    hex_digit ← read_hex pos 2;
    match hex_digit with
    | None => fail_with JSON_INVALID_ESCAPE (-1)
    | Some hex_digit =>
        _ ← NextChar;
        string ← (if hex_digit <? kExtendedASCIIStart then mret (Append_char string hex_digit)
                  else DecodeUTF8 hex_digit string);
        mret (Some string)
    end
  else if c =? 117 then
    can ← CanConsume 5;
    if negb can then fail_with JSON_INVALID_ESCAPE 0 else
    _ ← NextChar;
    utf8_units ← DecodeUTF16;
    match utf8_units with
    | None => fail_with JSON_INVALID_ESCAPE (-1)
    | Some utf8_units => mret (Some (AppendString string utf8_units))
    end
  else match simple_escape c with
       | Some e => mret (Some (Append_char string e))
       | None => fail_with JSON_INVALID_ESCAPE 0
       end.

Fixpoint string_loop (fuel : nat) (string : StringBuilder) : M (option StringBuilder) :=
  match fuel with
  | O => out_of_fuel
  | S fuel =>
      can ← CanConsume 1;
      if negb can then fail_with JSON_SYNTAX_ERROR 0 else
      index ← get index_;
      _ ← modify (set_pos index);
      match CBU8_NEXT mem index (Int.static_cast Int.int32 end_pos_) with
      | None => undefined
      | Some (index, next_char) =>
          _ ← set_index index;
          if (next_char <? 0) || negb (IsValidCharacter next_char)
          then fail_with JSON_UNSUPPORTED_ENCODING 1
          else if next_char =? chr_backslash then
            string ← consume_escape string;
            match string with
            | None => mret None
            | Some string => string_loop fuel string
            end
          else if next_char =? chr_quote then
            _ ← set_index (index - 1);
            mret (Some string)
          else
            string ← (if next_char <? kExtendedASCIIStart
                      then mret (Append_char string next_char)
                      else DecodeUTF8 next_char string);
            string_loop fuel string
      end
  end.

Definition ConsumeStringRaw : M (option StringBuilder) :=
  c ← deref;
  if negb (c =? chr_quote) then fail_with JSON_UNEXPECTED_TOKEN 1 else
  pos ← NextChar;
  fuel ← bytes_left;
  string_loop (S fuel) (StringBuilder_ pos 0 None).

Definition ConsumeString : M (option Value) :=
  string ← ConsumeStringRaw;
  match string with
  | None => mret None
  | Some string =>
      if CanBeStringPiece string && negb (JSON_DETACHABLE_CHILDREN options)
      then mret (Some (JSONStringValue (AsStringPiece string)))
      else s ← AsString string; mret (Some (StringValue s))
  end.

(** ** Numbers and literals *)

Fixpoint digit_loop (fuel : nat) (c len : Z) : M Z :=
  match fuel with
  | O => out_of_fuel
  | S fuel =>
      can ← CanConsume 1;
      if can && IsAsciiDigit c then c ← ReadNextChar; digit_loop fuel c (len + 1)
      else mret len
  end.

Definition ReadInt (allow_leading_zeros : bool) : M bool :=
  first ← deref;
  fuel ← bytes_left;
  len ← digit_loop fuel first 0;
  mret (if len =? 0 then false
        else if negb allow_leading_zeros && (1 <? len) && (first =? chr_0) then false
        else true).

Definition read_fraction (end_index : Z) : M (option Z) :=
  c ← deref;
  if c =? chr_point then
    can ← CanConsume 1;
    if negb can then fail_with JSON_SYNTAX_ERROR 1 else
    _ ← NextChar;
    ok ← ReadInt true;
    if negb ok then fail_with JSON_SYNTAX_ERROR 1 else
    index ← get index_; mret (Some index)
  else mret (Some end_index).

Definition read_exponent (end_index : Z) : M (option Z) :=
  c ← deref;
  if (c =? chr_e) || (c =? chr_E) then
    _ ← NextChar;
    c ← deref;
    _ ← (if (c =? chr_minus) || (c =? chr_plus) then NextChar else get pos_);
    ok ← ReadInt true;
    if negb ok then fail_with JSON_SYNTAX_ERROR 1 else
    index ← get index_; mret (Some index)
  else mret (Some end_index).

(** The token that ends the number, after which the parser goes back to the
    number's last byte. *)
Definition finish_number (num_start num_length : Z) : M (option Value) :=
  exit_pos ← get (fun p => pos_ p - 1);
  exit_index ← get (fun p => index_ p - 1);
  token ← GetNextToken;
  match token with
  | T_OBJECT_END | T_ARRAY_END | T_LIST_SEPARATOR | T_END_OF_INPUT =>
      _ ← modify (set_pos exit_pos);
      _ ← modify (set_index_field exit_index);
      num_string ← read_range num_start (Z.to_nat num_length);
      let '(is_int, num_int) := StringToInt LocalIsWhitespace num_string 0 in
      mret (if is_int : bool then Some (IntegerValue num_int)
            else match StringToDouble num_string with
                 | Some num_double =>
                     if IsFinite num_double then Some (FundamentalValue_double num_double) else None
                 | None => None
                 end)
  | _ => fail_with JSON_SYNTAX_ERROR 1
  end.

Definition ConsumeNumber : M (option Value) :=
  num_start ← get pos_;
  start_index ← get index_;
  c ← deref;
  _ ← (if c =? chr_minus then NextChar else get pos_);
  ok ← ReadInt false;
  if negb ok then fail_with JSON_SYNTAX_ERROR 1 else
  end_index ← get index_;
  end_index ← read_fraction end_index;
  match end_index with
  | None => mret None
  | Some end_index =>
      end_index ← read_exponent end_index;
      match end_index with
      | None => mret None
      | Some end_index => finish_number num_start (end_index - start_index)
      end
  end.

(** [strncmp] with a literal: reads up to the first difference. *)
Fixpoint StringsAreEqual (pos : Z) (literal : list Z) : M bool :=
  match literal with
  | [] => mret true
  | c :: literal =>
      b ← read pos;
      if b =? c then StringsAreEqual (pos + 1) literal else mret false
  end.

Definition consume_literal (literal : list Z) (v : Value) : M (option Value) :=
  can ← CanConsume (Z.of_nat (length literal) - 1);
  if negb can then fail_with JSON_SYNTAX_ERROR 1 else
  pos ← get pos_;
  same ← StringsAreEqual pos literal;
  if negb same then fail_with JSON_SYNTAX_ERROR 1 else
  _ ← NextNChars (Z.of_nat (length literal) - 1);
  mret (Some v).

Definition ConsumeLiteral : M (option Value) :=
  c ← deref;
  if c =? 116 then consume_literal text_true (BooleanValue true)
  else if c =? 102 then consume_literal text_false (BooleanValue false)
  else if c =? 110 then consume_literal text_null NullValue
  else fail_with JSON_UNEXPECTED_TOKEN 1.

(** ** Containers *)

(** [StackMarker]: its destructor runs on every way out. *)
Definition with_stack_marker {A} (body : bool -> M A) : M A :=
  depth ← get stack_depth_;
  _ ← modify (set_stack_depth (depth + 1));
  a ← body (kStackMaxDepth <=? depth + 1);
  depth ← get stack_depth_;
  _ ← modify (set_stack_depth (depth - 1));
  mret a.

Section Containers.
(** [ParseToken], one level further down. *)
Context (ParseToken : Token -> M (option Value)).

Definition parse_next_token : M (option Value) := token ← GetNextToken; ParseToken token.

(** What follows a member: a comma, whose next token is returned, or the end. *)
Definition after_member (end_token : Token) (column_adjust : Z) : M (option Token) :=
  _ ← NextChar;
  token ← GetNextToken;
  if bool_decide (token = T_LIST_SEPARATOR) then
    _ ← NextChar;
    token ← GetNextToken;
    if bool_decide (token = end_token) && negb (JSON_ALLOW_TRAILING_COMMAS options)
    then fail_with JSON_TRAILING_COMMA 1
    else mret (Some token)
  else if bool_decide (token = end_token) then mret (Some token)
  else fail_with JSON_SYNTAX_ERROR column_adjust.

Fixpoint dictionary_loop (fuel : nat) (dict : ValueMap) (token : Token) : M (option Value) :=
  match fuel with
  | O => out_of_fuel
  | S fuel =>
      if bool_decide (token = T_OBJECT_END) then mret (Some (DictionaryValue dict)) else
      if negb (bool_decide (token = T_STRING)) then fail_with JSON_UNQUOTED_DICTIONARY_KEY 1 else
      key ← ConsumeStringRaw;
      match key with
      | None => mret None
      | Some key =>
          _ ← NextChar;
          token ← GetNextToken;
          if negb (bool_decide (token = T_OBJECT_PAIR_SEPARATOR))
          then fail_with JSON_SYNTAX_ERROR 1 else
          _ ← NextChar;
          value ← parse_next_token;
          match value with
          | None => mret None
          | Some value =>
              key ← AsString key;
              token ← after_member T_OBJECT_END 0;
              match token with
              | None => mret None
              | Some token =>
                  dictionary_loop fuel (SetWithoutPathExpansion dict key value) token
              end
          end
      end
  end.

Definition ConsumeDictionary : M (option Value) :=
  c ← deref;
  if negb (c =? chr_lbrace) then fail_with JSON_UNEXPECTED_TOKEN 1 else
  with_stack_marker (fun IsTooDeep =>
    if IsTooDeep : bool then fail_with JSON_TOO_MUCH_NESTING 1 else
    _ ← NextChar;
    token ← GetNextToken;
    fuel ← bytes_left;
    dictionary_loop fuel [] token).

Fixpoint list_loop (fuel : nat) (list : list Value) (token : Token) : M (option Value) :=
  match fuel with
  | O => out_of_fuel
  | S fuel =>
      if bool_decide (token = T_ARRAY_END) then mret (Some (ListValue list)) else
      item ← ParseToken token;
      match item with
      | None => mret None
      | Some item =>
          token ← after_member T_ARRAY_END 1;
          match token with
          | None => mret None
          | Some token => list_loop fuel (Append list item) token
          end
      end
  end.

Definition ConsumeList : M (option Value) :=
  c ← deref;
  if negb (c =? chr_lbracket) then fail_with JSON_UNEXPECTED_TOKEN 1 else
  with_stack_marker (fun IsTooDeep =>
    if IsTooDeep : bool then fail_with JSON_TOO_MUCH_NESTING 1 else
    _ ← NextChar;
    token ← GetNextToken;
    fuel ← bytes_left;
    list_loop fuel [] token).
End Containers.

Fixpoint ParseToken (fuel : nat) (token : Token) : M (option Value) :=
  match fuel with
  | O => out_of_fuel
  | S fuel =>
      match token with
      | T_OBJECT_BEGIN => ConsumeDictionary (ParseToken fuel)
      | T_ARRAY_BEGIN => ConsumeList (ParseToken fuel)
      | T_STRING => ConsumeString
      | T_NUMBER => ConsumeNumber
      | T_BOOL_TRUE | T_BOOL_FALSE | T_NULL => ConsumeLiteral
      | _ => fail_with JSON_UNEXPECTED_TOKEN 1
      end
  end.

(** A level of recursion per level of nesting. *)
Definition ParseNextToken : M (option Value) :=
  parse_next_token (ParseToken (Z.to_nat kStackMaxDepth)).

(** ** The whole input *)

Definition skip_byte_order_mark : M unit :=
  can ← CanConsume 3;
  if negb can then mret tt else
  a ← deref;
  if negb (a =? 0xEF) then mret tt else
  pos ← get pos_;
  b ← read (pos + 1);
  if negb (b =? 0xBB) then mret tt else
  c ← read (pos + 2);
  if negb (c =? 0xBF) then mret tt else NextNChars 3.

(** [Parse], up to the ownership of the root. *)
Definition parse_root : M (option Value) :=
  _ ← skip_byte_order_mark;
  root ← ParseNextToken;
  match root with
  | None => mret None
  | Some root =>
      token ← GetNextToken;
      if bool_decide (token = T_END_OF_INPUT) then mret (Some root) else
      can ← CanConsume 1;
      if negb can then fail_with JSON_UNEXPECTED_DATA_AFTER_ROOT 1 else
      _ ← NextChar;
      token ← GetNextToken;
      if bool_decide (token = T_END_OF_INPUT) then mret (Some root)
      else fail_with JSON_UNEXPECTED_DATA_AFTER_ROOT 1
  end.
End JSONParser.
