(* ===== verification/JsonSafety.v ===== *)
(** * The JSON parser stays in its memory, ends, and builds well-formed values

    A total correctness logic for the parser monad, and the specification of
    every function of the parser on an arbitrary input that is followed by a
    terminator: no read leaves the memory, no index overflows, every loop ends,
    the depth is restored, and a value that is returned is well formed, nested
    less than the limit and made of pieces of the input. *)
From Stdlib Require Import ZArith Lia SpecFloat Sorted.
From stdpp Require Import base numbers option gmap list.
From S2P Require Import Prelude StringNumbers Unicode Values JsonWriter JsonParser.
Local Open Scope Z_scope.

#[local] Ltac Zify.zify_post_hook ::= Z.to_euclidean_division_equations.

(** ** The logic *)

Definition wp {A} (m : M A) (Q : A -> Parser -> Prop) (p : Parser) : Prop :=
  match m p with Done a p' => Q a p' | _ => False end.

Lemma wp_mono {A} (m : M A) (Q R : A -> Parser -> Prop) p :
  wp m Q p -> (forall a p', Q a p' -> R a p') -> wp m R p.
Proof. unfold wp. destruct (m p); auto. Qed.

Lemma wp_bind {A B} (m : M A) (f : A -> M B) Q p :
  wp m (fun a => wp (f a) Q) p -> wp (m ≫= f) Q p.
Proof. unfold wp, mbind, M_bind. by destruct (m p). Qed.

Lemma wp_ret {A} (a : A) (Q : A -> Parser -> Prop) p : Q a p -> wp (mret a) Q p.
Proof. done. Qed.

Lemma wp_get {A} (f : Parser -> A) (Q : A -> Parser -> Prop) p : Q (f p) p -> wp (get f) Q p.
Proof. done. Qed.

Lemma wp_modify (f : Parser -> Parser) (Q : unit -> Parser -> Prop) p :
  Q tt (f p) -> wp (modify f) Q p.
Proof. done. Qed.

Lemma wp_if {A} (b : bool) (m n : M A) Q p :
  (b = true -> wp m Q p) -> (b = false -> wp n Q p) -> wp (if b then m else n) Q p.
Proof. destruct b; auto. Qed.

(** A step of a program in the monad: binds, returns, reads of the state. *)
Ltac wp_step :=
  lazymatch goal with
  | |- wp (_ ≫= _) _ _ => apply wp_bind
  | |- wp (mret _) _ _ => apply wp_ret
  | |- wp (get _) _ _ => apply wp_get
  | |- wp (modify _) _ _ => apply wp_modify
  end; cbv beta.

Ltac wp_steps := repeat wp_step.

(** The unit of the state that the parser's functions leave alone. *)
Definition same_depth (p p' : Parser) : Prop := stack_depth_ p' = stack_depth_ p.

Section Memory.
Context (mem : list Z) (end_pos_ : Z).

Lemma wp_read pos c (Q : Z -> Parser -> Prop) p :
  char_at mem pos = Some c -> Q c p -> wp (read mem pos) Q p.
Proof. intros H HQ. unfold read. rewrite H. by apply wp_ret. Qed.

Lemma wp_deref c (Q : Z -> Parser -> Prop) p :
  char_at mem (pos_ p) = Some c -> Q c p -> wp (deref mem) Q p.
Proof. intros H HQ. unfold deref. wp_steps. by apply (wp_read _ c). Qed.

Lemma wp_CanConsume n (Q : bool -> Parser -> Prop) p :
  Q (pos_ p + n <=? end_pos_) p -> wp (CanConsume end_pos_ n) Q p.
Proof. intros H. unfold CanConsume. by wp_steps. Qed.

Definition advance (n : Z) (p : Parser) : Parser := set_pos (pos_ p + n) (set_index_field (index_ p + n) p).

Lemma wp_set_index x (Q : unit -> Parser -> Prop) p :
  Int.in_range Int.int32 x -> Q tt (set_index_field x p) -> wp (set_index x) Q p.
Proof. intros H HQ. unfold set_index. rewrite bool_decide_true by done. by apply wp_modify. Qed.

Lemma wp_NextNChars n (Q : unit -> Parser -> Prop) p :
  Int.in_range Int.int32 (index_ p + n) -> Q tt (advance n p) -> wp (NextNChars n) Q p.
Proof. intros H HQ. unfold NextNChars. wp_steps. apply wp_set_index; [done|]. by wp_steps. Qed.

Lemma wp_NextChar (Q : Z -> Parser -> Prop) p :
  Int.in_range Int.int32 (index_ p + 1) -> Q (pos_ p + 1) (advance 1 p) -> wp NextChar Q p.
Proof. intros H HQ. unfold NextChar. wp_steps. apply wp_NextNChars; [done|]. by wp_steps. Qed.

Lemma wp_ReadNextChar c (Q : Z -> Parser -> Prop) p :
  Int.in_range Int.int32 (index_ p + 1) -> char_at mem (pos_ p + 1) = Some c ->
  Q c (advance 1 p) -> wp (ReadNextChar mem) Q p.
Proof.
  intros H Hc HQ. unfold ReadNextChar. wp_steps. apply wp_NextChar; [done|].
  by apply (wp_read _ c).
Qed.

Lemma wp_fail {A} code adjust (Q : option A -> Parser -> Prop) p :
  (forall line column, Q None (set_error code line column p)) -> wp (fail_with code adjust) Q p.
Proof. intros H. unfold fail_with, ReportError. wp_steps. apply H. Qed.

Lemma wp_bytes_left (Q : nat -> Parser -> Prop) p :
  Q (S (Z.to_nat (end_pos_ - pos_ p))) p -> wp (bytes_left end_pos_) Q p.
Proof. intros H. unfold bytes_left. by wp_steps. Qed.

Lemma wp_read_range pos n (Q : list Z -> Parser -> Prop) p :
  0 <= pos -> pos + Z.of_nat n <= Z.of_nat (length mem) ->
  Q (take n (drop (Z.to_nat pos) mem)) p -> wp (read_range mem pos n) Q p.
Proof.
  revert pos Q. induction n as [|n IH]; intros pos Q H0 Hn HQ; simpl; [by wp_steps|].
  destruct (char_at_is_Some mem pos) as [c Hc]; [lia|].
  wp_steps. apply (wp_read _ c); [done|]. wp_steps. apply IH; [lia..|]. wp_steps.
  unfold char_at in Hc. rewrite (proj2 (Z.leb_le _ _)) in Hc by done.
  rewrite (drop_S _ c) in HQ by done. rewrite Z2Nat.inj_add in * by lia.
  rewrite Nat.add_comm. exact HQ.
Qed.
End Memory.

Create HintDb parser.
#[export] Hint Unfold same_depth advance : parser.

(** ** Inputs with a terminator *)

Section Safety.
Context (mem : list Z) (end_pos_ : Z) (options : ParserOptions) (text_id : N).
Context (LocalIsWhitespace : Z -> bool) (StringToDouble : list Z -> option double).
Context (Hbytes : Forall is_byte mem).
Context (Hend : 0 <= end_pos_ < Int.max Int.int32).
Context (Hnul : char_at mem end_pos_ = Some 0).

Lemma memory_length : end_pos_ < Z.of_nat (length mem).
Proof. apply char_at_Some in Hnul. lia. Qed.

Lemma readable_char i : 0 <= i <= end_pos_ -> exists c, char_at mem i = Some c /\ is_byte c.
Proof.
  intros Hi. pose proof memory_length. destruct (char_at_is_Some mem i) as [c Hc]; [lia|].
  exists c. split; [done|]. by eapply char_at_byte.
Qed.

(** At a token boundary the index is the position. *)
Definition at_token (p : Parser) : Prop := 0 <= pos_ p <= end_pos_ /\ index_ p = pos_ p.

Definition moved (p p' : Parser) : Prop := at_token p' /\ pos_ p <= pos_ p' /\ same_depth p p'.

Lemma moved_refl p : at_token p -> moved p p.
Proof. intros Ha. unfold moved, same_depth. split_and!; [done | lia | done]. Qed.

Lemma moved_trans p q r : moved p q -> moved q r -> moved p r.
Proof. intros (? & ? & ?) (? & ? & ?). split_and!; [done | lia | unfold same_depth in *; congruence]. Qed.

Lemma index_fits x : 0 <= x <= end_pos_ + 1 -> Int.in_range Int.int32 x.
Proof. intros Hx. revert Hend Hx. Int.int_compute. lia. Qed.

Lemma NextNChars_ok n (Q : unit -> Parser -> Prop) p :
  at_token p -> 0 <= n -> pos_ p + n <= end_pos_ ->
  (forall p', moved p p' -> pos_ p' = pos_ p + n -> Q tt p') -> wp (NextNChars n) Q p.
Proof.
  intros [Hp Hi] Hn Hle HQ. apply wp_NextNChars; [apply index_fits; lia|].
  apply HQ; [|done]. unfold moved, at_token, same_depth. simpl. lia.
Qed.

Lemma NextChar_ok (Q : Z -> Parser -> Prop) p :
  at_token p -> pos_ p < end_pos_ ->
  (forall p', moved p p' -> pos_ p' = pos_ p + 1 -> Q (pos_ p + 1) p') -> wp NextChar Q p.
Proof.
  intros Ha Hlt HQ. unfold NextChar. wp_steps. apply NextNChars_ok; [done | lia | lia|].
  intros p' Hm Hp. wp_steps. rewrite Hp. by apply HQ.
Qed.

Lemma ReadNextChar_ok (Q : Z -> Parser -> Prop) p :
  at_token p -> pos_ p < end_pos_ ->
  (forall c p', moved p p' -> pos_ p' = pos_ p + 1 -> char_at mem (pos_ p') = Some c ->
     is_byte c -> Q c p') -> wp (ReadNextChar mem) Q p.
Proof.
  intros Ha Hlt HQ. unfold ReadNextChar. wp_steps. apply NextChar_ok; [done..|].
  intros p' Hm Hp. destruct Ha as [Ha _]. destruct (readable_char (pos_ p + 1)) as (c & Hc & Hb); [lia|].
  apply (wp_read _ _ c); [done|]. apply HQ; [done | done | by rewrite Hp | done].
Qed.

Lemma deref_ok (Q : Z -> Parser -> Prop) p :
  at_token p -> (forall c, char_at mem (pos_ p) = Some c -> is_byte c -> Q c p) ->
  wp (deref mem) Q p.
Proof.
  intros [Ha _] HQ. destruct (readable_char (pos_ p)) as (c & Hc & Hb); [lia|].
  apply (wp_deref _ c); auto.
Qed.

(** A character other than the terminator is in the input. *)
Lemma not_the_end i c : char_at mem i = Some c -> c <> 0 -> i <= end_pos_ -> i < end_pos_.
Proof.
  intros Hc Hne Hi. destruct (Z.eq_dec i end_pos_) as [-> |]; [|lia]. congruence.
Qed.

Definition fuel_for (fuel : nat) (p : Parser) : Prop := end_pos_ - pos_ p < Z.of_nat fuel.

Lemma fuel_bytes_left p : pos_ p <= end_pos_ -> fuel_for (S (Z.to_nat (end_pos_ - pos_ p))) p.
Proof. unfold fuel_for. lia. Qed.

(** ** White space, comments and tokens *)

Lemma line_comment_ok fuel p :
  at_token p -> fuel_for fuel p -> wp (line_comment mem end_pos_ fuel) (fun _ => moved p) p.
Proof.
  revert p. induction fuel as [|fuel IH]; intros p Ha Hf; [destruct Ha; unfold fuel_for in Hf; lia|].
  simpl. wp_steps. apply wp_CanConsume. destruct (Z.leb_spec (pos_ p + 1) end_pos_).
  2: { wp_steps. by apply moved_refl. }
  wp_steps. apply ReadNextChar_ok; [done | lia|]. intros c p' Hm Hp _ _. apply wp_if; intros _.
  - by wp_steps.
  - eapply wp_mono; [apply IH|]; [apply Hm | unfold fuel_for in *; lia |].
    intros b q Hq. by eapply moved_trans.
Qed.

Lemma block_comment_ok fuel prev p :
  at_token p -> fuel_for fuel p -> wp (block_comment mem end_pos_ fuel prev) (fun _ => moved p) p.
Proof.
  revert prev p. induction fuel as [|fuel IH]; intros prev p Ha Hf;
    [destruct Ha; unfold fuel_for in Hf; lia|].
  simpl. wp_steps. apply wp_CanConsume. destruct (Z.leb_spec (pos_ p + 1) end_pos_).
  2: { wp_steps. by apply moved_refl. }
  wp_steps. apply ReadNextChar_ok; [done | lia|]. intros c p' Hm Hp Hc _. apply wp_if; intros E.
  - apply andb_true_iff in E as [_ E%Z.eqb_eq]. wp_steps.
    apply NextChar_ok; [apply Hm | |].
    { apply (not_the_end _ _ Hc); [by subst|]. apply Hm. }
    intros q Hq _. wp_steps. by eapply moved_trans.
  - eapply wp_mono; [apply IH|]; [apply Hm | unfold fuel_for in *; lia |].
    intros b q Hq. by eapply moved_trans.
Qed.

Lemma EatComment_ok p :
  at_token p -> pos_ p < end_pos_ ->
  wp (EatComment mem end_pos_) (fun b p' => moved p p' /\ (b = true -> pos_ p < pos_ p')) p.
Proof.
  intros Ha Hlt. unfold EatComment. wp_steps. apply deref_ok; [done|]. intros c Hc _.
  wp_steps. apply wp_CanConsume. apply wp_if; intros _.
  { wp_steps. split; [by apply moved_refl | done]. }
  wp_steps. apply ReadNextChar_ok; [done..|]. intros c' p' Hm Hp _ _.
  wp_steps. apply wp_bytes_left.
  assert (forall b q, moved p' q -> moved p q /\ (b = true -> pos_ p < pos_ q)) as Hq.
  { intros b q Hq. split; [by eapply moved_trans|]. destruct Hq as (_ & ? & _). lia. }
  apply wp_if; intros _; [|apply wp_if; intros _].
  - eapply wp_mono; [apply line_comment_ok|apply Hq]; [apply Hm | apply fuel_bytes_left, Hm].
  - eapply wp_mono; [apply block_comment_ok|apply Hq]; [apply Hm | apply fuel_bytes_left, Hm].
  - wp_steps. apply Hq, moved_refl, Hm.
Qed.

Lemma count_line_ok c p :
  at_token p -> wp (count_line mem c) (fun _ p' => moved p p' /\ pos_ p' = pos_ p) p.
Proof.
  intros Ha. unfold count_line. wp_steps. apply wp_if; intros E.
  - apply andb_true_iff in E as [_ E%Z.ltb_lt]. wp_steps. destruct Ha as [Ha Hi].
    destruct (readable_char (pos_ p - 1)) as (d & Hd & _); [lia|].
    apply (wp_read _ _ d); [done|]. wp_steps. split; [|done]. unfold moved, at_token, same_depth. simpl. lia.
  - wp_steps. split; [|done]. destruct Ha. unfold moved, at_token, same_depth. simpl. lia.
Qed.

Lemma eat_loop_ok fuel p :
  at_token p -> fuel_for fuel p -> wp (eat_loop mem end_pos_ fuel) (fun _ => moved p) p.
Proof.
  revert p. induction fuel as [|fuel IH]; intros p Ha Hf; [destruct Ha; unfold fuel_for in Hf; lia|].
  simpl. wp_steps. destruct (Z.ltb_spec (pos_ p) end_pos_) as [Hlt|].
  2: { wp_steps. by apply moved_refl. }
  wp_steps. apply deref_ok; [done|]. intros c Hc _.
  assert (forall q, moved p q -> pos_ p < pos_ q -> wp (eat_loop mem end_pos_ fuel) (fun _ => moved p) q)
    as Hnext.
  { intros q Hq Hpq. eapply wp_mono; [apply IH|]; [apply Hq | unfold fuel_for in *; lia |].
    intros ? r Hr. by eapply moved_trans. }
  apply wp_if; intros _; [|apply wp_if; intros _; [|apply wp_if; intros _]].
  - wp_steps. eapply wp_mono; [by apply count_line_ok|]. intros ? p' [Hm Hp]. wp_steps.
    apply NextChar_ok; [apply Hm | lia|]. intros q Hq Hpq. apply Hnext; [by eapply moved_trans | lia].
  - wp_steps. apply NextChar_ok; [done..|]. intros q Hq Hpq. apply Hnext; [done | lia].
  - wp_steps. eapply wp_mono; [by apply EatComment_ok|]. intros b q [Hq Hpq]. destruct b.
    + by apply Hnext; [|apply Hpq].
    + by wp_steps.
  - wp_steps. by apply moved_refl.
Qed.

(** What is known after [GetNextToken]. *)
Definition token_at (t : Token) (p : Parser) : Prop :=
  match t with
  | T_END_OF_INPUT => pos_ p = end_pos_
  | _ => pos_ p < end_pos_ /\ exists c, char_at mem (pos_ p) = Some c /\ token_of c = t
  end.

Lemma token_of_not_end c : token_of c <> T_END_OF_INPUT.
Proof. unfold token_of. by repeat case_match. Qed.

Lemma GetNextToken_ok (Q : Token -> Parser -> Prop) p :
  at_token p -> (forall t p', moved p p' -> token_at t p' -> Q t p') ->
  wp (GetNextToken mem end_pos_) Q p.
Proof.
  intros Ha HQ. unfold GetNextToken, EatWhitespaceAndComments. wp_steps. apply wp_bytes_left.
  eapply wp_mono; [apply eat_loop_ok; [done | apply fuel_bytes_left, Ha]|].
  intros ? p' Hm. wp_steps. apply wp_CanConsume.
  destruct (Z.leb_spec (pos_ p' + 1) end_pos_); wp_steps.
  - apply deref_ok; [apply Hm|]. intros c Hc _. wp_steps. apply HQ; [done|].
    pose proof (token_of_not_end c). unfold token_at. destruct (token_of c) eqn:E; try done;
      (split; [lia | eauto]).
  - apply HQ; [done|]. simpl. destruct Hm as ([? _] & _). lia.
Qed.

(** ** Strings *)

(** Inside a string the index is one ahead of the position. *)
Definition in_string (p : Parser) : Prop := 0 <= pos_ p <= end_pos_ /\ index_ p = pos_ p + 1.

Definition inside (p p' : Parser) : Prop := in_string p' /\ pos_ p <= pos_ p' /\ same_depth p p'.

Lemma inside_refl p : in_string p -> inside p p.
Proof. intros Ha. unfold inside, same_depth. split_and!; [done | lia | done]. Qed.

Lemma inside_trans p q r : inside p q -> inside q r -> inside p r.
Proof. intros (? & ? & ?) (? & ? & ?). split_and!; [done | lia | unfold same_depth in *; congruence]. Qed.

Lemma inside_NextNChars n (Q : unit -> Parser -> Prop) p :
  in_string p -> 0 <= n -> pos_ p + n <= end_pos_ ->
  (forall p', inside p p' -> pos_ p' = pos_ p + n -> Q tt p') -> wp (NextNChars n) Q p.
Proof.
  intros [Hp Hi] Hn Hle HQ. apply wp_NextNChars; [apply index_fits; lia|].
  apply HQ; [|done]. unfold inside, in_string, same_depth. simpl. lia.
Qed.

Lemma inside_NextChar (Q : Z -> Parser -> Prop) p :
  in_string p -> pos_ p < end_pos_ ->
  (forall p', inside p p' -> pos_ p' = pos_ p + 1 -> Q (pos_ p') p') -> wp NextChar Q p.
Proof.
  intros Ha Hlt HQ. unfold NextChar. wp_steps. apply inside_NextNChars; [done | lia | lia|].
  intros p' Hm Hp. wp_steps. by apply HQ.
Qed.

Lemma inside_ReadNextChar (Q : Z -> Parser -> Prop) p :
  in_string p -> pos_ p < end_pos_ ->
  (forall c p', inside p p' -> pos_ p' = pos_ p + 1 -> char_at mem (pos_ p') = Some c -> Q c p') ->
  wp (ReadNextChar mem) Q p.
Proof.
  intros Ha Hlt HQ. unfold ReadNextChar. wp_steps. apply inside_NextChar; [done..|].
  intros p' Hm Hp. destruct Hm as ([Hr Hi] & ? & ?).
  destruct (readable_char (pos_ p')) as (c & Hc & Hb); [done|].
  apply (wp_read _ _ c); [done|]. by apply HQ.
Qed.

Lemma uint8_byte x : is_byte (Int.static_cast Int.uint8 x).
Proof.
  unfold is_byte. pose proof (Int.static_cast_in_range Int.uint8 x eq_refl) as H.
  revert H. Int.int_compute. lia.
Qed.

Lemma append_unsafe_bytes c : Forall is_byte (CBU8_APPEND_UNSAFE c).
Proof. unfold CBU8_APPEND_UNSAFE. repeat case_match; repeat constructor; apply uint8_byte. Qed.

Lemma c_string_bytes s : Forall is_byte s -> Forall is_byte (c_string s).
Proof. induction 1 as [|c s Hc Hs IH]; simpl; [done|]. case_match; by constructor. Qed.

Lemma read_hex_ok pos n (Q : option Z -> Parser -> Prop) p :
  0 <= pos -> pos + Z.of_nat n <= end_pos_ + 1 -> (forall r, Q r p) ->
  wp (read_hex mem LocalIsWhitespace pos n) Q p.
Proof.
  intros H0 Hn HQ. unfold read_hex. wp_steps. pose proof memory_length.
  apply wp_read_range; [done | lia|].
  destruct (HexStringToInt _ _ _) as [ok v]. wp_steps. apply HQ.
Qed.

(** The state after a step of a string that may fail. *)
Definition string_post {A} (good : A -> Prop) (p : Parser) (r : option A) (p' : Parser) : Prop :=
  same_depth p p' /\ match r with Some a => inside p p' /\ good a | None => True end.

Lemma string_post_none {A} (good : A -> Prop) p p' : same_depth p p' -> string_post good p None p'.
Proof. by split. Qed.

Lemma string_post_trans {A} (good : A -> Prop) p q r a :
  inside p q -> string_post good q a r -> string_post good p a r.
Proof.
  intros Hpq [Hs Ha]. split; [destruct Hpq as (_ & _ & ?); unfold same_depth in *; congruence|].
  destruct a; [|done]. destruct Ha. split; [by eapply inside_trans | done].
Qed.

Lemma fail_string {A} (good : A -> Prop) code adjust p q :
  same_depth p q -> wp (fail_with code adjust) (string_post good p) q.
Proof. intros H. apply wp_fail. intros line column. by apply string_post_none. Qed.

Lemma DecodeUTF16_low_ok p :
  in_string p -> wp (DecodeUTF16_low mem end_pos_ LocalIsWhitespace) (string_post (fun _ => True) p) p.
Proof.
  intros Ha. unfold DecodeUTF16_low. wp_steps. apply wp_CanConsume.
  destruct (Z.leb_spec (pos_ p + 6) end_pos_); cbn [negb]; [|by wp_steps; apply string_post_none].
  wp_steps. apply inside_ReadNextChar; [done | lia|]. intros c q1 H1 P1 _.
  apply wp_if; intros _; [wp_steps; apply string_post_none, H1|].
  wp_steps. apply inside_ReadNextChar; [apply H1 | lia|]. intros d q2 H2 P2 _.
  pose proof (inside_trans _ _ _ H1 H2) as H02.
  apply wp_if; intros _; [wp_steps; apply string_post_none, H02|].
  wp_steps. apply inside_NextChar; [apply H2 | lia|]. intros q3 H3 P3.
  pose proof (inside_trans _ _ _ H02 H3) as H03.
  wp_steps. destruct H3 as ([H3 I3] & L3 & D3). apply read_hex_ok; [lia | lia|]. intros [low|].
  2: { wp_steps. apply string_post_none, H03. }
  wp_steps. apply inside_NextNChars; [apply H03 | lia | lia|]. intros q4 H4 P4.
  pose proof (inside_trans _ _ _ H03 H4) as H04.
  apply wp_if; intros _; wp_steps; [apply string_post_none, H04 | by split; [apply H04|]].
Qed.

Lemma DecodeUTF16_ok p :
  in_string p ->
  wp (DecodeUTF16 mem end_pos_ LocalIsWhitespace) (string_post (Forall is_byte) p) p.
Proof.
  intros Ha. unfold DecodeUTF16. wp_steps. apply wp_CanConsume.
  destruct (Z.leb_spec (pos_ p + 4) end_pos_); cbn [negb]; [|by wp_steps; apply string_post_none].
  wp_steps. apply read_hex_ok; [by destruct Ha as [[]] | lia|]. intros [high|].
  2: { wp_steps. by apply string_post_none. }
  wp_steps. apply inside_NextNChars; [done | lia | lia|]. intros q1 H1 P1.
  assert (forall c, Forall is_byte (c_string (CBU8_APPEND_UNSAFE c))) as Hb
    by (intros; apply c_string_bytes, append_unsafe_bytes).
  apply wp_if; intros _; [|wp_steps; by split; [apply H1|]].
  apply wp_if; intros _; [wp_steps; apply string_post_none, H1|].
  wp_steps. eapply wp_mono; [apply DecodeUTF16_low_ok, H1|]. intros [low|] q2 [Hs H2]; wp_steps.
  - destruct H2 as [H2 _]. pose proof (inside_trans _ _ _ H1 H2) as H02. by split; [apply H02|].
  - apply string_post_none. destruct H1 as (_ & _ & ?). unfold same_depth in *. congruence.
Qed.

(** The builder has the bytes up to [i], unless it has a string of its own. *)
Definition builder_at (b : StringBuilder) (i : Z) : Prop :=
  match sb_string b with
  | Some s => Forall is_byte s
  | None => 0 <= sb_pos b /\ 0 <= sb_length b /\ sb_pos b + sb_length b = i
  end.

Definition converted (b : StringBuilder) : Prop := exists s, sb_string b = Some s /\ Forall is_byte s.

Lemma converted_at b i : converted b -> builder_at b i.
Proof. intros (s & Hs & ?). unfold builder_at. by rewrite Hs. Qed.

Lemma mem_take_bytes n k : Forall is_byte (take n (drop k mem)).
Proof. by apply Forall_take, Forall_drop. Qed.

Lemma Convert_ok b i (Q : StringBuilder -> Parser -> Prop) p :
  builder_at b i -> i <= end_pos_ + 1 -> (forall b', converted b' -> Q b' p) ->
  wp (Convert mem b) Q p.
Proof.
  unfold builder_at, Convert. intros Hb Hi HQ. destruct (sb_string b) as [s|] eqn:E.
  - wp_steps. apply HQ. by exists s.
  - wp_steps. pose proof memory_length. apply wp_read_range; [lia | lia|]. wp_steps.
    apply HQ. eexists. split; [done|]. apply mem_take_bytes.
Qed.

Lemma Append_char_at b i c : builder_at b i -> builder_at (Append_char b c) (i + 1).
Proof.
  unfold builder_at, Append_char. destruct (sb_string b) as [s|] eqn:E; simpl.
  - intros Hs. apply Forall_app. split; [done|]. apply Forall_singleton, uint8_byte.
  - lia.
Qed.

Lemma Append_char_converted b c : converted b -> converted (Append_char b c).
Proof.
  intros (s & Hs & Hb). unfold Append_char. rewrite Hs. eexists. split; [done|].
  apply Forall_app. split; [done|]. apply Forall_singleton, uint8_byte.
Qed.

Lemma AppendString_converted b str : converted b -> Forall is_byte str -> converted (AppendString b str).
Proof.
  intros (s & Hs & Hb) Hstr. unfold AppendString. rewrite Hs. eexists. split; [done|].
  by apply Forall_app.
Qed.

Lemma DecodeUTF8_ok c b i (Q : StringBuilder -> Parser -> Prop) p :
  builder_at b i -> i <= end_pos_ + 1 -> kExtendedASCIIStart <= c ->
  (forall b', converted b' -> Q b' p) -> wp (DecodeUTF8 mem c b) Q p.
Proof.
  intros Hb Hi Hc HQ. unfold DecodeUTF8. rewrite (proj2 (Z.ltb_ge _ _)) by done.
  wp_steps. apply (Convert_ok b i); [done..|]. intros b' Hb'. wp_steps.
  apply HQ, AppendString_converted; [done | apply append_unsafe_bytes].
Qed.

Lemma consume_escape_ok b p :
  in_string p -> builder_at b (pos_ p) -> pos_ p < end_pos_ ->
  wp (consume_escape mem end_pos_ LocalIsWhitespace b) (string_post converted p) p.
Proof.
  intros Ha Hb Hlt. unfold consume_escape. wp_steps. apply (Convert_ok b (pos_ p)); [done | lia|].
  clear b Hb. intros b Hb. wp_steps. apply wp_CanConsume.
  destruct (Z.leb_spec (pos_ p + 1) end_pos_); [cbn [negb] | lia].
  wp_steps. apply inside_ReadNextChar; [done | lia|]. intros c q H1 P1 _.
  apply wp_if; intros _; [|apply wp_if; intros _].
  - wp_steps. apply wp_CanConsume.
    destruct (Z.leb_spec (pos_ q + 2) end_pos_); cbn [negb]; [|apply fail_string, H1].
    wp_steps. apply inside_NextChar; [apply H1 | lia|]. intros q2 H2 P2.
    pose proof (inside_trans _ _ _ H1 H2) as H02.
    wp_steps. destruct H2 as ([R2 I2] & L2 & D2). apply read_hex_ok; [lia | lia|]. intros [h|].
    2: { apply fail_string, H02. }
    wp_steps. apply inside_NextChar; [apply H02 | lia|]. intros q3 H3 P3.
    pose proof (inside_trans _ _ _ H02 H3) as H03. wp_steps. apply wp_if; intros E.
    + wp_steps. split; [apply H03|]. split; [done|]. by apply Append_char_converted.
    + apply (DecodeUTF8_ok h b (pos_ p)); [by apply converted_at | lia | by apply Z.ltb_ge |].
      intros b' Hb'. wp_steps. by split; [apply H03|].
  - wp_steps. apply wp_CanConsume.
    destruct (Z.leb_spec (pos_ q + 5) end_pos_); cbn [negb]; [|apply fail_string, H1].
    wp_steps. apply inside_NextChar; [apply H1 | lia|]. intros q2 H2 P2.
    pose proof (inside_trans _ _ _ H1 H2) as H02. wp_steps.
    eapply wp_mono; [apply DecodeUTF16_ok, H02|]. intros [u|] q3 [D3 H3].
    + wp_steps. destruct H3 as [H3 Hu]. pose proof (inside_trans _ _ _ H02 H3) as H03.
      split; [apply H03|]. split; [done|]. by apply AppendString_converted.
    + apply fail_string. destruct H02 as (_ & _ & ?). unfold same_depth in *. congruence.
  - destruct (simple_escape c) as [e|]; [|apply fail_string, H1].
    wp_steps. split; [apply H1|]. split; [done|]. by apply Append_char_converted.
Qed.

(** At the head of the loop over the characters of a string. *)
Definition in_loop (b : StringBuilder) (p : Parser) : Prop :=
  0 <= pos_ p <= end_pos_ /\ pos_ p <= index_ p <= end_pos_ + 1 /\
  (index_ p <= end_pos_ \/ pos_ p = end_pos_) /\ builder_at b (index_ p).

(** A step of the decoder in the parser's memory. *)
Lemma decode_step i :
  0 <= i <= end_pos_ ->
  exists i' c, CBU8_NEXT mem i (Int.static_cast Int.int32 end_pos_) = Some (i', c) /\
    i < i' <= end_pos_ + 1 /\ (i' <= end_pos_ \/ i = end_pos_) /\
    (0 <= c < 128 -> i' = i + 1 /\ char_at mem i = Some c).
Proof.
  intros Hi. rewrite Int.static_cast_id by (done || apply index_fits; lia).
  pose proof memory_length. destruct (Z.eq_dec i end_pos_) as [-> | Hne].
  - exists (end_pos_ + 1), 0. unfold CBU8_NEXT. rewrite Hnul. split_and!; try done; lia.
  - destruct (CBU8_NEXT_total mem i end_pos_ Hbytes) as (i' & c & HN & Hi' & Hc); [lia..|].
    exists i', c. split; [done|]. split; [lia|]. split; [lia|]. intros Hr.
    destruct Hc as [-> | (Hc & [rest Hw] & ->)]; [lia|].
    rewrite ascii_encode in * by done. split; [done|].
    pose proof (window_char mem i end_pos_ O c ltac:(lia)) as H0. rewrite Hw in H0.
    specialize (H0 eq_refl). by rewrite Z.add_0_r in H0.
Qed.

Definition quote_at (b : StringBuilder) (p : Parser) : Prop :=
  at_token p /\ pos_ p < end_pos_ /\ builder_at b (pos_ p).

Definition raw_post (p : Parser) (r : option StringBuilder) (p' : Parser) : Prop :=
  same_depth p p' /\
  match r with Some b => quote_at b p' /\ pos_ p <= pos_ p' | None => True end.

Lemma fail_raw code adjust p q :
  same_depth p q -> wp (fail_with code adjust) (raw_post p) q.
Proof. intros H. apply wp_fail. intros line column. by split. Qed.

Lemma raw_post_trans p q r a :
  same_depth p q -> pos_ p <= pos_ q -> raw_post q a r -> raw_post p a r.
Proof.
  intros Hd Hp [Hs Ha]. split; [unfold same_depth in *; congruence|].
  destruct a; [|done]. destruct Ha. split; [done | lia].
Qed.

Lemma string_loop_ok fuel b p :
  in_loop b p -> end_pos_ + 1 - index_ p < Z.of_nat fuel ->
  wp (string_loop mem end_pos_ LocalIsWhitespace fuel b) (raw_post p) p.
Proof.
  revert b p. induction fuel as [|fuel IH]; intros b p (Hp & Hi & Hor & Hb) Hf; [lia|].
  simpl. wp_steps. apply wp_CanConsume.
  destruct (Z.leb_spec (pos_ p + 1) end_pos_); cbn [negb]; [|by apply fail_raw].
  wp_steps. destruct (decode_step (index_ p)) as (i' & c & -> & Hi' & Hor' & Hascii); [lia|].
  wp_steps. apply wp_set_index; [apply index_fits; lia|].
  set (q := set_index_field i' (set_pos (index_ p) p)).
  assert (same_depth p q) as Hd by done.
  assert (pos_ q = index_ p /\ index_ q = i') as [Pq Iq] by done. clearbody q.
  apply wp_if; intros Hv; [by apply fail_raw|].
  apply orb_false_iff in Hv as [Hneg%Z.ltb_ge _].
  apply wp_if; intros Eb; [|apply wp_if; intros Eq].
  - apply Z.eqb_eq in Eb. destruct Hascii as [-> Hc]; [subst; unfold chr_backslash; lia|].
    assert (pos_ q < end_pos_) by (rewrite Pq; apply (not_the_end _ _ Hc); [by subst | lia]).
    wp_steps. eapply wp_mono; [apply consume_escape_ok|].
    { unfold in_string. lia. }
    { by rewrite Pq. }
    { done. }
    intros [b'|] r [Hs Hr].
    + destruct Hr as [([R I] & L & D) Hc'].
      eapply wp_mono; [apply IH|].
      * unfold in_loop. split_and!; [lia.. | by apply converted_at].
      * lia.
      * intros a t Ht. eapply raw_post_trans; [| |exact Ht]; [unfold same_depth in *; congruence | lia].
    + wp_steps. split; [unfold same_depth in *; congruence | done].
  - apply Z.eqb_eq in Eq. destruct Hascii as [-> Hc]; [subst; unfold chr_quote; lia|].
    wp_steps. apply wp_set_index; [apply index_fits; lia|]. wp_steps.
    split; [done|]. unfold quote_at, at_token. simpl. rewrite Pq.
    split; [|lia]. split; [lia|]. split; [|done].
    apply (not_the_end _ _ Hc); [by subst | lia].
  - assert (forall b', builder_at b' i' ->
      wp (string_loop mem end_pos_ LocalIsWhitespace fuel b') (raw_post p) q) as Hnext.
    { intros b' Hb'. eapply wp_mono; [apply IH|].
      - unfold in_loop. rewrite Pq, Iq. split_and!; [lia.. | done].
      - lia.
      - intros a t Ht. eapply raw_post_trans; [| |exact Ht]; [done | lia]. }
    wp_steps. apply wp_if; intros Elt.
    + apply Z.ltb_lt in Elt. destruct Hascii as [-> Hc]; [unfold kExtendedASCIIStart in *; lia|].
      wp_steps. by apply Hnext, Append_char_at.
    + apply (DecodeUTF8_ok c b (index_ p)); [done | lia | by apply Z.ltb_ge |].
      intros b' Hb'. by apply Hnext, converted_at.
Qed.

Lemma ConsumeStringRaw_ok p :
  at_token p -> pos_ p < end_pos_ ->
  wp (ConsumeStringRaw mem end_pos_ LocalIsWhitespace) (raw_post p) p.
Proof.
  intros Ha Hlt. unfold ConsumeStringRaw. wp_steps. apply deref_ok; [done|]. intros c Hc _.
  apply wp_if; intros _; [by apply fail_raw|].
  wp_steps. apply NextChar_ok; [done..|]. intros q Hq Pq. wp_steps. apply wp_bytes_left.
  destruct Hq as ([R I] & L & D). eapply wp_mono; [apply string_loop_ok|].
  - unfold in_loop, builder_at. simpl. lia.
  - lia.
  - intros a t Ht. eapply raw_post_trans; [| |exact Ht]; [done | lia].
Qed.

(** ** Values *)

Definition input_store : Store := {[ text_id := take (Z.to_nat end_pos_) mem ]}.

Definition readable (v : Value) : Prop := alive input_store v.

(** A value the parser may build at most [room] levels above the limit. *)
Definition good (room : Z) (v : Value) : Prop :=
  wf v /\ readable v /\ Z.of_nat (nesting v) <= room /\
  (JSON_DETACHABLE_CHILDREN options = true -> detached v).

Definition room (p : Parser) : Z := kStackMaxDepth - 1 - stack_depth_ p.

Definition value_within (rm : Z) (p : Parser) (r : option Value) (p' : Parser) : Prop :=
  same_depth p p' /\
  match r with
  | Some v => at_token p' /\ pos_ p <= pos_ p' < end_pos_ /\ good rm v
  | None => True
  end.

Definition value_post (p : Parser) : option Value -> Parser -> Prop := value_within (room p) p.

Lemma fail_value code adjust rm p q :
  same_depth p q -> wp (fail_with code adjust) (value_within rm p) q.
Proof. intros H. apply wp_fail. intros line column. by split. Qed.

Lemma value_within_trans rm p q r a :
  moved p q -> value_within rm q a r -> value_within rm p a r.
Proof.
  intros (_ & Hp & Hd) [Hs Ha]. split; [unfold same_depth in *; congruence|].
  destruct a; [|done]. destruct Ha as (? & ? & Hg). split; [done|]. by split; [lia|].
Qed.

Lemma moved_room p q : moved p q -> room q = room p.
Proof. intros (_ & _ & Hd). unfold room. by rewrite Hd. Qed.

Lemma leaf_good v room :
  wf v -> nesting v = O -> 0 <= room ->
  (match v with JSONStringValue _ | DictionaryValue _ | ListValue _ => False | _ => True end) ->
  good room v.
Proof.
  intros Hv Hn Hr Hl. split; [done|]. split; [exists v; by apply copy_leaf|].
  split; [rewrite Hn; lia|]. intros _. by apply detached_leaf.
Qed.

Lemma piece_readable b i :
  sb_string b = None -> builder_at b i -> i <= end_pos_ ->
  readable (JSONStringValue (AsStringPiece text_id b)).
Proof.
  unfold builder_at. intros -> Hb Hi. pose proof memory_length.
  unfold readable. eexists. apply copy_piece. unfold piece_bytes, AsStringPiece. cbn [buffer ptr_ length_].
  assert (input_store !! text_id = Some (take (Z.to_nat end_pos_) mem)) as -> by apply lookup_singleton_eq.
  cbn [mbind option_bind]. rewrite option_guard_True; [done|].
  rewrite length_take. lia.
Qed.

Lemma AsString_ok b i (Q : list Z -> Parser -> Prop) p :
  builder_at b i -> i <= end_pos_ + 1 -> (forall s, Forall is_byte s -> Q s p) ->
  wp (AsString mem b) Q p.
Proof.
  intros Hb Hi HQ. unfold AsString. wp_steps. apply (Convert_ok b i); [done..|].
  intros b' (s & Hs & Hbs). wp_steps. rewrite Hs. by apply HQ.
Qed.

Lemma ConsumeString_ok p :
  at_token p -> pos_ p < end_pos_ -> 0 <= room p ->
  wp (ConsumeString mem end_pos_ options text_id LocalIsWhitespace) (value_post p) p.
Proof.
  intros Ha Hlt Hroom. unfold ConsumeString. wp_steps.
  eapply wp_mono; [by apply ConsumeStringRaw_ok|]. intros [b|] q [Hd Hq]; [|by wp_steps].
  destruct Hq as [(Haq & Hltq & Hb) Hpq]. apply wp_if; intros E.
  - apply andb_true_iff in E as [E Edet%negb_true_iff]. unfold CanBeStringPiece in E.
    destruct (sb_string b) eqn:Es; [done|]. wp_steps. split; [done|]. split; [done|].
    split; [lia|]. split; [constructor|]. split; [|split; [done | congruence]].
    apply (piece_readable b (pos_ q)); [done | done | lia].
  - wp_steps. apply (AsString_ok b (pos_ q)); [done | lia|]. intros s Hs. wp_steps.
    split; [done|]. split; [done|]. split; [lia|]. apply leaf_good; [by constructor|done..].
Qed.

(** ** Numbers *)

Lemma digit_loop_ok fuel c len p :
  at_token p -> fuel_for fuel p -> 0 <= len ->
  wp (digit_loop mem end_pos_ fuel c len)
    (fun n p' => moved p p' /\ len <= n /\ pos_ p' = pos_ p + (n - len)) p.
Proof.
  revert c len p. induction fuel as [|fuel IH]; intros c len p Ha Hf Hn;
    [destruct Ha; unfold fuel_for in Hf; lia|].
  simpl. wp_steps. apply wp_CanConsume.
  destruct (Z.leb_spec (pos_ p + 1) end_pos_); cbn [andb].
  2: { wp_steps. split; [by apply moved_refl | lia]. }
  apply wp_if; intros _.
  2: { wp_steps. split; [by apply moved_refl | lia]. }
  wp_steps. apply ReadNextChar_ok; [done | lia|]. intros d q Hq Pq _ _.
  eapply wp_mono; [apply IH|]; [apply Hq | unfold fuel_for in *; lia | lia |].
  intros n r (Hr & Hl & Pr). split; [by eapply moved_trans | lia].
Qed.

Lemma ReadInt_ok allow p :
  at_token p ->
  wp (ReadInt mem end_pos_ allow) (fun ok p' => moved p p' /\ (ok = true -> pos_ p < pos_ p')) p.
Proof.
  intros Ha. unfold ReadInt. wp_steps. apply deref_ok; [done|]. intros c Hc _.
  wp_steps. apply wp_bytes_left. wp_steps.
  eapply wp_mono; [apply digit_loop_ok; [done | apply fuel_bytes_left, Ha | lia]|].
  intros n q (Hq & Hn & Pq). wp_steps. split; [done|].
  destruct (Z.eqb_spec n 0); [done|]. intros _. lia.
Qed.

(** An optional part of a number: where its digits end. *)
Definition part_post (p : Parser) (e : Z) (r : option Z) (p' : Parser) : Prop :=
  same_depth p p' /\
  match r with Some e' => moved p p' /\ (e' = e \/ e' = pos_ p') | None => True end.

Lemma fail_part code adjust p e q :
  same_depth p q -> wp (fail_with code adjust) (part_post p e) q.
Proof. intros H. apply wp_fail. intros line column. by split. Qed.

Lemma read_digits_ok p e q :
  moved p q ->
  wp (ReadInt mem end_pos_ true)
    (fun ok => wp (if negb ok then fail_with JSON_SYNTAX_ERROR 1
                   else index ← get index_; mret (Some index)) (part_post p e)) q.
Proof.
  intros Hq. eapply wp_mono; [apply ReadInt_ok, Hq|]. intros ok r [Hr _].
  pose proof (moved_trans _ _ _ Hq Hr) as Hm.
  apply wp_if; intros _; [apply fail_part, Hm|]. wp_steps. split; [apply Hm|]. split; [done|].
  right. apply Hm.
Qed.

Lemma read_fraction_ok e p :
  at_token p -> wp (read_fraction mem end_pos_ e) (part_post p e) p.
Proof.
  intros Ha. unfold read_fraction. wp_steps. apply deref_ok; [done|]. intros c Hc _.
  apply wp_if; intros E.
  - apply Z.eqb_eq in E. assert (pos_ p < end_pos_)
      by (apply (not_the_end _ _ Hc); [by subst | apply Ha]).
    wp_steps. apply wp_CanConsume. apply wp_if; intros _; [by apply fail_part|].
    wp_steps. apply NextChar_ok; [done..|]. intros q Hq Pq. wp_steps. by apply read_digits_ok.
  - wp_steps. split; [done|]. split; [by apply moved_refl | by left].
Qed.

Lemma read_exponent_ok e p :
  at_token p -> wp (read_exponent mem end_pos_ e) (part_post p e) p.
Proof.
  intros Ha. unfold read_exponent. wp_steps. apply deref_ok; [done|]. intros c Hc _.
  apply wp_if; intros E.
  - assert (pos_ p < end_pos_).
    { apply (not_the_end _ _ Hc); [|apply Ha]. intros ->. done. }
    wp_steps. apply NextChar_ok; [done..|]. intros q Hq Pq. wp_steps.
    apply deref_ok; [apply Hq|]. intros d Hd _. wp_steps. apply wp_if; intros E'.
    + apply NextChar_ok; [apply Hq | |].
      { apply (not_the_end _ _ Hd); [intros ->; done | apply Hq]. }
      intros r Hr Pr. wp_steps. apply read_digits_ok. by eapply moved_trans.
    + wp_steps. by apply read_digits_ok.
  - wp_steps. split; [done|]. split; [by apply moved_refl | by left].
Qed.

Lemma StringToInt_range ws s output z :
  StringToInt ws s output = (true, z) -> Int.in_range Int.int32 z.
Proof. by apply IteratorRangeToNumber_range; [left | left]. Qed.

Lemma finish_number_ok start n p q :
  at_token p -> moved p q -> 0 <= room p -> pos_ p < pos_ q -> start = pos_ p -> start + n <= pos_ q ->
  wp (finish_number mem end_pos_ LocalIsWhitespace StringToDouble start n) (value_post p) q.
Proof.
  intros [Ra _] Hq Hroom Hlt -> Hn. unfold finish_number. wp_steps.
  apply GetNextToken_ok; [apply Hq|]. intros t r Hr _.
  pose proof (moved_trans _ _ _ Hq Hr) as Hm. destruct Hq as ([R I] & L & D).
  assert (wp (fail_with JSON_SYNTAX_ERROR 1) (value_post p) r) as Hfail by apply fail_value, Hm.
  assert (forall v, wf v -> nesting v = O ->
    (match v with JSONStringValue _ | DictionaryValue _ | ListValue _ => False | _ => True end) ->
    value_post p (Some v) (set_index_field (index_ q - 1) (set_pos (pos_ q - 1) r))) as Hv.
  { intros v Hwf Hnest Hleaf. split; [apply Hm|]. unfold at_token. simpl. rewrite I.
    split; [lia|]. split; [lia|]. by apply leaf_good. }
  assert (wp (num_string ← read_range mem (pos_ p) (Z.to_nat n);
      let '(is_int, num_int) := StringToInt LocalIsWhitespace num_string 0 in
      mret (if is_int : bool then Some (IntegerValue num_int)
            else match StringToDouble num_string with
                 | Some num_double =>
                     if IsFinite num_double then Some (FundamentalValue_double num_double) else None
                 | None => None
                 end)) (value_post p) (set_index_field (index_ q - 1) (set_pos (pos_ q - 1) r)))
    as Hread.
  { wp_steps. pose proof memory_length. apply wp_read_range; [lia | lia|].
    destruct (StringToInt _ _ _) as [is_int z] eqn:Ez. wp_steps. destruct is_int.
    { apply Hv; [|done..]. constructor. by eapply StringToInt_range. }
    destruct (StringToDouble _) as [x|]; [|by split; [apply Hm|]].
    destruct (IsFinite x) eqn:Ex; [|by split; [apply Hm|]].
    unfold FundamentalValue_double. rewrite Ex. apply Hv; by constructor. }
  destruct t; cbv iota; first [exact Hfail | do 4 wp_step; exact Hread].
Qed.

Lemma ConsumeNumber_ok p :
  at_token p -> pos_ p < end_pos_ -> 0 <= room p ->
  wp (ConsumeNumber mem end_pos_ LocalIsWhitespace StringToDouble) (value_post p) p.
Proof.
  intros Ha Hlt Hroom. unfold ConsumeNumber. wp_steps. apply deref_ok; [done|]. intros c Hc _.
  assert (wp (if c =? chr_minus then NextChar else get pos_) (fun _ => moved p) p) as Hsign.
  { apply wp_if; intros _; [apply NextChar_ok; [done..|]; by intros|].
    wp_steps. by apply moved_refl. }
  wp_step. eapply wp_mono; [exact Hsign|]. intros z p1 H1. cbv beta in H1. wp_steps. clear Hsign.
  eapply wp_mono; [apply ReadInt_ok, H1|]. intros ok p2 [H12 Hadv].
  pose proof (moved_trans _ _ _ H1 H12) as H2.
  destruct ok; cbn [negb]; [|by apply fail_value, H2]. specialize (Hadv eq_refl).
  wp_steps. eapply wp_mono; [apply read_fraction_ok, H2|]. intros [e|] p3 [D3 H23].
  2: { wp_steps. split; [|done]. destruct H2 as (_ & _ & ?). unfold same_depth in *; congruence. }
  destruct H23 as [H23 He]. pose proof (moved_trans _ _ _ H2 H23) as H3.
  wp_steps. eapply wp_mono; [apply read_exponent_ok, H3|]. intros [f|] p4 [D4 H34].
  2: { wp_steps. split; [|done]. destruct H3 as (_ & _ & ?). unfold same_depth in *; congruence. }
  destruct H34 as [H34 Hf]. pose proof (moved_trans _ _ _ H3 H34) as H4.
  destruct Ha as [Ra Ia], H1 as (_ & L1 & _), H12 as ([R2 I2] & _),
    H23 as ([R3 I3] & L3 & _), H34 as ([R4 I4] & L4 & _).
  apply finish_number_ok; [done | done | done | lia | done | lia].
Qed.

(** ** Literals *)

Lemma StringsAreEqual_ok literal pos (Q : bool -> Parser -> Prop) p :
  Forall (fun c => c <> 0) literal -> 0 <= pos <= end_pos_ ->
  pos + (Z.of_nat (length literal) - 1) <= end_pos_ ->
  (forall b, (b = true -> pos + Z.of_nat (length literal) <= end_pos_) -> Q b p) ->
  wp (StringsAreEqual mem pos literal) Q p.
Proof.
  intros Hl. revert pos. induction Hl as [|c literal Hc Hl IH]; intros pos Hp Hn HQ; simpl in *.
  { wp_steps. apply HQ. lia. }
  destruct (readable_char pos) as (b & Hb & _); [done|]. wp_steps. apply (wp_read _ _ b); [done|].
  destruct (Z.eqb_spec b c) as [->|]; [|wp_steps; by apply HQ].
  pose proof (not_the_end _ _ Hb Hc ltac:(lia)). apply IH; [lia | lia|].
  intros r Hr. apply HQ. intros E. specialize (Hr E). lia.
Qed.

Lemma consume_literal_ok literal v p :
  Forall (fun c => c <> 0) literal -> literal <> [] -> at_token p -> 0 <= room p -> good (room p) v ->
  wp (consume_literal mem end_pos_ literal v) (value_post p) p.
Proof.
  intros Hl Hne Ha Hroom Hv. unfold consume_literal. wp_steps. apply wp_CanConsume.
  assert (1 <= Z.of_nat (length literal)) by (destruct literal; [done | simpl; lia]).
  destruct (Z.leb_spec (pos_ p + (Z.of_nat (length literal) - 1)) end_pos_); cbn [negb];
    [|by apply fail_value].
  wp_steps. apply StringsAreEqual_ok; [done | apply Ha | done|]. intros [] Hb; cbn [negb];
    [|by apply fail_value]. specialize (Hb eq_refl).
  wp_steps. apply NextNChars_ok; [done | lia | lia|]. intros q (Hq & L & D) P. wp_steps.
  split; [done|]. split; [done|]. split; [lia | done].
Qed.

Lemma ConsumeLiteral_ok p :
  at_token p -> 0 <= room p -> wp (ConsumeLiteral mem end_pos_) (value_post p) p.
Proof.
  intros Ha Hroom. unfold ConsumeLiteral. wp_steps. apply deref_ok; [done|]. intros c Hc _.
  assert (forall literal v, Forall (fun c => c <> 0) literal -> literal <> [] -> wf v ->
    nesting v = O -> (match v with JSONStringValue _ | DictionaryValue _ | ListValue _ => False
                      | _ => True end) ->
    wp (consume_literal mem end_pos_ literal v) (value_post p) p) as H
    by (intros; apply consume_literal_ok; [done.. | by apply leaf_good]).
  apply wp_if; intros _; [|apply wp_if; intros _; [|apply wp_if; intros _]];
    [apply H; by repeat constructor.. | by apply fail_value].
Qed.

(** ** Containers *)

Definition good_map (rm : Z) (d : ValueMap) : Prop :=
  wf_map d /\ Forall (fun e => good rm e.2) d.

Lemma good_dictionary rm d : 0 <= rm -> good_map rm d -> good (rm + 1) (DictionaryValue d).
Proof.
  intros Hrm [Hwf Hd]. split; [done|]. clear Hwf. split; [|split].
  - apply alive_dictionary. eapply Forall_impl; [exact Hd|]. by intros e (_ & ? & _).
  - simpl. assert (Z.of_nat (foldr (fun e n => Nat.max (nesting e.2) n) O d) <= rm); [|lia].
    induction Hd as [|[k v] d (_ & _ & Hn & _) Hd IH]; simpl in *; lia.
  - intros Hdet. apply detached_dictionary. eapply Forall_impl; [exact Hd|]. intros e (_ & _ & _ & ?). auto.
Qed.

Lemma good_list rm l : 0 <= rm -> Forall (good rm) l -> good (rm + 1) (ListValue l).
Proof.
  intros Hrm Hl. split; [|split; [|split]].
  - constructor. eapply Forall_impl; [exact Hl|]. by intros v [? _].
  - apply alive_list. eapply Forall_impl; [exact Hl|]. by intros v (_ & ? & _).
  - simpl. assert (Z.of_nat (foldr (fun w n => Nat.max (nesting w) n) O l) <= rm); [|lia].
    induction Hl as [|v l (_ & _ & Hn & _) Hl IH]; simpl in *; lia.
  - intros Hdet. apply detached_list. eapply Forall_impl; [exact Hl|]. intros v (_ & _ & _ & ?). auto.
Qed.

Lemma good_map_set rm d k v :
  good_map rm d -> Forall is_byte k -> good rm v -> good_map rm (SetWithoutPathExpansion d k v).
Proof.
  intros [Hwf Hd] Hk Hv. split; [apply wf_set; [done | done | apply Hv] | by apply Forall_map_set].
Qed.

Definition next_member (p : Parser) (r : option Token) (p' : Parser) : Prop :=
  same_depth p p' /\
  match r with Some t => moved p p' /\ token_at t p' /\ pos_ p < pos_ p' | None => True end.

Lemma fail_member code adjust p q :
  same_depth p q -> wp (fail_with code adjust) (next_member p) q.
Proof. intros H. apply wp_fail. intros line column. by split. Qed.

Lemma after_member_ok end_token adjust p :
  at_token p -> pos_ p < end_pos_ ->
  wp (after_member mem end_pos_ options end_token adjust) (next_member p) p.
Proof.
  intros Ha Hlt. unfold after_member. wp_steps. apply NextChar_ok; [done..|].
  intros q Hq Pq. wp_steps. apply GetNextToken_ok; [apply Hq|]. intros t r Hr Ht.
  pose proof (moved_trans _ _ _ Hq Hr) as Hm.
  assert (pos_ p < pos_ r) by (destruct Hr as (_ & ? & _); lia).
  case_bool_decide as E; [subst t|].
  - destruct Ht as [Hltr _]. wp_steps. apply NextChar_ok; [apply Hr | done|]. intros s Hs Ps.
    wp_steps. apply GetNextToken_ok; [apply Hs|]. intros t u Hu Ht.
    pose proof (moved_trans _ _ _ Hm (moved_trans _ _ _ Hs Hu)) as Hmu.
    apply wp_if; intros _; [apply fail_member, Hmu|]. wp_steps.
    split; [apply Hmu|]. split; [done|]. split; [done|]. destruct Hu as (_ & ? & _). lia.
  - case_bool_decide; [|apply fail_member, Hm]. wp_steps. by split; [apply Hm|].
Qed.

Section Containers.
Context (parse : Token -> M (option Value)) (rm : Z) (Hrm : 0 <= rm).
Context (Hparse : forall t p, at_token p -> token_at t p -> room p = rm ->
  wp (parse t) (value_within rm p) p).

Lemma list_loop_ok fuel l t p :
  at_token p -> token_at t p -> fuel_for fuel p -> room p = rm -> Forall (good rm) l ->
  wp (list_loop mem end_pos_ options parse fuel l t) (value_within (rm + 1) p) p.
Proof.
  revert l t p. induction fuel as [|fuel IH]; intros l t p Ha Ht Hf Hroom Hl;
    [destruct Ha; unfold fuel_for in Hf; lia|].
  simpl. case_bool_decide as E.
  { subst t. wp_steps. destruct Ht as [Hlt _]. split; [done|]. split; [done|].
    split; [lia | by apply good_list]. }
  wp_steps. eapply wp_mono; [by apply Hparse|]. intros [v|] q [D Hq].
  2: { wp_steps. by split. }
  destruct Hq as (Hq & Hle & Hv). wp_steps.
  eapply wp_mono; [apply after_member_ok; [done | lia]|]. intros [u|] r [D' Hr].
  2: { wp_steps. split; [|done]. unfold same_depth in *; congruence. }
  destruct Hr as (Hr & Hu & Hlt). assert (moved p q) as Hpq by (split; [done | by split; [lia|]]).
  pose proof (moved_trans _ _ _ Hpq Hr) as Hpr.
  eapply wp_mono; [apply IH|intros ? s Hs; by eapply value_within_trans].
  - apply Hr.
  - done.
  - unfold fuel_for in *. lia.
  - by rewrite (moved_room _ _ Hpr).
  - apply Forall_app. by split; [|constructor].
Qed.

Lemma dictionary_loop_ok fuel d t p :
  at_token p -> token_at t p -> fuel_for fuel p -> room p = rm -> good_map rm d ->
  wp (dictionary_loop mem end_pos_ options LocalIsWhitespace parse fuel d t)
    (value_within (rm + 1) p) p.
Proof.
  revert d t p. induction fuel as [|fuel IH]; intros d t p Ha Ht Hf Hroom Hd;
    [destruct Ha; unfold fuel_for in Hf; lia|].
  simpl. case_bool_decide as E.
  { subst t. wp_steps. destruct Ht as [Hlt _]. split; [done|]. split; [done|].
    split; [lia | by apply good_dictionary]. }
  case_bool_decide as E'; cbn [negb]; [subst t | by apply fail_value].
  destruct Ht as [Hlt _]. wp_steps. eapply wp_mono; [by apply ConsumeStringRaw_ok|].
  intros [key|] q [D Hq]; [|wp_steps; by split].
  destruct Hq as [(Haq & Hltq & Hkey) Hpq].
  assert (moved p q) as Hq by (by split). wp_steps. apply NextChar_ok; [done..|].
  intros p1 H1 P1. wp_steps. apply GetNextToken_ok; [apply H1|]. intros t p2 H2 Ht.
  pose proof (moved_trans _ _ _ Hq (moved_trans _ _ _ H1 H2)) as Hp2.
  case_bool_decide as E''; cbn [negb]; [subst t | by apply fail_value, Hp2].
  destruct Ht as [Hlt2 _]. wp_steps. apply NextChar_ok; [apply H2 | done|]. intros p3 H3 P3.
  unfold parse_next_token. wp_steps. apply GetNextToken_ok; [apply H3|]. intros t p4 H4 Ht.
  pose proof (moved_trans _ _ _ Hp2 (moved_trans _ _ _ H3 H4)) as Hp4.
  eapply wp_mono; [apply Hparse; [apply H4 | done | by rewrite (moved_room _ _ Hp4)]|].
  assert (same_depth p p4) as D4 by apply Hp4.
  intros [v|] p5 [D5 H5]; [|wp_steps; split; [unfold same_depth in *; congruence | done]].
  destruct H5 as (Ha5 & Hle5 & Hv). wp_steps.
  apply (AsString_ok key (pos_ q)); [done | lia|]. intros k Hk. wp_steps.
  eapply wp_mono; [apply after_member_ok; [done | lia]|].
  intros [u|] p6 [D6 H6]; [|wp_steps; split; [unfold same_depth in *; congruence | done]].
  destruct H6 as (H6 & Hu & Hlt6).
  assert (moved p4 p5) as H45 by (split; [done | by split; [lia|]]).
  pose proof (moved_trans _ _ _ Hp4 (moved_trans _ _ _ H45 H6)) as Hp6.
  eapply wp_mono; [apply IH|intros ? s Hs; by eapply value_within_trans].
  - apply H6.
  - done.
  - destruct Hp4 as (_ & ? & _). unfold fuel_for in *. lia.
  - by rewrite (moved_room _ _ Hp6).
  - by apply good_map_set.
Qed.
End Containers.

(** The members of a container are parsed one level further down. *)
Lemma container_ok (loop : nat -> Token -> M (option Value)) p :
  at_token p -> pos_ p < end_pos_ -> 0 <= room p ->
  (0 < room p -> forall fuel t q, at_token q -> token_at t q -> fuel_for fuel q ->
     room q = room p - 1 -> wp (loop fuel t) (value_within (room p) q) q) ->
  wp (with_stack_marker (fun IsTooDeep =>
        if IsTooDeep : bool then fail_with JSON_TOO_MUCH_NESTING 1 else
        _ ← NextChar;
        token ← GetNextToken mem end_pos_;
        fuel ← bytes_left end_pos_;
        loop fuel token)) (value_post p) p.
Proof.
  intros Ha Hlt Hroom Hloop. unfold with_stack_marker. wp_steps. set (p0 := set_stack_depth _ _).
  apply wp_if; intros Hdeep.
  - apply wp_fail. intros line column. wp_steps. split; [|done]. unfold same_depth. simpl. lia.
  - apply Z.leb_gt in Hdeep. assert (room p0 = room p - 1) as Hr0 by (unfold room; simpl; lia).
    assert (at_token p0) as Ha0 by done. assert (0 < room p) as Hpos by (unfold room; lia).
    wp_steps. apply NextChar_ok; [done..|]. intros q Hq Pq. wp_steps.
    apply GetNextToken_ok; [apply Hq|]. intros t r Hr Ht.
    pose proof (moved_trans _ _ _ Hq Hr) as Hm. wp_steps. apply wp_bytes_left.
    eapply wp_mono; [apply Hloop; [done | apply Hm | done | apply fuel_bytes_left, Hm |]|].
    + by rewrite (moved_room _ _ Hm).
    + intros a s Hs. wp_steps. apply (value_within_trans _ _ _ _ _ Hm) in Hs as [D Hs].
      by split; [unfold same_depth in *; simpl in *; lia|].
Qed.

(** What a container asks of the parser of its members. *)
Definition parses_below (p : Parser) (parse : Token -> M (option Value)) : Prop :=
  0 < room p -> forall t q, at_token q -> token_at t q -> room q = room p - 1 ->
  wp (parse t) (value_within (room p - 1) q) q.

Lemma ConsumeDictionary_ok parse p :
  at_token p -> pos_ p < end_pos_ -> 0 <= room p -> parses_below p parse ->
  wp (ConsumeDictionary mem end_pos_ options LocalIsWhitespace parse) (value_post p) p.
Proof.
  intros Ha Hlt Hroom Hparse. unfold ConsumeDictionary. wp_steps. apply deref_ok; [done|].
  intros c Hc _. apply wp_if; intros _; [by apply fail_value|].
  apply container_ok; [done..|]. intros Hpos fuel t q Haq Ht Hf Hr.
  rewrite <- (Z.sub_add 1 (room p)).
  apply dictionary_loop_ok; [lia | by apply Hparse | done..|]. split; [|done].
  by repeat constructor.
Qed.

Lemma ConsumeList_ok parse p :
  at_token p -> pos_ p < end_pos_ -> 0 <= room p -> parses_below p parse ->
  wp (ConsumeList mem end_pos_ options parse) (value_post p) p.
Proof.
  intros Ha Hlt Hroom Hparse. unfold ConsumeList. wp_steps. apply deref_ok; [done|].
  intros c Hc _. apply wp_if; intros _; [by apply fail_value|].
  apply container_ok; [done..|]. intros Hpos fuel t q Haq Ht Hf Hr.
  rewrite <- (Z.sub_add 1 (room p)).
  by apply list_loop_ok; [lia | by apply Hparse | ..].
Qed.

#[local] Abbreviation parse_token := (ParseToken mem end_pos_ options text_id LocalIsWhitespace StringToDouble).

Lemma ParseToken_ok fuel t p :
  at_token p -> token_at t p -> 0 <= room p < Z.of_nat fuel ->
  wp (parse_token fuel t) (value_post p) p.
Proof.
  revert t p. induction fuel as [|fuel IH]; intros t p Ha Ht Hroom; [lia|].
  assert (parses_below p (parse_token fuel)) as Hsub.
  { intros Hpos u q Haq Hu Hr. rewrite <- Hr. apply IH; [done | done | lia]. }
  destruct Hroom as [Hroom _].
  simpl. destruct t; try (by apply fail_value); destruct Ht as [Hlt _].
  - by apply ConsumeDictionary_ok.
  - by apply ConsumeList_ok.
  - by apply ConsumeString_ok.
  - by apply ConsumeNumber_ok.
  - by apply ConsumeLiteral_ok.
  - by apply ConsumeLiteral_ok.
  - by apply ConsumeLiteral_ok.
Qed.

Lemma skip_byte_order_mark_ok p :
  at_token p -> wp (skip_byte_order_mark mem end_pos_) (fun _ => moved p) p.
Proof.
  intros Ha. unfold skip_byte_order_mark. wp_steps. apply wp_CanConsume.
  assert (wp (mret tt) (fun _ => moved p) p) as Hdone by (wp_steps; by apply moved_refl).
  destruct (Z.leb_spec (pos_ p + 3) end_pos_); cbn [negb]; [|done].
  wp_steps. apply deref_ok; [done|]. intros a _ _. apply wp_if; intros _; [done|].
  wp_steps. destruct Ha as [Ra Ia]. destruct (readable_char (pos_ p + 1)) as (b & Hb & _); [lia|].
  apply (wp_read _ _ b); [done|]. apply wp_if; intros _; [done|].
  wp_steps. destruct (readable_char (pos_ p + 2)) as (c & Hc' & _); [lia|].
  apply (wp_read _ _ c); [done|]. apply wp_if; intros _; [done|].
  apply NextNChars_ok; [done | lia | lia|]. by intros.
Qed.

(** What a parse promises: the depth it found, and a good root. *)
Definition root_post (p : Parser) (r : option Value) (p' : Parser) : Prop :=
  same_depth p p' /\ match r with Some v => good (room p) v | None => True end.

Lemma parse_root_ok p :
  at_token p -> 0 <= room p < kStackMaxDepth ->
  wp (parse_root mem end_pos_ options text_id LocalIsWhitespace StringToDouble) (root_post p) p.
Proof.
  intros Ha Hroom. unfold parse_root, ParseNextToken, parse_next_token. wp_steps.
  eapply wp_mono; [by apply skip_byte_order_mark_ok|]. intros [] q Hq. wp_steps.
  apply GetNextToken_ok; [apply Hq|]. intros t r Hr Ht.
  pose proof (moved_trans _ _ _ Hq Hr) as Hpr. pose proof (moved_room _ _ Hpr) as Er.
  eapply wp_mono; [apply ParseToken_ok; [apply Hr | done | lia]|].
  intros a s Hs. unfold value_post in Hs. rewrite Er in Hs.
  apply (value_within_trans _ _ _ _ _ Hpr) in Hs as [D Hs].
  destruct a as [v|]; [|wp_steps; by split]. destruct Hs as (Has & Hle & Hv).
  assert (moved p s) as Hps by (split; [done | by split; [lia|]]).
  assert (forall q, moved p q -> root_post p (Some v) q) as Hok by (intros ? (_ & _ & ?); by split).
  assert (forall q code adjust, moved p q -> wp (fail_with code adjust) (root_post p) q) as Hfail.
  { intros ? ? ? (_ & _ & ?). apply wp_fail. intros line column. by split. }
  wp_steps. apply GetNextToken_ok; [done|]. intros u s1 H1 Hu.
  pose proof (moved_trans _ _ _ Hps H1) as Hps1.
  apply wp_if; intros _; [wp_steps; by apply Hok|]. wp_steps. apply wp_CanConsume.
  destruct (Z.leb_spec (pos_ s1 + 1) end_pos_); cbn [negb]; [|by apply Hfail].
  wp_steps. apply NextChar_ok; [apply H1 | lia|]. intros s2 H2 P2. wp_steps.
  apply GetNextToken_ok; [apply H2|]. intros w s3 H3 Hw.
  pose proof (moved_trans _ _ _ Hps1 (moved_trans _ _ _ H2 H3)) as Hps3.
  apply wp_if; intros _; [wp_steps; by apply Hok | by apply Hfail].
Qed.

End Safety.
