(* ===== verification/JsonReader.v ===== *)
(** * Who owns what the JSON reader returns

    [JSONParser::Parse], the hidden roots of [base/json/json_parser.cc] that own
    the text their string values point into, and [base/json/json_reader.cc].

    A [Store] holds the texts that are alive. [Parse] copies its input into a new
    text unless the children are to be detachable, and hands that text to the
    hidden root; when there is none the copy dies at the end of [Parse]. The
    operations that the hidden roots override copy what they hand out, in the
    store in which the text is still alive. [None] is a use of a text after its
    death. *)
From Stdlib Require Import ZArith Lia SpecFloat.
From Stdlib Require Ascii String.
From stdpp Require Import base numbers option gmap list.
From S2P Require Import Prelude StringNumbers Unicode Values JsonWriter JsonParser JsonSafety.
Local Open Scope Z_scope.

#[local] Ltac Zify.zify_post_hook ::= Z.to_euclidean_division_equations.

(** ** Hidden roots *)

(** A tree, and whether its root is one that may own a text. *)
Inductive Root :=
| PlainRoot (v : Value)
| HiddenRootValue (json_ : option N) (v : Value).

Definition root_value (r : Root) : Value :=
  match r with PlainRoot v | HiddenRootValue _ v => v end.

(** [json_.reset()] *)
Definition reset_json (st : Store) (json_ : option N) : Store :=
  match json_ with Some text => base.delete text st | None => st end.

(** The destructor of a root. *)
Definition delete_root (st : Store) (r : Root) : Store :=
  match r with PlainRoot _ => st | HiddenRootValue json_ _ => reset_json st json_ end.

(** [DictionaryHiddenRootValue::RemoveWithoutPathExpansion], when the caller
    takes the value. *)
Definition HiddenRoot_RemoveWithoutPathExpansion (st : Store) (d : ValueMap) (key : list Z)
    : option (option (Value * ValueMap)) :=
  match RemoveWithoutPathExpansion d key with
  | None => Some None
  | Some (out_owned, d) => out ← DeepCopy st out_owned; Some (Some (out, d))
  end.

(** [Remove(path)] on a hidden root: a path of one key comes to the override. *)
Definition HiddenRoot_Remove (st : Store) (d : ValueMap) (path : list Z)
    : option (option (Value * ValueMap)) :=
  match rfind_dot path with
  | None => HiddenRoot_RemoveWithoutPathExpansion st d path
  | Some _ => Some (Values.Remove d path)
  end.

(** [ListHiddenRootValue::Remove], when the caller takes the value. *)
Definition ListHiddenRoot_Remove (st : Store) (l : list Value) (index : nat)
    : option (option (Value * list Value)) :=
  match List_Remove l index with
  | None => Some None
  | Some (out_owned, l) => out ← DeepCopy st out_owned; Some (Some (out, l))
  end.

(** [Swap] of either hidden root: the copy of the contents, the root with the
    contents of [other] and without a text, and the store. *)
Definition HiddenRoot_Swap (st : Store) (json_ : option N) (v other : Value)
    : option (Value * Root * Store) :=
  copy ← DeepCopy st v;
  Some (copy, HiddenRootValue None other, reset_json st json_).

(** ** Parsing *)

Definition new_JSONParser : Parser := Parser_ 0 0 0 0 0 JSON_NO_ERROR 0 0.

(** What [Parse] sets before it starts; the depth is not set. *)
Definition start_parse (p : Parser) : Parser :=
  Parser_ 0 0 (stack_depth_ p) 1 0 JSON_NO_ERROR 0 0.

(** The end of [Parse]: the root is wrapped, copied or returned as it is. *)
Definition own_root (st : Store) (options : ParserOptions) (text_id : N) (input : list Z)
    (root : Value) : option (Root * Store) :=
  if JSON_DETACHABLE_CHILDREN options then Some (PlainRoot root, st)
  else
    let alive := <[text_id := input]> st in
    match GetType root with
    | TYPE_DICTIONARY | TYPE_LIST => Some (HiddenRootValue (Some text_id) root, alive)
    | TYPE_STRING => copy ← DeepCopy alive root; Some (PlainRoot copy, st)
    | _ => Some (PlainRoot root, st)
    end.

Section Reader.
Context (LocalIsWhitespace : Z -> bool) (StringToDouble : list Z -> option double).

(** The memory that [start_pos_] points to: the copy and its terminator, or the
    input and what is behind it. *)
Definition parse_memory (options : ParserOptions) (input beyond : list Z) : list Z :=
  input ++ if JSON_DETACHABLE_CHILDREN options then beyond else [0].

Definition Parse (st : Store) (options : ParserOptions) (text_id : N) (input beyond : list Z)
    : M (option Root * Store) :=
  _ ← modify start_parse;
  root ← parse_root (parse_memory options input beyond) (Z.of_nat (length input)) options text_id
           LocalIsWhitespace StringToDouble;
  match root with
  | None => mret (None, st)
  | Some root =>
      match own_root st options text_id input root with
      | Some (r, st) => mret (Some r, st)
      | None => undefined
      end
  end.

(** ** Errors *)

Definition literal (s : String.string) : list Z :=
  map (fun c => Z.of_N (Ascii.N_of_ascii c)) (String.list_ascii_of_string s).

Section Messages.
Import String.StringSyntax.
Local Open Scope string_scope.

Definition kInvalidEscape := literal "Invalid escape sequence.".
Definition kSyntaxError := literal "Syntax error.".
Definition kUnexpectedToken := literal "Unexpected token.".
Definition kTrailingComma := literal "Trailing comma not allowed.".
Definition kTooMuchNesting := literal "Too much nesting.".
Definition kUnexpectedDataAfterRoot := literal "Unexpected data after root element.".
Definition kUnsupportedEncoding := literal "Unsupported encoding. JSON must be UTF-8.".
Definition kUnquotedDictionaryKey := literal "Dictionary keys must be quoted.".

Definition ErrorCodeToString (error_code : JsonParseError) : list Z :=
  match error_code with
  | JSON_NO_ERROR => []
  | JSON_INVALID_ESCAPE => kInvalidEscape
  | JSON_SYNTAX_ERROR => kSyntaxError
  | JSON_UNEXPECTED_TOKEN => kUnexpectedToken
  | JSON_TRAILING_COMMA => kTrailingComma
  | JSON_TOO_MUCH_NESTING => kTooMuchNesting
  | JSON_UNEXPECTED_DATA_AFTER_ROOT => kUnexpectedDataAfterRoot
  | JSON_UNSUPPORTED_ENCODING => kUnsupportedEncoding
  | JSON_UNQUOTED_DICTIONARY_KEY => kUnquotedDictionaryKey
  end.

(** [%i] of an [int]. *)
Definition print_int (z : Z) : list Z := default [] (IntToString Int.int32 z).

Definition FormatErrorMessage (line column : Z) (description : list Z) : list Z :=
  if negb (line =? 0) || negb (column =? 0)
  then literal "Line: " ++ print_int line ++ literal ", column: " ++ print_int column ++ literal ", "
         ++ c_string description
  else description.
End Messages.

Definition GetErrorMessage (p : Parser) : list Z :=
  FormatErrorMessage (error_line_ p) (error_column_ p) (ErrorCodeToString (error_code_ p)).

(** ** [JSONReader] *)

(** The pointers to the error outputs may be null. *)
Definition ReadAndReturnError (st : Store) (options : ParserOptions) (text_id : N)
    (json beyond : list Z) (error_code_out : option JsonParseError)
    (error_msg_out : option (list Z))
    : outcome (option Root * Store * option JsonParseError * option (list Z)) :=
  match Parse st options text_id json beyond new_JSONParser with
  | Done (Some root, st) p => Done (Some root, st, error_code_out, error_msg_out) p
  | Done (None, st) p =>
      Done (None, st, (fun _ => error_code_ p) <$> error_code_out,
        (fun _ => GetErrorMessage p) <$> error_msg_out) p
  | Undefined => Undefined
  | OutOfFuel => OutOfFuel
  end.

Definition JSON_PARSE_RFC : ParserOptions := ParserOptions_ false false.

Definition Read (st : Store) (options : ParserOptions) (text_id : N) (json beyond : list Z)
    : outcome (option Root * Store) :=
  Parse st options text_id json beyond new_JSONParser.

(** [ReadToValue] keeps its parser between calls. *)
Definition ReadToValue (st : Store) (options : ParserOptions) (text_id : N) (json : list Z)
    : M (option Root * Store) := Parse st options text_id json [0].
End Reader.

(** ** Operations on a root *)

(** What the owner of a root does with it: every operation of the container
    that hands a value out or takes one in, on the root itself. An operation of
    the other kind of container does not apply and changes nothing. *)
Inductive root_op :=
| Root_Remove (key : list Z)
| Root_RemoveAt (index : nat)
| Root_Set (path : list Z) (v : Value)
| Root_Append (v : Value)
| Root_Swap (other : Value).

Definition root_op_ok (op : root_op) : Prop :=
  match op with
  | Root_Remove key => Forall is_byte key
  | Root_RemoveAt _ => True
  | Root_Set path v => Forall is_byte path /\ wf v /\ detached v
  | Root_Append v | Root_Swap v => wf v /\ detached v
  end.

(** The root and the store after the operation and the values handed out. *)
Definition run_root_op (st : Store) (json_ : option N) (v : Value) (op : root_op)
    : option (Store * option N * Value * list Value) :=
  match op, v with
  | Root_Remove key, DictionaryValue d =>
      r ← HiddenRoot_RemoveWithoutPathExpansion st d key;
      Some (match r with
            | Some (out, d) => (st, json_, DictionaryValue d, [out])
            | None => (st, json_, v, [])
            end)
  | Root_RemoveAt index, ListValue l =>
      r ← ListHiddenRoot_Remove st l index;
      Some (match r with
            | Some (out, l) => (st, json_, ListValue l, [out])
            | None => (st, json_, v, [])
            end)
  | Root_Set path w, DictionaryValue d => Some (st, json_, DictionaryValue (Set_ d path w), [])
  | Root_Append w, ListValue l => Some (st, json_, ListValue (Append l w), [])
  | Root_Swap other, _ =>
      if bool_decide (GetType other = GetType v) then
        '(copy, r, st) ← HiddenRoot_Swap st json_ v other;
        Some (st, match r with HiddenRootValue json_ _ => json_ | PlainRoot _ => None end,
              root_value r, [copy])
      else Some (st, json_, v, [])
  | _, _ => Some (st, json_, v, [])
  end.

Fixpoint run_root_ops (st : Store) (json_ : option N) (v : Value) (ops : list root_op)
    : option (Store * option N * Value * list Value) :=
  match ops with
  | [] => Some (st, json_, v, [])
  | op :: ops =>
      '(st, json_, v, out) ← run_root_op st json_ v op;
      '(st, json_, v, outs) ← run_root_ops st json_ v ops;
      Some (st, json_, v, out ++ outs)
  end.

(** ** Lemmas *)

(** The invariant of a root and its text. *)
Definition root_ok (st : Store) (v : Value) : Prop := store_ok st /\ wf v /\ alive st v.

Definition handed_out (c : Value) : Prop := wf c /\ detached c.

Lemma root_ok_copy st v :
  root_ok st v -> exists c, DeepCopy st v = Some c /\ handed_out c.
Proof.
  intros (Hst & Hwf & Ha). destruct (alive_DeepCopy st v Hwf Ha) as [c Hc]. exists c.
  split; [done|]. by apply deep_copy_ok in Hc as (? & ? & _).
Qed.

Lemma Forall_map_find P d k v :
  Forall (fun e : list Z * Value => P e.2) d -> map_find d k = Some v -> P v.
Proof.
  induction 1 as [|[l w] d Hl Hd IH]; simpl; [done|]. case_bool_decide; [|done]. by intros [= <-].
Qed.

Lemma root_ok_remove st d key v d' :
  root_ok st (DictionaryValue d) -> RemoveWithoutPathExpansion d key = Some (v, d') ->
  root_ok st v /\ root_ok st (DictionaryValue d').
Proof.
  intros (Hst & Hwf & Ha%alive_dictionary) Hr. pose proof (wf_remove_key _ _ _ _ Hwf Hr) as [Hv Hd'].
  unfold RemoveWithoutPathExpansion in Hr. destruct (map_find d key) as [w|] eqn:E; [|done].
  injection Hr as <- <-. split; (split; [done|split; [done|]]).
  - by apply (Forall_map_find (alive st) d key).
  - by apply alive_dictionary, Forall_map_erase.
Qed.

Lemma root_ok_remove_at st l i v l' :
  root_ok st (ListValue l) -> List_Remove l i = Some (v, l') ->
  root_ok st v /\ root_ok st (ListValue l').
Proof.
  intros (Hst & Hwf%wf_list_alt & Ha%alive_list) Hr. unfold List_Remove, List_Get in Hr.
  destruct (length l <=? i)%nat; [done|]. destruct (l !! i) as [w|] eqn:E; [|done].
  injection Hr as <- <-. split; (split; [done|split]).
  - by eapply Forall_lookup_1 in E.
  - by eapply Forall_lookup_1 in E.
  - apply wf_list_alt. unfold erase_at. apply Forall_app.
    by split; [apply Forall_take | apply Forall_drop].
  - apply alive_list. unfold erase_at. apply Forall_app.
    by split; [apply Forall_take | apply Forall_drop].
Qed.

Lemma alive_map_set st d k v :
  alive st (DictionaryValue d) -> alive st v -> alive st (DictionaryValue (map_set d k v)).
Proof. rewrite !alive_dictionary. intros Hd Hv. by apply Forall_map_set. Qed.

Lemma alive_set_keys st ks d v :
  alive st (DictionaryValue d) -> alive st v -> alive st (DictionaryValue (set_keys d ks v)).
Proof.
  revert d. induction ks as [|k ks IH]; intros d Hd Hv; [done|]. destruct ks as [|l ks].
  - by apply alive_map_set.
  - rewrite set_keys_cons. apply alive_map_set; [done|]. apply IH; [|done].
    unfold child_of. destruct (map_find d k) as [w|] eqn:E; [|by apply alive_dictionary].
    apply alive_dictionary in Hd. apply (Forall_map_find (alive st)) in E; [|done].
    destruct w; try (by apply alive_dictionary). exact E.
Qed.

Lemma root_ok_set st d path v :
  root_ok st (DictionaryValue d) -> Forall is_byte path -> wf v -> detached v ->
  root_ok st (DictionaryValue (Set_ d path v)).
Proof.
  intros (Hst & Hwf & Ha) Hp Hv Hd. rewrite Set_keys. split; [done|]. split.
  - apply wf_set_keys; [done | by apply components_bytes | done].
  - apply alive_set_keys; [done | by apply alive_detached].
Qed.

Lemma store_ok_delete st i : store_ok st -> store_ok (base.delete i st).
Proof. intros Hst. by apply map_Forall_delete. Qed.

Lemma run_root_op_ok st json_ v op :
  root_ok st v -> root_op_ok op ->
  exists st' json_' v' out, run_root_op st json_ v op = Some (st', json_', v', out) /\
    root_ok st' v' /\ Forall handed_out out.
Proof.
  intros Hok Hop.
  assert (exists st' json_' v' out, Some (st, json_, v, @nil Value) = Some (st', json_', v', out) /\
    root_ok st' v' /\ Forall handed_out out) as Hsame
    by (eexists _, _, _, _; by split; [|split; [|constructor]]).
  destruct op as [key|i|path w|w|other]; [destruct v; try exact Hsame; simpl..|].
  - unfold HiddenRoot_RemoveWithoutPathExpansion.
    destruct (RemoveWithoutPathExpansion _ _) as [[w d]|] eqn:E; [|exact Hsame].
    destruct (root_ok_remove _ _ _ _ _ Hok E) as [Hw Hd].
    destruct (root_ok_copy _ _ Hw) as (c & -> & Hc). simpl. eexists _, _, _, _.
    split; [done|]. split; [done | by constructor].
  - unfold ListHiddenRoot_Remove. destruct (List_Remove _ _) as [[w l]|] eqn:E; [|exact Hsame].
    destruct (root_ok_remove_at _ _ _ _ _ Hok E) as [Hw Hd].
    destruct (root_ok_copy _ _ Hw) as (c & -> & Hc). simpl. eexists _, _, _, _.
    split; [done|]. split; [done | by constructor].
  - destruct Hop as (Hp & Hw & Hd). eexists _, _, _, _. split; [done|].
    split; [by apply root_ok_set | constructor].
  - destruct Hop as [Hw Hd], Hok as (Hst & Hwf%wf_list_alt & Ha%alive_list).
    eexists _, _, _, _. split; [done|]. split; [|constructor]. split; [done|].
    split; [apply wf_list_alt | apply alive_list]; apply Forall_app; split; try done;
      constructor; [done | constructor | by apply alive_detached | constructor].
  - unfold run_root_op, HiddenRoot_Swap. case_bool_decide; [|by destruct v].
    destruct (root_ok_copy _ _ Hok) as (c & -> & Hc). destruct Hop as [Hw Hd]. simpl.
    assert (store_ok (reset_json st json_)) as Hst'
      by (destruct json_; [by apply store_ok_delete, Hok | apply Hok]).
    destruct v; simpl; (eexists _, _, _, _; split; [done|]; split; [|by constructor]);
      (split; [done|split; [done|by apply alive_detached]]).
Qed.

Section Parse.
Context (LocalIsWhitespace : Z -> bool) (StringToDouble : list Z -> option double).
Context (st : Store) (options : ParserOptions) (text_id : N) (input beyond : list Z).

(** The input is the contents of a string: bytes, not too many, and when the
    parser works in place they are followed by a terminator. *)
Definition parse_input_ok : Prop :=
  Forall is_byte input /\ Z.of_nat (length input) < Int.max Int.int32 /\
  (JSON_DETACHABLE_CHILDREN options = true ->
     exists rest, beyond = 0 :: rest /\ Forall is_byte rest).

(** What [Parse] promises of its result. *)
Definition parse_result_ok (r : option Root) (st' : Store) : Prop :=
  match r with
  | None => st' = st
  | Some (PlainRoot v) => st' = st /\ wf v /\ detached v /\ (nesting v <= 99)%nat
  | Some (HiddenRootValue json_ v) =>
      json_ = Some text_id /\ st' = <[text_id := input]> st /\ root_ok st' v /\
      (nesting v <= 99)%nat /\ JSON_DETACHABLE_CHILDREN options = false
  end.

Lemma parse_store_ok : store_ok st -> Forall is_byte input -> store_ok (<[text_id := input]> st).
Proof. intros Hst Hb. by apply map_Forall_insert_2. Qed.

Lemma own_root_ok v :
  store_ok st -> Forall is_byte input ->
  wf v -> alive {[ text_id := input ]} v -> (nesting v <= 99)%nat ->
  (JSON_DETACHABLE_CHILDREN options = true -> detached v) ->
  exists r st', own_root st options text_id input v = Some (r, st') /\ parse_result_ok (Some r) st'.
Proof.
  intros Hst Hb Hwf Ha Hn Hd. unfold own_root, parse_result_ok.
  destruct (JSON_DETACHABLE_CHILDREN options) eqn:Edet.
  { eexists _, _. split; [done|]. simpl. auto. }
  assert (root_ok (<[text_id := input]> st) v) as Hok.
  { split; [by apply parse_store_ok|]. split; [done|]. eapply alive_mono; [|done].
    apply map_singleton_subseteq_l. apply lookup_insert_eq. }
  destruct (root_ok_copy _ _ Hok) as (c & Hc & Hwc & Hdc).
  destruct v; simpl; try (eexists _, _; split; [done|]; split_and!; [done.. | by apply detached_leaf | done]);
    try (by eexists _, _).
  - simpl in Hc. destruct (piece_bytes _ _); [|done]. injection Hc as <-. simpl.
    eexists _, _. split; [done|]. simpl. split_and!; [done.. | lia].
Qed.

Lemma parse_memory_ok :
  parse_input_ok -> let mem := parse_memory options input beyond in
  let end_pos_ := Z.of_nat (length input) in
  Forall is_byte mem /\ 0 <= end_pos_ < Int.max Int.int32 /\ char_at mem end_pos_ = Some 0 /\
  take (length input) mem = input.
Proof.
  intros (Hb & Hlen & Hbeyond) mem end_pos_.
  assert (exists rest, mem = input ++ 0 :: rest /\ Forall is_byte rest) as (rest & -> & Hrest).
  { unfold mem, parse_memory. destruct (JSON_DETACHABLE_CHILDREN options) eqn:E; [|by exists []].
    destruct (Hbeyond eq_refl) as (rest & -> & ?). by exists rest. }
  split; [|split; [lia|split]].
  - apply Forall_app. split; [done|]. constructor; [by unfold is_byte | done].
  - unfold char_at, end_pos_. rewrite (proj2 (Z.leb_le _ _)) by lia. rewrite Nat2Z.id.
    by rewrite list_lookup_middle.
  - apply take_app_length.
Qed.

(** [Parse] is the parse of the root, and what becomes of it. *)
Lemma Parse_run (Q : option Value -> Parser -> Prop) p :
  wp (parse_root (parse_memory options input beyond) (Z.of_nat (length input)) options text_id
        LocalIsWhitespace StringToDouble) Q (start_parse p) ->
  exists root p', Q root p' /\
    Parse LocalIsWhitespace StringToDouble st options text_id input beyond p =
    match root with
    | None => Done (None, st) p'
    | Some root => match own_root st options text_id input root with
                   | Some (r, st) => Done (Some r, st) p'
                   | None => Undefined
                   end
    end.
Proof.
  unfold Parse, M_bind, mbind, modify, wp. destruct (parse_root _ _ _ _ _ _ _) as [[v|] p'| |];
    [..|done|done]; intros HQ; (eexists _, p'; split; [exact HQ|]); [|done].
  cbv beta iota. by destruct (own_root _ _ _ _ _) as [[r st']|].
Qed.

Lemma start_parse_ok p :
  stack_depth_ p = 0 ->
  at_token (Z.of_nat (length input)) (start_parse p) /\
  0 <= room (start_parse p) < kStackMaxDepth /\ stack_depth_ (start_parse p) = 0.
Proof.
  intros Hp. unfold at_token, room, kStackMaxDepth, start_parse. simpl. rewrite Hp. lia.
Qed.

Lemma input_store_input :
  parse_input_ok ->
  input_store (parse_memory options input beyond) (Z.of_nat (length input)) text_id
  = {[ text_id := input ]}.
Proof.
  intros Hin. destruct (parse_memory_ok Hin) as (_ & _ & _ & Ht). unfold input_store.
  by rewrite Nat2Z.id, Ht.
Qed.

Lemma Parse_ok p :
  store_ok st -> parse_input_ok -> stack_depth_ p = 0 ->
  exists r st' p', Parse LocalIsWhitespace StringToDouble st options text_id input beyond p
                     = Done (r, st') p' /\
    stack_depth_ p' = 0 /\ parse_result_ok r st'.
Proof.
  intros Hst Hin Hp. pose proof (parse_memory_ok Hin) as (Hb & Hlen & Hnul & _).
  destruct (start_parse_ok p Hp) as (Hat & Hroom & Hdepth).
  destruct (Parse_run _ p (parse_root_ok _ _ options text_id LocalIsWhitespace StringToDouble
    Hb Hlen Hnul (start_parse p) Hat Hroom)) as (root & p' & [Hd Hroot] & ->).
  unfold same_depth in Hd. rewrite Hdepth in Hd.
  destruct root as [v|]; [|by eexists _, _, _]. destruct Hroot as (Hwf & Ha & Hn & Hdet).
  unfold readable in Ha. rewrite input_store_input in Ha by done.
  unfold room, kStackMaxDepth in Hn. rewrite Hdepth in Hn.
  destruct (own_root_ok v) as (r & st' & -> & Hr); [done | apply Hin | done | done | lia | done|].
  by eexists _, _, _.
Qed.
End Parse.

(** ** A reader that reads many documents *)

Section ReadMany.
Context (LocalIsWhitespace : Z -> bool) (StringToDouble : list Z -> option double).
Context (options : ParserOptions).

(** Documents are read one after the other by the same reader, each with the
    name its copy will have. *)
Fixpoint ReadMany (st : Store) (documents : list (N * list Z)) : M (list Root * Store) :=
  match documents with
  | [] => mret ([], st)
  | (text_id, json) :: documents =>
      '(r, st) ← ReadToValue LocalIsWhitespace StringToDouble st options text_id json;
      '(rs, st) ← ReadMany st documents;
      mret (match r with Some r => r :: rs | None => rs end, st)
  end.

Definition document_ok (json : list Z) : Prop :=
  Forall is_byte json /\ Z.of_nat (length json) < Int.max Int.int32.

(** A root that can be read, and is not nested too deeply. *)
Definition readable_root (st : Store) (r : Root) : Prop :=
  root_ok st (root_value r) /\ (nesting (root_value r) <= 99)%nat /\
  (JSON_DETACHABLE_CHILDREN options = true -> detached (root_value r)).

Lemma parse_result_readable st text_id json r st' :
  store_ok st -> parse_result_ok st options text_id json (Some r) st' -> readable_root st' r.
Proof.
  intros Hst. unfold parse_result_ok, readable_root. destruct r as [v|j v]; simpl.
  - intros (-> & Hwf & Hd & Hn). split; [|done]. split; [done|]. split; [done|].
    by apply alive_detached.
  - intros (-> & -> & Hok & Hn & E). split; [done|]. split; [done|]. congruence.
Qed.

Lemma parse_result_store st text_id json r st' :
  store_ok st -> Forall is_byte json -> st !! text_id = None ->
  parse_result_ok st options text_id json r st' ->
  store_ok st' /\ st ⊆ st' /\ (forall i, i <> text_id -> st' !! i = st !! i).
Proof.
  intros Hst Hb Hfresh Hr.
  assert (st' = st \/ st' = <[text_id := json]> st) as [-> | ->].
  { destruct r as [[v|j v]|]; simpl in Hr; tauto. }
  - done.
  - split; [by apply parse_store_ok|]. split; [by apply insert_subseteq|].
    intros i Hi. by apply lookup_insert_ne.
Qed.

Lemma readable_root_mono st st' r :
  store_ok st' -> st ⊆ st' -> readable_root st r -> readable_root st' r.
Proof.
  intros Hst Hs ((_ & Hwf & Ha) & Hn). split; [|done]. split; [done|]. split; [done|].
  by eapply alive_mono.
Qed.

Lemma ReadMany_ok st documents p :
  store_ok st -> stack_depth_ p = 0 -> Forall (fun d => document_ok d.2) documents ->
  NoDup documents.*1 -> Forall (fun d => st !! d.1 = None) documents ->
  exists rs st' p', ReadMany st documents p = Done (rs, st') p' /\
    store_ok st' /\ st ⊆ st' /\ stack_depth_ p' = 0 /\ Forall (readable_root st') rs.
Proof.
  revert st p. induction documents as [|[i json] documents IH]; intros st p Hst Hp Hdocs Hnd Hfresh.
  { exists [], st, p. split_and!; done || constructor. }
  apply Forall_cons in Hdocs as [[Hb Hlen] Hdocs], Hfresh as [Hi Hfresh].
  apply NoDup_cons in Hnd as [Hni Hnd]. simpl in *. unfold mbind, M_bind, ReadToValue.
  destruct (Parse_ok LocalIsWhitespace StringToDouble st options i json [0] p)
    as (r & st1 & p1 & -> & Hp1 & Hr); [done | | done |].
  { split; [done|]. split; [done|]. intros _. by exists []. }
  destruct (parse_result_store _ _ _ _ _ Hst Hb Hi Hr) as (Hst1 & Hsub1 & Hother).
  destruct (IH st1 p1) as (rs & st2 & p2 & -> & Hst2 & Hsub2 & Hp2 & Hrs); [done..| |].
  { apply Forall_forall. intros [k d] Hk. rewrite Forall_forall in Hfresh. rewrite Hother.
    - by apply (Hfresh (k, d)).
    - simpl. intros ->. apply Hni. apply list_elem_of_fmap. by exists (i, d). }
  eexists _, st2, p2. split; [done|]. split_and!; [done | by etrans | done |].
  destruct r as [r|]; [|done]. constructor; [|done].
  eapply readable_root_mono; [done | done|]. by eapply (parse_result_readable st).
Qed.
End ReadMany.

(** * Theorems *)



(** What a hidden root hands out outlives the text. Parse any document
    without detachable children and let the root be hidden; whatever sequence of
    removals, insertions and swaps its owner then performs on it, with values
    that own their strings, no dead text is read, and every value that was
    handed out owns its strings: it is well formed, and it reads the same in
    every store, after the destruction of the root in particular. *)
Theorem hidden_root_values_survive LocalIsWhitespace StringToDouble st options text_id input
    beyond p json_ v st1 p1 ops :
  store_ok st -> parse_input_ok options input beyond -> stack_depth_ p = 0 ->
  Parse LocalIsWhitespace StringToDouble st options text_id input beyond p
    = Done (Some (HiddenRootValue json_ v), st1) p1 ->
  Forall root_op_ok ops ->
  exists st2 json_2 v2 out, run_root_ops st1 json_ v ops = Some (st2, json_2, v2, out) /\
    Forall wf out /\ (forall st' c, c ∈ out -> DeepCopy st' c = Some c).
Proof.
  intros Hst Hin Hp HP Hops.
  destruct (Parse_ok LocalIsWhitespace StringToDouble st options text_id input beyond p)
    as (r & st' & p' & HP' & _ & Hr); [done..|]. rewrite HP in HP'. injection HP' as <- <- <-.
  destruct Hr as (_ & _ & Hok & _). clear HP Hin Hst p Hp.
  revert st1 json_ v Hok. induction Hops as [|op ops Hop Hops IH]; intros st1 json_ v Hok; simpl.
  { eexists _, _, _, _. split; [done|]. split; [constructor | set_solver]. }
  destruct (run_root_op_ok st1 json_ v op Hok Hop) as (st2 & j2 & v2 & o & -> & Hok2 & Ho). simpl.
  destruct (IH st2 j2 v2 Hok2) as (st3 & j3 & v3 & os & -> & Hwf & Hcopy). simpl.
  eexists _, _, _, _. split; [done|]. rewrite Forall_forall in Ho. split.
  - apply Forall_app. split; [|done]. apply Forall_forall. intros c Hc. by apply Ho.
  - intros st' c [Hc | Hc]%elem_of_app; [|by apply Hcopy]. apply Ho in Hc as [Hwc Hdc].
    by apply DeepCopy_complete, copy_of_detached.
Qed.

Lemma hidden_root_values_survive_witness :
  exists st2 json_2 v2 out,
    run_root_ops {[ 0%N := [91; 34; 97; 34; 93] ]} (Some 0%N)
      (ListValue [JSONStringValue (StringPiece_ 0 2 1)]) [Root_RemoveAt 0] =
      Some (st2, json_2, v2, out) /\
    Forall wf out /\ (forall st' c, c ∈ out -> DeepCopy st' c = Some c).
Proof.
  eapply (hidden_root_values_survive (fun _ => false) (fun _ => None) ∅ JSON_PARSE_RFC 0
    [91; 34; 97; 34; 93] [0] new_JSONParser).
  - apply map_Forall_empty.
  - split; [repeat constructor; vm_compute; congruence|]. split; [vm_compute; congruence | done].
  - reflexivity.
  - vm_compute. reflexivity.
  - by repeat constructor.
Defined.

(** ** What the roots do not copy *)

(** [ListValue::Erase], which the hidden root does not override. *)
Definition Erase (l : list Value) (iter : nat) : option (Value * list Value) := List_Remove l iter.

(** The value that [Erase] hands out of a hidden root dies with the root. *)
Lemma erase_hands_out_a_piece :
  let st := {[ 0%N := [91; 34; 97; 34; 93] ]} in
  let l := [JSONStringValue (StringPiece_ 0 2 1)] in
  Parse (fun _ => false) (fun _ => None) ∅ JSON_PARSE_RFC 0 [91; 34; 97; 34; 93] []
    new_JSONParser = Done (Some (HiddenRootValue (Some 0%N) (ListValue l)), st)
      (Parser_ 5 5 0 1 0 JSON_NO_ERROR 0 0) /\
  exists v l', Erase l 0 = Some (v, l') /\
    GetAsString (delete_root st (HiddenRootValue (Some 0%N) (ListValue l'))) v = None.
Proof. vm_compute. split; [reflexivity|]. by eexists _, _. Qed.

(** The contents that a hidden root takes from another one die with the other. *)
Lemma swapped_hidden_roots_share_a_text st json_ d e i :
  DeepCopy st (DictionaryValue d) <> None ->
  st !! i = Some e ->
  exists copy r st', HiddenRoot_Swap st json_ (DictionaryValue d)
      (DictionaryValue [([97], JSONStringValue (StringPiece_ i 0 0))]) = Some (copy, r, st') /\
    DeepCopy (reset_json st' (Some i)) (root_value r) = None.
Proof.
  intros Hd Hi. unfold HiddenRoot_Swap. destruct (DeepCopy st (DictionaryValue d)); [|done].
  eexists _, _, _. split; [done|]. 
  assert (reset_json (reset_json st json_) (Some i) !! i = None) as E by apply lookup_delete_eq.
  cbn [root_value]. generalize dependent (reset_json (reset_json st json_) (Some i)).
  intros st' E. simpl. unfold piece_bytes. cbn [buffer]. by rewrite E.
Qed.
