(* ===== verification/JsonAccept.v ===== *)
(** * The parser reads every JSON text

    A parse of a text of the grammar, with any white space and any spelling of
    its strings, ends at the text's last byte with the value that the text
    denotes. The specifications say what is left of the input: [here p s] when
    [s] is what the parser at [p] has before it. *)
From Stdlib Require Import ZArith Lia SpecFloat.
From stdpp Require Import base numbers option gmap list.
From S2P Require Import Prelude StringNumbers Unicode Values JsonWriter JsonParser JsonSafety.
From S2P Require Import JsonReader JsonGrammar.
Local Open Scope Z_scope.

#[local] Ltac Zify.zify_post_hook ::= Z.to_euclidean_division_equations.

(** The next byte, or the terminator. *)
Definition peek (s : list Z) : Z := default 0 (head s).

Section Accept.
Context (mem : list Z) (end_pos_ : Z) (options : ParserOptions) (text_id : N).
Context (LocalIsWhitespace : Z -> bool) (StringToDouble : list Z -> option double).
Context (Hbytes : Forall is_byte mem).
Context (Hend : 0 <= end_pos_ < Int.max Int.int32).
Context (Hnul : char_at mem end_pos_ = Some 0).

#[local] Abbreviation before i := (window mem i end_pos_).

Definition here (p : Parser) (s : list Z) : Prop := at_token end_pos_ p /\ before (pos_ p) = s.

Lemma end_in_memory : end_pos_ < Z.of_nat (length mem).
Proof. by eapply memory_length. Qed.

Lemma before_length i : 0 <= i <= end_pos_ -> Z.of_nat (length (before i)) = end_pos_ - i.
Proof. intros. pose proof end_in_memory. apply window_length; lia. Qed.

Lemma before_peek i : 0 <= i <= end_pos_ -> char_at mem i = Some (peek (before i)).
Proof.
  intros Hi. destruct (before i) as [|c s] eqn:E.
  - pose proof (before_length i Hi) as H. rewrite E in H. simpl in *.
    assert (i = end_pos_) as -> by lia. exact Hnul.
  - pose proof (window_char mem i end_pos_ O c ltac:(lia)) as H. rewrite E in H.
    specialize (H eq_refl). by rewrite Z.add_0_r in H.
Qed.

Lemma before_app i s r :
  0 <= i <= end_pos_ -> before i = s ++ r ->
  before (i + Z.of_nat (length s)) = r /\ i + Z.of_nat (length s) <= end_pos_.
Proof.
  intros Hi E. pose proof (before_length i Hi) as H. rewrite E, length_app in H.
  split; [|lia]. by apply (window_shift mem i end_pos_ _ s); [lia|..].
Qed.

Lemma before_cons i c r :
  0 <= i <= end_pos_ -> before i = c :: r -> before (i + 1) = r /\ i + 1 <= end_pos_.
Proof. intros Hi E. exact (before_app i [c] r Hi E). Qed.

Lemma here_length p s : here p s -> pos_ p + Z.of_nat (length s) = end_pos_.
Proof. intros [[Hp _] <-]. rewrite before_length by done. lia. Qed.

(** ** Moving *)

Lemma here_deref s (Q : Z -> Parser -> Prop) p :
  here p s -> Q (peek s) p -> wp (deref mem) Q p.
Proof. intros [[Hp Hi] <-] HQ. eapply wp_deref; [by apply before_peek | done]. Qed.

Lemma here_can n s (Q : bool -> Parser -> Prop) p :
  here p s -> Q (n <=? Z.of_nat (length s)) p -> wp (CanConsume end_pos_ n) Q p.
Proof.
  intros H HQ. apply wp_CanConsume. pose proof (here_length _ _ H).
  replace (pos_ p + n <=? end_pos_) with (n <=? Z.of_nat (length s)); [done|].
  destruct (Z.leb_spec n (Z.of_nat (length s))), (Z.leb_spec (pos_ p + n) end_pos_); done || lia.
Qed.

Lemma here_NextNChars s r (Q : unit -> Parser -> Prop) p :
  here p (s ++ r) ->
  (forall p', here p' r -> same_depth p p' -> pos_ p' = pos_ p + Z.of_nat (length s) -> Q tt p') ->
  wp (NextNChars (Z.of_nat (length s))) Q p.
Proof.
  intros [[Hp Hi] E] HQ. destruct (before_app _ _ _ Hp E) as [E' Hle].
  apply wp_NextNChars; [eapply (index_fits mem end_pos_); [done..|lia]|].
  apply HQ; [|done|done]. unfold here, at_token. simpl. split; [lia|done].
Qed.

Lemma here_NextChar c r (Q : Z -> Parser -> Prop) p :
  here p (c :: r) ->
  (forall p', here p' r -> same_depth p p' -> pos_ p' = pos_ p + 1 -> Q (pos_ p + 1) p') ->
  wp NextChar Q p.
Proof.
  intros H HQ. unfold NextChar. wp_steps. apply (here_NextNChars [c] r); [done|].
  intros p' Hp' Hd Hpos. wp_steps. rewrite Hpos. by apply HQ.
Qed.

Lemma here_ReadNextChar c r (Q : Z -> Parser -> Prop) p :
  here p (c :: r) -> (forall p', here p' r -> same_depth p p' -> Q (peek r) p') ->
  wp (ReadNextChar mem) Q p.
Proof.
  intros H HQ. unfold ReadNextChar. wp_steps. apply (here_NextChar c r); [done|].
  intros p' Hp' Hd Hpos. apply (wp_read mem _ (peek r)).
  - rewrite <- Hpos. destruct Hp' as [[? _] <-]. by apply before_peek.
  - by apply HQ.
Qed.

(** ** White space and tokens *)

(** A byte that starts or ends a token. *)
Definition solid (c : Z) : Prop := ~ blank_char c /\ c <> chr_slash.

Lemma here_count_line c s (Q : unit -> Parser -> Prop) p :
  here p s -> (forall p', here p' s -> same_depth p p' -> Q tt p') -> wp (count_line mem c) Q p.
Proof.
  intros [Ha Hs] HQ. eapply wp_mono; [by eapply count_line_ok|].
  intros [] p' [(Ha' & _ & Hd) Hp]. apply HQ; [|done]. by rewrite <- Hp in Hs.
Qed.

Lemma here_eat fuel w r p :
  here p (w ++ r) -> blank w -> (r = [] \/ solid (peek r)) -> (length w < fuel)%nat ->
  wp (eat_loop mem end_pos_ fuel) (fun _ p' => here p' r /\ same_depth p p') p.
Proof.
  intros H Hw Hr. revert fuel p H. induction Hw as [|c w Hc Hw IH]; intros fuel p H Hf;
    (destruct fuel as [|fuel]; [simpl in Hf; lia|]); pose proof (here_length _ _ H) as Hl; simpl;
    wp_steps.
  - simpl in H, Hl. destruct (Z.ltb_spec (pos_ p) end_pos_) as [Hlt|].
    2: { wp_steps. by split. }
    wp_steps. apply (here_deref r); [done|]. destruct Hr as [-> | [Hb Hs]]; [simpl in Hl; lia|].
    unfold blank_char in Hb.
    rewrite (proj2 (orb_false_iff _ _)) by (rewrite !Z.eqb_neq; tauto).
    rewrite (proj2 (orb_false_iff _ _)) by (rewrite !Z.eqb_neq; tauto).
    rewrite (proj2 (Z.eqb_neq _ _)) by done. wp_steps. by split.
  - rewrite (proj2 (Z.ltb_lt _ _)) by (simpl in Hl; lia). wp_steps.
    apply (here_deref _ _ _ H). change (peek ((c :: w) ++ r)) with c.
    assert (forall p1, here p1 (c :: w ++ r) -> same_depth p p1 ->
      wp (_ ← NextChar; eat_loop mem end_pos_ fuel) (fun _ p' => here p' r /\ same_depth p p') p1)
      as Hnext.
    { intros p1 H1 D1. wp_steps. apply (here_NextChar c (w ++ r)); [done|]. intros p2 H2 D2 _.
      eapply wp_mono; [apply IH; [done | simpl in Hf; lia]|]. intros ? p3 [H3 D3].
      split; [done | unfold same_depth in *; congruence]. }
    apply wp_if; intros E; [|rewrite (proj2 (orb_true_iff _ _))].
    + wp_steps. apply (here_count_line c (c :: w ++ r)); [done|]. intros p1 H1 D1.
      by apply Hnext.
    + by apply Hnext.
    + apply orb_false_iff in E as [E1%Z.eqb_neq E2%Z.eqb_neq]. rewrite !Z.eqb_eq.
      unfold blank_char in Hc. tauto.
Qed.

Definition next_token (r : list Z) : Token :=
  match r with [] => T_END_OF_INPUT | c :: _ => token_of c end.

Lemma here_token w r (Q : Token -> Parser -> Prop) p :
  here p (w ++ r) -> blank w -> (r = [] \/ solid (peek r)) ->
  (forall p', here p' r -> same_depth p p' ->
     Q (next_token r) p') ->
  wp (GetNextToken mem end_pos_) Q p.
Proof.
  intros H Hw Hr HQ. unfold GetNextToken, EatWhitespaceAndComments. wp_steps. apply wp_bytes_left.
  pose proof (here_length _ _ H) as Hl. rewrite length_app in Hl.
  eapply wp_mono; [apply (here_eat _ w r); [done | done | done | lia]|]. intros [] p' [H' Hd].
  wp_steps. apply (here_can 1 r); [done|]. specialize (HQ p' H' Hd). destruct r as [|c r].
  - wp_steps. exact HQ.
  - rewrite (proj2 (Z.leb_le _ _)) by (simpl; lia). wp_steps. apply (here_deref (c :: r)); [done|].
    wp_steps. exact HQ.
Qed.

(** ** Strings *)

Context (Hws : forall c, hex_char c \/ c = chr_minus -> LocalIsWhitespace c = false).

Lemma hex_char_digit c : hex_char c -> CharToDigit 16 c = Some (digit_value 16 c) /\ 0 <= digit_value 16 c < 16.
Proof.
  intros Hc. assert (exists d, CharToDigit 16 c = Some d) as [d Hd].
  { unfold CharToDigit, hex_char, chr_0, chr_9, chr_a, chr_A in *. simpl (16 <=? 10).
    cbv iota. destruct (Z.leb_spec 48 c), (Z.leb_spec c 57); simpl; eauto;
      destruct (Z.leb_spec 97 c), (Z.ltb_spec c (97 + 16 - 10)); simpl; eauto;
      destruct (Z.leb_spec 65 c), (Z.ltb_spec c (65 + 16 - 10)); simpl; eauto; lia. }
  pose proof (CharToDigit_range 16 c d ltac:(by right) Hd). unfold digit_value. by rewrite Hd.
Qed.

Lemma hex_text_read ds :
  length ds = 4%nat -> Forall hex_char ds ->
  HexStringToInt LocalIsWhitespace ds 0 = (true, digits_value 16 0 ds) /\
  0 <= digits_value 16 0 ds < 65536.
Proof.
  intros Hl Hds. destruct ds as [|a [|b [|c [|d []]]]]; try done.
  repeat (apply Forall_cons in Hds as [? Hds]).
  destruct (hex_char_digit a) as [Ea Ra], (hex_char_digit b) as [Eb Rb],
    (hex_char_digit c) as [Ec Rc], (hex_char_digit d) as [Ed Rd]; [done..|].
  assert (Int.min Int.int32 <= 0 /\ 65536 <= Int.max Int.int32) as [] by (vm_compute; split; congruence).
  unfold digits_value. cbn [foldl]. split; [|lia].
  unfold HexStringToInt, IteratorRangeToNumber. cbn [skip_whitespace]. rewrite Hws by auto.
  assert (a <> chr_minus /\ a <> chr_plus /\ b <> chr_x /\ b <> chr_X) as (? & ? & ? & ?)
    by (unfold hex_char, chr_0, chr_9, chr_a, chr_A, chr_minus, chr_plus, chr_x, chr_X in *; lia).
  rewrite !(proj2 (Z.eqb_neq a _)) by done.
  rewrite Invoke_sign_exact by (try (by left); try (by right); done).
  unfold ref_number. rewrite bool_decide_false by done. unfold skip_0x.
  rewrite !(proj2 (Z.eqb_neq b _)) by done. rewrite andb_false_r. cbn [ref_scan].
  rewrite Ea, Eb, Ec, Ed. unfold append.
  rewrite !bool_decide_true by (unfold Int.in_range; lia). reflexivity.
Qed.

(** The bytes a builder stands for. *)
Definition content (b : StringBuilder) : list Z :=
  match sb_string b with
  | Some s => s
  | None => take (Z.to_nat (sb_length b)) (drop (Z.to_nat (sb_pos b)) mem)
  end.

Definition builds (b : StringBuilder) (i : Z) (s : list Z) : Prop := builder_at b i /\ content b = s.

Lemma here_Convert b i s (Q : StringBuilder -> Parser -> Prop) p :
  builds b i s -> i <= end_pos_ + 1 -> (forall b', sb_string b' = Some s -> Q b' p) ->
  wp (Convert mem b) Q p.
Proof.
  unfold builds, builder_at, content, Convert. intros [Hb Hs] Hi HQ. pose proof end_in_memory.
  destruct (sb_string b) as [t|] eqn:E.
  - wp_steps. apply HQ. by rewrite E, Hs.
  - wp_steps. apply wp_read_range; [lia | lia|]. wp_steps. apply HQ. simpl. by rewrite Hs.
Qed.

Lemma converted_builds b i s : sb_string b = Some s -> Forall is_byte s -> builds b i s.
Proof. unfold builds, builder_at, content. intros -> Hs. by split. Qed.

Lemma builds_bytes b i s : builds b i s -> Forall is_byte s.
Proof.
  unfold builds, builder_at, content. destruct (sb_string b); intros [H <-]; [done|].
  by apply Forall_take, Forall_drop.
Qed.

Lemma builds_append b i s c :
  builds b i s -> 0 <= i -> char_at mem i = Some c -> is_byte c ->
  builds (Append_char b c) (i + 1) (s ++ [c]).
Proof.
  intros [Hb Hs] Hi Hc Hbc. unfold builds, builder_at, content, Append_char in *.
  destruct (sb_string b) as [t|] eqn:E; simpl.
  - unfold is_byte in Hbc. subst t. rewrite uint8_small by lia. split; [|done].
    apply Forall_app. by split; [|constructor].
  - split; [lia|]. subst s. replace (Z.to_nat (sb_length b + 1)) with (S (Z.to_nat (sb_length b))) by lia.
    apply take_S_r. rewrite lookup_drop. unfold char_at in Hc.
    rewrite (proj2 (Z.leb_le _ _)) in Hc by done. rewrite <- Hc. f_equal. lia.
Qed.

Lemma simple_escape_range e c :
  simple_escape e = Some c -> 0 <= c < 128 /\ e <> 120 /\ e <> 117.
Proof. unfold simple_escape. repeat case_match; intros; simplify_eq; lia. Qed.

Lemma encode_nonzero c : scalar c -> c <> 0 -> Forall (fun b => b <> 0) (encode c).
Proof.
  intros Hc Hne. rewrite encode_exact by done. unfold scalar in Hc.
  cmp_lia; repeat constructor; lia.
Qed.

(** At the head of the loop, with [i] the next byte to read. *)
Definition at_head (p : Parser) (i : Z) : Prop := 0 <= pos_ p <= i /\ index_ p = i /\ i <= end_pos_.

Lemma decode_here i c r :
  0 <= i <= end_pos_ -> scalar c -> before i = encode c ++ r ->
  CBU8_NEXT mem i (Int.static_cast Int.int32 end_pos_) = Some (i + Z.of_nat (length (encode c)), c).
Proof.
  intros Hi Hc Hr. pose proof end_in_memory.
  rewrite Int.static_cast_id by (done || (eapply (index_fits mem end_pos_); [done..|lia])).
  by apply (CBU8_NEXT_encode mem i end_pos_ c r); [done|lia|lia|..].
Qed.

(** The head of the loop before a character. *)
Lemma string_loop_head fuel b i c r (Q : option StringBuilder -> Parser -> Prop) p :
  at_head p i -> scalar c -> IsValidCharacter c = true -> before i = encode c ++ r ->
  (forall p', pos_ p' = i -> index_ p' = i + Z.of_nat (length (encode c)) -> same_depth p p' ->
     wp (if c =? chr_backslash then
           string ← consume_escape mem end_pos_ LocalIsWhitespace b;
           match string with
           | None => mret None
           | Some string => string_loop mem end_pos_ LocalIsWhitespace fuel string
           end
         else if c =? chr_quote then
           _ ← set_index (i + Z.of_nat (length (encode c)) - 1); mret (Some b)
         else
           string ← (if c <? kExtendedASCIIStart then mret (Append_char b c) else DecodeUTF8 mem c b);
           string_loop mem end_pos_ LocalIsWhitespace fuel string) Q p') ->
  wp (string_loop mem end_pos_ LocalIsWhitespace (S fuel) b) Q p.
Proof.
  intros (Hp & Hidx & Hi) Hc Hv Hr HQ. simpl. wp_steps. apply wp_CanConsume.
  pose proof (encode_length c Hc) as Hlen.
  destruct (before_app i (encode c) r) as [_ Hle]; [lia | done|].
  rewrite (proj2 (Z.leb_le _ _)) by lia. cbn [negb]. wp_steps.
  rewrite Hidx, (decode_here i c r) by (done || lia). wp_steps.
  apply wp_set_index; [eapply (index_fits mem end_pos_); [done..|lia]|].
  rewrite Hv, (proj2 (Z.ltb_ge c 0)) by (unfold scalar in Hc; lia). cbn [negb orb].
  by apply HQ.
Qed.

(** What the loop needs to go on after a character. *)
Definition goes_on (fuel : nat) (Q : option StringBuilder -> Parser -> Prop) (p : Parser) (i : Z)
    (s : list Z) : Prop :=
  forall p' b', at_head p' i -> builds b' i s -> same_depth p p' ->
  wp (string_loop mem end_pos_ LocalIsWhitespace fuel b') Q p'.

Lemma raw_step fuel b i s c r Q p :
  json_char c -> c <> chr_quote -> c <> chr_backslash ->
  at_head p i -> before i = encode c ++ r -> builds b i s ->
  goes_on fuel Q p (i + Z.of_nat (length (encode c))) (s ++ encode c) ->
  wp (string_loop mem end_pos_ LocalIsWhitespace (S fuel) b) Q p.
Proof.
  intros (Hc & Hv & Hnz) Hq Hbs Hp Hr Hb HQ. assert (0 <= i <= end_pos_) as Hi by (destruct Hp; lia).
  destruct (before_app i (encode c) r Hi Hr) as [_ Hle].
  apply (string_loop_head fuel b i c r); [done..|]. intros p' P I D.
  rewrite !(proj2 (Z.eqb_neq c _)) by done. wp_steps.
  assert (at_head p' (i + Z.of_nat (length (encode c)))) as Hp' by (unfold at_head; lia).
  apply wp_if; intros E.
  - apply Z.ltb_lt in E. wp_steps. unfold scalar, kExtendedASCIIStart in *.
    rewrite ascii_encode in * by lia. apply HQ; [done | | done].
    pose proof (before_peek i Hi) as Hat. rewrite Hr in Hat.
    apply builds_append; [done | lia | done | unfold is_byte; lia].
  - unfold DecodeUTF8. rewrite E. wp_steps. apply (here_Convert b i s); [done | lia|].
    intros b' Hb'. wp_steps. apply HQ; [done | | done].
    apply converted_builds; [by unfold AppendString; rewrite Hb'|].
    apply Forall_app. split; [by eapply builds_bytes | by apply encode_bytes].
Qed.

(** The escape sequence after a backslash at [i]. *)
Lemma backslash_step fuel b i s r Q p :
  at_head p i -> before i = chr_backslash :: r -> builds b i s ->
  (forall p' b', pos_ p' = i -> index_ p' = i + 1 -> same_depth p p' -> sb_string b' = Some s ->
     wp (can ← CanConsume end_pos_ 1;
         if negb can then fail_with JSON_INVALID_ESCAPE 0 else
         c ← ReadNextChar mem;
         if c =? 120 then
           can ← CanConsume end_pos_ 2;
           if negb can then fail_with JSON_INVALID_ESCAPE 1 else
           pos ← NextChar;
           hex_digit ← read_hex mem LocalIsWhitespace pos 2;
           match hex_digit with
           | None => fail_with JSON_INVALID_ESCAPE (-1)
           | Some hex_digit =>
               _ ← NextChar;
               string ← (if hex_digit <? kExtendedASCIIStart then mret (Append_char b' hex_digit)
                         else DecodeUTF8 mem hex_digit b');
               mret (Some string)
           end
         else if c =? 117 then
           can ← CanConsume end_pos_ 5;
           if negb can then fail_with JSON_INVALID_ESCAPE 0 else
           _ ← NextChar;
           utf8_units ← DecodeUTF16 mem end_pos_ LocalIsWhitespace;
           match utf8_units with
           | None => fail_with JSON_INVALID_ESCAPE (-1)
           | Some utf8_units => mret (Some (AppendString b' utf8_units))
           end
         else match simple_escape c with
              | Some e => mret (Some (Append_char b' e))
              | None => fail_with JSON_INVALID_ESCAPE 0
              end)
       (fun string => wp (match string with
                          | None => mret None
                          | Some string => string_loop mem end_pos_ LocalIsWhitespace fuel string
                          end) Q) p') ->
  wp (string_loop mem end_pos_ LocalIsWhitespace (S fuel) b) Q p.
Proof.
  intros Hp Hr Hb HQ. assert (0 <= i <= end_pos_) as Hi by (destruct Hp; lia).
  apply (string_loop_head fuel b i chr_backslash r); [done | | done | exact Hr |].
  { unfold scalar, chr_backslash. lia. }
  intros p' P I D. change (chr_backslash =? chr_backslash) with true. cbv iota. wp_step.
  unfold consume_escape. wp_step. apply (here_Convert b i s); [done | lia|]. intros b' Hb'.
  apply HQ; [done | exact I | done | done].
Qed.

Lemma next_byte i c r : 0 <= i <= end_pos_ -> before i = c :: r -> i + 1 + Z.of_nat (length r) = end_pos_.
Proof. intros Hi E. pose proof (before_length i Hi) as H. rewrite E in H. simpl in H. lia. Qed.

Lemma simple_step fuel b i s e c r Q p :
  simple_escape e = Some c -> at_head p i -> before i = [chr_backslash; e] ++ r -> builds b i s ->
  goes_on fuel Q p (i + 2) (s ++ encode c) ->
  wp (string_loop mem end_pos_ LocalIsWhitespace (S fuel) b) Q p.
Proof.
  intros He Hp Hr Hb HQ. assert (0 <= i <= end_pos_) as Hi by (destruct Hp; lia).
  pose proof (next_byte _ _ _ Hi Hr) as Hle. simpl in Hle. pose proof (before_cons _ _ _ Hi Hr) as [Hr1 _].
  destruct (simple_escape_range e c He) as (Hc & Hx & Hu).
  apply (backslash_step fuel b i s (e :: r)); [done..|]. intros p' b' P I D Hb'.
  wp_steps. apply wp_CanConsume. rewrite (proj2 (Z.leb_le _ _)) by lia. cbn [negb].
  wp_steps. apply (wp_ReadNextChar mem e).
  { eapply (index_fits mem end_pos_); [done..|lia]. }
  { rewrite P, before_peek, Hr1 by lia. done. }
  rewrite !(proj2 (Z.eqb_neq e _)) by done. rewrite He. wp_steps.
  apply HQ; [unfold at_head; simpl; lia | | done]. rewrite ascii_encode by done.
  apply (converted_builds _ _ (s ++ [c])).
  - unfold Append_char. by rewrite Hb', uint8_small by lia.
  - apply Forall_app. split; [by eapply builds_bytes|]. constructor; [unfold is_byte; lia | done].
Qed.

Lemma wp_read_hex pos ds v (Q : option Z -> Parser -> Prop) p :
  0 <= pos <= end_pos_ -> (exists r, before pos = ds ++ r) ->
  HexStringToInt LocalIsWhitespace ds 0 = (true, v) -> Q (Some v) p ->
  wp (read_hex mem LocalIsWhitespace pos (length ds)) Q p.
Proof.
  intros Hpos [r Hr] Hv HQ. destruct (before_app _ _ _ Hpos Hr) as [_ Hle].
  pose proof end_in_memory. unfold read_hex. wp_steps. apply wp_read_range; [lia|lia|].
  assert (take (length ds) (drop (Z.to_nat pos) mem) = ds) as ->.
  { unfold window in Hr. apply (f_equal (take (length ds))) in Hr.
    rewrite take_take, take_app_length in Hr. rewrite <- Hr at 2. f_equal. lia. }
  rewrite Hv. by wp_steps.
Qed.

Lemma hex_step fuel b i s ds r Q p :
  length ds = 4%nat -> Forall hex_char ds -> scalar (digits_value 16 0 ds) ->
  digits_value 16 0 ds <> 0 ->
  at_head p i -> before i = (chr_backslash :: 117 :: ds) ++ r -> builds b i s ->
  goes_on fuel Q p (i + 6) (s ++ encode (digits_value 16 0 ds)) ->
  wp (string_loop mem end_pos_ LocalIsWhitespace (S fuel) b) Q p.
Proof.
  intros Hl Hds Hsc Hnz Hp Hr Hb HQ. assert (0 <= i <= end_pos_) as Hi by (destruct Hp; lia).
  pose proof (next_byte _ _ _ Hi Hr) as Hle. simpl in Hle. rewrite length_app, Hl in Hle.
  pose proof (before_cons _ _ _ Hi Hr) as [Hr1 _].
  destruct (before_cons (i + 1) 117 (ds ++ r)) as [Hr2 _]; [lia | done|].
  destruct (hex_text_read ds Hl Hds) as [Hv Hrange]. set (h := digits_value 16 0 ds) in *.
  apply (backslash_step fuel b i s (117 :: ds ++ r)); [done..|]. intros p' b' P I D Hb'.
  wp_steps. apply wp_CanConsume. rewrite (proj2 (Z.leb_le _ _)) by lia. cbn [negb].
  wp_steps. apply (wp_ReadNextChar mem 117).
  { eapply (index_fits mem end_pos_); [done..|lia]. }
  { rewrite P, before_peek, Hr1 by lia. done. }
  cbv [Z.eqb Pos.eqb]. wp_steps. apply wp_CanConsume. simpl pos_.
  rewrite (proj2 (Z.leb_le _ _)) by lia. cbn [negb]. wp_steps.
  apply wp_NextChar; [eapply (index_fits mem end_pos_); [done..|simpl; lia]|].
  wp_steps. unfold DecodeUTF16. wp_steps. apply wp_CanConsume. simpl pos_.
  rewrite (proj2 (Z.leb_le _ _)) by lia. cbn [negb]. wp_steps. rewrite <- Hl. simpl pos_.
  apply (wp_read_hex _ ds h); [lia | | done |].
  { exists r. rewrite <- Hr2. f_equal. lia. }
  wp_steps. apply wp_NextNChars; [eapply (index_fits mem end_pos_); [done..|simpl; lia]|].
  rewrite surrogate_exact by lia.
  rewrite (proj2 (andb_false_iff _ _)) by (rewrite !Z.leb_gt; unfold scalar in Hsc; lia).
  wp_steps. apply HQ; [unfold at_head; simpl; lia | | done].
  apply converted_builds.
  - unfold AppendString. rewrite Hb'. simpl. fold (encode h).
    by rewrite c_string_id by (by apply encode_nonzero).
  - apply Forall_app. split; [by eapply builds_bytes | by apply encode_bytes].
Qed.

Lemma char_step fuel b i s c t r Q p :
  char_text c t -> at_head p i -> before i = t ++ r -> builds b i s ->
  goes_on fuel Q p (i + Z.of_nat (length t)) (s ++ encode c) ->
  wp (string_loop mem end_pos_ LocalIsWhitespace (S fuel) b) Q p.
Proof.
  intros [c' Hc Hge Hq Hbs | e c' He | ds Hl Hds Hsc Hnz] Hp Hr Hb HQ.
  - by eapply raw_step.
  - by eapply simple_step.
  - eapply hex_step; [done..|]. simpl length in HQ. by rewrite Hl in HQ.
Qed.

Definition raw_text (s r : list Z) (p : Parser) (a : option StringBuilder) (p' : Parser) : Prop :=
  exists b, a = Some b /\ here p' (chr_quote :: r) /\ builds b (pos_ p') s /\ same_depth p p'.

Lemma string_loop_text fuel b i s cs ts r p :
  Forall2 char_text cs ts -> at_head p i -> before i = concat ts ++ chr_quote :: r ->
  builds b i s -> (length cs < fuel)%nat ->
  wp (string_loop mem end_pos_ LocalIsWhitespace fuel b) (raw_text (s ++ text UTF8 cs) r p) p.
Proof.
  intros Hts. revert fuel b i s p. induction Hts as [|c t cs ts Ht Hts IH];
    intros fuel b i s p Hp Hr Hb Hf; (destruct fuel as [|fuel]; [simpl in Hf; lia|]);
    assert (0 <= i <= end_pos_) as Hi by (destruct Hp; lia).
  - simpl in Hr. apply (string_loop_head fuel b i chr_quote r); [done | | done | exact Hr |].
    { unfold scalar, chr_quote. lia. }
    intros p' P I D. change (chr_quote =? chr_backslash) with false.
    change (chr_quote =? chr_quote) with true. cbv iota. wp_steps.
    change (Z.of_nat (length (encode chr_quote))) with 1. rewrite Z.add_simpl_r.
    apply wp_set_index; [eapply (index_fits mem end_pos_); [done..|lia]|]. wp_steps.
    exists b. split; [done|]. unfold here, at_token. simpl.
    rewrite P, app_nil_r. split_and!; try lia; try done; try apply Hb.
  - simpl in Hr, Hf. rewrite <- app_assoc in Hr.
    destruct (before_app i t _ Hi Hr) as [Hr' Hle].
    apply (char_step fuel b i s c t (concat ts ++ chr_quote :: r)); [done..|].
    intros p1 b1 Hp1 Hb1 D1. rewrite text_cons, app_assoc.
    eapply wp_mono; [apply (IH fuel b1 (i + Z.of_nat (length t))); [done..|lia]|].
    intros a p2 (b2 & -> & H2 & Hb2 & D2). exists b2. unfold same_depth in *.
    split_and!; [done..|congruence].
Qed.

Lemma char_text_length c t : char_text c t -> (1 <= length t)%nat.
Proof.
  intros [c' (Hc & _) _ _ _ | |]; [|simpl; lia..]. pose proof (encode_length c' Hc). lia.
Qed.

Lemma chars_length cs ts : Forall2 char_text cs ts -> (length cs <= length (concat ts))%nat.
Proof.
  induction 1 as [|c t cs ts Ht Hts IH]; simpl; [done|].
  apply char_text_length in Ht. rewrite length_app. lia.
Qed.

Lemma ConsumeStringRaw_text cs s r p :
  string_text cs s -> here p (s ++ r) ->
  wp (ConsumeStringRaw mem end_pos_ LocalIsWhitespace) (raw_text (text UTF8 cs) r p) p.
Proof.
  intros (ts & Hts & ->) H. simpl in H. rewrite <- app_assoc in H. simpl in H.
  unfold ConsumeStringRaw. wp_steps. apply (here_deref _ _ _ H). simpl peek.
  apply wp_if; intros E; [done|]. wp_steps.
  eapply here_NextChar; [done|]. intros q Hq D Pq. wp_steps. apply wp_bytes_left.
  pose proof (here_length _ _ Hq) as Hl. rewrite length_app in Hl.
  pose proof (chars_length cs ts Hts) as Hcs.
  destruct Hq as [[R I] Eq].
  eapply wp_mono; [apply (string_loop_text _ _ (pos_ q) [] cs ts r)|].
  - done.
  - unfold at_head. lia.
  - done.
  - rewrite <- Pq. split; [unfold builder_at; simpl; lia | done].
  - lia.
  - intros a p' (b & -> & H' & Hb & D'). exists b. unfold same_depth in *. split_and!; [done..|congruence].
Qed.

Definition read_value (v : Value) (r : list Z) (p : Parser) (a : option Value) (p' : Parser) : Prop :=
  same_depth p p' /\ (exists c, solid c /\ here p' (c :: r)) /\
  exists v', a = Some v' /\ copy_of (input_store mem end_pos_ text_id) v' v.

Lemma piece_copy b i s :
  sb_string b = None -> builds b i s -> i <= end_pos_ ->
  copy_of (input_store mem end_pos_ text_id) (JSONStringValue (AsStringPiece text_id b)) (StringValue s).
Proof.
  unfold builds, builder_at, content. intros -> [Hb <-] Hi. pose proof end_in_memory.
  apply copy_piece. unfold piece_bytes, AsStringPiece. cbn [buffer ptr_ length_].
  assert (input_store mem end_pos_ text_id !! text_id = Some (take (Z.to_nat end_pos_) mem)) as ->
    by apply lookup_singleton_eq.
  cbn [mbind option_bind]. rewrite option_guard_True by (rewrite length_take; lia).
  cbn [mbind option_bind]. f_equal. rewrite !take_drop_commute, take_take.
  do 2 f_equal. lia.
Qed.

Lemma here_AsString b i s (Q : list Z -> Parser -> Prop) p :
  builds b i s -> i <= end_pos_ + 1 -> Q s p -> wp (AsString mem b) Q p.
Proof.
  intros Hb Hi HQ. unfold AsString. wp_steps. apply (here_Convert b i s); [done..|].
  intros b' Hb'. wp_steps. by rewrite Hb'.
Qed.

Lemma quote_solid : solid chr_quote.
Proof. unfold solid, blank_char, chr_quote, chr_space, chr_tab, chr_newline, chr_return, chr_slash. lia. Qed.

Lemma ConsumeString_text cs s r p :
  string_text cs s -> here p (s ++ r) ->
  wp (ConsumeString mem end_pos_ options text_id LocalIsWhitespace)
    (read_value (StringValue (text UTF8 cs)) r p) p.
Proof.
  intros Hs H. unfold ConsumeString. wp_steps.
  eapply wp_mono; [by eapply ConsumeStringRaw_text|]. intros a q (b & -> & Hq & Hb & D).
  pose proof Hq as [[Rq _] _]. apply wp_if; intros E.
  - apply andb_true_iff in E as [E _]. unfold CanBeStringPiece in E.
    destruct (sb_string b) eqn:Es; [done|]. wp_steps. split; [done|].
    split; [by exists chr_quote; split; [apply quote_solid|]|]. eexists. split; [done|].
    eapply piece_copy; [done..|lia].
  - wp_steps. apply (here_AsString b (pos_ q) (text UTF8 cs)); [done|lia|]. wp_steps.
    split; [done|]. split; [by exists chr_quote; split; [apply quote_solid|]|].
    eexists. split; [done|]. by apply copy_leaf.
Qed.

(** ** Numbers *)

Definition digit (c : Z) : Prop := chr_0 <= c <= chr_9.

Lemma digit_exact c : IsAsciiDigit c = true <-> digit c.
Proof. unfold IsAsciiDigit, digit. by rewrite andb_true_iff, !Z.leb_le. Qed.

Lemma digit_loop_text fuel ds r len p :
  decimal ds -> here p (ds ++ r) -> ~ digit (peek r) -> (length ds < fuel)%nat ->
  wp (digit_loop mem end_pos_ fuel (peek (ds ++ r)) len)
    (fun n p' => n = len + Z.of_nat (length ds) /\ here p' r /\ same_depth p p') p.
Proof.
  intros Hds. revert fuel len p. induction Hds as [|c ds Hc Hds IH]; intros fuel len p H Hr Hf;
    (destruct fuel as [|fuel]; [simpl in Hf; lia|]); simpl digit_loop; wp_steps;
    (eapply here_can; [done|]).
  - simpl. destruct (IsAsciiDigit (peek r)) eqn:E; [by apply digit_exact in E|].
    rewrite andb_false_r. wp_steps. by split; [lia|].
  - simpl in H. rewrite (proj2 (Z.leb_le _ _)) by (simpl; lia).
    change (peek (c :: ds ++ r)) with c. rewrite (proj2 (digit_exact c)) by done. cbn [andb]. wp_steps.
    eapply here_ReadNextChar; [done|]. intros q Hq D.
    eapply wp_mono; [apply IH; [done | done | simpl in Hf; lia]|].
    intros n p' (-> & H' & D'). split; [simpl; lia|]. split; [done|]. unfold same_depth in *; congruence.
Qed.

Lemma ReadInt_text allow ds r p :
  digits ds -> (allow = true \/ int_text ds) -> here p (ds ++ r) -> ~ digit (peek r) ->
  wp (ReadInt mem end_pos_ allow) (fun ok p' => ok = true /\ here p' r /\ same_depth p p') p.
Proof.
  intros [Hds Hne] Hint H Hr. unfold ReadInt. wp_steps. eapply here_deref; [done|]. wp_steps.
  apply wp_bytes_left. wp_steps. pose proof (here_length _ _ H) as Hl. rewrite length_app in Hl.
  eapply wp_mono; [apply digit_loop_text; [done | done | done | lia]|].
  intros n q (-> & Hq & D). wp_steps. split; [|done].
  destruct ds as [|c ds]; [done|]. rewrite (proj2 (Z.eqb_neq _ _)) by (simpl; lia).
  destruct Hint as [-> | [_ Hz]]; [done|].
  change (peek ((c :: ds) ++ r)) with c. destruct (Z.eqb_spec c chr_0) as [->|]; [|by rewrite andb_false_r].
  rewrite (Hz ds eq_refl). simpl. by rewrite andb_false_r.
Qed.

(** What may come after a number. *)
Definition number_end (r : list Z) : Prop :=
  ~ digit (peek r) /\ peek r <> chr_point /\ peek r <> chr_e /\ peek r <> chr_E.

Definition part_read (r : list Z) (p : Parser) (a : option Z) (p' : Parser) : Prop :=
  a = Some (pos_ p') /\ here p' r /\ same_depth p p'.

Lemma read_digits_text ds r p q :
  digits ds -> here q (ds ++ r) -> same_depth p q -> ~ digit (peek r) ->
  wp (ReadInt mem end_pos_ true)
    (fun ok => wp (if negb ok then fail_with JSON_SYNTAX_ERROR 1
                   else index ← get index_; mret (Some index)) (part_read r p)) q.
Proof.
  intros Hds H D Hr. eapply wp_mono; [eapply ReadInt_text; [done | by left | done | done]|].
  intros ok p' (-> & H' & D'). cbn [negb]. wp_steps.
  pose proof H' as [[_ I] _]. split; [by rewrite I|]. split; [done|].
  unfold same_depth in *; congruence.
Qed.

Lemma read_fraction_text f r p :
  frac_text f -> here p (f ++ r) -> ~ digit (peek r) -> peek r <> chr_point ->
  wp (read_fraction mem end_pos_ (pos_ p)) (part_read r p) p.
Proof.
  intros Hf H Hd Hp. unfold read_fraction. wp_steps. eapply here_deref; [done|].
  destruct Hf as [-> | (ds & Hds & ->)].
  - simpl. rewrite (proj2 (Z.eqb_neq _ _)) by done. wp_steps. by split.
  - simpl in *. change (chr_point =? chr_point) with true. wp_steps. eapply here_can; [done|].
    rewrite (proj2 (Z.leb_le _ _)) by (simpl; lia). cbn [negb]. wp_steps.
    eapply here_NextChar; [done|]. intros q Hq D Pq. wp_steps. by apply (read_digits_text ds).
Qed.

Lemma digit_not_sign c : digit c -> (c =? chr_minus) || (c =? chr_plus) = false.
Proof.
  unfold digit, chr_0, chr_9, chr_minus, chr_plus. intros Hc.
  apply orb_false_iff. rewrite !Z.eqb_neq. lia.
Qed.

Lemma read_exponent_text e r p :
  exp_text e -> here p (e ++ r) -> number_end r ->
  wp (read_exponent mem end_pos_ (pos_ p)) (part_read r p) p.
Proof.
  intros He H (Hd & Hp & Hr1 & Hr2). unfold read_exponent. wp_steps. eapply here_deref; [done|].
  destruct He as [-> | (c & sign & ds & Hc & Hsign & Hds & ->)].
  - simpl. rewrite !(proj2 (Z.eqb_neq _ _)) by done. wp_steps. by split.
  - simpl in *. apply wp_if; intros E; [|apply orb_false_iff in E; rewrite !Z.eqb_neq in E; tauto].
    rewrite <- app_assoc in H. wp_steps. eapply here_NextChar; [done|]. intros q Hq D Pq. wp_steps.
    eapply here_deref; [done|]. wp_step.
    destruct Hsign as [-> | Hsign].
    + simpl in *. destruct ds as [|d ds]; [by destruct Hds|]. destruct Hds as [Hds Hne].
      change (peek ((d :: ds) ++ r)) with d. rewrite digit_not_sign by (by apply Forall_cons in Hds as [? _]).
      wp_steps. by apply (read_digits_text (d :: ds)).
    + assert (exists d, sign = [d] /\ ((d =? chr_minus) || (d =? chr_plus) = true)) as (d & -> & Ed)
        by (destruct Hsign as [-> | ->]; by eexists).
      simpl app in *. change (peek (d :: ds ++ r)) with d. rewrite Ed. eapply here_NextChar; [done|]. intros q2 Hq2 D2 _.
      wp_steps. apply (read_digits_text ds); [done | done | unfold same_depth in *; congruence | done].
Qed.

(** What may come after a value: white space and a token that ends one. *)
Definition delimited (r : list Z) : Prop :=
  exists w r', blank w /\ r = w ++ r' /\
    (r' = [] \/ exists c r'', r' = c :: r'' /\ (c = chr_comma \/ c = chr_rbracket \/ c = chr_rbrace)).

Ltac chars := unfold solid, digit, blank_char, chr_0, chr_9, chr_minus, chr_plus, chr_point, chr_e,
  chr_E, chr_space, chr_tab, chr_newline, chr_return, chr_slash, chr_comma, chr_colon, chr_lbracket,
  chr_rbracket, chr_lbrace, chr_rbrace, chr_quote in *.

Lemma delimited_end r : delimited r -> number_end r.
Proof.
  intros (w & r' & Hw & -> & Hr). unfold number_end, peek. destruct Hw as [|c w Hc _].
  - simpl. destruct Hr as [-> | (c & r'' & -> & Hc)]; simpl; chars; lia.
  - simpl. chars. lia.
Qed.

Lemma number_last s :
  number_text s -> exists s' c, s = s' ++ [c] /\ digit c.
Proof.
  assert (forall ds, digits ds -> exists s' c, ds = s' ++ [c] /\ digit c) as Hds.
  { intros ds [Hds Hne]. destruct ds as [|c ds] using rev_ind; [done|]. exists ds, c.
    split; [done|]. apply Forall_app in Hds as [_ Hds]. by apply Forall_cons in Hds as [? _]. }
  intros (sign & int & frac & exp & _ & [Hint _] & Hfrac & Hexp & ->).
  destruct Hexp as [-> | (e & sg & ds & _ & _ & (s' & c & -> & Hc)%Hds & ->)].
  - destruct Hfrac as [-> | (ds & (s' & c & -> & Hc)%Hds & ->)].
    + apply Hds in Hint as (s' & c & -> & Hc). exists (sign ++ s'), c.
      by rewrite !app_nil_r, app_assoc.
    + exists (sign ++ int ++ chr_point :: s'), c. rewrite app_nil_r, <- !app_assoc. by simpl.
  - exists (sign ++ int ++ frac ++ e :: sg ++ s'), c. split; [|done].
    rewrite <- !app_assoc. simpl. by rewrite <- !app_assoc.
Qed.

Lemma finish_number_text s v r p q :
  number_text s -> number_value LocalIsWhitespace StringToDouble s = Some v ->
  here p (s ++ r) -> here q r -> same_depth p q -> delimited r ->
  wp (finish_number mem end_pos_ LocalIsWhitespace StringToDouble (pos_ p)
        (Z.of_nat (length s))) (read_value v r p) q.
Proof.
  intros Hs Hv Hp Hq D (w & r' & Hw & -> & Hr). unfold finish_number. wp_steps.
  pose proof (here_length _ _ Hp) as Lp. pose proof (here_length _ _ Hq) as Lq.
  rewrite length_app in Lp. pose proof end_in_memory. pose proof Hp as [[Rp _] Ep].
  apply (here_token w r'); [done | done | |].
  { destruct Hr as [-> | (c & r'' & -> & Hc)]; [by left|]. right. unfold peek. simpl. chars. lia. }
  intros q' Hq' D'.
  set (t := next_token r').
  assert (t = T_END_OF_INPUT \/ t = T_LIST_SEPARATOR \/ t = T_ARRAY_END \/ t = T_OBJECT_END) as Ht.
  { unfold t. destruct Hr as [-> | (c & r'' & -> & [-> | [-> | ->]])]; simpl; auto. }
  clearbody t.
  assert (wp (num_string ← read_range mem (pos_ p) (Z.to_nat (Z.of_nat (length s)));
      let '(is_int, num_int) := StringToInt LocalIsWhitespace num_string 0 in
      mret (if is_int : bool then Some (IntegerValue num_int)
            else match StringToDouble num_string with
                 | Some num_double =>
                     if IsFinite num_double then Some (FundamentalValue_double num_double) else None
                 | None => None
                 end)) (read_value v (w ++ r') p) (set_index_field (index_ q - 1) (set_pos (pos_ q - 1) q')))
    as Hread.
  { wp_steps. apply wp_read_range; [lia | lia|]. rewrite Nat2Z.id.
    assert (take (length s) (drop (Z.to_nat (pos_ p)) mem) = s) as ->.
    { apply (f_equal (take (length s))) in Ep. unfold window in Ep.
      rewrite take_take, take_app_length in Ep. rewrite <- Ep at 2. f_equal. lia. }
    unfold number_value in Hv. destruct (StringToInt _ _ _) as [is_int z]. wp_steps.
    split; [unfold same_depth in *; simpl; congruence|]. split.
    { destruct (number_last s Hs) as (s' & c & -> & Hc). exists c. split; [chars; lia|].
      rewrite <- app_assoc in Ep. destruct (before_app _ _ _ Rp Ep) as [E' _].
      rewrite length_app in Lp. simpl in Lp. pose proof Hq as [[Rq Iq] _].
      unfold here, at_token. simpl. split; [lia|].
      etrans; [|exact E']. f_equal. lia. }
    destruct is_int; [injection Hv as <-; eexists; split; [done | by apply copy_leaf]|].
    destruct (StringToDouble s) as [x|]; [|done]. destruct (IsFinite x) eqn:Ex; [|done].
    injection Hv as <-. unfold FundamentalValue_double. rewrite Ex.
    eexists. split; [done | by apply copy_leaf]. }
  destruct Ht as [-> | [-> | [-> | ->]]]; cbv iota; do 4 wp_step; exact Hread.
Qed.

Lemma part_end r : number_end r -> ~ digit (peek r).
Proof. by intros (? & _). Qed.

Lemma exp_end exp r : exp_text exp -> number_end r -> ~ digit (peek (exp ++ r)) /\ peek (exp ++ r) <> chr_point.
Proof.
  intros [-> | (e & sg & ds & He & _ & _ & ->)] (Hd & Hp & _); [done|].
  unfold peek. simpl. chars. destruct He as [-> | ->]; lia.
Qed.

Lemma frac_end frac r : frac_text frac -> ~ digit (peek r) -> ~ digit (peek (frac ++ r)).
Proof. intros [-> | (ds & _ & ->)] Hr; [done|]. unfold peek. simpl. chars. lia. Qed.

Lemma here_sign sign ds r (Q : Z -> Parser -> Prop) p :
  sign_text sign -> digits ds -> here p (sign ++ ds ++ r) ->
  (forall z p', here p' (ds ++ r) -> same_depth p p' -> Q z p') ->
  wp (if peek (sign ++ ds ++ r) =? chr_minus then NextChar else get pos_) Q p.
Proof.
  intros [-> | ->] [Hds Hne] H HQ.
  - simpl in *. destruct ds as [|d ds]; [done|]. apply Forall_cons in Hds as [Hd _].
    change (peek ((d :: ds) ++ r)) with d.
    rewrite (proj2 (Z.eqb_neq d chr_minus)) by (unfold chr_minus, chr_0 in *; lia).
    wp_steps. by apply HQ.
  - change (peek ([chr_minus] ++ ds ++ r)) with chr_minus.
    change (chr_minus =? chr_minus) with true. cbv iota. eapply here_NextChar; [done|].
    intros q Hq D _. by apply HQ.
Qed.

Lemma ConsumeNumber_text s v r p :
  number_text s -> number_value LocalIsWhitespace StringToDouble s = Some v ->
  here p (s ++ r) -> delimited r ->
  wp (ConsumeNumber mem end_pos_ LocalIsWhitespace StringToDouble) (read_value v r p) p.
Proof.
  intros Hs Hv H Hr. pose proof Hs as (sign & int & frac & exp & Hsign & Hint & Hfrac & Hexp & Es).
  pose proof (delimited_end r Hr) as Hend'. pose proof H as [[_ Ip] _].
  assert (here p (sign ++ int ++ frac ++ exp ++ r)) as H0 by (by rewrite Es, <- !app_assoc in H).
  destruct (exp_end exp r Hexp Hend') as [Hexp1 Hexp2].
  pose proof (frac_end frac _ Hfrac Hexp1) as Hfrac1.
  unfold ConsumeNumber. wp_steps. eapply here_deref; [exact H0|]. wp_step.
  eapply here_sign; [done | apply Hint | done|]. intros z q1 H1 D1. wp_steps.
  eapply wp_mono; [eapply ReadInt_text; [apply Hint | by right | done | done]|].
  intros ok q2 (-> & H2 & D2). cbn [negb]. wp_steps. pose proof H2 as [[_ ->] _].
  eapply wp_mono; [eapply read_fraction_text; done|]. intros a q3 (-> & H3 & D3). wp_steps.
  eapply wp_mono; [eapply read_exponent_text; done|]. intros a q4 (-> & H4 & D4).
  pose proof (here_length _ _ H) as L. pose proof (here_length _ _ H4) as L4.
  rewrite length_app in L. rewrite Ip. replace (pos_ q4 - pos_ p) with (Z.of_nat (length s)) by lia.
  apply finish_number_text; try done. unfold same_depth in *; congruence.
Qed.

(** ** Literals *)

Lemma StringsAreEqual_text pos s (Q : bool -> Parser -> Prop) p :
  0 <= pos <= end_pos_ -> (exists r, before pos = s ++ r) -> Q true p ->
  wp (StringsAreEqual mem pos s) Q p.
Proof.
  revert pos. induction s as [|c s IH]; intros pos Hpos [r Hr] HQ; simpl; [by wp_steps|].
  destruct (before_cons _ _ _ Hpos Hr) as [Hr' Hle]. wp_steps. apply (wp_read mem _ c).
  { by rewrite before_peek, Hr by done. }
  rewrite Z.eqb_refl. apply IH; [lia | by exists r | done].
Qed.

Lemma consume_literal_text s c v r p :
  here p ((s ++ [c]) ++ r) -> solid c ->
  (match v with JSONStringValue _ | DictionaryValue _ | ListValue _ => False | _ => True end) ->
  wp (consume_literal mem end_pos_ (s ++ [c]) v) (read_value v r p) p.
Proof.
  intros H Hc Hv. pose proof H as [[Rp _] Ep]. unfold consume_literal. wp_steps.
  eapply here_can; [exact H|]. rewrite !length_app. simpl length.
  rewrite (proj2 (Z.leb_le _ _)) by lia. cbn [negb]. wp_steps.
  apply StringsAreEqual_text; [done | by eexists |]. cbn [negb]. wp_steps.
  replace (Z.of_nat (length s + 1) - 1) with (Z.of_nat (length s)) by lia.
  rewrite <- app_assoc in H. eapply here_NextNChars; [exact H|]. intros q Hq D _. wp_steps.
  split; [done|]. split; [by exists c|]. exists v. split; [done | by apply copy_leaf].
Qed.

Lemma ConsumeLiteral_text v s r p :
  (v = NullValue /\ s = text_null) \/ (v = BooleanValue true /\ s = text_true) \/
  (v = BooleanValue false /\ s = text_false) ->
  here p (s ++ r) -> wp (ConsumeLiteral mem end_pos_) (read_value v r p) p.
Proof.
  intros Hs H. unfold ConsumeLiteral. wp_steps. eapply here_deref; [exact H|].
  destruct Hs as [[-> ->] | [[-> ->] | [-> ->]]]; simpl (_ =? _); cbv iota.
  - apply (consume_literal_text [110; 117; 108] 108); [exact H | chars; lia | done].
  - apply (consume_literal_text [116; 114; 117] 101); [exact H | chars; lia | done].
  - apply (consume_literal_text [102; 97; 108; 115] 101); [exact H | chars; lia | done].
Qed.

#[local] Abbreviation json := (json_text LocalIsWhitespace StringToDouble).
#[local] Abbreviation parse_token := (ParseToken mem end_pos_ options text_id LocalIsWhitespace StringToDouble).

(** The first byte of a value. *)
Definition starts (s : list Z) : Prop :=
  exists c s', s = c :: s' /\ (solid c /\ c < 128) /\ token_of c <> T_ARRAY_END /\ token_of c <> T_OBJECT_END.

Lemma number_starts s : number_text s -> exists c s', s = c :: s' /\ (digit c \/ c = chr_minus).
Proof.
  intros (sign & int & frac & exp & [-> | ->] & [[Hint Hne] _] & _ & _ & ->); simpl; [|eauto].
  destruct int as [|c int]; [done|]. apply Forall_cons in Hint as [Hc _]. simpl. eauto.
Qed.

Lemma digit_token c : digit c \/ c = chr_minus -> token_of c = T_NUMBER.
Proof.
  intros Hc. unfold token_of. chars.
  rewrite !(proj2 (Z.eqb_neq c _)) by lia. destruct Hc as [Hc | ->]; [|done].
  by rewrite (proj2 (digit_exact c)) by (by chars).
Qed.

Lemma starts_value n v s : json n v s -> starts s.
Proof.
  assert (forall c s', (solid c /\ c < 128) -> token_of c <> T_ARRAY_END -> token_of c <> T_OBJECT_END ->
    starts (c :: s')) as Hc by (intros c s' ???; by exists c, s').
  assert (leaf_text LocalIsWhitespace StringToDouble v s -> starts s) as Hleaf.
  { intros [[_ ->] | [[_ ->] | [[_ ->] | [(cs & _ & ts & _ & ->) | [Hn _]]]]];
      try (by apply Hc; [chars; lia|..]).
    destruct (number_starts s Hn) as (c & s' & -> & Hd). apply Hc; [chars; lia|..];
      by rewrite digit_token. }
  destruct n as [|n]; simpl; [by intros [|]; auto|].
  intros [H | [(_ & w & _ & ->) | [(l & w & r & _ & _ & _ & ->) | [(_ & w & _ & ->) |
    (es & w & r & _ & _ & _ & ->)]]]]; [by auto | by apply Hc; [chars; lia|..] ..].
Qed.

(** ** Containers *)

Lemma starts_app s r : starts s -> starts (s ++ r).
Proof. intros (c & s' & -> & ?). by exists c, (s' ++ r). Qed.

Lemma starts_solid s : starts s -> solid (peek s).
Proof. by intros (c & s' & -> & [? _] & _). Qed.

Lemma after_comma end_token adjust c w w' b p :
  end_token = T_ARRAY_END \/ end_token = T_OBJECT_END -> starts b ->
  here p (c :: w ++ chr_comma :: w' ++ b) -> blank w -> blank w' ->
  wp (after_member mem end_pos_ options end_token adjust)
    (fun a p' => a = Some (next_token b) /\ here p' b /\ same_depth p p') p.
Proof.
  intros He Hb H Hw Hw'. unfold after_member. wp_steps. eapply here_NextChar; [done|].
  intros q Hq D _. wp_steps. eapply here_token; [exact Hq | done | |].
  { right. unfold peek. simpl. chars. lia. }
  intros q2 H2 D2. change (next_token (chr_comma :: w' ++ b)) with T_LIST_SEPARATOR.
  rewrite bool_decide_true by done. wp_steps. eapply here_NextChar; [done|].
  intros q3 H3 D3 _. wp_steps. eapply here_token; [exact H3 | done | by right; apply starts_solid |].
  intros q4 H4 D4. destruct Hb as (d & b' & -> & Hd & Ha & Ho). simpl.
  rewrite bool_decide_false by naive_solver. cbn [andb]. wp_steps.
  split; [done|]. split; [done|]. unfold same_depth in *; congruence.
Qed.

Lemma after_close end_token adjust c w x r p :
  token_of x = end_token -> end_token <> T_LIST_SEPARATOR -> solid x ->
  here p (c :: w ++ x :: r) -> blank w ->
  wp (after_member mem end_pos_ options end_token adjust)
    (fun a p' => a = Some end_token /\ here p' (x :: r) /\ same_depth p p') p.
Proof.
  intros <- Hne Hx H Hw. unfold after_member. wp_steps. eapply here_NextChar; [done|].
  intros q Hq D _. wp_steps. eapply here_token; [exact Hq | done | by right |].
  intros q2 H2 D2. simpl.
  rewrite bool_decide_false, bool_decide_true by done. wp_steps.
  split; [done|]. split; [done|]. unfold same_depth in *; congruence.
Qed.

Definition copies (d e : ValueMap) : Prop :=
  Forall2 (fun a b => a.1 = b.1 /\ copy_of (input_store mem end_pos_ text_id) a.2 b.2) d e.

Lemma copies_set d e k v c :
  copies d e -> copy_of (input_store mem end_pos_ text_id) v c ->
  copies (map_set d k v) (map_set e k c).
Proof.
  intros He Hv. induction He as [|[l a] [l' b] d e [Hk Hab] He IH]; simpl in *.
  { by repeat constructor. }
  subst l'. case_bool_decide; [by repeat constructor|].
  destruct (key_lt k l); by repeat constructor.
Qed.

Lemma delimited_intro w c r :
  blank w -> c = chr_comma \/ c = chr_rbracket \/ c = chr_rbrace -> delimited (w ++ c :: r).
Proof. intros Hw Hc. exists w, (c :: r). eauto 10. Qed.

Lemma delimited_blank w : blank w -> delimited w.
Proof. intros Hw. exists w, []. rewrite app_nil_r. auto. Qed.

Lemma starts_token b : starts b -> next_token b <> T_ARRAY_END /\ next_token b <> T_OBJECT_END.
Proof. by intros (c & s' & -> & _ & ? & ?). Qed.

Section Containers.
Context (n : nat) (parse : Token -> M (option Value)) (depth : Z).
Context (Hparse : forall v s r p, json n v s -> here p (s ++ r) -> delimited r ->
  stack_depth_ p = depth -> wp (parse (next_token (s ++ r))) (read_value v r p) p).

Lemma list_loop_end fuel acc' acc r p :
  Forall2 (copy_of (input_store mem end_pos_ text_id)) acc' acc ->
  here p (chr_rbracket :: r) ->
  wp (list_loop mem end_pos_ options parse (S fuel) acc' T_ARRAY_END)
    (read_value (ListValue acc) r p) p.
Proof.
  intros Hacc H. simpl. wp_steps. split; [done|].
  split; [exists chr_rbracket; split; [chars; lia | done]|].
  eexists. split; [done | by apply copy_list].
Qed.

(** An item, up to what is after it. *)
Lemma list_loop_item fuel acc' acc v s r p (Q : option Value -> Parser -> Prop) :
  json n v s -> here p (s ++ r) -> delimited r -> stack_depth_ p = depth ->
  Forall2 (copy_of (input_store mem end_pos_ text_id)) acc' acc ->
  (forall c item p', here p' (c :: r) -> same_depth p p' ->
     Forall2 (copy_of (input_store mem end_pos_ text_id)) (acc' ++ [item]) (acc ++ [v]) ->
     wp (token ← after_member mem end_pos_ options T_ARRAY_END 1;
         match token with
         | None => mret None
         | Some token => list_loop mem end_pos_ options parse fuel (Append acc' item) token
         end) Q p') ->
  wp (list_loop mem end_pos_ options parse (S fuel) acc' (next_token (s ++ r))) Q p.
Proof.
  intros Hs H Hr Hd Hacc HQ. simpl.
  destruct (starts_token (s ++ r)) as [Ha _]; [by eapply starts_app, starts_value|].
  rewrite bool_decide_false by done. wp_step. eapply wp_mono; [by apply Hparse|].
  intros a q (D & (c & _ & Hq) & item & -> & Hitem). apply (HQ c item q); [done..|].
  apply Forall2_app; [done | by constructor].
Qed.

Lemma list_loop_text l b :
  items_text (json n) l b -> forall fuel acc' acc r p,
  Forall2 (copy_of (input_store mem end_pos_ text_id)) acc' acc ->
  here p (b ++ r) -> stack_depth_ p = depth -> (length l < fuel)%nat ->
  wp (list_loop mem end_pos_ options parse fuel acc' (next_token (b ++ r)))
    (read_value (ListValue (acc ++ l)) r p) p.
Proof.
  induction 1 as [v s w Hv Hw | v s w w' l b Hv Hw Hw' Hl IH]; intros fuel acc' acc r p Hacc H Hd Hf;
    (destruct fuel as [|fuel]; [simpl in Hf; lia|]).
  - rewrite <- !app_assoc in *. simpl in *. eapply list_loop_item; [done | done | | done..|].
    { apply delimited_intro; auto. }
    intros c item q Hq D Hc. wp_steps. eapply wp_mono.
    { apply (after_close T_ARRAY_END 1 c w chr_rbracket r); [done | done | chars; lia | done..]. }
    intros a q2 (-> & H2 & D2). destruct fuel as [|fuel]; [lia|].
    eapply wp_mono; [by apply list_loop_end|]. intros a q3 (D3 & Hend' & Ha).
    split; [unfold same_depth in *; congruence | done].
  - rewrite <- !app_assoc in *. simpl in *. rewrite <- app_assoc in *.
    assert (starts (b ++ r)) as Hb.
    { apply starts_app. destruct Hl; by eapply starts_app, starts_value. }
    eapply list_loop_item; [done | done | | done..|].
    { apply delimited_intro; auto. }
    intros c item q Hq D Hc. wp_steps. eapply wp_mono.
    { eapply (after_comma T_ARRAY_END); [by left | exact Hb | done..]. }
    intros a q2 (-> & H2 & D2). eapply wp_mono.
    { apply (IH fuel _ (acc ++ [v])); [done | done | unfold same_depth in *; congruence | lia]. }
    intros a q3 (D3 & Hend' & Ha). rewrite <- app_assoc in Ha.
    split; [unfold same_depth in *; congruence | done].
Qed.

Lemma dictionary_loop_end fuel d e r p :
  copies d e -> here p (chr_rbrace :: r) ->
  wp (dictionary_loop mem end_pos_ options LocalIsWhitespace parse (S fuel) d T_OBJECT_END)
    (read_value (DictionaryValue e) r p) p.
Proof.
  intros He H. simpl. wp_steps. split; [done|].
  split; [exists chr_rbrace; split; [chars; lia | done]|].
  eexists. split; [done | by apply copy_dictionary].
Qed.

Lemma string_text_starts cs k : string_text cs k -> exists k', k = chr_quote :: k'.
Proof. intros (ts & _ & ->). eauto. Qed.

Lemma dictionary_loop_member fuel d e cs k w w' v s r p (Q : option Value -> Parser -> Prop) :
  string_text cs k -> blank w -> blank w' -> json n v s -> delimited r ->
  here p (k ++ w ++ chr_colon :: w' ++ s ++ r) -> stack_depth_ p = depth -> copies d e ->
  (forall c value p', here p' (c :: r) -> same_depth p p' ->
     copies (map_set d (text UTF8 cs) value) (map_set e (text UTF8 cs) v) ->
     wp (token ← after_member mem end_pos_ options T_OBJECT_END 0;
         match token with
         | None => mret None
         | Some token =>
             dictionary_loop mem end_pos_ options LocalIsWhitespace parse fuel
               (SetWithoutPathExpansion d (text UTF8 cs) value) token
         end) Q p') ->
  wp (dictionary_loop mem end_pos_ options LocalIsWhitespace parse (S fuel) d
        (next_token (k ++ w ++ chr_colon :: w' ++ s ++ r))) Q p.
Proof.
  intros Hk Hw Hw' Hs Hr H Hd He HQ. destruct (string_text_starts cs k Hk) as [k' Ek].
  replace (next_token (k ++ w ++ chr_colon :: w' ++ s ++ r)) with T_STRING by (by rewrite Ek).
  clear k' Ek. simpl. wp_steps. eapply wp_mono; [by eapply ConsumeStringRaw_text|].
  intros a q (key & -> & Hq & Hkey & D). wp_steps. pose proof Hq as [[Rq _] _].
  eapply here_NextChar; [done|]. intros q1 H1 D1 _. wp_steps. eapply here_token; [exact H1 | done | |].
  { right. unfold peek. simpl. chars. lia. }
  intros q2 H2 D2. simpl. wp_steps. eapply here_NextChar; [done|]. intros q3 H3 D3 _.
  unfold parse_next_token. wp_steps.
  assert (starts (s ++ r)) as Hst by (by eapply starts_app, starts_value).
  eapply here_token; [exact H3 | done | by right; apply starts_solid|]. intros q4 H4 D4.
  eapply wp_mono; [apply Hparse; [done..|unfold same_depth in *; congruence]|].
  intros a q5 (D5 & (c & _ & H5) & value & -> & Hvalue). wp_steps.
  eapply (here_AsString key (pos_ q)); [done | lia |]. apply (HQ c value q5); [done | |].
  - unfold same_depth in *; congruence.
  - by apply copies_set.
Qed.

Lemma dictionary_loop_text es b :
  members_text (json n) es b -> forall fuel d e r p,
  copies d e -> here p (b ++ r) -> stack_depth_ p = depth -> (length es < fuel)%nat ->
  wp (dictionary_loop mem end_pos_ options LocalIsWhitespace parse fuel d (next_token (b ++ r)))
    (read_value (DictionaryValue (foldl (fun d e => SetWithoutPathExpansion d e.1 e.2) e es)) r p) p.
Proof.
  induction 1 as [cs k w w' v s w2 Hk Hw Hw' Hv Hw2 | cs k w w' v s w2 w3 es b Hk Hw Hw' Hv Hw2 Hw3 Hes IH];
    intros fuel d e r p He H Hd Hf; (destruct fuel as [|fuel]; [simpl in Hf; lia|]);
    repeat (rewrite <- app_assoc in * || rewrite <- app_comm_cons in * ); cbn [app] in *.
  - eapply dictionary_loop_member; [done..| | done | done | done |].
    { apply delimited_intro; auto. }
    intros c value q Hq D Hc. wp_steps. eapply wp_mono.
    { apply (after_close T_OBJECT_END 0 c w2 chr_rbrace r); [done | done | chars; lia | done..]. }
    intros a q2 (-> & H2 & D2). destruct fuel as [|fuel]; [simpl in Hf; lia|].
    eapply wp_mono; [by apply dictionary_loop_end|]. intros a q3 (D3 & Hend' & Ha).
    split; [unfold same_depth in *; congruence | done].
  - assert (starts (b ++ r)) as Hb.
    { apply starts_app. destruct Hes as [cs' k' |cs' k'];
        match goal with H : string_text cs' k' |- _ => destruct (string_text_starts cs' k' H) as [k2 ->] end;
        (eexists _, _; split; [done | split; [chars; lia | done]]). }
    eapply dictionary_loop_member; [done..| | done | done | done |].
    { apply delimited_intro; auto. }
    intros c value q Hq D Hc. wp_steps. eapply wp_mono.
    { eapply (after_comma T_OBJECT_END); [by right | exact Hb | done..]. }
    intros a q2 (-> & H2 & D2). eapply wp_mono.
    { apply (IH fuel _ (SetWithoutPathExpansion e (text UTF8 cs) v));
        [done | done | unfold same_depth in *; congruence | simpl in Hf; lia]. }
    intros a q3 (D3 & Hend' & Ha). split; [unfold same_depth in *; congruence | done].
Qed.
End Containers.

Lemma container_text (loop : nat -> Token -> M (option Value)) c w b v r p :
  here p (c :: w ++ b) -> blank w -> b <> [] -> solid (peek b) ->
  stack_depth_ p + 1 < kStackMaxDepth ->
  (forall fuel q, here q b -> stack_depth_ q = stack_depth_ p + 1 -> (length b < fuel)%nat ->
     wp (loop fuel (next_token b)) (read_value v r q) q) ->
  wp (with_stack_marker (fun IsTooDeep =>
        if IsTooDeep : bool then fail_with JSON_TOO_MUCH_NESTING 1 else
        _ ← NextChar;
        token ← GetNextToken mem end_pos_;
        fuel ← bytes_left end_pos_;
        loop fuel token)) (read_value v r p) p.
Proof.
  intros H Hw Hb Hsolid Hdepth Hloop. unfold with_stack_marker. wp_steps.
  rewrite (proj2 (Z.leb_gt _ _)) by done. wp_steps. set (p0 := set_stack_depth _ _).
  assert (here p0 (c :: w ++ b)) as H0 by exact H.
  eapply here_NextChar; [done|]. intros q Hq D _. wp_steps.
  eapply here_token; [exact Hq | done | by right|]. intros q2 H2 D2. wp_steps.
  apply wp_bytes_left. pose proof (here_length _ _ H2).
  assert (stack_depth_ p0 = stack_depth_ p + 1) as E0 by done. clearbody p0. unfold same_depth in *.
  eapply wp_mono; [apply Hloop; [done | congruence | lia]|]. intros a q3 (D3 & H3 & Ha). wp_steps.
  split; [|done]. unfold same_depth in *. simpl. lia.
Qed.

Lemma leaf_token v s r p fuel :
  leaf_text LocalIsWhitespace StringToDouble v s -> here p (s ++ r) -> delimited r ->
  wp (parse_token (S fuel) (next_token (s ++ r))) (read_value v r p) p.
Proof.
  intros Hleaf H Hr.
  destruct Hleaf as [Hl | [Hl | [Hl | [(cs & -> & Hs) | [Hn Hv]]]]].
  - destruct Hl as [-> ->]. simpl. apply (ConsumeLiteral_text _ text_null); [by left | done].
  - destruct Hl as [-> ->]. simpl. apply (ConsumeLiteral_text _ text_true); [by right; left | done].
  - destruct Hl as [-> ->]. simpl. apply (ConsumeLiteral_text _ text_false); [by right; right | done].
  - destruct (string_text_starts cs s Hs) as [s' Es].
    replace (next_token (s ++ r)) with T_STRING by (by rewrite Es). by apply (ConsumeString_text cs s).
  - destruct (number_starts s Hn) as (c & s' & Es & Hc).
    replace (next_token (s ++ r)) with T_NUMBER by (rewrite Es; simpl; by rewrite digit_token).
    by apply (ConsumeNumber_text s).
Qed.

Lemma items_length item l b : (forall v s, item v s -> starts s) -> items_text item l b -> (length l <= length b)%nat.
Proof.
  intros Hi. induction 1 as [v s w Hv _ | v s w w' l b Hv _ _ _ IH];
    destruct (Hi _ _ Hv) as (c & s' & -> & _); simpl; [lia|].
  rewrite !length_app. simpl. rewrite length_app. lia.
Qed.

Lemma members_length item es b : members_text item es b -> (length es <= length b)%nat.
Proof.
  induction 1 as [cs k w w' v s w2 Hk | cs k w w' v s w2 w3 es b Hk _ _ _ _ _ _ IH];
    destruct (string_text_starts cs k Hk) as [k' ->]; simpl; [lia|].
  rewrite !length_app. simpl. rewrite !length_app. simpl. rewrite length_app. lia.
Qed.

Lemma items_start item l b : (forall v s, item v s -> starts s) -> items_text item l b -> starts b.
Proof. intros Hi. destruct 1; by eapply starts_app, Hi. Qed.

Lemma members_start item es b : members_text item es b -> exists b', b = chr_quote :: b'.
Proof.
  destruct 1 as [cs k w w' v s w2 Hk | cs k w w' v s w2 w3 es b Hk];
    destruct (string_text_starts cs k Hk) as [k' ->]; by eexists.
Qed.

(** ** The whole grammar *)

Lemma ParseToken_text n fuel v s r p :
  json n v s -> here p (s ++ r) -> delimited r ->
  stack_depth_ p + Z.of_nat n < kStackMaxDepth -> (n < fuel)%nat ->
  wp (parse_token fuel (next_token (s ++ r))) (read_value v r p) p.
Proof.
  revert fuel v s r p. induction n as [|n IH]; intros fuel v s r p Hs H Hr Hd Hf;
    (destruct fuel as [|fuel]; [lia|]).
  { destruct Hs as [Hs | []]. by apply leaf_token. }
  assert (forall depth, depth + Z.of_nat n < kStackMaxDepth -> forall v s r p, json n v s ->
    here p (s ++ r) -> delimited r -> stack_depth_ p = depth ->
    wp (parse_token fuel (next_token (s ++ r))) (read_value v r p) p) as Hparse.
  { intros depth Hdepth v' s' r' p' Hs' H' Hr' <-. apply IH; [done..|lia]. }
  assert (stack_depth_ p + 1 < kStackMaxDepth) as Hd1 by lia.
  destruct Hs as [Hs | [(-> & w & Hw & ->) | [(l & w & b & -> & Hw & Hl & ->) |
    [(-> & w & Hw & ->) | (es & w & b & -> & Hw & Hes & ->)]]]];
    [by apply leaf_token | simpl in H |- *; rewrite <- app_assoc in H; simpl in H ..].
  - unfold ConsumeList. wp_steps. eapply here_deref; [exact H|]. simpl. wp_steps.
    eapply container_text; [exact H | done | done | unfold peek; simpl; chars; lia | done|].
    intros f q Hq Dq Hlen. destruct f as [|f]; [lia|]. simpl next_token.
    by apply list_loop_end.
  - unfold ConsumeList. wp_steps. eapply here_deref; [exact H|]. simpl. wp_steps.
    pose proof (items_start _ _ _ (starts_value n) Hl) as Hb.
    pose proof (items_length _ _ _ (starts_value n) Hl).
    apply (starts_app _ r) in Hb as Hbr.
    eapply container_text; [exact H | done | | by apply starts_solid | done|].
    { destruct Hbr as (? & ? & -> & _). done. }
    intros f q Hq Dq Hlen. rewrite length_app in Hlen.
    apply (list_loop_text n (parse_token fuel) (stack_depth_ p + 1)
      (Hparse (stack_depth_ p + 1) ltac:(lia)) l b Hl f [] []); [constructor | done | done | lia].
  - unfold ConsumeDictionary. wp_steps. eapply here_deref; [exact H|]. simpl. wp_steps.
    eapply container_text; [exact H | done | done | unfold peek; simpl; chars; lia | done|].
    intros f q Hq Dq Hlen. destruct f as [|f]; [lia|]. simpl next_token.
    apply dictionary_loop_end; [constructor | done].
  - unfold ConsumeDictionary. wp_steps. eapply here_deref; [exact H|]. simpl. wp_steps.
    pose proof (members_length _ _ _ Hes). destruct (members_start _ _ _ Hes) as [b' Eb].
    eapply container_text; [exact H | done | by rewrite Eb | rewrite Eb; apply quote_solid | done|].
    intros f q Hq Dq Hlen. rewrite length_app in Hlen.
    apply (dictionary_loop_text n (parse_token fuel) (stack_depth_ p + 1)
      (Hparse (stack_depth_ p + 1) ltac:(lia)) es b Hes f [] []); [constructor | done | done | lia].
Qed.

Lemma skip_byte_order_mark_text s p :
  here p s -> peek s <> 0xEF ->
  wp (skip_byte_order_mark mem end_pos_) (fun _ p' => here p' s /\ same_depth p p') p.
Proof.
  intros H Hs. unfold skip_byte_order_mark. wp_steps. eapply here_can; [exact H|].
  apply wp_if; intros _; [by wp_steps|]. wp_steps. eapply here_deref; [exact H|].
  rewrite (proj2 (Z.eqb_neq _ _)) by done. by wp_steps.
Qed.

(** A document: a value between white space. *)
Lemma parse_root_text n v w s w' p :
  json n v s -> blank w -> blank w' -> here p (w ++ s ++ w') ->
  stack_depth_ p + Z.of_nat n < kStackMaxDepth -> 0 <= stack_depth_ p ->
  wp (parse_root mem end_pos_ options text_id LocalIsWhitespace StringToDouble)
    (fun a p' => same_depth p p' /\
       exists v', a = Some v' /\ copy_of (input_store mem end_pos_ text_id) v' v) p.
Proof.
  intros Hs Hw Hw' H Hd H0. unfold parse_root. wp_steps.
  pose proof (starts_value n v s Hs) as Hst.
  pose proof (starts_app _ w' Hst) as Hst'.
  assert (peek (w ++ s ++ w') <> 0xEF) as Hbom.
  { destruct Hw as [|c w Hc _]; [|unfold peek; simpl; chars; lia].
    destruct Hst' as (c & s' & E & ? & _). simpl. rewrite E. unfold peek. simpl. chars. lia. }
  eapply wp_mono; [by eapply skip_byte_order_mark_text|]. intros [] q [Hq D]. wp_steps.
  unfold ParseNextToken, parse_next_token. wp_steps.
  eapply here_token; [exact Hq | done | by right; apply starts_solid|]. intros q1 H1 D1.
  eapply wp_mono.
  { apply (ParseToken_text n); [done | done | by apply delimited_blank | |].
    - unfold same_depth in *. lia.
    - unfold kStackMaxDepth in *. lia. }
  intros a q2 (D2 & (c & Hc & H2) & v' & -> & Hv'). wp_steps.
  eapply (here_token [] (c :: w')); [exact H2 | constructor | by right |]. intros q3 H3 D3.
  assert (forall q', same_depth q3 q' -> same_depth p q' /\
    exists v'', Some v' = Some v'' /\ copy_of (input_store mem end_pos_ text_id) v'' v) as Hdone.
  { intros q' D'. split; [unfold same_depth in *; congruence | by exists v']. }
  simpl. rewrite bool_decide_false by apply token_of_not_end. wp_steps.
  eapply here_can; [exact H3|]. rewrite (proj2 (Z.leb_le _ _)) by (simpl; lia). cbn [negb]. wp_steps.
  eapply here_NextChar; [exact H3|]. intros q4 H4 D4 _. wp_steps.
  rewrite <- (app_nil_r w') in H4. eapply here_token; [exact H4 | done | by left |].
  intros q5 H5 D5. simpl. wp_steps. apply Hdone. unfold same_depth in *; congruence.
Qed.

(** ** The nesting limit *)

Lemma too_deep k fuel r p :
  here p (replicate (S k) chr_lbracket ++ r) -> (S k <= fuel)%nat ->
  stack_depth_ p + Z.of_nat (S k) = kStackMaxDepth ->
  wp (parse_token fuel T_ARRAY_BEGIN)
    (fun a p' => a = None /\ error_code_ p' = JSON_TOO_MUCH_NESTING /\ same_depth p p') p.
Proof.
  revert fuel p. induction k as [|k IH]; intros fuel p H Hf Hd; (destruct fuel as [|fuel]; [lia|]);
    simpl; unfold ConsumeList; wp_steps; (eapply here_deref; [exact H|]); simpl;
    unfold with_stack_marker; wp_steps.
  - rewrite (proj2 (Z.leb_le _ _)) by lia. apply wp_fail. intros line column. wp_steps.
    split; [done|]. split; [done|]. unfold same_depth. simpl. lia.
  - rewrite (proj2 (Z.leb_gt _ _)) by lia. wp_steps. set (p0 := set_stack_depth _ _).
    assert (here p0 (chr_lbracket :: replicate (S k) chr_lbracket ++ r)) as H0 by exact H.
    eapply here_NextChar; [exact H0|]. intros q Hq D _. wp_steps.
    eapply (here_token []); [exact Hq | constructor | right; unfold peek; simpl; chars; lia |].
    intros q2 H2 D2. wp_steps. apply wp_bytes_left. simpl. wp_steps.
    assert (stack_depth_ p0 = stack_depth_ p + 1) as E0 by done. clearbody p0. unfold same_depth in *.
    eapply wp_mono; [apply IH; [exact H2 | lia | lia]|]. intros a q3 (-> & He & D3). wp_steps.
    split; [done|]. split; [done|]. unfold same_depth in *. simpl. lia.
Qed.

Lemma parse_root_too_deep r p :
  here p (replicate (Z.to_nat kStackMaxDepth) chr_lbracket ++ r) -> stack_depth_ p = 0 ->
  wp (parse_root mem end_pos_ options text_id LocalIsWhitespace StringToDouble)
    (fun a p' => a = None /\ error_code_ p' = JSON_TOO_MUCH_NESTING) p.
Proof.
  intros H Hd. unfold parse_root. wp_steps. change (Z.to_nat kStackMaxDepth) with 100%nat in *.
  assert (peek (replicate 100 chr_lbracket ++ r) = chr_lbracket) as Hpeek by done.
  eapply wp_mono; [eapply skip_byte_order_mark_text; [exact H | by rewrite Hpeek]|].
  intros [] q [Hq D]. wp_steps. unfold ParseNextToken, parse_next_token. wp_steps.
  eapply (here_token []); [exact Hq | constructor | right; rewrite Hpeek; chars; lia|].
  intros q2 H2 D2. change (Z.to_nat kStackMaxDepth) with 100%nat.
  change (next_token (replicate 100 chr_lbracket ++ r)) with T_ARRAY_BEGIN.
  eapply wp_mono; [apply (too_deep 99 100 r); [exact H2 | lia |]|].
  - unfold kStackMaxDepth, same_depth in *. lia.
  - intros a q3 (-> & He & _). by wp_steps.
Qed.
End Accept.
