(* ===== verification/JsonRoundTrip.v ===== *)
(** * Reading what was written

    A text that [JSONWriter] writes is a JSON text of the value, compact or
    pretty, and every JSON text of a value is read as that value; so writing a
    tree and reading it gives the tree back, with all its strings, its keys and
    the types of its numbers. *)
From Stdlib Require Import ZArith Lia SpecFloat Sorted.
From stdpp Require Import base numbers option gmap sorting list.
From S2P Require Import Prelude StringNumbers Unicode Values JsonWriter JsonParser JsonSafety.
From S2P Require Import JsonReader JsonGrammar JsonAccept.
Local Open Scope Z_scope.

#[local] Ltac Zify.zify_post_hook ::= Z.to_euclidean_division_equations.

#[local] Ltac chars := unfold solid, digit, blank_char, chr_0, chr_9, chr_minus, chr_plus, chr_point,
  chr_e, chr_E, chr_space, chr_tab, chr_newline, chr_return, chr_slash, chr_comma, chr_colon,
  chr_lbracket, chr_rbracket, chr_lbrace, chr_rbrace, chr_quote, chr_backslash, chr_a, chr_A in *.

(** ** Facts of the grammar *)

Section Grammar.
Context (LocalIsWhitespace : Z -> bool) (StringToDouble : list Z -> option double).

#[local] Abbreviation json := (json_text LocalIsWhitespace StringToDouble).

Lemma items_text_mono (P Q : Value -> list Z -> Prop) l s :
  (forall v t, P v t -> Q v t) -> items_text P l s -> items_text Q l s.
Proof. intros H. induction 1; constructor; auto. Qed.

Lemma members_text_mono (P Q : Value -> list Z -> Prop) es s :
  (forall v t, P v t -> Q v t) -> members_text P es s -> members_text Q es s.
Proof. intros H. induction 1; constructor; auto. Qed.

Lemma json_text_mono n m v s : (n <= m)%nat -> json n v s -> json m v s.
Proof.
  revert m v s. induction n as [|n IH]; intros m v s Hm.
  { intros [H | []]. destruct m; by left. }
  destruct m as [|m]; [lia|].
  assert (forall w t, json n w t -> json m w t) as Hnm by (intros; apply IH; [lia | done]).
  intros [H | [H | [(l & w & r & -> & Hw & Hl & ->) | [H | (es & w & r & -> & Hw & Hl & ->)]]]].
  - by left.
  - by right; left.
  - right; right; left. exists l, w, r. split_and!; [done | done | by eapply items_text_mono | done].
  - by right; right; right; left.
  - right; right; right; right. exists es, w, r.
    split_and!; [done | done | by eapply members_text_mono | done].
Qed.

Lemma blank_bytes w : blank w -> Forall is_byte w.
Proof. intros Hw. eapply Forall_impl; [exact Hw|]. intros c Hc. unfold is_byte. chars. lia. Qed.

Lemma decimal_bytes ds : decimal ds -> Forall is_byte ds.
Proof. intros Hw. eapply Forall_impl; [exact Hw|]. intros c Hc. unfold is_byte. chars. lia. Qed.

Lemma char_text_bytes c t : char_text c t -> Forall is_byte t.
Proof.
  assert (is_byte 92 /\ is_byte 117) as [H92 H117] by (unfold is_byte; lia).
  intros [c' (Hc & _) _ _ _ | e c' He | ds _ Hds _ _].
  - by apply encode_bytes.
  - constructor; [done|]. constructor; [|done]. revert He. unfold simple_escape, is_byte.
    repeat case_match; intros; simplify_eq; lia.
  - do 2 (constructor; [done|]). eapply Forall_impl; [exact Hds|].
    intros d Hd. unfold is_byte, hex_char in *. chars. lia.
Qed.

Ltac bytes := repeat first
  [ apply Forall_nil_2 | apply Forall_cons_2 | apply Forall_app_2
  | progress chars; unfold is_byte; lia | by apply blank_bytes | assumption ].

Lemma string_text_bytes cs s : string_text cs s -> Forall is_byte s.
Proof.
  intros (ts & Hts & ->). assert (Forall is_byte (concat ts)).
  { induction Hts as [|c t cs ts Ht Hts IH]; simpl; [done|].
    apply Forall_app_2; [by eapply char_text_bytes | done]. }
  bytes.
Qed.

Lemma number_text_bytes s : number_text s -> Forall is_byte s.
Proof.
  intros (sign & int & frac & exp & Hs & [[Hi _] _] & Hf & He & ->).
  apply decimal_bytes in Hi.
  assert (Forall is_byte sign) by (destruct Hs as [-> | ->]; bytes).
  assert (Forall is_byte frac).
  { destruct Hf as [-> | (ds & [Hd%decimal_bytes _] & ->)]; bytes. }
  assert (Forall is_byte exp).
  { destruct He as [-> | (e & sg & ds & [-> | ->] & Hsg & [Hd%decimal_bytes _] & ->)];
      [bytes | destruct Hsg as [-> | [-> | ->]]; bytes ..]. }
  bytes.
Qed.

Lemma json_text_bytes n v s : json n v s -> Forall is_byte s.
Proof.
  assert (forall v s, leaf_text LocalIsWhitespace StringToDouble v s -> Forall is_byte s) as Hleaf.
  { intros w t [[_ ->] | [[_ ->] | [[_ ->] | [(cs & _ & Hs) | [Hn _]]]]];
      [repeat constructor; unfold is_byte; lia .. | by eapply string_text_bytes | by apply number_text_bytes]. }
  revert v s. induction n as [|n IH]; intros v s; [intros [H | []]; by eapply Hleaf|].
  intros [H | [(_ & w & Hw & ->) | [(l & w & r & _ & Hw & Hl & ->) | [(_ & w & Hw & ->) |
    (es & w & r & _ & Hw & Hes & ->)]]]]; [by eapply Hleaf | bytes | | bytes |].
  - assert (Forall is_byte r) by (induction Hl as [v' s' w1 Hv%IH|v' s' w1 w2 l r Hv%IH]; bytes).
    bytes.
  - assert (Forall is_byte r).
    { induction Hes as [cs k w1 w2 v' s' w3 Hk%string_text_bytes ?? Hv%IH
        | cs k w1 w2 v' s' w3 w4 es r Hk%string_text_bytes ?? Hv%IH]; bytes. }
    bytes.
Qed.
End Grammar.

(** ** Documents *)

Section Documents.
Context (LocalIsWhitespace : Z -> bool) (StringToDouble : list Z -> option double).
Context (Hws : forall c, hex_char c \/ c = chr_minus -> LocalIsWhitespace c = false).

(** What becomes of a root that reads as [c]. *)
Lemma own_root_reads st options text_id input v c r st' :
  wf v -> copy_of {[ text_id := input ]} v c ->
  (JSON_DETACHABLE_CHILDREN options = true -> detached v) ->
  own_root st options text_id input v = Some (r, st') ->
  DeepCopy st' (root_value r) = Some c.
Proof.
  intros Hwf Hc Hdet. pose proof (copy_detached _ _ _ Hc) as Hdc.
  assert (copy_of (<[text_id := input]> st) v c) as Ha.
  { eapply copy_of_mono; [|exact Hc]. apply map_singleton_subseteq_l. apply lookup_insert_eq. }
  assert (forall st2, detached v -> DeepCopy st2 v = Some c) as Hself.
  { intros st2 Hd. rewrite (copy_of_wf_detached _ _ _ Hwf Hd Hc).
    by apply DeepCopy_complete, copy_of_detached. }
  unfold own_root. destruct (JSON_DETACHABLE_CHILDREN options).
  { intros [= <- <-]. by apply Hself, Hdet. }
  assert (forall r st2, DeepCopy (<[text_id := input]> st) v = Some c ->
    (copy ← DeepCopy (<[text_id := input]> st) v; Some (PlainRoot copy, st)) = Some (r, st2) ->
    v = StringValue [] \/ True -> GetType v = TYPE_STRING -> DeepCopy st2 (root_value r) = Some c) as Hstr.
  { intros r' st2 -> [= <- <-] _ Ht. simpl. destruct v; try done; inversion Hc; subst; done. }
  pose proof (DeepCopy_complete _ _ _ Hwf Ha) as Hcopy.
  destruct v; cbn [GetType]; try (intros [= <- <-]; exact Hcopy);
    try (intros [= <- <-]; apply Hself; by apply detached_leaf);
    intros Hr; by eapply Hstr; [exact Hcopy | exact Hr | by right|].
Qed.

Lemma document_read st options text_id beyond p n v w s w' :
  store_ok st -> parse_input_ok options (w ++ s ++ w') beyond -> stack_depth_ p = 0 ->
  json_text LocalIsWhitespace StringToDouble n v s -> (n <= 99)%nat -> blank w -> blank w' ->
  exists r st' p',
    Parse LocalIsWhitespace StringToDouble st options text_id (w ++ s ++ w') beyond p
      = Done (Some r, st') p' /\
    DeepCopy st' (root_value r) = Some v.
Proof.
  intros Hst Hin Hp Hs Hn Hw Hw'. set (input := w ++ s ++ w') in *.
  pose proof (parse_memory_ok LocalIsWhitespace StringToDouble options input beyond Hin) as (Hb & Hlen & Hnul & Htake).
  destruct (start_parse_ok StringToDouble input beyond p Hp) as (Hat & Hroom & Hdepth).
  pose proof (parse_root_ok _ _ options text_id LocalIsWhitespace StringToDouble Hb Hlen Hnul
    (start_parse p) Hat Hroom) as Hsafe.
  assert (here (parse_memory options input beyond) (Z.of_nat (length input)) (start_parse p) input)
    as Hhere.
  { split; [done|]. unfold window, start_parse. simpl. rewrite drop_0, Z.sub_0_r, Nat2Z.id. exact Htake. }
  pose proof (parse_root_text _ _ options text_id LocalIsWhitespace StringToDouble Hb Hlen Hnul Hws
    n v w s w' (start_parse p) Hs Hw Hw' Hhere ltac:(unfold kStackMaxDepth; lia) ltac:(lia)) as Hread.
  destruct (Parse_run LocalIsWhitespace StringToDouble st options text_id input beyond
    (fun a p' => root_post (parse_memory options input beyond) (Z.of_nat (length input)) options text_id
       (start_parse p) a p' /\
       exists v', a = Some v' /\
       copy_of (input_store (parse_memory options input beyond) (Z.of_nat (length input)) text_id) v' v) p)
    as (root & p' & [[_ Hgood] (v' & -> & Hv')] & ->).
  { unfold wp in *. destruct (parse_root _ _ _ _ _ _ _); try done. by destruct Hread. }
  destruct Hgood as (Hwf & Ha & Hnest & Hdet). rewrite (input_store_input LocalIsWhitespace StringToDouble) in Hv' by done.
  unfold readable in Ha. rewrite (input_store_input LocalIsWhitespace StringToDouble) in Ha by done.
  unfold room, kStackMaxDepth in Hnest. rewrite Hdepth in Hnest.
  destruct (own_root_ok StringToDouble st options text_id input v') as (r & st' & E & _);
    [done | apply Hin | done | done | lia | done|].
  rewrite E. exists r, st', p'. split; [done|]. by eapply own_root_reads.
Qed.
End Documents.

(** ** The text of a string *)

Lemma simple_text c e : EscapeSpecialCodePoint c = Some [chr_backslash; e] -> simple_escape e = Some c.
Proof. unfold EscapeSpecialCodePoint. repeat case_match; intros; simplify_eq; done. Qed.

Lemma hex_digit_char d : 0 <= d < 16 -> hex_char (hex_digit d) /\ digit_value 16 (hex_digit d) = d.
Proof.
  intros Hd. assert (forallb (fun n => let c := hex_digit (Z.of_nat n) in
    (((48 <=? c) && (c <=? 57)) || ((65 <=? c) && (c <=? 70))) &&
    (digit_value 16 c =? Z.of_nat n)) (seq 0 16) = true) as H by (vm_compute; reflexivity).
  rewrite forallb_forall in H. specialize (H (Z.to_nat d)). rewrite in_seq in H.
  specialize (H ltac:(lia)). rewrite Z2Nat.id in H by lia. cbv zeta in H.
  apply andb_true_iff in H as [H H2%Z.eqb_eq]. split; [|done].
  rewrite orb_true_iff, !andb_true_iff, !Z.leb_le in H. unfold hex_char. chars. lia.
Qed.

Lemma hex_digit_value d : 0 <= d < 16 -> digit_value 16 (hex_digit d) = d.
Proof. apply hex_digit_char. Qed.

(** Four digits hold a code point of the basic plane. *)
Lemma U16Escape_text c : 0 < c < 0xD800 -> char_text c (U16Escape c).
Proof.
  intros Hc.
  set (ds := [hex_digit (c / 4096 mod 16); hex_digit (c / 256 mod 16);
    hex_digit (c / 16 mod 16); hex_digit (c mod 16)]).
  assert (digits_value 16 0 ds = c) as Hv.
  { unfold ds, digits_value. cbn [foldl]. rewrite !hex_digit_value by lia. lia. }
  change (U16Escape c) with (chr_backslash :: 117 :: ds). rewrite <- Hv at 1.
  apply char_hex; [done | | rewrite Hv; unfold scalar; lia | lia].
  unfold ds. repeat (apply Forall_cons_2; [apply hex_digit_char; lia|]). by apply Forall_nil_2.
Qed.

Lemma escape_text c : json_char c -> char_text c (escape_code_point c).
Proof.
  intros Hc. pose proof Hc as (Hs & _ & Hnz). unfold escape_code_point.
  destruct (EscapeSpecialCodePoint c) as [t|] eqn:E.
  - assert ((exists e, t = [chr_backslash; e]) \/ (c = 60 /\ t = U16Escape 60)) as [[e ->] | [-> ->]].
    { revert E. unfold EscapeSpecialCodePoint. repeat case_match; intros; simplify_eq; eauto. }
    + apply char_simple. by apply simple_text.
    + by apply U16Escape_text.
  - assert (c <> 34 /\ c <> 92) as [] by (split; intros ->; discriminate E).
    destruct (Z.ltb_spec c 32).
    + apply U16Escape_text. unfold scalar in Hs. lia.
    + pose proof (@enc_write_units UTF8 c [] Hs) as Hw. simpl in Hw. rewrite Hw. by apply char_raw.
Qed.

Lemma escape_points fuel s length i did_replacement dest cs :
  points UTF8 fuel s length i = Some cs ->
  exists b, escape_loop ReadUnicodeCharacter fuel s length i did_replacement dest
              = Some (b, dest ++ concat (escape_code_point <$> cs)).
Proof.
  revert i did_replacement dest cs. induction fuel as [|fuel IH]; intros i did dest cs; simpl.
  { intros [= <-]. rewrite app_nil_r. eauto. }
  destruct (i <? length); [|intros [= <-]; rewrite app_nil_r; eauto].
  destruct (ReadUnicodeCharacter s length i) as [[i' r]|]; [|done]. simpl.
  destruct (points UTF8 fuel s length (i' + 1)) as [cs'|] eqn:Hp; [|done]. simpl.
  intros [= <-]. destruct (IH _ (match r with Some _ => did | None => true end)
    (dest ++ escape_code_point (default kReplacementCodePoint r)) _ Hp) as [b ->].
  exists b. by rewrite <- app_assoc.
Qed.

(** A string the reader can read back. *)
Definition json_string (s : list Z) : Prop :=
  exists cs, Forall json_char cs /\ s = text UTF8 cs /\ small s.

Lemma EscapeJSONString_text s :
  json_string s ->
  exists b cs t, EscapeJSONString s true = Some (b, t) /\ string_text cs t /\ s = text UTF8 cs.
Proof.
  intros (cs & Hcs & -> & Hs).
  assert (Forall scalar cs) as Hsc by (eapply Forall_impl; [exact Hcs|]; by intros c [? _]).
  pose proof (code_points_ok UTF8 _ (text_unit UTF8 cs Hsc)) as [Hp _].
  rewrite code_points_text in Hp by done.
  destruct (escape_points _ _ _ _ false [chr_quote] _ Hp) as [b Hb].
  unfold EscapeJSONString, EscapeJSONStringImpl. rewrite option_guard_True by exact Hs.
  rewrite Hb. simpl. eexists _, cs, _. split; [done|]. split; [|done].
  exists (escape_code_point <$> cs). split; [|done].
  clear -Hcs. induction Hcs; simpl; constructor; [by apply escape_text | done].
Qed.

(** ** The text of a number *)

Lemma ref_scan_nondigit t base sgn v s c :
  c ∈ s -> CharToDigit base c = None -> (ref_scan t base sgn v s).1 = false.
Proof.
  intros Hc Hd. revert v. induction s as [|d s IH]; intros v; [by apply elem_of_nil in Hc|].
  cbn [ref_scan]. destruct (CharToDigit base d) as [x|] eqn:E; [|done].
  case_bool_decide; [|done]. apply IH. apply elem_of_cons in Hc as [-> | Hc]; [congruence | done].
Qed.

Section Numbers.
Context (LocalIsWhitespace : Z -> bool) (StringToDouble : list Z -> option double).
Context (Hws : forall c, hex_char c \/ c = chr_minus -> LocalIsWhitespace c = false).

Lemma digit_not_space c : chr_0 <= c <= chr_9 \/ c = chr_minus -> LocalIsWhitespace c = false.
Proof. intros [Hc | Hc]; apply Hws; [by left; left | by right]. Qed.

(** A number with a fraction or an exponent is no integer. *)
Lemma real_is_no_int s c :
  number_text s -> c ∈ s -> c = chr_point \/ c = chr_e \/ c = chr_E ->
  exists z, StringToInt LocalIsWhitespace s 0 = (false, z).
Proof.
  intros Hs Hin Hc.
  assert (CharToDigit 10 c = None) as Hd by (destruct Hc as [-> | [-> | ->]]; done).
  assert (c <> chr_minus) as Hcm by (chars; lia).
  destruct (number_starts s Hs) as (d & s' & -> & Hd').
  assert (forall sgn u, c ∈ u -> exists z,
    (let '(ok, v) := Invoke_sign Int.int32 10 sgn u in (true && ok, v)) = (false, z)) as H.
  { intros sgn u Hu. rewrite Invoke_sign_exact by (done || by left). unfold ref_number.
    rewrite bool_decide_false by (intros ->; by apply elem_of_nil in Hu).
    replace (skip_0x 10 u) with u by (by destruct u as [|? []]).
    pose proof (ref_scan_nondigit Int.int32 10 sgn 0 u c Hu Hd) as Hf.
    destruct (ref_scan _ _ _ _ u) as [ok v]. simpl in Hf. subst ok. by exists v. }
  unfold StringToInt, IteratorRangeToNumber. cbn [skip_whitespace].
  rewrite digit_not_space by exact Hd'.
  destruct (Z.eqb_spec d chr_minus) as [->|].
  - simpl negb. cbv iota. apply H. apply elem_of_cons in Hin as [-> | Hin]; [done | done].
  - rewrite (proj2 (Z.eqb_neq d chr_plus)) by (destruct Hd'; chars; lia). by apply H.
Qed.

Lemma IntToString_value v :
  Int.in_range Int.int32 v ->
  exists s, IntToString Int.int32 v = Some s /\ number_text s /\
    number_value LocalIsWhitespace StringToDouble s = Some (IntegerValue v).
Proof.
  intros Hv. destruct (IntToString_text Int.int32 v ltac:(by left) Hv)
    as (ds & Hs & Hd & Hne & Hval & Hz). eexists. split; [exact Hs|]. split.
  - exists (if v <? 0 then [chr_minus] else []), ds, [], []. unfold decimal_text.
    split; [destruct (v <? 0); [by right | by left]|]. split; [done|].
    split; [by left|]. split; [by left|]. rewrite !app_nil_r. by destruct (v <? 0).
  - unfold number_value, StringToInt.
    rewrite (decimal_text_parsed _ Int.int32 v ds 0) by (apply digit_not_space || done || by left). done.
Qed.

End Numbers.

(** What the double conversion writes: a number that may lack its integral or
    its fractional part. *)
Definition real_text (s : list Z) : Prop :=
  exists sign int frac exp, sign_text sign /\ (int = [] /\ frac <> [] \/ int_text int) /\
    frac_text frac /\ exp_text exp /\ s = sign ++ int ++ frac ++ exp.

Lemma has_char_elem c s : has_char c s = true <-> c ∈ s.
Proof. unfold has_char. by rewrite bool_decide_eq_true. Qed.

Definition is_real (s : list Z) : bool :=
  has_char chr_point s || has_char chr_e s || has_char chr_E s.

Lemma is_real_elem s : is_real s = true <-> exists c, c ∈ s /\ (c = chr_point \/ c = chr_e \/ c = chr_E).
Proof. unfold is_real. rewrite !orb_true_iff, !has_char_elem. naive_solver. Qed.

Lemma plain_not_real sign int : sign_text sign -> decimal int -> is_real (sign ++ int) = false.
Proof.
  intros Hs Hi. destruct (is_real (sign ++ int)) eqn:E; [|done]. exfalso.
  apply is_real_elem in E as (c & [Hc | Hc]%elem_of_app & Hr).
  - destruct Hs as [-> | ->]; [by apply elem_of_nil in Hc|]. apply list_elem_of_singleton in Hc. chars. lia.
  - unfold decimal in Hi. rewrite Forall_forall in Hi. apply Hi in Hc. chars. lia.
Qed.

(** With a point or an exponent after it, the number is complete but for a zero. *)
Lemma fix_real_parts sign int frac exp :
  sign_text sign -> (int = [] /\ frac <> [] \/ int_text int) -> frac_text frac -> exp_text exp ->
  frac <> [] \/ exp <> [] ->
  is_real (sign ++ int ++ frac ++ exp) = true /\
  exists int', int_text int' /\ fix_real (sign ++ int ++ frac ++ exp) = sign ++ int' ++ frac ++ exp.
Proof.
  intros Hs Hi Hf He Hne.
  assert (is_real (sign ++ int ++ frac ++ exp) = true) as Hr.
  { apply is_real_elem. destruct Hf as [-> | (ds & _ & ->)].
    - destruct He as [-> | (e & sg & ds & He & _ & _ & ->)]; [naive_solver|]. exists e.
      split; [|naive_solver]. set_solver.
    - exists chr_point. split; [set_solver | auto]. }
  split; [done|]. unfold fix_real. fold (is_real (sign ++ int ++ frac ++ exp)). rewrite Hr.
  destruct Hi as [[-> Hfr] | Hi].
  - exists [chr_0]. split; [split; [split; [by repeat constructor | done] | by intros r [= ->]]|].
    destruct Hf as [-> | (ds & [_ Hds] & ->)]; [done|]. destruct ds as [|d ds]; [done|].
    by destruct Hs as [-> | ->].
  - exists int. split; [done|]. destruct Hi as [[Hi Hi0] _]. destruct int as [|d int]; [done|].
    apply Forall_cons in Hi as [Hd Hi]. destruct Hs as [-> | ->]; cbn [app].
    + assert (d <> chr_point /\ d <> chr_minus) as [Hp Hm] by (chars; lia).
      rewrite !(proj2 (Z.eqb_neq d _)) by done. by destruct (int ++ frac ++ exp).
    + assert (d <> chr_point) as Hp by (chars; lia).
      by rewrite (proj2 (Z.eqb_neq d _)), andb_false_r by done.
Qed.

Lemma fix_real_text s : real_text s -> number_text (fix_real s) /\ is_real (fix_real s) = true.
Proof.
  intros (sign & int & frac & exp & Hs & Hi & Hf & He & ->).
  assert (forall int' frac' exp', sign_text sign -> int_text int' -> frac_text frac' ->
    exp_text exp' -> number_text (sign ++ int' ++ frac' ++ exp')) as Hnum
    by (intros; by exists sign, int', frac', exp').
  assert ((frac = [] /\ exp = []) \/ (frac <> [] \/ exp <> [])) as [[-> ->] | Hne]
    by (destruct frac, exp; auto).
  - destruct Hi as [[_ ?] | Hi]; [done|]. pose proof Hi as [[Hd _] _].
    assert (frac_text [chr_point; chr_0]) as Hf0
      by (right; exists [chr_0]; split; [split; [by repeat constructor | done] | done]).
    destruct (fix_real_parts sign int [chr_point; chr_0] []) as [Hr (int' & Hi' & E)];
      [done | by right | done | by left | by left|].
    assert (fix_real (sign ++ int ++ [] ++ []) = fix_real (sign ++ int ++ [chr_point; chr_0] ++ [])) as ->.
    { unfold fix_real. rewrite !app_nil_r. fold (is_real (sign ++ int)).
      rewrite plain_not_real by done. fold (is_real (sign ++ int ++ [chr_point; chr_0])).
      rewrite app_nil_r in Hr. rewrite Hr. by rewrite <- app_assoc. }
    rewrite E. split; [by apply Hnum|].
    by destruct (fix_real_parts sign int' [chr_point; chr_0] []) as [? _];
      [done | by right | done | by left | by left|].
  - destruct (fix_real_parts sign int frac exp) as [_ (int' & Hi' & ->)]; [done..|].
    split; [by apply Hnum|].
    by destruct (fix_real_parts sign int' frac exp) as [? _]; [done | by right | done..|].
Qed.

(** ** The text of a tree *)

Section Writer.
Context (LocalIsWhitespace : Z -> bool) (StringToDouble : list Z -> option double).
Context (DoubleToString : double -> list Z).
Context (Hws : forall c, hex_char c \/ c = chr_minus -> LocalIsWhitespace c = false).
Context (st : Store) (options : WriterOptions).
Context (Hpreserve : omit_double_type_preservation_ options = false).

#[local] Abbreviation json := (json_text LocalIsWhitespace StringToDouble).
#[local] Abbreviation build := (BuildJSONString DoubleToString st options).
#[local] Abbreviation pretty s := (when_pretty options s).

(** The conversions of a double are inverse to each other, up to the zeros that
    make the text a JSON number. *)
Definition double_ok (d : double) : Prop :=
  IsFinite d = true /\ real_text (DoubleToString d) /\
  StringToDouble (fix_real (DoubleToString d)) = Some d.

#[local] Unset Elimination Schemes.

(** The trees that have a JSON text: no binaries, strings of characters the
    reader accepts, finite doubles. *)
Inductive printable : Value -> Prop :=
| printable_null : printable NullValue
| printable_boolean b : printable (BooleanValue b)
| printable_integer z : Int.in_range Int.int32 z -> printable (IntegerValue z)
| printable_double d : double_ok d -> printable (DoubleValue d)
| printable_string s : json_string s -> printable (StringValue s)
| printable_dictionary d :
    sorted d -> Forall (fun e => json_string e.1 /\ printable e.2) d -> printable (DictionaryValue d)
| printable_list l : Forall printable l -> printable (ListValue l).

#[local] Set Elimination Schemes.

(** The loops of [BuildJSONString] over the items and the members. *)
Definition write_items (depth : nat) : list Value -> bool -> bool -> option (bool * list Z) :=
  fix items (l : list Value) (first_value_has_been_output result : bool) : option (bool * list Z) :=
    match l with
    | [] => Some (result, [])
    | value :: l =>
        if omitted options value then items l first_value_has_been_output result
        else
          '(ok, s) ← build value depth;
          '(result, rest) ← items l true (if (ok : bool) then result else false);
          Some (result,
                (if first_value_has_been_output
                 then chr_comma :: pretty [chr_space] else []) ++ s ++ rest)
    end.

Definition write_entries (depth : nat) : ValueMap -> bool -> bool -> option (bool * list Z) :=
  fix entries (d : ValueMap) (first_value_has_been_output result : bool) : option (bool * list Z) :=
    match d with
    | [] => Some (result, [])
    | (key, value) :: d =>
        if omitted options value then entries d first_value_has_been_output result
        else
          '(_, k) ← EscapeJSONString key true;
          '(ok, s) ← build value (S depth);
          '(result, rest) ← entries d true (if (ok : bool) then result else false);
          Some (result,
                (if first_value_has_been_output
                 then chr_comma :: pretty kPrettyPrintLineEnding else []) ++
                pretty (IndentLine (S depth)) ++ k ++
                chr_colon :: pretty [chr_space] ++ s ++ rest)
    end.

Lemma build_list l depth :
  build (ListValue l) depth =
  ('(result, s) ← write_items depth l false true;
   Some (result, chr_lbracket :: pretty [chr_space] ++ s ++ pretty [chr_space] ++ [chr_rbracket])).
Proof. reflexivity. Qed.

Lemma build_dictionary d depth :
  build (DictionaryValue d) depth =
  ('(result, s) ← write_entries depth d false true;
   Some (result, chr_lbrace :: pretty kPrettyPrintLineEnding ++ s ++
                 pretty (kPrettyPrintLineEnding ++ IndentLine depth) ++ [chr_rbrace])).
Proof. reflexivity. Qed.

Lemma pretty_blank s : blank s -> blank (pretty s).
Proof. unfold when_pretty. destruct (pretty_print_ options); [done | constructor]. Qed.

Lemma blank_space : blank [chr_space].
Proof. constructor; [by left | constructor]. Qed.

Lemma blank_line_ending : blank kPrettyPrintLineEnding.
Proof.
  constructor; [right; right; by right|]. constructor; [right; right; by left | constructor].
Qed.

Lemma blank_indent depth : blank (IndentLine depth).
Proof. unfold IndentLine. apply Forall_replicate. by left. Qed.

Lemma blank_app w w' : blank w -> blank w' -> blank (w ++ w').
Proof. apply Forall_app_2. Qed.

#[local] Hint Resolve pretty_blank blank_space blank_line_ending blank_indent blank_app : core.

Definition written (n : nat) (v c : Value) : Prop :=
  forall depth, exists s, build v depth = Some (true, s) /\ json n c s.

Lemma printable_not_omitted v c : copy_of st v c -> printable c -> omitted options v = false.
Proof.
  intros Hc Hp. unfold omitted. destruct v; rewrite ?andb_false_r; try done.
  inversion Hc; subst. inversion Hp.
Qed.

(** The items after the first one. *)
Lemma write_more_items n depth l m w :
  blank w ->
  Forall2 (fun v c => omitted options v = false /\ written n v c) l m ->
  exists s, write_items depth l true true = Some (true, s) /\
    (m = [] /\ s = [] \/
     exists t, s = chr_comma :: pretty [chr_space] ++ t /\ items_text (json n) m (t ++ w ++ [chr_rbracket])).
Proof.
  intros Hw. induction 1 as [|v c l m [Ho Hv] Hl IH]; [eexists; eauto|].
  destruct (Hv depth) as (s & Hs & Hj). destruct IH as (r & Hr & Hcase).
  simpl. rewrite Ho, Hs. simpl. rewrite Hr. simpl. eexists. split; [done|]. right.
  exists (s ++ r). split; [done|]. destruct Hcase as [[-> ->] | (t & -> & Ht)].
  - rewrite app_nil_r. by apply items_last.
  - rewrite <- app_assoc. simpl. rewrite <- app_assoc.
    apply (items_more _ c s [] (pretty [chr_space]) m); [done | constructor | auto | done].
Qed.

Lemma write_items_text n depth l m :
  Forall2 (fun v c => omitted options v = false /\ written n v c) l m ->
  exists s, build (ListValue l) depth = Some (true, s) /\ json (S n) (ListValue m) s.
Proof.
  intros Hl. rewrite build_list. destruct Hl as [|v c l m [Ho Hv] Hl].
  - simpl. eexists. split; [done|]. right. left. split; [done|].
    exists (pretty [chr_space] ++ pretty [chr_space]). split; [auto|]. by rewrite <- app_assoc.
  - destruct (write_more_items n depth l m (pretty [chr_space])) as (r & Hr & Hcase); [auto | done|].
    destruct (Hv depth) as (s & Hs & Hj). simpl. rewrite Ho, Hs. simpl. rewrite Hr. simpl.
    eexists. split; [done|]. right. right. left.
    exists (c :: m), (pretty [chr_space]), (s ++ r ++ pretty [chr_space] ++ [chr_rbracket]).
    split_and!; [done | auto | | by rewrite <- app_assoc].
    destruct Hcase as [[-> ->] | (t & -> & Ht)]; [by apply items_last; auto|].
    simpl. rewrite <- ?app_assoc. 
    apply (items_more _ c s [] (pretty [chr_space]) m); [done | constructor | auto | done].
Qed.

Definition entry_written (n : nat) (a b : list Z * Value) : Prop :=
  a.1 = b.1 /\ json_string b.1 /\ omitted options a.2 = false /\ written n a.2 b.2.

Lemma write_more_entries n depth d e w :
  blank w -> Forall2 (entry_written n) d e ->
  exists s, write_entries depth d true true = Some (true, s) /\
    (e = [] /\ s = [] \/
     exists t, s = chr_comma :: pretty kPrettyPrintLineEnding ++ pretty (IndentLine (S depth)) ++ t /\
               members_text (json n) e (t ++ w ++ [chr_rbrace])).
Proof.
  intros Hw. induction 1 as [|[k v] [k' c] d e (Hk & Hks & Ho & Hv) Hd IH]; [eexists; eauto|].
  simpl in *. subst k'. destruct (Hv (S depth)) as (s & Hs & Hj). destruct IH as (r & Hr & Hcase).
  destruct (EscapeJSONString_text k Hks) as (b & cs & kt & Hkt & Hstr & ->).
  rewrite Ho, Hkt. simpl. rewrite Hs. simpl. rewrite Hr. simpl. eexists. split; [done|]. right.
  exists (kt ++ chr_colon :: pretty [chr_space] ++ s ++ r). split; [by rewrite <- ?app_assoc|].
  destruct Hcase as [[-> ->] | (t & -> & Ht)]; rewrite <- ?app_assoc; simpl; rewrite <- ?app_assoc.
  - apply (members_last _ cs kt [] (pretty [chr_space])); auto; constructor.
  - simpl. rewrite <- ?app_assoc. rewrite (app_assoc (pretty kPrettyPrintLineEnding)).
    apply (members_more _ cs kt [] (pretty [chr_space]) c s []); auto; constructor.
Qed.

Lemma write_entries_text n depth d e :
  Forall2 (entry_written n) d e -> dict_of e = e ->
  exists s, build (DictionaryValue d) depth = Some (true, s) /\ json (S n) (DictionaryValue e) s.
Proof.
  intros Hd Hdict. rewrite build_dictionary.
  set (tail := pretty (kPrettyPrintLineEnding ++ IndentLine depth)).
  assert (blank tail) as Htail by (unfold tail; auto).
  destruct Hd as [|[k v] [k' c] d e (Hk & Hks & Ho & Hv) Hd].
  - simpl. eexists. split; [done|]. right. right. right. left. split; [done|].
    exists (pretty kPrettyPrintLineEnding ++ tail). split; [auto|]. by rewrite <- app_assoc.
  - simpl in *. subst k'. destruct (write_more_entries n depth d e tail) as (r & Hr & Hcase); [done..|].
    destruct (Hv (S depth)) as (s & Hs & Hj).
    destruct (EscapeJSONString_text k Hks) as (b & cs & kt & Hkt & Hstr & ->).
    rewrite Ho, Hkt. simpl. rewrite Hs. simpl. rewrite Hr. simpl.
    eexists. split; [done|]. right. right. right. right.
    exists ((text UTF8 cs, c) :: e), (pretty kPrettyPrintLineEnding ++ pretty (IndentLine (S depth))),
      (kt ++ chr_colon :: pretty [chr_space] ++ s ++ r ++ tail ++ [chr_rbrace]).
    split_and!; [by rewrite Hdict | auto | |].
    + destruct Hcase as [[-> ->] | (t & -> & Ht)].
      * apply (members_last _ cs kt [] (pretty [chr_space])); auto; constructor.
      * simpl. rewrite <- ?app_assoc. rewrite (app_assoc (pretty kPrettyPrintLineEnding)).
        apply (members_more _ cs kt [] (pretty [chr_space]) c s []); auto; constructor.
    + rewrite <- ?app_assoc. simpl. by rewrite <- ?app_assoc.
Qed.

(** Setting the entries of a sorted map in their order makes the map. *)
Lemma dict_of_sorted e : sorted e -> dict_of e = e.
Proof.
  unfold dict_of. intros Hs. rewrite <- (app_nil_l e) in Hs at 1. change e with ([] ++ e) at 2.
  revert Hs. generalize (@nil (list Z * Value)). induction e as [|[k v] e IH]; intros acc Hs; simpl.
  { by rewrite app_nil_r. }
  unfold SetWithoutPathExpansion.
  rewrite map_set_last by (intros l; by apply (sorted_app_below acc e k l v)).
  rewrite IH; by rewrite <- app_assoc.
Qed.

Lemma max_nesting {A} (f : A -> nat) l :
  Forall (fun a => (f a <= foldr (fun b n => Nat.max (f b) n) O l)%nat) l.
Proof.
  induction l as [|a l IH]; constructor; [simpl; lia|].
  eapply Forall_impl; [exact IH|]. simpl. intros b. lia.
Qed.

Lemma written_mono n m v c : (n <= m)%nat -> written n v c -> written m v c.
Proof.
  intros Hm H depth. destruct (H depth) as (s & Hs & Hj). exists s. split; [done|].
  by eapply json_text_mono.
Qed.

(** The writer writes a text of the tree's copy. *)
Lemma build_text v c : copy_of st v c -> printable c -> written (nesting v) v c.
Proof.
  revert c. induction v as [|b|z|x|s|p|b|d IH|l IH] using Value_ind; intros c Hc Hp depth;
    inversion Hc as [? bs Hbs| |? e He|? m Hm]; subst; try done; inversion Hp; subst.
  - eexists. split; [done|]. by do 2 left.
  - eexists. split; [done|]. left. right. destruct b; [by left | by right; left].
  - destruct (IntToString_value LocalIsWhitespace StringToDouble Hws z) as (s & Hs & Hn & Hv);
      [done|]. exists s. simpl. rewrite Hs. split; [done|]. left. by do 4 right.
  - match goal with H : double_ok x |- _ => destruct H as (Hf & Hr & Hd) end.
    destruct (fix_real_text _ Hr) as [Hn (ch & Hin & Hch)%is_real_elem].
    destruct (real_is_no_int LocalIsWhitespace StringToDouble Hws _ ch Hn Hin Hch) as [z Hz].
    exists (fix_real (DoubleToString x)). simpl. unfold write_double. rewrite Hpreserve. split; [done|].
    left. do 4 right. split; [done|]. unfold number_value. by rewrite Hz, Hd, Hf.
  - match goal with H : json_string _ |- _ => destruct (EscapeJSONString_text _ H) as (b & cs & t & Ht & Hs & ->) end.
    exists t. simpl. rewrite Ht. split; [done|]. left. do 3 right. left. by exists cs.
  - match goal with H : json_string _ |- _ => destruct (EscapeJSONString_text _ H) as (b & cs & t & Ht & Hs & ->) end.
    exists t. simpl. rewrite Hbs. simpl. rewrite Ht. split; [done|]. left. do 3 right. left. by exists cs.
  - apply write_entries_text; [|by apply dict_of_sorted].
    match goal with _ : Forall2 _ d ?e, H : Forall _ ?e |- _ => rename H into Hpe end.
    pose proof (max_nesting (fun a : list Z * Value => nesting a.2) d) as Hmax.
    set (n := foldr _ _ d) in *. clearbody n. clear Hc Hp.
    induction He as [|a b d e [Hk Hab] He IHe]; [constructor|].
    apply Forall_cons in IH as [IHa IH], Hpe as [[Hs Hpb] Hpe], Hmax as [Hn Hmax].
    constructor; [|apply IHe; try done; by match goal with H : sorted (_ :: _) |- _ => apply StronglySorted_inv in H as [? _] end].
    split; [done|]. split; [done|]. split; [by eapply printable_not_omitted|].
    eapply written_mono; [exact Hn | by apply IHa].
  - apply write_items_text.
    match goal with H : Forall printable _ |- _ => rename H into Hpm end.
    pose proof (max_nesting nesting l) as Hmax. set (n := foldr _ _ l) in *. clearbody n. clear Hc Hp.
    induction Hm as [|a b l m Hab Hm IHm]; [constructor|].
    apply Forall_cons in IH as [IHa IH], Hpm as [Hpb Hpm], Hmax as [Hn Hmax].
    constructor; [|by apply IHm]. split; [by eapply printable_not_omitted|].
    eapply written_mono; [exact Hn | by apply IHa].
Qed.
End Writer.

(** White space of the C locale is in no token. *)
Lemma isspace_tokens c : hex_char c \/ c = chr_minus -> isspace c = false.
Proof.
  intros Hc. unfold isspace, hex_char in *. chars.
  rewrite (proj2 (Z.eqb_neq c 32)), (proj2 (andb_false_iff _ _)); [done | | lia].
  rewrite !Z.leb_gt. lia.
Qed.

Lemma ascii_json_string s : Forall (fun ch => 0 < ch < 128) s -> small s -> json_string s.
Proof.
  intros Hs Hsm. exists s.
  assert (Forall (fun ch => 0 <= ch < 128) s) as Ha
    by (eapply Forall_impl; [exact Hs|]; intros ch Hch; cbv beta in *; lia).
  split; [|by rewrite (ascii_text UTF8 s ascii_encode)].
  eapply Forall_impl; [exact Hs|]. intros ch Hch. cbv beta in *.
  split; [unfold scalar; lia|]. split; [apply ascii_valid; lia | lia].
Qed.

(** What is written is read. *)
Lemma written_is_read LocalIsWhitespace StringToDouble DoubleToString
    (Hws : forall ch, hex_char ch \/ ch = chr_minus -> LocalIsWhitespace ch = false) st writer v c :
  omit_double_type_preservation_ writer = false ->
  copy_of st v c -> printable StringToDouble DoubleToString c -> (nesting v <= 99)%nat ->
  exists s, WriteWithOptions DoubleToString st writer v = Some (true, s) /\
    forall st1 options text_id p,
    store_ok st1 -> Z.of_nat (length s) < Int.max Int.int32 -> stack_depth_ p = 0 ->
    exists r st2 p',
      Parse LocalIsWhitespace StringToDouble st1 options text_id s [0] p = Done (Some r, st2) p' /\
      DeepCopy st2 (root_value r) = Some c.
Proof.
  intros Hpres Hc Hp Hn.
  destruct (build_text LocalIsWhitespace StringToDouble DoubleToString Hws st writer Hpres v c Hc Hp O)
    as (s & Hs & Hj). unfold WriteWithOptions. rewrite Hs. simpl. eexists. split; [done|].
  set (w' := when_pretty writer kPrettyPrintLineEnding).
  assert (blank w') as Hw' by (apply pretty_blank, blank_line_ending).
  intros st1 options text_id p Hst Hlen Hdepth.
  apply (document_read _ _ Hws st1 options text_id [0] p (nesting v) c [] s w'); try done; [|constructor].
  split; [|split; [done|]; intros _; by exists []]. apply Forall_app_2; [constructor|].
  apply Forall_app_2; [by eapply json_text_bytes | by apply blank_bytes].
Qed.

(** * Theorems *)



(** C18: The JSON round trip, for the trees that have a text: well formed, no binaries,
    strings and keys of characters the reader accepts (no NUL and no noncharacters),
    doubles that the conversions carry to text and back, at most 99 levels; and a
    writer that keeps the type of doubles. Such a tree is written, compactly or
    prettily, as a text that any parser reads back, with any options, as exactly the
    tree's deep copy: the same types, keys, strings, integers and doubles. The
    conditions are needed: [nul_escape_is_lost], [noncharacter_is_not_read_back],
    [nesting_limit_is_exact]. *)
Theorem json_round_trip LocalIsWhitespace StringToDouble DoubleToString st writer v c :
  (forall ch, hex_char ch \/ ch = chr_minus -> LocalIsWhitespace ch = false) ->
  omit_double_type_preservation_ writer = false ->
  wf v -> DeepCopy st v = Some c -> printable StringToDouble DoubleToString c ->
  (nesting v <= 99)%nat ->
  exists s, WriteWithOptions DoubleToString st writer v = Some (true, s) /\
    forall st1 options text_id p,
    store_ok st1 -> Z.of_nat (length s) < Int.max Int.int32 -> stack_depth_ p = 0 ->
    exists r st2 p',
      Parse LocalIsWhitespace StringToDouble st1 options text_id s [0] p = Done (Some r, st2) p' /\
      DeepCopy st2 (root_value r) = Some c.
Proof.
  intros Hws Hpres Hwf Hc Hp Hn. apply DeepCopy_copy in Hc; [|done].
  by apply (written_is_read _ _ _ Hws st writer v).
Qed.

Definition half : double := S754_finite false 4503599627370496 (-53).

Lemma json_round_trip_witness :
  let v := DictionaryValue [([97], ListValue [StringValue [226; 130; 172; 10; 60]; DoubleValue half]);
                            ([98], IntegerValue (-2147483648))] in
  exists s, WriteWithOptions (fun _ => [46; 53]) ∅ (WriterOptions_ false false true) v = Some (true, s) /\
    forall st1 options text_id p,
    store_ok st1 -> Z.of_nat (length s) < Int.max Int.int32 -> stack_depth_ p = 0 ->
    exists r st2 p',
      Parse isspace (fun s => if bool_decide (s = [48; 46; 53]) then Some half else None) st1
        options text_id s [0] p = Done (Some r, st2) p' /\
      DeepCopy st2 (root_value r) = Some v.
Proof.
  intros v. apply (json_round_trip isspace _ (fun _ => [46; 53])).
  - apply isspace_tokens.
  - reflexivity.
  - repeat constructor; vm_compute; congruence.
  - vm_compute. reflexivity.
  - constructor; [repeat constructor|].
    constructor; [|constructor; [|constructor]]; split.
    + apply ascii_json_string; [repeat constructor | vm_compute; congruence].
    + constructor. constructor; [|constructor; [|constructor]].
      * constructor. exists [8364; 10; 60]. split; [|split; [reflexivity | vm_compute; congruence]].
        repeat constructor; vm_compute; congruence.
      * constructor. split; [reflexivity|]. split; [|reflexivity].
        exists [], [], [46; 53], []. split; [by left|]. split; [by left|].
        split; [right; exists [53]; split; [split; [repeat constructor; vm_compute; congruence | done] | done]|].
        split; [by left | reflexivity].
    + apply ascii_json_string; [repeat constructor | vm_compute; congruence].
    + constructor. vm_compute. split; congruence.
  - vm_compute. lia.
Defined.

(** The nesting limit is exact. Arrays nested in each other are read when
    there are at most 99 of them; a document that opens 100 or more is refused,
    whatever it goes on with, with the error for too much nesting. *)
Theorem nesting_limit_is_exact LocalIsWhitespace StringToDouble st options text_id p n rest :
  (forall c, hex_char c \/ c = chr_minus -> LocalIsWhitespace c = false) ->
  store_ok st -> stack_depth_ p = 0 -> (1 <= n)%nat ->
  Forall is_byte rest -> Z.of_nat (2 * n + length rest) < Int.max Int.int32 ->
  if (n <=? 99)%nat then
    exists r st' p',
      Parse LocalIsWhitespace StringToDouble st options text_id
        (replicate n chr_lbracket ++ replicate n chr_rbracket) [0] p = Done (Some r, st') p' /\
      DeepCopy st' (root_value r) = Some (Nat.iter (n - 1) (fun v => ListValue [v]) (ListValue []))
  else
    exists p',
      Parse LocalIsWhitespace StringToDouble st options text_id
        (replicate n chr_lbracket ++ rest) [0] p = Done (None, st) p' /\
      error_code_ p' = JSON_TOO_MUCH_NESTING.
Proof.
  intros Hws Hst Hp Hn Hb Hlen. destruct (Nat.leb_spec n 99) as [Hle|Hgt].
  - destruct n as [|n]; [lia|]. replace (S n - 1)%nat with n by lia.
    rewrite <- (app_nil_r (replicate (S n) chr_lbracket ++ replicate (S n) chr_rbracket)).
    apply (document_read _ _ Hws st options text_id [0] p (S n) _ []); [done | | done | | lia | constructor..].
    { split; [|split; [simpl; rewrite app_nil_r, length_app; simpl; rewrite !length_replicate; lia
                      | intros _; by exists []]].
      simpl. repeat (apply Forall_app_2 || apply Forall_cons_2 || apply Forall_replicate);
        done || (vm_compute; split; congruence) || constructor. }
    clear. induction n as [|n IH].
    + right. left. split; [done|]. exists []. by split; [constructor|].
    + right. right. left. eexists _, [], _. split; [done|]. split; [constructor|].
      split; [eapply (items_last _ _ _ []); [exact IH | constructor]|].
      simpl. f_equal. rewrite <- app_assoc. simpl. f_equal. f_equal.
      by rewrite <- replicate_cons_app.
  - set (input := replicate n chr_lbracket ++ rest).
    assert (parse_input_ok options input [0]) as Hin.
    { split; [|split; [unfold input; rewrite length_app, length_replicate; lia
                      | intros _; by exists []]].
      apply Forall_app_2; [|done]. apply Forall_replicate. vm_compute. split; congruence. }
    pose proof (parse_memory_ok LocalIsWhitespace StringToDouble _ _ _ Hin) as (Hmb & Hml & Hnul & Ht).
    destruct (start_parse_ok StringToDouble input [0] p Hp) as (Hat & _ & Hd).
    assert (here (parse_memory options input [0]) (Z.of_nat (length input)) (start_parse p)
      (replicate (Z.to_nat kStackMaxDepth) chr_lbracket ++ replicate (n - 100) chr_lbracket ++ rest))
      as Hhere.
    { split; [done|]. unfold window, start_parse. simpl pos_. rewrite drop_0, Z.sub_0_r, Nat2Z.id.
      rewrite Ht. unfold input, kStackMaxDepth. replace n with (100 + (n - 100))%nat at 1 by lia.
      by rewrite replicate_add, <- app_assoc. }
    destruct (Parse_run LocalIsWhitespace StringToDouble st options text_id input [0] _ p
      (parse_root_too_deep _ _ options text_id LocalIsWhitespace StringToDouble Hmb Hml Hnul
        _ (start_parse p) Hhere Hd)) as (root & p' & [-> He] & ->). by exists p'.
Qed.

Lemma nesting_limit_is_exact_witness :
  exists p', Parse isspace (fun _ => None) ∅ JSON_PARSE_RFC 0 (replicate 100 chr_lbracket ++ []) [0]
    new_JSONParser = Done (None, ∅) p' /\ error_code_ p' = JSON_TOO_MUCH_NESTING.
Proof.
  apply (nesting_limit_is_exact isspace (fun _ => None) ∅ JSON_PARSE_RFC 0 new_JSONParser 100 []).
  - apply isspace_tokens.
  - apply map_Forall_empty.
  - reflexivity.
  - lia.
  - constructor.
  - vm_compute. reflexivity.
Defined.

(** ** Beyond the grammar

    What the reader makes of texts that are not JSON, or that it does not mean
    to read as it does, each on the shortest text that shows it. *)

Definition read_one (StringToDouble : list Z -> option double) (json : list Z)
    : option (option Value * JsonParseError * Z) :=
  match Parse isspace StringToDouble ∅ (ParserOptions_ false true) 0 json [0] new_JSONParser with
  | Done (r, _) p => Some (root_value <$> r, error_code_ p, error_line_ p)
  | _ => None
  end.

(** The escape of NUL is the empty string, while the writer writes it. *)
Lemma nul_escape_is_lost :
  read_one (fun _ => None) [34; 92; 117; 48; 48; 48; 48; 34] = Some (Some (StringValue []), JSON_NO_ERROR, 0) /\
  EscapeJSONString [0] true = Some (true, [34; 92; 117; 48; 48; 48; 48; 34]).
Proof. vm_compute. by split. Qed.

(** The digits of an escape may have a sign, and the bytes are no UTF-8 then. *)
Lemma signed_escape_is_accepted :
  read_one (fun _ => None) [34; 92; 117; 45; 48; 48; 49; 34]
    = Some (Some (StringValue [255; 191; 191; 191]), JSON_NO_ERROR, 0).
Proof. by vm_compute. Qed.

(** A slash that begins no comment is skipped. *)
Lemma stray_slash_is_skipped :
  read_one (fun _ => None) [47; 49] = Some (Some (IntegerValue 1), JSON_NO_ERROR, 0).
Proof. by vm_compute. Qed.

(** A number that no double holds is refused without an error. *)
Lemma overflow_reports_no_error :
  read_one (fun _ => Some (S754_infinity false)) [49; 101; 57; 57; 57] = Some (None, JSON_NO_ERROR, 0).
Proof. by vm_compute. Qed.

(** A line ending after a number is counted twice: the error is on line 2. *)
Lemma number_counts_a_line_twice :
  read_one (fun _ => None) [91; 49; 10; 44; 120; 93] = Some (None, JSON_UNEXPECTED_TOKEN, 3).
Proof. by vm_compute. Qed.

(** The writer takes the noncharacters that the reader refuses. *)
Lemma noncharacter_is_not_read_back :
  EscapeJSONString [239; 183; 144] true = Some (true, [34; 239; 183; 144; 34]) /\
  read_one (fun _ => None) [34; 239; 183; 144; 34] = Some (None, JSON_UNSUPPORTED_ENCODING, 1).
Proof. vm_compute. by split. Qed.

(** In place, without a terminator, the parser reads behind its input. *)
Lemma reads_behind_the_input :
  Parse isspace (fun _ => None) ∅ (ParserOptions_ false true) 0 [49] [] new_JSONParser = Undefined /\
  (exists p, Parse isspace (fun _ => None) ∅ (ParserOptions_ false true) 0 [116; 114; 117] [101]
     new_JSONParser = Done (Some (PlainRoot (BooleanValue true)), ∅) p).
Proof. vm_compute. split; [reflexivity|]. by eexists. Qed.
