(* ===== verification/JsonPrefStore.v ===== *)
(** * The preference file

    [base/prefs/json_pref_store.cc], [base/files/important_file_writer.cc],
    [base/json/json_file_value_serializer.cc] and
    [json_string_value_serializer.cc]: preferences that are read from a JSON file
    and written back to it a while after they change.

    The store is a record and one function per method. The machine at the end of
    the definitions runs it with its surroundings: the sequence of file tasks it
    posts, the disk, the commit timer, and client code, which also runs inside of
    the notifications. [None] is a failed [DCHECK], a [NOTREACHED], a null
    serializer or a string whose text is gone. *)
From Stdlib Require Import ZArith Lia Sorted.
From stdpp Require Import base numbers option sets gmap list.
From S2P Require Import Prelude Unicode StringNumbers Values PrefStores JsonWriter JsonParser.
From S2P Require Import JsonReader JsonRoundTrip.
Local Open Scope Z_scope.

(** ** Files *)

(** Paths are numbers; a file is its bytes. *)
Definition Files : Type := gmap N (list Z).

Definition PathExists (files : Files) (path : N) : bool := bool_decide (is_Some (files !! path)).

(** [base::Move] replaces what is at [to], or fails and changes nothing. *)
Definition Move (files : Files) (from to : N) (fails : bool) : Files :=
  match files !! from with
  | Some text => if fails then files else <[to := text]> (base.delete from files)
  | None => files
  end.

(** What [::ReplaceFile] does, without the name of a backup. Its documentation has three
    kinds of failure: both files keep their names; the replaced file no longer exists
    (1176); the replaced file has got another name (1177). *)
Inductive ReplaceOutcome :=
| Replaced
| NotReplaced
| TargetRemoved
| TargetRenamed (name : N).

(** What the system calls of a write answer: the path of the temporary file, if one
    could be created; the number of bytes written, negative on an error, unless all
    are; what the replacement does; and whether the other calls succeed. *)
Record WriteOutcome := WriteOutcome_ {
  created : option N;
  open_succeeds : bool;
  short_write : option Z;
  flush_succeeds : bool;
  move_succeeds : bool;
  replacement : ReplaceOutcome;
  delete_succeeds : bool;
}.

Definition all_succeed (tmp_file_path : N) : WriteOutcome :=
  WriteOutcome_ (Some tmp_file_path) true None true true Replaced true.

(** The temporary file is a new one. *)
Definition new_file (files : Files) (o : WriteOutcome) : bool :=
  match created o with Some tmp_file_path => negb (PathExists files tmp_file_path) | None => true end.

(** Whether a replacement that fails takes the target away, and where it puts it. *)
Definition takes_target (o : WriteOutcome) : bool :=
  match replacement o with TargetRemoved | TargetRenamed _ => true | _ => false end.

Definition target_name (o : WriteOutcome) : option N :=
  match replacement o with TargetRenamed name => Some name | _ => None end.

Definition bytes_written (data : list Z) (o : WriteOutcome) : Z :=
  default (Z.of_nat (length data)) (short_write o).

(** [base::ReplaceFile]: a move when the target is not there, a replacement when
    it is. A replacement that fails may have taken the target away. *)
Definition ReplaceFile (files : Files) (from_path to_path : N) (o : WriteOutcome)
    : bool * Files :=
  match files !! from_path with
  | None => (false, files)
  | Some text =>
      if negb (PathExists files to_path) && move_succeeds o
      then (true, <[to_path := text]> (base.delete from_path files))
      else match files !! to_path, replacement o with
           | Some _, Replaced => (true, <[to_path := text]> (base.delete from_path files))
           | Some _, TargetRemoved => (false, base.delete to_path files)
           | Some old, TargetRenamed name => (false, <[name := old]> (base.delete to_path files))
           | _, _ => (false, files)
           end
  end.

Definition DeleteFile (files : Files) (path : N) (o : WriteOutcome) : Files :=
  if delete_succeeds o then base.delete path files else files.

(** [WriteFileAtomically]: the result, and the states of the disk after each of
    its calls, in order. [None] is the [CHECK]. *)
Definition WriteFileAtomically (files : Files) (path : N) (data : list Z) (o : WriteOutcome)
    : option (bool * list Files) :=
  match created o with
  | None => Some (false, [files])
  | Some tmp_file_path =>
      let empty := <[tmp_file_path := []]> files in
      if negb (open_succeeds o) then Some (false, [files; empty]) else
      guard (Z.of_nat (length data) <= Int.max Int.int32);;
      let written := <[tmp_file_path := take (Z.to_nat (bytes_written data o)) data]> files in
      let before := [files; empty; written] in
      if bytes_written data o <? Z.of_nat (length data) then
        Some (false, before ++ [DeleteFile written tmp_file_path o])
      else if negb (flush_succeeds o) then
        Some (false, before ++ [DeleteFile written tmp_file_path o])
      else
        let '(replaced, after) := ReplaceFile written tmp_file_path path o in
        if negb (replaced : bool)
        then Some (false, before ++ [after; DeleteFile after tmp_file_path o])
        else Some (true, before ++ [after])
  end.

(** ** Reading the file *)

Inductive PrefReadError :=
| PREF_READ_ERROR_NONE
| PREF_READ_ERROR_JSON_PARSE
| PREF_READ_ERROR_JSON_TYPE
| PREF_READ_ERROR_ACCESS_DENIED
| PREF_READ_ERROR_FILE_OTHER
| PREF_READ_ERROR_FILE_LOCKED
| PREF_READ_ERROR_NO_FILE
| PREF_READ_ERROR_JSON_REPEAT
| PREF_READ_ERROR_FILE_NOT_SPECIFIED
| PREF_READ_ERROR_ASYNCHRONOUS_TASK_INCOMPLETE
| PREF_READ_ERROR_LEVELDB_IO
| PREF_READ_ERROR_LEVELDB_CORRUPTION_READ_ONLY
| PREF_READ_ERROR_LEVELDB_CORRUPTION.

#[export] Instance PrefReadError_eq_dec : EqDecision PrefReadError.
Proof. solve_decision. Defined.

(** What [GetLastError] says when a file cannot be read. *)
Inductive ReadFault := SharingOrLockViolation | AccessDenied | OtherFault.

Inductive JsonFileError :=
| JSON_ACCESS_DENIED | JSON_CANNOT_READ_FILE | JSON_FILE_LOCKED | JSON_NO_SUCH_FILE
| JSON_OTHER (code : JsonParseError).

(** How the disk behaves during one read. *)
Record DiskFaults := DiskFaults_ {
  move_alternate_fails : bool;
  read_fault : option ReadFault;
  move_bad_fails : bool;
  no_dir : bool;
}.

Definition no_faults : DiskFaults := DiskFaults_ false None false false.

Section Reading.
Context (LocalIsWhitespace : Z -> bool) (StringToDouble : list Z -> option double).

(** The file of the preferences, the one they may have been in, and where a
    corrupt file goes. *)
Context (path_ : N) (alternate_path_ : option N) (bad_path : N).

(** [JSONFileValueDeserializer::ReadFileToString] *)
Definition ReadFileToString (files : Files) (fault : option ReadFault)
    : JsonFileError + list Z :=
  match files !! path_, fault with
  | Some text, None => inr text
  | _, Some SharingOrLockViolation => inl JSON_FILE_LOCKED
  | _, Some AccessDenied => inl JSON_ACCESS_DENIED
  | Some _, Some OtherFault => inl JSON_CANNOT_READ_FILE
  | None, _ => inl JSON_NO_SUCH_FILE
  end.

(** [JSONFileValueDeserializer::Deserialize]: the error or the root, and the text
    that the root owns. [None] is a parse that leaves its memory. *)
Definition Deserialize (files : Files) (fault : option ReadFault) (text_id : N)
    : option ((JsonFileError + Root) * Store) :=
  match ReadFileToString files fault with
  | inl error => Some (inl error, ∅)
  | inr json_string =>
      match ReadAndReturnError LocalIsWhitespace StringToDouble ∅ JSON_PARSE_RFC text_id
              json_string [0] (Some JSON_NO_ERROR) (Some []) with
      | Done (Some root, texts, _, _) _ => Some (inr root, texts)
      | Done (None, texts, code, _) _ => Some (inl (JSON_OTHER (default JSON_NO_ERROR code)), texts)
      | _ => None
      end
  end.

Definition HandleReadErrors (files : Files) (value : JsonFileError + Root) (move_bad_fails : bool)
    : PrefReadError * Files :=
  match value with
  | inl JSON_ACCESS_DENIED => (PREF_READ_ERROR_ACCESS_DENIED, files)
  | inl JSON_CANNOT_READ_FILE => (PREF_READ_ERROR_FILE_OTHER, files)
  | inl JSON_FILE_LOCKED => (PREF_READ_ERROR_FILE_LOCKED, files)
  | inl JSON_NO_SUCH_FILE => (PREF_READ_ERROR_NO_FILE, files)
  | inl (JSON_OTHER _) =>
      (if PathExists files bad_path then PREF_READ_ERROR_JSON_REPEAT else PREF_READ_ERROR_JSON_PARSE,
       Move files path_ bad_path move_bad_fails)
  | inr root =>
      (if IsType TYPE_DICTIONARY (root_value root) then PREF_READ_ERROR_NONE
       else PREF_READ_ERROR_JSON_TYPE, files)
  end.

Record ReadResult := ReadResult_ {
  value : option Root;
  result_texts : Store;
  error : PrefReadError;
  result_no_dir : bool;
}.

Definition ReadPrefsFromDisk (files : Files) (faults : DiskFaults) (text_id : N)
    : option (ReadResult * Files) :=
  let files :=
    match alternate_path_ with
    | Some alternate =>
        if negb (PathExists files path_) && PathExists files alternate
        then Move files alternate path_ (move_alternate_fails faults) else files
    | None => files
    end in
  '(v, texts) ← Deserialize files (read_fault faults) text_id;
  let '(error, files) := HandleReadErrors files v (move_bad_fails faults) in
  Some (ReadResult_ (match v with inr root => Some root | inl _ => None end) texts error
          (no_dir faults), files).
End Reading.

(** ** [ImportantFileWriter] *)

(** Whether the commit timer runs, whether [serializer_] is set, and whether
    [on_next_successful_write_] is. *)
Record ImportantFileWriter := ImportantFileWriter_ {
  timer_running : bool;
  serializer_ : bool;
  on_next_successful_write_ : bool;
}.

Definition HasPendingWrite (w : ImportantFileWriter) : bool := timer_running w.

Definition ScheduleWrite (w : ImportantFileWriter) : ImportantFileWriter :=
  ImportantFileWriter_ true true (on_next_successful_write_ w).

(** A file task: the read, or the write of a text, with a reply when somebody
    waits for its success. *)
Inductive Task :=
| ReadTask
| WriteTask (data : list Z) (with_reply : bool).

(** [WriteNow]: the writer and the task it posts. *)
Definition WriteNow (w : ImportantFileWriter) (data : list Z) (post_succeeds : bool)
    : option (ImportantFileWriter * Task) :=
  guard (Z.of_nat (length data) <= Int.max Int.int32);;
  guard (post_succeeds = true);;
  Some (ImportantFileWriter_ false (serializer_ w) (on_next_successful_write_ w),
        WriteTask data (on_next_successful_write_ w)).

(** [DoScheduledWrite], given what [SerializeData] answers. *)
Definition DoScheduledWrite (w : ImportantFileWriter) (serialized : bool * list Z)
    (post_succeeds : bool) : option (ImportantFileWriter * list Task) :=
  guard (serializer_ w = true);;
  let '(ok, data) := serialized in
  '(w, tasks) ← (if ok : bool
                 then '(w, task) ← WriteNow w data post_succeeds; Some (w, [task])
                 else Some (w, []));
  Some (ImportantFileWriter_ (timer_running w) false (on_next_successful_write_ w), tasks).

Definition RegisterOnNextSuccessfulWriteCallback (w : ImportantFileWriter)
    : option ImportantFileWriter :=
  guard (on_next_successful_write_ w = false);;
  Some (ImportantFileWriter_ (timer_running w) (serializer_ w) true).

(** Whether the callback runs, and the writer. *)
Definition ForwardSuccessfulWrite (w : ImportantFileWriter) (result : bool)
    : bool * ImportantFileWriter :=
  if result && on_next_successful_write_ w
  then (true, ImportantFileWriter_ (timer_running w) (serializer_ w) false)
  else (false, w).

(** ** [JsonPrefStore] *)

(** [texts] are the texts that the roots of the store own; [loading] holds the roots
    that the filter was given to look at, and whether the file was there. *)
Record JsonPrefStore := JsonPrefStore_ {
  prefs_ : Root;
  texts : Store;
  read_only_ : bool;
  writer_ : ImportantFileWriter;
  loading : list (bool * Root);
  error_delegate_ : bool;
  initialized_ : bool;
  filtering_in_progress_ : bool;
  read_error_ : PrefReadError;
}.

Definition new_JsonPrefStore : JsonPrefStore :=
  JsonPrefStore_ (PlainRoot (DictionaryValue [])) ∅ false (ImportantFileWriter_ false false false)
    [] false false false PREF_READ_ERROR_NONE.

Definition root_map (r : Root) : ValueMap :=
  match root_value r with DictionaryValue d => d | _ => [] end.

(** The same root with other contents. *)
Definition set_contents (r : Root) (d : ValueMap) : Root :=
  match r with
  | PlainRoot _ => PlainRoot (DictionaryValue d)
  | HiddenRootValue json_ _ => HiddenRootValue json_ (DictionaryValue d)
  end.

Definition set_prefs (s : JsonPrefStore) (d : ValueMap) : JsonPrefStore :=
  JsonPrefStore_ (set_contents (prefs_ s) d) (texts s) (read_only_ s) (writer_ s) (loading s)
    (error_delegate_ s) (initialized_ s) (filtering_in_progress_ s) (read_error_ s).

Definition set_writer (s : JsonPrefStore) (w : ImportantFileWriter) : JsonPrefStore :=
  JsonPrefStore_ (prefs_ s) (texts s) (read_only_ s) w (loading s) (error_delegate_ s)
    (initialized_ s) (filtering_in_progress_ s) (read_error_ s).

(** The filter's callback number [n] runs. *)
Definition forget_loading (s : JsonPrefStore) (n : nat) : JsonPrefStore :=
  JsonPrefStore_ (prefs_ s) (texts s) (read_only_ s) (writer_ s)
    (take n (loading s) ++ drop (S n) (loading s)) (error_delegate_ s) (initialized_ s)
    (filtering_in_progress_ s) (read_error_ s).

Definition set_error_delegate (s : JsonPrefStore) (initialized : bool) : JsonPrefStore :=
  JsonPrefStore_ (prefs_ s) (texts s) (read_only_ s) (writer_ s) (loading s) true initialized
    (filtering_in_progress_ s) (read_error_ s).

Definition schedule_write (s : JsonPrefStore) : JsonPrefStore :=
  if read_only_ s then s else set_writer s (ScheduleWrite (writer_ s)).

Definition JsonPrefStore_GetValue (s : JsonPrefStore) (key : list Z) : option Value :=
  Get (root_map (prefs_ s)) key.

(** The change that [SetValue] and [SetValueSilently] make, if they make one. *)
Definition change_value (s : JsonPrefStore) (key : list Z) (value : Value)
    : option (bool * JsonPrefStore) :=
  let changed := (true, set_prefs s (Set_ (root_map (prefs_ s)) key value)) in
  match Get (root_map (prefs_ s)) key with
  | None => Some changed
  | Some old_value =>
      same ← Equals (texts s) value old_value;
      Some (if same : bool then (false, s) else changed)
  end.

Definition remove_value (s : JsonPrefStore) (key : list Z) : bool * JsonPrefStore :=
  match RemovePath (root_map (prefs_ s)) key with
  | Some (_, d) => (true, set_prefs s d)
  | None => (false, s)
  end.

(** The methods, as far as they go without what observers do meanwhile: a report
    is followed by the scheduled write. *)
Definition JsonPrefStore_SetValue (s : JsonPrefStore) (key : list Z) (value : Value)
    : option (JsonPrefStore * list (list Z)) :=
  '(changed, s) ← change_value s key value;
  Some (if changed : bool then (schedule_write s, [key]) else (s, [])).

Definition JsonPrefStore_SetValueSilently (s : JsonPrefStore) (key : list Z) (value : Value)
    : option JsonPrefStore :=
  '(changed, s) ← change_value s key value;
  Some (if changed : bool then schedule_write s else s).

Definition JsonPrefStore_RemoveValue (s : JsonPrefStore) (key : list Z)
    : JsonPrefStore * list (list Z) :=
  let '(removed, s) := remove_value s key in
  if removed then (schedule_write s, [key]) else (s, []).

Definition JsonPrefStore_RemoveValueSilently (s : JsonPrefStore) (key : list Z) : JsonPrefStore :=
  schedule_write (snd (remove_value s key)).

#[export] Instance JsonPrefStore_store : PrefStore JsonPrefStore := {
  store_GetValue := JsonPrefStore_GetValue;
  store_IsInitializationComplete := initialized_;
  store_texts := texts;
}.

#[export] Instance JsonPrefStore_writeable : WriteablePrefStore JsonPrefStore := {
  store_SetValue := JsonPrefStore_SetValue;
  store_RemoveValue := JsonPrefStore_RemoveValue;
  store_GetMutableValue s key := Some (JsonPrefStore_GetValue s key, s);
  store_SetValueSilently := JsonPrefStore_SetValueSilently;
  store_ReportValueChanged s key := (schedule_write s, [key]);
}.

(** What observers and the error delegate are told. *)
Inductive Notice :=
| OnPrefValueChanged (key : list Z)
| OnInitializationCompleted (succeeded : bool)
| OnError (error : PrefReadError).

#[export] Instance Notice_eq_dec : EqDecision Notice.
Proof. solve_decision. Defined.

(** [FinalizeFileRead]: the root becomes the contents, and the old ones are
    destroyed with the text they own. *)
Definition FinalizeFileRead (s : JsonPrefStore) (initialization_successful : bool) (prefs : Root)
    (write : bool) : JsonPrefStore * list Notice :=
  if negb initialization_successful then
    (JsonPrefStore_ (prefs_ s) (delete_root (texts s) prefs) (read_only_ s) (writer_ s) (loading s)
       (error_delegate_ s) (initialized_ s) false (read_error_ s),
     [OnInitializationCompleted false])
  else
    let s := JsonPrefStore_ prefs (delete_root (texts s) (prefs_ s)) (read_only_ s) (writer_ s)
               (loading s) (error_delegate_ s) true false (read_error_ s) in
    (if write then schedule_write s else s,
     (if error_delegate_ s && negb (bool_decide (read_error_ s = PREF_READ_ERROR_NONE))
      then [OnError (read_error_ s)] else []) ++ [OnInitializationCompleted true]).

(** The errors after which the file is left alone. *)
Definition makes_read_only (e : PrefReadError) : bool :=
  match e with
  | PREF_READ_ERROR_ACCESS_DENIED | PREF_READ_ERROR_FILE_OTHER | PREF_READ_ERROR_FILE_LOCKED
  | PREF_READ_ERROR_JSON_TYPE | PREF_READ_ERROR_FILE_NOT_SPECIFIED => true
  | _ => false
  end.

Definition not_reached (e : PrefReadError) : bool :=
  match e with
  | PREF_READ_ERROR_ASYNCHRONOUS_TASK_INCOMPLETE | PREF_READ_ERROR_LEVELDB_IO
  | PREF_READ_ERROR_LEVELDB_CORRUPTION_READ_ONLY | PREF_READ_ERROR_LEVELDB_CORRUPTION => true
  | _ => false
  end.

(** [OnFileRead]; [filter] is whether there is a filter, which gets the root. *)
Definition OnFileRead (filter : bool) (s : JsonPrefStore) (read_result : ReadResult)
    : option (JsonPrefStore * list Notice) :=
  let initialization_successful := negb (result_no_dir read_result) in
  guard (initialization_successful && not_reached (error read_result) = false);;
  let read_only := read_only_ s ||
                   (initialization_successful && makes_read_only (error read_result)) in
  '(unfiltered_prefs, alive) ←
    (if initialization_successful && bool_decide (error read_result = PREF_READ_ERROR_NONE)
     then root ← value read_result; Some (root, texts s ∪ result_texts read_result)
     else Some (PlainRoot (DictionaryValue []), texts s));
  let s := JsonPrefStore_ (prefs_ s) alive read_only (writer_ s) (loading s) (error_delegate_ s)
             (initialized_ s) (filtering_in_progress_ s) (error read_result) in
  Some (if filter then
          (JsonPrefStore_ (prefs_ s) (texts s) (read_only_ s) (writer_ s)
             (loading s ++ [(initialization_successful, unfiltered_prefs)]) (error_delegate_ s)
             (initialized_ s) true (read_error_ s), [])
        else FinalizeFileRead s initialization_successful unfiltered_prefs false).

(** ** The store and its surroundings *)

(** A notification that is in progress: what is done when it ends. *)
Inductive Frame :=
| ReportFrame
| InitializationFrame.

(** What the message loop of the store will be given. *)
Inductive Reply :=
| FileRead (read_result : ReadResult)
| FileWritten (result : bool).

Definition written_text (t : Task) : option (list Z) :=
  match t with WriteTask data _ => Some data | ReadTask => None end.

(** The last two fields are a record of the past: the contents of the last load that
    succeeded, and the text of the last write task that was posted since. *)
Record World := World_ {
  store : JsonPrefStore;
  frames : list Frame;
  queue : list Task;
  files : Files;
  replies : list Reply;
  next_text : N;
  told : list Notice;
  loaded : Value;
  last_write : option (list Z);
}.

Definition set_store (w : World) (s : JsonPrefStore) : World :=
  World_ s (frames w) (queue w) (files w) (replies w) (next_text w) (told w) (loaded w)
    (last_write w).

Inductive Event :=
| E_SetValue (key : list Z) (value : Value)
| E_SetValueSilently (key : list Z) (value : Value)
| E_RemoveValue (key : list Z)
| E_RemoveValueSilently (key : list Z)
| E_ReportValueChanged (key : list Z)
| E_NotificationEnds
| E_ReadPrefs (faults : DiskFaults)
| E_ReadPrefsAsync
| E_CommitPendingWrite (post_succeeds : bool)
| E_RegisterCallback
| E_TimerFires (post_succeeds : bool)
| E_RunReply
| E_FilterDone (n : nat) (prefs : ValueMap) (write : bool)
| E_RunTask (faults : DiskFaults) (outcome : WriteOutcome).

Section Machine.
Context (LocalIsWhitespace : Z -> bool) (StringToDouble : list Z -> option double).
Context (DoubleToString : double -> list Z).
Context (path_ : N) (alternate_path_ : option N) (bad_path : N).
(** [pref_filter_], by what it does to the contents before they are written. *)
Context (FilterSerializeData : option (ValueMap -> ValueMap)).

Definition has_filter : bool := bool_decide (is_Some FilterSerializeData).

(** [SerializeData]: the answer, and the store with what the filter left. *)
Definition SerializeData (s : JsonPrefStore) : option ((bool * list Z) * JsonPrefStore) :=
  let s := match FilterSerializeData with
           | Some f => set_prefs s (f (root_map (prefs_ s)))
           | None => s
           end in
  serialized ← WriteWithOptions DoubleToString (texts s) (WriterOptions_ false false false)
                 (root_value (prefs_ s));
  Some (serialized, s).

Definition do_scheduled_write (w : World) (post_succeeds : bool) : option World :=
  guard (serializer_ (writer_ (store w)) = true);;
  '(serialized, s) ← SerializeData (store w);
  '(writer, tasks) ← DoScheduledWrite (writer_ s) serialized post_succeeds;
  Some (World_ (set_writer s writer) (frames w) (queue w ++ tasks) (files w) (replies w)
          (next_text w) (told w) (loaded w)
          (match last (omap written_text tasks) with Some data => Some data | None => last_write w end)).

Definition CommitPendingWrite (w : World) (post_succeeds : bool) : option World :=
  if HasPendingWrite (writer_ (store w)) && negb (read_only_ (store w))
  then do_scheduled_write w post_succeeds else Some w.

(** The beginning of [ReportValueChanged], after the change [s]. *)
Definition begin_report (w : World) (s : JsonPrefStore) (key : list Z) : World :=
  World_ s (ReportFrame :: frames w) (queue w) (files w) (replies w) (next_text w)
    (told w ++ [OnPrefValueChanged key]) (loaded w) (last_write w).

(** What [FinalizeFileRead] tells; its last notification is in progress. *)
Definition finalized (w : World) (r : JsonPrefStore * list Notice) : World :=
  let succeeded := bool_decide (OnInitializationCompleted true ∈ snd r) in
  World_ (fst r) (if bool_decide (snd r = []) then frames w else InitializationFrame :: frames w)
    (queue w) (files w) (replies w) (next_text w) (told w ++ snd r)
    (if succeeded then root_value (prefs_ (fst r)) else loaded w)
    (if succeeded then None else last_write w).

Definition step (w : World) (e : Event) : option World :=
  let s := store w in
  match e with
  | E_SetValue key value =>
      '(changed, s) ← change_value s key value;
      Some (if changed : bool then begin_report w s key else w)
  | E_SetValueSilently key value => set_store w <$> JsonPrefStore_SetValueSilently s key value
  | E_RemoveValue key =>
      let '(removed, s) := remove_value s key in
      Some (if removed then begin_report w s key else w)
  | E_RemoveValueSilently key => Some (set_store w (JsonPrefStore_RemoveValueSilently s key))
  | E_ReportValueChanged key => Some (begin_report w s key)
  | E_NotificationEnds =>
      match frames w with
      | [] => None
      | f :: fs =>
          let s := match f with ReportFrame => schedule_write s | InitializationFrame => s end in
          Some (World_ s fs (queue w) (files w) (replies w) (next_text w) (told w) (loaded w)
                  (last_write w))
      end
  | E_ReadPrefs faults =>
      '(r, files) ← ReadPrefsFromDisk LocalIsWhitespace StringToDouble path_ alternate_path_ bad_path
                      (files w) faults (next_text w);
      done ← OnFileRead has_filter s r;
      Some (finalized (World_ s (frames w) (queue w) files (replies w) (next_text w + 1)%N (told w)
                         (loaded w) (last_write w))
              done)
  | E_ReadPrefsAsync =>
      Some (World_ (set_error_delegate s false) (frames w) (queue w ++ [ReadTask]) (files w)
              (replies w) (next_text w) (told w) (loaded w) (last_write w))
  | E_CommitPendingWrite post_succeeds => CommitPendingWrite w post_succeeds
  | E_RegisterCallback => set_store w ∘ set_writer s <$> RegisterOnNextSuccessfulWriteCallback (writer_ s)
  | E_TimerFires post_succeeds =>
      (* a one-shot timer: it is not running any more when its task runs *)
      guard (timer_running (writer_ s) = true);;
      guard (frames w = []);;
      do_scheduled_write
        (set_store w (set_writer s (ImportantFileWriter_ false (serializer_ (writer_ s))
                                      (on_next_successful_write_ (writer_ s))))) post_succeeds
  | E_RunReply =>
      guard (frames w = []);;
      match replies w with
      | [] => None
      | r :: rs =>
          let w := World_ s (frames w) (queue w) (files w) rs (next_text w) (told w) (loaded w)
                     (last_write w) in
          match r with
          | FileRead r => done ← OnFileRead has_filter s r; Some (finalized w done)
          | FileWritten result =>
              Some (set_store w (set_writer s (snd (ForwardSuccessfulWrite (writer_ s) result))))
          end
      end
  | E_FilterDone n prefs write =>
      '(initialization_successful, root) ← loading s !! n;
      Some (finalized w
              (FinalizeFileRead (forget_loading s n) initialization_successful
                 (set_contents root prefs) write))
  | E_RunTask faults outcome =>
      match queue w with
      | [] => None
      | ReadTask :: q =>
          '(r, files) ← ReadPrefsFromDisk LocalIsWhitespace StringToDouble path_ alternate_path_
                          bad_path (files w) faults (next_text w);
          Some (World_ s (frames w) q files (replies w ++ [FileRead r]) (next_text w + 1)%N (told w)
                  (loaded w) (last_write w))
      | WriteTask data with_reply :: q =>
          guard (new_file (files w) outcome = true);;
          '(result, states) ← WriteFileAtomically (files w) path_ data outcome;
          Some (World_ s (frames w) q (default (files w) (last states))
                  (if with_reply : bool then replies w ++ [FileWritten result] else replies w)
                  (next_text w) (told w) (loaded w) (last_write w))
      end
  end.

Fixpoint run (w : World) (es : list Event) : option World :=
  match es with
  | [] => Some w
  | e :: es => w ← step w e; run w es
  end.

Definition new_World (disk : Files) : World :=
  World_ new_JsonPrefStore [] [] disk [] 0%N [] (DictionaryValue []) None.
End Machine.

(** ** The disk *)

(** The states of the disk during a write: nothing but the temporary file, the target
    and the name that a failed replacement gives the target changes; the target holds
    its old contents or the data, or has been taken away. *)
Definition atomic_state (files : Files) (path tmp : N) (data : list Z) (o : WriteOutcome) (disk : Files)
    : Prop :=
  (disk !! path = files !! path \/ disk !! path = Some data \/
   takes_target o = true /\ is_Some (files !! path) /\ disk !! path = None) /\
  forall p, p <> path -> p <> tmp -> target_name o <> Some p -> disk !! p = files !! p.

Lemma atomic_tmp files path tmp data o text :
  tmp <> path -> atomic_state files path tmp data o (<[tmp := text]> files).
Proof. intros Hne. split; [left | intros p _ Hp _]; by apply lookup_insert_ne. Qed.

Lemma atomic_delete files path tmp data o disk :
  tmp <> path -> atomic_state files path tmp data o disk ->
  atomic_state files path tmp data o (DeleteFile disk tmp o).
Proof.
  intros Hne [Ht Ho]. unfold DeleteFile. destruct (delete_succeeds o); [|done].
  assert (forall p, p <> tmp -> base.delete tmp disk !! p = disk !! p) as E
    by (intros p Hp; by apply lookup_delete_ne).
  split; [by rewrite E | intros p Hp Hpt Hn; rewrite E; auto].
Qed.

(** The temporary file is gone. *)
Lemma delete_new (files : Files) tmp text :
  files !! tmp = None -> base.delete tmp (<[tmp := text]> files) = files.
Proof. intros Ht. etrans; [apply delete_insert_eq | by apply delete_id]. Qed.

(** Whether the temporary file takes the place of the target. *)
Definition replaces (files : Files) (path : N) (o : WriteOutcome) : bool :=
  match files !! path with
  | Some _ => match replacement o with Replaced => true | _ => false end
  | None => move_succeeds o
  end.

(** The disk after a replacement that failed. *)
Definition not_replaced (disk : Files) (path : N) (o : WriteOutcome) : Files :=
  match disk !! path, replacement o with
  | Some _, TargetRemoved => base.delete path disk
  | Some old, TargetRenamed name => <[name := old]> (base.delete path disk)
  | _, _ => disk
  end.

Lemma ReplaceFile_new (files : Files) tmp path text o :
  tmp <> path ->
  let written := <[tmp := text]> files in
  ReplaceFile written tmp path o =
    (replaces files path o,
     if replaces files path o then <[path := text]> (base.delete tmp written)
     else not_replaced written path o).
Proof.
  intros Hne written. unfold ReplaceFile, replaces, not_replaced, PathExists.
  assert (written !! tmp = Some text) as -> by apply lookup_insert_eq.
  assert (written !! path = files !! path) as -> by by apply lookup_insert_ne.
  destruct (files !! path) as [old|]; simpl; [by destruct (replacement o)|].
  by destruct (move_succeeds o), (replacement o).
Qed.

Lemma atomic_replaced files path tmp data o text :
  tmp <> path ->
  atomic_state files path tmp data o (<[path := data]> (base.delete tmp (<[tmp := text]> files))).
Proof.
  intros Hne. split; [right; left; apply lookup_insert_eq|].
  intros p Hp Ht _. etrans; [by apply lookup_insert_ne|]. etrans; [by apply lookup_delete_ne|].
  by apply lookup_insert_ne.
Qed.

Lemma atomic_not_replaced files path tmp data o text :
  tmp <> path -> target_name o <> Some path ->
  atomic_state files path tmp data o (not_replaced (<[tmp := text]> files) path o).
Proof.
  intros Hne Hname. pose proof (atomic_tmp files path tmp data o text Hne) as Ht.
  unfold not_replaced. assert (<[tmp := text]> files !! path = files !! path) as -> by by apply lookup_insert_ne.
  destruct (files !! path) as [old|] eqn:Eold; [|done].
  unfold atomic_state, takes_target, target_name in *.
  destruct (replacement o) as [| | |name]; try done; (split; [right; right|intros p Hp Hpt Hpn]).
  - split; [done|]. split; [by eexists | apply lookup_delete_eq].
  - etrans; [by apply lookup_delete_ne|]. by apply lookup_insert_ne.
  - split; [done|]. split; [by eexists|].
    etrans; [apply lookup_insert_ne; congruence | apply lookup_delete_eq].
  - etrans; [apply lookup_insert_ne; congruence|].
    etrans; [by apply lookup_delete_ne|]. by apply lookup_insert_ne.
Qed.

(** Whether the calls after the writing of the data succeed. *)
Definition write_succeeds (files : Files) (path : N) (data : list Z) (o : WriteOutcome) : bool :=
  open_succeeds o && (Z.of_nat (length data) <=? bytes_written data o) && flush_succeeds o &&
  replaces files path o.

Lemma atomic_states files path tmp data o states :
  Forall (atomic_state files path tmp data o) states ->
  forall disk, disk ∈ states ->
    (disk !! path = files !! path \/ disk !! path = Some data \/
     takes_target o = true /\ is_Some (files !! path) /\ disk !! path = None) /\
    forall p, p <> path -> Some tmp <> Some p -> target_name o <> Some p -> disk !! p = files !! p.
Proof.
  intros Hs disk Hin. destruct (proj1 (Forall_forall _ _) Hs disk Hin) as [Ht Ho].
  split; [done|]. intros p Hp Hne Hn. apply Ho; congruence.
Qed.

Ltac all_states :=
  apply atomic_states; repeat first [apply Forall_nil_2 | apply Forall_cons_2]; auto.

(** The write when every call succeeds. *)
Lemma WriteFileAtomically_succeeds files path data tmp :
  Z.of_nat (length data) <= Int.max Int.int32 -> tmp <> path -> files !! tmp = None ->
  exists states, WriteFileAtomically files path data (all_succeed tmp) = Some (true, states) /\
    last states = Some (<[path := data]> files).
Proof.
  intros Hlen Hne Hfresh. unfold WriteFileAtomically, bytes_written. simpl.
  case_guard; [simpl|done]. rewrite Z.ltb_irrefl, Nat2Z.id, firstn_all, ReplaceFile_new by done.
  assert (replaces files path (all_succeed tmp) = true) as ->
    by (unfold replaces; by destruct (files !! path)).
  simpl. eexists; (split; [done|]); simpl; by rewrite delete_new.
Qed.

(** C20: The write of the preference file is never torn. Whatever the disk does with
    the calls, at every moment the file holds what it held before or all of the
    new contents, and no other file but the temporary one changes; the exception
    is a replacement that fails after it took the target away, which
    [::ReplaceFile] may do: then the file is not there. The write
    succeeds exactly when the temporary file is made, all bytes are written and
    flushed and the file is replaced; then the disk is the old one with the new
    contents and no temporary file. When it fails it changes nothing, provided
    that the temporary file can be opened and deleted and no replacement took the
    target away. *)
Theorem write_file_is_atomic files path data o :
  Z.of_nat (length data) <= Int.max Int.int32 ->
  (forall tmp, created o = Some tmp -> tmp <> path /\ files !! tmp = None) ->
  target_name o <> Some path ->
  exists result states,
    WriteFileAtomically files path data o = Some (result, states) /\
    (forall disk, disk ∈ states ->
      (disk !! path = files !! path \/ disk !! path = Some data \/
       takes_target o = true /\ is_Some (files !! path) /\ disk !! path = None) /\
      forall p, p <> path -> created o <> Some p -> target_name o <> Some p -> disk !! p = files !! p) /\
    result = (bool_decide (is_Some (created o)) && write_succeeds files path data o) /\
    (result = true -> last states = Some (<[path := data]> files)) /\
    (result = false -> open_succeeds o = true -> delete_succeeds o = true -> takes_target o = false ->
     last states = Some files).
Proof.
  intros Hlen Hnew Hname. unfold WriteFileAtomically, write_succeeds.
  destruct (created o) as [tmp|]; [|by eexists _, _; repeat split; try set_solver; simpl; intros disk ->%list_elem_of_singleton; auto].
  destruct (Hnew tmp eq_refl) as [Hne Hfresh].
  assert (forall text, atomic_state files path tmp data o (<[tmp := text]> files)) as Hat
    by (intros text; by apply atomic_tmp).
  assert (atomic_state files path tmp data o files) as Hid by (split; auto).
  assert (forall text, DeleteFile (<[tmp := text]> files) tmp o =
            if delete_succeeds o then files else <[tmp := text]> files) as Hdel
    by (intros text; unfold DeleteFile; by rewrite delete_new).
  assert (forall text, atomic_state files path tmp data o (DeleteFile (<[tmp := text]> files) tmp o)) as Had
    by (intros text; by apply atomic_delete).
  destruct (open_succeeds o); simpl.
  2: { eexists _, _. split; [done|]. split; [by all_states|]. by split. }
  case_guard; [|done]. simpl. set (text := take _ data).
  rewrite Z.leb_antisym.
  destruct (bytes_written data o <? Z.of_nat (length data)) eqn:Hshort; simpl.
  { eexists _, _. split; [done|]. split; [by all_states|].
    split; [done|]. split; [done|]. intros _ _ Hd _. by rewrite Hdel, Hd. }
  destruct (flush_succeeds o); simpl.
  2: { eexists _, _. split; [done|]. split; [by all_states|].
       split; [done|]. split; [done|]. intros _ _ Hd _. by rewrite Hdel, Hd. }
  assert (text = data) as -> by (apply Z.ltb_ge in Hshort; apply take_ge; lia).
  pose proof (atomic_not_replaced files path tmp data o data Hne Hname) as Hnot.
  rewrite ReplaceFile_new by done. cbv zeta. destruct (replaces files path o) eqn:Er; simpl.
  - eexists _, _. split; [done|].
    split; [all_states; by apply atomic_replaced|].
    split; [done|]. split; [|done]. intros _. by rewrite delete_new.
  - eexists _, _. split; [done|]. split; [all_states; by apply atomic_delete|].
    split; [done|]. split; [done|]. intros _ _ Hd Htk. unfold not_replaced, takes_target in *. simpl.
    destruct (_ !! path); [destruct (replacement o); try done|]; by rewrite Hdel, Hd.
Qed.

Lemma write_file_is_atomic_witness :
  let files : Files := {[ 1%N := [123; 125] ]} in
  let o := WriteOutcome_ (Some 2%N) true (Some 1) true true Replaced true in
  exists result states,
    WriteFileAtomically files 1 [91; 93] o = Some (result, states) /\
    (forall disk, disk ∈ states ->
      (disk !! 1%N = files !! 1%N \/ disk !! 1%N = Some [91; 93] \/
       takes_target o = true /\ is_Some (files !! 1%N) /\ disk !! 1%N = None) /\
      forall p, p <> 1%N -> created o <> Some p -> target_name o <> Some p -> disk !! p = files !! p) /\
    result = (bool_decide (is_Some (created o)) && write_succeeds files 1 [91; 93] o) /\
    (result = true -> last states = Some (<[1%N := [91; 93]]> files)) /\
    (result = false -> open_succeeds o = true -> delete_succeeds o = true -> takes_target o = false ->
     last states = Some files).
Proof.
  intros files o. apply (write_file_is_atomic files 1 [91; 93] o).
  - vm_compute. congruence.
  - intros tmp [= <-]. split; [congruence | reflexivity].
  - intros H. discriminate H.
Defined.

(** A temporary file that cannot be opened stays on the disk. *)
Lemma unopened_temporary_file_stays :
  (last ∘ snd <$> WriteFileAtomically ∅ 1 [123; 125]
     (WriteOutcome_ (Some 2%N) false None true true Replaced true)) = Some (Some {[ 2%N := [] ]}).
Proof. reflexivity. Qed.

(** When the replacement fails after it removed the target, the write then deletes the
    temporary file, the only file that is left of the two. *)
Lemma removed_target_loses_both_files :
  WriteFileAtomically {[ 1%N := [123; 125] ]} 1 [91; 93]
    (WriteOutcome_ (Some 2%N) true None true true TargetRemoved true) =
  Some (false, [{[ 1%N := [123; 125] ]}; {[ 1%N := [123; 125]; 2%N := [] ]};
                {[ 1%N := [123; 125]; 2%N := [91; 93] ]}; {[ 2%N := [91; 93] ]}; ∅]).
Proof. reflexivity. Qed.

(** ** What the store keeps and promises *)

(** The texts that a root owns. *)
Definition own_texts (st : Store) (r : Root) : Store :=
  match r with
  | HiddenRootValue (Some i) _ => match st !! i with Some text => {[ i := text ]} | None => ∅ end
  | _ => ∅
  end.

Definition root_ids (r : Root) : list N :=
  match r with HiddenRootValue (Some i) _ => [i] | _ => [] end.

(** A root is a well-formed dictionary whose strings are in the text it owns. *)
Definition root_owned (st : Store) (r : Root) : Prop :=
  wf_map (root_map r) /\ root_value r = DictionaryValue (root_map r) /\
  alive (own_texts st r) (root_value r) /\ forall i, i ∈ root_ids r -> is_Some (st !! i).

Lemma own_texts_subseteq st r : own_texts st r ⊆ st.
Proof.
  destruct r as [v|[i|] v]; simpl; try apply map_empty_subseteq.
  destruct (st !! i) as [text|] eqn:E; [|apply map_empty_subseteq].
  by apply map_singleton_subseteq_l.
Qed.

Lemma root_owned_alive st r : root_owned st r -> alive st (root_value r).
Proof. intros (_ & _ & Ha & _). eapply alive_mono; [apply own_texts_subseteq | done]. Qed.

Lemma root_map_set r d : root_map (set_contents r d) = d.
Proof. by destruct r. Qed.

Lemma own_texts_set st r d : own_texts st (set_contents r d) = own_texts st r.
Proof. by destruct r. Qed.

(** New contents are fine when their strings are in the root's text, too. *)
Lemma root_owned_set st r d :
  root_owned st r -> wf_map d -> alive (own_texts st r) (DictionaryValue d) ->
  root_owned st (set_contents r d).
Proof.
  intros (_ & _ & _ & Hi) Hw Ha. unfold root_owned. rewrite root_map_set, own_texts_set.
  destruct r; by split.
Qed.

Lemma root_owned_contents st r :
  root_owned st r -> wf_map (root_map r) /\ alive (own_texts st r) (DictionaryValue (root_map r)).
Proof. intros (Hw & E & Ha & _). split; [done|]. by rewrite <- E. Qed.

Lemma lookup_keys_alive st ks d v :
  alive st (DictionaryValue d) -> lookup_keys d ks = Some v -> alive st v.
Proof.
  revert d. induction ks as [|k [|l ks] IH]; intros d Hd; [by intros [= <-] | |].
  - rewrite lookup_keys_one. apply alive_dictionary in Hd. by apply Forall_map_find.
  - rewrite lookup_keys_cons. destruct (map_find d k) as [w|] eqn:E; [|done].
    apply alive_dictionary in Hd. apply (Forall_map_find (alive st)) in E; [|done].
    destruct w; try done. by apply IH.
Qed.

Lemma remove_keys_alive st ks d v d' :
  alive st (DictionaryValue d) -> remove_keys d ks = Some (v, d') -> alive st (DictionaryValue d').
Proof.
  revert d d'. induction ks as [|k [|l ks] IH]; intros d d' Hd; [done | |].
  - simpl. destruct (map_find d k); [|done]. intros [= _ <-].
    apply alive_dictionary in Hd. by apply alive_dictionary, Forall_map_erase.
  - rewrite remove_keys_cons. destruct (map_find d k) as [w|] eqn:E; [|done].
    pose proof (proj1 (alive_dictionary _ _) Hd) as Hf.
    apply (Forall_map_find (alive st)) in E; [|done]. destruct w as [| | | | | | |child|]; try done.
    destruct (remove_keys child (l :: ks)) as [[w child']|] eqn:Er; [|done]. simpl.
    intros [= -> <-]. pose proof (IH _ _ E Er) as Hc.
    assert (alive st (DictionaryValue (map_set d k (DictionaryValue child')))) as Hs
      by by apply alive_map_set.
    destruct child'; [|done]. apply alive_dictionary in Hs.
    by apply alive_dictionary, Forall_map_erase.
Qed.

Definition store_owned (s : JsonPrefStore) : Prop :=
  store_ok (texts s) /\ root_owned (texts s) (prefs_ s).

Lemma GetValue_set s d k : JsonPrefStore_GetValue (set_prefs s d) k = Get d k.
Proof. unfold JsonPrefStore_GetValue. simpl. by rewrite root_map_set. Qed.

Lemma GetValue_schedule s k :
  JsonPrefStore_GetValue (schedule_write s) k = JsonPrefStore_GetValue s k.
Proof. unfold schedule_write. by destruct (read_only_ s). Qed.

Lemma store_owned_schedule s : store_owned s -> store_owned (schedule_write s).
Proof. unfold schedule_write. by destruct (read_only_ s). Qed.

Lemma store_value s k v :
  store_owned s -> JsonPrefStore_GetValue s k = Some v -> wf v /\ alive (texts s) v.
Proof.
  intros [_ [Hw Ha]%root_owned_contents]. unfold JsonPrefStore_GetValue. rewrite Get_keys. intros E.
  split; [by eapply wf_lookup_keys|]. eapply alive_mono; [apply own_texts_subseteq|].
  by eapply lookup_keys_alive.
Qed.

(** The change that is made, if one is. *)
Lemma change_value_ok s k v :
  store_owned s -> Forall is_byte k -> wf v -> detached v ->
  exists changed s', change_value s k v = Some (changed, s') /\ store_owned s' /\
    (forall j, apart_paths k j -> JsonPrefStore_GetValue s' j = JsonPrefStore_GetValue s j) /\
    if changed : bool then JsonPrefStore_GetValue s' k = Some v
    else s' = s /\ exists old, JsonPrefStore_GetValue s k = Some old /\ GetType old = GetType v /\
         Equals (texts s) v old = Some true.
Proof.
  intros Hs Hk Hv Hd. pose proof Hs as [Hst [Hw Ha]%root_owned_contents].
  set (s' := set_prefs s (Set_ (root_map (prefs_ s)) k v)).
  assert (store_owned s') as Hs'.
  { split; [done|]. apply root_owned_set; [apply Hs | |]; rewrite Set_keys.
    - apply wf_set_keys; [done | by apply components_bytes | done].
    - apply alive_set_keys; [done | by apply alive_detached]. }
  assert (JsonPrefStore_GetValue s' k = Some v) as Hk'
    by (unfold s'; rewrite GetValue_set; apply Get_Set_same).
  assert (forall j, apart_paths k j -> JsonPrefStore_GetValue s' j = JsonPrefStore_GetValue s j) as Hj
    by (intros j Hkj; unfold s'; rewrite GetValue_set; by apply Get_Set_apart).
  unfold change_value. fold s'. destruct (Get (root_map (prefs_ s)) k) as [old|] eqn:E.
  2: { by exists true, s'. }
  destruct (store_value s k old Hs E) as [_ Hold].
  destruct (Equals_total (texts s) v old) as [[|] He]; [by apply alive_detached | done | |];
    rewrite He; simpl.
  - exists false, s. repeat split; try done; try apply Hs. exists old.
    repeat split; try done. by apply Equals_type in He.
  - by exists true, s'.
Qed.

Lemma remove_value_ok s k :
  store_owned s -> Forall is_byte k ->
  store_owned (snd (remove_value s k)) /\
  (fst (remove_value s k) = false -> snd (remove_value s k) = s) /\
  forall j, apart_paths k j ->
    JsonPrefStore_GetValue (snd (remove_value s k)) j = JsonPrefStore_GetValue s j.
Proof.
  intros Hs Hk. pose proof Hs as [Hst [Hw Ha]%root_owned_contents].
  unfold remove_value. rewrite RemovePath_keys.
  destruct (remove_keys _ _) as [[v d]|] eqn:E; simpl; [|by split].
  split; [split; [done|]|]; [|split; [done|]].
  - apply root_owned_set; [apply Hs | by apply wf_remove_keys in E as [_ ?]; try apply components_bytes| by eapply remove_keys_alive].
  - intros j Hj. rewrite GetValue_set. unfold JsonPrefStore_GetValue.
    rewrite !Get_keys. by apply (remove_keys_removed _ _ _ _ Hw E).
Qed.

#[export] Program Instance JsonPrefStore_laws : WriteableLaws JsonPrefStore := {
  store_inv := store_owned;
  store_admits _ k := Forall is_byte k;
  store_apart _ := apart_paths;
}.
Next Obligation. intros s k j. apply apart_paths_ne. Qed.
Next Obligation. by intros s [Hs _]. Qed.
Next Obligation. apply store_value. Qed.
Next Obligation.
  intros s k v Hs Hk Hv Hd. simpl. unfold JsonPrefStore_SetValue.
  destruct (change_value_ok s k v Hs Hk Hv Hd) as (changed & s' & -> & Hs' & Hj & Hch). simpl.
  destruct changed; eexists _, _; (split; [done|]).
  - split; [split; [by apply store_owned_schedule | done]|].
    split; [left; split; [by rewrite GetValue_schedule | done]|].
    intros j Hkj. rewrite GetValue_schedule. by apply Hj.
  - destruct Hch as (-> & old & Ho & Ht & He). split; [by split|]. split; [|done].
    right. split; [done|]. split; [done|]. exists old. auto.
Qed.
Next Obligation.
  intros s k Hs Hk. simpl. unfold JsonPrefStore_RemoveValue.
  destruct (remove_value_ok s k Hs Hk) as (Hs' & Hsame & Hj).
  destruct (remove_value s k) as [removed s']. simpl in *.
  destruct removed; eexists _, _; (split; [done|]).
  - split; [split; [by apply store_owned_schedule | done]|]. split; [by left|].
    intros j Hkj. rewrite GetValue_schedule. by apply Hj.
  - rewrite (Hsame eq_refl). split; [by split|]. split; [by right | done].
Qed.
Next Obligation.
  intros s k v Hs Hk Hv Hd. simpl. unfold JsonPrefStore_SetValueSilently.
  destruct (change_value_ok s k v Hs Hk Hv Hd) as (changed & s' & -> & Hs' & Hj & Hch). simpl.
  destruct changed; eexists; (split; [done|]).
  - split; [split; [by apply store_owned_schedule | done]|].
    split; [left; by rewrite GetValue_schedule|]. intros j Hkj. rewrite GetValue_schedule. by apply Hj.
  - destruct Hch as (-> & old & Ho & Ht & He). split; [by split|]. split; [|done].
    right. split; [done|]. exists old. auto.
Qed.
Next Obligation. intros s k Hs Hk. eexists _, _. split; [done|]. by split. Qed.
Next Obligation.
  intros s k Hs _. eexists. split; [done|]. split; [|apply GetValue_schedule].
  split; [by apply store_owned_schedule | done].
Qed.
