(* ===== verification/PrefFile.v ===== *)
(** * What the preference file keeps

    Invariants of the machine of [JsonPrefStore.v], for every sequence of its
    events: who owns the texts that preferences point into, that no change is
    forgotten, and that preferences survive a restart. *)
From Stdlib Require Import ZArith Lia Sorted.
From stdpp Require Import base numbers option sets gmap list.
From S2P Require Import Prelude Unicode StringNumbers Values PrefStores JsonWriter JsonParser.
From S2P Require Import JsonReader JsonGrammar JsonRoundTrip JsonPrefStore.
Local Open Scope Z_scope.

(** ** Who owns the texts *)

Lemma own_texts_keep st st' r :
  (forall i, i ∈ root_ids r -> st' !! i = st !! i) -> own_texts st' r = own_texts st r.
Proof.
  intros Hsame. destruct r as [v|[i|] v]; simpl in *; try done. by rewrite Hsame by set_solver.
Qed.

Lemma root_owned_keep st st' r :
  (forall i, i ∈ root_ids r -> st' !! i = st !! i) -> root_owned st r -> root_owned st' r.
Proof.
  intros Hsame (Hw & E & Ha & Hi). split; [done|]. split; [done|].
  rewrite (own_texts_keep st st') by done. split; [done|].
  intros i Hin. rewrite Hsame by done. by apply Hi.
Qed.

Lemma delete_root_other st r i : i ∉ root_ids r -> delete_root st r !! i = st !! i.
Proof.
  destruct r as [v|[j|] v]; simpl; try done. intros Hi.
  assert (base.delete j st !! i = st !! i) as -> by (apply lookup_delete_ne; set_solver). done.
Qed.

Lemma delete_root_subseteq st r : delete_root st r ⊆ st.
Proof. destruct r as [v|[j|] v]; simpl; try done. apply delete_subseteq. Qed.

Lemma store_ok_delete_root st r : store_ok st -> store_ok (delete_root st r).
Proof. intros Hst. destruct r as [v|[j|] v]; simpl; try done. by apply store_ok_delete. Qed.

Definition loading_ids (s : JsonPrefStore) : list N := concat ((root_ids ∘ snd) <$> loading s).

(** A store that also holds the root [r]. *)
Definition store_holds (s : JsonPrefStore) (r : Root) : Prop :=
  store_owned s /\ root_owned (texts s) r /\
  Forall (fun e => root_owned (texts s) e.2) (loading s) /\
  NoDup (root_ids (prefs_ s) ++ root_ids r ++ loading_ids s).

Definition empty_root : Root := PlainRoot (DictionaryValue []).

Definition StoreOk (s : JsonPrefStore) : Prop := store_holds s empty_root.

Lemma empty_root_owned st : root_owned st empty_root.
Proof.
  split; [apply wf_map_nil|]. split; [done|]. split; [by apply alive_dictionary|]. simpl. set_solver.
Qed.

Lemma loading_ids_elem s e i : e ∈ loading s -> i ∈ root_ids e.2 -> i ∈ loading_ids s.
Proof.
  intros He Hi. unfold loading_ids. apply list_elem_of_In, in_concat. exists (root_ids e.2).
  split; [|by apply list_elem_of_In].
  apply list_elem_of_In, list_elem_of_fmap. by exists e.
Qed.

(** The contents change to others of the same root. *)
Lemma store_holds_contents s s' r :
  store_holds s r -> store_owned s' -> texts s' = texts s -> loading s' = loading s ->
  root_ids (prefs_ s') = root_ids (prefs_ s) -> store_holds s' r.
Proof.
  intros (Hs & Hr & Hl & Hnd) Hs' Ht El Ei. split; [done|]. unfold loading_ids. rewrite Ht, El, Ei. done.
Qed.

(** The root that is held is destroyed, or takes the place of the contents. *)
Lemma store_holds_finalize s r b write :
  store_holds s r ->
  StoreOk (fst (FinalizeFileRead s b r write)) /\
  texts (fst (FinalizeFileRead s b r write)) ⊆ texts s.
Proof.
  intros ([Hst Hp] & Hr & Hl & Hnd). apply NoDup_app in Hnd as (Hnp & Hdis & (Hnr & Hrl & Hnl)%NoDup_app).
  assert (forall r' i, i ∈ loading_ids s -> (r' = r \/ r' = prefs_ s) -> i ∉ root_ids r') as Hload.
  { intros r' i Hi [-> | ->] Hin; [by apply (Hrl i) | by apply (Hdis i Hin); set_solver]. }
  assert (forall r', r' = r \/ r' = prefs_ s ->
            Forall (fun e => root_owned (delete_root (texts s) r') e.2) (loading s)) as Hkeep.
  { intros r' Hr'. apply Forall_forall. intros e He. rewrite Forall_forall in Hl.
    eapply root_owned_keep; [|by apply Hl]. intros i Hi.
    apply delete_root_other. apply (Hload r' i); [by eapply loading_ids_elem | done]. }
  unfold FinalizeFileRead. destruct b; simpl.
  - assert (store_holds (JsonPrefStore_ r (delete_root (texts s) (prefs_ s)) (read_only_ s) (writer_ s)
      (loading s) (error_delegate_ s) true false (read_error_ s)) empty_root) as Hok.
    { split; [split; [by apply store_ok_delete_root|]|].
      - eapply root_owned_keep; [|exact Hr]. intros i Hi. apply delete_root_other. set_solver.
      - split; [apply empty_root_owned|]. split; [by apply Hkeep; right|]. simpl.
        apply NoDup_app. auto. }
    destruct write; [|by split; [|apply delete_root_subseteq]].
    unfold schedule_write. simpl. by destruct (read_only_ s); (split; [|apply delete_root_subseteq]).
  - split; [|apply delete_root_subseteq]. split; [split; [by apply store_ok_delete_root|]|].
    + eapply root_owned_keep; [|exact Hp]. intros i Hi. apply delete_root_other. set_solver.
    + split; [apply empty_root_owned|]. split; [by apply Hkeep; left|]. simpl.
      apply NoDup_app. repeat split; [done | set_solver | done].
Qed.

(** What a read promises: an error that [OnFileRead] expects, and on success a
    root that is a dictionary in a text of its own. *)
Definition result_ok (id : N) (r : ReadResult) : Prop :=
  not_reached (error r) = false /\ store_ok (result_texts r) /\
  (forall i, is_Some (result_texts r !! i) -> i = id) /\
  (error r = PREF_READ_ERROR_NONE ->
   exists root, value r = Some root /\ root_owned (result_texts r) root).

Lemma store_holds_read s r root id :
  StoreOk s -> result_ok id r -> result_texts r ##ₘ texts s -> root_owned (result_texts r) root ->
  forall read_only error,
  store_holds (JsonPrefStore_ (prefs_ s) (texts s ∪ result_texts r) read_only (writer_ s) (loading s)
    (error_delegate_ s) (initialized_ s) (filtering_in_progress_ s) error) root.
Proof.
  intros ([Hst Hp] & _ & Hl & Hnd) (_ & Hrt & _ & _) Hdis Hroot read_only error.
  assert (forall i, is_Some (texts s !! i) -> (texts s ∪ result_texts r) !! i = texts s !! i) as Hleft.
  { intros i [text Hi]. rewrite Hi. by apply lookup_union_Some_l. }
  assert (forall r', root_owned (texts s) r' -> root_owned (texts s ∪ result_texts r) r') as Hkeep.
  { intros r' Hr'. eapply root_owned_keep; [|exact Hr']. intros i Hi. apply Hleft.
    by apply Hr'. }
  assert (forall i, i ∈ root_ids root -> texts s !! i = None) as Hnew.
  { intros i Hi. destruct Hroot as (_ & _ & _ & Hin). destruct (Hin i Hi) as [text Ht].
    by eapply map_disjoint_Some_l. }
  split; [split; [|by apply Hkeep]|].
  { apply map_Forall_union_2; done. }
  split; [|split].
  - eapply root_owned_keep; [|exact Hroot]. intros i Hi. by apply lookup_union_r, Hnew.
  - eapply Forall_impl; [exact Hl|]. intros e. apply Hkeep.
  - simpl in *. apply NoDup_app in Hnd as (Hnp & Hpl & Hnl).
    assert (forall i, i ∈ root_ids root -> i ∉ root_ids (prefs_ s) ++ loading_ids s) as Hfresh.
    { intros i Hi Hin. apply Hnew in Hi. apply elem_of_app in Hin as [Hin|Hin].
      - destruct Hp as (_ & _ & _ & Hin'). destruct (Hin' i Hin). congruence.
      - unfold loading_ids in Hin. apply list_elem_of_In, in_concat in Hin as (l & Hl' & Hin).
        apply list_elem_of_In, list_elem_of_fmap in Hl' as (e & -> & He).
        rewrite Forall_forall in Hl. destruct (Hl e He) as (_ & _ & _ & Hin').
        destruct (Hin' i); [by apply list_elem_of_In | congruence]. }
    apply NoDup_app. split; [done|]. split; [intros i Hi; set_solver|]. apply NoDup_app.
    split; [destruct root as [|[]]; repeat constructor; set_solver|]. split; [|done]. set_solver.
Qed.

Lemma OnFileRead_ok filter s r id s' notices :
  StoreOk s -> result_ok id r -> result_texts r ##ₘ texts s ->
  OnFileRead filter s r = Some (s', notices) ->
  StoreOk s' /\ texts s' ⊆ texts s ∪ result_texts r.
Proof.
  intros Hs Hr Hdis. unfold OnFileRead. case_guard; [|done]. simpl.
  set (ok := negb (result_no_dir r)). set (read_only := read_only_ s || _).
  pose (after := fun alive => JsonPrefStore_ (prefs_ s) alive read_only (writer_ s) (loading s)
    (error_delegate_ s) (initialized_ s) (filtering_in_progress_ s) (error r)).
  assert (texts s ⊆ texts s ∪ result_texts r) as Hsub by apply map_union_subseteq_l.
  assert (forall s1 root, store_holds s1 root -> texts s1 ⊆ texts s ∪ result_texts r ->
    (if filter
     then (JsonPrefStore_ (prefs_ s1) (texts s1) (read_only_ s1) (writer_ s1)
             (loading s1 ++ [(ok, root)]) (error_delegate_ s1) (initialized_ s1) true (read_error_ s1), [])
     else FinalizeFileRead s1 ok root false) = (s', notices) ->
    StoreOk s' /\ texts s' ⊆ texts s ∪ result_texts r) as Hend.
  { intros s1 root Hh Hsub1. destruct filter.
    - intros [= <- _]. split; [|done]. destruct Hh as (Hown & Hroot & Hl & Hnd).
      split; [done|]. split; [apply empty_root_owned|]. split; [apply Forall_app_2; [done|]; by apply Forall_singleton|].
      unfold loading_ids in *. simpl in *. rewrite fmap_app, concat_app. simpl. rewrite app_nil_r.
      rewrite (Permutation_app_comm (concat _)). done.
    - intros E. pose proof (store_holds_finalize s1 root ok false Hh) as [H1 H2]. rewrite E in *.
      split; [done|]. by etrans. }
  destruct (ok && bool_decide (error r = PREF_READ_ERROR_NONE)) eqn:Enone.
  - apply andb_true_iff in Enone as [_ Enone%bool_decide_eq_true].
    pose proof Hr as (_ & _ & _ & Hroot). destruct (Hroot Enone) as (root & -> & Hown). simpl.
    intros E%(inj Some). refine (Hend (after (texts s ∪ result_texts r)) root _ _ E); [|done].
    by apply (store_holds_read s r root id).
  - simpl. intros E%(inj Some). refine (Hend (after (texts s)) empty_root _ Hsub E).
    destruct Hs as (Hown & He & Hl & Hnd). by split.
Qed.

Definition disk_ok (files : Files) : Prop := map_Forall (fun _ text => document_ok text) files.

Lemma Move_ok files from to fails : disk_ok files -> disk_ok (Move files from to fails).
Proof.
  intros Hf. unfold Move. destruct (files !! from) as [text|] eqn:E; [|done].
  destruct fails; [done|]. apply map_Forall_insert_2; [by apply (Hf from)|]. by apply map_Forall_delete.
Qed.

Section Reads.
Context (LocalIsWhitespace : Z -> bool) (StringToDouble : list Z -> option double).

Lemma Deserialize_ok path_ files fault id :
  disk_ok files ->
  exists v texts, Deserialize LocalIsWhitespace StringToDouble path_ files fault id = Some (v, texts) /\
    store_ok texts /\ (forall i, is_Some (texts !! i) -> i = id) /\
    forall root, v = inr root -> IsType TYPE_DICTIONARY (root_value root) = true -> root_owned texts root.
Proof.
  intros Hf. unfold Deserialize.
  assert (store_ok ∅) as Hempty by apply map_Forall_empty.
  assert (forall i, is_Some ((∅ : Store) !! i) -> i = id) as Hnone by (intros i [? ?]; done).
  destruct (ReadFileToString path_ files fault) as [e|text] eqn:Er.
  { exists (inl e), ∅. by repeat split. }
  assert (document_ok text) as [Hb Hlen].
  { unfold ReadFileToString in Er. destruct (files !! path_) as [t|] eqn:E; [|by destruct fault as [[]|]].
    destruct fault as [[]|]; try done. injection Er as <-. by apply (Hf path_). }
  unfold ReadAndReturnError.
  destruct (Parse_ok LocalIsWhitespace StringToDouble ∅ JSON_PARSE_RFC id text [0] new_JSONParser)
    as (r & st & p & -> & _ & Hr); [done | | done |].
  { split; [done|]. split; [done|]. intros _. exists []. by repeat constructor. }
  assert (store_ok st /\ forall i, is_Some (st !! i) -> i = id) as [Hst Hid].
  { destruct r as [[v|j v]|]; simpl in Hr.
    - destruct Hr as (-> & _). done.
    - destruct Hr as (_ & -> & _). split; [by apply parse_store_ok|]. intros i [t Hi].
      by apply lookup_insert_Some in Hi as [[<- _]|[_ Hi]].
    - by subst st. }
  destruct r as [r|]; simpl.
  - eexists _, st. split; [done|]. split; [done|]. split; [done|].
    intros root [= <-] Hd. assert (root_value r = DictionaryValue (root_map r)) as Edict.
    { unfold root_map. by destruct (root_value r). }
    destruct r as [v|j v]; simpl in *.
    + destruct Hr as (-> & Hw & Hdet & _). split; [by rewrite Edict in Hw|]. split; [done|].
      split; [by apply alive_detached | set_solver].
    + destruct Hr as (-> & -> & (_ & Hw & Ha) & _). split; [by rewrite Edict in Hw|]. split; [done|].
      assert (<[id := text]> (∅ : Store) !! id = Some text) as Hl by apply lookup_insert_eq.
      unfold own_texts. rewrite Hl. split; [exact Ha|]. intros i Hi.
      apply list_elem_of_singleton in Hi as ->. by exists text.
  - eexists _, st. split; [done|]. by repeat split.
Qed.

Lemma ReadPrefsFromDisk_ok path_ alternate_path_ bad_path files faults id :
  disk_ok files ->
  exists r files', ReadPrefsFromDisk LocalIsWhitespace StringToDouble path_ alternate_path_ bad_path
                     files faults id = Some (r, files') /\ result_ok id r /\ disk_ok files'.
Proof.
  intros Hf. unfold ReadPrefsFromDisk.
  set (files1 := match alternate_path_ with Some _ => _ | None => files end).
  assert (disk_ok files1) as Hf1.
  { unfold files1. destruct alternate_path_; [|done]. destruct (_ && _); [by apply Move_ok | done]. }
  destruct (Deserialize_ok path_ files1 (read_fault faults) id Hf1)
    as (v & texts & -> & Hst & Hid & Hroot). simpl.
  destruct (HandleReadErrors _ _ _ v _) as [e files2] eqn:Eh. eexists _, _. split; [done|].
  assert (not_reached e = false /\ disk_ok files2 /\
          (e = PREF_READ_ERROR_NONE -> exists root, v = inr root /\ root_owned texts root))
    as (He & Hf2 & Hnone).
  { unfold HandleReadErrors in Eh. destruct v as [[| | | |code]|root].
    1-4: by injection Eh as <- <-.
    - injection Eh as <- <-. destruct (PathExists files1 bad_path);
        (split; [done|]; split; [by apply Move_ok | done]).
    - destruct (IsType TYPE_DICTIONARY (root_value root)) eqn:Et; injection Eh as <- <-; [|done].
      split; [done|]. split; [done|]. intros _. exists root. eauto. }
  split; [|done]. split; [done|]. split; [done|]. split; [done|].
  simpl. intros ->. destruct (Hnone eq_refl) as (root & -> & Ho). by exists root.
Qed.
End Reads.

(** *** The store among its surroundings *)

Definition reply_texts (r : Reply) : Store :=
  match r with FileRead r => result_texts r | FileWritten _ => ∅ end.

Definition reply_ok (r : Reply) : Prop :=
  match r with FileRead r => exists id, result_ok id r | FileWritten _ => True end.

Definition all_texts (w : World) : list Store := texts (store w) :: (reply_texts <$> replies w).

Definition texts_below (n : N) (st : Store) : Prop := forall i, is_Some (st !! i) -> (i < n)%N.

(** Every text has one owner, and names of texts are not used twice. *)
Record WorldOk (w : World) : Prop := {
  world_store : StoreOk (store w);
  world_replies : Forall reply_ok (replies w);
  world_apart : ForallOrdPairs map_disjoint (all_texts w);
  world_below : Forall (texts_below (next_text w)) (all_texts w);
}.

(** What a client gives is well-formed, what a filter gives back is in the text of
    the root it was given, and files that are read are byte strings that fit. *)
Definition event_ok (w : World) (e : Event) : Prop :=
  match e with
  | E_SetValue key v | E_SetValueSilently key v => Forall is_byte key /\ wf v /\ detached v
  | E_RemoveValue key | E_RemoveValueSilently key => Forall is_byte key
  | E_FilterDone n prefs _ =>
      forall b root, loading (store w) !! n = Some (b, root) ->
      wf_map prefs /\ alive (own_texts (texts (store w)) root) (DictionaryValue prefs)
  | E_ReadPrefs _ => disk_ok (files w)
  | E_RunTask _ _ => head (queue w) = Some ReadTask -> disk_ok (files w)
  | _ => True
  end.

Lemma StoreOk_contents s s' :
  StoreOk s -> store_owned s' -> texts s' = texts s -> loading s' = loading s ->
  root_ids (prefs_ s') = root_ids (prefs_ s) -> StoreOk s'.
Proof. apply store_holds_contents. Qed.

(** A step that leaves the texts and the replies alone. *)
Lemma WorldOk_store w w' :
  WorldOk w -> StoreOk (store w') -> texts (store w') = texts (store w) ->
  replies w' = replies w -> next_text w' = next_text w -> WorldOk w'.
Proof.
  intros [_ Hr Ha Hb] Hs Ht Er En. split; [done | by rewrite Er | |];
    unfold all_texts; rewrite Ht, Er, ?En; done.
Qed.

(** Fewer texts in the store. *)
Lemma texts_shrink (st st' : Store) l :
  st' ⊆ st -> ForallOrdPairs map_disjoint (st :: l) -> ForallOrdPairs map_disjoint (st' :: l).
Proof.
  intros Hsub Hp. inversion Hp as [|? ? Hst Hl]; subst. constructor; [|done].
  eapply Forall_impl; [exact Hst|]. intros st2 Hd. by eapply map_disjoint_weaken_l.
Qed.

Lemma texts_below_mono n m st st' :
  (n <= m)%N -> st' ⊆ st -> texts_below n st -> texts_below m st'.
Proof.
  intros Hn Hsub Hb i [t Hi]. eapply N.lt_le_trans; [apply Hb|done].
  exists t. by apply (lookup_weaken st' st).
Qed.

(** Two states of a store with the same roots, up to their contents. *)
Definition same_roots (s s' : JsonPrefStore) : Prop :=
  texts s' = texts s /\ loading s' = loading s /\ root_ids (prefs_ s') = root_ids (prefs_ s).

Lemma same_roots_refl s : same_roots s s.
Proof. done. Qed.

Lemma same_roots_trans s1 s2 s3 : same_roots s1 s2 -> same_roots s2 s3 -> same_roots s1 s3.
Proof. intros (H1 & H2 & H3) (H4 & H5 & H6). unfold same_roots. by rewrite H4, H5, H6. Qed.

Lemma same_roots_set s d : same_roots s (set_prefs s d).
Proof. split; [done|]. split; [done|]. simpl. by destruct (prefs_ s). Qed.

Lemma same_roots_writer s w : same_roots s (set_writer s w).
Proof. done. Qed.

Lemma same_roots_schedule s : same_roots s (schedule_write s).
Proof. unfold schedule_write. by destruct (read_only_ s). Qed.

Lemma same_roots_change s k v changed s' :
  change_value s k v = Some (changed, s') -> same_roots s s'.
Proof.
  unfold change_value. destruct (Get _ _) as [old|]; [|intros [= _ <-]; apply same_roots_set].
  destruct (Equals _ _ _) as [[]|]; simpl; [| |done]; intros [= _ <-]; [done | apply same_roots_set].
Qed.

Lemma same_roots_remove s k : same_roots s (snd (remove_value s k)).
Proof. unfold remove_value. destruct (RemovePath _ _) as [[v d]|]; [apply same_roots_set | done]. Qed.

Lemma WorldOk_same_roots w w' :
  WorldOk w -> store_owned (store w') -> same_roots (store w) (store w') ->
  replies w' = replies w -> next_text w' = next_text w -> WorldOk w'.
Proof.
  intros Hw Ho (Ht & Hl & Hi). apply WorldOk_store; [done | | done].
  apply (StoreOk_contents (store w)); try done. apply Hw.
Qed.

Lemma OrdPairs_cons {A} (R : A -> A -> Prop) a l :
  ForallOrdPairs R (a :: l) <-> Forall (R a) l /\ ForallOrdPairs R l.
Proof.
  split; [|by intros [? ?]; constructor]. intros H.
  by inversion H.
Qed.

Lemma OrdPairs_snoc {A} (R : A -> A -> Prop) l b :
  Forall (fun a => R a b) l -> ForallOrdPairs R l -> ForallOrdPairs R (l ++ [b]).
Proof.
  intros Hb Hp. induction Hp as [|a l Ha Hp IH]; [by repeat constructor|].
  apply Forall_cons in Hb as [Hab Hb]. apply OrdPairs_cons. split; [|by apply IH].
  apply Forall_app_2; [done | by apply Forall_singleton].
Qed.

Lemma OrdPairs_last {A} (R : A -> A -> Prop) (Rsym : forall a b, R a b -> R b a) a l b :
  ForallOrdPairs R (a :: l ++ [b]) -> ForallOrdPairs R (a :: b :: l).
Proof.
  rewrite !OrdPairs_cons, Forall_app, !Forall_cons. intros ([Hl [Hab _]] & Hp).
  split; [done|]. clear Hl Hab. induction l as [|c l IH]; simpl in *; [by apply OrdPairs_cons in Hp|].
  apply OrdPairs_cons in Hp as [[Hc [Hcb _]%Forall_cons]%Forall_app [Hb Hp]%IH].
  rewrite Forall_cons, OrdPairs_cons. auto.
Qed.

Section Steps.
Context (LocalIsWhitespace : Z -> bool) (StringToDouble : list Z -> option double).
Context (DoubleToString : double -> list Z).
Context (path_ : N) (alternate_path_ : option N) (bad_path : N).
Context (FilterSerializeData : option (ValueMap -> ValueMap)).

(** A filter that leaves a well-formed dictionary whose strings are in the same
    texts. *)
Definition filter_ok : Prop :=
  forall f st d, FilterSerializeData = Some f -> wf_map d -> alive st (DictionaryValue d) ->
    wf_map (f d) /\ alive st (DictionaryValue (f d)).

Context (Hfilter : filter_ok).

#[local] Abbreviation run_step := (step LocalIsWhitespace StringToDouble DoubleToString path_ alternate_path_
  bad_path FilterSerializeData).
#[local] Abbreviation run_all := (run LocalIsWhitespace StringToDouble DoubleToString path_ alternate_path_
  bad_path FilterSerializeData).

Lemma SerializeData_ok s serialized s' :
  store_owned s -> SerializeData DoubleToString FilterSerializeData s = Some (serialized, s') ->
  store_owned s' /\ same_roots s s'.
Proof using Hfilter.
  intros Hs. unfold SerializeData. destruct FilterSerializeData as [f|] eqn:Ef.
  2: { destruct (WriteWithOptions _ _ _ _); simpl; [|done]. by intros [= _ <-]. }
  destruct (WriteWithOptions _ _ _ _); simpl; [|done]. intros [= _ <-].
  split; [|apply same_roots_set]. destruct Hs as [Hst Hp]. split; [done|].
  pose proof (root_owned_contents _ _ Hp) as [Hw Ha].
  destruct (Hfilter f _ _ Ef Hw Ha) as [Hw' Ha']. by apply root_owned_set.
Qed.

Lemma do_scheduled_write_ok w post w' :
  WorldOk w -> do_scheduled_write DoubleToString FilterSerializeData w post = Some w' -> WorldOk w'.
Proof using Hfilter.
  intros Hw. unfold do_scheduled_write. case_guard; [|done]. simpl.
  destruct (SerializeData _ _ _) as [[serialized s]|] eqn:Es; [simpl|done].
  apply SerializeData_ok in Es as [Ho Hr]; [|apply Hw].
  destruct (DoScheduledWrite _ _ _) as [[writer tasks]|]; [simpl|done]. intros [= <-].
  by apply (WorldOk_same_roots w).
Qed.

(** The end of a load, whether the reply has gone or not. *)
Lemma WorldOk_finalized w s notices n rest extra :
  StoreOk s -> Forall reply_ok rest -> ForallOrdPairs map_disjoint (extra :: (reply_texts <$> rest)) ->
  Forall (texts_below n) (extra :: (reply_texts <$> rest)) -> texts s ⊆ extra ->
  replies w = rest -> next_text w = n -> WorldOk (finalized w (s, notices)).
Proof.
  intros Hs Hr Hd Hb Hsub Er En. split; [done | by rewrite <- Er in Hr | |];
    unfold all_texts; simpl; rewrite Er.
  - by eapply texts_shrink.
  - rewrite En. apply Forall_cons in Hb as [Hb Hbs]. apply Forall_cons_2; [|done].
    by eapply texts_below_mono.
Qed.

Lemma store_owned_remove s k : store_owned s -> Forall is_byte k -> store_owned (snd (remove_value s k)).
Proof. intros Hs Hk. by apply remove_value_ok. Qed.

Lemma step_client_ok w e w' :
  WorldOk w -> event_ok w e -> run_step w e = Some w' ->
  match e with
  | E_SetValue _ _ | E_SetValueSilently _ _ | E_RemoveValue _ | E_RemoveValueSilently _ => True
  | _ => False
  end -> WorldOk w'.
Proof.
  intros Hw He Hstep Hkind. pose proof Hw as [[Ho _] _ _ _].
  assert (forall s w1, store_owned s -> same_roots (store w) s -> store w1 = s ->
            replies w1 = replies w -> next_text w1 = next_text w -> WorldOk w1) as Hend.
  { intros s w1 Hs Hr <- Er En. by apply (WorldOk_same_roots w). }
  destruct e as [k v|k v|k|k|k| | | | | | | | |]; try done; cbn [step event_ok] in *.
  - destruct He as (Hk & Hv & Hd).
    destruct (change_value_ok _ k v Ho Hk Hv Hd) as (changed & s & E & Hs & _). rewrite E in Hstep.
    injection Hstep as <-. apply same_roots_change in E. destruct changed; [|done]. by apply (Hend s).
  - destruct He as (Hk & Hv & Hd). unfold JsonPrefStore_SetValueSilently in Hstep.
    destruct (change_value_ok _ k v Ho Hk Hv Hd) as (changed & s & E & Hs & _). rewrite E in Hstep.
    injection Hstep as <-. apply same_roots_change in E.
    apply (Hend (if changed then schedule_write s else s)); try done; destruct changed; try done.
    + by apply store_owned_schedule.
    + eapply same_roots_trans; [done | apply same_roots_schedule].
  - pose proof (same_roots_remove (store w) k) as Hr. pose proof (store_owned_remove _ _ Ho He) as Hs.
    destruct (remove_value (store w) k) as [[] s]; injection Hstep as <-; [|done]. by apply (Hend s).
  - injection Hstep as <-. eapply Hend; [| | done..]; unfold JsonPrefStore_RemoveValueSilently.
    + by apply store_owned_schedule, store_owned_remove.
    + eapply same_roots_trans; [apply same_roots_remove | apply same_roots_schedule].
Qed.

Lemma WorldOk_files w files q :
  WorldOk w -> WorldOk (World_ (store w) (frames w) q files (replies w) (next_text w) (told w)
                          (loaded w) (last_write w)).
Proof. intros [H1 H2 H3 H4]. by split. Qed.

(** A read adds a reply, or the texts that its reply would have. *)
Lemma WorldOk_read w r :
  WorldOk w -> result_ok (next_text w) r ->
  Forall reply_ok (replies w ++ [FileRead r]) /\
  ForallOrdPairs map_disjoint (texts (store w) :: (reply_texts <$> replies w ++ [FileRead r])) /\
  Forall (texts_below (next_text w + 1)) (texts (store w) :: (reply_texts <$> replies w ++ [FileRead r])) /\
  result_texts r ##ₘ texts (store w).
Proof.
  intros [_ Hr Hd Hb] Hres. pose proof Hres as (_ & _ & Hid & _).
  assert (forall st, texts_below (next_text w) st -> st ##ₘ result_texts r) as Hnew.
  { intros st Hst. apply map_disjoint_alt. intros i. destruct (st !! i) eqn:E; [|by left].
    right. apply eq_None_not_Some. intros Hi%Hid. subst i.
    assert (next_text w < next_text w)%N by (apply Hst; by eexists). lia. }
  unfold all_texts in *. rewrite fmap_app. simpl. split; [|split; [|split]].
  - apply Forall_app_2; [done|]. apply Forall_singleton. by exists (next_text w).
  - change (?a :: ?l ++ ?m) with ((a :: l) ++ m).
    apply OrdPairs_snoc; [|done]. eapply Forall_impl; [exact Hb|]. exact Hnew.
  - change (?a :: ?l ++ ?m) with ((a :: l) ++ m). apply Forall_app_2.
    + eapply Forall_impl; [exact Hb|]. intros st. apply texts_below_mono; [lia | done].
    + apply Forall_singleton. intros i ->%Hid. lia.
  - apply Forall_cons in Hb as [Hb _]. by apply map_disjoint_sym, Hnew.
Qed.

Lemma WorldOk_loaded w s r s' notices n id :
  StoreOk s -> result_ok id r -> OnFileRead (has_filter FilterSerializeData) s r = Some (s', notices) ->
  Forall reply_ok (replies w) ->
  ForallOrdPairs map_disjoint (texts s :: result_texts r :: (reply_texts <$> replies w)) ->
  Forall (texts_below n) (texts s :: result_texts r :: (reply_texts <$> replies w)) ->
  next_text w = n -> WorldOk (finalized w (s', notices)).
Proof.
  intros Hs Hr Hload Hrep Hd Hb En.
  apply OrdPairs_cons in Hd as [[Hsr Hsl]%Forall_cons [Hrl Hl]%OrdPairs_cons]. subst n.
  apply Forall_cons in Hb as [Hbs [Hbr Hbl]%Forall_cons].
  destruct (OnFileRead_ok (has_filter FilterSerializeData) s r id s' notices Hs Hr) as [Hs' Hsub]; [by apply map_disjoint_sym | done|].
  apply (WorldOk_finalized w s' notices (next_text w) (replies w) (texts s ∪ result_texts r)); try done.
  - constructor; [|done]. apply Forall_forall. intros st Hst. rewrite Forall_forall in Hsl, Hrl.
    apply map_disjoint_union_l. auto.
  - apply Forall_cons_2; [|done]. intros i [t Hi]. apply lookup_union_Some_raw in Hi as [Hi|[_ Hi]];
      [apply Hbs | apply Hbr]; by exists t.
Qed.

Lemma step_load_ok w e w' :
  WorldOk w -> event_ok w e -> run_step w e = Some w' ->
  match e with E_ReadPrefs _ | E_RunReply | E_FilterDone _ _ _ | E_RunTask _ _ => True | _ => False end ->
  WorldOk w'.
Proof.
  intros Hw He Hstep Hkind. pose proof Hw as [Hs Hr Hd Hb].
  destruct e as [| | | | | |faults| | | | | |n prefs write|faults outcome]; try done;
    cbn [step event_ok] in *.
  - destruct (ReadPrefsFromDisk_ok LocalIsWhitespace StringToDouble path_ alternate_path_ bad_path
      (files w) faults (next_text w) He) as (r & fs & E & Hres & _). rewrite E in Hstep. simpl in Hstep.
    destruct (OnFileRead _ _ r) as [[s' notices]|] eqn:El; [simpl in Hstep|done]. injection Hstep as <-.
    destruct (WorldOk_read w r Hw Hres) as (_ & Hd' & Hb' & _). rewrite fmap_app in Hd', Hb'.
    eapply (WorldOk_loaded _ (store w)); [done | exact Hres | done | done | | | done]; simpl.
    + apply OrdPairs_last; [|done]. intros a b. by apply map_disjoint_sym.
    + apply Forall_cons in Hb' as [? [? [? _]%Forall_cons]%Forall_app]. by repeat constructor.
  - case_guard; [simpl in Hstep|done]. unfold all_texts in Hd, Hb.
    destruct (replies w) as [|[r|result] rs] eqn:Er; [done| |].
    + apply Forall_cons in Hr as [[id Hres] Hr].
      destruct (OnFileRead _ _ r) as [[s' notices]|] eqn:El; [simpl in Hstep|done]. injection Hstep as <-.
      by eapply (WorldOk_loaded _ (store w)).
    + injection Hstep as <-. apply Forall_cons in Hr as [_ Hr].
      apply OrdPairs_cons in Hd as [[_ Ht]%Forall_cons [_ Hd]%OrdPairs_cons].
      apply Forall_cons in Hb as [Hbt [_ Hb]%Forall_cons].
      split; simpl; [done | done | by apply OrdPairs_cons | by apply Forall_cons_2].
  - destruct (loading (store w) !! n) as [[b root]|] eqn:El; [simpl in Hstep|done]. injection Hstep as <-.
    destruct (He b root eq_refl) as [Hwf Ha].
    assert (store_holds (forget_loading (store w) n) (set_contents root prefs)) as Hh.
    { destruct Hs as (Ho & _ & Hl & Hnd). pose proof (list_elem_of_lookup_2 _ _ _ El) as Hin.
      rewrite Forall_forall in Hl.
      split; [done|]. split; [by apply root_owned_set; [apply (Hl (b, root)) | |]|]. split.
      - simpl. rewrite <- (take_drop_middle (loading (store w)) n _ El) in Hl. apply Forall_forall.
        intros e Hein. apply Hl. set_solver.
      - assert (root_ids (set_contents root prefs) = root_ids root) as -> by by destruct root.
        unfold loading_ids in *. simpl in *.
        rewrite <- (take_drop_middle (loading (store w)) n _ El), fmap_app, concat_app in Hnd.
        rewrite fmap_app, concat_app. simpl in Hnd.
        rewrite (Permutation_app_swap_app (root_ids root)). done. }
    destruct (store_holds_finalize _ _ b write Hh) as [Hs' Hsub].
    destruct (FinalizeFileRead _ _ _ _) as [s' notices].
    by eapply (WorldOk_finalized w s' notices _ _ (texts (store w))).
  - destruct (queue w) as [|[|data with_reply] q] eqn:Eq; [done| |].
    + destruct (ReadPrefsFromDisk_ok LocalIsWhitespace StringToDouble path_ alternate_path_ bad_path
        (files w) faults (next_text w) (He eq_refl)) as (r & fs & E & Hres & _). rewrite E in Hstep.
      injection Hstep as <-. destruct (WorldOk_read w r Hw Hres) as (Hr' & Hd' & Hb' & _). by split.
    + case_guard; [simpl in Hstep|done].
      destruct (WriteFileAtomically _ _ _ _) as [[result states]|]; [simpl in Hstep|done].
      injection Hstep as <-. destruct with_reply; [|by apply WorldOk_files].
      split; unfold all_texts in *; simpl; rewrite ?fmap_app;
        [done | by apply Forall_app_2; [|apply Forall_singleton] | |];
        change (?a :: ?l ++ ?m) with ((a :: l) ++ m).
      * apply OrdPairs_snoc; [|done]. apply Forall_forall. intros st _. apply map_disjoint_empty_r.
      * apply Forall_app_2; [done|]. apply Forall_singleton. by intros i [].
Qed.

Lemma pref_step_ok w e w' : WorldOk w -> event_ok w e -> run_step w e = Some w' -> WorldOk w'.
Proof using Hfilter.
  intros Hw He Hstep. pose proof Hw as [[Ho _] _ _ _].
  destruct e as [| | | |k| | | |post| |post| | |]; try (by eapply step_client_ok);
    try (by eapply step_load_ok); cbn [step] in Hstep.
  - injection Hstep as <-. by apply (WorldOk_same_roots w).
  - destruct (frames w) as [|[] fs]; [done| |]; injection Hstep as <-;
      (apply (WorldOk_same_roots w); [done | | |done..]); simpl; try done.
    + by apply store_owned_schedule.
    + apply same_roots_schedule.
  - injection Hstep as <-. by apply (WorldOk_same_roots w).
  - unfold CommitPendingWrite in Hstep. destruct (_ && _); [by eapply do_scheduled_write_ok|].
    by injection Hstep as <-.
  - destruct (RegisterOnNextSuccessfulWriteCallback _); [|done]. injection Hstep as <-.
    by apply (WorldOk_same_roots w).
  - repeat (case_guard; simpl in Hstep; try done). eapply do_scheduled_write_ok; [|exact Hstep].
    by apply (WorldOk_same_roots w).
Qed.

(** The events of a run are fine, each where it happens. *)
Fixpoint events_ok (w : World) (es : list Event) : Prop :=
  match es with
  | [] => True
  | e :: es => event_ok w e /\ forall w', run_step w e = Some w' -> events_ok w' es
  end.

Lemma run_ok es w w' : WorldOk w -> events_ok w es -> run_all w es = Some w' -> WorldOk w'.
Proof using Hfilter.
  revert w. induction es as [|e es IH]; intros w Hw He Hrun; simpl in *; [by injection Hrun as <-|].
  destruct (run_step w e) as [w1|] eqn:E; [simpl in Hrun|done]. destruct He as [He Hes].
  apply (IH w1); [by eapply pref_step_ok | by apply Hes | done].
Qed.

Lemma OnFileRead_total s r id :
  result_ok id r -> is_Some (OnFileRead (has_filter FilterSerializeData) s r).
Proof.
  intros (He & _ & _ & Hroot). unfold OnFileRead. rewrite He, andb_false_r. simpl.
  destruct (negb _ && bool_decide _) eqn:E; [|eexists; reflexivity].
  apply andb_true_iff in E as [_ E%bool_decide_eq_true]. destruct (Hroot E) as (root & -> & _).
  eexists. reflexivity.
Qed.

(** What never fails: reading, notifications, and the calls of clients but for
    [CommitPendingWrite], which may have nothing to serialize with, or a text that is
    too long, and for a second callback. *)
Definition never_fails (w : World) (e : Event) : Prop :=
  match e with
  | E_SetValue _ _ | E_SetValueSilently _ _ | E_RemoveValue _ | E_RemoveValueSilently _
  | E_ReportValueChanged _ | E_ReadPrefs _ | E_ReadPrefsAsync => True
  | E_RegisterCallback => on_next_successful_write_ (writer_ (store w)) = false
  | E_NotificationEnds => frames w <> []
  | E_RunReply => frames w = [] /\ replies w <> []
  | E_FilterDone n _ _ => (n < length (loading (store w)))%nat
  | E_RunTask _ _ => head (queue w) = Some ReadTask
  | _ => False
  end.

Lemma step_total w e : WorldOk w -> event_ok w e -> never_fails w e -> is_Some (run_step w e).
Proof.
  intros [[Ho _] Hr _ _] He Hn.
  destruct e as [k v|k v|k|k|k| |faults| | | | | |n prefs write|faults outcome]; try done;
    cbn [step event_ok never_fails] in *.
  - destruct He as (Hk & Hv & Hd).
    destruct (change_value_ok _ k v Ho Hk Hv Hd) as (changed & s & -> & _). by eexists.
  - destruct He as (Hk & Hv & Hd). unfold JsonPrefStore_SetValueSilently.
    destruct (change_value_ok _ k v Ho Hk Hv Hd) as (changed & s & -> & _). by eexists.
  - destruct (remove_value _ _). by eexists.
  - destruct (frames w); [done | by eexists].
  - destruct (ReadPrefsFromDisk_ok LocalIsWhitespace StringToDouble path_ alternate_path_ bad_path
      (files w) faults (next_text w) He) as (r & fs & -> & Hres & _). simpl.
    destruct (OnFileRead_total (store w) r _ Hres) as [done ->]. by eexists.
  - unfold RegisterOnNextSuccessfulWriteCallback. rewrite Hn. by eexists.
  - destruct Hn as [-> Hn]. simpl. destruct (replies w) as [|[r|result] rs]; [done| |by eexists].
    apply Forall_cons in Hr as [[id Hres] _].
    destruct (OnFileRead_total (store w) r id Hres) as [done ->]. by eexists.
  - apply lookup_lt_is_Some_2 in Hn as [[b root] ->]. by eexists.
  - destruct (queue w) as [|[|] q]; try done.
    destruct (ReadPrefsFromDisk_ok LocalIsWhitespace StringToDouble path_ alternate_path_ bad_path
      (files w) faults (next_text w) (He eq_refl)) as (r & fs & -> & Hres & _). by eexists.
Qed.
End Steps.

Lemma new_World_ok disk : WorldOk (new_World disk).
Proof.
  split; simpl.
  - split; [split; [apply map_Forall_empty | apply empty_root_owned]|].
    split; [apply empty_root_owned|]. by repeat constructor.
  - constructor.
  - by repeat constructor.
  - apply Forall_singleton. by intros i [].
Qed.

(** ** The text of the contents *)

(** What is written of a value does not depend on the texts it does not point into. *)
Lemma BuildJSONString_mono DoubleToString options st st' v :
  st ⊆ st' -> alive st v -> forall depth,
  BuildJSONString DoubleToString st options v depth = BuildJSONString DoubleToString st' options v depth.
Proof.
  intros Hst. induction v as [|b|z|x|s|p|b|d IH|l IH] using Value_ind; intros Ha depth; try done.
  - destruct Ha as [c Hc]. inversion Hc as [? s Hp|? Hleaf| |]; subst; [|done]. simpl.
    by rewrite Hp, (piece_bytes_mono st st' p s Hst Hp).
  - apply alive_dictionary in Ha. rewrite !build_dictionary.
    assert (forall first result, write_entries DoubleToString st options depth d first result =
                                 write_entries DoubleToString st' options depth d first result) as ->; [|done].
    induction d as [|[k v] d IHd]; intros first result; simpl; [done|].
    apply Forall_cons in IH as [IHv IH]. apply Forall_cons in Ha as [Hv Ha]. simpl in *.
    destruct (omitted options v); [by apply IHd|]. rewrite (IHv Hv (S depth)).
    destruct (EscapeJSONString k true) as [[]|]; simpl; [|done].
    destruct (BuildJSONString _ st' _ v _) as [[ok s]|]; simpl; [|done]. by rewrite (IHd IH Ha).
  - apply alive_list in Ha. rewrite !build_list.
    assert (forall first result, write_items DoubleToString st options depth l first result =
                                 write_items DoubleToString st' options depth l first result) as ->; [|done].
    induction l as [|v l IHl]; intros first result; simpl; [done|].
    apply Forall_cons in IH as [IHv IH]. apply Forall_cons in Ha as [Hv Ha].
    destruct (omitted options v); [by apply IHl|]. rewrite (IHv Hv depth).
    destruct (BuildJSONString _ st' _ v _) as [[ok s]|]; simpl; [|done]. by rewrite (IHl IH Ha).
Qed.

(** What a write of the contents answers, as they are. *)
Definition contents_text (DoubleToString : double -> list Z) (s : JsonPrefStore) : option (bool * list Z) :=
  WriteWithOptions DoubleToString (texts s) (WriterOptions_ false false false) (root_value (prefs_ s)).

Lemma contents_text_owned DoubleToString s :
  root_owned (texts s) (prefs_ s) ->
  contents_text DoubleToString s =
  WriteWithOptions DoubleToString (own_texts (texts s) (prefs_ s)) (WriterOptions_ false false false)
    (root_value (prefs_ s)).
Proof.
  intros (_ & _ & Ha & _). unfold contents_text, WriteWithOptions.
  by rewrite (BuildJSONString_mono DoubleToString _ _ _ _ (own_texts_subseteq (texts s) (prefs_ s)) Ha).
Qed.

(** Texts of other roots come and go. *)
Lemma contents_text_keep DoubleToString s s' extra :
  root_owned (texts s) (prefs_ s) -> root_owned (texts s') (prefs_ s') -> prefs_ s' = prefs_ s ->
  texts s' ⊆ texts s ∪ extra -> contents_text DoubleToString s' = contents_text DoubleToString s.
Proof.
  intros Hs Hs' Ep Hsub. rewrite !contents_text_owned, Ep by done. f_equal.
  apply own_texts_keep. intros i Hi.
  destruct Hs as (_ & _ & _ & Hin). destruct (Hin i Hi) as [t Ht].
  destruct Hs' as (_ & _ & _ & Hin'). rewrite Ep in Hin'. destruct (Hin' i Hi) as [t' Ht'].
  pose proof (lookup_weaken _ _ _ _ Ht' Hsub) as Hu.
  rewrite (lookup_union_Some_l _ _ _ _ Ht) in Hu. congruence.
Qed.

(** ** No change is forgotten *)

Section Kept.
Context (LocalIsWhitespace : Z -> bool) (StringToDouble : list Z -> option double).
Context (DoubleToString : double -> list Z).
Context (path_ : N) (alternate_path_ : option N) (bad_path : N).
Context (FilterSerializeData : option (ValueMap -> ValueMap)).

#[local] Abbreviation run_step := (step LocalIsWhitespace StringToDouble DoubleToString path_ alternate_path_
  bad_path FilterSerializeData).
#[local] Abbreviation run_all := (run LocalIsWhitespace StringToDouble DoubleToString path_ alternate_path_
  bad_path FilterSerializeData).
#[local] Abbreviation contents := (contents_text DoubleToString).

(** The timer will have the contents serialized. *)
Definition write_pending (s : JsonPrefStore) : Prop :=
  timer_running (writer_ s) = true /\ serializer_ (writer_ s) = true.

(** The contents have no JSON text. *)
Definition unwritable (s : JsonPrefStore) : Prop := exists text, contents s = Some (false, text).

(** The contents are those that were loaded, or their text is that of the last write
    that was posted since. *)
Definition up_to_date (w : World) : Prop :=
  match last_write w with
  | None => root_value (prefs_ (store w)) = loaded w
  | Some data => contents (store w) = Some (true, data)
  end.

(** Whatever was changed since the contents were read or written will be written:
    the timer runs, or will be started when the observers have been told. *)
Definition kept (w : World) : Prop :=
  ReportFrame ∈ frames w \/ read_only_ (store w) = true \/ write_pending (store w) \/
  unwritable (store w) \/ up_to_date w.

Lemma kept_schedule w s :
  store w = schedule_write s -> kept w.
Proof.
  intros E. unfold kept, write_pending. rewrite E. unfold schedule_write.
  destruct (read_only_ s) eqn:Er; simpl; auto.
Qed.

Lemma kept_same w w' :
  kept w -> (ReportFrame ∈ frames w -> ReportFrame ∈ frames w') ->
  (read_only_ (store w) = true -> read_only_ (store w') = true) ->
  (write_pending (store w) -> write_pending (store w')) ->
  contents (store w') = contents (store w) -> prefs_ (store w') = prefs_ (store w) ->
  loaded w' = loaded w -> last_write w' = last_write w -> kept w'.
Proof.
  unfold kept, unwritable, up_to_date. intros Hk Hf Hr Hw Hc -> -> ->. rewrite Hc.
  destruct Hk as [Hk|[Hk|[Hk|[Hk|Hk]]]]; auto 10.
Qed.

Lemma kept_report w s key : kept (begin_report w s key).
Proof. left. by left. Qed.

(** The end of a load takes the contents as loaded, or leaves everything. *)
Lemma kept_finalized w s b r write :
  kept w -> (read_only_ (store w) = true -> read_only_ s = true) -> writer_ s = writer_ (store w) ->
  prefs_ s = prefs_ (store w) ->
  (b = false -> contents (fst (FinalizeFileRead s b r write)) = contents (store w)) ->
  kept (finalized w (FinalizeFileRead s b r write)).
Proof.
  intros Hk Hro Hwr Hp Hc. unfold FinalizeFileRead in *. destruct b; unfold finalized; simpl in *.
  - do 4 right. unfold up_to_date. simpl. rewrite !bool_decide_true by set_solver.
    destruct write; [|done]. unfold schedule_write. simpl. by destruct (read_only_ s).
  - eapply kept_same; [exact Hk | | done | | by apply Hc | done..]; simpl; [set_solver|].
    unfold write_pending. simpl. by rewrite Hwr.
Qed.

(** The store that a load leaves when it does not take its contents. *)
Lemma OnFileRead_left filter s r s' notices :
  OnFileRead filter s r = Some (s', notices) ->
  OnInitializationCompleted true ∈ notices \/
  prefs_ s' = prefs_ s /\ writer_ s' = writer_ s /\ (read_only_ s = true -> read_only_ s' = true) /\
  OnInitializationCompleted true ∉ notices.
Proof.
  unfold OnFileRead. case_guard; [simpl|done].
  set (x := if _ : bool then (_ : option (Root * Store)) else _).
  destruct x as [[root alive]|]; [simpl|done]. destruct filter.
  { intros [= <- <-]. right. simpl. split_and!; try done; [by intros -> | set_solver]. }
  unfold FinalizeFileRead. destruct (result_no_dir r); intros [= <- <-]; simpl.
  - right. split_and!; try done; [by intros -> | set_solver].
  - left. set_solver.
Qed.

Lemma kept_read filter w s r id s' notices :
  kept w -> StoreOk (store w) -> s = store w -> result_ok id r -> result_texts r ##ₘ texts s ->
  OnFileRead filter s r = Some (s', notices) -> kept (finalized w (s', notices)).
Proof.
  intros Hk Hs -> Hr Hd Hload.
  destruct (OnFileRead_ok _ _ _ _ _ _ Hs Hr Hd Hload) as [Hs' Hsub].
  apply OnFileRead_left in Hload as [Hin | (Hp & Hwr & Hro & Hnot)].
  - do 4 right. unfold up_to_date, finalized. simpl. by rewrite !bool_decide_true by done.
  - eapply kept_same; [exact Hk| | exact Hro| |simpl|done|simpl; by rewrite bool_decide_false..];
      unfold finalized; simpl.
    + destruct (bool_decide _); set_solver.
    + unfold write_pending. by rewrite Hwr.
    + by eapply contents_text_keep; [apply Hs | apply Hs' | done | exact Hsub].
Qed.

(** What a write that is due does: it hands the text of the contents to a task, or
    there is none. *)
Lemma write_effect w post w' :
  do_scheduled_write DoubleToString FilterSerializeData w post = Some w' ->
  frames w' = frames w /\ loaded w' = loaded w /\ serializer_ (writer_ (store w')) = false /\
  ((exists data, contents (store w') = Some (true, data) /\ last_write w' = Some data /\
      timer_running (writer_ (store w')) = false /\
      queue w' = queue w ++ [WriteTask data (on_next_successful_write_ (writer_ (store w)))]) \/
   unwritable (store w') /\ last_write w' = last_write w /\ queue w' = queue w /\
   timer_running (writer_ (store w')) = timer_running (writer_ (store w))).
Proof.
  unfold do_scheduled_write. case_guard as Hser; [simpl|done]. unfold SerializeData.
  set (s := match FilterSerializeData with Some _ => _ | None => _ end).
  assert (writer_ s = writer_ (store w)) as Hw by by unfold s; destruct FilterSerializeData.
  destruct (WriteWithOptions _ _ _ _) as [[ok text]|] eqn:Et; [simpl|done]. rewrite Hw.
  unfold DoScheduledWrite. case_guard; [simpl|done]. destruct ok; simpl.
  - unfold WriteNow. repeat (case_guard; simpl; try done). intros [= <-]. simpl.
    split_and!; try done. left. by exists text.
  - intros [= <-]. simpl. rewrite app_nil_r. split_and!; try done. right.
    split_and!; try done. by exists text.
Qed.

(** Nothing else can be in the way of a pending write. *)
Lemma commit_total w ok data s :
  serializer_ (writer_ (store w)) = true ->
  SerializeData DoubleToString FilterSerializeData (store w) = Some (ok, data, s) ->
  Z.of_nat (length data) <= Int.max Int.int32 ->
  is_Some (do_scheduled_write DoubleToString FilterSerializeData w true).
Proof.
  intros Hs Hser Hlen. unfold do_scheduled_write. rewrite Hs, Hser. simpl.
  assert (writer_ s = writer_ (store w)) as ->.
  { unfold SerializeData in Hser. destruct FilterSerializeData;
      (destruct (WriteWithOptions _ _ _ _); [|done]); by injection Hser as _ <-. }
  unfold DoScheduledWrite. rewrite Hs. case_guard; [|done]. simpl. destruct ok; simpl; [|eexists; reflexivity].
  unfold WriteNow. repeat (case_guard; [|done]). eexists; reflexivity.
Qed.

Lemma kept_write w post w' :
  do_scheduled_write DoubleToString FilterSerializeData w post = Some w' -> kept w'.
Proof.
  intros (_ & _ & _ & [(data & Hc & Hl & _)|(Hu & _)])%write_effect; unfold kept; [|by auto].
  do 4 right. unfold up_to_date. by rewrite Hl.
Qed.

Context (Hfilter : filter_ok FilterSerializeData).

(** The store after a load was read for. *)
Lemma kept_step_load w e w' :
  kept w -> WorldOk w -> event_ok w e -> run_step w e = Some w' ->
  match e with E_ReadPrefs _ | E_RunReply | E_FilterDone _ _ _ | E_RunTask _ _ => True | _ => False end ->
  kept w'.
Proof.
  intros Hk Hw He Hstep Hkind. pose proof Hw as [Hs Hr Hd _].
  assert (WorldOk w') as Hok by (by eapply pref_step_ok).
  destruct e as [| | | | | |faults| | | | | |n prefs write|faults outcome]; try done;
    cbn [step event_ok] in *.
  - destruct (ReadPrefsFromDisk_ok LocalIsWhitespace StringToDouble path_ alternate_path_ bad_path
      (files w) faults (next_text w) He) as (r & fs & E & Hres & _). rewrite E in Hstep. simpl in Hstep.
    destruct (WorldOk_read w r Hw Hres) as (_ & _ & _ & Hdis).
    destruct (OnFileRead _ _ r) as [[s' notices]|] eqn:El; [simpl in Hstep|done]. injection Hstep as <-.
    by eapply (kept_read _ _ (store w)).
  - case_guard; [simpl in Hstep|done]. unfold all_texts in Hd.
    destruct (replies w) as [|[r|result] rs] eqn:Er; [done| |].
    + apply Forall_cons in Hr as [[id Hres] _]. apply OrdPairs_cons in Hd as [[Hd _]%Forall_cons _].
      destruct (OnFileRead _ _ r) as [[s' notices]|] eqn:El; [simpl in Hstep|done]. injection Hstep as <-.
      by eapply (kept_read _ _ (store w)).
    + injection Hstep as <-. apply (kept_same w); try done. unfold write_pending. simpl.
      unfold ForwardSuccessfulWrite. by destruct (_ && _).
  - destruct (loading (store w) !! n) as [[b root]|] eqn:El; [simpl in Hstep|done].
    injection Hstep as <-.
    apply kept_finalized; try done. intros ->.
    eapply (contents_text_keep _ _ _ ∅); [apply Hs | | done | simpl].
    + exact (proj2 (proj1 (world_store _ Hok))).
    + etrans; [apply delete_root_subseteq | apply map_union_subseteq_l].
  - destruct (queue w) as [|[|data rep] q]; [done| |].
    + destruct (ReadPrefsFromDisk _ _ _ _ _ _ _ _) as [[r fs]|]; [|done]. injection Hstep as <-.
      by apply (kept_same w).
    + case_guard; [simpl in Hstep|done].
      destruct (WriteFileAtomically _ _ _ _) as [[result states]|]; [|done]. injection Hstep as <-.
      by apply (kept_same w).
Qed.

Lemma kept_step w e w' : kept w -> WorldOk w -> event_ok w e -> run_step w e = Some w' -> kept w'.
Proof.
  intros Hk Hw He Hstep. pose proof Hstep as Hstep0.
  destruct e as [k v|k v|k|k|k| |faults| |post| |post| |n prefs write|faults outcome];
    try (by eapply kept_step_load); cbn [step] in Hstep.
  - destruct (change_value _ _ _) as [[[] s]|]; [| |done]; injection Hstep as <-; [|done].
    apply kept_report.
  - unfold JsonPrefStore_SetValueSilently, change_value in Hstep.
    destruct (Get _ _) as [old|]; [|injection Hstep as <-; by eapply kept_schedule].
    destruct (Equals _ _ _) as [[]|]; [| |done]; injection Hstep as <-; [|by eapply kept_schedule].
    by apply (kept_same w).
  - destruct (remove_value _ _) as [[] s]; injection Hstep as <-; [apply kept_report | done].
  - injection Hstep as <-. by eapply kept_schedule.
  - injection Hstep as <-. apply kept_report.
  - destruct (frames w) as [|[] fs] eqn:Ef; [done| |]; injection Hstep as <-; [by eapply kept_schedule|].
    apply (kept_same w); try done. rewrite Ef. simpl. set_solver.
  - injection Hstep as <-. by apply (kept_same w).
  - unfold CommitPendingWrite in Hstep. destruct (_ && _); [by eapply kept_write|]. by injection Hstep as <-.
  - destruct (RegisterOnNextSuccessfulWriteCallback _) as [wr|] eqn:E; [|done]. injection Hstep as <-.
    unfold RegisterOnNextSuccessfulWriteCallback in E. case_guard; [|done]. injection E as <-.
    by apply (kept_same w).
  - repeat (case_guard; simpl in Hstep; try done). by eapply kept_write.
Qed.

Lemma kept_run es w w' :
  kept w -> WorldOk w ->
  events_ok LocalIsWhitespace StringToDouble DoubleToString path_ alternate_path_ bad_path
    FilterSerializeData w es ->
  run_all w es = Some w' -> kept w'.
Proof using Hfilter.
  revert w. induction es as [|e es IH]; intros w Hk Hw Hes Hrun; simpl in *; [by injection Hrun as <-|].
  destruct (run_step w e) as [w1|] eqn:E; [simpl in Hrun|done]. destruct Hes as [He Hes].
  eapply (IH w1); [ | | by apply Hes | done]; [by eapply kept_step | by eapply pref_step_ok].
Qed.

Lemma kept_new disk : kept (new_World disk).
Proof. by do 4 right. Qed.
End Kept.

(** ** What the file holds *)

Section Restart.
Context (LocalIsWhitespace : Z -> bool) (StringToDouble : list Z -> option double).
Context (DoubleToString : double -> list Z).
Context (path_ : N) (alternate_path_ : option N) (bad_path : N).

#[local] Abbreviation run_step := (step LocalIsWhitespace StringToDouble DoubleToString path_ alternate_path_
  bad_path None).
#[local] Abbreviation run_all := (run LocalIsWhitespace StringToDouble DoubleToString path_ alternate_path_
  bad_path None).

(** What may happen after a load, if the disk does what it is asked to. *)
Definition quiet (e : Event) : Prop :=
  match e with
  | E_ReadPrefs _ | E_ReadPrefsAsync | E_FilterDone _ _ _ => False
  | E_RunTask _ outcome => exists tmp, outcome = all_succeed tmp /\ tmp <> path_
  | _ => True
  end.

(** The text that the file will hold when the tasks have run. *)
Definition newest (w : World) : option (list Z) :=
  match last (omap written_text (queue w)) with
  | Some text => Some text
  | None => files w !! path_
  end.

(** Nothing is being loaded; [v] are the contents that were loaded; the text that
    was written last is or will be in the file. *)
Record Quiet (st : Store) (v : Value) (w : World) : Prop := {
  quiet_texts : texts (store w) = st;
  quiet_loading : loading (store w) = [];
  quiet_queue : Forall (fun t => is_Some (written_text t)) (queue w);
  quiet_sizes : Forall (fun t => match t with
    WriteTask data _ => Z.of_nat (length data) <= Int.max Int.int32 | ReadTask => True end) (queue w);
  quiet_replies : Forall (fun r => exists b, r = FileWritten b) (replies w);
  quiet_last : match last_write w with
    | None => loaded w = v
    | Some text => newest w = Some text
    end;
}.

(** A step of the store alone. *)
Lemma Quiet_store st v w w' :
  Quiet st v w -> texts (store w') = texts (store w) -> loading (store w') = loading (store w) ->
  queue w' = queue w -> files w' = files w -> replies w' = replies w -> loaded w' = loaded w ->
  last_write w' = last_write w -> Quiet st v w'.
Proof.
  intros [H1 H2 H3 H4 H5 H6] Et El Eq Ef Er Es Ew.
  split; unfold newest in *; rewrite ?Et, ?El, ?Eq, ?Ef, ?Er, ?Es, ?Ew; done.
Qed.

Lemma Quiet_roots st v w w' :
  Quiet st v w -> same_roots (store w) (store w') ->
  queue w' = queue w -> files w' = files w -> replies w' = replies w -> loaded w' = loaded w ->
  last_write w' = last_write w -> Quiet st v w'.
Proof. intros Hq (Et & El & _). by apply Quiet_store. Qed.

Lemma Quiet_write st v w post w' :
  Quiet st v w -> do_scheduled_write DoubleToString None w post = Some w' -> Quiet st v w'.
Proof.
  intros [H1 H2 H3 H4 H5 H6]. unfold do_scheduled_write. case_guard; [simpl|done].
  unfold SerializeData.
  destruct (WriteWithOptions _ _ _ (root_value (prefs_ (store w)))) as [[ok data]|] eqn:Ew;
    simpl; [|done].
  unfold DoScheduledWrite. case_guard; [simpl|done]. destruct ok; simpl.
  - unfold WriteNow. repeat (case_guard; simpl; try done). intros [= <-].
    split; simpl; try done.
    + apply Forall_app_2; [done|]. apply Forall_singleton. by eexists.
    + by apply Forall_app_2; [|apply Forall_singleton].
    + unfold newest. simpl. rewrite omap_app. simpl. by rewrite last_snoc.
  - intros [= <-]. split; unfold newest in *; simpl; rewrite ?app_nil_r; done.
Qed.

Lemma Quiet_task st v w data rep q tmp w' faults :
  Quiet st v w -> queue w = WriteTask data rep :: q -> tmp <> path_ ->
  run_step w (E_RunTask faults (all_succeed tmp)) = Some w' -> Quiet st v w'.
Proof.
  intros [H1 H2 H3 H4 H5 H6] Eq Hne Hstep. cbn [step] in Hstep. rewrite Eq in *.
  apply Forall_cons in H3 as [_ H3]. apply Forall_cons in H4 as [Hlen H4].
  case_guard as Hfresh; [simpl in Hstep|done].
  assert (files w !! tmp = None) as Hnew.
  { unfold new_file, PathExists in Hfresh. simpl in Hfresh.
    apply negb_true_iff, bool_decide_eq_false in Hfresh. by apply eq_None_not_Some. }
  destruct (WriteFileAtomically_succeeds (files w) path_ data tmp Hlen Hne Hnew) as (states & E & El).
  rewrite E in Hstep. simpl in Hstep. rewrite El in Hstep. simpl in Hstep. injection Hstep as <-.
  split; simpl; try done.
  - destruct rep; [|done]. apply Forall_app_2; [done|]. apply Forall_singleton. by eexists.
  - destruct (last_write w) as [text|]; [|done]. unfold newest in *. rewrite Eq in H6. cbn [queue files].
    change (omap written_text (WriteTask data rep :: q)) with (data :: omap written_text q) in H6.
    rewrite last_cons in H6. destruct (last (omap written_text q)); [done|].
    injection H6 as <-. apply lookup_insert_eq.
Qed.

Lemma Quiet_step st v w e w' : Quiet st v w -> quiet e -> run_step w e = Some w' -> Quiet st v w'.
Proof.
  intros Hq He Hstep. destruct e as [k x|k x|k|k|k| |faults| |post| |post| |n prefs write|faults outcome];
    try done; cbn [step] in Hstep.
  - destruct (change_value _ _ _) as [[[] s]|] eqn:E; [| |done]; injection Hstep as <-; [|done].
    eapply Quiet_roots; [done | by eapply same_roots_change | done..].
  - unfold JsonPrefStore_SetValueSilently in Hstep.
    destruct (change_value _ _ _) as [[changed s]|] eqn:E; [|done]. injection Hstep as <-.
    eapply Quiet_roots; [done | | done..]. eapply same_roots_trans; [by eapply same_roots_change|].
    destruct changed; [apply same_roots_schedule | done].
  - pose proof (same_roots_remove (store w) k) as Hr.
    destruct (remove_value _ _) as [[] s]; injection Hstep as <-; [|done]. by eapply Quiet_roots.
  - injection Hstep as <-. eapply Quiet_roots; [done | | done..].
    eapply same_roots_trans; [apply same_roots_remove | apply same_roots_schedule].
  - injection Hstep as <-. by eapply Quiet_roots.
  - destruct (frames w) as [|[] fs]; [done| |]; injection Hstep as <-;
      (eapply Quiet_roots; [done | | done..]); [apply same_roots_schedule | done].
  - unfold CommitPendingWrite in Hstep. destruct (_ && _); [by eapply Quiet_write|].
    by injection Hstep as <-.
  - destruct (RegisterOnNextSuccessfulWriteCallback _); [|done]. injection Hstep as <-.
    by eapply Quiet_roots.
  - repeat (case_guard; simpl in Hstep; try done). eapply Quiet_write; [|done].
    by eapply Quiet_roots.
  - case_guard; [simpl in Hstep|done]. pose proof (quiet_replies _ _ _ Hq) as Hr.
    destruct (replies w) as [|r rs] eqn:Er; [done|]. apply Forall_cons in Hr as [[b ->] Hr].
    injection Hstep as <-. destruct Hq as [H1 H2 H3 H4 H5 H6]. by split.
  - destruct He as (tmp & -> & Hne). destruct (queue w) as [|[|data rep] q] eqn:Eq; [done| |].
    + pose proof (quiet_queue _ _ _ Hq) as Hw. rewrite Eq in Hw. apply Forall_cons in Hw as [[? ?] _]. done.
    + eapply (Quiet_task _ _ _ _ _ _ _ _ faults); [done | done | done|]. cbn [step]. rewrite Eq. exact Hstep.
Qed.

Lemma Quiet_run st v es w w' :
  Quiet st v w -> Forall quiet es -> run_all w es = Some w' -> Quiet st v w'.
Proof.
  revert w. induction es as [|e es IH]; intros w Hq Hes Hrun; simpl in Hrun; [by injection Hrun as <-|].
  apply Forall_cons in Hes as [He Hes].
  destruct (run_step w e) as [w1|] eqn:E; [simpl in Hrun|done].
  apply (IH w1); [by eapply Quiet_step | done | done].
Qed.


(** The first load. *)
Lemma Quiet_loaded disk faults w :
  run_step (new_World disk) (E_ReadPrefs faults) = Some w ->
  Quiet (texts (store w)) (root_value (prefs_ (store w))) w.
Proof.
  cbn [step]. destruct (ReadPrefsFromDisk _ _ _ _ _ _ _ _) as [[r fs]|]; simpl; [|done].
  unfold OnFileRead. case_guard; simpl; [|done].
  set (x := if _ : bool then (_ : option (Root * Store)) else _).
  destruct x as [[root alive]|]; simpl; [|done]. intros [= <-].
  unfold finalized, FinalizeFileRead. destruct (result_no_dir r); simpl.
  - split; try done; constructor.
  - split; try done; constructor.
Qed.

(** A new store reads a file whose text reads as the dictionary [c]. *)
Lemma restart_reads disk text c :
  disk !! path_ = Some text ->
  (forall id, exists r st p,
     Parse LocalIsWhitespace StringToDouble ∅ JSON_PARSE_RFC id text [0] new_JSONParser
       = Done (Some r, st) p /\ DeepCopy st (root_value r) = Some c) ->
  GetType c = TYPE_DICTIONARY ->
  exists w, run_step (new_World disk) (E_ReadPrefs no_faults) = Some w /\
    read_error_ (store w) = PREF_READ_ERROR_NONE /\ initialized_ (store w) = true /\
    read_only_ (store w) = false /\ files w = disk /\
    DeepCopy (texts (store w)) (root_value (prefs_ (store w))) = Some c.
Proof.
  intros Hfile Hparse Hc. destruct (Hparse 0%N) as (r & st & p & Hp & Hcopy).
  assert (IsType TYPE_DICTIONARY (root_value r) = true) as Ht.
  { unfold IsType. apply bool_decide_eq_true. rewrite <- Hc.
    symmetry. by eapply DeepCopy_type. }
  cbn [step]. unfold ReadPrefsFromDisk, PathExists. simpl. rewrite Hfile.
  rewrite bool_decide_true by done.
  assert (match alternate_path_ with
          | Some alternate => if negb true && bool_decide (is_Some (disk !! alternate))
                              then Move disk alternate path_ false else disk
          | None => disk end = disk) as -> by by destruct alternate_path_.
  unfold Deserialize, ReadFileToString. simpl. rewrite Hfile. unfold ReadAndReturnError.
  rewrite Hp. simpl. rewrite Ht. simpl. eexists. split; [done|].
  simpl. repeat split; try done. by rewrite (left_id_L ∅ (∪)).
Qed.
End Restart.

Lemma no_filter_ok : filter_ok None.
Proof. intros f st d Hf. discriminate Hf. Qed.

(** * Theorems *)



(** C15: No change is forgotten. After any sequence of events, re-entrant
    notifications, failed loads, failed serializations and failed writes among them,
    when no change is being reported one of these holds: the file is read-only; the
    commit timer runs and its serializer is set; the contents have no JSON text (they
    hold a binary value); or they are what was loaded, if no write was posted since,
    and otherwise their text is that of the last write that was posted. A pending
    write can be committed if its text fits. A commit that does not run into a
    [DCHECK] or [NOTREACHED] either stops the timer and posts one task with the text
    of the contents, or, when they have none, posts nothing and leaves the timer
    running without a serializer. *)
Theorem no_change_is_forgotten LocalIsWhitespace StringToDouble DoubleToString path_
    alternate_path_ bad_path FilterSerializeData disk es w :
  filter_ok FilterSerializeData ->
  events_ok LocalIsWhitespace StringToDouble DoubleToString path_ alternate_path_ bad_path
    FilterSerializeData (new_World disk) es ->
  run LocalIsWhitespace StringToDouble DoubleToString path_ alternate_path_ bad_path
    FilterSerializeData (new_World disk) es = Some w ->
  ReportFrame ∉ frames w ->
  let commit := CommitPendingWrite DoubleToString FilterSerializeData w in
  (read_only_ (store w) = true \/ write_pending (store w) \/ unwritable DoubleToString (store w) \/
   up_to_date DoubleToString w) /\
  (forall ok data s, write_pending (store w) ->
    SerializeData DoubleToString FilterSerializeData (store w) = Some (ok, data, s) ->
    Z.of_nat (length data) <= Int.max Int.int32 -> is_Some (commit true)) /\
  forall post_succeeds w',
    read_only_ (store w) = false -> HasPendingWrite (writer_ (store w)) = true ->
    commit post_succeeds = Some w' ->
    serializer_ (writer_ (store w')) = false /\
    ((exists data, contents_text DoubleToString (store w') = Some (true, data) /\
        last_write w' = Some data /\ HasPendingWrite (writer_ (store w')) = false /\
        queue w' = queue w ++ [WriteTask data (on_next_successful_write_ (writer_ (store w)))]) \/
     unwritable DoubleToString (store w') /\ last_write w' = last_write w /\ queue w' = queue w /\
     HasPendingWrite (writer_ (store w')) = true).
Proof.
  intros Hfilter Hes Hrun Hf commit.
  assert (kept DoubleToString w) as [Hk|Hk]; [|done|].
  { eapply kept_run; [exact Hfilter | apply kept_new | apply new_World_ok | exact Hes | exact Hrun]. }
  split; [exact Hk|]. unfold commit, CommitPendingWrite, HasPendingWrite. split.
  - intros ok data s [Ht Hs] Hser Hlen. rewrite Ht.
    destruct (read_only_ (store w)); [by eexists|]. simpl. by eapply commit_total.
  - intros post w' Hro Ht Hc. rewrite Hro, Ht in Hc. destruct (write_effect _ _ _ _ _ Hc) as (_ & _ & Hs & Heff).
    split; [done|].
    destruct Heff as [(data & Hd) | Hu]; [left; exists data; tauto|right; rewrite <- Ht; tauto].
Qed.

Lemma no_change_is_forgotten_witness :
  let run := run isspace (fun _ => None) (fun _ => []) 1 None 9 None in
  let es := [E_ReadPrefs no_faults; E_NotificationEnds; E_SetValue [97] (IntegerValue 1);
             E_SetValue [97] (IntegerValue 2); E_NotificationEnds; E_NotificationEnds] in
  exists w, run (new_World ∅) es = Some w /\
  let commit := CommitPendingWrite (fun _ => []) None w in
  (read_only_ (store w) = true \/ write_pending (store w) \/ unwritable (fun _ => []) (store w) \/
   up_to_date (fun _ => []) w) /\
  (forall ok data s, write_pending (store w) ->
    SerializeData (fun _ => []) None (store w) = Some (ok, data, s) ->
    Z.of_nat (length data) <= Int.max Int.int32 -> is_Some (commit true)) /\
  forall post_succeeds w',
    read_only_ (store w) = false -> HasPendingWrite (writer_ (store w)) = true ->
    commit post_succeeds = Some w' ->
    serializer_ (writer_ (store w')) = false /\
    ((exists data, contents_text (fun _ => []) (store w') = Some (true, data) /\
        last_write w' = Some data /\ HasPendingWrite (writer_ (store w')) = false /\
        queue w' = queue w ++ [WriteTask data (on_next_successful_write_ (writer_ (store w)))]) \/
     unwritable (fun _ => []) (store w') /\ last_write w' = last_write w /\ queue w' = queue w /\
     HasPendingWrite (writer_ (store w')) = true).
Proof.
  intros run es. destruct (run (new_World ∅) es) as [w|] eqn:E; [|vm_compute in E; congruence].
  exists w. split; [reflexivity|].
  apply (no_change_is_forgotten isspace (fun _ => None) (fun _ => []) 1 None 9 None ∅ es w).
  - exact no_filter_ok.
  - split; [apply map_Forall_empty|]. intros w1 E1. vm_compute in E1. injection E1 as <-.
    split; [exact I|]. intros w2 E2. vm_compute in E2. injection E2 as <-.
    split; [repeat constructor; vm_compute; congruence|]. intros w3 E3. vm_compute in E3. injection E3 as <-.
    split; [repeat constructor; vm_compute; congruence|]. intros w4 _.
    split; [exact I|]. intros w5 _. split; [exact I|]. intros w6 _. exact I.
  - exact E.
  - vm_compute in E. injection E as <-. simpl. set_solver.
Defined.

(** C16: Preferences survive a restart. A new store is loaded from any disk and then
    changed in any way, its write tasks doing what the disk is asked to do, until
    no write is pending and none is queued. There is no filter. If its contents are
    not the ones that were loaded, and are printable: no binary values, strings and
    keys of characters that the reader accepts (no NUL, no noncharacters), finite
    doubles that the conversions bring back, at most 99 levels, a text shorter than
    2^31 - 1 bytes; then a new store that is loaded from the
    disk is initialized without an error, is not read-only, and has exactly the
    same contents: the same keys, types and values. *)
Theorem prefs_survive_a_restart LocalIsWhitespace StringToDouble DoubleToString path_
    alternate_path_ bad_path disk faults es w0 w c :
  let step := step LocalIsWhitespace StringToDouble DoubleToString path_ alternate_path_ bad_path None in
  let run := run LocalIsWhitespace StringToDouble DoubleToString path_ alternate_path_ bad_path None in
  (forall ch, hex_char ch \/ ch = chr_minus -> LocalIsWhitespace ch = false) ->
  disk_ok disk -> step (new_World disk) (E_ReadPrefs faults) = Some w0 ->
  Forall (quiet path_) es -> events_ok LocalIsWhitespace StringToDouble DoubleToString path_
    alternate_path_ bad_path None w0 es -> run w0 es = Some w ->
  ReportFrame ∉ frames w -> HasPendingWrite (writer_ (store w)) = false -> queue w = [] ->
  read_only_ (store w) = false -> root_value (prefs_ (store w)) <> root_value (prefs_ (store w0)) ->
  DeepCopy (texts (store w)) (root_value (prefs_ (store w))) = Some c ->
  printable StringToDouble DoubleToString c -> (nesting (root_value (prefs_ (store w))) <= 99)%nat ->
  (forall text, files w !! path_ = Some text -> Z.of_nat (length text) < Int.max Int.int32) ->
  exists w', step (new_World (files w)) (E_ReadPrefs no_faults) = Some w' /\
    read_error_ (store w') = PREF_READ_ERROR_NONE /\ initialized_ (store w') = true /\
    read_only_ (store w') = false /\ files w' = files w /\
    DeepCopy (texts (store w')) (root_value (prefs_ (store w'))) = Some c.
Proof.
  intros step run Hws Hdisk Hload Hes Heok Hrun Hf Hpend Hqueue Hro Hchanged Hc Hp Hn Hlen.
  assert (WorldOk w0) as Hw0.
  { eapply (pref_step_ok _ _ DoubleToString _ _ _ _ no_filter_ok (new_World disk) (E_ReadPrefs faults)); [ apply new_World_ok | exact Hdisk | exact Hload]. }
  assert (WorldOk w) as [([_ (Hwf & Edict & _)] & _) _ _ _].
  { eapply (run_ok _ _ _ _ _ _ None no_filter_ok); [exact Hw0 | exact Heok | exact Hrun]. }
  assert (kept DoubleToString w) as Hk.
  { eapply kept_run; [apply no_filter_ok | | exact Hw0 | exact Heok | exact Hrun].
    eapply (kept_step _ _ DoubleToString _ _ _ _ no_filter_ok (new_World disk) (E_ReadPrefs faults)); [apply kept_new | apply new_World_ok | exact Hdisk | exact Hload]. }
  pose proof (Quiet_loaded _ _ DoubleToString _ _ _ _ _ _ Hload) as Hq. eapply Quiet_run in Hq; [|exact Hes|exact Hrun].
  destruct Hq as [Ht _ _ _ _ Hnew].
  assert (wf (root_value (prefs_ (store w)))) as Hwf' by by rewrite Edict.
  pose proof (DeepCopy_copy _ _ _ Hwf' Hc) as Hcopy.
  destruct (written_is_read _ _ DoubleToString Hws (texts (store w)) (WriterOptions_ false false false)
    _ c eq_refl Hcopy Hp Hn) as (s & Hs & Hread).
  assert (last_write w = Some s) as Hlast.
  { destruct Hk as [Hk|[Hk|[[Hk _]|[[text Hk]|Hk]]]]; unfold HasPendingWrite in Hpend; try congruence.
    - unfold contents_text in Hk. congruence.
    - unfold up_to_date, contents_text in Hk. destruct (last_write w); congruence. }
  rewrite Hlast in Hnew. unfold newest in Hnew. rewrite Hqueue in Hnew. simpl in Hnew.
  apply (restart_reads _ _ DoubleToString _ _ _ _ s); [done | |].
  - intros id. apply Hread; [apply map_Forall_empty | by apply Hlen | done].
  - apply DeepCopy_type in Hc. by rewrite <- Hc, Edict.
Qed.

(** One preference is set, reported, committed and written. *)
Definition set_and_commit : list Event :=
  [E_NotificationEnds; E_SetValue [97] (IntegerValue 7); E_NotificationEnds; E_CommitPendingWrite true;
   E_RunTask no_faults (all_succeed 5)].

Lemma prefs_survive_a_restart_witness :
  let step := step isspace (fun _ => None) (fun _ => []) 1 None 9 None in
  let run := run isspace (fun _ => None) (fun _ => []) 1 None 9 None in
  exists w0 w, step (new_World ∅) (E_ReadPrefs no_faults) = Some w0 /\
  run w0 set_and_commit = Some w /\
  exists w', step (new_World (files w)) (E_ReadPrefs no_faults) = Some w' /\
    read_error_ (store w') = PREF_READ_ERROR_NONE /\ initialized_ (store w') = true /\
    read_only_ (store w') = false /\ files w' = files w /\
    DeepCopy (texts (store w')) (root_value (prefs_ (store w'))) =
      Some (DictionaryValue [([97], IntegerValue 7)]).
Proof.
  intros step run.
  destruct (step (new_World ∅) (E_ReadPrefs no_faults)) as [w0|] eqn:E0; [|vm_compute in E0; congruence].
  destruct (run w0 set_and_commit) as [w|] eqn:E.
  2: { vm_compute in E0. injection E0 as <-. vm_compute in E. congruence. }
  exists w0, w. split; [reflexivity|]. split; [exact E|].
  assert (events_ok isspace (fun _ => None) (fun _ => []) 1 None 9 None w0 set_and_commit) as Hev.
  { vm_compute in E0. injection E0 as <-. split; [exact I|]. intros w1 H1.
    vm_compute in H1. injection H1 as <-. split; [repeat constructor; vm_compute; congruence|]. intros w2 H2.
    vm_compute in H2. injection H2 as <-. split; [exact I|]. intros w3 H3.
    vm_compute in H3. injection H3 as <-. split; [exact I|]. intros w4 H4.
    vm_compute in H4. injection H4 as <-. split; [intros H; discriminate H | intros w5 _; exact I]. }
  apply (prefs_survive_a_restart isspace (fun _ => None) (fun _ => []) 1 None 9 ∅ no_faults set_and_commit w0 w);
    try (vm_compute in E0; injection E0 as <-; vm_compute in E; injection E as <-).
  - apply isspace_tokens.
  - apply map_Forall_empty.
  - reflexivity.
  - repeat constructor. exists 5%N. split; [reflexivity | congruence].
  - exact Hev.
  - reflexivity.
  - simpl. set_solver.
  - reflexivity.
  - reflexivity.
  - reflexivity.
  - intros H. vm_compute in H. congruence.
  - reflexivity.
  - constructor; [repeat constructor|]. repeat constructor; [|vm_compute; congruence..].
    apply ascii_json_string; [repeat constructor; vm_compute; congruence | vm_compute; congruence].
  - vm_compute. lia.
  - intros text H. vm_compute in H. injection H as <-. reflexivity.
Defined.

(** ** What the model shows *)

(** A commit whose serialization fails leaves the timer running without a serializer,
    which the timer's task dereferences. *)
Lemma failed_commit_leaves_a_null_serializer :
  let step := step isspace (fun _ => None) (fun _ => []) 1 None 9 None in
  let run := run isspace (fun _ => None) (fun _ => []) 1 None 9 None in
  exists w, run (new_World ∅) [E_ReadPrefs no_faults; E_NotificationEnds; E_SetValue [97] (BinaryValue [1]);
                               E_NotificationEnds; E_CommitPendingWrite true] = Some w /\
    HasPendingWrite (writer_ (store w)) = true /\ serializer_ (writer_ (store w)) = false /\
    step w (E_TimerFires true) = None.
Proof. eexists. split; [vm_compute; reflexivity|]. repeat split. Qed.

(** A write that fails is not tried again: nothing is pending and the file is not
    there. *)
Lemma failed_write_is_not_repeated :
  let run := run isspace (fun _ => None) (fun _ => []) 1 None 9 None in
  exists w, run (new_World ∅) [E_ReadPrefs no_faults; E_NotificationEnds; E_SetValue [97] NullValue;
                               E_NotificationEnds; E_TimerFires true;
                               E_RunTask no_faults (WriteOutcome_ None true None true true Replaced true)] = Some w /\
    HasPendingWrite (writer_ (store w)) = false /\ queue w = [] /\ files w !! 1%N = None.
Proof. eexists. split; [vm_compute; reflexivity|]. repeat split. Qed.

(** A timer whose serialization fails stops: the change to a value without a text, and
    any made with it, waits for the next change. *)
Lemma unwritable_change_is_not_pending :
  let run := run isspace (fun _ => None) (fun _ => []) 1 None 9 None in
  exists w, run (new_World ∅) [E_ReadPrefs no_faults; E_NotificationEnds;
                               E_SetValueSilently [97] (BinaryValue [1]);
                               E_SetValueSilently [98] (IntegerValue 2); E_TimerFires true] = Some w /\
    HasPendingWrite (writer_ (store w)) = false /\ queue w = [] /\ last_write w = None /\
    contents_text (fun _ => []) (store w) = Some (false, [123; 34; 97; 34; 58; 44; 34; 98; 34; 58; 50; 125]).
Proof. eexists. split; [vm_compute; reflexivity|]. repeat split. Qed.
