(* ===== verification/StdString.v ===== *)
(** * [std::basic_string], as the sources use it

    A string is the list of its characters. A position is a [size_type]: [npos], the
    greatest one, is written -1 here, so that the sources' [npos + 1], which wraps
    around, is 0; the sources compare a position that may be [npos] only with [npos]
    and for equality, and where they do otherwise the model says so. Operations that
    throw [out_of_range] or read past the end answer [None]. *)
From Stdlib Require Import ZArith Lia.
From stdpp Require Import base option list.
From S2P Require Import Prelude Unicode.

Local Open Scope Z_scope.

Create HintDb strings.
Create Rewrite HintDb strings.

Definition npos : Z := -1.

Definition len (s : list Z) : Z := Z.of_nat (length s).

Definition is_char (c : Z) : Z -> bool := Z.eqb c.

(** Membership in a set of characters. *)
Definition any_of (cs : list Z) (c : Z) : bool := existsb (Z.eqb c) cs.
Definition none_of (cs : list Z) (c : Z) : bool := negb (any_of cs c).

(** ** Searching *)

Fixpoint first_index (p : Z -> bool) (i : Z) (s : list Z) : Z :=
  match s with
  | [] => npos
  | c :: s => if p c then i else first_index p (i + 1) s
  end.

Fixpoint last_index (p : Z -> bool) (i : Z) (s : list Z) (found : Z) : Z :=
  match s with
  | [] => found
  | c :: s => last_index p (i + 1) s (if p c then i else found)
  end.

(** From [pos] on, and backwards from [pos]. *)
Definition find_if (p : Z -> bool) (s : list Z) (pos : Z) : Z :=
  if pos =? npos then npos else first_index p pos (drop (Z.to_nat pos) s).
Definition rfind_if (p : Z -> bool) (s : list Z) (pos : Z) : Z :=
  last_index p 0 (if pos =? npos then s else take (Z.to_nat (pos + 1)) s) npos.

Definition find (s : list Z) (c pos : Z) : Z := find_if (is_char c) s pos.
Definition rfind (s : list Z) (c pos : Z) : Z := rfind_if (is_char c) s pos.
Definition find_first_of (s cs : list Z) (pos : Z) : Z := find_if (any_of cs) s pos.
Definition find_first_not_of (s cs : list Z) (pos : Z) : Z := find_if (none_of cs) s pos.
Definition find_last_of (s cs : list Z) (pos : Z) : Z := rfind_if (any_of cs) s pos.
Definition find_last_not_of (s cs : list Z) (pos : Z) : Z := rfind_if (none_of cs) s pos.

(** A string in a string. *)
Definition starts (t s : list Z) : bool := bool_decide (take (length t) s = t).

Fixpoint first_sub (t : list Z) (i : Z) (s : list Z) : Z :=
  if starts t s then i else match s with [] => npos | _ :: s => first_sub t (i + 1) s end.

Definition find_sub (s t : list Z) (pos : Z) : Z :=
  if (pos =? npos) || (len s <? pos) then npos else first_sub t pos (drop (Z.to_nat pos) s).

(** ** Parts *)

Definition at_ (s : list Z) (pos : Z) : option Z := char_at s pos.

(** [substr] and the constructor from a part of a string; [n] may be [npos]. *)
Definition substr (s : list Z) (pos n : Z) : option (list Z) :=
  guard (0 <= pos <= len s);;
  let tail := drop (Z.to_nat pos) s in
  Some (if n =? npos then tail else take (Z.to_nat n) tail).

Definition erase (s : list Z) (pos n : Z) : option (list Z) :=
  guard (0 <= pos <= len s);;
  Some (take (Z.to_nat pos) s ++
        if n =? npos then [] else drop (Z.to_nat n) (drop (Z.to_nat pos) s)).

(** New characters are zero. *)
Definition resize (s : list Z) (n : Z) : list Z :=
  take (Z.to_nat n) s ++ replicate (Z.to_nat n - length s) 0.

Definition replace (s : list Z) (pos n : Z) (t : list Z) : option (list Z) :=
  guard (0 <= pos <= len s);;
  Some (take (Z.to_nat pos) s ++ t ++ drop (Z.to_nat n) (drop (Z.to_nat pos) s)).

(** [compare(0, n, t) == 0]. *)
Definition compare_prefix (s : list Z) (n : Z) (t : list Z) : bool :=
  bool_decide (take (Z.to_nat n) s = t).

(** ** Lemmas *)

Definition no (p : Z -> bool) (s : list Z) : Prop := Forall (fun c => p c = false) s.

Lemma no_app p a b : no p (a ++ b) <-> no p a /\ no p b.
Proof. unfold no. apply Forall_app. Qed.

Lemma no_cons p c s : no p (c :: s) <-> p c = false /\ no p s.
Proof. unfold no. by rewrite Forall_cons. Qed.

Lemma no_nil p : no p [].
Proof. constructor. Qed.

Lemma no_reverse p s : no p s -> no p (reverse s).
Proof. apply Forall_reverse. Qed.

Lemma len_app s t : len (s ++ t) = len s + len t.
Proof. unfold len. rewrite length_app. lia. Qed.

Lemma len_cons c s : len (c :: s) = 1 + len s.
Proof. unfold len. simpl length. lia. Qed.

Lemma len_nonneg s : 0 <= len s.
Proof. unfold len. lia. Qed.

Lemma len_zero s : len s = 0 <-> s = [].
Proof. unfold len. destruct s; simpl; split; [done|done|lia|done]. Qed.

Lemma first_index_none p i s : no p s -> first_index p i s = npos.
Proof. intros H. revert i. induction H as [|c s Hc H IH]; intros i; simpl; [done|]. by rewrite Hc. Qed.

Lemma first_index_some p i a c b : no p a -> p c = true -> first_index p i (a ++ c :: b) = i + len a.
Proof.
  intros H Hc. revert i. induction H as [|d a Hd H IH]; intros i; simpl.
  - rewrite Hc. unfold len. simpl. lia.
  - rewrite Hd, IH, len_cons. lia.
Qed.

Lemma first_split p s : no p s \/ exists a c b, s = a ++ c :: b /\ no p a /\ p c = true.
Proof.
  induction s as [|c s IH]; [left; constructor|]. destruct (p c) eqn:E.
  - right. exists [], c, s. split; [done|]. split; [constructor | done].
  - destruct IH as [H|(a & d & b & -> & Ha & Hd)]; [left; by constructor|].
    right. exists (c :: a), d, b. split; [done|]. split; [by constructor | done].
Qed.

Lemma last_split p s : no p s \/ exists a c b, s = a ++ c :: b /\ p c = true /\ no p b.
Proof.
  induction s as [|c s IH]; [left; constructor|].
  destruct IH as [H|(a & d & b & -> & Hd & Hb)].
  - destruct (p c) eqn:E; [right; by exists [], c, s | left; by constructor].
  - right. by exists (c :: a), d, b.
Qed.

Lemma last_index_none p i s found : no p s -> last_index p i s found = found.
Proof. intros H. revert i. induction H as [|c s Hc H IH]; intros i; simpl; [done|]. by rewrite Hc. Qed.

Lemma last_index_some p i a c b found :
  p c = true -> no p b -> last_index p i (a ++ c :: b) found = i + len a.
Proof.
  intros Hc H. revert i found. induction a as [|d a IH]; intros i found; simpl.
  - rewrite Hc, last_index_none by done. unfold len. simpl. lia.
  - rewrite IH, len_cons. lia.
Qed.

Lemma find_none p s : no p s -> find_if p s 0 = npos.
Proof. intros H. unfold find_if. cbn [Z.eqb npos]. change (Z.to_nat 0) with 0%nat. rewrite drop_0. by apply first_index_none. Qed.

Lemma find_some p a c b : no p a -> p c = true -> find_if p (a ++ c :: b) 0 = len a.
Proof. intros. unfold find_if. cbn [Z.eqb npos]. change (Z.to_nat 0) with 0%nat. rewrite drop_0. by apply (first_index_some p 0). Qed.

(** Searching on from a position: past a prefix. *)
Lemma find_from p a s : find_if p (a ++ s) (len a) = first_index p (len a) s.
Proof.
  unfold find_if. rewrite (proj2 (Z.eqb_neq _ _)) by (pose proof (len_nonneg a); unfold npos; lia).
  unfold len. rewrite Nat2Z.id, drop_app_length. done.
Qed.

Lemma rfind_none p s : no p s -> rfind_if p s npos = npos.
Proof. intros H. unfold rfind_if. simpl. by apply last_index_none. Qed.

Lemma rfind_some p a c b : p c = true -> no p b -> rfind_if p (a ++ c :: b) npos = len a.
Proof. intros. unfold rfind_if. simpl. by rewrite last_index_some by done. Qed.

(** Backwards from the last character before [b]. *)
Lemma rfind_before p a b :
  a <> [] -> rfind_if p (a ++ b) (len a - 1) = rfind_if p a npos.
Proof.
  intros Ha. unfold rfind_if. assert (0 < len a) as Hl.
  { pose proof (len_nonneg a). pose proof (len_zero a). destruct (decide (len a = 0)); [tauto | lia]. }
  rewrite (proj2 (Z.eqb_neq _ _)) by (unfold npos; lia). f_equal.
  replace (Z.to_nat (len a - 1 + 1)) with (length a) by (unfold len; lia).
  by rewrite take_app_length.
Qed.

Lemma take_len s t : take (Z.to_nat (len s)) (s ++ t) = s.
Proof. unfold len. rewrite Nat2Z.id. apply take_app_length. Qed.

Lemma drop_len s t : drop (Z.to_nat (len s)) (s ++ t) = t.
Proof. unfold len. rewrite Nat2Z.id. apply drop_app_length. Qed.

Lemma substr_tail s t : substr (s ++ t) (len s) npos = Some t.
Proof.
  unfold substr. case_guard as H; [|destruct H; rewrite len_app; pose proof (len_nonneg s);
    pose proof (len_nonneg t); lia]. simpl. by rewrite drop_len.
Qed.

Lemma substr_mid s t u : substr (s ++ t ++ u) (len s) (len t) = Some t.
Proof.
  unfold substr. case_guard as H; [|destruct H; rewrite len_app; pose proof (len_nonneg s);
    pose proof (len_nonneg (t ++ u)); lia]. simpl. rewrite drop_len.
  rewrite (proj2 (Z.eqb_neq _ _)) by (pose proof (len_nonneg t); unfold npos; lia).
  by rewrite take_len.
Qed.

Lemma substr_head s t : substr (s ++ t) 0 (len s) = Some s.
Proof. apply (substr_mid [] s t). Qed.

Lemma substr_whole s n : n = npos \/ n = len s -> substr s 0 n = Some s.
Proof.
  intros [->| ->]; [exact (substr_tail [] s)|].
  pose proof (substr_head s []) as H. by rewrite app_nil_r in H.
Qed.

Lemma erase_tail s t : erase (s ++ t) (len s) npos = Some s.
Proof.
  unfold erase. case_guard as H; [|destruct H; rewrite len_app; pose proof (len_nonneg s);
    pose proof (len_nonneg t); lia]. simpl. by rewrite take_len, app_nil_r.
Qed.

Lemma erase_head s t : erase (s ++ t) 0 (len s) = Some t.
Proof.
  unfold erase. case_guard as H; [|destruct H; pose proof (len_nonneg (s ++ t)); lia].
  simpl. rewrite drop_0.
  rewrite (proj2 (Z.eqb_neq _ _)) by (pose proof (len_nonneg s); unfold npos; lia).
  by rewrite drop_len.
Qed.

Lemma resize_shorter s t : resize (s ++ t) (len s) = s.
Proof.
  unfold resize. rewrite take_len. unfold len. rewrite Nat2Z.id, length_app.
  replace (length s - (length s + length t))%nat with 0%nat by lia. apply app_nil_r.
Qed.

Lemma at_mid s c t : at_ (s ++ c :: t) (len s) = Some c.
Proof.
  unfold at_, char_at. rewrite (proj2 (Z.leb_le _ _)) by apply len_nonneg. unfold len.
  rewrite Nat2Z.id. by rewrite list_lookup_middle.
Qed.

Lemma starts_prefix t s : starts t s = true <-> exists u, s = t ++ u.
Proof.
  unfold starts. rewrite bool_decide_eq_true. split.
  - intros H. exists (drop (length t) s). rewrite <- H at 1. by rewrite take_drop.
  - intros [u ->]. apply take_app_length.
Qed.

Lemma any_of_in cs c : any_of cs c = true <-> c ∈ cs.
Proof.
  unfold any_of. rewrite existsb_exists. split.
  - intros (x & Hx & ->%Z.eqb_eq). by apply list_elem_of_In.
  - intros H%list_elem_of_In. exists c. split; [done|]. apply Z.eqb_refl.
Qed.

Lemma is_char_eq c d : is_char c d = true <-> d = c.
Proof. unfold is_char. rewrite Z.eqb_eq. split; congruence. Qed.

#[export] Hint Rewrite len_app len_cons : strings.
#[export] Hint Resolve len_nonneg no_nil : strings.

(** A string without a terminator inside is its C string. *)
Lemma c_string_whole s : no (is_char 0) s -> c_string s = s.
Proof. intros H. apply c_string_id. eapply Forall_impl; [exact H|]. intros c Hc. by apply not_eq_sym, Z.eqb_neq. Qed.
