(* ===== verification/StringUtil.v ===== *)
(** * String helpers ([base/strings/string_util.cc], [string_split.cc])

    Case folding, trimming, collapsing and replacing characters, splitting and joining.
    The templates are instantiated with [char] and [char16]; a string is the list of its
    codes, and what depends on the instance is a parameter. [None] is a position out of
    range or a loop out of fuel; the theorems show that neither happens. *)
From Stdlib Require Import ZArith Lia.
From stdpp Require Import base option list.
From S2P Require Import Prelude Unicode StdString.

Local Open Scope Z_scope.

(** ** Characters *)

Definition WHITESPACE_UNICODE : list Z :=
  [0x9; 0xA; 0xB; 0xC; 0xD; 0x20; 0x85; 0xA0; 0x1680; 0x2000; 0x2001; 0x2002; 0x2003; 0x2004;
   0x2005; 0x2006; 0x2007; 0x2008; 0x2009; 0x200A; 0x2028; 0x2029; 0x202F; 0x205F; 0x3000].

Definition kWhitespaceWide : list Z := WHITESPACE_UNICODE.
Definition kWhitespaceUTF16 : list Z := WHITESPACE_UNICODE.
Definition kWhitespaceASCII : list Z := [0x09; 0x0A; 0x0B; 0x0C; 0x0D; 0x20].

Definition ToLowerASCII (c : Z) : Z := if (65 <=? c) && (c <=? 90) then c + (97 - 65) else c.
Definition ToUpperASCII (c : Z) : Z := if (97 <=? c) && (c <=? 122) then c + (65 - 97) else c.

Definition StringToLowerASCII (s : list Z) : list Z := ToLowerASCII <$> s.
Definition StringToUpperASCII (s : list Z) : list Z := ToUpperASCII <$> s.

(** [wcschr] finds the terminator too. *)
Definition IsWhitespace (c : Z) : bool := any_of kWhitespaceWide c || (c =? 0).

(** ** Comparing *)

(** [b] is a C string, without its terminator. *)
Fixpoint LowerCaseEqualsASCII (a b : list Z) : bool :=
  match a, b with
  | [], [] => true
  | [], _ :: _ | _ :: _, [] => false
  | x :: a, y :: b => if ToLowerASCII x =? y then LowerCaseEqualsASCII a b else false
  end.

Definition EqualsASCII (a b : list Z) : bool :=
  if len a =? len b then bool_decide (a = b) else false.

Section StartsWith.

(** The C library's function depends on the locale. *)
Context (tolower : Z -> Z).

(** [std::equal] with [CaseInsensitiveCompare]; [b] has at least the length of [a]. *)
Fixpoint equal_ignoring_case (a b : list Z) : bool :=
  match a, b with
  | [], _ => true
  | x :: a, y :: b => (tolower x =? tolower y) && equal_ignoring_case a b
  | _ :: _, [] => false
  end.

(** [_strnicmp(s1, s2, count) == 0] on the characters before the terminators. *)
Fixpoint strncasecmp_equal (count : nat) (s1 s2 : list Z) : bool :=
  match count, s1, s2 with
  | O, _, _ => true
  | _, [], [] => true
  | S count, x :: s1, y :: s2 => (tolower x =? tolower y) && strncasecmp_equal count s1 s2
  | _, _, _ => false
  end.

Definition StartsWith (str search : list Z) (case_sensitive : bool) : bool :=
  if case_sensitive then compare_prefix str (len search) search
  else if len str <? len search then false
  else equal_ignoring_case search str.

Definition StartsWithASCII (str search : list Z) (case_sensitive : bool) : bool :=
  if case_sensitive then compare_prefix str (len search) search
  else strncasecmp_equal (length search) str search.

Definition EndsWith (str search : list Z) (case_sensitive : bool) : bool :=
  if len str <? len search then false
  else
    let rest := drop (length str - length search) str in
    if case_sensitive then bool_decide (rest = search) else equal_ignoring_case search rest.
End StartsWith.

(** ** Trimming *)

(** [TrimPositions], a set of bits. *)
Definition TRIM_NONE : Z := 0.
Definition TRIM_LEADING : Z := 1.
Definition TRIM_TRAILING : Z := 2.
Definition TRIM_ALL : Z := 3.

Definition TrimStringT (input trim_chars : list Z) (positions : Z) : option (Z * list Z) :=
  let last_char := len input - 1 in
  let first_good_char :=
    if Z.land positions TRIM_LEADING =? 0 then 0 else find_first_not_of input trim_chars 0 in
  let last_good_char :=
    if Z.land positions TRIM_TRAILING =? 0 then last_char else find_last_not_of input trim_chars npos in
  if bool_decide (input = []) || (first_good_char =? npos) || (last_good_char =? npos)
  then Some (if bool_decide (input = []) then TRIM_NONE else positions, [])
  else
    output ← substr input first_good_char (last_good_char - first_good_char + 1);
    Some (Z.lor (if first_good_char =? 0 then TRIM_NONE else TRIM_LEADING)
                (if last_good_char =? last_char then TRIM_NONE else TRIM_TRAILING), output).

Definition TrimString (input trim_chars : list Z) : option (bool * list Z) :=
  '(trimmed, output) ← TrimStringT input trim_chars TRIM_ALL;
  Some (negb (trimmed =? TRIM_NONE), output).

Definition TrimWhitespace (input : list Z) (positions : Z) : option (Z * list Z) :=
  TrimStringT input kWhitespaceUTF16 positions.

Definition TrimWhitespaceASCII (input : list Z) (positions : Z) : option (Z * list Z) :=
  TrimStringT input kWhitespaceASCII positions.

(** ** Characters in strings *)

Definition ContainsOnlyChars (input characters : list Z) : bool :=
  find_first_not_of input characters 0 =? npos.

(** The loop of [ReplaceCharsT]. *)
Fixpoint replace_found (fuel : nat) (output replace_chars replace_with : list Z) (found : Z)
    : option (list Z) :=
  match fuel with
  | O => None
  | S fuel =>
      if found =? npos then Some output
      else
        output ← replace output found 1 replace_with;
        replace_found fuel output replace_chars replace_with
          (find_first_of output replace_chars (found + len replace_with))
  end.

Definition ReplaceChars (input replace_chars replace_with : list Z) : option (bool * list Z) :=
  let found := find_first_of input replace_chars 0 in
  output ← replace_found (S (length input)) input replace_chars replace_with found;
  Some (negb (found =? npos), output).

Definition RemoveChars (input remove_chars : list Z) : option (bool * list Z) :=
  ReplaceChars input remove_chars [].

(** ** Collapsing *)

Section CollapseWhitespace.

(** The character as [IsWhitespace] takes it, a [wchar_t]. *)
Context (wide : Z -> Z).

(** The state of the loop: the buffer, the flags and the count; writes are checked. *)
Record Collapse := Collapse_ {
  result : list Z;
  in_whitespace : bool;
  already_trimmed : bool;
  chars_written : Z;
}.

Definition put (c : Collapse) (x : Z) (in_ws trimmed : bool) : option Collapse :=
  guard (0 <= chars_written c < len (result c));;
  Some (Collapse_ (<[Z.to_nat (chars_written c) := x]> (result c)) in_ws trimmed (chars_written c + 1)).

Definition collapse_char (trim_sequences_with_line_breaks : bool) (c : Collapse) (i : Z)
    : option Collapse :=
  if IsWhitespace (wide i) then
    c ← (if in_whitespace c then Some c else put c 32 true (already_trimmed c));
    Some (if trim_sequences_with_line_breaks && negb (already_trimmed c) && ((i =? 10) || (i =? 13))
          then Collapse_ (result c) (in_whitespace c) true (chars_written c - 1)
          else c)
  else put c i false false.

Definition CollapseWhitespace (text : list Z) (trim_sequences_with_line_breaks : bool)
    : option (list Z) :=
  c ← foldl (fun c i => c ≫= fun c => collapse_char trim_sequences_with_line_breaks c i)
        (Some (Collapse_ (replicate (length text) 0) true true 0)) text;
  let chars_written :=
    if in_whitespace c && negb (already_trimmed c) then chars_written c - 1 else chars_written c in
  guard (0 <= chars_written);;
  Some (resize (result c) chars_written).
End CollapseWhitespace.

(** ** Splitting and joining *)

Fixpoint Tokenize_loop (fuel : nat) (str delimiters : list Z) (start : Z) (tokens : list (list Z))
    : option (list (list Z)) :=
  match fuel with
  | O => None
  | S fuel =>
      if start =? npos then Some tokens
      else
        let end_ := find_first_of str delimiters (start + 1) in
        if end_ =? npos then token ← substr str start npos; Some (tokens ++ [token])
        else
          token ← substr str start (end_ - start);
          Tokenize_loop fuel str delimiters (find_first_not_of str delimiters (end_ + 1)) (tokens ++ [token])
  end.

Definition Tokenize (str delimiters : list Z) : option (Z * list (list Z)) :=
  tokens ← Tokenize_loop (S (length str)) str delimiters (find_first_not_of str delimiters 0) [];
  Some (Z.of_nat (length tokens), tokens).

Definition JoinString (parts : list (list Z)) (sep : list Z) : list Z :=
  match parts with
  | [] => []
  | part :: parts => fold_left (fun result part => result ++ sep ++ part) parts part
  end.

Section SplitString.

(** [TrimWhitespace] with [TRIM_ALL] for the kind of string. *)
Context (trim : list Z -> option (list Z)).

(** The turns of the loop from [i] on. *)
Fixpoint SplitString_loop (turns : nat) (str : list Z) (s : Z) (trim_whitespace : bool) (i last : Z)
    (r : list (list Z)) : option (list (list Z)) :=
  match turns with
  | O => Some r
  | S turns =>
      at_i ← (if i =? len str then Some true else c ← at_ str i; Some (c =? s));
      if at_i : bool then
        tmp ← substr str last (i - last);
        tmp ← (if trim_whitespace then trim tmp else Some tmp);
        let r := if negb (i =? len str) || negb (bool_decide (r = [])) || negb (bool_decide (tmp = []))
                 then r ++ [tmp] else r in
        SplitString_loop turns str s trim_whitespace (i + 1) (i + 1) r
      else SplitString_loop turns str s trim_whitespace (i + 1) last r
  end.

Definition SplitStringT (str : list Z) (s : Z) (trim_whitespace : bool) : option (list (list Z)) :=
  SplitString_loop (S (length str)) str s trim_whitespace 0 0 [].

Definition SplitString (str : list Z) (c : Z) : option (list (list Z)) := SplitStringT str c true.
Definition SplitStringDontTrim (str : list Z) (c : Z) : option (list (list Z)) := SplitStringT str c false.

Fixpoint SplitStringUsingSubstr_loop (fuel : nat) (str s : list Z) (begin_index : Z) (r : list (list Z))
    : option (list (list Z)) :=
  match fuel with
  | O => None
  | S fuel =>
      let end_index := find_sub str s begin_index in
      if end_index =? npos then
        term ← substr str begin_index npos;
        tmp ← trim term;
        Some (r ++ [tmp])
      else
        term ← substr str begin_index (end_index - begin_index);
        tmp ← trim term;
        SplitStringUsingSubstr_loop fuel str s (end_index + len s) (r ++ [tmp])
  end.

Definition SplitStringUsingSubstr (str s : list Z) : option (list (list Z)) :=
  SplitStringUsingSubstr_loop (S (length str)) str s 0 [].

(** The key and the value, and whether the line was split. *)
Definition SplitStringIntoKeyValue (line : list Z) (key_value_delimiter : Z)
    : option (bool * (list Z * list Z)) :=
  let end_key_pos := find line key_value_delimiter 0 in
  if end_key_pos =? npos then Some (false, ([], []))
  else
    key ← substr line 0 end_key_pos;
    remains ← substr line end_key_pos (len line - end_key_pos);
    let begin_value_pos := find_first_not_of remains [key_value_delimiter] 0 in
    if begin_value_pos =? npos then Some (false, (key, []))
    else
      value ← substr remains begin_value_pos (len remains - begin_value_pos);
      Some (true, (key, value)).

Fixpoint SplitPairs (pairs : list (list Z)) (key_value_delimiter : Z) (success : bool)
    (key_value_pairs : list (list Z * list Z)) : option (bool * list (list Z * list Z)) :=
  match pairs with
  | [] => Some (success, key_value_pairs)
  | [] :: pairs => SplitPairs pairs key_value_delimiter success key_value_pairs
  | line :: pairs =>
      '(split, kv) ← SplitStringIntoKeyValue line key_value_delimiter;
      SplitPairs pairs key_value_delimiter (success && split) (key_value_pairs ++ [kv])
  end.

Definition SplitStringIntoKeyValuePairs (line : list Z) (key_value_delimiter key_value_pair_delimiter : Z)
    : option (bool * list (list Z * list Z)) :=
  pairs ← SplitString line key_value_pair_delimiter;
  SplitPairs pairs key_value_delimiter true [].
End SplitString.

(** The white space of HTML 5. *)
Definition is_html_space (c : Z) : bool :=
  (c =? 32) || (c =? 9) || (c =? 10) || (c =? 11) || (c =? 12) || (c =? 13).

Fixpoint SplitAlongWhitespace_loop (turns : nat) (str : list Z) (i : Z) (last_was_ws : bool)
    (last_non_ws_start : Z) (result : list (list Z)) : option (bool * Z * list (list Z)) :=
  match turns with
  | O => Some (last_was_ws, last_non_ws_start, result)
  | S turns =>
      c ← at_ str i;
      if is_html_space c then
        result ← (if last_was_ws then Some result
                  else if 0 <? i then
                    token ← substr str last_non_ws_start (i - last_non_ws_start); Some (result ++ [token])
                  else Some result);
        SplitAlongWhitespace_loop turns str (i + 1) true last_non_ws_start result
      else
        SplitAlongWhitespace_loop turns str (i + 1) false (if last_was_ws then i else last_non_ws_start) result
  end.

Definition SplitStringAlongWhitespace (str : list Z) : option (list (list Z)) :=
  if len str =? 0 then Some []
  else
    '(last_was_ws, last_non_ws_start, result) ← SplitAlongWhitespace_loop (length str) str 0 false 0 [];
    if last_was_ws : bool then Some result
    else token ← substr str last_non_ws_start (len str - last_non_ws_start); Some (result ++ [token]).

(** The two trimming functions that [SplitString] is instantiated with. *)
Definition trim_wide (s : list Z) : option (list Z) := snd <$> TrimWhitespace s TRIM_ALL.
Definition trim_ascii (s : list Z) : option (list Z) := snd <$> TrimWhitespaceASCII s TRIM_ALL.

(** ** Copying C strings *)

(** Memory from an address to its end; reads and writes are checked. *)
Fixpoint lcpy_loop (turns : nat) (dst src : list Z) (i : nat) : option (list Z * option Z) :=
  match turns with
  | O => Some (dst, None)
  | S turns =>
      c ← src !! i;
      _ ← dst !! i;
      let dst := <[i := c]> dst in
      if c =? 0 then Some (dst, Some (Z.of_nat i)) else lcpy_loop turns dst src (S i)
  end.

(** [while (src[dst_size]) ++dst_size]. *)
Fixpoint count_rest (src : list Z) (n : Z) : option Z :=
  match src with
  | [] => None
  | c :: src => if c =? 0 then Some n else count_rest src (n + 1)
  end.

Definition lcpyT (dst src : list Z) (dst_size : nat) : option (list Z * Z) :=
  '(dst, r) ← lcpy_loop dst_size dst src 0;
  match r with
  | Some i => Some (dst, i)
  | None =>
      dst ← (if Nat.eqb dst_size 0 then Some dst
             else _ ← dst !! (dst_size - 1)%nat; Some (<[(dst_size - 1)%nat := 0]> dst));
      n ← count_rest (drop dst_size src) (Z.of_nat dst_size);
      Some (dst, n)
  end.

(** ** What they compute *)

(** Trimming: the longest prefix and suffix of the set are dropped. *)
Fixpoint trim_left (cs s : list Z) : list Z :=
  match s with
  | [] => []
  | c :: s' => if any_of cs c then trim_left cs s' else s
  end.

Definition trim_right (cs s : list Z) : list Z := reverse (trim_left cs (reverse s)).
Definition trim_both (cs s : list Z) : list Z := trim_right cs (trim_left cs s).

(** A string that starts and ends outside the set, or is empty. *)
Definition trimmed (cs s : list Z) : Prop :=
  (forall c, head s = Some c -> any_of cs c = false) /\ (forall c, last s = Some c -> any_of cs c = false).

Lemma none_of_false cs c : none_of cs c = false <-> any_of cs c = true.
Proof. unfold none_of. by rewrite negb_false_iff. Qed.

Lemma none_of_true cs c : none_of cs c = true <-> any_of cs c = false.
Proof. unfold none_of. by rewrite negb_true_iff. Qed.

Lemma trim_left_drops cs a s : no (none_of cs) a -> trim_left cs (a ++ s) = trim_left cs s.
Proof. induction 1 as [|c a Hc Ha IH]; simpl; [done|]. apply none_of_false in Hc. by rewrite Hc. Qed.

Lemma trim_left_stops cs s : (forall c, head s = Some c -> any_of cs c = false) -> trim_left cs s = s.
Proof. destruct s as [|c s]; simpl; intros H; [done|]. by rewrite (H c). Qed.

Lemma trim_both_middle cs a m b :
  no (none_of cs) a -> no (none_of cs) b -> trimmed cs m -> trim_both cs (a ++ m ++ b) = m.
Proof.
  intros Ha Hb [Hh Hl]. unfold trim_both, trim_right. rewrite (trim_left_drops _ _ _ Ha).
  destruct m as [|c m].
  - rewrite <- (app_nil_r ([] ++ b)). simpl. by rewrite (trim_left_drops _ _ [] Hb).
  - rewrite (trim_left_stops cs ((c :: m) ++ b)) by (simpl; intros ? [= <-]; by apply Hh).
    rewrite reverse_app, (trim_left_drops _ _ _ (no_reverse _ _ Hb)), trim_left_stops.
    + by rewrite reverse_involutive.
    + intros d Hd. apply Hl. by rewrite <- head_reverse.
Qed.

(** Every string has this form. *)
Lemma trim_split cs s :
  no (none_of cs) s \/ exists a m b, s = a ++ m ++ b /\ m <> [] /\ no (none_of cs) a /\ no (none_of cs) b /\
    trimmed cs m.
Proof.
  destruct (first_split (none_of cs) s) as [H|(a & c & b & -> & Ha & Hc)]; [by left | right].
  destruct (last_split (none_of cs) (c :: b)) as [H|(m & d & e & E & Hd & He)].
  { apply no_cons in H as [H _]. congruence. }
  apply none_of_true in Hc, Hd. exists a, (m ++ [d]), e. rewrite <- app_assoc. simpl. rewrite <- E.
  split; [done|]. split; [by destruct m|]. do 2 (split; [done|]). split.
  - intros x Hx. destruct m as [|y m]; simpl in E, Hx; congruence.
  - intros x. rewrite last_snoc. congruence.
Qed.

Lemma trim_nothing_left cs s : no (none_of cs) s -> trim_both cs s = [].
Proof.
  intros H. rewrite <- (app_nil_r s). apply (trim_both_middle cs s [] []); [done | apply no_nil | done].
Qed.

Lemma first_good cs a m b :
  no (none_of cs) a -> m <> [] -> trimmed cs m -> find_first_not_of (a ++ m ++ b) cs 0 = len a.
Proof.
  intros Ha Hm [Hh _]. unfold find_first_not_of. destruct m as [|c m]; [done|].
  apply find_some; [done|]. by apply none_of_true, Hh.
Qed.

Lemma last_good cs a m b :
  no (none_of cs) b -> m <> [] -> trimmed cs m ->
  find_last_not_of (a ++ m ++ b) cs npos = len a + len m - 1.
Proof.
  intros Hb Hm [_ Hl]. unfold find_last_not_of.
  destruct (exists_last Hm) as (n & c & ->).
  rewrite app_assoc, app_assoc, <- app_assoc. simpl. rewrite rfind_some.
  - rewrite !len_app, len_cons. unfold len. simpl. lia.
  - apply none_of_true, Hl. by rewrite last_snoc.
  - done.
Qed.

Lemma TrimStringT_middle cs a m b :
  no (none_of cs) a -> no (none_of cs) b -> m <> [] -> trimmed cs m ->
  exists flags, TrimStringT (a ++ m ++ b) cs TRIM_ALL = Some (flags, m).
Proof.
  intros Ha Hb Hm Ht. unfold TrimStringT. change (Z.land TRIM_ALL TRIM_LEADING =? 0) with false.
  change (Z.land TRIM_ALL TRIM_TRAILING =? 0) with false. cbv iota beta zeta.
  rewrite (first_good _ _ _ _ Ha Hm Ht), (last_good _ _ _ _ Hb Hm Ht).
  assert (0 < len m) as Hlm.
  { pose proof (len_nonneg m). pose proof (len_zero m). destruct (decide (len m = 0)); [tauto | lia]. }
  pose proof (len_nonneg a). rewrite bool_decide_eq_false_2.
  2:{ destruct a, m; done. }
  rewrite !(proj2 (Z.eqb_neq _ npos)) by (unfold npos; lia). simpl.
  replace (len a + len m - 1 - len a + 1) with (len m) by lia. rewrite substr_mid. simpl. by eexists.
Qed.

Lemma TrimStringT_all_blank cs s :
  no (none_of cs) s -> exists flags, TrimStringT s cs TRIM_ALL = Some (flags, []).
Proof.
  intros H. unfold TrimStringT, find_first_not_of. change (Z.land TRIM_ALL TRIM_LEADING =? 0) with false.
  cbv iota beta zeta. rewrite (find_none _ _ H). change (npos =? npos) with true. rewrite orb_true_r.
  simpl. by eexists.
Qed.

Lemma TrimStringT_exact cs s : exists flags, TrimStringT s cs TRIM_ALL = Some (flags, trim_both cs s).
Proof.
  destruct (trim_split cs s) as [H|(a & m & b & -> & Hm & Ha & Hb & Ht)].
  - rewrite (trim_nothing_left _ _ H). by apply TrimStringT_all_blank.
  - rewrite (trim_both_middle _ _ _ _ Ha Hb Ht). by apply TrimStringT_middle.
Qed.

Lemma trim_both_trimmed cs s : trimmed cs (trim_both cs s).
Proof.
  destruct (trim_split cs s) as [H|(a & m & b & -> & Hm & Ha & Hb & Ht)].
  - by rewrite (trim_nothing_left _ _ H).
  - by rewrite (trim_both_middle _ _ _ _ Ha Hb Ht).
Qed.

Lemma trim_trimmed cs s : trimmed cs s -> trim_both cs s = s.
Proof.
  intros H. pose proof (trim_both_middle cs [] s [] (no_nil _) (no_nil _) H) as E. simpl in E.
  by rewrite app_nil_r in E.
Qed.

Lemma trim_wide_exact s : trim_wide s = Some (trim_both kWhitespaceUTF16 s).
Proof. unfold trim_wide, TrimWhitespace. by destruct (TrimStringT_exact kWhitespaceUTF16 s) as (f & ->). Qed.

Lemma trim_ascii_exact s : trim_ascii s = Some (trim_both kWhitespaceASCII s).
Proof. unfold trim_ascii, TrimWhitespaceASCII. by destruct (TrimStringT_exact kWhitespaceASCII s) as (f & ->). Qed.

(** Splitting: the parts between the separators, at least one. *)
Fixpoint pieces (p : Z -> bool) (s : list Z) : list (list Z) :=
  match s with
  | [] => [[]]
  | c :: s =>
      if p c then [] :: pieces p s
      else match pieces p s with t :: ts => (c :: t) :: ts | [] => [[c]] end
  end.

Lemma pieces_cons p s : exists t ts, pieces p s = t :: ts.
Proof.
  destruct s as [|c s]; simpl; [by eexists _, _|]. destruct (p c); [by eexists _, _|].
  destruct (pieces p s); by eexists _, _.
Qed.

Lemma pieces_none p a : no p a -> pieces p a = [a].
Proof. induction 1 as [|c a Hc Ha IH]; simpl; [done|]. by rewrite Hc, IH. Qed.

Lemma pieces_sep p a c b : no p a -> p c = true -> pieces p (a ++ c :: b) = a :: pieces p b.
Proof.
  intros Ha Hc. induction Ha as [|d a Hd Ha IH]; simpl; [by rewrite Hc|]. by rewrite Hd, IH.
Qed.

Lemma pieces_no p s : Forall (no p) (pieces p s).
Proof.
  induction s as [|c s IH]; simpl; [repeat constructor|]. destruct (p c) eqn:Hc; [by constructor; [constructor|]|].
  destruct (pieces p s) as [|t ts]; [by repeat constructor|]. inversion IH; subst.
  constructor; [by constructor | done].
Qed.

(** No piece for an empty string. *)
Definition parts (p : Z -> bool) (f : list Z -> list Z) (s : list Z) : list (list Z) :=
  let ps := f <$> pieces p s in if bool_decide (ps = [[]]) then [] else ps.

Section SplitExact.
Context (trim : list Z -> option (list Z)) (f : list Z -> list Z).
Context (trim_f : forall s, trim s = Some (f s)).

Definition trimmer (trim_whitespace : bool) : list Z -> list Z := if trim_whitespace then f else id.

Definition kept (r ps : list (list Z)) : list (list Z) :=
  if bool_decide (r = []) && bool_decide (ps = [[]]) then [] else r ++ ps.

Lemma SplitString_step turns str s tw i last r :
  SplitString_loop trim (S turns) str s tw i last r =
  (at_i ← (if i =? len str then Some true else c ← at_ str i; Some (c =? s));
   if at_i : bool then
     tmp ← substr str last (i - last);
     tmp ← (if tw then trim tmp else Some tmp);
     SplitString_loop trim turns str s tw (i + 1) (i + 1)
       (if negb (i =? len str) || negb (bool_decide (r = [])) || negb (bool_decide (tmp = []))
        then r ++ [tmp] else r)
   else SplitString_loop trim turns str s tw (i + 1) last r).
Proof. done. Qed.

Lemma SplitString_loop_exact s tw rest : forall pre cur r,
  no (is_char s) cur ->
  SplitString_loop trim (S (length rest)) (pre ++ cur ++ rest) s tw (len (pre ++ cur)) (len pre) r =
  Some (kept r (trimmer tw <$> pieces (is_char s) (cur ++ rest))).
Proof.
  assert (forall cur, (if tw then trim cur else Some cur) = Some (trimmer tw cur)) as Htr
    by (intros cur; unfold trimmer; destruct tw; [apply trim_f | done]).
  induction rest as [|c rest IH]; intros pre cur r Hcur; rewrite SplitString_step; cbn [length].
  - rewrite app_nil_r, Z.eqb_refl. cbn [mbind option_bind].
    rewrite len_app, Z.add_simpl_l. rewrite <- (app_nil_r cur) at 1. rewrite substr_mid.
    cbn [mbind option_bind]. rewrite Htr. cbn [mbind option_bind negb orb].
    rewrite (pieces_none _ _ Hcur). simpl. f_equal. unfold kept.
    destruct r as [|x r]; simpl; [|done]. by destruct (trimmer tw cur).
  - rewrite (proj2 (Z.eqb_neq _ _)).
    2:{ rewrite !len_app, len_cons. pose proof (len_nonneg rest). lia. }
    rewrite app_assoc, at_mid. cbn [mbind option_bind].
    rewrite Z.eqb_sym. fold (is_char s c). destruct (is_char s c) eqn:Hc.
    + replace (len (pre ++ cur) - len pre) with (len cur) by (rewrite len_app; lia).
      rewrite <- app_assoc, substr_mid. cbn [mbind option_bind].
      rewrite Htr. cbn [mbind option_bind].
      cbn [negb orb]. specialize (IH (pre ++ cur ++ [c]) [] (r ++ [trimmer tw cur]) (no_nil _)).
      rewrite app_nil_r in IH. simpl app in IH.
      replace (len (pre ++ cur ++ [c])) with (len (pre ++ cur) + 1) in IH
        by (rewrite !len_app, len_cons; unfold len; simpl; lia).
      rewrite <- !app_assoc in IH. simpl app in IH. rewrite IH.
      rewrite (pieces_sep _ _ _ _ Hcur Hc). simpl. f_equal. unfold kept.
      destruct (pieces_cons (is_char s) rest) as (t & ts & ->).
      rewrite bool_decide_eq_false_2 by (by destruct r). simpl.
      rewrite (bool_decide_eq_false_2 (_ :: _ :: _ = [[]])) by done. rewrite andb_false_r.
      by rewrite <- app_assoc.
    + specialize (IH pre (cur ++ [c]) r). rewrite <- !app_assoc in IH. simpl app in IH.
      replace (len (pre ++ cur ++ [c])) with (len (pre ++ cur) + 1) in IH
        by (rewrite !len_app, len_cons; unfold len; simpl; lia).
      rewrite <- app_assoc. apply IH. apply no_app. split; [done|]. by repeat constructor.
Qed.

Lemma SplitStringT_exact str s tw :
  SplitStringT trim str s tw = Some (parts (is_char s) (trimmer tw) str).
Proof. apply (SplitString_loop_exact s tw str [] [] []), no_nil. Qed.
End SplitExact.

(** Joining the pieces gives the string back. *)
Lemma join_app (sep : list Z) (ps : list (list Z)) (a b : list Z) :
  fold_left (fun result part => result ++ sep ++ part) ps (a ++ b) =
  a ++ fold_left (fun result part => result ++ sep ++ part) ps b.
Proof. revert b. induction ps as [|p ps IH]; intros b; simpl; [done|]. by rewrite <- app_assoc, IH. Qed.

Lemma JoinString_cons x y ps sep : JoinString (x :: y :: ps) sep = x ++ sep ++ JoinString (y :: ps) sep.
Proof. unfold JoinString. simpl. by rewrite !join_app. Qed.

Lemma join_pieces c s : JoinString (pieces (is_char c) s) [c] = s.
Proof.
  induction s as [|d s IH]; simpl; [done|]. destruct (pieces_cons (is_char c) s) as (t & ts & E).
  destruct (is_char c d) eqn:Hd.
  - rewrite E, JoinString_cons, <- E, IH. apply Z.eqb_eq in Hd as ->. done.
  - rewrite E in IH |- *. destruct ts as [|t' ts]; [by simpl in *; rewrite IH|].
    cbv iota beta. rewrite JoinString_cons in IH |- *. rewrite <- app_comm_cons. by rewrite IH.
Qed.

(** And splitting what was joined gives the parts back. *)
Lemma pieces_join c ps :
  ps <> [] -> Forall (no (is_char c)) ps -> pieces (is_char c) (JoinString ps [c]) = ps.
Proof.
  intros Hne H. induction H as [|t ps Ht H IH]; [done|]. destruct ps as [|u ps].
  - simpl. by apply pieces_none.
  - rewrite JoinString_cons. cbn [app]. rewrite pieces_sep, IH; [done|done|done|]. apply is_char_eq. done.
Qed.

(** *** Tokens: the pieces that are not empty *)

Definition tokens (p : Z -> bool) (s : list Z) : list (list Z) := filter (fun t => t <> []) (pieces p s).

Lemma tokens_skip p a s : Forall (fun c => p c = true) a -> tokens p (a ++ s) = tokens p s.
Proof.
  unfold tokens. induction 1 as [|c a Hc Ha IH]; simpl; [done|]. rewrite Hc, filter_cons_False by tauto. done.
Qed.

Lemma tokens_none p a : no p a -> a <> [] -> tokens p a = [a].
Proof. intros Ha Hne. unfold tokens. rewrite (pieces_none _ _ Ha). by rewrite filter_cons_True by done. Qed.

Lemma tokens_sep p a c b : no p a -> a <> [] -> p c = true -> tokens p (a ++ c :: b) = a :: tokens p b.
Proof.
  intros Ha Hne Hc. unfold tokens. rewrite (pieces_sep _ _ _ _ Ha Hc). by rewrite filter_cons_True by done.
Qed.

Lemma no_none_of cs s : no (none_of cs) s -> Forall (fun c => any_of cs c = true) s.
Proof. intros H. eapply Forall_impl; [exact H|]. intros c Hc. by apply none_of_false. Qed.

(** Where the next token starts. *)
Lemma next_token cs pre s :
  (find_first_not_of (pre ++ s) cs (len pre) = npos /\ tokens (any_of cs) s = []) \/
  (exists a c b, s = a ++ c :: b /\ any_of cs c = false /\ Forall (fun c => any_of cs c = true) a /\
     find_first_not_of (pre ++ s) cs (len pre) = len (pre ++ a)).
Proof.
  unfold find_first_not_of. rewrite find_from. destruct (first_split (none_of cs) s) as [H|(a & c & b & -> & Ha & Hc)].
  - left. rewrite (first_index_none _ _ _ H). split; [done|].
    rewrite <- (app_nil_r s). by rewrite tokens_skip by (by apply no_none_of).
  - right. exists a, c, b. split; [done|]. split; [by apply none_of_true|]. split; [by apply no_none_of|].
    rewrite (first_index_some _ _ _ _ _ Ha Hc). by rewrite len_app.
Qed.

Lemma Tokenize_loop_exact delimiters fuel : forall pre c rest tokens_,
  any_of delimiters c = false -> (length rest < fuel)%nat ->
  Tokenize_loop fuel (pre ++ c :: rest) delimiters (len pre) tokens_ =
  Some (tokens_ ++ tokens (any_of delimiters) (c :: rest)).
Proof.
  induction fuel as [|fuel IH]; intros pre c rest ts Hc Hfuel; [lia|]. cbn [Tokenize_loop].
  rewrite (proj2 (Z.eqb_neq _ _)) by (pose proof (len_nonneg pre); unfold npos; lia).
  assert (find_first_of (pre ++ c :: rest) delimiters (len pre + 1) =
          first_index (any_of delimiters) (len pre + 1) rest) as ->.
  { pose proof (find_from (any_of delimiters) (pre ++ [c]) rest) as H.
    rewrite <- app_assoc, len_app in H. exact H. }
  destruct (first_split (any_of delimiters) rest) as [H|(a & d & b & -> & Ha & Hd)].
  - rewrite (first_index_none _ _ _ H), Z.eqb_refl, substr_tail. cbn [mbind option_bind].
    rewrite (tokens_none _ (c :: rest)); [done | by constructor | done].
  - rewrite (first_index_some _ _ _ _ _ Ha Hd).
    rewrite (proj2 (Z.eqb_neq _ _)) by (pose proof (len_nonneg pre); pose proof (len_nonneg a); unfold npos; lia).
    replace (len pre + 1 + len a - len pre) with (len (c :: a)) by (rewrite len_cons; lia).
    rewrite (app_comm_cons a), substr_mid. cbn [mbind option_bind].
    rewrite (tokens_sep _ (c :: a) d b); [|by constructor | done | done].
    replace (len pre + 1 + len a + 1) with (len (pre ++ (c :: a) ++ [d]))
      by (rewrite !len_app, len_cons; unfold len; simpl; lia).
    replace (pre ++ (c :: a) ++ d :: b) with ((pre ++ (c :: a) ++ [d]) ++ b) by (by rewrite <- !app_assoc).
    destruct (next_token delimiters (pre ++ (c :: a) ++ [d]) b) as [[-> ->]|(x & e & y & -> & He & Hx & ->)].
    + destruct fuel as [|fuel]; [simpl in Hfuel; rewrite length_app in Hfuel; simpl in Hfuel; lia|].
      cbn [Tokenize_loop]. by rewrite Z.eqb_refl.
    + rewrite app_assoc, IH; [|done | rewrite !length_app in Hfuel; simpl in Hfuel; rewrite length_app in Hfuel;
        simpl in Hfuel; lia].
      rewrite (tokens_skip _ x _ Hx), <- app_assoc. done.
Qed.

Lemma Tokenize_exact str delimiters :
  Tokenize str delimiters =
  Some (Z.of_nat (length (tokens (any_of delimiters) str)), tokens (any_of delimiters) str).
Proof.
  unfold Tokenize. destruct (next_token delimiters [] str) as [[H1 H2]|(a & c & b & -> & Hc & Ha & H)].
  - simpl app in H1. change (len []) with 0 in H1. rewrite H1, H2. done.
  - simpl app in H. change (len []) with 0 in H. rewrite H.
    rewrite Tokenize_loop_exact; [|done | rewrite length_app; simpl; lia].
    cbn [mbind option_bind app]. by rewrite (tokens_skip _ a _ Ha).
Qed.

(** *** Replacing characters *)

Definition replaced (replace_chars replace_with s : list Z) : list Z :=
  concat ((fun c => if any_of replace_chars c then replace_with else [c]) <$> s).

Lemma replaced_app cs w a b : replaced cs w (a ++ b) = replaced cs w a ++ replaced cs w b.
Proof. unfold replaced. by rewrite fmap_app, concat_app. Qed.

Lemma replaced_none cs w a : no (any_of cs) a -> replaced cs w a = a.
Proof. unfold replaced. induction 1 as [|c a Hc Ha IH]; simpl; [done|]. rewrite Hc. simpl. by f_equal. Qed.

Lemma replace_mid s t u w : replace (s ++ t ++ u) (len s) (len t) w = Some (s ++ w ++ u).
Proof.
  unfold replace. case_guard as H; [|destruct H; rewrite len_app; pose proof (len_nonneg s);
    pose proof (len_nonneg (t ++ u)); lia]. simpl. by rewrite take_len, drop_len, drop_len.
Qed.

Lemma replace_found_exact cs w fuel : forall done_ rest,
  (length rest < fuel)%nat ->
  replace_found fuel (done_ ++ rest) cs w (find_first_of (done_ ++ rest) cs (len done_)) =
  Some (done_ ++ replaced cs w rest).
Proof.
  induction fuel as [|fuel IH]; intros d rest Hfuel; [lia|]. unfold find_first_of at 1. rewrite find_from.
  destruct (first_split (any_of cs) rest) as [H|(a & c & b & -> & Ha & Hc)]; cbn [replace_found].
  - rewrite (first_index_none _ _ _ H), Z.eqb_refl. by rewrite replaced_none.
  - rewrite (first_index_some _ _ _ _ _ Ha Hc).
    rewrite (proj2 (Z.eqb_neq _ _)) by (pose proof (len_nonneg d); pose proof (len_nonneg a); unfold npos; lia).
    rewrite <- len_app. replace (d ++ a ++ c :: b) with ((d ++ a) ++ [c] ++ b) by (by rewrite <- app_assoc).
    change 1 with (len [c]) at 1. rewrite replace_mid. cbn [mbind option_bind].
    rewrite <- len_app, (app_assoc (d ++ a)). rewrite IH.
    + rewrite replaced_app, (replaced_none _ _ _ Ha), <- !app_assoc. unfold replaced at 2. simpl. by rewrite Hc.
    + rewrite length_app in Hfuel. simpl in Hfuel. lia.
Qed.

Lemma ReplaceChars_exact input cs w :
  exists removed, ReplaceChars input cs w = Some (removed, replaced cs w input) /\
    (removed = false <-> no (any_of cs) input).
Proof.
  unfold ReplaceChars. pose proof (replace_found_exact cs w (S (length input)) [] input ltac:(lia)) as H.
  simpl app in H. change (len []) with 0 in H. rewrite H. eexists. split; [done|].
  rewrite negb_false_iff, Z.eqb_eq. unfold find_first_of.
  destruct (first_split (any_of cs) input) as [Hn|(a & c & b & -> & Ha & Hc)].
  - by rewrite (find_none _ _ Hn).
  - rewrite (find_some _ _ _ _ Ha Hc). split; [pose proof (len_nonneg a); unfold npos; lia|].
    intros Hf. apply no_app in Hf as [_ Hf]. apply no_cons in Hf as [? _]. congruence.
Qed.

(** *** Collapsing: the words of each line, one space between two of them *)

Section CollapseExact.
Context (wide : Z -> Z) (wide_breaks : forall c, c = 10 \/ c = 13 -> wide c = c).

Definition is_space (c : Z) : bool := IsWhitespace (wide c).
Definition is_break (c : Z) : bool := (c =? 10) || (c =? 13).

(** The lines, if white space with a line break goes altogether; else all is one line. *)
Definition lines (breaks : bool) (s : list Z) : list (list Z) := if breaks then pieces is_break s else [s].

Definition closed (line : list Z) : list Z := concat (cons 32 <$> tokens is_space line).
Definition opened (line : list Z) : list Z :=
  match pieces is_space line with
  | [] => []
  | t :: ts => t ++ concat (cons 32 <$> filter (fun t => t <> []) ts)
  end.
Definition collapsed_line (line : list Z) : list Z := JoinString (tokens is_space line) [32].
Definition collapsed (breaks : bool) (s : list Z) : list Z := concat (collapsed_line <$> lines breaks s).

Lemma break_is_space c : is_break c = true -> is_space c = true.
Proof.
  intros H. assert (c = 10 \/ c = 13) as Hc by (unfold is_break in H; rewrite orb_true_iff, !Z.eqb_eq in H; done).
  unfold is_space. rewrite (wide_breaks c Hc). by destruct Hc as [-> | ->].
Qed.

Lemma join_spaces t ts : JoinString (t :: ts) [32] = t ++ concat (cons 32 <$> ts).
Proof.
  revert t. induction ts as [|u ts IH]; intros t; [by rewrite app_nil_r|].
  rewrite JoinString_cons, IH. done.
Qed.

Lemma line_space c line :
  is_space c = true ->
  closed (c :: line) = closed line /\ opened (c :: line) = closed line /\
  collapsed_line (c :: line) = collapsed_line line.
Proof.
  intros Hc. unfold closed, opened, collapsed_line, tokens. simpl. rewrite Hc.
  rewrite filter_cons_False by tauto. done.
Qed.

Lemma line_char c line :
  is_space c = false ->
  closed (c :: line) = 32 :: c :: opened line /\ opened (c :: line) = c :: opened line /\
  collapsed_line (c :: line) = c :: opened line.
Proof.
  intros Hc. unfold closed, opened, collapsed_line, tokens. simpl. rewrite Hc.
  destruct (pieces_cons is_space line) as (t & ts & ->). rewrite filter_cons_True by done.
  rewrite join_spaces. done.
Qed.

Lemma lines_break s c : is_break c = true -> lines true (c :: s) = [] :: lines true s.
Proof. intros H. unfold lines. simpl. by rewrite H. Qed.

Lemma lines_char breaks s c :
  breaks && is_break c = false ->
  exists l ls, lines breaks s = l :: ls /\ lines breaks (c :: s) = (c :: l) :: ls.
Proof.
  destruct breaks; simpl; intros H; [|by exists s, []]. rewrite H.
  destruct (pieces_cons is_break s) as (t & ts & ->). by exists t, ts.
Qed.

(** What the loop has written, by the state of its flags, and what it still will. *)
Definition written (c : Collapse) (w : list Z) (room : nat) : Prop :=
  exists junk, result c = w ++ junk /\ chars_written c = len w /\ (room <= length junk)%nat.

Inductive State (c : Collapse) (room : nat) (breaks : bool) (s : list Z) (final : list Z) : Prop :=
| Trimmed w :
    in_whitespace c = true -> already_trimmed c = true -> written c w room ->
    final = w ++ collapsed breaks s -> State c room breaks s final
| InWord w l ls :
    in_whitespace c = false -> already_trimmed c = false -> written c w room ->
    lines breaks s = l :: ls -> final = w ++ opened l ++ concat (collapsed_line <$> ls) ->
    State c room breaks s final
| AfterSpace w l ls :
    in_whitespace c = true -> already_trimmed c = false -> written c (w ++ [32]) room ->
    lines breaks s = l :: ls -> final = w ++ closed l ++ concat (collapsed_line <$> ls) ->
    State c room breaks s final.

Lemma put_written c w room x in_ws trimmed :
  written c w (S room) ->
  exists c', put c x in_ws trimmed = Some c' /\ written c' (w ++ [x]) room /\
    in_whitespace c' = in_ws /\ already_trimmed c' = trimmed.
Proof.
  intros (junk & Hr & Hw & Hj). unfold put. rewrite Hr, Hw. destruct junk as [|y junk]; [simpl in Hj; lia|].
  case_guard as H; [|destruct H; rewrite len_app, len_cons; pose proof (len_nonneg w);
    pose proof (len_nonneg junk); lia]. simpl. eexists. split; [done|]. split; [|done].
  exists junk. simpl. split; [|split; [by rewrite len_app | simpl in Hj; lia]].
  unfold len. rewrite Nat2Z.id, insert_app_r_alt by lia. rewrite Nat.sub_diag. simpl. by rewrite <- app_assoc.
Qed.

Lemma written_back c w x room in_ws trimmed :
  written c (w ++ [x]) room -> written (Collapse_ (result c) in_ws trimmed (chars_written c - 1)) w room.
Proof.
  intros (junk & Hr & Hw & Hj). exists (x :: junk). simpl. rewrite Hr, Hw, <- app_assoc. split; [done|].
  rewrite len_app. unfold len. simpl. split; lia.
Qed.

Lemma written_less c w room : written c w (S room) -> written c w room.
Proof. intros (junk & Hr & Hw & Hj). exists junk. split; [done|]. split; [done | lia]. Qed.

Lemma collapse_char_state breaks c x s room final :
  State c (S room) breaks (x :: s) final ->
  exists c', collapse_char wide breaks c x = Some c' /\ State c' room breaks s final.
Proof.
  intros Hst. unfold collapse_char. fold (is_space x). destruct (is_space x) eqn:Hx.
  - assert (forall l ls, lines breaks (x :: s) = l :: ls ->
      (breaks && is_break x = true /\ l = [] /\ ls = lines breaks s) \/
      (breaks && is_break x = false /\ exists l', l = x :: l' /\ lines breaks s = l' :: ls)) as Hl.
    { intros l ls E. destruct (breaks && is_break x) eqn:Hb.
      - left. apply andb_true_iff in Hb as [-> Hb]. rewrite (lines_break _ _ Hb) in E. by injection E as <- <-.
      - right. destruct (lines_char breaks s x Hb) as (l' & ls' & H1 & H2). rewrite H2 in E.
        injection E as <- <-. split; [done|]. by exists l'. }
    destruct Hst as [w Hw Ht Hwr ->|w l ls Hw Ht Hwr E ->|w l ls Hw Ht Hwr E ->]; rewrite Hw.
    + simpl. rewrite Ht, andb_false_r. eexists. split; [done|]. apply (Trimmed _ _ _ _ _ w); [done..|by apply written_less|].
      f_equal. unfold collapsed. destruct (lines breaks (x :: s)) as [|l ls] eqn:E.
      { destruct breaks; [|done]. simpl in E. destruct (is_break x), (pieces_cons is_break s) as (? & ? & E');
          by rewrite ?E' in E. }
      destruct (Hl _ _ eq_refl) as [(_ & -> & ->)|(_ & l' & -> & ->)]; [done|].
      rewrite !fmap_cons. by destruct (line_space x l' Hx) as (_ & _ & ->).
    + destruct (put_written c w room 32 true (already_trimmed c) Hwr) as (c' & -> & Hwr' & Hw' & Ht'). simpl.
      rewrite Ht', Ht. simpl. rewrite andb_true_r. fold (is_break x).
      destruct (Hl _ _ E) as [(-> & -> & ->)|(-> & l' & -> & El)]; eexists; (split; [done|]).
      * apply (Trimmed _ _ _ _ _ w); [done..| | done]. by apply (written_back _ _ 32).
      * apply (AfterSpace _ _ _ _ _ w l' ls); try done; [by rewrite Ht'|].
        by destruct (line_space x l' Hx) as (_ & -> & _).
    + simpl. rewrite Ht. simpl. rewrite andb_true_r. fold (is_break x).
      destruct (Hl _ _ E) as [(-> & -> & ->)|(-> & l' & -> & El)]; eexists; (split; [done|]).
      * apply (Trimmed _ _ _ _ _ w); [done..| | done]. apply (written_back _ _ 32). by apply written_less.
      * apply (AfterSpace _ _ _ _ _ w l' ls); try done; [by apply written_less|].
        by destruct (line_space x l' Hx) as (-> & _ & _).
  - assert (breaks && is_break x = false) as Hb.
    { destruct breaks; [|done]. simpl. apply not_true_iff_false. intros Hbx. apply break_is_space in Hbx. congruence. }
    destruct (lines_char breaks s x Hb) as (l & ls & E1 & E2). destruct (line_char x l Hx) as (Hc & Ho & Hcl).
    destruct Hst as [w Hw Ht Hwr ->|w l' ls' Hw Ht Hwr E ->|w l' ls' Hw Ht Hwr E ->];
      destruct (put_written _ _ room x false false Hwr) as (c' & -> & Hwr' & Hw' & Ht');
      exists c'; (split; [done|]).
    + apply (InWord _ _ _ _ _ (w ++ [x]) l ls); try done. unfold collapsed. rewrite E2, fmap_cons.
      simpl. rewrite Hcl, <- app_assoc. done.
    + apply (InWord _ _ _ _ _ (w ++ [x]) l ls); try done. rewrite E2 in E. injection E as <- <-.
      by rewrite Ho, <- app_assoc.
    + apply (InWord _ _ _ _ _ ((w ++ [32]) ++ [x]) l ls); try done. rewrite E2 in E. injection E as <- <-.
      by rewrite Hc, <- !app_assoc.
Qed.

(** The buffer is never written outside, and the answer is the collapsed text. *)
Lemma CollapseWhitespace_exact text breaks :
  CollapseWhitespace wide text breaks = Some (collapsed breaks text).
Proof.
  unfold CollapseWhitespace.
  assert (forall s c final, State c (length s) breaks s final ->
    exists c', foldl (fun c i => c ≫= fun c => collapse_char wide breaks c i) (Some c) s = Some c' /\
      State c' 0 breaks [] final) as H.
  { induction s as [|x s IH]; intros c final Hst; [by exists c|]. cbn [foldl mbind option_bind].
    destruct (collapse_char_state _ _ _ _ _ _ Hst) as (c' & -> & Hst'). by apply IH. }
  destruct (H text (Collapse_ (replicate (length text) 0) true true 0) (collapsed breaks text)) as (c & -> & Hst).
  - apply (Trimmed _ _ _ _ _ []); [done..| |done]. exists (replicate (length text) 0). simpl.
    split; [done|]. split; [done|]. by rewrite length_replicate.
  - simpl. assert (lines breaks [] = [[]]) as El by (by destruct breaks).
    assert (forall w junk : list Z, result c = w ++ junk -> resize (result c) (len w) = w) as Hr
      by (intros w junk ->; apply resize_shorter).
    destruct Hst as [w Hw Ht (junk & Hj & Hn & _) E|w l ls Hw Ht (junk & Hj & Hn & _) El' E
                    |w l ls Hw Ht (junk & Hj & Hn & _) El' E]; rewrite Hw, Ht; simpl; rewrite E.
    + rewrite Hn. case_guard as Hg; [|destruct Hg; apply len_nonneg]. simpl. rewrite (Hr _ _ Hj).
      unfold collapsed. rewrite El. simpl. by rewrite app_nil_r.
    + rewrite Hn. case_guard as Hg; [|destruct Hg; apply len_nonneg]. simpl. rewrite (Hr _ _ Hj).
      rewrite El in El'. injection El' as <- <-. simpl. by rewrite app_nil_r.
    + rewrite Hn, len_app. change (len [32]) with 1. rewrite Z.add_simpl_r.
      case_guard as Hg; [|destruct Hg; apply len_nonneg]. simpl.
      rewrite <- app_assoc in Hj. rewrite (Hr _ _ Hj). rewrite El in El'. injection El' as <- <-.
      simpl. by rewrite app_nil_r.
Qed.
End CollapseExact.

(** [char] is signed: above 127 it widens to a character far from all white space. *)
Definition wide_of_char (c : Z) : Z := Int.static_cast Int.uint16 (Int.static_cast Int.int8 c).

(** *** Splitting along white space *)

Definition finish (str : list Z) (st : bool * Z * list (list Z)) : option (list (list Z)) :=
  let '(last_was_ws, last_non_ws_start, result) := st in
  if last_was_ws : bool then Some result
  else token ← substr str last_non_ws_start (len str - last_non_ws_start); Some (result ++ [token]).

Lemma along_loop_exact rest : forall pre cur result,
  no is_html_space cur ->
  (cur ++ rest <> [] -> (cur = [] -> pre = []) ->
   SplitAlongWhitespace_loop (length rest) (pre ++ cur ++ rest) (len (pre ++ cur)) false (len pre) result
   ≫= finish (pre ++ cur ++ rest) = Some (result ++ tokens is_html_space (cur ++ rest))) /\
  (forall start, SplitAlongWhitespace_loop (length rest) ((pre ++ cur) ++ rest) (len (pre ++ cur)) true start result
   ≫= finish ((pre ++ cur) ++ rest) = Some (result ++ tokens is_html_space rest)).
Proof.
  induction rest as [|c rest IH]; intros pre cur result Hcur.
  - split.
    + intros Hne _. rewrite app_nil_r in *. cbn [length SplitAlongWhitespace_loop mbind option_bind finish].
      rewrite (len_app pre cur), Z.add_simpl_l. rewrite <- (app_nil_r cur) at 1. rewrite substr_mid. simpl.
      by rewrite tokens_none.
    + intros start. simpl. by rewrite app_nil_r.
  - assert (len (pre ++ cur ++ [c]) = len (pre ++ cur) + 1) as El
      by (rewrite !len_app; unfold len; simpl; lia).
    assert (forall r start, is_html_space c = true ->
      SplitAlongWhitespace_loop (length rest) ((pre ++ cur) ++ c :: rest) (len (pre ++ cur) + 1) true start r
      ≫= finish ((pre ++ cur) ++ c :: rest) = Some (r ++ tokens is_html_space rest)) as Hws.
    { intros r start Hc. destruct (IH (pre ++ cur ++ [c]) [] r (no_nil _)) as [_ H]. specialize (H start).
      rewrite app_nil_r, El, <- !app_assoc in H. rewrite <- !app_assoc. exact H. }
    split.
    + intros _ Hpre. cbn [length SplitAlongWhitespace_loop]. rewrite app_assoc, at_mid. cbn [mbind option_bind].
      destruct (is_html_space c) eqn:Hc.
      * destruct (decide (cur = [])) as [->|Hne].
        -- assert (pre = []) as -> by (by apply Hpre). change (0 <? len ([] ++ [])) with false.
           cbn [mbind option_bind]. rewrite Hws by done.
           do 2 f_equal. symmetry. apply (tokens_skip is_html_space [c]). by repeat constructor.
        -- assert (0 < len cur).
           { pose proof (len_nonneg cur). pose proof (len_zero cur). destruct (decide (len cur = 0)); [tauto|lia]. }
           rewrite (proj2 (Z.ltb_lt _ _)) by (rewrite len_app; pose proof (len_nonneg pre); lia).
           replace (len (pre ++ cur) - len pre) with (len cur) by (rewrite len_app; lia).
           rewrite <- app_assoc, substr_mid. cbn [mbind option_bind]. rewrite app_assoc, Hws by done.
           by rewrite (tokens_sep _ cur c rest Hcur Hne Hc), <- app_assoc.
      * destruct (IH pre (cur ++ [c]) result) as [H _]; [apply no_app; split; [done | by repeat constructor]|].
        rewrite <- !app_assoc in H. cbn [app] in H. rewrite El in H. rewrite <- app_assoc. apply H; [by destruct cur|].
        by destruct cur.
    + intros start. cbn [length SplitAlongWhitespace_loop]. rewrite at_mid. cbn [mbind option_bind].
      destruct (is_html_space c) eqn:Hc.
      * cbn [mbind option_bind]. rewrite Hws by done. do 2 f_equal. symmetry.
        apply (tokens_skip is_html_space [c]). by repeat constructor.
      * destruct (IH (pre ++ cur) [c] result) as [H _]; [by repeat constructor|].
        rewrite (len_app (pre ++ cur) [c]) in H. by apply H.
Qed.

Lemma SplitStringAlongWhitespace_exact str :
  SplitStringAlongWhitespace str = Some (tokens is_html_space str).
Proof.
  unfold SplitStringAlongWhitespace. destruct (Z.eqb_spec (len str) 0) as [E|E].
  - apply len_zero in E as ->. done.
  - destruct (along_loop_exact str [] [] [] (no_nil _)) as [H _]. simpl app in H.
    change (len []) with 0 in H. rewrite <- H; [|by intros ->; apply E | done].
    destruct (SplitAlongWhitespace_loop _ _ _ _ _ _) as [[[[] st] r]|]; done.
Qed.

(** *** Keys and values *)

Lemma SplitStringIntoKeyValue_exact line d :
  SplitStringIntoKeyValue line d = Some
    match pieces (is_char d) line with
    | key :: rest =>
        let value := trim_left [d] (JoinString rest [d]) in
        if bool_decide (rest = []) then (false, ([], []))
        else if bool_decide (value = []) then (false, (key, [])) else (true, (key, value))
    | [] => (false, ([], []))
    end.
Proof.
  unfold SplitStringIntoKeyValue, find. destruct (first_split (is_char d) line) as [H|(a & c & b & -> & Ha & Hc)].
  - by rewrite (find_none _ _ H), (pieces_none _ _ H).
  - rewrite (find_some _ _ _ _ Ha Hc), (pieces_sep _ _ _ _ Ha Hc).
    rewrite (proj2 (Z.eqb_neq _ _)) by (pose proof (len_nonneg a); unfold npos; lia).
    rewrite substr_head. cbn [mbind option_bind].
    replace (len (a ++ c :: b) - len a) with (len (c :: b)) by (rewrite len_app; lia).
    rewrite <- (app_nil_r (c :: b)) at 1. rewrite substr_mid. cbn [mbind option_bind].
    rewrite join_pieces. destruct (pieces_cons (is_char d) b) as (t & ts & Ep).
    rewrite (bool_decide_eq_false_2 (pieces _ _ = [])) by (by rewrite Ep).
    assert (any_of [d] c = true) as Hd by (apply is_char_eq in Hc as ->; apply any_of_in; by left).
    unfold find_first_not_of. assert (forall s, trim_left [d] s = [] <-> no (none_of [d]) s) as Htl.
    { intros s. split.
      - induction s as [|x s IH]; [constructor|]. cbn [trim_left].
        destruct (any_of [d] x) eqn:E; [|done]. intros H. constructor; [by apply none_of_false | by apply IH].
      - intros Hs. rewrite <- (app_nil_r s). by rewrite (trim_left_drops _ _ _ Hs). }
    destruct (first_split (none_of [d]) (c :: b)) as [H|(x & y & z & E & Hx & Hy)].
    + rewrite (find_none _ _ H), Z.eqb_refl. apply no_cons in H as [_ H]. apply Htl in H.
      by rewrite bool_decide_eq_true_2.
    + rewrite E, (find_some _ _ _ _ Hx Hy).
      rewrite (proj2 (Z.eqb_neq _ _)) by (pose proof (len_nonneg x); unfold npos; lia).
      replace (len (x ++ y :: z) - len x) with (len (y :: z)) by (rewrite len_app; lia).
      rewrite <- (app_nil_r (y :: z)) at 1. rewrite substr_mid. cbn [mbind option_bind].
      destruct x as [|x0 x]; simpl in E; injection E as <- ->.
      { apply none_of_true in Hy. congruence. }
      apply no_cons in Hx as [_ Hx]. apply none_of_true in Hy.
      rewrite (trim_left_drops _ _ _ Hx), trim_left_stops; [done|].
      simpl. by intros ? [= <-].
Qed.

(** *** Copying C strings *)

Lemma lcpy_loop_copies n dst src s rest i :
  src = s ++ 0 :: rest -> no (is_char 0) s -> (i + n <= length dst)%nat -> (i <= length s)%nat ->
  lcpy_loop n (take i s ++ drop i dst) src i =
  Some (if bool_decide (length s < i + n)%nat then (s ++ 0 :: drop (S (length s)) dst, Some (len s))
        else (take (i + n) s ++ drop (i + n) dst, None)).
Proof.
  intros -> Hs. revert i. induction n as [|n IH]; intros i Hlen Hi; simpl.
  - rewrite Nat.add_0_r. by rewrite bool_decide_eq_false_2 by lia.
  - assert (length (take i s) = i) as Ht by (rewrite length_take; lia).
    destruct (drop i dst) as [|d ds] eqn:Ed.
    { apply (f_equal length) in Ed. rewrite length_drop in Ed. simpl in Ed. lia. }
    assert (drop (S i) dst = ds) as Eds by (rewrite <- Nat.add_1_r, <- drop_drop, Ed; done).
    assert ((take i s ++ d :: ds) !! i = Some d) as -> by (by apply list_lookup_middle; rewrite Ht).
    assert (forall x, <[i := x]> (take i s ++ d :: ds) = take i s ++ x :: ds) as Hins.
    { intros x. rewrite insert_app_r_alt by lia. rewrite Ht, Nat.sub_diag. done. }
    destruct (decide (i = length s)) as [->|Hne].
    + rewrite list_lookup_middle by done. simpl. rewrite Hins, take_ge, Eds by lia.
      rewrite bool_decide_eq_true_2 by lia. done.
    + destruct (lookup_lt_is_Some_2 s i ltac:(lia)) as [c Hc]. rewrite lookup_app_l by lia. rewrite Hc. simpl.
      assert (is_char 0 c = false) as Hc0 by exact (Forall_lookup_1 _ _ _ _ Hs Hc).
      rewrite (proj2 (Z.eqb_neq c 0)) by (intros ->; done).
      rewrite Hins. replace (take i s ++ c :: ds) with (take (S i) s ++ drop (S i) dst).
      2:{ rewrite (take_S_r _ _ _ Hc), <- app_assoc, Eds. done. }
      rewrite IH by lia. replace (S i + n)%nat with (i + S n)%nat by lia. done.
Qed.

Lemma count_rest_exact s rest n : no (is_char 0) s -> count_rest (s ++ 0 :: rest) n = Some (n + len s).
Proof.
  intros H. revert n. induction H as [|c s Hc H IH]; intros n; simpl; [unfold len; simpl; f_equal; lia|].
  rewrite (proj2 (Z.eqb_neq c 0)) by (intros ->; done). rewrite IH, len_cons. f_equal. lia.
Qed.

(** Nothing is read behind the source's terminator or written behind [dst_size]; what
    was written is terminated, and the answer is the length of the source. *)
Lemma lcpyT_exact dst s rest dst_size :
  no (is_char 0) s -> (dst_size <= length dst)%nat ->
  lcpyT dst (s ++ 0 :: rest) dst_size =
  Some (if bool_decide (dst_size = 0%nat) then dst
        else take (dst_size - 1) s ++ 0 :: drop (S (min (dst_size - 1) (length s))) dst, len s).
Proof.
  intros Hs Hd. unfold lcpyT.
  pose proof (lcpy_loop_copies dst_size dst _ s rest 0 eq_refl Hs ltac:(lia) ltac:(lia)) as H.
  rewrite take_0, drop_0 in H. cbn [app] in H. rewrite H. cbn [Nat.add].
  destruct (bool_decide (length s < dst_size)%nat) eqn:Hc;
    [apply bool_decide_eq_true in Hc | apply bool_decide_eq_false in Hc].
  - cbn [mbind option_bind]. rewrite bool_decide_eq_false_2 by lia.
    rewrite take_ge by lia. rewrite Nat.min_r by lia. done.
  - cbn [mbind option_bind]. assert (forall n, count_rest (drop dst_size (s ++ 0 :: rest)) n =
      Some (n + len (drop dst_size s))) as Hcr.
    { intros n. rewrite drop_app_le by lia. apply count_rest_exact. by apply Forall_drop. }
    assert (Z.of_nat dst_size + len (drop dst_size s) = len s) as Hlen
      by (unfold len; rewrite length_drop; lia).
    destruct dst_size as [|k].
    + simpl Nat.eqb. cbn [mbind option_bind]. rewrite Hcr, Hlen. done.
    + simpl Nat.eqb. rewrite Nat.sub_1_r. cbn [Nat.pred].
      assert (length (take k s) = k) as Hk by (rewrite length_take; lia).
      destruct (lookup_lt_is_Some_2 s k ltac:(lia)) as [c Hc'].
      rewrite (take_S_r _ _ _ Hc'), <- app_assoc. cbn [app].
      rewrite list_lookup_middle by (by rewrite Hk). cbn [mbind option_bind].
      assert (<[k := 0]> (take k s ++ c :: drop (S k) dst) = take k s ++ 0 :: drop (S k) dst) as ->.
      { rewrite insert_app_r_alt by lia. rewrite Hk, Nat.sub_diag. done. }
      rewrite Hcr, Hlen. cbn [mbind option_bind]. rewrite bool_decide_eq_false_2 by done.
      rewrite Nat.min_l by lia. done.
Qed.
