(* ===== verification/FilePathProps.v ===== *)
(** * File paths: the theorems

    A path is a drive and a body; the body is leading separators and names. Every
    operation is described on these parts. The descriptions show too that no position
    is out of range and that the loops end, since all operations answer. *)
From Stdlib Require Import ZArith Lia.
From stdpp Require Import base option list.
From S2P Require Import Prelude Unicode StdString StringUtil FilePath.

Local Open Scope Z_scope.

(** ** Drive and body *)

Definition is_drive (d : list Z) : Prop := exists letter, is_letter letter = true /\ d = [letter; 58].

(** [d] is the drive of [d ++ r]. *)
Definition drive_of (d r : list Z) : Prop :=
  is_drive d \/ (d = [] /\ FindDriveLetter r = npos).

Definition the_drive (path : list Z) : list Z := take (Z.to_nat (FindDriveLetter path + 1)) path.
Definition body (path : list Z) : list Z := drop (Z.to_nat (FindDriveLetter path + 1)) path.

Lemma find_drive_cases path :
  (FindDriveLetter path = npos) \/
  (exists letter r, is_letter letter = true /\ path = letter :: 58 :: r /\ FindDriveLetter path = 1).
Proof.
  unfold FindDriveLetter. destruct path as [|a path]; [by left|].
  destruct path as [|b path]; [by left|].
  destruct (decide (b = 58)) as [->|Hb].
  - destruct (is_letter a) eqn:Ha; [|by left]. right. by exists a, path.
  - left. destruct b as [|b|b]; try done. do 6 (destruct b as [b|b|]; try done).
Qed.

Lemma path_split path : path = the_drive path ++ body path /\ drive_of (the_drive path) (body path).
Proof.
  unfold the_drive, body. split; [by rewrite take_drop|].
  destruct (find_drive_cases path) as [E|(letter & r & Hl & -> & E)]; rewrite E.
  - right. split; [done|]. simpl. exact E.
  - left. exists letter. done.
Qed.

Lemma drive_found d r : drive_of d r -> FindDriveLetter (d ++ r) = len d - 1.
Proof.
  intros [(letter & Hl & ->)|[-> E]]; [simpl; by rewrite Hl | exact E].
Qed.

Lemma drive_split d r : drive_of d r -> the_drive (d ++ r) = d /\ body (d ++ r) = r.
Proof.
  intros H. unfold the_drive, body. rewrite (drive_found _ _ H).
  replace (Z.to_nat (len d - 1 + 1)) with (length d) by (unfold len; lia).
  by rewrite take_app_length, drop_app_length.
Qed.

(** A part of a body that had no drive has none. *)
Lemma drive_prefix d r r' : drive_of d (r ++ r') -> drive_of d r.
Proof.
  intros [H|[-> E]]; [by left|]. right. split; [done|].
  destruct (find_drive_cases r) as [E'|(letter & u & Hl & -> & _)]; [done|].
  simpl in E. by rewrite Hl in E.
Qed.

Lemma drive_no_separator d r : drive_of d r -> no IsSeparator d.
Proof.
  intros [(letter & Hl & ->)|[-> _]]; [|constructor]. apply no_cons. split; [|by repeat constructor].
  unfold is_letter in Hl. unfold IsSeparator, any_of. simpl.
  apply orb_false_iff. split; [|rewrite orb_false_r]; apply Z.eqb_neq; intros ->; done.
Qed.

(** ** Stripping separators *)

Definition all_separators (r : list Z) : Prop := Forall (fun c => IsSeparator c = true) r.

#[export] Instance all_separators_dec r : Decision (all_separators r).
Proof. unfold all_separators. apply _. Defined.

Lemma AreAllSeparators_exact r : AreAllSeparators r = true <-> all_separators r.
Proof. unfold AreAllSeparators, all_separators. by rewrite forallb_forall, Forall_forall; setoid_rewrite list_elem_of_In. Qed.

(** A body of separators keeps one, but two stay two; otherwise the last ones go. *)
Definition strip_body (r : list Z) : list Z :=
  if decide (all_separators r) then (if bool_decide (length r = 2%nat) then r else take 1 r)
  else trim_right kSeparators r.

Lemma strip_stop pos path start last :
  Z.of_nat pos <= start -> strip_loop pos path start last = Some path.
Proof.
  intros H. destruct pos as [|pos]; [done|]. cbn [strip_loop]. by rewrite (proj2 (Z.ltb_ge _ _)).
Qed.

Lemma strip_stop_char q c start last :
  IsSeparator c = false -> strip_loop (length (q ++ [c])) (q ++ [c]) start last = Some (q ++ [c]).
Proof.
  intros Hc. rewrite length_app, Nat.add_1_r. cbn [strip_loop].
  destruct (start <? Z.of_nat (S (length q))); [|done].
  replace (Z.of_nat (S (length q)) - 1) with (len q) by (unfold len; lia).
  rewrite at_mid. cbn [mbind option_bind]. by rewrite Hc.
Qed.

(** One turn, on a separator. *)
Lemma strip_turn q c start last :
  IsSeparator c = true -> 0 < start <= len q ->
  (start < len q \/ last = start + 2 \/ exists u x, q = u ++ [x] /\ IsSeparator x = false) ->
  strip_loop (length (q ++ [c])) (q ++ [c]) start last = strip_loop (length q) q start (len q + 1).
Proof.
  intros Hc Hs Hor. rewrite length_app, Nat.add_1_r. cbn [strip_loop].
  replace (Z.of_nat (S (length q)) - 1) with (len q) by (unfold len; lia).
  replace (Z.of_nat (S (length q))) with (len q + 1) by (unfold len; lia).
  rewrite (proj2 (Z.ltb_lt _ _)) by lia. rewrite at_mid. cbn [mbind option_bind]. rewrite Hc.
  assert (exists d, at_ (q ++ [c]) (start - 1) = Some d /\
    (start = len q -> forall u x, q = u ++ [x] -> d = x)) as (d & -> & Hd).
  { unfold at_, char_at. rewrite (proj2 (Z.leb_le _ _)) by lia.
    destruct (lookup_lt_is_Some_2 q (Z.to_nat (start - 1))) as [d Hd]; [unfold len in *; lia|].
    exists d. split; [by apply lookup_app_l_Some|]. intros E u x ->. rewrite len_app in E.
    replace (Z.to_nat (start - 1)) with (length u) in Hd by (unfold len in E; simpl in E; lia).
    rewrite list_lookup_middle in Hd by done. by injection Hd. }
  cbn [mbind option_bind]. assert (negb (len q + 1 =? start + 1) || (last =? start + 2) || negb (IsSeparator d) = true) as ->.
  { destruct Hor as [H|[->|(u & x & E & Hx)]].
    - by rewrite (proj2 (Z.eqb_neq _ _)) by lia.
    - by rewrite Z.eqb_refl, orb_true_r.
    - destruct (Z.eqb_spec (len q + 1) (start + 1)); [|done]. rewrite (Hd ltac:(lia) u x E), Hx. apply orb_true_r. }
  by rewrite resize_shorter.
Qed.

(** All of them, as long as something longer than [start] stays. *)
Lemma strip_turns q s start last :
  all_separators s -> 0 < start < len q ->
  strip_loop (length (q ++ s)) (q ++ s) start last =
  strip_loop (length q) q start (if bool_decide (s = []) then last else len q + 1).
Proof.
  revert last. induction s as [|c s IH] using rev_ind; intros last Hs Hq; [by rewrite app_nil_r|].
  apply Forall_app in Hs as [Hs Hc]. rewrite Forall_singleton in Hc.
  rewrite app_assoc, strip_turn; [|done | rewrite len_app; pose proof (len_nonneg s); lia
    | left; rewrite len_app; pose proof (len_nonneg s); lia].
  rewrite IH by done. rewrite (bool_decide_eq_false_2 (s ++ [c] = [])) by (by destruct s).
  case_bool_decide as E; [subst s|done]. by rewrite app_nil_r.
Qed.

(** The forms of a stripped body. *)
Inductive stripped : list Z -> Prop :=
| StrippedEmpty : stripped []
| StrippedRoot x : IsSeparator x = true -> stripped [x]
| StrippedAlternate x y : IsSeparator x = true -> IsSeparator y = true -> stripped [x; y]
| StrippedName m c : IsSeparator c = false -> stripped (m ++ [c]).

(** A body ends with a name and separators, or has only separators. *)
Lemma body_split r :
  all_separators r \/
  exists m c s, r = m ++ c :: s /\ IsSeparator c = false /\ all_separators s.
Proof.
  destruct (last_split (fun c => negb (IsSeparator c)) r) as [H|(m & c & s & -> & Hc & Hs)].
  - left. eapply Forall_impl; [exact H|]. intros c Hc. by apply negb_false_iff.
  - right. exists m, c, s. apply negb_true_iff in Hc. split_and!; [done..|].
    eapply Forall_impl; [exact Hs|]. intros x Hx. by apply negb_false_iff.
Qed.

Lemma trim_right_name m c s :
  IsSeparator c = false -> all_separators s -> trim_right kSeparators (m ++ c :: s) = m ++ [c].
Proof.
  intros Hc Hs. unfold trim_right. rewrite reverse_app, reverse_cons, <- app_assoc.
  rewrite trim_left_drops.
  - rewrite trim_left_stops by (simpl; by intros ? [= <-]). by rewrite reverse_app, reverse_involutive.
  - apply no_reverse. eapply Forall_impl; [exact Hs|]. intros x Hx. by apply none_of_false.
Qed.

Lemma not_all_separators m c s : IsSeparator c = false -> ~ all_separators (m ++ c :: s).
Proof. intros Hc H. apply Forall_app in H as [_ H]. apply Forall_cons in H as [H _]. congruence. Qed.

Lemma strip_body_name m c s :
  IsSeparator c = false -> all_separators s -> strip_body (m ++ c :: s) = m ++ [c].
Proof.
  intros Hc Hs. unfold strip_body. rewrite decide_False by by apply not_all_separators.
  by apply trim_right_name.
Qed.

Lemma strip_body_separators r :
  all_separators r -> strip_body r = if bool_decide (length r = 2%nat) then r else take 1 r.
Proof. intros H. unfold strip_body. by rewrite decide_True. Qed.

Lemma strip_body_stripped r : stripped (strip_body r).
Proof.
  destruct (body_split r) as [H|(m & c & s & -> & Hc & Hs)].
  - rewrite (strip_body_separators _ H). destruct r as [|x [|y [|z r]]]; simpl; [constructor|..];
      apply Forall_cons in H as [Hx H]; [by constructor | | by constructor].
    apply Forall_cons in H as [Hy _]. by constructor.
  - rewrite (strip_body_name _ _ _ Hc Hs). by constructor.
Qed.

Lemma strip_body_id r : stripped r -> strip_body r = r.
Proof.
  intros [|x Hx|x y Hx Hy|m c Hc].
  - done.
  - rewrite strip_body_separators by (by repeat constructor). done.
  - rewrite strip_body_separators by (by repeat constructor). done.
  - apply (strip_body_name m c []); [done | constructor].
Qed.

Lemma strip_body_prefix r : exists s, r = strip_body r ++ s /\ all_separators s.
Proof.
  destruct (body_split r) as [H|(m & c & s & -> & Hc & Hs)].
  - rewrite (strip_body_separators _ H). case_bool_decide; [exists []; rewrite app_nil_r; split; [done | constructor]|].
    exists (drop 1 r). rewrite take_drop. split; [done | by apply Forall_drop].
  - rewrite (strip_body_name _ _ _ Hc Hs). exists s. by rewrite <- app_assoc.
Qed.

Lemma strip_body_nil r : strip_body r = [] -> r = [].
Proof.
  destruct (body_split r) as [H|(m & c & s & -> & Hc & Hs)].
  - rewrite (strip_body_separators _ H). destruct r as [|x r]; [done|]. by case_bool_decide.
  - rewrite (strip_body_name _ _ _ Hc Hs). by destruct m.
Qed.

Lemma strip_path d r :
  drive_of d r -> StripTrailingSeparators (d ++ r) = Some (d ++ strip_body r).
Proof.
  intros Hd. unfold StripTrailingSeparators. rewrite (drive_found _ _ Hd).
  replace (len d - 1 + 2) with (len d + 1) by lia.
  destruct (body_split r) as [H|(m & c & s & -> & Hc & Hs)].
  - rewrite (strip_body_separators _ H).
    destruct r as [|x r]; [simpl; rewrite app_nil_r; apply strip_stop; unfold len; lia|].
    apply Forall_cons in H as [Hx H]. replace (d ++ x :: r) with ((d ++ [x]) ++ r) by (by rewrite <- app_assoc).
    assert (len (d ++ [x]) = len d + 1) as El by (rewrite len_app; done).
    pose proof (len_nonneg d). destruct r as [|y r].
    { rewrite app_nil_r. simpl. apply strip_stop. rewrite <- El. unfold len. lia. }
    apply Forall_cons in H as [Hy H]. destruct r as [|z r].
    + (* two separators *)
      simpl. assert (len ((d ++ [x]) ++ [y]) = len d + 2) as El2 by (rewrite len_app, El; change (len [y]) with 1; lia).
      rewrite length_app, Nat.add_1_r. cbn [strip_loop].
      replace (Z.of_nat (S (length (d ++ [x])))) with (len d + 2) by (unfold len in *; lia).
      rewrite (proj2 (Z.ltb_lt _ _)) by lia.
      replace (len d + 2 - 1) with (len (d ++ [x])) by lia. rewrite at_mid. cbn [mbind option_bind]. rewrite Hy.
      replace (len d + 1 - 1) with (len d) by lia. rewrite <- (app_assoc d). cbn [app].
      rewrite at_mid. cbn [mbind option_bind].
      rewrite Hx. replace (len d + 2 =? len d + 1 + 1) with true by (symmetry; apply Z.eqb_eq; lia).
      rewrite (proj2 (Z.eqb_neq npos _)) by (unfold npos; lia). simpl. apply strip_stop. unfold len in *. lia.
    + (* more *)
      simpl bool_decide. cbv iota. simpl take.
      replace ((d ++ [x]) ++ y :: z :: r) with (((d ++ [x]) ++ [y]) ++ z :: r) by (by rewrite <- !app_assoc).
      rewrite strip_turns; [|done | rewrite len_app, El; change (len [y]) with 1; lia].
      rewrite bool_decide_eq_false_2 by done. rewrite len_app, El. change (len [y]) with 1.
      rewrite strip_turn; [|done | lia | right; left; lia]. apply strip_stop. rewrite <- El. unfold len. lia.
  - rewrite (strip_body_name _ _ _ Hc Hs).
    pose proof (len_nonneg d). pose proof (len_nonneg m).
    assert (len (d ++ m ++ [c]) = len d + len m + 1) as El by (rewrite !len_app; change (len [c]) with 1; lia).
    replace (d ++ m ++ c :: s) with ((d ++ m ++ [c]) ++ s) by (by rewrite <- !app_assoc).
    assert (forall last, strip_loop (length (d ++ m ++ [c])) (d ++ m ++ [c]) (len d + 1) last = Some (d ++ m ++ [c])) as Hstop.
    { intros last. rewrite app_assoc. by apply strip_stop_char. }
    destruct (decide (0 < len m)) as [Hm|Hm].
    { rewrite strip_turns by (done || lia). apply Hstop. }
    assert (m = []) as -> by (apply len_zero; lia). simpl app in *.
    destruct s as [|x s]; [rewrite app_nil_r; apply Hstop|]. apply Forall_cons in Hs as [Hx Hs].
    replace ((d ++ [c]) ++ x :: s) with (((d ++ [c]) ++ [x]) ++ s) by (by rewrite <- app_assoc).
    rewrite strip_turns; [|done | rewrite len_app; change (len [x]) with 1; lia].
    rewrite strip_turn; [apply Hstop | done | lia |]. right. right. by exists d, c.
Qed.

Lemma drive_strip d r : drive_of d r -> drive_of d (strip_body r).
Proof. intros Hd. destruct (strip_body_prefix r) as (s & E & _). rewrite E in Hd. by apply drive_prefix in Hd. Qed.

(** ** [DirName] and [BaseName] *)

(** The directory of [a], a separator, and a name or nothing. *)
Definition up (a : list Z) (s : Z) : list Z :=
  match a with
  | [] => [s]
  | [x] => if IsSeparator x then [x; s] else strip_body a
  | _ => strip_body a
  end.

Lemma up_not_nil a s : up a s <> [].
Proof.
  destruct a as [|x [|y a]]; simpl; [done| |]; [destruct (IsSeparator x); [done|]|];
    by intros E%strip_body_nil.
Qed.

Lemma len_pos s : s <> [] -> 0 < len s.
Proof. intros H. pose proof (len_nonneg s). pose proof (len_zero s). destruct (decide (len s = 0)); [tauto | lia]. Qed.

Lemma DirName_plain d r :
  drive_of d r -> no IsSeparator (strip_body r) ->
  DirName (d ++ r) = Some (if bool_decide (d = []) then kCurrentDirectory else d).
Proof.
  intros Hd Hn. pose proof (drive_strip _ _ Hd) as Hd'. unfold DirName. rewrite (strip_path _ _ Hd).
  cbn [mbind option_bind]. rewrite (drive_found _ _ Hd').
  unfold find_last_of. rewrite rfind_none by (apply no_app; split; [by eapply drive_no_separator | done]).
  rewrite Z.eqb_refl. cbn [mbind option_bind]. rewrite Z.sub_add, resize_shorter.
  pose proof (strip_path d []) as Hs. rewrite app_nil_r in Hs. rewrite Hs.
  - cbn [mbind option_bind]. rewrite app_nil_r. done.
  - by apply (drive_prefix d [] (strip_body r)).
Qed.

(** The end of [DirName]. *)
Lemma strip_or_dot d r :
  drive_of d r -> r <> [] ->
  (new_path ← StripTrailingSeparators (d ++ r);
   Some (if bool_decide (new_path = []) then kCurrentDirectory else new_path)) = Some (d ++ strip_body r).
Proof.
  intros Hd Hne. rewrite (strip_path _ _ Hd). cbn [mbind option_bind].
  rewrite bool_decide_eq_false_2; [done|]. intros [_ H]%app_eq_nil. by apply strip_body_nil in H.
Qed.

Lemma DirName_up d r a s b :
  drive_of d r -> strip_body r = a ++ s :: b -> IsSeparator s = true -> no IsSeparator b ->
  DirName (d ++ r) = Some (d ++ up a s).
Proof.
  intros Hd E Hs Hb. pose proof (drive_strip _ _ Hd) as Hd'. unfold DirName. rewrite (strip_path _ _ Hd).
  cbn [mbind option_bind]. rewrite (drive_found _ _ Hd'), E.
  unfold find_last_of. rewrite app_assoc, (rfind_some _ _ _ _ Hs Hb).
  pose proof (len_nonneg d). pose proof (len_nonneg a). rewrite E in Hd'.
  rewrite (proj2 (Z.eqb_neq _ npos)) by (rewrite len_app; unfold npos; lia). rewrite Z.sub_add.
  assert (forall r' t, a ++ s :: b = r' ++ t -> r' <> [] ->
    (new_path ← StripTrailingSeparators (resize ((d ++ a) ++ s :: b) (len (d ++ r')));
     Some (if bool_decide (new_path = []) then kCurrentDirectory else new_path)) = Some (d ++ strip_body r')) as Hend.
  { intros r' t Et Hne. rewrite <- app_assoc, Et, app_assoc, resize_shorter. apply strip_or_dot; [|done].
    rewrite Et in Hd'. by apply drive_prefix in Hd'. }
  destruct a as [|x a].
  - rewrite app_nil_r, Z.eqb_refl.
    replace (len d - 1 + 2) with (len (d ++ [s])) by (rewrite len_app; change (len [s]) with 1; lia).
    cbn [mbind option_bind]. rewrite <- (app_nil_r d) at 1. rewrite (Hend [s] b) by done.
    by rewrite strip_body_id by by constructor.
  - pose proof (len_nonneg a).
    rewrite (proj2 (Z.eqb_neq _ (len d))) by (rewrite len_app, len_cons; lia).
    rewrite (proj2 (Z.eqb_neq _ 0)) by (rewrite len_app, len_cons; lia).
    destruct (decide (a = [])) as [->|Hne].
    + replace (len (d ++ [x]) =? len d - 1 + 2) with true
        by (symmetry; apply Z.eqb_eq; rewrite len_app; change (len [x]) with 1; lia).
      assert (at_ ((d ++ [x]) ++ s :: b) (len d) = Some x) as -> by (rewrite <- app_assoc; apply at_mid).
      cbn [mbind option_bind up]. destruct (IsSeparator x) eqn:Hx; cbn [mbind option_bind negb].
      * replace (len d - 1 + 3) with (len (d ++ [x; s])) by (rewrite len_app; change (len [x; s]) with 2; lia).
        rewrite (Hend [x; s] b) by done. by rewrite strip_body_id by by constructor.
      * by rewrite (Hend [x] (s :: b)).
    + rewrite (proj2 (Z.eqb_neq _ (len d - 1 + 2))) by (rewrite len_app, len_cons; pose proof (len_pos a Hne); lia).
      cbn [mbind option_bind negb]. rewrite (Hend (x :: a) (s :: b)) by done. by destruct a.
Qed.

Lemma erase_drive d r :
  (if len d - 1 =? npos then Some (d ++ r) else erase (d ++ r) 0 (len d)) = Some r.
Proof.
  rewrite erase_head. destruct (Z.eqb_spec (len d - 1) npos) as [E|_]; [|done].
  assert (len d = 0) as E0 by (unfold npos in E; lia). by apply len_zero in E0 as ->.
Qed.

Lemma BaseName_plain d r :
  drive_of d r -> no IsSeparator (strip_body r) -> BaseName (d ++ r) = Some (strip_body r).
Proof.
  intros Hd Hn. pose proof (drive_strip _ _ Hd) as Hd'. unfold BaseName. rewrite (strip_path _ _ Hd).
  cbn [mbind option_bind]. rewrite (drive_found _ _ Hd'). rewrite Z.sub_add.
  rewrite erase_drive.
  cbn [mbind option_bind]. unfold find_last_of. by rewrite rfind_none.
Qed.

Lemma BaseName_up d r a s b :
  drive_of d r -> strip_body r = a ++ s :: b -> IsSeparator s = true -> no IsSeparator b ->
  BaseName (d ++ r) = Some (if bool_decide (b = []) then strip_body r else b).
Proof.
  intros Hd E Hs Hb. pose proof (drive_strip _ _ Hd) as Hd'. unfold BaseName. rewrite (strip_path _ _ Hd).
  cbn [mbind option_bind]. rewrite (drive_found _ _ Hd'). rewrite Z.sub_add.
  rewrite erase_drive.
  cbn [mbind option_bind]. unfold find_last_of. rewrite E, (rfind_some _ _ _ _ Hs Hb).
  rewrite (proj2 (Z.eqb_neq _ npos)) by (pose proof (len_nonneg a); unfold npos; lia). simpl.
  rewrite len_app, len_cons. destruct (decide (b = [])) as [->|Hne].
  - rewrite (proj2 (Z.ltb_ge _ _)) by (change (len []) with 0; lia). done.
  - rewrite (proj2 (Z.ltb_lt _ _)) by (pose proof (len_pos b Hne); lia).
    replace (a ++ s :: b) with ((a ++ [s]) ++ b) by (by rewrite <- app_assoc).
    replace (len a + 1) with (len (a ++ [s])) by (by rewrite len_app).
    rewrite erase_head. by rewrite bool_decide_eq_false_2.
Qed.

(** ** Components *)

Definition names (r : list Z) : list (list Z) := tokens IsSeparator r.

Fixpoint separators (r : list Z) : list Z :=
  match r with
  | c :: r => if IsSeparator c then c :: separators r else []
  | [] => []
  end.

(** The root that the leading separators of a body stand for. *)
Definition root (r : list Z) : list Z :=
  match separators r with
  | [] => []
  | [x] => [x]
  | [x; y] => [x; y]
  | [x; y; _] => if bool_decide (names r = []) then [x] else [x; y]
  | x :: _ => [x]
  end.

(** The names of a relative path: the first is not counted if it is a dot and another
    follows, nor if the dot is all there is. *)
Definition relative_names (r : list Z) : list (list Z) :=
  match names r with
  | n0 :: n :: ns => if bool_decide (n0 = kCurrentDirectory) then n :: ns else n0 :: n :: ns
  | ns => if bool_decide (r = kCurrentDirectory) then [] else ns
  end.

Definition optional (s : list Z) : list (list Z) := if bool_decide (s = []) then [] else [s].

Definition components_of (d r : list Z) : list (list Z) :=
  optional d ++ optional (root r) ++
  (if bool_decide (d = []) && bool_decide (root r = []) then relative_names r else names r).

Definition components (path : list Z) : list (list Z) := components_of (the_drive path) (body path).

Lemma pieces_app p a s b : p s = true -> pieces p (a ++ s :: b) = pieces p a ++ pieces p b.
Proof.
  intros Hs. induction a as [|c a IH]; simpl; [by rewrite Hs|]. rewrite IH.
  destruct (p c); [done|]. by destruct (pieces_cons p a) as (t & ts & ->).
Qed.

Lemma names_app a s b : IsSeparator s = true -> names (a ++ s :: b) = names a ++ names b.
Proof. intros Hs. unfold names, tokens. by rewrite (pieces_app _ _ _ _ Hs), filter_app. Qed.

Lemma names_separators s : all_separators s -> names s = [].
Proof. intros H. unfold names. rewrite <- (app_nil_r s). by rewrite tokens_skip. Qed.

Lemma names_end a s : all_separators s -> names (a ++ s) = names a.
Proof.
  destruct s as [|c s]; intros H; [by rewrite app_nil_r|]. apply Forall_cons in H as [Hc H].
  by rewrite names_app, (names_separators _ H), app_nil_r.
Qed.

Lemma names_one n : no IsSeparator n -> n <> [] -> names n = [n].
Proof. apply tokens_none. Qed.

Lemma names_nil r : names r = [] -> all_separators r.
Proof.
  destruct (body_split r) as [H|(m & c & s & -> & Hc & Hs)]; [done|].
  replace (m ++ c :: s) with ((m ++ [c]) ++ s) by (by rewrite <- app_assoc). rewrite (names_end _ _ Hs).
  destruct (last_split IsSeparator (m ++ [c])) as [Hn|(a & x & b & E & Hx & Hb)].
  - rewrite names_one; [done | done |]. by destruct m.
  - rewrite E, (names_app _ _ _ Hx). destruct b as [|y b] using rev_ind.
    + apply app_inj_tail in E as [_ ->]. congruence.
    + rewrite (names_one (b ++ [y])); [|done | by destruct b]. by destruct (names a).
Qed.

Lemma separators_prefix m c s : IsSeparator c = false -> separators (m ++ c :: s) = separators (m ++ [c]).
Proof.
  intros Hc. induction m as [|x m IH]; simpl; [by rewrite Hc|]. by rewrite IH.
Qed.

Lemma separators_run a c s : all_separators a -> IsSeparator c = false -> separators (a ++ c :: s) = a.
Proof. intros Ha Hc. induction Ha as [|x a Hx Ha IH]; simpl; [by rewrite Hc|]. by rewrite Hx, IH. Qed.

Lemma separators_all a : all_separators a -> separators a = a.
Proof. intros Ha. induction Ha as [|x a Hx Ha IH]; simpl; [done|]. by rewrite Hx, IH. Qed.

Lemma root_name m c s :
  IsSeparator c = false -> all_separators s -> root (m ++ c :: s) = root (m ++ [c]).
Proof.
  intros Hc Hs. unfold root. rewrite (separators_prefix _ _ _ Hc).
  replace (m ++ c :: s) with ((m ++ [c]) ++ s) by (by rewrite <- app_assoc). by rewrite (names_end _ _ Hs).
Qed.

(** A relative body with one name is that name, once stripped. *)
Lemma one_name m c n :
  IsSeparator c = false -> separators (m ++ [c]) = [] -> names (m ++ [c]) = [n] -> m ++ [c] = n.
Proof.
  intros Hc Hs Hn. destruct (last_split IsSeparator (m ++ [c])) as [H|(a & x & b & E & Hx & Hb)].
  - rewrite names_one in Hn; [congruence | done | by destruct m].
  - rewrite E in Hn, Hs. rewrite (names_app _ _ _ Hx) in Hn.
    assert (b <> []) as Hb0 by (intros ->; apply app_inj_tail in E as [_ ->]; congruence).
    rewrite (names_one b Hb Hb0) in Hn. destruct (names a) as [|y [|z l]] eqn:Ea; try done.
    apply names_nil in Ea. destruct a as [|y a]; simpl in Hs; [by rewrite Hx in Hs|].
    apply Forall_cons in Ea as [Hy _]. by rewrite Hy in Hs.
Qed.

Lemma root_same r r' :
  separators r = separators r' -> names r <> [] -> names r' <> [] -> root r = root r'.
Proof.
  intros E H H'. unfold root. rewrite E. destruct (separators r') as [|x [|y [|z [|u l]]]]; try done.
  by rewrite !bool_decide_eq_false_2.
Qed.

Lemma name_not_nil m c : IsSeparator c = false -> names (m ++ [c]) <> [].
Proof. intros Hc H%names_nil. by apply not_all_separators in H. Qed.

Lemma up_name a s : ~ all_separators a -> up a s = strip_body a.
Proof.
  intros H. destruct a as [|x [|y a]]; [destruct H; constructor | | done]. simpl.
  destruct (IsSeparator x) eqn:Hx; [|done]. destruct H. by repeat constructor.
Qed.

Lemma names_last a s b t :
  IsSeparator s = true -> no IsSeparator b -> b <> [] -> all_separators t ->
  names (a ++ s :: b ++ t) = names a ++ [b].
Proof. intros Hs Hb Hne Ht. by rewrite (names_app _ _ _ Hs), (names_end _ _ Ht), (names_one _ Hb Hne). Qed.

(** Going up takes the last name away and keeps the root. *)
Lemma up_keeps a s b t :
  IsSeparator s = true -> no IsSeparator b -> b <> [] -> all_separators t ->
  names (up a s) = names a /\ root (up a s) = root (a ++ s :: b ++ t).
Proof.
  intros Hs Hb Hne Ht.
  assert (names (a ++ s :: b ++ t) <> []) as Hn by (rewrite names_last by done; by destruct (names a)).
  destruct (body_split a) as [Ha|(m & c & u & -> & Hc & Hu)].
  - assert (separators (a ++ s :: b ++ t) = a ++ [s]) as Hsep.
    { destruct b as [|y b]; [done|]. apply no_cons in Hb as [Hy Hb].
      replace (a ++ s :: (y :: b) ++ t) with ((a ++ [s]) ++ y :: b ++ t) by (by rewrite <- app_assoc).
      apply separators_run; [|done]. apply Forall_app. split; [done | by repeat constructor]. }
    unfold root at 2. rewrite Hsep, (names_separators _ Ha).
    assert (forall l, all_separators l -> names l = [] /\ separators l = l) as Hl
      by (intros l H; split; [by apply names_separators | by apply separators_all]).
    destruct a as [|x [|y [|z a]]]; simpl up; simpl app; unfold root.
    + destruct (Hl [s]) as [-> ->]; [by repeat constructor | done].
    + apply Forall_cons in Ha as [Hx _]. rewrite Hx.
      destruct (Hl [x; s]) as [-> ->]; [by repeat constructor | done].
    + rewrite (strip_body_separators _ Ha). change (bool_decide (length [x; y] = 2%nat)) with true. cbv iota.
      destruct (Hl [x; y]) as [-> ->]; [done|].
      rewrite bool_decide_eq_false_2 by done. done.
    + rewrite (strip_body_separators _ Ha). apply Forall_cons in Ha as [Hx _].
      change (bool_decide (length (x :: y :: z :: a) = 2%nat)) with false. cbv iota. cbn [take].
      destruct (Hl [x]) as [-> ->]; [by repeat constructor|]. by destruct a.
  - rewrite up_name by by apply not_all_separators. rewrite (strip_body_name _ _ _ Hc Hu). split.
    + replace (m ++ c :: u) with ((m ++ [c]) ++ u) by (by rewrite <- app_assoc). by rewrite (names_end _ _ Hu).
    + apply root_same; [|by apply name_not_nil | done]. rewrite <- app_assoc. cbn [app].
      by rewrite (separators_prefix _ _ (u ++ _) Hc).
Qed.

(** Without a root, a path whose directory is a name alone has that name first. *)
Lemma relative_up a s b t :
  IsSeparator s = true -> no IsSeparator b -> b <> [] -> all_separators t ->
  root (a ++ s :: b ++ t) = [] ->
  relative_names (a ++ s :: b ++ t) = relative_names (up a s) ++ [b].
Proof.
  intros Hs Hb Hne Ht Hroot. destruct (up_keeps a s b t Hs Hb Hne Ht) as [Hn Hr].
  unfold relative_names. rewrite (names_last _ _ _ _ Hs Hb Hne Ht), Hn.
  assert (bool_decide (a ++ s :: b ++ t = kCurrentDirectory) = false) as ->.
  { apply bool_decide_eq_false. intros E. apply (f_equal length) in E. rewrite length_app in E. simpl in E.
    rewrite length_app in E. destruct b; [done | simpl in E; lia]. }
  assert (~ all_separators a) as Ha.
  { intros Ha. rewrite Hroot in Hr. unfold root in Hr.
    assert (all_separators (up a s)) as Hup.
    { destruct a as [|x [|y a]]; simpl; [by repeat constructor| |].
      - apply Forall_cons in Ha as [Hx _]. rewrite Hx. by repeat constructor.
      - rewrite (strip_body_separators _ Ha).
        destruct (bool_decide (length (x :: y :: a) = 2%nat)); [done|]. apply Forall_cons in Ha as [Hx _].
        by repeat constructor. }
    rewrite (separators_all _ Hup), (names_separators _ Hup) in Hr. pose proof (up_not_nil a s) as Hnn.
    by destruct (up a s) as [|x [|y [|z [|w l]]]]. }
  destruct (body_split a) as [|(m & c & u & Ea & Hc & Hu)]; [done|].
  rewrite (up_name _ _ Ha) in *. rewrite Ea in *. rewrite (strip_body_name _ _ _ Hc Hu) in *.
  assert (names (m ++ c :: u) = names (m ++ [c])) as En by done.
  assert (names (m ++ [c]) <> []) as Hnn by (by apply name_not_nil).
  rewrite En. destruct (names (m ++ [c])) as [|n ns] eqn:Enames; [done|].
  assert (separators (m ++ [c]) = []) as Hsep.
  { rewrite Hroot in Hr. unfold root in Hr. rewrite Enames in Hr.
    by destruct (separators (m ++ [c])) as [|x [|y [|z [|w l]]]]. }
  destruct ns as [|n2 ns].
  - pose proof (one_name _ _ _ Hc Hsep Enames) as E. cbn [app]. rewrite E. by case_bool_decide.
  - cbn [app]. by destruct (bool_decide (n = kCurrentDirectory)).
Qed.

(** ** [GetComponents] *)

Section Loop.
Context (tolower : Z -> Z).

Lemma equal_ignoring_case_refl s : equal_ignoring_case tolower s s = true.
Proof. induction s as [|c s IH]; simpl; [done|]. by rewrite Z.eqb_refl. Qed.

Lemma equal_same_drive d r r' :
  drive_of d r -> drive_of d r' ->
  EqualDriveLetterCaseInsensitive tolower (d ++ r) (d ++ r') = Some (bool_decide (r = r')).
Proof.
  intros H H'. unfold EqualDriveLetterCaseInsensitive. rewrite (drive_found _ _ H), (drive_found _ _ H').
  destruct (decide (d = [])) as [->|Hd]; [done|]. pose proof (len_pos d Hd).
  rewrite (proj2 (Z.eqb_neq _ npos)) by (unfold npos; lia). cbn [orb]. rewrite Z.sub_add, !substr_head.
  cbn [mbind option_bind]. unfold StartsWith. rewrite Z.ltb_irrefl, equal_ignoring_case_refl. cbn [negb].
  rewrite !substr_tail. done.
Qed.

(** The loop and what follows it. *)
Definition components_from (fuel : nat) (path : list Z) (ret_val : list (list Z)) : option (list (list Z)) :=
  '(current, ret_val) ← capture_components tolower fuel path ret_val; capture_root current ret_val.

Lemma loop_stops fuel d r acc :
  drive_of d r -> DirName (d ++ r) = Some (d ++ r) ->
  components_from (S fuel) (d ++ r) acc = capture_root (d ++ r) acc.
Proof.
  intros Hd E. unfold components_from. cbn [capture_components]. rewrite E. cbn [mbind option_bind].
  rewrite (equal_same_drive _ _ _ Hd Hd), bool_decide_eq_true_2 by done. done.
Qed.

Lemma loop_goes fuel d r r' base acc :
  drive_of d r -> drive_of d r' -> r <> r' -> DirName (d ++ r) = Some (d ++ r') ->
  BaseName (d ++ r) = Some base ->
  components_from (S fuel) (d ++ r) acc =
  components_from fuel (d ++ r') (if AreAllSeparators base then acc else acc ++ [base]).
Proof.
  intros Hd Hd' Hne E Eb. unfold components_from. cbn [capture_components]. rewrite E. cbn [mbind option_bind].
  rewrite (equal_same_drive _ _ _ Hd Hd'), bool_decide_eq_false_2 by done. cbn [mbind option_bind].
  by rewrite Eb.
Qed.

(** Where the loop stops: a drive alone or a root. *)
Lemma capture_root_exact d r dir acc :
  drive_of d r -> stripped r -> all_separators r -> d ++ r <> [] ->
  DirName (d ++ r) = Some (d ++ dir) -> drive_of d dir -> BaseName (d ++ r) = Some r ->
  capture_root (d ++ r) acc = Some (components_of d r ++ reverse acc).
Proof.
  intros Hd Hst Hall Hne Hdir Hd' Hbase. unfold capture_root. rewrite Hbase, Hdir. cbn [mbind option_bind].
  rewrite (drive_found _ _ Hd').
  assert (r <> kCurrentDirectory) as Hdot.
  { intros ->. apply Forall_cons in Hall as [H _]. done. }
  rewrite (bool_decide_eq_false_2 _ Hdot). cbn [negb]. rewrite andb_true_r.
  assert (root r = r) as Hroot.
  { unfold root. rewrite (separators_all _ Hall). destruct Hst as [| | |m c Hc]; try done.
    apply Forall_app in Hall as [_ Hall]. apply Forall_cons in Hall as [Hall _]. congruence. }
  unfold components_of. rewrite Hroot, (names_separators _ Hall).
  assert ((if bool_decide (d = []) && bool_decide (r = []) then relative_names r else []) = []) as ->.
  { destruct (decide (r = [])) as [->|Hr]; [|by rewrite (bool_decide_eq_false_2 _ Hr), andb_false_r].
    by destruct (bool_decide (d = [])). }
  rewrite app_nil_r.
  destruct (Z.eqb_spec (len d - 1) npos) as [E|E].
  - assert (d = []) as -> by (apply len_zero; unfold npos in E; lia). cbn [mbind option_bind].
    unfold optional. rewrite (bool_decide_eq_true_2 ([] = [])) by done.
    destruct (bool_decide (r = [])); cbn [negb]; by rewrite ?reverse_app.
  - assert (d <> []) as Hdn by (intros ->; apply E; done). rewrite Z.sub_add, substr_head. cbn [mbind option_bind].
    unfold optional. rewrite (bool_decide_eq_false_2 _ Hdn).
    destruct (bool_decide (r = [])); cbn [negb]; by rewrite !reverse_app.
Qed.

Lemma all_roots r : stripped r -> all_separators r -> r = [] \/ exists a s, r = a ++ [s] /\ up a s = r.
Proof.
  intros [|x Hx|x y Hx Hy|m c Hc] Hall; [by left|right|right|].
  - by exists [], x.
  - exists [x], y. split; [done|]. simpl. by rewrite Hx.
  - apply Forall_app in Hall as [_ Hall]. apply Forall_cons in Hall as [Hall _]. congruence.
Qed.

(** At a root or a drive the loop ends. *)
Lemma components_at_root fuel d r acc :
  drive_of d r -> stripped r -> all_separators r -> d ++ r <> [] ->
  components_from (S fuel) (d ++ r) acc = Some (components_of d r ++ reverse acc).
Proof.
  intros Hd Hst Hall Hne. destruct (all_roots _ Hst Hall) as [->|(a & s & -> & Hup)].
  - assert (d <> []) as Hdn by (by destruct d).
    assert (DirName (d ++ []) = Some (d ++ [])) as E.
    { rewrite (DirName_plain d []) by (done || apply no_nil). rewrite (bool_decide_eq_false_2 _ Hdn). by rewrite app_nil_r. }
    rewrite (loop_stops _ _ _ _ Hd E). apply (capture_root_exact _ _ []); try done.
    by rewrite (BaseName_plain d []) by (done || apply no_nil).
  - assert (IsSeparator s = true) as Hs by (apply Forall_app in Hall as [_ H]; by apply Forall_cons in H as [H _]).
    pose proof (strip_body_id _ Hst) as Hid.
    assert (DirName (d ++ a ++ [s]) = Some (d ++ a ++ [s])) as E.
    { rewrite (DirName_up d (a ++ [s]) a s [] Hd Hid Hs (no_nil _)). by rewrite Hup. }
    rewrite (loop_stops _ _ _ _ Hd E). apply (capture_root_exact _ _ (a ++ [s])); try done.
    rewrite (BaseName_up d (a ++ [s]) a s [] Hd Hid Hs (no_nil _)). by rewrite Hid.
Qed.

Lemma components_of_root d r x :
  all_separators r -> root r = x -> x <> [] -> components_of d r = optional d ++ [x].
Proof.
  intros Hall Hr Hx. unfold components_of. rewrite Hr, (names_separators _ Hall). unfold optional at 2.
  rewrite (bool_decide_eq_false_2 (x = [])) by done. rewrite andb_false_r. done.
Qed.

(** At a dot it ends too. *)
Lemma components_at_dot fuel acc : components_from (S fuel) kCurrentDirectory acc = Some (reverse acc).
Proof. reflexivity. Qed.

Lemma name_is_no_separators b : no IsSeparator b -> b <> [] -> AreAllSeparators b = false.
Proof.
  intros Hb Hne. destruct b as [|x b]; [done|]. apply no_cons in Hb as [Hx _]. simpl. by rewrite Hx.
Qed.

(** Separators alone come down to one or two. *)
Lemma components_of_separators fuel d r acc :
  drive_of d r -> all_separators r -> d ++ r <> [] -> (0 < fuel)%nat ->
  components_from (S fuel) (d ++ r) acc = Some (components_of d r ++ reverse acc).
Proof.
  intros Hd Hall Hne Hfuel. destruct (decide (strip_body r = r)) as [E|E].
  { apply components_at_root; try done. rewrite <- E. apply strip_body_stripped. }
  destruct r as [|x [|y [|z r]]]; [by rewrite (strip_body_separators _ Hall) in E..|].
  assert (strip_body (x :: y :: z :: r) = [x]) as Es by (by rewrite (strip_body_separators _ Hall)).
  apply Forall_cons in Hall as Hx. destruct Hx as [Hx _].
  assert (drive_of d [x]) as Hdx by (by apply (drive_prefix d [x] (y :: z :: r))).
  assert (all_separators [x]) as Hx1 by (by repeat constructor).
  rewrite (loop_goes fuel d _ [x] [x] acc Hd Hdx); [|done| |].
  - simpl AreAllSeparators. rewrite Hx. simpl. destruct fuel as [|fuel]; [lia|].
    rewrite components_at_root; [|done | by constructor | done | by destruct d].
    rewrite (components_of_root d [x] [x]), (components_of_root d (x :: y :: z :: r) [x]); try done;
      unfold root; rewrite separators_all by done; [|done]. rewrite (names_separators _ Hall). by destruct r.
  - by rewrite (DirName_up d _ [] x [] Hd Es Hx (no_nil _)).
  - rewrite (BaseName_up d _ [] x [] Hd Es Hx (no_nil _)). by rewrite Es.
Qed.

(** A name alone. *)
Lemma one_name_components d n t :
  drive_of d (n ++ t) -> no IsSeparator n -> n <> [] -> all_separators t ->
  components_of d (n ++ t) = optional d ++ if bool_decide (d ++ n ++ t = kCurrentDirectory) then [] else [n].
Proof.
  intros Hd Hn Hne Ht. assert (root (n ++ t) = []) as Er.
  { unfold root. destruct n as [|y n]; [done|]. apply no_cons in Hn as [Hy _]. simpl. by rewrite Hy. }
  unfold components_of, relative_names. rewrite Er, (names_end _ _ Ht), (names_one _ Hn Hne). simpl.
  rewrite andb_true_r. destruct (bool_decide_reflect (d = [])) as [->|Hdn]; simpl; [done|].
  rewrite (bool_decide_eq_false_2 (d ++ _ = _)); [done|]. intros E. by destruct Hd as [(l & _ & ->)|[-> _]].
Qed.

Lemma components_of_name fuel d n t acc :
  drive_of d (n ++ t) -> no IsSeparator n -> n <> [] -> strip_body (n ++ t) = n -> all_separators t ->
  (0 < fuel)%nat ->
  components_from (S fuel) (d ++ n ++ t) acc = Some (components_of d (n ++ t) ++ reverse acc).
Proof.
  intros Hd Hn Hne Es Ht Hfuel. rewrite (one_name_components _ _ _ Hd Hn Hne Ht).
  assert (no IsSeparator (strip_body (n ++ t))) as Hno by (by rewrite Es).
  pose proof (name_is_no_separators _ Hn Hne) as Hnas. destruct fuel as [|fuel]; [lia|].
  pose proof (DirName_plain d _ Hd Hno) as Edir. pose proof (BaseName_plain d _ Hd Hno) as Ebase.
  rewrite Es in Ebase. destruct (bool_decide_reflect (d = [])) as [->|Hdn].
  - simpl app in *. case_bool_decide as Hdot.
    { rewrite Hdot. apply components_at_dot. }
    change (n ++ t) with ([] ++ n ++ t) at 1.
    rewrite (loop_goes (S fuel) [] _ kCurrentDirectory n acc Hd); [| by right | done..].
    rewrite Hnas. simpl app. rewrite components_at_dot. by rewrite reverse_app.
  - rewrite bool_decide_eq_false_2 by (intros E; by destruct Hd as [(l & _ & ->)|[-> _]]).
    assert (drive_of d []) as Hd0 by (by apply (drive_prefix d [] (n ++ t))).
    rewrite (loop_goes (S fuel) d _ [] n acc Hd Hd0); [| by destruct n | by rewrite app_nil_r | done].
    rewrite Hnas, components_at_root; [|done|constructor|constructor|by destruct d].
    rewrite reverse_app. unfold components_of. simpl. rewrite (bool_decide_eq_false_2 _ Hdn). simpl.
    unfold optional. by rewrite (bool_decide_eq_false_2 _ Hdn).
Qed.

(** A directory and a name in it. *)
Lemma components_up d a s b t :
  drive_of d (a ++ s :: b ++ t) -> IsSeparator s = true -> no IsSeparator b -> b <> [] -> all_separators t ->
  components_of d (a ++ s :: b ++ t) = components_of d (up a s) ++ [b].
Proof.
  intros Hd Hs Hb Hne Ht. destruct (up_keeps a s b t Hs Hb Hne Ht) as [Hn Hr].
  unfold components_of. rewrite Hr, <- !app_assoc. do 2 f_equal.
  destruct (bool_decide (d = []) && bool_decide (root (a ++ s :: b ++ t) = [])) eqn:E.
  - apply andb_true_iff in E as [_ E]. apply bool_decide_eq_true in E. by apply relative_up.
  - by rewrite (names_last _ _ _ _ Hs Hb Hne Ht), Hn.
Qed.

Lemma up_prefix a s : exists u, a ++ [s] = up a s ++ u.
Proof.
  destruct (decide (all_separators a)) as [Ha|Ha].
  - destruct a as [|x [|y a]]; simpl; [by exists []| |].
    + apply Forall_cons in Ha as [Hx _]. rewrite Hx. by exists [].
    + destruct (strip_body_prefix (x :: y :: a)) as (u & E & _). exists (u ++ [s]). rewrite app_assoc, <- E. done.
  - rewrite (up_name _ _ Ha). destruct (strip_body_prefix a) as (u & E & _). exists (u ++ [s]).
    by rewrite app_assoc, <- E.
Qed.

Lemma components_from_exact n : forall d r acc fuel,
  drive_of d r -> (length r <= n)%nat -> d ++ r <> [] -> (length (d ++ r) < fuel)%nat ->
  components_from fuel (d ++ r) acc = Some (components_of d r ++ reverse acc).
Proof.
  induction n as [|n IH]; intros d r acc fuel Hd Hn Hne Hfuel; (destruct fuel as [|fuel]; [lia|]).
  all: assert (0 < fuel)%nat as Hpos by (destruct (d ++ r); [done | simpl in Hfuel; lia]).
  { destruct r; [|simpl in Hn; lia]. apply components_of_separators; (done || constructor). }
  destruct (body_split r) as [Hall|(m & c & t & -> & Hc & Ht)]; [by apply components_of_separators|].
  pose proof (strip_body_name m c t Hc Ht) as Es.
  destruct (last_split IsSeparator (m ++ [c])) as [Hno|(a & s & b & E & Hs & Hb)].
  { replace (m ++ c :: t) with ((m ++ [c]) ++ t) in * by (by rewrite <- app_assoc).
    apply components_of_name; try done. by destruct m. }
  assert (b <> []) as Hbn by (intros ->; apply app_inj_tail in E as [_ ->]; congruence).
  assert (m ++ c :: t = a ++ s :: b ++ t) as Er.
  { replace (m ++ c :: t) with ((m ++ [c]) ++ t) by (by rewrite <- app_assoc). rewrite E, <- app_assoc. done. }
  rewrite Er in *. rewrite E in Es. destruct (up_prefix a s) as (u & Eu).
  assert (a ++ s :: b ++ t = up a s ++ u ++ b ++ t) as Er2.
  { rewrite (app_assoc (up a s)), <- Eu, <- app_assoc. done. }
  assert (length (up a s) < length (a ++ s :: b ++ t))%nat as Hlt.
  { rewrite Er2, !length_app. destruct b; [done | simpl; lia]. }
  assert (drive_of d (up a s)) as Hdu by (rewrite Er2 in Hd; by apply drive_prefix in Hd).
  rewrite (loop_goes fuel d _ (up a s) b acc Hd Hdu); [|intros E'; rewrite <- E' in Hlt; lia | by apply (DirName_up d _ a s b) |].
  - rewrite (name_is_no_separators _ Hb Hbn), (components_up _ _ _ _ _ Hd Hs Hb Hbn Ht).
    rewrite IH; [by rewrite reverse_app, <- app_assoc | done | lia | |].
    + intros [_ H]%app_eq_nil. by apply up_not_nil in H.
    + rewrite length_app in Hfuel |- *. lia.
  - rewrite (BaseName_up d _ a s b Hd Es Hs Hb). by rewrite bool_decide_eq_false_2.
Qed.

Lemma GetComponents_exact path : GetComponents tolower path = Some (components path).
Proof.
  unfold GetComponents. destruct (path_split path) as [E Hd]. case_bool_decide as Hne; [by rewrite Hne|].
  pose proof (components_from_exact (length (body path)) (the_drive path) (body path) [] (S (length path)) Hd) as H.
  rewrite <- E in H. unfold components_from in H. rewrite H by (done || lia). by rewrite app_nil_r.
Qed.
End Loop.

(** C34: [GetComponents] ends on every path and gives its drive, its root and its names
    in order, for any folding of case. Of the root's separators one is kept, or two if
    there are two, or three in front of a name; a dot that starts a relative path is
    left out. *)
Theorem get_components_exact (tolower : Z -> Z) path :
  GetComponents tolower path = Some (components path).
Proof. apply GetComponents_exact. Qed.

(** ** Appending *)

(** A component that can be appended anywhere: a name other than a dot. *)
Definition component_ok (n : list Z) : Prop :=
  n <> [] /\ no IsSeparator n /\ no (is_char kStringTerminator) n /\ n <> kCurrentDirectory /\
  FindDriveLetter n = npos.

Lemma drive_extend d r x :
  drive_of d r -> r <> [] -> (exists s t, x = s :: t /\ IsSeparator s = true) \/ all_separators r ->
  drive_of d (r ++ x).
Proof.
  intros [H|[-> E]] Hne Hor; [by left | right]. split; [done|].
  destruct r as [|y [|z r]]; [done| |exact E]. destruct Hor as [(s & t & -> & Hs)|Hall].
  - simpl. destruct (decide (s = 58)) as [->|Hne58]; [done|].
    destruct (find_drive_cases (y :: s :: t)) as [E'|(l & u & _ & [= _ H _] & _)]; [exact E' | done].
  - apply Forall_cons in Hall as [Hy _].
    destruct (find_drive_cases ([y] ++ x)) as [E'|(l & u & Hl & [= -> H] & _)]; [exact E'|].
    exfalso. assert (no IsSeparator [l; 58]) as Hno by (apply (drive_no_separator [l; 58] []); left; by exists l).
    apply no_cons in Hno as [Hno _]. congruence.
Qed.

Lemma components_strip d r :
  drive_of d r -> (d = [] -> strip_body r = kCurrentDirectory -> r = kCurrentDirectory) ->
  components_of d (strip_body r) = components_of d r.
Proof.
  intros Hd Hdot. destruct (body_split r) as [Hall|(m & c & t & -> & Hc & Ht)].
  - assert (all_separators (strip_body r)) as Hs.
    { destruct (strip_body_prefix r) as (u & E & _). rewrite E in Hall. by apply Forall_app in Hall as [? _]. }
    assert (root (strip_body r) = root r) as Hr.
    { unfold root. rewrite (separators_all _ Hs), (separators_all _ Hall), (names_separators _ Hs),
        (names_separators _ Hall), (strip_body_separators _ Hall).
      by destruct r as [|x [|y [|z [|u l]]]]. }
    unfold components_of. rewrite Hr, (names_separators _ Hs), (names_separators _ Hall).
    unfold relative_names. rewrite (names_separators _ Hs), (names_separators _ Hall).
    by destruct (bool_decide (strip_body r = _)), (bool_decide (r = _)).
  - rewrite (strip_body_name _ _ _ Hc Ht) in *. unfold components_of. rewrite (root_name m c t Hc Ht).
    assert (names (m ++ c :: t) = names (m ++ [c])) as En.
    { replace (m ++ c :: t) with ((m ++ [c]) ++ t) by (by rewrite <- app_assoc). apply (names_end _ _ Ht). }
    unfold relative_names. rewrite En.
    destruct (bool_decide_reflect (d = [])) as [->|Hdn]; [|done].
    destruct (bool_decide_reflect (m ++ [c] = kCurrentDirectory)) as [E|E].
    + rewrite (bool_decide_eq_true_2 _ (Hdot eq_refl E)). done.
    + rewrite (bool_decide_eq_false_2 (m ++ c :: t = _)); [done|]. intros E'.
      destruct m as [|x [|y m]]; simpl in E'; try done. injection E' as -> ->. by apply E.
Qed.

Lemma FilePath_plain s : no (is_char kStringTerminator) s -> FilePath s = Some s.
Proof. intros H. unfold FilePath, find. by rewrite (find_none _ _ H). Qed.

Lemma component_relative n : component_ok n -> IsPathAbsolute n = Some false.
Proof.
  intros (Hne & Hsep & _ & _ & Hd). unfold IsPathAbsolute. rewrite Hd. simpl.
  destruct n as [|x [|y n]]; [done | done|]. apply no_cons in Hsep as [Hx _].
  rewrite (proj2 (Z.ltb_lt _ _)) by (rewrite !len_cons; pose proof (len_nonneg n); lia).
  simpl. by rewrite Hx.
Qed.

(** The character that ends a path. *)
Lemma at_last u x : at_ (u ++ [x]) (len (u ++ [x]) - 1) = Some x.
Proof. rewrite len_app. change (len [x]) with 1. rewrite Z.add_simpl_r. apply at_mid. Qed.

Definition ends_in_name (r : list Z) : bool :=
  match last r with Some c => negb (IsSeparator c) | None => false end.

Lemma Append_plain d r n :
  drive_of d r -> component_ok n -> d ++ r <> kCurrentDirectory ->
  Append (d ++ r) n =
  Some (d ++ strip_body r ++ (if ends_in_name (strip_body r) then [92] else []) ++ n).
Proof.
  intros Hd Hok Hdot. pose proof (component_relative _ Hok) as Hrel. destruct Hok as (Hne & Hsep & Hnul & _ & Hnd).
  unfold Append, find. rewrite (find_none _ _ Hnul), Z.eqb_refl. cbn [mbind option_bind]. rewrite Hrel.
  cbn [mbind option_bind]. case_guard as Hg; [|done]. cbn [mbind option_bind].
  rewrite bool_decide_eq_false_2 by done. rewrite (strip_path _ _ Hd). cbn [mbind option_bind].
  rewrite (drive_found _ _ (drive_strip _ _ Hd)), Z.sub_add.
  rewrite (proj2 (Z.ltb_lt 0 (len n))) by (by apply len_pos). cbn [andb].
  destruct (last_split (fun _ => true) (strip_body r)) as [H|(m & c & b & E & _ & Hb)].
  - destruct (strip_body r) as [|x l]; [|by apply Forall_cons in H as [? _]]. simpl. rewrite app_nil_r.
    destruct (0 <? len d) eqn:El; [|done]. apply Z.ltb_lt in El.
    destruct Hd as [(l & _ & ->)|[-> _]]; [|done]. cbn [mbind option_bind]. simpl.
    by rewrite ?andb_false_r.
  - destruct b as [|x b]; [|by apply Forall_cons in Hb as [? _]]. rewrite E.
    rewrite (proj2 (Z.ltb_lt _ _)) by (apply len_pos; by destruct d, m).
    rewrite app_assoc, at_last. cbn [mbind option_bind]. unfold ends_in_name. rewrite last_snoc.
    rewrite (proj2 (Z.eqb_neq (len d) _)) by (rewrite !len_app; change (len [c]) with 1; pose proof (len_nonneg m); lia).
    rewrite andb_true_r. destruct (IsSeparator c); cbn [negb mbind option_bind].
    + by rewrite <- !app_assoc.
    + by rewrite <- !app_assoc.
Qed.

Lemma ends_in_name_split r : stripped r ->
  (ends_in_name r = true /\ exists m c, r = m ++ [c] /\ IsSeparator c = false) \/
  (ends_in_name r = false /\ all_separators r).
Proof.
  intros [|x Hx|x y Hx Hy|m c Hc]; unfold ends_in_name.
  - right. by repeat constructor.
  - right. simpl. rewrite Hx. by repeat constructor.
  - right. simpl. rewrite Hy. by repeat constructor.
  - left. rewrite last_snoc, Hc. split; [done|]. by exists m, c.
Qed.

Lemma components_of_nil d : components_of d [] = optional d.
Proof. unfold components_of, optional. by destruct (bool_decide (d = [])). Qed.

(** What [Append] makes of a body has one more component. *)
Lemma components_appended d r n :
  drive_of d r -> component_ok n -> stripped r -> (d = [] -> r <> kCurrentDirectory) ->
  let r' := r ++ (if ends_in_name r then [92] else []) ++ n in
  drive_of d r' /\ components_of d r' = components_of d r ++ [n] /\ BaseName (d ++ r') = Some n.
Proof.
  intros Hd (Hne & Hsep & _ & Hnd & Hdrive) Hst Hdot r'.
  assert (forall a s, drive_of d (a ++ s :: n) -> IsSeparator s = true -> up a s = r ->
    components_of d (a ++ s :: n) = components_of d r ++ [n] /\ BaseName (d ++ a ++ s :: n) = Some n) as Hstep.
  { intros a s Hda Hs Hup. pose proof (components_up d a s n []) as Hc. rewrite app_nil_r in Hc.
    rewrite Hc, Hup by (done || constructor). split; [done|].
    destruct (exists_last Hne) as (n0 & c & En). assert (IsSeparator c = false) as Hcs.
    { rewrite En in Hsep. apply no_app in Hsep as [_ Hsep]. by apply no_cons in Hsep as [? _]. }
    rewrite (BaseName_up d (a ++ s :: n) a s n Hda); [by rewrite bool_decide_eq_false_2 | | done | done].
    rewrite En. replace (a ++ s :: n0 ++ [c]) with ((a ++ s :: n0) ++ [c]) by (by rewrite <- app_assoc).
    apply (strip_body_name _ c []); [done | constructor]. }
  destruct (ends_in_name_split _ Hst) as [(E & m & c & Er & Hc)|[E Hall]]; unfold r'; rewrite E.
  - assert (drive_of d (r ++ 92 :: n)) as Hd'.
    { apply drive_extend; [done | by rewrite Er; destruct m | left; by exists 92, n]. }
    split; [done|]. apply Hstep; [done..|]. rewrite up_name; [by apply strip_body_id|].
    rewrite Er. by apply not_all_separators.
  - simpl app. destruct (all_roots _ Hst Hall) as [->|(a & s & -> & Hup)].
    + simpl app in *. assert (drive_of d n) as Hd' by (destruct Hd as [Hd|[-> _]]; [by left | by right]).
      split; [done|]. pose proof (one_name_components d n []) as H1. rewrite app_nil_r in H1.
      rewrite H1 by (done || constructor).
      rewrite bool_decide_eq_false_2; [|intros En; destruct Hd as [(l & _ & ->)|[-> _]]; [done | by apply Hnd]].
      split; [by rewrite components_of_nil|].
      destruct (exists_last Hne) as (n0 & c & En). assert (IsSeparator c = false) as Hcs.
      { rewrite En in Hsep. apply no_app in Hsep as [_ Hsep]. by apply no_cons in Hsep as [? _]. }
      assert (strip_body n = n) as Es by (rewrite En; apply (strip_body_name _ c []); [done | constructor]).
      rewrite (BaseName_plain d n Hd'); [by rewrite Es | by rewrite Es].
    + assert (IsSeparator s = true) as Hs by (apply Forall_app in Hall as [_ H]; by apply Forall_cons in H as [H _]).
      assert (drive_of d ((a ++ [s]) ++ n)) as Hd' by (apply drive_extend; [done | by destruct a | by right]).
      split; [done|]. rewrite <- app_assoc in *. by apply Hstep.
Qed.

Lemma Append_component path n :
  component_ok n ->
  (the_drive path = [] -> strip_body (body path) = kCurrentDirectory -> path = kCurrentDirectory) ->
  exists path', Append path n = Some path' /\ components path' = components path ++ [n] /\
    BaseName path' = Some n.
Proof.
  intros Hok Hdot. unfold components at 2. destruct (path_split path) as [Ep Hd]. revert Hdot Ep Hd.
  generalize (the_drive path) (body path). intros d r Hdot -> Hd.
  destruct (decide (d ++ r = kCurrentDirectory)) as [E|Hne].
  - assert (d = [] /\ r = kCurrentDirectory) as [-> ->] by (by destruct Hd as [(l & _ & ->)|[-> _]]).
    destruct Hok as (Hn0 & Hsep & Hnul & Hnd & Hdr). exists n.
    pose proof (component_relative n ltac:(done)) as Hrel.
    destruct (components_appended [] [] n) as (Hd' & Hc & Hb);
      [by right | done | constructor | done |]. simpl in Hd', Hc, Hb. split; [|split; [|done]].
    + unfold Append, find. rewrite (find_none _ _ Hnul), Z.eqb_refl. cbn [mbind option_bind]. rewrite Hrel.
      cbn [mbind option_bind]. case_guard as Hg; [|done]. simpl. by apply FilePath_plain.
    + unfold components at 1. destruct (drive_split [] n Hd') as [H1 H2]. simpl app in H1, H2. rewrite H1, H2, Hc. done.
  - rewrite (Append_plain d r n Hd Hok Hne). eexists. split; [done|].
    assert (d = [] -> strip_body r <> kCurrentDirectory) as Hdot'.
    { intros E1 E2. apply Hne. by apply Hdot. }
    destruct (components_appended d (strip_body r) n (drive_strip _ _ Hd) Hok (strip_body_stripped r) Hdot')
      as (Hd' & Hc & Hb). split; [|exact Hb].
    unfold components. destruct (drive_split _ _ Hd') as [-> ->]. rewrite Hc. f_equal.
    apply components_strip; [done|]. intros E1 E2. by destruct (Hdot' E1).
Qed.

(** Appending a name to a path adds it to the path's components, and the path is
    then a parent of the result: [AppendRelativePath] finds the name again, appended to
    any path. The exception is a path that is a dot and separators, whose dot counts
    until something is appended. *)
Theorem appended_name_is_found (tolower : Z -> Z) path n q :
  component_ok n ->
  (the_drive path = [] -> strip_body (body path) = kCurrentDirectory -> path = kCurrentDirectory) ->
  (the_drive q = [] -> strip_body (body q) = kCurrentDirectory -> q = kCurrentDirectory) ->
  exists path' q', Append path n = Some path' /\ Append q n = Some q' /\
    GetComponents tolower path' = Some (components path ++ [n]) /\ BaseName path' = Some n /\
    (components path <> [] ->
     IsParent tolower path path' = Some true /\
     AppendRelativePath tolower path path' (Some q) = Some (true, Some q')).
Proof.
  intros Hok Hp Hq. destruct (Append_component path n Hok Hp) as (path' & E & Ec & Eb).
  destruct (Append_component q n Hok Hq) as (q' & Eq & _ & _). exists path', q'.
  split; [done|]. split; [done|]. rewrite GetComponents_exact, Ec. split; [done|]. split; [done|]. intros Hne.
  assert (forall o, AppendRelativePath tolower path path' o =
    match o with None => Some (true, None) | Some _ => q ← o; q ← Append q n; Some (true, Some q) end) as H.
  { intros o. unfold AppendRelativePath. rewrite !GetComponents_exact, Ec. cbn [mbind option_bind].
    destruct (components path) as [|x ps]; [done|]. cbn [app].
    rewrite (proj2 (Nat.leb_gt _ _)) by (simpl; rewrite length_app; simpl; lia).
    unfold StartsWith. rewrite Z.ltb_irrefl, equal_ignoring_case_refl. simpl negb. rewrite andb_false_r.
    assert (forall l, match_components l (l ++ [n]) = Some [n]) as Hm.
    { induction l as [|y l IH]; simpl; [done|]. by rewrite bool_decide_eq_true_2. }
    rewrite Hm. change (x :: ps ++ [n]) with ((x :: ps) ++ [n]). rewrite Hm. destruct o as [o|]; [|by destruct (_ && _)].
    destruct (_ && _); simpl; by destruct (Append o n). }
  unfold IsParent. rewrite !H. simpl. by rewrite Eq.
Qed.

(** [C:\a] and [b]. *)
Lemma appended_name_is_found_witness :
  exists path' q', Append [67; 58; 92; 97] [98] = Some path' /\ Append [120] [98] = Some q' /\
    GetComponents ToLowerASCII path' = Some [[67; 58]; [92]; [97]; [98]] /\ BaseName path' = Some [98] /\
    AppendRelativePath ToLowerASCII [67; 58; 92; 97] path' (Some [120]) = Some (true, Some q').
Proof.
  destruct (appended_name_is_found ToLowerASCII [67; 58; 92; 97] [98] [120])
    as (path' & q' & H1 & H2 & H3 & H4 & H5).
  - split; [done|]. split; [by repeat constructor|]. split; [by repeat constructor|]. done.
  - done.
  - done.
  - exists path', q'. do 2 (split; [done|]). split; [exact H3|]. split; [done|]. apply H5. done.
Defined.

(** The exception is real: a slash after the dot hides the child. *)
Example dot_slash_is_no_parent :
  exists path', Append [46; 47] [98] = Some path' /\ IsParent ToLowerASCII [46; 47] path' = Some false.
Proof. by eexists. Qed.

(** Three separators in front of a name are the root of two, alone they are one. *)
Example three_separators :
  GetComponents ToLowerASCII [47; 47; 47; 97] = Some [[47; 47]; [97]] /\
  GetComponents ToLowerASCII [47; 47; 47] = Some [[47]] /\
  IsParent ToLowerASCII [47; 47; 47] [47; 47; 47; 97] = Some false.
Proof. done. Qed.

(** ** Extensions *)

(** What comes before the last name: nothing, a drive or a directory with its separator. *)
Definition before_name (pre : list Z) : Prop :=
  no (is_char 46) pre /\ no IsSeparator pre \/ exists u s, pre = u ++ [s] /\ IsSeparator s = true.

Lemma rfind_in_tail p pre u :
  rfind_if p (pre ++ u) npos =
  if rfind_if p u npos =? npos then rfind_if p pre npos else len pre + rfind_if p u npos.
Proof.
  destruct (last_split p u) as [H|(a & c & b & -> & Hc & Hb)].
  - rewrite (rfind_none _ _ H), Z.eqb_refl. destruct (last_split p pre) as [H'|(a & c & b & -> & Hc & Hb)].
    + rewrite !rfind_none; [done | done | by apply no_app].
    + rewrite (rfind_some _ _ _ _ Hc Hb), <- app_assoc. cbn [app]. rewrite rfind_some; [done | done | by apply no_app].
  - rewrite (rfind_some _ _ _ _ Hc Hb), app_assoc, (rfind_some _ _ _ _ Hc Hb), len_app.
    by rewrite (proj2 (Z.eqb_neq _ npos)) by (pose proof (len_nonneg a); unfold npos; lia).
Qed.

Lemma rfind_range p s : rfind_if p s npos = npos \/ 0 <= rfind_if p s npos < len s.
Proof.
  destruct (last_split p s) as [H|(a & c & b & -> & Hc & Hb)]; [left; by apply rfind_none | right].
  rewrite (rfind_some _ _ _ _ Hc Hb), len_app, len_cons. pose proof (len_nonneg a). pose proof (len_nonneg b). lia.
Qed.

(** The last dot of a path is the last dot of its name. *)
Lemma last_dot_shift pre u v :
  before_name pre -> no (is_char 46) v ->
  u ++ 46 :: v <> kCurrentDirectory -> u ++ 46 :: v <> kParentDirectory ->
  FinalExtensionSeparatorPosition (pre ++ u ++ 46 :: v) = len pre + len u.
Proof.
  intros Hpre Hv H1 H2. unfold FinalExtensionSeparatorPosition, rfind.
  rewrite app_assoc, (rfind_some _ (pre ++ u) 46 v) by done. rewrite len_app.
  assert (forall w, (w = kCurrentDirectory \/ w = kParentDirectory) -> (pre ++ u) ++ 46 :: v = w -> pre = []) as Hnil.
  { intros w Hw E. destruct Hpre as [[Hd _]|(x & s & -> & Hs)].
    - destruct pre as [|y pre]; [done|]. apply no_cons in Hd as [Hy _].
      destruct Hw as [-> | ->]; injection E as -> _; done.
    - assert (no IsSeparator w) as Hw' by (destruct Hw as [-> | ->]; by repeat constructor).
      rewrite <- E in Hw'. apply no_app in Hw' as [Hw' _]. apply no_app in Hw' as [Hw' _].
      apply no_app in Hw' as [_ Hw']. apply no_cons in Hw' as [Hw' _]. congruence. }
  rewrite !bool_decide_eq_false_2; [done| |].
  - intros E. assert (pre = []) as -> by (apply (Hnil kParentDirectory); [by right | exact E]). by apply H2.
  - intros E. assert (pre = []) as -> by (apply (Hnil kCurrentDirectory); [by left | exact E]). by apply H1.
Qed.

(** Before the name no dot follows the last separator. *)
Lemma before_name_dots pre :
  before_name pre ->
  rfind_if (is_char 46) pre npos = npos \/
  rfind_if (any_of kSeparators) pre npos <> npos /\
  rfind_if (is_char 46) pre npos < rfind_if (any_of kSeparators) pre npos.
Proof.
  intros [[Hd _]|(x & s & -> & Hs)]; [left; by apply rfind_none|].
  rewrite (rfind_some (any_of kSeparators) x s [] Hs (no_nil _)), rfind_in_tail.
  rewrite (rfind_none (is_char 46) [s]).
  - rewrite Z.eqb_refl. destruct (rfind_range (is_char 46) x) as [->|H]; [by left | right].
    split; [pose proof (len_nonneg x); unfold npos; lia | lia].
  - repeat constructor. apply not_true_iff_false. intros ->%is_char_eq. done.
Qed.

Lemma substr_shift pre s pos :
  0 <= pos <= len s -> substr (pre ++ s) (len pre + pos) npos = substr s pos npos.
Proof.
  intros H. unfold substr. pose proof (len_nonneg pre). rewrite len_app.
  case_guard as H1; [|destruct H1; lia]. case_guard as H2; [|done]. simpl.
  replace (Z.to_nat (len pre + pos)) with (length pre + Z.to_nat pos)%nat by (unfold len; lia).
  by rewrite <- drop_drop, drop_app_length.
Qed.

(** It is a dot, and stays the same when something comes before the name. *)
Lemma extension_start_shift pre s last p sep k :
  0 <= last < len s -> p < last -> (p = npos \/ 0 <= p) -> sep < len pre ->
  extension_start s last p npos = Some k ->
  (p = npos -> extension_start (pre ++ s) (len pre + last) p sep = Some (len pre + k)) /\
  (p <> npos -> extension_start (pre ++ s) (len pre + last) (len pre + p) sep = Some (len pre + k)) /\
  (k = last \/ k = p /\ p <> npos).
Proof.
  intros Hl Hp Hp0 Hsep Hk. pose proof (len_nonneg pre). unfold extension_start in *. split; [|split].
  - intros ->. simpl in *. by injection Hk as <-.
  - intros Hne. rewrite (proj2 (Z.eqb_neq p npos) Hne) in Hk. simpl in Hk.
    rewrite (proj2 (Z.eqb_neq (len pre + p) npos)) by (unfold npos in *; lia).
    rewrite (proj2 (Z.ltb_ge (len pre + p) sep)) by (unfold npos in *; lia). rewrite andb_false_r. simpl.
    replace (len pre + p + 1) with (len pre + (p + 1)) by lia.
    replace (len pre + last + 1) with (len pre + (last + 1)) by lia.
    rewrite !substr_shift by (unfold npos in *; lia).
    replace (len pre + last - (len pre + p)) with (last - p) by lia.
    destruct (substr s (p + 1) npos); [|done]. simpl in *. destruct (_ || false); [by injection Hk as <-|].
    destruct (substr s (last + 1) npos); [|done]. simpl in *. destruct (_ && _); by injection Hk as <-.
  - destruct (Z.eqb_spec p npos) as [E|E]; simpl in Hk; [left; by injection Hk as <-|].
    destruct (substr s (p + 1) npos); [|done]. simpl in Hk. destruct (_ || false); [right; by injection Hk as <-|].
    destruct (substr s (last + 1) npos); [|done]. simpl in Hk.
    destruct (_ && _); injection Hk as <-; [by right | by left].
Qed.

(** The position of the extension is found in the name alone. *)
Lemma extension_shift pre base k :
  before_name pre -> no IsSeparator base -> FinalExtensionSeparatorPosition base <> npos ->
  ExtensionSeparatorPosition base = Some k ->
  ExtensionSeparatorPosition (pre ++ base) = Some (len pre + k) /\ 0 <= k < len base.
Proof.
  intros Hpre Hbase Hfin Hk.
  assert (exists u v, base = u ++ 46 :: v /\ no (is_char 46) v /\ base <> kCurrentDirectory /\ base <> kParentDirectory)
    as (u & v & -> & Hv & H1 & H2).
  { unfold FinalExtensionSeparatorPosition in Hfin.
    destruct (bool_decide_reflect (base = kCurrentDirectory)); [done|].
    destruct (bool_decide_reflect (base = kParentDirectory)); [done|]. simpl in Hfin.
    destruct (last_split (is_char 46) base) as [H|(u & c & v & -> & Hc & Hv)].
    - exfalso. apply Hfin. by apply rfind_none.
    - apply is_char_eq in Hc as ->. by exists u, v. }
  assert (before_name []) as Hnil by (left; split; constructor).
  unfold ExtensionSeparatorPosition in *. rewrite (last_dot_shift pre u v Hpre Hv H1 H2).
  pose proof (last_dot_shift [] u v Hnil Hv H1 H2) as H0. simpl app in H0. rewrite H0 in Hk. clear H0.
  change (len []) with 0 in Hk. rewrite Z.add_0_l in Hk.
  assert (0 <= len u < len (u ++ 46 :: v)) as Hu
    by (rewrite len_app, len_cons; pose proof (len_nonneg u); pose proof (len_nonneg v); lia).
  pose proof (len_nonneg pre) as Hlp. unfold rfind, find_last_of, kExtensionSeparator in *.
  rewrite (proj2 (Z.eqb_neq (len u) npos)) in Hk by (unfold npos; lia).
  rewrite (proj2 (Z.eqb_neq (len pre + len u) npos)) by (unfold npos; lia). cbn [orb] in *.
  assert (forall q p, q ++ u <> [] -> rfind_if p ((q ++ u) ++ 46 :: v) (len q + len u - 1) = rfind_if p (q ++ u) npos) as Hbefore.
  { intros q p Hne. rewrite <- len_app. by apply rfind_before. }
  apply no_app in Hbase as [Hbu _].
  pose proof (rfind_none (any_of kSeparators) u Hbu) as Hsu.
  pose proof (before_name_dots _ Hpre) as Hdots.
  pose proof (rfind_range (any_of kSeparators) pre) as Hrs.
  pose proof (rfind_range (is_char 46) u) as Hru.
  destruct (decide (pre ++ u = [])) as [[-> ->]%app_eq_nil|Hne].
  { simpl in *. injection Hk as <-. split; [done | lia]. }
  rewrite (proj2 (Z.eqb_neq (len pre + len u) 0)) by (rewrite <- len_app; pose proof (len_pos _ Hne); lia).
  rewrite app_assoc, !Hbefore by done. rewrite !(rfind_in_tail _ pre u), Hsu, Z.eqb_refl.
  assert (forall last, extension_start ((pre ++ u) ++ 46 :: v) last (rfind_if (is_char 46) pre npos)
      (rfind_if (any_of kSeparators) pre npos) = Some last) as Hpre_only.
  { intros last. unfold extension_start. destruct Hdots as [->|[Hs Hlt]]; [done|].
    rewrite (proj2 (Z.eqb_neq _ _) Hs), (proj2 (Z.ltb_lt _ _) Hlt). by rewrite orb_true_r. }
  destruct (decide (u = [])) as [->|Hun].
  { simpl in Hk. injection Hk as <-. change (rfind_if _ [] npos =? npos) with true. cbv iota.
    change (len []) with 0 in *. rewrite Hpre_only. split; [done | lia]. }
  rewrite (proj2 (Z.eqb_neq (len u) 0)) in Hk by (pose proof (len_pos _ Hun); lia).
  rewrite !(rfind_before _ u (46 :: v) Hun), Hsu in Hk.
  destruct (extension_start_shift pre (u ++ 46 :: v) (len u) (rfind_if (is_char 46) u npos)
    (rfind_if (any_of kSeparators) pre npos) k Hu
    ltac:(destruct Hru as [->|]; [unfold npos|]; lia) ltac:(destruct Hru; [by left | right; lia])
    ltac:(destruct Hrs as [->|]; [unfold npos|]; lia) Hk) as (_ & Hshift & Hk').
  destruct (Z.eqb_spec (rfind_if (is_char 46) u npos) npos) as [E|E].
  - rewrite Hpre_only.
    destruct Hk' as [->|[_ ?]]; [|done]. split; [done | lia].
  - rewrite <- app_assoc. rewrite Hshift by done. split; [done|].
    destruct Hk' as [->|[-> _]]; [lia|]. destruct Hru as [|]; [done|]. lia.
Qed.

(** ** Taking the extension off *)

Lemma final_dot_range s : FinalExtensionSeparatorPosition s = npos \/ 0 <= FinalExtensionSeparatorPosition s < len s.
Proof. unfold FinalExtensionSeparatorPosition. destruct (_ || _); [by left | apply rfind_range]. Qed.

Lemma rfind_before_range p s pos :
  0 <= pos -> rfind_if p s pos = npos \/ 0 <= rfind_if p s pos <= pos.
Proof.
  intros H. unfold rfind_if. rewrite (proj2 (Z.eqb_neq _ npos)) by (unfold npos; lia).
  destruct (rfind_range p (take (Z.to_nat (pos + 1)) s)) as [E|E]; unfold rfind_if in E; simpl in E; [by left | right].
  unfold len in E. rewrite length_take in E. lia.
Qed.

Lemma substr_some s pos : 0 <= pos <= len s -> exists t, substr s pos npos = Some t /\ take (Z.to_nat pos) s ++ t = s.
Proof.
  intros H. unfold substr. case_guard as Hg; [|done]. simpl. eexists. split; [done|]. apply take_drop.
Qed.

Lemma extension_position_some s : exists k, ExtensionSeparatorPosition s = Some k.
Proof.
  unfold ExtensionSeparatorPosition. destruct (final_dot_range s) as [->|Hl]; [by eexists|].
  rewrite (proj2 (Z.eqb_neq _ npos)) by (unfold npos; lia). cbn [orb].
  destruct (Z.eqb_spec (FinalExtensionSeparatorPosition s) 0) as [E|E]; [by eexists|].
  set (l := FinalExtensionSeparatorPosition s) in *. unfold extension_start, rfind.
  destruct (rfind_before_range (is_char kExtensionSeparator) s (l - 1)) as [->|Hp]; [lia | by eexists |].
  destruct (_ || _); [by eexists|].
  destruct (substr_some s (rfind_if (is_char kExtensionSeparator) s (l - 1) + 1)) as (t & -> & _); [lia|].
  destruct (substr_some s (l + 1)) as (t' & -> & _); [lia|]. cbn [mbind option_bind].
  destruct (existsb _ _); [by eexists|]. destruct (_ && _); by eexists.
Qed.

(** Cutting a path at a position of its name. *)
Lemma cut_path pre base k :
  no (is_char kStringTerminator) (pre ++ base) -> 0 <= k < len base ->
  exists e b, substr base k npos = Some e /\ e <> [] /\
    (s ← substr (pre ++ base) 0 (len pre + k); FilePath s) = Some b /\ b ++ e = pre ++ base.
Proof.
  intros Hnul Hk. destruct (substr_some base k) as (e & He & Eb); [lia|].
  exists e, (pre ++ take (Z.to_nat k) base). split; [done|]. split.
  { intros ->. rewrite app_nil_r in Eb. apply (f_equal length) in Eb. rewrite length_take in Eb. unfold len in Hk. lia. }
  assert (len pre + k = len (pre ++ take (Z.to_nat k) base)) as ->
    by (rewrite len_app; unfold len; rewrite length_take; unfold len in Hk; lia).
  rewrite <- Eb at 1. rewrite app_assoc, substr_head. cbn [mbind option_bind]. split.
  - apply FilePath_plain. apply no_app in Hnul as [H1 H2]. apply no_app. split; [done | by apply Forall_take].
  - by rewrite <- app_assoc, Eb.
Qed.

Definition splits (extension remaining path : option (list Z)) : Prop :=
  exists e b, extension = Some e /\ remaining = Some b /\ Some (b ++ e) = path.

Lemma extension_of_name pre base :
  before_name pre -> no IsSeparator base -> no (is_char kStringTerminator) (pre ++ base) ->
  BaseName (pre ++ base) = Some base ->
  splits (Extension (pre ++ base)) (RemoveExtension (pre ++ base)) (Some (pre ++ base)) /\
  splits (FinalExtension (pre ++ base)) (RemoveFinalExtension (pre ++ base)) (Some (pre ++ base)).
Proof.
  intros Hpre Hbase Hnul Hb. pose proof (len_nonneg pre) as Hlp. unfold splits.
  unfold RemoveExtension, RemoveFinalExtension, Extension, FinalExtension. rewrite Hb. cbn [mbind option_bind].
  destruct (extension_position_some base) as [k Hk]. rewrite Hk. cbn [mbind option_bind].
  destruct (decide (FinalExtensionSeparatorPosition base = npos)) as [E|E].
  - assert (k = npos) as ->.
    { unfold ExtensionSeparatorPosition in Hk. rewrite E in Hk. simpl in Hk. by injection Hk. }
    rewrite E, Z.eqb_refl. cbn [mbind option_bind]. rewrite bool_decide_eq_true_2 by done.
    split; exists [], (pre ++ base); by rewrite app_nil_r.
  - destruct (extension_shift pre base k Hpre Hbase E Hk) as [Hshift Hkr]. split.
    + destruct (cut_path pre base k Hnul Hkr) as (e & b & He & Hne & Hs & Heq).
      rewrite (proj2 (Z.eqb_neq k npos)) by (unfold npos; lia). rewrite He. cbn [mbind option_bind].
      rewrite bool_decide_eq_false_2 by done. rewrite Hshift. cbn [mbind option_bind].
      rewrite (proj2 (Z.eqb_neq _ npos)) by (unfold npos; lia). exists e, b. by rewrite Hs, Heq.
    + destruct (final_dot_range base) as [|Hr]; [done|].
      assert (FinalExtensionSeparatorPosition (pre ++ base) = len pre + FinalExtensionSeparatorPosition base) as Hf.
      { revert E Hr. unfold FinalExtensionSeparatorPosition at 1 2 3 5.
        destruct (bool_decide_reflect (base = kCurrentDirectory)); [done|].
        destruct (bool_decide_reflect (base = kParentDirectory)); [done|]. cbn [orb]. unfold rfind.
        destruct (last_split (is_char kExtensionSeparator) base) as [H|(u & c & v & -> & Hc & Hv)].
        - by rewrite (rfind_none _ _ H).
        - intros _ _. rewrite (rfind_some _ _ _ _ Hc Hv). apply is_char_eq in Hc as ->. by apply last_dot_shift. }
      destruct (cut_path pre base _ Hnul Hr) as (e & b & He & Hne & Hs & Heq).
      rewrite (proj2 (Z.eqb_neq (FinalExtensionSeparatorPosition base) npos)) by done. rewrite He.
      cbn [mbind option_bind]. rewrite bool_decide_eq_false_2 by done. rewrite Hf.
      rewrite (proj2 (Z.eqb_neq _ npos)) by (unfold npos; lia). exists e, b. by rewrite Hs, Heq.
Qed.

(** A path without separators at its end comes before its name, or is a root. *)
Lemma path_before_name path :
  StripTrailingSeparators path = Some path ->
  (exists pre base, path = pre ++ base /\ before_name pre /\ no IsSeparator base /\ BaseName path = Some base) \/
  (exists base, BaseName path = Some base /\ all_separators base).
Proof.
  destruct (path_split path) as [Ep Hd]. revert Ep Hd. generalize (the_drive path) (body path). intros d r -> Hd.
  rewrite (strip_path _ _ Hd). intros [= Es%app_inv_head].
  assert (before_name d) as Hbd.
  { left. split; [|by eapply drive_no_separator]. destruct Hd as [(l & Hl & ->)|[-> _]]; [|constructor].
    apply no_cons. split; [|by repeat constructor]. apply not_true_iff_false. intros ->%is_char_eq. done. }
  destruct (last_split IsSeparator r) as [Hno|(a & s & b & E & Hs & Hb)].
  - left. exists d, r. do 3 (split; [done|]). rewrite BaseName_plain; rewrite ?Es; done.
  - assert (strip_body r = a ++ s :: b) as Es' by (by rewrite Es).
    pose proof (BaseName_up d r a s b Hd Es' Hs Hb) as Hbase. destruct (bool_decide_reflect (b = [])) as [->|Hne].
    + right. exists r. rewrite Hbase, Es. split; [done|].
      pose proof (strip_body_stripped r) as Hst. rewrite Es in Hst.
      destruct (ends_in_name_split _ Hst) as [(_ & m & c & E' & Hc)|[_ H]]; [|done].
      rewrite E in E'. apply app_inj_tail in E' as [_ ->]. congruence.
    + left. exists (d ++ a ++ [s]), b. rewrite E at 1. rewrite <- !app_assoc. split; [done|].
      split; [right; exists (d ++ a), s; by rewrite <- app_assoc|]. done.
Qed.

(** A path without separators at its end is what is left when its extension is
    removed, followed by the extension; so for the long extensions ([.tar.gz]) and for
    the last one, and no operation fails. *)
Theorem extension_splits_path path :
  StripTrailingSeparators path = Some path -> no (is_char kStringTerminator) path ->
  (exists e b, Extension path = Some e /\ RemoveExtension path = Some b /\ b ++ e = path) /\
  (exists e b, FinalExtension path = Some e /\ RemoveFinalExtension path = Some b /\ b ++ e = path).
Proof.
  intros Hs Hnul. destruct (path_before_name path Hs) as [(pre & base & -> & Hpre & Hno & Hb)|(base & Hb & Hall)].
  - destruct (extension_of_name pre base Hpre Hno Hnul Hb) as [(e & b & H1 & H2 & [= H3]) (e' & b' & H4 & H5 & [= H6])].
    split; [by exists e, b | by exists e', b'].
  - assert (FinalExtensionSeparatorPosition base = npos) as E.
    { unfold FinalExtensionSeparatorPosition. destruct (_ || _); [done|]. apply rfind_none.
      eapply Forall_impl; [exact Hall|]. intros c Hc. simpl in Hc. apply not_true_iff_false. by intros ->%is_char_eq. }
    unfold Extension, RemoveExtension, Extension, FinalExtension, RemoveFinalExtension, FinalExtension,
      ExtensionSeparatorPosition. rewrite Hb. cbn [mbind option_bind]. rewrite E. simpl.
    split; exists [], path; by rewrite app_nil_r.
Qed.

(** [a.tar.gz]. *)
Lemma extension_splits_path_witness :
  exists e b, Extension [97; 46; 116; 97; 114; 46; 103; 122] = Some e /\ e = [46; 116; 97; 114; 46; 103; 122] /\
    RemoveExtension [97; 46; 116; 97; 114; 46; 103; 122] = Some b /\ b ++ e = [97; 46; 116; 97; 114; 46; 103; 122].
Proof.
  destruct (extension_splits_path [97; 46; 116; 97; 114; 46; 103; 122]) as [(e & b & H1 & H2 & H3) _].
  - done.
  - by repeat constructor.
  - exists e, b. split; [done|]. split; [|done]. vm_compute in H1. by injection H1.
Defined.

(** With a slash at the end the extension is found, but a shorter one is removed. *)
Example slash_after_extension :
  Extension [97; 46; 116; 97; 114; 46; 103; 122; 47] = Some [46; 116; 97; 114; 46; 103; 122] /\
  RemoveExtension [97; 46; 116; 97; 114; 46; 103; 122; 47] = Some [97; 46; 116; 97; 114].
Proof. done. Qed.
