(* ===== verification/CommandLine.v ===== *)
(** * Command lines ([base/command_line.cc])

    The class on Windows: a vector of words with the program first, the switches before
    the other arguments, and a map from the switches to their values. A word is made
    into text for the system's [CommandLineToArgvW] and back. [None] is a failed
    [DCHECK], a position out of range or a loop out of fuel. *)
From Stdlib Require Import ZArith Lia.
From stdpp Require Import base gmap option list.
From S2P Require Import Prelude Unicode StdString StringUtil FilePath.

Local Open Scope Z_scope.

(** "--", '=' and the prefixes of a switch. *)
Definition kSwitchTerminator : list Z := [45; 45].
Definition kSwitchValueSeparator : list Z := [61].
Definition kSwitchPrefixes : list (list Z) := [[45; 45]; [45]; [47]].

Definition is_ascii (s : list Z) : bool := forallb (fun c => c <? 128) s.

Definition ASCIIToUTF16 (ascii : list Z) : option (list Z) := guard (is_ascii ascii = true);; Some ascii.
Definition UTF16ToASCII (utf16 : list Z) : option (list Z) := guard (is_ascii utf16 = true);; Some utf16.

Definition LowerASCIIOnWindows (s : list Z) : list Z := StringToLowerASCII s.

(** ** The object *)

Record CommandLine := CommandLine_ {
  argv_ : list (list Z);
  switches_ : gmap (list Z) (list Z);
  begin_args_ : nat;
}.

(** [CommandLine(NO_PROGRAM)]. *)
Definition new_CommandLine : CommandLine := CommandLine_ [[]] ∅ 1.

(** The global [switch_prefix_count], at the start and after this call. *)
Definition all_switch_prefixes : nat := length kSwitchPrefixes.
Definition set_slash_is_not_a_switch : option nat :=
  guard (last kSwitchPrefixes = Some [47]);; Some (length kSwitchPrefixes - 1)%nat.

Section CommandLine.

(** The global. *)
Context (switch_prefix_count : nat).

Definition GetSwitchPrefixLength (string : list Z) : Z :=
  match list_find (fun prefix => compare_prefix string (len prefix) prefix = true)
          (take switch_prefix_count kSwitchPrefixes) with
  | Some (_, prefix) => len prefix
  | None => 0
  end.

(** [None] inside when the string is no switch; else the switch and its value. *)
Definition IsSwitch (string : list Z) : option (option (list Z * list Z)) :=
  let prefix_length := GetSwitchPrefixLength string in
  if (prefix_length =? 0) || (prefix_length =? len string) then Some None
  else
    let equals_position := find_sub string kSwitchValueSeparator 0 in
    switch_string ← substr string 0 equals_position;
    switch_value ← (if equals_position =? npos then Some [] else substr string (equals_position + 1) npos);
    Some (Some (switch_string, switch_value)).

(** ** Reading and changing it *)

Definition SetProgram (cl : CommandLine) (program : list Z) : option CommandLine :=
  trimmed ← trim_wide program;
  _ ← argv_ cl !! 0%nat;
  Some (CommandLine_ (<[0%nat := trimmed]> (argv_ cl)) (switches_ cl) (begin_args_ cl)).

(** [CommandLine(program)]. *)
Definition CommandLine_for (program : list Z) : option CommandLine := SetProgram new_CommandLine program.

Definition GetProgram (cl : CommandLine) : option (list Z) := p ← argv_ cl !! 0%nat; FilePath p.

Definition HasSwitch (cl : CommandLine) (switch_string : list Z) : bool :=
  bool_decide (is_Some (switches_ cl !! LowerASCIIOnWindows switch_string)).

Definition GetSwitchValueNative (cl : CommandLine) (switch_string : list Z) : list Z :=
  default [] (switches_ cl !! LowerASCIIOnWindows switch_string).

Definition GetSwitchValueASCII (cl : CommandLine) (switch_string : list Z) : option (list Z) :=
  let value := GetSwitchValueNative cl switch_string in
  if negb (is_ascii value) then Some [] else UTF16ToASCII value.

Definition GetSwitchValuePath (cl : CommandLine) (switch_string : list Z) : option (list Z) :=
  FilePath (GetSwitchValueNative cl switch_string).

(** [insert] at a position of the vector. *)
Definition insert_at (v : list (list Z)) (n : nat) (x : list Z) : option (list (list Z)) :=
  guard (n <= length v)%nat;; Some (take n v ++ x :: drop n v).

Definition AppendSwitchNative (cl : CommandLine) (switch_string value : list Z) : option CommandLine :=
  let switch_key := LowerASCIIOnWindows switch_string in
  combined_switch_string ← ASCIIToUTF16 switch_key;
  let prefix_length := GetSwitchPrefixLength combined_switch_string in
  key ← substr switch_key prefix_length npos;
  let combined_switch_string :=
    if prefix_length =? 0 then default [] (kSwitchPrefixes !! 0%nat) ++ combined_switch_string
    else combined_switch_string in
  let combined_switch_string :=
    if bool_decide (value = []) then combined_switch_string
    else combined_switch_string ++ kSwitchValueSeparator ++ value in
  argv ← insert_at (argv_ cl) (begin_args_ cl) combined_switch_string;
  Some (CommandLine_ argv (<[key := value]> (switches_ cl)) (S (begin_args_ cl))).

Definition AppendSwitch (cl : CommandLine) (switch_string : list Z) : option CommandLine :=
  AppendSwitchNative cl switch_string [].

Definition AppendSwitchASCII (cl : CommandLine) (switch_string value_string : list Z) : option CommandLine :=
  value ← ASCIIToUTF16 value_string; AppendSwitchNative cl switch_string value.

Definition AppendSwitchPath (cl : CommandLine) (switch_string path : list Z) : option CommandLine :=
  AppendSwitchNative cl switch_string path.

Definition AppendArgNative (cl : CommandLine) (value : list Z) : CommandLine :=
  CommandLine_ (argv_ cl ++ [value]) (switches_ cl) (begin_args_ cl).

Definition AppendArgPath (cl : CommandLine) (path : list Z) : CommandLine := AppendArgNative cl path.

(** [UTF8ToWide] is [UTF8ToUTF16] on Windows; its test for ASCII reads words of [W] bytes
    from the string's address. *)
Definition AppendArg (W addr : Z) (cl : CommandLine) (value : list Z) : option CommandLine :=
  valid ← IsStringUTF8 value;
  guard (valid = true);;
  wide ← UTF8ToUTF16 W addr value;
  Some (AppendArgNative cl wide).

Fixpoint CopySwitchesFrom (cl source : CommandLine) (switches : list (list Z)) : option CommandLine :=
  match switches with
  | [] => Some cl
  | s :: switches =>
      cl ← (if HasSwitch source s then AppendSwitchNative cl s (GetSwitchValueNative source s) else Some cl);
      CopySwitchesFrom cl source switches
  end.

Definition GetArgs (cl : CommandLine) : option (list (list Z)) :=
  guard (begin_args_ cl <= length (argv_ cl))%nat;;
  let args := drop (begin_args_ cl) (argv_ cl) in
  Some (match list_find (fun a => a = kSwitchTerminator) args with
        | Some (i, _) => take i args ++ drop (S i) args
        | None => args
        end).

(** ** Words from outside *)

(** The words after the first. *)
Fixpoint append_words (cl : CommandLine) (words : list (list Z)) (parse_switches : bool) : option CommandLine :=
  match words with
  | [] => Some cl
  | word :: words =>
      arg ← trim_wide word;
      let parse_switches := parse_switches && negb (bool_decide (arg = kSwitchTerminator)) in
      is_switch ← (if parse_switches then IsSwitch arg else Some None);
      cl ← match is_switch with
           | Some (switch_string, switch_value) =>
               s ← UTF16ToASCII switch_string; AppendSwitchNative cl s switch_value
           | None => Some (AppendArgNative cl arg)
           end;
      append_words cl words parse_switches
  end.

Definition AppendSwitchesAndArguments (cl : CommandLine) (argv : list (list Z)) : option CommandLine :=
  append_words cl (tail argv) true.

Definition InitFromArgv (cl : CommandLine) (argv : list (list Z)) : option CommandLine :=
  program ← match argv with [] => Some [] | p :: _ => FilePath p end;
  cl ← SetProgram new_CommandLine program;
  AppendSwitchesAndArguments cl argv.

Definition AppendArguments (cl other : CommandLine) (include_program : bool) : option CommandLine :=
  cl ← (if include_program then program ← GetProgram other; SetProgram cl program else Some cl);
  AppendSwitchesAndArguments cl (argv_ other).

Definition PrependWrapper (cl : CommandLine) (wrapper : list Z) : option CommandLine :=
  if bool_decide (wrapper = []) then Some cl
  else
    wrapper_argv ← SplitString trim_wide wrapper 32;
    Some (CommandLine_ (wrapper_argv ++ argv_ cl) (switches_ cl) (begin_args_ cl + length wrapper_argv)).

(** [CommandLineToArgvW] is the system's; [None] is its failure. *)
Definition ParseFromString (CommandLineToArgvW : list Z -> option (list (list Z)))
    (cl : CommandLine) (command_line : list Z) : option CommandLine :=
  command_line_string ← trim_wide command_line;
  if bool_decide (command_line_string = []) then Some cl
  else args ← CommandLineToArgvW (c_string command_line_string); InitFromArgv cl args.

Definition FromString (CommandLineToArgvW : list Z -> option (list (list Z))) (command_line : list Z)
    : option CommandLine :=
  ParseFromString CommandLineToArgvW new_CommandLine command_line.

(** ** Words into text *)

(** [for (; end < arg.size() && arg[end] == '\\'; ++end)]. *)
Fixpoint backslashes (s : list Z) : nat :=
  match s with 92 :: s => S (backslashes s) | _ => O end.

Fixpoint quote_loop (fuel : nat) (arg : list Z) (i : nat) (out : list Z) : option (list Z) :=
  match fuel with
  | O => None
  | S fuel =>
      match arg !! i with
      | None => Some out
      | Some c =>
          if c =? 92 then
            let end_ := (S i + backslashes (drop (S i) arg))%nat in
            let backslash_count := (end_ - i)%nat in
            let backslash_count :=
              if bool_decide (end_ = length arg) || bool_decide (arg !! end_ = Some 34)
              then (backslash_count * 2)%nat else backslash_count in
            quote_loop fuel arg end_ (out ++ replicate backslash_count 92)
          else if c =? 34 then quote_loop fuel arg (S i) (out ++ [92; 34])
          else quote_loop fuel arg (S i) (out ++ [c])
      end
  end.

Definition QuoteForCommandLineToArgvW (arg : list Z) (quote_placeholders : bool) : option (list Z) :=
  let quotable_chars := [32; 92; 34] ++ if quote_placeholders then [37] else [] in
  if find_first_of arg quotable_chars 0 =? npos then Some arg
  else out ← quote_loop (S (length arg)) arg 0 [34]; Some (out ++ [34]).

(** The text of one word, and whether switches are still looked for. *)
Definition word_text (arg : list Z) (quote_placeholders parse_switches : bool) : option (list Z * bool) :=
  let parse_switches := parse_switches && negb (bool_decide (arg = kSwitchTerminator)) in
  is_switch ← (if parse_switches then IsSwitch arg else Some None);
  text ← match is_switch with
         | Some (switch_string, switch_value) =>
             if bool_decide (switch_value = []) then Some switch_string
             else
               value ← QuoteForCommandLineToArgvW switch_value quote_placeholders;
               Some (switch_string ++ kSwitchValueSeparator ++ value)
         | None => QuoteForCommandLineToArgvW arg quote_placeholders
         end;
  Some (text, parse_switches).

(** The words from the second on; [first] is [i == 1]. *)
Fixpoint words_text (words : list (list Z)) (quote_placeholders parse_switches first : bool) (params : list Z)
    : option (list Z) :=
  match words with
  | [] => Some params
  | arg :: words =>
      '(text, parse_switches) ← word_text arg quote_placeholders parse_switches;
      words_text words quote_placeholders parse_switches false
        ((if first : bool then params else params ++ [32]) ++ text)
  end.

Definition GetArgumentsStringInternal (cl : CommandLine) (quote_placeholders : bool) : option (list Z) :=
  words_text (tail (argv_ cl)) quote_placeholders true true [].

Definition GetCommandLineStringInternal (cl : CommandLine) (quote_placeholders : bool) : option (list Z) :=
  program ← argv_ cl !! 0%nat;
  string ← QuoteForCommandLineToArgvW program quote_placeholders;
  params ← GetArgumentsStringInternal cl quote_placeholders;
  Some (if bool_decide (params = []) then string else string ++ [32] ++ params).

Definition GetCommandLineString (cl : CommandLine) : option (list Z) := GetCommandLineStringInternal cl false.

(** ** The process's own *)

(** [current_process_commandline_] is the state. *)
Definition Init (CommandLineToArgvW : list Z -> option (list (list Z))) (GetCommandLineW : list Z)
    (current : option CommandLine) : option (bool * option CommandLine) :=
  match current with
  | Some _ => Some (false, current)
  | None => cl ← ParseFromString CommandLineToArgvW new_CommandLine GetCommandLineW; Some (true, Some cl)
  end.

Definition Reset (current : option CommandLine) : option (option CommandLine) :=
  match current with Some _ => Some None | None => None end.

Definition ForCurrentProcess (current : option CommandLine) : option CommandLine := current.
End CommandLine.
