(* ===== verification/CommandLineProps.v ===== *)
(** * Command lines: what is quoted is read again

    The rules that the system documents for [CommandLineToArgvW], as relations between
    text and words; [documented] is a function that follows them, to show that they can
    be followed. Against any function that does, text made of a command line gives that
    command line back. *)
From Stdlib Require Import ZArith Lia.
From stdpp Require Import base gmap option list.
From S2P Require Import Prelude Unicode StdString StringUtil FilePath FilePathProps CommandLine.

Local Open Scope Z_scope.

(** ** The documented rules *)

(** A space or a tab. *)
Definition is_delim (c : Z) : bool := (c =? 32) || (c =? 9).

(** [word_rules quoted text word rest]: from the middle of a word, [text] gives the rest
    of the word and leaves [rest]. Twice as many backslashes before a quote are half as
    many, with one more the quote is taken literally; other backslashes are themselves.
    Two quotes in a row inside a quoted part are left open. *)
Inductive word_rules : bool -> list Z -> list Z -> list Z -> Prop :=
| RuleEnd q : word_rules q [] [] []
| RuleDelim c t : is_delim c = true -> word_rules false (c :: t) [] t
| RuleChar q c t a r :
    c <> 34 -> c <> 92 -> (q = false -> is_delim c = false) -> word_rules q t a r ->
    word_rules q (c :: t) (c :: a) r
| RuleBackslashes q n t a r :
    (0 < n)%nat -> head t <> Some 34 -> head t <> Some 92 -> word_rules q t a r ->
    word_rules q (replicate n 92 ++ t) (replicate n 92 ++ a) r
| RuleQuote q n t a r :
    (q = true -> head t <> Some 34) -> word_rules (negb q) t a r ->
    word_rules q (replicate (n + n) 92 ++ 34 :: t) (replicate n 92 ++ a) r
| RuleEscaped q n t a r :
    word_rules q t a r ->
    word_rules q (replicate (S (n + n)) 92 ++ 34 :: t) (replicate n 92 ++ 34 :: a) r.

Definition delims (t : list Z) : Prop := Forall (fun c => is_delim c = true) t.

Inductive words_rules : list Z -> list (list Z) -> Prop :=
| NoWords t : delims t -> words_rules t []
| OneWord ds c t a r ws :
    delims ds -> is_delim c = false -> word_rules false (c :: t) a r -> words_rules r ws ->
    words_rules (ds ++ c :: t) (a :: ws).

(** The text after a word: nothing, or a delimiter and what follows it. *)
Definition ends (rest r : list Z) : Prop := rest = [] /\ r = [] \/ exists c, is_delim c = true /\ rest = c :: r.

(** The program's name has no escapes. *)
Inductive command_rules : list Z -> list (list Z) -> Prop :=
| ProgramQuoted p rest r ws :
    no (is_char 34) p -> ends rest r -> words_rules r ws -> command_rules (34 :: p ++ 34 :: rest) (p :: ws)
| ProgramPlain p rest r ws :
    p <> [] -> no (is_char 34) p -> no is_delim p -> ends rest r -> words_rules r ws ->
    command_rules (p ++ rest) (p :: ws).

(** ** A function that follows them *)

(** [n] backslashes have been seen. *)
Fixpoint scan_word (n : nat) (q : bool) (t : list Z) : list Z * list Z :=
  match t with
  | [] => (replicate n 92, [])
  | c :: t =>
      if c =? 92 then scan_word (S n) q t
      else if c =? 34 then
        if Nat.even n then let '(a, r) := scan_word 0 (negb q) t in (replicate (Nat.div2 n) 92 ++ a, r)
        else let '(a, r) := scan_word 0 q t in (replicate (Nat.div2 n) 92 ++ 34 :: a, r)
      else if negb q && is_delim c then (replicate n 92, t)
      else let '(a, r) := scan_word 0 q t in (replicate n 92 ++ c :: a, r)
  end.

Fixpoint scan_words (fuel : nat) (t : list Z) : list (list Z) :=
  match fuel with
  | O => []
  | S fuel =>
      match t with
      | [] => []
      | c :: t' =>
          if is_delim c then scan_words fuel t'
          else let '(a, r) := scan_word 0 false t in a :: scan_words fuel r
      end
  end.

Definition documented (text : list Z) : option (list (list Z)) :=
  let quoted := bool_decide (head text = Some 34) in
  let t := if quoted then tail text else text in
  match pieces (if quoted then is_char 34 else is_delim) t with
  | p :: _ =>
      let rest := drop (length p + if quoted then 1 else 0) t in
      Some (p :: scan_words (length text) (tail rest))
  | [] => None
  end.

Lemma scan_backslashes m n q t : scan_word m q (replicate n 92 ++ t) = scan_word (m + n) q t.
Proof.
  revert m. induction n as [|n IH]; intros m; simpl; [by rewrite Nat.add_0_r|].
  rewrite IH. f_equal. lia.
Qed.

Lemma even_double n : Nat.even (n + n) = true.
Proof. apply Nat.even_spec. exists n. lia. Qed.

Lemma div2_double n : Nat.div2 (n + n) = n.
Proof. rewrite Nat.div2_div. symmetry. apply Nat.div_unique with 0%nat; lia. Qed.

Lemma div2_succ_double n : Nat.div2 (S (n + n)) = n.
Proof. rewrite Nat.div2_div. symmetry. apply Nat.div_unique with 1%nat; lia. Qed.

Lemma scan_word_sound q t a r : word_rules q t a r -> scan_word 0 q t = (a, r).
Proof.
  induction 1 as [q|c t Hc|q c t a r H1 H2 Hq _ IH|q n t a r Hn H1 H2 _ IH|q n t a r Hq _ IH|q n t a r _ IH].
  - done.
  - simpl. rewrite Hc. destruct (Z.eqb_spec c 92) as [->|]; [done|]. by destruct (Z.eqb_spec c 34) as [->|].
  - simpl. rewrite (proj2 (Z.eqb_neq c 92) H2), (proj2 (Z.eqb_neq c 34) H1), IH.
    destruct q; [done|]. by rewrite Hq.
  - rewrite scan_backslashes. simpl plus. destruct t as [|c t]; simpl in *.
    + injection IH as <- <-. by rewrite app_nil_r.
    + rewrite (proj2 (Z.eqb_neq c 92)) in * by congruence. rewrite (proj2 (Z.eqb_neq c 34)) in * by congruence.
      destruct (negb q && is_delim c); [injection IH as <- <-; by rewrite app_nil_r|].
      destruct (scan_word 0 q t). by injection IH as <- <-.
  - rewrite scan_backslashes. simpl. by rewrite IH, even_double, div2_double.
  - rewrite scan_backslashes. cbn [plus scan_word]. change (34 =? 92) with false. change (34 =? 34) with true.
    cbv iota. by rewrite Nat.even_succ, <- Nat.negb_even, even_double, div2_succ_double, IH.
Qed.

Lemma word_rules_shorter q t a r : word_rules q t a r -> (length r <= length t)%nat.
Proof. induction 1; simpl in *; rewrite ?length_app, ?length_replicate in *; simpl in *; lia. Qed.

Lemma word_rules_less t a r :
  word_rules false t a r -> t <> [] -> (length r < length t)%nat.
Proof.
  inversion 1 as [| |? ? ? ? ? ? ? ? H0|? ? ? ? ? ? ? ? H0|? ? ? ? ? ? H0|? ? ? ? ? H0]; subst; simpl; intros Hne;
    try done; try lia; apply word_rules_shorter in H0; rewrite ?length_app, ?length_replicate; simpl; lia.
Qed.

Lemma scan_words_sound t ws : words_rules t ws -> forall fuel, (length t <= fuel)%nat -> scan_words fuel t = ws.
Proof.
  induction 1 as [t Ht|ds c t a r ws Hds Hc Hw _ IH].
  - induction Ht as [|c t Hc Ht IH]; intros fuel Hf; (destruct fuel; [by (done || (simpl in Hf; lia))|]); simpl; [done|].
    rewrite Hc. apply IH. simpl in Hf. lia.
  - induction Hds as [|d ds Hd Hds IHd]; intros fuel Hf; (destruct fuel as [|fuel]; [simpl in Hf; lia|]); simpl app.
    + cbn [scan_words]. rewrite Hc. pose proof (scan_word_sound _ _ _ _ Hw) as ->. f_equal. apply IH.
      apply word_rules_less in Hw; [|done]. simpl in Hw, Hf. lia.
    + cbn [scan_words]. rewrite Hd. apply IHd. simpl in Hf. lia.
Qed.

Lemma ends_tail rest r : ends rest r -> tail rest = r /\ (length r <= length rest)%nat.
Proof. intros [[-> ->]|(c & _ & ->)]; simpl; split; (done || lia). Qed.

Lemma documented_sound text ws : command_rules text ws -> documented text = Some ws.
Proof.
  intros H. unfold documented. destruct H as [p rest r ws Hp He Hw|p rest r ws Hne Hp Hd He Hw];
    destruct (ends_tail _ _ He) as [Et El].
  - change (bool_decide (head (34 :: p ++ 34 :: rest) = Some 34)) with true. cbv iota zeta. cbn [tail].
    rewrite (pieces_sep _ p 34 rest Hp eq_refl).
    rewrite <- drop_drop, drop_app_length. cbn [drop]. rewrite drop_0, Et. do 2 f_equal.
    apply scan_words_sound; [done|]. simpl. rewrite length_app. simpl. lia.
  - destruct p as [|c p]; [done|]. rewrite bool_decide_eq_false_2.
    2:{ simpl. intros [= ->]. by apply no_cons in Hp as [Hp _]. }
    cbv iota zeta. assert (exists l, pieces is_delim ((c :: p) ++ rest) = (c :: p) :: l) as [l ->].
    { destruct He as [[-> _]|(x & Hx & ->)].
      - rewrite app_nil_r, (pieces_none _ _ Hd). by eexists.
      - rewrite (pieces_sep _ _ _ _ Hd Hx). by eexists. }
    rewrite Nat.add_0_r, drop_app_length, Et. do 2 f_equal.
    apply scan_words_sound; [done|]. rewrite length_app. lia.
Qed.

(** ** Quoting *)

(** How many backslashes a run of [k] becomes in front of [arg]. *)
Definition doubled (arg : list Z) (k : nat) : nat :=
  if bool_decide (arg = []) || bool_decide (head arg = Some 34) then (k + k)%nat else k.

Lemma backslash_run arg :
  exists k a, arg = replicate k 92 ++ a /\ head a <> Some 92 /\ backslashes arg = k.
Proof.
  induction arg as [|c arg IH]; [by exists 0%nat, []|]. destruct (decide (c = 92)) as [->|Hc].
  - destruct IH as (k & a & -> & Ha & E). exists (S k), a. simpl. by rewrite E.
  - exists 0%nat, (c :: arg). split; [done|]. split; [simpl; congruence|].
    simpl. destruct c as [|c|c]; try done. by do 7 (destruct c as [c|c|]; try done).
Qed.

Lemma lookup_next (pre arg : list Z) : (pre ++ arg) !! length pre = head arg.
Proof.
  rewrite lookup_app_r by lia. rewrite Nat.sub_diag. by destruct arg.
Qed.

(** The loop from position [length pre] on: what it writes, followed by a quote that
    ends a word, is read as the rest of the word, also behind backslashes. *)
Lemma quote_loop_exact n : forall arg pre out fuel,
  (length arg <= n)%nat -> (length arg < fuel)%nat -> no (is_char 0) arg ->
  exists e, quote_loop fuel (pre ++ arg) (length pre) out = Some (out ++ e) /\ no (is_char 0) e /\
    forall rest r k, ends rest r -> head arg <> Some 92 \/ k = 0%nat ->
      word_rules true (replicate (doubled arg k) 92 ++ e ++ 34 :: rest) (replicate k 92 ++ arg) r.
Proof.
  induction n as [|n IH]; intros arg pre out fuel Hn Hf Hnul; (destruct fuel as [|fuel]; [lia|]); cbn [quote_loop];
    rewrite lookup_next; (destruct arg as [|c arg]; cbn [head]; [|try (simpl in Hn; lia)]).
  1-2: exists []; rewrite app_nil_r; split; [done|]; split; [constructor|]; intros rest r k He _;
    rewrite app_nil_r; rewrite <- (app_nil_r (replicate k 92)); apply (RuleQuote true k rest [] r);
    [intros _; by destruct He as [[-> _]|(c & Hc & ->)]; [|intros [= ->]]
    |destruct He as [[-> ->]|(c & Hc & ->)]; by constructor].
  apply no_cons in Hnul as Hnul'. destruct Hnul' as [Hc0 Hnul']. simpl in Hn, Hf.
  destruct (Z.eqb_spec c 92) as [->|H92]; [|destruct (Z.eqb_spec c 34) as [->|H34]].
  - (* backslashes *)
    destruct (backslash_run arg) as (j & a & -> & Ha & Ej).
    assert (drop (S (length pre)) (pre ++ 92 :: replicate j 92 ++ a) = replicate j 92 ++ a) as ->.
    { rewrite <- Nat.add_1_r, <- drop_drop, drop_app_length. done. }
    rewrite Ej. rewrite length_app, length_replicate in Hn, Hf. apply no_app in Hnul' as [_ Ha0].
    destruct (IH a (pre ++ replicate (S j) 92) (out ++ replicate (doubled a (S j)) 92) fuel) as (e & E & He0 & Hrules);
      [lia | lia | done|].
    rewrite length_app, length_replicate, <- app_assoc in E.
    exists (replicate (doubled a (S j)) 92 ++ e). split; [|split].
    + replace (S (length pre) + j - length pre)%nat with (S j) by lia.
      replace (S (length pre) + j)%nat with (length pre + S j)%nat by lia. rewrite app_assoc, <- E. do 2 f_equal.
      unfold doubled. assert (forall x, (pre ++ replicate (S j) 92 ++ x) !! (length pre + S j)%nat = head x) as Hl.
      { intros x. pose proof (lookup_next (pre ++ replicate (S j) 92) x) as H.
        by rewrite length_app, length_replicate, <- app_assoc in H. }
      change (92 :: replicate j 92 ++ a) with (replicate (S j) 92 ++ a). rewrite Hl.
      rewrite !length_app, length_replicate. f_equal.
      destruct a as [|x a]; simpl head.
      * rewrite !bool_decide_eq_true_2 by (done || simpl; lia). simpl. lia.
      * rewrite (bool_decide_eq_false_2 (_ = (_ + _)%nat)) by (simpl; lia).
        rewrite (bool_decide_eq_false_2 (x :: a = [])) by done. destruct (_ || _); lia.
    + apply no_app. split; [|done]. by apply Forall_replicate.
    + intros rest r k He [Hk|Hk]; [done|]. subst k. unfold doubled at 1. rewrite Nat.add_0_r.
      destruct (_ || _); simpl replicate at 1; cbn [app]; rewrite <- app_assoc;
        by apply (Hrules rest r (S j) He); left.
  - (* a quote *)
    destruct (IH arg (pre ++ [34]) (out ++ [92; 34]) fuel) as (e & E & He0 & Hrules); [lia | lia | done|].
    rewrite length_app, Nat.add_1_r, <- !app_assoc in E. exists ([92; 34] ++ e). split; [done|].
    split; [by apply no_cons; split; [|apply no_cons]|]. intros rest r k He _. unfold doubled.
    rewrite bool_decide_eq_false_2 by done. rewrite bool_decide_eq_true_2 by done. cbn [orb].
    replace (replicate (k + k) 92 ++ ([92; 34] ++ e) ++ 34 :: rest)
      with (replicate (S (k + k)) 92 ++ 34 :: e ++ 34 :: rest)
      by (rewrite replicate_S_end, <- !app_assoc; done).
    apply RuleEscaped. specialize (Hrules rest r 0%nat He (or_intror eq_refl)). unfold doubled in Hrules.
    by destruct (_ || _) in Hrules.
  - (* another character *)
    destruct (IH arg (pre ++ [c]) (out ++ [c]) fuel) as (e & E & He0 & Hrules); [lia | lia | done|].
    rewrite length_app, Nat.add_1_r, <- !app_assoc in E. exists (c :: e). split; [done|].
    split; [by apply no_cons|]. intros rest r k He _. unfold doubled.
    rewrite (bool_decide_eq_false_2 (c :: arg = [])) by done.
    rewrite (bool_decide_eq_false_2 (head (c :: arg) = _)) by (simpl; congruence). cbn [orb].
    specialize (Hrules rest r 0%nat He (or_intror eq_refl)).
    assert (word_rules true ((c :: e) ++ 34 :: rest) (c :: arg) r) as Hchar.
    { apply RuleChar; [done | done | done |]. unfold doubled in Hrules. by destruct (_ || _) in Hrules. }
    destruct k as [|k]; [done|]. apply RuleBackslashes; [lia | simpl; congruence | simpl; congruence | done].
Qed.

(** Without quotes, and without backslashes at its end, a text is only put in quotes. *)
Lemma quote_loop_plain n : forall arg pre out fuel,
  (length arg <= n)%nat -> (length arg < fuel)%nat -> no (is_char 34) arg -> last arg <> Some 92 ->
  quote_loop fuel (pre ++ arg) (length pre) out = Some (out ++ arg).
Proof.
  induction n as [|n IH]; intros arg pre out fuel Hn Hf Hq Hl; (destruct fuel as [|fuel]; [lia|]); cbn [quote_loop];
    rewrite lookup_next; (destruct arg as [|c arg]; cbn [head]; [by rewrite app_nil_r|]; try (simpl in Hn; lia)).
  apply no_cons in Hq as Hq'. destruct Hq' as [Hc Hq']. simpl in Hn, Hf.
  destruct (Z.eqb_spec c 92) as [->|H92].
  - destruct (backslash_run arg) as (j & a & -> & Ha & Ej).
    assert (drop (S (length pre)) (pre ++ 92 :: replicate j 92 ++ a) = replicate j 92 ++ a) as ->.
    { rewrite <- Nat.add_1_r, <- drop_drop, drop_app_length. done. }
    rewrite Ej. rewrite length_app, length_replicate in Hn, Hf. apply no_app in Hq' as [_ Hqa].
    assert (a <> []) as Hane.
    { intros ->. apply Hl. rewrite app_nil_r. change (92 :: replicate j 92) with (replicate (S j) 92).
      by rewrite replicate_S_end, last_snoc. }
    pose proof (IH a (pre ++ replicate (S j) 92) (out ++ replicate (S j) 92) fuel) as E.
    rewrite length_app, length_replicate, <- !app_assoc in E. simpl replicate in E. cbn [app] in E.
    replace (S (length pre) + j)%nat with (length pre + S j)%nat by lia.
    replace (length pre + S j - length pre)%nat with (S j) by lia.
    rewrite bool_decide_eq_false_2.
    2:{ rewrite length_app. simpl. rewrite length_app, length_replicate. destruct a; [done | simpl; lia]. }
    rewrite bool_decide_eq_false_2.
    2:{ pose proof (lookup_next (pre ++ replicate (S j) 92) a) as H.
        rewrite length_app, length_replicate, <- app_assoc in H. simpl replicate in H. cbn [app] in H. rewrite H.
        destruct a as [|x a]; [done|]. simpl. intros [= ->]. by apply no_cons in Hqa as [Hqa _]. }
    simpl. apply E; [lia | lia | done|]. intros Hla. apply Hl. rewrite app_comm_cons, last_app, Hla. done.
  - rewrite (proj2 (Z.eqb_neq c 34)) by (intros ->; done).
    pose proof (IH arg (pre ++ [c]) (out ++ [c]) fuel) as E. rewrite length_app, Nat.add_1_r, <- !app_assoc in E.
    apply E; [lia | lia | done|]. intros Hla. apply Hl. destruct arg; [done|]. done.
Qed.

(** What a word, or the program, looks like as text. *)
Definition edged (text w : list Z) : Prop := text = w \/ head text = Some 34 /\ last text = Some 34.

Definition readable_word (w : list Z) : Prop := no (is_char 0) w /\ no (is_char 9) w.

Lemma quotable_none w pl :
  no (any_of ([32; 92; 34] ++ if pl : bool then [37] else [])) w -> no (is_char 9) w ->
  no (fun c => is_delim c || (c =? 92) || (c =? 34)) w.
Proof.
  intros H H9. induction H as [|c w Hc H IH]; [constructor|]. apply no_cons in H9 as [H9 H9'].
  constructor; [|by apply IH]. unfold any_of in Hc. rewrite existsb_app in Hc. simpl in Hc.
  apply orb_false_iff in Hc as [Hc _]. rewrite !orb_false_iff in Hc. destruct Hc as (H1 & H2 & H3 & _).
  unfold is_delim. rewrite H1, H2, H3. unfold is_char in H9. by rewrite Z.eqb_sym, H9.
Qed.

Lemma word_rules_raw q w t a r :
  no (fun c => is_delim c || (c =? 92) || (c =? 34)) w -> word_rules q t a r -> word_rules q (w ++ t) (w ++ a) r.
Proof.
  intros Hw H. induction Hw as [|c w Hc Hw IH]; [done|]. rewrite !orb_false_iff in Hc.
  destruct Hc as [[Hd H92] H34]. simpl. apply RuleChar; [by apply Z.eqb_neq | by apply Z.eqb_neq | done | done].
Qed.

Lemma word_rules_end rest r : ends rest r -> word_rules false rest [] r.
Proof. intros [[-> ->]|(c & Hc & ->)]; by constructor. Qed.

Lemma quote_exact w pl :
  readable_word w ->
  exists text, QuoteForCommandLineToArgvW w pl = Some text /\ no (is_char 0) text /\ edged text w /\
    (w <> [] -> text <> []) /\
    forall rest r, ends rest r -> word_rules false (text ++ rest) w r.
Proof.
  intros [H0 H9]. unfold QuoteForCommandLineToArgvW, find_first_of.
  destruct (first_split (any_of ([32; 92; 34] ++ if pl then [37] else [])) w) as [H|(a & c & b & E & Ha & Hc)].
  - rewrite (find_none _ _ H), Z.eqb_refl. exists w. do 2 (split; [done|]). split; [by left|]. split; [done|].
    intros rest r He. pose proof (quotable_none _ _ H H9) as Hq.
    pose proof (word_rules_raw false w rest [] r Hq (word_rules_end _ _ He)) as Hr. by rewrite app_nil_r in Hr.
  - assert (find_if (any_of ([32; 92; 34] ++ if pl then [37] else [])) w 0 = len a) as ->
      by (rewrite E; by apply find_some).
    rewrite (proj2 (Z.eqb_neq _ npos)) by (pose proof (len_nonneg a); unfold npos; lia).
    destruct (quote_loop_exact (length w) w [] [34] (S (length w)) ltac:(lia) ltac:(lia) H0) as (e & Eq & He0 & Hrules).
    simpl app in Eq. simpl length in Eq. rewrite Eq. cbn [mbind option_bind].
    exists (34 :: e ++ [34]). split; [done|]. split; [apply no_cons; split; [done|]; apply no_app; split; [done | by repeat constructor]|].
    split; [right; split; [done | by rewrite app_comm_cons, last_snoc]|]. split; [done|]. intros rest r He.
    specialize (Hrules rest r 0%nat He (or_intror eq_refl)).
    apply (RuleQuote false 0 ((e ++ [34]) ++ rest) w r); [done|]. rewrite <- app_assoc.
    unfold doubled in Hrules. by destruct (_ || _) in Hrules.
Qed.

(** A program's name: no quotes, and no backslash at the end. *)
Lemma quote_program_exact p pl :
  readable_word p -> p <> [] -> no (is_char 34) p -> last p <> Some 92 ->
  exists text, QuoteForCommandLineToArgvW p pl = Some text /\ no (is_char 0) text /\ edged text p /\ text <> [] /\
    forall rest r ws, ends rest r -> words_rules r ws -> command_rules (text ++ rest) (p :: ws).
Proof.
  intros [H0 H9] Hne Hq Hl. unfold QuoteForCommandLineToArgvW, find_first_of.
  destruct (first_split (any_of ([32; 92; 34] ++ if pl then [37] else [])) p) as [H|(a & c & b & E & Ha & Hc)].
  - rewrite (find_none _ _ H), Z.eqb_refl. exists p. do 2 (split; [done|]). split; [by left|]. split; [done|].
    intros rest r ws He Hws. apply (ProgramPlain p rest r ws); [done | done | | done | done].
    eapply Forall_impl; [exact (quotable_none _ _ H H9)|]. intros x Hx. rewrite !orb_false_iff in Hx. tauto.
  - assert (find_if (any_of ([32; 92; 34] ++ if pl then [37] else [])) p 0 = len a) as ->
      by (rewrite E; by apply find_some).
    rewrite (proj2 (Z.eqb_neq _ npos)) by (pose proof (len_nonneg a); unfold npos; lia).
    pose proof (quote_loop_plain (length p) p [] [34] (S (length p)) ltac:(lia) ltac:(lia) Hq Hl) as Eq.
    simpl app in Eq. simpl length in Eq. rewrite Eq. cbn [mbind option_bind].
    exists (34 :: p ++ [34]). split; [done|]. split; [apply no_cons; split; [done|]; apply no_app; split; [done | by repeat constructor]|].
    split; [right; split; [done | by rewrite app_comm_cons, last_snoc]|]. split; [done|]. intros rest r ws He Hws.
    replace ((34 :: p ++ [34]) ++ rest) with (34 :: p ++ 34 :: rest) by (cbn [app]; by rewrite <- app_assoc).
    by apply (ProgramQuoted p rest r ws).
Qed.

(** ** Switches *)

Definition blank (c : Z) : bool := any_of kWhitespaceUTF16 c.

(** Characters that a switch's name may not have; the last is the NUL. *)
Definition bad_in_key (c : Z) : bool := blank c || any_of [92; 34; 61; 0] c.

Record key_ok (k : list Z) : Prop := {
  key_not_empty : k <> [];
  key_ascii : is_ascii k = true;
  key_chars : no bad_in_key k;
  key_no_prefix : head k <> Some 45 /\ head k <> Some 47;
}.

Definition value_ok (v : list Z) : Prop := readable_word v /\ forall c, last v = Some c -> blank c = false.

Definition word_ok (w : list Z) : Prop := w <> [] /\ trimmed kWhitespaceUTF16 w /\ readable_word w.

Definition switch_word (kv : list Z * list Z) : list Z :=
  [45; 45] ++ LowerASCIIOnWindows kv.1 ++ (if bool_decide (kv.2 = []) then [] else kSwitchValueSeparator ++ kv.2).

Lemma lower_cases c : ToLowerASCII c = c \/ (65 <= c <= 90 /\ ToLowerASCII c = c + 32).
Proof. unfold ToLowerASCII. destruct (Z.leb_spec 65 c), (Z.leb_spec c 90); simpl; (by left) || (right; lia). Qed.

Lemma lower_letters (p : Z -> bool) c :
  forallb (fun i => negb (p i)) (seqZ 97 26) = true -> p c = false -> p (ToLowerASCII c) = false.
Proof.
  intros H Hc. destruct (lower_cases c) as [->|[Hr ->]]; [done|].
  rewrite forallb_forall in H. apply negb_true_iff, H, list_elem_of_In, elem_of_seqZ. lia.
Qed.

Lemma lower_no p s :
  forallb (fun i => negb (p i)) (seqZ 97 26) = true -> no p s -> no p (LowerASCIIOnWindows s).
Proof. intros H Hs. unfold LowerASCIIOnWindows, StringToLowerASCII, no. rewrite Forall_fmap.
  eapply Forall_impl; [exact Hs|]. intros c Hc. by apply lower_letters. Qed.

Lemma lower_idempotent s : LowerASCIIOnWindows (LowerASCIIOnWindows s) = LowerASCIIOnWindows s.
Proof.
  unfold LowerASCIIOnWindows, StringToLowerASCII. rewrite <- list_fmap_compose. apply list_fmap_ext.
  intros _ c _. simpl. destruct (lower_cases c) as [E|[Hr E]]; rewrite E; [exact E|].
  destruct (lower_cases (c + 32)) as [->|[Hr' _]]; [done | lia].
Qed.

Lemma lower_ascii s : is_ascii s = true -> is_ascii (LowerASCIIOnWindows s) = true.
Proof.
  unfold is_ascii, LowerASCIIOnWindows, StringToLowerASCII. rewrite !forallb_forall. intros H x Hx.
  apply list_elem_of_In, list_elem_of_fmap in Hx as (c & -> & Hc). apply list_elem_of_In, H, Z.ltb_lt in Hc.
  apply Z.ltb_lt. destruct (lower_cases c) as [->|[Hr ->]]; lia.
Qed.

Lemma lower_head k c :
  key_ok k -> head (LowerASCIIOnWindows k) = Some c -> c <> 45 /\ c <> 47.
Proof.
  intros [_ _ _ [H1 H2]]. destruct k as [|x k]; [done|]. simpl in *. intros [= <-].
  destruct (lower_cases x) as [->|[Hr ->]]; [split; congruence | split; lia].
Qed.

Lemma lower_not_empty k : k <> [] -> LowerASCIIOnWindows k <> [].
Proof. by destruct k. Qed.

Section RoundTrip.
Context (n : nat) (n_pos : (0 < n)%nat).

Lemma prefixes_start : exists l, take n kSwitchPrefixes = [45; 45] :: l /\ (l = [] \/ l = [[45]] \/ l = [[45]; [47]]).
Proof.
  destruct n as [|[|[|m]]]; [lia | exists []; by split; [|left] | exists [[45]]; by split; [|right; left]|].
  exists [[45]; [47]]. simpl. rewrite take_nil. by split; [|right; right].
Qed.

Lemma no_prefix_length s :
  (forall c, head s = Some c -> c <> 45 /\ c <> 47) -> GetSwitchPrefixLength n s = 0.
Proof.
  intros H. unfold GetSwitchPrefixLength. destruct (list_find _ _) as [[i p]|] eqn:E; [exfalso|done].
  apply list_find_Some in E as (Hi & Hc & _). apply bool_decide_eq_true in Hc.
  destruct prefixes_start as (l & El & Hl). rewrite El in Hi.
  destruct s as [|c s].
  { destruct i as [|i]; simpl in Hi, Hc; [injection Hi as <-; done|].
    destruct Hl as [->|[->| ->]]; destruct i as [|[|i]]; simpl in Hi; try done; injection Hi as <-; done. }
  destruct (H c eq_refl) as [H1 H2]. destruct i as [|i]; simpl in Hi; [injection Hi as <-; simpl in Hc; congruence|].
  destruct Hl as [->|[->| ->]]; destruct i as [|[|i]]; simpl in Hi; try done; injection Hi as <-; simpl in Hc; congruence.
Qed.

Lemma dashes_length s : GetSwitchPrefixLength n ([45; 45] ++ s) = 2.
Proof.
  unfold GetSwitchPrefixLength. destruct prefixes_start as (l & -> & _). cbn [list_find].
  rewrite decide_True; [done|]. unfold compare_prefix. by apply bool_decide_eq_true.
Qed.

Lemma first_sub_char c i s : first_sub [c] i s = first_index (is_char c) i s.
Proof.
  revert i. induction s as [|x s IH]; intros i; [done|]. cbn [first_sub first_index]. unfold starts. simpl take.
  unfold is_char at 1. destruct (Z.eqb_spec c x) as [->|Hne].
  - by rewrite bool_decide_eq_true_2.
  - rewrite bool_decide_eq_false_2 by congruence. apply IH.
Qed.

Lemma find_sub_char c s : find_sub s [c] 0 = find_if (is_char c) s 0.
Proof.
  unfold find_sub, find_if. change (0 =? npos) with false.
  rewrite (proj2 (Z.ltb_ge (len s) 0)) by apply len_nonneg. cbn [orb]. apply first_sub_char.
Qed.

Lemma IsSwitch_word kv : key_ok kv.1 -> IsSwitch n (switch_word kv) = Some (Some ([45; 45] ++ LowerASCIIOnWindows kv.1, kv.2)).
Proof.
  destruct kv as [k v]. simpl fst. simpl snd. intros Hk. unfold IsSwitch, switch_word. simpl fst. simpl snd.
  rewrite dashes_length. pose proof (lower_not_empty _ (key_not_empty _ Hk)) as Hne.
  pose proof (len_pos _ Hne). change (2 =? 0) with false. cbn [orb].
  rewrite (proj2 (Z.eqb_neq 2 _)).
  2:{ rewrite !len_app. change (len [45; 45]) with 2. pose proof (len_nonneg (if bool_decide (v = []) then [] else [61] ++ v)).
      unfold kSwitchValueSeparator in *. lia. }
  change kSwitchValueSeparator with [61]. rewrite find_sub_char.
  assert (no (is_char 61) ([45; 45] ++ LowerASCIIOnWindows k)) as Heq.
  { apply no_app. split; [by repeat constructor|].
    assert (no bad_in_key (LowerASCIIOnWindows k)) as Hb by (apply lower_no; [done | apply Hk]).
    eapply Forall_impl; [exact Hb|]. intros c Hc. simpl in Hc. apply not_true_iff_false. intros ->%is_char_eq. done. }
  case_bool_decide as Hv.
  - subst v. rewrite app_nil_r, (find_none _ _ Heq). rewrite substr_whole by (by left). done.
  - rewrite app_assoc. change ([61] ++ v) with (61 :: v). rewrite (find_some _ _ 61 v Heq eq_refl).
    rewrite (proj2 (Z.eqb_neq _ npos)) by (pose proof (len_nonneg ([45; 45] ++ LowerASCIIOnWindows k)); unfold npos; lia).
    rewrite substr_head. cbn [mbind option_bind].
    set (d := [45; 45] ++ LowerASCIIOnWindows k). replace (len d + 1) with (len (d ++ [61])) by (by rewrite len_app).
    replace (d ++ 61 :: v) with ((d ++ [61]) ++ v) by (by rewrite <- app_assoc). by rewrite substr_tail.
Qed.

(** The text of a word that can be read again. *)
Record good_text (text w : list Z) : Prop := {
  text_no_nul : no (is_char 0) text;
  text_head : exists c, head text = Some c /\ blank c = false;
  text_last : exists c, last text = Some c /\ blank c = false;
  text_rules : forall rest r, ends rest r -> word_rules false (text ++ rest) w r;
}.

Lemma delim_blank c : is_delim c = true -> blank c = true.
Proof. unfold is_delim. rewrite orb_true_iff, !Z.eqb_eq. by intros [-> | ->]. Qed.

Lemma head_some {A} (s : list A) : s <> [] -> exists c, head s = Some c.
Proof. destruct s; [done | by eexists]. Qed.

Lemma last_some {A} (s : list A) : s <> [] -> exists c, last s = Some c.
Proof. intros H. destruct (exists_last H) as (t & c & ->). exists c. by rewrite last_snoc. Qed.

Lemma edged_good text w :
  edged text w -> text <> [] -> trimmed kWhitespaceUTF16 w ->
  (exists c, head text = Some c /\ blank c = false) /\ (exists c, last text = Some c /\ blank c = false).
Proof.
  intros [->|[H1 H2]] Hne [Hh Hl]; [|split; by exists 34].
  destruct (head_some _ Hne) as [c Hc], (last_some _ Hne) as [d Hd].
  split; [exists c | exists d]; auto.
Qed.

Lemma good_text_word w pl :
  word_ok w -> exists text, QuoteForCommandLineToArgvW w pl = Some text /\ good_text text w.
Proof.
  intros (Hne & Ht & Hr). destruct (quote_exact w pl Hr) as (text & E & H0 & He & Hn & Hrules).
  exists text. split; [done|]. destruct (edged_good _ _ He (Hn Hne) Ht) as [Hh Hl]. by constructor.
Qed.

Lemma key_raw k :
  key_ok k -> no (fun c => is_delim c || (c =? 92) || (c =? 34)) ([45; 45] ++ LowerASCIIOnWindows k) /\
  no (is_char 0) ([45; 45] ++ LowerASCIIOnWindows k) /\
  exists c, last (LowerASCIIOnWindows k) = Some c /\ blank c = false.
Proof.
  intros Hk. assert (no bad_in_key (LowerASCIIOnWindows k)) as Hb by (apply lower_no; [done | apply Hk]).
  split; [|split].
  - apply no_app. split; [by repeat constructor|]. eapply Forall_impl; [exact Hb|]. intros c Hc. simpl in Hc.
    apply orb_false_iff in Hc as [H1 H2]. unfold any_of in H2. simpl in H2. rewrite !orb_false_iff in H2.
    destruct H2 as (H2 & H3 & _). rewrite H2, H3, !orb_false_r. apply not_true_iff_false. intros H%delim_blank. congruence.
  - apply no_app. split; [by repeat constructor|]. eapply Forall_impl; [exact Hb|]. intros c Hc. simpl in Hc.
    apply not_true_iff_false. intros ->%is_char_eq. done.
  - destruct (last_some _ (lower_not_empty _ (key_not_empty _ Hk))) as [c Hc]. exists c. split; [done|].
    destruct (exists_last (lower_not_empty _ (key_not_empty _ Hk))) as (t & d & E).
    rewrite E, last_snoc in Hc. injection Hc as <-. rewrite E in Hb. apply no_app in Hb as [_ Hb].
    apply no_cons in Hb as [Hb _]. by apply orb_false_iff in Hb as [? _].
Qed.

Lemma good_text_switch kv pl :
  key_ok kv.1 -> value_ok kv.2 ->
  exists text, word_text n (switch_word kv) pl true = Some (text, true) /\ good_text text (switch_word kv).
Proof.
  intros Hk [Hr Hl]. unfold word_text. pose proof (IsSwitch_word kv Hk) as Esw.
  destruct (key_raw _ Hk) as (Hraw & H0 & Hlast).
  assert (switch_word kv <> kSwitchTerminator) as Hnt.
  { intros E. rewrite E in Esw. unfold IsSwitch in Esw. change kSwitchTerminator with ([45; 45] ++ []) in Esw.
    rewrite dashes_length in Esw. done. }
  rewrite (bool_decide_eq_false_2 _ Hnt). cbn [negb andb]. rewrite Esw. cbn [mbind option_bind].
  destruct kv as [k v]. simpl fst in *. simpl snd in *. unfold switch_word. simpl fst. simpl snd.
  case_bool_decide as Hv.
  - eexists. split; [done|]. rewrite app_nil_r. constructor; [done | by exists 45 | |].
    + destruct Hlast as (c & Hc & Hbc). exists c. split; [|done]. by rewrite last_app, Hc.
    + intros rest r He. pose proof (word_rules_raw false _ rest [] r Hraw (word_rules_end _ _ He)) as H.
      by rewrite app_nil_r in H.
  - destruct (quote_exact v pl Hr) as (text & -> & H0v & Hedge & Hne & Hrules). cbn [mbind option_bind].
    eexists. split; [done|]. rewrite (app_assoc [45; 45]). constructor.
    + apply no_app. split; [done|]. apply no_cons. by split.
    + by exists 45.
    + assert (exists c, last text = Some c /\ blank c = false) as (c & Hc & Hbc).
      { destruct Hedge as [->|[_ H]]; [|by exists 34]. destruct (last_some _ Hv) as [c Hc]. exists c. auto. }
      exists c. split; [|done]. by rewrite last_app, last_app, Hc.
    + intros rest r He. rewrite <- app_assoc. apply word_rules_raw; [done|]. simpl.
      apply RuleChar; [done | done | done | by apply Hrules].
Qed.

(** The words of a command line that keeps its meaning: the switches and the arguments,
    none of which may look like a switch unless a terminator came before. *)
Fixpoint args_ok (parse_switches : bool) (args : list (list Z)) : Prop :=
  match args with
  | [] => True
  | a :: args =>
      let parse_switches := parse_switches && negb (bool_decide (a = kSwitchTerminator)) in
      word_ok a /\ (parse_switches = true -> IsSwitch n a = Some None) /\ args_ok parse_switches args
  end.

Fixpoint words_ok (parse_switches : bool) (ws : list (list Z)) : Prop :=
  match ws with
  | [] => True
  | w :: ws =>
      exists parse_switches',
        (forall pl, exists text, word_text n w pl parse_switches = Some (text, parse_switches') /\ good_text text w) /\
        words_ok parse_switches' ws
  end.

Lemma args_words_ok ps args : args_ok ps args -> words_ok ps args.
Proof.
  revert ps. induction args as [|a args IH]; intros ps; [done|]. simpl. intros (Hw & Hs & Ha).
  exists (ps && negb (bool_decide (a = kSwitchTerminator))). split; [|by apply IH]. intros pl.
  destruct (good_text_word a pl Hw) as (text & E & Hg). exists text. split; [|done]. unfold word_text.
  destruct (ps && negb _) eqn:Eps; [rewrite (Hs eq_refl)|]; cbn [mbind option_bind]; by rewrite E.
Qed.

Definition switches_ok (sws : list (list Z * list Z)) : Prop := Forall (fun kv => key_ok kv.1 /\ value_ok kv.2) sws.

Lemma all_words_ok sws args : switches_ok sws -> args_ok true args -> words_ok true ((switch_word <$> sws) ++ args).
Proof.
  intros H Ha. induction H as [|kv sws [Hk Hv] H IH]; [by apply args_words_ok|].
  exists true. split; [|exact IH]. intros pl. by apply good_text_switch.
Qed.

Lemma words_text_exact pl ws : forall ps params,
  words_ok ps ws ->
  exists t t', words_text n ws pl ps false params = Some (params ++ t) /\ ends t t' /\ words_rules t' ws /\
    no (is_char 0) t /\ (t <> [] -> exists c, last t = Some c /\ blank c = false) /\ (ws = [] <-> t = []).
Proof.
  induction ws as [|w ws IH]; intros ps params H.
  - exists [], []. rewrite app_nil_r. split; [done|]. split; [by left|]. split; [by repeat constructor|].
    split; [constructor|]. done.
  - destruct H as (ps' & Hw & H). destruct (Hw pl) as (text & E & [H0 (c & Hh & Hbc) (d & Hl & Hbd) Hrules]).
    destruct (IH ps' ((params ++ [32]) ++ text) H) as (t & t' & Et & He & Hr & Ht0 & Htl & _).
    exists (32 :: text ++ t), (text ++ t). cbn [words_text]. rewrite E. cbn [mbind option_bind]. rewrite Et.
    split; [by rewrite <- !app_assoc|]. split; [right; by exists 32|]. split; [|split; [|split; [|done]]].
    + specialize (Hrules t t' He). destruct text as [|x text]; [done|]. simpl in Hh. injection Hh as ->.
      apply (OneWord [] c (text ++ t) w t' ws); [constructor | | done | done].
      apply not_true_iff_false. intros Hd%delim_blank. congruence.
    + apply no_cons. split; [done|]. by apply no_app.
    + intros _. destruct t as [|x t]; [rewrite app_nil_r; destruct text; [done | by exists d]|].
      destruct Htl as (e & Hle & Hbe); [done|]. exists e. split; [|done].
      rewrite app_comm_cons, last_app, Hle. done.
Qed.

Lemma words_text_prefix pl ws : forall ps a b,
  words_text n ws pl ps false (a ++ b) = (fun t => a ++ t) <$> words_text n ws pl ps false b.
Proof.
  induction ws as [|w ws IH]; intros ps a b; [done|]. cbn [words_text].
  destruct (word_text n w pl ps) as [[text ps']|]; [|done]. cbn [mbind option_bind].
  by rewrite <- !app_assoc, IH, <- ?app_assoc.
Qed.

(** The words in their place. *)
Definition shaped (p : list Z) (sws : list (list Z * list Z)) (args : list (list Z)) : CommandLine :=
  CommandLine_ (p :: (switch_word <$> sws) ++ args)
    (foldl (fun m kv => <[LowerASCIIOnWindows kv.1 := kv.2]> m) ∅ sws) (S (length sws)).

Definition program_ok (p : list Z) : Prop := word_ok p /\ no (is_char 34) p /\ last p <> Some 92.

Lemma command_text p sws args :
  program_ok p -> switches_ok sws -> args_ok true args ->
  exists text, GetCommandLineString n (shaped p sws args) = Some text /\ no (is_char 0) text /\ text <> [] /\
    trimmed kWhitespaceUTF16 text /\ command_rules text (p :: (switch_word <$> sws) ++ args).
Proof.
  intros ((Hpne & Hpt & Hpr) & Hq & Hbs) Hsw Ha.
  destruct (quote_program_exact p false Hpr Hpne Hq Hbs) as (ptext & Ep & Hp0 & Hedge & Htne & Hprules).
  destruct (edged_good _ _ Hedge Htne Hpt) as [(c & Hh & Hbc) (d & Hl & Hbd)].
  pose proof (all_words_ok _ _ Hsw Ha) as Hw. unfold GetCommandLineString, GetCommandLineStringInternal.
  set (ws := (switch_word <$> sws) ++ args) in *. cbn [argv_ shaped]. change (argv_ (shaped p sws args)) with (p :: ws).
  cbn [lookup list_lookup]. cbn [mbind option_bind]. rewrite Ep. cbn [mbind option_bind].
  unfold GetArgumentsStringInternal. change (tail (argv_ (shaped p sws args))) with ws.
  destruct (words_text_exact false ws true ptext Hw) as (t & t' & Et & He & Hr & Ht0 & Htl & Hnil).
  assert ((params ← words_text n ws false true true [];
           Some (if bool_decide (params = []) then ptext else ptext ++ [32] ++ params)) = Some (ptext ++ t)) as Etext.
  { destruct ws as [|w ws]; [simpl; by rewrite (proj1 Hnil eq_refl), app_nil_r|].
    destruct Hw as (ps' & Hw1 & Hw2). destruct (Hw1 false) as (text & E & [_ (x & Hx & _) _ _]). cbn [words_text] in *.
    rewrite E in Et |- *. cbn [mbind option_bind app] in *.
    destruct (words_text_exact false ws ps' text Hw2) as (u & _ & Eu & _).
    rewrite words_text_prefix, Eu in Et. injection Et as Et. rewrite Eu. cbn [mbind option_bind].
    rewrite bool_decide_eq_false_2 by (by destruct text). by rewrite <- Et, <- app_assoc. }
  exists (ptext ++ t). split; [exact Etext|]. split; [by apply no_app|]. split; [by destruct ptext|].
  split; [|by apply (Hprules t t')]. split.
  - intros x Hx. destruct ptext as [|y ptext]; [done|]. cbn [app head] in *. by assert (x = c) as -> by congruence.
  - intros x. rewrite last_app. destruct t as [|y t].
    + simpl. intros Hx. by assert (x = d) as -> by congruence.
    + destruct Htl as (e & -> & Hbe); [done|]. by intros [= <-].
Qed.

(** ** The operations and the way back *)

Lemma ASCIIToUTF16_ok s : is_ascii s = true -> ASCIIToUTF16 s = Some s.
Proof. intros H. unfold ASCIIToUTF16. rewrite H. done. Qed.

Lemma UTF16ToASCII_ok s : is_ascii s = true -> UTF16ToASCII s = Some s.
Proof. intros H. unfold UTF16ToASCII. rewrite H. done. Qed.

Lemma AppendSwitchNative_exact p words sw b k v :
  key_ok k -> (b <= length (p :: words))%nat ->
  AppendSwitchNative n (CommandLine_ (p :: words) sw b) k v =
  Some (CommandLine_ (take b (p :: words) ++ switch_word (k, v) :: drop b (p :: words))
          (<[LowerASCIIOnWindows k := v]> sw) (S b)).
Proof.
  intros Hk Hb. unfold AppendSwitchNative. rewrite (ASCIIToUTF16_ok _ (lower_ascii _ (key_ascii _ Hk))).
  cbn [mbind option_bind]. rewrite (no_prefix_length _ (fun c => lower_head k c Hk)).
  rewrite substr_whole by (by left). cbn [mbind option_bind argv_ begin_args_ switches_].
  unfold insert_at. rewrite option_guard_True by done. cbn [mbind option_bind]. do 2 f_equal.
  change (0 =? 0) with true. cbv iota. unfold switch_word. simpl fst. simpl snd.
  case_bool_decide; simpl; by rewrite ?app_nil_r.
Qed.

Lemma AppendSwitchNative_again cl k v :
  key_ok k -> AppendSwitchNative n cl ([45; 45] ++ LowerASCIIOnWindows k) v = AppendSwitchNative n cl k v.
Proof.
  intros Hk. unfold AppendSwitchNative.
  assert (LowerASCIIOnWindows ([45; 45] ++ LowerASCIIOnWindows k) = [45; 45] ++ LowerASCIIOnWindows k) as ->.
  { unfold LowerASCIIOnWindows at 1, StringToLowerASCII. rewrite fmap_app.
    change (ToLowerASCII <$> LowerASCIIOnWindows k) with (LowerASCIIOnWindows (LowerASCIIOnWindows k)).
    by rewrite lower_idempotent. }
  pose proof (lower_ascii _ (key_ascii _ Hk)) as Hl. rewrite (ASCIIToUTF16_ok _ Hl).
  rewrite (ASCIIToUTF16_ok ([45; 45] ++ LowerASCIIOnWindows k) Hl). cbn [mbind option_bind]. rewrite dashes_length, (no_prefix_length _ (fun c => lower_head k c Hk)).
  change 2 with (len [45; 45]). rewrite substr_tail, substr_whole by (by left). cbn [mbind option_bind].
  change (len [45; 45] =? 0) with false. change (0 =? 0) with true. done.
Qed.

Lemma insert_switch p sws kv args :
  CommandLine_ (take (S (length sws)) (p :: (switch_word <$> sws) ++ args) ++ switch_word kv ::
                drop (S (length sws)) (p :: (switch_word <$> sws) ++ args))
    (<[LowerASCIIOnWindows kv.1 := kv.2]> (switches_ (shaped p sws args))) (S (S (length sws))) =
  shaped p (sws ++ [kv]) args.
Proof.
  unfold shaped. cbn [switches_ take drop]. rewrite foldl_app, length_app, fmap_app. simpl.
  assert (length (switch_word <$> sws) = length sws) as El by apply length_fmap.
  rewrite <- El at 1 2. rewrite take_app_length, drop_app_length, <- app_assoc, Nat.add_1_r. done.
Qed.

Lemma append_switch_words p args sws2 : forall sws1 words,
  switches_ok sws2 -> args = [] ->
  append_words n (shaped p sws1 args) ((switch_word <$> sws2) ++ words) true =
  append_words n (shaped p (sws1 ++ sws2) args) words true.
Proof.
  induction sws2 as [|kv sws2 IH]; intros sws1 words H Ha; [by rewrite app_nil_r|].
  apply Forall_cons in H as [[Hk Hv] H]. cbn [fmap list_fmap app append_words].
  assert (trim_wide (switch_word kv) = Some (switch_word kv)) as ->.
  { rewrite trim_wide_exact, trim_trimmed; [done|].
    destruct (good_text_switch kv false Hk Hv) as (text & Et & [_ _ _ _]).
    destruct kv as [k v], Hv as [_ Hl]. unfold switch_word. cbn [fst snd] in *. split; [cbn [app head]; by intros c [= <-]|].
    destruct (key_raw k Hk) as (_ & _ & c & Hc & Hbc). intros d. rewrite app_assoc, last_app.
    case_bool_decide as Hve; [cbn [last]; rewrite last_app, Hc; intros [= <-]; exact Hbc|].
    destruct (last_some v Hve) as [e He]. rewrite last_app, He. intros [= <-]. by apply Hl. }
  cbn [mbind option_bind andb]. pose proof (IsSwitch_word kv Hk) as Esw.
  assert (switch_word kv <> kSwitchTerminator) as Hnt.
  { intros E. rewrite E in Esw. unfold IsSwitch in Esw. change kSwitchTerminator with ([45; 45] ++ []) in Esw.
    rewrite dashes_length in Esw. done. }
  rewrite (bool_decide_eq_false_2 _ Hnt). cbn [negb]. rewrite Esw. cbn [mbind option_bind].
  rewrite (UTF16ToASCII_ok ([45; 45] ++ LowerASCIIOnWindows kv.1) (lower_ascii _ (key_ascii _ Hk))).
  cbn [mbind option_bind]. rewrite (AppendSwitchNative_again _ _ _ Hk).
  unfold shaped at 1. rewrite AppendSwitchNative_exact; [|done|].
  2:{ simpl. rewrite length_app, length_fmap. lia. }
  cbn [mbind option_bind]. destruct kv as [k v]. pose proof (insert_switch p sws1 (k, v) args) as E. simpl fst in E.
  simpl snd in E. unfold shaped in E at 1. cbn [switches_] in E. simpl fst. simpl snd. rewrite E.
  rewrite IH by done. by rewrite <- app_assoc.
Qed.

Lemma append_arg_words p sws args2 : forall args1 ps,
  args_ok ps args2 ->
  append_words n (shaped p sws args1) args2 ps = Some (shaped p sws (args1 ++ args2)).
Proof.
  induction args2 as [|a args2 IH]; intros args1 ps H; [by rewrite app_nil_r|].
  destruct H as ((Hne & Ht & _) & Hs & H). cbn [append_words].
  rewrite trim_wide_exact, (trim_trimmed _ _ Ht). cbn [mbind option_bind].
  assert ((if ps && negb (bool_decide (a = kSwitchTerminator)) then IsSwitch n a else Some None) = Some None) as ->
    by (destruct (_ && _); [by apply Hs | done]).
  cbn [mbind option_bind]. change (AppendArgNative (shaped p sws args1) a)
    with (CommandLine_ ((p :: (switch_word <$> sws) ++ args1) ++ [a]) (switches_ (shaped p sws args1)) (S (length sws))).
  assert (CommandLine_ ((p :: (switch_word <$> sws) ++ args1) ++ [a]) (switches_ (shaped p sws args1)) (S (length sws))
    = shaped p sws (args1 ++ [a])) as -> by (unfold shaped; simpl; by rewrite <- app_assoc).
  rewrite IH by done. by rewrite <- app_assoc.
Qed.
End RoundTrip.

(** What a program does to its command line. *)
Inductive Op :=
| Switch (switch_string value : list Z)
| Arg (value : list Z).

Definition apply_op (n : nat) (cl : CommandLine) (op : Op) : option CommandLine :=
  match op with
  | Switch k v => AppendSwitchNative n cl k v
  | Arg a => Some (AppendArgNative cl a)
  end.

Fixpoint apply_ops (n : nat) (ops : list Op) (cl : CommandLine) : option CommandLine :=
  match ops with [] => Some cl | op :: ops => cl ← apply_op n cl op; apply_ops n ops cl end.

Definition switches_of (ops : list Op) : list (list Z * list Z) :=
  omap (fun op => match op with Switch k v => Some (k, v) | Arg _ => None end) ops.
Definition args_of (ops : list Op) : list (list Z) :=
  omap (fun op => match op with Arg a => Some a | Switch _ _ => None end) ops.

Lemma apply_ops_shaped n p ops : (0 < n)%nat -> forall sws args,
  switches_ok (switches_of ops) ->
  apply_ops n ops (shaped p sws args) = Some (shaped p (sws ++ switches_of ops) (args ++ args_of ops)).
Proof.
  intros Hn. induction ops as [|op ops IH]; intros sws args H; cbn [apply_ops]; [by rewrite !app_nil_r|].
  destruct op as [k v|a]; cbn [apply_op].
  - apply Forall_cons in H as [[Hk _] H]. unfold shaped at 1. rewrite (AppendSwitchNative_exact n Hn); [|done|].
    2:{ simpl. rewrite length_app, length_fmap. lia. }
    cbn [mbind option_bind]. pose proof (insert_switch p sws (k, v) args) as E. unfold shaped in E at 1.
    cbn [switches_ fst snd] in E. rewrite E, IH by done. by rewrite <- app_assoc.
  - cbn [mbind option_bind]. assert (AppendArgNative (shaped p sws args) a = shaped p sws (args ++ [a])) as ->
      by (unfold shaped, AppendArgNative; simpl; by rewrite <- app_assoc).
    rewrite IH by done. by rewrite <- app_assoc.
Qed.

(** C33: a command line built with a program, switches and arguments holds the program,
    the words of the switches and the arguments, in that order; the text it is printed
    as has exactly these words by the documented rules of [CommandLineToArgvW]; and any
    [CommandLineToArgvW] that follows them reads the same command line back, words,
    switches and their values alike. The words are not empty, have no tabs, NULs or
    surrounding white space; the names of the switches need no quoting; the arguments
    do not look like switches unless they come after a terminator; the program has no
    quotes and does not end in a backslash. *)
Theorem command_line_round_trip n CommandLineToArgvW program ops :
  (forall text words, command_rules text words -> CommandLineToArgvW text = Some words) ->
  (0 < n)%nat -> program_ok program -> switches_ok (switches_of ops) -> args_ok n true (args_of ops) ->
  exists cl text,
    (CommandLine_for program ≫= apply_ops n ops) = Some cl /\
    argv_ cl = program :: (switch_word <$> switches_of ops) ++ args_of ops /\
    GetCommandLineString n cl = Some text /\ command_rules text (argv_ cl) /\
    FromString n CommandLineToArgvW text = Some cl.
Proof.
  intros Hargv Hn Hp Hs Ha. pose proof Hp as ((_ & Ht & [H0 _]) & _ & _).
  exists (shaped program (switches_of ops) (args_of ops)).
  destruct (command_text n Hn program _ _ Hp Hs Ha) as (text & Et & Hnul & Hne & Htrim & Hrules).
  exists text. assert (CommandLine_for program = Some (shaped program [] [])) as Hfor.
  { unfold CommandLine_for, SetProgram. by rewrite trim_wide_exact, (trim_trimmed _ _ Ht). }
  split; [rewrite Hfor; cbn [mbind option_bind]; by rewrite (apply_ops_shaped n program ops Hn) by done|].
  split; [done|]. split; [done|]. split; [exact Hrules|].
  unfold FromString, ParseFromString. rewrite trim_wide_exact, (trim_trimmed _ _ Htrim).
  cbn [mbind option_bind]. rewrite bool_decide_eq_false_2 by done.
  rewrite (c_string_whole _ Hnul).
  rewrite (Hargv _ _ Hrules). cbn [mbind option_bind]. unfold InitFromArgv. rewrite (FilePath_plain _ H0).
  cbn [mbind option_bind]. fold (CommandLine_for program). rewrite Hfor. cbn [mbind option_bind].
  unfold AppendSwitchesAndArguments. cbn [tail].
  rewrite (append_switch_words n Hn program [] _ [] _ Hs eq_refl). by rewrite (append_arg_words n program _ _ [] true Ha).
Qed.

(** [C:\a b\x.exe], the switch [Dir] with value [c d\], and the arguments [say "hi"], [--]
    and [-z]. *)
Definition sample_program : list Z := [67; 58; 92; 97; 32; 98; 92; 120; 46; 101; 120; 101].
Definition sample_ops : list Op :=
  [Arg [115; 97; 121; 32; 34; 104; 105; 34]; Switch [68; 105; 114] [99; 32; 100; 92]; Arg [45; 45]; Arg [45; 122]].

Lemma command_line_round_trip_witness :
  exists cl text,
    (CommandLine_for sample_program ≫= apply_ops 3 sample_ops) = Some cl /\
    argv_ cl = sample_program :: (switch_word <$> switches_of sample_ops) ++ args_of sample_ops /\
    GetCommandLineString 3 cl = Some text /\ command_rules text (argv_ cl) /\ FromString 3 documented text = Some cl /\
    GetSwitchValueNative cl [100; 105; 114] = [99; 32; 100; 92].
Proof.
  destruct (command_line_round_trip 3 documented sample_program sample_ops) as (cl & text & H1 & H2).
  - apply documented_sound.
  - lia.
  - split; [|split; [by repeat constructor | done]]. split; [done|].
    split; [split; simpl; by intros c [= <-]|]. split; by repeat constructor.
  - repeat constructor; simpl; try done; try (by repeat constructor). by intros c [= <-].
  - simpl. repeat split; try done; try (by repeat constructor); simpl; by intros c [= <-].
  - exists cl, text. split; [done|]. destruct H2 as (Hw & Ht & Hr & H3).
    do 4 (split; [done|]). vm_compute in H1. injection H1 as <-. reflexivity.
Defined.

(** The limits are real. An empty argument leaves no text, a tab is not quoted, and the
    backslash that ends a quoted program is doubled for good. *)
Example empty_argument_is_lost :
  (cl ← CommandLine_for [120]; text ← GetCommandLineString 3 (AppendArgNative cl []);
   argv_ <$> FromString 3 documented text) = Some [[120]].
Proof. reflexivity. Qed.

Example tab_splits_an_argument :
  (cl ← CommandLine_for [120]; text ← GetCommandLineString 3 (AppendArgNative cl [97; 9; 98]);
   argv_ <$> FromString 3 documented text) = Some [[120]; [97]; [98]].
Proof. reflexivity. Qed.

Example program_backslash_is_doubled :
  (cl ← CommandLine_for [97; 32; 92]; text ← GetCommandLineString 3 cl;
   argv_ <$> FromString 3 documented text) = Some [[97; 32; 92; 92]].
Proof. reflexivity. Qed.
