(* ===== verification/Version.v ===== *)
(** * Versions ([base/version.cc])

    Parsing, printing and comparing dotted versions, and versions that end in a wildcard.
    [None] is a failed [DCHECK] or an index out of range. *)
From Stdlib Require Import ZArith Lia.
From stdpp Require Import base option list.
From S2P Require Import Prelude Unicode StringNumbers StdString StringUtil.

Local Open Scope Z_scope.

(** ".*" *)
Definition wildcard_suffix : list Z := [46; 42].

Section Version.

(** The C library's functions depend on the locale. *)
Context (tolower : Z -> Z) (isspace : Z -> bool).

(** The loop over the numbers; [parsed] has the components so far, [first] is
    [it == numbers.begin()]. *)
Fixpoint parse_numbers (numbers : list (list Z)) (first : bool) (parsed : list Z) : option (bool * list Z) :=
  match numbers with
  | [] => Some (true, parsed)
  | it :: numbers =>
      if StartsWithASCII tolower it [43] false then Some (false, parsed)
      else
        let '(valid, num) := StringToUint isspace it 0 in
        if negb valid then Some (false, parsed)
        else
          text ← IntToString Int.uint32 num;
          if first && negb (bool_decide (text = it)) then Some (false, parsed)
          else parse_numbers numbers false (parsed ++ [num])
  end.

Definition ParseVersionNumbers (version_str : list Z) : option (bool * list Z) :=
  numbers ← SplitString trim_ascii version_str 46;
  match numbers with [] => Some (false, []) | _ => parse_numbers numbers true [] end.

(** An object is its [components_]. *)
Definition Version (version_str : list Z) : option (list Z) :=
  '(ok, parsed) ← ParseVersionNumbers version_str; Some (if ok : bool then parsed else []).

Definition IsValid (components_ : list Z) : bool := negb (bool_decide (components_ = [])).

Definition ends_in_wildcard (s : list Z) : bool := EndsWith tolower (c_string s) wildcard_suffix false.

Definition IsValidWildcardString (wildcard_string : list Z) : option bool :=
  version_string ← (if ends_in_wildcard wildcard_string
                    then substr wildcard_string 0 (len wildcard_string - 2) else Some wildcard_string);
  version ← Version version_string;
  Some (IsValid version).
End Version.

(** The first loop of [CompareVersionComponents]; the rests when it does not decide. *)
Fixpoint compare_common (components1 components2 : list Z) : Z + (list Z * list Z) :=
  match components1, components2 with
  | c1 :: components1, c2 :: components2 =>
      if c2 <? c1 then inl 1 else if c1 <? c2 then inl (-1) else compare_common components1 components2
  | _, _ => inr (components1, components2)
  end.

Definition CompareVersionComponents (components1 components2 : list Z) : Z :=
  match compare_common components1 components2 with
  | inl r => r
  | inr (rest1, rest2) =>
      if existsb (fun c => 0 <? c) rest1 then 1 else if existsb (fun c => 0 <? c) rest2 then -1 else 0
  end.

Definition CompareTo (components_ other : list Z) : option Z :=
  guard (IsValid components_ = true);;
  guard (IsValid other = true);;
  Some (CompareVersionComponents components_ other).

Definition Equals (components_ that : list Z) : option bool := r ← CompareTo components_ that; Some (r =? 0).

Section Compare.
Context (tolower : Z -> Z) (isspace : Z -> bool).

Definition IsOlderThan (components_ version_str : list Z) : option bool :=
  proposed_ver ← Version tolower isspace version_str;
  if negb (IsValid proposed_ver) then Some false
  else r ← CompareTo components_ proposed_ver; Some (r <? 0).

(** The last loop: whether the common components are the same. *)
Definition same_start (components1 components2 : list Z) : bool :=
  let min_num_comp := Nat.min (length components1) (length components2) in
  bool_decide (take min_num_comp components1 = take min_num_comp components2).

Definition CompareToWildcardString (components_ wildcard_string : list Z) : option Z :=
  guard (IsValid components_ = true);;
  valid ← IsValidWildcardString tolower isspace wildcard_string;
  guard (valid = true);;
  if negb (ends_in_wildcard tolower wildcard_string) then
    version ← Version tolower isspace wildcard_string;
    guard (IsValid version = true);;
    CompareTo components_ version
  else
    text ← substr wildcard_string 0 (len wildcard_string - 2);
    '(success, parsed) ← ParseVersionNumbers tolower isspace text;
    guard (success = true);;
    let comparison := CompareVersionComponents components_ parsed in
    if (comparison =? -1) || (comparison =? 0) then Some comparison
    else
      guard (0 < length parsed)%nat;;
      Some (if same_start components_ parsed then 0 else 1).
End Compare.

(** [IntToString] takes an [int]. *)
Definition component_text (c : Z) : option (list Z) := IntToString Int.int32 (Int.static_cast Int.int32 c).

(** The loop of [GetString] and the component after it. *)
Fixpoint get_string (components : list Z) (version_str : list Z) : option (list Z) :=
  match components with
  | [] => None
  | [c] => text ← component_text c; Some (version_str ++ text)
  | c :: components => text ← component_text c; get_string components (version_str ++ text ++ [46])
  end.

Definition GetString (components_ : list Z) : option (list Z) :=
  guard (IsValid components_ = true);; get_string components_ [].

(** ** Comparing *)

(** Versions stand for sequences of numbers that end in zeros. *)
Fixpoint lex (a b : list Z) : Z :=
  match a, b with
  | x :: a, y :: b => if y <? x then 1 else if x <? y then -1 else lex a b
  | _, _ => 0
  end.

Definition padded (n : nat) (a : list Z) : list Z := a ++ replicate (n - length a) 0.

Definition natural (a : list Z) : Prop := Forall (fun c => 0 <= c) a.

Lemma lex_zeros a n : natural a -> (length a <= n)%nat ->
  lex a (replicate n 0) = if existsb (fun c => 0 <? c) a then 1 else 0.
Proof.
  intros H. revert n. induction H as [|c a Hc H IH]; intros n Hn; [by destruct n|].
  destruct n as [|n]; [simpl in Hn; lia|]. simpl. destruct (Z.ltb_spec 0 c); [done|].
  destruct (Z.ltb_spec c 0); [lia|]. apply IH. simpl in Hn. lia.
Qed.

Lemma lex_antisym a b : lex b a = - lex a b.
Proof.
  revert b. induction a as [|x a IH]; intros [|y b]; simpl; try done.
  destruct (Z.ltb_spec x y), (Z.ltb_spec y x); try lia; done || apply IH.
Qed.

Lemma lex_refl a : lex a a = 0.
Proof. induction a as [|x a IH]; simpl; [done|]. by rewrite Z.ltb_irrefl. Qed.

Lemma lex_app_same p a b : lex (p ++ a) (p ++ b) = lex a b.
Proof. induction p as [|x p IH]; simpl; [done|]. by rewrite Z.ltb_irrefl. Qed.

Lemma lex_values a b : lex a b = -1 \/ lex a b = 0 \/ lex a b = 1.
Proof. revert b. induction a as [|x a IH]; intros [|y b]; simpl; auto. repeat case_match; auto. Qed.

Lemma lex_zero a b : length a = length b -> lex a b = 0 -> a = b.
Proof.
  revert b. induction a as [|x a IH]; intros [|y b]; simpl; try done. intros [= Hl].
  destruct (Z.ltb_spec y x), (Z.ltb_spec x y); try done. intros E. f_equal; [lia | by apply IH].
Qed.

Lemma lex_trans a b c :
  length a = length b -> length b = length c -> lex a b <= 0 -> lex b c <= 0 -> lex a c <= 0.
Proof.
  revert b c. induction a as [|x a IH]; intros [|y b] [|z c]; simpl; try done. intros [= H1] [= H2].
  destruct (Z.ltb_spec y x), (Z.ltb_spec z y), (Z.ltb_spec z x), (Z.ltb_spec x y), (Z.ltb_spec y z), (Z.ltb_spec x z);
    try lia. intros. by apply (IH b c).
Qed.

Lemma padded_length n a : (length a <= n)%nat -> length (padded n a) = n.
Proof. intros H. unfold padded. rewrite length_app, length_replicate. lia. Qed.

Lemma compare_padded n a b :
  natural a -> natural b -> (length a <= n)%nat -> (length b <= n)%nat ->
  CompareVersionComponents a b = lex (padded n a) (padded n b).
Proof.
  unfold CompareVersionComponents. intros Ha. revert n b. induction Ha as [|x a Hx Ha IH]; intros n b Hb Hn Hm.
  - simpl compare_common. cbv iota. unfold padded at 1. simpl. rewrite Nat.sub_0_r.
    rewrite lex_antisym, lex_zeros; [| |by rewrite padded_length].
    + unfold padded. rewrite existsb_app.
      replace (existsb (fun c => 0 <? c) (replicate (n - length b) 0)) with false
        by (induction (n - length b)%nat; done). rewrite orb_false_r. by destruct (existsb _ b).
    + apply Forall_app. split; [done|]. by apply Forall_replicate.
  - destruct Hb as [|y b Hy Hb].
    + simpl compare_common. cbv iota. unfold padded at 2. rewrite app_nil_l, Nat.sub_0_r.
      rewrite lex_zeros; [| |by rewrite padded_length].
      * unfold padded. rewrite existsb_app.
        replace (existsb (fun c => 0 <? c) (replicate (n - length (x :: a)) 0)) with false
          by (induction (n - length (x :: a))%nat; done). rewrite orb_false_r. simpl existsb at 2.
        by destruct (existsb _ (x :: a)).
      * apply Forall_app. split; [by constructor|]. by apply Forall_replicate.
    + destruct n as [|n]; [simpl in Hn; lia|]. simpl in Hn, Hm. cbn [compare_common].
      unfold padded. simpl. destruct (y <? x); [done|]. destruct (x <? y); [done|]. apply IH; (done || lia).
Qed.

(** Versions are ordered as the sequences of their components, with zeros after the
    last: the comparison is a total preorder with values -1, 0 and 1, and two versions
    are equal exactly when they differ in zeros at the end. *)
Theorem versions_are_totally_preordered a b c :
  natural a -> natural b -> natural c ->
  let cmp := CompareVersionComponents in
  cmp b a = - cmp a b /\ -1 <= cmp a b <= 1 /\
  (cmp a b <= 0 -> cmp b c <= 0 -> cmp a c <= 0) /\
  (cmp a b = 0 <-> exists n, padded n a = padded n b /\ length (padded n a) = n).
Proof.
  intros Ha Hb Hc cmp. unfold cmp. set (n := (length a + length b + length c)%nat).
  rewrite (compare_padded n b a), (compare_padded n a b), (compare_padded n b c), (compare_padded n a c)
    by (done || (unfold n; lia)).
  assert (length (padded n a) = n /\ length (padded n b) = n /\ length (padded n c) = n) as (La & Lb & Lc)
    by (repeat split; apply padded_length; unfold n; lia).
  split; [apply lex_antisym|]. split; [destruct (lex_values (padded n a) (padded n b)); lia|].
  split; [by apply lex_trans; congruence|]. split.
  - intros E. exists n. split; [|done]. apply lex_zero; [congruence | done].
  - intros (m & E & Lm). rewrite <- (compare_padded n a b) by (done || (unfold n; lia)).
    assert (length (padded m b) = m) as Lm' by congruence. unfold padded in Lm, Lm'.
    rewrite length_app, length_replicate in Lm, Lm'.
    rewrite (compare_padded m a b) by (done || lia). rewrite E. apply lex_refl.
Qed.

Lemma versions_are_totally_preordered_witness :
  CompareVersionComponents [1; 2] [1; 2; 0] = 0 /\
  CompareVersionComponents [1; 2; 0] [1; 2] = - CompareVersionComponents [1; 2] [1; 2; 0].
Proof.
  destruct (versions_are_totally_preordered [1; 2] [1; 2; 0] [2]) as (H1 & _ & _ & H2);
    [repeat constructor; lia.. |]. split; [|exact H1]. apply H2. exists 3%nat. done.
Defined.

(** ** Printing and parsing back *)

Definition int_component (c : Z) : Prop := 0 <= c < 2 ^ 31.

(** Such a component is an [int]; its text is the one of the [unsigned int]. *)
Lemma component_text_ok c : int_component c ->
  exists text, component_text c = Some text /\ IntToString Int.uint32 c = Some text /\
    decimal text /\ text <> [] /\ digits_value 10 0 text = c.
Proof.
  intros [H0 H1]. assert (Int.in_range Int.int32 c) as H32 by (Int.int_compute; lia).
  assert (Int.in_range Int.uint32 c) as Hu by (Int.int_compute; lia).
  destruct (IntToString_text Int.int32 c) as (ds & E & Hd & Hne & Hv & _); [by left | done |].
  assert (decimal_text c ds = ds) as Et by (unfold decimal_text; by rewrite (proj2 (Z.ltb_ge _ _))).
  rewrite Et in E. exists ds. unfold component_text.
  rewrite (Int.static_cast_id Int.int32 c) by (done || vm_compute; done).
  split_and!; [done | | done | done | by rewrite Hv, Z.abs_eq].
  assert (number_type Int.int32 /\ number_type Int.uint32) as [T32 Tu] by (split; [by left | by right; left]).
  rewrite <- E. unfold IntToString.
  by rewrite (ToUnsigned_abs _ c T32 H32), (ToUnsigned_abs _ c Tu Hu), (TestNeg_spec _ c T32 H32), (TestNeg_spec _ c Tu Hu).
Qed.

(** The texts of the components. *)
Definition component_texts (components_ : list Z) (texts : list (list Z)) : Prop :=
  Forall2 (fun c text => component_text c = Some text /\ IntToString Int.uint32 c = Some text /\
    decimal text /\ text <> [] /\ digits_value 10 0 text = c /\ int_component c) components_ texts.

Lemma component_texts_exist v : Forall int_component v -> exists texts, component_texts v texts.
Proof.
  induction 1 as [|c v Hc _ (texts & IH)]; [by exists []; constructor|].
  destruct (component_text_ok c Hc) as (t & H). exists (t :: texts). constructor; [naive_solver | done].
Qed.

Lemma get_string_texts v texts acc :
  component_texts v texts -> v <> [] -> get_string v acc = Some (acc ++ JoinString texts [46]).
Proof.
  intros H. revert acc. induction H as [|c t v ts (E & _) H IH]; intros acc Hne; [done|].
  destruct H as [|d u v us Hu H]; [cbn [get_string]; by rewrite E|].
  change (get_string (c :: d :: v) acc) with
    (text ← component_text c; get_string (d :: v) (acc ++ text ++ [46])).
  rewrite E. cbn [mbind option_bind]. rewrite IH by done. rewrite JoinString_cons. by rewrite <- !app_assoc.
Qed.

Section Back.
Context (tolower : Z -> Z) (isspace : Z -> bool).
(** What the C library does in every locale. *)
Context (digits_fold : forall c, chr_0 <= c <= chr_9 -> tolower c <> tolower 43).
Context (digits_shown : forall c, chr_0 <= c <= chr_9 \/ c = chr_minus -> isspace c = false).

Lemma texts_parsed v texts first acc :
  component_texts v texts -> parse_numbers tolower isspace texts first acc = Some (true, acc ++ v).
Proof.
  intros H. revert first acc. induction H as [|c t v ts H _ IH]; intros first acc; [by rewrite app_nil_r|].
  destruct H as (_ & E & Hd & Hne & Hv & [H0 H1]). cbn [parse_numbers].
  assert (StartsWithASCII tolower t [43] false = false) as ->.
  { destruct t as [|d t]; [done|]. apply Forall_inv in Hd. unfold StartsWithASCII. simpl.
    by rewrite (proj2 (Z.eqb_neq _ _) (digits_fold d Hd)). }
  assert (decimal_text c t = t) as Et by (unfold decimal_text; by rewrite (proj2 (Z.ltb_ge _ _))).
  pose proof (decimal_text_parsed isspace Int.uint32 c t 0 digits_shown) as P. rewrite Et in P.
  unfold StringToUint. rewrite P by
    (done || (by right; left) || (Int.int_compute; lia) || (by rewrite Hv, Z.abs_eq)).
  cbn [negb]. rewrite E. cbn [mbind option_bind]. rewrite bool_decide_eq_true_2 by done. rewrite andb_false_r.
  rewrite IH. by rewrite <- app_assoc.
Qed.

(** Nothing in a text is a separator or white space. *)
Lemma decimal_no_dot text : decimal text -> no (is_char 46) text.
Proof. intros H. eapply Forall_impl; [exact H|]. intros c Hc. apply Z.eqb_neq. unfold chr_0 in Hc. lia. Qed.

Lemma decimal_trimmed text : decimal text -> trim_both kWhitespaceASCII text = text.
Proof.
  unfold decimal. intros H. apply trim_trimmed. rewrite Forall_forall in H.
  assert (forall c, c ∈ text -> any_of kWhitespaceASCII c = false) as Hc.
  { intros c Hc. specialize (H c Hc). unfold chr_0 in H. unfold any_of. simpl.
    repeat rewrite (proj2 (Z.eqb_neq _ _)) by lia. done. }
  split; intros c E; apply Hc.
  - destruct text; simplify_eq/=. left.
  - apply last_Some in E as (l & ->). apply elem_of_app. right. by left.
Qed.

Lemma texts_split v texts :
  component_texts v texts -> v <> [] -> SplitString trim_ascii (JoinString texts [46]) 46 = Some texts.
Proof.
  intros H Hne. unfold SplitString. rewrite (SplitStringT_exact _ _ trim_ascii_exact).
  assert (Forall decimal texts /\ texts <> [] /\ texts <> [[]]) as (Hd & Hn & Hn1).
  { split_and!; [|by destruct H.. |].
    - eapply Forall2_Forall_r; [exact H|]. apply Forall_forall. naive_solver.
    - intros ->. inversion H as [|? ? ? ? (_ & _ & _ & E & _) _]. done. }
  unfold parts. rewrite pieces_join; [|done | by eapply Forall_impl; [exact Hd | apply decimal_no_dot]].
  assert (trimmer (trim_both kWhitespaceASCII) true <$> texts = texts) as ->.
  { simpl. clear -Hd. induction Hd as [|t ts Ht Hd IH]; [done|]. cbn [fmap list_fmap].
    rewrite IH. f_equal. by apply decimal_trimmed. }
  by rewrite bool_decide_eq_false_2.
Qed.

(** A version whose components fit an [int] is printed, and the constructor reads the
    text back as the same version, which is valid. *)
Theorem version_round_trip v :
  Forall int_component v -> v <> [] ->
  exists text, GetString v = Some text /\ Version tolower isspace text = Some v /\ IsValid v = true.
Proof.
  intros H Hne. destruct (component_texts_exist v H) as (texts & Ht).
  assert (IsValid v = true) as Hv by (unfold IsValid; by rewrite bool_decide_eq_false_2).
  exists (JoinString texts [46]). unfold GetString. rewrite option_guard_True by done.
  rewrite (get_string_texts v texts []) by done. split; [done|]. split; [|done].
  unfold Version, ParseVersionNumbers. rewrite (texts_split v) by done. cbn [mbind option_bind].
  destruct texts as [|t ts]; [by inversion Ht; subst|]. by rewrite (texts_parsed v).
Qed.
End Back.

Lemma version_round_trip_witness :
  exists text, GetString [38; 0; 2147483647] = Some text /\
    Version ToLowerASCII StringNumbers.isspace text = Some [38; 0; 2147483647] /\
    IsValid [38; 0; 2147483647] = true.
Proof.
  apply version_round_trip.
  - intros c Hc. unfold ToLowerASCII. unfold chr_0, chr_9 in Hc.
    destruct (Z.leb_spec 65 c); [lia | simpl; lia].
  - intros c H. unfold isspace, chr_0, chr_9, chr_minus in *.
    destruct (Z.eqb_spec c 32), (Z.leb_spec 9 c), (Z.leb_spec c 13); cbn; lia.
  - repeat constructor; done.
  - done.
Defined.

(** A component from 2^31 on is read, but printed as a negative number, which is no
    component: the text of the version is no version. *)
Example large_component_is_printed_negative :
  Version ToLowerASCII isspace [49; 46; 50; 49; 52; 55; 52; 56; 51; 54; 52; 56] = Some [1; 2147483648] /\
  GetString [1; 2147483648] = Some [49; 46; 45; 50; 49; 52; 55; 52; 56; 51; 54; 52; 56] /\
  Version ToLowerASCII isspace [49; 46; 45; 50; 49; 52; 55; 52; 56; 51; 54; 52; 56] = Some [].
Proof. by vm_compute. Qed.

(** ** Wildcards *)

Lemma compare_same_head d v w :
  CompareVersionComponents (d :: v) (d :: w) = CompareVersionComponents v w.
Proof. unfold CompareVersionComponents. cbn [compare_common]. by rewrite Z.ltb_irrefl. Qed.

Lemma same_start_head d v w : same_start (d :: v) (d :: w) = same_start v w.
Proof. unfold same_start. simpl. apply bool_decide_ext. split; [by intros [= ?] | by intros ->]. Qed.

(** What [CompareToWildcardString] returns from the comparison with the numbers. *)
Definition wildcard_result (components_ parsed : list Z) : Z :=
  let comparison := CompareVersionComponents components_ parsed in
  if (comparison =? -1) || (comparison =? 0) then comparison else if same_start components_ parsed then 0 else 1.

Lemma wildcard_compare v w :
  wildcard_result v w = CompareVersionComponents (take (length w) v) w.
Proof.
  revert w. induction v as [|c v IH]; intros [|d w].
  - done.
  - unfold wildcard_result, CompareVersionComponents. cbn [compare_common length take].
    by destruct (existsb _ (d :: w)).
  - unfold wildcard_result, CompareVersionComponents. cbn [compare_common length take].
    by destruct (existsb _ (c :: v)).
  - cbn [length take]. destruct (Z.lt_trichotomy d c) as [H|[->|H]].
    + unfold wildcard_result, CompareVersionComponents, same_start. cbn [compare_common].
      rewrite (proj2 (Z.ltb_lt _ _) H). simpl. rewrite bool_decide_eq_false_2; [done|]. intros [= -> _]. lia.
    + rewrite compare_same_head, <- IH. unfold wildcard_result. by rewrite compare_same_head, same_start_head.
    + unfold wildcard_result, CompareVersionComponents. cbn [compare_common].
      rewrite (proj2 (Z.ltb_ge _ _)), (proj2 (Z.ltb_lt _ _) H) by lia. done.
Qed.

Lemma wildcard_ends tolower text :
  no (is_char 0) text -> ends_in_wildcard tolower (text ++ wildcard_suffix) = true /\
  substr (text ++ wildcard_suffix) 0 (len (text ++ wildcard_suffix) - 2) = Some text.
Proof.
  intros H. unfold ends_in_wildcard. rewrite c_string_whole.
  2:{ apply no_app. split; [done|]. by repeat constructor. }
  unfold EndsWith. rewrite !len_app. change (len wildcard_suffix) with 2. split.
  - destruct (Z.ltb_spec (len text + 2) 2); [pose proof (len_nonneg text); lia|].
    rewrite length_app, Nat.add_sub, drop_app_length. simpl. by rewrite !Z.eqb_refl.
  - rewrite Z.add_simpl_r. apply (substr_mid [] text).
Qed.

(** Compared to a text that ends in ".*", only as many components of a version count
    as the text has before the wildcard, whatever they and the text are. *)
Theorem wildcard_compares_prefix tolower isspace v text w :
  IsValid v = true -> IsValid w = true -> no (is_char 0) text ->
  ParseVersionNumbers tolower isspace text = Some (true, w) ->
  CompareToWildcardString tolower isspace v (text ++ wildcard_suffix) =
    Some (CompareVersionComponents (take (length w) v) w).
Proof.
  intros Hv Hw Hn Hp. destruct (wildcard_ends tolower text Hn) as [He Hs]. rewrite <- wildcard_compare.
  unfold CompareToWildcardString. rewrite option_guard_True by done.
  unfold IsValidWildcardString. rewrite He, Hs. cbn [mbind option_bind].
  unfold Version. rewrite Hp. cbn [mbind option_bind]. rewrite option_guard_True by done. cbn [negb].
  rewrite option_guard_True by done. unfold wildcard_result. destruct (_ || _); [done|].
  rewrite option_guard_True; [by destruct (same_start v w)|]. destruct w; [done | simpl; lia].
Qed.

(** 1.2.3 against "1.2.*", and against "1.3.*". *)
Lemma wildcard_compares_prefix_witness :
  CompareToWildcardString ToLowerASCII StringNumbers.isspace [1; 2; 3] [49; 46; 50; 46; 42] = Some 0 /\
  CompareToWildcardString ToLowerASCII StringNumbers.isspace [1; 2; 3] [49; 46; 51; 46; 42] = Some (-1).
Proof.
  split.
  - apply (wildcard_compares_prefix ToLowerASCII StringNumbers.isspace [1; 2; 3] [49; 46; 50] [1; 2]);
      [done | done | by repeat constructor | by vm_compute].
  - apply (wildcard_compares_prefix ToLowerASCII StringNumbers.isspace [1; 2; 3] [49; 46; 51] [1; 3]);
      [done | done | by repeat constructor | by vm_compute].
Defined.
