(* ===== verification/StringReplace.v ===== *)
(** * Replacing substrings in place ([base/strings/string_util.cc])

    [DoReplaceSubstringsAfterOffset] with its three loops: in place, shrinking forwards,
    growing backwards. [None] is a failed [DCHECK] or an access outside the string. *)
From Stdlib Require Import ZArith Lia.
From stdpp Require Import base option list.
From S2P Require Import Prelude StdString StringUtil.

Local Open Scope Z_scope.

(** The last match at [n] or before. *)
Fixpoint last_sub (t s : list Z) (n : nat) : Z :=
  if starts t (drop n s) then Z.of_nat n
  else match n with O => npos | S n => last_sub t s n end.

Definition rfind_sub (s t : list Z) (pos : Z) : Z :=
  last_sub t s (if pos =? npos then length s else Nat.min (Z.to_nat pos) (length s)).

(** Within one string. A [size_t] below zero is one beyond every string. *)
Definition memmove (s : list Z) (to from length : Z) : option (list Z) :=
  guard (0 <= to /\ 0 <= from /\ 0 <= length /\ to + length <= len s /\ from + length <= len s);;
  Some (take (Z.to_nat to) s ++ take (Z.to_nat length) (drop (Z.to_nat from) s) ++
        drop (Z.to_nat (to + length)) s).

Section Loops.
Context (find_this replace_with : list Z).

Let find_length : Z := len find_this.
Let replace_length : Z := len replace_with.

(** Strings of the same length. *)
Fixpoint replace_same (fuel : nat) (str : list Z) (offset : Z) : option (list Z) :=
  match fuel with
  | O => None
  | S fuel =>
      str ← replace str offset find_length replace_with;
      let offset := find_sub str find_this (offset + replace_length) in
      if offset =? npos then Some str else replace_same fuel str offset
  end.

(** [str_length] is the length before the loop. *)
Fixpoint replace_shorter (fuel : nat) (str_length : Z) (str : list Z) (offset write_offset : Z) : option (list Z) :=
  match fuel with
  | O => None
  | S fuel =>
      str ← (if replace_length =? 0 then Some str else replace str write_offset replace_length replace_with);
      let write_offset := write_offset + replace_length in
      let read_offset := offset + find_length in
      let found := find_sub str find_this read_offset in
      let offset := if found =? npos then str_length else Z.min found str_length in
      let length := offset - read_offset in
      str ← (if length =? 0 then Some str else memmove str write_offset read_offset length);
      let write_offset := write_offset + (if length =? 0 then 0 else length) in
      if offset <? str_length then replace_shorter fuel str_length str offset write_offset
      else Some (resize str write_offset)
  end.

(** The final length and the last match. *)
Fixpoint count_matches (fuel : nat) (str : list Z) (offset final_length : Z) : option (Z * Z) :=
  match fuel with
  | O => None
  | S fuel =>
      let final_length := final_length + (replace_length - find_length) in
      let current_match := offset in
      let offset := find_sub str find_this (offset + find_length) in
      if offset =? npos then Some (final_length, current_match)
      else count_matches fuel str offset final_length
  end.

Fixpoint replace_longer (fuel : nat) (str : list Z) (first_match current_match prev_match write_offset : Z)
    : option (list Z) :=
  match fuel with
  | O => None
  | S fuel =>
      let read_offset := current_match + find_length in
      let length := prev_match - read_offset in
      '(str, write_offset) ←
        (if length =? 0 then Some (str, write_offset)
         else str ← memmove str (write_offset - length) read_offset length; Some (str, write_offset - length));
      let write_offset := write_offset - replace_length in
      str ← replace str write_offset replace_length replace_with;
      if current_match =? first_match then Some str
      else replace_longer fuel str first_match (rfind_sub str find_this (current_match - 1)) current_match write_offset
  end.

Definition DoReplaceSubstringsAfterOffset (str : list Z) (offset : Z) (replace_all : bool) : option (list Z) :=
  guard (find_this <> []);;
  let offset := find_sub str find_this offset in
  if offset =? npos then Some str
  else if negb replace_all then replace str offset find_length replace_with
  else
    let fuel := S (length str) in
    if find_length =? replace_length then replace_same fuel str offset
    else if replace_length <? find_length then replace_shorter fuel (len str) str offset offset
    else
      '(final_length, current_match) ← count_matches fuel str offset (len str);
      replace_longer fuel (resize str final_length) offset current_match (len str) final_length.
End Loops.

Definition ReplaceFirstSubstringAfterOffset (str : list Z) (start_offset : Z) (find_this replace_with : list Z) :=
  DoReplaceSubstringsAfterOffset find_this replace_with str start_offset false.

Definition ReplaceSubstringsAfterOffset (str : list Z) (start_offset : Z) (find_this replace_with : list Z) :=
  DoReplaceSubstringsAfterOffset find_this replace_with str start_offset true.

(** ** The matches from the left, without overlaps *)

(** The text between the matches of [t]. *)
Inductive cut (t : list Z) : list Z -> list (list Z) -> Prop :=
  | cut_end s : (forall n, starts t (drop n s) = false) -> cut t s [s]
  | cut_next a b ps :
      (forall n, (n < length a)%nat -> starts t (drop n (a ++ t ++ b)) = false) ->
      cut t b ps -> cut t (a ++ t ++ b) (a :: ps).

Lemma starts_nil t : t <> [] -> starts t [] = false.
Proof. intros H. unfold starts. rewrite take_nil. by apply bool_decide_eq_false_2. Qed.

Lemma starts_self t u : starts t (t ++ u) = true.
Proof. apply starts_prefix. by exists u. Qed.

Lemma first_sub_end t i s : (forall n, starts t (drop n s) = false) -> first_sub t i s = npos.
Proof.
  revert i. induction s as [|c s IH]; intros i H; cbn [first_sub]; pose proof (H O) as H0; rewrite drop_0 in H0;
    rewrite H0; [done|]. apply IH. intros n. apply (H (S n)).
Qed.

Lemma first_sub_next t i a b :
  (forall n, (n < length a)%nat -> starts t (drop n (a ++ t ++ b)) = false) ->
  first_sub t i (a ++ t ++ b) = i + len a.
Proof.
  revert i. induction a as [|c a IH]; intros i H.
  - pose proof (starts_self t b) as E. cbn [app]. unfold len. cbn [length].
    destruct (t ++ b); cbn [first_sub]; rewrite E; lia.
  - cbn [app first_sub]. pose proof (H O ltac:(simpl; lia)) as H0. rewrite drop_0 in H0. cbn [app] in H0.
    rewrite H0, IH, len_cons by (intros n Hn; apply (H (S n)); simpl; lia). lia.
Qed.

Lemma first_split_sub t s : t <> [] ->
  (forall n, starts t (drop n s) = false) \/
  exists a b, s = a ++ t ++ b /\ forall n, (n < length a)%nat -> starts t (drop n s) = false.
Proof.
  intros Ht. induction s as [|c s IH]; [left; intros n; rewrite drop_nil; by apply starts_nil|].
  destruct (starts t (c :: s)) eqn:E.
  - right. apply starts_prefix in E as (u & E). exists [], u. split; [done|]. simpl. lia.
  - destruct IH as [H|(a & b & -> & H)]; [left | right].
    + intros [|n]; [done|]. apply H.
    + exists (c :: a), b. split; [done|]. intros [|n] Hn; [done|]. apply H. simpl in Hn. lia.
Qed.

Lemma cut_exists t s : t <> [] -> exists ps, cut t s ps.
Proof.
  intros Ht. induction s as [s IH] using (induction_ltof1 _ (@length Z)). unfold ltof in IH.
  destruct (first_split_sub t s Ht) as [H|(a & b & -> & H)]; [by exists [s]; constructor|].
  destruct (IH b) as (ps & Hps); [rewrite !length_app; destruct t; [done | simpl; lia]|].
  exists (a :: ps). by constructor.
Qed.

Lemma cut_join_next a ps r : ps <> [] -> JoinString (a :: ps) r = a ++ r ++ JoinString ps r.
Proof. destruct ps; [done|]. intros _. apply JoinString_cons. Qed.

Lemma cut_nonempty t s ps : cut t s ps -> ps <> [].
Proof. by destruct 1. Qed.

Lemma cut_join t s ps : cut t s ps -> JoinString ps t = s.
Proof.
  induction 1 as [|a b ps H Hb IH]; [done|]. rewrite cut_join_next by (by eapply cut_nonempty). by rewrite IH.
Qed.

Lemma find_sub_after pre s t : find_sub (pre ++ s) t (len pre) = first_sub t (len pre) s.
Proof.
  unfold find_sub. rewrite len_app. pose proof (len_nonneg pre). pose proof (len_nonneg s).
  rewrite (proj2 (Z.eqb_neq _ _)), (proj2 (Z.ltb_ge _ _)) by (unfold npos; lia). cbn [orb]. by rewrite drop_len.
Qed.

(** ** Parts of a string overwritten *)

Lemma overwrite_mid x y z t n : n = len y -> replace (x ++ y ++ z) (len x) n t = Some (x ++ t ++ z).
Proof.
  intros ->. unfold replace. rewrite option_guard_True.
  - by rewrite take_len, drop_len, drop_len.
  - rewrite !len_app. pose proof (len_nonneg x). pose proof (len_nonneg y). pose proof (len_nonneg z). lia.
Qed.

Lemma memmove_mid s x y z u m v :
  s = x ++ y ++ z -> s = u ++ m ++ v -> len y = len m ->
  memmove s (len x) (len u) (len m) = Some (x ++ m ++ z).
Proof.
  intros E1 E2 Hl. unfold memmove.
  assert (0 <= len x /\ 0 <= len u /\ 0 <= len m /\ 0 <= len z /\ 0 <= len v) as (? & ? & ? & ? & ?)
    by (repeat split; apply len_nonneg).
  rewrite option_guard_True.
  2:{ split_and!; [lia|lia|lia| |]; [rewrite E1 | rewrite E2]; rewrite !len_app; lia. }
  rewrite E2 at 2. rewrite drop_len, take_len. rewrite E1, take_len.
  by rewrite <- Hl, <- len_app, (app_assoc x y z), drop_len.
Qed.

Section Exact.
Context (t r : list Z) (Ht : t <> []).

Lemma t_positive : 0 < len t.
Proof. pose proof (len_nonneg t). pose proof (proj1 (len_zero t)). destruct (decide (len t = 0)); [tauto | lia]. Qed.

(** ** Strings of the same length *)

Lemma replace_same_exact b ps :
  cut t b ps -> len t = len r -> forall pre fuel, (length b < fuel)%nat ->
  replace_same t r fuel (pre ++ t ++ b) (len pre) = Some (pre ++ r ++ JoinString ps r).
Proof.
  intros H Hl. induction H as [s H|a b ps H Hb IH]; intros pre [|fuel] Hf; try lia; cbn [replace_same];
    rewrite (overwrite_mid pre t _ r) by done; cbn [mbind option_bind]; rewrite <- len_app, app_assoc, find_sub_after.
  - rewrite first_sub_end by done. cbn [Z.eqb npos]. by rewrite <- app_assoc.
  - rewrite first_sub_next by done. rewrite <- len_app.
    rewrite (proj2 (Z.eqb_neq _ _)) by (pose proof (len_nonneg ((pre ++ r) ++ a)); unfold npos; lia).
    rewrite app_assoc, IH by (rewrite !length_app in Hf; destruct t; [done | simpl in Hf; lia]).
    rewrite cut_join_next by (by eapply cut_nonempty). by rewrite <- !app_assoc.
Qed.

(** ** A shorter string: [W] is written, [J] is left over *)

Lemma overwrite W J b :
  len r < len t -> exists J', (if len r =? 0 then Some (W ++ J ++ t ++ b) else replace (W ++ J ++ t ++ b) (len W) (len r) r) =
    Some (W ++ r ++ J' ++ b) /\ len (r ++ J') = len (J ++ t).
Proof.
  intros Hl. pose proof (len_nonneg J) as HJ. exists (drop (length r) (J ++ t)). split.
  - destruct (Z.eqb_spec (len r) 0) as [E|_].
    + apply len_zero in E as E. rewrite E. cbn [length]. by rewrite drop_0, <- !app_assoc.
    + replace (J ++ t ++ b) with (take (length r) (J ++ t) ++ drop (length r) (J ++ t) ++ b)
        by (by rewrite app_assoc, take_drop, <- app_assoc).
      apply overwrite_mid. unfold len in *. rewrite length_take, length_app. lia.
  - unfold len in *. rewrite !length_app, length_drop, length_app. lia.
Qed.

(** The text after the match moves to the left. *)
Lemma shift_left W J a c :
  exists J', (if len a =? 0 then Some (W ++ J ++ a ++ c) else memmove (W ++ J ++ a ++ c) (len W) (len (W ++ J)) (len a)) =
    Some (W ++ a ++ J' ++ c) /\ len J' = len J.
Proof.
  exists (drop (length a) (J ++ a)). split; [|unfold len; rewrite length_drop, length_app; lia].
  destruct (Z.eqb_spec (len a) 0) as [E|_]; [apply len_zero in E as ->; simpl; by rewrite app_nil_r|].
  eapply memmove_mid with (y := take (length a) (J ++ a)) (v := c).
  - by rewrite (app_assoc (take _ _)), take_drop, <- app_assoc.
  - by rewrite <- app_assoc.
  - unfold len. rewrite length_take, length_app. lia.
Qed.

Lemma replace_shorter_exact b ps :
  cut t b ps -> len r < len t -> forall W J fuel str_length, (length b < fuel)%nat ->
  str_length = len (W ++ J ++ t ++ b) ->
  replace_shorter t r fuel str_length (W ++ J ++ t ++ b) (len (W ++ J)) (len W) =
  Some (W ++ r ++ JoinString ps r).
Proof.
  intros H Hl. induction H as [s H|a b ps H Hb IH]; intros W J [|fuel] n Hf Hn; try lia; cbn [replace_shorter].
  - destruct (overwrite W J s Hl) as (J' & -> & HJ). cbn [mbind option_bind].
    replace (len (W ++ J) + len t) with (len (W ++ r ++ J')) by (rewrite !len_app in *; lia).
    replace (W ++ r ++ J' ++ s) with ((W ++ r ++ J') ++ s) by (by rewrite <- !app_assoc).
    rewrite find_sub_after, first_sub_end by done. change (npos =? npos) with true. cbv iota zeta.
    replace (n - len (W ++ r ++ J')) with (len s) by (rewrite Hn, !len_app in *; lia).
    destruct (shift_left (W ++ r) J' s []) as (J2 & E & _).
    replace ((W ++ r ++ J') ++ s) with ((W ++ r) ++ J' ++ s ++ []) by (by rewrite app_nil_r, <- !app_assoc).
    replace (W ++ r ++ J') with ((W ++ r) ++ J') by (by rewrite <- app_assoc).
    rewrite <- (len_app W r), E. cbn [mbind option_bind]. rewrite Z.ltb_irrefl. f_equal.
    replace (len (W ++ r) + (if len s =? 0 then 0 else len s)) with (len ((W ++ r) ++ s))
      by (destruct (Z.eqb_spec (len s) 0); rewrite !len_app; lia).
    rewrite app_assoc, resize_shorter. by rewrite <- app_assoc.
  - destruct (overwrite W J (a ++ t ++ b) Hl) as (J' & -> & HJ). cbn [mbind option_bind].
    replace (len (W ++ J) + len t) with (len (W ++ r ++ J')) by (rewrite !len_app in *; lia).
    replace (W ++ r ++ J' ++ a ++ t ++ b) with ((W ++ r ++ J') ++ a ++ t ++ b) by (by rewrite <- !app_assoc).
    rewrite find_sub_after, first_sub_next by done. pose proof (len_nonneg (W ++ r ++ J')). pose proof (len_nonneg a).
    pose proof (len_nonneg b). pose proof t_positive.
    rewrite (proj2 (Z.eqb_neq _ npos)) by (unfold npos; lia). cbv zeta.
    rewrite Z.min_l by (rewrite Hn, !len_app in *; lia). rewrite Z.add_simpl_l.
    destruct (shift_left (W ++ r) J' a (t ++ b)) as (J2 & E & HJ2).
    replace ((W ++ r ++ J') ++ a ++ t ++ b) with ((W ++ r) ++ J' ++ a ++ t ++ b) by (by rewrite <- !app_assoc).
    replace (W ++ r ++ J') with ((W ++ r) ++ J') by (by rewrite <- app_assoc).
    rewrite <- (len_app W r), E. cbn [mbind option_bind].
    rewrite (proj2 (Z.ltb_lt _ _)) by (rewrite Hn, !len_app in *; lia).
    replace (len (W ++ r) + (if len a =? 0 then 0 else len a)) with (len (W ++ r ++ a))
      by (destruct (Z.eqb_spec (len a) 0); rewrite !len_app; lia).
    replace (len ((W ++ r) ++ J') + len a) with (len ((W ++ r ++ a) ++ J2)) by (rewrite !len_app in *; lia).
    replace ((W ++ r) ++ a ++ J2 ++ t ++ b) with ((W ++ r ++ a) ++ J2 ++ t ++ b) by (by rewrite <- !app_assoc).
    rewrite IH; [|rewrite !length_app in Hf; pose proof t_positive; unfold len in *; lia | rewrite Hn, !len_app in *; lia].
    rewrite cut_join_next by (by eapply cut_nonempty). by rewrite <- !app_assoc.
Qed.

(** ** A longer string: the matches before a place, and the text with them replaced *)
Inductive matched (A : list Z) : list Z -> list Z -> nat -> Prop :=
  | matched_first : matched A A A 0
  | matched_next P Q k a :
      matched A P Q k -> (forall n, (n < length a)%nat -> starts t (drop n (a ++ t)) = false) ->
      matched A (P ++ t ++ a) (Q ++ r ++ a) (S k).

(** Leftmost in a longer text is leftmost before the match. *)
Lemma quiet_before a b :
  (forall n, (n < length a)%nat -> starts t (drop n (a ++ t ++ b)) = false) ->
  forall n, (n < length a)%nat -> starts t (drop n (a ++ t)) = false.
Proof.
  intros H n Hn. destruct (starts t (drop n (a ++ t))) eqn:E; [|done]. apply starts_prefix in E as (u & E).
  rewrite <- (H n Hn), app_assoc, drop_app_le by (rewrite length_app; lia). rewrite E, <- app_assoc. symmetry.
  apply starts_self.
Qed.

Lemma count_matches_exact A b ps :
  cut t b ps -> forall P Q k final fuel, (length b < fuel)%nat -> matched A P Q k ->
  exists P' Q' k' a, count_matches t r fuel (P ++ t ++ b) (len P) final =
      Some (final + Z.of_nat (k' - k + 1) * (len r - len t), len P') /\
    (k <= k')%nat /\ P ++ t ++ b = P' ++ t ++ a /\ matched A P' Q' k' /\ Q' ++ r ++ a = Q ++ r ++ JoinString ps r.
Proof.
  induction 1 as [s H|a b ps H Hb IH]; intros P Q k final [|fuel] Hf HP; try lia; cbn [count_matches];
    rewrite app_assoc, <- len_app, find_sub_after.
  - rewrite first_sub_end by done. exists P, Q, k, s. change (npos =? npos) with true. cbv iota.
    rewrite Nat.sub_diag. split; [f_equal; f_equal; lia|]. split; [done|]. by rewrite <- app_assoc.
  - rewrite first_sub_next by done. rewrite <- len_app.
    rewrite (proj2 (Z.eqb_neq _ _)) by (pose proof (len_nonneg ((P ++ t) ++ a)); unfold npos; lia).
    replace ((P ++ t) ++ a ++ t ++ b) with ((P ++ t ++ a) ++ t ++ b) by (by rewrite <- !app_assoc).
    replace ((P ++ t) ++ a) with (P ++ t ++ a) by (by rewrite <- app_assoc).
    destruct (IH (P ++ t ++ a) (Q ++ r ++ a) (S k) (final + (len r - len t)) fuel) as (P' & Q' & k' & a' & -> & Hk & E & HP' & EQ).
    { rewrite !length_app in Hf. pose proof t_positive. unfold len in *. lia. }
    { constructor; [done|]. by eapply quiet_before. }
    exists P', Q', k', a'. replace (k' - k + 1)%nat with (S (k' - S k + 1)) by lia.
    split; [f_equal; f_equal; lia|]. split; [lia|]. split; [done|]. split; [done|].
    rewrite EQ, cut_join_next by (by eapply cut_nonempty). by rewrite <- !app_assoc.
Qed.
(** Going back from a match: the one before it, as its first character is in no other place. *)
Context (first_only : forall c tl, t = c :: tl -> c ∉ tl).

Lemma last_sub_exact s m n :
  (m <= n)%nat -> starts t (drop m s) = true ->
  (forall i, (m < i <= n)%nat -> starts t (drop i s) = false) -> last_sub t s n = Z.of_nat m.
Proof.
  intros Hm Hs H. induction n as [|n IH]; cbn [last_sub].
  - replace m with 0%nat in * by lia. by rewrite Hs.
  - destruct (decide (m = S n)) as [->|Hne]; [by rewrite Hs|]. rewrite (H (S n)) by lia.
    apply IH; [lia|]. intros i Hi. apply H. lia.
Qed.

(** No match overlaps the next one. *)
Lemma no_overlap P a c tl Y i :
  t = c :: tl -> (forall n, (n < length a)%nat -> starts t (drop n (a ++ t)) = false) ->
  (length P < i < length (P ++ t ++ a))%nat -> starts t (drop i (P ++ t ++ a ++ c :: Y)) = false.
Proof.
  intros Et Ha Hi. destruct (starts t (drop i _)) eqn:E; [|done]. exfalso. apply starts_prefix in E as (u & E).
  pose proof (first_only c tl Et) as Hc. rewrite !length_app in Hi.
  assert (forall x, drop i (P ++ t ++ a ++ c :: Y) !! x = t !! x \/ (length t <= x)%nat) as Hx.
  { intros x. destruct (decide (x < length t)%nat); [left; rewrite E; by apply lookup_app_l | right; lia]. }
  rewrite (drop_app_ge P) in E, Hx by lia. assert (1 <= i - length P)%nat as Hj1 by lia.
  assert (i - length P < length t + length a)%nat as Hj2 by lia. clear Hi. set (j := (i - length P)%nat) in *. clearbody j.
  destruct (decide (j < length t)%nat) as [Hj|Hj].
  - specialize (Hx O). rewrite lookup_drop, lookup_app_l in Hx by lia. rewrite Et in Hx, Hj. destruct j as [|j]; [lia|].
    simpl in Hx, Hj. destruct Hx as [Hx|]; [|lia]. rewrite Nat.add_0_r in Hx. apply Hc. by eapply list_elem_of_lookup_2.
  - rewrite (drop_app_ge t) in E, Hx by lia. set (l := (j - length t)%nat) in *.
    assert (l < length a)%nat as Hl by lia. rewrite drop_app_le in E, Hx by lia.
    destruct (decide (length t <= length (drop l a))%nat) as [Hd|Hd].
    + assert (exists v, drop l a = t ++ v) as (v & Ev).
      { exists (drop (length t) (drop l a)). rewrite <- (take_drop (length t) (drop l a)) at 1. f_equal.
        apply (f_equal (take (length t))) in E. by rewrite take_app_le, take_app_length in E by done. }
      pose proof (Ha l Hl) as H. rewrite drop_app_le, Ev, <- app_assoc, starts_self in H by lia. done.
    + destruct (Hx (length (drop l a))) as [H|]; [|lia]. rewrite list_lookup_middle in H by done.
      rewrite Et in H. rewrite length_drop in H. destruct (length a - l)%nat as [|x] eqn:Ex; [lia|].
      simpl in H. apply Hc. by eapply list_elem_of_lookup_2.
Qed.

Lemma rfind_exact P a c tl Y :
  t = c :: tl -> (forall n, (n < length a)%nat -> starts t (drop n (a ++ t)) = false) ->
  rfind_sub (P ++ t ++ a ++ c :: Y) t (len (P ++ t ++ a) - 1) = len P.
Proof.
  intros Et Ha. pose proof t_positive. assert (len P < len (P ++ t ++ a)) as Hl.
  { rewrite !len_app. pose proof (len_nonneg a). lia. }
  unfold rfind_sub. rewrite (proj2 (Z.eqb_neq _ npos)) by (pose proof (len_nonneg P); unfold npos; lia).
  unfold len. apply last_sub_exact.
  - unfold len in *. rewrite !length_app in *. simpl. lia.
  - rewrite drop_app_length. apply starts_self.
  - intros i Hi. apply (no_overlap P a c tl Y i Et Ha). unfold len in *. lia.
Qed.

(** The text after the match moves to the right, over the gap [G]. *)
Lemma shift_right P a G D :
  exists G', (if len a =? 0 then Some (P ++ a ++ G ++ D, len (P ++ a ++ G))
    else str ← memmove (P ++ a ++ G ++ D) (len (P ++ a ++ G) - len a) (len P) (len a);
         Some (str, len (P ++ a ++ G) - len a)) = Some (P ++ G' ++ a ++ D, len (P ++ G')) /\ len G' = len G.
Proof.
  exists (take (length G) (a ++ G)).
  assert (len (take (length G) (a ++ G)) = len G) as HG by (unfold len; rewrite length_take, length_app; lia).
  split; [|done]. destruct (Z.eqb_spec (len a) 0) as [E|_].
  - apply len_zero in E as ->. cbn [app]. by rewrite firstn_all.
  - replace (len (P ++ a ++ G) - len a) with (len (P ++ take (length G) (a ++ G))) by (rewrite !len_app in *; lia).
    erewrite (memmove_mid _ (P ++ take (length G) (a ++ G)) (drop (length G) (a ++ G)) D P a (G ++ D)); [by rewrite <- app_assoc| |done|].
    + rewrite <- app_assoc, (app_assoc (take _ _)), take_drop, <- app_assoc. done.
    + unfold len. rewrite length_drop, length_app. lia.
Qed.

(** The replacement goes to the end of the gap. *)
Lemma write_right P G a D :
  len t < len r -> len r - len t <= len G ->
  exists X, replace (P ++ t ++ G ++ a ++ D) (len (P ++ t ++ G) - len r) (len r) r = Some (P ++ X ++ r ++ a ++ D) /\
    len X = len G - (len r - len t) /\ (X = [] \/ exists c tl Y, t = c :: tl /\ X = c :: Y).
Proof.
  intros Hl HG. pose proof t_positive. set (n := (length t + length G - length r)%nat).
  assert (len (take n (t ++ G)) = len G - (len r - len t)) as HX
    by (unfold len, n in *; rewrite length_take, length_app; lia).
  exists (take n (t ++ G)). split; [|split; [done|]].
  - replace (len (P ++ t ++ G) - len r) with (len (P ++ take n (t ++ G))) by (rewrite !len_app in *; lia).
    replace (P ++ t ++ G ++ a ++ D) with ((P ++ take n (t ++ G)) ++ drop n (t ++ G) ++ a ++ D)
      by (by rewrite <- app_assoc, (app_assoc (take _ _)), take_drop, <- !app_assoc).
    rewrite overwrite_mid; [by rewrite <- app_assoc|]. unfold len, n in *. rewrite length_drop, length_app. lia.
  - destruct n as [|n]; [by left|]. right. destruct t as [|c tl]; [done|]. by exists c, tl, (take n (tl ++ G)).
Qed.

Lemma matched_longer A P Q k : matched A P Q k -> len P = len A <-> k = 0%nat.
Proof.
  intros H. assert (len A <= len P /\ (k <> 0%nat -> len A < len P)) as [H1 H2].
  { induction H as [|P Q k a H IH _]; [lia|]. pose proof t_positive. pose proof (len_nonneg a). rewrite !len_app. lia. }
  split; [intros E; destruct (decide (k = 0%nat)); [done | lia]|]. intros ->. by inversion H.
Qed.

Lemma matched_count A P Q k : matched A P Q k -> (k <= length P)%nat.
Proof.
  induction 1 as [|P Q k a H IH _]; [lia|]. pose proof t_positive. unfold len in *. rewrite !length_app. lia.
Qed.

Lemma replace_longer_exact A P Q k :
  len t < len r -> matched A P Q k -> forall a G D fuel, (k < fuel)%nat ->
  len G = Z.of_nat (S k) * (len r - len t) ->
  replace_longer t r fuel (P ++ t ++ a ++ G ++ D) (len A) (len P) (len (P ++ t ++ a)) (len (P ++ t ++ a ++ G)) =
  Some (Q ++ r ++ a ++ D).
Proof.
  intros Hl H. revert P Q H. induction k as [|k IH]; intros P Q H a G D [|fuel] Hf HG; try lia; cbn [replace_longer];
    (replace (len (P ++ t ++ a) - (len P + len t)) with (len a) by (rewrite !len_app; lia));
    (replace (len P + len t) with (len (P ++ t)) by (by rewrite len_app));
    destruct (shift_right (P ++ t) a G D) as (G' & E & HG');
    rewrite <- !app_assoc in E; rewrite E; cbn [mbind option_bind]; rewrite <- HG' in HG;
    destruct (write_right P G' a D Hl) as (X & EX & HX & Hhead); try nia;
    rewrite EX; cbn [mbind option_bind].
  - inversion H; subst. rewrite Z.eqb_refl. destruct X as [|x X]; [done|]. rewrite len_cons in HX.
    pose proof (len_nonneg X). lia.
  - rewrite (proj2 (Z.eqb_neq (len P) _)) by (by rewrite (matched_longer A P Q (S k) H)).
    assert (exists c tl Y, t = c :: tl /\ X = c :: Y) as (c & tl & Y & Et & ->)
      by (destruct Hhead as [->|Hh]; [unfold len at 1 in HX; simpl in HX; nia | done]).
    inversion H as [|P' Q' k' a' HP' Ha']; subst k' P Q.
    replace ((P' ++ t ++ a') ++ (c :: Y) ++ r ++ a ++ D) with (P' ++ t ++ a' ++ (c :: Y) ++ r ++ a ++ D)
      by (by rewrite <- !app_assoc).
    pose proof (rfind_exact P' a' c tl (Y ++ r ++ a ++ D) Et Ha') as Er. cbn [app] in Er |- *. rewrite Er.
    pose proof (IH P' Q' HP' a' (c :: Y) (r ++ a ++ D) fuel ltac:(lia) ltac:(rewrite HX, HG; lia)) as EI.
    cbn [app] in EI. rewrite <- !app_assoc. rewrite <- EI. f_equal. rewrite len_cons in HX. rewrite !len_app, len_cons. lia.
Qed.
End Exact.

(** ** The property *)

(** Growing goes back through the string by [rfind], which may find matches that overlap,
    or that begin before what is already written. *)
Definition well_placed (find_this replace_with : list Z) : Prop :=
  len replace_with <= len find_this \/ forall c tl, find_this = c :: tl -> c ∉ tl.

(** C35: the text from the start offset is pieces between matches, each match the leftmost
    after the one before. Replacing all of them in place gives the pieces between copies of
    the replacement, if it is no longer than what it replaces or the first character of
    what is replaced is in no other place of it; replacing the first gives the rest as it
    was, without any condition. Nothing outside the string is read or written. *)
Theorem substrings_replaced find_this replace_with pre s :
  find_this <> [] -> exists ps, cut find_this s ps /\ JoinString ps find_this = s /\
    (well_placed find_this replace_with ->
     ReplaceSubstringsAfterOffset (pre ++ s) (len pre) find_this replace_with =
       Some (pre ++ JoinString ps replace_with)) /\
    ReplaceFirstSubstringAfterOffset (pre ++ s) (len pre) find_this replace_with =
      Some (pre ++ match ps with [] | [_] => s | a :: ps => a ++ replace_with ++ JoinString ps find_this end).
Proof.
  intros Ht. destruct (cut_exists find_this s Ht) as (ps & Hps). exists ps. split; [done|].
  split; [by apply cut_join|]. unfold ReplaceSubstringsAfterOffset, ReplaceFirstSubstringAfterOffset, DoReplaceSubstringsAfterOffset.
  rewrite !option_guard_True by done. rewrite find_sub_after.
  destruct Hps as [s H|a b ps H Hb].
  { rewrite first_sub_end by done. by split. }
  rewrite first_sub_next, <- len_app by done.
  rewrite (proj2 (Z.eqb_neq _ npos)) by (pose proof (len_nonneg (pre ++ a)); unfold npos; lia). cbn [negb].
  pose proof (cut_nonempty _ _ _ Hb) as Hne. rewrite (app_assoc pre a).
  assert (length b < S (length ((pre ++ a) ++ find_this ++ b)))%nat as Hf by (rewrite !length_app; lia).
  split.
  - intros Hw. rewrite cut_join_next by done. rewrite (app_assoc pre a).
    destruct (Z.eqb_spec (len find_this) (len replace_with)) as [E|Hne1]; [by apply replace_same_exact|].
    destruct (Z.ltb_spec (len replace_with) (len find_this)) as [Hlt|Hge].
    { pose proof (replace_shorter_exact find_this replace_with Ht b ps Hb Hlt (pre ++ a) [] _ _ Hf eq_refl) as E.
      cbn [app] in E. by rewrite app_nil_r in E. }
    destruct Hw as [Hw|Hw]; [lia|].
    destruct (count_matches_exact find_this replace_with Ht (pre ++ a) b ps Hb (pre ++ a) (pre ++ a) 0
      (len ((pre ++ a) ++ find_this ++ b)) _ Hf (matched_first _ _ _)) as (P & Q & k & c & -> & _ & E & HP & EQ).
    cbn [mbind option_bind]. rewrite <- EQ, Nat.sub_0_r, E.
    set (gap := Z.of_nat (k + 1) * (len replace_with - len find_this)).
    replace (resize (P ++ find_this ++ c) (len (P ++ find_this ++ c) + gap)) with
      (P ++ find_this ++ c ++ replicate (Z.to_nat gap) 0 ++ []).
    2:{ unfold resize. rewrite firstn_all2 by (unfold len; unfold gap; nia). rewrite app_nil_r, <- !app_assoc.
        do 4 f_equal. unfold len. lia. }
    replace (len (P ++ find_this ++ c) + gap) with (len (P ++ find_this ++ c ++ replicate (Z.to_nat gap) 0)).
    2:{ rewrite !len_app. unfold len at 4. rewrite length_replicate. unfold gap. nia. }
    rewrite (replace_longer_exact find_this replace_with Ht Hw _ P Q k) ; [by rewrite app_nil_r | lia | done | |].
    + pose proof (matched_count find_this replace_with Ht _ _ _ _ HP). rewrite !length_app in *. lia.
    + unfold len at 1. rewrite length_replicate, Z2Nat.id; [unfold gap; f_equal; lia | unfold gap; nia].
  - rewrite (overwrite_mid (pre ++ a) find_this b) by done. destruct ps as [|p ps]; [done|].
    rewrite (cut_join _ _ _ Hb). by rewrite <- !app_assoc.
Qed.

(** "a" becomes "bb" in "xaaya", from the second character on. *)
Lemma substrings_replaced_witness :
  exists ps, JoinString ps [97] = [97; 97; 121; 97] /\
    ReplaceSubstringsAfterOffset [120; 97; 97; 121; 97] 1 [97] [98; 98] = Some ([120] ++ JoinString ps [98; 98]) /\
    ReplaceSubstringsAfterOffset [120; 97; 97; 121; 97] 1 [97] [98; 98] =
      Some [120; 98; 98; 98; 98; 121; 98; 98].
Proof.
  destruct (substrings_replaced [97] [98; 98] [120] [97; 97; 121; 97]) as (ps & _ & H1 & H2 & _); [done|].
  exists ps. split; [exact H1|]. split; [|done]. apply H2. right. intros c tl [= <- <-]. apply not_elem_of_nil.
Defined.

(** A longer replacement of what overlaps itself: "aa" in "aaaaa". The matches are at 0 and
    2, but going back from 2 [rfind] finds one at 1, and the length of the text between is
    minus one, which is a [size_t]. *)
Example overlapping_matches_run_out :
  ReplaceSubstringsAfterOffset [97; 97; 97; 97; 97] 0 [97; 97] [98; 98; 98] = None /\
  memmove [97; 97; 97; 97; 98; 98; 98] 3 3 (2 - (1 + 2)) = None.
Proof. done. Qed.

(** So it goes for "aab" in "aabaaab", which does not overlap itself: the replacement
    "bbbb" of the match at 4 makes a new match at 3. *)
Example new_match_runs_out :
  ReplaceSubstringsAfterOffset [97; 97; 98; 97; 97; 97; 98] 0 [97; 97; 98] [98; 98; 98; 98] = None /\
  rfind_sub [97; 97; 98; 97; 97; 98; 98; 98; 98] [97; 97; 98] 3 = 3.
Proof. done. Qed.
