(* ===== verification/StringMatch.v ===== *)
(** * Matching wildcards ([base/strings/string_util.cc])

    [MatchPattern] on UTF-8 and UTF-16 texts: a pointer is the text from it to its end.
    [None] is a read past the end of a text. *)
From Stdlib Require Import ZArith Lia.
From stdpp Require Import base option list.
From S2P Require Import Prelude Unicode StdString.

Local Open Scope Z_scope.

#[local] Ltac Zify.zify_post_hook ::= Z.to_euclidean_division_equations.

Definition IsWildcard (character : Z) : bool := (character =? 42) || (character =? 63).

Section Match.

(** [NextCharUTF8] or [NextCharUTF16]: a code point and the text after it. *)
Context (next : list Z -> option (Z * list Z)).

(** [escape] is the place of the backslash that was just read. *)
Fixpoint EatSameChars (turns : nat) (escape : option (list Z)) (pattern string : list Z)
    : option (list Z * list Z) :=
  match turns with
  | O => None
  | S turns =>
      match pattern, string with
      | p :: _, _ :: _ =>
          if bool_decide (escape = None) && IsWildcard p then Some (pattern, string)
          else if bool_decide (escape = None) && (p =? 92) then
            '(_, pattern') ← next pattern; EatSameChars turns (Some pattern) pattern' string
          else
            '(pattern_char, pattern_next) ← next pattern;
            '(string_char, string_next) ← next string;
            if (pattern_char =? string_char) && negb (pattern_char =? CBU_SENTINEL)
            then EatSameChars turns None pattern_next string_next
            else Some (default pattern escape, string)
      | _, _ => Some (pattern, string)
      end
  end.

Fixpoint EatWildcard (turns : nat) (pattern : list Z) : option (list Z) :=
  match turns with
  | O => None
  | S turns =>
      match pattern with
      | [] => Some []
      | p :: _ =>
          if negb (IsWildcard p) then Some pattern
          else '(_, pattern) ← next pattern; EatWildcard turns pattern
      end
  end.

(** [while (eval != eval_end) { if (...) return true; eval++; }]: whether it returned. *)
Fixpoint try_suffixes (matches : list Z -> option bool) (eval : list Z) : option bool :=
  match eval with
  | [] => Some false
  | _ :: rest => found ← matches eval; if found : bool then Some true else try_suffixes matches rest
  end.

Definition kMaxDepth : nat := 16.

(** [levels] is [kMaxDepth + 1 - depth]. *)
Fixpoint MatchPatternT (levels : nat) (eval pattern : list Z) : option bool :=
  match levels with
  | O => Some false
  | S levels =>
      '(pattern, eval) ← EatSameChars (S (length pattern)) None pattern eval;
      match eval, pattern with
      | [], _ => rest ← EatWildcard (S (length pattern)) pattern; Some (bool_decide (rest = []))
      | _ :: _, [] => Some false
      | _ :: _, p :: _ =>
          '(_, next_pattern) ← next pattern;
          if p =? 63 then
            found ← MatchPatternT levels eval next_pattern;
            if found : bool then Some true
            else '(_, next_eval) ← next eval; MatchPatternT levels next_eval next_pattern
          else if p =? 42 then
            next_pattern ← EatWildcard (S (length next_pattern)) next_pattern;
            found ← try_suffixes (fun eval => MatchPatternT levels eval next_pattern) eval;
            if found : bool then Some true
            else rest ← EatWildcard (S (length pattern)) pattern; Some (bool_decide (rest = []))
          else Some false
      end
  end.
End Match.

Definition CBU16_IS_LEAD (c : Z) : bool := Z.land c 0xfffffc00 =? 0xd800.

Definition CBU16_NEXT (s : list Z) (i length : Z) : option (Z * Z) :=
  c ← char_at s i;
  let i := i + 1 in
  if CBU16_IS_LEAD c && (i <? length) then
    c2 ← char_at s i;
    if CBU16_IS_TRAIL c2 then Some (i + 1, CBU16_GET_SUPPLEMENTARY c c2) else Some (i, c)
  else Some (i, c).

(** The code point at the start of a text, and the rest. *)
Definition NextCharUTF8 (p : list Z) : option (Z * list Z) :=
  '(offset, c) ← CBU8_NEXT p 0 (len p); Some (c, drop (Z.to_nat offset) p).

Definition NextCharUTF16 (p : list Z) : option (Z * list Z) :=
  '(offset, c) ← CBU16_NEXT p 0 (len p); Some (c, drop (Z.to_nat offset) p).

Definition MatchPattern (eval pattern : list Z) : option bool := MatchPatternT NextCharUTF8 (S kMaxDepth) eval pattern.
Definition MatchPattern16 (eval pattern : list Z) : option bool := MatchPatternT NextCharUTF16 (S kMaxDepth) eval pattern.

(** ** Patterns *)

Inductive token :=
  | Lit (c : Z)
  | Opt
  | Many
  | Dead.

(** A backslash takes the next character as it is; one at the end matches nothing. *)
Fixpoint tokens (pattern : list Z) : list token :=
  match pattern with
  | [] => []
  | c :: rest =>
      if c =? 42 then Many :: tokens rest
      else if c =? 63 then Opt :: tokens rest
      else if c =? 92 then match rest with [] => [Dead] | d :: rest => Lit d :: tokens rest end
      else Lit c :: tokens rest
  end.

(** The texts of a pattern: "?" is one character or none, "*" any text. *)
Inductive matches : list token -> list Z -> Prop :=
  | match_end : matches [] []
  | match_lit c ts s : matches ts s -> matches (Lit c :: ts) (c :: s)
  | match_opt_none ts s : matches ts s -> matches (Opt :: ts) s
  | match_opt_one c ts s : matches ts s -> matches (Opt :: ts) (c :: s)
  | match_many_none ts s : matches ts s -> matches (Many :: ts) s
  | match_many_more c ts s : matches (Many :: ts) s -> matches (Many :: ts) (c :: s).

(** The levels of recursion a pattern takes: one for each "?" and each group of wildcards
    that begins with a "*". *)
Fixpoint levels (in_group : bool) (ts : list token) : nat :=
  match ts with
  | [] => O
  | Lit _ :: ts | Dead :: ts => levels false ts
  | Opt :: ts => if in_group then levels true ts else S (levels false ts)
  | Many :: ts => if in_group then levels true ts else S (levels true ts)
  end.

(** ** The same algorithm on code points *)

Fixpoint same (pattern string : list Z) : list Z * list Z :=
  match pattern, string with
  | p :: ps, c :: cs =>
      if IsWildcard p then (pattern, string)
      else if p =? 92 then
        match ps with
        | [] => ([], string)
        | q :: ps => if q =? c then same ps cs else (pattern, string)
        end
      else if p =? c then same ps cs else (pattern, string)
  | _, _ => (pattern, string)
  end.

Fixpoint drop_wildcards (pattern : list Z) : list Z :=
  match pattern with
  | [] => []
  | p :: rest => if IsWildcard p then drop_wildcards rest else pattern
  end.

Fixpoint some_suffix (f : list Z -> bool) (eval : list Z) : bool :=
  match eval with
  | [] => false
  | _ :: rest => f eval || some_suffix f rest
  end.

Fixpoint match_points (n : nat) (eval pattern : list Z) : bool :=
  match n with
  | O => false
  | S n =>
      match same pattern eval with
      | (pattern, []) => bool_decide (drop_wildcards pattern = [])
      | ([], _ :: _) => false
      | (p :: next_pattern, (_ :: next_eval) as eval) =>
          if p =? 63 then match_points n eval next_pattern || match_points n next_eval next_pattern
          else if p =? 42 then
            some_suffix (fun eval => match_points n eval (drop_wildcards next_pattern)) eval
            || bool_decide (drop_wildcards (p :: next_pattern) = [])
          else false
      end
  end.

(** *** It is sound *)

Lemma wildcard_token p : IsWildcard p = true -> p = 42 \/ p = 63.
Proof. unfold IsWildcard. rewrite orb_true_iff, !Z.eqb_eq. tauto. Qed.

Lemma tokens_wildcard p ps : IsWildcard p = true ->
  tokens (p :: ps) = (if p =? 42 then Many else Opt) :: tokens ps.
Proof. by intros [->| ->]%wildcard_token. Qed.

Lemma tokens_plain p ps : IsWildcard p = false -> p <> 92 -> tokens (p :: ps) = Lit p :: tokens ps.
Proof.
  unfold IsWildcard. intros [H1 H2]%orb_false_iff Hp. cbn [tokens]. rewrite H1, H2.
  by rewrite (proj2 (Z.eqb_neq _ _) Hp).
Qed.

Lemma drop_wildcards_matches ps s :
  matches (tokens (drop_wildcards ps)) s -> matches (tokens ps) s.
Proof.
  induction ps as [|p ps IH]; cbn [drop_wildcards]; [done|]. destruct (IsWildcard p) eqn:E; [|done].
  intros H. rewrite tokens_wildcard by done. destruct (p =? 42); [apply match_many_none | apply match_opt_none]; auto.
Qed.

Lemma drop_wildcards_empty ps : matches (tokens ps) [] <-> drop_wildcards ps = [].
Proof.
  split; [|intros H; apply drop_wildcards_matches; rewrite H; constructor].
  induction ps as [|p ps IH]; cbn [drop_wildcards]; [done|]. intros H.
  destruct (IsWildcard p) eqn:E.
  - rewrite tokens_wildcard in H by done. apply IH. destruct (p =? 42); by inversion H.
  - exfalso. destruct (decide (p = 92)) as [->|Hp]; [destruct ps; inversion H|].
    rewrite tokens_plain in H by done. inversion H.
Qed.

(** The characters in common do not matter, and where they end there is a wildcard, no
    match, or an end. *)
Lemma same_exact ps cs : forall ps' cs', same ps cs = (ps', cs') ->
  (matches (tokens ps) cs <-> matches (tokens ps') cs') /\
  (levels false (tokens ps') <= levels false (tokens ps))%nat /\
  (forall p q c d, ps' = p :: q -> cs' = c :: d -> IsWildcard p = true \/ ~ matches (tokens ps') cs').
Proof.
  revert ps. induction cs as [|c cs IH]; intros ps ps' cs' E.
  { destruct ps; injection E as <- <-; (split; [done|]); (split; [done|]); done. }
  destruct ps as [|p ps]; [injection E as <- <-; split; [done|]; split; [done|]; done|]. cbn [same] in E.
  destruct (IsWildcard p) eqn:Hw.
  { injection E as <- <-. split; [done|]. split; [done|]. intros ? ? ? ? [= <- <-] _. by left. }
  destruct (Z.eqb_spec p 92) as [->|Hp].
  - destruct ps as [|q ps].
    { injection E as <- <-. split; [split; intros H; inversion H|]. split; [cbn; lia|]. done. }
    destruct (Z.eqb_spec q c) as [->|Hq].
    + apply IH in E as (H1 & H2 & H3). split; [|done]. rewrite <- H1. cbn.
      split; intros H; [by inversion H | by constructor].
    + injection E as <- <-. split; [done|]. split; [done|]. intros ? ? ? ? _ _. right. intros H. inversion H. congruence.
  - destruct (Z.eqb_spec p c) as [->|Hc].
    + apply IH in E as (H1 & H2 & H3). rewrite tokens_plain by done. split; [|done]. rewrite <- H1.
      split; intros H; [by inversion H | by constructor].
    + injection E as <- <-. split; [done|]. split; [done|]. intros ? ? ? ? _ _. right. rewrite tokens_plain by done.
      intros H. inversion H. congruence.
Qed.

Lemma some_suffix_spec f s : some_suffix f s = true <-> exists a u, s = a ++ u /\ u <> [] /\ f u = true.
Proof.
  induction s as [|c s IH]; simpl.
  { split; [done|]. intros (a & u & E & Hu & _). by destruct a, u. }
  rewrite orb_true_iff, IH. split.
  - intros [H|(a & u & -> & Hu & H)]; [by exists [], (c :: s) | by exists (c :: a), u].
  - intros (a & u & E & Hu & H). destruct a as [|d a]; simpl in E; [left; by rewrite E|].
    injection E as -> ->. right. by exists a, u.
Qed.

Lemma many_suffix ts s : matches (Many :: ts) s <-> exists a u, s = a ++ u /\ matches ts u.
Proof.
  split.
  - induction s as [|c s IH]; intros H; inversion H as [| | | |? ? H'|? ? ? H']; subst.
    + by exists [], [].
    + by exists [], (c :: s).
    + destruct (IH H') as (a & u & -> & Hu). by exists (c :: a), u.
  - intros (a & u & -> & H). induction a as [|c a IH]; [by apply match_many_none | by apply match_many_more].
Qed.

Lemma drop_wildcards_suffix ps s :
  matches (tokens ps) s -> exists a u, s = a ++ u /\ matches (tokens (drop_wildcards ps)) u.
Proof.
  revert s. induction ps as [|p ps IH]; intros s H; [by exists [], s|]. cbn [drop_wildcards].
  destruct (IsWildcard p) eqn:E; [|by exists [], s]. rewrite tokens_wildcard in H by done.
  assert (exists a u, s = a ++ u /\ matches (tokens ps) u) as (a & u & -> & Hu).
  { destruct (p =? 42); [by apply many_suffix|].
    inversion H as [| |? ? H'|c ? ? H'| |]; subst; [by exists [], s | by exists [c], s0]. }
  destruct (IH u Hu) as (b & w & -> & Hw). exists (a ++ b), w. by rewrite <- app_assoc.
Qed.

Lemma drop_wildcards_twice ps : drop_wildcards (drop_wildcards ps) = drop_wildcards ps.
Proof.
  induction ps as [|p ps IH]; [done|]. cbn [drop_wildcards]. destruct (IsWildcard p) eqn:E; [done|].
  cbn [drop_wildcards]. by rewrite E.
Qed.

Lemma levels_drop ps : levels false (tokens (drop_wildcards ps)) = levels true (tokens ps).
Proof.
  induction ps as [|p ps IH]; [done|]. cbn [drop_wildcards]. destruct (IsWildcard p) eqn:E.
  - rewrite IH, (tokens_wildcard _ _ E). by destruct (p =? 42).
  - destruct (decide (p = 92)) as [->|Hp]; [by destruct ps|]. by rewrite tokens_plain.
Qed.

(** What it accepts matches; and what matches is accepted at as many levels as the pattern
    takes. *)
Lemma match_points_exact n cs ps :
  (match_points n cs ps = true -> matches (tokens ps) cs) /\
  ((levels false (tokens ps) < n)%nat -> matches (tokens ps) cs -> match_points n cs ps = true).
Proof.
  revert cs ps. induction n as [|n IH]; intros cs ps; [split; [done | lia]|]. cbn [match_points].
  destruct (same ps cs) as [ps' cs'] eqn:E. apply same_exact in E as (H1 & H2 & H3). rewrite H1.
  destruct cs' as [|c cs'].
  { rewrite drop_wildcards_empty. destruct ps'; rewrite bool_decide_eq_true; tauto. }
  destruct ps' as [|p ps']; [split; [done|]; intros _ H; inversion H|].
  specialize (H3 p ps' c cs' eq_refl eq_refl).
  destruct (Z.eqb_spec p 63) as [->|Hp]; [|destruct (Z.eqb_spec p 42) as [->|Hp']].
  - change (tokens (63 :: ps')) with (Opt :: tokens ps') in *. cbn [levels] in H2. rewrite orb_true_iff. split.
    + intros [H|H]; [apply match_opt_none | apply match_opt_one]; by apply (proj1 (IH _ _)).
    + intros Hn H. inversion H as [| |? ? H'|? ? ? H'| |]; subst; [left | right]; apply (proj2 (IH _ _)); (lia || done).
  - change (tokens (42 :: ps')) with (Many :: tokens ps') in *. cbn [levels] in H2.
    rewrite orb_true_iff, bool_decide_eq_true, some_suffix_spec, many_suffix. split.
    + intros [(a & u & -> & _ & H)|H].
      * exists a, u. split; [done|]. apply drop_wildcards_matches. by apply (proj1 (IH _ _)).
      * exists (c :: cs'), []. split; [by rewrite app_nil_r|]. by apply drop_wildcards_empty.
    + intros Hn (a & u & -> & H). apply drop_wildcards_suffix in H as (b & w & -> & H).
      destruct (decide (w = [])) as [->|Hw].
      * right. apply drop_wildcards_empty in H. by rewrite drop_wildcards_twice in H.
      * left. exists (a ++ b), w. split; [by rewrite app_assoc|]. split; [done|]. apply (proj2 (IH _ _)); [|done].
        rewrite levels_drop. lia.
  - split; [done|]. intros _ H. destruct H3 as [H3%wildcard_token|H3]; [lia | by destruct H3].
Qed.

(** ** Texts of code points *)

Section Texts.
Context (enc : Z -> list Z) (next : list Z -> option (Z * list Z)).

Definition spelled (cs : list Z) : list Z := concat (enc <$> cs).

(** [next] reads the code points of a text; inside one it reads something else. *)
Context (next_point : forall c cs, scalar c -> Forall scalar cs -> next (enc c ++ spelled cs) = Some (c, spelled cs)).
Context (next_inside : forall c k cs, scalar c -> Forall scalar cs -> (0 < k < length (enc c))%nat ->
  exists x rest, next (drop k (enc c) ++ spelled cs) = Some (x, rest) /\ ~ scalar x).
Context (enc_head : forall c, scalar c -> exists u us, enc c = u :: us /\ (u = c \/ 128 <= u /\ 128 <= c)).

Lemma spelled_cons c cs : scalar c -> exists u us, spelled (c :: cs) = u :: us ++ spelled cs /\ enc c = u :: us /\
  IsWildcard u = IsWildcard c /\ (u =? 92) = (c =? 92) /\ (u =? 63) = (c =? 63) /\ (u =? 42) = (c =? 42).
Proof.
  intros H. destruct (enc_head c H) as (u & us & E & Hu). exists u, us. unfold spelled. cbn [fmap list_fmap concat].
  rewrite E. split; [done|]. split; [done|]. destruct Hu as [->|[H1 H2]]; [done|]. unfold IsWildcard.
  by rewrite !(proj2 (Z.eqb_neq u _)), !(proj2 (Z.eqb_neq c _)) by lia.
Qed.

Lemma next_spelled c cs : Forall scalar (c :: cs) -> next (spelled (c :: cs)) = Some (c, spelled cs).
Proof. intros [Hc H]%Forall_cons. by apply next_point. Qed.

Lemma spelled_empty cs : Forall scalar cs -> spelled cs = [] <-> cs = [].
Proof.
  intros H. split; [|by intros ->]. destruct H as [|c cs Hc H]; [done|].
  by destruct (spelled_cons c cs Hc) as (u & us & -> & _).
Qed.

Lemma spelled_turns c cs turns : scalar c -> (length (spelled (c :: cs)) < S turns)%nat -> (length (spelled cs) < turns)%nat.
Proof. intros Hc. destruct (spelled_cons c cs Hc) as (u & us & -> & _). simpl. rewrite length_app. lia. Qed.

Lemma scalar_not_sentinel c : scalar c -> (c =? CBU_SENTINEL) = false.
Proof. unfold scalar, CBU_SENTINEL. intros H. apply Z.eqb_neq. lia. Qed.

Lemma EatWildcard_exact ps turns : Forall scalar ps -> (length (spelled ps) < turns)%nat ->
  EatWildcard next turns (spelled ps) = Some (spelled (drop_wildcards ps)).
Proof.
  intros H. revert turns. induction H as [|p ps Hp H IH]; intros [|turns] Ht; try lia; [done|].
  pose proof (next_spelled p ps ltac:(by constructor)) as En. pose proof (spelled_turns _ _ _ Hp Ht) as Ht'.
  destruct (spelled_cons p ps Hp) as (u & us & E & _ & Hw & _). rewrite E in En |- *. cbn [EatWildcard drop_wildcards].
  rewrite Hw. destruct (IsWildcard p); cbn [negb]; [|by rewrite E]. rewrite En. cbn [mbind option_bind]. by apply IH.
Qed.

(** One turn of [EatSameChars]: two characters compared. *)
Definition compared (turns : nat) (escape : option (list Z)) (pattern string : list Z) : option (list Z * list Z) :=
  '(pattern_char, pattern_next) ← next pattern;
  '(string_char, string_next) ← next string;
  if (pattern_char =? string_char) && negb (pattern_char =? CBU_SENTINEL)
  then EatSameChars next turns None pattern_next string_next
  else Some (default pattern escape, string).

Lemma EatSame_step p ps string turns : scalar p -> Forall scalar ps -> string <> [] ->
  EatSameChars next (S turns) None (spelled (p :: ps)) string =
  if IsWildcard p then Some (spelled (p :: ps), string)
  else if p =? 92 then EatSameChars next turns (Some (spelled (p :: ps))) (spelled ps) string
  else compared turns None (spelled (p :: ps)) string.
Proof.
  intros Hp H Hs. destruct string as [|x string]; [done|].
  pose proof (next_spelled p ps ltac:(by constructor)) as En.
  destruct (spelled_cons p ps Hp) as (u & us & E & _ & Hw & Hb & _). unfold compared. rewrite E in En |- *. cbn [EatSameChars].
  rewrite Hw, Hb, bool_decide_eq_true_2 by done. cbn [andb]. destruct (IsWildcard p); [done|].
  destruct (p =? 92); [by rewrite En | done].
Qed.

Lemma EatSame_escaped p ps string turns escape : scalar p -> Forall scalar ps -> string <> [] ->
  EatSameChars next (S turns) (Some escape) (spelled (p :: ps)) string = compared turns (Some escape) (spelled (p :: ps)) string.
Proof.
  intros Hp H Hs. destruct string as [|x string]; [done|]. destruct (spelled_cons p ps Hp) as (u & us & E & _).
  unfold compared. rewrite E. cbn [EatSameChars]. by rewrite bool_decide_eq_false_2.
Qed.

Lemma compared_points p ps c cs turns escape : Forall scalar (p :: ps) -> Forall scalar (c :: cs) ->
  compared turns escape (spelled (p :: ps)) (spelled (c :: cs)) =
  if p =? c then EatSameChars next turns None (spelled ps) (spelled cs)
  else Some (default (spelled (p :: ps)) escape, spelled (c :: cs)).
Proof.
  intros Hp Hc. unfold compared. rewrite !next_spelled by done. cbn [mbind option_bind].
  apply Forall_cons in Hp as [Hp _]. rewrite (scalar_not_sentinel p Hp). by destruct (p =? c).
Qed.

Lemma EatSame_exact cs : Forall scalar cs -> forall ps turns, Forall scalar ps -> (length (spelled ps) < turns)%nat ->
  EatSameChars next turns None (spelled ps) (spelled cs) =
  Some (spelled (fst (same ps cs)), spelled (snd (same ps cs))).
Proof.
  induction 1 as [|c cs Hc H IH]; intros ps [|turns] Hps Ht; try lia.
  { destruct Hps as [|p ps Hp Hps]; [done|]. destruct (spelled_cons p ps Hp) as (u & us & E & _). simpl. by rewrite E. }
  destruct Hps as [|p ps Hp Hps]; [done|]. pose proof (spelled_turns _ _ _ Hp Ht) as Ht'.
  assert (spelled (c :: cs) <> []) as Hs by (rewrite spelled_empty; [done | by constructor]).
  rewrite EatSame_step by done. cbn [same]. destruct (IsWildcard p); [done|]. destruct (p =? 92).
  - destruct Hps as [|q ps Hq Hps]; [destruct turns; [lia | done]|]. destruct turns as [|turns]; [lia|].
    rewrite EatSame_escaped, compared_points by (done || by constructor). destruct (q =? c); [|done].
    apply IH; [done|]. by eapply spelled_turns.
  - rewrite compared_points by by constructor. destruct (p =? c); [by apply IH | done].
Qed.

(** Where the text goes on inside a code point, a pattern without wildcards in front
    matches nothing. *)
Lemma compared_inside p ps string turns escape x rest : Forall scalar (p :: ps) ->
  next string = Some (x, rest) -> ~ scalar x ->
  compared turns escape (spelled (p :: ps)) string = Some (default (spelled (p :: ps)) escape, string).
Proof.
  intros Hp E Hx. unfold compared. rewrite next_spelled, E by done. cbn [mbind option_bind].
  apply Forall_cons in Hp as [Hp _]. by rewrite (proj2 (Z.eqb_neq p x)) by congruence.
Qed.

(** The part of [MatchPatternT] after [EatSameChars]; [rec] is the recursion. *)
Definition body (rec : list Z -> list Z -> option bool) (eval pattern : list Z) : option bool :=
  match eval, pattern with
  | [], _ => rest ← EatWildcard next (S (length pattern)) pattern; Some (bool_decide (rest = []))
  | _ :: _, [] => Some false
  | _ :: _, p :: _ =>
      '(_, next_pattern) ← next pattern;
      if p =? 63 then
        found ← rec eval next_pattern;
        if found : bool then Some true else '(_, next_eval) ← next eval; rec next_eval next_pattern
      else if p =? 42 then
        next_pattern ← EatWildcard next (S (length next_pattern)) next_pattern;
        found ← try_suffixes (fun eval => rec eval next_pattern) eval;
        if found : bool then Some true
        else rest ← EatWildcard next (S (length pattern)) pattern; Some (bool_decide (rest = []))
      else Some false
  end.

Lemma MatchPatternT_step n eval pattern :
  MatchPatternT next (S n) eval pattern =
  '(pattern, eval) ← EatSameChars next (S (length pattern)) None pattern eval; body (MatchPatternT next n) eval pattern.
Proof. done. Qed.

Lemma body_plain rec string p ps : Forall scalar (p :: ps) -> IsWildcard p = false -> string <> [] ->
  body rec string (spelled (p :: ps)) = Some false.
Proof.
  intros Hp Hw Hs. pose proof (next_spelled p ps Hp) as En. apply Forall_cons in Hp as [Hp _].
  destruct (spelled_cons p ps Hp) as (u & us & E & _ & _ & _ & H1 & H2). rewrite E in En |- *. destruct string; [done|].
  unfold body. rewrite En. cbn [mbind option_bind]. apply orb_false_iff in Hw as [Hw1 Hw2]. by rewrite H1, H2, Hw1, Hw2.
Qed.

Lemma drop_wildcards_scalar ps : Forall scalar ps -> Forall scalar (drop_wildcards ps).
Proof. induction 1 as [|p ps Hp H IH]; cbn [drop_wildcards]; [done|]. destruct (IsWildcard p); [done | by constructor]. Qed.

Lemma drop_wildcards_head ps p qs : drop_wildcards ps = p :: qs -> IsWildcard p = false.
Proof. induction ps as [|q ps IH]; cbn [drop_wildcards]; [done|]. destruct (IsWildcard q) eqn:E; [done|]. by intros [= <- _]. Qed.

Lemma match_inside n ps string x rest : Forall scalar ps -> string <> [] -> next string = Some (x, rest) -> ~ scalar x ->
  MatchPatternT next n string (spelled (drop_wildcards ps)) = Some false.
Proof.
  intros H Hs E Hx. destruct n as [|n]; [done|]. rewrite MatchPatternT_step.
  apply drop_wildcards_scalar in H. pose proof (drop_wildcards_head ps) as Hw.
  destruct H as [|p qs Hp H]; [by destruct string|]. specialize (Hw p qs eq_refl).
  rewrite EatSame_step, Hw by done. destruct (p =? 92).
  - destruct H as [|q qs Hq H].
    + destruct (spelled_cons p [] Hp) as (u & us & -> & _). by destruct string.
    + destruct (spelled_cons p (q :: qs) Hp) as (u & us & Et & _). rewrite Et. cbn [length]. rewrite <- Et.
      rewrite EatSame_escaped, (compared_inside _ _ _ _ _ x rest) by (done || by constructor). cbn [mbind option_bind default].
      apply body_plain; [constructor; [done | by constructor] | done..].
  - rewrite (compared_inside _ _ _ _ _ x rest) by (done || by constructor). cbn [mbind option_bind default].
    apply body_plain; [by constructor | done..].
Qed.

Lemma try_inside M c cs k : scalar c -> Forall scalar cs -> (0 < k)%nat ->
  (forall j, (0 < j < length (enc c))%nat -> M (drop j (enc c) ++ spelled cs) = Some false) ->
  try_suffixes M (drop k (enc c) ++ spelled cs) = try_suffixes M (spelled cs).
Proof.
  intros Hc H Hk HM. remember (length (enc c) - k)%nat as d eqn:Hd. revert k Hk Hd. induction d as [|d IH]; intros k Hk Hd.
  - by rewrite drop_ge by lia.
  - destruct (drop k (enc c)) as [|x us] eqn:E; [done|]. pose proof (HM k ltac:(lia)) as Hm. rewrite E in Hm.
    cbn [app try_suffixes] in *. rewrite Hm. cbn [mbind option_bind]. rewrite <- (IH (S k)) by lia. do 2 f_equal.
    change (S k) with (1 + k)%nat. rewrite Nat.add_comm, <- drop_drop, E. done.
Qed.

Lemma try_suffixes_exact M f cs : Forall scalar cs ->
  (forall cs, Forall scalar cs -> M (spelled cs) = Some (f cs)) ->
  (forall c k cs, scalar c -> Forall scalar cs -> (0 < k < length (enc c))%nat ->
     M (drop k (enc c) ++ spelled cs) = Some false) ->
  try_suffixes M (spelled cs) = Some (some_suffix f cs).
Proof.
  intros H HM Hin. induction H as [|c cs Hc H IH]; [done|]. pose proof (HM (c :: cs) ltac:(by constructor)) as Hm.
  destruct (spelled_cons c cs Hc) as (u & us & E & Ec & _). rewrite E in Hm |- *. cbn [try_suffixes some_suffix].
  rewrite Hm. cbn [mbind option_bind]. destruct (f (c :: cs)); [done|]. cbn [orb]. rewrite <- IH.
  pose proof (try_inside M c cs 1 Hc H ltac:(lia) (fun j Hj => Hin c j cs Hc H Hj)) as Ht. by rewrite Ec in Ht.
Qed.

Lemma same_scalar ps cs : Forall scalar ps -> Forall scalar cs ->
  Forall scalar (fst (same ps cs)) /\ Forall scalar (snd (same ps cs)).
Proof.
  intros Hp H. revert ps Hp. induction H as [|c cs Hc H IH]; intros ps Hp; [destruct Hp; split; by constructor|].
  destruct Hp as [|p ps Hp Hps]; [split; by constructor|]. cbn [same].
  destruct (IsWildcard p); [split; by constructor|]. destruct (p =? 92).
  - destruct Hps as [|q ps Hq Hps]; [split; by constructor|]. destruct (q =? c); [by apply IH | split; [constructor; [done | by constructor] | by constructor]].
  - destruct (p =? c); [by apply IH | split; by constructor].
Qed.

Lemma MatchPatternT_exact n cs ps : Forall scalar cs -> Forall scalar ps ->
  MatchPatternT next n (spelled cs) (spelled ps) = Some (match_points n cs ps).
Proof.
  revert cs ps. induction n as [|n IH]; intros cs ps Hcs Hps; [done|]. rewrite MatchPatternT_step.
  rewrite EatSame_exact by (done || lia). cbn [mbind option_bind match_points].
  destruct (same_scalar ps cs Hps Hcs) as [Hp Hc]. destruct (same ps cs) as [ps' cs']. cbn [fst snd] in *.
  clear Hps Hcs ps cs. destruct Hc as [|c cs Hc H].
  { cbn [spelled fmap list_fmap concat body]. rewrite EatWildcard_exact by (done || lia). cbn [mbind option_bind].
    assert (bool_decide (spelled (drop_wildcards ps') = []) = bool_decide (drop_wildcards ps' = [])) as ->
      by (apply bool_decide_ext, spelled_empty, drop_wildcards_scalar, Hp). by destruct ps'. }
  destruct Hp as [|p ps Hp Hps]; [by destruct (spelled_cons c cs Hc) as (u & us & -> & _)|].
  pose proof (next_spelled p ps ltac:(by constructor)) as Ep. pose proof (next_spelled c cs ltac:(by constructor)) as Ec.
  pose proof (EatWildcard_exact (p :: ps)) as Ew. pose proof (spelled_empty (drop_wildcards (p :: ps))) as Eb.
  pose proof (try_suffixes_exact (fun eval => MatchPatternT next n eval (spelled (drop_wildcards ps))) _ (c :: cs)
    ltac:(by constructor) (fun cs H => IH cs (drop_wildcards ps) H (drop_wildcards_scalar ps Hps))) as Et.
  pose proof (IH (c :: cs) ps) as I1. pose proof (IH cs ps) as I2.
  destruct (spelled_cons p ps Hp) as (u & us & E & _ & _ & _ & H1 & H2).
  destruct (spelled_cons c cs Hc) as (v & vs & E' & _). rewrite E in Ep, Ew |- *. rewrite E' in Ec, Et, I1 |- *.
  unfold body. rewrite Ep, H1, H2. cbn [mbind option_bind].
  destruct (p =? 63).
  { rewrite I1 by (done || by constructor). cbn [mbind option_bind]. destruct (match_points n (c :: cs) ps); [done|].
    rewrite Ec. cbn [mbind option_bind orb]. by apply I2. }
  destruct (p =? 42); [|done]. rewrite EatWildcard_exact by (done || lia). cbn [mbind option_bind].
  rewrite Et. 2:{ intros d k ds Hd Hds Hk. destruct (next_inside d k ds Hd Hds Hk) as (x & rest & Ex & Hx).
    eapply match_inside; [done | | exact Ex | exact Hx]. destruct (drop k (enc d)) eqn:Ed; [|done].
    apply (f_equal length) in Ed. rewrite length_drop in Ed. simpl in Ed. lia. }
  cbn [mbind option_bind]. destruct (some_suffix _ _); [done|]. cbn [orb].
  rewrite Ew by (lia || by constructor). cbn [mbind option_bind]. f_equal. apply bool_decide_ext, Eb.
  apply drop_wildcards_scalar. by constructor.
Qed.
End Texts.

(** ** UTF-8 and UTF-16 *)


Lemma spelled_units (enc : Z -> list Z) (P : Z -> Prop) cs :
  (forall c, scalar c -> Forall P (enc c)) -> Forall scalar cs -> Forall P (spelled enc cs).
Proof. intros H. induction 1 as [|c cs Hc Hcs IH]; [constructor|]. apply Forall_app. split; [by apply H | done]. Qed.

Lemma next8_point c cs : scalar c -> Forall scalar cs ->
  NextCharUTF8 (encode c ++ spelled encode cs) = Some (c, spelled encode cs).
Proof.
  intros Hc H. unfold NextCharUTF8.
  assert (Forall is_byte (encode c ++ spelled encode cs)) as Hb.
  { apply Forall_app. split; [by apply encode_bytes | by apply spelled_units; [apply encode_bytes|]]. }
  rewrite (CBU8_NEXT_encode _ 0 _ c (spelled encode cs)); [|done|lia|by unfold len|done|].
  - cbn [mbind option_bind]. by rewrite Z.add_0_l, Nat2Z.id, drop_app_length.
  - unfold window, len. rewrite Z.sub_0_r, Nat2Z.id, drop_0. by rewrite firstn_all.
Qed.

Lemma encode_tail c k b : scalar c -> (0 < k)%nat -> encode c !! k = Some b -> 128 <= b < 192.
Proof.
  intros Hc Hk. rewrite encode_exact by done. unfold scalar in Hc. destruct k as [|k]; [lia|].
  cmp_lia; destruct k as [|[|[|k]]]; cbn [lookup list_lookup]; intros [= <-]; lia.
Qed.

Lemma next8_inside c k cs : scalar c -> Forall scalar cs -> (0 < k < length (encode c))%nat ->
  exists x rest, NextCharUTF8 (drop k (encode c) ++ spelled encode cs) = Some (x, rest) /\ ~ scalar x.
Proof.
  intros Hc _ Hk. destruct (lookup_lt_is_Some_2 (encode c) k ltac:(lia)) as (b & E).
  rewrite (drop_S _ b) by done. pose proof (encode_tail c k b Hc ltac:(lia) E) as Hb.
  assert (is_byte b) as Hbb by (unfold is_byte; lia). cbn [app]. unfold NextCharUTF8, CBU8_NEXT. cbn [char_at].
  change (char_at _ 0) with (Some b). cbn [mbind option_bind].
  rewrite uint8_of_char, lead_of_char by done. rewrite (proj2 (Z.leb_le _ _)), (proj2 (Z.leb_gt 192 b)) by lia.
  eexists _, _. split; [done|]. unfold scalar, CBU_SENTINEL. lia.
Qed.

Lemma encode_head c : scalar c -> exists u us, encode c = u :: us /\ (u = c \/ 128 <= u /\ 128 <= c).
Proof.
  intros Hc. rewrite encode_exact by done. unfold scalar in Hc.
  cmp_lia; eexists _, _; (split; [done|]); first [by left | right; lia].
Qed.

Lemma CBU16_lead u : is_unit u -> CBU16_IS_LEAD u = (0xd800 <=? u) && (u <=? 0xdbff).
Proof.
  unfold is_unit. intros Hu. unfold CBU16_IS_LEAD. change 0xfffffc00 with (Z.shiftl (Z.ones (32 - 10)) 10).
  rewrite (land_high 32) by lia. change (2 ^ 10) with 1024. cmp_lia.
Qed.

Lemma next16_point c cs : scalar c -> Forall scalar cs ->
  NextCharUTF16 (encode16 c ++ spelled encode16 cs) = Some (c, spelled encode16 cs).
Proof.
  intros Hc _. pose proof (encode16_units c Hc) as Hu. rewrite encode16_exact in Hu |- * by done. unfold scalar in Hc.
  unfold NextCharUTF16, CBU16_NEXT. destruct (Z.leb_spec c 0xffff).
  - cbn [app]. change (char_at _ 0) with (Some c). cbn [mbind option_bind]. apply Forall_cons in Hu as [Hu _].
    rewrite CBU16_lead by done. replace ((0xd800 <=? c) && (c <=? 0xdbff)) with false by cmp_lia. done.
  - cbn [app]. set (u := c / 1024 + 0xd7c0) in *. set (v := 0xdc00 + c mod 1024) in *.
    apply Forall_cons in Hu as [Hu [Hv _]%Forall_cons]. change (char_at _ 0) with (Some u).
    change (char_at _ (0 + 1)) with (Some v). cbn [mbind option_bind].
    rewrite CBU16_lead, trail_unit by done.
    replace ((0xd800 <=? u) && (u <=? 0xdbff)) with true by (unfold u; cmp_lia).
    replace ((0xdc00 <=? v) && (v <=? 0xdfff)) with true by (unfold v; cmp_lia).
    rewrite (proj2 (Z.ltb_lt _ _)) by (rewrite !len_cons; pose proof (len_nonneg (spelled encode16 cs)); lia).
    cbn [andb mbind option_bind]. do 2 f_equal. unfold CBU16_GET_SUPPLEMENTARY, CBU16_SURROGATE_OFFSET.
    rewrite !Z.shiftl_mul_pow2 by lia. unfold u, v. lia.
Qed.

Lemma next16_inside c k cs : scalar c -> Forall scalar cs -> (0 < k < length (encode16 c))%nat ->
  exists x rest, NextCharUTF16 (drop k (encode16 c) ++ spelled encode16 cs) = Some (x, rest) /\ ~ scalar x.
Proof.
  intros Hc _ Hk. pose proof (encode16_units c Hc) as Hu. rewrite encode16_exact in Hk, Hu |- * by done.
  destruct (c <=? 0xffff); simpl in Hk; [lia|]. assert (k = 1%nat) as -> by lia. cbn [drop app].
  apply Forall_cons in Hu as [_ [Hv _]%Forall_cons]. set (v := 0xdc00 + c mod 1024) in *.
  unfold NextCharUTF16, CBU16_NEXT. change (char_at _ 0) with (Some v). cbn [mbind option_bind].
  rewrite CBU16_lead by done. replace ((0xd800 <=? v) && (v <=? 0xdbff)) with false by (unfold v; cmp_lia).
  eexists _, _. split; [done|]. unfold scalar, v. lia.
Qed.

Lemma encode16_head c : scalar c -> exists u us, encode16 c = u :: us /\ (u = c \/ 128 <= u /\ 128 <= c).
Proof.
  intros Hc. rewrite encode16_exact by done. unfold scalar in Hc.
  cmp_lia; eexists _, _; (split; [done|]); first [by left | right; lia].
Qed.

(** C37: on every valid text and pattern, in UTF-8 and in UTF-16, [MatchPattern] stays in
    the texts and ends with the same answer; it accepts only texts of the pattern, and all
    of them if the pattern takes at most [kMaxDepth] levels. *)
Theorem wildcards_match_exactly eval pattern :
  Forall scalar eval -> Forall scalar pattern ->
  exists answer, MatchPattern (spelled encode eval) (spelled encode pattern) = Some answer /\
    MatchPattern16 (spelled encode16 eval) (spelled encode16 pattern) = Some answer /\
    (answer = true -> matches (tokens pattern) eval) /\
    ((levels false (tokens pattern) <= kMaxDepth)%nat -> matches (tokens pattern) eval -> answer = true).
Proof.
  intros He Hp. exists (match_points (S kMaxDepth) eval pattern). unfold MatchPattern, MatchPattern16.
  rewrite (MatchPatternT_exact encode NextCharUTF8 next8_point next8_inside encode_head) by done.
  rewrite (MatchPatternT_exact encode16 NextCharUTF16 next16_point next16_inside encode16_head) by done.
  destruct (match_points_exact (S kMaxDepth) eval pattern) as [H1 H2].
  split; [done|]. split; [done|]. split; [done|]. intros H. apply H2. lia.
Qed.

(** "h?*\*" and "h\u00e9llo*". *)
Lemma wildcards_match_exactly_witness :
  MatchPattern [104; 195; 169; 108; 108; 111; 42] [104; 63; 42; 92; 42] = Some true /\
  matches (tokens [104; 63; 42; 92; 42]) [104; 233; 108; 108; 111; 42].
Proof.
  destruct (wildcards_match_exactly [104; 233; 108; 108; 111; 42] [104; 63; 42; 92; 42]) as (b & H1 & _ & H2 & _);
    [unfold scalar; repeat constructor; lia.. |]. change (Some true = Some b) in H1. injection H1 as <-.
  split; [by vm_compute | by apply H2].
Defined.

(** Seventeen question marks are too many levels, although the text is one of the pattern. *)
Example too_many_question_marks :
  MatchPattern (replicate 17 97) (replicate 17 63) = Some false /\
  matches (tokens (replicate 17 63)) (replicate 17 97).
Proof. split; [by vm_compute|]. simpl. repeat apply match_opt_one. constructor. Qed.
