(* ===== verification/SafeSPrintf.v ===== *)
(** * Formatting into a buffer without allocation ([base/strings/safe_sprintf.cc])

    The class [Buffer] and both [SafeSNPrintf]. A character is its byte, 0 to 255. The
    caller's memory and the C strings are lists with checked accesses; [None] is an access
    outside of them or a failed [DEBUG_CHECK] of [Buffer], which compares what its
    arithmetic relies on. The [DEBUG_CHECK]s of the format string are those of a release
    build: they do nothing. *)
From Stdlib Require Import ZArith Lia.
From stdpp Require Import base option list.
From S2P Require Import Prelude StdString.

Local Open Scope Z_scope.

#[local] Ltac Zify.zify_post_hook ::= Z.to_euclidean_division_equations.

Definition kUpCaseHexDigits : list Z := [48; 49; 50; 51; 52; 53; 54; 55; 56; 57; 65; 66; 67; 68; 69; 70].
Definition kDownCaseHexDigits : list Z := [48; 49; 50; 51; 52; 53; 54; 55; 56; 57; 97; 98; 99; 100; 101; 102].

(** Memory. *)
Definition peek (m : list Z) (i : Z) : option Z := guard (0 <= i);; m !! Z.to_nat i.
Definition poke (m : list Z) (i x : Z) : option (list Z) :=
  guard (0 <= i < len m);; Some (<[Z.to_nat i := x]> m).

(** ** The class [Buffer] *)

Record Buffer := Buffer_ {
  buffer_ : list Z;
  size_ : Z;
  count_ : Z;
}.

Section SafeSPrintf.

(** The greatest [ssize_t], and the size of [NULL]. *)
Context (kSSizeMax sizeof_NULL : Z).

Definition new_Buffer (buffer : list Z) (size : Z) : option Buffer :=
  guard (0 < size <= kSSizeMax);; Some (Buffer_ buffer (size - 1) 0).

Definition OutOfAddressableSpace (b : Buffer) : bool := count_ b =? kSSizeMax - 1.

Definition GetCount (b : Buffer) : option Z := guard (count_ b < kSSizeMax);; Some (count_ b).

Definition IncrementCount (b : Buffer) (inc : Z) : option (bool * Buffer) :=
  guard (0 <= inc <= kSSizeMax - 1);;
  Some (if kSSizeMax - 1 - inc <? count_ b then (false, Buffer_ (buffer_ b) (size_ b) (kSSizeMax - 1))
        else (true, Buffer_ (buffer_ b) (size_ b) (count_ b + inc))).

Definition IncrementCountByOne (b : Buffer) : option (bool * Buffer) := IncrementCount b 1.

Definition Out (b : Buffer) (ch : Z) : option (bool * Buffer) :=
  if (1 <=? size_ b) && (count_ b <? size_ b) then
    m ← poke (buffer_ b) (count_ b) ch; IncrementCountByOne (Buffer_ m (size_ b) (count_ b))
  else '(_, b) ← IncrementCountByOne b; Some (false, b).

(** Where the code does not look at the result. *)
Definition out (b : Buffer) (ch : Z) : option Buffer := snd <$> Out b ch.

Fixpoint Pad_loop (turns : nat) (b : Buffer) (pad padding len : Z) : option (bool * Buffer) :=
  match turns with
  | O => None
  | S turns =>
      if padding <=? len then Some (true, b)
      else
        '(fits, b) ← Out b pad;
        if fits : bool then Pad_loop turns b pad (padding - 1) len
        else
          b ← (if padding - 1 =? 0 then Some b else snd <$> IncrementCount b (padding - 1 - len));
          Some (false, b)
  end.

(** It stops at the first character that does not fit. *)
Definition Pad (b : Buffer) (pad padding len : Z) : option (bool * Buffer) :=
  guard (pad <> 0);;
  guard (padding <= kSSizeMax);;
  Pad_loop (S (S (length (buffer_ b)))) b pad padding len.

Definition GetInsertionPoint (b : Buffer) : Z :=
  let idx := count_ b in if size_ b <? idx then size_ b else idx.

Definition delete_Buffer (b : Buffer) : option (list Z) := poke (buffer_ b) (GetInsertionPoint b) 0.

(** *** [IToASCII] *)

(** The prefix of a number padded with zeros. *)
Fixpoint put_prefix (b : Buffer) (prefix : list Z) (padding : Z) : option (Buffer * Z) :=
  match prefix with
  | [] => Some (b, padding)
  | c :: prefix =>
      let padding := if padding =? 0 then padding else padding - 1 in
      b ← out b c; put_prefix b prefix padding
  end.

(** [for (; move < end; ++move) *move = move[1];], [n] turns. *)
Fixpoint shift_down (n : nat) (m : list Z) (move : Z) : option (list Z) :=
  match n with
  | O => Some m
  | S n => c ← peek m (move + 1); m ← poke m move c; shift_down n m (move + 1)
  end.

(** Room for one more digit: [discarded] digits from the right are given up. *)
Definition make_room (b : Buffer) (start discarded : Z) : option (Buffer * Z) :=
  if size_ b <=? count_ b then
    if start <? size_ b then
      m ← shift_down (Z.to_nat (size_ b - 1 - start)) (buffer_ b) start;
      Some (Buffer_ m (size_ b) (count_ b - 1), discarded + 1)
    else if 1 <? count_ b - size_ b then
      Some (Buffer_ (buffer_ b) (size_ b) (count_ b - 1), discarded + 1)
    else Some (b, discarded)
  else Some (b, discarded).

(** [prefix] is what is left of it, reversed. *)
Record Digits := Digits_ {
  target : Buffer;
  num : Z;
  minint : Z;
  padding : Z;
  prefix : list Z;
  discarded : Z;
  started : bool;
}.

(** The character of this turn, and the prefix after it. *)
Definition digit (hex : list Z) (base pad : Z) (d : Digits) : option (Z * list Z) :=
  if (num d =? 0) && started d then
    match prefix d with c :: rest => Some (c, rest) | [] => Some (pad, []) end
  else c ← peek hex (num d mod base + minint d); Some (c, prefix d).

(** One turn of the [do ... while]. *)
Definition digit_turn (hex : list Z) (base pad prefix_length start : Z) (d : Digits) : option Digits :=
  '(b, discarded) ← make_room (target d) start (discarded d);
  '(c, prefix) ← digit hex base pad d;
  b ← out b c;
  let num := num d / base in
  if 0 <? padding d then
    let padding := padding d - 1 in
    if 8 * 8 + prefix_length <? discarded then
      '(_, b) ← IncrementCount b padding; Some (Digits_ b num 0 0 prefix discarded true)
    else Some (Digits_ b num 0 padding prefix discarded true)
  else Some (Digits_ b num 0 (padding d) prefix discarded true).

Fixpoint digits_loop (turns : nat) (hex : list Z) (base pad prefix_length start : Z) (d : Digits) : option Digits :=
  match turns with
  | O => None
  | S turns =>
      d ← digit_turn hex base pad prefix_length start d;
      if (num d =? 0) && (padding d =? 0) && bool_decide (prefix d = []) then Some d
      else digits_loop turns hex base pad prefix_length start d
  end.

(** [while (--back > front) ...] *)
Fixpoint reverse_loop (turns : nat) (m : list Z) (front back : Z) : option (list Z) :=
  match turns with
  | O => None
  | S turns =>
      let back := back - 1 in
      if front <? back then
        ch ← peek m back; c ← peek m front; m ← poke m back c; m ← poke m front ch;
        reverse_loop turns m (front + 1) back
      else Some m
  end.

(** [i] is an [int64_t]. *)
Definition IToASCII (b : Buffer) (sign upcase : bool) (i base pad padding : Z) (prefix : list Z)
    : option (bool * Buffer) :=
  guard (2 <= base <= 16 /\ (sign = true -> base = 10) /\ (pad = 48 \/ pad = 32) /\ padding <= kSSizeMax /\
         ~ (sign = true /\ prefix <> []));;
  let negative := sign && (i <? 0) in
  let prefix := if negative then [45] else prefix in
  let is_min := negative && (i =? - 2 ^ 63) in
  let minint := if is_min then 1 else 0 in
  let num := if negative then if is_min then - (i + 1) else - i else Int.static_cast Int.uint64 i in
  '(b, padding, prefix) ←
    (if bool_decide (prefix = []) then Some (b, padding, [])
     else if pad =? 48 then '(b, padding) ← put_prefix b prefix padding; Some (b, padding, [])
     else Some (b, padding, prefix));
  let prefix_length := len prefix in
  let start := count_ b in
  let hex := if upcase then kUpCaseHexDigits else kDownCaseHexDigits in
  d ← digits_loop (length (buffer_ b) + 256) hex base pad prefix_length start
        (Digits_ b num minint padding (reverse prefix) 0 false);
  m ← reverse_loop (S (length (buffer_ (target d)))) (buffer_ (target d)) start (GetInsertionPoint (target d));
  '(_, b) ← IncrementCount (Buffer_ m (size_ (target d)) (count_ (target d))) (discarded d);
  Some (discarded d =? 0, b).

(** ** Arguments and formats *)

(** [integer.i] and its width in bytes; a string's characters, if it is not null, and the
    pointer's value. *)
Inductive Arg :=
  | INT (i width : Z)
  | UINT (i width : Z)
  | STRING (str : option (list Z)) (addr : Z)
  | POINTER (ptr : Z).

Definition integer_arg (a : Arg) : option (Z * Z) :=
  match a with INT i width | UINT i width => Some (i, width) | _ => None end.

(** C++'s version of null. *)
Definition is_NULL (a : Arg) : bool :=
  match a with INT i width => (width =? sizeof_NULL) && (i =? 0) | _ => false end.

Definition is_digit (ch : Z) : bool := (48 <=? ch) && (ch <=? 57).

(** [*fmt++]: a format ends with its terminator. *)
Definition next_char (fmt : list Z) : option (Z * list Z) :=
  match fmt with [] => None | ch :: fmt => Some (ch, fmt) end.

(** The character after the digits, and the rest. *)
Fixpoint skip_digits (fmt : list Z) : option (Z * list Z) :=
  match fmt with
  | [] => None
  | ch :: fmt => if is_digit ch then skip_digits fmt else Some (ch, fmt)
  end.

(** From the digit [ch] on: the width, if it does not overflow, and the next character. *)
Fixpoint read_width (ch : Z) (fmt : list Z) (padding : Z) : option (option Z * Z * list Z) :=
  let max_padding := kSSizeMax - 1 in
  if (max_padding / 10 <? padding) || (max_padding - (ch - 48) <? 10 * padding) then
    '(ch, fmt) ← skip_digits fmt; Some (None, ch, fmt)
  else
    let padding := 10 * padding + ch - 48 in
    if max_padding <? padding then '(ch, fmt) ← skip_digits fmt; Some (None, ch, fmt)
    else
      match fmt with
      | [] => None
      | ch :: fmt => if is_digit ch then read_width ch fmt padding else Some (Some padding, ch, fmt)
      end.

(** Where a directive leads: the argument is not what it says, or does not exist; the
    output ends; or it goes on. *)
Inductive Expansion :=
  | fail_to_expand
  | end_of_output (b : Buffer)
  | expanded (b : Buffer).

Definition expand_char (b : Buffer) (padding : Z) (arg : Arg) : option Expansion :=
  match integer_arg arg with
  | None => Some fail_to_expand
  | Some (i, _) =>
      '(_, b) ← Pad b 32 padding 1;
      let as_char := Int.static_cast Int.uint8 i in
      if as_char =? 0 then Some (end_of_output b) else b ← out b as_char; Some (expanded b)
  end.

(** The number that [ch] prints, and its prefix. *)
Definition number_of (ch : Z) (arg : Arg) : option (Z * list Z) :=
  if ch =? 112 then
    i ← (match arg with
         | POINTER ptr => Some (Int.static_cast Int.int64 ptr)
         | STRING _ addr => Some (Int.static_cast Int.int64 addr)
         | _ => if is_NULL arg then Some 0 else None
         end);
    Some (i, [48; 120])
  else
    '(i, width) ← integer_arg arg;
    Some (if negb (ch =? 100) && (width <? 8) then Z.land i (Z.shiftl 1 (8 * width) - 1) else i, []).

Definition is_INT (a : Arg) : bool := match a with INT _ _ => true | _ => false end.

Definition base_of (ch : Z) : Z := if ch =? 111 then 8 else if ch =? 100 then 10 else 16.

Definition expand_number (b : Buffer) (ch pad padding : Z) (arg : Arg) : option Expansion :=
  match number_of ch arg with
  | None => Some fail_to_expand
  | Some (i, prefix) =>
      '(_, b) ← IToASCII b ((ch =? 100) && is_INT arg) (negb (ch =? 120)) i (base_of ch) pad padding prefix;
      Some (expanded b)
  end.

(** "<NULL>" *)
Definition null_text : list Z := [60; 78; 85; 76; 76; 62].

Definition string_of (arg : Arg) : option (list Z) :=
  match arg with
  | STRING str _ => Some (default null_text str)
  | _ => if is_NULL arg then Some null_text else None
  end.

Fixpoint put_string (b : Buffer) (s : list Z) : option Buffer :=
  match s with [] => Some b | c :: s => b ← out b c; put_string b s end.

Definition expand_string (b : Buffer) (padding : Z) (arg : Arg) : option Expansion :=
  match string_of arg with
  | None => Some fail_to_expand
  | Some s =>
      b ← (if padding =? 0 then Some b else snd <$> Pad b 32 padding (len s));
      b ← put_string b s; Some (expanded b)
  end.

(** "c", and the five that print a number. *)
Definition is_number_format (ch : Z) : bool := existsb (Z.eqb ch) [100; 111; 120; 88; 112].

(** The directive of [ch]: what it prints of the arguments from [cur_arg] on, and the next
    argument. [None] inside when [ch] takes no argument. *)
Definition expand (b : Buffer) (ch pad padding : Z) (args : list Arg) (cur_arg : nat)
    : option (option (Expansion * nat)) :=
  let arg_of f :=
    match args !! cur_arg with
    | None => Some (Some (fail_to_expand, cur_arg))
    | Some arg => e ← f arg; Some (Some (e, S cur_arg))
    end in
  if ch =? 99 then arg_of (expand_char b padding)
  else if is_number_format ch then arg_of (expand_number b ch pad padding)
  else if ch =? 115 then arg_of (expand_string b padding)
  else Some None.

(** The label [fail_to_expand] and the default: the directive is copied, and whether the
    format went on. *)
Definition copy_directive (b : Buffer) (ch : Z) : option (bool * Buffer) :=
  b ← out b 37; if ch =? 0 then Some (false, b) else b ← out b ch; Some (true, b).

(** The start of a directive: its width, 0 without one and [None] if it overflows; the
    character to pad with; the format character and the format after it. *)
Definition read_directive (fmt : list Z) : option (option Z * Z * Z * list Z) :=
  '(ch, fmt) ← next_char fmt;
  if is_digit ch then '(width, ch', fmt) ← read_width ch fmt 0; Some (width, if ch =? 48 then 48 else 32, ch', fmt)
  else Some (Some 0, 32, ch, fmt).

(** The label [format_character_found]: whether the output goes on, and the next argument. *)
Definition format_character_found (b : Buffer) (width : option Z) (pad ch : Z) (args : list Arg) (cur_arg : nat)
    : option (bool * Buffer * nat) :=
  match width with
  | None =>
      let cur_arg := if (cur_arg <? length args)%nat then S cur_arg else cur_arg in
      '(more, b) ← copy_directive b ch; Some (more, b, cur_arg)
  | Some padding =>
      expansion ← expand b ch pad padding args cur_arg;
      match expansion with
      | Some (expanded b, cur_arg) => Some (true, b, cur_arg)
      | Some (end_of_output b, cur_arg) => Some (false, b, cur_arg)
      | Some (fail_to_expand, cur_arg) => '(more, b) ← copy_directive b ch; Some (more, b, cur_arg)
      | None =>
          if ch =? 37 then b ← out b 37; Some (true, b, cur_arg)
          else '(more, b) ← copy_directive b ch; Some (more, b, cur_arg)
      end
  end.

(** What comes after a percent sign. *)
Definition directive (b : Buffer) (fmt : list Z) (args : list Arg) (cur_arg : nat)
    : option (bool * Buffer * list Z * nat) :=
  '(width, pad, ch, fmt) ← read_directive fmt;
  '(more, b, cur_arg) ← format_character_found b width pad ch args cur_arg; Some (more, b, fmt, cur_arg).

Fixpoint format_loop (turns : nat) (b : Buffer) (fmt : list Z) (args : list Arg) (cur_arg : nat) : option Buffer :=
  match turns with
  | O => None
  | S turns =>
      '(ch, rest) ← next_char fmt;
      if (ch =? 0) || OutOfAddressableSpace b then Some b
      else if ch =? 37 then
        '(more, b, fmt, cur_arg) ← directive b rest args cur_arg;
        if more : bool then format_loop turns b fmt args cur_arg else Some b
      else b ← out b ch; format_loop turns b rest args cur_arg
  end.

(** The result, and the caller's memory after the destructor of the [Buffer]. [fmt] is the
    format with its terminator. *)
Definition SafeSNPrintf (buf : list Z) (sz : Z) (fmt : list Z) (args : list Arg) : option (Z * list Z) :=
  if sz <? 1 then Some (-1, buf)
  else
    b ← new_Buffer buf (if kSSizeMax <? sz then kSSizeMax else sz);
    b ← format_loop (S (length fmt)) b fmt args 0;
    n ← GetCount b;
    m ← delete_Buffer b; Some (n, m).

(** Without arguments: [for (; *src; ++src)]. *)
Fixpoint copy_loop (b : Buffer) (src : list Z) : option Buffer :=
  match src with
  | [] => None
  | c :: rest =>
      if c =? 0 then Some b
      else
        b ← out b c;
        match rest with
        | c2 :: rest' => if (c =? 37) && (c2 =? 37) then copy_loop b rest' else copy_loop b rest
        | [] => if c =? 37 then None else copy_loop b rest
        end
  end.

Definition SafeSNPrintf_verbatim (buf : list Z) (sz : Z) (fmt : list Z) : option (Z * list Z) :=
  if sz <? 1 then Some (-1, buf)
  else
    b ← new_Buffer buf (if kSSizeMax <? sz then kSSizeMax else sz);
    b ← copy_loop b fmt;
    n ← GetCount b;
    m ← delete_Buffer b; Some (n, m).
End SafeSPrintf.
