(* ===== verification/SafeSPrintfProps.v ===== *)
(** * What the formatting functions print

    The text that a format and its arguments stand for is defined without a buffer
    ([format_text]); [safe_sprintf_exact] shows that both functions of [SafeSPrintf] print
    it, cut at the end of the caller's buffer. The relation [shows] between a [Buffer] and
    a text is kept by each of its operations; numbers, whose digits are written from the
    right and which give digits up when the buffer is full, have the relations of
    Section [Number]. *)
From Stdlib Require Import ZArith Lia.
From stdpp Require Import base option sets list.
From S2P Require Import Prelude StdString SafeSPrintf.

Local Open Scope Z_scope.

#[local] Ltac Zify.zify_post_hook ::= Z.to_euclidean_division_equations.

(** * The text without a limit *)

(** The digits of a number, the last first. *)
Fixpoint digits_rev (turns : nat) (hex : list Z) (base n : Z) : list Z :=
  match turns with
  | O => []
  | S turns =>
      default 0 (hex !! Z.to_nat (n mod base)) ::
      (if n / base =? 0 then [] else digits_rev turns hex base (n / base))
  end.

Definition digits_text (upcase : bool) (base n : Z) : list Z :=
  reverse (digits_rev 64 (if upcase then kUpCaseHexDigits else kDownCaseHexDigits) base n).

Definition fill (c n : Z) : list Z := replicate (Z.to_nat n) c.

(** Zeros go between the prefix and the digits, spaces before both. *)
Definition padded_number (pad padding : Z) (prefix ds : list Z) : list Z :=
  if pad =? 48 then prefix ++ fill pad (padding - len prefix - len ds) ++ ds
  else fill pad (padding - len prefix - len ds) ++ prefix ++ ds.

Definition integer_text (sign upcase : bool) (i base pad padding : Z) (prefix : list Z) : list Z :=
  if sign && (i <? 0) then padded_number pad padding [45] (digits_text upcase base (- i))
  else padded_number pad padding prefix (digits_text upcase base (i mod 2 ^ 64)).

Section Text.
Context (kSSizeMax sizeof_NULL : Z).

(** What an argument prints, and whether the output goes on; [None] if it does not fit the
    directive. *)
Definition argument_text (ch pad padding : Z) (arg : Arg) : option (list Z * bool) :=
  if ch =? 99 then
    '(i, _) ← integer_arg arg;
    let c := Int.static_cast Int.uint8 i in
    Some (fill 32 (padding - 1) ++ (if c =? 0 then [] else [c]), negb (c =? 0))
  else if ch =? 115 then
    s ← string_of sizeof_NULL arg; Some (fill 32 (padding - len s) ++ s, true)
  else
    '(i, prefix) ← number_of sizeof_NULL ch arg;
    Some (integer_text ((ch =? 100) && is_INT arg) (negb (ch =? 120)) i (base_of ch) pad padding prefix, true).

(** The text of a directive that is copied. *)
Definition copied (ch : Z) : list Z * bool := if ch =? 0 then ([37], false) else ([37; ch], true).

Definition takes_argument (ch : Z) : bool := (ch =? 99) || is_number_format ch || (ch =? 115).

(** A directive: its text, whether the output goes on, and the argument after it. *)
Definition directive_text (width : option Z) (pad ch : Z) (args : list Arg) (cur_arg : nat) : list Z * bool * nat :=
  match width, args !! cur_arg with
  | None, None => (copied ch, cur_arg)
  | None, Some _ => (copied ch, S cur_arg)
  | Some padding, arg =>
      if takes_argument ch then
        match arg with
        | None => (copied ch, cur_arg)
        | Some arg => (default (copied ch) (argument_text ch pad padding arg), S cur_arg)
        end
      else (if ch =? 37 then ([37], true) else copied ch, cur_arg)
  end.

Fixpoint format_text (turns : nat) (fmt : list Z) (args : list Arg) (cur_arg : nat) : option (list Z) :=
  match turns with
  | O => None
  | S turns =>
      '(ch, rest) ← next_char fmt;
      if ch =? 0 then Some []
      else if ch =? 37 then
        '(width, pad, ch, fmt) ← read_directive kSSizeMax rest;
        let '(text, more, cur_arg) := directive_text width pad ch args cur_arg in
        if more : bool then app text <$> format_text turns fmt args cur_arg else Some text
      else cons ch <$> format_text turns rest args cur_arg
  end.
End Text.

(** The format alone: a pair of percent signs is one. *)
Fixpoint verbatim_text (fmt : list Z) : list Z :=
  match fmt with
  | [] => []
  | c :: rest =>
      if c =? 0 then []
      else c :: match rest with
                | c2 :: rest' => if (c =? 37) && (c2 =? 37) then verbatim_text rest' else verbatim_text rest
                | [] => []
                end
  end.

(** * Writing into memory *)

(** Memory [m] after [u] was written to its beginning. *)
Definition overlay (m u : list Z) : list Z := u ++ drop (length u) m.

Definition lastn (k : nat) (e : list Z) : list Z := drop (length e - k) e.

Ltac len_solve := repeat rewrite ?len_app, ?len_cons in *; change (len []) with 0 in *; lia.

Lemma peek_mid a x c : peek (a ++ x :: c) (len a) = Some x.
Proof.
  unfold peek. rewrite option_guard_True by apply len_nonneg. unfold len. rewrite Nat2Z.id. by apply list_lookup_middle.
Qed.

Lemma poke_mid a x c y : poke (a ++ x :: c) (len a) y = Some (a ++ y :: c).
Proof.
  unfold poke. rewrite option_guard_True.
  - unfold len. rewrite Nat2Z.id. rewrite <- (Nat.add_0_r (length a)). by rewrite insert_app_r.
  - rewrite len_app, len_cons. pose proof (len_nonneg a). pose proof (len_nonneg c). lia.
Qed.

Lemma poke_overlay m u c : len u < len m -> poke (overlay m u) (len u) c = Some (overlay m (u ++ [c])).
Proof.
  intros H. unfold overlay. destruct (drop (length u) m) as [|x r] eqn:E.
  { apply (f_equal length) in E. rewrite length_drop in E. unfold len in H. simpl in E. lia. }
  rewrite poke_mid. rewrite <- app_assoc. cbn [app]. do 3 f_equal.
  rewrite length_app. cbn [length]. by rewrite <- drop_drop, E.
Qed.

Lemma overlay_length m u : (length u <= length m)%nat -> length (overlay m u) = length m.
Proof. intros H. unfold overlay. rewrite length_app, length_drop. lia. Qed.

Lemma take_len_le T n : len T <= n -> take (Z.to_nat n) T = T.
Proof. intros H. apply firstn_all2. unfold len in H. lia. Qed.

Lemma take_beyond T U n : n <= len T -> take (Z.to_nat n) (T ++ U) = take (Z.to_nat n) T.
Proof. intros H. apply take_app_le. unfold len in H. lia. Qed.

Lemma fill_len c n : len (fill c n) = Z.max 0 n.
Proof. unfold len, fill. rewrite length_replicate. lia. Qed.

Lemma fill_cons c n : 0 < n -> fill c n = c :: fill c (n - 1).
Proof. intros H. unfold fill. replace (Z.to_nat n) with (S (Z.to_nat (n - 1))) by lia. done. Qed.

Lemma fill_none c n : n <= 0 -> fill c n = [].
Proof. intros H. unfold fill. by replace (Z.to_nat n) with 0%nat by lia. Qed.

Lemma fill_snoc c n : 0 <= n -> fill c (n + 1) = fill c n ++ [c].
Proof. intros H. unfold fill. replace (Z.to_nat (n + 1)) with (S (Z.to_nat n)) by lia. apply replicate_S_end. Qed.

Section Writing.
Context (kSSizeMax : Z) (large : 128 <= kSSizeMax) (m0 : list Z).

(** The buffer stands for the text: what fits is in memory, all of it is counted. *)
Record shows (b : Buffer) (T : list Z) : Prop := {
  shows_size : 0 <= size_ b <= kSSizeMax - 1;
  shows_room : size_ b < len m0;
  shows_count : count_ b = Z.min (kSSizeMax - 1) (len T);
  shows_buffer : buffer_ b = overlay m0 (take (Z.to_nat (size_ b)) T);
}.

(** Both buffers have the same place. *)
Definition same_size (b b' : Buffer) : Prop := size_ b' = size_ b.

Lemma IncrementCount_shows b T U inc :
  shows b T -> size_ b <= len T -> 0 <= inc <= kSSizeMax - 1 -> len U = inc ->
  exists r b', IncrementCount kSSizeMax b inc = Some (r, b') /\ shows b' (T ++ U) /\ same_size b b'.
Proof.
  intros [H1 H2 H3 H4] Hs Hi HU. unfold IncrementCount. rewrite option_guard_True by done.
  destruct (Z.ltb_spec (kSSizeMax - 1 - inc) (count_ b)); eexists _, _; (split; [done|]);
    (split; [|done]); (split; cbn [size_ count_ buffer_]; [done|done| |by rewrite take_beyond]);
    rewrite len_app; pose proof (len_nonneg T); lia.
Qed.

Lemma Out_shows b T c :
  shows b T -> exists b', Out kSSizeMax b c = Some (len T <? size_ b, b') /\ shows b' (T ++ [c]) /\ same_size b b'.
Proof.
  intros H. pose proof H as [H1 H2 H3 H4]. pose proof (len_nonneg T). unfold Out, IncrementCountByOne.
  destruct (Z.ltb_spec (len T) (size_ b)) as [Hlt|Hge].
  - rewrite (proj2 (Z.leb_le 1 _)), (proj2 (Z.ltb_lt (count_ b) _)) by lia. cbn [andb].
    rewrite H4, take_len_le by lia. rewrite H3, Z.min_r by lia. rewrite poke_overlay by lia. cbn [mbind option_bind].
    unfold IncrementCount. rewrite option_guard_True by lia. cbn [count_ size_ buffer_].
    rewrite (proj2 (Z.ltb_ge _ _)) by lia. eexists. split; [done|]. split; [|done].
    split; cbn [size_ count_ buffer_]; [done|done| |].
    + len_solve.
    + rewrite take_len_le; [done|]. len_solve.
  - replace ((1 <=? size_ b) && (count_ b <? size_ b)) with false.
    2:{ symmetry. apply andb_false_iff. destruct (Z.leb_spec 1 (size_ b)); [right; apply Z.ltb_ge; lia | by left]. }
    destruct (IncrementCount_shows b T [c] 1 H) as (r & b' & -> & H' & Hs); [lia | lia | done |]. by exists b'.
Qed.

Lemma out_shows b T c : shows b T -> exists b', out kSSizeMax b c = Some b' /\ shows b' (T ++ [c]) /\ same_size b b'.
Proof. intros H. destruct (Out_shows b T c H) as (b' & E & ?). exists b'. unfold out. by rewrite E. Qed.

Lemma Pad_loop_shows pad n turns : forall b T padding,
  shows b T -> 0 <= n -> padding <= kSSizeMax -> size_ b - len T + 1 < Z.of_nat turns -> (0 < turns)%nat ->
  exists r b', Pad_loop kSSizeMax turns b pad padding n = Some (r, b') /\ shows b' (T ++ fill pad (padding - n)) /\ same_size b b'.
Proof.
  induction turns as [|turns IH]; intros b T padding H Hn Hp Ht Ht0; [lia|]. cbn [Pad_loop].
  destruct (Z.leb_spec padding n) as [Hle|Hgt].
  { exists true, b. split; [done|]. rewrite fill_none, app_nil_r by lia. by split. }
  destruct (Out_shows b T pad H) as (b1 & -> & H1 & Hs1). cbn [mbind option_bind].
  rewrite fill_cons by lia. replace (padding - n - 1) with (padding - 1 - n) by lia.
  rewrite cons_middle, app_assoc. destruct (Z.ltb_spec (len T) (size_ b)) as [Hfit|Hfull].
  - destruct (IH b1 (T ++ [pad]) (padding - 1) H1) as (r & b2 & -> & H2 & Hs2); try lia.
    { rewrite Hs1. len_solve. }
    exists r, b2. split; [done|]. split; [done|]. unfold same_size in *. congruence.
  - destruct (Z.eqb_spec (padding - 1) 0).
    + cbn [mbind option_bind]. eexists _, b1. split; [done|]. rewrite fill_none, app_nil_r by lia. by split.
    + destruct (IncrementCount_shows b1 (T ++ [pad]) (fill pad (padding - 1 - n)) (padding - 1 - n) H1)
        as (r & b2 & -> & H2 & Hs2).
      * rewrite Hs1. len_solve.
      * lia.
      * rewrite fill_len. lia.
      * cbn. eexists _, b2. split; [done|]. split; [done|]. unfold same_size in *. congruence.
Qed.

Lemma Pad_shows b T pad padding n :
  shows b T -> pad <> 0 -> 0 <= n -> padding <= kSSizeMax ->
  exists r b', Pad kSSizeMax b pad padding n = Some (r, b') /\ shows b' (T ++ fill pad (padding - n)) /\ same_size b b'.
Proof.
  intros H Hpad Hn Hp. unfold Pad. rewrite !option_guard_True by done. apply Pad_loop_shows; [done..| |lia].
  destruct H as [H1 H2 H3 H4]. rewrite H4, overlay_length; [pose proof (len_nonneg T); unfold len in *; lia|].
  rewrite length_take. unfold len in *. lia.
Qed.

Lemma put_string_shows s : forall b T, shows b T ->
  exists b', put_string kSSizeMax b s = Some b' /\ shows b' (T ++ s) /\ same_size b b'.
Proof.
  induction s as [|c s IH]; intros b T H; cbn [put_string]; [exists b; by rewrite app_nil_r|].
  destruct (out_shows b T c H) as (b1 & -> & H1 & Hs1). cbn [mbind option_bind].
  destruct (IH b1 (T ++ [c]) H1) as (b2 & -> & H2 & Hs2). exists b2. split; [done|].
  split; [by rewrite <- app_assoc in H2|]. unfold same_size in *. congruence.
Qed.

Lemma put_prefix_shows prefix : forall b T padding, shows b T -> 0 <= padding ->
  exists b', put_prefix kSSizeMax b prefix padding = Some (b', Z.max 0 (padding - len prefix)) /\
    shows b' (T ++ prefix) /\ same_size b b'.
Proof.
  induction prefix as [|c prefix IH]; intros b T padding H Hp; cbn [put_prefix].
  { exists b. rewrite app_nil_r. change (len []) with 0. by rewrite Z.max_r, Z.sub_0_r by lia. }
  destruct (out_shows b T c H) as (b1 & -> & H1 & Hs1). cbn [mbind option_bind].
  destruct (IH b1 (T ++ [c]) (if padding =? 0 then padding else padding - 1) H1) as (b2 & -> & H2 & Hs2).
  { destruct (Z.eqb_spec padding 0); lia. }
  exists b2. split; [do 2 f_equal; rewrite len_cons; pose proof (len_nonneg prefix); destruct (Z.eqb_spec padding 0); lia|].
  split; [by rewrite <- app_assoc in H2|]. unfold same_size in *. congruence.
Qed.
End Writing.

(** ** The loops on memory *)

(** The last character stays where it was, too. *)
Lemma shift_down_exact X : forall A x C, exists z,
  shift_down (length X) (A ++ x :: X ++ C) (len A) = Some (A ++ X ++ z :: C).
Proof.
  induction X as [|y X IH]; intros A x C; [by exists x|]. cbn [length shift_down app].
  replace (len A + 1) with (len (A ++ [x])) by (rewrite len_app; done).
  replace (A ++ x :: y :: X ++ C) with ((A ++ [x]) ++ y :: X ++ C) by (by rewrite <- app_assoc).
  rewrite peek_mid. cbn [mbind option_bind]. rewrite <- app_assoc. cbn [app].
  rewrite poke_mid. cbn [mbind option_bind].
  replace (A ++ y :: y :: X ++ C) with ((A ++ [y]) ++ y :: X ++ C) by (by rewrite <- app_assoc).
  replace (len (A ++ [x])) with (len (A ++ [y])) by (by rewrite !len_app).
  destruct (IH (A ++ [y]) y C) as (z & ->). exists z. by rewrite <- app_assoc.
Qed.

Lemma reverse_loop_exact turns : forall A X C, (length X < turns)%nat ->
  reverse_loop turns (A ++ X ++ C) (len A) (len (A ++ X)) = Some (A ++ reverse X ++ C).
Proof.
  induction turns as [|turns IH]; intros A X C Ht; [lia|]. cbn [reverse_loop].
  destruct X as [|x X]; [rewrite app_nil_r, (proj2 (Z.ltb_ge _ _)) by lia; done|].
  destruct X as [|y X _] using rev_ind.
  { rewrite len_app, len_cons, (proj2 (Z.ltb_ge _ _)) by (unfold len; simpl; lia). done. }
  rewrite (proj2 (Z.ltb_lt _ _)).
  2:{ pose proof (len_nonneg X). len_solve. }
  replace (len (A ++ x :: X ++ [y]) - 1) with (len (A ++ x :: X)).
  2:{ len_solve. }
  replace (A ++ (x :: X ++ [y]) ++ C) with ((A ++ x :: X) ++ y :: C) by (by rewrite <- !app_assoc; simpl; rewrite <- app_assoc).
  rewrite peek_mid. cbn [mbind option_bind]. rewrite <- app_assoc. cbn [app]. rewrite peek_mid. cbn [mbind option_bind].
  replace (A ++ x :: X ++ y :: C) with ((A ++ x :: X) ++ y :: C) by (by rewrite <- app_assoc).
  rewrite poke_mid. cbn [mbind option_bind]. rewrite <- app_assoc. cbn [app].
  rewrite poke_mid. cbn [mbind option_bind].
  replace (len A + 1) with (len (A ++ [y])) by (rewrite len_app; done).
  replace (len (A ++ x :: X)) with (len ((A ++ [y]) ++ X)).
  2:{ len_solve. }
  replace (A ++ y :: X ++ x :: C) with ((A ++ [y]) ++ X ++ x :: C) by (by rewrite <- app_assoc).
  rewrite IH by (simpl in Ht; rewrite length_app in Ht; simpl in Ht; lia).
  rewrite reverse_cons, reverse_snoc. by repeat (rewrite <- app_assoc || cbn [app]).
Qed.

Lemma lastn_all k e : (length e <= k)%nat -> lastn k e = e.
Proof. intros H. unfold lastn. by replace (length e - k)%nat with 0%nat by lia. Qed.

Lemma lastn_length k e : length (lastn k e) = Nat.min k (length e).
Proof. unfold lastn. rewrite length_drop. lia. Qed.

Lemma lastn_zero e : lastn 0 e = [].
Proof. unfold lastn. rewrite Nat.sub_0_r. apply drop_all. Qed.

(** When there is no more room the first goes and the last comes. *)
Lemma lastn_slide k e c : (0 < k <= length e)%nat ->
  exists x X, lastn k e = x :: X /\ lastn k (e ++ [c]) = X ++ [c] /\ length X = (k - 1)%nat.
Proof.
  intros H. unfold lastn. destruct (drop (length e - k) e) as [|x X] eqn:E.
  { apply (f_equal length) in E. rewrite length_drop in E. simpl in E. lia. }
  exists x, X. split; [done|]. rewrite length_app. cbn [length].
  replace (length e + 1 - k)%nat with (length e - k + 1)%nat by lia.
  rewrite <- drop_drop, drop_app_le, E by lia. split; [done|].
  apply (f_equal length) in E. rewrite length_drop in E. simpl in E. lia.
Qed.

Lemma lastn_replicate k a n c : (k <= n)%nat -> lastn k (a ++ replicate n c) = replicate k c.
Proof.
  intros H. unfold lastn. rewrite length_app, length_replicate, drop_app_ge by lia. rewrite drop_replicate. f_equal. lia.
Qed.

Lemma lastn_app k a b : (k <= length b)%nat -> lastn k (a ++ b) = lastn k b.
Proof.
  intros H. unfold lastn. rewrite length_app, drop_app_ge by lia. f_equal. lia.
Qed.

Lemma reverse_lastn k e : reverse (lastn k e) = take k (reverse e).
Proof.
  unfold lastn. rewrite <- (take_drop (length e - k) e) at 3. rewrite reverse_app.
  destruct (decide (k <= length e)%nat).
  - rewrite take_app_le by (rewrite length_reverse, length_drop; lia).
    symmetry. apply firstn_all2. rewrite length_reverse, length_drop. lia.
  - replace (length e - k)%nat with 0%nat by lia. rewrite drop_0, take_0. change (reverse (@nil Z)) with (@nil Z).
    rewrite app_nil_r. symmetry. apply firstn_all2. rewrite length_reverse. lia.
Qed.

(** ** Digits *)

(** The digits of [n], the last first, when [m] is added to the last. *)
Inductive numeral (hex : list Z) (base : Z) : Z -> Z -> list Z -> Prop :=
  | numeral_last n m c : n / base = 0 -> peek hex (n mod base + m) = Some c -> numeral hex base n m [c]
  | numeral_more n m c N :
      n / base <> 0 -> peek hex (n mod base + m) = Some c -> numeral hex base (n / base) 0 N -> numeral hex base n m (c :: N).

Definition is_hex (hex : list Z) : Prop := length hex = 16%nat.

Lemma load_hex hex i : is_hex hex -> 0 <= i < 16 -> peek hex i = Some (default 0 (hex !! Z.to_nat i)).
Proof.
  intros H Hi. unfold peek. rewrite option_guard_True by lia. unfold is_hex in H.
  destruct (lookup_lt_is_Some_2 hex (Z.to_nat i)) as (c & ->); [lia | done].
Qed.

Lemma digits_rev_numeral hex base turns : is_hex hex -> 2 <= base <= 16 -> forall n,
  0 <= n < 2 ^ Z.of_nat turns -> (0 < turns)%nat ->
  numeral hex base n 0 (digits_rev turns hex base n) /\ (length (digits_rev turns hex base n) <= turns)%nat.
Proof.
  intros Hh Hb. induction turns as [|turns IH]; intros n Hn Ht; [lia|]. cbn [digits_rev].
  assert (peek hex (n mod base + 0) = Some (default 0 (hex !! Z.to_nat (n mod base)))) as Hl
    by (rewrite Z.add_0_r; apply load_hex; [done | pose proof (Z.mod_pos_bound n base); lia]).
  destruct (Z.eqb_spec (n / base) 0) as [E|E]; [split; [by constructor | simpl; lia]|].
  assert (0 <= n / base < 2 ^ Z.of_nat turns) as Hd.
  { rewrite Nat2Z.inj_succ, Z.pow_succ_r in Hn by lia. split; [apply Z.div_pos; lia|]. apply Z.div_lt_upper_bound; nia. }
  destruct turns as [|turns]; [change (2 ^ Z.of_nat 0) with 1 in Hd; lia|].
  destruct (IH (n / base) Hd ltac:(lia)) as [H1 H2]. split; [by apply numeral_more | cbn [length]; lia].
Qed.

Section Number.
Context (kSSizeMax : Z) (large : 128 <= kSSizeMax) (m0 : list Z).
Context (T : list Z).

Let M : Z := kSSizeMax - 1.

(** How many of the [n] digits that were emitted are in memory. *)
Definition in_memory (size n : Z) : nat := Z.to_nat (Z.min (size - len T) n).

(** After [e] was emitted, in this order, and [discarded] of it given up. *)
Record emitted (size : Z) (e : list Z) (b : Buffer) (discarded : Z) : Prop := {
  emitted_size : size_ b = size;
  emitted_buffer : buffer_ b = overlay m0 (take (Z.to_nat size) T ++ lastn (in_memory size (len e)) e);
  emitted_count : 0 <= count_ b <= M;
  emitted_discarded : 0 <= discarded <= len e;
  emitted_total : Z.min M (count_ b + discarded) = Z.min M (len T + len e);
  emitted_full : Z.min size (count_ b) = Z.min size (len T + len e);
}.

(** Before a turn: the count does not run ahead. *)
Record before_turn (size : Z) (e : list Z) (b : Buffer) (discarded : Z) : Prop := {
  ready_emitted : emitted size e b discarded;
  ready_partial : len T < size -> count_ b + discarded = len T + len e /\ count_ b <= size;
  ready_beyond : size <= len T ->
    M <= size + 1 \/ count_ b + discarded = Z.min M (len T) + len e /\ len e - 2 <= discarded;
}.

Lemma in_memory_beyond size n : size <= len T -> in_memory size n = 0%nat.
Proof. intros H. unfold in_memory. lia. Qed.

Context (size : Z) (size_ok : 0 <= size <= M) (room : size < len m0).

(** A digit is written, the first in memory gives way if there is no room. *)
Lemma emit_partial e b discarded c :
  len T < size -> before_turn size e b discarded ->
  exists b1 b2 discarded', make_room b (len T) discarded = Some (b1, discarded') /\
    out kSSizeMax b1 c = Some b2 /\ before_turn size (e ++ [c]) b2 discarded' /\ discarded' <= discarded + 1.
Proof.
  intros HT [[H1 H2 H3 H4 H5 H6] H7 _]. specialize (H7 HT) as [H7 H8]. pose proof (len_nonneg T). pose proof (len_nonneg e).
  unfold make_room. rewrite H1. rewrite take_len_le in H2 by lia.
  destruct (Z.leb_spec size (count_ b)) as [Hfull|Hroom].
  - rewrite (proj2 (Z.ltb_lt _ _)) by lia.
    assert (len e >= size - len T) as He by lia.
    destruct (lastn_slide (in_memory size (len e)) e c) as (x & X & E1 & E2 & HX).
    { unfold in_memory, len in *. lia. }
    rewrite H2, E1. unfold overlay at 1. cbn [length]. rewrite <- app_assoc. cbn [app].
    assert (Z.to_nat (size - 1 - len T) = length X) as -> by (rewrite HX; unfold in_memory, len in *; lia).
    destruct (shift_down_exact X T x (drop (length (T ++ x :: X)) m0)) as (z & Ez).
    cbn [app] in Ez |- *. rewrite Ez. cbn [mbind option_bind]. do 3 eexists. split; [done|].
    assert (count_ b = size) as Hc by lia. rewrite Hc. unfold out, Out. cbn [size_ count_ buffer_].
    rewrite (proj2 (Z.leb_le _ _)), (proj2 (Z.ltb_lt _ _)) by lia. cbn [andb].
    assert (size - 1 = len (T ++ X)) as Es by (rewrite len_app; unfold in_memory, len in *; lia).
    rewrite Es at 1. rewrite app_assoc, poke_mid. cbn [mbind option_bind]. unfold IncrementCountByOne, IncrementCount.
    cbn [count_ size_ buffer_]. rewrite option_guard_True by lia. rewrite (proj2 (Z.ltb_ge _ _)) by (unfold M in *; lia).
    split; [done|].
    assert (in_memory size (len (e ++ [c])) = in_memory size (len e)) as Em by (unfold in_memory; len_solve).
    split; [|lia]. split; [split|..]; cbn [snd count_ size_ buffer_]; rewrite ?Em, ?E2; try lia; try len_solve.
    rewrite take_len_le by lia. unfold overlay. rewrite <- !app_assoc. cbn [app].
    do 4 f_equal. rewrite !length_app. cbn [length]. lia.
  - do 3 eexists. split; [done|]. unfold out, Out. rewrite H1.
    rewrite (proj2 (Z.leb_le _ _)), (proj2 (Z.ltb_lt _ _)) by lia. cbn [andb].
    assert (in_memory size (len e) = length e) as Em by (unfold in_memory, len in *; lia).
    rewrite Em, lastn_all in H2 by lia. rewrite H2.
    assert (count_ b = len (T ++ e)) as Ec by len_solve. rewrite Ec, poke_overlay by len_solve.
    cbn [mbind option_bind]. unfold IncrementCountByOne, IncrementCount.
    cbn [count_ size_ buffer_]. rewrite option_guard_True by lia.
    rewrite (proj2 (Z.ltb_ge _ _)) by (unfold M in *; len_solve). split; [done|].
    assert (in_memory size (len (e ++ [c])) = length (e ++ [c])) as Em'
      by (rewrite length_app; unfold in_memory, len in *; rewrite ?length_app; simpl; lia).
    split; [|lia]. split; [split|..]; cbn [snd count_ size_ buffer_]; rewrite ?Em', ?lastn_all; try lia; try len_solve.
    rewrite take_len_le by lia. by rewrite app_assoc.
Qed.

Lemma emit_beyond e b discarded c :
  size <= len T -> before_turn size e b discarded ->
  exists b1 b2 discarded', make_room b (Z.min M (len T)) discarded = Some (b1, discarded') /\
    out kSSizeMax b1 c = Some b2 /\ before_turn size (e ++ [c]) b2 discarded' /\ discarded' <= discarded + 1.
Proof.
  intros HT [[H1 H2 H3 H4 H5 H6] _ H7]. specialize (H7 HT). pose proof (len_nonneg T). pose proof (len_nonneg e).
  rewrite in_memory_beyond, lastn_zero, app_nil_r in H2 by done. unfold make_room. rewrite H1.
  rewrite (proj2 (Z.leb_le _ _)), (proj2 (Z.ltb_ge _ _)) by lia.
  assert (forall b1, size_ b1 = size -> buffer_ b1 = buffer_ b -> size <= count_ b1 <= M ->
    exists b2, out kSSizeMax b1 c = Some b2 /\ size_ b2 = size /\ buffer_ b2 = buffer_ b /\
      count_ b2 = Z.min M (count_ b1 + 1)) as Ho.
  { intros b1 E1 E2 E3. unfold out, Out, IncrementCountByOne, IncrementCount. rewrite E1.
    replace ((1 <=? size) && (count_ b1 <? size)) with false
      by (symmetry; apply andb_false_iff; right; apply Z.ltb_ge; lia).
    rewrite option_guard_True by lia. cbn [mbind option_bind].
    destruct (Z.ltb_spec (kSSizeMax - 1 - 1) (count_ b1)); eexists; (split; [done|]); cbn [snd size_ buffer_ count_];
      unfold M in *; split_and!; (done || lia). }
  destruct (Z.ltb_spec 1 (count_ b - size)).
  - destruct (Ho (Buffer_ (buffer_ b) size (count_ b - 1))) as (b2 & Eo & E1 & E2 & E3); cbn [count_]; [done|done|lia|].
    do 3 eexists. split; [done|]. split; [exact Eo|]. cbn [count_] in E3.
    split; [|lia]. split; [split|..]; rewrite ?E1, ?E2, ?E3, ?in_memory_beyond, ?lastn_zero, ?app_nil_r by done; try done; try len_solve.
  - destruct (Ho b) as (b2 & Eo & E1 & E2 & E3); [done|done|lia|].
    do 3 eexists. split; [done|]. split; [exact Eo|].
    split; [|lia]. split; [split|..]; rewrite ?E1, ?E2, ?E3, ?in_memory_beyond, ?lastn_zero, ?app_nil_r by done; try done; try len_solve.
Qed.

Lemma emit e b discarded c :
  before_turn size e b discarded ->
  exists b1 b2 discarded', make_room b (Z.min M (len T)) discarded = Some (b1, discarded') /\
    out kSSizeMax b1 c = Some b2 /\ before_turn size (e ++ [c]) b2 discarded' /\ discarded' <= discarded + 1.
Proof.
  intros H. destruct (Z.le_gt_cases size (len T)) as [HT|HT]; [by apply emit_beyond|].
  rewrite Z.min_r by lia. by apply emit_partial.
Qed.

(** *** The digits, the prefix, the padding *)

Context (hex : list Z) (base pad : Z).

(** The digits and prefix that are left, in the order they are emitted. *)
Inductive pending (d : Digits) : list Z -> Prop :=
  | pending_digits N :
      numeral hex base (num d) (minint d) N -> num d <> 0 \/ started d = false -> pending d (N ++ prefix d)
  | pending_prefix : num d = 0 -> started d = true -> pending d (prefix d).

Lemma digit_pending d L :
  pending d L -> exists c p, digit hex base pad d = Some (c, p) /\ c = default pad (head L) /\
    forall b P D, pending (Digits_ b (num d / base) 0 P p D true) (tail L).
Proof.
  intros [N HN Hs|Hn Hs]; unfold digit.
  - assert ((num d =? 0) && started d = false) as ->
      by (apply andb_false_iff; destruct Hs; [left; by apply Z.eqb_neq | by right]).
    destruct HN as [n m c Hz Hc|n m c N Hz Hc HN]; rewrite Hc; cbn [mbind option_bind]; eexists _, _;
      (split; [done|]); (split; [done|]); intros b P D.
    + by apply pending_prefix.
    + apply (pending_digits (Digits_ b (n / base) 0 P (prefix d) D true)); [done | by left].
  - rewrite Hn, Hs. cbn [Z.eqb andb]. destruct (prefix d) as [|c p] eqn:Ep; eexists _, _; (split; [done|]); (split; [done|]);
      intros b P D; by apply pending_prefix.
Qed.

Lemma pending_done d : started d = true -> pending d [] <-> num d = 0 /\ prefix d = [].
Proof.
  intros Hs. split.
  - intros H. inversion H as [N HN [Hn|Hn] E|Hn _ E]; [|congruence|done]. destruct HN; done.
  - intros [Hn Hp]. rewrite <- Hp. by apply pending_prefix.
Qed.

Lemma pending_last d L : pending d L -> started d = true -> num d = 0 -> prefix d = [] -> L = [].
Proof. intros H Hs Hn Hp. inversion H as [N HN [?|?] E|]; congruence. Qed.

(** What is emitted in all: the digits and the prefix [W], and padding to [P] characters. *)
Context (W : list Z) (P prefix_length : Z).
Context (W_short : len W <= 64 + prefix_length) (prefix_ok : 0 <= prefix_length <= 2) (P_ok : 0 <= P <= kSSizeMax).

Definition all : list Z := W ++ fill pad (P - len W).

Lemma all_len : len all = Z.max P (len W).
Proof. unfold all. rewrite len_app, fill_len. lia. Qed.

Record turn (t : nat) (d : Digits) : Prop := {
  turn_ready : before_turn size (take t all) (target d) (discarded d);
  turn_pending : pending d (drop t W);
  turn_padding : padding d = Z.max 0 (P - Z.of_nat t);
  turn_discarded : discarded d <= 64 + prefix_length;
  turn_left : (t < length all)%nat;
}.

Lemma take_all_len t : (t <= length all)%nat -> len (take t all) = Z.of_nat t.
Proof. intros H. unfold len. rewrite length_take. lia. Qed.

Lemma all_next t : (t < length all)%nat -> take (S t) all = take t all ++ [default pad (head (drop t W))].
Proof.
  intros H. destruct (lookup_lt_is_Some_2 all t H) as (c & Hc). rewrite (take_S_r _ _ c) by done. do 2 f_equal.
  unfold all in Hc. destruct (decide (t < length W)%nat) as [Hl|Hl].
  - rewrite lookup_app_l in Hc by done. by rewrite (drop_S _ c).
  - rewrite lookup_app_r in Hc by lia. apply lookup_replicate in Hc as [-> _]. by rewrite drop_ge by lia.
Qed.

(** The turns that are left are enough. *)
Lemma turn_bound t d : turn t d -> Z.of_nat t < len m0 + 256.
Proof.
  intros [[[_ _ H1 H2 H3 H4] H5 H6] H7 H8 H9 H10]. rewrite take_all_len in * by lia.
  pose proof all_len as Ha. unfold len in Ha at 1. destruct (Z.le_gt_cases size (len T)) as [HT|HT].
  - destruct (H6 HT) as [Hm|[_ Hd]]; [|lia]. unfold M in *. lia.
  - destruct (H5 HT). pose proof (len_nonneg T). lia.
Qed.

(** Once that much was given up, what is in memory is padding. *)
Lemma padding_only e b D :
  emitted size e b D -> (len T < size -> count_ b + D = len T + len e /\ count_ b <= size) ->
  64 + prefix_length < D -> (length W <= length e <= length all)%nat -> e = take (length e) all ->
  lastn (in_memory size (len e)) e = lastn (in_memory size (len all)) all /\ size <= count_ b.
Proof.
  intros [_ _ H1 H2 H3 H4] H5 HD He Ee. destruct (Z.le_gt_cases size (len T)) as [HT|HT].
  - rewrite !in_memory_beyond, !lastn_zero by done. split; [done|lia].
  - destruct (H5 HT) as [H6 H7]. split; [|lia].
    assert (in_memory size (len all) = in_memory size (len e)) as -> by (unfold in_memory, len in *; lia).
    set (k := in_memory size (len e)).
    assert (k + length W <= length e)%nat as Hk by (unfold k, in_memory, len in *; lia).
    assert (e = W ++ replicate (length e - length W) pad) as ->.
    { rewrite Ee at 1. unfold all. rewrite take_app_ge by lia. f_equal. unfold fill. rewrite take_replicate. f_equal.
      unfold all, fill in He. rewrite length_app, length_replicate in He. lia. }
    rewrite lastn_replicate by lia. unfold all, fill in *. rewrite length_app, length_replicate in He.
    by rewrite lastn_replicate by lia.
Qed.

(** The count without the digits that were given up. *)
Definition finished (d : Digits) : Prop :=
  emitted size all (target d) (discarded d) /\ discarded d <= 65 + prefix_length /\
  num d = 0 /\ padding d = 0 /\ prefix d = [].

Lemma body_over t : (length all < t)%nat \/ Z.of_nat t > 64 + prefix_length -> drop t W = [].
Proof.
  intros H. apply drop_ge. pose proof all_len. unfold len in *. lia.
Qed.

(** The rest of the padding is only counted. *)
Lemma skip_padding t b D :
  (t <= length all)%nat -> before_turn size (take t all) b D -> 64 + prefix_length < D -> D <= 65 + prefix_length ->
  exists r b', IncrementCount kSSizeMax b (Z.max 0 (P - Z.of_nat t)) = Some (r, b') /\ emitted size all b' D.
Proof.
  intros Ht [H1 H2 _] HD HD'. pose proof H1 as [E1 E2 E3 E4 E5 E6]. rewrite take_all_len in * by done.
  assert (length (take t all) = t) as Hl by (rewrite length_take; lia).
  pose proof all_len as Ha. pose proof (len_nonneg T).
  destruct (padding_only (take t all) b D H1) as [HL Hc]; [by rewrite take_all_len | done | | by rewrite Hl |].
  { rewrite Hl. unfold len in *. lia. }
  rewrite take_all_len in HL by done. rewrite HL in E2. unfold IncrementCount. rewrite option_guard_True by (unfold M in *; lia).
  assert (len all = Z.of_nat (length all)) as Hla by done.
  destruct (Z.ltb_spec (kSSizeMax - 1 - Z.max 0 (P - Z.of_nat t)) (count_ b));
    eexists _, _; (split; [done|]); split; cbn [snd size_ buffer_ count_]; try done; unfold M, len in *; lia.
Qed.

(** A turn that did not take the short way. *)
Lemma after_turn t b n p D :
  let d := Digits_ b n 0 (Z.max 0 (P - Z.of_nat (S t))) p D true in
  (t < length all)%nat -> before_turn size (take (S t) all) b D -> pending d (drop (S t) W) -> D <= 65 + prefix_length ->
  (64 + prefix_length < D -> padding d = 0) ->
  finished d \/ turn (S t) d /\ (num d =? 0) && (padding d =? 0) && bool_decide (prefix d = []) = false.
Proof.
  intros d Ht Hb Hp HD Hover. pose proof all_len as Ha. unfold len in Ha at 1.
  destruct ((num d =? 0) && (padding d =? 0) && bool_decide (prefix d = [])) eqn:E.
  - left. apply andb_prop in E as [[E1%Z.eqb_eq E2%Z.eqb_eq]%andb_prop E3%bool_decide_eq_true].
    pose proof (pending_last d _ Hp eq_refl E1 E3) as HW. apply (f_equal length) in HW. rewrite length_drop in HW.
    split; [|done]. destruct Hb as [Hb _ _]. cbn [padding d] in E2. simpl in HW.
    rewrite take_ge in Hb; [done|]. unfold len in Ha. lia.
  - right. split; [|done].
    assert (drop (S t) W <> [] \/ 0 < padding d) as Hleft.
    { destruct (drop (S t) W) eqn:EW; [right | by left]. apply (pending_done d eq_refl) in Hp as [E1 E3].
      rewrite E1, E3 in E. cbn [Z.eqb andb] in E. rewrite andb_true_r in E. apply Z.eqb_neq in E. cbn [padding d] in *. lia. }
    assert (S t < length all)%nat as Ht'.
    { destruct Hleft as [HW|HP]; [|cbn [padding d] in HP; unfold len in Ha; lia].
      assert (S t < length W)%nat; [|unfold len in Ha; lia].
      destruct (decide (S t < length W)%nat); [done|]. destruct HW. apply drop_ge. lia. }
    split; try done. cbn [discarded d]. destruct (Z.le_gt_cases D (64 + prefix_length)) as [|HD']; [done|].
    destruct Hleft as [HW|HP]; [|specialize (Hover ltac:(lia)); lia]. destruct HW. apply body_over. right.
    destruct Hb as [[_ _ _ Hd _ _] _ _]. rewrite take_all_len in Hd by lia. lia.
Qed.

Lemma one_turn t d : turn t d ->
  exists d', digit_turn kSSizeMax hex base pad prefix_length (Z.min M (len T)) d = Some d' /\
    (finished d' \/ turn (S t) d' /\ (num d' =? 0) && (padding d' =? 0) && bool_decide (prefix d' = []) = false).
Proof.
  intros [H1 H2 H3 H4 H5]. destruct (digit_pending d _ H2) as (c & p & Hd & Hc & Hp).
  destruct (emit (take t all) (target d) (discarded d) c H1) as (b1 & b2 & D & Er & Eo & Hb & HD).
  unfold digit_turn. rewrite Er. cbn [mbind option_bind]. rewrite Hd. cbn [mbind option_bind]. rewrite Eo. cbn [mbind option_bind].
  rewrite Hc, <- all_next in Hb by done.
  assert (tail (drop t W) = drop (S t) W) as Et.
  { replace (S t) with (t + 1)%nat by lia. rewrite <- drop_drop. by destruct (drop t W). }
  rewrite Et in Hp. clear Et Er Eo Hd Hc c b1.
  destruct (Z.ltb_spec 0 (padding d)) as [Hpos|Hzero].
  - replace (padding d - 1) with (Z.max 0 (P - Z.of_nat (S t))) by lia.
    destruct (Z.ltb_spec (8 * 8 + prefix_length) D) as [Hskip|Hno].
    + destruct (skip_padding (S t) b2 D) as (r & b3 & -> & H6); [lia | done | lia | lia |].
      cbn [mbind option_bind]. eexists. split; [done|]. left.
      assert (drop (S t) W = []) as HW.
      { apply body_over. right. destruct H6 as [_ _ _ Hd _ _]. destruct Hb as [[_ _ _ Hd' _ _] _ _].
        rewrite take_all_len in Hd' by lia. lia. }
      specialize (Hp b3 0 D). rewrite HW in Hp. apply pending_done in Hp as [E1 E2]; [|done]. split_and!; try done. cbn. lia.
    + eexists. split; [done|]. apply after_turn; try done; [lia|]. cbn [padding]. lia.
  - eexists. split; [done|]. replace (padding d) with (Z.max 0 (P - Z.of_nat (S t))) by lia.
    apply after_turn; try done; [lia|]. cbn [padding]. lia.
Qed.

Lemma digits_loop_exact turns : forall t d, turn t d -> len m0 + 256 <= Z.of_nat (turns + t) ->
  exists d', digits_loop kSSizeMax turns hex base pad prefix_length (Z.min M (len T)) d = Some d' /\ finished d'.
Proof.
  induction turns as [|turns IH]; intros t d H Ht; [pose proof (turn_bound t d H); lia|]. cbn [digits_loop].
  destruct (one_turn t d H) as (d' & -> & [Hf|[Hn E]]); cbn [mbind option_bind].
  - exists d'. split; [|done]. destruct Hf as (_ & _ & -> & -> & ->). done.
  - rewrite E. apply (IH (S t)); [done | lia].
Qed.

(** Reversed, the digits in memory are the beginning of the text. *)
Lemma reversed d : finished d ->
  exists m, reverse_loop (S (length (buffer_ (target d)))) (buffer_ (target d)) (Z.min M (len T)) (GetInsertionPoint (target d)) = Some m /\
    m = overlay m0 (take (Z.to_nat size) (T ++ reverse all)).
Proof.
  intros ([E1 E2 E3 E4 E5 E6] & _). pose proof (len_nonneg T). pose proof (len_nonneg all). unfold GetInsertionPoint. rewrite E1.
  assert ((if size <? count_ (target d) then size else count_ (target d)) = Z.min size (count_ (target d))) as ->
    by (destruct (Z.ltb_spec size (count_ (target d))); lia).
  rewrite E6, E2. destruct (Z.le_gt_cases size (len T)) as [HT|HT].
  - rewrite in_memory_beyond, lastn_zero, app_nil_r, take_beyond by done. cbn [reverse_loop].
    rewrite (proj2 (Z.ltb_ge _ _)) by lia. by eexists.
  - rewrite take_len_le by lia. set (k := in_memory size (len all)).
    assert (Z.min M (len T) = len T) as -> by lia.
    replace (Z.min size (len T + len all)) with (len (T ++ lastn k all)).
    2:{ rewrite len_app. unfold len at 2. rewrite lastn_length. unfold k, in_memory, len in *. lia. }
    unfold overlay. rewrite <- app_assoc, reverse_loop_exact.
    2:{ rewrite !length_app. lia. }
    eexists. split; [done|]. rewrite reverse_lastn, take_app, take_len_le by lia.
    assert (take (Z.to_nat size - length T) (reverse all) = take k (reverse all)) as ->.
    { unfold k, in_memory. destruct (Z.le_gt_cases (size - len T) (len all)) as [Hle|Hgt].
      - f_equal. unfold len in *. lia.
      - rewrite !firstn_all2; [done|..]; rewrite length_reverse; unfold len in *; lia. }
    rewrite <- app_assoc. do 3 f_equal. rewrite !length_app, length_take, length_reverse, lastn_length. lia.
Qed.
End Number.

Section Formatting.
Context (kSSizeMax : Z) (large : 128 <= kSSizeMax) (m0 : list Z).

(** The digits [N] of a number, its prefix and its padding. *)
Lemma digits_shown hex base pad b T N p P n m :
  shows kSSizeMax m0 b T -> numeral hex base n m N -> len N <= 64 -> len p <= 2 -> 0 <= P <= kSSizeMax ->
  exists d m' r b', digits_loop kSSizeMax (length (buffer_ b) + 256) hex base pad (len p) (count_ b)
      (Digits_ b n m P (reverse p) 0 false) = Some d /\
    reverse_loop (S (length (buffer_ (target d)))) (buffer_ (target d)) (count_ b) (GetInsertionPoint (target d)) = Some m' /\
    IncrementCount kSSizeMax (Buffer_ m' (size_ (target d)) (count_ (target d))) (discarded d) = Some (r, b') /\
    shows kSSizeMax m0 b' (T ++ fill pad (P - len p - len N) ++ p ++ reverse N) /\ same_size b b'.
Proof.
  intros [H1 H2 H3 H4] HN HlN Hlp HP. pose proof (len_nonneg T). pose proof (len_nonneg p).
  set (W := N ++ reverse p).
  assert (len (reverse p) = len p) as Hr by (unfold len; by rewrite length_reverse).
  assert (len W <= 64 + len p) as HW by (unfold W; rewrite len_app; lia).
  assert (N <> []) as HNe by (by destruct HN).
  assert (turn kSSizeMax m0 T (size_ b) hex base pad W P (len p) 0 (Digits_ b n m P (reverse p) 0 false)) as Ht.
  { split; cbn [target discarded padding]; [| |lia|lia|].
    - rewrite take_0. split; [split|intros|intros; right]; change (len []) with 0; try done; try lia.
      rewrite H4. by rewrite app_nil_r.
    - change (drop 0 W) with W. apply pending_digits; [done | by right].
    - unfold all, W. rewrite !length_app. destruct N; [done | simpl; lia]. }
  pose proof (digits_loop_exact kSSizeMax large m0 T (size_ b) ltac:(lia) H2 hex base pad W P (len p) HW ltac:(lia) HP
    (length (buffer_ b) + 256) 0 _ Ht) as Hd.
  assert (length (buffer_ b) = length m0) as Hbl.
  { rewrite H4, overlay_length; [done|]. rewrite length_take. unfold len in H2. lia. }
  destruct Hd as (d & Hd & Hf); [rewrite Hbl; unfold len; lia|].
  destruct (reversed kSSizeMax large m0 T (size_ b) ltac:(lia) pad W P (len p) d Hf) as (m' & Hm & Em).
  destruct Hf as ([E1 E2 E3 E4 E5 E6] & Hdd & _). rewrite <- H3 in Hd, Hm.
  assert (reverse (all pad W P) = fill pad (P - len p - len N) ++ p ++ reverse N) as Eall.
  { unfold all, W, fill. rewrite len_app, Hr, !reverse_app, reverse_involutive, reverse_replicate. by replace (P - (len N + len p)) with (P - len p - len N) by lia. }
  exists d, m'. unfold IncrementCount. rewrite option_guard_True by lia. cbn [count_ size_ buffer_].
  assert (len (all pad W P) = len (reverse (all pad W P))) as Hal by (unfold len; by rewrite length_reverse).
  rewrite <- Eall.
  destruct (Z.ltb_spec (kSSizeMax - 1 - discarded d) (count_ (target d))); eexists _, _; (split; [done|]);
    (split; [done|]); (split; [done|]); (split; [|done]); split; cbn [size_ buffer_ count_];
    rewrite ?E1; try done; rewrite len_app; lia.
Qed.

Lemma hex_digits (upcase : bool) : is_hex (if upcase then kUpCaseHexDigits else kDownCaseHexDigits).
Proof. by destruct upcase. Qed.

(** The number and the correction that the code starts from have the digits of the value. *)
Lemma number_digits (sign : bool) hex base i : is_hex hex -> 2 <= base <= 16 -> (sign = true -> base = 10) ->
  - 2 ^ 63 <= i < 2 ^ 63 ->
  let negative := sign && (i <? 0) in
  let is_min := negative && (i =? - 2 ^ 63) in
  let v := if negative then - i else i mod 2 ^ 64 in
  numeral hex base (if negative then if is_min then - (i + 1) else - i else Int.static_cast Int.uint64 i)
    (if is_min then 1 else 0) (digits_rev 64 hex base v) /\ len (digits_rev 64 hex base v) <= 64.
Proof.
  intros Hh Hb Hs Hi. cbn zeta. destruct (sign && (i <? 0)) eqn:Hn; cbn [andb].
  - apply andb_prop in Hn as [-> Hn%Z.ltb_lt]. specialize (Hs eq_refl) as ->.
    destruct (digits_rev_numeral hex 10 64 Hh Hb (- i)) as [H1 H2]; [lia | lia |].
    split; [|unfold len; lia]. destruct (Z.eqb_spec i (- 2 ^ 63)) as [->|]; [|done].
    change (- - 2 ^ 63) with 9223372036854775808 in *. change (- (- 2 ^ 63 + 1)) with 9223372036854775807.
    inversion H1 as [|n' m' c N' Hz Hc HN' E1 E2 E3]. by apply numeral_more.
  - destruct (digits_rev_numeral hex base 64 Hh Hb (i mod 2 ^ 64)) as [H1 H2].
    { apply Z.mod_pos_bound. lia. } { lia. }
    split; [|unfold len; lia]. done.
Qed.

(** The end of [IToASCII], after what it does about the prefix. *)
Definition number_end (hex : list Z) (base pad num minint : Z) (start : Buffer * Z * list Z) : option (bool * Buffer) :=
  let '(b, padding, prefix) := start in
  d ← digits_loop kSSizeMax (length (buffer_ b) + 256) hex base pad (len prefix) (count_ b)
        (Digits_ b num minint padding (reverse prefix) 0 false);
  m ← reverse_loop (S (length (buffer_ (target d)))) (buffer_ (target d)) (count_ b) (GetInsertionPoint (target d));
  '(_, b) ← IncrementCount kSSizeMax (Buffer_ m (size_ (target d)) (count_ (target d))) (discarded d);
  Some (discarded d =? 0, b).

Lemma number_end_shows hex base pad b T N p P n m :
  shows kSSizeMax m0 b T -> numeral hex base n m N -> len N <= 64 -> len p <= 2 -> 0 <= P <= kSSizeMax ->
  exists r b', number_end hex base pad n m (b, P, p) = Some (r, b') /\
    shows kSSizeMax m0 b' (T ++ fill pad (P - len p - len N) ++ p ++ reverse N) /\ same_size b b'.
Proof.
  intros H HN H1 H2 H3. destruct (digits_shown hex base pad b T N p P n m H HN H1 H2 H3)
    as (d & m' & r & b' & E1 & E2 & E3 & E4 & E5).
  eexists _, b'. unfold number_end. rewrite E1. cbn [mbind option_bind]. rewrite E2. cbn [mbind option_bind]. by rewrite E3.
Qed.

Lemma number_prefix_shows hex base pad b T N p P n m :
  shows kSSizeMax m0 b T -> numeral hex base n m N -> len N <= 64 -> len p <= 2 -> 0 <= P <= kSSizeMax ->
  pad = 48 \/ pad = 32 ->
  exists r b', (if bool_decide (p = []) then Some (b, P, [])
      else if pad =? 48 then '(b, padding) ← put_prefix kSSizeMax b p P; Some (b, padding, []) else Some (b, P, p))
      ≫= number_end hex base pad n m = Some (r, b') /\
    shows kSSizeMax m0 b' (T ++ padded_number pad P p (reverse N)) /\ same_size b b'.
Proof.
  intros H HN HlN Hlp HP Hpad. unfold padded_number.
  assert (len (reverse N) = len N) as -> by (unfold len; by rewrite length_reverse).
  case_bool_decide as Ep; [subst p | destruct Hpad as [-> | ->]; cbn [Z.eqb Pos.eqb]].
  - destruct (number_end_shows hex base pad b T N [] P n m) as (r & b' & E & H1 & H2); try done.
    exists r, b'. split; [done|]. split; [|done]. by destruct (pad =? 48).
  - pose proof (len_nonneg p). pose proof (len_nonneg N).
    destruct (put_prefix_shows kSSizeMax large m0 p b T P) as (b1 & -> & Hb1 & Hs1); [done | lia |]. cbn [mbind option_bind].
    destruct (number_end_shows hex base 48 b1 (T ++ p) N [] (Z.max 0 (P - len p)) n m) as (r & b' & E & Hb2 & Hs2);
      [done | done | done | change (len []) with 0; lia | lia |].
    exists r, b'. split; [done|]. split; [|unfold same_size in *; congruence].
    replace (fill 48 (P - len p - len N)) with (fill 48 (Z.max 0 (P - len p) - len [] - len N))
      by (unfold fill; f_equal; change (len []) with 0; lia).
    by rewrite <- app_assoc in Hb2.
  - destruct (number_end_shows hex base 32 b T N p P n m) as (r & b' & E & H1 & H2); try done. by exists r, b'.
Qed.

Lemma IToASCII_shows b T (sign upcase : bool) i base pad padding prefix :
  shows kSSizeMax m0 b T -> 2 <= base <= 16 -> (sign = true -> base = 10) -> pad = 48 \/ pad = 32 ->
  0 <= padding <= kSSizeMax -> (sign = true -> prefix = []) -> len prefix <= 2 -> - 2 ^ 63 <= i < 2 ^ 63 ->
  exists r b', IToASCII kSSizeMax b sign upcase i base pad padding prefix = Some (r, b') /\
    shows kSSizeMax m0 b' (T ++ integer_text sign upcase i base pad padding prefix) /\ same_size b b'.
Proof.
  intros H Hb Hs Hpad HP Hpre Hlp Hi. unfold IToASCII. rewrite option_guard_True.
  2:{ split_and!; try done; try lia. intros [Es Ep]. by apply Ep, Hpre. }
  pose proof (number_digits sign _ base i (hex_digits upcase) Hb Hs Hi) as Hn. cbn zeta in Hn.
  unfold integer_text, digits_text. destruct (sign && (i <? 0)); destruct Hn as [Hn Hl].
  - exact (number_prefix_shows _ base pad b T _ [45] padding _ _ H Hn Hl ltac:(done) HP Hpad).
  - exact (number_prefix_shows _ base pad b T _ prefix padding _ _ H Hn Hl Hlp HP Hpad).
Qed.
End Formatting.

(** ** Directives *)

(** An argument as its constructor makes it. *)
Definition arg_ok (a : Arg) : Prop :=
  match integer_arg a with Some (i, width) => - 2 ^ 63 <= i < 2 ^ 63 /\ 0 <= width | None => True end.

Section Directives.
Context (kSSizeMax sizeof_NULL : Z) (large : 128 <= kSSizeMax) (m0 : list Z).

Lemma low_bits i k : 0 <= k < 63 -> - 2 ^ 63 <= Z.land i (Z.shiftl 1 k - 1) < 2 ^ 63.
Proof.
  intros Hk. replace (Z.shiftl 1 k - 1) with (Z.ones k) by (unfold Z.ones; lia). rewrite Z.land_ones by lia.
  pose proof (Z.mod_pos_bound i (2 ^ k) ltac:(lia)). pose proof (Z.pow_le_mono_r 2 k 63 ltac:(lia) ltac:(lia)). lia.
Qed.

Lemma number_of_ok ch arg i prefix : arg_ok arg -> number_of sizeof_NULL ch arg = Some (i, prefix) ->
  - 2 ^ 63 <= i < 2 ^ 63 /\ len prefix <= 2 /\ (ch = 100 -> prefix = []).
Proof.
  intros Ha. unfold number_of. destruct (Z.eqb_spec ch 112) as [->|Hne].
  - assert (forall z, - 2 ^ 63 <= Int.static_cast Int.int64 z < 2 ^ 63) as Hc.
    { intros z. pose proof (Int.static_cast_in_range Int.int64 z eq_refl) as Hr. revert Hr. Int.int_compute. lia. }
    change (112 =? 112) with true. cbn iota.
    assert (forall z : Z, Some (z, [48; 120]) = Some (i, prefix) -> - 2 ^ 63 <= z < 2 ^ 63 ->
      - 2 ^ 63 <= i < 2 ^ 63 /\ len prefix <= 2 /\ (112 = 100 -> prefix = [])) as Hz by (by intros z [= <- <-] ?).
    destruct arg as [j w|j w|[s|] j|j]; cbn [mbind option_bind is_NULL]; intros E; try done; try (by apply (Hz _ E)).
    destruct ((w =? sizeof_NULL) && (j =? 0)); [by apply (Hz 0 E) | done].
  - unfold arg_ok in Ha. destruct (integer_arg arg) as [[j width]|]; [|done]. cbn [mbind option_bind].
    intros [= <- <-]. split; [|done]. destruct (negb (ch =? 100)); cbn [andb]; [|tauto].
    destruct (Z.ltb_spec width 8); [apply low_bits; lia | tauto].
Qed.

(** What the three cases that take an argument do. *)
Definition expand_arg (b : Buffer) (ch pad padding : Z) (arg : Arg) : option Expansion :=
  if ch =? 99 then expand_char kSSizeMax b padding arg
  else if is_number_format ch then expand_number kSSizeMax sizeof_NULL b ch pad padding arg
  else expand_string kSSizeMax sizeof_NULL b padding arg.

Definition shows_expansion (b : Buffer) (T : list Z) (result : option (list Z * bool)) (e : option Expansion) : Prop :=
  match result with
  | None => e = Some fail_to_expand
  | Some (text, more) => exists b', e = Some (if more then expanded b' else end_of_output b') /\
      shows kSSizeMax m0 b' (T ++ text) /\ same_size b b'
  end.

Lemma expand_char_shows b T pad padding arg : shows kSSizeMax m0 b T -> 0 <= padding <= kSSizeMax ->
  shows_expansion b T (argument_text sizeof_NULL 99 pad padding arg) (expand_char kSSizeMax b padding arg).
Proof.
  intros H HP. unfold argument_text, expand_char. cbn [Z.eqb Pos.eqb].
  destruct (integer_arg arg) as [[i width]|]; [|done]. cbn [mbind option_bind shows_expansion].
  destruct (Pad_shows kSSizeMax large m0 b T 32 padding 1 H) as (r & b1 & -> & H1 & Hs1); [done | lia | lia |].
  cbn [mbind option_bind]. destruct (_ =? 0); cbn [negb].
  - exists b1. by rewrite app_nil_r.
  - destruct (out_shows kSSizeMax large m0 b1 _ (Int.static_cast Int.uint8 i) H1) as (b2 & -> & H2 & Hs2).
    exists b2. split; [done|]. split; [by rewrite <- app_assoc in H2|]. unfold same_size in *. congruence.
Qed.

Lemma expand_string_shows b T pad padding arg : shows kSSizeMax m0 b T -> 0 <= padding <= kSSizeMax ->
  shows_expansion b T (argument_text sizeof_NULL 115 pad padding arg) (expand_string kSSizeMax sizeof_NULL b padding arg).
Proof.
  intros H HP. unfold argument_text, expand_string. cbn [Z.eqb Pos.eqb].
  destruct (string_of sizeof_NULL arg) as [s|]; [|done]. cbn [mbind option_bind shows_expansion].
  assert (exists b1, (if padding =? 0 then Some b else snd <$> Pad kSSizeMax b 32 padding (len s)) = Some b1 /\
    shows kSSizeMax m0 b1 (T ++ fill 32 (padding - len s)) /\ same_size b b1) as (b1 & -> & H1 & Hs1).
  { pose proof (len_nonneg s). destruct (Z.eqb_spec padding 0) as [->|].
    - exists b. rewrite fill_none, app_nil_r by lia. done.
    - destruct (Pad_shows kSSizeMax large m0 b T 32 padding (len s) H) as (r & b1 & -> & ?); [done | lia | lia |]. by exists b1. }
  cbn [mbind option_bind]. destruct (put_string_shows kSSizeMax large m0 s b1 _ H1) as (b2 & -> & H2 & Hs2).
  exists b2. split; [done|]. split; [by rewrite <- app_assoc in H2|]. unfold same_size in *. congruence.
Qed.

Lemma number_formats ch : is_number_format ch = true -> ch = 100 \/ ch = 111 \/ ch = 120 \/ ch = 88 \/ ch = 112.
Proof. unfold is_number_format. simpl. rewrite !orb_true_iff, !Z.eqb_eq. intuition (congruence || lia). Qed.

Lemma expand_number_shows b T ch pad padding arg : shows kSSizeMax m0 b T -> 0 <= padding <= kSSizeMax ->
  pad = 48 \/ pad = 32 -> arg_ok arg -> is_number_format ch = true ->
  shows_expansion b T (argument_text sizeof_NULL ch pad padding arg) (expand_number kSSizeMax sizeof_NULL b ch pad padding arg).
Proof.
  intros H HP Hpad Ha Hf%number_formats. unfold argument_text, expand_number.
  rewrite (proj2 (Z.eqb_neq ch 99)), (proj2 (Z.eqb_neq ch 115)) by lia.
  destruct (number_of sizeof_NULL ch arg) as [[i prefix]|] eqn:En; [|done]. cbn [mbind option_bind shows_expansion].
  apply number_of_ok in En as (Hi & Hl & Hp); [|done].
  destruct (IToASCII_shows kSSizeMax large m0 b T ((ch =? 100) && is_INT arg) (negb (ch =? 120)) i (base_of ch) pad padding prefix H)
    as (r & b1 & -> & H1 & Hs1); try done.
  - unfold base_of. destruct (ch =? 111), (ch =? 100); lia.
  - intros [->%Z.eqb_eq _]%andb_prop. done.
  - intros [->%Z.eqb_eq _]%andb_prop. by apply Hp.
  - by exists b1.
Qed.

Lemma expand_arg_shows b T ch pad padding arg : shows kSSizeMax m0 b T -> 0 <= padding <= kSSizeMax ->
  pad = 48 \/ pad = 32 -> arg_ok arg -> takes_argument ch = true ->
  shows_expansion b T (argument_text sizeof_NULL ch pad padding arg) (expand_arg b ch pad padding arg).
Proof.
  intros H HP Hpad Ha Ht. unfold expand_arg. destruct (Z.eqb_spec ch 99) as [->|Hc]; [by apply expand_char_shows|].
  destruct (is_number_format ch) eqn:En; [by apply expand_number_shows|].
  unfold takes_argument in Ht. rewrite En, (proj2 (Z.eqb_neq _ _) Hc) in Ht. cbn [orb] in Ht. apply Z.eqb_eq in Ht as ->.
  by apply expand_string_shows.
Qed.

Lemma expand_takes b ch pad padding args cur_arg : takes_argument ch = true ->
  expand kSSizeMax sizeof_NULL b ch pad padding args cur_arg =
  match args !! cur_arg with
  | None => Some (Some (fail_to_expand, cur_arg))
  | Some arg => e ← expand_arg b ch pad padding arg; Some (Some (e, S cur_arg))
  end.
Proof.
  unfold takes_argument, expand, expand_arg. destruct (ch =? 99); [done|]. destruct (is_number_format ch); [done|].
  cbn [orb]. by intros ->.
Qed.

Lemma expand_takes_none b ch pad padding args cur_arg : takes_argument ch = false ->
  expand kSSizeMax sizeof_NULL b ch pad padding args cur_arg = Some None.
Proof. unfold takes_argument, expand. intros [[-> ->]%orb_false_iff ->]%orb_false_iff. done. Qed.

Lemma copy_directive_shows b T ch : shows kSSizeMax m0 b T ->
  exists b', copy_directive kSSizeMax b ch = Some (snd (copied ch), b') /\
    shows kSSizeMax m0 b' (T ++ fst (copied ch)) /\ same_size b b'.
Proof.
  intros H. unfold copy_directive, copied. destruct (out_shows kSSizeMax large m0 b T 37 H) as (b1 & -> & H1 & Hs1).
  cbn [mbind option_bind]. destruct (ch =? 0); [by exists b1|].
  destruct (out_shows kSSizeMax large m0 b1 _ ch H1) as (b2 & -> & H2 & Hs2). exists b2. split; [done|].
  split; [by rewrite <- app_assoc in H2|]. unfold same_size in *. congruence.
Qed.

Lemma read_width_range fmt : forall ch padding w ch' fmt', is_digit ch = true -> 0 <= padding ->
  read_width kSSizeMax ch fmt padding = Some (Some w, ch', fmt') -> 0 <= w <= kSSizeMax - 1.
Proof.
  induction fmt as [|c fmt IH]; intros ch padding w ch' fmt' Hd Hp; cbn [read_width];
    (destruct (_ || _); [by destruct (skip_digits _) as [[? ?]|]|]);
    (destruct (Z.ltb_spec (kSSizeMax - 1) (10 * padding + ch - 48)); [by destruct (skip_digits _) as [[? ?]|]|]); [done|].
  unfold is_digit in Hd. apply andb_prop in Hd as [H1%Z.leb_le H2%Z.leb_le].
  destruct (is_digit c) eqn:Hc; [apply IH; [done | lia]|]. intros [= <- _ _]. lia.
Qed.

Lemma format_character_shows b T width pad ch args cur_arg :
  shows kSSizeMax m0 b T -> Forall arg_ok args -> (forall w, width = Some w -> 0 <= w <= kSSizeMax) ->
  pad = 48 \/ pad = 32 ->
  exists b', let '(text, more, cur_arg') := directive_text sizeof_NULL width pad ch args cur_arg in
    format_character_found kSSizeMax sizeof_NULL b width pad ch args cur_arg = Some (more, b', cur_arg') /\
    shows kSSizeMax m0 b' (T ++ text) /\ same_size b b'.
Proof.
  intros H Hargs Hw Hpad. unfold directive_text, format_character_found.
  destruct (copy_directive_shows b T ch H) as (bc & Ec & Hc & Hsc). destruct (copied ch) as [tc mc] eqn:Ecp.
  cbn [fst snd] in Ec, Hc. destruct width as [w|].
  - specialize (Hw w eq_refl). destruct (takes_argument ch) eqn:Ht.
    + rewrite expand_takes by done. destruct (args !! cur_arg) as [arg|] eqn:Ea; cbn [mbind option_bind].
      2:{ rewrite Ec. by exists bc. }
      pose proof (Forall_lookup_1 _ _ _ _ Hargs Ea) as Hok.
      pose proof (expand_arg_shows b T ch pad w arg H Hw Hpad Hok Ht) as He. unfold shows_expansion in He.
      destruct (argument_text sizeof_NULL ch pad w arg) as [[text more]|]; cbn [default].
      * destruct He as (b' & -> & ? & ?). exists b'. by destruct more.
      * rewrite He. cbn [mbind option_bind]. rewrite Ec. by exists bc.
    + rewrite expand_takes_none by done. cbn [mbind option_bind]. destruct (ch =? 37).
      * destruct (out_shows kSSizeMax large m0 b T 37 H) as (b' & -> & ? & ?). by exists b'.
      * rewrite Ec. by exists bc.
  - rewrite Ec. exists bc. destruct (args !! cur_arg) as [arg|] eqn:Ea; cbn [mbind option_bind].
    + apply lookup_lt_Some in Ea. by rewrite (proj2 (Nat.ltb_lt _ _)).
    + apply lookup_ge_None in Ea. by rewrite (proj2 (Nat.ltb_ge _ _)).
Qed.

(** Once the count is at its limit nothing more is seen. *)
Lemma beyond_limit b T U : shows kSSizeMax m0 b T -> OutOfAddressableSpace kSSizeMax b = true ->
  shows kSSizeMax m0 b (T ++ U).
Proof.
  intros [H1 H2 H3 H4] Ho%Z.eqb_eq. pose proof (len_nonneg U). split; [done|done| |].
  - rewrite len_app. lia.
  - rewrite take_beyond; [done | lia].
Qed.

Lemma read_directive_pad fmt width pad ch fmt' : read_directive kSSizeMax fmt = Some (width, pad, ch, fmt') ->
  (pad = 48 \/ pad = 32) /\ (forall w, width = Some w -> 0 <= w <= kSSizeMax).
Proof.
  unfold read_directive. destruct (next_char fmt) as [[c f]|]; [|done]. cbn [mbind option_bind].
  destruct (is_digit c) eqn:Ed.
  - destruct (read_width kSSizeMax c f 0) as [[[w ch'] g]|] eqn:Er; [|done]. cbn [mbind option_bind].
    intros [= <- <- <- <-]. split; [by destruct (c =? 48); [left|right]|]. intros w' ->.
    pose proof (read_width_range f c 0 w' ch' g Ed ltac:(done) Er). lia.
  - intros [= <- <- <- <-]. split; [by right|]. intros w [= <-]. lia.
Qed.

Lemma format_loop_shows args turns : Forall arg_ok args -> forall b T fmt cur_arg text,
  shows kSSizeMax m0 b T -> format_text kSSizeMax sizeof_NULL turns fmt args cur_arg = Some text ->
  exists b', format_loop kSSizeMax sizeof_NULL turns b fmt args cur_arg = Some b' /\
    shows kSSizeMax m0 b' (T ++ text) /\ same_size b b'.
Proof.
  intros Hargs. induction turns as [|turns IH]; intros b T fmt cur_arg text H; [done|].
  cbn [format_text format_loop]. destruct (next_char fmt) as [[c rest]|]; [|done]. cbn [mbind option_bind].
  destruct (c =? 0); [intros [= <-]; exists b; by rewrite app_nil_r|]. cbn [orb].
  destruct (OutOfAddressableSpace kSSizeMax b) eqn:Eo.
  { intros _. exists b. split; [done|]. split; [by apply beyond_limit | done]. }
  destruct (c =? 37).
  - destruct (read_directive kSSizeMax rest) as [[[[width pad] ch] f]|] eqn:Er; [|done]. cbn [mbind option_bind].
    apply read_directive_pad in Er as Hr. destruct Hr as [Hpad Hw]. unfold directive. rewrite Er. cbn [mbind option_bind].
    destruct (format_character_shows b T width pad ch args cur_arg H Hargs Hw Hpad) as (b1 & E1).
    destruct (directive_text _ _ _ _ _ _) as [[t more] cur1]. destruct E1 as (-> & H1 & Hs1). cbn [mbind option_bind].
    destruct more; [|intros [= <-]; by exists b1].
    destruct (format_text kSSizeMax sizeof_NULL turns f args cur1) as [t2|] eqn:Et; [|done]. intros [= <-].
    destruct (IH b1 (T ++ t) f cur1 t2 H1 Et) as (b2 & E2 & H2 & Hs2). exists b2. split; [done|].
    rewrite app_assoc. split; [done|]. unfold same_size in *. congruence.
  - destruct (out_shows kSSizeMax large m0 b T c H) as (b1 & -> & H1 & Hs1). cbn [mbind option_bind].
    destruct (format_text kSSizeMax sizeof_NULL turns rest args cur_arg) as [t2|] eqn:Et; [|done]. intros [= <-].
    destruct (IH b1 (T ++ [c]) rest cur_arg t2 H1 Et) as (b2 & E2 & H2 & Hs2). exists b2. split; [done|].
    rewrite cons_middle, app_assoc. split; [done|]. unfold same_size in *. congruence.
Qed.
End Directives.

(** ** A format that has its terminator is read to the end *)

(** The rest of a format is shorter, and has a terminator unless [ch] was it. *)
Definition goes_on (fmt : list Z) (ch : Z) (rest : list Z) : Prop :=
  (length rest < length fmt)%nat /\ (ch <> 0 -> 0 ∈ rest).

Lemma goes_on_here ch fmt : 0 ∈ ch :: fmt -> goes_on (ch :: fmt) ch fmt.
Proof. intros H. split; [simpl; lia|]. set_solver. Qed.

Lemma goes_on_more c fmt ch rest : goes_on fmt ch rest -> goes_on (c :: fmt) ch rest.
Proof. intros [H1 H2]. split; [simpl; lia | done]. Qed.

Lemma past_digit c fmt : is_digit c = true -> 0 ∈ c :: fmt -> 0 ∈ fmt.
Proof. intros Hd [<-|?]%elem_of_cons; [discriminate Hd | done]. Qed.

Lemma skip_digits_total fmt : 0 ∈ fmt -> exists ch rest, skip_digits fmt = Some (ch, rest) /\ goes_on fmt ch rest.
Proof.
  induction fmt as [|c fmt IH]; intros H; [by apply not_elem_of_nil in H|]. cbn [skip_digits].
  destruct (is_digit c) eqn:Hd; [|exists c, fmt; split; [done | by apply goes_on_here]].
  destruct IH as (ch & rest & E & G); [by apply (past_digit c)|]. exists ch, rest. split; [done | by apply goes_on_more].
Qed.

Section Total.
Context (kSSizeMax sizeof_NULL : Z).

Lemma read_width_total fmt : forall c padding, 0 ∈ fmt ->
  exists width ch rest, read_width kSSizeMax c fmt padding = Some (width, ch, rest) /\ goes_on fmt ch rest.
Proof.
  induction fmt as [|c' fmt IH]; intros c padding H; [by apply not_elem_of_nil in H|].
  destruct (skip_digits_total (c' :: fmt) H) as (ch & rest & E & G). cbn [read_width]. rewrite E. cbn [mbind option_bind].
  destruct (_ || _); [eauto|]. destruct (_ <? _); [eauto|].
  destruct (is_digit c') eqn:Hd; [|eexists _, c', fmt; split; [done | by apply goes_on_here]].
  destruct (IH c' (10 * padding + c - 48)) as (width & ch' & rest' & E' & G'); [by apply (past_digit c')|].
  exists width, ch', rest'. split; [done | by apply goes_on_more].
Qed.

Lemma read_directive_total fmt : 0 ∈ fmt ->
  exists width pad ch rest, read_directive kSSizeMax fmt = Some (width, pad, ch, rest) /\ goes_on fmt ch rest.
Proof.
  intros H. destruct fmt as [|c fmt]; [by apply not_elem_of_nil in H|].
  unfold read_directive. cbn [next_char mbind option_bind]. destruct (is_digit c) eqn:Hd.
  - destruct (read_width_total fmt c 0) as (width & ch & rest & -> & G); [by apply (past_digit c)|].
    eexists _, _, _, _. split; [done | by apply goes_on_more].
  - eexists _, _, _, _. split; [done | by apply goes_on_here].
Qed.

(** The terminator takes no argument: the output ends with it. *)
Lemma terminator_ends width pad args cur_arg :
  exists text cur_arg', directive_text sizeof_NULL width pad 0 args cur_arg = (text, false, cur_arg').
Proof. unfold directive_text. destruct width, (args !! cur_arg); eauto. Qed.

Lemma format_text_total args turns : forall fmt cur_arg, 0 ∈ fmt -> (length fmt < turns)%nat ->
  exists text, format_text kSSizeMax sizeof_NULL turns fmt args cur_arg = Some text.
Proof.
  induction turns as [|turns IH]; intros fmt cur_arg H Ht; [lia|].
  destruct fmt as [|c fmt]; [by apply not_elem_of_nil in H|]. cbn [length] in Ht.
  cbn [format_text next_char mbind option_bind]. destruct (Z.eqb_spec c 0); [eauto|].
  assert (0 ∈ fmt) as Hf by set_solver. destruct (c =? 37).
  - destruct (read_directive_total fmt Hf) as (width & pad & ch & rest & -> & Hl & Hz). cbn [mbind option_bind].
    destruct (Z.eq_dec ch 0) as [->|Hch].
    + destruct (terminator_ends width pad args cur_arg) as (text & cur & ->). eauto.
    + destruct (directive_text _ _ _ _ _ _) as [[text more] cur]. destruct more; [|eauto].
      destruct (IH rest cur) as (t & ->); [auto | lia |]. eauto.
  - destruct (IH fmt cur_arg) as (t & ->); [done | lia |]. eauto.
Qed.
End Total.

(** ** The two functions *)

Section Results.
Context (kSSizeMax sizeof_NULL : Z) (large : 128 <= kSSizeMax).

(** What the caller gets: the length of the text, as much of it as fits, and a terminator. *)
Definition result_of (buf : list Z) (sz : Z) (text : list Z) : Z * list Z :=
  (Z.min (kSSizeMax - 1) (len text), overlay buf (take (Z.to_nat (Z.min sz kSSizeMax - 1)) text ++ [0])).

Lemma new_Buffer_shows buf sz : 1 <= sz <= len buf ->
  exists b, new_Buffer kSSizeMax buf (if kSSizeMax <? sz then kSSizeMax else sz) = Some b /\
    shows kSSizeMax buf b [] /\ size_ b = Z.min sz kSSizeMax - 1.
Proof.
  intros H. unfold new_Buffer. rewrite option_guard_True by (destruct (Z.ltb_spec kSSizeMax sz); lia).
  eexists. split; [done|]. assert ((if kSSizeMax <? sz then kSSizeMax else sz) = Z.min sz kSSizeMax) as ->.
  { destruct (Z.ltb_spec kSSizeMax sz); lia. }
  split; [|done]. split; cbn [size_ count_ buffer_]; [lia | lia | change (len []) with 0; lia|].
  by rewrite take_nil.
Qed.

Lemma delete_Buffer_shows buf b T sz : shows kSSizeMax buf b T -> size_ b = Z.min sz kSSizeMax - 1 ->
  (n ← GetCount kSSizeMax b; m ← delete_Buffer b; Some (n, m)) = Some (result_of buf sz T).
Proof.
  intros [H1 H2 H3 H4] Hs. pose proof (len_nonneg T). unfold GetCount. rewrite option_guard_True by lia.
  cbn [mbind option_bind]. unfold delete_Buffer, result_of. rewrite <- Hs, H4.
  assert (GetInsertionPoint b = len (take (Z.to_nat (size_ b)) T)) as ->.
  { unfold GetInsertionPoint. rewrite H3. unfold len. rewrite length_take. unfold len in *.
    destruct (Z.ltb_spec (size_ b) (Z.min (kSSizeMax - 1) (Z.of_nat (length T)))); lia. }
  rewrite poke_overlay; [cbn [mbind option_bind]; by rewrite H3|].
  unfold len in *. rewrite length_take. lia.
Qed.

Lemma copy_loop_shows buf n : forall src b T, (length src <= n)%nat -> shows kSSizeMax buf b T -> 0 ∈ src ->
  exists b', copy_loop kSSizeMax b src = Some b' /\ shows kSSizeMax buf b' (T ++ verbatim_text src) /\ same_size b b'.
Proof.
  induction n as [|n IH]; intros src b T Hl H Hz; (destruct src as [|c rest]; [by apply not_elem_of_nil in Hz|]);
    cbn [length] in Hl; [lia|].
  cbn [copy_loop verbatim_text]. destruct (Z.eqb_spec c 0) as [|Hc]; [exists b; by rewrite app_nil_r|].
  destruct (out_shows kSSizeMax large buf b T c H) as (b1 & -> & H1 & Hs1). cbn [mbind option_bind].
  destruct rest as [|c2 rest']; [set_solver|]. rewrite cons_middle, app_assoc.
  assert (forall s, (length s <= n)%nat -> 0 ∈ s -> exists b', copy_loop kSSizeMax b1 s = Some b' /\
    shows kSSizeMax buf b' ((T ++ [c]) ++ verbatim_text s) /\ same_size b b') as Hgo.
  { intros s Hs Hz0. destruct (IH s b1 (T ++ [c]) Hs H1 Hz0) as (b2 & E & H2 & Hs2). exists b2. split; [done|].
    split; [done|]. unfold same_size in *. congruence. }
  destruct ((c =? 37) && (c2 =? 37)) eqn:Ep; cbn [length] in Hl.
  - apply andb_prop in Ep as [_ ->%Z.eqb_eq]. apply Hgo; [lia | set_solver].
  - apply (Hgo (c2 :: rest')); [cbn [length]; lia | set_solver].
Qed.

(** C36: both functions are total and never write outside of the caller's buffer: the
    result is the length of the whole text, at most [kSSizeMax - 1], and the buffer holds
    as much of the text as fits, then a terminator. The rest of the buffer is untouched. *)
Theorem safe_sprintf_exact buf sz fmt args :
  1 <= sz <= len buf -> 0 ∈ fmt -> Forall arg_ok args ->
  (exists text, format_text kSSizeMax sizeof_NULL (S (length fmt)) fmt args 0 = Some text /\
    SafeSNPrintf kSSizeMax sizeof_NULL buf sz fmt args = Some (result_of buf sz text)) /\
  SafeSNPrintf_verbatim kSSizeMax buf sz fmt = Some (result_of buf sz (verbatim_text fmt)).
Proof.
  intros Hsz Hfmt Hargs. unfold SafeSNPrintf, SafeSNPrintf_verbatim. rewrite (proj2 (Z.ltb_ge sz 1)) by lia.
  destruct (new_Buffer_shows buf sz Hsz) as (b & -> & Hb & Hs). cbn [mbind option_bind]. split.
  - destruct (format_text_total kSSizeMax sizeof_NULL args (S (length fmt)) fmt 0 Hfmt ltac:(lia)) as (text & Et).
    exists text. split; [done|].
    destruct (format_loop_shows kSSizeMax sizeof_NULL large buf args _ Hargs b [] fmt 0 text Hb Et) as (b' & -> & H' & Hs').
    apply delete_Buffer_shows; [done|]. unfold same_size in Hs'. congruence.
  - destruct (copy_loop_shows buf (length fmt) fmt b [] (le_n _) Hb Hfmt) as (b' & -> & H' & Hs').
    apply delete_Buffer_shows; [done|]. unfold same_size in Hs'. congruence.
Qed.
End Results.

(** ** Examples *)

(** The value of a digit. *)
Definition hex_value (c : Z) : Z := if c <? 58 then c - 48 else if c <? 97 then c - 55 else c - 87.

Lemma hex_value_exact (upcase : bool) d : 0 <= d < 16 ->
  hex_value (default 0 ((if upcase then kUpCaseHexDigits else kDownCaseHexDigits) !! Z.to_nat d)) = d.
Proof.
  intros H. assert (In (Z.to_nat d) (seq 0 16)) as Hd by (apply in_seq; lia).
  rewrite <- (Z2Nat.id d) at 2 by lia. revert Hd. generalize (Z.to_nat d). clear.
  intros n Hn. destruct upcase; repeat (destruct Hn as [<-|Hn]; [reflexivity|]); destruct Hn.
Qed.

(** The digits are those of the number: reading them gives it back. *)
Lemma digits_read_back (upcase : bool) base turns : 2 <= base <= 16 -> forall n, 0 <= n < 2 ^ Z.of_nat turns ->
  foldr (fun c v => hex_value c + base * v) 0
    (digits_rev turns (if upcase then kUpCaseHexDigits else kDownCaseHexDigits) base n) = n.
Proof.
  intros Hb. induction turns as [|turns IH]; intros n Hn.
  { change (2 ^ Z.of_nat 0) with 1 in Hn. cbn. lia. }
  cbn [digits_rev foldr]. pose proof (Z.mod_pos_bound n base ltac:(lia)) as Hm.
  rewrite hex_value_exact by lia. pose proof (Z.div_mod n base ltac:(lia)) as Hd.
  destruct (Z.eqb_spec (n / base) 0) as [E|E]; cbn [foldr]; [lia|]. rewrite IH; [lia|].
  split; [apply Z.div_pos; lia|]. rewrite Nat2Z.inj_succ, Z.pow_succ_r in Hn by lia.
  apply Z.div_lt_upper_bound; [lia|]. nia.
Qed.

Definition example_max : Z := 2 ^ 63 - 1.

(** A buffer of 9 characters cannot hold "id=007:<NULL>!", the untouched rest of the
    memory stays as it was. *)
Definition example_format : list Z := [105; 100; 61; 37; 48; 51; 100; 58; 37; 115; 33; 0].
Definition example_args : list Arg := [INT 7 4; STRING None 0].

Example text_is_cut :
  SafeSNPrintf example_max 8 (replicate 12 170) 9 example_format example_args =
  Some (14, [105; 100; 61; 48; 48; 55; 58; 60; 0; 170; 170; 170]).
Proof. vm_compute. reflexivity. Qed.

(** The least number in six characters: its sign and its first four digits. *)
Example number_is_cut :
  SafeSNPrintf example_max 8 (replicate 6 170) 6 [37; 100; 0] [INT (- 2 ^ 63) 8] =
  Some (20, [45; 57; 50; 50; 51; 0]).
Proof. vm_compute. reflexivity. Qed.

(** The example of the header: "%p %d" of 1 and 2 is "%p 2". *)
Example mismatch_is_copied :
  SafeSNPrintf example_max 8 (replicate 6 170) 6 [37; 112; 32; 37; 100; 0] [INT 1 4; INT 2 4] =
  Some (4, [37; 112; 32; 50; 0; 170]).
Proof. vm_compute. reflexivity. Qed.

(** "%3d" of a string is copied as "%d": the width is lost. *)
Example width_is_not_copied :
  SafeSNPrintf example_max 8 (replicate 6 170) 6 [37; 51; 100; 0] [STRING None 0] =
  Some (2, [37; 100; 0; 170; 170; 170]).
Proof. vm_compute. reflexivity. Qed.

Definition example_text : list Z := [105; 100; 61; 48; 48; 55; 58; 60; 78; 85; 76; 76; 62; 33].

Lemma safe_sprintf_exact_witness :
  (exists text, format_text example_max 8 13 example_format example_args 0 = Some text /\
    SafeSNPrintf example_max 8 (replicate 12 170) 9 example_format example_args =
      Some (result_of example_max (replicate 12 170) 9 text)) /\
  SafeSNPrintf_verbatim example_max (replicate 12 170) 9 example_format =
    Some (result_of example_max (replicate 12 170) 9 (verbatim_text example_format)).
Proof.
  apply (safe_sprintf_exact example_max 8).
  - by vm_compute.
  - split; by vm_compute.
  - repeat (constructor; try done).
  - repeat constructor; by vm_compute.
Defined.
