(* ===== verification/Hashing.v ===== *)
(** * Words, bytes and blocks of the hash functions

    The 32 bit arithmetic that [base/md5.cc] and [base/sha1_portable.cc] use, memory as a
    list of bytes with the words of a little-endian machine in it, and what both hash
    functions are about: a compression of 64 byte blocks along a padded message. *)
From Stdlib Require Import ZArith Lia.
From stdpp Require Import base option list.
From S2P Require Import Prelude StdString.

Local Open Scope Z_scope.

#[local] Ltac Zify.zify_post_hook ::= Z.to_euclidean_division_equations.

(** ** 32 bit words *)

Definition w32 (x : Z) : Z := x mod 2 ^ 32.
Definition shl32 (x n : Z) : Z := w32 (Z.shiftl x n).
Definition not32 (x : Z) : Z := w32 (Z.lnot x).

(** The rotation of the standards. *)
Definition rotl32 (x n : Z) : Z := Z.lor (shl32 x n) (Z.shiftr x (32 - n)).

(** ** Memory *)

(** The bytes of a word in memory, the low one first. *)
Definition word_bytes (w : Z) : list Z :=
  [w mod 256; Z.shiftr w 8 mod 256; Z.shiftr w 16 mod 256; Z.shiftr w 24 mod 256].

Definition bytes_word (b0 b1 b2 b3 : Z) : Z := b0 + 256 * (b1 + 256 * (b2 + 256 * b3)).

(** The word at a byte offset; the bytes [bs] stored at one. *)
Definition word_at (m : list Z) (off : nat) : option Z :=
  b0 ← m !! off; b1 ← m !! (off + 1)%nat; b2 ← m !! (off + 2)%nat; b3 ← m !! (off + 3)%nat;
  Some (bytes_word b0 b1 b2 b3).

Definition store_bytes (m : list Z) (off : nat) (bs : list Z) : option (list Z) :=
  guard (off + length bs <= length m)%nat;; Some (take off m ++ bs ++ drop (off + length bs) m).

Definition bytes_ok (m : list Z) : Prop := Forall (fun b => 0 <= b < 256) m.

(** ** Lemmas on words *)

Lemma lor_shl a b k : 0 <= k -> 0 <= b < 2 ^ k -> Z.lor (Z.shiftl a k) b = a * 2 ^ k + b.
Proof. intros Hk Hb. rewrite Z.shiftl_mul_pow2 by done. by apply lor_disjoint. Qed.

Lemma word_bytes_ok w : bytes_ok (word_bytes w).
Proof. repeat constructor; apply Z.mod_pos_bound; lia. Qed.

Lemma bytes_word_range b0 b1 b2 b3 : bytes_ok [b0; b1; b2; b3] -> 0 <= bytes_word b0 b1 b2 b3 < 2 ^ 32.
Proof.
  intros H. repeat apply Forall_cons in H as [? H]. unfold bytes_word. change (2 ^ 32) with 4294967296. lia.
Qed.

Lemma word_bytes_word b0 b1 b2 b3 : bytes_ok [b0; b1; b2; b3] -> word_bytes (bytes_word b0 b1 b2 b3) = [b0; b1; b2; b3].
Proof.
  intros H. repeat apply Forall_cons in H as [? H]. unfold word_bytes, bytes_word. rewrite !Z.shiftr_div_pow2 by done.
  change (2 ^ 8) with 256. change (2 ^ 16) with 65536. change (2 ^ 24) with 16777216. repeat f_equal; lia.
Qed.

Lemma bytes_word_bytes w b0 b1 b2 b3 : 0 <= w < 2 ^ 32 -> word_bytes w = [b0; b1; b2; b3] -> bytes_word b0 b1 b2 b3 = w.
Proof.
  change (2 ^ 32) with 4294967296. intros Hw [= <- <- <- <-]. unfold bytes_word. rewrite !Z.shiftr_div_pow2 by done.
  change (2 ^ 8) with 256. change (2 ^ 16) with 65536. change (2 ^ 24) with 16777216. lia.
Qed.


Lemma store_bytes_shows m off bs : (off + length bs <= length m)%nat ->
  exists m', store_bytes m off bs = Some m' /\ length m' = length m /\ take (off + length bs) m' = take off m ++ bs /\
    (bytes_ok m -> bytes_ok bs -> bytes_ok m').
Proof.
  intros H. unfold store_bytes. rewrite option_guard_True by done. eexists. split; [done|]. split_and!.
  - rewrite !length_app, length_take, length_drop. lia.
  - rewrite app_assoc, take_app_le, take_ge; [done|..]; rewrite length_app, length_take; lia.
  - intros Hm Hbs. repeat apply Forall_app_2; [by apply Forall_take | done | by apply Forall_drop].
Qed.

Definition word_ok (x : Z) : Prop := 0 <= x < 2 ^ 32.

Lemma w32_ok x : word_ok (w32 x).
Proof. by apply Z.mod_pos_bound. Qed.

Lemma word_high x i : word_ok x -> 32 <= i -> Z.testbit x i = false.
Proof. intros Hx Hi. rewrite <- (Z.mod_small x (2 ^ 32)) by done. apply Z.mod_pow2_bits_high. lia. Qed.

Lemma w32_bit x i : 0 <= i -> Z.testbit (w32 x) i = (i <? 32) && Z.testbit x i.
Proof.
  intros Hi. unfold w32. destruct (Z.ltb_spec i 32); [by rewrite Z.mod_pow2_bits_low|].
  apply Z.mod_pow2_bits_high. lia.
Qed.

Lemma not32_bit x i : 0 <= i -> Z.testbit (not32 x) i = (i <? 32) && negb (Z.testbit x i).
Proof. intros Hi. unfold not32. by rewrite w32_bit, Z.lnot_spec. Qed.

(** Equality of words, bit by bit. *)
Ltac by_bits :=
  apply Z.bits_inj'; intros i Hi;
  repeat rewrite ?Z.lxor_spec, ?Z.land_spec, ?Z.lor_spec, ?not32_bit by done;
  destruct (Z.ltb_spec i 32);
  [|repeat match goal with H : word_ok ?x |- context [Z.testbit ?x i] => rewrite (word_high x i H) by done end];
  repeat match goal with |- context [Z.testbit ?x i] => destruct (Z.testbit x i) end; reflexivity.

(** ** Padding and blocks *)

(** A length in bits, modulo [2^64], low byte first. *)
Definition length_bytes (n : Z) : list Z := word_bytes (w32 n) ++ word_bytes (w32 (Z.shiftr n 32)).

(** The message, one bit, zeros up to 8 bytes before the end of a block, its length. *)
Definition padded (length_of : Z -> list Z) (m : list Z) : list Z :=
  m ++ [128] ++ replicate (Z.to_nat ((55 - len m) mod 64)) 0 ++ length_of (8 * len m).

Section Blocks.
Context {State : Type} (compress : State -> list Z -> State).

(** [n] blocks from the start of [m]. *)
Fixpoint absorb (n : nat) (s : State) (m : list Z) : State :=
  match n with
  | O => s
  | S n => absorb n (compress s (take 64 m)) (drop 64 m)
  end.

Definition hash_blocks (s : State) (m : list Z) : State := absorb (length m / 64) s m.

Lemma absorb_app n k s a b : length a = (64 * n)%nat -> absorb (n + k) s (a ++ b) = absorb k (absorb n s a) b.
Proof.
  revert s a. induction n as [|n IH]; intros s a Ha; cbn [absorb Nat.add].
  - by destruct a.
  - rewrite take_app_le, drop_app_le by lia. apply IH. rewrite length_drop. lia.
Qed.

Lemma absorb_prefix n s a b : (64 * n <= length a)%nat -> absorb n s (a ++ b) = absorb n s a.
Proof.
  revert s a. induction n as [|n IH]; intros s a Ha; cbn [absorb]; [done|].
  rewrite take_app_le, drop_app_le by lia. apply IH. rewrite length_drop. lia.
Qed.

(** The state and the bytes that wait for the end of their block, after [m] was read. *)
Definition absorbed (s0 : State) (m : list Z) (s : State) (tail : list Z) : Prop :=
  exists whole, m = whole ++ tail /\ (length whole = 64 * (length whole / 64))%nat /\ (length tail < 64)%nat /\
    s = absorb (length whole / 64) s0 whole.

Lemma absorbed_nil s0 : absorbed s0 [] s0 [].
Proof. exists []. simpl. by split_and!; try lia. Qed.

Lemma absorbed_more s0 m s tail d : absorbed s0 m s tail -> (length tail + length d < 64)%nat ->
  absorbed s0 (m ++ d) s (tail ++ d).
Proof.
  intros (whole & -> & Hw & Ht & ->) Hd. exists whole. rewrite <- app_assoc, length_app. by split_and!; try lia.
Qed.

Lemma absorbed_block s0 m s tail d : absorbed s0 m s tail -> (length tail + length d = 64)%nat ->
  absorbed s0 (m ++ d) (compress s (tail ++ d)) [].
Proof.
  intros (whole & -> & Hw & Ht & ->) Hd. exists (whole ++ tail ++ d). rewrite app_nil_r, <- app_assoc.
  assert (length (whole ++ tail ++ d) / 64 = length whole / 64 + 1)%nat as El.
  { rewrite !length_app, Hd. set (q := (length whole / 64)%nat) in *.
    symmetry. apply (Nat.div_unique _ _ _ 0); lia. }
  split_and!; [done| | simpl; lia |].
  - rewrite El, !length_app. lia.
  - rewrite El, absorb_app by done. cbn [absorb]. rewrite take_ge; [done|]. rewrite length_app. lia.
Qed.

Lemma absorbed_tail s0 m s tail : absorbed s0 m s tail -> len tail = len m mod 64.
Proof.
  intros (whole & -> & Hw & Ht & _). rewrite len_app. unfold len. rewrite Hw.
  rewrite Nat2Z.inj_mul, Z.mul_comm, Z.add_comm, Z_mod_plus_full. rewrite Z.mod_small; lia.
Qed.

(** All of a message of whole blocks. *)
Lemma absorbed_all s0 m s : absorbed s0 m s [] -> s = hash_blocks s0 m.
Proof. intros (whole & -> & _ & _ & ->). by rewrite app_nil_r. Qed.
End Blocks.
