(* ===== verification/Md5.v ===== *)
(** * MD5 ([base/md5.cc])

    The context with its memory, the transformation as the code unrolls it, and the
    functions around them; [md5] is the algorithm of RFC 1321, which the code computes for
    every division of a message into updates ([md5_updates_exact]). Words are 32 bits and
    little-endian, as on the machines of the build; an access outside of the context's 64
    bytes is [None]. *)
From Stdlib Require Import ZArith Lia.
From stdpp Require Import base option list.
From S2P Require Import Prelude StdString Hashing.

Local Open Scope Z_scope.

#[local] Ltac Zify.zify_post_hook ::= Z.to_euclidean_division_equations.

Definition Words : Type := Z * Z * Z * Z.

Record Context := Context_ {
  buf : Words;
  bits_low : Z;
  bits_high : Z;
  in_ : list Z;
}.

(** The first [longs] words of memory are read byte by byte and stored as words. *)
Fixpoint byteReverse (longs : nat) (m : list Z) : option (list Z) :=
  match longs with
  | O => Some m
  | S longs =>
      match m with
      | b0 :: b1 :: b2 :: b3 :: rest =>
          let t := Z.lor (shl32 (Z.lor (Z.shiftl b3 8) b2) 16) (Z.lor (Z.shiftl b1 8) b0) in
          rest ← byteReverse longs rest; Some (word_bytes t ++ rest)
      | _ => None
      end
  end.

Definition F1 (x y z : Z) : Z := Z.lxor z (Z.land x (Z.lxor y z)).
Definition F2 (x y z : Z) : Z := F1 z x y.
Definition F3 (x y z : Z) : Z := Z.lxor (Z.lxor x y) z.
Definition F4 (x y z : Z) : Z := Z.lxor y (Z.lor x (not32 z)).

(** The new value of [w]. *)
Definition MD5STEP (f : Z -> Z -> Z -> Z) (w x y z data s : Z) : Z :=
  let w := w32 (w + w32 (f x y z + data)) in
  let w := Z.lor (shl32 w s) (Z.shiftr w (32 - s)) in
  w32 (w + x).

(** What a step takes: the index in [in], the constant that is added, the shift. *)
Record Row := Row_ { index : nat; constant : Z; shift : Z }.

Definition step_data (in_ : list Z) (r : Row) : Z := w32 (nth (index r) in_ 0 + constant r).

(** Four lines of the transformation, one for each of [a], [d], [c] and [b]. *)
Record Lines := Lines_ { f_ : Z -> Z -> Z -> Z; row_a : Row; row_d : Row; row_c : Row; row_b : Row }.

Definition four_steps (in_ : list Z) (w : Words) (l : Lines) : Words :=
  let '(a, b, c, d) := w in
  let a := MD5STEP (f_ l) a b c d (step_data in_ (row_a l)) (shift (row_a l)) in
  let d := MD5STEP (f_ l) d a b c (step_data in_ (row_d l)) (shift (row_d l)) in
  let c := MD5STEP (f_ l) c d a b (step_data in_ (row_c l)) (shift (row_c l)) in
  let b := MD5STEP (f_ l) b c d a (step_data in_ (row_b l)) (shift (row_b l)) in
  (a, b, c, d).

Definition transform_lines : list Lines := [
  Lines_ F1 (Row_ 0 0xd76aa478 7) (Row_ 1 0xe8c7b756 12) (Row_ 2 0x242070db 17) (Row_ 3 0xc1bdceee 22);
  Lines_ F1 (Row_ 4 0xf57c0faf 7) (Row_ 5 0x4787c62a 12) (Row_ 6 0xa8304613 17) (Row_ 7 0xfd469501 22);
  Lines_ F1 (Row_ 8 0x698098d8 7) (Row_ 9 0x8b44f7af 12) (Row_ 10 0xffff5bb1 17) (Row_ 11 0x895cd7be 22);
  Lines_ F1 (Row_ 12 0x6b901122 7) (Row_ 13 0xfd987193 12) (Row_ 14 0xa679438e 17) (Row_ 15 0x49b40821 22);
  Lines_ F2 (Row_ 1 0xf61e2562 5) (Row_ 6 0xc040b340 9) (Row_ 11 0x265e5a51 14) (Row_ 0 0xe9b6c7aa 20);
  Lines_ F2 (Row_ 5 0xd62f105d 5) (Row_ 10 0x02441453 9) (Row_ 15 0xd8a1e681 14) (Row_ 4 0xe7d3fbc8 20);
  Lines_ F2 (Row_ 9 0x21e1cde6 5) (Row_ 14 0xc33707d6 9) (Row_ 3 0xf4d50d87 14) (Row_ 8 0x455a14ed 20);
  Lines_ F2 (Row_ 13 0xa9e3e905 5) (Row_ 2 0xfcefa3f8 9) (Row_ 7 0x676f02d9 14) (Row_ 12 0x8d2a4c8a 20);
  Lines_ F3 (Row_ 5 0xfffa3942 4) (Row_ 8 0x8771f681 11) (Row_ 11 0x6d9d6122 16) (Row_ 14 0xfde5380c 23);
  Lines_ F3 (Row_ 1 0xa4beea44 4) (Row_ 4 0x4bdecfa9 11) (Row_ 7 0xf6bb4b60 16) (Row_ 10 0xbebfbc70 23);
  Lines_ F3 (Row_ 13 0x289b7ec6 4) (Row_ 0 0xeaa127fa 11) (Row_ 3 0xd4ef3085 16) (Row_ 6 0x04881d05 23);
  Lines_ F3 (Row_ 9 0xd9d4d039 4) (Row_ 12 0xe6db99e5 11) (Row_ 15 0x1fa27cf8 16) (Row_ 2 0xc4ac5665 23);
  Lines_ F4 (Row_ 0 0xf4292244 6) (Row_ 7 0x432aff97 10) (Row_ 14 0xab9423a7 15) (Row_ 5 0xfc93a039 21);
  Lines_ F4 (Row_ 12 0x655b59c3 6) (Row_ 3 0x8f0ccc92 10) (Row_ 10 0xffeff47d 15) (Row_ 1 0x85845dd1 21);
  Lines_ F4 (Row_ 8 0x6fa87e4f 6) (Row_ 15 0xfe2ce6e0 10) (Row_ 6 0xa3014314 15) (Row_ 13 0x4e0811a1 21);
  Lines_ F4 (Row_ 4 0xf7537e82 6) (Row_ 11 0xbd3af235 10) (Row_ 2 0x2ad7d2bb 15) (Row_ 9 0xeb86d391 21)
].

(** The words of memory. *)
Fixpoint words_of (m : list Z) : list Z :=
  match m with
  | b0 :: b1 :: b2 :: b3 :: m => bytes_word b0 b1 b2 b3 :: words_of m
  | _ => []
  end.

Definition add_words (v w : Words) : Words :=
  let '(a, b, c, d) := v in let '(a', b', c', d') := w in (w32 (a + a'), w32 (b + b'), w32 (c + c'), w32 (d + d')).

(** [in_] has 16 words. *)
Definition MD5Transform (buf : Words) (in_ : list Z) : option Words :=
  guard (16 <= length (words_of in_))%nat;;
  Some (add_words buf (foldl (four_steps (words_of in_)) buf transform_lines)).

Definition initial_words : Words := (0x67452301, 0xefcdab89, 0x98badcfe, 0x10325476).

(** [in_] is what the memory holds. *)
Definition MD5Init (in_ : list Z) : Context := Context_ initial_words 0 0 in_.

(** The 64 byte chunks, and the bytes after them. *)
Fixpoint chunks_loop (turns : nat) (buf : Words) (in_ data : list Z) : option (Words * list Z) :=
  match turns with
  | O => None
  | S turns =>
      if 64 <=? len data then
        in_ ← store_bytes in_ 0 (take 64 data);
        in_ ← byteReverse 16 in_;
        buf ← MD5Transform buf in_;
        chunks_loop turns buf in_ (drop 64 data)
      else in_ ← store_bytes in_ 0 data; Some (buf, in_)
  end.

Definition MD5Update (ctx : Context) (data : list Z) : option Context :=
  let length := len data in
  let t := bits_low ctx in
  let low := w32 (t + shl32 (w32 length) 3) in
  let high := if low <? t then w32 (bits_high ctx + 1) else bits_high ctx in
  let high := w32 (high + w32 (Z.shiftr length 29)) in
  let t := Z.land (Z.shiftr t 3) 63 in
  if t =? 0 then
    '(buf, in_) ← chunks_loop (S (List.length data)) (buf ctx) (in_ ctx) data; Some (Context_ buf low high in_)
  else
    let room := 64 - t in
    if length <? room then
      in_ ← store_bytes (in_ ctx) (Z.to_nat t) data; Some (Context_ (buf ctx) low high in_)
    else
      in_ ← store_bytes (in_ ctx) (Z.to_nat t) (take (Z.to_nat room) data);
      in_ ← byteReverse 16 in_;
      buf ← MD5Transform (buf ctx) in_;
      '(buf, in_) ← chunks_loop (S (List.length data)) buf in_ (drop (Z.to_nat room) data);
      Some (Context_ buf low high in_).

Definition zeros (n : Z) : list Z := replicate (Z.to_nat n) 0.

(** The four words in memory. *)
Definition words_bytes (w : Words) : list Z :=
  let '(a, b, c, d) := w in word_bytes a ++ word_bytes b ++ word_bytes c ++ word_bytes d.

(** The digest, and the context, which is cleared. *)
Definition MD5Final (ctx : Context) : option (list Z * Context) :=
  let count := Z.land (Z.shiftr (bits_low ctx) 3) 63 in
  in_ ← store_bytes (in_ ctx) (Z.to_nat count) [128];
  let p := count + 1 in
  let count := 64 - 1 - count in
  '(buf, in_) ←
    (if count <? 8 then
       in_ ← store_bytes in_ (Z.to_nat p) (zeros count);
       in_ ← byteReverse 16 in_;
       buf ← MD5Transform (buf ctx) in_;
       in_ ← store_bytes in_ 0 (zeros 56); Some (buf, in_)
     else in_ ← store_bytes in_ (Z.to_nat p) (zeros (count - 8)); Some (buf ctx, in_));
  in_ ← byteReverse 14 in_;
  in_ ← store_bytes in_ (14 * 4) (word_bytes (bits_low ctx));
  in_ ← store_bytes in_ (15 * 4) (word_bytes (bits_high ctx));
  buf ← MD5Transform buf in_;
  digest ← byteReverse 4 (words_bytes buf);
  Some (digest, Context_ (0, 0, 0, 0) 0 0 (zeros 64)).

(** On a copy of the context. *)
Definition MD5IntermediateFinal (ctx : Context) : option (list Z) := fst <$> MD5Final ctx.

Definition zEncode : list Z := [48; 49; 50; 51; 52; 53; 54; 55; 56; 57; 97; 98; 99; 100; 101; 102].

Definition MD5DigestToBase16 (digest : list Z) : list Z :=
  a ← digest; [nth (Z.to_nat (Z.land (Z.shiftr a 4) 15)) zEncode 0; nth (Z.to_nat (Z.land a 15)) zEncode 0].

(** [in_] is what the memory of the local context holds. *)
Definition MD5Sum (in_ data : list Z) : option (list Z) :=
  ctx ← MD5Update (MD5Init in_) data; fst <$> MD5Final ctx.

Definition MD5String (in_ str : list Z) : option (list Z) := MD5DigestToBase16 <$> MD5Sum in_ str.

(** ** RFC 1321 *)

(** Sines with 80 bits after the point: by the series at 1, and the sum of angles. *)
Fixpoint sine_series (turns : nat) (k term : Z) : Z :=
  match turns with
  | O => 0
  | S turns => term + sine_series turns (k + 2) (- (term / (k * (k + 1))))
  end.

Definition sine_1 : Z := sine_series 14 2 (2 ^ 80).
Definition cosine_1 : Z := sine_series 14 1 (2 ^ 80).

(** The sines of the next [n] angles after the one with sine [s] and cosine [c]. *)
Fixpoint sines (n : nat) (s c : Z) : list Z :=
  match n with
  | O => []
  | S n =>
      let s' := Z.shiftr (s * cosine_1 + c * sine_1) 80 in
      s' :: sines n s' (Z.shiftr (c * cosine_1 - s * sine_1) 80)
  end.

(** The integer part of the sine of [i + 1] times [2^32], without its sign. *)
Definition rfc_constants : list Z := map (fun s => Z.shiftr (Z.abs s) (80 - 32)) (sines 64 0 (2 ^ 80)).

Definition rfc_function (i : nat) (x y z : Z) : Z :=
  match (i / 16)%nat with
  | 0 => Z.lor (Z.land x y) (Z.land (not32 x) z)
  | 1 => Z.lor (Z.land x z) (Z.land y (not32 z))
  | 2 => Z.lxor x (Z.lxor y z)
  | _ => Z.lxor y (Z.lor x (not32 z))
  end%nat.

Definition rfc_index (i : nat) : nat :=
  match (i / 16)%nat with
  | 0 => i
  | 1 => (5 * i + 1) mod 16
  | 2 => (3 * i + 5) mod 16
  | _ => 7 * i mod 16
  end%nat.

Definition rfc_shift (i : nat) : Z :=
  nth (i mod 4) (nth (i / 16) [[7; 12; 17; 22]; [5; 9; 14; 20]; [4; 11; 16; 23]; [6; 10; 15; 21]] []) 0.

(** A step, after which the registers change their names. *)
Definition rfc_step (X : list Z) (w : Words) (i : nat) : Words :=
  let '(a, b, c, d) := w in
  (d, w32 (b + rotl32 (w32 (a + rfc_function i b c d + nth (rfc_index i) X 0 + nth i rfc_constants 0)) (rfc_shift i)), b, c).

Definition rfc_compress (w : Words) (block : list Z) : Words :=
  add_words w (foldl (rfc_step (words_of block)) w (seq 0 64)).

Definition md5 (m : list Z) : list Z :=
  words_bytes (hash_blocks rfc_compress initial_words (padded length_bytes m)).

(** ** The transformation *)

Definition words_ok (w : Words) : Prop :=
  let '(a, b, c, d) := w in word_ok a /\ word_ok b /\ word_ok c /\ word_ok d.

Lemma F1_select x y z : word_ok x -> word_ok y -> word_ok z -> F1 x y z = Z.lor (Z.land x y) (Z.land (not32 x) z).
Proof. intros. unfold F1. by_bits. Qed.

Lemma F2_select x y z : word_ok x -> word_ok y -> word_ok z -> F2 x y z = Z.lor (Z.land x z) (Z.land y (not32 z)).
Proof. intros. unfold F2, F1. by_bits. Qed.

Definition steps_of (l : Lines) : list ((Z -> Z -> Z -> Z) * Row) :=
  [(f_ l, row_a l); (f_ l, row_d l); (f_ l, row_c l); (f_ l, row_b l)].

(** A line of the code, with the registers renamed after it. *)
Definition line_step (X : list Z) (w : Words) (s : (Z -> Z -> Z -> Z) * Row) : Words :=
  let '(a, b, c, d) := w in (d, MD5STEP (fst s) a b c d (step_data X (snd s)) (shift (snd s)), b, c).

Lemma four_lines X lines : forall w,
  foldl (four_steps X) w lines = foldl (line_step X) w (concat (map steps_of lines)).
Proof.
  induction lines as [|l lines IH]; intros w; [done|]. cbn [map concat]. rewrite foldl_app, <- IH.
  cbn [foldl]. f_equal. by destruct w as [[[a b] c] d].
Qed.

Definition code_function (i : nat) : Z -> Z -> Z -> Z :=
  match (i / 16)%nat with 0 => F1 | 1 => F2 | 2 => F3 | _ => F4 end%nat.

Definition rfc_row (i : nat) : (Z -> Z -> Z -> Z) * Row :=
  (code_function i, Row_ (rfc_index i) (nth i rfc_constants 0) (rfc_shift i)).

Lemma pairs_eq {A B} (l k : list (A * B)) : map fst l = map fst k -> map snd l = map snd k -> l = k.
Proof. intros E1 E2. rewrite <- (zip_fst_snd l), <- (zip_fst_snd k). by f_equal. Qed.

(** The unrolled lines have the order, the constants and the shifts of the RFC. *)
Lemma lines_are_rows : concat (map steps_of transform_lines) = map rfc_row (seq 0 64).
Proof.
  apply pairs_eq.
  - lazy [map concat app steps_of transform_lines rfc_row seq fst f_ code_function Nat.div Nat.divmod].
    reflexivity.
  - vm_compute. reflexivity.
Qed.

Lemma code_function_exact i x y z : word_ok x -> word_ok y -> word_ok z -> code_function i x y z = rfc_function i x y z.
Proof.
  intros Hx Hy Hz. unfold code_function, rfc_function. destruct (i / 16)%nat as [|[|[|]]]; [..|done].
  - by apply F1_select.
  - by apply F2_select.
  - unfold F3. by rewrite Z.lxor_assoc.
Qed.

Lemma line_step_exact X w i : words_ok w -> line_step X w (rfc_row i) = rfc_step X w i.
Proof.
  destruct w as [[[a b] c] d]. intros (Ha & Hb & Hc & Hd). unfold line_step, rfc_step, rfc_row, MD5STEP, step_data.
  cbn [fst snd index constant shift]. rewrite code_function_exact by done. do 3 f_equal.
  rewrite Z.add_comm. unfold rotl32.
  assert (w32 (a + w32 (rfc_function i b c d + w32 (nth (rfc_index i) X 0 + nth i rfc_constants 0))) =
    w32 (a + rfc_function i b c d + nth (rfc_index i) X 0 + nth i rfc_constants 0)) as ->; [|done].
  unfold w32. rewrite Zplus_mod_idemp_r, Z.add_assoc, Zplus_mod_idemp_r. f_equal. lia.
Qed.

Lemma rfc_step_ok X w i : words_ok w -> words_ok (rfc_step X w i).
Proof. destruct w as [[[a b] c] d]. intros (Ha & Hb & Hc & Hd). split_and!; try done. apply w32_ok. Qed.

Lemma rows_exact X l : forall w, words_ok w -> foldl (line_step X) w (map rfc_row l) = foldl (rfc_step X) w l.
Proof.
  induction l as [|i l IH]; intros w Hw; [done|]. cbn [map foldl]. rewrite line_step_exact by done.
  apply IH. by apply rfc_step_ok.
Qed.

Lemma add_words_ok v w : words_ok (add_words v w).
Proof. destruct v as [[[? ?] ?] ?], w as [[[? ?] ?] ?]. split_and!; apply w32_ok. Qed.

Lemma words_of_length n : forall m, length m = (4 * n)%nat -> length (words_of m) = n.
Proof.
  induction n as [|n IH]; intros m Hm; [by destruct m|].
  destruct m as [|b0 [|b1 [|b2 [|b3 m]]]]; simpl in Hm; try lia. cbn [words_of length]. f_equal. apply IH. lia.
Qed.

Lemma MD5Transform_exact w block : words_ok w -> length block = 64%nat ->
  MD5Transform w block = Some (rfc_compress w block).
Proof.
  intros Hw Hl. unfold MD5Transform. rewrite option_guard_True by (rewrite (words_of_length 16); lia).
  unfold rfc_compress. by rewrite four_lines, lines_are_rows, rows_exact.
Qed.

Lemma byteReverse_id n : forall m, bytes_ok m -> (4 * n <= length m)%nat -> byteReverse n m = Some m.
Proof.
  induction n as [|n IH]; intros m Hm Hl; [done|].
  destruct m as [|b0 [|b1 [|b2 [|b3 m]]]]; simpl in Hl; try lia. cbn [byteReverse].
  do 4 (apply Forall_cons in Hm as [? Hm]). rewrite IH by (done || lia). cbn [mbind option_bind].
  unfold shl32. rewrite !lor_shl by lia.
  unfold w32. rewrite Z.shiftl_mul_pow2, Z.mod_small by lia. rewrite lor_disjoint by lia.
  replace ((b3 * 2 ^ 8 + b2) * 2 ^ 16 + (b1 * 2 ^ 8 + b0)) with (bytes_word b0 b1 b2 b3) by (unfold bytes_word; lia).
  rewrite word_bytes_word; [done|]. repeat (constructor; [lia|]). constructor.
Qed.

(** ** The context *)

(** After [m] was read: [in_] starts with the bytes that wait. *)
Record in_block (m : list Z) (w : Words) (mem : list Z) : Prop := {
  block_words : words_ok w;
  block_length : length mem = 64%nat;
  block_bytes : bytes_ok mem;
  block_tail : exists n, absorbed rfc_compress initial_words m w (take n mem);
}.

Record context_of (m : list Z) (ctx : Context) : Prop := {
  context_low : bits_low ctx = w32 (8 * len m);
  context_high : bits_high ctx = w32 (Z.shiftr (8 * len m) 32);
  context_block : in_block m (buf ctx) (in_ ctx);
}.

(** The bytes [d] go after those that wait. *)
Lemma in_block_store m w mem d n : in_block m w mem -> bytes_ok d ->
  absorbed rfc_compress initial_words m w (take n mem) -> Z.of_nat n = len m mod 64 -> (n + length d <= 64)%nat ->
  exists mem', store_bytes mem n d = Some mem' /\ length mem' = 64%nat /\ bytes_ok mem' /\
    take (n + length d) mem' = take n mem ++ d.
Proof.
  intros [H1 H2 H3 _] Hd Ha Hn Hl. destruct (store_bytes_shows mem n d) as (mem' & -> & E1 & E2 & E3); [lia|].
  exists mem'. split_and!; [done | congruence | auto | done].
Qed.

(** A block is full. *)
Lemma in_block_full m w mem d n mem' : words_ok w -> absorbed rfc_compress initial_words m w (take n mem) ->
  length mem = 64%nat -> length mem' = 64%nat -> bytes_ok mem' -> (n + length d = 64)%nat ->
  take (n + length d) mem' = take n mem ++ d ->
  byteReverse 16 mem' = Some mem' /\ MD5Transform w mem' = Some (rfc_compress w mem') /\
  words_ok (rfc_compress w mem') /\ absorbed rfc_compress initial_words (m ++ d) (rfc_compress w mem') [].
Proof.
  intros Hw Ha Hm Hl Hb Hn E. rewrite Hn, take_ge in E by lia. split_and!.
  - apply byteReverse_id; [done | lia].
  - by apply MD5Transform_exact.
  - apply add_words_ok.
  - rewrite E. apply absorbed_block; [done|]. rewrite length_take. lia.
Qed.

Lemma chunks_loop_shows turns : forall w mem data m, in_block m w mem -> absorbed rfc_compress initial_words m w [] ->
  bytes_ok data -> (length data < turns)%nat ->
  exists w' mem', chunks_loop turns w mem data = Some (w', mem') /\ in_block (m ++ data) w' mem'.
Proof.
  induction turns as [|turns IH]; intros w mem data m Hb Ha Hd Ht; [lia|]. cbn [chunks_loop].
  pose proof (absorbed_tail _ _ _ _ _ Ha) as Hm. change (len []) with 0 in Hm. pose proof Hb as [H1 H2 H3 _].
  destruct (Z.leb_spec 64 (len data)) as [Hl|Hl]; unfold len in Hl.
  - destruct (in_block_store m w mem (take 64 data) 0 Hb) as (mem' & -> & E1 & E2 & E3); try done.
    { by apply Forall_take. } { rewrite length_take. lia. }
    assert (length (take 64 data) = 64%nat) as E64 by (rewrite length_take; lia).
    destruct (in_block_full m w mem (take 64 data) 0 mem') as (E0 & E4 & E5 & E6); try done.
    cbn [mbind option_bind]. rewrite E0. cbn [mbind option_bind]. rewrite E4. cbn [mbind option_bind].
    destruct (IH (rfc_compress w mem') mem' (drop 64 data) (m ++ take 64 data)) as (w' & mem2 & -> & E7).
    { split; [done..|]. by exists 0%nat. } { done. } { by apply Forall_drop. } { rewrite length_drop. lia. }
    exists w', mem2. rewrite <- app_assoc, take_drop in E7. done.
  - destruct (in_block_store m w mem data 0 Hb) as (mem' & -> & E1 & E2 & E3); try done. { lia. }
    cbn [mbind option_bind]. exists w, mem'. split; [done|]. split; [done..|]. exists (length data).
    cbn [Nat.add] in E3. rewrite E3. apply (absorbed_more _ _ _ _ []); [done | simpl; lia].
Qed.

Lemma MD5Init_shows mem : length mem = 64%nat -> bytes_ok mem -> context_of [] (MD5Init mem).
Proof.
  intros H1 H2. split; [done..|]. split; [by split_and! | done | done |]. exists 0%nat. apply absorbed_nil.
Qed.

Lemma bit_count m data low high :
  low = w32 (8 * len m) -> high = w32 (Z.shiftr (8 * len m) 32) ->
  let low' := w32 (low + shl32 (w32 (len data)) 3) in
  low' = w32 (8 * len (m ++ data)) /\
  w32 ((if low' <? low then w32 (high + 1) else high) + w32 (Z.shiftr (len data) 29)) =
    w32 (Z.shiftr (8 * len (m ++ data)) 32) /\
  Z.land (Z.shiftr low 3) 63 = len m mod 64.
Proof.
  intros -> ->. cbn zeta. rewrite len_app. pose proof (len_nonneg m). pose proof (len_nonneg data).
  change 63 with (Z.ones 6). rewrite Z.land_ones by lia. unfold shl32, w32.
  rewrite Z.shiftl_mul_pow2, !Z.shiftr_div_pow2 by lia. change (2 ^ 32) with 4294967296. change (2 ^ 29) with 536870912.
  change (2 ^ 3) with 8. change (2 ^ 6) with 64. split_and!; [lia| |lia].
  destruct (Z.ltb_spec (((8 * len m) mod 4294967296 + (len data mod 4294967296 * 8) mod 4294967296) mod 4294967296)
    ((8 * len m) mod 4294967296)); lia.
Qed.

Lemma MD5Update_shows m ctx data : context_of m ctx -> bytes_ok data ->
  exists ctx', MD5Update ctx data = Some ctx' /\ context_of (m ++ data) ctx'.
Proof.
  intros [H1 H2 Hb] Hd. pose proof Hb as [Hw Hl Hby (n & Ha)].
  pose proof (absorbed_tail _ _ _ _ _ Ha) as Ht.
  destruct (bit_count m data _ _ H1 H2) as (Elow & Ehigh & Et).
  unfold MD5Update. cbn zeta. rewrite Et.
  assert (forall w mem t, in_block (m ++ data) w mem -> t = Some (w, mem) -> exists ctx',
    ('(buf, in_) ← t; Some (Context_ buf (w32 (bits_low ctx + shl32 (w32 (len data)) 3))
       (w32 ((if w32 (bits_low ctx + shl32 (w32 (len data)) 3) <? bits_low ctx then w32 (bits_high ctx + 1)
              else bits_high ctx) + w32 (Z.shiftr (len data) 29))) in_)) = Some ctx' /\
    context_of (m ++ data) ctx') as Hdone.
  { intros w mem t Hin ->. eexists. split; [reflexivity|]. by split. }
  pose proof (len_nonneg m). pose proof (Z.mod_pos_bound (len m) 64 ltac:(lia)) as Hmod.
  destruct (Z.eqb_spec (len m mod 64) 0) as [E0|E0].
  - rewrite E0 in Ht. apply len_zero in Ht. rewrite Ht in Ha.
    destruct (chunks_loop_shows (S (length data)) (buf ctx) (in_ ctx) data m Hb Ha Hd ltac:(lia)) as (w & mem & E & Hin).
    by apply (Hdone w mem).
  - assert (Hn : take (Z.to_nat (len m mod 64)) (in_ ctx) = take n (in_ ctx)).
    { rewrite <- Ht. unfold len. rewrite Nat2Z.id, length_take, Hl.
      destruct (decide (n <= 64)%nat); [by rewrite Nat.min_l by lia | rewrite Nat.min_r, !take_ge by lia; done]. }
    rewrite <- Hn in Ha. clear Hn Ht n. set (n := Z.to_nat (len m mod 64)) in *.
    destruct (Z.ltb_spec (len data) (64 - len m mod 64)) as [Hlt|Hge].
    + destruct (in_block_store m (buf ctx) (in_ ctx) data n Hb Hd Ha) as (mem' & -> & E1 & E2 & E3); [lia | unfold len in *; lia|].
      cbn [mbind option_bind]. eexists. split; [reflexivity|].
      split; [done..|]. split; [done..|]. exists (n + length data)%nat. cbn [in_].
      rewrite E3. apply absorbed_more; [done|]. rewrite length_take. unfold len in *. lia.
    + set (k := Z.to_nat (64 - len m mod 64)) in *. set (d := take k data) in *.
      assert (length d = k) as Ek by (unfold d; rewrite length_take; unfold len in *; lia).
      destruct (in_block_store m (buf ctx) (in_ ctx) d n Hb) as (mem' & -> & E1 & E2 & E3);
        [by apply Forall_take | done | lia | lia |].
      destruct (in_block_full m (buf ctx) (in_ ctx) d n mem') as (E4 & E5 & E6 & E7); try done; [lia|].
      cbn [mbind option_bind]. rewrite E4. cbn [mbind option_bind]. rewrite E5. cbn [mbind option_bind].
      destruct (chunks_loop_shows (S (length data)) (rfc_compress (buf ctx) mem') mem' (drop k data) (m ++ d)) as (w & mem & E & Hin).
      { split; [done..|]. by exists 0%nat. } { done. } { by apply Forall_drop. } { rewrite length_drop. lia. }
      apply (Hdone w mem); [|done]. unfold d in Hin. by rewrite <- app_assoc, take_drop in Hin.
Qed.

(** What [MD5Final] does before it stores the length. *)
Definition pad_block (count : Z) (w : Words) (mem : list Z) : option (Words * list Z) :=
  in_ ← store_bytes mem (Z.to_nat count) [128];
  if 64 - 1 - count <? 8 then
    in_ ← store_bytes in_ (Z.to_nat (count + 1)) (zeros (64 - 1 - count));
    in_ ← byteReverse 16 in_;
    buf ← MD5Transform w in_;
    in_ ← store_bytes in_ 0 (zeros 56); Some (buf, in_)
  else in_ ← store_bytes in_ (Z.to_nat (count + 1)) (zeros (64 - 1 - count - 8)); Some (w, in_).

Lemma zeros_ok n : bytes_ok (zeros n).
Proof. apply Forall_replicate. lia. Qed.

Lemma zeros_length n : 0 <= n -> length (zeros n) = Z.to_nat n.
Proof. intros H. unfold zeros. by rewrite length_replicate. Qed.

Lemma pad_block_shows m w mem n : in_block m w mem -> absorbed rfc_compress initial_words m w (take n mem) ->
  Z.of_nat n = len m mod 64 ->
  exists w' mem', pad_block (len m mod 64) w mem = Some (w', mem') /\ words_ok w' /\ length mem' = 64%nat /\
    bytes_ok mem' /\ absorbed rfc_compress initial_words (m ++ [128] ++ zeros ((55 - len m) mod 64)) w' (take 56 mem').
Proof.
  intros Hb Ha Hn. pose proof Hb as [Hw Hl Hby _]. unfold pad_block.
  destruct (in_block_store m w mem [128] n Hb) as (mem1 & E1 & L1 & B1 & T1); [by repeat constructor | done | done | simpl; lia |].
  rewrite <- Hn, Nat2Z.id, E1. cbn [mbind option_bind length] in *.
  assert (Z.to_nat (Z.of_nat n + 1) = n + 1)%nat as -> by lia.
  destruct (Z.ltb_spec (64 - 1 - Z.of_nat n) 8) as [H8|H8].
  - set (z := zeros (64 - 1 - Z.of_nat n)). assert (length z = 64 - 1 - n)%nat as Ez by (unfold z; rewrite zeros_length; lia).
    destruct (store_bytes_shows mem1 (n + 1) z) as (mem2 & -> & L2 & T2 & B2); [lia|].
    destruct (in_block_full m w mem ([128] ++ z) n mem2) as (E4 & E5 & E6 & E7); try done; try (cbn [length app]; lia).
    { apply B2; [done | apply zeros_ok]. }
    { cbn [length app]. replace (n + S (length z))%nat with (n + 1 + length z)%nat by lia. by rewrite T2, T1, <- app_assoc. }
    cbn [mbind option_bind]. rewrite E4. cbn [mbind option_bind]. rewrite E5. cbn [mbind option_bind].
    destruct (store_bytes_shows mem2 0 (zeros 56)) as (mem3 & -> & L3 & T3 & B3); [rewrite zeros_length; lia|].
    cbn [mbind option_bind]. exists (rfc_compress w mem2), mem3. split_and!; [done | done | lia | |].
    { apply B3; [apply B2; [done | apply zeros_ok] | apply zeros_ok]. }
    assert (take 56 mem3 = zeros 56) as -> by exact T3.
    replace ([128] ++ zeros ((55 - len m) mod 64)) with (([128] ++ z) ++ zeros 56).
    2:{ unfold z. rewrite <- app_assoc. f_equal. unfold zeros. rewrite <- replicate_add. f_equal. lia. }
    rewrite app_assoc. apply (absorbed_more _ _ _ _ []); [done|]. rewrite zeros_length by lia. simpl. lia.
  - set (z := zeros (64 - 1 - Z.of_nat n - 8)). assert (length z = 55 - n)%nat as Ez by (unfold z; rewrite zeros_length; lia).
    destruct (store_bytes_shows mem1 (n + 1) z) as (mem2 & -> & L2 & T2 & B2); [lia|].
    cbn [mbind option_bind]. exists w, mem2. split_and!; [done | done | lia | apply B2; [done | apply zeros_ok] |].
    replace (take 56 mem2) with (take n mem ++ [128] ++ z).
    2:{ rewrite app_assoc, <- T1, <- T2. f_equal. lia. }
    replace (zeros ((55 - len m) mod 64)) with z by (unfold z, zeros; f_equal; lia).
    apply absorbed_more; [done|]. rewrite length_take. cbn [length app]. lia.
Qed.

Lemma words_bytes_ok w : bytes_ok (words_bytes w).
Proof. destruct w as [[[a b] c] d]. unfold words_bytes. repeat apply Forall_app_2; apply word_bytes_ok. Qed.

Lemma MD5Final_shows m ctx : context_of m ctx ->
  MD5Final ctx = Some (md5 m, Context_ (0, 0, 0, 0) 0 0 (zeros 64)).
Proof.
  intros [H1 H2 Hb]. pose proof Hb as [Hw Hl Hby (n & Ha)]. pose proof (absorbed_tail _ _ _ _ _ Ha) as Ht.
  destruct (bit_count m [] _ _ H1 H2) as (_ & _ & Et).
  assert (take (length (take n (in_ ctx))) (in_ ctx) = take n (in_ ctx)) as En.
  { rewrite length_take, Hl. destruct (decide (n <= 64)%nat); [by rewrite Nat.min_l by lia | rewrite Nat.min_r, !take_ge by lia; done]. }
  rewrite <- En in Ha.
  destruct (pad_block_shows m (buf ctx) (in_ ctx) _ Hb Ha Ht) as (w & mem & E & Hw' & L & B & A).
  unfold MD5Final. rewrite Et. unfold pad_block in E. cbn zeta in E |- *.
  destruct (store_bytes (in_ ctx) (Z.to_nat (len m mod 64)) [128]) as [mem0|]; [|done]. cbn [mbind option_bind] in E |- *.
  rewrite E. cbn [mbind option_bind]. rewrite byteReverse_id by (done || lia). cbn [mbind option_bind].
  destruct (store_bytes_shows mem 56 (word_bytes (bits_low ctx))) as (mem1 & E1 & L1 & T1 & B1); [simpl; lia|].
  change (14 * 4)%nat with 56%nat. rewrite E1. cbn [mbind option_bind].
  destruct (store_bytes_shows mem1 60 (word_bytes (bits_high ctx))) as (mem2 & E2 & L2 & T2 & B2); [simpl; lia|].
  change (15 * 4)%nat with 60%nat. rewrite E2. cbn [mbind option_bind].
  rewrite MD5Transform_exact by (done || lia). cbn [mbind option_bind].
  rewrite byteReverse_id; [|apply words_bytes_ok|by destruct (rfc_compress w mem2) as [[[? ?] ?] ?]].
  cbn [mbind option_bind]. do 2 f_equal. unfold md5. f_equal. unfold padded.
  assert (mem2 = take 56 mem ++ length_bytes (8 * len m)) as ->.
  { unfold length_bytes. rewrite <- H1, <- H2, app_assoc, <- T1. rewrite <- (take_ge mem2 64) by lia.
    exact T2. }
  apply absorbed_all. rewrite !app_assoc. apply absorbed_block; [by rewrite <- !app_assoc|].
  rewrite length_take, L. done.
Qed.


(** Successive updates. *)
Fixpoint updates (ctx : Context) (chunks : list (list Z)) : option Context :=
  match chunks with
  | [] => Some ctx
  | data :: chunks => ctx ← MD5Update ctx data; updates ctx chunks
  end.

Lemma updates_shows chunks : forall m ctx, context_of m ctx -> Forall bytes_ok chunks ->
  exists ctx', updates ctx chunks = Some ctx' /\ context_of (m ++ concat chunks) ctx'.
Proof.
  induction chunks as [|d chunks IH]; intros m ctx H Hc; cbn [updates concat].
  { exists ctx. by rewrite app_nil_r. }
  apply Forall_cons in Hc as [Hd Hc]. destruct (MD5Update_shows m ctx d H Hd) as (ctx1 & -> & H1).
  cbn [mbind option_bind]. destruct (IH _ _ H1 Hc) as (ctx' & E & H'). exists ctx'. by rewrite app_assoc.
Qed.

(** C38: however a message is divided into updates, of any length, and whatever the
    context's memory holds at first, the code stays in its memory and the digest is that
    of the whole message by RFC 1321; an intermediate digest is that of the message so
    far. *)
Theorem md5_updates_exact mem chunks :
  length mem = 64%nat -> bytes_ok mem -> Forall bytes_ok chunks ->
  exists ctx, updates (MD5Init mem) chunks = Some ctx /\
    MD5IntermediateFinal ctx = Some (md5 (concat chunks)) /\
    MD5Final ctx = Some (md5 (concat chunks), Context_ (0, 0, 0, 0) 0 0 (zeros 64)) /\
    MD5String mem (concat chunks) = Some (MD5DigestToBase16 (md5 (concat chunks))).
Proof.
  intros Hl Hb Hc. pose proof (MD5Init_shows mem Hl Hb) as Hi.
  destruct (updates_shows chunks [] _ Hi Hc) as (ctx & E & H). exists ctx. unfold MD5IntermediateFinal.
  rewrite (MD5Final_shows _ _ H). split_and!; try done.
  destruct (MD5Update_shows [] _ (concat chunks) Hi) as (ctx' & E' & H'); [by apply Forall_concat|].
  unfold MD5String, MD5Sum. rewrite E'. cbn [mbind option_bind]. by rewrite (MD5Final_shows _ _ H').
Qed.

Lemma md5_updates_exact_witness :
  exists ctx, updates (MD5Init (replicate 64 7)) [[97]; replicate 70 98] = Some ctx /\
    MD5IntermediateFinal ctx = Some (md5 (97 :: replicate 70 98)) /\
    MD5Final ctx = Some (md5 (97 :: replicate 70 98), Context_ (0, 0, 0, 0) 0 0 (zeros 64)) /\
    MD5String (replicate 64 7) (97 :: replicate 70 98) = Some (MD5DigestToBase16 (md5 (97 :: replicate 70 98))).
Proof.
  apply (md5_updates_exact (replicate 64 7) [[97]; replicate 70 98]).
  - done.
  - apply Forall_replicate. lia.
  - repeat constructor; lia.
Defined.

(** The RFC's example: the digest of "abc". *)
Example md5_abc :
  md5 [97; 98; 99] = [144; 1; 80; 152; 60; 210; 79; 176; 214; 150; 63; 125; 40; 225; 127; 114].
Proof. vm_compute. reflexivity. Qed.
