(* ===== verification/Sha1.v ===== *)
(** * SHA-1 ([base/sha1_portable.cc])

    The class [SecureHashAlgorithm], with the memory that [W] and [M] share, and [sha1],
    the algorithm of FIPS 180, which it computes for every division of a message into
    updates ([sha1_updates_exact]). Words are little-endian in memory; an access outside of
    [W] or [M] is [None]. *)
From Stdlib Require Import ZArith Lia.
From stdpp Require Import base option list.
From S2P Require Import Prelude StdString Hashing.

Local Open Scope Z_scope.

#[local] Ltac Zify.zify_post_hook ::= Z.to_euclidean_division_equations.

Definition Words5 : Type := Z * Z * Z * Z * Z.

(** [A_to_E] are the fields [A] to [E]; [M] the bytes of the union. *)
Record SecureHashAlgorithm := SHA_ {
  A_to_E : Words5;
  H_ : Words5;
  M : list Z;
  cursor : Z;
  l_ : Z;
}.

Definition kDigestSizeBytes : Z := 20.

(** Bitwise operations of [uint32]; [~] is [not32]. *)
Definition f (t : nat) (B C D : Z) : Z :=
  if (t <? 20)%nat then Z.lor (Z.land B C) (Z.land (not32 B) D)
  else if (t <? 40)%nat then Z.lxor (Z.lxor B C) D
  else if (t <? 60)%nat then Z.lor (Z.lor (Z.land B C) (Z.land B D)) (Z.land C D)
  else Z.lxor (Z.lxor B C) D.

Definition S_ (n X : Z) : Z := Z.lor (shl32 X n) (Z.shiftr X (32 - n)).

Definition K (t : nat) : Z :=
  if (t <? 20)%nat then 0x5a827999
  else if (t <? 40)%nat then 0x6ed9eba1
  else if (t <? 60)%nat then 0x8f1bbcdc
  else 0xca62c1d6.

Definition swapends (t : Z) : Z :=
  Z.lor (Z.lor (Z.lor (Z.shiftr t 24) (Z.land (Z.shiftr t 8) 0xff00)) (shl32 (Z.land t 0xff00) 8)) (shl32 t 24).

Definition initial_H : Words5 := (0x67452301, 0xefcdab89, 0x98badcfe, 0x10325476, 0xc3d2e1f0).

(** The constructor: the union keeps what its memory held. *)
Definition Init (M : list Z) : SecureHashAlgorithm := SHA_ (0, 0, 0, 0, 0) initial_H M 0 0.

(** [for (t = first; ...)] over the given values of [t]. *)
Fixpoint for_each {S : Type} (body : S -> nat -> option S) (s : S) (ts : list nat) : option S :=
  match ts with
  | [] => Some s
  | t :: ts => s ← body s t; for_each body s ts
  end.

Definition load_W (m : list Z) (t : nat) : option Z := word_at m (4 * t).
Definition store_W (m : list Z) (t : nat) (w : Z) : option (list Z) := store_bytes m (4 * t) (word_bytes w).

Definition swap_W (m : list Z) (t : nat) : option (list Z) := w ← load_W m t; store_W m t (swapends w).

Definition extend_W (m : list Z) (t : nat) : option (list Z) :=
  w3 ← load_W m (t - 3); w8 ← load_W m (t - 8); w14 ← load_W m (t - 14); w16 ← load_W m (t - 16);
  store_W m t (S_ 1 (Z.lxor (Z.lxor (Z.lxor w3 w8) w14) w16)).

Definition round (m : list Z) (r : Words5) (t : nat) : option Words5 :=
  let '(A, B, C, D, E) := r in
  w ← load_W m t;
  let TEMP := w32 (S_ 5 A + f t B C D + E + w + K t) in
  Some (TEMP, A, S_ 30 B, C, D).

Definition add_words5 (v w : Words5) : Words5 :=
  let '(a, b, c, d, e) := v in let '(a', b', c', d', e') := w in
  (w32 (a + a'), w32 (b + b'), w32 (c + c'), w32 (d + d'), w32 (e + e')).

Definition Process (sha : SecureHashAlgorithm) : option SecureHashAlgorithm :=
  m ← for_each swap_W (M sha) (seq 0 16);
  m ← for_each extend_W m (seq 16 64);
  r ← for_each (round m) (H_ sha) (seq 0 80);
  Some (SHA_ r (add_words5 (H_ sha) r) m 0 (l_ sha)).

(** [M[cursor++] = b], of an array of 64 bytes. *)
Definition put (sha : SecureHashAlgorithm) (b : Z) : option SecureHashAlgorithm :=
  guard (cursor sha < 64);;
  m ← store_bytes (M sha) (Z.to_nat (cursor sha)) [b];
  Some (SHA_ (A_to_E sha) (H_ sha) m (cursor sha + 1) (l_ sha)).

Fixpoint Update (sha : SecureHashAlgorithm) (data : list Z) : option SecureHashAlgorithm :=
  match data with
  | [] => Some sha
  | d :: data =>
      sha ← put sha d;
      sha ← (if 64 <=? cursor sha then Process sha else Some sha);
      Update (SHA_ (A_to_E sha) (H_ sha) (M sha) (cursor sha) ((l_ sha + 8) mod 2 ^ 64)) data
  end.

(** [while (cursor < to) M[cursor++] = 0;] *)
Fixpoint zero_loop (turns : nat) (sha : SecureHashAlgorithm) (to : Z) : option SecureHashAlgorithm :=
  match turns with
  | O => None
  | S turns => if cursor sha <? to then sha ← put sha 0; zero_loop turns sha to else Some sha
  end.

Fixpoint put_all (sha : SecureHashAlgorithm) (bs : list Z) : option SecureHashAlgorithm :=
  match bs with [] => Some sha | b :: bs => sha ← put sha b; put_all sha bs end.

Definition Pad (sha : SecureHashAlgorithm) : option SecureHashAlgorithm :=
  sha ← put sha 0x80;
  sha ← (if 64 - 8 <? cursor sha then sha ← zero_loop 65 sha 64; Process sha else Some sha);
  sha ← zero_loop 65 sha (64 - 8);
  put_all sha (map (fun n => Z.land (Z.shiftr (l_ sha) n) 0xff) [56; 48; 40; 32; 24; 16; 8; 0]).

Definition Final (sha : SecureHashAlgorithm) : option SecureHashAlgorithm :=
  sha ← Pad sha;
  sha ← Process sha;
  let '(a, b, c, d, e) := H_ sha in
  Some (SHA_ (A_to_E sha) (swapends a, swapends b, swapends c, swapends d, swapends e) (M sha) (cursor sha) (l_ sha)).

(** The memory of [H]. *)
Definition Digest (sha : SecureHashAlgorithm) : list Z :=
  let '(a, b, c, d, e) := H_ sha in word_bytes a ++ word_bytes b ++ word_bytes c ++ word_bytes d ++ word_bytes e.

(** [memory] is what the local object's union holds at first. *)
Definition SHA1HashBytes (memory data : list Z) : option (list Z) :=
  sha ← Update (Init memory) data;
  sha ← Final sha;
  Some (take (Z.to_nat kDigestSizeBytes) (Digest sha)).

Definition SHA1HashString (memory str : list Z) : option (list Z) := SHA1HashBytes memory str.

(** ** FIPS 180 *)

Definition fips_function (t : nat) (x y z : Z) : Z :=
  match (t / 20)%nat with
  | 0 => Z.lxor (Z.land x y) (Z.land (not32 x) z)
  | 2 => Z.lxor (Z.lxor (Z.land x y) (Z.land x z)) (Z.land y z)
  | _ => Z.lxor x (Z.lxor y z)
  end%nat.

(** The integer parts of the square roots of 2, 3, 5 and 10 times [2^30]. *)
Definition fips_constant (t : nat) : Z := Z.sqrt (nth (t / 20) [2; 3; 5; 10] 0 * 2 ^ 60).

(** The words of a block, the most significant byte first. *)
Fixpoint words_be (m : list Z) : list Z :=
  match m with
  | b0 :: b1 :: b2 :: b3 :: m => bytes_word b3 b2 b1 b0 :: words_be m
  | _ => []
  end.

(** The message schedule: [n] more words. *)
Fixpoint schedule (n : nat) (ws : list Z) : list Z :=
  match n with
  | O => ws
  | S n =>
      let w k := nth (length ws - k)%nat ws 0 in
      schedule n (ws ++ [rotl32 (Z.lxor (w 3%nat) (Z.lxor (w 8%nat) (Z.lxor (w 14%nat) (w 16%nat)))) 1])
  end.

Definition fips_round (ws : list Z) (r : Words5) (t : nat) : Words5 :=
  let '(a, b, c, d, e) := r in
  (w32 (rotl32 a 5 + fips_function t b c d + e + fips_constant t + nth t ws 0), a, rotl32 b 30, c, d).

Definition fips_compress (h : Words5) (block : list Z) : Words5 :=
  add_words5 h (foldl (fips_round (schedule 64 (words_be block))) h (seq 0 80)).

Definition sha1 (m : list Z) : list Z :=
  let '(a, b, c, d, e) := hash_blocks fips_compress initial_H (padded (fun n => rev (length_bytes n)) m) in
  rev (word_bytes a) ++ rev (word_bytes b) ++ rev (word_bytes c) ++ rev (word_bytes d) ++ rev (word_bytes e).

(** ** Words *)

Definition words5_ok (w : Words5) : Prop :=
  let '(a, b, c, d, e) := w in word_ok a /\ word_ok b /\ word_ok c /\ word_ok d /\ word_ok e.

Lemma add_words5_ok v w : words5_ok (add_words5 v w).
Proof. destruct v as [[[[? ?] ?] ?] ?], w as [[[[? ?] ?] ?] ?]. split_and!; apply w32_ok. Qed.

Lemma f_exact t x y z : word_ok x -> word_ok y -> word_ok z -> (t < 80)%nat -> f t x y z = fips_function t x y z.
Proof.
  intros Hx Hy Hz Ht. unfold f, fips_function.
  assert (t / 20 = if t <? 20 then 0 else if t <? 40 then 1 else if t <? 60 then 2 else 3)%nat as ->.
  { repeat match goal with |- context [(?a <? ?b)%nat] => destruct (Nat.ltb_spec a b) end;
      symmetry; [apply (Nat.div_unique _ _ _ t) | apply (Nat.div_unique _ _ _ (t - 20))
        | apply (Nat.div_unique _ _ _ (t - 40)) | apply (Nat.div_unique _ _ _ (t - 60))]; lia. }
  destruct (t <? 20)%nat; [by_bits|]. destruct (t <? 40)%nat; [by rewrite Z.lxor_assoc|].
  destruct (t <? 60)%nat; [by_bits|by rewrite Z.lxor_assoc].
Qed.

Lemma K_exact : Forall (fun t => K t = fips_constant t) (seq 0 80).
Proof. repeat (constructor; [reflexivity|]). constructor. Qed.

(** A mask of the second byte. *)
Lemma second_byte x : Z.land x 0xff00 = (x / 256) mod 256 * 256.
Proof.
  change 65280 with (Z.shiftl (Z.ones 8) 8). change 256 with (2 ^ 8). rewrite <- Z.land_ones, <- Z.shiftl_mul_pow2 by done.
  apply Z.bits_inj'. intros i Hi. rewrite Z.land_spec, !Z.shiftl_spec by done.
  destruct (Z.ltb_spec i 8); [by rewrite !(Z.testbit_neg_r _ (i - 8)), andb_false_r by lia|].
  rewrite Z.land_spec, Z.div_pow2_bits by lia. f_equal. f_equal. lia.
Qed.

Lemma swapends_word b0 b1 b2 b3 : bytes_ok [b0; b1; b2; b3] ->
  swapends (bytes_word b0 b1 b2 b3) = bytes_word b3 b2 b1 b0.
Proof.
  intros H. repeat apply Forall_cons in H as [? H]. unfold swapends, shl32, w32. rewrite !second_byte.
  rewrite !Z.shiftr_div_pow2, !Z.shiftl_mul_pow2 by done. unfold bytes_word.
  change (2 ^ 32) with 4294967296. change (2 ^ 24) with 16777216. change (2 ^ 8) with 256.
  replace ((b0 + 256 * (b1 + 256 * (b2 + 256 * b3))) / 16777216) with b3 by lia.
  replace (((b0 + 256 * (b1 + 256 * (b2 + 256 * b3))) / 256 / 256) mod 256 * 256) with (b2 * 2 ^ 8) by lia.
  replace (((b0 + 256 * (b1 + 256 * (b2 + 256 * b3))) / 256) mod 256 * 256 * 256 mod 4294967296) with (b1 * 2 ^ 16) by lia.
  replace ((b0 + 256 * (b1 + 256 * (b2 + 256 * b3))) * 16777216 mod 4294967296) with (b0 * 2 ^ 24) by lia.
  rewrite (Z.lor_comm b3), lor_disjoint, (Z.lor_comm _ (b1 * _)), lor_disjoint, (Z.lor_comm _ (b0 * _)), lor_disjoint by lia.
  lia.
Qed.

Lemma swapends_bytes w : word_ok w -> word_bytes (swapends w) = rev (word_bytes w).
Proof.
  intros Hw. pose proof (word_bytes_ok w) as Hb. destruct (word_bytes w) as [|b0 [|b1 [|b2 [|b3 [|]]]]] eqn:E; try done.
  rewrite <- (bytes_word_bytes w b0 b1 b2 b3 Hw E), swapends_word by done. rewrite word_bytes_word; [done|].
  repeat apply Forall_cons in Hb as [? Hb]. do 4 (constructor; [done|]). constructor.
Qed.

(** ** The memory of [W] *)

Lemma store_lookup m off bs m' i : store_bytes m off bs = Some m' ->
  m' !! i = if decide (off <= i < off + length bs)%nat then bs !! (i - off)%nat else m !! i.
Proof.
  unfold store_bytes. case_guard as Hg; [|done]. cbn [mbind option_bind]. intros [= <-].
  assert (length (take off m) = off) as Ht by (rewrite length_take; lia).
  case_decide as Hd.
  - rewrite lookup_app_r by lia. rewrite Ht. apply lookup_app_l. lia.
  - destruct (decide (i < off)%nat) as [Hi|Hi].
    + rewrite lookup_app_l by lia. by apply lookup_take_lt.
    + rewrite lookup_app_r by lia. rewrite Ht, lookup_app_r, lookup_drop by lia. f_equal. lia.
Qed.

Lemma store_W_total m t w : (4 * t + 4 <= length m)%nat -> exists m', store_W m t w = Some m' /\ length m' = length m.
Proof. intros H. destruct (store_bytes_shows m (4 * t) (word_bytes w)) as (m' & ? & ? & _); [simpl; lia|]. by exists m'. Qed.

Lemma load_W_same m t w m' : word_ok w -> store_W m t w = Some m' -> load_W m' t = Some w.
Proof.
  intros Hw E. unfold load_W, word_at. rewrite !(store_lookup _ _ _ _ _ E).
  rewrite !decide_True by (simpl; lia).
  destruct (word_bytes w) as [|b0 [|b1 [|b2 [|b3 [|]]]]] eqn:Ew; try done.
  replace (4 * t - 4 * t)%nat with 0%nat by lia. replace (4 * t + 1 - 4 * t)%nat with 1%nat by lia.
  replace (4 * t + 2 - 4 * t)%nat with 2%nat by lia. replace (4 * t + 3 - 4 * t)%nat with 3%nat by lia.
  simpl. f_equal. by apply bytes_word_bytes.
Qed.

Lemma load_W_other m t w m' u : store_W m t w = Some m' -> u <> t -> load_W m' u = load_W m u.
Proof.
  intros E Hu. unfold load_W, word_at. rewrite !(store_lookup _ _ _ _ _ E).
  by rewrite !decide_False by (simpl; lia).
Qed.

(** The memory holds the words [ws] from the first on. *)
Definition holds_words (m : list Z) (ws : list Z) : Prop :=
  forall t, (t < length ws)%nat -> load_W m t = Some (nth t ws 0).

Lemma holds_more m ws w m' : word_ok w -> holds_words m ws -> store_W m (length ws) w = Some m' ->
  holds_words m' (ws ++ [w]).
Proof.
  intros Hw H E t Ht. rewrite length_app in Ht. cbn [length] in Ht. destruct (decide (t = length ws)) as [->|Hn].
  - rewrite (load_W_same _ _ _ _ Hw E), app_nth2, Nat.sub_diag by lia. done.
  - rewrite (load_W_other _ _ _ _ _ E Hn), app_nth1 by lia. apply H. lia.
Qed.

(** [swap_W] for the words of the block that are left. *)
Lemma swap_loop m0 n : forall m ws rest,
  bytes_ok rest -> length rest = (4 * n)%nat -> (4 * length ws + 4 * n <= length m)%nat ->
  holds_words m ws -> drop (4 * length ws) m = rest ++ m0 ->
  exists m', for_each swap_W m (seq (length ws) n) = Some m' /\ length m' = length m /\ holds_words m' (ws ++ words_be rest).
Proof.
  induction n as [|n IH]; intros m ws rest Hr Hl Hm Hh Hd.
  { exists m. destruct rest; [|done]. cbn [words_be]. by rewrite app_nil_r. }
  destruct rest as [|b0 [|b1 [|b2 [|b3 rest]]]]; simpl in Hl; try lia. cbn [for_each seq].
  assert (forall k, m !! (4 * length ws + k)%nat = ((b0 :: b1 :: b2 :: b3 :: rest) ++ m0) !! k) as Hk.
  { intros k. by rewrite <- Hd, lookup_drop. }
  apply Forall_cons in Hr as [? Hr]. apply Forall_cons in Hr as [? Hr]. apply Forall_cons in Hr as [? Hr].
  apply Forall_cons in Hr as [? Hr].
  assert (swap_W m (length ws) = store_W m (length ws) (bytes_word b3 b2 b1 b0)) as ->.
  { unfold swap_W, load_W, word_at. pose proof (Hk 0%nat) as Hk0. rewrite Nat.add_0_r in Hk0. rewrite Hk0, !Hk.
    cbn [app lookup list_lookup mbind option_bind].
    rewrite swapends_word by (repeat (constructor; [done|]); constructor). done. }
  destruct (store_W_total m (length ws) (bytes_word b3 b2 b1 b0)) as (m1 & E1 & L1); [lia|].
  rewrite E1. cbn [mbind option_bind].
  destruct (IH m1 (ws ++ [bytes_word b3 b2 b1 b0]) rest) as (m' & E & L & Hh'); try done.
  - lia.
  - rewrite length_app. simpl. lia.
  - eapply holds_more; [|done|done]. apply bytes_word_range. repeat (constructor; [done|]). constructor.
  - rewrite length_app. cbn [length]. apply list_eq. intros i. rewrite lookup_drop.
    rewrite (store_lookup _ _ _ _ _ E1), decide_False by (simpl; lia).
    replace (4 * (length ws + 1) + i)%nat with (4 * length ws + S (S (S (S i))))%nat by lia. by rewrite Hk.
  - exists m'. rewrite length_app in E. cbn [length] in E. replace (length ws + 1)%nat with (S (length ws)) in E by lia.
    split; [done|]. split; [lia|]. cbn [words_be]. by rewrite <- app_assoc in Hh'.
Qed.


(** ** The compression *)

Lemma word_of_bits x : 0 <= x -> (forall i, 32 <= i -> Z.testbit x i = false) -> word_ok x.
Proof.
  intros Hx H. replace x with (w32 x); [apply w32_ok|]. apply Z.bits_inj'. intros i Hi. rewrite w32_bit by done.
  destruct (Z.ltb_spec i 32); [done|]. by rewrite H.
Qed.

Lemma lxor_ok x y : word_ok x -> word_ok y -> word_ok (Z.lxor x y).
Proof.
  intros Hx Hy. apply word_of_bits.
  - apply Z.lxor_nonneg. split; intros _; [apply Hy | apply Hx].
  - intros i Hi. by rewrite Z.lxor_spec, !word_high.
Qed.

Lemma S_ok n x : word_ok x -> 0 <= n <= 32 -> word_ok (S_ n x).
Proof.
  intros Hx Hn. assert (word_ok (Z.shiftr x (32 - n))) as Hr.
  { rewrite Z.shiftr_div_pow2 by lia. destruct Hx. split; [apply Z.div_pos; lia|].
    pose proof (Z.div_le_upper_bound x (2 ^ (32 - n)) x ltac:(lia)). nia. }
  unfold S_. apply word_of_bits.
  - apply Z.lor_nonneg. split; [apply w32_ok | apply Hr].
  - intros i Hi. by rewrite Z.lor_spec, !word_high by (done || apply w32_ok).
Qed.

Lemma nth_ok ws k : Forall word_ok ws -> word_ok (nth k ws 0).
Proof.
  intros H. destruct (nth_in_or_default k ws 0) as [Hi | ->]; [|done].
  rewrite Forall_forall in H. apply H. by apply list_elem_of_In.
Qed.

Lemma extend_loop n : forall m ws,
  (16 <= length ws)%nat -> (4 * length ws + 4 * n <= length m)%nat -> Forall word_ok ws -> holds_words m ws ->
  exists m', for_each extend_W m (seq (length ws) n) = Some m' /\ length m' = length m /\ holds_words m' (schedule n ws).
Proof.
  induction n as [|n IH]; intros m ws H16 Hm Hw Hh; [by exists m|]. cbn [for_each seq schedule].
  set (w := rotl32 _ 1).
  assert (word_ok w) as Hok by (apply (S_ok 1); [repeat apply lxor_ok; by apply nth_ok | lia]).
  destruct (store_W_total m (length ws) w) as (m1 & E1 & L1); [lia|].
  assert (extend_W m (length ws) = Some m1) as ->.
  { rewrite <- E1. unfold extend_W. rewrite !Hh by lia. cbn [mbind option_bind]. unfold w, rotl32, S_.
    by rewrite !Z.lxor_assoc. }
  cbn [mbind option_bind].
  destruct (IH m1 (ws ++ [w])) as (m' & E & L & Hh'); try (rewrite length_app; simpl; lia).
  - apply Forall_app_2; [done | by constructor].
  - by apply (holds_more m).
  - exists m'. rewrite length_app, Nat.add_comm in E. split_and!; [done | lia | done].
Qed.

Lemma schedule_length n : forall ws, length (schedule n ws) = (length ws + n)%nat.
Proof. induction n as [|n IH]; intros ws; cbn [schedule]; [lia|]. rewrite IH, length_app. simpl. lia. Qed.

Lemma words_be_ok n : forall m, bytes_ok m -> length m = (4 * n)%nat -> Forall word_ok (words_be m) /\ length (words_be m) = n.
Proof.
  induction n as [|n IH]; intros m Hm Hl; [by destruct m|].
  destruct m as [|b0 [|b1 [|b2 [|b3 m]]]]; simpl in Hl; try lia.
  do 4 (apply Forall_cons in Hm as [? Hm]). destruct (IH m Hm) as [H3 H4]; [lia|]. cbn [words_be length]. split; [|lia].
  constructor; [|done]. apply bytes_word_range. do 4 (constructor; [done|]). constructor.
Qed.

Lemma fips_round_ok ws r t : words5_ok r -> words5_ok (fips_round ws r t).
Proof.
  destruct r as [[[[a b] c] d] e]. intros (Ha & Hb & Hc & Hd & He). split_and!; try done; [apply w32_ok|].
  by apply (S_ok 30).
Qed.

Lemma round_loop m ws ts : holds_words m ws -> (80 <= length ws)%nat -> forall r, Forall (fun t => (t < 80)%nat) ts -> words5_ok r ->
  for_each (round m) r ts = Some (foldl (fips_round ws) r ts).
Proof.
  intros Hh Hl. induction ts as [|t ts IH]; intros r Ht Hr; [done|]. apply Forall_cons in Ht as [Ht Hts].
  cbn [for_each foldl]. assert (round m r t = Some (fips_round ws r t)) as ->.
  { pose proof Hr as Hr'. destruct r as [[[[a b] c] d] e]. destruct Hr' as (Ha & Hb & Hc & Hd & He).
    unfold round, fips_round. rewrite Hh by lia. cbn [mbind option_bind]. rewrite f_exact by done.
    pose proof K_exact as HK. rewrite Forall_forall in HK. rewrite HK by (apply elem_of_seq; lia).
    by rewrite (Z.add_shuffle0 _ (nth t ws 0)). }
  cbn [mbind option_bind]. apply IH; [done | by apply fips_round_ok].
Qed.

Lemma Process_exact sha : length (M sha) = 320%nat -> bytes_ok (take 64 (M sha)) -> words5_ok (H_ sha) ->
  exists r m, Process sha = Some (SHA_ r (fips_compress (H_ sha) (take 64 (M sha))) m 0 (l_ sha)) /\ length m = 320%nat.
Proof.
  intros Hl Hb Hw. unfold Process. set (block := take 64 (M sha)) in *.
  assert (length block = 64%nat) as Hbl by (unfold block; rewrite length_take; lia).
  destruct (swap_loop (drop 64 (M sha)) 16 (M sha) [] block) as (m1 & E1 & L1 & H1); try done.
  { simpl. lia. } { intros t Ht. simpl in Ht. lia. } { unfold block. by rewrite take_drop. }
  destruct (words_be_ok 16 block Hb Hbl) as [Hok Hlen]. cbn [app length] in *. rewrite E1. cbn [mbind option_bind].
  destruct (extend_loop 64 m1 (words_be block)) as (m2 & E2 & L2 & H2); try done; [lia..|].
  rewrite Hlen in E2. rewrite E2. cbn [mbind option_bind].
  rewrite (round_loop m2 _ (seq 0 80) H2); [|rewrite schedule_length; lia| |done].
  2:{ apply Forall_forall. intros t Ht%elem_of_seq. lia. }
  cbn [mbind option_bind]. eexists _, m2. split; [reflexivity|]. lia.
Qed.

(** ** The object *)

(** [m] was read; [M] starts with what is not compressed yet, up to a whole block. *)
Record filling (m : list Z) (sha : SecureHashAlgorithm) : Prop := {
  filling_words : words5_ok (H_ sha);
  filling_memory : length (M sha) = 320%nat;
  filling_bytes : bytes_ok m;
  filling_cursor : 0 <= cursor sha <= 64;
  filling_block : exists m0, absorbed fips_compress initial_H m0 (H_ sha) [] /\
    m = m0 ++ take (Z.to_nat (cursor sha)) (M sha);
}.

Lemma filling_mod m sha : filling m sha -> len m mod 64 = cursor sha mod 64.
Proof.
  intros [H1 H2 H3 H4 (m0 & Ha & ->)]. apply absorbed_tail in Ha. change (len []) with 0 in Ha.
  rewrite len_app. unfold len in *. rewrite length_take, H2. lia.
Qed.

Lemma Init_shows memory : length memory = 320%nat -> filling [] (Init memory).
Proof.
  intros H. split; [by split_and! | done | constructor | simpl; lia |]. exists []. split; [apply absorbed_nil | done].
Qed.

Lemma put_shows m sha b : filling m sha -> cursor sha < 64 -> 0 <= b < 256 ->
  exists sha', put sha b = Some sha' /\ filling (m ++ [b]) sha' /\ cursor sha' = cursor sha + 1 /\ l_ sha' = l_ sha.
Proof.
  intros [H1 H2 H3 H4 (m0 & Ha & Em)] Hc Hb. unfold put. rewrite option_guard_True by done.
  destruct (store_bytes_shows (M sha) (Z.to_nat (cursor sha)) [b]) as (mem & -> & L & T & _); [simpl; lia|].
  cbn [mbind option_bind]. eexists. split; [reflexivity|]. split; [|done].
  split; cbn [H_ M cursor]; [done | lia | | lia |].
  - apply Forall_app_2; [done | by constructor].
  - exists m0. split; [done|]. rewrite Em, <- app_assoc, <- T. do 2 f_equal. simpl. lia.
Qed.

Lemma Process_shows m sha : filling m sha -> cursor sha = 64 ->
  exists sha', Process sha = Some sha' /\ filling m sha' /\ cursor sha' = 0 /\ l_ sha' = l_ sha.
Proof.
  intros [H1 H2 H3 H4 (m0 & Ha & Em)] Hc. rewrite Hc in Em. change (Z.to_nat 64) with 64%nat in Em.
  assert (bytes_ok (take 64 (M sha))) as Hb by (rewrite Em in H3; apply Forall_app in H3; tauto).
  destruct (Process_exact sha H2 Hb H1) as (r & mem & -> & L). eexists. split; [reflexivity|]. split; [|done].
  split; cbn [H_ M cursor]; [apply add_words5_ok | done | done | lia |]. exists m. split; [|by rewrite app_nil_r].
  rewrite Em. apply (absorbed_block _ _ _ _ []); [done|]. rewrite length_take, H2. done.
Qed.

(** An object between two updates. *)
Definition object_of (m : list Z) (sha : SecureHashAlgorithm) : Prop :=
  filling m sha /\ cursor sha < 64 /\ l_ sha = 8 * len m mod 2 ^ 64.

Lemma Update_shows data : forall m sha, object_of m sha -> bytes_ok data ->
  exists sha', Update sha data = Some sha' /\ object_of (m ++ data) sha'.
Proof.
  induction data as [|d data IH]; intros m sha (Hf & Hc & Hl) Hd; cbn [Update].
  { exists sha. by rewrite app_nil_r. }
  apply Forall_cons in Hd as [Hd Hds]. destruct (put_shows m sha d Hf Hc Hd) as (sha1 & -> & Hf1 & Hc1 & Hl1).
  cbn [mbind option_bind].
  assert (exists sha2, (if 64 <=? cursor sha1 then Process sha1 else Some sha1) = Some sha2 /\ filling (m ++ [d]) sha2 /\
    cursor sha2 < 64 /\ l_ sha2 = l_ sha) as (sha2 & -> & Hf2 & Hc2 & Hl2).
  { destruct (Z.leb_spec 64 (cursor sha1)).
    - destruct (Process_shows _ _ Hf1) as (sha2 & E & Hf2 & Hc2 & Hl2); [lia|]. exists sha2. split_and!; [done..|lia|congruence].
    - exists sha1. by split_and!. }
  cbn [mbind option_bind]. set (sha3 := SHA_ _ _ _ _ _).
  destruct (IH (m ++ [d]) sha3) as (sha' & E & H'); [|done|exists sha'; split; [done|]; by rewrite <- app_assoc in H'].
  split_and!; [by destruct Hf2; split | done |]. cbn [sha3 l_]. rewrite Hl2, Hl, len_app. change (len [d]) with 1. 
  rewrite Zplus_mod_idemp_l. f_equal. lia.
Qed.

Definition zeros (n : Z) : list Z := replicate (Z.to_nat n) 0.

Lemma zero_loop_shows turns : forall m sha to, filling m sha -> cursor sha <= to <= 64 -> to - cursor sha < Z.of_nat turns ->
  exists sha', zero_loop turns sha to = Some sha' /\ filling (m ++ zeros (to - cursor sha)) sha' /\ cursor sha' = to /\
    l_ sha' = l_ sha.
Proof.
  induction turns as [|turns IH]; intros m sha to Hf Hc Ht; [lia|]. cbn [zero_loop].
  destruct (Z.ltb_spec (cursor sha) to).
  - destruct (put_shows m sha 0 Hf) as (sha1 & -> & Hf1 & Hc1 & Hl1); [lia..|]. cbn [mbind option_bind].
    destruct (IH _ sha1 to Hf1) as (sha' & E & Hf' & Hc' & Hl'); [lia..|]. exists sha'. split_and!; try done; [|congruence].
    replace (zeros (to - cursor sha)) with (0 :: zeros (to - cursor sha1)).
    + by rewrite <- app_assoc in Hf'.
    + unfold zeros. replace (Z.to_nat (to - cursor sha)) with (S (Z.to_nat (to - cursor sha1))) by lia. done.
  - exists sha. replace (to - cursor sha) with 0 by lia. split_and!; try done; [by rewrite app_nil_r | lia].
Qed.

Lemma put_all_shows bs : forall m sha, filling m sha -> cursor sha + len bs <= 64 -> bytes_ok bs ->
  exists sha', put_all sha bs = Some sha' /\ filling (m ++ bs) sha' /\ cursor sha' = cursor sha + len bs.
Proof.
  induction bs as [|b bs IH]; intros m sha Hf Hc Hb; cbn [put_all].
  { exists sha. rewrite app_nil_r. change (len []) with 0. split_and!; [done | done | lia]. }
  rewrite len_cons in *. pose proof (len_nonneg bs). apply Forall_cons in Hb as [Hb Hbs].
  destruct (put_shows m sha b Hf) as (sha1 & -> & Hf1 & Hc1 & Hl1); [lia | done |]. cbn [mbind option_bind].
  destruct (IH _ sha1 Hf1) as (sha' & E & Hf' & Hc'); [lia | done |]. exists sha'. rewrite <- app_assoc in Hf'.
  split_and!; [done | done | lia].
Qed.

Lemma length_put x l : l = x mod 2 ^ 64 ->
  map (fun n => Z.land (Z.shiftr l n) 0xff) [56; 48; 40; 32; 24; 16; 8; 0] = rev (length_bytes x).
Proof.
  intros ->. unfold length_bytes, word_bytes, w32. cbn [map app rev]. change 0xff with (Z.ones 8).
  rewrite !Z.land_ones, !Z.shiftr_div_pow2 by done.
  change (2 ^ 64) with 18446744073709551616. change (2 ^ 56) with 72057594037927936. change (2 ^ 48) with 281474976710656.
  change (2 ^ 40) with 1099511627776. change (2 ^ 32) with 4294967296. change (2 ^ 24) with 16777216.
  change (2 ^ 16) with 65536. change (2 ^ 8) with 256. change (2 ^ 0) with 1.
  repeat (apply (f_equal2 cons); [lia|]). done.
Qed.

Lemma padding_shows m sha : object_of m sha -> exists sha', Pad sha = Some sha' /\
  filling (padded (fun n => rev (length_bytes n)) m) sha' /\ cursor sha' = 64.
Proof.
  intros (Hf & Hc & Hl). pose proof (filling_mod _ _ Hf) as Hm. pose proof (filling_cursor _ _ Hf) as Hr.
  unfold Pad. destruct (put_shows m sha 128 Hf Hc) as (sha1 & -> & Hf1 & Hc1 & Hl1); [lia|]. cbn [mbind option_bind].
  assert (exists sha2, (if 64 - 8 <? cursor sha1 then sha ← zero_loop 65 sha1 64; Process sha else Some sha1) = Some sha2 /\
    filling ((m ++ [128]) ++ zeros ((55 - len m) mod 64 - (56 - cursor sha2))) sha2 /\ cursor sha2 <= 56 /\
    56 - cursor sha2 <= (55 - len m) mod 64 /\ l_ sha2 = l_ sha) as (sha2 & -> & Hf2 & Hc2 & Hz2 & Hl2).
  { destruct (Z.ltb_spec (64 - 8) (cursor sha1)).
    - destruct (zero_loop_shows 65 _ sha1 64 Hf1) as (sha2 & -> & Hf2 & Hc2 & Hl2); [lia..|]. cbn [mbind option_bind].
      destruct (Process_shows _ _ Hf2 Hc2) as (sha3 & -> & Hf3 & Hc3 & Hl3). exists sha3. rewrite Hc3.
      split_and!; [done | | lia | lia | congruence].
      by replace ((55 - len m) mod 64 - (56 - 0)) with (64 - cursor sha1) by lia.
    - exists sha1. split_and!; [done | | lia | lia | done].
      replace ((55 - len m) mod 64 - (56 - cursor sha1)) with 0 by lia. by rewrite app_nil_r. }
  cbn [mbind option_bind].
  destruct (zero_loop_shows 65 _ sha2 (64 - 8) Hf2) as (sha3 & -> & Hf3 & Hc3 & Hl3);
    [pose proof (filling_cursor _ _ Hf2); lia..|].
  cbn [mbind option_bind]. rewrite (length_put (8 * len m)) by congruence.
  destruct (put_all_shows (rev (length_bytes (8 * len m))) _ sha3 Hf3) as (sha4 & -> & Hf4 & Hc4).
  { change (len _) with 8. lia. } { apply Forall_rev. apply Forall_app_2; apply word_bytes_ok. }
  exists sha4. split; [done|]. change (len (rev (length_bytes (8 * len m)))) with 8 in Hc4. split; [|lia].
  unfold padded. rewrite <- !app_assoc in Hf4.
  replace (replicate (Z.to_nat ((55 - len m) mod 64)) 0) with
    (zeros ((55 - len m) mod 64 - (56 - cursor sha2)) ++ zeros (64 - 8 - cursor sha2)).
  - by rewrite <- app_assoc.
  - unfold zeros. rewrite <- replicate_add. f_equal. pose proof (filling_cursor _ _ Hf2). lia.
Qed.

Lemma Final_shows m sha : object_of m sha -> exists sha', Final sha = Some sha' /\ Digest sha' = sha1 m.
Proof.
  intros H. unfold Final. destruct (padding_shows m sha H) as (shaP & -> & Hf1 & Hc1). cbn [mbind option_bind].
  destruct (Process_shows _ _ Hf1 Hc1) as (sha2 & -> & Hf2 & Hc2 & _). cbn [mbind option_bind].
  destruct Hf2 as [Hw _ _ _ (m0 & Ha & Em)]. rewrite Hc2, app_nil_r in Em. subst m0. apply absorbed_all in Ha.
  unfold Digest, sha1. rewrite <- Ha.
  destruct (H_ sha2) as [[[[a b] c] d] e]. destruct Hw as (Hwa & Hwb & Hwc & Hwd & Hwe).
  eexists. split; [reflexivity|]. cbn [H_]. by rewrite !swapends_bytes.
Qed.

(** Successive updates. *)
Fixpoint updates (sha : SecureHashAlgorithm) (chunks : list (list Z)) : option SecureHashAlgorithm :=
  match chunks with
  | [] => Some sha
  | data :: chunks => sha ← Update sha data; updates sha chunks
  end.

Lemma Updates_shows chunks : forall m sha, object_of m sha -> Forall bytes_ok chunks ->
  exists sha', updates sha chunks = Some sha' /\ object_of (m ++ concat chunks) sha'.
Proof.
  induction chunks as [|d chunks IH]; intros m sha H Hc; cbn [updates concat].
  { exists sha. by rewrite app_nil_r. }
  apply Forall_cons in Hc as [Hd Hc]. destruct (Update_shows d m sha H Hd) as (sha2 & -> & H2).
  cbn [mbind option_bind]. destruct (IH _ _ H2 Hc) as (sha' & E & H'). exists sha'. by rewrite app_assoc.
Qed.

(** C39: however a message is divided into updates, and whatever the object's memory holds
    at first, the code stays in its memory and the digest is that of the whole message by
    FIPS 180. *)
Theorem sha1_updates_exact memory chunks :
  length memory = 320%nat -> Forall bytes_ok chunks ->
  (exists sha sha', updates (Init memory) chunks = Some sha /\ Final sha = Some sha' /\ Digest sha' = sha1 (concat chunks)) /\
  SHA1HashString memory (concat chunks) = Some (sha1 (concat chunks)).
Proof.
  intros Hm Hc. assert (object_of [] (Init memory)) as Hi by (split_and!; [by apply Init_shows | done..]).
  split.
  - destruct (Updates_shows chunks [] _ Hi Hc) as (sha & E & H). destruct (Final_shows _ _ H) as (sha' & E' & D). eauto.
  - unfold SHA1HashString, SHA1HashBytes.
    destruct (Update_shows (concat chunks) [] _ Hi) as (sha & -> & H); [by apply Forall_concat|]. cbn [mbind option_bind].
    destruct (Final_shows _ _ H) as (sha' & -> & D). cbn [mbind option_bind]. f_equal. cbn [app] in D. rewrite <- D.
    apply take_ge. unfold Digest. by destruct (H_ sha') as [[[[? ?] ?] ?] ?].
Qed.

Lemma sha1_updates_exact_witness :
  (exists sha sha', updates (Init (replicate 320 7)) [[97]; replicate 70 98] = Some sha /\ Final sha = Some sha' /\
    Digest sha' = sha1 (97 :: replicate 70 98)) /\
  SHA1HashString (replicate 320 7) (97 :: replicate 70 98) = Some (sha1 (97 :: replicate 70 98)).
Proof.
  apply (sha1_updates_exact (replicate 320 7) [[97]; replicate 70 98]); [done|]. repeat constructor; lia.
Defined.

(** The standard's example: the digest of "abc". *)
Example sha1_abc :
  sha1 [97; 98; 99] = [169; 153; 62; 54; 71; 6; 129; 106; 186; 62; 37; 113; 120; 80; 194; 108; 156; 208; 216; 157].
Proof. vm_compute. reflexivity. Qed.
