(* ===== verification/WeakPtr.v ===== *)
(** * Weak pointers ([base/memory/weak_ptr.h], [weak_ptr.cc], [ref_counted.h], [ref_counted.cc])

    Flags on a heap with their reference counts, the [scoped_refptr]s that hold them, the
    owners of the flags inside the factories, and the weak pointers. Using a flag that was
    deleted, and a failed [DCHECK], is [None]. Everything happens on one sequence, as the
    flags' sequence checker demands of all that looks at a flag.

    A client of weak pointers needs to know nothing of flags: [weak_pointers_exact] shows
    that they behave like a table of the pointers that are valid. *)
From stdpp Require Import base gmap sets list.
From Stdlib Require Import ZArith Lia.
From S2P Require Import Prelude.

Local Open Scope Z_scope.

(** ** Reference counting *)

Record Flag := Flag_ {
  ref_count_ : Z;
  is_valid_ : bool;
}.

Abbreviation Heap := (gmap nat Flag).

Definition AddRef (h : Heap) (p : nat) : option Heap :=
  f ← h !! p; Some (<[p := Flag_ (ref_count_ f + 1) (is_valid_ f)]> h).

(** With the deletion at zero. *)
Definition Release (h : Heap) (p : nat) : option Heap :=
  f ← h !! p;
  guard (ref_count_ f <> 0);;
  Some (if ref_count_ f - 1 =? 0 then delete p h else <[p := Flag_ (ref_count_ f - 1) (is_valid_ f)]> h).

Definition HasOneRef (h : Heap) (p : nat) : option bool := f ← h !! p; Some (ref_count_ f =? 1).

(** The [scoped_refptr]s: the [flag_] of a factory's owner, that of a weak pointer, and
    that of the temporary that [GetRef] returns. *)
Inductive Cell :=
  | Own (factory : nat)
  | Weak (pointer : nat)
  | Temporary.

#[export] Instance cell_eq_dec : EqDecision Cell.
Proof. solve_decision. Defined.

#[export] Instance cell_countable : Countable Cell.
Proof.
  apply (inj_countable' (fun c => match c with Own o => inl o | Weak x => inr (Some x) | Temporary => inr None end)
    (fun s => match s with inl o => Own o | inr (Some x) => Weak x | inr None => Temporary end)).
  by intros [].
Defined.

(** [refs] has no entry for a null pointer; [ptrs] are the [ptr_] of the weak pointers, the
    name of a factory that of its object. *)
Record World := World_ {
  flags : Heap;
  next_flag : nat;
  refs : gmap Cell nat;
  ptrs : gmap nat nat;
  factories : gset nat;
}.

Definition new_World : World := World_ ∅ 0 ∅ ∅ ∅.

(** [operator=], and construction and destruction, of a [scoped_refptr]. *)
Definition assign (w : World) (c : Cell) (p : option nat) : option World :=
  h ← match p with Some p => AddRef (flags w) p | None => Some (flags w) end;
  h ← match refs w !! c with Some old => Release h old | None => Some h end;
  Some (World_ h (next_flag w) (partial_alter (fun _ => p) c (refs w)) (ptrs w) (factories w)).

(** ** Flags and their owners *)

Definition new_Flag (w : World) : World * nat :=
  (World_ (<[next_flag w := Flag_ 0 true]> (flags w)) (S (next_flag w)) (refs w) (ptrs w) (factories w), next_flag w).

Definition Flag_Invalidate (w : World) (p : nat) : option World :=
  f ← flags w !! p;
  Some (World_ (<[p := Flag_ (ref_count_ f) false]> (flags w)) (next_flag w) (refs w) (ptrs w) (factories w)).

Definition Flag_IsValid (w : World) (p : nat) : option bool := is_valid_ <$> flags w !! p.

(** [WeakReference::is_valid] *)
Definition is_valid (w : World) (c : Cell) : option bool :=
  match refs w !! c with Some p => Flag_IsValid w p | None => Some false end.

Definition HasRefs (w : World) (o : nat) : option bool :=
  match refs w !! Own o with Some p => one ← HasOneRef (flags w) p; Some (negb one) | None => Some false end.

(** The reference is left in [Temporary]. *)
Definition GetRef (w : World) (o : nat) : option World :=
  has ← HasRefs w o;
  w ← (if has : bool then Some w else let '(w, p) := new_Flag w in assign w (Own o) (Some p));
  assign w Temporary (refs w !! Own o).

Definition Invalidate (w : World) (o : nat) : option World :=
  match refs w !! Own o with
  | Some p => w ← Flag_Invalidate w p; assign w (Own o) None
  | None => Some w
  end.

(** ** Weak pointers and factories *)

Definition set_ptr (w : World) (x : nat) (ptr : option nat) : World :=
  World_ (flags w) (next_flag w) (refs w) (partial_alter (fun _ => ptr) x (ptrs w)) (factories w).

Definition WeakPtr_get (w : World) (x : nat) : option (option nat) :=
  valid ← is_valid w (Weak x); Some (if valid : bool then ptrs w !! x else None).

(** [y = x] *)
Definition copy (w : World) (x y : nat) : option World :=
  w ← assign w (Weak y) (refs w !! Weak x); Some (set_ptr w y (ptrs w !! x)).

(** Also what is left of a weak pointer after its destructor. *)
Definition reset (w : World) (x : nat) : option World :=
  w ← assign w (Weak x) None; Some (set_ptr w x None).

Definition WeakPtrFactory (w : World) (o : nat) : option World :=
  guard (o ∉ factories w);; Some (World_ (flags w) (next_flag w) (refs w) (ptrs w) ({[o]} ∪ factories w)).

(** [x = factory.GetWeakPtr()] *)
Definition GetWeakPtr (w : World) (o x : nat) : option World :=
  guard (o ∈ factories w);;
  w ← GetRef w o;
  w ← assign w (Weak x) (refs w !! Temporary);
  w ← assign w Temporary None;
  Some (set_ptr w x (Some o)).

Definition InvalidateWeakPtrs (w : World) (o : nat) : option World :=
  guard (o ∈ factories w);; Invalidate w o.

Definition HasWeakPtrs (w : World) (o : nat) : option bool :=
  guard (o ∈ factories w);; HasRefs w o.

(** The destructor, with that of its owner. *)
Definition delete_WeakPtrFactory (w : World) (o : nat) : option World :=
  guard (o ∈ factories w);;
  w ← Invalidate w o;
  Some (World_ (flags w) (next_flag w) (refs w) (ptrs w) (factories w ∖ {[o]})).

(** ** What clients do *)

Inductive Operation :=
  | new_factory (o : nat)
  | delete_factory (o : nat)
  | get_weak_ptr (o x : nat)
  | copy_ptr (x y : nat)
  | reset_ptr (x : nat)
  | get_ptr (x : nat)
  | invalidate (o : nat)
  | has_weak_ptrs (o : nat).

Inductive Answer :=
  | done_
  | object (o : option nat)
  | answer (b : bool).

Definition perform (w : World) (op : Operation) : option (World * Answer) :=
  match op with
  | new_factory o => w ← WeakPtrFactory w o; Some (w, done_)
  | delete_factory o => w ← delete_WeakPtrFactory w o; Some (w, done_)
  | get_weak_ptr o x => w ← GetWeakPtr w o x; Some (w, done_)
  | copy_ptr x y => w ← copy w x y; Some (w, done_)
  | reset_ptr x => w ← reset w x; Some (w, done_)
  | get_ptr x => o ← WeakPtr_get w x; Some (w, object o)
  | invalidate o => w ← InvalidateWeakPtrs w o; Some (w, done_)
  | has_weak_ptrs o => b ← HasWeakPtrs w o; Some (w, answer b)
  end.

Fixpoint run_ops (w : World) (ops : list Operation) : option (World * list Answer) :=
  match ops with
  | [] => Some (w, [])
  | op :: ops => '(w, a) ← perform w op; '(w, answers) ← run_ops w ops; Some (w, a :: answers)
  end.

(** * Pointers without flags *)

(** The factories, and the valid pointers with their objects. *)
Record Table := Table_ {
  alive : gset nat;
  valid_ptrs : gmap nat nat;
}.

(** An operation on a factory that does not exist has no answer. *)
Definition table_step (t : Table) (op : Operation) : option (Table * Answer) :=
  match op with
  | new_factory o => guard (o ∉ alive t);; Some (Table_ ({[o]} ∪ alive t) (valid_ptrs t), done_)
  | delete_factory o =>
      guard (o ∈ alive t);;
      Some (Table_ (alive t ∖ {[o]}) (filter (fun xo => xo.2 <> o) (valid_ptrs t)), done_)
  | get_weak_ptr o x => guard (o ∈ alive t);; Some (Table_ (alive t) (<[x := o]> (valid_ptrs t)), done_)
  | copy_ptr x y => Some (Table_ (alive t) (partial_alter (fun _ => valid_ptrs t !! x) y (valid_ptrs t)), done_)
  | reset_ptr x => Some (Table_ (alive t) (delete x (valid_ptrs t)), done_)
  | get_ptr x => Some (t, object (valid_ptrs t !! x))
  | invalidate o => guard (o ∈ alive t);; Some (Table_ (alive t) (filter (fun xo => xo.2 <> o) (valid_ptrs t)), done_)
  | has_weak_ptrs o =>
      guard (o ∈ alive t);; Some (t, answer (bool_decide (filter (fun xo => xo.2 = o) (valid_ptrs t) <> ∅)))
  end.

Fixpoint table_run (t : Table) (ops : list Operation) : option (Table * list Answer) :=
  match ops with
  | [] => Some (t, [])
  | op :: ops => '(t, a) ← table_step t op; '(t, answers) ← table_run t ops; Some (t, a :: answers)
  end.

(** ** Who holds a flag *)

Definition holders (f : nat) (r : gmap Cell nat) : gset Cell := dom (filter (fun cf => cf.2 = f) r).

Lemma elem_holders c f r : c ∈ holders f r <-> r !! c = Some f.
Proof.
  unfold holders. rewrite elem_of_dom. split.
  - intros [g Hg]. apply map_lookup_filter_Some in Hg as [Hg E]. cbn [snd] in E. by subst g.
  - intros H. exists f. by apply map_lookup_filter_Some.
Qed.

Lemma holders_alter f r c p :
  holders f (partial_alter (fun _ => p) c r) = if decide (p = Some f) then {[c]} ∪ holders f r else holders f r ∖ {[c]}.
Proof.
  apply set_eq. intros d. rewrite elem_holders. destruct (decide (d = c)) as [->|Hd].
  - rewrite lookup_partial_alter_eq. destruct (decide (p = Some f)); set_solver.
  - rewrite lookup_partial_alter_ne by done. rewrite <- elem_holders. destruct (decide (p = Some f)); set_solver.
Qed.

Definition held (w : World) (f : nat) : Z := Z.of_nat (size (holders f (refs w))).

(** The counts are the numbers of holders; only [spare], a new flag, may have none. *)
Record counted (spare : option nat) (w : World) : Prop := {
  counted_flags : forall f fl, flags w !! f = Some fl -> ref_count_ fl = held w f /\ (held w f = 0 -> spare = Some f);
  counted_refs : forall c f, refs w !! c = Some f -> is_Some (flags w !! f);
  counted_next : forall f, is_Some (flags w !! f) -> (f < next_flag w)%nat;
}.

(** The validity of a flag that is held. *)
Definition flag_valid (w : World) (f : nat) : bool := match flags w !! f with Some fl => is_valid_ fl | None => false end.

Lemma held_pos w c f : refs w !! c = Some f -> 0 < held w f.
Proof.
  intros H. unfold held. destruct (size (holders f (refs w))) eqn:E; [|lia].
  apply size_empty_iff in E. apply elem_holders in H. set_solver.
Qed.

(** ** [assign] *)

Definition assigned (w w' : World) (c : Cell) (p : option nat) : Prop :=
  refs w' = partial_alter (fun _ => p) c (refs w) /\ ptrs w' = ptrs w /\ factories w' = factories w /\
  next_flag w' = next_flag w /\ (forall d f, refs w' !! d = Some f -> flag_valid w' f = flag_valid w f).

Lemma held_assigned w w' c p f : refs w' = partial_alter (fun _ => p) c (refs w) ->
  held w' f = held w f + (if decide (p = Some f) then 1 else 0) - (if decide (refs w !! c = Some f) then 1 else 0).
Proof.
  intros E. unfold held. rewrite E, holders_alter. destruct (decide (p = Some f)), (decide (refs w !! c = Some f)) as [Hc|Hc].
  - rewrite subseteq_union_1_L; [lia|]. apply elem_holders in Hc. set_solver.
  - rewrite size_union, size_singleton; [lia|]. rewrite <- elem_holders in Hc. set_solver.
  - rewrite size_difference, size_singleton; [|apply elem_holders in Hc; set_solver].
    pose proof (held_pos w c f Hc). unfold held in *. lia.
  - rewrite difference_disjoint_L; [lia|]. rewrite <- elem_holders in Hc. set_solver.
Qed.

(** The references after the assignment, on heap [h]. *)
Definition with_ref (w : World) (c : Cell) (p : option nat) (h : Heap) : World :=
  World_ h (next_flag w) (partial_alter (fun _ => p) c (refs w)) (ptrs w) (factories w).

Definition one_if (b : bool) : Z := if b then 1 else 0.

Lemma held_with_ref w c p h f :
  held (with_ref w c p h) f = held w f + one_if (bool_decide (p = Some f)) - one_if (bool_decide (refs w !! c = Some f)).
Proof. rewrite (held_assigned w (with_ref w c p h) c p f eq_refl). unfold one_if. repeat case_bool_decide; repeat case_decide; done. Qed.

Lemma AddRef_shows spare w p : counted spare w -> (forall f, p = Some f -> is_Some (flags w !! f)) ->
  exists h, match p with Some p => AddRef (flags w) p | None => Some (flags w) end = Some h /\
    (forall f fl, h !! f = Some fl -> ref_count_ fl = held w f + one_if (bool_decide (p = Some f))) /\
    (forall f, is_valid_ <$> h !! f = is_valid_ <$> flags w !! f).
Proof.
  intros [H1 H2 H3] Hp. destruct p as [p|].
  - destruct (Hp p eq_refl) as [fl Hfl]. unfold AddRef. rewrite Hfl. cbn [mbind option_bind]. eexists. split; [done|]. split.
    + intros f fl' Hf. apply lookup_insert_Some in Hf as [[-> <-]|[Hne Hf]]; cbn [ref_count_].
      * rewrite bool_decide_eq_true_2 by done. by apply H1 in Hfl as [-> _].
      * rewrite bool_decide_eq_false_2 by congruence. apply H1 in Hf as [-> _]. cbn [one_if]. lia.
    + intros f. destruct (decide (f = p)) as [->|]; [by rewrite lookup_insert_eq, Hfl | by rewrite lookup_insert_ne].
  - exists (flags w). split; [done|]. split; [|done]. intros f fl Hf. apply H1 in Hf as [-> _].
    rewrite bool_decide_eq_false_2 by done. cbn [one_if]. lia.
Qed.

Lemma Release_shows w c p h1 :
  (forall f fl, h1 !! f = Some fl -> ref_count_ fl = held w f + one_if (bool_decide (p = Some f)) /\ ref_count_ fl <> 0) ->
  (forall f, refs w !! c = Some f -> is_Some (h1 !! f)) ->
  exists h, match refs w !! c with Some old => Release h1 old | None => Some h1 end = Some h /\
    (forall f fl, h !! f = Some fl -> ref_count_ fl = held (with_ref w c p h) f /\ ref_count_ fl <> 0) /\
    (forall f, held (with_ref w c p h) f <> 0 -> is_valid_ <$> h !! f = is_valid_ <$> h1 !! f) /\
    (forall f, is_Some (h !! f) -> is_Some (h1 !! f)).
Proof.
  intros Hc1 Hold. destruct (refs w !! c) as [old|] eqn:Eold.
  2:{ exists h1. split; [done|]. split_and!; [|by intros|done]. intros f fl Hf. rewrite held_with_ref, Eold.
      rewrite (bool_decide_eq_false_2 (None = Some f)) by done. cbn [one_if]. rewrite Z.sub_0_r. by apply Hc1. }
  destruct (Hold old eq_refl) as [fl Efl]. destruct (Hc1 old fl Efl) as [Hcount Hz]. unfold Release. rewrite Efl.
  cbn [mbind option_bind]. rewrite option_guard_True by done. cbn [mbind option_bind].
  assert (forall h, held (with_ref w c p h) old = ref_count_ fl - 1) as Hheld.
  { intros h. rewrite held_with_ref, Eold, (bool_decide_eq_true_2 (Some old = Some old)) by done. cbn [one_if]. lia. }
  assert (forall h f, f <> old -> held (with_ref w c p h) f = held w f + one_if (bool_decide (p = Some f))) as Hother.
  { intros h f Hne. rewrite held_with_ref, Eold, (bool_decide_eq_false_2 (Some old = Some f)) by congruence. cbn [one_if]. lia. }
  destruct (Z.eqb_spec (ref_count_ fl - 1) 0) as [Hz1|Hz1]; eexists; (split; [done|]); split_and!.
  - intros f fl' Hf. apply lookup_delete_Some in Hf as [Hne Hf]. rewrite Hother by done. by apply Hc1.
  - intros f Hf. rewrite lookup_delete_ne; [done|]. intros <-. by rewrite Hheld in Hf.
  - intros f [x Hx]. apply lookup_delete_Some in Hx as [_ Hx]. eauto.
  - intros f fl' Hf. apply lookup_insert_Some in Hf as [[<- <-]|[Hne Hf]]; [by rewrite Hheld|].
    rewrite Hother by done. by apply Hc1.
  - intros f _. destruct (decide (f = old)) as [->|]; [by rewrite lookup_insert_eq, Efl | by rewrite lookup_insert_ne].
  - intros f [x Hx]. destruct (decide (f = old)) as [->|]; [eauto|]. rewrite lookup_insert_ne in Hx by done. eauto.
Qed.

Lemma assign_shows spare w c p : counted spare w -> (forall f, p = Some f -> is_Some (flags w !! f)) ->
  (spare = None \/ spare = p) ->
  exists w', assign w c p = Some w' /\ counted None w' /\ assigned w w' c p.
Proof.
  intros H Hp Hs. destruct (AddRef_shows spare w p H Hp) as (h1 & E1 & Hc1 & Hv1). destruct H as [H1 H2 H3].
  assert (forall f, is_Some (h1 !! f) <-> is_Some (flags w !! f)) as Hd1.
  { intros f. rewrite <- (fmap_is_Some is_valid_ (h1 !! f)), Hv1. apply fmap_is_Some. }
  destruct (Release_shows w c p h1) as (h & E & Hc & Hv & Hd).
  { intros f fl Hf. pose proof (Hc1 f fl Hf) as Ec. split; [done|]. rewrite Ec. intros E0.
    destruct (proj1 (Hd1 f) ltac:(by eexists)) as [fl0 Hfl0]. destruct (H1 f fl0 Hfl0) as [_ Hz].
    unfold one_if in E0. case_bool_decide as Hpf; [unfold held in E0; lia|]. specialize (Hz ltac:(lia)). destruct Hs; congruence. }
  { intros f Hf. apply Hd1. by apply (H2 c). }
  exists (with_ref w c p h). unfold assign. rewrite E1. cbn [mbind option_bind]. rewrite E. cbn [mbind option_bind].
  split; [done|].
  assert (forall d f, refs (with_ref w c p h) !! d = Some f -> is_valid_ <$> h !! f = is_valid_ <$> flags w !! f) as Hvalid.
  { intros d f Hf. rewrite Hv, Hv1; [done|]. pose proof (held_pos (with_ref w c p h) d f Hf). lia. }
  split; [split|].
  - intros f fl Hf. apply Hc in Hf as [Hf Hz]. split; [done|]. intros E0. by rewrite E0 in Hf.
  - intros d f Hf. apply (fmap_is_Some is_valid_). change (flags (with_ref w c p h)) with h. rewrite (Hvalid d f Hf).
    apply fmap_is_Some. cbn [with_ref refs] in Hf. destruct (decide (d = c)) as [->|Hne].
    + rewrite lookup_partial_alter_eq in Hf. by apply Hp.
    + rewrite lookup_partial_alter_ne in Hf by done. by apply (H2 d).
  - intros f Hf. apply H3, Hd1, Hd, Hf.
  - split_and!; try done. intros d f Hf. pose proof (Hvalid d f Hf) as Ev. unfold flag_valid.
    change (flags (with_ref w c p h)) with h. destruct (h !! f), (flags w !! f); try done. by injection Ev.
Qed.

(** ** The table *)

(** What a cell with flag [f] and pointer [ptr] points to. *)
Definition points_to (w : World) (p : option nat) (ptr : option nat) : option nat :=
  f ← p; if flag_valid w f then ptr else None.

Record refines (w : World) (t : Table) : Prop := {
  refines_counted : counted None w;
  refines_alive : factories w = alive t;
  refines_own : forall o f, refs w !! Own o = Some f -> o ∈ factories w /\ flag_valid w f = true;
  refines_one : forall o o' f, refs w !! Own o = Some f -> refs w !! Own o' = Some f -> o = o';
  refines_valid : forall x f, refs w !! Weak x = Some f -> flag_valid w f = true ->
    exists o, ptrs w !! x = Some o /\ refs w !! Own o = Some f;
  refines_table : forall x, valid_ptrs t !! x = points_to w (refs w !! Weak x) (ptrs w !! x);
}.

Lemma assigned_eq w w' c p : assigned w w' c p -> refs w' !! c = p.
Proof. intros (E & _). rewrite E. apply lookup_partial_alter_eq. Qed.

Lemma assigned_ne w w' c p d : assigned w w' c p -> d <> c -> refs w' !! d = refs w !! d.
Proof. intros (E & _) H. rewrite E. by apply lookup_partial_alter_ne. Qed.

Lemma assigned_valid w w' c p d f : assigned w w' c p -> refs w' !! d = Some f -> flag_valid w' f = flag_valid w f.
Proof. intros (_ & _ & _ & _ & H). apply H. Qed.

Lemma assigned_points w w' c p d ptr : assigned w w' c p -> points_to w' (refs w' !! d) ptr = points_to w (refs w' !! d) ptr.
Proof.
  intros H. unfold points_to. destruct (refs w' !! d) as [f|] eqn:E; [|done]. cbn [mbind option_bind].
  by rewrite (assigned_valid _ _ _ _ _ _ H E).
Qed.

(** The temporary is of no importance to the table. *)
Lemma assign_temporary w t p : refines w t -> (forall f, p = Some f -> is_Some (flags w !! f)) ->
  exists w', assign w Temporary p = Some w' /\ refines w' t /\ assigned w w' Temporary p.
Proof.
  intros [H1 H2 H3 H4 H5 H6] Hp. destruct (assign_shows None w Temporary p H1 Hp) as (w' & E & Hc & Ha); [by left|].
  exists w'. split; [done|]. split; [|done]. pose proof Ha as (_ & Eptrs & Efact & _).
  assert (forall d, d <> Temporary -> refs w' !! d = refs w !! d) as Hne by (intros d; by apply (assigned_ne _ _ _ _ _ Ha)).
  split; [done | congruence | | | |].
  - intros o f Ho. pose proof (assigned_valid _ _ _ _ _ _ Ha Ho) as ->. rewrite Hne in Ho by done. rewrite Efact. by apply H3.
  - intros o o' f. rewrite !Hne by done. apply H4.
  - intros x f Hx. pose proof (assigned_valid _ _ _ _ _ _ Ha Hx) as ->. rewrite Eptrs. rewrite Hne in * by done.
    intros Hv. destruct (H5 x f Hx Hv) as (o & ? & ?). exists o. by rewrite Hne.
  - intros x. rewrite (assigned_points _ _ _ _ _ _ Ha), Eptrs, Hne by done. apply H6.
Qed.

(** A weak pointer is given a flag and a pointer that belong together. *)
Lemma assign_weak w t x p ptr : refines w t -> (forall f, p = Some f -> is_Some (flags w !! f)) ->
  (forall f, p = Some f -> flag_valid w f = true -> exists o, ptr = Some o /\ refs w !! Own o = Some f) ->
  exists w', assign w (Weak x) p = Some w' /\ assigned w w' (Weak x) p /\
    refines (set_ptr w' x ptr) (Table_ (alive t) (partial_alter (fun _ => points_to w p ptr) x (valid_ptrs t))).
Proof.
  intros [H1 H2 H3 H4 H5 H6] Hp Hptr. destruct (assign_shows None w (Weak x) p H1 Hp) as (w' & E & Hc & Ha); [by left|].
  exists w'. split; [done|]. split; [done|]. pose proof Ha as (_ & Eptrs & Efact & _).
  assert (forall d, d <> Weak x -> refs w' !! d = refs w !! d) as Hne by (intros d; by apply (assigned_ne _ _ _ _ _ Ha)).
  split; cbn [set_ptr factories refs ptrs alive valid_ptrs];
    repeat change (flag_valid (set_ptr w' x ptr)) with (flag_valid w');
    repeat change (points_to (set_ptr w' x ptr)) with (points_to w').
  - destruct Hc as [Hc1 Hc2 Hc3]. by split.
  - congruence.
  - intros o f Ho. pose proof (assigned_valid _ _ _ _ _ _ Ha Ho) as ->. rewrite Hne in Ho by done. rewrite Efact. by apply H3.
  - intros o o' f. rewrite !Hne by done. apply H4.
  - intros y f Hy. pose proof (assigned_valid _ _ _ _ _ _ Ha Hy) as ->. intros Hv.
    destruct (decide (y = x)) as [->|Hyx].
    + rewrite (assigned_eq _ _ _ _ Ha) in Hy. destruct (Hptr f Hy Hv) as (o & -> & Ho). exists o.
      rewrite lookup_partial_alter_eq. split; [done|]. by rewrite Hne.
    + rewrite Hne in Hy by congruence. destruct (H5 y f Hy Hv) as (o & ? & ?). exists o.
      rewrite lookup_partial_alter_ne, Eptrs, Hne by done. done.
  - intros y. rewrite (assigned_points _ _ _ _ _ _ Ha). destruct (decide (y = x)) as [->|Hyx].
    + by rewrite !lookup_partial_alter_eq, (assigned_eq _ _ _ _ Ha).
    + rewrite !lookup_partial_alter_ne, Eptrs, Hne by congruence. apply H6.
Qed.

(** *** The owner *)

(** A pointer of the table has the flag of its object's owner. *)
Lemma table_entry w t x o : refines w t -> valid_ptrs t !! x = Some o ->
  exists f, refs w !! Weak x = Some f /\ refs w !! Own o = Some f.
Proof.
  intros [H1 H2 H3 H4 H5 H6]. rewrite H6. unfold points_to. destruct (refs w !! Weak x) as [f|] eqn:Ex; [|done].
  cbn [mbind option_bind]. destruct (flag_valid w f) eqn:Ev; [|done]. intros Eo.
  destruct (H5 x f Ex Ev) as (o' & E1 & E2). exists f. split; [done|]. congruence.
Qed.

Lemma flag_entry w t x o f : refines w t -> refs w !! Weak x = Some f -> refs w !! Own o = Some f ->
  valid_ptrs t !! x = Some o.
Proof.
  intros [H1 H2 H3 H4 H5 H6] Hx Ho. rewrite H6. unfold points_to. rewrite Hx. cbn [mbind option_bind].
  destruct (H3 o f Ho) as [_ Hv]. rewrite Hv. destruct (H5 x f Hx Hv) as (o' & E1 & E2). rewrite E1. f_equal. eauto.
Qed.

(** Whether the table has a pointer to [o]. *)
Lemma pointed_at t o :
  (filter (fun xo => xo.2 = o) (valid_ptrs t) <> ∅ /\ exists x, valid_ptrs t !! x = Some o) \/
  (filter (fun xo => xo.2 = o) (valid_ptrs t) = ∅ /\ forall x, valid_ptrs t !! x <> Some o).
Proof.
  destruct (decide (filter (fun xo => xo.2 = o) (valid_ptrs t) = ∅)) as [Hf|Hf]; [right|left]; (split; [done|]).
  - intros x Hx. by apply (map_filter_empty_not_lookup _ _ x o Hf).
  - apply map_choose in Hf as (x & o' & Hx). apply map_lookup_filter_Some in Hx as [Hx Heq].
    cbn [snd] in Heq. subst o'. by exists x.
Qed.

Lemma HasRefs_shows w t o : refines w t -> refs w !! Temporary = None ->
  HasRefs w o = Some (bool_decide (filter (fun xo => xo.2 = o) (valid_ptrs t) <> ∅)).
Proof.
  intros H Ht. pose proof (refines_counted _ _ H) as H1. unfold HasRefs.
  destruct (refs w !! Own o) as [f|] eqn:Eo.
  - destruct (counted_refs _ _ H1 _ _ Eo) as [fl Hfl]. unfold HasOneRef. rewrite Hfl. cbn [mbind option_bind].
    f_equal. destruct (counted_flags _ _ H1 _ _ Hfl) as [-> _]. unfold held. destruct (pointed_at t o) as [[Hf (x & Hx)]|[Hf Hnone]].
    + rewrite bool_decide_eq_true_2 by done. destruct (table_entry w t x o H Hx) as (f' & Ex & Eo'). assert (f' = f) as -> by congruence.
      apply negb_true_iff, Z.eqb_neq. assert (2 <= size (holders f (refs w)))%nat; [|lia].
      change 2%nat with (1 + 1)%nat. rewrite <- (size_singleton (C := gset Cell) (Own o)) at 1.
      rewrite <- (size_singleton (C := gset Cell) (Weak x)), <- size_union by set_solver.
      apply subseteq_size. intros c Hc. apply elem_holders. set_solver.
    + rewrite bool_decide_eq_false_2 by (by intros H0). apply negb_false_iff, Z.eqb_eq. assert (holders f (refs w) = {[Own o]}) as ->; [|by rewrite size_singleton].
      apply set_eq. intros c. rewrite elem_holders, elem_of_singleton. split; [|by intros ->].
      intros Hc. destruct c as [o'|x|]; [f_equal; by apply (refines_one _ _ H o' o f) | | congruence].
      exfalso. apply (Hnone x). by apply (flag_entry w t x o f).
  - destruct (pointed_at t o) as [[Hf (x & Hx)]|[Hf _]]; [|by rewrite bool_decide_eq_false_2 by (by intros H0)].
    destruct (table_entry w t x o H Hx) as (f & _ & E). congruence.
Qed.

Lemma fresh_not_held w spare c f : counted spare w -> refs w !! c = Some f -> f <> next_flag w.
Proof. intros H Hc ->. apply (counted_refs _ _ H), (counted_next _ _ H) in Hc. lia. Qed.

(** A new flag for an owner whose flag no weak pointer has. *)
Lemma new_flag_shows w t o : refines w t -> o ∈ factories w ->
  (forall x f, refs w !! Own o = Some f -> refs w !! Weak x <> Some f) ->
  exists w', (let '(w, p) := new_Flag w in assign w (Own o) (Some p)) = Some w' /\ refines w' t /\
    refs w' !! Own o <> None /\ refs w' !! Temporary = refs w !! Temporary.
Proof.
  intros [H1 H2 H3 H4 H5 H6] Ho Hlast. cbn [new_Flag]. set (p := next_flag w). set (w1 := World_ _ (S p) _ _ _).
  assert (forall f, f <> p -> flag_valid w1 f = flag_valid w f) as Hv1.
  { intros f Hf. unfold flag_valid. cbn [w1 flags]. by rewrite lookup_insert_ne. }
  assert (counted (Some p) w1) as Hc1.
  { destruct H1 as [C1 C2 C3]. split.
    - intros f fl Hf. cbn [w1 flags] in Hf. apply lookup_insert_Some in Hf as [[<- <-]|[Hne Hf]].
      + cbn [ref_count_]. split; [|done]. unfold held. replace (holders p (refs w1)) with (∅ : gset Cell); [done|].
        symmetry. apply set_eq. intros c. rewrite elem_holders. split; [|set_solver]. intros Hc.
        by apply (fresh_not_held w None) in Hc.
      + apply C1 in Hf as [-> Hz]. split; [done|]. intros E. by apply Hz in E.
    - intros c f Hc. cbn [w1 flags]. apply lookup_insert_is_Some'. right. by apply (C2 c).
    - intros f Hf. cbn [w1 flags next_flag] in *. apply lookup_insert_is_Some' in Hf as [->|Hf]; [lia|].
      apply C3 in Hf. fold p in Hf. lia. }
  destruct (assign_shows (Some p) w1 (Own o) (Some p) Hc1) as (w' & E & Hc & Ha); [|by right|].
  { intros f [= <-]. cbn [w1 flags]. rewrite lookup_insert_eq. eauto. }
  exists w'. split; [done|]. pose proof Ha as (_ & Eptrs & Efact & _). cbn [w1 ptrs factories] in Eptrs, Efact.
  assert (forall d, d <> Own o -> refs w' !! d = refs w !! d) as Hne by (intros d; by apply (assigned_ne _ _ _ _ _ Ha)).
  pose proof (assigned_eq _ _ _ _ Ha) as Eo.
  assert (forall d f, d <> Own o -> refs w !! d = Some f -> f <> p /\ flag_valid w' f = flag_valid w f) as Hold.
  { intros d f Hd Hf. pose proof (fresh_not_held w None d f H1 Hf) as Hfp. split; [done|]. rewrite <- Hv1 by done.
    apply (assigned_valid _ _ _ _ d _ Ha). by rewrite Hne. }
  split; [|split; [congruence | by apply Hne]].
  split; [done | congruence | | | |].
  - intros o' f Hf. rewrite Efact. destruct (decide (o' = o)) as [->|Hoo].
    + split; [done|]. rewrite (assigned_valid _ _ _ _ _ _ Ha Hf). assert (f = p) as -> by congruence.
      unfold flag_valid. cbn [w1 flags]. by rewrite lookup_insert_eq.
    + rewrite Hne in Hf by congruence. destruct (Hold (Own o') f ltac:(congruence) Hf) as [_ ->]. by apply H3.
  - intros o1 o2 f Hf1 Hf2. destruct (decide (o1 = o)) as [->|Ho1], (decide (o2 = o)) as [->|Ho2]; [done| | |].
    + rewrite Hne in Hf2 by congruence. destruct (Hold (Own o2) f ltac:(congruence) Hf2) as [Hfp _]. congruence.
    + rewrite Hne in Hf1 by congruence. destruct (Hold (Own o1) f ltac:(congruence) Hf1) as [Hfp _]. congruence.
    + rewrite Hne in Hf1, Hf2 by congruence. eauto.
  - intros x f Hx Hv. rewrite Hne in Hx by done. destruct (Hold (Weak x) f ltac:(done) Hx) as [_ Hvf]. rewrite Hvf in Hv.
    destruct (H5 x f Hx Hv) as (o' & E1 & E2). exists o'. rewrite Eptrs. split; [done|]. rewrite Hne; [done|].
    intros [= ->]. by apply (Hlast x f).
  - intros x. rewrite Eptrs, H6, Hne by done. unfold points_to. destruct (refs w !! Weak x) as [f|] eqn:Ex; [|done].
    cbn [mbind option_bind]. by destruct (Hold (Weak x) f ltac:(done) Ex) as [_ ->].
Qed.

Lemma GetRef_shows w t o : refines w t -> refs w !! Temporary = None -> o ∈ factories w ->
  exists w' f, GetRef w o = Some w' /\ refines w' t /\ refs w' !! Own o = Some f /\ refs w' !! Temporary = Some f.
Proof.
  intros H Ht Ho. unfold GetRef. rewrite (HasRefs_shows w t o H Ht). cbn [mbind option_bind].
  assert (exists w1, (if bool_decide (filter (fun xo => xo.2 = o) (valid_ptrs t) <> ∅) then Some w
      else let '(w, p) := new_Flag w in assign w (Own o) (Some p)) = Some w1 /\ refines w1 t /\ refs w1 !! Own o <> None)
    as (w1 & -> & H1 & Ho1).
  { destruct (pointed_at t o) as [[Hf (x & Hx)]|[Hf Hnone]].
    - rewrite bool_decide_eq_true_2 by done. exists w. split; [done|]. split; [done|].
      destruct (table_entry w t x o H Hx) as (f & _ & E). by rewrite E.
    - rewrite bool_decide_eq_false_2 by (by intros H0). destruct (new_flag_shows w t o H Ho) as (w1 & E & H1 & Ho1 & _); [|by exists w1].
      intros x f Eo Ex. apply (Hnone x). by apply (flag_entry w t x o f). }
  cbn [mbind option_bind]. destruct (refs w1 !! Own o) as [f|] eqn:Ef; [|done].
  destruct (assign_temporary w1 t (Some f) H1) as (w2 & E2 & H2 & Ha).
  { intros f' [= <-]. apply (counted_refs _ _ (refines_counted _ _ H1) _ _ Ef). }
  exists w2, f. split; [done|]. split; [done|]. split; [|by apply (assigned_eq _ _ _ _ Ha)].
  by rewrite (assigned_ne _ _ _ _ _ Ha).
Qed.

Lemma Invalidate_shows w t o : refines w t ->
  exists w', Invalidate w o = Some w' /\
    refines w' (Table_ (alive t) (filter (fun xo => xo.2 <> o) (valid_ptrs t))) /\
    refs w' !! Own o = None /\ refs w' !! Temporary = refs w !! Temporary.
Proof.
  intros H. pose proof H as [H1 H2 H3 H4 H5 H6]. unfold Invalidate. destruct (refs w !! Own o) as [f|] eqn:Eo.
  - destruct (counted_refs _ _ H1 _ _ Eo) as [fl Hfl]. unfold Flag_Invalidate. rewrite Hfl. cbn [mbind option_bind].
    set (w1 := World_ _ _ _ _ _).
    assert (forall g, flag_valid w1 g = if decide (g = f) then false else flag_valid w g) as Hv1.
    { intros g. unfold flag_valid. cbn [w1 flags]. destruct (decide (g = f)) as [->|]; [by rewrite lookup_insert_eq|].
      by rewrite lookup_insert_ne. }
    assert (counted None w1) as Hc1.
    { destruct H1 as [C1 C2 C3]. split.
      - intros g gl Hg. cbn [w1 flags] in Hg. apply lookup_insert_Some in Hg as [[<- <-]|[Hne Hg]]; [|by apply C1 in Hg].
        cbn [ref_count_]. by apply C1 in Hfl.
      - intros c g Hc. cbn [w1 flags]. apply lookup_insert_is_Some'. right. by apply (C2 c).
      - intros g Hg. cbn [w1 flags next_flag] in *. apply lookup_insert_is_Some' in Hg as [->|Hg]; apply C3; eauto. }
    destruct (assign_shows None w1 (Own o) None Hc1) as (w' & E & Hc & Ha); [done | by left |].
    exists w'. split; [done|]. pose proof Ha as (_ & Eptrs & Efact & _). cbn [w1 ptrs factories] in Eptrs, Efact.
    assert (forall d, d <> Own o -> refs w' !! d = refs w !! d) as Hne by (intros d; by apply (assigned_ne _ _ _ _ _ Ha)).
    pose proof (assigned_eq _ _ _ _ Ha) as Eo'.
    assert (forall d g, refs w' !! d = Some g -> flag_valid w' g = if decide (g = f) then false else flag_valid w g) as Hv.
    { intros d g Hg. rewrite <- Hv1. apply (assigned_valid _ _ _ _ _ _ Ha Hg). }
    split; [|split; [done | by apply Hne]].
    split; cbn [alive valid_ptrs]; [done | congruence | | | |].
    + intros o' g Hg. rewrite (Hv _ _ Hg). destruct (decide (o' = o)) as [->|Hoo]; [congruence|].
      rewrite Hne in Hg by congruence. rewrite Efact. destruct (decide (g = f)) as [->|]; [|by apply H3].
      exfalso. eauto.
    + intros o1 o2 g Hg1 Hg2. destruct (decide (o1 = o)) as [->|]; [congruence|].
      destruct (decide (o2 = o)) as [->|]; [congruence|]. rewrite Hne in Hg1, Hg2 by congruence. eauto.
    + intros x g Hx. rewrite (Hv _ _ Hx). destruct (decide (g = f)) as [->|Hgf]; [done|]. intros Hg.
      rewrite Hne in Hx by done. destruct (H5 x g Hx Hg) as (o' & E1 & E2). exists o'. rewrite Eptrs. split; [done|].
      rewrite Hne; [done|]. intros [= ->]. congruence.
    + intros x. rewrite Eptrs. pose proof (H6 x) as Hx6. unfold points_to in *. destruct (refs w' !! Weak x) as [g|] eqn:Ex.
      * cbn [mbind option_bind]. rewrite (Hv _ _ Ex). rewrite Hne in Ex by done. rewrite Ex in Hx6. cbn [mbind option_bind] in Hx6.
        destruct (flag_valid w g) eqn:Eg.
        -- destruct (H5 x g Ex Eg) as (o' & E1 & E2). rewrite E1 in *. destruct (decide (g = f)) as [->|Hgf].
           ++ apply map_lookup_filter_None. right. intros o2 Ho2. rewrite Hx6 in Ho2. injection Ho2 as <-. cbn [snd].
              intros Hn. apply Hn. eauto.
           ++ apply map_lookup_filter_Some. split; [done|]. cbn [snd]. intros ->. congruence.
        -- destruct (decide (g = f)); apply map_lookup_filter_None; by left.
      * cbn [mbind option_bind]. rewrite Hne in Ex by done. rewrite Ex in Hx6. apply map_lookup_filter_None. by left.
  - exists w. split; [done|]. split; [|done]. replace (filter _ _) with (valid_ptrs t); [by destruct t|].
    symmetry. apply map_filter_id. intros x o' Hx. cbn [snd]. intros ->.
    destruct (table_entry w t x o H Hx) as (f & _ & E). congruence.
Qed.

(** ** Operations *)

Definition settled (w : World) (t : Table) : Prop := refines w t /\ refs w !! Temporary = None.

Lemma get_shows w t x : refines w t -> WeakPtr_get w x = Some (valid_ptrs t !! x).
Proof.
  intros [H1 H2 H3 H4 H5 H6]. unfold WeakPtr_get, is_valid, Flag_IsValid. rewrite H6. unfold points_to.
  destruct (refs w !! Weak x) as [f|] eqn:E; [|done]. destruct (counted_refs _ _ H1 _ _ E) as [fl Hfl].
  cbn [mbind option_bind]. unfold flag_valid. by rewrite Hfl.
Qed.

(** [copy] and [reset] *)
Lemma assign_weak_settled w t x p ptr : settled w t -> (forall f, p = Some f -> is_Some (flags w !! f)) ->
  (forall f, p = Some f -> flag_valid w f = true -> exists o, ptr = Some o /\ refs w !! Own o = Some f) ->
  exists w', assign w (Weak x) p = Some w' /\
    settled (set_ptr w' x ptr) (Table_ (alive t) (partial_alter (fun _ => points_to w p ptr) x (valid_ptrs t))).
Proof.
  intros [H Ht] Hp Hptr. destruct (assign_weak w t x p ptr H Hp Hptr) as (w' & E & Ha & H').
  exists w'. split; [done|]. split; [done|]. cbn [set_ptr refs]. by rewrite (assigned_ne _ _ _ _ _ Ha).
Qed.

Lemma copy_shows w t x y : settled w t ->
  exists w', copy w x y = Some w' /\ settled w' (Table_ (alive t) (partial_alter (fun _ => valid_ptrs t !! x) y (valid_ptrs t))).
Proof.
  intros H. pose proof H as [[H1 H2 H3 H4 H5 H6] _]. unfold copy.
  destruct (assign_weak_settled w t y (refs w !! Weak x) (ptrs w !! x) H) as (w' & E & H').
  - intros f. apply (counted_refs _ _ H1).
  - intros f. apply H5.
  - rewrite E. rewrite <- H6 in H'. cbn [mbind option_bind]. eexists. split; [done|].
    assert (ptrs w' = ptrs w) as ->; [|done].
    destruct (assign_shows None w (Weak y) (refs w !! Weak x) H1) as (w2 & E2 & _ & (_ & Hp & _)).
    { intros f. apply (counted_refs _ _ H1). } { by left. } congruence.
Qed.

Lemma reset_shows w t x : settled w t ->
  exists w', reset w x = Some w' /\ settled w' (Table_ (alive t) (delete x (valid_ptrs t))).
Proof.
  intros H. unfold reset. destruct (assign_weak_settled w t x None None H) as (w' & -> & H'); [done|done|].
  cbn [mbind option_bind]. by eexists.
Qed.

Lemma GetWeakPtr_shows w t o x : settled w t -> o ∈ alive t ->
  exists w', GetWeakPtr w o x = Some w' /\ settled w' (Table_ (alive t) (<[x := o]> (valid_ptrs t))).
Proof.
  intros [H Ht] Ho. unfold GetWeakPtr. rewrite option_guard_True by (by rewrite (refines_alive _ _ H)). cbn [mbind option_bind].
  destruct (GetRef_shows w t o H Ht) as (w1 & f & -> & H1 & Eo & Et); [by rewrite (refines_alive _ _ H)|].
  cbn [mbind option_bind]. rewrite Et. destruct (refines_own _ _ H1 _ _ Eo) as [_ Hv].
  destruct (assign_weak w1 t x (Some f) (Some o) H1) as (w2 & -> & Ha2 & H2).
  { intros g [= <-]. apply (counted_refs _ _ (refines_counted _ _ H1) _ _ Eo). } { intros g [= <-] _. by exists o. }
  cbn [mbind option_bind]. unfold points_to in H2. cbn [mbind option_bind] in H2. rewrite Hv in H2.
  destruct (assign_temporary _ _ None H2) as (w3 & E3 & H3 & Ha3); [done|].
  assert (exists w4, assign w2 Temporary None = Some w4 /\ w3 = set_ptr w4 x (Some o)) as (w4 & -> & ->).
  { revert E3. unfold assign, set_ptr. cbn [flags refs next_flag ptrs factories mbind option_bind].
    destruct (refs w2 !! Temporary); [|intros [= <-]; by eexists].
    destruct (Release _ _); [|done]. intros [= <-]. by eexists. }
  cbn [mbind option_bind]. eexists. split; [done|]. split; [exact H3|]. apply (assigned_eq _ _ _ _ Ha3).
Qed.

Lemma perform_shows w t op t' a : settled w t -> table_step t op = Some (t', a) ->
  exists w', perform w op = Some (w', a) /\ settled w' t'.
Proof.
  intros H. pose proof H as [Hr Ht]. pose proof (refines_alive _ _ Hr) as Ea.
  destruct op as [o|o|o x|x y|x|x|o|o]; cbn [table_step perform].
  - case_guard as Hg; [|done]. intros [= <- <-]. unfold WeakPtrFactory. rewrite option_guard_True by (by rewrite Ea).
    eexists. split; [done|]. split; [|done]. destruct Hr as [H1 H2 H3 H4 H5 H6].
    split; cbn [factories refs ptrs alive valid_ptrs]; try done; [by destruct H1 as [C1 C2 C3]; split | congruence |].
    intros o' f Hf. destruct (H3 o' f Hf). split; [set_solver | done].
  - case_guard as Hg; [|done]. intros [= <- <-]. unfold delete_WeakPtrFactory. rewrite option_guard_True by (by rewrite Ea).
    cbn [mbind option_bind]. destruct (Invalidate_shows w t o Hr) as (w1 & -> & H1 & Eo & Et). cbn [mbind option_bind].
    eexists. split; [done|]. split; [|by rewrite <- Ht]. destruct H1 as [H1 H2 H3 H4 H5 H6].
    split; cbn [factories refs ptrs alive valid_ptrs] in *; try done; [by destruct H1 as [C1 C2 C3]; split | congruence |].
    intros o' f Hf. destruct (H3 o' f Hf). split; [|done]. apply elem_of_difference. split; [done|]. set_unfold. congruence.
  - case_guard as Hg; [|done]. intros [= <- <-]. destruct (GetWeakPtr_shows w t o x H Hg) as (w' & -> & H'). by exists w'.
  - intros [= <- <-]. destruct (copy_shows w t x y H) as (w' & -> & H'). by exists w'.
  - intros [= <- <-]. destruct (reset_shows w t x H) as (w' & -> & H'). by exists w'.
  - intros [= <- <-]. rewrite (get_shows w t x Hr). by exists w.
  - case_guard as Hg; [|done]. intros [= <- <-]. unfold InvalidateWeakPtrs. rewrite option_guard_True by (by rewrite Ea).
    cbn [mbind option_bind]. destruct (Invalidate_shows w t o Hr) as (w1 & -> & H1 & Eo & Et). exists w1. split; [done|].
    split; [done | congruence].
  - case_guard as Hg; [|done]. intros [= <- <-]. unfold HasWeakPtrs. rewrite option_guard_True by (by rewrite Ea).
    cbn [mbind option_bind]. rewrite (HasRefs_shows w t o Hr Ht). by exists w.
Qed.

Lemma run_ops_shows ops : forall w t t' answers, settled w t -> table_run t ops = Some (t', answers) ->
  exists w', run_ops w ops = Some (w', answers) /\ settled w' t'.
Proof.
  induction ops as [|op ops IH]; intros w t t' answers H; cbn [table_run run_ops]; [intros [= <- <-]; by exists w|].
  destruct (table_step t op) as [[t1 a]|] eqn:E1; [|done]. cbn [mbind option_bind].
  destruct (table_run t1 ops) as [[t2 rest]|] eqn:E2; [|done]. intros [= <- <-].
  destruct (perform_shows w t op t1 a H E1) as (w1 & -> & H1). cbn [mbind option_bind].
  destruct (IH w1 t1 t2 rest H1 E2) as (w2 & -> & H2). by exists w2.
Qed.

(** C40: whatever factories, weak pointers and copies of them a client makes, gets, resets,
    invalidates and destroys, no flag is used after it was deleted and the pointers behave
    as a table of the valid ones: a pointer gets its object until the object's pointers
    are invalidated or it is reset, and a factory has weak pointers exactly when one of its
    pointers is valid. A flag is on the heap exactly as long as someone holds it. *)
Theorem weak_pointers_exact ops t answers :
  table_run (Table_ ∅ ∅) ops = Some (t, answers) ->
  exists w, run_ops new_World ops = Some (w, answers) /\
    (forall f, is_Some (flags w !! f) <-> exists c, refs w !! c = Some f).
Proof.
  intros H. destruct (run_ops_shows ops new_World (Table_ ∅ ∅) t answers) as (w & E & [Hr _]); [|done|].
  - split; [|done]. split; try done. split; try done. by intros f [? ?].
  - exists w. split; [done|]. pose proof (refines_counted _ _ Hr) as [C1 C2 C3]. intros f. split; [|by intros (c & Hc); eauto].
    intros [fl Hfl]. destruct (C1 f fl Hfl) as [_ Hz]. destruct (decide (holders f (refs w) = ∅)) as [He|He].
    + unfold held in Hz. rewrite He, size_empty in Hz. by specialize (Hz eq_refl).
    + apply set_choose_L in He as [c Hc]. apply elem_holders in Hc. by exists c.
Qed.

Definition example_ops : list Operation :=
  [new_factory 1; get_weak_ptr 1 7; copy_ptr 7 8; reset_ptr 7; has_weak_ptrs 1; invalidate 1; has_weak_ptrs 1; get_ptr 8;
   get_weak_ptr 1 7; get_ptr 7; delete_factory 1; get_ptr 7]%nat.

Lemma weak_pointers_exact_witness :
  exists w, run_ops new_World example_ops =
    Some (w, [done_; done_; done_; done_; answer true; done_; answer false; object None; done_; object (Some 1%nat);
              done_; object None]) /\
    (forall f, is_Some (flags w !! f) <-> exists c, refs w !! c = Some f).
Proof. eapply (weak_pointers_exact example_ops). vm_compute. reflexivity. Defined.
